(* ===== verification/_CoqProject ===== *)
-Q . S2P
Prelude.v
Paths.v
PathKeys.v
PathCoordinator.v
Sql.v
StateModel.v
StoreClock.v
OperationStore.v
OperationRegistry.v
UploadStore.v
PurgeStore.v
Utils.v
RootedPaths.v
PathPolicy.v
StateScan.v
StoreActor.v
DiskSpace.v
ListSort.v
ListSnapshot.v
Problem.v
FileRevision.v
UploadProtocol.v
UploadWorld.v
UploadRecord.v
UploadFailure.v
UploadCommit.v
UploadTransfer.v
UploadPrepare.v
UploadHandler.v
UploadLaws.v
UploadMemory.v
UploadSafety.v
UploadEndings.v
UploadPublish.v
UploadContract.v
UploadRuns.v
UploadReturns.v
UploadHistory.v
OperationResponse.v
Kernel.v
KernelLaws.v
KernelMemory.v
TrashPurge.v
TrashSafety.v
KernelMotion.v
TrashReturns.v
RootedParents.v
TrashMoves.v
KernelSteps.v
TrashCapture.v
PurgeWorker.v
PurgeOwnership.v
MutationWorld.v
RootedMutations.v
DeleteHandler.v
BrowserApi.v
MutationLaws.v
MutationMemory.v
MutationSafety.v
DeleteContract.v
BrowserContract.v
MutationReplay.v
DirectoryVisits.v
DirectoryTime.v
Maintenance.v
MaintenanceSafety.v
StageClaims.v
MaintenanceReturns.v
Download.v
DownloadContract.v
Listing.v
ListingBounds.v
ListingReturns.v
ListingDirectory.v
ListApi.v
ListApiContract.v
UploadRequests.v
UploadBoundary.v
