(* ===== verification/Prelude.v ===== *)
(** * xczs: a verification of the file server's core

    xczs is a file server over one shared directory.  Its own logic, as opposed to
    the HTTP and file-system glue around it, is what keeps concurrent and
    interrupted mutations safe: namespace leases, durable records of operations,
    uploads and deletions, disk-space reservations, and stable listings.  This
    library models that logic from the sources under [src/src] and [src/schema] and
    proves what it promises.

    ** The program's parts and the files that model them

    - [Prelude.v] (this file): [result] for [anyhow::Result] and [io::Result],
      64-bit arithmetic with its checked, saturating and wrapping operations, byte
      strings, big-endian integers, three-way comparisons ([TotalCmp]), sums over
      maps, and the tactics [inv_result] and [split_bool].
    - [Paths.v]: the part of [std::path] the sources use; [normalize_key] of
      [server/path_coordinator.rs].
    - [PathKeys.v]: [ResolvedPathKey], [LeaseKey] and the conflict and containment
      tests on them; the class [PathResolver] states what resolution promises to its
      clients (every key is anchored at the shared root).
    - [PathCoordinator.v]: the waiter queue and the leases of
      [server/path_coordinator.rs].  [CoordinatorInner] is the state behind the
      mutexes, [Task] the local state of one acquiring future, [exec] one atomic
      step for a scheduler's choice of [Action].
    - [Sql.v]: tables keyed by their primary key, with the statements the store
      issues, three-valued [CHECK] constraints, and key-set paging.
    - [StateModel.v], [StoreClock.v]: the durable records, limits and clock of
      [server/state_store/model.rs] and [server/state_store.rs].
    - [OperationStore.v], [UploadStore.v], [PurgeStore.v]: the commands of
      [server/state_store/operation.rs], [upload.rs] and [purge.rs] over their
      tables of [schema/product.sql], each with a [Command] type, [exec] for one
      transaction and [run] for a sequence, and the startup recovery of
      [server/state_store/database.rs].
    - [OperationRegistry.v]: the guards and outcomes of
      [server/operation_registry.rs] over the operation table.
    - [RootedPaths.v]: relative paths, and the resolution of a path to its key, of
      [server/rooted_fs.rs], over a record [Fs] of the descriptor system calls; its
      resolver is an instance of [PathResolver].
    - [PathPolicy.v]: the request paths and reserved names of
      [server/path_policy.rs] and [server/internal_names.rs].
    - [StateScan.v]: the paged scan of all paths durable records depend on, and the
      verdict of [StatePathScanner], which [server.rs] consults before a rename, a
      delete or a replacing upload.
    - [StoreActor.v]: the worker of [server/state_store/actor.rs] that owns the
      database: control messages before commands, undeliverable reservations,
      postponed cleanups; and [recover_database].
    - [DiskSpace.v]: the reservations of [server/disk_space.rs] as an interleaving
      of the steps of any number of requests and reservations.
    - [ListSort.v], [ListSnapshot.v]: the interruptible stable sort of
      [server/listing.rs] and the snapshot cache with its cursors of
      [server/listing/snapshot.rs].
    - [Utils.v], [Problem.v], [UploadProtocol.v]: byte ranges, hexadecimal and
      decimal text of [utils.rs]; the error vocabulary and the responses of
      [server/problem.rs]; the upload headers of [server/upload/protocol.rs].
    - [FileRevision.v]: what [fstat] reports, and the identities and revisions
      [server/rooted_fs.rs] derives from it.
    - [UploadWorld.v]: the monad of the upload handlers, over the class [UploadEnv]
      of the calls they make of the file system, the state store's worker, the
      clock, the request body and the disk-space tracker; any call may fail, and the
      process may die in any of them.
    - [UploadRecord.v], [UploadFailure.v], [UploadCommit.v], [UploadTransfer.v],
      [UploadPrepare.v], [UploadHandler.v]: [server/upload/record.rs], [failure.rs]
      and [target.rs], [commit.rs] and [server/storage.rs], [transfer.rs],
      [prepare.rs], and the three handlers of [server/upload.rs].
    - [UploadLaws.v]: the class [UploadLaws] of what the handlers rely on (below) and
      the weakest-precondition calculus their proofs use, with a crash condition;
      [UploadMemory.v]: an instance in memory, on which the handlers run.
    - [UploadSafety.v]: the abstract machine of one upload id ([promise], [request])
      and its relation to the table and the files ([abstracts]);
      [UploadEndings.v], [UploadPublish.v], [UploadContract.v]: the simulation of
      that machine by the handlers; [UploadRuns.v], [UploadReturns.v]: what holds of
      every run, and that runs end; [UploadHistory.v]: sequences of requests,
      queries, discards and restarts.
    - [UploadRequests.v]: an upload between the HTTP server and its handler, from
      [server/router/files.rs], [router.rs], [router/request.rs] and [server.rs]: headers,
      the wait for the path and a slot, the inspection of the target and of the durable
      state, the task that carries the upload, the deadline it races with and the answer to
      a failure, over the class [RequestEnv]; [UploadBoundary.v]: the mutation boundary the
      task and the deadline race for.
    - [Kernel.v]: the class [Kernel] of the descriptor system calls of
      [server/rooted_fs.rs] and [server/rooted_fs/purge.rs], and the monad [Sys] of
      code over them: a call may fail, may fail to report what it did, and the
      process may die in it.  [KernelLaws.v]: what is known of the calls (below), with
      other programs changing the tree between any two of them;
      [KernelMemory.v]: an instance in memory.
    - [TrashPurge.v]: [server/rooted_fs/purge.rs], the resumable removal of a trash
      entry; [TrashSafety.v], [TrashReturns.v]: its theorems.
    - [RootedParents.v], [TrashMoves.v]: from [server/rooted_fs.rs], opening the parent
      of a path with or without creating it, the checked move into the trash, its
      quarantine and its capture for purging; [TrashCapture.v]: what capture pins.
    - [PurgeWorker.v]: [server/purge.rs], the worker that claims deletions from the
      table of [PurgeStore.v] and purges them, its retries, and the reconciliation of
      unfinished deletions; [PurgeOwnership.v]: its invariant.
    - [KernelSteps.v]: code over [Kernel] that only reads, and the calculus [wpx] with a
      condition on crashes, shared by the proofs about rooted mutations.
    - [OperationResponse.v]: the responses, identifiers and fingerprints of tracked
      operations in [server/operation_registry.rs], [MutationProgress] of
      [server/router/request.rs], and how [server/router.rs] answers a request whose
      handler failed.
    - [MutationWorld.v]: what a tracked mutation works on ([Session]: both tables, the
      response, the progress, its operation and its lease) and asks of its environment
      ([MutationEnv]); [RootedMutations.v]: the checked mutations of
      [server/rooted_fs.rs]; [DeleteHandler.v]: [server/delete.rs] with the phases of
      [server/router/files.rs] for [DELETE]; [BrowserApi.v]: creating directories,
      moving and renaming in [server/browser_api.rs].
    - [MutationLaws.v]: the history of changes a mutation makes ([ChangeLaws], below);
      [MutationMemory.v]: an instance in memory; [MutationSafety.v]: the contract all
      tracked requests share, and the calculus of their calls; [DeleteContract.v],
      [BrowserContract.v], [MutationReplay.v]: its instances and theorems.
    - [KernelMotion.v]: calls and purge code lead from a world to a later one, for any
      order every call is in ([WorldOrder]).
    - [DirectoryVisits.v]: from [server/rooted_fs.rs], the resumable enumeration of a
      directory, the keys of entries, and the removal of entries and of empty
      directories of stages; [Maintenance.v]: the task of [server/maintenance.rs];
      [MaintenanceSafety.v], [StageClaims.v], [MaintenanceReturns.v]: what it removes,
      how it and the uploads exclude each other, and that its slices end.
    - [DirectoryTime.v]: enumerations with a deadline end ([VisitTime]), for maintenance
      and listings.
    - [Listing.v]: [server/listing/walk.rs] and the collecting half of
      [server/listing.rs]: the problems of a listing, the walk of a search, the listing of
      one directory, their items and budgets; [ListingBounds.v], [ListingReturns.v],
      [ListingDirectory.v]: their theorems.  [ListApi.v]: the listing request around them,
      with the snapshot cache and [server/listing/tagged.rs]; [ListApiContract.v]: its
      contract.
    - [Download.v]: [server/download.rs], the answer to a [GET] or [HEAD] of a file and
      the body that is read while the client takes it; [DownloadContract.v]: its laws
      ([ReadLaws]) and theorems.

    The handlers take a lease from the coordinator, scan the durable paths, record
    the operation in the store through the registry, reserve space, and change the
    file system; the store's worker serialises all commands on the three tables.

    ** What the theorems show

    - Coordination: two held leases never cover conflicting paths; a later request
      never overtakes an earlier related one; the earliest waiter always gets its
      lease (no deadlock, no lost wake-up).  The conflict test is exactly the union
      of identity and containment, and an unresolvable path conflicts with
      everything.
    - Durable records: on well-formed tables no command fails or breaks a
      constraint, and the tables stay well formed and within their limits; an
      operation is started at most once and its result replayed until it expires;
      uploads only move forwards; a claimed deletion has one worker, the longest due
      one first; recovery leaves nothing in progress and loses nothing; outcomes and
      sessions survive storage.
    - Scanning: the paged scans terminate and answer exactly whether a durable path
      obstructs the mutation; failing to resolve fails closed.  For the directional
      scan a comment of the source claims more than holds; the code is stricter than
      the comment, and a theorem shows the difference.
    - The worker: a reservation whose requester is gone is removed or its cleanup
      stays queued, whatever the database refuses, and queued cleanups complete once
      it accepts statements again.
    - Disk space: the books are exact, nothing panics in either build profile, a
      reservation is granted only within the probed capacity, an unchanged revision
      means an unchanged account, and requests end.
    - Listings: the sort is stable, complete and total, even when interrupted; the
      snapshot cache keeps its bounds, serves only genuine cursors, and paging yields
      every entry once.  A search walks one path of distinct directories within its
      budgets of depth, entries and memory, wherever it is cut short; a search and a
      listing return only what may be shown, under its own name and revision, and both
      end by their deadlines, whatever others do to the tree meanwhile.  So does the
      listing request: every page it sends, also one of a cached snapshot, is a part of
      one sorted listing of what the account may see below the directory it named, and
      carries a cursor exactly if more of that listing follows.  Every item is tied to the
      calls of the request: its name was read from that directory, and its revision is that
      of a status it reported.

    - Uploads: one upload request is a step of the abstract machine whatever fails
      and wherever the process dies: held bytes are only extended by bytes of the
      body in order, a decided upload stays decided, and what is published is the
      whole upload of the declared length, durably.  Responses tell the truth about
      the record; a request touches only its own stage, its own row and, where the client
      confirmed that a target is to be overwritten, the file its publication displaces; and
      it returns.  Discards and queries do what they say, a crash loses no acknowledged
      byte, and while its record is kept an upload id is published at most once.  (A stage
      that has lost its bytes counts as kept: what is promised is that bytes which are
      there are the acknowledged ones.)  A request to start an upload that is answered
      [not-started] has changed nothing and never will; for a resumed upload the source
      reads its deadline twice, and [resumed_race] shows the answer given although the
      record is written.
    - Purging: a slice removes only the pinned trash entry and what lies below it,
      whatever other programs do to the tree meanwhile, within its budget, and returns;
      the worker holds the jobs that are claimed, each once, except for at most one job for
      every executed command whose answer was lost.
    - Tracked mutations: whatever the file system, the state store and other requests
      do, a delete, move, rename or mkdir request tells the truth.  A success or failure
      it reports is the recorded one; success means exactly one change, at the paths asked
      for, after the client's revision was found there (for a delete, and for a move to a
      missing name, of that very object); failure means that it was not made; no claim
      means that nothing changed; and an unknown outcome is reported only after the
      commit was dispatched.  While the commit of a delete runs, its target is in the trash
      only under a recorded intent to purge it, also after a crash.  A recorded result is replayed and the operation not
      repeated.
    - Maintenance: whatever others do meanwhile and wherever the process dies, the task
      removes only directories of stages, recorded stages of sessions that had expired by
      the store's clock, and orphans that by a reading of the clock were older than a
      session lives and that no session, no purge job and no upload had when they were
      looked up; uploads and maintenance never hold the same stage; and a slice returns.
      The tables and the registry a claim of the task speaks of are those the run went
      through ([history]).
    - Downloads: a body never exceeds its [Content-Length], meets it exactly when it is
      complete, and is the announced part of the file if nobody writes to it; [HEAD]
      answers as [GET]; a file's name cannot break out of [Content-Disposition]; the
      entity tag identifies the version of a file up to collisions of the digest.
    - Texts: a byte range is read exactly as specified; upload headers are accepted
      in their one canonical spelling; error codes are well formed and distinct.
    - Request paths: exactly the well-formed targets are accepted, each denotes the
      shared root followed by its names, and internal and reserved names are out of
      reach.

    ** Bounds and fuel

    Counters that wrap at 64 bits are modelled as wrapping; the coordinator's and
    the revision theorems are about runs of fewer than 2^64 steps.  Loops whose
    recursion is not structural carry fuel, and the theorems are about totality:
    paging needs one step more than there are rows, the sort's loops as much as
    there are items, the cache's eviction loops as many rounds as there are
    snapshots; running out of fuel is a value of its own or leaves the loop's exit
    condition unmet, and the theorems exclude it.  The loops of the upload handlers
    need one step more than the declared length of the upload, the empty frames of
    its body and the wake-ups of a wait for maintenance together; a handler that runs
    out of fuel counts as one that is still running when the process dies, and
    [upload_request_returns] shows that with that much fuel it does not.  A purge slice
    needs one unit of fuel for every nanosecond it may take, for its loop reads the
    clock in every turn ([ClockLaws]); a slice of maintenance, a search and a listing need
    three units more, for the two names of an enumeration that are skipped before the
    clock is read; a listing request needs as much, and as many units as the tag database
    may keep it waiting in nanoseconds.

    ** What the upload theorems assume

    [UploadLaws] describes files by the bytes written to them, of which a prefix is
    visible to [fstat] and a prefix of that survives a crash: [flush] makes written
    bytes visible, [sync] makes visible bytes durable, writes append at the cursor,
    truncation and removal affect the one file they name, the conditional rename
    publishes the file whole or not at all, and the remaining calls change no bytes.  If
    the destination was to be missing the rename displaces nothing; otherwise it may
    displace whatever file is there by then, for the source checks and then renames.
    Commands of other requests between two commands of a request are left out: the
    theorems speak of the request's own row, which is its own under its lease.  [BoundaryLaws] says that while a task makes a call the
    deadline of its request can fire at most once, and that the calls before the task
    change nothing.
    A created stage is empty, and a stage that is reopened has no other writer
    ([law_opened]): the stage directory is private to the server and the path lease
    excludes other requests for the same target.

    ** What the purge theorems assume

    [KernelLaws] describes the history of directory entries: a descriptor denotes one
    object for ever, what a call finds under a name was linked there, and an unlink
    removes one entry of the directory it names.  Other programs may create, rename
    and replace entries at any time, with one exception that the source itself names:
    they do not touch a quarantine name drawn at random between the moment it is
    verified and its removal ([isolate_anchored_entry_for_unlink] says that Linux has
    no conditional unlink).  Distinct objects that exist together have distinct device
    and inode numbers, and the digest of a revision is injective.  [ServerLaws] counts the
    commands the state store executes without answering ([lost_replies]), and says of the
    commands of other tasks that none is about a claimed job.

    ** What the theorems on tracked mutations assume

    [ChangeLaws] extends the same history by the renames and creations this request
    makes: a call that reports success made exactly its change, one that reports an error
    may have made it unless the error is that the new name exists, and looking at an
    entry changes nothing.  What [stat] reports of an entry is a state it had.  Other
    programs and other requests act at any time, except on the random trash name of this
    request and, in the operation table, under the random lease this request holds.

    ** What the theorems on maintenance assume

    [MaintenanceLaws] says of the remaining calls that they change nothing, and that
    uploads leave the markers of maintenance alone, which [StageClaims] proves of the
    operations uploads use.  [VisitTime] and [MaintenanceTime] say that no call sets the
    clock back and that an enumeration reports the directory itself and its parent at most
    once each.

    ** What the theorems on listings assume

    [ListLaws] says that the allocator grants at least what it is asked for if it grants anything, that the sizes of
    the program's types are positive, that names are compared by a preorder, and that the
    gate of blocking work admits the task: where it does not, the source panics, which
    aborts the release build.  [ListTime] extends [VisitTime] to the allocator.  Nothing
    is assumed of the tree, which others may change between any two calls.  [Calls]
    names the world in which the server began and the calls made since, and [ListCalls]
    and [ApiCalls] say that those of listings are among them: what a listing shows is tied
    to what such a call answered.
    [ListApiLaws] says that the digests of the accounts the server knows do not collide,
    [ListApiTime] that time passes while the tag database is asked.

    ** What the theorems on downloads assume

    [ReadLaws] says that [pread] returns bytes of the file from the offset on, at most as
    many as asked for and none only at its end; that reading changes no file; and that
    the size in a regular file's metadata is its length.  Between two chunks others may do
    anything.

    ** What is not modelled

    Method dispatch, JSON texts and the HTML page of a directory, the creation and writing of files
    in [rooted_fs.rs] (uploads rely on them through [UploadLaws]), the
    cancellation of a handler's future, SQLite itself (its statements
    are modelled, its files, locks and migrations are not), configuration, logging
    and the tagging database.  Third-party code is a parameter with named laws:
    SHA-256 and base64 ([CursorCodec]), the natural-order comparison of names
    ([PreorderCmp]), the descriptor system calls ([Fs]), UUIDs and
    percent encoding, JSON decoding and media types ([BrowserCodec]), typed headers
    ([HeaderCodec]).
    Next in order: the tagging database and the start-up of the server. *)

From Stdlib Require Export Strings.Byte.
From stdpp Require Export base tactics numbers option strings gmap sorting list.

#[global] Set Default Goal Selector "!".

(** ** Results

    [anyhow::Result] and [io::Result]: a value or an error.  The error type is
    a parameter; for [anyhow] it is the message. *)

Inductive result (E A : Type) : Type :=
| Ok (a : A)
| Err (e : E).
Arguments Ok {E A} a.
Arguments Err {E A} e.

#[global] Instance result_ret {E} : MRet (result E) := fun A a => Ok a.
#[global] Instance result_bind {E} : MBind (result E) := fun A B f m =>
  match m with Ok a => f a | Err e => Err e end.
#[global] Instance result_fmap {E} : FMap (result E) := fun A B f m =>
  match m with Ok a => Ok (f a) | Err e => Err e end.

(** [anyhow::ensure!] and the [ok_or_else] conversion of an [Option]. *)
Definition ensure {E} (b : bool) (e : E) : result E unit :=
  if b then Ok tt else Err e.
Definition ok_or {E A} (o : option A) (e : E) : result E A :=
  match o with Some a => Ok a | None => Err e end.

Definition is_ok {E A} (r : result E A) : bool :=
  match r with Ok _ => true | Err _ => false end.

(** [Iterator::collect::<Result<Vec<_>>>]. *)
Fixpoint collect {E A} (l : list (result E A)) : result E (list A) :=
  match l with
  | [] => Ok []
  | r :: l => a ← r; rest ← collect l; Ok (a :: rest)
  end.

Lemma bind_Ok {E A B} (m : result E A) (f : A -> result E B) b :
  m ≫= f = Ok b <-> exists a, m = Ok a /\ f a = Ok b.
Proof. destruct m; cbn; naive_solver. Qed.

Lemma bind_Err {E A B} (m : result E A) (f : A -> result E B) e :
  m ≫= f = Err e <-> m = Err e \/ exists a, m = Ok a /\ f a = Err e.
Proof. destruct m; cbn; naive_solver. Qed.

Lemma ensure_Ok {E} b (e : E) u : ensure b e = Ok u <-> b = true.
Proof. destruct b, u; cbn; naive_solver. Qed.

Lemma ok_or_Ok {E A} (o : option A) (e : E) a : ok_or o e = Ok a <-> o = Some a.
Proof. destruct o; cbn; naive_solver. Qed.

Lemma collect_Ok {E A} (l : list (result E A)) (xs : list A) :
  collect l = Ok xs <-> Forall2 (fun r x => r = Ok x) l xs.
Proof.
  revert xs; induction l as [|r l IH]; intros xs; cbn.
  - split; [intros [= <-]; constructor | by intros ->%Forall2_nil_inv_l].
  - rewrite bind_Ok; setoid_rewrite bind_Ok; split.
    + intros (a & -> & rest & Hrest & [= <-]); constructor; [done | by apply IH].
    + intros (x & xs' & -> & H%IH & ->)%Forall2_cons_inv_l; eauto.
Qed.

Lemma collect_app {E A} (l k : list (result E A)) :
  collect (l ++ k) = (xs ← collect l; ys ← collect k; Ok (xs ++ ys)).
Proof.
  induction l as [|r l IH]; cbn; [by destruct (collect k)|].
  destruct r; cbn; [|done]. rewrite IH. destruct (collect l); cbn; [|done].
  by destruct (collect k).
Qed.

Lemma length_collect {E A} (l : list (result E A)) xs : collect l = Ok xs -> length xs = length l.
Proof. intros H%collect_Ok. symmetry. by eapply Forall2_length. Qed.

(** ** Machine integers

    A [w]-bit unsigned integer is a [Z] in [0, 2^w), a 64-bit signed one a [Z]
    in [-2^63, 2^63).  [checked_*], [saturating_*] and [wrapping_*] are the
    standard library's methods at a given maximum. *)

Definition U16_MAX : Z := 65535.
Definition U32_MAX : Z := 4294967295.
Definition U64_MAX : Z := 18446744073709551615.
Definition I64_MAX : Z := 9223372036854775807.
Definition I64_MIN : Z := -9223372036854775808.
Definition USIZE_MAX : Z := U64_MAX.

Definition is_u64 (z : Z) : Prop := (0 <= z <= U64_MAX)%Z.
Definition is_i64 (z : Z) : Prop := (I64_MIN <= z <= I64_MAX)%Z.

Definition u64_checked_add (a b : Z) : option Z :=
  if (a + b <=? U64_MAX)%Z then Some (a + b)%Z else None.
Definition u64_checked_sub (a b : Z) : option Z :=
  if (b <=? a)%Z then Some (a - b)%Z else None.
Definition u64_checked_mul (a b : Z) : option Z :=
  if (a * b <=? U64_MAX)%Z then Some (a * b)%Z else None.
Definition u64_saturating_add (a b : Z) : Z := Z.min (a + b) U64_MAX.
Definition u64_saturating_mul (a b : Z) : Z := Z.min (a * b) U64_MAX.
Definition u64_saturating_sub (a b : Z) : Z := Z.max (a - b) 0.
Definition u64_wrapping_add (a b : Z) : Z := ((a + b) mod (U64_MAX + 1))%Z.
Definition i64_checked_add (a b : Z) : option Z :=
  if ((I64_MIN <=? a + b) && (a + b <=? I64_MAX))%Z then Some (a + b)%Z else None.

(** [i64::try_from] of an unsigned value and [u64::try_from] of a signed one. *)
Definition i64_try_from (z : Z) : option Z := if (z <=? I64_MAX)%Z then Some z else None.
Definition u64_try_from (z : Z) : option Z := if (0 <=? z)%Z then Some z else None.

Lemma u64_checked_add_Some a b c :
  u64_checked_add a b = Some c <-> c = (a + b)%Z /\ (a + b <= U64_MAX)%Z.
Proof. unfold u64_checked_add; destruct (Z.leb_spec (a + b) U64_MAX); naive_solver lia. Qed.
Lemma u64_checked_mul_Some a b c :
  u64_checked_mul a b = Some c <-> c = (a * b)%Z /\ (a * b <= U64_MAX)%Z.
Proof. unfold u64_checked_mul; destruct (Z.leb_spec (a * b) U64_MAX); naive_solver lia. Qed.
Lemma u64_checked_sub_Some a b c :
  u64_checked_sub a b = Some c <-> c = (a - b)%Z /\ (b <= a)%Z.
Proof. unfold u64_checked_sub; destruct (Z.leb_spec b a); naive_solver lia. Qed.
Lemma i64_checked_add_Some a b c :
  i64_checked_add a b = Some c <-> c = (a + b)%Z /\ is_i64 (a + b).
Proof.
  unfold i64_checked_add, is_i64.
  destruct (Z.leb_spec I64_MIN (a + b)), (Z.leb_spec (a + b) I64_MAX); cbn; naive_solver lia.
Qed.
Lemma i64_try_from_Some a b : i64_try_from a = Some b <-> b = a /\ (a <= I64_MAX)%Z.
Proof. unfold i64_try_from; destruct (Z.leb_spec a I64_MAX); naive_solver lia. Qed.
Lemma i64_try_from_id a : (a <= I64_MAX)%Z -> i64_try_from a = Some a.
Proof. intros. by apply i64_try_from_Some. Qed.
Lemma u64_saturating_add_le a b c :
  (c < U64_MAX)%Z -> (u64_saturating_add a b <= c)%Z <-> (a + b <= c)%Z.
Proof. unfold u64_saturating_add. generalize U64_MAX. lia. Qed.
Lemma u64_try_from_Some a b : u64_try_from a = Some b <-> b = a /\ (0 <= a)%Z.
Proof. unfold u64_try_from; destruct (Z.leb_spec 0 a); naive_solver lia. Qed.

(** ** Bytes

    Rust's [u8] is the 256-constructor [byte]; [&str], [String], [PathBuf] and
    [\[u8; n\]] are lists of bytes (their UTF-8 or raw representation), because
    every operation the code applies to them is an operation on bytes. *)

Abbreviation bytes := (list byte).

#[global] Instance byte_eq_dec : EqDecision byte := Byte.byte_eq_dec.

Definition byte_val (b : byte) : Z := Z.of_N (Byte.to_N b).
Definition byte_of (z : Z) : byte := default x00 (Byte.of_N (Z.to_N (z mod 256))).

#[global] Instance byte_countable : Countable byte :=
  inj_countable Byte.to_N Byte.of_N Byte.of_to_N.

Definition str (s : string) : bytes := String.list_byte_of_string s.

Lemma byte_val_range b : (0 <= byte_val b < 256)%Z.
Proof. unfold byte_val. pose proof (Byte.to_N_bounded b); lia. Qed.

Lemma byte_of_val b : byte_of (byte_val b) = b.
Proof.
  unfold byte_of. rewrite Z.mod_small by apply byte_val_range.
  unfold byte_val. by rewrite N2Z.id, Byte.of_to_N.
Qed.

Lemma byte_val_of z : byte_val (byte_of z) = (z mod 256)%Z.
Proof.
  pose proof (Z.mod_pos_bound z 256 ltac:(lia)) as Hb.
  unfold byte_val, byte_of.
  destruct (Byte.of_N (Z.to_N (z mod 256))) as [b|] eqn:E; cbn.
  - apply Byte.to_of_N in E; rewrite E; lia.
  - apply Byte.of_N_None_iff in E; lia.
Qed.

#[global] Instance byte_val_inj : Inj (=) (=) byte_val.
Proof. intros a b H. by rewrite <- (byte_of_val a), <- (byte_of_val b), H. Qed.

(** ** Orders

    SQLite compares BLOBs with [memcmp] and then by length, which is the
    lexicographic order of the byte values; row values are compared column by
    column.  [compare_of] turns a three-way comparison into the Boolean
    relation [merge_sort] sorts by. *)

Fixpoint bytes_cmp (a b : bytes) : comparison :=
  match a, b with
  | [], [] => Eq
  | [], _ :: _ => Lt
  | _ :: _, [] => Gt
  | x :: a, y :: b =>
      match (byte_val x ?= byte_val y)%Z with Eq => bytes_cmp a b | c => c end
  end.

(** Lexicographic composition of two comparisons ([Ordering::then_with]). *)
Definition then_cmp (c d : comparison) : comparison :=
  match c with Eq => d | _ => c end.

(** A comparison that decides a total order; the three laws a sort needs. *)
Class TotalCmp {A} (cmp : A -> A -> comparison) : Prop := {
  cmp_eq : forall a b, cmp a b = Eq <-> a = b;
  cmp_opp : forall a b, cmp b a = CompOpp (cmp a b);
  cmp_lt_trans : forall a b c, cmp a b = Lt -> cmp b c = Lt -> cmp a c = Lt }.
Arguments cmp_eq {A} cmp {_} a b.
Arguments cmp_opp {A} cmp {_} a b.
Arguments cmp_lt_trans {A} cmp {_} a b c.

#[global] Instance Z_total_cmp : TotalCmp Z.compare.
Proof.
  split.
  - apply Z.compare_eq_iff.
  - intros a b. apply Z.compare_antisym.
  - intros a b c. rewrite !Z.compare_lt_iff. lia.
Qed.

#[global] Instance bytes_total_cmp : TotalCmp bytes_cmp.
Proof.
  split.
  - induction a as [|x a IH]; intros [|y b]; cbn; try naive_solver.
    destruct (byte_val x ?= byte_val y)%Z eqn:E.
    + apply Z.compare_eq_iff, (inj byte_val) in E as ->. rewrite IH. naive_solver.
    + split; [done | intros [= -> ->]; by rewrite Z.compare_refl in E].
    + split; [done | intros [= -> ->]; by rewrite Z.compare_refl in E].
  - induction a as [|x a IH]; intros [|y b]; cbn; try done.
    rewrite (cmp_opp Z.compare (byte_val x) (byte_val y)), (IH b).
    by destruct (byte_val x ?= byte_val y)%Z.
  - induction a as [|x a IH]; intros [|y b] [|z c]; cbn; try done.
    destruct (Z.compare_spec (byte_val x) (byte_val y)) as [Ea|Ea|Ea],
      (Z.compare_spec (byte_val y) (byte_val z)) as [Eb|Eb|Eb]; try done; intros H1 H2.
    + rewrite Ea, Eb, Z.compare_refl. eauto.
    + by rewrite (proj2 (Z.compare_lt_iff (byte_val x) (byte_val z))) by lia.
    + by rewrite (proj2 (Z.compare_lt_iff (byte_val x) (byte_val z))) by lia.
    + by rewrite (proj2 (Z.compare_lt_iff (byte_val x) (byte_val z))) by lia.
Qed.

(** Comparing pairs column by column keeps the three laws. *)
Definition pair_cmp {A B} (ca : A -> A -> comparison) (cb : B -> B -> comparison)
    (p q : A * B) : comparison := then_cmp (ca p.1 q.1) (cb p.2 q.2).

#[global] Instance pair_total_cmp {A B} ca cb `{!@TotalCmp A ca} `{!@TotalCmp B cb} :
  TotalCmp (pair_cmp ca cb).
Proof.
  split; unfold pair_cmp, then_cmp.
  - intros [a b] [a' b']; cbn. destruct (ca a a') eqn:E.
    + apply (cmp_eq ca) in E as ->. rewrite (cmp_eq cb). naive_solver.
    + split; [done | intros [= -> ->]]. by rewrite (proj2 (cmp_eq ca a' a') eq_refl) in E.
    + split; [done | intros [= -> ->]]. by rewrite (proj2 (cmp_eq ca a' a') eq_refl) in E.
  - intros [a b] [a' b']; cbn. rewrite (cmp_opp ca a a'), (cmp_opp cb b b').
    by destruct (ca a a').
  - intros [a b] [a' b'] [a'' b'']; cbn.
    destruct (ca a a') eqn:E1, (ca a' a'') eqn:E2; try done; intros H1 H2;
      repeat match goal with H : ca _ _ = Eq |- _ => apply (cmp_eq ca) in H as -> end.
    + rewrite (proj2 (cmp_eq ca a'' a'') eq_refl). by eapply (cmp_lt_trans cb).
    + by rewrite E2.
    + by rewrite E1.
    + by rewrite (cmp_lt_trans ca _ _ _ E1 E2).
Qed.

Definition cmp_le {A} (cmp : A -> A -> comparison) (a b : A) : Prop := cmp a b <> Gt.
Definition cmp_lt {A} (cmp : A -> A -> comparison) (a b : A) : Prop := cmp a b = Lt.

#[global] Instance cmp_le_dec {A} (cmp : A -> A -> comparison) : RelDecision (cmp_le cmp).
Proof. intros a b. unfold cmp_le. apply _. Defined.
#[global] Instance cmp_lt_dec {A} (cmp : A -> A -> comparison) : RelDecision (cmp_lt cmp).
Proof. intros a b. unfold cmp_lt. apply _. Defined.

Section total_cmp.
Context {A} (cmp : A -> A -> comparison) `{!TotalCmp cmp}.

Lemma cmp_refl a : cmp a a = Eq.
Proof. by apply (cmp_eq cmp). Qed.

Lemma cmp_gt_lt a b : cmp a b = Gt <-> cmp b a = Lt.
Proof. rewrite (cmp_opp cmp a b). by destruct (cmp a b). Qed.

#[global] Instance cmp_le_total : Total (cmp_le cmp).
Proof. intros a b. unfold cmp_le. rewrite (cmp_opp cmp a b). destruct (cmp a b); cbn; naive_solver. Qed.

#[global] Instance cmp_lt_transitive : Transitive (cmp_lt cmp).
Proof. intros a b c. apply (cmp_lt_trans cmp). Qed.

Lemma cmp_le_lt_or_eq a b : cmp_le cmp a b <-> cmp_lt cmp a b \/ a = b.
Proof.
  unfold cmp_le, cmp_lt. rewrite <- (cmp_eq cmp a b). destruct (cmp a b); naive_solver.
Qed.

#[global] Instance cmp_le_trans : Transitive (cmp_le cmp).
Proof.
  intros a b c. rewrite !cmp_le_lt_or_eq. intros [H1| ->] [H2| ->]; eauto.
  left. by etrans.
Qed.

Lemma cmp_lt_irrefl a : ~ cmp_lt cmp a a.
Proof. unfold cmp_lt. by rewrite cmp_refl. Qed.

Lemma cmp_lt_le a b : cmp_lt cmp a b -> cmp_le cmp a b.
Proof. rewrite cmp_le_lt_or_eq. auto. Qed.

Lemma cmp_not_le a b : ~ cmp_le cmp a b <-> cmp_lt cmp b a.
Proof. unfold cmp_le, cmp_lt. rewrite <- cmp_gt_lt. destruct (cmp a b); naive_solver. Qed.

Lemma cmp_le_lt_trans a b c : cmp_le cmp a b -> cmp_lt cmp b c -> cmp_lt cmp a c.
Proof. rewrite cmp_le_lt_or_eq. intros [H| ->]; [intros; by etrans | done]. Qed.
End total_cmp.

(** ** Automation

    [inv_result] takes apart a hypothesis saying that a chain of fallible steps
    succeeded; [bool_to_Z] turns the Boolean tests of the code into inequalities
    for [lia]. *)

Ltac inv_result :=
  repeat match goal with
  | H : (_ ≫= _) = Ok _ |- _ =>
      apply bind_Ok in H; let a := fresh "a" in let Ha := fresh "Hbind" in
      destruct H as (a & Ha & H)
  | H : ensure _ _ = Ok _ |- _ => apply ensure_Ok in H
  | H : ok_or _ _ = Ok _ |- _ => apply ok_or_Ok in H
  | H : Ok _ = Ok _ |- _ => injection H as H
  | H : mret _ = Ok _ |- _ => unfold mret, result_ret in H
  | H : Err _ = Ok _ |- _ => discriminate H
  | H : Ok _ = Err _ |- _ => discriminate H
  end.

Ltac split_bool :=
  repeat match goal with
  | H : (_ && _)%bool = true |- _ => apply andb_true_iff in H as [? ?]
  | H : (_ || _)%bool = false |- _ => apply orb_false_iff in H as [? ?]
  | H : negb _ = true |- _ => apply negb_true_iff in H
  | H : negb _ = false |- _ => apply negb_false_iff in H
  | H : bool_decide _ = true |- _ => apply bool_decide_eq_true in H
  | H : bool_decide _ = false |- _ => apply bool_decide_eq_false in H
  | H : (_ <=? _)%Z = true |- _ => apply Z.leb_le in H
  | H : (_ <=? _)%Z = false |- _ => apply Z.leb_gt in H
  | H : (_ <? _)%Z = true |- _ => apply Z.ltb_lt in H
  | H : (_ <? _)%Z = false |- _ => apply Z.ltb_ge in H
  | H : (_ =? _)%Z = true |- _ => apply Z.eqb_eq in H
  | H : (_ =? _)%Z = false |- _ => apply Z.eqb_neq in H
  end.

Create HintDb xczs discriminated.
#[export] Hint Resolve cmp_refl cmp_lt_le : xczs.

(** ** Lists, options and maps *)

Lemma forallb_Forall {A} (p : A -> bool) (l : list A) :
  forallb p l = true <-> Forall (fun a => p a = true) l.
Proof. rewrite forallb_forall, List.Forall_forall. done. Qed.

Lemma existsb_Exists {A} (p : A -> bool) (l : list A) :
  existsb p l = true <-> Exists (fun a => p a = true) l.
Proof. rewrite existsb_exists, List.Exists_exists. done. Qed.

Lemma existsb_false {A} (p : A -> bool) (l : list A) :
  existsb p l = false <-> forall a, a ∈ l -> p a = false.
Proof.
  rewrite <- not_true_iff_false, existsb_exists. setoid_rewrite <- list_elem_of_In.
  split.
  - intros H a Ha. apply not_true_iff_false. eauto.
  - intros H (a & Ha & Hp). by rewrite H in Hp.
Qed.

Lemma existsb_swap {A B} (f : A -> B -> bool) (l : list A) (k : list B) :
  existsb (fun a => existsb (f a) k) l = existsb (fun b => existsb (fun a => f a b) l) k.
Proof.
  apply eq_iff_eq_true. rewrite !existsb_exists. split.
  - intros (a & Ha & (b & Hb & Hf)%existsb_exists). exists b. split; [done|]. apply existsb_exists. eauto.
  - intros (b & Hb & (a & Ha & Hf)%existsb_exists). exists a. split; [done|]. apply existsb_exists. eauto.
Qed.

Lemma existsb_app {A} (p : A -> bool) (l k : list A) :
  existsb p (l ++ k) = existsb p l || existsb p k.
Proof. apply List.existsb_app. Qed.

Lemma list_filter_all {A} (P : A -> Prop) `{!forall a, Decision (P a)} (l : list A) :
  (forall a, a ∈ l -> P a) -> filter P l = l.
Proof.
  induction l as [|a l IH]; intros Hall; [done|]. rewrite filter_cons_True by (apply Hall; left).
  f_equal. apply IH. intros b Hb. apply Hall. by right.
Qed.

Lemma pair_eq_snd {A B} (p : A * B) b : p.2 = b -> p = (p.1, b).
Proof. by destruct p; intros <-. Qed.

(** ** Big-endian words: [to_be_bytes] and [from_be_bytes] *)

Fixpoint be_bytes (n : nat) (z : Z) : bytes :=
  match n with
  | O => []
  | S n => be_bytes n (z / 256) ++ [byte_of z]
  end.
Definition be_val (l : bytes) : Z := foldl (fun acc b => (acc * 256 + byte_val b)%Z) 0%Z l.

Lemma length_be_bytes n z : length (be_bytes n z) = n.
Proof. revert z; induction n; intros; cbn; rewrite ?length_app, ?IHn; cbn; lia. Qed.

Lemma be_val_snoc l b : be_val (l ++ [b]) = (be_val l * 256 + byte_val b)%Z.
Proof. unfold be_val. by rewrite foldl_app. Qed.

Lemma be_val_bytes n z : (0 <= z < 256 ^ Z.of_nat n)%Z -> be_val (be_bytes n z) = z.
Proof.
  revert z; induction n as [|n IH]; intros z Hz.
  - change (256 ^ Z.of_nat 0)%Z with 1%Z in Hz. cbn. lia.
  - cbn [be_bytes]. rewrite be_val_snoc, byte_val_of, IH.
    + pose proof (Z.div_mod z 256). lia.
    + rewrite Nat2Z.inj_succ, Z.pow_succ_r in Hz by lia.
      split; [apply Z.div_pos; lia | apply Z.div_lt_upper_bound; lia].
Qed.

Lemma be_bytes_val l : be_bytes (length l) (be_val l) = l.
Proof.
  induction l as [|b l IH] using rev_ind; [done|].
  rewrite length_app, Nat.add_comm, be_val_snoc. cbn [length be_bytes Nat.add].
  pose proof (byte_val_range b).
  rewrite Z.div_add_l, Z.div_small, Z.add_0_r, IH by lia. f_equal. f_equal.
  apply (inj byte_val). rewrite byte_val_of. rewrite Z.add_comm, Z.mod_add, Z.mod_small; lia.
Qed.

Lemma be_val_bounds l : (0 <= be_val l < 256 ^ Z.of_nat (length l))%Z.
Proof.
  induction l as [|b l IH] using rev_ind; [done|].
  rewrite be_val_snoc, length_app, Nat.add_comm. cbn [length Nat.add].
  rewrite Nat2Z.inj_succ, Z.pow_succ_r by lia. pose proof (byte_val_range b). lia.
Qed.

Definition u64_be (z : Z) : bytes := be_bytes 8 z.
#[global] Arguments u64_be : simpl never.

Lemma be_val_u64 z : is_u64 z -> be_val (u64_be z) = z.
Proof. unfold is_u64, u64_be, U64_MAX. intros Hz. apply be_val_bytes. cbn. lia. Qed.

Lemma u64_be_inj y z : is_u64 y -> is_u64 z -> u64_be y = u64_be z -> y = z.
Proof. intros Hy Hz E. by rewrite <- (be_val_u64 y Hy), <- (be_val_u64 z Hz), E. Qed.

(** [str::chars().count()] of UTF-8 text: every byte that is not a continuation
    byte starts a character. *)
Definition is_continuation (b : byte) : bool := ((128 <=? byte_val b) && (byte_val b <? 192))%Z.
Definition chars_count (s : bytes) : Z :=
  Z.of_nat (length (filter (fun b => is_continuation b = false) s)).

(** ** Sums over maps *)

Section map_sum.
Context {K V : Type} `{Countable K} (f : V -> Z).
Implicit Types m : gmap K V.

Definition map_sum m : Z := map_fold (fun _ v acc => f v + acc)%Z 0%Z m.

Lemma map_sum_empty : map_sum ∅ = 0%Z.
Proof. done. Qed.

Lemma map_sum_insert m k v : m !! k = None -> map_sum (<[k := v]> m) = (f v + map_sum m)%Z.
Proof.
  intros Hk. unfold map_sum. rewrite (map_fold_insert_L _ _ k v m); [done| |done].
  intros; lia.
Qed.

Lemma map_sum_delete m k v : m !! k = Some v -> map_sum (delete k m) = (map_sum m - f v)%Z.
Proof.
  intros Hk. rewrite <- (insert_delete_id m k v Hk) at 2.
  rewrite map_sum_insert by apply lookup_delete_eq. lia.
Qed.

Lemma map_sum_update m k v v' :
  m !! k = Some v -> map_sum (<[k := v']> m) = (map_sum m - f v + f v')%Z.
Proof.
  intros Hk. rewrite <- insert_delete_eq, map_sum_insert by apply lookup_delete_eq.
  rewrite (map_sum_delete _ _ _ Hk). lia.
Qed.

Lemma map_sum_nonneg m : map_Forall (fun _ v => 0 <= f v)%Z m -> (0 <= map_sum m)%Z.
Proof.
  induction m as [|k v m Hn IH] using map_ind; [done|].
  intros [Hv Hm]%map_Forall_insert; [|done].
  rewrite map_sum_insert by done. specialize (IH Hm). lia.
Qed.

Lemma map_sum_zero m : map_Forall (fun _ v => f v = 0)%Z m -> map_sum m = 0%Z.
Proof.
  induction m as [|k v m Hn IH] using map_ind; [done|].
  intros [Hv Hm]%map_Forall_insert; [|done].
  rewrite map_sum_insert by done. rewrite IH by done. lia.
Qed.

Lemma map_sum_member m k v :
  map_Forall (fun _ v => 0 <= f v)%Z m -> m !! k = Some v -> (f v <= map_sum m)%Z.
Proof.
  intros Hm Hk. pose proof (map_sum_nonneg (delete k m)) as Hd.
  rewrite (map_sum_delete _ _ _ Hk) in Hd.
  enough (0 <= map_sum m - f v)%Z by lia. apply Hd. by apply map_Forall_delete.
Qed.
End map_sum.
