(* ===== verification/Paths.v ===== *)
(** * Paths and string splitting

    The part of [std::path] and [str] the sources use, on Unix: splitting at a
    separator, [Path::components], [PathBuf::push], the component-wise
    [Path::starts_with], [==] and [cmp].  Two paths are equal in Rust when
    their components are, so [a//b] equals [a/b]; SQLite, in contrast, compares
    the stored bytes. *)

From S2P Require Import Prelude.

Definition SLASH : byte := x2f.

(** ** [str::split] and [\[_\]::join] *)

Fixpoint split (c : byte) (l : bytes) : list bytes :=
  match l with
  | [] => [[]]
  | x :: l =>
      if decide (x = c) then [] :: split c l
      else match split c l with
           | [] => [[x]]
           | s :: ss => (x :: s) :: ss
           end
  end.

Fixpoint join (sep : bytes) (l : list bytes) : bytes :=
  match l with
  | [] => []
  | [s] => s
  | s :: l => s ++ sep ++ join sep l
  end.

(** [str::split_once], [strip_prefix] and [strip_suffix] at a byte string. *)
Fixpoint split_once (c : byte) (l : bytes) : option (bytes * bytes) :=
  match l with
  | [] => None
  | x :: l =>
      if decide (x = c) then Some ([], l)
      else '(a, b) ← split_once c l; Some (x :: a, b)
  end.

Fixpoint strip_prefix (p l : bytes) : option bytes :=
  match p, l with
  | [], _ => Some l
  | x :: p, y :: l => if decide (x = y) then strip_prefix p l else None
  | _ :: _, [] => None
  end.

Definition strip_suffix (p l : bytes) : option bytes :=
  reverse <$> strip_prefix (reverse p) (reverse l).

(** [trim_matches('/')], [trim_start_matches]. *)
Fixpoint trim_start_matches (c : byte) (l : bytes) : bytes :=
  match l with
  | x :: l' => if decide (x = c) then trim_start_matches c l' else l
  | [] => []
  end.
Definition trim_matches (c : byte) (l : bytes) : bytes :=
  reverse (trim_start_matches c (reverse (trim_start_matches c l))).

Lemma split_nonempty c l : split c l <> [].
Proof. destruct l as [|x l]; cbn; [done|]. by destruct (decide _), (split c l). Qed.

Lemma split_no_sep c l : Forall (fun s => c ∉ s) (split c l).
Proof.
  induction l as [|x l IH]; cbn; [by repeat constructor; apply not_elem_of_nil|].
  destruct (decide (x = c)); [by constructor; [apply not_elem_of_nil|]|].
  destruct (split c l) as [|s ss].
  - constructor; [|done]. rewrite not_elem_of_cons. split; [done | apply not_elem_of_nil].
  - apply Forall_cons in IH as [Hs Hss]. constructor; [|done]. by rewrite not_elem_of_cons.
Qed.

Lemma split_no_sep_id c l : c ∉ l -> split c l = [l].
Proof.
  induction l as [|x l IH]; cbn; [done|]. intros [Hx Hl]%not_elem_of_cons.
  rewrite decide_False by done. by rewrite IH.
Qed.

Lemma split_app_sep c s l : c ∉ s -> split c (s ++ c :: l) = s :: split c l.
Proof.
  induction s as [|x s IH]; cbn; intros Hs; [by rewrite decide_True|].
  apply not_elem_of_cons in Hs as [? ?]. rewrite decide_False by done. by rewrite IH.
Qed.

Lemma split_join c ss : ss <> [] -> Forall (fun s => c ∉ s) ss -> split c (join [c] ss) = ss.
Proof.
  induction ss as [|s ss IH]; [done|]. intros _ [Hs Hss]%Forall_cons. destruct ss as [|s' ss].
  - cbn. by apply split_no_sep_id.
  - change (join [c] (s :: s' :: ss)) with (s ++ c :: join [c] (s' :: ss)).
    rewrite split_app_sep by done. by rewrite IH.
Qed.

Lemma join_split c l : join [c] (split c l) = l.
Proof.
  induction l as [|x l IH]; cbn; [done|]. pose proof (split_nonempty c l) as Hne.
  destruct (decide (x = c)) as [->|]; destruct (split c l) as [|s ss] eqn:E; try done.
  - by rewrite <- IH.
  - rewrite <- IH. by destruct ss.
Qed.

Lemma join_cons c s ss : ss <> [] -> join [c] (s :: ss) = s ++ c :: join [c] ss.
Proof. by destruct ss. Qed.

Lemma strip_prefix_Some p l r : strip_prefix p l = Some r <-> l = p ++ r.
Proof.
  revert l; induction p as [|x p IH]; intros l; cbn; [naive_solver|].
  destruct l as [|y l]; [naive_solver|]. destruct (decide (x = y)) as [->|].
  - rewrite IH. naive_solver.
  - naive_solver.
Qed.

Lemma strip_suffix_Some p l r : strip_suffix p l = Some r <-> l = r ++ p.
Proof.
  unfold strip_suffix. rewrite fmap_Some. setoid_rewrite strip_prefix_Some. split.
  - intros (x & Hl & ->). apply (f_equal reverse) in Hl.
    by rewrite reverse_involutive, reverse_app, reverse_involutive in Hl.
  - intros ->. exists (reverse r). by rewrite reverse_app, reverse_involutive.
Qed.

(** ** [std::path] *)

Inductive Component : Type :=
| RootDir | CurDir | ParentDir | Normal (s : bytes).
#[global] Instance Component_eq_dec : EqDecision Component.
Proof. solve_decision. Defined.

Definition DOT : bytes := str ".".
Definition DOTDOT : bytes := str "..".

Definition has_root (p : bytes) : bool := bool_decide (head p = Some SLASH).

Definition segment_component (s : bytes) : option Component :=
  if bool_decide (s = []) then None
  else if bool_decide (s = DOT) then None
  else if bool_decide (s = DOTDOT) then Some ParentDir
  else Some (Normal s).

(** [Path::components]: repeated separators and inner [.] disappear; a leading
    [.] of a relative path is kept. *)
Definition components (p : bytes) : list Component :=
  (if has_root p then [RootDir]
   else if bool_decide (head (split SLASH p) = Some DOT) then [CurDir] else [])
  ++ omap segment_component (split SLASH p).

Definition component_bytes (c : Component) : bytes :=
  match c with
  | RootDir => [SLASH]
  | CurDir => DOT
  | ParentDir => DOTDOT
  | Normal s => s
  end.

(** [PathBuf::push]: an absolute argument replaces the buffer, otherwise a
    separator is added unless the buffer is empty or ends in one. *)
Definition push (buf p : bytes) : bytes :=
  if has_root p then p
  else match last buf with
       | Some c => if decide (c = SLASH) then buf ++ p else buf ++ SLASH :: p
       | None => p
       end.

Definition path_eqb (p q : bytes) : bool := bool_decide (components p = components q).

(** [Path::starts_with] is a comparison of whole components. *)
Definition starts_with (p base : bytes) : bool :=
  bool_decide (components base `prefix_of` components p).

(** What precedes the body of a path, and the segments of the body. *)
Definition body (p : bytes) : bytes * list bytes :=
  if has_root p then ([SLASH], split SLASH (tail p))
  else if bool_decide (head (split SLASH p) = Some DOT) then (DOT, split SLASH (tail p))
  else ([], split SLASH p).

Fixpoint trim_left (segments : list bytes) : list bytes :=
  match segments with
  | s :: rest => if bool_decide (segment_component s = None) then trim_left rest else segments
  | [] => []
  end.
Definition trim_right (segments : list bytes) : list bytes := reverse (trim_left (reverse segments)).

(** Skips the first [n] components of a body. *)
Fixpoint drop_components (n : nat) (segments : list bytes) : list bytes :=
  match n, segments with
  | S n', s :: rest =>
      if bool_decide (segment_component s = None) then drop_components n rest
      else drop_components n' rest
  | _, _ => segments
  end.

(** [Path::file_name], [Path::parent] and [Path::strip_prefix]; the latter two are
    slices of the text, with the separators at their ends trimmed. *)
Definition file_name (p : bytes) : option bytes :=
  match last (components p) with Some (Normal s) => Some s | _ => None end.

Definition parent (p : bytes) : option bytes :=
  let '(start, segments) := body p in
  match last (components p) with
  | Some (Normal _) | Some ParentDir =>
      Some (start ++ join [SLASH] (trim_right (reverse (tail (trim_left (reverse segments))))))
  | Some CurDir => Some []
  | _ => None
  end.

Definition strip_path (p base : bytes) : option bytes :=
  let '(start, segments) := body p in
  if bool_decide (components base `prefix_of` components p) then
    Some (join [SLASH] (trim_right (trim_left
      (drop_components (length (components base) - (if bool_decide (start = []) then 0 else 1)) segments))))
  else None.

(** [Path]'s [Ord]: components in order, [RootDir < CurDir < ParentDir < Normal]. *)
Definition component_rank (c : Component) : Z :=
  match c with RootDir => 0 | CurDir => 1 | ParentDir => 2 | Normal _ => 3 end.
Definition component_cmp (a b : Component) : comparison :=
  then_cmp (component_rank a ?= component_rank b)%Z
    (match a, b with Normal s, Normal t => bytes_cmp s t | _, _ => Eq end).
Fixpoint components_cmp (a b : list Component) : comparison :=
  match a, b with
  | [], [] => Eq
  | [], _ :: _ => Lt
  | _ :: _, [] => Gt
  | x :: a, y :: b => then_cmp (component_cmp x y) (components_cmp a b)
  end.
Definition path_cmp (p q : bytes) : comparison := components_cmp (components p) (components q).

(** *** Facts about components *)

Lemma segment_component_Normal s c :
  segment_component s = Some c ->
  component_bytes c = s /\ s <> [] /\ s <> DOT /\ (c = ParentDir \/ c = Normal s).
Proof.
  unfold segment_component. repeat case_bool_decide; naive_solver.
Qed.

(** A name that [components] can return as [Normal]. *)
Definition normal_name (s : bytes) : Prop :=
  s <> [] /\ s <> DOT /\ s <> DOTDOT /\ SLASH ∉ s.

Lemma segment_component_id s : normal_name s -> segment_component s = Some (Normal s).
Proof.
  intros (? & ? & ? & ?). unfold segment_component. by rewrite !bool_decide_eq_false_2.
Qed.

(** What follows the optional first [RootDir] or [CurDir]. *)
Definition tail_component (c : Component) : Prop :=
  match c with
  | ParentDir => True
  | Normal s => normal_name s
  | _ => False
  end.

Lemma segments_tail ss :
  Forall (fun s => SLASH ∉ s) ss -> Forall tail_component (omap segment_component ss).
Proof.
  induction 1 as [|s ss Hs Hss IH]; cbn; [done|].
  destruct (segment_component s) as [c|] eqn:E; [|done]. constructor; [|done].
  unfold segment_component in E. repeat case_bool_decide; simplify_eq; cbn; [done|].
  by repeat split.
Qed.

Lemma components_shape p :
  exists lead cs, components p = lead ++ cs /\
    (lead = [] \/ lead = [RootDir] \/ lead = [CurDir]) /\ Forall tail_component cs.
Proof.
  unfold components. eexists _, _. split; [done|]. split.
  - destruct (has_root p); [|case_bool_decide]; auto.
  - apply segments_tail, split_no_sep.
Qed.

Lemma omap_tail_bytes cs :
  Forall tail_component cs -> omap segment_component (map component_bytes cs) = cs.
Proof.
  induction 1 as [|c cs Hc Hcs IH]; cbn; [done|]. destruct c; cbn in *; try done.
  - by rewrite IH.
  - by rewrite segment_component_id, IH.
Qed.

Lemma tail_bytes_no_sep cs :
  Forall tail_component cs -> Forall (fun s => SLASH ∉ s) (map component_bytes cs).
Proof.
  induction 1 as [|c cs Hc Hcs IH]; cbn; constructor; [|done].
  destruct c; cbn in *; try done; [|by apply Hc].
  by apply (bool_decide_unpack (SLASH ∉ DOTDOT)).
Qed.

Lemma tail_bytes_nonempty c : tail_component c -> component_bytes c <> [].
Proof. destruct c; cbn; try done. intros H; apply H. Qed.

Lemma tail_bytes_not_dot c : tail_component c -> component_bytes c <> DOT.
Proof. destruct c; cbn; try done. intros H; apply H. Qed.

Lemma no_sep_no_root s : SLASH ∉ s -> has_root s = false.
Proof.
  intros H. unfold has_root. apply bool_decide_eq_false. destruct s as [|x s]; [done|].
  intros [= ->]. apply H. left.
Qed.

Lemma last_no_sep (s : bytes) c : SLASH ∉ s -> last s = Some c -> c <> SLASH.
Proof. intros H Hl ->. apply H. apply last_Some in Hl as [l' ->].
  apply elem_of_app; right; left. Qed.

(** *** Normal form of a path *)

Lemma push_rel buf c :
  SLASH ∉ c -> (exists x, last buf = Some x /\ x <> SLASH) -> push buf c = buf ++ SLASH :: c.
Proof.
  intros Hc (x & Hx & Hne). unfold push. rewrite no_sep_no_root by done.
  by rewrite Hx, decide_False.
Qed.

Lemma fold_push_tail buf cs :
  Forall (fun s => s <> [] /\ SLASH ∉ s) cs -> (exists x, last buf = Some x /\ x <> SLASH) ->
  fold_left push cs buf = buf ++ concat (map (cons SLASH) cs).
Proof.
  revert buf; induction cs as [|c cs IH]; intros buf Hcs Hbuf; cbn; [by rewrite app_nil_r|].
  apply Forall_cons in Hcs as [[Hne Hc] Hcs]. rewrite push_rel by done.
  rewrite IH; [by rewrite <- app_assoc|done|].
  destruct (last c) as [x|] eqn:E; [|by apply last_None in E].
  exists x. split; [|by eapply last_no_sep].
  change (SLASH :: c) with ([SLASH] ++ c). by rewrite !last_app, E.
Qed.

Lemma concat_cons_join c ss : concat (map (cons SLASH) (c :: ss)) = SLASH :: join [SLASH] (c :: ss).
Proof.
  revert c; induction ss as [|d ss IH]; intros c; [cbn; by rewrite app_nil_r|].
  rewrite join_cons by done. cbn [map concat]. cbn [map concat] in IH. by rewrite IH.
Qed.

(** [normalize_key] of [src/server/path_coordinator.rs]: push every component
    onto an empty buffer. *)
Definition normalize_key (p : bytes) : bytes :=
  fold_left push (map component_bytes (components p)) [].

(** The normal form spelled out. *)
Definition render (lead cs : list Component) : bytes :=
  match lead with
  | RootDir :: _ => SLASH :: join [SLASH] (map component_bytes cs)
  | _ => join [SLASH] (map component_bytes (lead ++ cs))
  end.

Lemma tail_push_ok cs :
  Forall tail_component cs ->
  Forall (fun s => s <> [] /\ SLASH ∉ s) (map component_bytes cs).
Proof.
  intros H. pose proof (tail_bytes_no_sep _ H) as Hs.
  induction H as [|c cs Hc Hcs IH]; cbn in *; [done|]. apply Forall_cons in Hs as [? ?].
  constructor; [split; [by apply tail_bytes_nonempty|done] | by apply IH].
Qed.

Lemma fold_push_join c ss :
  Forall (fun s => s <> [] /\ SLASH ∉ s) (c :: ss) ->
  fold_left push (c :: ss) [] = join [SLASH] (c :: ss).
Proof.
  intros [[Hne Hc] Hss]%Forall_cons. cbn [fold_left].
  assert (push [] c = c) as -> by (unfold push; by rewrite no_sep_no_root).
  destruct ss as [|d ss]; [done|].
  rewrite fold_push_tail, concat_cons_join; [by rewrite (join_cons _ c) | done|].
  destruct (last c) as [x|] eqn:E; [|by apply last_None in E].
  exists x. split; [done | by eapply last_no_sep].
Qed.

Lemma fold_push_root cs :
  Forall (fun s => s <> [] /\ SLASH ∉ s) cs ->
  fold_left push cs [SLASH] = SLASH :: join [SLASH] cs.
Proof.
  destruct cs as [|c ss]; [done|]. intros [[Hne Hc] Hss]%Forall_cons. cbn [fold_left].
  assert (push [SLASH] c = SLASH :: c) as ->
    by (unfold push; by rewrite no_sep_no_root).
  rewrite fold_push_tail; [|done|].
  - destruct ss as [|d ss]; [cbn; by rewrite app_nil_r|].
    by rewrite concat_cons_join, (join_cons _ c).
  - destruct (last c) as [x|] eqn:E; [|by apply last_None in E].
    exists x. split; [|by eapply last_no_sep].
    change (SLASH :: c) with ([SLASH] ++ c). by rewrite last_app, E.
Qed.

Lemma normalize_render p lead cs :
  components p = lead ++ cs -> (lead = [] \/ lead = [RootDir] \/ lead = [CurDir]) ->
  Forall tail_component cs -> normalize_key p = render lead cs.
Proof.
  intros E Hlead Hcs. unfold normalize_key. rewrite E, map_app.
  pose proof (tail_push_ok _ Hcs) as Hok.
  destruct Hlead as [->|[->| ->]]; cbn [map app render].
  - destruct (map component_bytes cs) eqn:Em; [done|]. by apply fold_push_join.
  - cbn [fold_left]. change (push [] (component_bytes RootDir)) with [SLASH].
    by apply fold_push_root.
  - apply fold_push_join. constructor; [|done]. split; [done|].
    by apply (bool_decide_unpack (SLASH ∉ DOT)).
Qed.

Lemma components_render lead cs :
  (lead = [] \/ lead = [RootDir] \/ lead = [CurDir]) -> Forall tail_component cs ->
  components (render lead cs) = lead ++ cs.
Proof.
  intros Hlead Hcs. pose proof (tail_bytes_no_sep _ Hcs) as Hns.
  destruct (decide (cs = [])) as [->|Hne].
  { destruct Hlead as [->|[->| ->]]; reflexivity. }
  assert (map component_bytes cs <> []) as Hmne by (by destruct cs).
  destruct Hlead as [->|[->| ->]]; cbn [render app].
  - unfold components. rewrite split_join by done. rewrite omap_tail_bytes by done.
    destruct cs as [|c cs]; [done|]. apply Forall_cons in Hcs as [Hc Hcs].
    cbn [map head]. rewrite bool_decide_eq_false_2 by
      (intros [= Hd]; by apply (tail_bytes_not_dot _ Hc)).
    cbn [map] in Hns. apply Forall_cons in Hns as [Hs _].
    assert (has_root (join [SLASH] (component_bytes c :: map component_bytes cs)) = false) as ->.
    { unfold has_root. apply bool_decide_eq_false.
      pose proof (tail_bytes_nonempty _ Hc) as Hne'.
      destruct (component_bytes c) as [|x s]; [done|].
      destruct cs; cbn; intros [= ->]; apply Hs; left. }
    done.
  - unfold components, has_root. cbn [head]. rewrite bool_decide_eq_true_2 by done.
    cbn [split]. rewrite decide_True by done. cbn [omap].
    rewrite split_join by done. cbn. by rewrite omap_tail_bytes.
  - cbn [map]. assert (SLASH ∉ DOT) as Hdot by by apply (bool_decide_unpack (SLASH ∉ DOT)).
    unfold components. rewrite split_join; [|done|by constructor].
    cbn [head]. rewrite bool_decide_eq_true_2 by done.
    assert (has_root (join [SLASH] (component_bytes CurDir :: map component_bytes cs)) = false) as ->.
    { by destruct cs. }
    cbn [omap list_omap]. change (segment_component (component_bytes CurDir)) with (@None Component).
    cbn. by rewrite omap_tail_bytes.
Qed.

Lemma components_normalize p : components (normalize_key p) = components p.
Proof.
  destruct (components_shape p) as (lead & cs & E & Hlead & Hcs).
  rewrite (normalize_render p lead cs E Hlead Hcs), E. by apply components_render.
Qed.

Lemma normalize_key_eq p q : components p = components q -> normalize_key p = normalize_key q.
Proof. unfold normalize_key. by intros ->. Qed.

Lemma normalize_idem p : normalize_key (normalize_key p) = normalize_key p.
Proof. apply normalize_key_eq, components_normalize. Qed.
