(* ===== verification/PathKeys.v ===== *)
(** * Path keys and their conflicts

    [ResolvedPathKey] of [src/server/rooted_fs.rs] and the pure conflict tests of
    [src/server/path_coordinator.rs]: which pairs of mutation targets may not be
    held at the same time, and which durable paths lie below a target. *)

From S2P Require Import Prelude Paths.

Record FileIdentity : Type := { device : Z; inode : Z }.
#[global] Instance FileIdentity_eq_dec : EqDecision FileIdentity.
Proof. solve_decision. Defined.

(** The key of a directory entry: the directory and the name. *)
Record RootedEntryKey : Type := { ek_parent : FileIdentity; ek_name : bytes }.
#[global] Instance RootedEntryKey_eq_dec : EqDecision RootedEntryKey.
Proof. solve_decision. Defined.

(** The in-memory marker of maintenance; a NUL occurs in no real name. *)
Definition maintenance_marker (k : RootedEntryKey) : RootedEntryKey :=
  {| ek_parent := ek_parent k; ek_name := ek_name k ++ [x00] ++ str "xczs-maintenance" |}.

Record ResolvedPathKey : Type := {
  resolved_parent : FileIdentity;
  unresolved_tail : list bytes;
  ancestor_directories : list FileIdentity;
  target_directory : option FileIdentity }.
#[global] Instance ResolvedPathKey_eq_dec : EqDecision ResolvedPathKey.
Proof. solve_decision. Defined.

Record LeaseKey : Type := { lexical : bytes; resolved : ResolvedPathKey }.
#[global] Instance LeaseKey_eq_dec : EqDecision LeaseKey.
Proof. solve_decision. Defined.

(** ** The tests *)

(** [left.iter().zip(&right).all(|(l, r)| l == r)]. *)
Fixpoint zip_all_eq (l r : list bytes) : bool :=
  match l, r with
  | x :: l, y :: r => bool_decide (x = y) && zip_all_eq l r
  | _, _ => true
  end.

Definition anchored_tail_is_prefix (left right : ResolvedPathKey) : bool :=
  bool_decide (resolved_parent left = resolved_parent right)
  && bool_decide (length (unresolved_tail left) <= length (unresolved_tail right))
  && zip_all_eq (unresolved_tail left) (unresolved_tail right).

(** [ancestor.target_directory.is_some_and(|id| d.ancestor_directories.contains(&id))] *)
Definition target_among_ancestors (a d : ResolvedPathKey) : bool :=
  match target_directory a with
  | Some identity => bool_decide (identity ∈ ancestor_directories d)
  | None => false
  end.

Definition resolved_path_contains (ancestor descendant : ResolvedPathKey) : bool :=
  anchored_tail_is_prefix ancestor descendant || target_among_ancestors ancestor descendant.

Definition resolved_paths_conflict (left right : ResolvedPathKey) : bool :=
  anchored_tail_is_prefix left right
  || anchored_tail_is_prefix right left
  || target_among_ancestors left right
  || target_among_ancestors right left.

Definition resolved_path_strictly_contains (ancestor descendant : ResolvedPathKey) : bool :=
  (bool_decide (length (unresolved_tail ancestor) < length (unresolved_tail descendant))
   && anchored_tail_is_prefix ancestor descendant)
  || target_among_ancestors ancestor descendant.

Definition path_keys_conflict (left right : LeaseKey) : bool :=
  starts_with (lexical left) (lexical right)
  || starts_with (lexical right) (lexical left)
  || resolved_paths_conflict (resolved left) (resolved right).

Definition path_strictly_contains (ancestor descendant : LeaseKey) : bool :=
  (negb (path_eqb (lexical ancestor) (lexical descendant))
   && starts_with (lexical descendant) (lexical ancestor))
  || resolved_path_strictly_contains (resolved ancestor) (resolved descendant).

Definition paths_identify_same_entry (left right : LeaseKey) : bool :=
  path_eqb (lexical left) (lexical right)
  || (bool_decide (resolved_parent (resolved left) = resolved_parent (resolved right))
      && bool_decide (unresolved_tail (resolved left) = unresolved_tail (resolved right))).

Definition paths_conflict (left right : list LeaseKey) : bool :=
  existsb (fun l => existsb (fun r => path_keys_conflict l r) right) left.

(** The key used for a path whose resolution failed. *)
Definition conservative_path_key (root : FileIdentity) : ResolvedPathKey :=
  {| resolved_parent := root;
     unresolved_tail := [];
     ancestor_directories := [root];
     target_directory := Some root |}.

(** Every key the filesystem resolver returns records its ancestry from the
    shared root. *)
Definition anchored_at (root : FileIdentity) (k : ResolvedPathKey) : Prop :=
  root ∈ ancestor_directories k.

(** What the users of a resolver may rely on: the keys it returns are anchored. *)
Class PathResolver {E : Type} (root : FileIdentity) (resolve : bytes -> result E ResolvedPathKey)
    : Prop :=
  resolver_anchored : forall p k, resolve p = Ok k -> anchored_at root k.

(** ** What the tests decide *)

Lemma zip_all_eq_prefix l r :
  length l <= length r -> zip_all_eq l r = true <-> l `prefix_of` r.
Proof.
  revert r; induction l as [|x l IH]; intros [|y r] Hlen; cbn in *; try lia.
  - split; [intros; apply prefix_nil | done].
  - split; [intros; apply prefix_nil | done].
  - rewrite andb_true_iff, bool_decide_eq_true, IH by lia. split.
    + intros [-> ?]. by apply prefix_cons.
    + intros H. split; [by eapply prefix_cons_inv_1 | by eapply prefix_cons_inv_2].
Qed.

Lemma anchored_tail_is_prefix_spec l r :
  anchored_tail_is_prefix l r = true <->
  resolved_parent l = resolved_parent r /\ unresolved_tail l `prefix_of` unresolved_tail r.
Proof.
  unfold anchored_tail_is_prefix. rewrite !andb_true_iff, !bool_decide_eq_true. split.
  - intros [[? Hlen] Hz]. by rewrite zip_all_eq_prefix in Hz.
  - intros [? Hp]. pose proof (prefix_length _ _ Hp). by rewrite zip_all_eq_prefix.
Qed.

Lemma resolved_paths_conflict_sym l r :
  resolved_paths_conflict l r = resolved_paths_conflict r l.
Proof.
  unfold resolved_paths_conflict.
  by destruct (anchored_tail_is_prefix l r), (anchored_tail_is_prefix r l),
    (target_among_ancestors l r), (target_among_ancestors r l).
Qed.

Lemma path_keys_conflict_sym l r : path_keys_conflict l r = path_keys_conflict r l.
Proof.
  unfold path_keys_conflict. rewrite (resolved_paths_conflict_sym (resolved l)).
  by destruct (starts_with (lexical l) (lexical r)), (starts_with (lexical r) (lexical l)).
Qed.

Lemma paths_conflict_spec l r :
  paths_conflict l r = true <->
  exists a b, a ∈ l /\ b ∈ r /\ path_keys_conflict a b = true.
Proof.
  unfold paths_conflict. rewrite existsb_exists. setoid_rewrite existsb_exists.
  setoid_rewrite <- list_elem_of_In. naive_solver.
Qed.

Lemma paths_conflict_sym l r : paths_conflict l r = paths_conflict r l.
Proof.
  apply eq_true_iff_eq. rewrite !paths_conflict_spec.
  split; intros (a & b & ? & ? & H); exists b, a; by rewrite path_keys_conflict_sym.
Qed.

Lemma starts_with_refl p : starts_with p p = true.
Proof. unfold starts_with. by apply bool_decide_eq_true. Qed.

Lemma starts_with_antisym p q :
  starts_with p q = true -> starts_with q p = true -> path_eqb p q = true.
Proof.
  unfold starts_with, path_eqb. rewrite !bool_decide_eq_true. intros H1 H2.
  by apply (anti_symm prefix).
Qed.

Lemma conservative_conflicts root k :
  anchored_at root k -> resolved_paths_conflict (conservative_path_key root) k = true.
Proof.
  intros H. unfold resolved_paths_conflict, target_among_ancestors at 1.
  cbn [target_directory conservative_path_key]. rewrite bool_decide_eq_true_2 by done.
  by rewrite !orb_true_r.
Qed.

Lemma tails_trichotomy l r :
  anchored_tail_is_prefix l r || anchored_tail_is_prefix r l =
  (bool_decide (resolved_parent l = resolved_parent r)
   && bool_decide (unresolved_tail l = unresolved_tail r))
  || (bool_decide (length (unresolved_tail l) < length (unresolved_tail r))
      && anchored_tail_is_prefix l r)
  || (bool_decide (length (unresolved_tail r) < length (unresolved_tail l))
      && anchored_tail_is_prefix r l).
Proof.
  apply eq_true_iff_eq.
  rewrite !orb_true_iff, !andb_true_iff, !bool_decide_eq_true, !anchored_tail_is_prefix_spec.
  split.
  - intros [[Hp Ht]|[Hp Ht]]; pose proof (prefix_length _ _ Ht);
      destruct (decide (unresolved_tail l = unresolved_tail r)) as [|Hne]; auto.
    + left; right. split; [|done]. apply Nat.le_neq; split; [done|].
      intros Hlen. by apply Hne, prefix_length_eq; [|lia].
    + right. split; [|done]. apply Nat.le_neq; split; [done|].
      intros Hlen. by apply Hne; symmetry; apply prefix_length_eq; [|lia].
  - intros [[[Hp Ht]|[_ ?]]|[_ ?]]; auto. left. by rewrite Ht.
Qed.

Lemma lexical_trichotomy p q :
  starts_with p q || starts_with q p =
  path_eqb p q || (negb (path_eqb p q) && starts_with q p)
  || (negb (path_eqb q p) && starts_with p q).
Proof.
  destruct (path_eqb p q) eqn:E.
  - unfold path_eqb in E. apply bool_decide_eq_true in E.
    assert (starts_with p q = true) as -> by (unfold starts_with; rewrite E; by apply bool_decide_eq_true).
    done.
  - assert (path_eqb q p = false) as ->.
    { unfold path_eqb in *. apply bool_decide_eq_false in E. by apply bool_decide_eq_false. }
    by destruct (starts_with p q), (starts_with q p).
Qed.

Lemma path_keys_conflict_cases (a b : LeaseKey) :
  path_keys_conflict a b =
  paths_identify_same_entry a b || path_strictly_contains a b || path_strictly_contains b a.
Proof.
  unfold path_keys_conflict, paths_identify_same_entry, path_strictly_contains,
    resolved_paths_conflict, resolved_path_strictly_contains.
  rewrite lexical_trichotomy, tails_trichotomy.
  set (A := path_eqb (lexical a) (lexical b)).
  set (B := negb A && starts_with _ _). set (C := negb _ && starts_with _ _).
  set (D := bool_decide (resolved_parent _ = _) && _).
  set (E := bool_decide (length _ < length _) && anchored_tail_is_prefix (resolved a) _).
  set (F := bool_decide (length _ < length _) && anchored_tail_is_prefix (resolved b) _).
  by destruct A, B, C, D, E, F, (target_among_ancestors (resolved a) (resolved b)),
    (target_among_ancestors (resolved b) (resolved a)).
Qed.

(** The symmetric conflict test used to admit mutations is exactly the union
    of the three directional questions the durable-path scan asks: two keys
    conflict if and only if they identify the same entry, or one strictly
    contains the other (lexically, through the unresolved tail of one resolved
    parent, or through the physical directory ancestry). *)
Lemma path_keys_conflict_trichotomy (a b : LeaseKey) :
  path_keys_conflict a b =
  paths_identify_same_entry a b || path_strictly_contains a b || path_strictly_contains b a.
Proof. apply path_keys_conflict_cases. Qed.

(** Resolution fails closed: a lease key built from the conservative key,
    which is what a path gets when the filesystem cannot resolve it, conflicts
    with every key anchored at the shared root, whatever the two lexical paths
    are. *)
Lemma conservative_key_conflicts_with_all (root : FileIdentity) (p : bytes) (k : LeaseKey)
    (Hanchored : anchored_at root (resolved k)) :
  path_keys_conflict {| lexical := p; resolved := conservative_path_key root |} k = true /\
  path_keys_conflict k {| lexical := p; resolved := conservative_path_key root |} = true.
Proof.
  rewrite (path_keys_conflict_sym k). unfold path_keys_conflict; cbn [lexical resolved].
  by rewrite conservative_conflicts, !orb_true_r.
Qed.

Definition root_example : FileIdentity := {| device := 1; inode := 2 |}.
Definition key_example : LeaseKey :=
  {| lexical := str "/srv/share/a/b";
     resolved := {| resolved_parent := {| device := 1; inode := 7 |};
                    unresolved_tail := [str "b"];
                    ancestor_directories := [root_example; {| device := 1; inode := 7 |}];
                    target_directory := None |} |}.

Lemma conservative_key_conflicts_with_all_witness :
  path_keys_conflict {| lexical := str "/x"; resolved := conservative_path_key root_example |}
    key_example = true.
Proof.
  apply (conservative_key_conflicts_with_all root_example (str "/x") key_example).
  unfold anchored_at. left.
Defined.
