(* ===== verification/PathCoordinator.v ===== *)
(** * The path coordinator

    [src/server/path_coordinator.rs]: the queue that serialises namespace
    mutations.  A task that wants to mutate some paths registers as a waiter,
    resolves its paths to semantic keys, and acquires a lease once no held lease
    and no earlier waiter conflicts with it.

    [CoordinatorInner] is the shared state behind the two mutexes and the
    atomics; [Task] is the local state of one [acquire_inner] future, cut at its
    lock regions and await points; [exec] is one atomic step of the whole system
    for a scheduler's choice of [Action].  The counters are 64-bit and wrap, so
    the theorems are about runs of fewer than [2^64 - 1] steps.  Rooted
    resolution is an oracle: every [Resolve] action carries its result. *)

From S2P Require Import Prelude Paths PathKeys.

Module PathCoordinator.

Inductive WaiterState : Type :=
| Resolving (lexical_paths : list bytes)
| Resolved (paths : list LeaseKey).

Record CoordinatorInner : Type := {
  leases : gmap Z (list LeaseKey);
  waiters : gmap Z WaiterState;
  next_id : Z;
  next_waiter_id : Z;
  lease_epoch : Z;
  changes : Z }.

Inductive AcquireAttempt : Type :=
| Acquired (id : Z)
| Blocked
| Stale.

Definition new : CoordinatorInner :=
  {| leases := ∅; waiters := ∅; next_id := 1; next_waiter_id := 1;
     lease_epoch := 0; changes := 0 |}.

(** ** Shared-state operations *)

Definition with_waiters (ws : gmap Z WaiterState) (s : CoordinatorInner) : CoordinatorInner :=
  {| leases := leases s; waiters := ws; next_id := next_id s;
     next_waiter_id := next_waiter_id s; lease_epoch := lease_epoch s; changes := changes s |}.

(** [changes.send_modify(|version| *version = version.wrapping_add(1))] *)
Definition send_change (s : CoordinatorInner) : CoordinatorInner :=
  {| leases := leases s; waiters := waiters s; next_id := next_id s;
     next_waiter_id := next_waiter_id s; lease_epoch := lease_epoch s;
     changes := u64_wrapping_add (changes s) 1 |}.

Definition waiter_conflicts (waiter : WaiterState) (requested : list LeaseKey) : bool :=
  match waiter with
  | Resolving lexical_paths =>
      existsb (fun left => existsb (fun right =>
        starts_with left (lexical right) || starts_with (lexical right) left) requested)
        lexical_paths
  | Resolved paths => paths_conflict paths requested
  end.

Definition waiter_lexically_conflicts (waiter : WaiterState) (requested : list bytes) : bool :=
  match waiter with
  | Resolving lexical_paths =>
      existsb (fun left => existsb (fun right =>
        starts_with left right || starts_with right left) requested) lexical_paths
  | Resolved paths =>
      existsb (fun left => existsb (fun right =>
        starts_with (lexical left) right || starts_with right (lexical left)) requested) paths
  end.

(** [waiters.range(..id).any(|(_, earlier)| p(earlier))] *)
Definition any_before {A} (id : Z) (p : A -> bool) (ws : gmap Z A) : bool :=
  existsb (fun iw => (iw.1 <? id)%Z && p iw.2) (map_to_list ws).
(** [leases.values().any(p)] *)
Definition any_value {A} (p : A -> bool) (m : gmap Z A) : bool :=
  existsb (fun iw => p iw.2) (map_to_list m).

Definition try_acquire (s : CoordinatorInner) (requested : list LeaseKey)
    (expected_epoch waiter_id : Z) : CoordinatorInner * AcquireAttempt :=
  if negb (lease_epoch s =? expected_epoch)%Z then (s, Stale)
  else match waiters s !! waiter_id with
  | None => (s, Stale)
  | Some waiter =>
      let became_resolved := match waiter with Resolving _ => true | Resolved _ => false end in
      let ws := <[waiter_id := Resolved requested]> (waiters s) in
      let blocked := any_value (fun held => paths_conflict held requested) (leases s)
                     || any_before waiter_id (fun e => waiter_conflicts e requested) ws in
      if blocked then
        (if became_resolved then send_change (with_waiters ws s) else with_waiters ws s, Blocked)
      else
        let id := next_id s in
        (send_change
           {| leases := <[id := requested]> (leases s);
              waiters := delete waiter_id ws;
              next_id := u64_wrapping_add id 1;
              next_waiter_id := next_waiter_id s;
              lease_epoch := lease_epoch s;
              changes := changes s |}, Acquired id)
  end.

Definition mark_resolving_if_eligible (s : CoordinatorInner) (id : Z)
    (lexical_paths : list bytes) (previous_paths : option (list LeaseKey))
    : CoordinatorInner * bool :=
  let blocked_by_earlier := any_before id (fun earlier =>
    match previous_paths with
    | None => waiter_lexically_conflicts earlier lexical_paths
    | Some paths => waiter_conflicts earlier paths
    end) (waiters s) in
  if blocked_by_earlier then (s, false)
  else (match waiters s !! id with
        | Some _ => with_waiters (<[id := Resolving lexical_paths]> (waiters s)) s
        | None => s
        end, true).

(** [Drop for WaiterRegistration] while the registration is armed. *)
Definition drop_registration (s : CoordinatorInner) (id : Z) : CoordinatorInner :=
  match waiters s !! id with
  | Some _ => send_change (with_waiters (delete id (waiters s)) s)
  | None => s
  end.

(** [Drop for PathLease]. *)
Definition drop_lease (s : CoordinatorInner) (id : Z) : CoordinatorInner :=
  match leases s !! id with
  | Some _ =>
      send_change
        {| leases := delete id (leases s); waiters := waiters s; next_id := next_id s;
           next_waiter_id := next_waiter_id s;
           lease_epoch := u64_wrapping_add (lease_epoch s) 1; changes := changes s |}
  | None => s
  end.

(** ** One acquisition *)

(** Where an [acquire_inner] future stands: between the fetch of its waiter id
    and the insertion of its registration; at the head of its loop; before the
    load of the epoch; about to ask whether it may resolve; resolving the
    remaining paths; about to try; or asleep on the change channel. *)
Inductive Pc : Type :=
| Registering
| LoopHead
| LoadEpoch
| CheckEligible (expected_epoch : Z)
| ResolveKeys (expected_epoch : Z) (done : list LeaseKey) (todo : list bytes)
| TryAcquire (expected_epoch : Z)
| Waiting.

Record Task : Type := {
  lexical_paths : list bytes;
  resolved_paths : option (Z * list LeaseKey);
  seen : Z;
  pc : Pc }.

Record System : Type := { inner : CoordinatorInner; tasks : gmap Z Task }.

Definition init : System := {| inner := new; tasks := ∅ |}.

Inductive Action : Type :=
| Start (paths : list bytes)
| Run (waiter : Z)
| Resolve (waiter : Z) (outcome : option ResolvedPathKey)
| Cancel (waiter : Z)
| DropLease (id : Z).
#[global] Instance Action_eq_dec : EqDecision Action.
Proof. solve_decision. Defined.

(** [Vec::dedup]: drop an element equal to its predecessor. *)
Fixpoint dedup (l : list bytes) : list bytes :=
  match l with
  | [] => []
  | x :: l' =>
      x :: match l' with
           | [] => []
           | y :: _ => if path_eqb x y then tail (dedup l') else dedup l'
           end
  end.

(** [lexical_paths.sort(); lexical_paths.dedup()] over the normalised keys. *)
Definition lexical_keys (paths : list bytes) : list bytes :=
  dedup (merge_sort (cmp_le path_cmp) (map normalize_key paths)).

Definition set_pc (p : Pc) (t : Task) : Task :=
  {| lexical_paths := lexical_paths t; resolved_paths := resolved_paths t;
     seen := seen t; pc := p |}.
Definition put (w : Z) (t : Task) (i : CoordinatorInner) (s : System) : System :=
  {| inner := i; tasks := <[w := t]> (tasks s) |}.

Definition start (paths : list bytes) (s : System) : System :=
  let id := next_waiter_id (inner s) in
  put id {| lexical_paths := lexical_keys paths; resolved_paths := None;
            seen := changes (inner s); pc := Registering |}
    {| leases := leases (inner s); waiters := waiters (inner s); next_id := next_id (inner s);
       next_waiter_id := u64_wrapping_add id 1;
       lease_epoch := lease_epoch (inner s); changes := changes (inner s) |} s.

(** The next step of a future that does not wait for the filesystem. *)
Definition run (w : Z) (t : Task) (s : System) : option System :=
  let i := inner s in
  match pc t with
  | Registering =>
      Some (put w {| lexical_paths := lexical_paths t; resolved_paths := None;
                     seen := changes i; pc := LoopHead |}
              (with_waiters (<[w := Resolving (lexical_paths t)]> (waiters i)) i) s)
  | LoopHead =>
      Some (put w {| lexical_paths := lexical_paths t; resolved_paths := resolved_paths t;
                     seen := changes i; pc := LoadEpoch |} i s)
  | LoadEpoch =>
      let expected_epoch := lease_epoch i in
      let stale := match resolved_paths t with
                   | None => true
                   | Some (epoch, _) => negb (epoch =? expected_epoch)%Z
                   end in
      Some (put w (set_pc (if stale then CheckEligible expected_epoch
                           else TryAcquire expected_epoch) t) i s)
  | CheckEligible expected_epoch =>
      let '(i', eligible) :=
        mark_resolving_if_eligible i w (lexical_paths t) (snd <$> resolved_paths t) in
      Some (put w (set_pc (if eligible then ResolveKeys expected_epoch [] (lexical_paths t)
                           else Waiting) t) i' s)
  | ResolveKeys expected_epoch paths [] =>
      Some (put w {| lexical_paths := lexical_paths t;
                     resolved_paths := Some (expected_epoch, paths);
                     seen := seen t; pc := TryAcquire expected_epoch |} i s)
  | ResolveKeys _ _ (_ :: _) => None
  | TryAcquire expected_epoch =>
      match resolved_paths t with
      | None => None
      | Some (_, paths) =>
          match try_acquire i paths expected_epoch w with
          | (i', Acquired _) => Some {| inner := i'; tasks := delete w (tasks s) |}
          | (i', Stale) => Some (put w (set_pc LoopHead t) i' s)
          | (i', Blocked) => Some (put w (set_pc Waiting t) i' s)
          end
      end
  | Waiting =>
      if (changes i =? seen t)%Z then None
      else Some (put w {| lexical_paths := lexical_paths t; resolved_paths := resolved_paths t;
                          seen := changes i; pc := LoopHead |} i s)
  end.

Section System.
Context (root : FileIdentity).

(** The filesystem's answer for the next path; a failure takes the global key. *)
Definition resolve (w : Z) (t : Task) (outcome : option ResolvedPathKey) (s : System)
    : option System :=
  match pc t with
  | ResolveKeys expected_epoch paths (p :: todo) =>
      let key := {| lexical := p; resolved := default (conservative_path_key root) outcome |} in
      Some (put w (set_pc (ResolveKeys expected_epoch (paths ++ [key]) todo) t) (inner s) s)
  | _ => None
  end.

(** A future can be dropped at its await points only. *)
Definition cancel (w : Z) (t : Task) (s : System) : option System :=
  match pc t with
  | ResolveKeys _ _ (_ :: _) | Waiting =>
      Some {| inner := drop_registration (inner s) w; tasks := delete w (tasks s) |}
  | _ => None
  end.

Definition exec (a : Action) (s : System) : option System :=
  match a with
  | Start paths => Some (start paths s)
  | Run w => t ← tasks s !! w; run w t s
  | Resolve w outcome => t ← tasks s !! w; resolve w t outcome s
  | Cancel w => t ← tasks s !! w; cancel w t s
  | DropLease id => Some {| inner := drop_lease (inner s) id; tasks := tasks s |}
  end.

Inductive reachable : nat -> System -> Prop :=
| reach_init : reachable 0 init
| reach_step n s a s' : reachable n s -> exec a s = Some s' -> reachable (S n) s'.
End System.

(** ** Basic facts *)

Lemma any_before_true {A} id (p : A -> bool) (ws : gmap Z A) :
  any_before id p ws = true <-> exists i w, ws !! i = Some w /\ (i < id)%Z /\ p w = true.
Proof.
  unfold any_before. rewrite existsb_exists. split.
  - intros ([i w] & Hin & H). apply list_elem_of_In, elem_of_map_to_list in Hin.
    cbn in H. split_bool. eauto.
  - intros (i & w & Hi & Hlt & Hp). exists (i, w).
    split; [by apply list_elem_of_In, elem_of_map_to_list|]. cbn.
    by rewrite (proj2 (Z.ltb_lt i id)).
Qed.

Lemma any_before_false {A} id (p : A -> bool) (ws : gmap Z A) :
  any_before id p ws = false <-> forall i w, ws !! i = Some w -> (i < id)%Z -> p w = false.
Proof.
  rewrite <- not_true_iff_false, any_before_true. split.
  - intros H i w Hi Hlt. apply not_true_iff_false. naive_solver.
  - intros H (i & w & Hi & Hlt & Hp). by rewrite (H i w) in Hp.
Qed.

Lemma any_value_false {A} (p : A -> bool) (m : gmap Z A) :
  any_value p m = false <-> forall i a, m !! i = Some a -> p a = false.
Proof.
  unfold any_value. rewrite existsb_false. split.
  - intros H i a Hi. apply (H (i, a)). by apply elem_of_map_to_list.
  - intros H [i a] Hi%elem_of_map_to_list. eauto.
Qed.

Lemma any_value_true {A} (p : A -> bool) (m : gmap Z A) :
  any_value p m = true <-> exists i a, m !! i = Some a /\ p a = true.
Proof.
  unfold any_value. rewrite existsb_exists. split.
  - intros ([i a] & Hin & H). apply list_elem_of_In, elem_of_map_to_list in Hin. eauto.
  - intros (i & a & Hi & Hp). exists (i, a). split; [|done].
    by apply list_elem_of_In, elem_of_map_to_list.
Qed.

Lemma wrapping_small a : (0 <= a < U64_MAX)%Z -> u64_wrapping_add a 1 = (a + 1)%Z.
Proof. intros H. unfold u64_wrapping_add. apply Z.mod_small. lia. Qed.

(** [try_acquire] has three outcomes; this is all the proofs need of it. *)
Lemma try_acquire_cases s ks e w :
  (exists st, try_acquire s ks e w = (s, st) /\ st = Stale /\
     (lease_epoch s <> e \/ waiters s !! w = None)) \/
  (exists s', try_acquire s ks e w = (s', Blocked) /\
     lease_epoch s = e /\ is_Some (waiters s !! w) /\
     leases s' = leases s /\ waiters s' = <[w := Resolved ks]> (waiters s) /\
     next_id s' = next_id s /\ next_waiter_id s' = next_waiter_id s /\
     lease_epoch s' = lease_epoch s /\
     (changes s' = changes s \/ changes s' = u64_wrapping_add (changes s) 1) /\
     ((exists i held, leases s !! i = Some held /\ paths_conflict held ks = true) \/
      (exists i e, waiters s !! i = Some e /\ (i < w)%Z /\ waiter_conflicts e ks = true))) \/
  (exists s', try_acquire s ks e w = (s', Acquired (next_id s)) /\
     lease_epoch s = e /\ is_Some (waiters s !! w) /\
     leases s' = <[next_id s := ks]> (leases s) /\ waiters s' = delete w (waiters s) /\
     next_id s' = u64_wrapping_add (next_id s) 1 /\ next_waiter_id s' = next_waiter_id s /\
     lease_epoch s' = lease_epoch s /\ changes s' = u64_wrapping_add (changes s) 1 /\
     (forall i held, leases s !! i = Some held -> paths_conflict held ks = false) /\
     (forall i e, waiters s !! i = Some e -> (i < w)%Z -> waiter_conflicts e ks = false)).
Proof.
  unfold try_acquire. destruct (Z.eqb_spec (lease_epoch s) e) as [He|He]; cbn [negb];
    [|by left; exists Stale; auto].
  destruct (waiters s !! w) as [ws|] eqn:Hw; [|by left; exists Stale; auto].
  destruct (any_value _ (leases s) || any_before w _ _) eqn:Hb.
  - right; left. eexists. split; [done|]. repeat split; try (destruct ws; done).
    + by destruct ws; [right|left].
    + apply orb_true_iff in Hb as [Hb|Hb].
      * left. by apply any_value_true.
      * right. apply any_before_true in Hb as (i & x & Hi & Hlt & Hc).
        rewrite lookup_insert_ne in Hi by lia. eauto.
  - right; right. apply orb_false_iff in Hb as [Hl Hb].
    rewrite any_value_false in Hl. rewrite any_before_false in Hb.
    eexists. split; [done|]. cbn. repeat split; try done.
    + by rewrite delete_insert_eq.
    + intros i x Hi Hlt. apply (Hb i x); [|done]. by rewrite lookup_insert_ne by lia.
Qed.

(** ** The invariant *)

(** What a waiter entry covers lexically. *)
Definition covers (ws : WaiterState) (lex : list bytes) : Prop :=
  match ws with
  | Resolving l => l = lex
  | Resolved ks => map lexical ks = lex
  end.

Definition counters_ok (n : nat) (i : CoordinatorInner) : Prop :=
  (1 <= next_id i <= 1 + Z.of_nat n)%Z /\
  (1 <= next_waiter_id i <= 1 + Z.of_nat n)%Z /\
  (0 <= lease_epoch i <= Z.of_nat n)%Z /\
  (0 <= changes i <= Z.of_nat n)%Z.

(** Held leases have allocated ids and pairwise conflict-free keys. *)
Definition leases_ok (i : CoordinatorInner) : Prop :=
  (forall id ks, leases i !! id = Some ks -> (id < next_id i)%Z) /\
  (forall a b ka kb, leases i !! a = Some ka -> leases i !! b = Some kb -> a <> b ->
     paths_conflict ka kb = false).

(** The local state of a pending acquisition agrees with its queue entry. *)
Definition task_ok (i : CoordinatorInner) (w : Z) (t : Task) : Prop :=
  (w < next_waiter_id i)%Z /\
  (seen t <= changes i)%Z /\
  (match pc t with
   | Registering => waiters i !! w = None /\ resolved_paths t = None
   | _ => exists ws, waiters i !! w = Some ws /\ covers ws (lexical_paths t)
   end) /\
  (forall e ks, resolved_paths t = Some (e, ks) -> map lexical ks = lexical_paths t) /\
  (match pc t with
   | ResolveKeys _ ks todo => map lexical ks ++ todo = lexical_paths t
   | TryAcquire e => exists ks, resolved_paths t = Some (e, ks)
   | Waiting => seen t = changes i ->
       (exists id, is_Some (leases i !! id)) \/
       (exists w', (w' < w)%Z /\ is_Some (waiters i !! w'))
   | _ => True
   end).

Record Inv (n : nat) (s : System) : Prop := {
  inv_counters : counters_ok n (inner s);
  inv_leases : leases_ok (inner s);
  inv_tasks : forall w t, tasks s !! w = Some t -> task_ok (inner s) w t;
  inv_queue : forall w, is_Some (waiters (inner s) !! w) -> is_Some (tasks s !! w) }.

Lemma inv_init : Inv 0 init.
Proof.
  split; cbn.
  - unfold counters_ok; cbn. lia.
  - by split.
  - done.
  - intros w [? H]. done.
Qed.

(** How a step of one task may change the shared state as the others see it:
    counters only grow, another task's queue entry stays, and whoever removes a
    lease or an earlier entry bumps the change counter. *)
Definition frame (w : Z) (i i' : CoordinatorInner) : Prop :=
  (next_waiter_id i <= next_waiter_id i')%Z /\
  (changes i <= changes i')%Z /\
  (forall v, v <> w -> waiters i' !! v = waiters i !! v) /\
  (changes i' = changes i ->
     (forall id, is_Some (leases i !! id) -> is_Some (leases i' !! id)) /\
     (is_Some (waiters i !! w) -> is_Some (waiters i' !! w))).

Lemma task_ok_frame w i i' v t : frame w i i' -> v <> w -> task_ok i v t -> task_ok i' v t.
Proof.
  intros (Hn & Hc & Hw & Hkeep) Hne (H1 & H2 & H3 & H4 & H5). split_and!; try done; try lia.
  - destruct (pc t); rewrite Hw by done; done.
  - destruct (pc t); try done. intros Hs. assert (changes i' = changes i) as E by lia.
    destruct (Hkeep E) as [Hl Hwk]. destruct H5 as [[id Hid]|(w' & Hlt & Hw')]; [lia|by left; eauto|].
    right. exists w'. split; [done|]. destruct (decide (w' = w)) as [->|]; [by apply Hwk|].
    by rewrite Hw.
Qed.

Lemma frame_refl w i : frame w i i.
Proof. unfold frame. split_and!; try done; lia. Qed.

Lemma counters_ok_S n i : counters_ok n i -> counters_ok (S n) i.
Proof. unfold counters_ok. lia. Qed.

Lemma inv_put n s w t i :
  Inv n s -> frame w (inner s) i -> counters_ok (S n) i -> leases_ok i -> task_ok i w t ->
  Inv (S n) (put w t i s).
Proof.
  intros [_ _ Ht Hq] Hf Hc Hl Hw. split; cbn; try done.
  - intros v t' Hv. destruct (decide (v = w)) as [->|Hne]; simplify_map_eq; [done|].
    eauto using task_ok_frame.
  - intros v Hv. destruct (decide (v = w)) as [->|Hne]; simplify_map_eq; [done|].
    apply Hq. destruct Hf as (_ & _ & Hf & _). by rewrite <- Hf.
Qed.

Lemma inv_remove n s w i :
  Inv n s -> frame w (inner s) i -> counters_ok (S n) i -> leases_ok i ->
  waiters i !! w = None ->
  Inv (S n) {| inner := i; tasks := delete w (tasks s) |}.
Proof.
  intros [_ _ Ht Hq] Hf Hc Hl Hw. split; cbn; try done.
  - intros v t' Hv. destruct (decide (v = w)) as [->|Hne]; simplify_map_eq.
    eauto using task_ok_frame.
  - intros v Hv. destruct (decide (v = w)) as [->|Hne]; [by destruct Hv; simplify_eq|].
    rewrite lookup_delete_ne by done. apply Hq.
    destruct Hf as (_ & _ & Hf & _). by rewrite <- Hf.
Qed.

(** A step that only moves the task's own program counter. *)
Lemma inv_local n s w t t' :
  Inv n s -> tasks s !! w = Some t -> task_ok (inner s) w t' ->
  Inv (S n) (put w t' (inner s) s).
Proof.
  intros H Ht Hok.
  apply inv_put; [done|apply frame_refl|apply counters_ok_S, H|apply H|done].
Qed.

Section Preservation.
Context (root : FileIdentity) (n : nat) (s : System).
Hypothesis Hinv : Inv n s.
Hypothesis Hn : (Z.of_nat n + 1 < U64_MAX)%Z.

#[local] Ltac counters :=
  unfold frame, counters_ok, with_waiters, send_change in *; cbn;
  rewrite ?wrapping_small by lia; split_and!; try done; try lia.

Lemma inv_start paths : Inv (S n) (start paths s).
Proof.
  destruct Hinv as [Hc [Hl1 Hl2] Ht Hq]. pose proof Hc as (Hi & Hw & He & Hch).
  apply inv_put; [done|..|done|].
  - counters.
  - counters.
  - unfold task_ok; cbn. rewrite wrapping_small by lia. split_and!; try lia; try done.
    apply eq_None_not_Some. intros Hs.
    apply Hq in Hs as [t Hs]. apply Ht in Hs as [? _]. lia.
Qed.

Lemma inv_register w t :
  tasks s !! w = Some t -> pc t = Registering ->
  Inv (S n) (put w {| lexical_paths := lexical_paths t; resolved_paths := None;
                     seen := changes (inner s); pc := LoopHead |}
    (with_waiters (<[w := Resolving (lexical_paths t)]> (waiters (inner s))) (inner s)) s).
Proof.
  intros Ht Hpc. destruct (inv_tasks _ _ Hinv w t Ht) as (Hlt & Hs & Hw & _ & _).
  rewrite Hpc in Hw. apply inv_put; [done|..|apply Hinv|].
  - counters. { intros v Hv. by rewrite lookup_insert_ne. } intros _. split; [done|].
    intros _. by rewrite lookup_insert_eq.
  - pose proof (inv_counters _ _ Hinv). counters.
  - unfold task_ok; cbn. rewrite lookup_insert_eq. split_and!; try done; by eexists.
Qed.

Lemma inv_check w t e :
  tasks s !! w = Some t -> pc t = CheckEligible e ->
  forall i b, mark_resolving_if_eligible (inner s) w (lexical_paths t) (snd <$> resolved_paths t) = (i, b) ->
  Inv (S n) (put w (set_pc (if b then ResolveKeys e [] (lexical_paths t) else Waiting) t) i s).
Proof.
  intros Ht Hpc i b Hm. destruct (inv_tasks _ _ Hinv w t Ht) as (Hlt & Hs & Hw & Hr & _).
  rewrite Hpc in Hw. destruct Hw as (ws & Hw & Hcov).
  unfold mark_resolving_if_eligible in Hm. rewrite Hw in Hm.
  destruct (any_before _ _ _) eqn:Hb; simplify_eq.
  - eapply inv_local; [done|done|]. unfold task_ok; cbn. split_and!; eauto.
    intros _. right. apply any_before_true in Hb as (w' & x & Hx & Hw' & _). eauto.
  - apply inv_put; [done|..|apply Hinv|].
    + counters. { intros v Hv. by rewrite lookup_insert_ne. } intros _. split; [done|].
      intros _. by rewrite lookup_insert_eq.
    + pose proof (inv_counters _ _ Hinv). counters.
    + unfold task_ok; cbn. rewrite lookup_insert_eq. split_and!; try done; by eexists.
Qed.

Lemma leases_ok_insert i ks :
  leases_ok i -> (0 <= next_id i < U64_MAX)%Z ->
  (forall j held, leases i !! j = Some held -> paths_conflict held ks = false) ->
  forall i', leases i' = <[next_id i := ks]> (leases i) ->
  next_id i' = u64_wrapping_add (next_id i) 1 -> leases_ok i'.
Proof.
  intros [H1 H2] Hb Hc i' Hl Hn'. rewrite wrapping_small in Hn' by lia. split; rewrite Hl.
  - intros id k Hid. rewrite Hn'. destruct (decide (id = next_id i)) as [->|]; [lia|].
    simplify_map_eq. apply H1 in Hid. lia.
  - intros a b ka kb Ha Hb' Hne.
    destruct (decide (a = next_id i)) as [->|]; [|destruct (decide (b = next_id i)) as [->|]];
      simplify_map_eq; eauto.
    rewrite paths_conflict_sym. eauto.
Qed.

Lemma inv_try w t e ks s' :
  tasks s !! w = Some t -> pc t = TryAcquire e -> resolved_paths t = Some (e, ks) ->
  run w t s = Some s' -> Inv (S n) s'.
Proof.
  intros Ht Hpc Hks Hrun. destruct (inv_tasks _ _ Hinv w t Ht) as (Hlt & Hs & Hw & Hr & _).
  rewrite Hpc in Hw. destruct Hw as (ws & Hw & Hcov).
  pose proof (inv_counters _ _ Hinv) as Hcnt. pose proof Hcnt as (Hid & Hwid & Hep & Hch).
  unfold run in Hrun. rewrite Hpc, Hks in Hrun.
  destruct (try_acquire_cases (inner s) ks e w) as
    [(st & E & -> & _)|[(i & E & He & _ & Hl & Hws & Hnx & Hnw & Hle & Hcc & Hblk)
      |(i & E & He & _ & Hl & Hws & Hnx & Hnw & Hle & Hcc & Hfl & Hfw)]];
    rewrite E in Hrun; simplify_eq.
  - eapply inv_local; [done|done|]. unfold task_ok; cbn. split_and!; eauto.
  - apply inv_put; [done|..].
    + unfold frame. rewrite Hnw, Hws, Hl. rewrite wrapping_small in Hcc by lia.
      split_and!; try lia.
      * intros v Hv. by rewrite lookup_insert_ne.
      * intros _. split; [done|]. intros _. by rewrite lookup_insert_eq.
    + unfold counters_ok. rewrite wrapping_small in Hcc by lia. rewrite Hnx, Hnw, Hle. lia.
    + destruct (inv_leases _ _ Hinv) as [H1 H2]. split; rewrite Hl, ?Hnx; done.
    + unfold task_ok; cbn. rewrite Hws, Hl, Hnw, lookup_insert_eq.
      rewrite wrapping_small in Hcc by lia. split_and!; try done;
        [lia|by eexists; split; [done|by eapply Hr]|].
      intros _. destruct Hblk as [(j & held & Hj & _)|(j & x & Hj & Hjw & _)]; [left; eauto|].
      right. exists j. split; [done|]. rewrite lookup_insert_ne by lia. eauto.
  - rewrite wrapping_small in Hcc by lia. apply inv_remove; [done|..].
    + unfold frame. rewrite Hnw, Hws, Hl, Hcc. split_and!; try lia.
      intros v Hv. by rewrite lookup_delete_ne.
    + unfold counters_ok. rewrite Hnx, Hnw, Hle, Hcc, wrapping_small by lia. lia.
    + eapply leases_ok_insert; eauto; [apply Hinv | lia].
    + rewrite Hws. apply lookup_delete_eq.
Qed.

Lemma inv_run w t s' : tasks s !! w = Some t -> run w t s = Some s' -> Inv (S n) s'.
Proof.
  intros Ht Hrun. pose proof (inv_tasks _ _ Hinv w t Ht) as Hok.
  destruct (pc t) as [| | |e|e ks [|p todo]|e|] eqn:Hpc.
  7: { destruct Hok as (_ & _ & _ & _ & Hks). rewrite Hpc in Hks. destruct Hks as [ks Hks].
       by eapply inv_try. }
  3: { unfold run in Hrun. rewrite Hpc in Hrun. injection Hrun as <-.
       destruct Hok as (? & ? & Hw & Hr & _). rewrite Hpc in Hw.
       eapply inv_local; [done|done|]. unfold task_ok; cbn.
       destruct (resolved_paths t) as [[e ks]|]; [destruct (Z.eqb_spec e (lease_epoch (inner s)))|];
         cbn; split_and!; subst; eauto. }
  all: unfold run in Hrun; rewrite Hpc in Hrun; simplify_eq.
  - by apply inv_register.
  - destruct Hok as (? & ? & Hw & Hr & _). rewrite Hpc in Hw.
    eapply inv_local; [done|done|]. unfold task_ok; cbn. split_and!; try lia; eauto.
  - destruct (mark_resolving_if_eligible _ _ _ _) as [i b] eqn:E. simplify_eq. by eapply inv_check.
  - destruct Hok as (? & ? & Hw & Hr & Hk). rewrite Hpc in Hw, Hk. rewrite app_nil_r in Hk.
    eapply inv_local; [done|done|]. unfold task_ok; cbn. split_and!; eauto. naive_solver.
  - destruct (Z.eqb_spec (changes (inner s)) (seen t)); simplify_eq.
    destruct Hok as (? & ? & Hw & Hr & _). rewrite Hpc in Hw.
    eapply inv_local; [done|done|]. unfold task_ok; cbn. split_and!; try lia; eauto.
Qed.

Lemma inv_resolve w t o s' :
  tasks s !! w = Some t -> resolve root w t o s = Some s' -> Inv (S n) s'.
Proof.
  intros Ht H. destruct (inv_tasks _ _ Hinv w t Ht) as (? & ? & Hw & Hr & Hk).
  unfold resolve in H. destruct (pc t) as [| | |e|e ks [|p todo]|e|]; simplify_eq.
  eapply inv_local; [done|done|]. unfold task_ok; cbn. split_and!; eauto.
  by rewrite map_app, <- app_assoc.
Qed.

Lemma inv_cancel w t s' : tasks s !! w = Some t -> cancel w t s = Some s' -> Inv (S n) s'.
Proof.
  intros Ht H. destruct (inv_tasks _ _ Hinv w t Ht) as (_ & _ & Hw & _ & _).
  assert (exists ws, waiters (inner s) !! w = Some ws) as [ws Hws].
  { unfold cancel in H. destruct (pc t) as [| | |e|e ks [|p todo]|e|]; naive_solver. }
  pose proof (inv_counters _ _ Hinv) as (Hid & Hwid & Hep & Hch).
  assert (s' = {| inner := drop_registration (inner s) w; tasks := delete w (tasks s) |}) as ->.
  { unfold cancel in H. destruct (pc t) as [| | |e|e ks [|p todo]|e|]; naive_solver. }
  unfold drop_registration. rewrite Hws. apply inv_remove; [done|..|apply Hinv|].
  - counters. intros v Hv. by rewrite lookup_delete_ne.
  - counters.
  - apply lookup_delete_eq.
Qed.

Lemma inv_drop_lease id : Inv (S n) {| inner := drop_lease (inner s) id; tasks := tasks s |}.
Proof.
  destruct Hinv as [Hc [Hl1 Hl2] Ht Hq]. pose proof Hc as (Hid & Hwid & Hep & Hch).
  unfold drop_lease. destruct (leases (inner s) !! id) as [ks|] eqn:Hid'.
  - split; cbn; try done.
    + counters.
    + split; cbn.
      * intros j k [_ Hj]%lookup_delete_Some. eauto.
      * intros a b ka kb [_ Ha]%lookup_delete_Some [_ Hb]%lookup_delete_Some. eauto.
    + intros w t Hw. apply Ht in Hw as (H1 & H2 & H3 & H4 & H5).
      unfold task_ok; cbn. rewrite wrapping_small by lia. split_and!; try done; try lia.
      destruct (pc t); try done. intros ?. lia.
  - split; try done. by apply counters_ok_S.
Qed.

Lemma inv_exec a s' : exec root a s = Some s' -> Inv (S n) s'.
Proof.
  destruct a as [ps|w|w o|w|id]; cbn; intros H.
  - injection H as <-. apply inv_start.
  - apply bind_Some in H as (t & Ht & H). by eapply inv_run.
  - apply bind_Some in H as (t & Ht & H). by eapply inv_resolve.
  - apply bind_Some in H as (t & Ht & H). by eapply inv_cancel.
  - injection H as <-. apply inv_drop_lease.
Qed.
End Preservation.

Lemma reachable_inv root n s :
  reachable root n s -> (Z.of_nat n < U64_MAX)%Z -> Inv n s.
Proof.
  induction 1 as [|n s a s' Hr IH Hx]; intros Hn; [apply inv_init|].
  eapply inv_exec; [apply IH; lia | lia | done].
Qed.

(** ** Mutual exclusion *)

Lemma no_conflict_no_prefix ka kb a b :
  paths_conflict ka kb = false -> a ∈ ka -> b ∈ kb ->
  starts_with (lexical a) (lexical b) = false /\
  starts_with (lexical b) (lexical a) = false /\
  paths_identify_same_entry a b = false /\
  path_strictly_contains a b = false.
Proof.
  intros H Ha Hb. assert (path_keys_conflict a b = false) as Hc.
  { apply not_true_iff_false. intros Hc. apply not_true_iff_false in H. apply H.
    apply paths_conflict_spec. eauto. }
  pose proof (path_keys_conflict_cases a b) as Hd. rewrite Hc in Hd. symmetry in Hd.
  unfold path_keys_conflict in Hc. split_bool. done.
Qed.

(** C1. Mutual exclusion: in every reachable state of the coordinator, whatever
    the scheduler, the filesystem's answers, cancellations and releases, two
    different held leases never cover conflicting paths; in particular no path
    of one equals, contains or lies below a path of the other, lexically or
    after resolution. *)
Theorem leases_mutually_exclusive (root : FileIdentity) (n : nat) (s : System)
    (i j : Z) (ki kj : list LeaseKey)
    (Hreach : reachable root n s) (Hsteps : (Z.of_nat n < U64_MAX)%Z)
    (Hi : leases (inner s) !! i = Some ki) (Hj : leases (inner s) !! j = Some kj)
    (Hne : i <> j) :
  paths_conflict ki kj = false /\
  forall a b, a ∈ ki -> b ∈ kj ->
    starts_with (lexical a) (lexical b) = false /\
    starts_with (lexical b) (lexical a) = false /\
    paths_identify_same_entry a b = false /\
    path_strictly_contains a b = false.
Proof.
  pose proof (reachable_inv root n s Hreach Hsteps) as [_ [_ Hex] _ _].
  assert (paths_conflict ki kj = false) as Hc by eauto.
  split; [done|]. intros a b. by apply no_conflict_no_prefix.
Qed.

(** ** First come, first served *)

(** Two path lists of which some member of one is an ancestor of, or equal to,
    some member of the other. *)
Definition lexically_related (l r : list bytes) : Prop :=
  exists p q, p ∈ l /\ q ∈ r /\ (starts_with p q || starts_with q p) = true.

Lemma covers_conflicts ws ks l r :
  covers ws l -> map lexical ks = r -> lexically_related l r -> waiter_conflicts ws ks = true.
Proof.
  intros Hc <- (p & q & Hp & Hq & Hpq).
  apply list_elem_of_fmap in Hq as (k & -> & Hk). destruct ws as [l'|ks']; cbn in *; subst.
  - apply existsb_exists. exists p. split; [by apply list_elem_of_In|].
    apply existsb_exists. exists k. split; [by apply list_elem_of_In|done].
  - apply list_elem_of_fmap in Hp as (k' & -> & Hk'). apply paths_conflict_spec.
    exists k', k. split_and!; try done. unfold path_keys_conflict. by rewrite Hpq.
Qed.

Lemma exec_keeps_other root a s s' w t :
  exec root a s = Some s' -> tasks s !! w = Some t -> a <> Run w -> a <> Cancel w ->
  (w < next_waiter_id (inner s))%Z -> is_Some (tasks s' !! w).
Proof.
  intros Hx Ht Hr Hc Hlt. destruct a as [ps|v|v o|v|id]; cbn in Hx.
  - injection Hx as <-. cbn. rewrite lookup_insert_ne by lia. eauto.
  - assert (v <> w) as Hne by congruence. apply bind_Some in Hx as (t' & Ht' & Hx).
    unfold run in Hx. repeat (case_match; simplify_eq/=; simplify_map_eq; eauto).
  - apply bind_Some in Hx as (t' & Ht' & Hx). unfold resolve in Hx.
    repeat (case_match; simplify_eq). cbn.
    destruct (decide (v = w)) as [->|]; simplify_map_eq; eauto.
  - assert (v <> w) as Hne by congruence. apply bind_Some in Hx as (t' & Ht' & Hx).
    unfold cancel in Hx. repeat (case_match; simplify_eq/=; simplify_map_eq; eauto).
  - injection Hx as <-. eauto.
Qed.

(** Admission is first come, first served for related paths: while an
    earlier request is queued, a later request for a path that equals, contains
    or lies below one of its paths is not granted a lease by any step; it leaves
    the queue only if it is itself cancelled. *)
Lemma earlier_waiter_blocks_later (root : FileIdentity) (n : nat) (s s' : System)
    (a : Action) (w1 w2 : Z) (t1 t2 : Task)
    (Hreach : reachable root n s) (Hsteps : (Z.of_nat n < U64_MAX)%Z)
    (H1 : tasks s !! w1 = Some t1) (H2 : tasks s !! w2 = Some t2) (Hlt : (w1 < w2)%Z)
    (Hqueued : is_Some (waiters (inner s) !! w1))
    (Hrel : lexically_related (lexical_paths t1) (lexical_paths t2))
    (Hstep : exec root a s = Some s') (Hnotcancel : a <> Cancel w2) :
  is_Some (tasks s' !! w2).
Proof.
  pose proof (reachable_inv root n s Hreach Hsteps) as Hinv.
  pose proof (inv_tasks _ _ Hinv _ _ H1) as (_ & _ & Hw1 & _ & _).
  pose proof (inv_tasks _ _ Hinv _ _ H2) as (Hlt2 & _ & _ & Hr2 & Hk2).
  destruct (decide (a = Run w2)) as [->|Hr]; [|by eapply exec_keeps_other].
  cbn in Hstep. rewrite H2 in Hstep. cbn in Hstep. unfold run in Hstep.
  destruct (pc t2) as [| | |e|e ks [|p todo]|e|] eqn:Hpc;
    try (repeat case_match; simplify_eq/=; by rewrite lookup_insert_eq).
  destruct Hk2 as [ks Hks]. rewrite Hks in Hstep.
  assert (exists ws, waiters (inner s) !! w1 = Some ws /\ covers ws (lexical_paths t1))
    as (ws & Hws & Hcov).
  { destruct (pc t1); try done. destruct Hw1 as [Hnone _]. rewrite Hnone in Hqueued.
    by destruct Hqueued. }
  pose proof (covers_conflicts ws ks _ _ Hcov (Hr2 _ _ Hks) Hrel) as Hconf.
  destruct (try_acquire_cases (inner s) ks e w2) as
    [(st & E & -> & _)|[(i & E & _)|(i & E & _ & _ & _ & _ & _ & _ & _ & _ & _ & Hfree)]];
    rewrite E in Hstep; simplify_eq/=; try by rewrite lookup_insert_eq.
  by rewrite (Hfree _ _ Hws Hlt) in Hconf.
Qed.

(** ** Progress *)

Section Progress.
Context (root : FileIdentity) (fs : bytes -> option ResolvedPathKey).

(** One step of task [w] alone, the filesystem answering as [fs]. *)
Definition solo (w : Z) (s s' : System) : Prop :=
  exec root (Run w) s = Some s' \/
  exists t e ks p todo, tasks s !! w = Some t /\ pc t = ResolveKeys e ks (p :: todo) /\
    exec root (Resolve w (fs p)) s = Some s'.

(** No lease is held and nobody queues before [w]. *)
Definition clear_for (w : Z) (i : CoordinatorInner) : Prop :=
  leases i = ∅ /\ (forall v, is_Some (waiters i !! v) -> (w <= v)%Z) /\ is_Some (waiters i !! w).

(** [w] has obtained the only lease, for its own lexical paths. *)
Definition granted (w : Z) (lex : list bytes) (s : System) : Prop :=
  tasks s !! w = None /\
  exists id ks, leases (inner s) = {[id := ks]} /\ map lexical ks = lex.

Lemma solo_run w t s s' : tasks s !! w = Some t -> run w t s = Some s' -> solo w s s'.
Proof. intros Ht Hr. left. cbn. by rewrite Ht. Qed.

Lemma clear_any_before w i (p : WaiterState -> bool) :
  clear_for w i -> any_before w p (waiters i) = false.
Proof.
  intros (_ & Hmin & _). apply any_before_false. intros v x Hv Hlt.
  assert (w <= v)%Z by (apply Hmin; eauto). lia.
Qed.

Lemma try_to_granted w t s e ks :
  clear_for w (inner s) -> tasks s !! w = Some t -> pc t = TryAcquire e ->
  resolved_paths t = Some (e, ks) -> map lexical ks = lexical_paths t ->
  lease_epoch (inner s) = e -> exists s', solo w s s' /\ granted w (lexical_paths t) s'.
Proof.
  intros (Hl & Hmin & Hw) Ht Hpc Hks Hlex He.
  destruct (try_acquire_cases (inner s) ks e w) as
    [(st & E & -> & Hbad)|[(i & E & _ & _ & _ & _ & _ & _ & _ & _ & Hblk)
      |(i & E & _ & _ & Hl' & _)]].
  - destruct Hbad as [?|Hn]; [done|]. rewrite Hn in Hw. by destruct Hw.
  - destruct Hblk as [(j & held & Hj & _)|(j & x & Hj & Hlt & _)].
    + by rewrite Hl in Hj.
    + assert (w <= j)%Z by (apply Hmin; eauto). lia.
  - exists {| inner := i; tasks := delete w (tasks s) |}. split.
    + eapply solo_run; [done|]. unfold run. by rewrite Hpc, Hks, E.
    + split; cbn; [apply lookup_delete_eq|]. exists (next_id (inner s)), ks.
      split; [|done]. by rewrite Hl', Hl.
Qed.

Lemma resolve_to_try w s t e ks todo :
  tasks s !! w = Some t -> pc t = ResolveKeys e ks todo ->
  exists s' t' ks', rtc (solo w) s s' /\ inner s' = inner s /\ tasks s' !! w = Some t' /\
    pc t' = TryAcquire e /\ resolved_paths t' = Some (e, ks') /\
    map lexical ks' = map lexical ks ++ todo /\ lexical_paths t' = lexical_paths t.
Proof.
  revert s t ks. induction todo as [|p todo IH]; intros s t ks Ht Hpc.
  - eexists _, _, ks. split.
    { apply rtc_once. eapply solo_run; [done|]. unfold run. by rewrite Hpc. }
    cbn. rewrite lookup_insert_eq. split_and!; try done. by rewrite app_nil_r.
  - set (key := {| lexical := p; resolved := default (conservative_path_key root) (fs p) |}).
    set (t1 := set_pc (ResolveKeys e (ks ++ [key]) todo) t).
    destruct (IH (put w t1 (inner s) s) t1 (ks ++ [key])) as (s' & t' & ks' & Hs & Hi & H);
      [by apply lookup_insert_eq|done|].
    exists s', t', ks'. split.
    + eapply rtc_l; [|done]. right. exists t, e, ks, p, todo. split_and!; try done.
      cbn. rewrite Ht. cbn. unfold resolve. by rewrite Hpc.
    + rewrite Hi. destruct H as (? & ? & ? & Hm & ?). split_and!; try done.
      by rewrite Hm, map_app, <- app_assoc.
Qed.

Lemma clear_insert w i ws :
  clear_for w i -> clear_for w (with_waiters (<[w := ws]> (waiters i)) i).
Proof.
  intros (Hl & Hmin & Hw). split_and!; cbn; [done| |by rewrite lookup_insert_eq].
  intros v Hv. destruct (decide (v = w)) as [->|]; [lia|].
  rewrite lookup_insert_ne in Hv by done. by apply Hmin.
Qed.

(** The task in state [t] of [s] gets its lease by its own steps. *)
Definition wins (w : Z) (s : System) (t : Task) : Prop :=
  exists s', rtc (solo w) s s' /\ granted w (lexical_paths t) s'.

Definition lex_ok (t : Task) : Prop :=
  forall e ks, resolved_paths t = Some (e, ks) -> map lexical ks = lexical_paths t.

Lemma wins_step w s s1 t t1 :
  solo w s s1 -> lexical_paths t1 = lexical_paths t -> wins w s1 t1 -> wins w s t.
Proof. intros H1 Hlex (s2 & H2 & Hg). exists s2. rewrite <- Hlex. split; [by eapply rtc_l|done]. Qed.

Lemma resolve_wins w s t e ks todo :
  (forall s' t' ks', inner s' = inner s -> tasks s' !! w = Some t' -> pc t' = TryAcquire e ->
     resolved_paths t' = Some (e, ks') -> map lexical ks' = lexical_paths t' -> wins w s' t') ->
  tasks s !! w = Some t -> pc t = ResolveKeys e ks todo ->
  map lexical ks ++ todo = lexical_paths t -> wins w s t.
Proof.
  intros Htry Ht Hpc Hlex.
  destruct (resolve_to_try w s t e ks todo) as (s' & t' & ks' & Hs & Hi & Ht' & Hpc' & Hr' & Hm & Hl);
    try done.
  destruct (Htry s' t' ks') as (s2 & H2 & Hg); try done; [by rewrite Hm, Hl|].
  exists s2. rewrite <- Hl. split; [by etrans|done].
Qed.

Lemma check_wins w s t e :
  (forall s' t' ks', clear_for w (inner s') -> lease_epoch (inner s') = lease_epoch (inner s) ->
     tasks s' !! w = Some t' -> pc t' = TryAcquire e ->
     resolved_paths t' = Some (e, ks') -> map lexical ks' = lexical_paths t' -> wins w s' t') ->
  clear_for w (inner s) -> tasks s !! w = Some t -> pc t = CheckEligible e -> wins w s t.
Proof.
  intros Htry Hcl Ht Hpc.
  set (t1 := set_pc (ResolveKeys e [] (lexical_paths t)) t).
  set (i1 := with_waiters (<[w := Resolving (lexical_paths t)]> (waiters (inner s))) (inner s)).
  apply (wins_step w s (put w t1 i1 s) t t1); [|done|].
  - eapply solo_run; [done|]. unfold run. rewrite Hpc. unfold mark_resolving_if_eligible.
    rewrite clear_any_before by done. destruct Hcl as (_ & _ & [ws Hws]). by rewrite Hws.
  - apply (resolve_wins w (put w t1 i1 s) t1 e [] (lexical_paths t)); [|by apply lookup_insert_eq|done..].
    intros s' t' ks' Hi. apply Htry; rewrite Hi; [by apply clear_insert|done].
Qed.

Lemma epoch_wins w s t :
  clear_for w (inner s) -> tasks s !! w = Some t -> pc t = LoadEpoch -> lex_ok t -> wins w s t.
Proof.
  intros Hcl Ht Hpc Hr. set (e := lease_epoch (inner s)).
  assert (forall s' t' ks', clear_for w (inner s') -> lease_epoch (inner s') = e ->
     tasks s' !! w = Some t' -> pc t' = TryAcquire e ->
     resolved_paths t' = Some (e, ks') -> map lexical ks' = lexical_paths t' -> wins w s' t') as Htry.
  { intros s' t' ks' Hc' He' Ht' Hp' Hr' Hm'.
    destruct (try_to_granted w t' s' e ks') as (s2 & H2 & Hg); try done.
    exists s2. split; [by apply rtc_once|done]. }
  set (st := match resolved_paths t with
             | None => true | Some (epoch, _) => negb (epoch =? e)%Z end).
  set (t1 := set_pc (if st then CheckEligible e else TryAcquire e) t).
  apply (wins_step w s (put w t1 (inner s) s) t t1); [|done|].
  { eapply solo_run; [done|]. unfold run. by rewrite Hpc. }
  assert (tasks (put w t1 (inner s) s) !! w = Some t1) as Ht1 by by apply lookup_insert_eq.
  destruct (resolved_paths t) as [[e' ks]|] eqn:Hrt; subst st.
  2: { by apply (check_wins w _ t1 e). }
  destruct (Z.eqb_spec e' e) as [->|Hne].
  - by apply (Htry _ t1 ks); try done; apply (Hr e).
  - by apply (check_wins w _ t1 e).
Qed.

Lemma head_wins w s t :
  clear_for w (inner s) -> tasks s !! w = Some t -> pc t = LoopHead -> lex_ok t -> wins w s t.
Proof.
  intros Hcl Ht Hpc Hr.
  set (t1 := {| lexical_paths := lexical_paths t; resolved_paths := resolved_paths t;
                seen := changes (inner s); pc := LoadEpoch |}).
  apply (wins_step w s (put w t1 (inner s) s) t t1); [|done|].
  - eapply solo_run; [done|]. unfold run. by rewrite Hpc.
  - apply epoch_wins; try done. by apply lookup_insert_eq.
Qed.

(** A stale epoch only costs one more round. *)
Lemma try_wins w s t e ks :
  clear_for w (inner s) -> tasks s !! w = Some t -> pc t = TryAcquire e ->
  resolved_paths t = Some (e, ks) -> map lexical ks = lexical_paths t -> wins w s t.
Proof.
  intros Hcl Ht Hpc Hr Hm. destruct (decide (lease_epoch (inner s) = e)) as [He|He].
  { destruct (try_to_granted w t s e ks) as (s2 & H2 & Hg); try done.
    exists s2. split; [by apply rtc_once|done]. }
  apply (wins_step w s (put w (set_pc LoopHead t) (inner s) s) t (set_pc LoopHead t)); [|done|].
  - eapply solo_run; [done|]. unfold run. rewrite Hpc, Hr. unfold try_acquire.
    by rewrite (proj2 (Z.eqb_neq _ _) He).
  - apply head_wins; try done; [by apply lookup_insert_eq|]. intros e' ks'. cbn. naive_solver.
Qed.
End Progress.

(** C14. No lost wake-up and no deadlock: whenever no lease is held, the earliest
    queued request obtains a lease for exactly its own paths by finitely many of
    its own steps, wherever its future stands (even asleep on the change
    channel) and whatever the filesystem answers. *)
Theorem earliest_waiter_acquires (root : FileIdentity) (fs : bytes -> option ResolvedPathKey)
    (n : nat) (s : System) (w : Z) (t : Task)
    (Hreach : reachable root n s) (Hsteps : (Z.of_nat n < U64_MAX)%Z)
    (Hfree : leases (inner s) = ∅) (Ht : tasks s !! w = Some t)
    (Hqueued : is_Some (waiters (inner s) !! w))
    (Hfirst : forall v, is_Some (waiters (inner s) !! v) -> (w <= v)%Z) :
  exists s', rtc (solo root fs w) s s' /\ tasks s' !! w = None /\
    exists id ks, leases (inner s') = {[id := ks]} /\ map lexical ks = lexical_paths t.
Proof.
  pose proof (reachable_inv root n s Hreach Hsteps) as Hinv.
  destruct (inv_tasks _ _ Hinv _ _ Ht) as (_ & Hseen & Hq & Hr & Hk).
  assert (clear_for w (inner s)) as Hcl by done.
  change (wins root fs w s t).
  destruct (pc t) as [| | |e|e ks todo|e|] eqn:Hpc.
  - destruct Hq as [Hn _]. rewrite Hn in Hqueued. by destruct Hqueued.
  - by apply head_wins.
  - by apply epoch_wins.
  - eapply check_wins; [|done..]. intros. by eapply try_wins.
  - eapply resolve_wins; [|done..]. intros s' t' ks' Hi. intros.
    eapply try_wins; try done. by rewrite Hi.
  - destruct Hk as [ks Hks]. eapply try_wins; try done. by eapply Hr.
  - assert (seen t <> changes (inner s)) as Hawake.
    { intros Heq. destruct (Hk Heq) as [[id Hid]|(w' & Hlt & Hw')].
      - rewrite Hfree in Hid. by destruct Hid.
      - apply Hfirst in Hw'. lia. }
    set (t1 := {| lexical_paths := lexical_paths t; resolved_paths := resolved_paths t;
                  seen := changes (inner s); pc := LoopHead |}).
    apply (wins_step root fs w s (put w t1 (inner s) s) t t1); [|done|].
    + eapply solo_run; [done|]. unfold run. rewrite Hpc.
      by rewrite (proj2 (Z.eqb_neq _ _) (not_eq_sym Hawake)).
    + apply head_wins; try done. by apply lookup_insert_eq.
Qed.

(** ** Concrete runs *)

Fixpoint exec_all (root : FileIdentity) (acts : list Action) (s : System) : option System :=
  match acts with
  | [] => Some s
  | a :: acts => s' ← exec root a s; exec_all root acts s'
  end.

Lemma exec_all_reachable root acts n s s' :
  reachable root n s -> exec_all root acts s = Some s' -> reachable root (length acts + n) s'.
Proof.
  revert n s. induction acts as [|a acts IH]; cbn; intros n s Hr H; [by simplify_eq|].
  apply bind_Some in H as (s1 & H1 & H). rewrite plus_n_Sm. eapply IH; [|done].
  by econstructor.
Qed.

Definition entry_key (name : bytes) : ResolvedPathKey :=
  {| resolved_parent := root_example; unresolved_tail := [name];
     ancestor_directories := [root_example]; target_directory := None |}.

(** A full uncontended acquisition of one path by waiter [w]. *)
Definition acquire_acts (w : Z) (path name : bytes) : list Action :=
  [Start [path]; Run w; Run w; Run w; Run w; Resolve w (Some (entry_key name)); Run w; Run w].

Definition two_leases : System :=
  default init (exec_all root_example
    (acquire_acts 1 (str "/r/a") (str "a") ++ acquire_acts 2 (str "/r//b/") (str "b")) init).

Lemma leases_mutually_exclusive_witness :
  paths_conflict [{| lexical := str "/r/a"; resolved := entry_key (str "a") |}]
    [{| lexical := str "/r/b"; resolved := entry_key (str "b") |}] = false.
Proof.
  apply (leases_mutually_exclusive root_example 16 two_leases 1 2).
  - apply (exec_all_reachable root_example
      (acquire_acts 1 (str "/r/a") (str "a") ++ acquire_acts 2 (str "/r//b/") (str "b")) 0 init);
      [constructor | vm_compute; reflexivity].
  - vm_compute; reflexivity.
  - vm_compute; reflexivity.
  - vm_compute; reflexivity.
  - discriminate.
Defined.

(** Waiter 1 for [/r/a] is queued and asleep-free; waiter 2 for [/r/a/b] has
    registered behind it. *)
Definition queue_acts : list Action := [Start [str "/r/a"]; Run 1; Start [str "/r/a/b"]; Run 2].
Definition queued_pair : System := default init (exec_all root_example queue_acts init).

Lemma earlier_waiter_blocks_later_witness :
  is_Some (tasks (default init (exec root_example (Run 2) queued_pair)) !! 2%Z).
Proof.
  apply (earlier_waiter_blocks_later root_example 4 queued_pair
    (default init (exec root_example (Run 2) queued_pair)) (Run 2) 1 2
    {| lexical_paths := [str "/r/a"]; resolved_paths := None; seen := 0; pc := LoopHead |}
    {| lexical_paths := [str "/r/a/b"]; resolved_paths := None; seen := 0; pc := LoopHead |}).
  - apply (exec_all_reachable root_example queue_acts 0 init);
      [constructor | vm_compute; reflexivity].
  - vm_compute; reflexivity.
  - vm_compute; reflexivity.
  - vm_compute; reflexivity.
  - vm_compute; reflexivity.
  - eexists; vm_compute; reflexivity.
  - exists (str "/r/a"), (str "/r/a/b"). split_and!; [left | left | vm_compute; reflexivity].
  - vm_compute; reflexivity.
  - discriminate.
Defined.

(** Waiter 2 lost the race against waiter 1 for the same entry, went to sleep,
    and waiter 1's lease was then dropped. *)
Definition sleeper_acts : list Action :=
  acquire_acts 1 (str "/r/a") (str "a") ++
  [Start [str "/r/a"]; Run 2; Run 2; Run 2; Run 2; Resolve 2 (Some (entry_key (str "a")));
   Run 2; Run 2; DropLease 1].
Definition sleeper : System := default init (exec_all root_example sleeper_acts init).

Lemma earliest_waiter_acquires_witness :
  exists s', rtc (solo root_example (fun _ => None) 2) sleeper s' /\ tasks s' !! 2%Z = None /\
    exists id ks, leases (inner s') = {[id := ks]} /\ map lexical ks = [str "/r/a"].
Proof.
  apply (earliest_waiter_acquires root_example (fun _ => None) 17 sleeper 2
    {| lexical_paths := [str "/r/a"];
       resolved_paths := Some (0%Z, [{| lexical := str "/r/a"; resolved := entry_key (str "a") |}]);
       seen := 1; pc := Waiting |}).
  - apply (exec_all_reachable root_example sleeper_acts 0 init);
      [constructor | vm_compute; reflexivity].
  - vm_compute; reflexivity.
  - vm_compute; reflexivity.
  - vm_compute; reflexivity.
  - eexists; vm_compute; reflexivity.
  - intros v Hv. destruct (decide (v = 2%Z)) as [->|Hne]; [lia|].
    replace (waiters (inner sleeper)) with
      ({[2%Z := Resolved [{| lexical := str "/r/a"; resolved := entry_key (str "a") |}]]}
       : gmap Z WaiterState) in Hv by (vm_compute; reflexivity).
    rewrite lookup_singleton_ne in Hv by done. by destruct Hv.
Defined.

End PathCoordinator.
