(* ===== verification/Sql.v ===== *)
(** * Tables

    The SQL fragment the state store uses, on a table keyed by its primary key:
    [INSERT], [UPDATE .. WHERE], [DELETE .. WHERE], [COUNT( * )] and
    [SELECT .. WHERE .. ORDER BY .. LIMIT].  A statement that would violate a
    [CHECK] or [UNIQUE] constraint of [schema/*.sql] fails and changes nothing;
    a failing statement makes the enclosing transaction roll back. *)

From S2P Require Import Prelude.

Definition CHECK_FAILED : string := "CHECK constraint failed".
Definition UNIQUE_FAILED : string := "UNIQUE constraint failed".

Section Table.
Context {K R : Type} `{Countable K}.
Context (check : K -> R -> bool).
Implicit Types (t : gmap K R) (p : K -> R -> bool) (f : R -> R).

Definition hits p t : gmap K R := filter (fun kr => p kr.1 kr.2 = true) t.
Definition count_where p t : Z := Z.of_nat (size (hits p t)).

Definition insert_row (k : K) (r : R) t : result string (gmap K R) :=
  match t !! k with
  | Some _ => Err UNIQUE_FAILED
  | None => if check k r then Ok (<[k := r]> t) else Err CHECK_FAILED
  end.

(** [INSERT .. ON CONFLICT(key) DO UPDATE SET ..]: [f] builds the new row from
    the old one. *)
Definition upsert_row (k : K) (r : R) (f : R -> R) t : result string (gmap K R) :=
  let r' := match t !! k with Some old => f old | None => r end in
  if check k r' then Ok (<[k := r']> t) else Err CHECK_FAILED.

Definition apply_where p f t : gmap K R :=
  map_imap (fun k r => Some (if p k r then f r else r)) t.
Definition update_where p f t : result string (gmap K R * Z) :=
  if bool_decide (map_Forall (fun k r => p k r = true -> check k (f r) = true) t)
  then Ok (apply_where p f t, count_where p t)
  else Err CHECK_FAILED.

Definition delete_where p t : gmap K R * Z :=
  (filter (fun kr => p kr.1 kr.2 = false) t, count_where p t).

Definition select_where p (cmp : K * R -> K * R -> comparison) (limit : Z) t : list (K * R) :=
  take (Z.to_nat limit) (merge_sort (cmp_le cmp) (map_to_list (hits p t))).

(** ** Facts *)

Lemma lookup_hits p t k r : hits p t !! k = Some r <-> t !! k = Some r /\ p k r = true.
Proof. unfold hits. apply map_lookup_filter_Some. Qed.

Lemma lookup_apply_where p f t k :
  apply_where p f t !! k = (fun r => if p k r then f r else r) <$> t !! k.
Proof. unfold apply_where. rewrite map_lookup_imap. by destruct (t !! k). Qed.

Lemma lookup_delete_where p t k r :
  (delete_where p t).1 !! k = Some r <-> t !! k = Some r /\ p k r = false.
Proof. cbn. apply map_lookup_filter_Some. Qed.

Lemma lookup_delete_where_None p t k :
  (delete_where p t).1 !! k = None <-> t !! k = None \/ exists r, t !! k = Some r /\ p k r = true.
Proof.
  cbn. rewrite map_lookup_filter_None. cbn. split.
  - intros [?|Hx]; [by left|]. destruct (t !! k) as [r|] eqn:E; [|by left].
    right. exists r. split; [done|]. apply not_false_iff_true. by apply Hx.
  - intros [?|(r & Hr & Hp)]; [by left|]. right. intros x Hx. simplify_eq. by rewrite Hp.
Qed.

Lemma update_where_Ok p f t t' n :
  update_where p f t = Ok (t', n) <->
  map_Forall (fun k r => p k r = true -> check k (f r) = true) t /\
  t' = apply_where p f t /\ n = count_where p t.
Proof. unfold update_where. case_bool_decide; naive_solver. Qed.

Lemma insert_row_Ok k r t t' :
  insert_row k r t = Ok t' <-> t !! k = None /\ check k r = true /\ t' = <[k := r]> t.
Proof. unfold insert_row. destruct (t !! k), (check k r); naive_solver. Qed.

(** A [WHERE] clause that fixes the primary key touches at most one row. *)
Lemma hits_key p t key :
  (forall k r, p k r = true -> k = key) ->
  hits p t = match t !! key with
             | Some r => if p key r then {[key := r]} else ∅
             | None => ∅
             end.
Proof.
  intros Hp. apply map_eq. intros k. apply option_eq. intros r. rewrite lookup_hits.
  destruct (decide (k = key)) as [->|Hne].
  - destruct (t !! key) as [x|]; [|by rewrite lookup_empty; split; [intros []|]].
    destruct (p key x) eqn:E; rewrite ?lookup_singleton_eq, ?lookup_empty;
      split; [intros []|intros| intros []|intros]; simplify_eq; try done; congruence.
  - split; [intros [_ Hx]; by apply Hp in Hx|].
    destruct (t !! key) as [x|]; [destruct (p key x)|];
      rewrite ?lookup_singleton_ne, ?lookup_empty by done; done.
Qed.

Lemma count_key p t key :
  (forall k r, p k r = true -> k = key) ->
  count_where p t = match t !! key with
                    | Some r => if p key r then 1%Z else 0%Z
                    | None => 0%Z
                    end.
Proof.
  intros Hp. unfold count_where. rewrite (hits_key p t key Hp).
  destruct (t !! key) as [r|]; [destruct (p key r)|]; by rewrite ?map_size_singleton, ?map_size_empty.
Qed.

Lemma apply_key p f t key :
  (forall k r, p k r = true -> k = key) ->
  apply_where p f t = match t !! key with
                      | Some r => if p key r then <[key := f r]> t else t
                      | None => t
                      end.
Proof.
  intros Hp. apply map_eq. intros k. rewrite lookup_apply_where.
  assert (k <> key -> forall r, p k r = false) as Hne.
  { intros Hk r. apply not_true_iff_false. intros Hx. by apply Hp in Hx. }
  destruct (decide (k = key)) as [->|Hk].
  - destruct (t !! key) as [r|] eqn:E; [|by rewrite E]. cbn.
    destruct (p key r); by rewrite ?lookup_insert_eq, ?E.
  - transitivity (t !! k); [destruct (t !! k); cbn; by rewrite ?Hne|].
    destruct (t !! key) as [r|]; [destruct (p key r)|]; by rewrite ?lookup_insert_ne.
Qed.

Lemma delete_key p t key :
  (forall k r, p k r = true -> k = key) ->
  (delete_where p t).1 = match t !! key with
                         | Some r => if p key r then delete key t else t
                         | None => t
                         end.
Proof.
  clear check. intros Hp. apply map_eq. intros k. apply option_eq. intros r. rewrite lookup_delete_where.
  assert (k <> key -> forall r, p k r = false) as Hne.
  { intros Hk x. apply not_true_iff_false. intros Hx. by apply Hp in Hx. }
  destruct (decide (k = key)) as [->|Hk].
  - destruct (t !! key) as [x|] eqn:E; [|by rewrite E; split; [intros []|]].
    destruct (p key x) eqn:Ep; rewrite ?lookup_delete_eq, ?E;
      split; [intros []|intros| intros []|intros]; simplify_eq; try done; congruence.
  - rewrite (Hne Hk r). destruct (t !! key) as [x|]; [destruct (p key x)|];
      rewrite ?lookup_delete_ne by done; tauto.
Qed.

Lemma count_where_mono p t t' :
  (forall k r, t' !! k = Some r -> p k r = true -> exists r', t !! k = Some r' /\ p k r' = true) ->
  (count_where p t' <= count_where p t)%Z.
Proof.
  intros Hsub. unfold count_where. apply Nat2Z.inj_le. rewrite <- !size_dom.
  apply subseteq_size. intros k. rewrite !elem_of_dom. intros [r Hr].
  apply lookup_hits in Hr as [Hr Hp]. destruct (Hsub k r Hr Hp) as (r' & Hr' & Hp').
  exists r'. by apply lookup_hits.
Qed.

Lemma count_where_insert_None p t k r :
  t !! k = None ->
  count_where p (<[k := r]> t) = (count_where p t + if p k r then 1 else 0)%Z.
Proof.
  intros Hk. unfold count_where, hits. destruct (p k r) eqn:E.
  - rewrite map_filter_insert_True by done. rewrite map_size_insert_None; [lia|].
    apply map_lookup_filter_None. by left.
  - rewrite map_filter_insert_False by (cbn; congruence). rewrite delete_id by done. lia.
Qed.
End Table.

Lemma elem_of_select {K R} `{Countable K} p cmp limit (t : gmap K R) k r :
  (k, r) ∈ select_where p cmp limit t -> t !! k = Some r /\ p k r = true.
Proof.
  unfold select_where. intros Hin%elem_of_take. destruct Hin as (i & Hin & _).
  apply list_elem_of_lookup_2 in Hin.
  rewrite (merge_sort_Permutation (cmp_le cmp)) in Hin.
  by apply lookup_hits, elem_of_map_to_list.
Qed.

(** [ORDER BY .. LIMIT 1] returns a least matching row, if there is any. *)
Lemma select_one {K R} `{Countable K} p cmp `{!Total (cmp_le cmp)} `{!Transitive (cmp_le cmp)}
    (t : gmap K R) :
  match select_where p cmp 1 t with
  | [] => forall k r, t !! k = Some r -> p k r = false
  | (k, r) :: l => l = [] /\ t !! k = Some r /\ p k r = true /\
      forall k' r', t !! k' = Some r' -> p k' r' = true -> cmp_le cmp (k, r) (k', r')
  end.
Proof.
  unfold select_where. change (Z.to_nat 1) with 1%nat.
  pose proof (merge_sort_Permutation (cmp_le cmp) (map_to_list (hits p t))) as Hperm.
  assert (StronglySorted (cmp_le cmp) (merge_sort (cmp_le cmp) (map_to_list (hits p t)))) as Hs
    by apply (StronglySorted_merge_sort (cmp_le cmp)).
  assert (forall k r, (k, r) ∈ merge_sort (cmp_le cmp) (map_to_list (hits p t)) <->
    t !! k = Some r /\ p k r = true) as Hin.
  { intros k r. rewrite Hperm, elem_of_map_to_list. apply lookup_hits. }
  destruct (merge_sort _ _) as [|[k r] l]; cbn.
  - intros k r Hr. apply not_true_iff_false. intros Hp. by apply (not_elem_of_nil (k, r)), Hin.
  - split; [done|]. destruct (proj1 (Hin k r)) as [Hr Hp]; [left|]. split; [done|]. split; [done|].
    intros k' r' Hr' Hp'. assert ((k', r') ∈ (k, r) :: l) as Hx by (by apply Hin).
    apply elem_of_cons in Hx as [[= -> ->]|Hx].
    + destruct (total (cmp_le cmp) (k, r) (k, r)); done.
    + apply StronglySorted_inv in Hs as [_ Hall]. rewrite Forall_forall in Hall. by apply Hall.
Qed.

(** ** Constraint expressions

    SQL's three-valued logic: [None] is NULL, and a [CHECK] rejects a row only
    when its expression is false. *)

Abbreviation tri := (option bool).
Definition and3 (a b : tri) : tri :=
  match a, b with
  | Some false, _ | _, Some false => Some false
  | Some true, Some true => Some true
  | _, _ => None
  end.
Definition not3 (a : tri) : tri := negb <$> a.
Definition or3 (a b : tri) : tri := not3 (and3 (not3 a) (not3 b)).
Definition is_null {A} (x : option A) : tri := Some (bool_decide (x = None)).
Definition not_null {A} (x : option A) : tri := not3 (is_null x).
Definition between3 (x : option Z) (lo hi : Z) : tri :=
  (fun z => (lo <=? z) && (z <=? hi))%Z <$> x.
Definition in3 (x : option Z) (l : list Z) : tri := (fun z => bool_decide (z ∈ l)) <$> x.
Definition passes (t : tri) : bool := negb (bool_decide (t = Some false)).

(** [length] of a BLOB counts bytes; of a TEXT, characters before the first NUL. *)
Definition blob_length (b : bytes) : Z := Z.of_nat (length b).
Fixpoint before_nul (s : bytes) : bytes :=
  match s with
  | [] => []
  | x :: s => if decide (x = x00) then [] else x :: before_nul s
  end.
Definition text_length (s : bytes) : Z := chars_count (before_nul s).

Lemma text_length_no_nul s : x00 ∉ s -> text_length s = chars_count s.
Proof.
  unfold text_length. intros H. f_equal. induction s as [|x s IH]; cbn; [done|].
  apply not_elem_of_cons in H as [Hx Hs]. rewrite decide_False by done. by rewrite IH.
Qed.

(** ** Keyset pagination

    [WHERE key > ?after ORDER BY key LIMIT n], called with the last key of the
    previous page until a page comes back empty, returns every row once, in key
    order. *)

Section Paging.
Context {K R : Type} `{Countable K} (kcmp : K -> K -> comparison) `{!TotalCmp kcmp}.
Implicit Types (t : gmap K R) (p : K -> R -> bool).

Definition by_keys (a b : K * R) : comparison := kcmp a.1 b.1.
Definition key_gt (after : option K) (k : K) : bool :=
  match after with
  | None => true
  | Some a => match kcmp k a with Gt => true | _ => false end
  end.
Definition sorted_hits p t : list (K * R) := merge_sort (cmp_le by_keys) (map_to_list (hits p t)).

Definition page p t (limit : Z) (after : option K) : list (K * R) :=
  select_where (fun k r => p k r && key_gt after k) by_keys limit t.

#[local] Instance by_keys_total : Total (cmp_le by_keys).
Proof. intros a b. apply (cmp_le_total kcmp a.1 b.1). Qed.
#[local] Instance by_keys_trans : Transitive (cmp_le by_keys).
Proof. intros a b c. apply (cmp_le_trans kcmp a.1 b.1 c.1). Qed.

Lemma elem_of_sorted_hits p t k r :
  (k, r) ∈ sorted_hits p t <-> t !! k = Some r /\ p k r = true.
Proof.
  unfold sorted_hits. rewrite (merge_sort_Permutation (cmp_le by_keys)).
  rewrite elem_of_map_to_list. apply lookup_hits.
Qed.

Lemma length_sorted_hits p t : Z.of_nat (length (sorted_hits p t)) = count_where p t.
Proof.
  unfold sorted_hits, count_where. rewrite (Permutation_length (merge_sort_Permutation _ _)).
  by rewrite length_map_to_list.
Qed.

Lemma NoDup_sorted_hits p t : NoDup (sorted_hits p t).*1.
Proof.
  unfold sorted_hits. rewrite (merge_sort_Permutation (cmp_le by_keys)).
  apply NoDup_fst_map_to_list.
Qed.

(** Sorted by key with distinct keys: strictly sorted. *)
Lemma sorted_hits_strict p t :
  StronglySorted (fun a b => cmp_lt kcmp a.1 b.1) (sorted_hits p t).
Proof.
  pose proof (NoDup_sorted_hits p t) as Hnd.
  assert (StronglySorted (cmp_le by_keys) (sorted_hits p t)) as Hs
    by apply (StronglySorted_merge_sort (cmp_le by_keys)).
  induction Hs as [|a l Hs IH Hall]; [constructor|].
  cbn in Hnd. apply NoDup_cons in Hnd as [Hni Hnd]. constructor; [auto|].
  rewrite Forall_forall in Hall |- *. intros b Hb. specialize (Hall b Hb).
  apply (cmp_le_lt_or_eq kcmp a.1 b.1) in Hall as [?|E]; [done|].
  contradict Hni. rewrite E. by apply list_elem_of_fmap_2.
Qed.

Lemma sorted_unique (l1 l2 : list (K * R)) :
  NoDup l1.*1 -> l1 ≡ₚ l2 -> StronglySorted (cmp_le by_keys) l1 ->
  StronglySorted (cmp_le by_keys) l2 -> l1 = l2.
Proof.
  intros Hnd Hp H1 H2. apply (StronglySorted_unique_strong (cmp_le by_keys)); try done.
  intros [k1 r1] [k2 r2] Ha Hb Hle Hge. rewrite <- Hp in Hb.
  apply (cmp_le_lt_or_eq kcmp k1 k2) in Hle as [Hlt|E]; cbn in *.
  - unfold cmp_le, by_keys in Hge. cbn in Hge. by apply (cmp_gt_lt kcmp) in Hlt.
  - subst. f_equal. clear -Hnd Ha Hb. induction l1 as [|[k r] l IH]; [set_solver|].
    apply NoDup_cons in Hnd as [Hni Hnd]. cbn in Hni.
    apply elem_of_cons in Ha as [Ha|Ha], Hb as [Hb|Hb].
    + congruence.
    + injection Ha as -> ->. by apply (list_elem_of_fmap_2 fst) in Hb.
    + injection Hb as -> ->. by apply (list_elem_of_fmap_2 fst) in Ha.
    + by apply IH.
Qed.

Lemma filter_strict_drop (l : list (K * R)) i k r :
  StronglySorted (fun a b => cmp_lt kcmp a.1 b.1) l -> l !! i = Some (k, r) ->
  filter (fun kr => key_gt (Some k) kr.1 = true) l = drop (S i) l.
Proof.
  intros Hs. revert i. induction Hs as [|[k0 r0] l Hs IH Hall]; intros i Hi; [done|].
  rewrite Forall_forall in Hall. destruct i as [|i]; cbn in Hi.
  - injection Hi as -> ->. rewrite filter_cons_False; cbn.
    + apply list_filter_all. intros [k1 r1] Hin. specialize (Hall _ Hin). cbn in Hall |- *.
      by rewrite (proj2 (cmp_gt_lt kcmp k1 k) Hall).
    + by rewrite (cmp_refl kcmp).
  - rewrite filter_cons_False; [by rewrite (IH i Hi)|].
    cbn. apply list_elem_of_lookup_2 in Hi. specialize (Hall _ Hi). cbn in Hall. unfold cmp_lt in Hall.
    by rewrite Hall.
Qed.

Lemma sorted_hits_filter p t (q : K -> bool) :
  sorted_hits (fun k r => p k r && q k) t = filter (fun kr => q kr.1 = true) (sorted_hits p t).
Proof.
  apply sorted_unique; [apply NoDup_sorted_hits| | |].
  - apply NoDup_Permutation.
    + eapply NoDup_fmap_1, NoDup_sorted_hits.
    + apply NoDup_filter. eapply NoDup_fmap_1, NoDup_sorted_hits.
    + intros [k r]. rewrite list_elem_of_filter, !elem_of_sorted_hits, andb_true_iff. tauto.
  - apply (StronglySorted_merge_sort (cmp_le by_keys)).
  - assert (StronglySorted (cmp_le by_keys) (sorted_hits p t)) as Hs
      by apply (StronglySorted_merge_sort (cmp_le by_keys)).
    induction Hs as [|a l Hs IH Hall]; [constructor|].
    rewrite filter_cons. case_decide; [|done]. constructor; [done|].
    rewrite Forall_forall in Hall |- *. intros b [_ Hb]%list_elem_of_filter. auto.
Qed.

Lemma page_first p t n : page p t n None = take (Z.to_nat n) (sorted_hits p t).
Proof.
  unfold page, select_where. f_equal. change (sorted_hits (fun k r => p k r && key_gt None k) t = sorted_hits p t).
  rewrite sorted_hits_filter. apply list_filter_all. done.
Qed.

Lemma page_next_drop p t n i k r :
  sorted_hits p t !! i = Some (k, r) ->
  page p t n (Some k) = take (Z.to_nat n) (drop (S i) (sorted_hits p t)).
Proof.
  intros Hi. unfold page, select_where. f_equal.
  change (sorted_hits (fun k' r' => p k' r' && key_gt (Some k) k') t = drop (S i) (sorted_hits p t)).
  rewrite sorted_hits_filter. eapply filter_strict_drop; [apply sorted_hits_strict|done].
Qed.
End Paging.
