(* ===== verification/StateModel.v ===== *)
(** * The durable records

    [src/server/state_store/model.rs] and the parts of
    [src/server/state_store.rs] that are not the actor: the records the state
    store persists, their states as database integers, their validation, the
    capacity limits, and the store's monotonic clock. *)

From S2P Require Import Prelude Paths Sql.

(** ** Constants *)

Definition OPERATION_RESERVED : Z := 0.
Definition OPERATION_COMMIT_STARTED : Z := 1.
Definition OPERATION_COMPLETED : Z := 2.

Definition UPLOAD_RUNNING : Z := 0.
Definition UPLOAD_COMMIT_STARTED : Z := 1.
Definition UPLOAD_COMMITTED : Z := 2.
Definition UPLOAD_REJECTED : Z := 3.
Definition UPLOAD_UNKNOWN : Z := 4.
Definition UPLOAD_AWAITING_CONFIRMATION : Z := 5.

Definition PURGE_PREPARED : Z := 0.
Definition PURGE_READY : Z := 1.
Definition PURGE_CLAIMED : Z := 2.

Definition UNKNOWN_STATUS : Z := 500.
Definition UNKNOWN_CODE : bytes := str "outcome_uncertain".
Definition MAX_ERROR_CODE_CHARS : Z := 128.

(** ** Keys

    [OperationKey], [UploadSessionKey] and [PurgeJobKey] have the same two
    fields. *)
Record Key : Type := { owner : bytes; id : bytes }.
Abbreviation OperationKey := Key.
Abbreviation UploadSessionKey := Key.
Abbreviation PurgeJobKey := Key.

#[global] Instance Key_eq_dec : EqDecision Key.
Proof. solve_decision. Defined.
#[global] Instance Key_countable : Countable Key :=
  inj_countable' (fun k => (owner k, id k)) (fun p => {| owner := p.1; id := p.2 |})
    (fun k => match k with {| owner := _; id := _ |} => eq_refl end).

Definition key_cmp (a b : Key) : comparison :=
  then_cmp (bytes_cmp (owner a) (owner b)) (bytes_cmp (id a) (id b)).

#[global] Instance key_total_cmp : TotalCmp key_cmp.
Proof.
  pose proof (pair_total_cmp bytes_cmp bytes_cmp) as [He Ho Ht].
  unfold pair_cmp in *. split.
  - intros [a b] [c d]. rewrite (He (a, b) (c, d)). cbn. split; congruence.
  - intros [a b] [c d]. apply (Ho (a, b) (c, d)).
  - intros [a b] [c d] [e f]. apply (Ht (a, b) (c, d) (e, f)).
Qed.

Definition key_wf (k : Key) : bool :=
  (Z.of_nat (length (owner k)) =? 32)%Z && (Z.of_nat (length (id k)) =? 16)%Z.

(** ** Operation outcomes *)

Inductive StoredTerminalState : Type := TSucceeded | TFailed | TUnknown.
#[global] Instance StoredTerminalState_eq_dec : EqDecision StoredTerminalState.
Proof. solve_decision. Defined.

Definition terminal_to_database (s : StoredTerminalState) : Z :=
  match s with TSucceeded => 0 | TFailed => 1 | TUnknown => 2 end.
Definition terminal_from_database (value : Z) : result string StoredTerminalState :=
  if (value =? 0)%Z then Ok TSucceeded
  else if (value =? 1)%Z then Ok TFailed
  else if (value =? 2)%Z then Ok TUnknown
  else Err "Invalid terminal operation state in the state database".

Record StoredOutcome : Type := {
  status : Z;
  terminal : StoredTerminalState;
  code : option bytes }.
#[global] Instance StoredOutcome_eq_dec : EqDecision StoredOutcome.
Proof. solve_decision. Defined.

Definition in_range (lo hi z : Z) : bool := ((lo <=? z) && (z <=? hi))%Z.

Definition outcome_validate (o : StoredOutcome) : result string unit :=
  _ ← ensure (in_range 100 599 (status o)) "Stored operation status must be a valid HTTP status";
  _ ← match terminal o with
      | TSucceeded =>
          _ ← ensure (in_range 200 299 (status o))
                "A succeeded operation must have a successful HTTP status";
          ensure (bool_decide (code o = None)) "A succeeded operation cannot have an error code"
      | TFailed | TUnknown =>
          _ ← ensure (negb (in_range 200 299 (status o)))
                "A failed or unknown operation cannot have a successful HTTP status";
          ensure (negb (bool_decide (code o = None)))
            "A failed or unknown operation must have an error code"
      end;
  match code o with
  | Some c => ensure (in_range 1 MAX_ERROR_CODE_CHARS (chars_count c))
                "Stored operation error code is empty or too long"
  | None => Ok tt
  end.

Inductive StoreBegin : Type :=
| Started (lease : bytes) | BeginRunning | Replay (outcome : StoredOutcome)
| BeginConflict | BeginFull.

Inductive StoreStatus : Type :=
| StatusRunning | StatusCompleted (outcome : StoredOutcome) | StatusNotFound.

(** ** Upload sessions *)

Record StoredFileIdentity : Type := { id_device : Z; id_inode : Z }.
#[global] Instance StoredFileIdentity_eq_dec : EqDecision StoredFileIdentity.
Proof. solve_decision. Defined.

Inductive StoredUploadState : Type :=
| Running | CommitStarted | Committed | Rejected | Unknown | AwaitingConfirmation.
#[global] Instance StoredUploadState_eq_dec : EqDecision StoredUploadState.
Proof. solve_decision. Defined.

Definition upload_state_to_database (s : StoredUploadState) : Z :=
  match s with
  | Running => UPLOAD_RUNNING
  | CommitStarted => UPLOAD_COMMIT_STARTED
  | Committed => UPLOAD_COMMITTED
  | Rejected => UPLOAD_REJECTED
  | Unknown => UPLOAD_UNKNOWN
  | AwaitingConfirmation => UPLOAD_AWAITING_CONFIRMATION
  end.
Definition upload_state_from_database (value : Z) : result string StoredUploadState :=
  if (value =? UPLOAD_RUNNING)%Z then Ok Running
  else if (value =? UPLOAD_COMMIT_STARTED)%Z then Ok CommitStarted
  else if (value =? UPLOAD_COMMITTED)%Z then Ok Committed
  else if (value =? UPLOAD_REJECTED)%Z then Ok Rejected
  else if (value =? UPLOAD_UNKNOWN)%Z then Ok Unknown
  else if (value =? UPLOAD_AWAITING_CONFIRMATION)%Z then Ok AwaitingConfirmation
  else Err "Invalid upload session state in the state database".

Definition is_terminal (s : StoredUploadState) : bool :=
  match s with Committed | Rejected | Unknown => true | _ => false end.

Record StoredUploadSession : Type := {
  up_key : UploadSessionKey;
  target_path : bytes;
  stage_path : bytes;
  upload_length : Z;
  durable_offset : Z;
  up_state : StoredUploadState;
  stage_identity : option StoredFileIdentity;
  target_revision : option bytes }.

(** The derived [PartialEq]: paths are compared by component. *)
Definition session_eqb (a b : StoredUploadSession) : bool :=
  bool_decide (up_key a = up_key b)
  && path_eqb (target_path a) (target_path b)
  && path_eqb (stage_path a) (stage_path b)
  && (upload_length a =? upload_length b)%Z
  && (durable_offset a =? durable_offset b)%Z
  && bool_decide (up_state a = up_state b)
  && bool_decide (stage_identity a = stage_identity b)
  && bool_decide (target_revision a = target_revision b).

Record ExpiredUploadSession : Type := { session : StoredUploadSession; expires_at : Z }.

Definition expired_eqb (a b : ExpiredUploadSession) : bool :=
  session_eqb (session a) (session b) && (expires_at a =? expires_at b)%Z.

Inductive RejectUploadSession : Type :=
| RejectNotFound
| RejectBindingConflict
| RejectStateConflict (s : StoredUploadSession)
| RejectRejected (s : StoredUploadSession).

Inductive StoreUploadSession : Type :=
| UploadInserted | UploadUpdated | UploadUnchanged | UploadConflict | UploadFull.
#[global] Instance StoreUploadSession_eq_dec : EqDecision StoreUploadSession.
Proof. solve_decision. Defined.

Definition validate_stored_path (path : bytes) (description : string) : result string unit :=
  _ ← ensure (negb (bool_decide (path = []))) (description +:+ " path cannot be empty");
  _ ← ensure (Z.of_nat (length path) <=? 65536)%Z
        (description +:+ " path is too long for the state database");
  ensure (negb (bool_decide (x00 ∈ path))) (description +:+ " path contains a NUL byte").

Definition session_validate (s : StoredUploadSession) : result string unit :=
  _ ← validate_stored_path (target_path s) "Upload target";
  _ ← validate_stored_path (stage_path s) "Upload stage";
  _ ← ensure (negb (path_eqb (target_path s) (stage_path s)))
        "Upload target and stage paths must differ";
  _ ← ensure (durable_offset s <=? upload_length s)%Z
        "Upload durable offset exceeds its declared length";
  _ ← ensure (upload_length s <=? I64_MAX)%Z "Upload length cannot be represented by SQLite";
  _ ← ensure (durable_offset s <=? I64_MAX)%Z "Upload offset cannot be represented by SQLite";
  match up_state s with
  | CommitStarted | Committed | AwaitingConfirmation =>
      ensure (durable_offset s =? upload_length s)%Z
        "A committing or committed upload must be fully durable"
  | _ => Ok tt
  end.

(** ** Purge jobs *)

Inductive StoredPurgeState : Type := Prepared | Ready | Claimed.
#[global] Instance StoredPurgeState_eq_dec : EqDecision StoredPurgeState.
Proof. solve_decision. Defined.

Definition purge_state_to_database (s : StoredPurgeState) : Z :=
  match s with Prepared => PURGE_PREPARED | Ready => PURGE_READY | Claimed => PURGE_CLAIMED end.
Definition purge_state_from_database (value : Z) : result string StoredPurgeState :=
  if (value =? PURGE_PREPARED)%Z then Ok Prepared
  else if (value =? PURGE_READY)%Z then Ok Ready
  else if (value =? PURGE_CLAIMED)%Z then Ok Claimed
  else Err "Invalid purge job state in the state database".

Record StoredPurgeJob : Type := {
  pj_key : PurgeJobKey;
  pj_target_path : bytes;
  pj_trash_path : bytes;
  source_identity : StoredFileIdentity;
  trash_revision : option bytes;
  is_directory : bool;
  pj_state : StoredPurgeState;
  attempts : Z }.

Definition purge_validate_new (j : StoredPurgeJob) : result string unit :=
  _ ← validate_stored_path (pj_target_path j) "Purge target";
  _ ← validate_stored_path (pj_trash_path j) "Purge trash";
  _ ← ensure (negb (path_eqb (pj_target_path j) (pj_trash_path j)))
        "Purge target and trash paths must differ";
  _ ← ensure (bool_decide (pj_state j = Prepared)) "A new purge job must start in the prepared state";
  _ ← ensure (bool_decide (trash_revision j = None)) "A new purge job cannot have a trash revision";
  ensure (attempts j =? 0)%Z "A new purge job cannot have attempts".

Inductive StorePurgeJob : Type := PurgeInserted | PurgeExisting | PurgeConflict | PurgeFull.

(** ** Blocking paths *)

Record StatePathCursor : Type := { c_kind : Z; c_owner : bytes; c_id : bytes; c_slot : Z }.
#[global] Instance StatePathCursor_eq_dec : EqDecision StatePathCursor.
Proof. solve_decision. Defined.
Record StateBlockingPath : Type := { bp_path : bytes; allows_exact_replacement : bool }.
Record StatePathPage : Type := {
  page_paths : list StateBlockingPath; page_next : option StatePathCursor }.

(** ** Limits and times *)

Record RepositoryLimits : Type := {
  r_upload_capacity : Z; r_upload_per_owner : Z; r_purge_capacity : Z; r_purge_per_owner : Z }.

Definition REPOSITORY_LIMITS : RepositoryLimits :=
  {| r_upload_capacity := 16384; r_upload_per_owner := 4096;
     r_purge_capacity := 4096; r_purge_per_owner := 1024 |}.

Record Limits : Type := {
  capacity : Z; per_owner : Z; ttl_ms : Z; upload_ttl_ms : Z;
  upload_capacity : Z; upload_per_owner : Z; purge_capacity : Z; purge_per_owner : Z }.

(** A [Duration] is its number of nanoseconds. *)
Definition as_millis (duration : Z) : Z := duration / 1000000.
Definition duration_ms (duration : Z) (description : string) : result string Z :=
  ok_or (i64_try_from (as_millis duration)) (description +:+ " is too large").

Definition validate_limits (cap per : Z) (ttl upload_ttl : Z) (repository : RepositoryLimits)
    : result string Limits :=
  _ ← ensure (0 <? cap)%Z "State store capacity must be positive";
  _ ← ensure (in_range 1 cap per)
        "Per-owner state store capacity must be positive and no greater than global capacity";
  cap' ← ok_or (i64_try_from cap) "State store capacity is too large";
  per' ← ok_or (i64_try_from per) "Per-owner state store capacity is too large";
  ttl' ← ok_or (i64_try_from (as_millis ttl)) "State store result TTL is too large";
  upload_ttl' ← duration_ms upload_ttl "Upload session recovery TTL";
  _ ← ensure ((0 <? r_upload_capacity repository)%Z
              && in_range 1 (r_upload_capacity repository) (r_upload_per_owner repository))
        "Upload session capacities are invalid";
  _ ← ensure ((0 <? r_purge_capacity repository)%Z
              && in_range 1 (r_purge_capacity repository) (r_purge_per_owner repository))
        "Purge job capacities are invalid";
  uc ← ok_or (i64_try_from (r_upload_capacity repository)) "Upload session capacity is too large";
  uo ← ok_or (i64_try_from (r_upload_per_owner repository))
         "Per-owner upload session capacity is too large";
  pc ← ok_or (i64_try_from (r_purge_capacity repository)) "Purge job capacity is too large";
  po ← ok_or (i64_try_from (r_purge_per_owner repository))
         "Per-owner purge job capacity is too large";
  Ok {| capacity := cap'; per_owner := per'; ttl_ms := ttl'; upload_ttl_ms := upload_ttl';
        upload_capacity := uc; upload_per_owner := uo;
        purge_capacity := pc; purge_per_owner := po |}.

Definition query_limit (limit : Z) : result string Z :=
  _ ← ensure (0 <? limit)%Z "State store query limit must be positive";
  ok_or (i64_try_from limit) "State store query limit is too large".

Definition expiration_time (now ttl : Z) : result string Z :=
  ok_or (i64_checked_add now ttl) "Operation expiration time overflowed".

(** What [validate_limits] guarantees. *)
Record limits_ok (l : Limits) : Prop := {
  lo_capacity : (1 <= per_owner l <= capacity l)%Z;
  lo_upload : (1 <= upload_per_owner l <= upload_capacity l)%Z;
  lo_purge : (1 <= purge_per_owner l <= purge_capacity l)%Z;
  lo_i64 : (capacity l <= I64_MAX /\ upload_capacity l <= I64_MAX /\ purge_capacity l <= I64_MAX)%Z;
  lo_ttl : (ttl_ms l <= I64_MAX /\ upload_ttl_ms l <= I64_MAX)%Z }.

Lemma validate_limits_ok cap per ttl uttl repo l :
  validate_limits cap per ttl uttl repo = Ok l -> limits_ok l.
Proof.
  unfold validate_limits, duration_ms, in_range. intros H. inv_result. split_bool.
  repeat match goal with H : i64_try_from _ = Some _ |- _ => apply i64_try_from_Some in H as [-> ?] end.
  subst l. split; cbn; lia.
Qed.
