(* ===== verification/StoreClock.v ===== *)
(** * The store's clock

    [StoreClock] of [src/server/state_store.rs]: wall-clock milliseconds carried
    forward by the monotonic clock, so that expiry times never move back when
    the system clock does.  Instants are nanoseconds. *)

From S2P Require Import Prelude StateModel.

Module StoreClock.

Record StoreClock : Type := {
  wall_anchor_ms : Z;
  monotonic_anchor : Z;
  last_ms : Z }.

Definition new (wall monotonic_now : Z) : StoreClock :=
  {| wall_anchor_ms := wall; monotonic_anchor := monotonic_now; last_ms := wall |}.

(** [Instant::checked_duration_since] *)
Definition checked_duration_since (now anchor : Z) : option Z :=
  if (anchor <=? now)%Z then Some (now - anchor)%Z else None.

Definition observe (c : StoreClock) (wall_now_ms : option Z) (monotonic_now : Z)
    : result string (StoreClock * Z) :=
  elapsed ← ok_or (checked_duration_since monotonic_now (monotonic_anchor c))
              "The monotonic clock moved backwards";
  elapsed_ms ← ok_or (i64_try_from (as_millis elapsed))
                 "The monotonic clock cannot be represented in milliseconds";
  candidate ← ok_or (i64_checked_add (wall_anchor_ms c) elapsed_ms)
                "The state store clock overflowed";
  let '(anchor, mono, candidate) :=
    match wall_now_ms with
    | Some wall => if (candidate <? wall)%Z then (wall, monotonic_now, wall)
                   else (wall_anchor_ms c, monotonic_anchor c, candidate)
    | None => (wall_anchor_ms c, monotonic_anchor c, candidate)
    end in
  let candidate := Z.max candidate (last_ms c) in
  Ok ({| wall_anchor_ms := anchor; monotonic_anchor := mono; last_ms := candidate |}, candidate).

(** A sequence of readings; a failing one leaves the clock as it was. *)
Fixpoint readings (c : StoreClock) (obs : list (option Z * Z)) : list Z :=
  match obs with
  | [] => []
  | (w, m) :: obs =>
      match observe c w m with
      | Ok (c', t) => t :: readings c' obs
      | Err _ => readings c obs
      end
  end.

Lemma observe_bounds c w m c' t :
  observe c w m = Ok (c', t) ->
  (last_ms c <= t)%Z /\ last_ms c' = t /\
  (wall_anchor_ms c + as_millis (m - monotonic_anchor c) <= t)%Z /\
  (forall wall, w = Some wall -> (wall <= t)%Z) /\
  (t = last_ms c \/ t = wall_anchor_ms c + as_millis (m - monotonic_anchor c) \/ w = Some t)%Z.
Proof.
  unfold observe, checked_duration_since. intros H. inv_result.
  apply i64_try_from_Some in Hbind0 as [-> _]. apply i64_checked_add_Some in Hbind1 as [-> _].
  destruct (Z.leb_spec (monotonic_anchor c) m); [|done]. injection Hbind as <-.
  destruct w as [wall|].
  - destruct (Z.ltb_spec (wall_anchor_ms c + as_millis (m - monotonic_anchor c)) wall);
      injection H as <- <-; cbn; split_and!; try lia.
    + intros ? [= <-]. lia.
    + destruct (Z.max_spec wall (last_ms c)) as [[_ ->]|[_ ->]]; auto.
    + intros ? [= <-]. lia.
  - injection H as <- <-; cbn; split_and!; try lia. done.
Qed.

Lemma readings_ge c obs t : t ∈ readings c obs -> (last_ms c <= t)%Z.
Proof.
  revert c; induction obs as [|[w m] obs IH]; intros c; cbn; [by intros ?%not_elem_of_nil|].
  destruct (observe c w m) as [[c' t']|] eqn:E; [|apply IH].
  apply observe_bounds in E as (Hge & Hl & _).
  intros [->|Ht]%elem_of_cons; [done|]. apply IH in Ht. lia.
Qed.

(** The store's clock never runs backwards: whatever the wall clock and the
    monotonic clock report, the times returned by any sequence of readings are
    non-decreasing and never earlier than the time the clock was created at. *)
Lemma readings_monotone (wall mono : Z) (obs : list (option Z * Z)) :
  Sorted Z.le (wall :: readings (new wall mono) obs).
Proof.
  change wall with (last_ms (new wall mono)) at 1.
  generalize (new wall mono). clear. induction obs as [|[w m] obs IH]; intros c; cbn.
  - repeat constructor.
  - destruct (observe c w m) as [[c' t]|] eqn:E; [|apply IH].
    apply observe_bounds in E as (Hge & Hl & _). constructor; [|by constructor].
    rewrite <- Hl. apply IH.
Qed.

End StoreClock.
