(* ===== verification/OperationStore.v ===== *)
(** * The operation table

    [src/server/state_store/operation.rs] over the [operations] table of
    [schema/]: idempotency records for file operations.  A key is reserved with
    a random lease, optionally marked as committing, completed with an outcome
    that is replayed to repeated requests until it expires, or abandoned. *)

From S2P Require Import Prelude Sql StateModel.

Module OperationStore.

Record Row : Type := {
  fingerprint : bytes;
  lease_token : bytes;
  state : Z;
  terminal_state : option Z;
  http_status : option Z;
  error_code : option bytes;
  created_at_ms : Z;
  updated_at_ms : Z;
  expires_at_ms : option Z }.

Abbreviation Table := (gmap OperationKey Row).

(** The constraints of [CREATE TABLE operations]. *)
Definition check (k : OperationKey) (r : Row) : bool :=
  (blob_length (owner k) =? 32)%Z && (blob_length (id k) =? 16)%Z
  && (blob_length (fingerprint r) =? 32)%Z && (blob_length (lease_token r) =? 16)%Z
  && passes (in3 (Some (state r)) [0; 1; 2]%Z)
  && passes (in3 (terminal_state r) [0; 1; 2]%Z)
  && passes (or3 (is_null (error_code r)) (between3 (text_length <$> error_code r) 1 128))
  && passes (or3
       (and3 (in3 (Some (state r)) [0; 1]%Z)
         (and3 (is_null (terminal_state r))
           (and3 (is_null (http_status r))
             (and3 (is_null (error_code r)) (is_null (expires_at_ms r))))))
       (and3 (Some (state r =? 2)%Z)
         (and3 (not_null (terminal_state r))
           (and3 (between3 (http_status r) 100 599)
             (and3 (not_null (expires_at_ms r))
               (or3
                 (and3 (in3 (terminal_state r) [0]%Z)
                   (and3 (between3 (http_status r) 200 299) (is_null (error_code r))))
                 (and3 (in3 (terminal_state r) [1; 2]%Z)
                   (and3 (not3 (between3 (http_status r) 200 299))
                     (not_null (error_code r))))))))))%Z.

(** ** Operations *)

Record LoadedOperation : Type := {
  l_fingerprint : bytes;
  l_state : Z;
  l_terminal_state : option Z;
  l_http_status : option Z;
  l_code : option bytes }.

Definition into_outcome (l : LoadedOperation) : result string StoredOutcome :=
  st ← ok_or (l_terminal_state l) "Completed operation is missing its terminal state";
  http ← ok_or (l_http_status l) "Completed operation is missing its HTTP status";
  http ← ok_or (if in_range 0 U16_MAX http then Some http else None)
           "Completed operation contains an invalid HTTP status";
  terminal ← terminal_from_database st;
  let outcome := {| status := http; terminal := terminal; code := l_code l |} in
  _ ← outcome_validate outcome;
  Ok outcome.

Definition load_operation (t : Table) (key : OperationKey) : result string (option LoadedOperation) :=
  match t !! key with
  | None => Ok None
  | Some r =>
      if (blob_length (fingerprint r) =? 32)%Z then
        Ok (Some {| l_fingerprint := fingerprint r; l_state := state r;
                    l_terminal_state := terminal_state r; l_http_status := http_status r;
                    l_code := error_code r |})
      else Err "Operation fingerprint has an invalid length"
  end.

Definition expired (now : Z) (_ : OperationKey) (r : Row) : bool :=
  (state r =? OPERATION_COMPLETED)%Z
  && match expires_at_ms r with Some e => (e <=? now)%Z | None => false end.

Definition purge_expired (t : Table) (now : Z) : Table := (delete_where (expired now) t).1.

Definition reserved (now : Z) (fp lease : bytes) : Row :=
  {| fingerprint := fp; lease_token := lease; state := OPERATION_RESERVED;
     terminal_state := None; http_status := None; error_code := None;
     created_at_ms := now; updated_at_ms := now; expires_at_ms := None |}.

Definition begin_operation (limits : Limits) (t : Table) (now : Z) (fresh_lease : bytes)
    (key : OperationKey) (fp : bytes) : result string (Table * StoreBegin) :=
  let t := purge_expired t now in
  existing ← load_operation t key;
  match existing with
  | Some existing =>
      if negb (bool_decide (l_fingerprint existing = fp)) then Ok (t, BeginConflict)
      else if ((l_state existing =? OPERATION_RESERVED)
               || (l_state existing =? OPERATION_COMMIT_STARTED))%Z then Ok (t, BeginRunning)
      else if (l_state existing =? OPERATION_COMPLETED)%Z then
        outcome ← into_outcome existing; Ok (t, Replay outcome)
      else Err "Invalid operation state in the state database"
  | None =>
      let global_count := count_where (fun _ _ => true) t in
      let owner_count := count_where (fun k _ => bool_decide (owner k = owner key)) t in
      if ((capacity limits <=? global_count) || (per_owner limits <=? owner_count))%Z
      then Ok (t, BeginFull)
      else
        t ← insert_row check key
              (reserved now fp fresh_lease) t;
        Ok (t, Started fresh_lease)
  end.

Definition operation_status (t : Table) (now : Z) (key : OperationKey)
    : result string (Table * StoreStatus) :=
  let t := purge_expired t now in
  existing ← load_operation t key;
  match existing with
  | Some operation =>
      if ((l_state operation =? OPERATION_RESERVED)
          || (l_state operation =? OPERATION_COMMIT_STARTED))%Z then Ok (t, StatusRunning)
      else if (l_state operation =? OPERATION_COMPLETED)%Z then
        outcome ← into_outcome operation; Ok (t, StatusCompleted outcome)
      else Err "Invalid operation state in the state database"
  | None => Ok (t, StatusNotFound)
  end.

(** [WHERE owner_digest = .. AND operation_id = .. AND lease_token = ..
    AND state IN (states)] *)
Definition owned (key : OperationKey) (lease : bytes) (states : list Z)
    (k : OperationKey) (r : Row) : bool :=
  bool_decide (k = key) && bool_decide (lease_token r = lease) && bool_decide (state r ∈ states).

Definition set_commit_started (now : Z) (r : Row) : Row :=
  {| fingerprint := fingerprint r; lease_token := lease_token r;
     state := OPERATION_COMMIT_STARTED; terminal_state := terminal_state r;
     http_status := http_status r; error_code := error_code r;
     created_at_ms := created_at_ms r; updated_at_ms := now; expires_at_ms := expires_at_ms r |}.

Definition mark_operation_commit_started (t : Table) (now : Z) (key : OperationKey)
    (lease : bytes) : result string (Table * bool) :=
  '(t, changed) ← update_where check (owned key lease [OPERATION_RESERVED])
                    (set_commit_started now) t;
  Ok (t, (changed =? 1)%Z).

Definition set_completed (now expires : Z) (o : StoredOutcome) (r : Row) : Row :=
  {| fingerprint := fingerprint r; lease_token := lease_token r;
     state := OPERATION_COMPLETED;
     terminal_state := Some (terminal_to_database (terminal o));
     http_status := Some (status o); error_code := code o;
     created_at_ms := created_at_ms r; updated_at_ms := now; expires_at_ms := Some expires |}.

Definition complete_operation (limits : Limits) (t : Table) (now : Z) (key : OperationKey)
    (lease : bytes) (outcome : StoredOutcome) : result string (Table * bool) :=
  expires_at ← expiration_time now (ttl_ms limits);
  '(t, changed) ← update_where check
                    (owned key lease [OPERATION_RESERVED; OPERATION_COMMIT_STARTED])
                    (set_completed now expires_at outcome) t;
  Ok (t, (changed =? 1)%Z).

(** The outcome of an operation that may or may not have taken effect. *)
Definition uncertain : StoredOutcome :=
  {| status := UNKNOWN_STATUS; terminal := TUnknown; code := Some UNKNOWN_CODE |}.

Definition abandon_operation (limits : Limits) (t : Table) (now : Z) (key : OperationKey)
    (lease : bytes) : result string Table :=
  expires_at ← expiration_time now (ttl_ms limits);
  let '(t, removed) := delete_where (owned key lease [OPERATION_RESERVED]) t in
  if (removed =? 0)%Z then
    '(t, _) ← update_where check (owned key lease [OPERATION_COMMIT_STARTED])
                (set_completed now expires_at uncertain) t;
    Ok t
  else Ok t.

(** The [operations] statements of [recover_database], run once at startup. *)
Definition clip_expiry (limit : Z) (r : Row) : Row :=
  {| fingerprint := fingerprint r; lease_token := lease_token r; state := state r;
     terminal_state := terminal_state r; http_status := http_status r;
     error_code := error_code r; created_at_ms := created_at_ms r;
     updated_at_ms := updated_at_ms r; expires_at_ms := Some limit |}.

Definition recover_operations (t : Table) (now operation_expires_at : Z) : result string Table :=
  let t := purge_expired t now in
  let t := (delete_where (fun _ r => (state r =? OPERATION_RESERVED)%Z) t).1 in
  '(t, _) ← update_where check (fun _ r => (state r =? OPERATION_COMMIT_STARTED)%Z)
              (set_completed now operation_expires_at uncertain) t;
  '(t, _) ← update_where check
              (fun _ r => (state r =? OPERATION_COMPLETED)%Z
                 && match expires_at_ms r with
                    | Some e => (operation_expires_at <? e)%Z
                    | None => false
                    end)
              (clip_expiry operation_expires_at) t;
  Ok t.
(** ** The command stream

    The store's worker runs one command at a time, each in its own transaction
    at the time its clock reports; a failing command is rolled back.
    [StateStore::complete_operation] validates the outcome before it sends it. *)

Inductive Command : Type :=
| Begin (key : OperationKey) (fp lease : bytes)
| Status (key : OperationKey)
| MarkCommitStarted (key : OperationKey) (lease : bytes)
| Complete (key : OperationKey) (lease : bytes) (o : StoredOutcome)
| Abandon (key : OperationKey) (lease : bytes).

Inductive Reply : Type :=
| RBegin (b : StoreBegin) | RStatus (s : StoreStatus) | RMarked (b : bool)
| RCompleted (b : bool) | RAbandoned | RError (e : string).

Definition commit {A} (t : Table) (r : result string (Table * A)) (f : A -> Reply) : Table * Reply :=
  match r with
  | Ok (t', a) => (t', f a)
  | Err e => (t, RError e)
  end.

Definition exec (limits : Limits) (t : Table) (now : Z) (c : Command) : Table * Reply :=
  match c with
  | Begin key fp lease => commit t (begin_operation limits t now lease key fp) RBegin
  | Status key => commit t (operation_status t now key) RStatus
  | MarkCommitStarted key lease =>
      commit t (mark_operation_commit_started t now key lease) RMarked
  | Complete key lease o =>
      commit t (_ ← outcome_validate o; complete_operation limits t now key lease o) RCompleted
  | Abandon key lease =>
      commit t (t ← abandon_operation limits t now key lease; Ok (t, tt)) (fun _ => RAbandoned)
  end.

Fixpoint run (limits : Limits) (t : Table) (cs : list (Z * Command)) : Table * list Reply :=
  match cs with
  | [] => (t, [])
  | (now, c) :: cs =>
      let '(t, r) := exec limits t now c in
      let '(t, rs) := run limits t cs in (t, r :: rs)
  end.

Definition active (r : Row) : Prop := state r = OPERATION_RESERVED \/ state r = OPERATION_COMMIT_STARTED.

(** Whether a command ends the operation that holds [lease] on [key]. *)
Definition finishes (key : OperationKey) (lease : bytes) (c : Command) : bool :=
  match c with
  | Complete k l _ | Abandon k l => bool_decide (k = key) && bool_decide (l = lease)
  | _ => false
  end.

(** ** Facts *)

Lemma owned_key key lease sts k r : owned key lease sts k r = true -> k = key.
Proof. unfold owned. intros H. by split_bool. Qed.

Lemma owned_spec key lease sts k r :
  owned key lease sts k r = true <-> k = key /\ lease_token r = lease /\ state r ∈ sts.
Proof. unfold owned. rewrite !andb_true_iff, !bool_decide_eq_true. naive_solver. Qed.

Lemma lookup_purge t now k r :
  purge_expired t now !! k = Some r <-> t !! k = Some r /\ expired now k r = false.
Proof. unfold purge_expired. apply lookup_delete_where. Qed.

Lemma lookup_purge_keep t now k r :
  t !! k = Some r -> expired now k r = false -> purge_expired t now !! k = Some r.
Proof. intros. by apply lookup_purge. Qed.

Lemma active_not_expired now k r : active r -> expired now k r = false.
Proof. unfold active, expired. intros [-> | ->]; done. Qed.

Lemma load_operation_None t key : load_operation t key = Ok None <-> t !! key = None.
Proof.
  unfold load_operation. destruct (t !! key) as [r|]; [|done].
  by destruct (blob_length (fingerprint r) =? 32)%Z.
Qed.

Lemma load_operation_Some t key l :
  load_operation t key = Ok (Some l) ->
  exists r, t !! key = Some r /\ l = {| l_fingerprint := fingerprint r; l_state := state r;
    l_terminal_state := terminal_state r; l_http_status := http_status r; l_code := error_code r |}.
Proof.
  unfold load_operation. destruct (t !! key) as [r|]; [|done].
  destruct (blob_length (fingerprint r) =? 32)%Z; [|done]. intros [= <-]. eauto.
Qed.

(** What one command does to the row of [key]: nothing; removal of an expired
    result; or a change by the holder of its lease. *)
Variant row_step (now : Z) (key : OperationKey) (c : Command) : option Row -> option Row -> Prop :=
| rs_same o : row_step now key c o o
| rs_expire r : expired now key r = true -> row_step now key c (Some r) None
| rs_insert fp lease :
    c = Begin key fp lease ->
    row_step now key c None
      (Some (reserved now fp lease))
| rs_replace r fp lease :
    c = Begin key fp lease -> expired now key r = true ->
    row_step now key c (Some r)
      (Some (reserved now fp lease))
| rs_mark r :
    c = MarkCommitStarted key (lease_token r) -> state r = OPERATION_RESERVED ->
    row_step now key c (Some r) (Some (set_commit_started now r))
| rs_complete r e o :
    c = Complete key (lease_token r) o -> active r ->
    row_step now key c (Some r) (Some (set_completed now e o r))
| rs_abandon r :
    c = Abandon key (lease_token r) -> state r = OPERATION_RESERVED -> row_step now key c (Some r) None
| rs_uncertain r e :
    c = Abandon key (lease_token r) -> state r = OPERATION_COMMIT_STARTED ->
    row_step now key c (Some r) (Some (set_completed now e uncertain r)).

Lemma purge_row_step now key c t : row_step now key c (t !! key) (purge_expired t now !! key).
Proof.
  destruct (purge_expired t now !! key) as [r|] eqn:E.
  - apply lookup_purge in E as [-> _]. constructor.
  - unfold purge_expired in E. apply lookup_delete_where_None in E as [->|(r & -> & Hr)];
      [constructor | by apply rs_expire].
Qed.

Lemma begin_cases limits t now lease key fp t' b :
  begin_operation limits t now lease key fp = Ok (t', b) ->
  (t' = purge_expired t now /\ forall l, b <> Started l) \/
  (purge_expired t now !! key = None /\ b = Started lease /\
   (count_where (fun _ _ => true) (purge_expired t now) < capacity limits)%Z /\
   (count_where (fun k _ => bool_decide (owner k = owner key)) (purge_expired t now)
      < per_owner limits)%Z /\
   t' = <[key := reserved now fp lease]> (purge_expired t now)).
Proof.
  unfold begin_operation. intros H. inv_result. destruct a as [l|].
  - left. repeat case_match; inv_result; by simplify_eq.
  - apply load_operation_None in Hbind.
    destruct (_ || _) eqn:Eb; [inv_result; left; by simplify_eq|]. right. split_bool.
    inv_result. apply insert_row_Ok in Hbind0 as (_ & _ & ->). by simplify_eq.
Qed.

Lemma status_purges t now key t' s :
  operation_status t now key = Ok (t', s) -> t' = purge_expired t now.
Proof.
  unfold operation_status. intros H. inv_result. destruct a; repeat case_match; inv_result; by simplify_eq.
Qed.
Lemma update_owned_cases key lease sts f t t' n :
  update_where check (owned key lease sts) f t = Ok (t', n) ->
  (t' = t /\ n = 0%Z /\
   forall r, t !! key = Some r -> lease_token r = lease -> state r ∉ sts) \/
  (exists r, t !! key = Some r /\ lease_token r = lease /\ state r ∈ sts /\
             t' = <[key := f r]> t /\ n = 1%Z).
Proof.
  intros (_ & -> & ->)%update_where_Ok.
  rewrite (apply_key _ _ _ key), (count_key _ _ key) by eauto using owned_key.
  destruct (t !! key) as [r|]; [|by left].
  destruct (owned key lease sts key r) eqn:E.
  - apply owned_spec in E as (_ & ? & ?). right. eauto 10.
  - left. split; [done|]. split; [done|]. intros r' [= <-] Hl Hs.
    apply not_true_iff_false in E. apply E. by apply owned_spec.
Qed.

Lemma delete_owned_cases key lease sts t :
  let '(t', n) := delete_where (owned key lease sts) t in
  (t' = t /\ n = 0%Z /\
   forall r, t !! key = Some r -> lease_token r = lease -> state r ∉ sts) \/
  (exists r, t !! key = Some r /\ lease_token r = lease /\ state r ∈ sts /\
             t' = delete key t /\ n = 1%Z).
Proof.
  pose proof (delete_key (owned key lease sts) t key ltac:(eauto using owned_key)) as Hd.
  pose proof (count_key (owned key lease sts) t key ltac:(eauto using owned_key)) as Hc.
  unfold delete_where in *. cbn in Hd. rewrite Hd, Hc. clear Hd Hc.
  destruct (t !! key) as [r|]; [|by left].
  destruct (owned key lease sts key r) eqn:E.
  - apply owned_spec in E as (_ & ? & ?). right. eauto 10.
  - left. split; [done|]. split; [done|]. intros r' [= <-] Hl Hs.
    apply not_true_iff_false in E. apply E. by apply owned_spec.
Qed.

Lemma lookup_insert_step now key k c (t : Table) r r' :
  t !! k = Some r -> row_step now k c (Some r) (Some r') ->
  row_step now key c (t !! key) (<[k := r']> t !! key).
Proof.
  intros Hr Hs. destruct (decide (k = key)) as [<-|?].
  - by rewrite lookup_insert_eq, Hr.
  - rewrite lookup_insert_ne by done. constructor.
Qed.

Lemma abandon_cases limits t now key lease t' :
  abandon_operation limits t now key lease = Ok t' ->
  t' = t \/ exists r, t !! key = Some r /\ lease_token r = lease /\
    ((state r = OPERATION_RESERVED /\ t' = delete key t) \/
     (state r = OPERATION_COMMIT_STARTED /\
      exists e, e = (now + ttl_ms limits)%Z /\ t' = <[key := set_completed now e uncertain r]> t)).
Proof.
  unfold abandon_operation, expiration_time. intros H. inv_result.
  apply i64_checked_add_Some in Hbind as [-> _].
  pose proof (delete_owned_cases key lease [OPERATION_RESERVED] t) as Hd.
  destruct (delete_where _ t) as [t1 n1].
  destruct Hd as [(-> & -> & _)|(r & Hr & Hl & Hs & -> & ->)]; cbn in H.
  - inv_result. destruct a as [t2 n2]. inv_result. subst.
    apply update_owned_cases in Hbind as [(-> & _)|(r & Hr & Hl & Hs & -> & _)]; [by left|].
    right. apply list_elem_of_singleton in Hs. eauto 10.
  - inv_result. subst. right. apply list_elem_of_singleton in Hs. eauto 10.
Qed.

(** No operation in progress on [key] holds [lease]. *)
Definition settled (t : Table) (key : OperationKey) (lease : bytes) : Prop :=
  forall r, t !! key = Some r -> lease_token r = lease -> ~ active r.

Lemma abandon_settles limits t now key lease t' :
  abandon_operation limits t now key lease = Ok t' -> settled t' key lease.
Proof.
  unfold abandon_operation, expiration_time. intros H. inv_result.
  pose proof (delete_owned_cases key lease [OPERATION_RESERVED] t) as Hd.
  destruct (delete_where _ t) as [t1 n1].
  destruct Hd as [(-> & -> & Hr0)|(r & Hr & _ & _ & -> & ->)]; cbn in H.
  - inv_result. destruct a0 as [t2 n2]. inv_result. subst. intros r Hr Hl Ha.
    apply update_owned_cases in Hbind0 as [(-> & _ & Hr1)|(r0 & _ & _ & _ & -> & _)].
    + specialize (Hr0 r Hr Hl). specialize (Hr1 r Hr Hl). destruct Ha; set_solver.
    + rewrite lookup_insert_eq in Hr. injection Hr as <-. by destruct Ha.
  - inv_result. subst. intros r' Hr'. by rewrite lookup_delete_eq in Hr'.
Qed.

Lemma exec_row_step limits t now c key :
  row_step now key c (t !! key) ((exec limits t now c).1 !! key).
Proof.
  destruct c as [k fp l|k|k l|k l o|k l]; cbn [exec].
  - destruct (begin_operation _ _ _ _ _ _) as [[t' b]|] eqn:E; [|constructor]. cbn.
    apply begin_cases in E as [[-> _]|(Hn & _ & _ & _ & ->)]; [apply purge_row_step|].
    destruct (decide (k = key)) as [<-|?].
    + rewrite lookup_insert_eq. unfold purge_expired in Hn.
      apply lookup_delete_where_None in Hn as [->|(r & -> & Hr)];
        [by eapply rs_insert | by eapply rs_replace].
    + rewrite lookup_insert_ne by done. apply purge_row_step.
  - destruct (operation_status _ _ _) as [[t' s]|] eqn:E; [|constructor]. cbn.
    apply status_purges in E as ->. apply purge_row_step.
  - unfold mark_operation_commit_started.
    destruct (update_where _ _ _ _) as [[t' n]|] eqn:E; [|constructor]. cbn.
    apply update_owned_cases in E as [(-> & _)|(r & Hr & <- & Hs & -> & _)]; [constructor|].
    apply list_elem_of_singleton in Hs. eapply lookup_insert_step; [done|by constructor].
  - destruct (_ ≫= _) as [[t' b]|] eqn:E; [|constructor]. cbn.
    unfold complete_operation in E. inv_result. destruct a1 as [t1 n]. inv_result. simplify_eq.
    apply update_owned_cases in Hbind1 as [(-> & _)|(r & Hr & <- & Hs & -> & _)]; [constructor|].
    eapply lookup_insert_step; [done|]. apply rs_complete; [done|].
    unfold active. set_solver.
  - destruct (abandon_operation _ _ _ _ _) as [t'|] eqn:E; [|constructor]. cbn.
    apply abandon_cases in E as [->|(r & Hr & <- & [[Hs ->]|(Hs & e & _ & ->)])]; [constructor| |].
    + destruct (decide (k = key)) as [<-|?].
      * rewrite lookup_delete_eq, Hr. by constructor.
      * rewrite lookup_delete_ne by done. constructor.
    + eapply lookup_insert_step; [done|]. by apply rs_uncertain.
Qed.

Lemma set_commit_started_id now r :
  lease_token (set_commit_started now r) = lease_token r /\
  fingerprint (set_commit_started now r) = fingerprint r /\ active (set_commit_started now r).
Proof. split_and!; [done..|]. by right. Qed.

(** An operation in progress keeps its row until its own holder finishes it. *)
Lemma exec_active limits t now c key r :
  t !! key = Some r -> active r -> finishes key (lease_token r) c = false ->
  exists r', (exec limits t now c).1 !! key = Some r' /\ lease_token r' = lease_token r /\
    fingerprint r' = fingerprint r /\ active r'.
Proof.
  intros Hr Ha Hf. pose proof (exec_row_step limits t now c key) as Hs. rewrite Hr in Hs.
  pose proof (active_not_expired now key r Ha) as Hne.
  inversion Hs as [|? Hx| |? ? ? -> Hx|? -> Hx|? ? ? -> Hx|? -> Hx|? ? -> Hx]; subst; cbn in Hf;
    rewrite ?bool_decide_true in Hf by done; try (discriminate || congruence).
  - eauto 10.
  - eexists. split; [done|]. apply set_commit_started_id.
Qed.

(** The lease a command would introduce. *)
Definition fresh_lease_of (c : Command) : option bytes :=
  match c with Begin _ _ lease => Some lease | _ => None end.

Lemma exec_settled limits t now c key lease :
  settled t key lease -> fresh_lease_of c <> Some lease -> settled (exec limits t now c).1 key lease.
Proof.
  intros Hs Hf r' Hr' Hl Ha. pose proof (exec_row_step limits t now c key) as Hst. rewrite Hr' in Hst.
  remember (t !! key) as o eqn:Ho. remember (Some r') as o' eqn:Ho'.
  destruct Hst as [o|r Hx|fp l ->|r fp l -> Hx|r -> Hx|r e o -> Hx|r -> Hx|r e -> Hx];
    subst; simplify_eq; cbn in *; try congruence.
  - by apply (Hs r').
  - apply (Hs r); [done|done|by left].
  - by destruct Ha.
  - by destruct Ha.
Qed.

Lemma begin_not_started limits t now lease key fp r :
  t !! key = Some r -> expired now key r = false ->
  forall l, (exec limits t now (Begin key fp lease)).2 <> RBegin (Started l).
Proof.
  intros Hr Hx l. cbn. destruct (begin_operation _ _ _ _ _ _) as [[t' b]|] eqn:E; [|done].
  cbn. apply begin_cases in E as [[_ Hb]|[Hn _]]; [congruence|].
  rewrite (lookup_purge_keep t now key r) in Hn; done.
Qed.

(** C7. At most one execution per key: once an operation is in progress, no
    command sequence in which its holder neither completes nor abandons it makes
    the store start another operation under the same key, whatever the
    fingerprints, leases and times involved. *)
Theorem no_second_start limits (t : Table) (cs : list (Z * Command)) key r i now fp lease l :
  t !! key = Some r -> active r ->
  Forall (fun c => finishes key (lease_token r) c.2 = false) cs ->
  cs !! i = Some (now, Begin key fp lease) ->
  (run limits t cs).2 !! i <> Some (RBegin (Started l)).
Proof.
  revert t r i. induction cs as [|[now0 c0] cs IH]; intros t r i Hr Ha Hf Hi; [done|].
  apply Forall_cons in Hf as [Hf0 Hf]. cbn in Hf0. cbn [run].
  destruct (exec_active limits t now0 c0 key r Hr Ha Hf0) as (r' & Hr' & Hl & _ & Ha').
  destruct (exec limits t now0 c0) as [t1 r1] eqn:E1. cbn in Hr'.
  destruct (run limits t1 cs) as [t2 rs] eqn:E2. destruct i as [|i]; cbn in *.
  - injection Hi as -> ->. intros [= ->].
    pose proof (begin_not_started limits t now lease key fp r Hr
                  (active_not_expired now key r Ha) l) as Hn. by rewrite E1 in Hn.
  - rewrite <- Hl in Hf. specialize (IH t1 r' i Hr' Ha' Hf Hi). by rewrite E2 in IH.
Qed.

(** ** Replay *)

(** A finished row that has not expired is not touched by any command. *)
Lemma exec_completed limits t now c key r :
  t !! key = Some r -> state r = OPERATION_COMPLETED -> expired now key r = false ->
  (exec limits t now c).1 !! key = Some r.
Proof.
  intros Hr Hs Hx. pose proof (exec_row_step limits t now c key) as Hstep. rewrite Hr in Hstep.
  inversion Hstep as [|? He| |? ? ? _ He|? _ He|? ? ? _ [He|He]|? _ He|? ? _ He]; subst;
    first [done | congruence | by rewrite Hs in He].
Qed.

Lemma run_completed limits cs t key r e :
  t !! key = Some r -> state r = OPERATION_COMPLETED -> expires_at_ms r = Some e ->
  Forall (fun c => c.1 < e)%Z cs -> (run limits t cs).1 !! key = Some r.
Proof.
  revert t. induction cs as [|[now c] cs IH]; intros t Hr Hs He Hf; [done|].
  apply Forall_cons in Hf as [Hn Hf]. cbn in Hn |- *.
  assert ((exec limits t now c).1 !! key = Some r) as Hr1.
  { apply exec_completed; [done..|]. unfold expired. rewrite He, Hs. cbn.
    destruct (Z.leb_spec e now); [lia|done]. }
  destruct (exec limits t now c) as [t1 r1]. specialize (IH t1 Hr1 Hs He Hf).
  by destruct (run limits t1 cs).
Qed.

Lemma into_outcome_completed now e o r :
  outcome_validate o = Ok tt ->
  into_outcome {| l_fingerprint := fingerprint r; l_state := OPERATION_COMPLETED;
    l_terminal_state := terminal_state (set_completed now e o r);
    l_http_status := http_status (set_completed now e o r);
    l_code := error_code (set_completed now e o r) |} = Ok o.
Proof.
  intros Hv. assert (in_range 0 U16_MAX (status o) = true) as Hr.
  { unfold outcome_validate in Hv. inv_result. unfold in_range, U16_MAX in *. split_bool.
    apply andb_true_iff. split; apply Z.leb_le; lia. }
  unfold into_outcome. cbn. rewrite Hr. cbn.
  destruct o as [s [] c]; cbn in *; by rewrite Hv.
Qed.

Lemma complete_row limits t now key lease o t' :
  exec limits t now (Complete key lease o) = (t', RCompleted true) ->
  outcome_validate o = Ok tt /\
  exists r, t !! key = Some r /\ lease_token r = lease /\ active r /\
    t' = <[key := set_completed now (now + ttl_ms limits) o r]> t.
Proof.
  cbn. destruct (_ ≫= _) as [[t1 b]|] eqn:E; cbn; [|done]. intros [= -> ->].
  unfold complete_operation, expiration_time in E. inv_result. destruct a1 as [t2 n]. inv_result.
  destruct a. simplify_eq. apply i64_checked_add_Some in Hbind0 as [-> _].
  match goal with Hn : (_ =? 1)%Z = true |- _ => rename Hn into En end.
  split; [done|].
  apply update_owned_cases in Hbind1 as [(_ & -> & _)|(r & Hr & Hl & Hs & -> & ->)]; [done|].
  exists r. split_and!; try done. unfold active. set_solver.
Qed.

(** What a finished row that has not expired is answered with. *)
Lemma completed_replies limits (t : Table) key now now0 expires o r fp l :
  t !! key = Some (set_completed now0 expires o r) -> (now < expires)%Z ->
  outcome_validate o = Ok tt -> blob_length (fingerprint r) = 32%Z ->
  (exec limits t now (Begin key fp l)).2 =
    RBegin (if bool_decide (fp = fingerprint r) then Replay o else BeginConflict) /\
  (exec limits t now (Status key)).2 = RStatus (StatusCompleted o).
Proof.
  intros Hr Hnow Hv Hlen. set (r1 := set_completed now0 expires o r) in *.
  assert (purge_expired t now !! key = Some r1) as Hp.
  { apply lookup_purge_keep; [done|]. unfold expired. cbn. destruct (Z.leb_spec expires now); [lia|done]. }
  assert (load_operation (purge_expired t now) key =
    Ok (Some {| l_fingerprint := fingerprint r; l_state := OPERATION_COMPLETED;
      l_terminal_state := terminal_state r1; l_http_status := http_status r1;
      l_code := error_code r1 |})) as Hload.
  { unfold load_operation. rewrite Hp. cbn [fingerprint r1 set_completed]. by rewrite Hlen. }
  split; cbn [exec].
  - unfold begin_operation. cbv zeta. rewrite Hload. cbn -[into_outcome r1].
    rewrite (bool_decide_ext (fp = fingerprint r) (fingerprint r = fp)) by (split; congruence).
    case_bool_decide; [|done]. cbn -[into_outcome r1]. subst r1.
    by rewrite into_outcome_completed.
  - unfold operation_status. cbv zeta. rewrite Hload. cbn -[into_outcome r1]. subst r1.
    by rewrite into_outcome_completed.
Qed.

(** C13. A completed result is replayed until it expires: after the holder of a
    lease completes an operation, any commands may follow; as long as the time is
    before the expiry, a repeated request with the same fingerprint gets exactly
    the stored outcome, one with another fingerprint gets a conflict, and a
    status request gets the outcome. *)
Theorem replay_until_expiry limits (t t1 : Table) now0 key lease o r cs now fp l :
  exec limits t now0 (Complete key lease o) = (t1, RCompleted true) ->
  t !! key = Some r -> blob_length (fingerprint r) = 32%Z ->
  Forall (fun c => c.1 < now0 + ttl_ms limits)%Z cs -> (now < now0 + ttl_ms limits)%Z ->
  let t2 := (run limits t1 cs).1 in
  (exec limits t2 now (Begin key fp l)).2 =
    RBegin (if bool_decide (fp = fingerprint r) then Replay o else BeginConflict) /\
  (exec limits t2 now (Status key)).2 = RStatus (StatusCompleted o).
Proof.
  intros He Hr Hlen Hcs Hnow t2. apply complete_row in He as (Hv & r' & Hr' & _ & _ & ->).
  rewrite Hr in Hr'. injection Hr' as <-. eapply completed_replies; [|done..].
  eapply run_completed; [apply lookup_insert_eq|done|done|done].
Qed.

(** ** The table invariant *)

(** Error codes are static strings; in particular they hold no NUL, so SQLite
    counts the same characters as Rust. *)
Definition outcome_ok (o : StoredOutcome) : Prop :=
  outcome_validate o = Ok tt /\ (forall c, code o = Some c -> x00 ∉ c).

Record ids_ok (k : OperationKey) (r : Row) : Prop := {
  io_key : key_wf k = true;
  io_fingerprint : blob_length (fingerprint r) = 32%Z;
  io_lease : blob_length (lease_token r) = 16%Z }.

Definition pending (r : Row) : Prop :=
  active r /\ terminal_state r = None /\ http_status r = None /\ error_code r = None /\
  expires_at_ms r = None.
Definition finished (r : Row) : Prop :=
  exists now e o, outcome_ok o /\ r = set_completed now e o r.

Definition row_ok (k : OperationKey) (r : Row) : Prop := ids_ok k r /\ (pending r \/ finished r).

Definition owner_is (ow : bytes) (k : OperationKey) (_ : Row) : bool := bool_decide (owner k = ow).
Definition any_row (_ : OperationKey) (_ : Row) : bool := true.

Record table_ok (limits : Limits) (t : Table) : Prop := {
  to_rows : map_Forall row_ok t;
  to_capacity : (count_where any_row t <= capacity limits)%Z;
  to_owner : forall ow, (count_where (owner_is ow) t <= per_owner limits)%Z }.

(** The array types of the commands' arguments. *)
Definition command_ok (c : Command) : Prop :=
  match c with
  | Begin key fp lease => key_wf key = true /\ blob_length fp = 32%Z /\ blob_length lease = 16%Z
  | Complete _ _ o => outcome_ok o
  | _ => True
  end.

Lemma check_pending k r : ids_ok k r -> pending r -> check k r = true.
Proof.
  intros [Hk Hf Hl] ([Hs|Hs] & Ht & Hh & He & Hx); unfold check, key_wf, blob_length in *;
    rewrite Hf, Hl, Hs, Ht, Hh, He, Hx; apply andb_true_iff in Hk as [-> ->]; done.
Qed.

Lemma check_completed k now e o r :
  ids_ok k r -> outcome_ok o -> check k (set_completed now e o r) = true.
Proof.
  intros [Hk Hf Hl] [Hv Hn]. unfold check, key_wf, blob_length in *. cbn [set_completed
    fingerprint lease_token state terminal_state http_status error_code expires_at_ms].
  rewrite Hf, Hl. apply andb_true_iff in Hk as [-> ->]. cbn [andb].
  unfold outcome_validate, in_range in Hv. inv_result.
  destruct o as [s T c]; cbn [status terminal code] in *. unfold between3.
  destruct c as [c|]; cbn [fmap option_fmap option_map].
  - rewrite text_length_no_nul by auto. inv_result. unfold MAX_ERROR_CODE_CHARS in Hv.
    destruct T; inv_result; split_bool; try done;
      replace (1 <=? chars_count c)%Z with true by (symmetry; apply Z.leb_le; lia);
      replace (chars_count c <=? 128)%Z with true by (symmetry; apply Z.leb_le; lia);
      rewrite (proj2 (Z.leb_le 100 s)), (proj2 (Z.leb_le s 599)) by lia;
      by destruct (Z.leb_spec 200 s), (Z.leb_spec s 299).
  - destruct T; inv_result; split_bool; try done.
    rewrite (proj2 (Z.leb_le 100 s)), (proj2 (Z.leb_le s 599)), (proj2 (Z.leb_le 200 s)),
      (proj2 (Z.leb_le s 299)) by lia. done.
Qed.

Lemma row_ok_completed k now e o r : ids_ok k r -> outcome_ok o -> row_ok k (set_completed now e o r).
Proof. intros [] ?. split; [by split|]. right. by exists now, e, o. Qed.

Lemma row_ok_commit_started k now r : row_ok k r -> active r -> row_ok k (set_commit_started now r).
Proof.
  intros [[] [(_ & ? & ? & ? & ?)|(n & e & o & _ & Hr)]] Ha; (split; [by split|]).
  - left. split; [by right|done].
  - rewrite Hr in Ha. by destruct Ha.
Qed.

Lemma row_ok_pending k r : row_ok k r -> active r -> pending r.
Proof. intros [_ [?|(n & e & o & _ & Hr)]] Ha; [done|]. rewrite Hr in Ha. by destruct Ha. Qed.

Lemma uncertain_ok : outcome_ok uncertain.
Proof.
  split; [by vm_compute|]. intros c [= <-].
  by apply (bool_decide_unpack (x00 ∉ UNKNOWN_CODE)).
Qed.

Lemma load_operation_ok limits t key r :
  table_ok limits t -> t !! key = Some r ->
  load_operation t key = Ok (Some {| l_fingerprint := fingerprint r; l_state := state r;
    l_terminal_state := terminal_state r; l_http_status := http_status r;
    l_code := error_code r |}).
Proof.
  intros Ht Hr. unfold load_operation. rewrite Hr.
  destruct (to_rows _ _ Ht key r Hr) as [[_ -> _] _]. done.
Qed.

Lemma operation_counts_mono (q : OperationKey -> Row -> bool) (t t' : Table) :
  (forall k r r', q k r = q k r') ->
  (forall k, is_Some (t' !! k) -> is_Some (t !! k)) -> (count_where q t' <= count_where q t)%Z.
Proof.
  intros Hq Hsub. apply count_where_mono. intros k r Hr Hp.
  destruct (Hsub k) as [r' Hr']; [eauto|]. exists r'. split; [done|]. by rewrite (Hq k r' r).
Qed.

Lemma operation_table_mono limits t t' :
  table_ok limits t -> (forall k, is_Some (t' !! k) -> is_Some (t !! k)) ->
  map_Forall row_ok t' -> table_ok limits t'.
Proof.
  intros [_ Hc Ho] Hsub Hr. split; [done|..].
  - etrans; [|exact Hc]. by apply operation_counts_mono.
  - intros ow. etrans; [|apply (Ho ow)]. by apply operation_counts_mono.
Qed.

Lemma operation_table_update limits t key r r' :
  table_ok limits t -> t !! key = Some r -> row_ok key r' -> table_ok limits (<[key := r']> t).
Proof.
  intros Ht Hr Hr'. apply (operation_table_mono _ _ _ Ht).
  - intros k. rewrite lookup_insert_is_Some. intros [<-|[_ ?]]; eauto.
  - apply map_Forall_insert_2; [done|]. apply Ht.
Qed.

Lemma table_ok_purge limits t now : table_ok limits t -> table_ok limits (purge_expired t now).
Proof.
  intros Ht. apply (operation_table_mono _ _ _ Ht).
  - intros k [r Hr]. apply lookup_purge in Hr as [Hr _]. eauto.
  - intros k r [Hr _]%lookup_purge. by apply (to_rows _ _ Ht).
Qed.
Lemma update_owned_Ok key lease sts f t :
  (forall r, t !! key = Some r -> lease_token r = lease -> state r ∈ sts -> check key (f r) = true) ->
  exists t' n, update_where check (owned key lease sts) f t = Ok (t', n).
Proof.
  intros Hc. do 2 eexists. apply update_where_Ok. split; [|done].
  intros k r Hr (-> & Hl & Hs)%owned_spec. eauto.
Qed.

Lemma into_outcome_ok r :
  finished r -> exists o, into_outcome {| l_fingerprint := fingerprint r; l_state := state r;
    l_terminal_state := terminal_state r; l_http_status := http_status r;
    l_code := error_code r |} = Ok o.
Proof.
  intros (now & e & o & [Hv _] & Hr). exists o.
  rewrite <- (into_outcome_completed now e o r Hv). by rewrite Hr.
Qed.

Section total.
Context (limits : Limits) (t : Table) (now : Z).
Context (Ht : table_ok limits t) (Hnow : is_i64 (now + ttl_ms limits)).

Lemma begin_total key fp lease :
  command_ok (Begin key fp lease) ->
  exists t' b, begin_operation limits t now lease key fp = Ok (t', b) /\ table_ok limits t'.
Proof.
  intros (Hk & Hf & Hl). pose proof (table_ok_purge limits t now Ht) as Hp.
  unfold begin_operation. cbv zeta. destruct (purge_expired t now !! key) as [r|] eqn:Er.
  - rewrite (load_operation_ok limits _ _ r Hp Er). cbn -[into_outcome].
    case_bool_decide; cbn -[into_outcome]; [|eauto].
    destruct (to_rows _ _ Hp key r Er) as [_ Hd].
    destruct Hd as [[[-> | ->] _]|Hfin]; [cbn; eauto..|].
    destruct (into_outcome_ok r Hfin) as [o ->]. destruct Hfin as (? & ? & ? & _ & ->). cbn. eauto.
  - rewrite (proj2 (load_operation_None _ _)) by done. cbn [mbind result_bind].
    destruct (_ || _) eqn:Eb; [eauto|]. split_bool.
    set (r := reserved now fp lease).
    assert (row_ok key r) as Hok.
    { split; [by split|]. left. split; [by left|done]. }
    assert (insert_row check key r (purge_expired t now) = Ok (<[key := r]> (purge_expired t now)))
      as ->.
    { apply insert_row_Ok. split; [done|]. split; [|done].
      destruct Hok as [Hi [Hpd|(? & ? & ? & _ & ?)]]; [by apply check_pending|done]. }
    cbn [mbind result_bind]. do 2 eexists. split; [done|]. destruct Hp as [Hrows Hcap Hown]. split.
    + by apply map_Forall_insert_2.
    + rewrite count_where_insert_None by done. unfold any_row in *. cbv beta iota. lia.
    + intros ow. rewrite count_where_insert_None by done. unfold owner_is at 2.
      case_bool_decide as Ho; [|specialize (Hown ow); lia]. subst ow.
      unfold owner_is. lia.
Qed.

Lemma status_total key :
  exists t' s, operation_status t now key = Ok (t', s) /\ table_ok limits t'.
Proof.
  pose proof (table_ok_purge limits t now Ht) as Hp. unfold operation_status. cbv zeta.
  destruct (purge_expired t now !! key) as [r|] eqn:Er.
  - rewrite (load_operation_ok limits _ _ r Hp Er). cbn -[into_outcome].
    destruct (to_rows _ _ Hp key r Er) as [_ Hd].
    destruct Hd as [[[-> | ->] _]|Hfin]; [cbn; eauto..|].
    destruct (into_outcome_ok r Hfin) as [o ->]. destruct Hfin as (? & ? & ? & _ & ->). cbn. eauto.
  - rewrite (proj2 (load_operation_None _ _)) by done. cbn. eauto.
Qed.

Lemma mark_total key lease :
  exists t' b, mark_operation_commit_started t now key lease = Ok (t', b) /\ table_ok limits t'.
Proof.
  unfold mark_operation_commit_started.
  assert (forall r, t !! key = Some r -> state r ∈ [OPERATION_RESERVED] ->
    row_ok key (set_commit_started now r)) as Hrow.
  { intros r Hr Hs%list_elem_of_singleton. apply row_ok_commit_started; [|by left].
    by apply (to_rows _ _ Ht). }
  destruct (update_owned_Ok key lease [OPERATION_RESERVED] (set_commit_started now) t)
    as (t' & n & E).
  { intros r Hr _ Hs. apply check_pending; [by apply Hrow|]. eapply row_ok_pending; [by apply Hrow|by right]. }
  rewrite E. cbn. do 2 eexists. split; [done|].
  apply update_owned_cases in E as [(-> & _)|(r & Hr & _ & Hs & -> & _)]; [done|].
  eapply operation_table_update; eauto.
Qed.

Lemma complete_total key lease o :
  outcome_ok o ->
  exists t' b, complete_operation limits t now key lease o = Ok (t', b) /\ table_ok limits t'.
Proof.
  intros Ho. unfold complete_operation, expiration_time.
  rewrite (proj2 (i64_checked_add_Some _ _ _)) by done. cbn -[update_where].
  assert (forall r e, t !! key = Some r -> row_ok key (set_completed now e o r)) as Hrow.
  { intros r e Hr. apply row_ok_completed; [|done]. by apply (to_rows _ _ Ht). }
  edestruct (update_owned_Ok key lease [OPERATION_RESERVED; OPERATION_COMMIT_STARTED]
              (set_completed now (now + ttl_ms limits) o) t) as (t' & n & E).
  { intros r Hr _ _. apply check_completed; [|done]. by apply (to_rows _ _ Ht). }
  rewrite E. cbn. do 2 eexists. split; [done|].
  apply update_owned_cases in E as [(-> & _)|(r & Hr & _ & Hs & -> & _)]; [done|].
  eapply operation_table_update; eauto.
Qed.

Lemma abandon_total key lease :
  exists t', abandon_operation limits t now key lease = Ok t' /\ table_ok limits t'.
Proof.
  destruct (abandon_operation limits t now key lease) as [t'|] eqn:E.
  - exists t'. split; [done|].
    apply abandon_cases in E as [->|(r & Hr & _ & [[_ ->]|(_ & e & _ & ->)])]; [done| |].
    + apply (operation_table_mono _ _ _ Ht); [|apply map_Forall_delete, Ht].
      intros k [x Hx]. apply lookup_delete_Some in Hx as [_ ?]. eauto.
    + eapply operation_table_update; [done..|]. apply row_ok_completed; [|apply uncertain_ok].
      by apply (to_rows _ _ Ht).
  - exfalso. unfold abandon_operation, expiration_time in E.
    rewrite (proj2 (i64_checked_add_Some _ _ _)) in E by done. cbn -[update_where delete_where] in E.
    pose proof (delete_owned_cases key lease [OPERATION_RESERVED] t) as Hd.
    destruct (delete_where _ t) as [t1 n]. destruct Hd as [(-> & -> & _)|(r & _ & _ & _ & _ & ->)]; [|done].
    destruct (update_owned_Ok key lease [OPERATION_COMMIT_STARTED]
                (set_completed now (now + ttl_ms limits) uncertain) t) as (t' & m & E').
    { intros r Hr _ _. apply check_completed; [|apply uncertain_ok]. by apply (to_rows _ _ Ht). }
    cbn -[update_where] in E. by rewrite E' in E.
Qed.
End total.

Lemma exec_total limits (t : Table) now c :
  table_ok limits t -> is_i64 (now + ttl_ms limits) -> command_ok c ->
  table_ok limits (exec limits t now c).1 /\
  forall e, (exec limits t now c).2 <> RError e.
Proof.
  intros Ht Hnow Hc. destruct c as [k fp l|k|k l|k l o|k l]; cbn [exec].
  - destruct (begin_total limits t now Ht k fp l Hc) as (t' & b & -> & ?). done.
  - destruct (status_total limits t now Ht k) as (t' & b & -> & ?). done.
  - destruct (mark_total limits t now Ht k l) as (t' & b & -> & ?). done.
  - destruct (complete_total limits t now Ht Hnow k l o Hc) as (t' & b & E & ?).
    destruct Hc as [-> _]. cbn. by rewrite E.
  - destruct (abandon_total limits t now Ht Hnow k l) as (t' & -> & ?). done.
Qed.

(** C16. The operation table never corrupts itself: from a table in which every
    row is well formed and the global and per-owner counts are within the limits,
    every command with arguments of the right lengths succeeds (no constraint of
    the schema is violated, no stored row fails to decode), and leaves such a
    table behind. *)
Theorem store_total limits (t : Table) now c :
  table_ok limits t -> is_i64 (now + ttl_ms limits) -> command_ok c ->
  table_ok limits (exec limits t now c).1 /\
  forall e, (exec limits t now c).2 <> RError e.
Proof. apply exec_total. Qed.
(** ** Startup *)

(** What recovery does to one row: reservations and expired results are dropped,
    operations that had started committing become uncertain, and no result
    outlives the configured lifetime counted from the restart. *)
Definition recover_row (now limit : Z) (r : Row) : option Row :=
  if (state r =? OPERATION_RESERVED)%Z then None
  else if (state r =? OPERATION_COMMIT_STARTED)%Z then Some (set_completed now limit uncertain r)
  else match expires_at_ms r with
       | Some e => if (e <=? now)%Z then None
                   else if (limit <? e)%Z then Some (clip_expiry limit r) else Some r
       | None => Some r
       end.

Lemma row_ok_clip k limit r :
  row_ok k r -> state r = OPERATION_COMPLETED -> row_ok k (clip_expiry limit r) /\
  check k (clip_expiry limit r) = true.
Proof.
  intros [[] [[[Hs|Hs] _]|(n & e & o & Ho & Hr)]] Hc; [by rewrite Hs in Hc..|].
  assert (clip_expiry limit r = set_completed n limit o r) as -> by (by rewrite Hr).
  split; [apply row_ok_completed | apply check_completed]; done.
Qed.

Lemma row_ok_state k r :
  row_ok k r -> state r = OPERATION_RESERVED \/ state r = OPERATION_COMMIT_STARTED \/
    (state r = OPERATION_COMPLETED /\ exists e, expires_at_ms r = Some e).
Proof. intros [_ [[[?|?] _]|(n & e & o & _ & ->)]]; cbn; eauto. Qed.

Lemma recover_operations_lookup t now limit :
  map_Forall row_ok t ->
  exists t', recover_operations t now limit = Ok t' /\
    forall k, t' !! k = t !! k ≫= recover_row now limit.
Proof.
  intros Ht. unfold recover_operations. cbv zeta.
  set (t1 := (delete_where (fun _ r => (state r =? OPERATION_RESERVED)%Z) (purge_expired t now)).1).
  assert (map_Forall row_ok t1) as Ht1.
  { intros k r (Hr & _)%lookup_delete_where. apply lookup_purge in Hr as [Hr _]. by apply Ht. }
  set (p2 := fun (_ : OperationKey) r => (state r =? OPERATION_COMMIT_STARTED)%Z).
  set (f2 := set_completed now limit uncertain). set (t2 := apply_where p2 f2 t1).
  assert (update_where check p2 f2 t1 = Ok (t2, count_where p2 t1)) as ->.
  { apply update_where_Ok. split; [|done]. intros k r Hr _.
    apply check_completed; [by apply Ht1|apply uncertain_ok]. }
  cbn [mbind result_bind].
  assert (map_Forall row_ok t2) as Ht2.
  { intros k r Hr. unfold t2 in Hr. rewrite lookup_apply_where in Hr.
    apply fmap_Some in Hr as (r0 & Hr0 & ->). destruct (p2 k r0); [|by apply Ht1].
    apply row_ok_completed; [by apply Ht1|apply uncertain_ok]. }
  set (p3 := fun (_ : OperationKey) r => _ && _). set (t3 := apply_where p3 (clip_expiry limit) t2).
  assert (update_where check p3 (clip_expiry limit) t2 = Ok (t3, count_where p3 t2)) as ->.
  { apply update_where_Ok. split; [|done]. intros k r Hr Hp. unfold p3 in Hp. split_bool.
    by apply row_ok_clip; [apply Ht2|]. }
  exists t3. split; [done|]. intros k. unfold t3, t2. rewrite !lookup_apply_where. unfold t1.
  destruct (t !! k) as [r|] eqn:Er; cbn [option_bind mbind].
  - pose proof (row_ok_state k r (Ht k r Er)) as Hst.
    destruct (expired now k r) eqn:Ex; [|destruct (state r =? OPERATION_RESERVED)%Z eqn:Es].
    + rewrite (proj2 (lookup_delete_where_None _ _ k)); cbn [fmap option_fmap option_map].
      * unfold expired in Ex. apply andb_true_iff in Ex as [Es Ee]. apply Z.eqb_eq in Es.
        unfold recover_row. rewrite Es. cbn. destruct (expires_at_ms r); by rewrite ?Ee.
      * left. apply lookup_delete_where_None. right. eauto.
    + rewrite (proj2 (lookup_delete_where_None _ _ k)); cbn [fmap option_fmap option_map].
      * unfold recover_row. by rewrite Es.
      * right. exists r. split; [|done]. by apply lookup_purge_keep.
    + rewrite (proj2 (lookup_delete_where _ _ k r)); cbn [fmap option_fmap option_map];
        [|split; [by apply lookup_purge_keep|done]].
      unfold recover_row. rewrite Es. unfold p2.
      destruct (state r =? OPERATION_COMMIT_STARTED)%Z eqn:Ec.
      * unfold p3. cbn. by rewrite Z.ltb_irrefl.
      * split_bool. destruct Hst as [?|[?|(Hs & e & He)]]; [done..|].
        unfold p3. rewrite Hs, He. cbn. unfold expired in Ex. rewrite Hs, He in Ex. cbn in Ex.
        rewrite Ex. by destruct (limit <? e)%Z.
  - rewrite (proj2 (lookup_delete_where_None _ _ k)); [done|]. left.
    apply lookup_delete_where_None. by left.
Qed.

Lemma recover_operations_resolved (t : Table) now limit :
  map_Forall row_ok t -> (now < limit)%Z ->
  exists t', recover_operations t now limit = Ok t' /\
    (forall k, t' !! k = t !! k ≫= recover_row now limit) /\
    map_Forall (fun k r => row_ok k r /\ state r = OPERATION_COMPLETED /\
      exists e, expires_at_ms r = Some e /\ (now < e <= limit)%Z) t'.
Proof.
  intros Ht Hlt. destruct (recover_operations_lookup t now limit Ht) as (t' & E & Hl).
  exists t'. split; [done|]. split; [done|]. intros k r Hr. rewrite Hl in Hr.
  apply bind_Some in Hr as (r0 & Hr0 & Hrec). specialize (Ht k r0 Hr0).
  unfold recover_row in Hrec. destruct (row_ok_state k r0 Ht) as [Hs|[Hs|(Hs & e & He)]];
    rewrite Hs in Hrec; cbn in Hrec; [done| |].
  - injection Hrec as <-. split; [apply row_ok_completed; [by destruct Ht|apply uncertain_ok]|].
    split; [done|]. exists limit. cbn. auto with lia.
  - rewrite He in Hrec. destruct (Z.leb_spec e now); [done|].
    destruct (Z.ltb_spec limit e); injection Hrec as <-.
    + split; [by apply row_ok_clip|]. split; [done|]. exists limit. auto with lia.
    + split; [done|]. split; [done|]. exists e. auto with lia.
Qed.

(** Recovery at startup resolves every operation: it succeeds on any table
    of well-formed rows, treats each row as [recover_row] says (in particular an
    operation whose commit had started is reported as uncertain, never replayed
    as a success or run again), and afterwards no operation is in progress and no
    result lives longer than the lifetime counted from the restart. *)
Lemma recovery_resolves_operations (t : Table) now limit :
  map_Forall row_ok t -> (now < limit)%Z ->
  exists t', recover_operations t now limit = Ok t' /\
    (forall k, t' !! k = t !! k ≫= recover_row now limit) /\
    map_Forall (fun k r => row_ok k r /\ state r = OPERATION_COMPLETED /\
      exists e, expires_at_ms r = Some e /\ (now < e <= limit)%Z) t'.
Proof. apply recover_operations_resolved. Qed.
(** ** A concrete history *)

Definition key0 : OperationKey := {| owner := replicate 32 x41; id := replicate 16 x42 |}.
Definition fp0 : bytes := replicate 32 x43.
Definition fp1 : bytes := replicate 32 x44.
Definition lease0 : bytes := replicate 16 x45.
Definition lease1 : bytes := replicate 16 x46.
Definition limits0 : Limits :=
  {| capacity := 2; per_owner := 1; ttl_ms := 1000; upload_ttl_ms := 1000; upload_capacity := 2;
     upload_per_owner := 1; purge_capacity := 2; purge_per_owner := 1 |}.
Definition done0 : StoredOutcome := {| status := 201; terminal := TSucceeded; code := None |}.
Definition row0 : Row := set_commit_started 6 (reserved 5 fp0 lease0).
Definition history0 : list (Z * Command) :=
  [(10, Begin key0 fp0 lease1); (11, Abandon key0 lease1); (12, Begin key0 fp1 lease1)]%Z.

Lemma row0_ok : row_ok key0 row0.
Proof. split; [by split|]. left. split; [by right|done]. Qed.

Lemma operations0_ok : table_ok limits0 {[key0 := row0]}.
Proof.
  split.
  - apply map_Forall_singleton, row0_ok.
  - by vm_compute.
  - intros ow. unfold count_where, hits. etrans.
    + apply inj_le, (map_size_filter _ ({[key0 := row0]} : Table)).
    + by vm_compute.
Qed.

Lemma no_second_start_witness :
  (run limits0 {[key0 := row0]} history0).2 !! 2%nat <> Some (RBegin (Started lease1)).
Proof.
  apply (no_second_start limits0 {[key0 := row0]} history0 key0 row0 2 12 fp1 lease1).
  - by vm_compute.
  - by right.
  - repeat constructor.
  - reflexivity.
Defined.

Lemma replay_until_expiry_witness :
  let t1 := (exec limits0 {[key0 := row0]} 7 (Complete key0 lease0 done0)).1 in
  (exec limits0 (run limits0 t1 history0).1 1006 (Begin key0 fp0 lease1)).2 = RBegin (Replay done0).
Proof.
  intros t1.
  apply (replay_until_expiry limits0 {[key0 := row0]} t1 7 key0 lease0 done0 row0 history0 1006 fp0 lease1).
  - apply pair_eq_snd. by vm_compute.
  - by vm_compute.
  - by vm_compute.
  - by repeat constructor.
  - by vm_compute.
Defined.

Lemma store_total_witness :
  table_ok limits0 (exec limits0 {[key0 := row0]} 7 (Complete key0 lease0 done0)).1.
Proof.
  apply (store_total limits0 {[key0 := row0]} 7 (Complete key0 lease0 done0)).
  - apply operations0_ok.
  - split; by vm_compute.
  - split; [by vm_compute|]. intros c Hc. discriminate Hc.
Defined.

Lemma recovery_resolves_operations_witness :
  exists t', recover_operations {[key0 := row0]} 50 1050 = Ok t' /\
    t' !! key0 = Some (set_completed 50 1050 uncertain row0).
Proof.
  destruct (recovery_resolves_operations {[key0 := row0]} 50 1050) as (t' & E & Hl & _).
  - apply map_Forall_singleton, row0_ok.
  - by vm_compute.
  - exists t'. split; [exact E|]. rewrite Hl. by vm_compute.
Defined.
End OperationStore.
