(* ===== verification/OperationRegistry.v ===== *)
(** * The operation registry

    [src/server/operation_registry.rs]: what the request handlers see of the
    operation table.  A request that names an operation identifier begins it,
    gets a guard, marks the point of no return, and completes the guard with an
    outcome; dropping the guard abandons the operation. *)

From S2P Require Import Prelude Sql StateModel OperationStore.

Module OperationRegistry.

Inductive OperationPublicState : Type := PRunning | PSucceeded | PFailed | PRejected | PUnknown.
#[global] Instance OperationPublicState_eq_dec : EqDecision OperationPublicState.
Proof. solve_decision. Defined.

Inductive TrackedOperationError : Type :=
| InvalidJson
| InvalidPath
| PathExists
| InvalidSourcePath
| InvalidDestinationPath
| SourceEqualsDestination
| InvalidMovePath
| InvalidRenameName
| InvalidRenamePath
| SourceNotFound
| SourceRevisionRequired
| InvalidSourceRevision
| SourceChanged
| DirectoryIntoItself
| DestinationExists
| DestinationRevisionRequired
| InvalidDestinationRevision
| DestinationChanged
| DestinationDirectoryNotFound
| DestinationNotDirectory
| DirectoryOverwriteForbidden
| MkdirStateConflict
| MoveStateConflict
| RenameStateConflict
| TargetNotFound
| DeleteStateConflict
| PurgeBacklogFull
| PurgeStateUnavailable
| DeleteTargetChanged
| DeleteNotCommitted
| OutcomeUncertain.
#[global] Instance TrackedOperationError_eq_dec : EqDecision TrackedOperationError.
Proof. solve_decision. Defined.

(** [TrackedOperationError::code], the wire names of [ErrorCode]. *)
Definition error_code (e : TrackedOperationError) : bytes :=
  match e with
  | InvalidJson => str "invalid_json"
  | InvalidPath => str "invalid_path"
  | PathExists => str "path_exists"
  | InvalidSourcePath => str "invalid_source_path"
  | InvalidDestinationPath => str "invalid_destination_path"
  | SourceEqualsDestination => str "source_equals_destination"
  | InvalidMovePath => str "invalid_move_path"
  | InvalidRenameName => str "invalid_rename_name"
  | InvalidRenamePath => str "invalid_rename_path"
  | SourceNotFound => str "source_not_found"
  | SourceRevisionRequired => str "source_revision_required"
  | InvalidSourceRevision => str "invalid_source_revision"
  | SourceChanged => str "source_changed"
  | DirectoryIntoItself => str "directory_into_itself"
  | DestinationExists => str "destination_exists"
  | DestinationRevisionRequired => str "destination_revision_required"
  | InvalidDestinationRevision => str "invalid_destination_revision"
  | DestinationChanged => str "destination_changed"
  | DestinationDirectoryNotFound => str "destination_directory_not_found"
  | DestinationNotDirectory => str "destination_not_directory"
  | DirectoryOverwriteForbidden => str "directory_overwrite_forbidden"
  | MkdirStateConflict => str "mkdir_state_conflict"
  | MoveStateConflict => str "move_state_conflict"
  | RenameStateConflict => str "rename_state_conflict"
  | TargetNotFound => str "target_not_found"
  | DeleteStateConflict => str "delete_state_conflict"
  | PurgeBacklogFull => str "purge_backlog_full"
  | PurgeStateUnavailable => str "purge_state_unavailable"
  | DeleteTargetChanged => str "delete_target_changed"
  | DeleteNotCommitted => str "delete_not_committed"
  | OutcomeUncertain => str "outcome_uncertain"
  end.

Definition from_wire_name (value : bytes) : option TrackedOperationError :=
  if bool_decide (value = str "invalid_json") then Some InvalidJson else
  if bool_decide (value = str "invalid_path") then Some InvalidPath else
  if bool_decide (value = str "path_exists") then Some PathExists else
  if bool_decide (value = str "invalid_source_path") then Some InvalidSourcePath else
  if bool_decide (value = str "invalid_destination_path") then Some InvalidDestinationPath else
  if bool_decide (value = str "source_equals_destination") then Some SourceEqualsDestination else
  if bool_decide (value = str "invalid_move_path") then Some InvalidMovePath else
  if bool_decide (value = str "invalid_rename_name") then Some InvalidRenameName else
  if bool_decide (value = str "invalid_rename_path") then Some InvalidRenamePath else
  if bool_decide (value = str "source_not_found") then Some SourceNotFound else
  if bool_decide (value = str "source_revision_required") then Some SourceRevisionRequired else
  if bool_decide (value = str "invalid_source_revision") then Some InvalidSourceRevision else
  if bool_decide (value = str "source_changed") then Some SourceChanged else
  if bool_decide (value = str "directory_into_itself") then Some DirectoryIntoItself else
  if bool_decide (value = str "destination_exists") then Some DestinationExists else
  if bool_decide (value = str "destination_revision_required") then Some DestinationRevisionRequired else
  if bool_decide (value = str "invalid_destination_revision") then Some InvalidDestinationRevision else
  if bool_decide (value = str "destination_changed") then Some DestinationChanged else
  if bool_decide (value = str "destination_directory_not_found") then Some DestinationDirectoryNotFound else
  if bool_decide (value = str "destination_not_directory") then Some DestinationNotDirectory else
  if bool_decide (value = str "directory_overwrite_forbidden") then Some DirectoryOverwriteForbidden else
  if bool_decide (value = str "mkdir_state_conflict") then Some MkdirStateConflict else
  if bool_decide (value = str "move_state_conflict") then Some MoveStateConflict else
  if bool_decide (value = str "rename_state_conflict") then Some RenameStateConflict else
  if bool_decide (value = str "target_not_found") then Some TargetNotFound else
  if bool_decide (value = str "delete_state_conflict") then Some DeleteStateConflict else
  if bool_decide (value = str "purge_backlog_full") then Some PurgeBacklogFull else
  if bool_decide (value = str "purge_state_unavailable") then Some PurgeStateUnavailable else
  if bool_decide (value = str "delete_target_changed") then Some DeleteTargetChanged else
  if bool_decide (value = str "delete_not_committed") then Some DeleteNotCommitted else
  if bool_decide (value = str "outcome_uncertain") then Some OutcomeUncertain else
  None.

Record OperationOutcome : Type := {
  o_status : Z;
  o_state : OperationPublicState;
  o_error : option TrackedOperationError }.

Definition is_success (status : Z) : bool := in_range 200 299 status.

(** ** Outcomes

    In debug builds the first two assert that the status is, or is not, a success;
    [terminal_outcome] below states it of their callers. *)

Definition success (status : Z) : OperationOutcome :=
  {| o_status := status; o_state := PSucceeded; o_error := None |}.
Definition failure (status : Z) (error : TrackedOperationError) : OperationOutcome :=
  {| o_status := status; o_state := PFailed; o_error := Some error |}.
Definition uncertain : OperationOutcome :=
  {| o_status := 500; o_state := PUnknown; o_error := Some OutcomeUncertain |}.

(** [Err] is the [unreachable!] of an outcome that is not terminal. *)
Definition into_stored (o : OperationOutcome) : result string StoredOutcome :=
  terminal ← match o_state o with
             | PSucceeded => Ok TSucceeded
             | PFailed => Ok TFailed
             | PUnknown => Ok TUnknown
             | PRunning | PRejected => Err "an operation outcome must be terminal"
             end;
  Ok {| status := o_status o; terminal := terminal; code := error_code <$> o_error o |}.

Definition from_stored (s : StoredOutcome) : result string OperationOutcome :=
  http ← ok_or (if in_range 100 999 (status s) then Some (status s) else None)
           "operation store contains an invalid HTTP status";
  let state := match terminal s with TSucceeded => PSucceeded | TFailed => PFailed | TUnknown => PUnknown end in
  error ← match code s with
          | None => if bool_decide (state = PSucceeded) then Ok None
                    else Err "operation store contains an incomplete terminal outcome"
          | Some c =>
              if bool_decide (state = PSucceeded) then
                Err "operation store contains an incomplete terminal outcome"
              else e ← ok_or (from_wire_name c) "operation store contains an unknown terminal error"; Ok (Some e)
          end;
  if bool_decide (state = PSucceeded) && negb (is_success http) then
    Err "operation store contains a non-success status for a success outcome"
  else if negb (bool_decide (state = PSucceeded)) && is_success http then
    Err "operation store contains a success status for an error outcome"
  else Ok {| o_status := http; o_state := state; o_error := error |}.

(** ** The registry *)

Record OperationGuard : Type := { g_key : OperationKey; g_lease : bytes; g_completed : bool }.

Inductive BeginOperation : Type :=
| BStarted (g : OperationGuard) | BRunning | BReplay (o : OperationOutcome) | BConflict | BFull | BUnavailable.

Inductive OperationStatus : Type :=
| SRunning | SCompleted (o : OperationOutcome) | SNotFound | SUnavailable.

(** A command that never reached the store's worker, or one that failed there. *)
Inductive StoreError : Type := StateStoreDispatchError | StoreFailed (e : string).

Definition begin (key : OperationKey) (stored : result StoreError StoreBegin) : result string BeginOperation :=
  match stored with
  | Err StateStoreDispatchError => Ok BUnavailable
  | Err (StoreFailed e) => Err e
  | Ok (Started lease) => Ok (BStarted {| g_key := key; g_lease := lease; g_completed := false |})
  | Ok BeginRunning => Ok BRunning
  | Ok (Replay outcome) => o ← from_stored outcome; Ok (BReplay o)
  | Ok BeginConflict => Ok BConflict
  | Ok BeginFull => Ok BFull
  end.

Definition status_of (stored : result StoreError StoreStatus) : result string OperationStatus :=
  match stored with
  | Err _ => Ok SUnavailable
  | Ok StatusRunning => Ok SRunning
  | Ok (StatusCompleted outcome) => o ← from_stored outcome; Ok (SCompleted o)
  | Ok StatusNotFound => Ok SNotFound
  end.

(** ** Guards over the table *)

Section guards.
Context (limits : Limits).
Implicit Types (t : OperationStore.Table) (g : OperationGuard).

Definition mark_commit_started t (now : Z) g : OperationStore.Table * result string unit :=
  if g_completed g then (t, Ok tt)
  else
    match OperationStore.exec limits t now (OperationStore.MarkCommitStarted (g_key g) (g_lease g)) with
    | (t, OperationStore.RMarked true) => (t, Ok tt)
    | (t, OperationStore.RError e) => (t, Err e)
    | (t, _) => (t, Err "operation reservation was lost before commit")
    end.

(** [Drop for OperationGuard]; the worker runs the abandonment at [now]. *)
Definition drop_guard t (now : Z) g : OperationStore.Table :=
  if g_completed g then t
  else (OperationStore.exec limits t now (OperationStore.Abandon (g_key g) (g_lease g))).1.

(** The guard is consumed: it is dropped on every path, completed or not. *)
Definition complete t (now : Z) g (outcome : OperationOutcome) : OperationStore.Table * result string unit :=
  match into_stored outcome with
  | Err e => (drop_guard t now g, Err e)
  | Ok stored =>
      match OperationStore.exec limits t now (OperationStore.Complete (g_key g) (g_lease g) stored) with
      | (t, OperationStore.RCompleted true) =>
          (drop_guard t now {| g_key := g_key g; g_lease := g_lease g; g_completed := true |}, Ok tt)
      | (t, OperationStore.RError e) => (drop_guard t now g, Err e)
      | (t, _) => (drop_guard t now g, Err "operation reservation was lost before completion")
      end
  end.

(** What a status request at [now] is told. *)
Definition status t (now : Z) (key : OperationKey) : result string OperationStatus :=
  status_of match (OperationStore.exec limits t now (OperationStore.Status key)).2 with
            | OperationStore.RStatus s => Ok s
            | OperationStore.RError e => Err (StoreFailed e)
            | _ => Err (StoreFailed "unexpected reply")
            end.
End guards.

(** ** Outcomes survive storage *)

(** What the constructors build: a success with a success status and no error, or
    a failed or uncertain outcome with an error and a status that is not one. *)
Definition terminal_outcome (o : OperationOutcome) : Prop :=
  in_range 100 599 (o_status o) = true /\
  ((o_state o = PSucceeded /\ is_success (o_status o) = true /\ o_error o = None) \/
   ((o_state o = PFailed \/ o_state o = PUnknown) /\ is_success (o_status o) = false /\ is_Some (o_error o))).

Lemma from_wire_name_code e : from_wire_name (error_code e) = Some e.
Proof. destruct e; vm_compute; reflexivity. Qed.

Lemma from_wire_name_Some c e : from_wire_name c = Some e -> c = error_code e.
Proof.
  unfold from_wire_name. intros H.
  repeat (case_bool_decide as Hc; [injection H as <-; exact Hc|clear Hc]). discriminate H.
Qed.

(** A wire name is a legal error code of the table. *)
Lemma error_code_ok e :
  in_range 1 MAX_ERROR_CODE_CHARS (chars_count (error_code e)) = true /\
  ~ x00 ∈ error_code e.
Proof. destruct e; (split; [vm_compute; reflexivity|]); apply (bool_decide_unpack _); vm_compute; exact I. Qed.

Lemma in_range_wider o : in_range 100 599 (o_status o) = true -> in_range 100 999 (o_status o) = true.
Proof. unfold in_range. intros H. split_bool. apply andb_true_iff. split; apply Z.leb_le; lia. Qed.

Lemma into_stored_ok o :
  terminal_outcome o ->
  exists s, into_stored o = Ok s /\ OperationStore.outcome_ok s /\ from_stored s = Ok o.
Proof.
  destruct o as [http st err]. intros [Hr Ht]. pose proof (in_range_wider _ Hr) as Hr'.
  unfold into_stored, from_stored, OperationStore.outcome_ok, outcome_validate. cbn in *. unfold is_success in *.
  destruct Ht as [(-> & Hs & ->)|(Hst & Hs & [e ->])].
  - eexists. split; [done|]. cbn. rewrite Hr, Hs, Hr'. cbn. rewrite Hs. done.
  - destruct (error_code_ok e) as [Hlen Hnul].
    destruct Hst as [-> | ->]; eexists; (split; [done|]); cbn; rewrite Hr, Hs, Hr'; cbn;
      rewrite Hs, Hlen, from_wire_name_code; (split; [split; [done|by intros c [= <-]]|done]).
Qed.

Lemma from_stored_lossless s o : from_stored s = Ok o -> into_stored o = Ok s.
Proof.
  unfold from_stored. intros H. apply bind_Ok in H as (http & Hhttp%ok_or_Ok & H).
  destruct (in_range 100 999 (StateModel.status s)); [|done]. injection Hhttp as <-.
  apply bind_Ok in H as (err & Herr & H).
  assert (o = {| o_status := StateModel.status s;
                 o_state := match terminal s with TSucceeded => PSucceeded | TFailed => PFailed | TUnknown => PUnknown end;
                 o_error := err |}) as ->.
  { destruct (_ && _); [done|]. destruct (_ && _); [done|]. by injection H as <-. }
  unfold into_stored. cbn. destruct s as [http t c]; cbn in *.
  assert (c = error_code <$> err) as ->.
  { destruct c as [c|], t; cbn in Herr; try discriminate; try (by injection Herr as <-);
      destruct (from_wire_name c) as [e|] eqn:Ew; cbn in Herr; try discriminate; injection Herr as <-;
      apply from_wire_name_Some in Ew as ->; done. }
  by destruct t.
Qed.

(** Outcomes survive storage: an outcome the handlers can build is accepted by
    the store's validation and read back as the same outcome, so a replayed request
    gets the answer of the original; and nothing the registry reads back was
    changed by the conversion. *)
Lemma outcome_roundtrip o :
  terminal_outcome o ->
  exists s, into_stored o = Ok s /\ outcome_validate s = Ok tt /\ from_stored s = Ok o /\
    forall s' o', from_stored s' = Ok o' -> into_stored o' = Ok s'.
Proof.
  intros Ho. destruct (into_stored_ok o Ho) as (s & Hi & [Hv _] & Hf).
  exists s. split_and!; try done. apply from_stored_lossless.
Qed.

Lemma outcome_roundtrip_witness :
  exists s, into_stored (failure 409 DestinationExists) = Ok s /\ outcome_validate s = Ok tt /\
    from_stored s = Ok (failure 409 DestinationExists) /\
    forall s' o', from_stored s' = Ok o' -> into_stored o' = Ok s'.
Proof.
  apply (outcome_roundtrip (failure 409 DestinationExists)).
  split; [reflexivity|]. right. split_and!; [by left|reflexivity|by eexists].
Defined.

(** ** What becomes of a guard *)

Inductive Finish : Type := Dropped | CompletedWith (o : OperationOutcome).

Definition finish limits (t : OperationStore.Table) (now : Z) (g : OperationGuard) (f : Finish) : OperationStore.Table :=
  match f with Dropped => drop_guard limits t now g | CompletedWith o => (complete limits t now g o).1 end.

(** What a later status request should see: the outcome; nothing, if the guard
    was dropped before the commit started; an uncertain outcome, if after. *)
Definition visible (r : OperationStore.Row) (f : Finish) : OperationStatus :=
  match f with
  | CompletedWith o => SCompleted o
  | Dropped =>
      if (OperationStore.state r =? OPERATION_RESERVED)%Z then SNotFound else SCompleted uncertain
  end.

Definition begins (key : OperationKey) (c : OperationStore.Command) : bool :=
  match c with OperationStore.Begin k _ _ => bool_decide (k = key) | _ => false end.

Section visibility.
Context (limits : Limits) (t : OperationStore.Table) (now : Z) (g : OperationGuard) (r : OperationStore.Row).
Context (Ht : OperationStore.table_ok limits t) (Hnow : is_i64 (now + ttl_ms limits)).
Context (Hrow : t !! g_key g = Some r) (Hlease : OperationStore.lease_token r = g_lease g).
Context (Hactive : OperationStore.active r).

Lemma finished_row_status (o : OperationOutcome) s key (t2 : OperationStore.Table) later :
  into_stored o = Ok s -> from_stored s = Ok o -> outcome_validate s = Ok tt ->
  t2 !! key = Some (OperationStore.set_completed now (now + ttl_ms limits) s r) ->
  blob_length (OperationStore.fingerprint r) = 32%Z -> (later < now + ttl_ms limits)%Z ->
  status limits t2 later key = Ok (SCompleted o).
Proof.
  intros Hi Hf Hv Hk Hlen Hlater. unfold status.
  rewrite (proj2 (OperationStore.completed_replies limits t2 key later now _ s r [] [] Hk Hlater Hv Hlen)).
  cbn. by rewrite Hf.
Qed.

Lemma abandoned_row :
  (OperationStore.exec limits t now (OperationStore.Abandon (g_key g) (g_lease g))).1 !! g_key g =
  if (OperationStore.state r =? OPERATION_RESERVED)%Z then None
  else Some (OperationStore.set_completed now (now + ttl_ms limits) OperationStore.uncertain r).
Proof.
  destruct (OperationStore.abandon_total limits t now Ht Hnow (g_key g) (g_lease g)) as (t' & Ha & _).
  cbn [OperationStore.exec]. rewrite Ha. cbn [OperationStore.commit mbind result_bind fst].
  pose proof (OperationStore.abandon_settles _ _ _ _ _ _ Ha) as Hset.
  destruct (OperationStore.abandon_cases _ _ _ _ _ _ Ha) as [->|(r' & Hr' & _ & Hc)].
  { by destruct (Hset r Hrow Hlease). }
  rewrite Hrow in Hr'. injection Hr' as <-.
  destruct Hc as [[Hs ->]|(Hs & e & -> & ->)]; rewrite Hs.
  - apply lookup_delete_eq.
  - apply lookup_insert_eq.
Qed.

Lemma completed_row s :
  OperationStore.outcome_ok s ->
  exists t', OperationStore.exec limits t now (OperationStore.Complete (g_key g) (g_lease g) s) =
    (t', OperationStore.RCompleted true) /\
    t' !! g_key g = Some (OperationStore.set_completed now (now + ttl_ms limits) s r).
Proof.
  intros Ho. destruct (OperationStore.complete_total limits t now Ht Hnow (g_key g) (g_lease g) s Ho) as (t' & b & Hc & _).
  cbn [OperationStore.exec]. rewrite (proj1 Ho). cbn [mbind result_bind]. rewrite Hc. cbn [OperationStore.commit].
  unfold OperationStore.complete_operation, expiration_time in Hc. inv_result. destruct a0 as [t1 n]. inv_result.
  apply i64_checked_add_Some in Hbind as [-> _]. simplify_eq.
  apply OperationStore.update_owned_cases in Hbind0 as [(_ & _ & Hno)|(r' & Hr' & _ & _ & -> & ->)].
  - exfalso. specialize (Hno r Hrow Hlease). unfold OperationStore.active in Hactive. set_solver.
  - rewrite Hrow in Hr'. injection Hr' as <-. eexists. split; [done|]. apply lookup_insert_eq.
Qed.
End visibility.

Lemma run_absent limits key cs : forall t : OperationStore.Table,
  t !! key = None -> Forall (fun c => begins key c.2 = false) cs ->
  (OperationStore.run limits t cs).1 !! key = None.
Proof.
  induction cs as [|[now c] cs IH]; intros t Hn HF; [done|]. apply Forall_cons in HF as [Hc HF].
  cbn [OperationStore.run]. pose proof (OperationStore.exec_row_step limits t now c key) as Hs.
  destruct (OperationStore.exec limits t now c) as [t1 r1]. cbn [fst snd] in *. rewrite Hn in Hs.
  assert (t1 !! key = None) as Hn1.
  { inversion Hs as [| |fp lease Hb H1| | | | |]; subst; [done|]. cbn in Hc. by rewrite bool_decide_true in Hc. }
  specialize (IH t1 Hn1 HF). by destruct (OperationStore.run limits t1 cs).
Qed.

Lemma absent_status limits (t : OperationStore.Table) key later :
  t !! key = None -> status limits t later key = Ok SNotFound.
Proof.
  intros Hn. unfold status. cbn [OperationStore.exec].
  assert (OperationStore.purge_expired t later !! key = None) as Hp.
  { unfold OperationStore.purge_expired. apply lookup_delete_where_None. by left. }
  unfold OperationStore.operation_status, OperationStore.load_operation. cbv zeta. by rewrite Hp.
Qed.

Lemma uncertain_stored : into_stored uncertain = Ok OperationStore.uncertain /\
  from_stored OperationStore.uncertain = Ok uncertain.
Proof. split; vm_compute; reflexivity. Qed.

(** Every ending of an operation is visible afterwards: for a guard that holds
    its reservation, whatever other commands follow (as long as none begins the
    operation anew and the result has not expired), a status request reports the
    outcome if the guard was completed, that the operation is unknown to the server
    if the guard was dropped before the commit started, and an uncertain outcome if
    it was dropped after. *)
Lemma guard_ending_visible limits (t : OperationStore.Table) now g r f cs later :
  OperationStore.table_ok limits t -> is_i64 (now + ttl_ms limits) ->
  t !! g_key g = Some r -> OperationStore.lease_token r = g_lease g ->
  OperationStore.active r -> g_completed g = false ->
  match f with CompletedWith o => terminal_outcome o | Dropped => True end ->
  Forall (fun c => c.1 < now + ttl_ms limits /\ begins (g_key g) c.2 = false)%Z cs ->
  (later < now + ttl_ms limits)%Z ->
  status limits (OperationStore.run limits (finish limits t now g f) cs).1 later (g_key g) =
  Ok (visible r f).
Proof.
  intros Ht Hnow Hrow Hlease Hact Hopen Hf HF Hlater.
  assert (Forall (fun c => c.1 < now + ttl_ms limits)%Z cs) as Htime by (eapply Forall_impl; [exact HF|naive_solver]).
  assert (Forall (fun c => begins (g_key g) c.2 = false) cs) as Hbeg by (eapply Forall_impl; [exact HF|naive_solver]).
  assert (blob_length (OperationStore.fingerprint r) = 32%Z) as Hlen
    by (destruct (OperationStore.to_rows _ _ Ht _ _ Hrow) as [[] _]; done).
  destruct f as [|o]; cbn [finish visible].
  - unfold drop_guard. rewrite Hopen.
    pose proof (abandoned_row limits t now g r Ht Hnow Hrow Hlease Hact) as Ha.
    destruct (OperationStore.state r =? OPERATION_RESERVED)%Z.
    + by apply absent_status, run_absent.
    + destruct uncertain_stored as [Hi Hfs].
      apply (finished_row_status limits now r uncertain OperationStore.uncertain); try done.
      by eapply OperationStore.run_completed.
  - destruct (into_stored_ok o Hf) as (s & Hi & Ho & Hfs). unfold complete. rewrite Hi.
    destruct (completed_row limits t now g r Ht Hnow Hrow Hlease Hact s Ho) as (t' & -> & Ht').
    cbn [fst drop_guard g_completed].
    apply (finished_row_status limits now r o s); try done; [apply Ho|].
    by eapply OperationStore.run_completed.
Qed.

Definition guard0 : OperationGuard :=
  {| g_key := OperationStore.key0; g_lease := OperationStore.lease0; g_completed := false |}.

Lemma guard_ending_visible_witness :
  status OperationStore.limits0
    (OperationStore.run OperationStore.limits0
       (finish OperationStore.limits0 {[OperationStore.key0 := OperationStore.row0]} 7 guard0
          (CompletedWith (success 204)))
       [(8%Z, OperationStore.Status OperationStore.key0)]).1 9 OperationStore.key0 =
  Ok (visible OperationStore.row0 (CompletedWith (success 204))).
Proof.
  apply (guard_ending_visible OperationStore.limits0 {[OperationStore.key0 := OperationStore.row0]} 7 guard0
           OperationStore.row0 (CompletedWith (success 204)) [(8%Z, OperationStore.Status OperationStore.key0)] 9).
  - apply OperationStore.operations0_ok.
  - split; by vm_compute.
  - apply lookup_singleton_eq.
  - reflexivity.
  - right. reflexivity.
  - reflexivity.
  - split; [reflexivity|]. left. by split_and!.
  - repeat constructor; vm_compute; reflexivity.
  - vm_compute. reflexivity.
Defined.
End OperationRegistry.
