(* ===== verification/UploadStore.v ===== *)
(** * The upload session table

    [src/server/state_store/upload.rs] over the [upload_sessions] table of
    [schema/product.sql]: the durable progress of resumable uploads.  A session
    binds an upload id to a target, a staging file and a length; only its offset,
    state, stage identity and target revision move, and only forwards. *)

From S2P Require Import Prelude Paths Sql StateModel.

Module UploadStore.

Record Row : Type := {
  r_target_path : bytes;
  r_stage_path : bytes;
  r_upload_length : Z;
  r_durable_offset : Z;
  r_state : Z;
  stage_device_be : option bytes;
  stage_inode_be : option bytes;
  r_target_revision : option bytes;
  updated_at_ms : Z;
  expires_at_ms : Z }.

Abbreviation Table := (gmap UploadSessionKey Row).

(** The constraints of [CREATE TABLE upload_sessions]. *)
Definition check (k : UploadSessionKey) (r : Row) : bool :=
  (blob_length (owner k) =? 32)%Z && (blob_length (id k) =? 16)%Z
  && in_range 1 65536 (blob_length (r_target_path r))
  && in_range 1 65536 (blob_length (r_stage_path r))
  && (0 <=? r_upload_length r)%Z && (0 <=? r_durable_offset r)%Z
  && bool_decide (r_state r ∈ [0; 1; 2; 3; 4; 5]%Z)
  && passes (or3 (is_null (stage_device_be r))
       ((fun n => n =? 8)%Z <$> (blob_length <$> stage_device_be r)))
  && passes (or3 (is_null (stage_inode_be r))
       ((fun n => n =? 8)%Z <$> (blob_length <$> stage_inode_be r)))
  && passes (or3 (is_null (r_target_revision r))
       ((fun n => n =? 32)%Z <$> (blob_length <$> r_target_revision r)))
  && negb (bool_decide (r_target_path r = r_stage_path r))
  && (r_durable_offset r <=? r_upload_length r)%Z
  && bool_decide ((stage_device_be r = None) <-> (stage_inode_be r = None))
  && (negb (r_state r =? 2)%Z || (r_durable_offset r =? r_upload_length r)%Z)
  && (negb (r_state r =? 1)%Z || (r_durable_offset r =? r_upload_length r)%Z)
  && (negb (r_state r =? 5)%Z || (r_durable_offset r =? r_upload_length r)%Z).

(** ** Decoding *)

(** [<\[u8; n\]>::try_from] of a vector. *)
Definition fixed (n : Z) (b : bytes) (e : string) : result string bytes :=
  if (blob_length b =? n)%Z then Ok b else Err e.

Definition decode_identity (r : Row) : result string (option StoredFileIdentity) :=
  match stage_device_be r, stage_inode_be r with
  | None, None => Ok None
  | Some device, Some inode =>
      d ← fixed 8 device "Upload stage device has an invalid length";
      i ← fixed 8 inode "Upload stage inode has an invalid length";
      Ok (Some {| id_device := be_val d; id_inode := be_val i |})
  | _, _ => Err "Upload stage identity is incomplete"
  end.

Definition decode_upload_row (kr : UploadSessionKey * Row) : result string StoredUploadSession :=
  let '(k, r) := kr in
  identity ← decode_identity r;
  ow ← fixed 32 (owner k) "Upload owner digest has an invalid length";
  i ← fixed 16 (id k) "Upload id has an invalid length";
  len ← ok_or (u64_try_from (r_upload_length r)) "Upload length in the state database is negative";
  off ← ok_or (u64_try_from (r_durable_offset r)) "Upload offset in the state database is negative";
  st ← upload_state_from_database (r_state r);
  rev ← match r_target_revision r with
        | None => Ok None
        | Some revision =>
            rv ← fixed 32 revision "Upload target revision has an invalid length"; Ok (Some rv)
        end;
  let s := {| up_key := {| owner := ow; id := i |};
              target_path := r_target_path r; stage_path := r_stage_path r;
              upload_length := len; durable_offset := off; up_state := st;
              stage_identity := identity; target_revision := rev |} in
  _ ← session_validate s;
  Ok s.

Definition decode_expired_upload_row (kr : UploadSessionKey * Row)
    : result string ExpiredUploadSession :=
  s ← decode_upload_row kr; Ok {| session := s; expires_at := expires_at_ms kr.2 |}.

Definition load_upload_session (t : Table) (key : UploadSessionKey)
    : result string (option StoredUploadSession) :=
  match t !! key with
  | None => Ok None
  | Some r => s ← decode_upload_row (key, r); Ok (Some s)
  end.

Definition load_expired_upload_session (t : Table) (key : UploadSessionKey)
    : result string (option ExpiredUploadSession) :=
  match t !! key with
  | None => Ok None
  | Some r => s ← decode_expired_upload_row (key, r); Ok (Some s)
  end.

(** ** Paged reads *)

Definition by_key (a b : UploadSessionKey * Row) : comparison := key_cmp a.1 b.1.

(** [owner_digest > ?1 OR (owner_digest = ?1 AND upload_id > ?2)] *)
Definition after_key (after : option UploadSessionKey) (k : UploadSessionKey) : bool :=
  match after with
  | None => true
  | Some a => match bytes_cmp (owner k) (owner a) with
              | Gt => true
              | Eq => match bytes_cmp (id k) (id a) with Gt => true | _ => false end
              | Lt => false
              end
  end.

Definition upload_sessions_page (limits : Limits) (t : Table) (after : option UploadSessionKey)
    (limit : Z) : result string (list StoredUploadSession) :=
  _ ← ensure (0 <? limit)%Z "Upload startup page limit must be positive";
  _ ← match after with
      | None => ensure (count_where (fun _ _ => true) t <=? upload_capacity limits)%Z
                  "Upload session table exceeds its configured capacity"
      | Some _ => Ok tt
      end;
  collect (decode_upload_row <$> select_where (fun k _ => after_key after k) by_key limit t).

Definition expired_upload_sessions (t : Table) (now : Z) (after : option UploadSessionKey)
    (limit : Z) : result string (list ExpiredUploadSession) :=
  collect (decode_expired_upload_row <$>
    select_where (fun k r => (expires_at_ms r <=? now)%Z
                    && negb (r_state r =? UPLOAD_COMMIT_STARTED)%Z && after_key after k)
      by_key limit t).

Definition expired_upload_session_matches (t : Table) (now : Z) (expected : ExpiredUploadSession)
    : result string bool :=
  if (now <? expires_at expected)%Z then Ok false
  else
    loaded ← load_expired_upload_session t (up_key (session expected));
    Ok match loaded with Some e => expired_eqb e expected | None => false end.

(** ** Updates *)

Definition identity_conflict (a b : option StoredFileIdentity) : bool :=
  match a, b with
  | Some x, Some y => negb (bool_decide (x = y))
  | _, _ => false
  end.

Definition transition_matrix (existing proposed : StoredUploadState) : bool :=
  match existing, proposed with
  | Running, (CommitStarted | Rejected | Unknown)
  | CommitStarted, (Committed | Rejected | Unknown | AwaitingConfirmation)
  | AwaitingConfirmation, (CommitStarted | Rejected) => true
  | _, _ => false
  end.

Definition merge_upload_session (existing proposed : StoredUploadSession)
    : option StoredUploadSession :=
  if negb (bool_decide (up_key existing = up_key proposed))
     || negb (path_eqb (target_path existing) (target_path proposed))
     || negb (path_eqb (stage_path existing) (stage_path proposed))
     || negb (upload_length existing =? upload_length proposed)%Z
     || (durable_offset proposed <? durable_offset existing)%Z
     || identity_conflict (stage_identity existing) (stage_identity proposed)
     || (negb (bool_decide (stage_identity existing = None))
         && bool_decide (stage_identity proposed = None))
  then None
  else
    let transition_allowed :=
      if bool_decide (up_state existing = up_state proposed) then
        negb (is_terminal (up_state existing))
        || ((durable_offset existing =? durable_offset proposed)%Z
            && bool_decide (stage_identity existing = stage_identity proposed))
      else transition_matrix (up_state existing) (up_state proposed) in
    let revision_change_allowed :=
      bool_decide (target_revision existing = target_revision proposed)
      || (bool_decide (up_state existing = up_state proposed)
          && negb (is_terminal (up_state existing)))
      || bool_decide (up_state existing = AwaitingConfirmation) in
    if negb transition_allowed || negb revision_change_allowed then None
    else Some proposed.

(** The rows [save_upload_session] drops before it looks at anything. *)
Definition droppable (now : Z) (_ : UploadSessionKey) (r : Row) : bool :=
  (expires_at_ms r <=? now)%Z
  && (bool_decide (r_state r ∈ [UPLOAD_COMMITTED; UPLOAD_UNKNOWN])
      || ((r_state r =? UPLOAD_REJECTED)%Z
          && bool_decide (stage_device_be r = None) && bool_decide (stage_inode_be r = None))).

Definition conflicting_stage (t : Table) (proposed : StoredUploadSession) : bool :=
  (0 <? count_where (fun k r =>
     bool_decide (r_stage_path r = stage_path proposed)
     && bool_decide (r_state r ∈ [UPLOAD_RUNNING; UPLOAD_COMMIT_STARTED; UPLOAD_AWAITING_CONFIRMATION])
     && negb (bool_decide (owner k = owner (up_key proposed))
              && bool_decide (id k = id (up_key proposed)))) t)%Z.

Definition encode_row (s : StoredUploadSession) (len off now expires : Z) : Row :=
  {| r_target_path := target_path s; r_stage_path := stage_path s;
     r_upload_length := len; r_durable_offset := off;
     r_state := upload_state_to_database (up_state s);
     stage_device_be := (fun i => u64_be (id_device i)) <$> stage_identity s;
     stage_inode_be := (fun i => u64_be (id_inode i)) <$> stage_identity s;
     r_target_revision := target_revision s; updated_at_ms := now; expires_at_ms := expires |}.

(** [ON CONFLICT .. DO UPDATE SET]: the paths and the length stay as they are. *)
Definition update_from (excluded old : Row) : Row :=
  {| r_target_path := r_target_path old; r_stage_path := r_stage_path old;
     r_upload_length := r_upload_length old; r_durable_offset := r_durable_offset excluded;
     r_state := r_state excluded; stage_device_be := stage_device_be excluded;
     stage_inode_be := stage_inode_be excluded; r_target_revision := r_target_revision excluded;
     updated_at_ms := updated_at_ms excluded; expires_at_ms := expires_at_ms excluded |}.

Definition write_session (t : Table) (s : StoredUploadSession) (now expires : Z)
    (answer : StoreUploadSession) : result string (Table * StoreUploadSession) :=
  len ← ok_or (i64_try_from (upload_length s)) "out of range integral type conversion attempted";
  off ← ok_or (i64_try_from (durable_offset s)) "out of range integral type conversion attempted";
  t ← upsert_row check (up_key s) (encode_row s len off now expires)
        (update_from (encode_row s len off now expires)) t;
  Ok (t, answer).

Definition save_upload_session (limits : Limits) (t : Table) (now : Z)
    (proposed : StoredUploadSession) (ttl : Z) : result string (Table * StoreUploadSession) :=
  expires_at ← expiration_time now ttl;
  let t := (delete_where (droppable now) t).1 in
  existing ← load_upload_session t (up_key proposed);
  if negb (is_terminal (up_state proposed)) && conflicting_stage t proposed
  then Ok (t, UploadConflict)
  else
    match existing with
    | None =>
        let global_count := count_where (fun _ _ => true) t in
        let owner_count :=
          count_where (fun k _ => bool_decide (owner k = owner (up_key proposed))) t in
        if ((upload_capacity limits <=? global_count)
            || (upload_per_owner limits <=? owner_count))%Z
        then Ok (t, UploadFull)
        else write_session t proposed now expires_at UploadInserted
    | Some existing =>
        match merge_upload_session existing proposed with
        | Some stored =>
            if session_eqb stored existing then write_session t stored now expires_at UploadUnchanged
            else write_session t stored now expires_at UploadUpdated
        | None => Ok (t, UploadConflict)
        end
    end.

Definition set_rejected (now expires : Z) (r : Row) : Row :=
  {| r_target_path := r_target_path r; r_stage_path := r_stage_path r;
     r_upload_length := r_upload_length r; r_durable_offset := r_durable_offset r;
     r_state := UPLOAD_REJECTED; stage_device_be := stage_device_be r;
     stage_inode_be := stage_inode_be r; r_target_revision := r_target_revision r;
     updated_at_ms := now; expires_at_ms := expires |}.

Definition session_rejected (s : StoredUploadSession) : StoredUploadSession :=
  {| up_key := up_key s; target_path := target_path s; stage_path := stage_path s;
     upload_length := upload_length s; durable_offset := durable_offset s; up_state := Rejected;
     stage_identity := stage_identity s; target_revision := target_revision s |}.

(** The tests made first outside and again inside the transaction. *)
Definition reject_precheck (t : Table) (key : UploadSessionKey) (target stage : bytes)
    : result string (RejectUploadSession + StoredUploadSession) :=
  loaded ← load_upload_session t key;
  match loaded with
  | None => Ok (inl RejectNotFound)
  | Some s =>
      if negb (path_eqb (target_path s) target) || negb (path_eqb (stage_path s) stage)
      then Ok (inl RejectBindingConflict)
      else if bool_decide (up_state s = Rejected) then Ok (inl (RejectRejected s))
      else if negb (bool_decide (up_state s = AwaitingConfirmation))
      then Ok (inl (RejectStateConflict s))
      else Ok (inr s)
  end.

Definition reject_upload_session (t : Table) (now : Z) (key : UploadSessionKey)
    (target stage : bytes) (ttl : Z) : result string (Table * RejectUploadSession) :=
  first ← reject_precheck t key target stage;
  match first with
  | inl answer => Ok (t, answer)
  | inr _ =>
      expires_at ← expiration_time now ttl;
      second ← reject_precheck t key target stage;
      match second with
      | inl answer => Ok (t, answer)
      | inr s =>
          '(t, updated) ← update_where check
             (fun k r => bool_decide (k = key) && (r_state r =? UPLOAD_AWAITING_CONFIRMATION)%Z)
             (set_rejected now expires_at) t;
          _ ← ensure (updated =? 1)%Z "Upload rejection lost its locked session row";
          Ok (t, RejectRejected (session_rejected s))
      end
  end.

Definition remove_upload_session_if_matches (t : Table) (expected : StoredUploadSession)
    : result string (Table * bool) :=
  loaded ← load_upload_session t (up_key expected);
  if negb match loaded with Some s => session_eqb s expected | None => false end
  then Ok (t, false)
  else
    let '(t, removed) := delete_where (fun k _ => bool_decide (k = up_key expected)) t in
    _ ← ensure (removed =? 1)%Z "Upload removal lost its locked session row";
    Ok (t, true).

Definition remove_expired_upload_session_if_matches (t : Table) (now : Z)
    (expected : ExpiredUploadSession) : result string (Table * bool) :=
  if (now <? expires_at expected)%Z then Ok (t, false)
  else
    loaded ← load_expired_upload_session t (up_key (session expected));
    if negb match loaded with Some e => expired_eqb e expected | None => false end
    then Ok (t, false)
    else
      let '(t, removed) := delete_where (fun k r =>
        bool_decide (k = up_key (session expected))
        && (expires_at_ms r =? expires_at expected)%Z && (expires_at_ms r <=? now)%Z) t in
      Ok (t, (removed =? 1)%Z).

(** ** Startup

    [UploadRecordStore::validate_stage_layouts] of [src/server/upload/record.rs]
    reads the whole table in pages of 16 and validates every session;
    [validate_stage_layout], which looks at the file system, is a parameter.
    [None] is a loop that has not finished within the fuel. *)
Fixpoint for_each {A} (f : A -> result string unit) (l : list A) : result string unit :=
  match l with
  | [] => Ok tt
  | a :: l => _ ← f a; for_each f l
  end.

Definition STARTUP_RECONCILIATION_PAGE_SIZE : Z := 16.

Fixpoint validate_stage_layouts (validate_stage_layout : StoredUploadSession -> result string unit)
    (limits : Limits) (t : Table) (fuel : nat) (after : option UploadSessionKey)
    : option (result string unit) :=
  match fuel with
  | O => None
  | S fuel =>
      match upload_sessions_page limits t after STARTUP_RECONCILIATION_PAGE_SIZE with
      | Err e => Some (Err e)
      | Ok sessions =>
          match last sessions with
          | None => Some (Ok tt)
          | Some s =>
              match for_each validate_stage_layout sessions with
              | Err e => Some (Err e)
              | Ok _ =>
                  validate_stage_layouts validate_stage_layout limits t fuel (Some (up_key s))
              end
          end
      end
  end.

(** The [upload_sessions] statements of [recover_database]. *)
Definition set_unknown (now expires : Z) (r : Row) : Row :=
  {| r_target_path := r_target_path r; r_stage_path := r_stage_path r;
     r_upload_length := r_upload_length r; r_durable_offset := r_durable_offset r;
     r_state := UPLOAD_UNKNOWN; stage_device_be := stage_device_be r;
     stage_inode_be := stage_inode_be r; r_target_revision := r_target_revision r;
     updated_at_ms := now; expires_at_ms := expires |}.
Definition set_expiry (expires : Z) (r : Row) : Row :=
  {| r_target_path := r_target_path r; r_stage_path := r_stage_path r;
     r_upload_length := r_upload_length r; r_durable_offset := r_durable_offset r;
     r_state := r_state r; stage_device_be := stage_device_be r;
     stage_inode_be := stage_inode_be r; r_target_revision := r_target_revision r;
     updated_at_ms := updated_at_ms r; expires_at_ms := expires |}.

Definition recover_uploads (t : Table) (now upload_expires_at : Z) : result string Table :=
  '(t, _) ← update_where check (fun _ r => (r_state r =? UPLOAD_COMMIT_STARTED)%Z)
              (set_unknown now upload_expires_at) t;
  '(t, _) ← update_where check (fun _ r => (upload_expires_at <? expires_at_ms r)%Z)
              (set_expiry upload_expires_at) t;
  Ok t.
(** ** Rows and sessions

    A row that decodes is the encoding of exactly one valid session, so the table
    is a faithful image of a map from keys to sessions. *)

Definition row_of (s : StoredUploadSession) (now expires : Z) : Row :=
  encode_row s (upload_length s) (durable_offset s) now expires.

(** The ranges the Rust types give the fields, and [validate]. *)
Record encodable (s : StoredUploadSession) : Prop := {
  en_valid : session_validate s = Ok tt;
  en_key : key_wf (up_key s) = true;
  en_unsigned : (0 <= upload_length s /\ 0 <= durable_offset s)%Z;
  en_identity : forall i, stage_identity s = Some i -> is_u64 (id_device i) /\ is_u64 (id_inode i);
  en_revision : forall r, target_revision s = Some r -> blob_length r = 32%Z }.

Lemma blob_length_u64_be z : blob_length (u64_be z) = 8%Z.
Proof. unfold blob_length, u64_be. by rewrite length_be_bytes. Qed.

Lemma fixed_Ok n b e b' : fixed n b e = Ok b' <-> b' = b /\ blob_length b = n.
Proof. unfold fixed. destruct (Z.eqb_spec (blob_length b) n); split; [intros [= <-]|intros [-> _]|..]; naive_solver. Qed.

Lemma key_wf_lengths k : key_wf k = true <-> blob_length (owner k) = 32%Z /\ blob_length (id k) = 16%Z.
Proof. unfold key_wf, blob_length. rewrite andb_true_iff, !Z.eqb_eq. done. Qed.

Lemma state_roundtrip st : upload_state_from_database (upload_state_to_database st) = Ok st.
Proof. by destruct st. Qed.

Lemma state_from_database_Ok z st :
  upload_state_from_database z = Ok st -> z = upload_state_to_database st.
Proof.
  unfold upload_state_from_database. intros H.
  repeat (case_match; [split_bool; inv_result; by subst|]). done.
Qed.

Lemma validate_path_bounds path d :
  validate_stored_path path d = Ok tt -> (1 <= blob_length path <= 65536)%Z /\ x00 ∉ path.
Proof.
  unfold validate_stored_path, blob_length. intros H. inv_result. split_bool.
  split; [|done]. destruct path; [done|]. cbn in *. lia.
Qed.

Lemma session_validate_Ok s :
  session_validate s = Ok tt <->
  validate_stored_path (target_path s) "Upload target" = Ok tt /\
  validate_stored_path (stage_path s) "Upload stage" = Ok tt /\
  path_eqb (target_path s) (stage_path s) = false /\
  (durable_offset s <= upload_length s <= I64_MAX)%Z /\
  (up_state s ∈ [CommitStarted; Committed; AwaitingConfirmation] -> durable_offset s = upload_length s).
Proof.
  unfold session_validate. split.
  - intros H. inv_result. split_bool. destruct a, a0. split_and!; try done.
    intros Hin. destruct (up_state s); inv_result; split_bool; try done; set_solver.
  - intros (-> & -> & Hp & [Ho Hl] & Hst). cbn. rewrite Hp. cbn.
    rewrite (proj2 (Z.leb_le _ _) Ho), (proj2 (Z.leb_le _ _) Hl). cbn.
    rewrite (proj2 (Z.leb_le (durable_offset s) I64_MAX)) by lia. cbn.
    destruct (up_state s); try done; rewrite Hst by set_solver; by rewrite Z.eqb_refl.
Qed.

Lemma decode_identity_row_of s now e :
  encodable s -> decode_identity (row_of s now e) = Ok (stage_identity s).
Proof.
  intros He. unfold decode_identity. cbn. destruct (stage_identity s) as [i|] eqn:Ei; [|done]. cbn.
  destruct (en_identity s He i Ei) as [Hd Hi].
  rewrite !(proj2 (fixed_Ok _ _ _ _) (conj eq_refl (blob_length_u64_be _))). cbn.
  rewrite !be_val_u64 by done. by destruct i.
Qed.

Lemma decode_row_of s now e : encodable s -> decode_upload_row (up_key s, row_of s now e) = Ok s.
Proof.
  intros He. pose proof He as [Hv Hk [Hl Ho] _ Hr]. apply key_wf_lengths in Hk as [Hk1 Hk2].
  unfold decode_upload_row. rewrite decode_identity_row_of by done. cbn.
  rewrite !(proj2 (fixed_Ok _ _ _ _)) by done. cbn.
  rewrite !(proj2 (u64_try_from_Some _ _)) by done. cbn. rewrite state_roundtrip. cbn.
  assert ((match target_revision s with
           | Some revision =>
               rv ← fixed 32 revision "Upload target revision has an invalid length"; Ok (Some rv)
           | None => Ok None
           end) = Ok (target_revision s)) as ->.
  { destruct (target_revision s) as [r|]; [|done]. by rewrite (proj2 (fixed_Ok _ _ _ r)) by auto. }
  cbn. destruct s as [[ow i] tp sp len off st idn rev]; cbn in *. by rewrite Hv.
Qed.

Lemma check_row_of s now e : encodable s -> check (up_key s) (row_of s now e) = true.
Proof.
  intros [Hv Hk [Hl Ho] _ Hr]. apply key_wf_lengths in Hk as [Hk1 Hk2].
  apply session_validate_Ok in Hv as (Ht%validate_path_bounds & Hs%validate_path_bounds & Hp & Hb & Hst).
  unfold check, in_range. cbn [row_of encode_row r_target_path r_stage_path r_upload_length
    r_durable_offset r_state stage_device_be stage_inode_be r_target_revision].
  assert (target_path s <> stage_path s) as Hne.
  { intros E. rewrite E in Hp. unfold path_eqb in Hp. by split_bool. }
  rewrite Hk1, Hk2. repeat (apply andb_true_iff; split); try (apply Z.leb_le; lia); try done.
  - by destruct (up_state s).
  - destruct (stage_identity s); [|done]. cbn. by rewrite blob_length_u64_be.
  - destruct (stage_identity s); [|done]. cbn. by rewrite blob_length_u64_be.
  - destruct (target_revision s) as [r|]; [|done]. cbn. by rewrite (Hr r).
  - by rewrite bool_decide_false.
  - apply bool_decide_eq_true. by destruct (stage_identity s).
  - destruct (up_state s); try done; cbn; apply Z.eqb_eq, Hst; set_solver.
  - destruct (up_state s); try done; cbn; apply Z.eqb_eq, Hst; set_solver.
  - destruct (up_state s); try done; cbn; apply Z.eqb_eq, Hst; set_solver.
Qed.
Lemma be_val_is_u64 b : blob_length b = 8%Z -> is_u64 (be_val b) /\ u64_be (be_val b) = b.
Proof.
  unfold blob_length. intros Hl. split.
  - pose proof (be_val_bounds b) as Hb. rewrite Hl in Hb. unfold is_u64, U64_MAX.
    change (256 ^ 8)%Z with 18446744073709551616%Z in Hb. lia.
  - unfold u64_be. replace 8%nat with (length b) by lia. apply be_bytes_val.
Qed.

Lemma decode_identity_Ok r idn :
  decode_identity r = Ok idn ->
  stage_device_be r = (fun i => u64_be (id_device i)) <$> idn /\
  stage_inode_be r = (fun i => u64_be (id_inode i)) <$> idn /\
  (forall i, idn = Some i -> is_u64 (id_device i) /\ is_u64 (id_inode i)).
Proof.
  unfold decode_identity. intros H.
  destruct (stage_device_be r) as [d|], (stage_inode_be r) as [i|]; try done; inv_result.
  - subst. apply fixed_Ok in Hbind as [-> [Hd Ed]%be_val_is_u64].
    apply fixed_Ok in Hbind0 as [-> [Hi Ei]%be_val_is_u64]. cbn. rewrite Ed, Ei.
    split_and!; [done..|]. intros ? [= <-]. done.
  - subst. by split_and!.
Qed.

Lemma decode_inv k r s :
  decode_upload_row (k, r) = Ok s ->
  up_key s = k /\ encodable s /\ r = row_of s (updated_at_ms r) (expires_at_ms r).
Proof.
  unfold decode_upload_row. intros H. inv_result. destruct a6.
  apply decode_identity_Ok in Hbind as (Hd & Hi & Hu).
  apply fixed_Ok in Hbind0 as [-> Hk1]. apply fixed_Ok in Hbind1 as [-> Hk2].
  apply u64_try_from_Some in Hbind2 as [-> Hl]. apply u64_try_from_Some in Hbind3 as [-> Ho].
  apply state_from_database_Ok in Hbind4 as Hst.
  assert (a5 = r_target_revision r /\ forall x, a5 = Some x -> blob_length x = 32%Z) as [-> Hrev].
  { destruct (r_target_revision r) as [x|]; inv_result; subst; [|done].
    apply fixed_Ok in Hbind as [-> Hx]. split; [done|]. intros ? [= <-]. done. }
  subst s. split; [by destruct k|]. split.
  - split; cbn; [done| |done|done|done]. apply key_wf_lengths. done.
  - destruct r; cbn in *. by subst.
Qed.

(** ** The command stream *)

Inductive Command : Type :=
| Save (s : StoredUploadSession) (ttl : Z)
| Reject (key : UploadSessionKey) (target stage : bytes) (ttl : Z)
| Remove (expected : StoredUploadSession)
| RemoveExpired (expected : ExpiredUploadSession).

Inductive Reply : Type :=
| RSaved (r : StoreUploadSession) | RReject (r : RejectUploadSession)
| RRemoved (b : bool) | RError (e : string).

Definition commit {A} (t : Table) (r : result string (Table * A)) (f : A -> Reply) : Table * Reply :=
  match r with
  | Ok (t', a) => (t', f a)
  | Err e => (t, RError e)
  end.

(** The client side of the store validates what it sends. *)
Definition exec (limits : Limits) (t : Table) (now : Z) (c : Command) : Table * Reply :=
  match c with
  | Save s ttl =>
      commit t (_ ← session_validate s; save_upload_session limits t now s ttl) RSaved
  | Reject key target stage ttl =>
      commit t (_ ← validate_stored_path target "Upload target";
                _ ← validate_stored_path stage "Upload stage";
                reject_upload_session t now key target stage ttl) RReject
  | Remove expected =>
      commit t (_ ← session_validate expected; remove_upload_session_if_matches t expected) RRemoved
  | RemoveExpired expected =>
      commit t (_ ← session_validate (session expected);
                remove_expired_upload_session_if_matches t now expected) RRemoved
  end.

Fixpoint run (limits : Limits) (t : Table) (cs : list (Z * Command)) : Table * list Reply :=
  match cs with
  | [] => (t, [])
  | (now, c) :: cs =>
      let '(t, r) := exec limits t now c in
      let '(t, rs) := run limits t cs in (t, r :: rs)
  end.

(** ** What a step may do to a session *)

Definition allowed (a b : StoredUploadState) : Prop := transition_matrix a b = true.

(** The binding of a session never changes, its offset never moves back, a known
    staging file stays, the state follows the transition matrix, and a terminal
    session is final. *)
Record progress (s s' : StoredUploadSession) : Prop := {
  pr_key : up_key s' = up_key s;
  pr_target : target_path s' = target_path s;
  pr_stage : stage_path s' = stage_path s;
  pr_length : upload_length s' = upload_length s;
  pr_offset : (durable_offset s <= durable_offset s')%Z;
  pr_identity : stage_identity s <> None -> stage_identity s' = stage_identity s;
  pr_state : rtc allowed (up_state s) (up_state s');
  pr_terminal : is_terminal (up_state s) = true -> s' = s }.

#[global] Instance progress_preorder : PreOrder progress.
Proof.
  split.
  - intros s. by split.
  - intros s s1 s2 [] []. split; try congruence; try lia.
    + intros Hn. rewrite pr_identity1; [auto|]. rewrite pr_identity0; auto.
    + by etrans.
    + intros Ht. specialize (pr_terminal0 Ht). subst s1. auto.
Qed.

(** The proposed session as it is stored: an existing row keeps its paths. *)
Definition with_paths (old s : StoredUploadSession) : StoredUploadSession :=
  {| up_key := up_key s; target_path := target_path old; stage_path := stage_path old;
     upload_length := upload_length old; durable_offset := durable_offset s;
     up_state := up_state s; stage_identity := stage_identity s;
     target_revision := target_revision s |}.

Lemma merge_Some old s m :
  merge_upload_session old s = Some m ->
  m = s /\ up_key old = up_key s /\ path_eqb (target_path old) (target_path s) = true /\
  path_eqb (stage_path old) (stage_path s) = true /\ upload_length old = upload_length s /\
  progress old (with_paths old s).
Proof.
  unfold merge_upload_session. intros H.
  destruct (_ || _) eqn:E1 in H; [done|]. split_bool.
  destruct (negb _ || negb _) eqn:E2 in H; [done|]. split_bool. injection H as <-.
  repeat (split; [done|]).
  match goal with
  | H : (if bool_decide (up_state old = up_state s) then _ else _) = true |- _ => rename H into Htr
  end.
  assert (stage_identity old <> None -> stage_identity s = stage_identity old) as Hid.
  { unfold identity_conflict in *.
    destruct (stage_identity old), (stage_identity s); try done; cbn in *; split_bool; congruence. }
  split; cbn; try done; try lia.
  - destruct (decide (up_state old = up_state s)) as [Es|Es]; [rewrite Es; apply rtc_refl|].
    rewrite (bool_decide_false _ Es) in Htr. by apply rtc_once.
  - intros Ht. destruct (decide (up_state old = up_state s)) as [Es|Es].
    + rewrite (bool_decide_true _ Es), Ht in Htr. cbn in Htr. split_bool.
      match goal with H : _ || bool_decide (up_state old = AwaitingConfirmation) = true |- _ =>
        rewrite Ht, andb_false_r, orb_false_r in H; apply orb_true_iff in H as [H|H] end;
        split_bool; [|by match goal with H : up_state old = AwaitingConfirmation |- _ => rewrite H in Ht end].
      destruct old, s. cbn in *. unfold with_paths. cbn. congruence.
    + rewrite (bool_decide_false _ Es) in Htr. by destruct (up_state old), (up_state s).
Qed.
Lemma with_paths_encodable old s :
  encodable old -> encodable s -> upload_length old = upload_length s ->
  encodable (with_paths old s).
Proof.
  intros [Hv _ [Hl _] _ _] [Hv' Hk [_ Ho] Hi Hr] Hlen. split; cbn; try done.
  apply session_validate_Ok in Hv as (Ht & Hs & Hp & _ & _).
  apply session_validate_Ok in Hv' as (_ & _ & _ & Hb & Hst).
  apply session_validate_Ok. cbn. rewrite Hlen. done.
Qed.

(** ** One step of [save_upload_session] *)

Definition decodes (k : UploadSessionKey) (r : Row) : Prop :=
  exists s, decode_upload_row (k, r) = Ok s.

Abbreviation kept t now := ((delete_where (droppable now) t).1).

Lemma load_Some t key r s :
  t !! key = Some r -> decode_upload_row (key, r) = Ok s -> load_upload_session t key = Ok (Some s).
Proof. intros Hr Hd. unfold load_upload_session. by rewrite Hr, Hd. Qed.

Lemma load_None t key : t !! key = None -> load_upload_session t key = Ok None.
Proof. intros Hr. unfold load_upload_session. by rewrite Hr. Qed.

Lemma load_Ok t key s :
  load_upload_session t key = Ok (Some s) <->
  exists r, t !! key = Some r /\ decode_upload_row (key, r) = Ok s.
Proof.
  unfold load_upload_session. split.
  - destruct (t !! key) as [r|]; [|done]. intros H. inv_result. simplify_eq. eauto.
  - intros (r & -> & ->). done.
Qed.

Lemma write_insert t s now e a :
  encodable s -> t !! up_key s = None ->
  write_session t s now e a = Ok (<[up_key s := row_of s now e]> t, a).
Proof.
  intros He Hn. pose proof (en_valid s He) as (_ & _ & _ & Hb & _)%session_validate_Ok.
  unfold write_session. rewrite !i64_try_from_id by lia.
  cbn [ok_or mbind result_bind].
  unfold upsert_row. rewrite Hn. pose proof (check_row_of s now e He) as Hc.
  unfold row_of in *. by rewrite Hc.
Qed.

Lemma write_update t r old s now e a :
  encodable s -> t !! up_key s = Some r -> decode_upload_row (up_key s, r) = Ok old ->
  upload_length old = upload_length s ->
  write_session t s now e a = Ok (<[up_key s := row_of (with_paths old s) now e]> t, a).
Proof.
  intros He Hr (Hk & Ho & Erow)%decode_inv Hlen.
  pose proof (en_valid s He) as (_ & _ & _ & Hb & _)%session_validate_Ok.
  unfold write_session. rewrite !i64_try_from_id by lia.
  cbn [ok_or mbind result_bind].
  unfold upsert_row. rewrite Hr.
  assert (update_from (encode_row s (upload_length s) (durable_offset s) now e) r
          = row_of (with_paths old s) now e) as ->.
  { rewrite Erow. unfold update_from, row_of, encode_row. done. }
  change (up_key s) with (up_key (with_paths old s)).
  by rewrite check_row_of by (by apply with_paths_encodable).
Qed.

Definition stage_free (t : Table) (s : StoredUploadSession) : Prop :=
  is_terminal (up_state s) = false -> conflicting_stage t s = false.

Variant saved (limits : Limits) (t : Table) (now : Z) (s : StoredUploadSession) (e : Z)
    : Table -> StoreUploadSession -> Prop :=
| sv_conflict : saved limits t now s e t UploadConflict
| sv_full : t !! up_key s = None -> saved limits t now s e t UploadFull
| sv_inserted :
    t !! up_key s = None -> stage_free t s ->
    (count_where (fun _ _ => true) t < upload_capacity limits)%Z ->
    (count_where (fun k _ => bool_decide (owner k = owner (up_key s))) t
       < upload_per_owner limits)%Z ->
    saved limits t now s e (<[up_key s := row_of s now e]> t) UploadInserted
| sv_merged r old :
    t !! up_key s = Some r -> decode_upload_row (up_key s, r) = Ok old -> stage_free t s ->
    merge_upload_session old s = Some s ->
    saved limits t now s e (<[up_key s := row_of (with_paths old s) now e]> t)
      (if session_eqb s old then UploadUnchanged else UploadUpdated).

Lemma save_saved limits t now s ttl :
  map_Forall decodes t -> encodable s -> is_i64 (now + ttl) ->
  exists t' a, save_upload_session limits t now s ttl = Ok (t', a) /\
    saved limits (kept t now) now s (now + ttl) t' a.
Proof.
  intros Hd He Hi. unfold save_upload_session, expiration_time.
  rewrite (proj2 (i64_checked_add_Some _ _ _)) by done. cbn [ok_or mbind result_bind]. cbv zeta.
  assert (forall k r, kept t now !! k = Some r -> decodes k r) as Hk.
  { intros k r [Hr _]%lookup_delete_where. by apply Hd. }
  set (t0 := kept t now) in *. clearbody t0.
  assert (negb (is_terminal (up_state s)) && conflicting_stage t0 s = false -> stage_free t0 s) as Hfree.
  { unfold stage_free. intros H Ht. by rewrite Ht in H. }
  destruct (t0 !! up_key s) as [r|] eqn:Er.
  - destruct (Hk _ _ Er) as [old Ho]. rewrite (load_Some _ _ _ _ Er Ho). cbn [mbind result_bind].
    destruct (_ && _) eqn:Ec; [do 2 eexists; split; [done|constructor]|].
    destruct (merge_upload_session old s) as [m|] eqn:Em; [|do 2 eexists; split; [done|constructor]].
    pose proof (merge_Some _ _ _ Em) as (-> & _ & _ & _ & Hlen & _).
    pose proof (write_update t0 r old s now (now + ttl)%Z) as Hw.
    exists (<[up_key s := row_of (with_paths old s) now (now + ttl)]> t0),
      (if session_eqb s old then UploadUnchanged else UploadUpdated).
    split; [destruct (session_eqb s old); by apply Hw|]. eapply sv_merged; eauto.
  - rewrite (load_None _ _ Er). cbn [mbind result_bind].
    destruct (_ && _) eqn:Ec; [do 2 eexists; split; [done|constructor]|].
    destruct (_ || _) eqn:El; [do 2 eexists; split; [done|by constructor]|]. split_bool.
    rewrite write_insert by done. do 2 eexists. split; [done|]. constructor; auto.
Qed.
(** ** Rejection and removal *)

Lemma session_rejected_encodable s : encodable s -> encodable (session_rejected s).
Proof.
  intros [Hv Hk Hu Hi Hr]. split; cbn; try done.
  apply session_validate_Ok in Hv as (? & ? & ? & ? & _). apply session_validate_Ok. cbn.
  split_and!; try done; try lia. set_solver.
Qed.

Lemma session_rejected_progress s :
  up_state s = AwaitingConfirmation -> progress s (session_rejected s).
Proof.
  intros Hs. split; cbn; try done.
  - rewrite Hs. by apply rtc_once.
  - by rewrite Hs.
Qed.

Lemma reject_precheck_inr t key target stage s :
  reject_precheck t key target stage = Ok (inr s) ->
  load_upload_session t key = Ok (Some s) /\ up_state s = AwaitingConfirmation /\
  path_eqb (target_path s) target = true /\ path_eqb (stage_path s) stage = true.
Proof.
  unfold reject_precheck. intros H. inv_result. destruct a as [s'|]; [|done].
  repeat case_match; simplify_eq. by split_bool.
Qed.

Lemma reject_precheck_Ok t key target stage :
  map_Forall decodes t -> exists x, reject_precheck t key target stage = Ok x.
Proof.
  intros Hd. unfold reject_precheck. destruct (t !! key) as [r|] eqn:Er.
  - destruct (Hd _ _ Er) as [s Hs]. rewrite (load_Some _ _ _ _ Er Hs). cbn.
    repeat case_match; eauto.
  - rewrite (load_None _ _ Er). cbn. eauto.
Qed.

Variant rejected (t : Table) (now : Z) (key : UploadSessionKey) (target stage : bytes) (e : Z)
    : Table -> RejectUploadSession -> Prop :=
| rj_answer a :
    reject_precheck t key target stage = Ok (inl a) -> rejected t now key target stage e t a
| rj_rejected r s :
    t !! key = Some r -> decode_upload_row (key, r) = Ok s -> up_state s = AwaitingConfirmation ->
    rejected t now key target stage e (<[key := row_of (session_rejected s) now e]> t)
      (RejectRejected (session_rejected s)).

Lemma reject_rejected t now key target stage ttl :
  map_Forall decodes t -> is_i64 (now + ttl) ->
  exists t' a, reject_upload_session t now key target stage ttl = Ok (t', a) /\
    rejected t now key target stage (now + ttl) t' a.
Proof.
  intros Hd Hi. unfold reject_upload_session, expiration_time.
  destruct (reject_precheck_Ok t key target stage Hd) as [[a|s] Hp]; rewrite Hp; cbn [mbind result_bind].
  { do 2 eexists. split; [done|by constructor]. }
  rewrite (proj2 (i64_checked_add_Some _ _ _)) by done. cbn [ok_or mbind result_bind].
  apply reject_precheck_inr in Hp as ((r & Hr & Hs)%load_Ok & Hst & _).
  pose proof (decode_inv _ _ _ Hs) as (Hk & He & Hrow).
  assert (r_state r = UPLOAD_AWAITING_CONFIRMATION) as Hrs by (rewrite Hrow; cbn; by rewrite Hst).
  assert (set_rejected now (now + ttl) r = row_of (session_rejected s) now (now + ttl)) as Hset.
  { by rewrite Hrow. }
  set (p := fun k r => bool_decide (k = key) && (r_state r =? UPLOAD_AWAITING_CONFIRMATION)%Z).
  assert (forall k r, p k r = true -> k = key) as Hp by (intros ? ? ?; unfold p in *; by split_bool).
  assert (p key r = true) as Hpk by (unfold p; by rewrite bool_decide_true, Hrs by done).
  assert (update_where check p (set_rejected now (now + ttl)) t =
    Ok (<[key := row_of (session_rejected s) now (now + ttl)]> t, 1%Z)) as ->.
  { apply update_where_Ok. split_and!.
    - intros k r' Hr' Hx. specialize (Hp _ _ Hx). subst k. simplify_eq. rewrite Hset.
      change (up_key s) with (up_key (session_rejected s)). apply check_row_of.
      by apply session_rejected_encodable.
    - by rewrite (apply_key _ _ _ key Hp), Hr, Hpk, Hset.
    - by rewrite (count_key _ _ key Hp), Hr, Hpk. }
  cbn. do 2 eexists. split; [done|]. by econstructor.
Qed.

Lemma load_decodes t key : map_Forall decodes t -> exists o, load_upload_session t key = Ok o.
Proof.
  intros Hd. destruct (t !! key) as [r|] eqn:Er.
  - destruct (Hd _ _ Er) as [s Hs]. rewrite (load_Some _ _ _ _ Er Hs). eauto.
  - rewrite (load_None _ _ Er). eauto.
Qed.

Lemma remove_cases t s :
  map_Forall decodes t ->
  exists t' b, remove_upload_session_if_matches t s = Ok (t', b) /\
    (t' = t /\ b = false \/
     (t' = delete (up_key s) t /\ exists s', load_upload_session t (up_key s) = Ok (Some s') /\
        session_eqb s' s = true)).
Proof.
  intros Hd. unfold remove_upload_session_if_matches.
  destruct (load_decodes t (up_key s) Hd) as [[s'|] Hl]; rewrite Hl; cbn [mbind result_bind negb].
  2:{ do 2 eexists. split; [done|]. by left. }
  destruct (session_eqb s' s) eqn:E; cbn [negb]; [|do 2 eexists; split; [done|by left]].
  apply load_Ok in Hl as Hl'. destruct Hl' as (r & Hr & _).
  set (p := fun k (_ : Row) => bool_decide (k = up_key s)).
  assert (forall k r, p k r = true -> k = up_key s) as Hp by (intros ? ? ?; unfold p in *; by split_bool).
  assert (p (up_key s) r = true) as Hpk by (unfold p; by rewrite bool_decide_true).
  pose proof (delete_key p t (up_key s) Hp) as H1. pose proof (count_key p t (up_key s) Hp) as H2.
  rewrite Hr, Hpk in H1, H2. unfold delete_where in *. cbn in H1. rewrite H1, H2. cbn.
  do 2 eexists. split; [done|]. right. eauto.
Qed.

Lemma remove_expired_cases t now x :
  map_Forall decodes t ->
  exists t' b, remove_expired_upload_session_if_matches t now x = Ok (t', b) /\
    (t' = t \/ (t' = delete (up_key (session x)) t /\ exists r,
       t !! up_key (session x) = Some r /\ (expires_at_ms r <= now)%Z)).
Proof.
  intros Hd. unfold remove_expired_upload_session_if_matches.
  destruct (now <? expires_at x)%Z; [do 2 eexists; split; [done|by left]|].
  unfold load_expired_upload_session, decode_expired_upload_row.
  destruct (t !! up_key (session x)) as [r|] eqn:Er; [|do 2 eexists; split; [done|by left]].
  destruct (Hd _ _ Er) as [s Hs]. rewrite Hs. cbn [mbind result_bind negb].
  destruct (expired_eqb _ x); cbn [negb]; [|do 2 eexists; split; [done|by left]].
  set (p := fun k r => bool_decide (k = up_key (session x)) && _ && _).
  assert (forall k r, p k r = true -> k = up_key (session x)) as Hp
    by (intros ? ? ?; unfold p in *; by split_bool).
  pose proof (delete_key p t _ Hp) as H1. pose proof (count_key p t _ Hp) as H2.
  rewrite Er in H1, H2. unfold delete_where in *. cbn in H1. rewrite H1.
  do 2 eexists. split; [done|]. destruct (p _ r) eqn:Ep; [|by left].
  right. split; [done|]. exists r. split; [done|]. unfold p in Ep. by split_bool.
Qed.
(** ** One command *)

(** The arguments' types and, for the commands that set one, an expiry time that
    fits. *)
Definition command_ok (now : Z) (c : Command) : Prop :=
  match c with
  | Save s ttl => encodable s /\ is_i64 (now + ttl)
  | Reject _ target stage ttl =>
      validate_stored_path target "Upload target" = Ok tt /\
      validate_stored_path stage "Upload stage" = Ok tt /\ is_i64 (now + ttl)
  | Remove s => encodable s
  | RemoveExpired x => encodable (session x)
  end.

Variant step (limits : Limits) (t : Table) (now : Z) (c : Command) : Table -> Reply -> Prop :=
| st_shrink t' a :
    t' ⊆ t -> a <> RSaved UploadInserted -> (forall e, a <> RError e) -> step limits t now c t' a
| st_insert t0 s ttl :
    c = Save s ttl -> t0 ⊆ t -> encodable s -> t0 !! up_key s = None -> stage_free t0 s ->
    (count_where (fun _ _ => true) t0 < upload_capacity limits)%Z ->
    (count_where (fun k _ => bool_decide (owner k = owner (up_key s))) t0
       < upload_per_owner limits)%Z ->
    step limits t now c (<[up_key s := row_of s now (now + ttl)]> t0) (RSaved UploadInserted)
| st_update t0 r s s' e a :
    t0 ⊆ t -> t0 !! up_key s' = Some r -> decode_upload_row (up_key s', r) = Ok s ->
    encodable s' -> progress s s' -> a <> RSaved UploadInserted -> (forall e, a <> RError e) ->
    step limits t now c (<[up_key s' := row_of s' now e]> t0) a.

Lemma upload_exec_step limits t now c :
  map_Forall decodes t -> command_ok now c ->
  step limits t now c (exec limits t now c).1 (exec limits t now c).2.
Proof.
  intros Hd Hc. destruct c as [s ttl|key target stage ttl|s|x]; cbn [exec].
  - destruct Hc as [He Hi]. destruct (save_saved limits t now s ttl Hd He Hi) as (t' & a & E & Hs).
    rewrite (en_valid s He). cbn [mbind result_bind]. rewrite E. cbn [commit fst snd].
    assert (kept t now ⊆ t) as Hsub by apply map_filter_subseteq.
    destruct Hs as [|Hn|Hn Hf H1 H2|r old Hr Ho Hf Hm]; [by apply st_shrink..| |].
    + by apply st_insert.
    + pose proof (merge_Some _ _ _ Hm) as (_ & Hk & _ & _ & Hlen & Hp).
      change (up_key s) with (up_key (with_paths old s)).
      eapply st_update; try done; [|by case_match].
      apply with_paths_encodable; [by apply (decode_inv _ _ _ Ho)|done..].
  - destruct Hc as (-> & -> & Hi). cbn [mbind result_bind].
    destruct (reject_rejected t now key target stage ttl Hd Hi) as (t' & a & E & Hs).
    rewrite E. cbn [commit fst snd]. destruct Hs as [a _|r s Hr Hs Hst]; [by apply st_shrink|].
    pose proof (decode_inv _ _ _ Hs) as (<- & He & _).
    change (up_key s) with (up_key (session_rejected s)).
    eapply st_update; try done; [by apply session_rejected_encodable|].
    by apply session_rejected_progress.
  - rewrite (en_valid s Hc). cbn [mbind result_bind].
    destruct (remove_cases t s Hd) as (t' & b & -> & [[-> _]|[-> _]]); cbn [commit fst snd].
    + by apply st_shrink.
    + apply st_shrink; [apply delete_subseteq|done..].
  - rewrite (en_valid _ Hc). cbn [mbind result_bind].
    destruct (remove_expired_cases t now x Hd) as (t' & b & -> & [->|[-> _]]); cbn [commit fst snd].
    + by apply st_shrink.
    + apply st_shrink; [apply delete_subseteq|done..].
Qed.

(** ** Table invariant *)

Definition row_active (r : Row) : bool :=
  bool_decide (r_state r ∈ [UPLOAD_RUNNING; UPLOAD_COMMIT_STARTED; UPLOAD_AWAITING_CONFIRMATION]).

Definition stages_unique (t : Table) : Prop :=
  forall k1 k2 r1 r2, t !! k1 = Some r1 -> t !! k2 = Some r2 ->
    row_active r1 = true -> row_active r2 = true -> r_stage_path r1 = r_stage_path r2 -> k1 = k2.

Record table_ok (limits : Limits) (t : Table) : Prop := {
  to_rows : map_Forall decodes t;
  to_stages : stages_unique t;
  to_capacity : (count_where (fun _ _ => true) t <= upload_capacity limits)%Z;
  to_owner : forall ow, (count_where (fun k _ => bool_decide (owner k = ow)) t
                           <= upload_per_owner limits)%Z }.

Lemma row_active_of s now e : row_active (row_of s now e) = negb (is_terminal (up_state s)).
Proof. unfold row_active. cbn. by destruct (up_state s). Qed.

Lemma decodes_row_of s now e : encodable s -> decodes (up_key s) (row_of s now e).
Proof. intros. exists s. by apply decode_row_of. Qed.

Lemma upload_counts_mono (q : UploadSessionKey -> Row -> bool) (t t' : Table) :
  (forall k r r', q k r = q k r') ->
  (forall k, is_Some (t' !! k) -> is_Some (t !! k)) -> (count_where q t' <= count_where q t)%Z.
Proof.
  intros Hq Hsub. apply count_where_mono. intros k r Hr Hp.
  destruct (Hsub k) as [r' Hr']; [eauto|]. exists r'. split; [done|]. by rewrite (Hq k r' r).
Qed.

Lemma table_ok_subseteq limits t t' : table_ok limits t -> t' ⊆ t -> table_ok limits t'.
Proof.
  intros [Hr Hs Hc Ho] Hsub.
  assert (forall k r, t' !! k = Some r -> t !! k = Some r) as Hl
    by (intros; by eapply lookup_weaken).
  assert (forall k, is_Some (t' !! k) -> is_Some (t !! k)) as Hi by (intros k [r ?]; eauto).
  split.
  - intros k r ?. eauto.
  - intros k1 k2 r1 r2 ? ?. eauto.
  - etrans; [|exact Hc]. by apply upload_counts_mono.
  - intros ow. etrans; [|apply (Ho ow)]. by apply upload_counts_mono.
Qed.

Lemma stages_unique_insert t k r :
  stages_unique t ->
  (row_active r = true -> forall k' r', t !! k' = Some r' -> row_active r' = true ->
     r_stage_path r' = r_stage_path r -> k' = k) ->
  stages_unique (<[k := r]> t).
Proof.
  intros Hu Hn k1 k2 r1 r2 H1 H2 Ha1 Ha2 Hp.
  apply lookup_insert_Some in H1 as [[<- <-]|[Hne1 H1]];
    apply lookup_insert_Some in H2 as [[<- <-]|[Hne2 H2]]; [done| | |by eapply Hu].
  - symmetry. by eapply Hn.
  - by eapply Hn.
Qed.

Lemma conflicting_stage_spec t s :
  conflicting_stage t s = false ->
  forall k r, t !! k = Some r -> row_active r = true -> r_stage_path r = stage_path s -> k = up_key s.
Proof.
  unfold conflicting_stage, count_where. intros Hc k r Hr Ha Hp.
  destruct (decide (k = up_key s)) as [|Hne]; [done|]. exfalso. split_bool.
  match goal with H : (_ <= 0)%Z |- _ => rename H into Hz end.
  match type of Hz with (Z.of_nat (size (hits ?q t)) <= 0)%Z =>
    assert (hits q t = ∅) as He by (apply map_size_empty_inv; lia);
    assert (hits q t !! k = Some r) as Hh end.
  { apply lookup_hits. split; [done|]. unfold row_active in Ha.
    rewrite bool_decide_true, Ha by done. cbn. apply negb_true_iff, andb_false_iff.
    destruct k as [ko ki], (up_key s) as [so si]; cbn.
    destruct (decide (ko = so)); [right|left]; apply bool_decide_eq_false; congruence. }
  by rewrite He, lookup_empty in Hh.
Qed.

Lemma upload_step_ok limits t now c t' a :
  table_ok limits t -> step limits t now c t' a -> table_ok limits t'.
Proof.
  intros Ht Hs. destruct Hs as [t' a Hsub _ _|t0 s ttl -> Hsub He Hn Hf H1 H2|t0 r s s' e a Hsub Hr Hd He Hp _ _].
  - by eapply table_ok_subseteq.
  - pose proof (table_ok_subseteq _ _ _ Ht Hsub) as [Hrow Hst Hc Ho]. split.
    + apply map_Forall_insert_2; [by apply decodes_row_of|done].
    + apply stages_unique_insert; [done|]. rewrite row_active_of. intros Hterm%negb_true_iff k' r'.
      cbn. apply conflicting_stage_spec. by apply Hf.
    + rewrite count_where_insert_None by done. cbv beta iota. lia.
    + intros ow. rewrite count_where_insert_None by done.
      case_bool_decide as E; [subst; lia|specialize (Ho ow); lia].
  - pose proof (table_ok_subseteq _ _ _ Ht Hsub) as [Hrow Hst Hc Ho].
    assert (forall k, is_Some (<[up_key s' := row_of s' now e]> t0 !! k) -> is_Some (t0 !! k)) as Hi.
    { intros k. rewrite lookup_insert_is_Some. intros [<-|[_ ?]]; eauto. }
    split.
    + apply map_Forall_insert_2; [by apply decodes_row_of|done].
    + apply stages_unique_insert; [done|]. rewrite row_active_of. intros Hterm%negb_true_iff k' r' Hr' Ha' Hp'.
      eapply Hst; try done.
      * pose proof (decode_inv _ _ _ Hd) as (_ & _ & ->). rewrite row_active_of.
        apply negb_true_iff, not_true_iff_false. intros Ht'.
        by rewrite (pr_terminal _ _ Hp Ht'), Ht' in Hterm.
      * pose proof (decode_inv _ _ _ Hd) as (_ & _ & ->). rewrite Hp'. cbn. by apply pr_stage.
    + etrans; [|exact Hc]. by apply upload_counts_mono.
    + intros ow. etrans; [|apply (Ho ow)]. by apply upload_counts_mono.
Qed.
(** The upload table keeps its promises: from a table in which every row
    decodes to a valid session, no two active sessions share a staging path and
    the counts are within the limits, every well-typed command succeeds and leaves
    such a table behind. *)
Lemma upload_store_total limits (t : Table) now c :
  table_ok limits t -> command_ok now c ->
  table_ok limits (exec limits t now c).1 /\ forall e, (exec limits t now c).2 <> RError e.
Proof.
  intros Ht Hc. pose proof (upload_exec_step limits t now c (to_rows _ _ Ht) Hc) as Hs. split.
  - by eapply upload_step_ok.
  - by destruct Hs.
Qed.

(** Whether a command inserted a new session under [key]. *)
Definition inserts (key : UploadSessionKey) (c : Command) (a : Reply) : Prop :=
  exists s ttl, c = Save s ttl /\ up_key s = key /\ a = RSaved UploadInserted.

(** A row seen after a step is the row before it, moved forward, or a new one. *)
Lemma step_row limits t now c t' a key r' s' :
  step limits t now c t' a -> t' !! key = Some r' -> decode_upload_row (key, r') = Ok s' ->
  inserts key c a \/
  exists r s, t !! key = Some r /\ decode_upload_row (key, r) = Ok s /\ progress s s'.
Proof.
  intros Hs Hr' Hd'.
  destruct Hs as [t' a Hsub _ _|t0 s ttl -> Hsub He Hn Hf H1 H2|t0 r s s1 e a Hsub Hr Hd He Hp _ _].
  - right. exists r', s'. split; [by eapply lookup_weaken|]. split; [done|]. reflexivity.
  - apply lookup_insert_Some in Hr' as [[<- <-]|[_ Hr']]; [left; by exists s, ttl|].
    right. exists r', s'. split; [by eapply lookup_weaken|]. split; [done|]. reflexivity.
  - right. apply lookup_insert_Some in Hr' as [[<- <-]|[_ Hr']].
    + rewrite decode_row_of in Hd' by done. injection Hd' as <-.
      exists r, s. split; [by eapply lookup_weaken|done].
    + exists r', s'. split; [by eapply lookup_weaken|]. split; [done|]. reflexivity.
Qed.

Lemma step_decodes limits t now c t' a :
  map_Forall decodes t -> step limits t now c t' a -> map_Forall decodes t'.
Proof.
  intros Hd [t1 b Hsub _ _|t0 s ttl -> Hsub He _ _ _ _|t0 r s s1 e b Hsub Hr _ He _ _ _].
  - intros k r ?. apply Hd. by eapply lookup_weaken.
  - apply map_Forall_insert_2; [by apply decodes_row_of|]. intros k r ?. apply Hd. by eapply lookup_weaken.
  - apply map_Forall_insert_2; [by apply decodes_row_of|]. intros k x ?. apply Hd. by eapply lookup_weaken.
Qed.

(** C9. Uploads only move forwards: along any sequence of commands that does not
    insert a new session under its key, a session that is still there has the
    same target, staging path and length, an offset at least as large, the same
    staging file once one was recorded, a state reachable in the transition
    matrix, and is unchanged if it was already committed, rejected or unknown. *)
Theorem upload_progress limits (cs : list (Z * Command)) (t : Table) key r s r' s' :
  map_Forall decodes t -> Forall (fun c => command_ok c.1 c.2) cs ->
  t !! key = Some r -> decode_upload_row (key, r) = Ok s ->
  (run limits t cs).1 !! key = Some r' -> decode_upload_row (key, r') = Ok s' ->
  Forall2 (fun c a => ~ inserts key c.2 a) cs (run limits t cs).2 ->
  progress s s'.
Proof.
  intros Hd Hcs Hr Hs Hr' Hs' Hins.
  assert (forall t, map_Forall decodes t -> Forall (fun c => command_ok c.1 c.2) cs ->
    Forall2 (fun c a => ~ inserts key c.2 a) cs (run limits t cs).2 ->
    (run limits t cs).1 !! key = Some r' ->
    exists r0 s0, t !! key = Some r0 /\ decode_upload_row (key, r0) = Ok s0 /\ progress s0 s') as Hrun.
  { clear -Hs'. induction cs as [|[now c] cs IH]; intros t Hd Hcs Hins Hr'.
    - exists r', s'. split_and!; [done..|]. reflexivity.
    - apply Forall_cons in Hcs as [Hc Hcs]. cbn in Hc.
      pose proof (upload_exec_step limits t now c Hd Hc) as Hst. cbn [run] in Hins, Hr'.
      destruct (exec limits t now c) as [t1 a1]. cbn in Hst.
      destruct (run limits t1 cs) as [t2 as2] eqn:E2.
      apply Forall2_cons_1 in Hins as [Hi Hins]. specialize (IH t1). rewrite E2 in IH.
      destruct IH as (r1 & s1 & Hr1 & Hs1 & Hp1); [by eapply step_decodes|done..|].
      destruct (step_row _ _ _ _ _ _ _ _ _ Hst Hr1 Hs1) as [?|(r0 & s0 & ? & ? & ?)]; [done|].
      exists r0, s0. split_and!; [done..|]. by etrans. }
  destruct (Hrun t Hd Hcs Hins Hr') as (r0 & s0 & Hr0 & Hs0 & Hp). assert (s0 = s) as -> by congruence. done.
Qed.

(** What is saved can be loaded: whenever [save_upload_session] answers
    that it stored a session, loading the key returns a session equal to the one
    saved (paths compared by component, as everywhere in the code); a newly
    inserted session comes back exactly, and one that answers a conflict or a
    full table is not stored. *)
Lemma saved_session_loads limits (t : Table) now s ttl :
  map_Forall decodes t -> encodable s -> is_i64 (now + ttl) ->
  exists t' a, save_upload_session limits t now s ttl = Ok (t', a) /\
    match a with
    | UploadInserted => load_upload_session t' (up_key s) = Ok (Some s)
    | UploadUpdated | UploadUnchanged =>
        exists s', load_upload_session t' (up_key s) = Ok (Some s') /\ session_eqb s' s = true
    | UploadConflict | UploadFull => t' ⊆ t
    end.
Proof.
  intros Hd He Hi. destruct (save_saved limits t now s ttl Hd He Hi) as (t' & a & E & Hs).
  exists t', a. split; [done|].
  destruct Hs as [|Hn|Hn Hf H1 H2|r old Hr Ho Hf Hm]; [apply map_filter_subseteq..| |].
  - eapply load_Some; [apply lookup_insert_eq|]. by apply decode_row_of.
  - pose proof (merge_Some _ _ _ Hm) as (_ & Hk & Ht & Hst & Hlen & _).
    assert (load_upload_session (<[up_key s := row_of (with_paths old s) now (now + ttl)]> (kept t now))
      (up_key s) = Ok (Some (with_paths old s)) /\ session_eqb (with_paths old s) s = true) as Hx.
    { split.
      - eapply load_Some; [apply lookup_insert_eq|].
        apply (decode_row_of (with_paths old s)). apply with_paths_encodable; [|done..].
        by apply (decode_inv _ _ _ Ho).
      - unfold session_eqb. repeat (apply andb_true_iff; split); try done;
          solve [by apply bool_decide_eq_true | by apply Z.eqb_eq]. }
    destruct (session_eqb s old); eauto.
Qed.
(** ** Startup *)

Lemma for_each_app {A} (f : A -> result string unit) l1 l2 :
  for_each f (l1 ++ l2) = (_ ← for_each f l1; for_each f l2).
Proof. induction l1 as [|a l1 IH]; cbn; [done|]. destruct (f a); cbn; auto. Qed.

Lemma after_key_gt after k : after_key after k = key_gt key_cmp after k.
Proof.
  destruct after as [a|]; [|done]. unfold after_key, key_gt, key_cmp, then_cmp.
  by destruct (bytes_cmp (owner k) (owner a)), (bytes_cmp (id k) (id a)).
Qed.

Abbreviation all_rows := (fun (_ : UploadSessionKey) (_ : Row) => true).
Definition in_order (t : Table) : list (UploadSessionKey * Row) := sorted_hits key_cmp all_rows t.

Lemma sessions_page_page (t : Table) after n :
  select_where (fun k _ => after_key after k) by_key n t = page key_cmp all_rows t n after.
Proof.
  unfold page, select_where. do 3 f_equal. apply map_filter_ext. intros k r _. cbn.
  by rewrite after_key_gt.
Qed.

Lemma sessions_in_order t :
  map_Forall decodes t -> exists ss, collect (decode_upload_row <$> in_order t) = Ok ss.
Proof.
  intros Hd. assert (Forall (fun kr => exists s, decode_upload_row kr = Ok s) (in_order t)) as Hf.
  { apply Forall_forall. intros [k r] Hin. apply elem_of_sorted_hits in Hin as [Hin _].
    by apply Hd. }
  induction Hf as [|kr l [s Hs] _ [ss IH]]; cbn; [eauto|]. rewrite Hs, IH. cbn. eauto.
Qed.

Section startup.
Context (limits : Limits) (t : Table) (ss : list StoredUploadSession).
Context (Hss : collect (decode_upload_row <$> in_order t) = Ok ss).
Context (Hcap : (count_where all_rows t <= upload_capacity limits)%Z).

Lemma in_order_Forall2 : Forall2 (fun kr s => decode_upload_row kr = Ok s) (in_order t) ss.
Proof. apply collect_Ok, Forall2_fmap_l in Hss. done. Qed.

(** The page after the first [i] rows. *)
Lemma sessions_page_at i after n :
  (0 < n)%Z ->
  (i = 0%nat /\ after = None \/ exists j s, i = S j /\ ss !! j = Some s /\ after = Some (up_key s)) ->
  upload_sessions_page limits t after n = Ok (take (Z.to_nat n) (drop i ss)).
Proof.
  intros Hn Hi. unfold upload_sessions_page. rewrite (proj2 (Z.ltb_lt 0 n) Hn). cbn [ensure mbind result_bind].
  assert (page key_cmp all_rows t n after = take (Z.to_nat n) (drop i (in_order t))) as Hp.
  { destruct Hi as [[-> ->]|(j & s & -> & Hj & ->)]; [apply page_first, _|].
    destruct (Forall2_lookup_r _ _ _ _ _ in_order_Forall2 Hj) as ([k r] & Hkr & Hd).
    apply decode_inv in Hd as (-> & _). by eapply page_next_drop; [apply _|]. }
  rewrite sessions_page_page, Hp.
  assert (match after with
          | Some _ => Ok tt
          | None => ensure (count_where all_rows t <=? upload_capacity limits)%Z
                      "Upload session table exceeds its configured capacity"
          end = Ok tt) as ->.
  { destruct after; [done|]. by rewrite (proj2 (Z.leb_le _ _) Hcap). }
  cbn [mbind result_bind]. apply collect_Ok, Forall2_fmap_l, Forall2_take, Forall2_drop.
  apply in_order_Forall2.
Qed.

Lemma validate_from (validate : StoredUploadSession -> result string unit) fuel i after :
  (length ss - i < fuel)%nat -> 
  (i = 0%nat /\ after = None \/ exists j s, i = S j /\ ss !! j = Some s /\ after = Some (up_key s)) ->
  validate_stage_layouts validate limits t fuel after = Some (for_each validate (drop i ss)).
Proof.
  revert i after. induction fuel as [|fuel IH]; intros i after Hf Hi; [lia|]. cbn [validate_stage_layouts].
  rewrite (sessions_page_at i after) by done. change (Z.to_nat STARTUP_RECONCILIATION_PAGE_SIZE) with 16%nat.
  destruct (last (take 16 (drop i ss))) as [s|] eqn:El.
  - rewrite <- (take_drop 16 (drop i ss)) at 2. rewrite for_each_app.
    destruct (for_each validate (take 16 (drop i ss))); [|done]. cbn [mbind result_bind].
    set (n := length (take 16 (drop i ss))) in *.
    rewrite last_lookup in El. fold n in El.
    assert (n <> 0)%nat as Hn.
    { intros E. rewrite E in El. cbn in El. apply lookup_lt_Some in El. unfold n in E. lia. }
    assert (drop 16 (drop i ss) = drop (i + n) ss) as ->.
    { rewrite drop_drop. unfold n. rewrite length_take, length_drop.
      destruct (decide (16 <= length ss - i)%nat); [f_equal; lia|].
      rewrite !drop_ge by lia. done. }
    apply IH.
    + unfold n in *. rewrite length_take, length_drop in *. lia.
    + right. exists (i + pred n)%nat, s. split; [lia|]. split; [|done].
      rewrite lookup_take_Some in El. destruct El as [El _]. by rewrite lookup_drop in El.
  - apply last_None in El. assert (drop i ss = []) as ->; [|done].
    destruct (drop i ss); [done|]. cbn in El. discriminate El.
Qed.
End startup.

(** The startup scan misses no session: on a table of decodable rows within
    its capacity, [validate_stage_layouts] terminates after at most one step per
    row plus one and has validated every stored session, in key order and each
    exactly once, stopping at the first failure. *)
Lemma startup_validates_every_session limits (t : Table) validate fuel :
  map_Forall decodes t -> (count_where all_rows t <= upload_capacity limits)%Z ->
  (count_where all_rows t < Z.of_nat fuel)%Z ->
  exists ss,
    validate_stage_layouts validate limits t fuel None = Some (for_each validate ss) /\
    NoDup (up_key <$> ss) /\
    forall s, s ∈ ss <-> load_upload_session t (up_key s) = Ok (Some s).
Proof.
  intros Hd Hcap Hfuel. destruct (sessions_in_order t Hd) as [ss Hss]. exists ss.
  pose proof (in_order_Forall2 t ss Hss) as H2.
  assert (up_key <$> ss = (in_order t).*1) as Hkeys.
  { clear -H2. induction H2 as [|[k r] s l ss' Hx _ IH]; [done|].
    apply decode_inv in Hx as (Hk & _). cbn. by rewrite Hk, IH. }
  split; [|split].
  - rewrite (validate_from limits t ss Hss Hcap validate fuel 0 None); [done| |by left].
    apply Forall2_length in H2. rewrite <- H2. unfold in_order.
    pose proof (length_sorted_hits key_cmp all_rows t). lia.
  - rewrite Hkeys. apply NoDup_sorted_hits.
  - intros s. rewrite load_Ok. split.
    + intros [i Hi]%list_elem_of_lookup.
      destruct (Forall2_lookup_r _ _ _ _ _ H2 Hi) as ([k r] & Hkr & Hx).
      pose proof (decode_inv _ _ _ Hx) as (<- & _). exists r. split; [|done].
      apply list_elem_of_lookup_2, elem_of_sorted_hits in Hkr. by destruct Hkr.
    + intros (r & Hr & Hx). assert ((up_key s, r) ∈ in_order t) as Hin by (by apply elem_of_sorted_hits).
      apply list_elem_of_lookup in Hin as [i Hi].
      destruct (Forall2_lookup_l _ _ _ _ _ H2 Hi) as (s' & Hs' & Hx').
      rewrite Hx in Hx'. injection Hx' as <-. by eapply list_elem_of_lookup_2.
Qed.
(** ** Recovery *)

(** What recovery does to a session and to its times. *)
Definition recovered (s : StoredUploadSession) : StoredUploadSession :=
  {| up_key := up_key s; target_path := target_path s; stage_path := stage_path s;
     upload_length := upload_length s; durable_offset := durable_offset s;
     up_state := match up_state s with CommitStarted => Unknown | st => st end;
     stage_identity := stage_identity s; target_revision := target_revision s |}.

Definition recovered_row (now limit : Z) (s : StoredUploadSession) (r : Row) : Row :=
  match up_state s with
  | CommitStarted => row_of (recovered s) now limit
  | _ => row_of s (updated_at_ms r) (Z.min (expires_at_ms r) limit)
  end.

Lemma recovered_encodable s : encodable s -> encodable (recovered s).
Proof.
  intros [Hv Hk Hu Hi Hr]. split; cbn; try done.
  apply session_validate_Ok in Hv as (? & ? & ? & ? & Hst). apply session_validate_Ok. cbn.
  split_and!; try done; try lia. destruct (up_state s); try done; set_solver.
Qed.

Lemma recover_uploads_lookup t now limit :
  map_Forall decodes t ->
  exists t', recover_uploads t now limit = Ok t' /\
    (forall k, t !! k = None -> t' !! k = None) /\
    forall k r s, t !! k = Some r -> decode_upload_row (k, r) = Ok s ->
      t' !! k = Some (recovered_row now limit s r).
Proof.
  intros Hd. unfold recover_uploads.
  set (p1 := fun (_ : UploadSessionKey) r => (r_state r =? UPLOAD_COMMIT_STARTED)%Z).
  set (t1 := apply_where p1 (set_unknown now limit) t).
  set (p2 := fun (_ : UploadSessionKey) r => (limit <? expires_at_ms r)%Z).
  assert (forall k r s, decode_upload_row (k, r) = Ok s ->
    (if p1 k r then set_unknown now limit r else r) =
    match up_state s with
    | CommitStarted => row_of (recovered s) now limit
    | _ => row_of s (updated_at_ms r) (expires_at_ms r)
    end /\ (p1 k r = true -> up_state s = CommitStarted)) as H1.
  { intros k r s (_ & _ & Hr)%decode_inv. unfold p1. rewrite Hr.
    unfold row_of, encode_row, set_unknown, recovered. cbn. by destruct (up_state s) eqn:E. }
  assert (update_where check p1 (set_unknown now limit) t = Ok (t1, count_where p1 t)) as ->.
  { apply update_where_Ok. split; [|done]. intros k r Hr Hp. destruct (Hd k r Hr) as [s Hs].
    destruct (H1 k r s Hs) as [Hx Hst]. rewrite Hp in Hx. rewrite Hst in Hx by done. rewrite Hx.
    apply decode_inv in Hs as (<- & He & _).
    change (up_key s) with (up_key (recovered s)). by apply check_row_of, recovered_encodable. }
  cbn [mbind result_bind].
  assert (forall k r s, t !! k = Some r -> decode_upload_row (k, r) = Ok s ->
    t1 !! k = Some match up_state s with
                   | CommitStarted => row_of (recovered s) now limit
                   | _ => row_of s (updated_at_ms r) (expires_at_ms r)
                   end) as Ht1.
  { intros k r s Hr Hs. unfold t1. rewrite lookup_apply_where, Hr. cbn. by rewrite (proj1 (H1 k r s Hs)). }
  assert (forall k r, t1 !! k = Some r -> exists s n e, encodable s /\ k = up_key s /\ r = row_of s n e) as Hrow.
  { intros k r Hr. destruct (t !! k) as [r0|] eqn:E0.
    - destruct (Hd k r0 E0) as [s Hs]. rewrite (Ht1 k r0 s E0 Hs) in Hr. injection Hr as <-.
      apply decode_inv in Hs as (<- & He & _).
      destruct (up_state s); eauto 10 using recovered_encodable.
    - unfold t1 in Hr. by rewrite lookup_apply_where, E0 in Hr. }
  assert (update_where check p2 (set_expiry limit) t1
          = Ok (apply_where p2 (set_expiry limit) t1, count_where p2 t1)) as ->.
  { apply update_where_Ok. split; [|done]. intros k r Hr _.
    destruct (Hrow k r Hr) as (s & n & e & He & -> & ->). by apply (check_row_of s n limit). }
  cbn. eexists. split; [done|]. split.
  { intros k Hk. unfold t1. by rewrite !lookup_apply_where, Hk. }
  intros k r s Hr Hs. rewrite lookup_apply_where, (Ht1 k r s Hr Hs). cbn. f_equal. unfold p2, recovered_row.
  destruct (up_state s); cbn; rewrite ?Z.ltb_irrefl;
    try (destruct (Z.ltb_spec limit (expires_at_ms r));
         [rewrite Z.min_r by lia | rewrite Z.min_l by lia]); done.
Qed.

Lemma recover_uploads_resolved (t : Table) now limit :
  map_Forall decodes t ->
  exists t', recover_uploads t now limit = Ok t' /\
    (forall k, t !! k = None -> t' !! k = None) /\
    forall k r s, t !! k = Some r -> decode_upload_row (k, r) = Ok s ->
      exists r', t' !! k = Some r' /\ decode_upload_row (k, r') = Ok (recovered s) /\
        up_state (recovered s) <> CommitStarted /\ (expires_at_ms r' <= limit)%Z /\
        (up_state s <> CommitStarted -> recovered s = s /\ expires_at_ms r' = Z.min (expires_at_ms r) limit).
Proof.
  intros Hd. destruct (recover_uploads_lookup t now limit Hd) as (t' & E & Hn & Ht').
  exists t'. split; [done|]. split; [done|]. intros k r s Hr Hs. eexists. split; [by apply Ht'|].
  pose proof (decode_inv _ _ _ Hs) as (<- & He & _).
  assert (up_state s <> CommitStarted -> recovered s = s) as Hsame.
  { destruct s as [? ? ? ? ? [] ? ?]; done. }
  unfold recovered_row. destruct (decide (up_state s = CommitStarted)) as [Hc|Hc].
  - rewrite Hc. split_and!; try done; [|by cbn; rewrite Hc].
    change (up_key s) with (up_key (recovered s)). by apply decode_row_of, recovered_encodable.
  - rewrite Hsame by done.
    assert (match up_state s with
            | CommitStarted => row_of s now limit
            | _ => row_of s (updated_at_ms r) (Z.min (expires_at_ms r) limit)
            end = row_of s (updated_at_ms r) (Z.min (expires_at_ms r) limit)) as ->.
    { by destruct (up_state s). }
    split_and!; try done; [by apply decode_row_of|]. cbn. lia.
Qed.

(** Recovery leaves no upload committing: it succeeds on any table of
    decodable rows, keeps every session under its key with its binding and
    progress, turns exactly the sessions whose commit had started into unknown
    ones, and lets none expire later than one lifetime after the restart. *)
Lemma recovery_resolves_uploads (t : Table) now limit :
  map_Forall decodes t ->
  exists t', recover_uploads t now limit = Ok t' /\
    (forall k, t !! k = None -> t' !! k = None) /\
    forall k r s, t !! k = Some r -> decode_upload_row (k, r) = Ok s ->
      exists r', t' !! k = Some r' /\ decode_upload_row (k, r') = Ok (recovered s) /\
        up_state (recovered s) <> CommitStarted /\ (expires_at_ms r' <= limit)%Z /\
        (up_state s <> CommitStarted -> recovered s = s /\ expires_at_ms r' = Z.min (expires_at_ms r) limit).
Proof. apply recover_uploads_resolved. Qed.

(** ** A concrete table *)

Definition key0 : UploadSessionKey := {| owner := replicate 32 x41; id := replicate 16 x42 |}.
Definition session0 : StoredUploadSession :=
  {| up_key := key0; target_path := str "a/b.txt"; stage_path := str "a/.stage";
     upload_length := 10; durable_offset := 4; up_state := Running;
     stage_identity := Some {| id_device := 1; id_inode := 2 |}; target_revision := None |}.
Definition session1 : StoredUploadSession :=
  {| up_key := key0; target_path := str "a/b.txt"; stage_path := str "a//.stage";
     upload_length := 10; durable_offset := 10; up_state := CommitStarted;
     stage_identity := Some {| id_device := 1; id_inode := 2 |}; target_revision := None |}.
Definition limits0 : Limits :=
  {| capacity := 2; per_owner := 1; ttl_ms := 1000; upload_ttl_ms := 1000; upload_capacity := 2;
     upload_per_owner := 1; purge_capacity := 2; purge_per_owner := 1 |}.
Definition table0 : Table := {[key0 := row_of session0 5 100]}.

Lemma encodable0 : encodable session0.
Proof.
  split; [by vm_compute|by vm_compute|by cbn| |done].
  intros i [= <-]. split; split; by vm_compute.
Qed.
Lemma encodable1 : encodable session1.
Proof.
  split; [by vm_compute|by vm_compute|by cbn| |done].
  intros i [= <-]. split; split; by vm_compute.
Qed.

Lemma decodes0 : map_Forall decodes table0.
Proof. apply map_Forall_singleton. apply (decodes_row_of session0), encodable0. Qed.

Lemma uploads0_ok : table_ok limits0 table0.
Proof.
  split; [apply decodes0| |by vm_compute|].
  - unfold table0. intros k1 k2 r1 r2 H1 H2 _ _ _. apply lookup_singleton_Some in H1 as [<- _], H2 as [<- _]. done.
  - intros ow. unfold count_where, hits. etrans.
    + apply inj_le, (map_size_filter _ table0).
    + by vm_compute.
Qed.

Lemma upload_store_total_witness : table_ok limits0 (exec limits0 table0 50 (Save session1 1000)).1.
Proof.
  apply (upload_store_total limits0 table0 50 (Save session1 1000)).
  - apply uploads0_ok.
  - split; [apply encodable1|]. split; by vm_compute.
Defined.

Lemma upload_progress_witness : progress session0 (with_paths session0 session1).
Proof.
  apply (upload_progress limits0 [(50, Save session1 1000)]%Z table0 key0
           (row_of session0 5 100) session0
           (row_of (with_paths session0 session1) 50 1050)).
  - apply decodes0.
  - constructor; [|constructor]. split; [apply encodable1|]. split; by vm_compute.
  - apply lookup_singleton_eq.
  - apply (decode_row_of session0), encodable0.
  - by vm_compute.
  - by vm_compute.
  - constructor; [|constructor]. intros (s & ttl & Hc & _ & Ha). vm_compute in Ha. discriminate Ha.
Defined.


Lemma startup_validates_every_session_witness :
  exists ss, validate_stage_layouts (fun _ => Ok tt) limits0 table0 2 None
             = Some (for_each (fun _ : StoredUploadSession => Ok tt) ss).
Proof.
  destruct (startup_validates_every_session limits0 table0 (fun _ => Ok tt) 2) as (ss & E & _).
  - apply decodes0.
  - by vm_compute.
  - by vm_compute.
  - exists ss. exact E.
Defined.

Lemma recovery_resolves_uploads_witness :
  exists t', recover_uploads {[key0 := row_of session1 5 100]} 50 1050 = Ok t'.
Proof.
  destruct (recovery_resolves_uploads {[key0 := row_of session1 5 100]} 50 1050) as (t' & E & _).
  - apply map_Forall_singleton. apply (decodes_row_of session1), encodable1.
  - exists t'. exact E.
Defined.
End UploadStore.
