(* ===== verification/PurgeStore.v ===== *)
(** * The purge job table

    [src/server/state_store/purge.rs] over the [purge_jobs] table of
    [schema/product.sql]: deletions that have moved their target to a trash path
    and still have to remove it.  A job is prepared, made ready with the revision
    of what was moved, claimed by the purge worker, and completed or scheduled
    for another attempt. *)

From S2P Require Import Prelude Paths Sql StateModel UploadStore.

Module PurgeStore.

Record Row : Type := {
  r_target_path : bytes;
  r_trash_path : bytes;
  source_device_be : bytes;
  source_inode_be : bytes;
  r_trash_revision : option bytes;
  r_is_directory : Z;
  r_state : Z;
  r_attempts : Z;
  next_attempt_at_ms : Z;
  created_at_ms : Z;
  updated_at_ms : Z }.

Abbreviation Table := (gmap PurgeJobKey Row).

(** The constraints of [CREATE TABLE purge_jobs] on one row. *)
Definition check (k : PurgeJobKey) (r : Row) : bool :=
  (blob_length (owner k) =? 32)%Z && (blob_length (id k) =? 16)%Z
  && in_range 1 65536 (blob_length (r_target_path r))
  && in_range 1 65536 (blob_length (r_trash_path r))
  && (blob_length (source_device_be r) =? 8)%Z && (blob_length (source_inode_be r) =? 8)%Z
  && passes (or3 (is_null (r_trash_revision r))
       ((fun n => n =? 32)%Z <$> (blob_length <$> r_trash_revision r)))
  && bool_decide (r_is_directory r ∈ [0; 1]%Z)
  && bool_decide (r_state r ∈ [0; 1; 2]%Z)
  && in_range 0 4294967295 (r_attempts r)
  && negb (bool_decide (r_target_path r = r_trash_path r)).

Definition trash_is (path : bytes) (_ : PurgeJobKey) (r : Row) : bool :=
  bool_decide (r_trash_path r = path).

(** [INSERT] with the [UNIQUE] constraint on [trash_path]. *)
Definition insert_job (k : PurgeJobKey) (r : Row) (t : Table) : result string Table :=
  if (0 <? count_where (trash_is (r_trash_path r)) t)%Z then Err UNIQUE_FAILED
  else insert_row check k r t.

(** ** Decoding *)

Definition purge_key_from_database (ow i : bytes) : result string PurgeJobKey :=
  o ← UploadStore.fixed 32 ow "Purge owner digest has an invalid length";
  j ← UploadStore.fixed 16 i "Purge job id has an invalid length";
  Ok {| owner := o; id := j |}.

Definition u32_try_from (z : Z) : option Z := if in_range 0 U32_MAX z then Some z else None.

Definition decode_purge_row (kr : PurgeJobKey * Row) : result string StoredPurgeJob :=
  let '(k, r) := kr in
  _ ← ensure (bool_decide (r_is_directory r ∈ [0; 1]%Z)) "Purge directory flag is invalid";
  key ← purge_key_from_database (owner k) (id k);
  d ← UploadStore.fixed 8 (source_device_be r) "Purge source device has an invalid length";
  i ← UploadStore.fixed 8 (source_inode_be r) "Purge source inode has an invalid length";
  rev ← match r_trash_revision r with
        | None => Ok None
        | Some revision =>
            rv ← UploadStore.fixed 32 revision "Purge trash revision has an invalid length"; Ok (Some rv)
        end;
  st ← purge_state_from_database (r_state r);
  att ← ok_or (u32_try_from (r_attempts r)) "Purge attempts in the state database are invalid";
  let job := {| pj_key := key; pj_target_path := r_target_path r; pj_trash_path := r_trash_path r;
                source_identity := {| id_device := be_val d; id_inode := be_val i |};
                trash_revision := rev; is_directory := (r_is_directory r =? 1)%Z;
                pj_state := st; attempts := att |} in
  _ ← validate_stored_path (pj_target_path job) "Purge target";
  _ ← validate_stored_path (pj_trash_path job) "Purge trash";
  _ ← ensure (negb (path_eqb (pj_target_path job) (pj_trash_path job)))
        "Purge target and trash paths must differ";
  Ok job.

Definition load_purge_job (t : Table) (key : PurgeJobKey) : result string (option StoredPurgeJob) :=
  match t !! key with
  | None => Ok None
  | Some r => j ← decode_purge_row (key, r); Ok (Some j)
  end.

(** ** Operations *)

Definition fresh_row (j : StoredPurgeJob) (now : Z) : Row :=
  {| r_target_path := pj_target_path j; r_trash_path := pj_trash_path j;
     source_device_be := u64_be (id_device (source_identity j));
     source_inode_be := u64_be (id_inode (source_identity j));
     r_trash_revision := None; r_is_directory := if is_directory j then 1 else 0;
     r_state := PURGE_PREPARED; r_attempts := 0;
     next_attempt_at_ms := now; created_at_ms := now; updated_at_ms := now |}.

Definition prepare_purge_job (limits : Limits) (t : Table) (now : Z) (proposed : StoredPurgeJob)
    : result string (Table * StorePurgeJob) :=
  existing ← load_purge_job t (pj_key proposed);
  match existing with
  | Some existing =>
      Ok (t, if path_eqb (pj_target_path existing) (pj_target_path proposed)
                && path_eqb (pj_trash_path existing) (pj_trash_path proposed)
                && bool_decide (source_identity existing = source_identity proposed)
                && Bool.eqb (is_directory existing) (is_directory proposed)
             then PurgeExisting else PurgeConflict)
  | None =>
      if (0 <? count_where (trash_is (pj_trash_path proposed)) t)%Z then Ok (t, PurgeConflict)
      else
        let global_count := count_where (fun _ _ => true) t in
        let owner_count :=
          count_where (fun k _ => bool_decide (owner k = owner (pj_key proposed))) t in
        if ((purge_capacity limits <=? global_count)
            || (purge_per_owner limits <=? owner_count))%Z
        then Ok (t, PurgeFull)
        else
          t ← insert_job (pj_key proposed) (fresh_row proposed now) t;
          Ok (t, PurgeInserted)
  end.

(** [ORDER BY created_at_ms, owner_digest, job_id] and the order of due jobs. *)
Definition by_created (a b : PurgeJobKey * Row) : comparison :=
  then_cmp (created_at_ms a.2 ?= created_at_ms b.2)%Z (key_cmp a.1 b.1).
Definition by_due (a b : PurgeJobKey * Row) : comparison :=
  then_cmp (next_attempt_at_ms a.2 ?= next_attempt_at_ms b.2)%Z (by_created a b).

Definition prepared_purge_jobs (t : Table) (limit : Z) : result string (list StoredPurgeJob) :=
  collect (decode_purge_row <$>
    select_where (fun _ r => (r_state r =? PURGE_PREPARED)%Z) by_created limit t).

Definition purge_jobs (t : Table) (limit : Z) : result string (list StoredPurgeJob) :=
  collect (decode_purge_row <$> select_where (fun _ _ => true) by_created limit t).

Definition state_is (key : PurgeJobKey) (st : Z) (k : PurgeJobKey) (r : Row) : bool :=
  bool_decide (k = key) && (r_state r =? st)%Z.

Definition set_ready (now : Z) (revision : bytes) (r : Row) : Row :=
  {| r_target_path := r_target_path r; r_trash_path := r_trash_path r;
     source_device_be := source_device_be r; source_inode_be := source_inode_be r;
     r_trash_revision := Some revision; r_is_directory := r_is_directory r;
     r_state := PURGE_READY; r_attempts := r_attempts r;
     next_attempt_at_ms := now; created_at_ms := created_at_ms r; updated_at_ms := now |}.

Definition mark_purge_job_ready (t : Table) (now : Z) (key : PurgeJobKey) (revision : bytes)
    : result string (Table * bool) :=
  '(t, changed) ← update_where check (state_is key PURGE_PREPARED) (set_ready now revision) t;
  if (changed =? 1)%Z then Ok (t, true)
  else
    loaded ← load_purge_job t key;
    Ok (t, match loaded with
           | Some job => negb (bool_decide (pj_state job = Prepared))
                         && bool_decide (trash_revision job = Some revision)
           | None => false
           end).

Definition set_claimed (now : Z) (r : Row) : Row :=
  {| r_target_path := r_target_path r; r_trash_path := r_trash_path r;
     source_device_be := source_device_be r; source_inode_be := source_inode_be r;
     r_trash_revision := r_trash_revision r; r_is_directory := r_is_directory r;
     r_state := PURGE_CLAIMED; r_attempts := r_attempts r;
     next_attempt_at_ms := next_attempt_at_ms r; created_at_ms := created_at_ms r;
     updated_at_ms := now |}.

Definition due (now : Z) (_ : PurgeJobKey) (r : Row) : bool :=
  (r_state r =? PURGE_READY)%Z && (next_attempt_at_ms r <=? now)%Z.

Definition claim_due_purge_job (t : Table) (now : Z)
    : result string (Table * option StoredPurgeJob) :=
  match select_where (due now) by_due 1 t with
  | [] => Ok (t, None)
  | (k, _) :: _ =>
      key ← purge_key_from_database (owner k) (id k);
      '(t, changed) ← update_where check (state_is key PURGE_READY) (set_claimed now) t;
      _ ← ensure (changed =? 1)%Z "A selected purge job could not be claimed";
      loaded ← load_purge_job t key;
      job ← ok_or loaded "A claimed purge job disappeared";
      Ok (t, Some job)
  end.

Definition set_retry (now next_attempt : Z) (r : Row) : Row :=
  {| r_target_path := r_target_path r; r_trash_path := r_trash_path r;
     source_device_be := source_device_be r; source_inode_be := source_inode_be r;
     r_trash_revision := r_trash_revision r; r_is_directory := r_is_directory r;
     r_state := PURGE_READY; r_attempts := Z.min (r_attempts r + 1) 4294967295;
     next_attempt_at_ms := next_attempt; created_at_ms := created_at_ms r; updated_at_ms := now |}.

Definition retry_purge_job (t : Table) (now : Z) (key : PurgeJobKey) (delay_ms : Z)
    : result string (Table * bool) :=
  next_attempt ← expiration_time now delay_ms;
  '(t, changed) ← update_where check (state_is key PURGE_CLAIMED) (set_retry now next_attempt) t;
  Ok (t, (changed =? 1)%Z).

Definition complete_purge_job (t : Table) (key : PurgeJobKey) : Table * bool :=
  let '(t, removed) := delete_where (state_is key PURGE_CLAIMED) t in (t, (removed =? 1)%Z).

Definition remove_purge_job (t : Table) (key : PurgeJobKey) : Table * bool :=
  let '(t, removed) := delete_where (fun k _ => bool_decide (k = key)) t in (t, (removed =? 1)%Z).

(** The [purge_jobs] statements of [recover_database]. *)
Definition set_due (now : Z) (r : Row) : Row :=
  {| r_target_path := r_target_path r; r_trash_path := r_trash_path r;
     source_device_be := source_device_be r; source_inode_be := source_inode_be r;
     r_trash_revision := r_trash_revision r; r_is_directory := r_is_directory r;
     r_state := r_state r; r_attempts := r_attempts r;
     next_attempt_at_ms := now; created_at_ms := created_at_ms r; updated_at_ms := now |}.

Definition with_state (st : Z) (r : Row) : Row :=
  {| r_target_path := r_target_path r; r_trash_path := r_trash_path r;
     source_device_be := source_device_be r; source_inode_be := source_inode_be r;
     r_trash_revision := r_trash_revision r; r_is_directory := r_is_directory r;
     r_state := st; r_attempts := r_attempts r;
     next_attempt_at_ms := next_attempt_at_ms r; created_at_ms := created_at_ms r;
     updated_at_ms := updated_at_ms r |}.

Definition recover_purges (t : Table) (now : Z) : result string Table :=
  '(t, _) ← update_where check (fun _ r => (r_state r =? PURGE_CLAIMED)%Z)
              (fun r => set_due now (with_state PURGE_READY r)) t;
  '(t, _) ← update_where check
              (fun _ r => (r_state r =? PURGE_READY)%Z && (now <? next_attempt_at_ms r)%Z)
              (set_due now) t;
  Ok t.

(** ** The command stream *)

Inductive Command : Type :=
| Prepare (j : StoredPurgeJob) | MarkReady (key : PurgeJobKey) (revision : bytes)
| Claim | Retry (key : PurgeJobKey) (delay_ms : Z) | Complete (key : PurgeJobKey)
| RemoveJob (key : PurgeJobKey).

Inductive Reply : Type :=
| RPrepared (r : StorePurgeJob) | RBool (b : bool) | RClaimed (j : option StoredPurgeJob)
| RError (e : string).

Definition commit {A} (t : Table) (r : result string (Table * A)) (f : A -> Reply) : Table * Reply :=
  match r with
  | Ok (t', a) => (t', f a)
  | Err e => (t, RError e)
  end.

Definition exec (limits : Limits) (t : Table) (now : Z) (c : Command) : Table * Reply :=
  match c with
  | Prepare j => commit t (_ ← purge_validate_new j; prepare_purge_job limits t now j) RPrepared
  | MarkReady key revision => commit t (mark_purge_job_ready t now key revision) RBool
  | Claim => commit t (claim_due_purge_job t now) RClaimed
  | Retry key delay => commit t (retry_purge_job t now key delay) RBool
  | Complete key => commit t (Ok (complete_purge_job t key)) RBool
  | RemoveJob key => commit t (Ok (remove_purge_job t key)) RBool
  end.

Fixpoint run (limits : Limits) (t : Table) (cs : list (Z * Command)) : Table * list Reply :=
  match cs with
  | [] => (t, [])
  | (now, c) :: cs =>
      let '(t, r) := exec limits t now c in
      let '(t, rs) := run limits t cs in (t, r :: rs)
  end.
(** ** Well-formed rows *)

Record row_ok (k : PurgeJobKey) (r : Row) : Prop := {
  ro_key : key_wf k = true;
  ro_target : validate_stored_path (r_target_path r) "Purge target" = Ok tt;
  ro_trash : validate_stored_path (r_trash_path r) "Purge trash" = Ok tt;
  ro_differ : path_eqb (r_target_path r) (r_trash_path r) = false;
  ro_device : blob_length (source_device_be r) = 8%Z;
  ro_inode : blob_length (source_inode_be r) = 8%Z;
  ro_revision : forall v, r_trash_revision r = Some v -> blob_length v = 32%Z;
  ro_directory : r_is_directory r ∈ [0; 1]%Z;
  ro_state : r_state r ∈ [PURGE_PREPARED; PURGE_READY; PURGE_CLAIMED];
  ro_attempts : (0 <= r_attempts r <= U32_MAX)%Z }.

Definition state_of (z : Z) : StoredPurgeState :=
  if (z =? PURGE_PREPARED)%Z then Prepared else if (z =? PURGE_READY)%Z then Ready else Claimed.

(** The job a well-formed row stands for. *)
Definition job_of (k : PurgeJobKey) (r : Row) : StoredPurgeJob :=
  {| pj_key := k; pj_target_path := r_target_path r; pj_trash_path := r_trash_path r;
     source_identity := {| id_device := be_val (source_device_be r);
                           id_inode := be_val (source_inode_be r) |};
     trash_revision := r_trash_revision r; is_directory := (r_is_directory r =? 1)%Z;
     pj_state := state_of (r_state r); attempts := r_attempts r |}.

Lemma check_ok k r : row_ok k r -> check k r = true.
Proof.
  intros [Hk Ht%UploadStore.validate_path_bounds Hs%UploadStore.validate_path_bounds Hp Hd Hi Hr Hdir Hst Hatt].
  apply UploadStore.key_wf_lengths in Hk as [Hk1 Hk2]. unfold check, in_range, U32_MAX in *.
  rewrite Hk1, Hk2, Hd, Hi.
  assert (r_target_path r <> r_trash_path r) as Hne.
  { intros E. rewrite E in Hp. unfold path_eqb in Hp. by split_bool. }
  repeat (apply andb_true_iff; split); try (apply Z.leb_le; lia); try done.
  - destruct (r_trash_revision r) as [v|]; [|done]. cbn. by rewrite (Hr v).
  - by apply bool_decide_eq_true.
  - by apply bool_decide_eq_true.
  - by rewrite bool_decide_false.
Qed.

Lemma decode_ok k r : row_ok k r -> decode_purge_row (k, r) = Ok (job_of k r).
Proof.
  intros [Hk Ht Hs Hp Hd Hi Hr Hdir Hst Hatt]. apply UploadStore.key_wf_lengths in Hk as [Hk1 Hk2].
  unfold decode_purge_row, purge_key_from_database. rewrite bool_decide_true by done.
  rewrite !(proj2 (UploadStore.fixed_Ok _ _ _ _)) by done. cbn [ensure mbind result_bind].
  assert (match r_trash_revision r with
          | Some revision =>
              rv ← UploadStore.fixed 32 revision "Purge trash revision has an invalid length";
              Ok (Some rv)
          | None => Ok None
          end = Ok (r_trash_revision r)) as ->.
  { destruct (r_trash_revision r) as [v|]; [|done].
    by rewrite (proj2 (UploadStore.fixed_Ok _ _ _ v)) by auto. }
  assert (purge_state_from_database (r_state r) = Ok (state_of (r_state r))) as ->.
  { rewrite !elem_of_cons, elem_of_nil in Hst. destruct Hst as [-> | [-> | [-> | []]]]; done. }
  unfold u32_try_from, in_range. rewrite (proj2 (Z.leb_le 0 _)), (proj2 (Z.leb_le _ U32_MAX)) by lia.
  cbn [ok_or mbind result_bind andb pj_target_path pj_trash_path]. rewrite Ht, Hs, Hp. cbn. by destruct k.
Qed.

Definition trash_unique (t : Table) : Prop :=
  forall k1 k2 r1 r2, t !! k1 = Some r1 -> t !! k2 = Some r2 ->
    r_trash_path r1 = r_trash_path r2 -> k1 = k2.

Record table_ok (limits : Limits) (t : Table) : Prop := {
  to_rows : map_Forall row_ok t;
  to_trash : trash_unique t;
  to_capacity : (count_where (fun _ _ => true) t <= purge_capacity limits)%Z;
  to_owner : forall ow, (count_where (fun k _ => bool_decide (owner k = ow)) t
                           <= purge_per_owner limits)%Z }.

Lemma purge_table_mono limits t t' :
  table_ok limits t -> map_Forall row_ok t' ->
  (forall k r', t' !! k = Some r' -> exists r, t !! k = Some r /\ r_trash_path r = r_trash_path r') ->
  table_ok limits t'.
Proof.
  intros [Hr Hu Hc Ho] Hr' Hsub. split; [done| | |].
  - intros k1 k2 r1 r2 (x1 & Hx1 & E1)%Hsub (x2 & Hx2 & E2)%Hsub E. eapply Hu; [done..|]. congruence.
  - etrans; [|exact Hc]. apply count_where_mono. intros k r (x & ? & _)%Hsub. eauto.
  - intros ow. etrans; [|apply (Ho ow)]. apply count_where_mono. intros k r (x & ? & _)%Hsub ?. eauto.
Qed.

Lemma purge_table_update limits t key r r' :
  table_ok limits t -> t !! key = Some r -> row_ok key r' -> r_trash_path r' = r_trash_path r ->
  table_ok limits (<[key := r']> t).
Proof.
  intros Ht Hr Hr' Hp. apply (purge_table_mono _ _ _ Ht).
  - apply map_Forall_insert_2; [done|apply Ht].
  - intros k x Hx. apply lookup_insert_Some in Hx as [[<- <-]|[_ Hx]]; eauto.
Qed.

Lemma table_ok_delete limits t key : table_ok limits t -> table_ok limits (delete key t).
Proof.
  intros Ht. apply (purge_table_mono _ _ _ Ht).
  - apply map_Forall_delete, Ht.
  - intros k x [_ Hx]%lookup_delete_Some. eauto.
Qed.

(** ** Single-row statements *)

Lemma state_is_key key st k r : state_is key st k r = true -> k = key.
Proof. unfold state_is. intros H. by split_bool. Qed.

Lemma state_is_self key st r : state_is key st key r = (r_state r =? st)%Z.
Proof. unfold state_is. by rewrite bool_decide_true. Qed.

Lemma update_state key st f (t : Table) :
  (forall r, t !! key = Some r -> r_state r = st -> row_ok key (f r)) ->
  update_where check (state_is key st) f t =
  Ok (match t !! key with
      | Some r => if (r_state r =? st)%Z then (<[key := f r]> t, 1%Z) else (t, 0%Z)
      | None => (t, 0%Z)
      end).
Proof.
  intros Hf.
  assert (update_where check (state_is key st) f t =
    Ok (apply_where (state_is key st) f t, count_where (state_is key st) t)) as ->.
  { apply update_where_Ok. split; [|done]. intros k r Hr Hs.
    pose proof (state_is_key _ _ _ _ Hs) as ->. rewrite state_is_self in Hs. split_bool.
    apply check_ok. eauto. }
  rewrite (apply_key _ _ _ key), (count_key _ _ key) by eauto using state_is_key.
  destruct (t !! key) as [r|]; [|done]. rewrite state_is_self. by destruct (r_state r =? st)%Z.
Qed.

Lemma delete_state key st (t : Table) :
  delete_where (state_is key st) t =
  match t !! key with
  | Some r => if (r_state r =? st)%Z then (delete key t, 1%Z) else (t, 0%Z)
  | None => (t, 0%Z)
  end.
Proof.
  pose proof (delete_key (state_is key st) t key ltac:(eauto using state_is_key)) as H1.
  pose proof (count_key (state_is key st) t key ltac:(eauto using state_is_key)) as H2.
  unfold delete_where in *. cbn in H1. rewrite H1, H2. destruct (t !! key) as [r|]; [|done].
  rewrite state_is_self. by destruct (r_state r =? st)%Z.
Qed.

Lemma delete_job key (t : Table) :
  delete_where (fun k _ => bool_decide (k = key)) t =
  match t !! key with Some _ => (delete key t, 1%Z) | None => (t, 0%Z) end.
Proof.
  set (p := fun k (_ : Row) => bool_decide (k = key)).
  assert (forall k r, p k r = true -> k = key) as Hp by (intros ? ? ?; unfold p in *; by split_bool).
  pose proof (delete_key p t key Hp) as H1. pose proof (count_key p t key Hp) as H2.
  unfold delete_where in *. cbn in H1. rewrite H1, H2. unfold p.
  destruct (t !! key) as [r|]; [|done]. by rewrite bool_decide_true.
Qed.
(** ** Claiming *)

Definition due_rank (a : PurgeJobKey * Row) : Z * (Z * PurgeJobKey) :=
  (next_attempt_at_ms a.2, (created_at_ms a.2, a.1)).

Lemma by_due_rank a b :
  by_due a b = pair_cmp Z.compare (pair_cmp Z.compare key_cmp) (due_rank a) (due_rank b).
Proof. done. Qed.

#[global] Instance by_due_total : Total (cmp_le by_due).
Proof. intros a b. unfold cmp_le. rewrite !by_due_rank. apply (cmp_le_total _ (due_rank a) (due_rank b)). Qed.
#[global] Instance by_due_trans : Transitive (cmp_le by_due).
Proof.
  intros a b c. unfold cmp_le. rewrite !by_due_rank.
  apply (cmp_le_trans _ (due_rank a) (due_rank b) (due_rank c)).
Qed.

Lemma row_ok_claimed k now r : row_ok k r -> row_ok k (set_claimed now r).
Proof. intros []. split; cbn; try done. set_solver. Qed.
Lemma row_ok_ready k now v r : row_ok k r -> blob_length v = 32%Z -> row_ok k (set_ready now v r).
Proof. intros [] Hv. split; cbn; try done; [by intros ? [= <-]|set_solver]. Qed.
Lemma row_ok_retry k now n r : row_ok k r -> row_ok k (set_retry now n r).
Proof. intros []. split; cbn; try done; [set_solver|]. unfold U32_MAX in *. lia. Qed.
Lemma row_ok_due k now r : row_ok k r -> row_ok k (set_due now r).
Proof. intros []. by split. Qed.
Lemma row_ok_with_ready k r : row_ok k r -> row_ok k (with_state PURGE_READY r).
Proof. intros []. split; cbn; try done. set_solver. Qed.

Lemma purge_key_ok k : key_wf k = true -> purge_key_from_database (owner k) (id k) = Ok k.
Proof.
  intros [H1 H2]%UploadStore.key_wf_lengths. unfold purge_key_from_database.
  rewrite !(proj2 (UploadStore.fixed_Ok _ _ _ _)) by done. cbn. by destruct k.
Qed.

Lemma load_purge_ok t k r : t !! k = Some r -> row_ok k r -> load_purge_job t k = Ok (Some (job_of k r)).
Proof. intros Hr Hok. unfold load_purge_job. by rewrite Hr, decode_ok. Qed.

Lemma claim_cases t now :
  map_Forall row_ok t ->
  (claim_due_purge_job t now = Ok (t, None) /\ forall k r, t !! k = Some r -> due now k r = false) \/
  (exists k r, t !! k = Some r /\ due now k r = true /\
     (forall k' r', t !! k' = Some r' -> due now k' r' = true -> cmp_le by_due (k, r) (k', r')) /\
     claim_due_purge_job t now =
       Ok (<[k := set_claimed now r]> t, Some (job_of k (set_claimed now r)))).
Proof.
  intros Ht. unfold claim_due_purge_job. pose proof (select_one (due now) by_due t) as Hsel.
  destruct (select_where (due now) by_due 1 t) as [|[k r] l]; [by left|].
  destruct Hsel as (-> & Hr & Hd & Hmin). right. exists k, r. split_and!; [done..|].
  specialize (Ht k r Hr). rewrite purge_key_ok by apply Ht. cbn [mbind result_bind].
  rewrite update_state; [|intros r0 Hr0 _; rewrite Hr in Hr0; injection Hr0 as <-; by apply row_ok_claimed].
  rewrite Hr. assert ((r_state r =? PURGE_READY)%Z = true) as -> by (unfold due in Hd; by apply andb_true_iff in Hd as [-> _]).
  cbn [mbind result_bind]. change (1 =? 1)%Z with true. cbn [ensure mbind result_bind].
  rewrite (load_purge_ok _ k (set_claimed now r)); [done|apply lookup_insert_eq|by apply row_ok_claimed].
Qed.

(** ** One command *)

(** A well-typed job: its numbers are unsigned 64-bit ones. *)
Definition job_typed (j : StoredPurgeJob) : Prop :=
  key_wf (pj_key j) = true /\ is_u64 (id_device (source_identity j)) /\
  is_u64 (id_inode (source_identity j)).

Definition command_ok (now : Z) (c : Command) : Prop :=
  match c with
  | Prepare j => job_typed j /\ purge_validate_new j = Ok tt
  | MarkReady _ v => blob_length v = 32%Z
  | Retry _ delay => is_i64 (now + delay)
  | _ => True
  end.

Lemma fresh_row_ok j now :
  job_typed j -> purge_validate_new j = Ok tt -> row_ok (pj_key j) (fresh_row j now).
Proof.
  intros (Hk & Hd & Hi) Hv. unfold purge_validate_new in Hv. inv_result. split_bool. destruct a, a0.
  split; cbn; try done.
  - destruct (is_directory j); set_solver.
  - set_solver.
Qed.

Lemma count_zero (p : PurgeJobKey -> Row -> bool) (t : Table) :
  (0 <? count_where p t)%Z = false -> forall k r, t !! k = Some r -> p k r = false.
Proof.
  unfold count_where. intros Hc k r Hr. split_bool. apply not_true_iff_false. intros Hp.
  assert (hits p t = ∅) as He by (apply map_size_empty_inv; lia).
  assert (hits p t !! k = Some r) as Hx by (by apply lookup_hits).
  by rewrite He, lookup_empty in Hx.
Qed.

Lemma prepare_cases limits t now j :
  table_ok limits t -> job_typed j -> purge_validate_new j = Ok tt ->
  (exists a, prepare_purge_job limits t now j = Ok (t, a) /\ a <> PurgeInserted) \/
  (t !! pj_key j = None /\
   prepare_purge_job limits t now j = Ok (<[pj_key j := fresh_row j now]> t, PurgeInserted) /\
   table_ok limits (<[pj_key j := fresh_row j now]> t)).
Proof.
  intros Ht Hty Hv. unfold prepare_purge_job. destruct (t !! pj_key j) as [r|] eqn:Er.
  - rewrite (load_purge_ok _ _ r Er) by (by apply (to_rows _ _ Ht)). cbn [mbind result_bind].
    left. eexists. split; [done|]. by case_match.
  - unfold load_purge_job. rewrite Er. cbn [mbind result_bind].
    destruct (0 <? _)%Z eqn:Etr; [left; by eexists|].
    destruct (_ || _) eqn:El; [left; by eexists|]. right. split; [done|].
    pose proof (fresh_row_ok j now Hty Hv) as Hok.
    unfold insert_job. cbn [r_trash_path fresh_row]. rewrite Etr.
    rewrite (proj2 (insert_row_Ok check _ _ t _)) by (split; [done|]; split; [by apply check_ok|done]).
    split; [done|]. pose proof (count_zero _ _ Etr) as Hno. split_bool. destruct Ht as [Hrow Hu Hc Ho].
    split.
    + by apply map_Forall_insert_2.
    + intros k1 k2 r1 r2 H1 H2 E.
      apply lookup_insert_Some in H1 as [[<- <-]|[_ H1]];
        apply lookup_insert_Some in H2 as [[<- <-]|[_ H2]]; [done| | |by eapply Hu].
      * apply Hno in H2. unfold trash_is in H2. by split_bool.
      * apply Hno in H1. unfold trash_is in H1. by split_bool.
    + rewrite count_where_insert_None by done. cbv beta iota. lia.
    + intros ow. rewrite count_where_insert_None by done.
      case_bool_decide as Eo; [subst; lia|specialize (Ho ow); lia].
Qed.
(** What one command may do to the table: leave it, add a fresh job, rewrite the
    row of one key without touching its trash path, or drop one. *)
Variant step (limits : Limits) (t : Table) (now : Z) (c : Command) : Table -> Reply -> Prop :=
| st_same a : (forall j, a <> RClaimed (Some j)) -> (forall e, a <> RError e) -> step limits t now c t a
| st_insert j : c = Prepare j -> t !! pj_key j = None -> 
    table_ok limits (<[pj_key j := fresh_row j now]> t) ->
    step limits t now c (<[pj_key j := fresh_row j now]> t) (RPrepared PurgeInserted)
| st_ready k r v : c = MarkReady k v -> t !! k = Some r -> r_state r = PURGE_PREPARED ->
    step limits t now c (<[k := set_ready now v r]> t) (RBool true)
| st_claim k r : c = Claim -> t !! k = Some r -> due now k r = true ->
    (forall k' r', t !! k' = Some r' -> due now k' r' = true -> cmp_le by_due (k, r) (k', r')) ->
    step limits t now c (<[k := set_claimed now r]> t) (RClaimed (Some (job_of k (set_claimed now r))))
| st_retry k r delay : c = Retry k delay -> t !! k = Some r -> r_state r = PURGE_CLAIMED ->
    step limits t now c (<[k := set_retry now (now + delay) r]> t) (RBool true)
| st_delete k : c = Complete k \/ c = RemoveJob k -> step limits t now c (delete k t) (RBool true).

Lemma purge_exec_step limits t now c :
  table_ok limits t -> command_ok now c ->
  step limits t now c (exec limits t now c).1 (exec limits t now c).2.
Proof.
  intros Ht Hc. destruct c as [j|k v| |k delay|k|k]; cbn [exec].
  - destruct Hc as [Hty Hv]. rewrite Hv. cbn [mbind result_bind].
    destruct (prepare_cases limits t now j Ht Hty Hv) as [(a & -> & _)|(Hn & -> & Hok)]; cbn;
      [by apply st_same|by apply st_insert].
  - unfold mark_purge_job_ready. rewrite update_state.
    2:{ intros r Hr _. apply row_ok_ready; [by apply (to_rows _ _ Ht)|done]. }
    destruct (t !! k) as [r|] eqn:Er.
    + destruct (Z.eqb_spec (r_state r) PURGE_PREPARED); cbn; [by apply st_ready|].
      rewrite (load_purge_ok _ _ r Er) by (by apply (to_rows _ _ Ht)). cbn. by apply st_same.
    + cbn. unfold load_purge_job. rewrite Er. cbn. by apply st_same.
  - destruct (claim_cases t now (to_rows _ _ Ht)) as [[-> _]|(k & r & Hr & Hd & Hmin & ->)]; cbn;
      [by apply st_same|by apply st_claim].
  - unfold retry_purge_job, expiration_time.
    rewrite (proj2 (i64_checked_add_Some _ _ _)) by done. cbn [ok_or mbind result_bind].
    rewrite update_state by (intros r Hr _; apply row_ok_retry; by apply (to_rows _ _ Ht)).
    destruct (t !! k) as [r|] eqn:Er; [|cbn; by apply st_same].
    destruct (Z.eqb_spec (r_state r) PURGE_CLAIMED); cbn; [by apply st_retry|by apply st_same].
  - unfold complete_purge_job. rewrite delete_state. destruct (t !! k) as [r|] eqn:Er; [|cbn; by apply st_same].
    destruct (r_state r =? PURGE_CLAIMED)%Z; cbn; [apply st_delete; by left|by apply st_same].
  - unfold remove_purge_job. rewrite delete_job.
    destruct (t !! k) as [r|] eqn:Er; cbn; [apply st_delete; by right|by apply st_same].
Qed.

Lemma purge_step_ok limits t now c t' a :
  command_ok now c -> table_ok limits t -> step limits t now c t' a -> table_ok limits t'.
Proof.
  intros Hc Ht [b|j -> Hn Hok|k r v -> Hr Hs|k r -> Hr Hd Hmin|k r d -> Hr Hs|k _]; try done.
  - eapply purge_table_update; [done..| |done]. apply row_ok_ready; [by apply (to_rows _ _ Ht)|done].
  - eapply purge_table_update; [done..| |done]. apply row_ok_claimed. by apply (to_rows _ _ Ht).
  - eapply purge_table_update; [done..| |done]. apply row_ok_retry. by apply (to_rows _ _ Ht).
  - by apply table_ok_delete.
Qed.

(** The purge table keeps its promises: from a table of well-formed rows
    with distinct trash paths within the limits, every well-typed command
    succeeds and leaves such a table behind (in particular the attempt counter
    saturates at the largest 32-bit number instead of overflowing). *)
Lemma purge_store_total limits (t : Table) now c :
  table_ok limits t -> command_ok now c ->
  table_ok limits (exec limits t now c).1 /\ forall e, (exec limits t now c).2 <> RError e.
Proof.
  intros Ht Hc. pose proof (purge_exec_step limits t now c Ht Hc) as Hs. split.
  - by eapply purge_step_ok.
  - by destruct Hs.
Qed.

(** The worker always gets the job that has been due longest: claiming on a
    well-formed table either answers that no job is due, or returns a ready job
    whose time has come, least in the order of next attempt, creation and key
    among all due jobs, and marks exactly that job as claimed. *)
Lemma claim_earliest_due (t : Table) now :
  map_Forall row_ok t ->
  (claim_due_purge_job t now = Ok (t, None) /\ forall k r, t !! k = Some r -> due now k r = false) \/
  (exists k r, t !! k = Some r /\ r_state r = PURGE_READY /\ (next_attempt_at_ms r <= now)%Z /\
     (forall k' r', t !! k' = Some r' -> due now k' r' = true -> cmp_le by_due (k, r) (k', r')) /\
     claim_due_purge_job t now =
       Ok (<[k := set_claimed now r]> t, Some (job_of k (set_claimed now r)))).
Proof.
  intros Ht. destruct (claim_cases t now Ht) as [?|(k & r & Hr & Hd & Hmin & E)]; [by left|right].
  exists k, r. unfold due in Hd. split_bool. done.
Qed.

(** Whether a command gives up the claim on [key]. *)
Definition releases (key : PurgeJobKey) (c : Command) : bool :=
  match c with
  | Retry k _ | Complete k | RemoveJob k => bool_decide (k = key)
  | _ => false
  end.

Lemma step_claimed limits t now c t' a key r :
  step limits t now c t' a -> t !! key = Some r -> r_state r = PURGE_CLAIMED ->
  releases key c = false ->
  t' !! key = Some r /\ forall j, a = RClaimed (Some j) -> pj_key j <> key.
Proof.
  intros Hs Hr Hst Hrel.
  destruct Hs as [b Hb _|j -> Hn _|k r0 v -> Hr0 Hs|k r0 -> Hr0 Hd _|k r0 d -> Hr0 Hs|k Hc].
  - split; [done|]. intros j ->. by specialize (Hb j).
  - split; [|done]. rewrite lookup_insert_ne; [done|congruence].
  - split; [|done]. rewrite lookup_insert_ne; [done|]. intros ->. simplify_eq. by rewrite Hst in Hs.
  - assert (k <> key) as Hne.
    { intros ->. simplify_eq. unfold due in Hd. rewrite Hst in Hd. done. }
    split; [by rewrite lookup_insert_ne|]. intros j [= <-]. done.
  - cbn in Hrel. split_bool. split; [by rewrite lookup_insert_ne|done].
  - assert (k <> key) as Hne by (destruct Hc as [-> | ->]; cbn in Hrel; by split_bool).
    split; [by rewrite lookup_delete_ne|done].
Qed.

(** A claimed job belongs to one worker: until a retry, completion or
    removal names its key, no sequence of commands changes the job's row or hands
    the job out again. *)
Lemma claim_exclusive limits (cs : list (Z * Command)) (t : Table) key r :
  table_ok limits t -> Forall (fun c => command_ok c.1 c.2) cs ->
  t !! key = Some r -> r_state r = PURGE_CLAIMED ->
  Forall (fun c => releases key c.2 = false) cs ->
  (run limits t cs).1 !! key = Some r /\
  forall j, RClaimed (Some j) ∈ (run limits t cs).2 -> pj_key j <> key.
Proof.
  revert t. induction cs as [|[now c] cs IH]; intros t Ht Hcs Hr Hst Hrel.
  { split; [done|]. intros j Hj. by apply not_elem_of_nil in Hj. }
  apply Forall_cons in Hcs as [Hc Hcs]. apply Forall_cons in Hrel as [Hr0 Hrel]. cbn in Hc, Hr0.
  pose proof (purge_exec_step limits t now c Ht Hc) as Hs. cbn [run].
  destruct (exec limits t now c) as [t1 a1]. cbn in Hs.
  destruct (step_claimed _ _ _ _ _ _ key r Hs Hr Hst Hr0) as [Hr1 Ha].
  destruct (IH t1 (purge_step_ok _ _ _ _ _ _ Hc Ht Hs) Hcs Hr1 Hst Hrel) as [Hfin Hrest].
  destruct (run limits t1 cs) as [t2 as2]. split; [done|].
  intros j [<-|Hj]%elem_of_cons; [by apply Ha|by apply Hrest].
Qed.

(** ** Recovery *)

Definition recovered_row (now : Z) (r : Row) : Row :=
  if (r_state r =? PURGE_CLAIMED)%Z then set_due now (with_state PURGE_READY r)
  else if ((r_state r =? PURGE_READY) && (now <? next_attempt_at_ms r))%Z then set_due now r
  else r.

Lemma recover_purges_requeued (t : Table) now :
  map_Forall row_ok t ->
  exists t', recover_purges t now = Ok t' /\
    (forall k, t' !! k = recovered_row now <$> t !! k) /\
    map_Forall (fun k r => row_ok k r /\ r_state r <> PURGE_CLAIMED /\
      (r_state r = PURGE_READY -> due now k r = true)) t'.
Proof.
  intros Ht. unfold recover_purges.
  set (p1 := fun (_ : PurgeJobKey) r => (r_state r =? PURGE_CLAIMED)%Z).
  set (f1 := fun r => set_due now (with_state PURGE_READY r)).
  assert (forall k r, row_ok k r -> row_ok k (f1 r)) as Hf1
    by (intros; by apply row_ok_due, row_ok_with_ready).
  assert (update_where check p1 f1 t = Ok (apply_where p1 f1 t, count_where p1 t)) as ->.
  { apply update_where_Ok. split; [|done]. intros k r Hr _. apply check_ok, Hf1. by apply Ht. }
  cbn [mbind result_bind]. set (p2 := fun (_ : PurgeJobKey) r => _ && _).
  assert (forall k r, apply_where p1 f1 t !! k = Some r -> row_ok k r) as H1.
  { intros k r. rewrite lookup_apply_where. intros (r0 & Hr0 & ->)%fmap_Some.
    specialize (Ht k r0 Hr0). destruct (p1 k r0); auto. }
  set (t1 := apply_where p1 f1 t) in *.
  assert (update_where check p2 (set_due now) t1 = Ok (apply_where p2 (set_due now) t1, count_where p2 t1)) as ->.
  { apply update_where_Ok. split; [|done]. intros k r Hr _. apply check_ok, row_ok_due. by apply H1. }
  eexists. split; [done|].
  assert (forall k, apply_where p2 (set_due now) t1 !! k = recovered_row now <$> t !! k) as Hl.
  { intros k. unfold t1. rewrite !lookup_apply_where. destruct (t !! k) as [r|]; [|done]. cbn. f_equal.
    unfold recovered_row, p1, p2, f1. destruct (r_state r =? PURGE_CLAIMED)%Z eqn:E; [|done].
    cbn. by rewrite Z.ltb_irrefl. }
  split; [done|]. intros k r Hr. rewrite Hl in Hr. apply fmap_Some in Hr as (r0 & Hr0 & ->).
  specialize (Ht k r0 Hr0). unfold recovered_row, due.
  destruct (Z.eqb_spec (r_state r0) PURGE_CLAIMED).
  - split; [by apply Hf1|]. split; [done|]. cbn. by rewrite Z.leb_refl.
  - destruct (Z.eqb_spec (r_state r0) PURGE_READY) as [E|]; [destruct (Z.ltb_spec now (next_attempt_at_ms r0))|];
      cbn; (split; [auto using row_ok_due|]); (split; [done|]); intros Hx.
    + by rewrite E, Z.leb_refl.
    + rewrite E. by rewrite (proj2 (Z.leb_le _ _)).
    + done.
Qed.

(** Recovery loses no deletion: it succeeds on any table of well-formed
    rows, keeps every job, leaves none claimed, and makes every job that was
    ready or claimed due at once, with its attempts and paths unchanged. *)
Lemma recovery_requeues_purges (t : Table) now :
  map_Forall row_ok t ->
  exists t', recover_purges t now = Ok t' /\
    (forall k, t' !! k = recovered_row now <$> t !! k) /\
    map_Forall (fun k r => row_ok k r /\ r_state r <> PURGE_CLAIMED /\
      (r_state r = PURGE_READY -> due now k r = true)) t'.
Proof. apply recover_purges_requeued. Qed.
(** ** A concrete table *)

Definition key0 : PurgeJobKey := {| owner := replicate 32 x41; id := replicate 16 x42 |}.
Definition job0 : StoredPurgeJob :=
  {| pj_key := key0; pj_target_path := str "a/b"; pj_trash_path := str "a/.trash-1";
     source_identity := {| id_device := 1; id_inode := 2 |}; trash_revision := None;
     is_directory := true; pj_state := Prepared; attempts := 0 |}.
Definition limits0 : Limits :=
  {| capacity := 2; per_owner := 1; ttl_ms := 1000; upload_ttl_ms := 1000; upload_capacity := 2;
     upload_per_owner := 1; purge_capacity := 2; purge_per_owner := 1 |}.
Definition revision0 : bytes := replicate 32 x43.
Definition ready0 : Row := set_ready 6 revision0 (fresh_row job0 5).
Definition claimed0 : Row := set_claimed 7 ready0.

Lemma job0_typed : job_typed job0.
Proof. split; [by vm_compute|]. split; split; by vm_compute. Qed.
Lemma ready0_ok : row_ok key0 ready0.
Proof. apply row_ok_ready; [|done]. apply (fresh_row_ok job0 5); [apply job0_typed|by vm_compute]. Qed.
Lemma claimed0_ok : row_ok key0 claimed0.
Proof. apply row_ok_claimed, ready0_ok. Qed.

Lemma purges0_ok k r : row_ok k r -> table_ok limits0 {[k := r]}.
Proof.
  intros Hr. split.
  - by apply map_Forall_singleton.
  - intros k1 k2 r1 r2 H1 H2 _. apply lookup_singleton_Some in H1 as [<- _], H2 as [<- _]. done.
  - unfold count_where, hits. rewrite map_filter_singleton. case_decide;
      rewrite ?map_size_singleton, ?map_size_empty; done.
  - intros ow. unfold count_where, hits. rewrite map_filter_singleton. case_decide;
      rewrite ?map_size_singleton, ?map_size_empty; done.
Qed.


Lemma claim_earliest_due_witness :
  claim_due_purge_job {[key0 := ready0]} 9 <> Ok ({[key0 := ready0]}, None).
Proof.
  destruct (claim_earliest_due {[key0 := ready0]} 9) as [[_ H]|(k & r & _ & _ & _ & _ & E)].
  - apply map_Forall_singleton, ready0_ok.
  - specialize (H key0 ready0 (lookup_singleton_eq _ _)). vm_compute in H. discriminate H.
  - rewrite E. discriminate.
Defined.

Lemma claim_exclusive_witness :
  (run limits0 {[key0 := claimed0]} [(9, Claim); (10, MarkReady key0 revision0)]%Z).1 !! key0
  = Some claimed0.
Proof.
  apply (claim_exclusive limits0 [(9, Claim); (10, MarkReady key0 revision0)]%Z
           {[key0 := claimed0]} key0 claimed0).
  - apply (purges0_ok key0), claimed0_ok.
  - repeat constructor.
  - apply lookup_singleton_eq.
  - reflexivity.
  - repeat constructor.
Defined.

Lemma recovery_requeues_purges_witness :
  exists t', recover_purges {[key0 := claimed0]} 50 = Ok t' /\
    t' !! key0 = Some (set_due 50 (with_state PURGE_READY claimed0)).
Proof.
  destruct (recovery_requeues_purges {[key0 := claimed0]} 50) as (t' & E & Hl & _).
  - apply map_Forall_singleton, claimed0_ok.
  - exists t'. split; [exact E|]. rewrite Hl, lookup_singleton_eq. reflexivity.
Defined.
End PurgeStore.
