(* ===== verification/Utils.v ===== *)
(** * Shared text helpers

    [src/utils.rs] and the integer parsing of the standard library it and the
    header parsers use: hexadecimal digests, decimal integers, and the single
    byte range of a [Range] header. *)

From S2P Require Import Prelude Paths.

Module Utils.

(** ** Hexadecimal *)

Definition DIGITS : bytes := str "0123456789abcdef".

Definition hex_digit (nibble : Z) : byte := default x00 (DIGITS !! Z.to_nat nibble).

Definition encode_hex (input : bytes) : bytes :=
  concat (map (fun b => [hex_digit (Z.shiftr (byte_val b) 4); hex_digit (Z.land (byte_val b) 15)]) input).

Definition hex_nibble (value : byte) : option Z :=
  let v := byte_val value in
  if ((48 <=? v) && (v <=? 57))%Z then Some (v - 48)%Z
  else if ((97 <=? v) && (v <=? 102))%Z then Some (v - 97 + 10)%Z
  else if ((65 <=? v) && (v <=? 70))%Z then Some (v - 65 + 10)%Z
  else None.

(** The pairs of the input, each decoded into one slot of the output. *)
Fixpoint decode_pairs (input : bytes) : option bytes :=
  match input with
  | h :: l :: input =>
      high ← hex_nibble h; low ← hex_nibble l;
      rest ← decode_pairs input; Some (byte_of (Z.lor (Z.shiftl high 4) low) :: rest)
  | _ => Some []
  end.

(** [decode_hex_to_slice] fills an output of [n] bytes; [None] is [false]. *)
Definition decode_hex_to_slice (input : bytes) (n : nat) : option bytes :=
  if negb (length input =? n * 2)%nat then None else decode_pairs input.

(** ** Decimal *)

Definition is_ascii_digit (b : byte) : bool := ((48 <=? byte_val b) && (byte_val b <=? 57))%Z.

(** The accumulation of [u64::from_str]: overflow is an error. *)
Fixpoint parse_digits (acc : Z) (l : bytes) : option Z :=
  match l with
  | [] => Some acc
  | b :: l =>
      if is_ascii_digit b then
        acc ← u64_checked_mul acc 10;
        acc ← u64_checked_add acc (byte_val b - 48)%Z;
        parse_digits acc l
      else None
  end.

(** [str::parse::<u64>]: a leading [+] is allowed, an empty number is not. *)
Definition parse_u64 (l : bytes) : option Z :=
  let digits := match l with x2b :: rest => rest | _ => l end in
  if bool_decide (digits = []) then None else parse_digits 0 digits.

(** [u64::to_string] *)
Definition decimal_digit (d : Z) : byte := byte_of (48 + d).
Fixpoint decimal_loop (fuel : nat) (n : Z) (acc : bytes) : bytes :=
  match fuel with
  | O => acc
  | S fuel =>
      let acc := decimal_digit (n mod 10)%Z :: acc in
      if (n <? 10)%Z then acc else decimal_loop fuel (n / 10)%Z acc
  end.
Definition u64_to_string (n : Z) : bytes := decimal_loop 20 n [].

(** ** Byte ranges *)

Definition ascii_lower (b : byte) : byte :=
  if ((65 <=? byte_val b) && (byte_val b <=? 90))%Z then byte_of (byte_val b + 32) else b.
Definition eq_ignore_ascii_case (a b : bytes) : bool :=
  bool_decide (map ascii_lower a = map ascii_lower b).

(** [str::trim]: the characters with the Unicode property White_Space, as UTF-8. *)
Definition WHITE_SPACE : list bytes :=
  [[x09]; [x0a]; [x0b]; [x0c]; [x0d]; [x20]; [xc2; x85]; [xc2; xa0]; [xe1; x9a; x80];
   [xe2; x80; x80]; [xe2; x80; x81]; [xe2; x80; x82]; [xe2; x80; x83]; [xe2; x80; x84];
   [xe2; x80; x85]; [xe2; x80; x86]; [xe2; x80; x87]; [xe2; x80; x88]; [xe2; x80; x89];
   [xe2; x80; x8a]; [xe2; x80; xa8]; [xe2; x80; xa9]; [xe2; x80; xaf]; [xe2; x81; x9f];
   [xe3; x80; x80]].
Fixpoint first_some {A B} (f : A -> option B) (l : list A) : option B :=
  match l with
  | [] => None
  | a :: l => match f a with Some b => Some b | None => first_some f l end
  end.
Fixpoint trim_loop (fuel : nat) (separators : list bytes) (l : bytes) : bytes :=
  match fuel with
  | O => l
  | S fuel =>
      match first_some (fun w => strip_prefix w l) separators with
      | Some rest => trim_loop fuel separators rest
      | None => l
      end
  end.
Definition trim_start (l : bytes) : bytes := trim_loop (length l) WHITE_SPACE l.
Definition trim_end (l : bytes) : bytes :=
  reverse (trim_loop (length l) (map reverse WHITE_SPACE) (reverse l)).
Definition trim (l : bytes) : bytes := trim_end (trim_start l).

Inductive ParsedRange : Type :=
| Ignore | Satisfiable (first last : Z) | Unsatisfiable.

Definition parse_range (range : bytes) (size : Z) : ParsedRange :=
  match split_once x3d range with
  | None => Unsatisfiable
  | Some (unit, range) =>
      if negb (eq_ignore_ascii_case unit (str "bytes")) then Ignore
      else if bool_decide (x2c ∈ range) then Unsatisfiable
      else
        match split_once x2d (trim range) with
        | None => Unsatisfiable
        | Some (start, last) =>
            if bool_decide (start = []) then
              match parse_u64 last with
              | None => Unsatisfiable
              | Some length =>
                  if (length =? 0)%Z || (size =? 0)%Z then Unsatisfiable
                  else let length := Z.min length size in Satisfiable (size - length) (size - 1)
              end
            else
              match parse_u64 start with
              | None => Unsatisfiable
              | Some start =>
                  if (size <=? start)%Z then Unsatisfiable
                  else if bool_decide (last = []) then Satisfiable start (size - 1)
                  else
                    match parse_u64 last with
                    | None => Unsatisfiable
                    | Some last =>
                        if (last <? start)%Z then Unsatisfiable
                        else Satisfiable start (Z.min last (size - 1))
                    end
              end
        end
  end.

(** ** Hexadecimal digests *)

Lemma hex_nibble_digit n : (0 <= n < 16)%Z -> hex_nibble (hex_digit n) = Some n.
Proof.
  intros H. assert (n ∈ seqZ 0 16) as Hin by (apply elem_of_seqZ; lia).
  revert n H Hin. cut (Forall (fun n => hex_nibble (hex_digit n) = Some n) (seqZ 0 16)).
  { intros HF n _ Hin. by rewrite Forall_forall in HF; apply HF. }
  vm_compute. repeat constructor.
Qed.

Lemma nibbles_byte b :
  byte_of (Z.lor (Z.shiftl (Z.shiftr (byte_val b) 4) 4) (Z.land (byte_val b) 15)) = b.
Proof.
  rewrite <- (byte_of_val b) at 3. f_equal. pose proof (byte_val_range b) as Hb.
  change 15%Z with (Z.ones 4). apply Z.bits_inj'. intros i Hi. rewrite Z.lor_spec, Z.land_spec.
  destruct (decide (i < 4)%Z) as [Hlt|Hge].
  - rewrite Z.shiftl_spec_low by done. cbn [orb].
    rewrite Z.ones_spec_low by lia. by rewrite andb_true_r.
  - rewrite Z.shiftl_spec_high, Z.shiftr_spec by lia. replace (i - 4 + 4)%Z with i by lia.
    rewrite Z.ones_spec_high by lia.
    by rewrite andb_false_r, orb_false_r.
Qed.

Lemma nibble_ranges b : (0 <= Z.shiftr (byte_val b) 4 < 16 /\ 0 <= Z.land (byte_val b) 15 < 16)%Z.
Proof.
  pose proof (byte_val_range b). rewrite Z.shiftr_div_pow2 by lia.
  change 15%Z with (Z.ones 4). rewrite Z.land_ones by lia. change (2 ^ 4)%Z with 16%Z.
  split; [|apply Z.mod_pos_bound; lia]. split; [apply Z.div_pos; lia|apply Z.div_lt_upper_bound; lia].
Qed.

Lemma length_encode_hex l : length (encode_hex l) = (length l * 2)%nat.
Proof. induction l as [|b l IH]; [done|]. cbn [encode_hex map concat app length]. unfold encode_hex in IH. rewrite IH. lia. Qed.

Lemma decode_encode_hex l : decode_hex_to_slice (encode_hex l) (length l) = Some l.
Proof.
  unfold decode_hex_to_slice. rewrite length_encode_hex, Nat.eqb_refl. cbn [negb].
  induction l as [|b l IH]; [done|]. cbn [encode_hex map concat app decode_pairs].
  destruct (nibble_ranges b) as [Hh Hl]. rewrite !hex_nibble_digit by done.
  cbn [mbind option_bind]. unfold encode_hex in IH. rewrite IH. cbn. by rewrite nibbles_byte.
Qed.

(** ** Decimal numbers *)

Definition digits_value (acc : Z) (l : bytes) : Z :=
  fold_left (fun a b => a * 10 + (byte_val b - 48))%Z l acc.

Lemma is_ascii_digit_range b : is_ascii_digit b = true -> (0 <= byte_val b - 48 <= 9)%Z.
Proof. unfold is_ascii_digit. intros H. split_bool. lia. Qed.

Lemma digits_value_ge l acc :
  (0 <= acc)%Z -> Forall (fun b => is_ascii_digit b = true) l -> (acc <= digits_value acc l)%Z.
Proof.
  intros Ha H. revert acc Ha. induction H as [|b l Hb _ IH]; intros acc Ha; cbn; [done|].
  pose proof (is_ascii_digit_range b Hb).
  specialize (IH (acc * 10 + (byte_val b - 48))%Z ltac:(lia)). unfold digits_value in IH. lia.
Qed.

Lemma parse_digits_Some l acc v :
  (0 <= acc <= U64_MAX)%Z ->
  parse_digits acc l = Some v <->
  Forall (fun b => is_ascii_digit b = true) l /\ v = digits_value acc l /\ (v <= U64_MAX)%Z.
Proof.
  revert acc. induction l as [|b l IH]; intros acc Ha; cbn [parse_digits digits_value fold_left].
  - split; [intros [= <-]; split_and!; [constructor|done|lia]|by intros (_ & -> & _)].
  - rewrite Forall_cons. destruct (is_ascii_digit b) eqn:Eb; [|naive_solver].
    pose proof (is_ascii_digit_range b Eb) as Hb. rewrite bind_Some. split.
    + intros (m & [-> Hm]%u64_checked_mul_Some & (x & [-> Hx]%u64_checked_add_Some & H)%bind_Some).
      apply IH in H as (Hl & -> & Hv); [done|lia].
    + intros ([_ Hl] & -> & Hv).
      pose proof (digits_value_ge l (acc * 10 + (byte_val b - 48))%Z ltac:(lia) Hl) as Hge.
      unfold digits_value in Hge. exists (acc * 10)%Z. split; [apply u64_checked_mul_Some; lia|].
      apply bind_Some. exists (acc * 10 + (byte_val b - 48))%Z.
      split; [apply u64_checked_add_Some; lia|]. apply IH; [lia|]. done.
Qed.

Lemma decimal_digit_value d : (0 <= d < 10)%Z -> byte_val (decimal_digit d) = (48 + d)%Z.
Proof. intros. unfold decimal_digit. rewrite byte_val_of, Z.mod_small; lia. Qed.

Lemma decimal_digit_is d : (0 <= d < 10)%Z -> is_ascii_digit (decimal_digit d) = true.
Proof.
  intros Hd. unfold is_ascii_digit. rewrite decimal_digit_value by done.
  apply andb_true_iff. split; apply Z.leb_le; lia.
Qed.

Lemma decimal_digit_of b : is_ascii_digit b = true -> decimal_digit (byte_val b - 48) = b.
Proof.
  intros Hb. unfold decimal_digit. replace (48 + (byte_val b - 48))%Z with (byte_val b) by lia.
  apply byte_of_val.
Qed.

Lemma decimal_loop_value fuel n acc :
  (0 <= n < 10 ^ Z.of_nat fuel)%Z ->
  digits_value 0 (decimal_loop fuel n acc) = digits_value n acc /\
  (Forall (fun b => is_ascii_digit b = true) acc ->
   Forall (fun b => is_ascii_digit b = true) (decimal_loop fuel n acc)).
Proof.
  revert n acc. induction fuel as [|fuel IH]; intros n acc Hn; cbn [decimal_loop].
  { assert (n = 0)%Z as -> by (cbn in Hn; lia). done. }
  pose proof (Z.mod_pos_bound n 10 ltac:(lia)) as Hm.
  assert (Forall (fun b => is_ascii_digit b = true) acc ->
          Forall (fun b => is_ascii_digit b = true) (decimal_digit (n mod 10) :: acc)) as Hd.
  { intros. constructor; [by apply decimal_digit_is|done]. }
  destruct (Z.ltb_spec n 10) as [Hlt|Hge].
  - split; [|done]. cbn [digits_value fold_left]. rewrite decimal_digit_value by done.
    unfold digits_value. f_equal. rewrite Z.mod_small; lia.
  - rewrite Nat2Z.inj_succ, Z.pow_succ_r in Hn by lia.
    destruct (IH (n / 10)%Z (decimal_digit (n mod 10) :: acc)) as [Hv Hf].
    { split; [apply Z.div_pos; lia|apply Z.div_lt_upper_bound; lia]. }
    split; [|auto]. rewrite Hv. cbn [digits_value fold_left]. rewrite decimal_digit_value by done.
    unfold digits_value. f_equal. pose proof (Z.div_mod n 10 ltac:(lia)). lia.
Qed.

Lemma decimal_loop_suffix fuel n acc : exists p, decimal_loop fuel n acc = p ++ acc /\ (fuel <> 0%nat -> p <> []).
Proof.
  revert n acc. induction fuel as [|fuel IH]; intros n acc; cbn [decimal_loop]; [by exists []|].
  destruct (n <? 10)%Z; [by exists [decimal_digit (n mod 10)]|].
  destruct (IH (n / 10)%Z (decimal_digit (n mod 10) :: acc)) as (p & -> & _).
  exists (p ++ [decimal_digit (n mod 10)]). rewrite <- app_assoc. split; [done|]. by destruct p.
Qed.

Lemma u64_to_string_nonempty n : u64_to_string n <> [].
Proof.
  unfold u64_to_string. destruct (decimal_loop_suffix 20 n []) as (p & -> & Hp).
  rewrite app_nil_r. by apply Hp.
Qed.

Lemma u64_to_string_spec n :
  is_u64 n ->
  digits_value 0 (u64_to_string n) = n /\ Forall (fun b => is_ascii_digit b = true) (u64_to_string n).
Proof.
  intros Hn. destruct (decimal_loop_value 20 n []) as [Hv Hf].
  { split; [apply Hn|]. assert (U64_MAX < 10 ^ Z.of_nat 20)%Z by reflexivity. destruct Hn; lia. }
  split; [exact Hv|]. by apply Hf.
Qed.

Lemma parse_u64_to_string n : is_u64 n -> parse_u64 (u64_to_string n) = Some n.
Proof.
  intros Hn. destruct (u64_to_string_spec n Hn) as [Hv Hf].
  pose proof (u64_to_string_nonempty n) as Hne. unfold parse_u64.
  assert (match u64_to_string n with x2b :: rest => rest | _ => u64_to_string n end = u64_to_string n) as ->.
  { destruct (u64_to_string n) as [|b l]; [done|]. apply Forall_cons in Hf as [Hb _]. by destruct b. }
  rewrite bool_decide_false by done. apply parse_digits_Some; [by split; [|destruct Hn; lia]|].
  split; [done|]. split; [done|]. apply Hn.
Qed.

(** A canonical numeral: at least one digit, no superfluous leading zero. *)
Definition canonical_decimal (l : bytes) : Prop :=
  l <> [] /\ Forall (fun b => is_ascii_digit b = true) l /\ ((1 < length l)%nat -> head l <> Some x30).

Lemma digits_value_app acc l b :
  digits_value acc (l ++ [b]) = (digits_value acc l * 10 + (byte_val b - 48))%Z.
Proof. unfold digits_value. by rewrite fold_left_app. Qed.

Lemma canonical_lower_bound l :
  l <> [] -> head l <> Some x30 -> Forall (fun b => is_ascii_digit b = true) l ->
  (10 ^ (Z.of_nat (length l) - 1) <= digits_value 0 l)%Z.
Proof.
  induction l as [|b l IH] using rev_ind; [done|]. intros _ Hh Hf.
  apply Forall_app in Hf as [Hl Hb]. apply (proj1 (Forall_singleton _ _)) in Hb.
  pose proof (is_ascii_digit_range b Hb). rewrite digits_value_app, length_app. cbn [length].
  destruct (decide (l = [])) as [->|Hne].
  - cbn. cbn in Hh. assert (byte_val b <> 48)%Z; [|lia].
    intros E. apply Hh. f_equal. apply (inj byte_val). by rewrite E.
  - assert (head l <> Some x30) as Hh' by (by destruct l).
    specialize (IH Hne Hh' Hl). replace (Z.of_nat (length l + 1) - 1)%Z with (Z.succ (Z.of_nat (length l) - 1))
      by lia. rewrite Z.pow_succ_r by (destruct l; [done|cbn; lia]). lia.
Qed.

Lemma decimal_loop_canonical l fuel acc :
  canonical_decimal l -> (length l <= fuel)%nat -> decimal_loop fuel (digits_value 0 l) acc = l ++ acc.
Proof.
  revert fuel acc. induction l as [|b l IH] using rev_ind; intros fuel acc (Hne & Hf & Hz) Hlen; [done|].
  rewrite length_app in Hlen, Hz. cbn in Hlen. destruct fuel as [|fuel]; [lia|].
  apply Forall_app in Hf as [Hl Hb]. apply (proj1 (Forall_singleton _ _)) in Hb.
  pose proof (is_ascii_digit_range b Hb) as Hr. rewrite digits_value_app. cbn [decimal_loop].
  pose proof (digits_value_ge l 0 ltac:(lia) Hl) as Hv.
  assert ((digits_value 0 l * 10 + (byte_val b - 48)) mod 10 = byte_val b - 48)%Z as ->
    by (rewrite Z.add_comm, Z.mod_add, Z.mod_small; lia).
  rewrite decimal_digit_of, <- app_assoc by done. cbn [app].
  destruct (decide (l = [])) as [->|Hne']; [cbn; by rewrite (proj2 (Z.ltb_lt _ _)) by lia|].
  assert (head l <> Some x30) as Hh by (destruct l; [done|]; apply Hz; cbn; lia).
  pose proof (canonical_lower_bound l Hne' Hh Hl) as Hlb.
  assert (1 <= 10 ^ (Z.of_nat (length l) - 1))%Z by (apply (Z.pow_le_mono_r 10 0); [lia|]; destruct l; [done|cbn [length]; lia]).
  rewrite (proj2 (Z.ltb_ge _ _)) by lia.
  assert ((digits_value 0 l * 10 + (byte_val b - 48)) / 10 = digits_value 0 l)%Z as ->
    by (rewrite Z.add_comm, Z.div_add, Z.div_small; lia).
  apply IH; [|lia]. by split_and!.
Qed.

Lemma u64_to_string_canonical n : is_u64 n -> canonical_decimal (u64_to_string n).
Proof.
  intros Hn. destruct (u64_to_string_spec n Hn) as [Hv Hf].
  split_and!; [apply u64_to_string_nonempty|done|]. clear Hv Hf.
  assert (forall fuel m acc, (0 <= m)%Z -> (m < 10 ^ Z.of_nat fuel)%Z -> (0 < m \/ acc = [])%Z ->
    (1 < length (decimal_loop fuel m acc))%nat -> head (decimal_loop fuel m acc) <> Some x30) as Hgen;
    [|apply Hgen; [apply Hn| |by right];
      assert (U64_MAX < 10 ^ Z.of_nat 20)%Z by reflexivity; destruct Hn; lia].
  induction fuel as [|fuel IH]; intros m acc H0 Hm Ha; cbn [decimal_loop].
  { destruct Ha as [Ha| ->]; [cbn in Hm; lia|cbn; lia]. }
  destruct (Z.ltb_spec m 10) as [Hlt|Hge].
  - rewrite Z.mod_small by lia. cbn. intros Hlen [= E]. destruct Ha as [Ha| ->]; [|cbn in Hlen; lia].
    apply (f_equal byte_val) in E. rewrite decimal_digit_value in E by lia. change (byte_val x30) with 48%Z in E. lia.
  - rewrite Nat2Z.inj_succ, Z.pow_succ_r in Hm by lia. apply IH.
    + apply Z.div_pos; lia.
    + apply Z.div_lt_upper_bound; lia.
    + left. apply Z.div_str_pos. lia.
Qed.

(** Canonical numerals are exactly the printed numbers. *)
Lemma canonical_unique l n :
  canonical_decimal l -> digits_value 0 l = n -> (n <= U64_MAX)%Z -> l = u64_to_string n.
Proof.
  intros Hc <- Hmax. unfold u64_to_string. rewrite decimal_loop_canonical; [by rewrite app_nil_r|done|].
  destruct (decide (length l <= 20)%nat) as [|Hgt]; [done|]. destruct Hc as (Hne & Hf & Hz).
  pose proof (canonical_lower_bound l Hne (Hz ltac:(lia)) Hf) as Hlb.
  assert (10 ^ 20 <= 10 ^ (Z.of_nat (length l) - 1))%Z by (apply Z.pow_le_mono_r; lia).
  assert (U64_MAX < 10 ^ 20)%Z by reflexivity. lia.
Qed.

(** ** Byte ranges *)

(** The bytes of a range specification. *)
Definition range_byte (b : byte) : bool := is_ascii_digit b || bool_decide (b = x2d).

Lemma trim_loop_id fuel separators b l :
  Forall (fun w => match w with [] => False | x :: _ => x <> b end) separators ->
  trim_loop fuel separators (b :: l) = b :: l.
Proof.
  intros H. destruct fuel as [|fuel]; [done|]. cbn [trim_loop].
  assert (first_some (fun w => strip_prefix w (b :: l)) separators = None) as ->; [|done].
  induction H as [|w ws Hw _ IH]; [done|]. cbn [first_some].
  destruct w as [|x w]; [done|]. cbn [strip_prefix]. by rewrite decide_False.
Qed.

Lemma range_byte_not_space b :
  range_byte b = true ->
  Forall (fun w => match w with [] => False | x :: _ => x <> b end) (WHITE_SPACE ++ map reverse WHITE_SPACE).
Proof. destruct b; try discriminate; intros _; vm_compute; repeat constructor; discriminate. Qed.

Lemma trim_range l : Forall (fun b => range_byte b = true) l -> trim l = l.
Proof.
  intros H. assert (trim_start l = l) as Hs.
  { unfold trim_start. destruct H as [|b l Hb _]; [done|].
    apply trim_loop_id. by apply range_byte_not_space, Forall_app in Hb as [? _]. }
  unfold trim. rewrite Hs. unfold trim_end. apply Forall_reverse in H.
  rewrite <- (reverse_involutive l) at 3. f_equal. destruct (reverse l) as [|b l']; [by destruct (length l)|].
  apply Forall_cons in H as [Hb _]. apply trim_loop_id. by apply range_byte_not_space, Forall_app in Hb as [_ ?].
Qed.

Lemma split_once_app c a b : c ∉ a -> split_once c (a ++ c :: b) = Some (a, b).
Proof.
  induction a as [|x a IH]; intros Hc; cbn; [by rewrite decide_True|].
  apply not_elem_of_cons in Hc as [Hx Hc]. rewrite decide_False by done. by rewrite IH.
Qed.

Lemma digits_not_in c l :
  is_ascii_digit c = false -> Forall (fun b => is_ascii_digit b = true) l -> c ∉ l.
Proof. intros Hc H Hin. rewrite Forall_forall in H. specialize (H c Hin). congruence. Qed.

Lemma digits_range l :
  Forall (fun b => is_ascii_digit b = true) l -> Forall (fun b => range_byte b = true) l.
Proof. induction 1 as [|b l Hb _ IH]; constructor; [|done]. unfold range_byte. by rewrite Hb. Qed.

(** A header that is [bytes=], digits or nothing, a minus, digits or nothing. *)
Lemma parse_range_text first last size :
  Forall (fun b => is_ascii_digit b = true) first -> Forall (fun b => is_ascii_digit b = true) last ->
  parse_range (str "bytes=" ++ first ++ str "-" ++ last) size =
  (if bool_decide (first = []) then
     match parse_u64 last with
     | None => Unsatisfiable
     | Some n => if (n =? 0)%Z || (size =? 0)%Z then Unsatisfiable
                 else Satisfiable (size - Z.min n size) (size - 1)
     end
   else match parse_u64 first with
        | None => Unsatisfiable
        | Some a =>
            if (size <=? a)%Z then Unsatisfiable
            else if bool_decide (last = []) then Satisfiable a (size - 1)
            else match parse_u64 last with
                 | None => Unsatisfiable
                 | Some b => if (b <? a)%Z then Unsatisfiable else Satisfiable a (Z.min b (size - 1))
                 end
        end).
Proof.
  intros Hf Hl. unfold parse_range.
  change (str "bytes=" ++ first ++ str "-" ++ last) with (str "bytes" ++ x3d :: (first ++ x2d :: last)).
  rewrite split_once_app by (by apply (bool_decide_eq_true_1 (x3d ∉ str "bytes"))).
  change (eq_ignore_ascii_case (str "bytes") (str "bytes")) with true. cbn [negb].
  rewrite bool_decide_false; [|rewrite elem_of_app, elem_of_cons; intros [H|[H|H]];
    [by eapply digits_not_in in H|done|by eapply digits_not_in in H]].
  rewrite trim_range; [|apply Forall_app; split; [by apply digits_range|constructor; [done|by apply digits_range]]].
  rewrite split_once_app by (by eapply digits_not_in). done.
Qed.

Lemma parse_digits_nonneg l acc v : (0 <= acc)%Z -> parse_digits acc l = Some v -> (0 <= v)%Z.
Proof.
  revert acc. induction l as [|b l IH]; intros acc Ha; cbn [parse_digits]; [by intros [= <-]|].
  destruct (is_ascii_digit b) eqn:Eb; [|done]. pose proof (is_ascii_digit_range b Eb).
  intros (m & [-> _]%u64_checked_mul_Some & (x & [-> _]%u64_checked_add_Some & H')%bind_Some)%bind_Some.
  eapply IH; [|exact H']. lia.
Qed.

Lemma parse_u64_nonneg l v : parse_u64 l = Some v -> (0 <= v)%Z.
Proof.
  unfold parse_u64. destruct (bool_decide _); [done|]. by apply parse_digits_nonneg.
Qed.

Lemma parse_range_bounds header size a b :
  (0 <= size)%Z -> parse_range header size = Satisfiable a b -> (0 <= a <= b)%Z /\ (b < size)%Z.
Proof.
  intros Hs. unfold parse_range.
  destruct (split_once x3d header) as [[unit range]|]; [|done].
  destruct (negb _); [done|]. destruct (bool_decide _); [done|].
  destruct (split_once x2d (trim range)) as [[start last]|]; [|done].
  destruct (bool_decide (start = [])).
  - destruct (parse_u64 last) as [n|] eqn:En; [|done]. apply parse_u64_nonneg in En.
    destruct (Z.eqb_spec n 0), (Z.eqb_spec size 0); try done. intros [= <- <-]. lia.
  - destruct (parse_u64 start) as [x|] eqn:Ex; [|done]. apply parse_u64_nonneg in Ex.
    destruct (Z.leb_spec size x); [done|].
    destruct (bool_decide (last = [])); [intros [= <- <-]; lia|].
    destruct (parse_u64 last) as [y|] eqn:Ey; [|done]. destruct (Z.ltb_spec y x); [done|].
    intros [= <- <-]. lia.
Qed.

(** A byte range is never out of bounds, whatever the header says, and the
    three forms of a single range are read exactly: a first and a last position
    (the last one clipped to the file), a first position, and a suffix length. *)
Lemma parse_range_exact (size : Z) :
  is_u64 size ->
  (forall header a b, parse_range header size = Satisfiable a b -> (0 <= a <= b)%Z /\ (b < size)%Z) /\
  (forall a b, is_u64 a -> is_u64 b ->
    parse_range (str "bytes=" ++ u64_to_string a ++ str "-" ++ u64_to_string b) size =
      if (size <=? a)%Z || (b <? a)%Z then Unsatisfiable else Satisfiable a (Z.min b (size - 1))) /\
  (forall a, is_u64 a ->
    parse_range (str "bytes=" ++ u64_to_string a ++ str "-") size =
      if (size <=? a)%Z then Unsatisfiable else Satisfiable a (size - 1)) /\
  (forall n, is_u64 n ->
    parse_range (str "bytes=-" ++ u64_to_string n) size =
      if (n =? 0)%Z || (size =? 0)%Z then Unsatisfiable else Satisfiable (size - Z.min n size) (size - 1)).
Proof.
  intros Hsize. split_and!.
  - intros header a b. apply parse_range_bounds, Hsize.
  - intros a b Ha Hb. destruct (u64_to_string_spec a Ha) as [_ Fa], (u64_to_string_spec b Hb) as [_ Fb].
    rewrite parse_range_text by done. rewrite !bool_decide_false by apply u64_to_string_nonempty.
    rewrite !parse_u64_to_string by done. by destruct (size <=? a)%Z, (b <? a)%Z.
  - intros a Ha. destruct (u64_to_string_spec a Ha) as [_ Fa].
    pose proof (parse_range_text (u64_to_string a) [] size Fa ltac:(constructor)) as E.
    rewrite app_nil_r in E. rewrite E, bool_decide_false by apply u64_to_string_nonempty.
    rewrite parse_u64_to_string by done. by rewrite bool_decide_true.
  - intros n Hn. destruct (u64_to_string_spec n Hn) as [_ Fn].
    pose proof (parse_range_text [] (u64_to_string n) size ltac:(constructor) Fn) as E.
    change (str "bytes=-" ++ u64_to_string n) with (str "bytes=" ++ [] ++ str "-" ++ u64_to_string n).
    rewrite E, bool_decide_true by done. by rewrite parse_u64_to_string.
Qed.

Lemma parse_range_exact_witness :
  parse_range (str "bytes=10-999") 500 = Satisfiable 10 499 /\ (0 <= 10 <= 499)%Z.
Proof.
  destruct (parse_range_exact 500) as (Hb & Hab & _); [by split; vm_compute|]. split.
  - pose proof (Hab 10%Z 999%Z ltac:(by split; vm_compute) ltac:(by split; vm_compute)) as E.
    vm_compute in E. exact E.
  - exact (proj1 (Hb (str "bytes=10-999") 10%Z 499%Z eq_refl)).
Defined.
End Utils.
