(* ===== verification/RootedPaths.v ===== *)
(** * Paths inside the shared root

    The path arithmetic of [src/server/rooted_fs.rs]: durable records hold paths
    relative to the shared root, and a path is identified by the deepest existing
    directory above it and the names that do not exist yet.  Directory
    descriptors and the system calls on them are parameters. *)

From S2P Require Import Prelude Paths PathKeys.

Module RootedPaths.

(** [std::io::ErrorKind], as far as the code distinguishes kinds. *)
Inductive IoError : Type :=
| NotFound | NotADirectory | PermissionDenied | AlreadyExists | TimedOut | Unsupported | Interrupted
| InvalidInput | InvalidData | UnexpectedEof | CrossesDevices | FilesystemLoop | InvalidFilename | OtherIo.
#[global] Instance IoError_eq_dec : EqDecision IoError.
Proof. solve_decision. Defined.

Definition is_normal (c : Component) : bool := match c with Normal _ => true | _ => false end.

(** ** Relative and absolute paths *)

Section paths.
Context (root_path : bytes).

Definition decode_relative_path (encoded : bytes) : result IoError bytes :=
  if bool_decide (encoded = []) || bool_decide (x00 ∈ encoded) then Err InvalidData
  else if existsb (fun c => negb (is_normal c)) (components encoded) then Err InvalidData
  else Ok (push root_path encoded).

Definition resolve_state_path (relative : bytes) : result IoError bytes :=
  decode_relative_path relative.

(** [Path::strip_prefix] compares and drops whole components; the result is
    represented by its components. *)
Definition strip_path_prefix (p base : bytes) : option (list Component) :=
  if bool_decide (components base `prefix_of` components p)
  then Some (drop (length (components base)) (components p)) else None.

Definition relative_path (path : bytes) : result IoError (list Component) :=
  relative ← ok_or (strip_path_prefix path root_path) PermissionDenied;
  if bool_decide (relative = []) || existsb (fun c => negb (is_normal c)) relative
  then Err InvalidInput else Ok relative.

(** The same path, as the text that is stored. *)
Definition state_relative_path (path : bytes) : result IoError bytes :=
  _ ← relative_path path; ok_or (strip_path path root_path) PermissionDenied.
End paths.

(** ** Resolution *)

Definition path_from_components (names : list bytes) : bytes := fold_left push names [].

Definition unresolved_path_error (e : IoError) : bool :=
  match e with NotFound | NotADirectory | PermissionDenied => true | _ => false end.

Definition MAX_DIRECTORY_ANCESTORS : nat := 4096.

(** Directory descriptors [D] and the calls on them: [dup], [openat2] below the
    root, [fstat], opening [..], [statat] (is the entry a directory?) and opening
    a child directory and reading its identity. *)
Record Fs (D : Type) : Type := {
  fs_root : D;
  fs_root_identity : FileIdentity;
  fs_root_path : bytes;
  fs_dup : D -> result IoError D;
  fs_openat2 : bytes -> result IoError D;
  fs_fstat : D -> result IoError FileIdentity;
  fs_parent : D -> result IoError D;
  fs_statat : D -> bytes -> result IoError bool;
  fs_child_identity : D -> bytes -> result IoError FileIdentity }.
Arguments fs_root {D}. Arguments fs_root_identity {D}. Arguments fs_root_path {D}.
Arguments fs_dup {D}. Arguments fs_openat2 {D}. Arguments fs_fstat {D}.
Arguments fs_parent {D}. Arguments fs_statat {D}. Arguments fs_child_identity {D}.

Section resolution.
Context {D : Type} (fs : Fs D).

Definition open_directory_from_root (relative : bytes) : result IoError D :=
  fs_openat2 fs (if bool_decide (relative = []) then DOT else relative).
Definition open_resolved_path_prefix (relative : bytes) : result IoError D :=
  open_directory_from_root relative.

(** The binary search; [fuel] bounds the number of probes. *)
Fixpoint search_prefix (fuel : nat) (names : list bytes) (resolved_len unresolved_len : nat)
    (resolved_parent : D) : result IoError (D * nat) :=
  match fuel with
  | O => Ok (resolved_parent, resolved_len)
  | S fuel =>
      if bool_decide (resolved_len + 1 < unresolved_len) then
        let candidate_len := resolved_len + (unresolved_len - resolved_len) / 2 in
        match open_resolved_path_prefix (path_from_components (take candidate_len names)) with
        | Ok directory => search_prefix fuel names candidate_len unresolved_len directory
        | Err e => if unresolved_path_error e
                   then search_prefix fuel names resolved_len candidate_len resolved_parent
                   else Err e
        end
      else Ok (resolved_parent, resolved_len)
  end.

Definition resolve_deepest_parent_prefix (names : list bytes) : result IoError (D * nat) :=
  if bool_decide (names = []) then d ← fs_dup fs (fs_root fs); Ok (d, 0)
  else
    match open_resolved_path_prefix (path_from_components names) with
    | Ok directory => Ok (directory, length names)
    | Err e =>
        if unresolved_path_error e then
          d ← fs_dup fs (fs_root fs); search_prefix (length names) names 0 (length names) d
        else Err e
    end.

Fixpoint ancestry_loop (n : nat) (current : D) (reversed : list FileIdentity)
    : result IoError (list FileIdentity) :=
  match n with
  | O => Err InvalidData
  | S n =>
      identity ← fs_fstat fs current;
      let reversed := reversed ++ [identity] in
      if bool_decide (identity = fs_root_identity fs) then Ok (reverse reversed)
      else
        parent ← fs_parent fs current;
        parent_identity ← fs_fstat fs parent;
        if bool_decide (parent_identity = identity) then Err PermissionDenied
        else ancestry_loop n parent reversed
  end.

Definition directory_ancestry_from_root (directory : D) : result IoError (list FileIdentity) :=
  current ← fs_dup fs directory; ancestry_loop MAX_DIRECTORY_ANCESTORS current [].

Definition normal_name_of (c : Component) : result IoError bytes :=
  match c with Normal value => Ok value | _ => Err InvalidInput end.

Definition resolved_path_key_blocking (path : bytes) : result IoError ResolvedPathKey :=
  relative ← relative_path (fs_root_path fs) path;
  names ← collect (normal_name_of <$> relative);
  final_name ← ok_or (last names) OtherIo;
  let parent_names := take (length names - 1) names in
  '(parent, resolved_components) ← resolve_deepest_parent_prefix parent_names;
  let resolving_directories := bool_decide (resolved_components = length parent_names) in
  let tail := drop resolved_components names in
  ancestors ← directory_ancestry_from_root parent;
  identity ← ok_or (last ancestors) OtherIo;
  target ← (if resolving_directories then
              match fs_statat fs parent final_name with
              | Ok true => i ← fs_child_identity fs parent final_name; Ok (Some i)
              | Ok false | Err NotFound => Ok None
              | Err e => Err e
              end
            else Ok None);
  Ok {| resolved_parent := identity; unresolved_tail := tail;
        ancestor_directories := ancestors; target_directory := target |}.
End resolution.

(** ** Lemmas *)

Lemma split_app c a b : split c (a ++ c :: b) = split c a ++ split c b.
Proof.
  induction a as [|x a IH]; cbn [app].
  - cbn. by destruct (decide (c = c)).
  - cbn. destruct (decide (x = c)); [by rewrite IH|]. rewrite IH.
    destruct (split c a) as [|s ss] eqn:E; [by apply split_nonempty in E|done].
Qed.

Lemma components_push buf p :
  has_root p = false -> head (split SLASH p) <> Some DOT ->
  components (push buf p) = components buf ++ components p.
Proof.
  intros Hr Hd. unfold push. rewrite Hr.
  assert (components p = omap segment_component (split SLASH p)) as Hp.
  { unfold components. by rewrite Hr, bool_decide_false. }
  destruct (last buf) as [x|] eqn:El.
  - apply last_Some in El as [b ->].
    assert (forall b', b' <> [] ->
      components (b' ++ SLASH :: p) = components b' ++ components p) as Hsep.
    { intros b' Hne. unfold components at 1 2. rewrite split_app, omap_app, Hp, app_assoc.
      f_equal. f_equal. unfold has_root. destruct b' as [|y b']; [done|]. cbn [app head].
      repeat case_bool_decide; try done; exfalso;
        (destruct (split SLASH (y :: b')) as [|s ss] eqn:E; [by apply split_nonempty in E|done]). }
    destruct (decide (x = SLASH)) as [->|Hne].
    + rewrite <- app_assoc. cbn [app]. destruct (decide (b = [])) as [->|Hb].
      * cbn [app]. unfold components at 1 2. cbn [has_root head]. rewrite Hp. cbn. done.
      * rewrite Hsep by done. f_equal. unfold components. rewrite split_app, omap_app. cbn.
        rewrite app_nil_r. f_equal. unfold has_root. destruct b as [|y b]; [done|]. cbn [app head].
        repeat case_bool_decide; try done; exfalso;
          (destruct (split SLASH (y :: b)) as [|s ss] eqn:E; [by apply split_nonempty in E|done]).
    + apply Hsep. by destruct b.
  - apply last_None in El as ->. done.
Qed.

Lemma all_normal_shape p :
  existsb (fun c => negb (is_normal c)) (components p) = false ->
  has_root p = false /\ head (split SLASH p) <> Some DOT.
Proof.
  intros H. rewrite existsb_false in H. unfold components in H. split.
  - destruct (has_root p); [|done]. specialize (H RootDir). cbn in H. discriminate H. left.
  - destruct (has_root p) eqn:Er; [specialize (H RootDir); cbn in H; discriminate H; left|].
    intros E. rewrite bool_decide_true in H by done. specialize (H CurDir). cbn in H.
    discriminate H. left.
Qed.

Lemma components_nonempty p :
  p <> [] -> has_root p = false -> head (split SLASH p) <> Some DOT -> components p <> [].
Proof.
  intros Hne Hr Hd. destruct p as [|x p]; [done|]. unfold has_root in Hr. cbn in Hr.
  apply bool_decide_eq_false in Hr. unfold components. intros [_ E]%app_eq_nil.
  cbn in E, Hd. destruct (decide (x = SLASH)) as [->|Hx]; [done|].
  destruct (split SLASH p) as [|s ss] eqn:Es; [by apply split_nonempty in Es|].
  cbn in E, Hd. unfold segment_component in E at 1. cbn in E.
  rewrite bool_decide_false in E by congruence. by destruct (bool_decide _).
Qed.

(** Stored paths round-trip: a stored path that is accepted is reattached
    below the shared root, and taking the path relative to the root again gives
    back exactly its components, all of them ordinary names, whatever the
    spelling of the root path. *)
Lemma decode_relative_roundtrip (root_path encoded path : bytes) :
  decode_relative_path root_path encoded = Ok path ->
  starts_with path root_path = true /\
  relative_path root_path path = Ok (components encoded) /\
  Forall (fun c => is_normal c = true) (components encoded).
Proof.
  unfold decode_relative_path. intros H.
  destruct (_ || _) eqn:Ee; [done|]. destruct (existsb _ _) eqn:En; [done|]. injection H as <-.
  destruct (all_normal_shape _ En) as [Hr Hd].
  assert (components encoded <> []) as Hne by (apply components_nonempty; [by split_bool|done..]).
  unfold starts_with, relative_path, strip_path_prefix.
  rewrite (components_push root_path encoded Hr Hd).
  rewrite !bool_decide_true by apply prefix_app_r, reflexivity. cbn [ok_or mbind result_bind].
  rewrite drop_app_length, En, bool_decide_false by done. split_and!; [done..|].
  rewrite existsb_false in En. apply Forall_forall. intros c Hc. specialize (En c Hc).
  by apply negb_false_iff in En.
Qed.

Lemma decode_relative_roundtrip_witness :
  relative_path (str "/srv/share") (str "/srv/share/a//b.txt") = Ok [Normal (str "a"); Normal (str "b.txt")].
Proof.
  apply (decode_relative_roundtrip (str "/srv/share") (str "a//b.txt") (str "/srv/share/a//b.txt")).
  by vm_compute.
Defined.
(** ** The search for an existing directory *)

Section search.
Context {D : Type} (fs : Fs D) (names : list bytes).

Definition probe (n : nat) : result IoError D :=
  open_resolved_path_prefix fs (path_from_components (take n names)).

(** A prefix that does not exist, in the sense the code gives it. *)
Definition missing (n : nat) : Prop :=
  exists e, probe n = Err e /\ unresolved_path_error e = true.

(** What a resolved prefix is: the root for length zero, otherwise opened. *)
Definition opened (d : D) (n : nat) : Prop :=
  (n = 0%nat /\ fs_dup fs (fs_root fs) = Ok d) \/ ((0 < n)%nat /\ probe n = Ok d).

Lemma search_prefix_spec fuel lo hi d :
  (lo < hi)%nat -> (hi - lo <= S fuel)%nat -> opened d lo -> missing hi ->
  match search_prefix fs fuel names lo hi d with
  | Ok (d', n) => (lo <= n < hi)%nat /\ opened d' n /\ missing (S n)
  | Err e => unresolved_path_error e = false
  end.
Proof.
  revert lo hi d. induction fuel as [|fuel IH]; intros lo hi d Hlt Hf Ho Hm; cbn [search_prefix].
  - split; [lia|]. split; [done|]. by replace (S lo) with hi by lia.
  - case_bool_decide as Hb.
    + set (mid := (lo + (hi - lo) / 2)%nat).
      assert (lo < mid < hi)%nat as Hmid.
      { unfold mid. pose proof (Nat.div_lt (hi - lo) 2). pose proof (Nat.div_str_pos (hi - lo) 2). lia. }
      destruct (open_resolved_path_prefix fs (path_from_components (take mid names))) as [d'|e] eqn:E.
      * assert (opened d' mid) as Ho' by (right; split; [lia|done]).
        specialize (IH mid hi d' ltac:(lia) ltac:(lia) Ho' Hm).
        destruct (search_prefix fs fuel names mid hi d') as [[d2 n]|]; [|done].
        destruct IH as (? & ? & ?). split; [lia|done].
      * destruct (unresolved_path_error e) eqn:Eu; [|done].
        assert (missing mid) as Hm' by (exists e; done).
        specialize (IH lo mid d ltac:(lia) ltac:(lia) Ho Hm').
        destruct (search_prefix fs fuel names lo mid d) as [[d2 n]|]; [|done].
        destruct IH as (? & ? & ?). split; [lia|done].
    + split; [lia|]. split; [done|]. by replace (S lo) with hi by lia.
Qed.

Lemma resolve_deepest_spec :
  match resolve_deepest_parent_prefix fs names with
  | Ok (d, n) => (n <= length names)%nat /\ opened d n /\ (n < length names -> missing (S n))%nat
  | Err e => fs_dup fs (fs_root fs) = Err e \/ unresolved_path_error e = false
  end.
Proof.
  unfold resolve_deepest_parent_prefix. case_bool_decide as Hn.
  - destruct (fs_dup fs (fs_root fs)) as [d|e] eqn:Ed; cbn; [|by left].
    split; [lia|]. split; [by left|]. rewrite Hn. cbn. lia.
  - assert (probe (length names) = open_resolved_path_prefix fs (path_from_components names)) as Hp.
    { unfold probe. by rewrite take_ge. }
    assert (length names <> 0)%nat by (by intros ?%nil_length_inv).
    destruct (open_resolved_path_prefix fs (path_from_components names)) as [d|e] eqn:E.
    + split; [done|]. split; [right; split; [lia|done]|lia].
    + destruct (unresolved_path_error e) eqn:Eu; [|by right].
      destruct (fs_dup fs (fs_root fs)) as [d|e'] eqn:Ed; cbn; [|by left].
      pose proof (search_prefix_spec (length names) 0 (length names) d) as Hs.
      destruct (search_prefix fs (length names) names 0 (length names) d) as [[d' n]|e'].
      * destruct Hs as (Hle & Ho & Hm); [lia|lia|by left|exists e; done|]. split; [lia|done].
      * right. apply Hs; [lia|lia|by left|exists e; done].
Qed.
End search.

(** Where a prefix opens only if every shorter one does, nothing deeper can be opened. *)
Lemma resolved_prefix_deepest {D} (fs : Fs D) (names : list bytes) d n :
  (forall i j, (0 < i <= j)%nat -> (j <= length names)%nat ->
     is_ok (probe fs names j) = true -> is_ok (probe fs names i) = true) ->
  resolve_deepest_parent_prefix fs names = Ok (d, n) ->
  forall m, (n < m <= length names)%nat -> is_ok (probe fs names m) = false.
Proof.
  intros Hmono E m Hlt. pose proof (resolve_deepest_spec fs names) as Hs. rewrite E in Hs.
  destruct Hs as (Hle & Ho & Hm). apply not_true_iff_false. intros Hok.
  destruct Hm as (e & He & _); [lia|].
  assert (is_ok (probe fs names (S n)) = true) as Hx by (apply (Hmono (S n) m); [lia|lia|done]).
  by rewrite He in Hx.
Qed.

(** The directory a path key is anchored at: whatever the file system answers to
    each probe, if the search returns a descriptor and a length, the descriptor is the
    opened prefix of that length (the root for zero), the whole path if it opens, and
    otherwise the prefix one name longer has been found missing or not to be opened by
    the server.  The search fails only when duplicating the root fails or a probe
    reports something other than a missing or untraversable component. *)
Lemma parent_prefix_found {D} (fs : Fs D) (names : list bytes) :
  match resolve_deepest_parent_prefix fs names with
  | Ok (d, n) =>
      (n <= length names)%nat /\ opened fs names d n /\
      (n < length names -> missing fs names (S n))%nat /\
      (names <> [] -> is_ok (probe fs names (length names)) = true -> n = length names)
  | Err e => fs_dup fs (fs_root fs) = Err e \/ unresolved_path_error e = false
  end.
Proof.
  pose proof (resolve_deepest_spec fs names) as Hs.
  destruct (resolve_deepest_parent_prefix fs names) as [[d n]|e] eqn:E; [|done].
  destruct Hs as (Hle & Ho & Hm). split_and!; [done..|]. intros Hn Hp.
  unfold resolve_deepest_parent_prefix in E. rewrite bool_decide_false in E by done.
  unfold probe in Hp. rewrite take_ge in Hp by done.
  destruct (open_resolved_path_prefix fs (path_from_components names)); [|done]. by injection E.
Qed.

(** ** Keys are anchored at the root *)

Lemma ancestry_loop_root {D} (fs : Fs D) n d acc l :
  ancestry_loop fs n d acc = Ok l -> fs_root_identity fs ∈ l.
Proof.
  revert d acc. induction n as [|n IH]; intros d acc H; cbn in H; [done|]. inv_result.
  case_bool_decide as E.
  - injection H as <-. rewrite elem_of_reverse, <- E. apply elem_of_app. right. by left.
  - inv_result. case_bool_decide; [done|]. by apply IH in H.
Qed.

Lemma resolved_key_anchored {D} (fs : Fs D) p k :
  resolved_path_key_blocking fs p = Ok k -> anchored_at (fs_root_identity fs) k.
Proof.
  unfold resolved_path_key_blocking. intros H. inv_result. destruct a2 as [parent n].
  inv_result. subst k. unfold anchored_at. cbn.
  unfold directory_ancestry_from_root in *. inv_result. by eapply ancestry_loop_root.
Qed.

(** The file system resolver keeps the promise the coordinator's fallback key
    relies on. *)
#[global] Instance rooted_resolver {D} (fs : Fs D) :
  PathResolver (fs_root_identity fs) (resolved_path_key_blocking fs).
Proof. intros p k. apply resolved_key_anchored. Qed.

(** ** A concrete tree: [/srv/a] exists, nothing below it does. *)

Definition example_fs : Fs nat :=
  {| fs_root := 0%nat; fs_root_identity := {| device := 1; inode := 2 |};
     fs_root_path := str "/srv"; fs_dup := fun d => Ok d;
     fs_openat2 := fun p => if bool_decide (p = str "a") then Ok 1%nat
                            else if bool_decide (p = DOT) then Ok 0%nat else Err NotFound;
     fs_fstat := fun d => Ok {| device := 1; inode := 2 + Z.of_nat d |};
     fs_parent := fun _ => Ok 0%nat;
     fs_statat := fun _ _ => Err NotFound;
     fs_child_identity := fun _ _ => Err NotFound |}.

Definition example_names : list bytes := [str "a"; str "b"; str "c"].

Lemma resolved_prefix_deepest_example :
  resolve_deepest_parent_prefix example_fs example_names = Ok (1%nat, 1%nat) /\
  is_ok (probe example_fs example_names 3) = false.
Proof.
  assert (resolve_deepest_parent_prefix example_fs example_names = Ok (1%nat, 1%nat)) as E
    by (by vm_compute).
  split; [exact E|]. apply (resolved_prefix_deepest example_fs example_names 1 1); [|done|cbn; lia].
  intros i j Hi Hj. cbn in Hj. destruct i as [|[|[|[|i]]]]; [lia| | | |lia];
    (destruct j as [|[|[|[|j]]]]; [lia| | | |lia]); try lia; vm_compute; congruence.
Qed.
End RootedPaths.
