(* ===== verification/PathPolicy.v ===== *)
(** * Request paths and reserved names

    [src/server/path_policy.rs] and the classification of
    [src/server/internal_names.rs]: every path a request names is decoded,
    checked lexically and attached below the shared root before anything touches
    the file system; names the server uses internally, and the namespaces of its
    own interface, cannot be reached that way.

    UUIDs, percent encoding and the platform's reserved paths come from libraries
    and are parameters. *)

From S2P Require Import Prelude Paths PathKeys RootedPaths Utils.

Module PathPolicy.

Definition UPLOAD_TEMP_PREFIX : bytes := str ".xczs-upload-".
Definition UPLOAD_TEMP_SUFFIX : bytes := str ".part".
Definition UPLOAD_STAGE_DIRECTORY : bytes := str ".xczs-upload-stages".
Definition READINESS_PROBE_ANCHOR : bytes := str ".xczs-readiness.probe".
Definition READINESS_PREFIX : bytes := str ".xczs-readiness-".
Definition READINESS_SUFFIX : bytes := str ".probe".
Definition DELETE_TRASH_PREFIX : bytes := str ".xczs-upload-delete-".
Definition DELETE_TRASH_SUFFIX : bytes := str ".trash".
Definition QUARANTINE_PREFIX : bytes := str ".xczs-quarantine-".
Definition QUARANTINE_SUFFIX : bytes := str ".hold".

Definition BROWSER_COMPONENT_BYTES_LIMIT : nat := 255.
Definition BROWSER_RELATIVE_PATH_BYTES_LIMIT : Z := 4095.
Definition TAG_API_PATH : bytes := str "api/v1/file-tags".

(** ** Stage paths *)

Section stages.
(** [Uuid::hyphenated] and [Sha256::digest] *)
Context (hyphenated sha256 : bytes -> bytes).

Definition upload_stage_name (target_tag upload_id : bytes) : bytes :=
  UPLOAD_TEMP_PREFIX ++ target_tag ++ str "-" ++ hyphenated upload_id ++ UPLOAD_TEMP_SUFFIX.

Definition upload_temp_path (path upload_id : bytes) : result string bytes :=
  dir ← ok_or (parent path) "Upload target has no parent directory";
  name ← ok_or (file_name path) "Upload target has no file name";
  Ok (push (push dir UPLOAD_STAGE_DIRECTORY)
        (upload_stage_name (Utils.encode_hex (sha256 name)) upload_id)).

Definition is_upload_temp_path (target upload_id stage : bytes) : result string bool :=
  expected ← upload_temp_path target upload_id; Ok (path_eqb expected stage).

Definition upload_stage_directory (path : bytes) : option bytes :=
  directory ← parent path;
  name ← file_name directory;
  if bool_decide (name = UPLOAD_STAGE_DIRECTORY) then Some directory else None.

End stages.

(** ** Internal names *)

Section names.
(** [Uuid::parse_str] and [Uuid::hyphenated] *)
Context (parse_uuid : bytes -> option bytes) (hyphenated : bytes -> bytes).

Definition is_canonical_uuid (value : bytes) : bool :=
  match parse_uuid value with
  | Some uuid => bool_decide (hyphenated uuid = value)
  | None => false
  end.

(** A prefix, a canonical UUID and a suffix. *)
Definition affixed (prefix suffix name : bytes) : bool :=
  match strip_prefix prefix name ≫= strip_suffix suffix with
  | Some value => is_canonical_uuid value
  | None => false
  end.

Definition is_readiness_name : bytes -> bool := affixed READINESS_PREFIX READINESS_SUFFIX.
Definition is_delete_trash_name : bytes -> bool := affixed DELETE_TRASH_PREFIX DELETE_TRASH_SUFFIX.
Definition is_quarantine_name : bytes -> bool := affixed QUARANTINE_PREFIX QUARANTINE_SUFFIX.

Definition is_lower_hex (b : byte) : bool :=
  let v := byte_val b in (((48 <=? v) && (v <=? 57)) || ((97 <=? v) && (v <=? 102)))%Z.

Definition is_upload_stage_name (name : bytes) : bool :=
  match strip_prefix UPLOAD_TEMP_PREFIX name ≫= strip_suffix UPLOAD_TEMP_SUFFIX with
  | None => false
  | Some value =>
      if (length value <? 64)%nat then false
      else if negb (forallb is_lower_hex (take 64 value)) then false
      else bool_decide (value !! 64%nat = Some x2d) && is_canonical_uuid (drop 65 value)
  end.

Inductive InternalEntryName : Type := StageDirectory | Readiness | DeleteTrash | Quarantine.

Definition classify_internal_name (name : bytes) : option InternalEntryName :=
  if bool_decide (name = UPLOAD_STAGE_DIRECTORY) then Some StageDirectory
  else if bool_decide (name = READINESS_PROBE_ANCHOR) then Some Readiness
  else if is_quarantine_name name then Some Quarantine
  else if is_delete_trash_name name then Some DeleteTrash
  else if is_readiness_name name then Some Readiness
  else None.

Definition is_internal_name (name : bytes) : bool :=
  match classify_internal_name name with Some _ => true | None => false end.

Definition delete_trash_name (trash_id : bytes) : bytes :=
  DELETE_TRASH_PREFIX ++ hyphenated trash_id ++ DELETE_TRASH_SUFFIX.
Definition quarantine_name (quarantine_id : bytes) : bytes :=
  QUARANTINE_PREFIX ++ hyphenated quarantine_id ++ QUARANTINE_SUFFIX.

(** ** Reserved namespaces *)

(** [xcss::server_runtime::PLATFORM_RESERVED_PATHS] *)
Context (platform_reserved_paths : list bytes).

Record PathPolicy : Type := { root : bytes; assets_component : bytes }.

Definition new (root : bytes) (assets_prefix : bytes) : PathPolicy :=
  {| root := root; assets_component := default assets_prefix (strip_suffix [SLASH] assets_prefix) |}.

(** [relative] is [base] or lies below it, as strings. *)
Definition at_or_below (base relative : bytes) : bool :=
  bool_decide (relative = base) ||
  match strip_prefix base relative with Some tail => has_root tail | None => false end.

Definition is_platform_path (relative : bytes) : bool :=
  at_or_below TAG_API_PATH relative ||
  existsb (fun r => at_or_below (trim_start_matches SLASH r) relative) platform_reserved_paths.

Definition strictly_below (base relative : bytes) : bool :=
  match strip_prefix base relative with Some tail => has_root tail | None => false end.

Definition is_platform_ancestor (relative : bytes) : bool :=
  negb (bool_decide (relative = [])) &&
  (strictly_below relative TAG_API_PATH ||
   existsb (fun r => strictly_below relative (trim_start_matches SLASH r)) platform_reserved_paths).

Definition is_reserved_component (policy : PathPolicy) (component : bytes) : bool :=
  bool_decide (component = str "__xczs__") || bool_decide (component = assets_component policy)
  || is_platform_path component.

(** ** Request paths *)

(** [percent_decode(..).decode_utf8()], and the encoding of one segment. *)
Context (decode_uri : bytes -> option bytes) (encode_segment : bytes -> bytes).

Definition encode_uri (v : bytes) : bytes := join [SLASH] (encode_segment <$> split SLASH v).

(** The loop over the components: all of them ordinary names within the limits. *)
Fixpoint route_parts (cs : list Component) : option (list bytes) :=
  match cs with
  | [] => Some []
  | Normal value :: cs =>
      if (BROWSER_COMPONENT_BYTES_LIMIT <? length value)%nat || is_internal_name value then None
      else parts ← route_parts cs; Some (value :: parts)
  | _ => None
  end.

Definition parse_route (policy : PathPolicy) (raw_path : bytes) : option bytes :=
  path ← decode_uri raw_path;
  if bool_decide (x00 ∈ path) then None
  else
    parts ← route_parts (components (trim_matches SLASH path));
    let normalized := join [SLASH] parts in
    if (BROWSER_RELATIVE_PATH_BYTES_LIMIT <? Z.of_nat (length normalized))%Z then None
    else if (is_platform_path normalized ||
             match head (split SLASH normalized) with
             | Some component => is_reserved_component policy component
             | None => false
             end)
            && negb (bool_decide (raw_path = SLASH :: encode_uri normalized)) then None
    else Some normalized.

(** The loop over the segments of a mutation target, from segment [index] on. *)
Fixpoint push_segments (policy : PathPolicy) (index : nat) (segments : list bytes) (resolved : bytes)
    : option bytes :=
  match segments with
  | [] => Some resolved
  | component :: segments =>
      if bool_decide (component = []) || bool_decide (component = DOT) || bool_decide (component = DOTDOT)
         || (BROWSER_COMPONENT_BYTES_LIMIT <? length component)%nat
         || is_internal_name component
         || ((index =? 0)%nat && is_reserved_component policy component)
      then None
      else push_segments policy (S index) segments (push resolved component)
  end.

Definition parse_browser_target (policy : PathPolicy) (value : bytes) : option bytes :=
  relative ← strip_prefix [SLASH] value;
  if bool_decide (relative = []) || is_platform_path relative
     || (BROWSER_RELATIVE_PATH_BYTES_LIMIT <? Z.of_nat (length relative))%Z
     || bool_decide (x00 ∈ relative) then None
  else push_segments policy 0 (split SLASH relative) (root policy).

Definition parse_list_target (policy : PathPolicy) (value : bytes) : option bytes :=
  if bool_decide (value = [SLASH]) then Some (root policy) else parse_browser_target policy value.

Definition resolve_route (policy : PathPolicy) (path : bytes) : bytes :=
  if bool_decide (path = []) then root policy else push (root policy) path.

Definition is_managed_root (policy : PathPolicy) (path : bytes) : bool := path_eqb path (root policy).

(** The paths that come here were read from request text, so [to_str] succeeds. *)
Definition protects_platform_namespace (policy : PathPolicy) (path : bytes) : bool :=
  match strip_path path (root policy) with
  | Some relative => is_platform_path relative || is_platform_ancestor relative
  | None => false
  end.

(** ** What is accepted *)

(** One name of an accepted path. *)
Definition name_allowed (s : bytes) : Prop :=
  normal_name s /\ (length s <= BROWSER_COMPONENT_BYTES_LIMIT)%nat /\ is_internal_name s = false.

(** The names of a mutation target. *)
Definition target_allowed (policy : PathPolicy) (parts : list bytes) : Prop :=
  let relative := join [SLASH] parts in
  (exists first rest, parts = first :: rest /\ is_reserved_component policy first = false) /\
  Forall name_allowed parts /\ is_platform_path relative = false /\
  (Z.of_nat (length relative) <= BROWSER_RELATIVE_PATH_BYTES_LIMIT)%Z /\ x00 ∉ relative.

Lemma components_name s : normal_name s -> components s = [Normal s].
Proof.
  intros Hs. pose proof Hs as (Hne & Hd & _ & Hsep). unfold components.
  rewrite no_sep_no_root, split_no_sep_id by done.
  rewrite bool_decide_false by (by intros [= ?]). cbn [omap list_omap app]. by rewrite segment_component_id.
Qed.

Lemma push_name buf s : normal_name s -> components (push buf s) = components buf ++ [Normal s].
Proof.
  intros Hs. pose proof Hs as (_ & Hd & _ & Hsep).
  rewrite RootedPaths.components_push; [by rewrite (components_name s)|by apply no_sep_no_root|].
  rewrite split_no_sep_id by done. by intros [= ?].
Qed.

Lemma normal_names_no_sep parts : Forall normal_name parts -> Forall (fun s => SLASH ∉ s) parts.
Proof. induction 1 as [|s ss (_ & _ & _ & H) _ IH]; by constructor. Qed.

Lemma omap_names parts : Forall normal_name parts -> omap segment_component parts = Normal <$> parts.
Proof. induction 1 as [|s ss Hs _ IH]; [done|]. cbn. by rewrite segment_component_id, IH. Qed.

(** Joining ordinary names and taking components is the identity. *)
Lemma components_join parts :
  Forall normal_name parts ->
  let p := join [SLASH] parts in
  components p = Normal <$> parts /\ has_root p = false /\ head (split SLASH p) <> Some DOT.
Proof.
  intros Hn p. destruct (decide (parts = [])) as [->|Hne]; [by subst p|].
  assert (split SLASH p = parts) as Hs by (apply split_join; [done|by apply normal_names_no_sep]).
  assert (head parts <> Some DOT) as Hd.
  { destruct Hn as [|s ss (_ & Hd & _) _]; [done|]. by intros [= ?]. }
  assert (has_root p = false) as Hr.
  { destruct Hn as [|s ss (H1 & _ & _ & H2) _]; [done|].
    apply bool_decide_eq_false. subst p. destruct s as [|x s]; [done|].
    assert (head (join [SLASH] ((x :: s) :: ss)) = Some x) as -> by (by destruct ss).
    intros [= ->]. apply H2. left. }
  unfold components. rewrite Hr, Hs, bool_decide_false by done. cbn. by rewrite omap_names.
Qed.

Lemma resolve_join (policy : PathPolicy) parts :
  Forall normal_name parts ->
  components (resolve_route policy (join [SLASH] parts)) = components (root policy) ++ (Normal <$> parts).
Proof.
  intros Hn. unfold resolve_route. destruct (components_join parts Hn) as (Hc & Hr & Hd).
  case_bool_decide as E.
  - rewrite E in Hc. rewrite <- Hc. cbn. by rewrite app_nil_r.
  - by rewrite RootedPaths.components_push, Hc.
Qed.

(** The test made of each segment. *)
Lemma segment_test (policy : PathPolicy) index s :
  SLASH ∉ s ->
  (bool_decide (s = []) || bool_decide (s = DOT) || bool_decide (s = DOTDOT)
   || (BROWSER_COMPONENT_BYTES_LIMIT <? length s)%nat || is_internal_name s
   || ((index =? 0)%nat && is_reserved_component policy s)) = false <->
  name_allowed s /\ (index = 0%nat -> is_reserved_component policy s = false).
Proof.
  intros Hs. rewrite !orb_false_iff, !bool_decide_eq_false, andb_false_iff, Nat.ltb_ge, Nat.eqb_neq.
  unfold name_allowed, normal_name. destruct (decide (index = 0%nat)); naive_solver.
Qed.

Lemma push_segments_Some (policy : PathPolicy) index segments resolved path :
  Forall (fun s => SLASH ∉ s) segments ->
  push_segments policy index segments resolved = Some path ->
  Forall name_allowed segments /\
  (index = 0%nat -> forall s, head segments = Some s -> is_reserved_component policy s = false) /\
  components path = components resolved ++ (Normal <$> segments).
Proof.
  revert index resolved. induction segments as [|s ss IH]; intros index resolved Hsep; cbn [push_segments].
  - intros [= ->]. cbn. by rewrite app_nil_r.
  - apply Forall_cons in Hsep as [Hs Hss]. destruct (_ || _) eqn:E; [done|].
    apply segment_test in E as [Hn Hr]; [|done].
    intros (H1 & _ & H2)%IH; [|done]. split_and!; [by constructor|naive_solver|].
    rewrite H2, push_name by apply Hn. by rewrite <- app_assoc.
Qed.

Lemma push_segments_total (policy : PathPolicy) index segments resolved :
  Forall name_allowed segments ->
  (index = 0%nat -> forall s, head segments = Some s -> is_reserved_component policy s = false) ->
  is_Some (push_segments policy index segments resolved).
Proof.
  intros H. revert index resolved. induction H as [|s ss Hs Hss IH]; intros index resolved Hr;
    cbn [push_segments]; [by eexists|].
  destruct (_ || _) eqn:E.
  - apply not_false_iff_true in E. destruct E. apply segment_test; [by apply Hs|].
    split; [done|]. intros ->. by apply Hr.
  - by apply IH.
Qed.

Lemma names_no_sep parts : Forall name_allowed parts -> Forall (fun s => SLASH ∉ s) parts.
Proof. intros H. apply normal_names_no_sep. induction H as [|s ss [] _ IH]; by constructor. Qed.

Lemma route_parts_Some cs parts :
  route_parts cs = Some parts ->
  cs = Normal <$> parts /\
  Forall (fun s => (length s <= BROWSER_COMPONENT_BYTES_LIMIT)%nat /\ is_internal_name s = false) parts.
Proof.
  revert parts. induction cs as [|[| | |s] cs IH]; intros parts; cbn [route_parts]; try done.
  - by intros [= <-].
  - destruct (_ || _) eqn:E; [done|]. apply orb_false_iff in E as [?%Nat.ltb_ge ?].
    destruct (route_parts cs) as [ps|]; [|done]. intros [= <-].
    destruct (IH ps eq_refl) as [-> Hps]. cbn. split; [done|]. by constructor.
Qed.

(** The components of a path that are all ordinary are proper names. *)
Lemma components_normal p parts : components p = Normal <$> parts -> Forall normal_name parts.
Proof.
  intros E. destruct (components_shape p) as (lead & cs & Hc & Hl & Ht).
  assert (lead = []) as ->.
  { rewrite E in Hc. destruct Hl as [->|[->| ->]]; [done|..]; by destruct parts. }
  cbn [app] in Hc. rewrite <- Hc, E in Ht. exact (proj1 (Forall_fmap Normal _ _) Ht).
Qed.

Lemma names_normal parts : Forall name_allowed parts -> Forall normal_name parts.
Proof. induction 1 as [|s ss [] _ IH]; by constructor. Qed.

Lemma browser_target_spec (policy : PathPolicy) value :
  match parse_browser_target policy value with
  | Some path => exists parts,
      value = SLASH :: join [SLASH] parts /\ target_allowed policy parts /\
      components path = components (root policy) ++ (Normal <$> parts)
  | None => forall parts, target_allowed policy parts -> value <> SLASH :: join [SLASH] parts
  end.
Proof.
  destruct (parse_browser_target policy value) as [path|] eqn:E; unfold parse_browser_target in E.
  - apply bind_Some in E as (relative & ->%strip_prefix_Some & E).
    destruct (_ || _) eqn:Ec; [done|].
    apply push_segments_Some in E as (Hn & Hr & Hc); [|apply split_no_sep].
    exists (split SLASH relative). unfold target_allowed. rewrite join_split.
    rewrite !orb_false_iff, !bool_decide_eq_false, Z.ltb_ge in Ec.
    destruct Ec as [[[? ?] ?] ?]. split_and!; try done.
    destruct (split SLASH relative) as [|s ss] eqn:Es; [by apply split_nonempty in Es|].
    eexists _, _. split; [done|]. by apply Hr.
  - intros parts ((first & rest & Hp & Hf) & Hn & Hpl & Hl & Hz) ->. cbn [strip_prefix] in E.
    rewrite decide_True in E by done. cbn [mbind option_bind] in E.
    rewrite Hpl, (proj2 (Z.ltb_ge _ _) Hl), (bool_decide_false (x00 ∈ _)) in E by done.
    rewrite bool_decide_false in E.
    + cbn [orb] in E. rewrite split_join in E by (subst; done || by apply names_no_sep).
      destruct (push_segments_total policy 0 parts (root policy) Hn) as [? Hs]; [|congruence].
      subst. by intros _ s [= <-].
    + intros Hnil. destruct (components_join parts (names_normal _ Hn)) as (Hc & _).
      rewrite Hnil in Hc. by subst.
Qed.

Lemma browser_target_inj (policy : PathPolicy) v1 v2 p1 p2 :
  parse_browser_target policy v1 = Some p1 -> parse_browser_target policy v2 = Some p2 ->
  path_eqb p1 p2 = true -> v1 = v2.
Proof.
  intros H1 H2 Heq%bool_decide_eq_true.
  pose proof (browser_target_spec policy v1) as S1. pose proof (browser_target_spec policy v2) as S2.
  rewrite H1 in S1. rewrite H2 in S2.
  destruct S1 as (q1 & -> & _ & C1), S2 as (q2 & -> & _ & C2).
  rewrite C1, C2 in Heq. apply app_inv_head in Heq.
  assert (Inj eq eq Normal) by (by intros ?? [= ->]). apply (inj (fmap Normal)) in Heq. by subst.
Qed.

Lemma parse_route_spec (policy : PathPolicy) raw route :
  parse_route policy raw = Some route ->
  exists decoded parts,
    decode_uri raw = Some decoded /\ components (trim_matches SLASH decoded) = Normal <$> parts /\
    route = join [SLASH] parts /\ Forall name_allowed parts /\
    (Z.of_nat (length route) <= BROWSER_RELATIVE_PATH_BYTES_LIMIT)%Z /\
    components (resolve_route policy route) = components (root policy) ++ (Normal <$> parts) /\
    (is_platform_path route = true \/
     (exists s, head parts = Some s /\ is_reserved_component policy s = true) ->
     raw = SLASH :: encode_uri route).
Proof.
  unfold parse_route. intros (path & Hd & E)%bind_Some. destruct (bool_decide _); [done|].
  apply bind_Some in E as (parts & [Hc Hp]%route_parts_Some & E).
  destruct (Z.ltb_spec BROWSER_RELATIVE_PATH_BYTES_LIMIT (Z.of_nat (length (join [SLASH] parts))));
    [done|].
  destruct (_ && _) eqn:Er; [done|]. injection E as <-.
  pose proof (components_normal _ _ Hc) as Hn. exists path, parts. split_and!; try done.
  - apply Forall_forall. intros s Hs. rewrite Forall_forall in Hp, Hn.
    split; [by apply Hn|by apply Hp].
  - by apply resolve_join.
  - intros Hres. apply andb_false_iff in Er as [Er|Er];
      [|by apply negb_false_iff, bool_decide_eq_true in Er].
    apply orb_false_iff in Er as [Er1 Er2]. destruct Hres as [?|(s & Hs & ?)]; [congruence|].
    rewrite split_join, Hs in Er2 by (by intros -> || by apply normal_names_no_sep). congruence.
Qed.

Lemma affixed_intro prefix suffix uuid :
  parse_uuid (hyphenated uuid) = Some uuid ->
  affixed prefix suffix (prefix ++ hyphenated uuid ++ suffix) = true.
Proof.
  intros Hu. unfold affixed.
  rewrite (proj2 (strip_prefix_Some _ _ (hyphenated uuid ++ suffix))) by done. cbn [mbind option_bind].
  rewrite (proj2 (strip_suffix_Some _ _ (hyphenated uuid))) by done.
  unfold is_canonical_uuid. rewrite Hu. by apply bool_decide_true.
Qed.

Lemma generated_names_internal uuid :
  parse_uuid (hyphenated uuid) = Some uuid ->
  is_internal_name (delete_trash_name uuid) = true /\ is_internal_name (quarantine_name uuid) = true.
Proof.
  intros Hu.
  pose proof (affixed_intro DELETE_TRASH_PREFIX DELETE_TRASH_SUFFIX uuid Hu) as Hd.
  pose proof (affixed_intro QUARANTINE_PREFIX QUARANTINE_SUFFIX uuid Hu) as Hq.
  unfold is_internal_name, classify_internal_name, is_quarantine_name, is_delete_trash_name,
    delete_trash_name, quarantine_name.
  rewrite Hd, Hq. split; repeat (destruct (bool_decide _); [done|]); [|done].
  by destruct (affixed QUARANTINE_PREFIX _ _).
Qed.

(** C39. Request paths are confined to the shared root.  A mutation target is
    accepted exactly when it is a slash followed by slash-separated ordinary
    names, each of at most 255 bytes and none internal, the first one outside the
    server's own namespaces, the whole at most 4095 bytes, without a NUL byte and
    outside the platform's paths; the resulting path is then the root followed by
    exactly those names, so that two accepted targets give the same path only if
    they are the same text.  A route is accepted only if it decodes to such
    names, resolves to the root followed by them, and, within a reserved
    namespace, only in its one canonical spelling.  The names the server gives to
    deleted and quarantined entries are internal, so neither form reaches them. *)
Theorem request_paths_confined (policy : PathPolicy) :
  (forall value,
    match parse_browser_target policy value with
    | Some path => exists parts,
        value = SLASH :: join [SLASH] parts /\ target_allowed policy parts /\
        components path = components (root policy) ++ (Normal <$> parts)
    | None => forall parts, target_allowed policy parts -> value <> SLASH :: join [SLASH] parts
    end) /\
  (forall v1 v2 p1 p2,
    parse_browser_target policy v1 = Some p1 -> parse_browser_target policy v2 = Some p2 ->
    path_eqb p1 p2 = true -> v1 = v2) /\
  (forall raw route,
    parse_route policy raw = Some route ->
    exists decoded parts,
      decode_uri raw = Some decoded /\ components (trim_matches SLASH decoded) = Normal <$> parts /\
      route = join [SLASH] parts /\ Forall name_allowed parts /\
      (Z.of_nat (length route) <= BROWSER_RELATIVE_PATH_BYTES_LIMIT)%Z /\
      components (resolve_route policy route) = components (root policy) ++ (Normal <$> parts) /\
      (is_platform_path route = true \/
       (exists s, head parts = Some s /\ is_reserved_component policy s = true) ->
       raw = SLASH :: encode_uri route)) /\
  (forall uuid,
    parse_uuid (hyphenated uuid) = Some uuid ->
    is_internal_name (delete_trash_name uuid) = true /\ is_internal_name (quarantine_name uuid) = true).
Proof.
  split_and!; [apply browser_target_spec|apply browser_target_inj|apply parse_route_spec|apply generated_names_internal].
Qed.
End names.

(** A sharing of [/srv/share], one platform path, no escapes in the request. *)
Lemma request_paths_confined_witness :
  let policy := new (str "/srv/share") (str "__xczs_assets_test/") in
  let parse := parse_browser_target (fun _ => None) id [str "/healthz"] policy in
  parse (str "/folder/file.txt") = Some (str "/srv/share/folder/file.txt") /\
  parse (str "/folder/../file") = None /\ parse (str "/healthz/x") = None /\
  (exists parts, str "/folder/file.txt" = SLASH :: join [SLASH] parts /\
     components (str "/srv/share/folder/file.txt") = components (str "/srv/share") ++ (Normal <$> parts)) /\
  exists parts, components (resolve_route policy (str "healthz")) =
                  components (str "/srv/share") ++ (Normal <$> parts).
Proof.
  intros policy parse. split; [by vm_compute|]. split; [by vm_compute|]. split; [by vm_compute|].
  pose proof (request_paths_confined (fun _ => None) id [str "/healthz"] Some id policy)
    as (Hb & _ & Hr & _). split.
  - specialize (Hb (str "/folder/file.txt")).
    assert (parse (str "/folder/file.txt") = Some (str "/srv/share/folder/file.txt")) as E
      by (by vm_compute).
    unfold parse in E. rewrite E in Hb. destruct Hb as (parts & H1 & _ & H2). by exists parts.
  - destruct (Hr (str "/healthz") (str "healthz")) as (_ & parts & _ & _ & _ & _ & _ & H & _);
      [by vm_compute|by exists parts].
Defined.
End PathPolicy.
