(* ===== verification/StateScan.v ===== *)
(** * Scanning the durable obligations

    Before a rename, a delete or a replacement, the server looks through every
    path that durable upload and purge records depend on, in pages
    ([state_blocking_paths] of [src/server/state_store/purge.rs]), and asks the
    path coordinator's [StatePathScanner] whether any of them conflicts with the
    mutation ([has_persisted_path_conflict], [has_persisted_path_descendant] of
    [src/server.rs]). *)

From S2P Require Import Prelude Paths PathKeys Sql StateModel UploadStore PurgeStore RootedPaths.

Module StateScan.

(** ** The view of both tables *)

#[global] Instance cursor_countable : Countable StatePathCursor :=
  inj_countable' (fun c => (c_kind c, c_owner c, c_id c, c_slot c))
    (fun '(k, o, i, s) => {| c_kind := k; c_owner := o; c_id := i; c_slot := s |})
    (fun c => match c with {| c_kind := _; c_owner := _; c_id := _; c_slot := _ |} => eq_refl end).

(** [(kind, owner_digest, item_id, slot)] as a row value. *)
Definition cursor_tuple (c : StatePathCursor) : Z * (bytes * (bytes * Z)) :=
  (c_kind c, (c_owner c, (c_id c, c_slot c))).
Definition cursor_cmp (a b : StatePathCursor) : comparison :=
  pair_cmp Z.compare (pair_cmp bytes_cmp (pair_cmp bytes_cmp Z.compare)) (cursor_tuple a) (cursor_tuple b).

#[global] Instance cursor_total_cmp : TotalCmp cursor_cmp.
Proof.
  pose proof (pair_total_cmp Z.compare (pair_cmp bytes_cmp (pair_cmp bytes_cmp Z.compare))) as [He Ho Ht].
  split; unfold cursor_cmp.
  - intros [] []. rewrite He. unfold cursor_tuple. cbn. split; congruence.
  - intros a b. apply Ho.
  - intros a b c. apply Ht.
Qed.

Definition cursor (kind slot : Z) (k : Key) : StatePathCursor :=
  {| c_kind := kind; c_owner := owner k; c_id := id k; c_slot := slot |}.

#[global] Instance cursor_inj kind slot : Inj (=) (=) (cursor kind slot).
Proof. intros [] []. unfold cursor. cbn. congruence. Qed.

Abbreviation View := (gmap StatePathCursor (bytes * Z)).

(** The four parts of the [UNION ALL]; a row is a path and the flag
    [allows_exact_replacement]. *)
Definition upload_targets (u : UploadStore.Table) : View :=
  kmap (cursor 0 0) (omap (fun r =>
    if UploadStore.row_active r
    then Some (UploadStore.r_target_path r,
               if (UploadStore.r_state r =? UPLOAD_RUNNING)%Z then 1%Z else 0%Z)
    else None) u).
Definition upload_stages (u : UploadStore.Table) : View :=
  kmap (cursor 0 1) (omap (fun r =>
    if UploadStore.row_active r then Some (UploadStore.r_stage_path r, 0%Z) else None) u).
Definition purge_targets (p : PurgeStore.Table) : View :=
  kmap (cursor 1 0) (omap (fun r =>
    if (PurgeStore.r_state r =? PURGE_PREPARED)%Z then Some (PurgeStore.r_target_path r, 0%Z)
    else None) p).
Definition purge_trash (p : PurgeStore.Table) : View :=
  kmap (cursor 1 1) (omap (fun r => Some (PurgeStore.r_trash_path r, 0%Z)) p).

Definition state_paths (u : UploadStore.Table) (p : PurgeStore.Table) : View :=
  upload_targets u ∪ upload_stages u ∪ purge_targets p ∪ purge_trash p.

Definition state_path_is_bound (u : UploadStore.Table) (p : PurgeStore.Table) (path : bytes) : bool :=
  (0 <? count_where (fun _ r => bool_decide (UploadStore.r_stage_path r = path)
                                && UploadStore.row_active r) u
        + count_where (PurgeStore.trash_is path) p)%Z.

(** ** Pages *)

Definition decode_state_path_row (row : StatePathCursor * (bytes * Z))
    : result string (StatePathCursor * StateBlockingPath) :=
  let '(c, (path, allows)) := row in
  _ ← ensure (bool_decide (c_kind c ∈ [0; 1]%Z)) "State path kind is invalid";
  _ ← ensure (bool_decide (c_slot c ∈ [0; 1]%Z)) "State path slot is invalid";
  _ ← ensure (bool_decide (allows ∈ [0; 1]%Z)) "State path replacement policy is invalid";
  _ ← validate_stored_path path "State path";
  ow ← UploadStore.fixed 32 (c_owner c) "State path owner digest has an invalid length";
  i ← UploadStore.fixed 16 (c_id c) "State path id has an invalid length";
  Ok ({| c_kind := c_kind c; c_owner := ow; c_id := i; c_slot := c_slot c |},
      {| bp_path := path; allows_exact_replacement := negb (allows =? 0)%Z |}).

Definition query_state_blocking_paths (v : View) (after : option StatePathCursor) (limit : Z)
    : result string StatePathPage :=
  decoded ← collect (decode_state_path_row <$> page cursor_cmp (fun _ _ => true) v limit after);
  Ok {| page_paths := decoded.*2;
        page_next := if (Z.of_nat (length decoded) =? limit)%Z then fst <$> last decoded else None |}.

Definition state_blocking_paths (u : UploadStore.Table) (p : PurgeStore.Table)
    (after : option StatePathCursor) (limit : Z) : result string StatePathPage :=
  limit ← query_limit limit; query_state_blocking_paths (state_paths u p) after limit.

(** ** The scanner *)

Inductive StatePathScanRelation : Type := SymmetricConflict | StrictDescendant.

Record StatePathScanner : Type := {
  sources : list bytes;
  resolved_sources : option (list LeaseKey);
  relation : StatePathScanRelation }.

Definition lease_key (p : bytes) (k : ResolvedPathKey) : LeaseKey := {| lexical := p; resolved := k |}.

(** The test on resolved keys; a directional scan has one source. *)
Definition keys_conflict (rel : StatePathScanRelation) (srcs : list LeaseKey)
    (candidates : list (LeaseKey * bool)) : bool :=
  match rel with
  | SymmetricConflict =>
      existsb (fun source => existsb (fun c => path_keys_conflict source c.1) candidates) srcs
  | StrictDescendant =>
      match srcs with
      | [] => false
      | ancestor :: _ =>
          existsb (fun c : LeaseKey * bool =>
            if paths_identify_same_entry ancestor c.1 then negb c.2
            else path_strictly_contains ancestor c.1) candidates
      end
  end.

Section scan.
Context {E : Type} (resolve_state_path : bytes -> result E bytes)
  (resolved_path_key : bytes -> result E ResolvedPathKey).

(** [resolved_path_keys_for_state_scan]: the whole batch, or the first error. *)
Definition resolve_batch (paths : list bytes) : result E (list ResolvedPathKey) :=
  collect (resolved_path_key <$> paths).

Definition candidate_of (sp : StateBlockingPath) : result E (bytes * bool) :=
  p ← resolve_state_path (bp_path sp); Ok (normalize_key p, allows_exact_replacement sp).

Definition page_conflicts (s : StatePathScanner) (paths : list StateBlockingPath)
    : StatePathScanner * bool :=
  match paths with
  | [] => (s, false)
  | _ =>
      match collect (candidate_of <$> paths) with
      | Err _ => (s, true)
      | Ok candidates =>
          let batch := match resolved_sources s with None => sources s | Some _ => [] end
                       ++ candidates.*1 in
          match resolve_batch batch with
          | Err _ => (s, true)
          | Ok keys =>
              let '(srcs, rest) :=
                match resolved_sources s with
                | None => (zip_with lease_key (sources s) keys, drop (length (sources s)) keys)
                | Some srcs => (srcs, keys)
                end in
              let candidate_keys := zip_with (fun c k => (lease_key c.1 k, c.2)) candidates rest in
              ({| sources := sources s; resolved_sources := Some srcs; relation := relation s |},
               keys_conflict (relation s) srcs candidate_keys)
          end
      end
  end.

Definition STATE_PATH_ADMISSION_PAGE_SIZE : Z := 256.

(** The loop of [has_persisted_path_conflict] and [has_persisted_path_descendant];
    [None] is a loop still running when the fuel is used up. *)
Fixpoint scan (fuel : nat) (u : UploadStore.Table) (p : PurgeStore.Table) (s : StatePathScanner)
    (after : option StatePathCursor) : option (result string bool) :=
  match fuel with
  | O => None
  | S fuel =>
      match state_blocking_paths u p after STATE_PATH_ADMISSION_PAGE_SIZE with
      | Err e => Some (Err e)
      | Ok pg =>
          let '(s', conflict) := page_conflicts s (page_paths pg) in
          if conflict then Some (Ok true)
          else match page_next pg with
               | None => Some (Ok false)
               | Some next => scan fuel u p s' (Some next)
               end
      end
  end.

(** The scans of [server.rs] on tables that stay as they are from page to page.  The
    semaphore that admits a scan is with the requests that make one ([MutationWorld.v],
    [UploadRequests.v]). *)
Definition has_persisted_path_conflict (fuel : nat) (u : UploadStore.Table) (p : PurgeStore.Table)
    (paths : list bytes) : option (result string bool) :=
  scan fuel u p {| sources := normalize_key <$> paths; resolved_sources := None;
                   relation := SymmetricConflict |} None.

Definition has_persisted_path_descendant (fuel : nat) (u : UploadStore.Table)
    (p : PurgeStore.Table) (path : bytes) : option (result string bool) :=
  scan fuel u p {| sources := [normalize_key path]; resolved_sources := None;
                   relation := StrictDescendant |} None.
End scan.
(** ** What the view contains *)

(** A path some durable record depends on, and whether a fresh upload may replace
    exactly that entry. *)
Variant obligation (u : UploadStore.Table) (p : PurgeStore.Table) : bytes -> bool -> Prop :=
| ob_upload_target k r :
    u !! k = Some r -> UploadStore.row_active r = true ->
    obligation u p (UploadStore.r_target_path r) (UploadStore.r_state r =? UPLOAD_RUNNING)%Z
| ob_upload_stage k r :
    u !! k = Some r -> UploadStore.row_active r = true ->
    obligation u p (UploadStore.r_stage_path r) false
| ob_purge_target k r :
    p !! k = Some r -> PurgeStore.r_state r = PURGE_PREPARED ->
    obligation u p (PurgeStore.r_target_path r) false
| ob_purge_trash k r : p !! k = Some r -> obligation u p (PurgeStore.r_trash_path r) false.

Lemma lookup_part {R} kind slot (f : R -> option (bytes * Z)) (t : gmap Key R) c v :
  (kmap (cursor kind slot) (omap f t) : View) !! c = Some v <->
  exists k r, c = cursor kind slot k /\ t !! k = Some r /\ f r = Some v.
Proof.
  rewrite lookup_kmap_Some by apply _. split.
  - intros (k & -> & Hk). apply lookup_omap_Some in Hk as (r & Hf & Hr). eauto.
  - intros (k & r & -> & Hr & Hf). exists k. split; [done|]. apply lookup_omap_Some. eauto.
Qed.

Lemma parts_disjoint {R S} k1 s1 k2 s2 (f : R -> option (bytes * Z)) (g : S -> option (bytes * Z))
    (t : gmap Key R) (t' : gmap Key S) :
  (k1, s1) <> (k2, s2) ->
  (kmap (cursor k1 s1) (omap f t) : View) ##ₘ kmap (cursor k2 s2) (omap g t').
Proof.
  intros Hne. apply map_disjoint_spec. intros c x y (k & r & -> & _)%lookup_part (k' & r' & E & _)%lookup_part.
  unfold cursor in E. apply Hne. congruence.
Qed.

Lemma lookup_state_paths u p c v :
  state_paths u p !! c = Some v <->
  upload_targets u !! c = Some v \/ upload_stages u !! c = Some v \/
  purge_targets p !! c = Some v \/ purge_trash p !! c = Some v.
Proof.
  unfold state_paths.
  rewrite lookup_union_Some
    by (unfold upload_targets, upload_stages, purge_targets, purge_trash;
        repeat (apply map_disjoint_union_l; split); by apply parts_disjoint).
  rewrite lookup_union_Some
    by (unfold upload_targets, upload_stages, purge_targets, purge_trash;
        repeat (apply map_disjoint_union_l; split); by apply parts_disjoint).
  rewrite lookup_union_Some by (by apply parts_disjoint).
  tauto.
Qed.

Lemma state_paths_obligation u p path b :
  (exists c a, state_paths u p !! c = Some (path, a) /\ b = negb (a =? 0)%Z) <-> obligation u p path b.
Proof.
  setoid_rewrite lookup_state_paths.
  unfold upload_targets, upload_stages, purge_targets, purge_trash. split.
  - intros (c & a & [H|[H|[H|H]]] & ->); apply lookup_part in H as (k & r & _ & Hr & Hf);
      try case_match; simplify_eq.
    + replace (negb _) with (UploadStore.r_state r =? UPLOAD_RUNNING)%Z by (by case_match).
      by eapply ob_upload_target.
    + by eapply ob_upload_stage.
    + eapply ob_purge_target; [done|]. by split_bool.
    + by eapply ob_purge_trash.
  - intros [k r Hr Ha|k r Hr Ha|k r Hr Ha|k r Hr].
    + exists (cursor 0 0 k), (if (UploadStore.r_state r =? UPLOAD_RUNNING)%Z then 1 else 0)%Z.
      split; [|by case_match]. left. apply lookup_part. exists k, r. by rewrite Ha.
    + exists (cursor 0 1 k), 0%Z. split; [|done]. right. left. apply lookup_part. exists k, r. by rewrite Ha.
    + exists (cursor 1 0 k), 0%Z. split; [|done]. right. right. left. apply lookup_part. exists k, r.
      by rewrite Ha.
    + exists (cursor 1 1 k), 0%Z. split; [|done]. do 3 right. apply lookup_part. by exists k, r.
Qed.

(** On well-formed tables every row of the view decodes. *)
Lemma view_decodes u p c path a :
  map_Forall UploadStore.decodes u -> map_Forall PurgeStore.row_ok p ->
  state_paths u p !! c = Some (path, a) ->
  decode_state_path_row (c, (path, a)) =
    Ok (c, {| bp_path := path; allows_exact_replacement := negb (a =? 0)%Z |}).
Proof.
  intros Hu Hp Hc.
  assert (exists kind slot k, c = cursor kind slot k /\ kind ∈ [0; 1]%Z /\ slot ∈ [0; 1]%Z /\
    key_wf k = true /\ a ∈ [0; 1]%Z /\ exists d, validate_stored_path path d = Ok tt)
    as (kind & slot & k & -> & Hk & Hs & Hwf & Ha & d & Hv).
  { apply lookup_state_paths in Hc.
    unfold upload_targets, upload_stages, purge_targets, purge_trash in Hc.
    destruct Hc as [H|[H|[H|H]]]; apply lookup_part in H as (k & r & -> & Hr & Hf);
      try case_match; simplify_eq; do 3 eexists; (split; [done|]).
    - destruct (Hu k r Hr) as [s Hd]. apply UploadStore.decode_inv in Hd as (<- & He & ->).
      pose proof (UploadStore.en_valid s He) as (Ht & _)%UploadStore.session_validate_Ok.
      split_and!; [set_solver..|apply He|case_match; set_solver|]. by eexists.
    - destruct (Hu k r Hr) as [s Hd]. apply UploadStore.decode_inv in Hd as (<- & He & ->).
      pose proof (UploadStore.en_valid s He) as (_ & Ht & _)%UploadStore.session_validate_Ok.
      split_and!; [set_solver..|apply He|set_solver|]. by eexists.
    - pose proof (Hp k r Hr) as []. split_and!; [set_solver..|done|set_solver|]. by eexists.
    - pose proof (Hp k r Hr) as []. split_and!; [set_solver..|done|set_solver|]. by eexists. }
  unfold decode_state_path_row. cbn [c_kind c_slot cursor c_owner c_id].
  rewrite !bool_decide_true by done. cbn [ensure mbind result_bind].
  assert (validate_stored_path path "State path" = Ok tt) as ->.
  { unfold validate_stored_path in *. inv_result. split_bool.
    rewrite bool_decide_false by done. cbn [negb ensure mbind result_bind].
    rewrite (proj2 (Z.leb_le _ _)) by done. cbn [ensure mbind result_bind].
    by rewrite bool_decide_false. }
  apply UploadStore.key_wf_lengths in Hwf as [H1 H2].
  rewrite !(proj2 (UploadStore.fixed_Ok _ _ _ _)) by done. done.
Qed.
(** ** One page is judged path by path *)

Section verdict.
Context {E : Type} (resolve_state_path : bytes -> result E bytes)
  (resolved_path_key : bytes -> result E ResolvedPathKey).

(** A single durable path blocks resolved sources if it cannot be resolved or its
    key conflicts. *)
Definition blocked (rel : StatePathScanRelation) (srcs : list LeaseKey) (sp : StateBlockingPath) : bool :=
  match candidate_of resolve_state_path sp with
  | Err _ => true
  | Ok (lex, allows) =>
      match resolved_path_key lex with
      | Err _ => true
      | Ok k => keys_conflict rel srcs [(lease_key lex k, allows)]
      end
  end.

(** The sources' keys, if they all resolve. *)
Definition source_keys (srcs : list bytes) : result E (list LeaseKey) :=
  ks ← resolve_batch resolved_path_key srcs; Ok (zip_with lease_key srcs ks).

Definition verdict (rel : StatePathScanRelation) (srcs : list bytes) (sps : list StateBlockingPath) : bool :=
  match sps with
  | [] => false
  | _ => match source_keys srcs with
         | Err _ => true
         | Ok keys => existsb (blocked rel keys) sps
         end
  end.

Definition scanner_ok (s : StatePathScanner) : Prop :=
  forall keys, resolved_sources s = Some keys -> source_keys (sources s) = Ok keys.

Lemma keys_conflict_each rel srcs cs :
  keys_conflict rel srcs cs = existsb (fun c => keys_conflict rel srcs [c]) cs.
Proof.
  destruct rel; cbn.
  - rewrite (existsb_swap (fun source c => path_keys_conflict source c.1) srcs cs).
    induction cs as [|c cs IH]; cbn; [done|]. rewrite IH. f_equal. clear.
    induction srcs as [|x srcs IH]; cbn; [done|]. by rewrite IH, orb_false_r.
  - destruct srcs as [|a srcs]; [by induction cs|]. induction cs as [|c cs IH]; cbn; [done|].
    by rewrite IH, orb_false_r.
Qed.

Lemma blocked_candidates rel srcs sps cands keys :
  collect (candidate_of resolve_state_path <$> sps) = Ok cands ->
  resolve_batch resolved_path_key cands.*1 = Ok keys ->
  existsb (blocked rel srcs) sps =
  keys_conflict rel srcs (zip_with (fun c k => (lease_key c.1 k, c.2)) cands keys).
Proof.
  rewrite keys_conflict_each. intros H1%collect_Ok H2%collect_Ok.
  apply Forall2_fmap_l in H1. apply Forall2_fmap_l, Forall2_fmap_l in H2.
  revert keys H2. induction H1 as [|sp [lex al] sps cands Hsp _ IH]; intros keys H2.
  - apply Forall2_nil_inv_l in H2 as ->. done.
  - apply Forall2_cons_inv_l in H2 as (k & keys' & Hk & H2 & ->). cbn in Hk |- *.
    rewrite <- (IH keys' H2). f_equal. unfold blocked. by rewrite Hsp, Hk.
Qed.

Lemma blocked_error rel srcs sps :
  (exists e, collect (candidate_of resolve_state_path <$> sps) = Err e) \/
  (exists cands e, collect (candidate_of resolve_state_path <$> sps) = Ok cands /\
     resolve_batch resolved_path_key cands.*1 = Err e) ->
  existsb (blocked rel srcs) sps = true.
Proof.
  induction sps as [|sp sps IH]; intros H.
  { destruct H as [[e H]|(c & e & H & H2)]; [done|]. injection H as <-. done. }
  cbn. unfold blocked at 1. cbn in H. destruct (candidate_of resolve_state_path sp) as [[lex al]|e0]; [|done].
  cbn in H. destruct (resolved_path_key lex) as [k|e0] eqn:Ek; [|done].
  rewrite IH; [apply orb_true_r|].
  destruct (collect (candidate_of resolve_state_path <$> sps)) as [cs|e1]; cbn in H.
  - right. destruct H as [[e H]|(c & e & H & H2)]; [done|]. injection H as <-.
    cbn in H2. unfold resolve_batch in *. cbn in H2. rewrite Ek in H2. cbn in H2.
    destruct (collect (resolved_path_key <$> cs.*1)) as [x|e2] eqn:E2; [done|]. eauto.
  - left. eauto.
Qed.

Lemma page_conflicts_verdict s sps s' b :
  scanner_ok s -> page_conflicts resolve_state_path resolved_path_key s sps = (s', b) ->
  b = verdict (relation s) (sources s) sps /\
  (b = false -> scanner_ok s' /\ sources s' = sources s /\ relation s' = relation s).
Proof.
  intros Hs. unfold page_conflicts, verdict. destruct sps as [|sp sps]; [by intros [= <- <-]|].
  set (l := sp :: sps) in *. clearbody l. clear sp sps.
  destruct (collect (candidate_of resolve_state_path <$> l)) as [cands|e] eqn:Ec.
  2:{ intros [= <- <-]. split; [|done]. destruct (source_keys (sources s)); [|done].
      symmetry. apply blocked_error. left. eauto. }
  unfold resolve_batch. rewrite fmap_app, collect_app.
  destruct (resolved_sources s) as [srcs|] eqn:Er.
  - specialize (Hs srcs Er). rewrite Hs. cbn [fmap list_fmap collect mbind result_bind].
    destruct (collect (resolved_path_key <$> cands.*1)) as [keys|e] eqn:Ek; cbn [mbind result_bind app].
    + intros [= <- <-]. split.
      * symmetry. by apply blocked_candidates.
      * intros _. split; [|done]. intros ks. cbn. by intros [= <-].
    + intros [= <- <-]. split; [|done]. symmetry. apply blocked_error. right. eauto.
  - unfold source_keys, resolve_batch.
    destruct (collect (resolved_path_key <$> sources s)) as [sk|e] eqn:Esk; cbn [mbind result_bind].
    2:{ intros [= <- <-]. done. }
    pose proof (length_collect _ _ Esk) as Hlen. rewrite length_fmap in Hlen.
    destruct (collect (resolved_path_key <$> cands.*1)) as [keys|e] eqn:Ek; cbn [mbind result_bind].
    + rewrite <- Hlen, drop_app_length.
      assert (zip_with lease_key (sources s) (sk ++ keys) = zip_with lease_key (sources s) sk) as ->.
      { rewrite <- (app_nil_r (sources s)) at 1. rewrite zip_with_app by done. cbn. apply app_nil_r. }
      intros [= <- <-]. split.
      * symmetry. by apply blocked_candidates.
      * intros _. split; [|done]. intros ks. cbn. intros [= <-].
        unfold source_keys, resolve_batch. by rewrite Esk.
    + intros [= <- <-]. split; [|done]. symmetry. apply blocked_error. right. eauto.
Qed.
End verdict.
(** ** The paged scan is the scan of the whole view *)

Lemma verdict_app {E} rs rk rel srcs l1 l2 :
  @verdict E rs rk rel srcs (l1 ++ l2) = verdict rs rk rel srcs l1 || verdict rs rk rel srcs l2.
Proof.
  unfold verdict. destruct l1 as [|a l1]; cbn [app]; [done|].
  destruct (source_keys rk srcs); [|done]. change (a :: l1 ++ l2) with ((a :: l1) ++ l2).
  rewrite existsb_app. destruct l2; [by rewrite !orb_false_r|done].
Qed.

Abbreviation whole := (fun (_ : StatePathCursor) (_ : bytes * Z) => true).

Section paged.
Context {E : Type} (rs : bytes -> result E bytes) (rk : bytes -> result E ResolvedPathKey).
Context (u : UploadStore.Table) (p : PurgeStore.Table).
Context (Hu : map_Forall UploadStore.decodes u) (Hp : map_Forall PurgeStore.row_ok p).

Definition rows : list (StatePathCursor * (bytes * Z)) := sorted_hits cursor_cmp whole (state_paths u p).
Definition blocking_of (row : StatePathCursor * (bytes * Z)) : StateBlockingPath :=
  {| bp_path := row.2.1; allows_exact_replacement := negb (row.2.2 =? 0)%Z |}.

Lemma rows_decode row : row ∈ rows -> decode_state_path_row row = Ok (row.1, blocking_of row).
Proof.
  destruct row as [c [path a]]. intros [H _]%elem_of_sorted_hits. by apply (view_decodes u p).
Qed.

Lemma collect_rows l :
  (forall row, row ∈ l -> row ∈ rows) ->
  collect (decode_state_path_row <$> l) = Ok ((fun row => (row.1, blocking_of row)) <$> l).
Proof.
  induction l as [|row l IH]; intros Hin; [done|]. cbn [fmap list_fmap collect].
  rewrite rows_decode by (apply Hin; left). cbn [mbind result_bind].
  rewrite IH; [done|]. intros r Hr. apply Hin. by right.
Qed.

Definition starts_at (i : nat) (after : option StatePathCursor) : Prop :=
  i = 0%nat /\ after = None \/ exists j row, i = S j /\ rows !! j = Some row /\ after = Some row.1.

Lemma page_rows_at i after n :
  starts_at i after ->
  page cursor_cmp whole (state_paths u p) n after = take (Z.to_nat n) (drop i rows).
Proof.
  intros [[-> ->]|(j & [c v] & -> & Hj & ->)]; [apply page_first, _|].
  eapply page_next_drop; [apply _|done].
Qed.

Lemma blocking_page_at i after :
  starts_at i after ->
  state_blocking_paths u p after STATE_PATH_ADMISSION_PAGE_SIZE =
  let l := take 256 (drop i rows) in
  Ok {| page_paths := blocking_of <$> l;
        page_next := if (Z.of_nat (length l) =? 256)%Z then fst <$> last l else None |}.
Proof.
  intros Hi. unfold state_blocking_paths, query_limit, query_state_blocking_paths.
  cbn [ensure mbind result_bind Z.ltb]. change (0 <? STATE_PATH_ADMISSION_PAGE_SIZE)%Z with true.
  change (i64_try_from STATE_PATH_ADMISSION_PAGE_SIZE) with (Some 256%Z).
  cbn [ensure ok_or mbind result_bind]. rewrite (page_rows_at i after 256 Hi).
  change (Z.to_nat 256) with 256%nat. cbv zeta.
  rewrite collect_rows.
  2:{ intros row (k & Hk & _)%elem_of_take. rewrite lookup_drop in Hk. by eapply list_elem_of_lookup_2. }
  cbn [mbind result_bind]. rewrite length_fmap, <- list_fmap_compose.
  f_equal. f_equal. destruct (_ =? _)%Z; [|done]. rewrite fmap_last. by destruct (last _).
Qed.

Lemma scan_from fuel i after s :
  (length rows - i < fuel)%nat -> starts_at i after -> scanner_ok rk s ->
  scan rs rk fuel u p s after =
  Some (Ok (verdict rs rk (relation s) (sources s) (blocking_of <$> drop i rows))).
Proof.
  revert i after s. induction fuel as [|fuel IH]; intros i after s Hf Hi Hs; [lia|]. cbn [scan].
  rewrite (blocking_page_at i after Hi). cbv zeta. cbn [page_paths page_next].
  set (l := take 256 (drop i rows)).
  assert (drop i rows = l ++ drop (i + 256) rows) as Hsplit.
  { unfold l. rewrite <- drop_drop. by rewrite take_drop. }
  destruct (page_conflicts rs rk s (blocking_of <$> l)) as [s' b] eqn:Epc.
  apply page_conflicts_verdict in Epc as [Hb Hs']; [|done].
  rewrite Hsplit, fmap_app, verdict_app, <- Hb. destruct b; [done|]. cbn [orb].
  destruct (Hs' eq_refl) as (Hok & Hsrc & Hrel).
  destruct (Z.eqb_spec (Z.of_nat (length l)) 256) as [Hl|Hl].
  - assert (length rows - i >= 256)%nat as Hge.
    { unfold l in Hl. rewrite length_take, length_drop in Hl. lia. }
    destruct (last l) as [row|] eqn:El; [|apply last_None in El; by rewrite El in Hl].
    cbn [fmap option_fmap option_map]. rewrite <- Hsrc, <- Hrel. apply IH; [lia| |done].
    right. exists (i + 255)%nat, row. split; [lia|]. split; [|done].
    rewrite last_lookup in El. replace (pred (length l)) with 255%nat in El by lia.
    unfold l in El. apply lookup_take_Some in El as [El _]. by rewrite lookup_drop in El.
  - rewrite (drop_ge rows (i + 256)); [done|].
    unfold l in Hl. rewrite length_take, length_drop in Hl. lia.
Qed.
End paged.

(** A durable path stands in the way of a mutation of [srcs]: one of the sources
    or the path itself cannot be resolved, or their keys are related. *)
Definition obstructs {E} rs rk (rel : StatePathScanRelation) (srcs : list bytes) (path : bytes)
    (allows : bool) : Prop :=
  match @source_keys E rk srcs with
  | Err _ => True
  | Ok keys => blocked rs rk rel keys
                 {| bp_path := path; allows_exact_replacement := allows |} = true
  end.

Lemma scan_complete {E} (rs : bytes -> result E bytes) rk u p rel srcs fuel :
  map_Forall UploadStore.decodes u -> map_Forall PurgeStore.row_ok p ->
  (Z.of_nat (size (state_paths u p)) < Z.of_nat fuel)%Z ->
  exists b,
    scan rs rk fuel u p {| sources := srcs; resolved_sources := None; relation := rel |} None
      = Some (Ok b) /\
    (b = true <-> exists path allows, obligation u p path allows /\ obstructs rs rk rel srcs path allows).
Proof.
  intros Hu Hp Hf.
  rewrite (scan_from rs rk u p Hu Hp fuel 0 None);
    [|pose proof (length_sorted_hits cursor_cmp whole (state_paths u p)) as Hl;
      unfold rows, count_where, hits in *; pose proof (map_size_filter (fun kr => whole kr.1 kr.2 = true)
        (state_paths u p)); lia |by left|by intros ? ?].
  eexists. split; [done|]. cbn [relation sources]. change (drop 0 (rows u p)) with (rows u p).
  assert (forall path b, (exists row, row ∈ rows u p /\ blocking_of row =
      {| bp_path := path; allows_exact_replacement := b |}) <-> obligation u p path b) as Hob.
  { intros path b. rewrite <- state_paths_obligation. split.
    - intros ([c [x a]] & Hin & [= -> <-]). apply elem_of_sorted_hits in Hin as [Hin _]. eauto.
    - intros (c & a & Hc & ->). exists (c, (path, a)). split; [|done]. by apply elem_of_sorted_hits. }
  unfold verdict, obstructs. destruct (rows u p) as [|row0 l] eqn:El.
  - cbn. split; [done|]. intros (path & b & Ho & _). apply Hob in Ho as (row & Hin & _).
    by apply not_elem_of_nil in Hin.
  - rewrite fmap_cons. destruct (source_keys rk srcs) as [keys|e].
    + rewrite <- fmap_cons, existsb_exists. split.
      * intros (sp & Hin & Hb). apply list_elem_of_In, list_elem_of_fmap in Hin as (row & -> & Hin).
        exists (bp_path (blocking_of row)), (allows_exact_replacement (blocking_of row)).
        split; [apply Hob; eauto|done].
      * intros (path & b & Ho & Hb). apply Hob in Ho as (row & Hin & Hrow).
        exists (blocking_of row). split; [|by rewrite Hrow].
        apply list_elem_of_In, list_elem_of_fmap. eauto.
    + split; [|done]. intros _. exists (bp_path (blocking_of row0)), (allows_exact_replacement (blocking_of row0)).
      split; [|done]. apply Hob. exists row0. split; [left|done].
Qed.

(** C11. The admission scan misses nothing: on well-formed tables, paging through
    the durable paths 256 at a time terminates, never fails, and answers that a
    rename or delete of the sources conflicts exactly when some path an active
    upload or a pending deletion depends on obstructs them. *)
Theorem persisted_conflict_complete {E} (rs : bytes -> result E bytes) rk u p paths fuel :
  map_Forall UploadStore.decodes u -> map_Forall PurgeStore.row_ok p ->
  (Z.of_nat (size (state_paths u p)) < Z.of_nat fuel)%Z ->
  exists b,
    has_persisted_path_conflict rs rk fuel u p paths = Some (Ok b) /\
    (b = true <-> exists path allows, obligation u p path allows /\
       obstructs rs rk SymmetricConflict (normalize_key <$> paths) path allows).
Proof. intros Hu Hp Hf. by apply scan_complete. Qed.
(** The scan before a replacing upload is as complete: it terminates, never
    fails, and reports an obstacle exactly when a durable path names the replaced
    entry itself (and may not be replaced), lies below it, or cannot be
    resolved. *)
Lemma persisted_descendant_complete {E} (rs : bytes -> result E bytes) rk u p path fuel :
  map_Forall UploadStore.decodes u -> map_Forall PurgeStore.row_ok p ->
  (Z.of_nat (size (state_paths u p)) < Z.of_nat fuel)%Z ->
  exists b,
    has_persisted_path_descendant rs rk fuel u p path = Some (Ok b) /\
    (b = true <-> exists q allows, obligation u p q allows /\
       obstructs rs rk StrictDescendant [normalize_key path] q allows).
Proof. intros Hu Hp Hf. by apply scan_complete. Qed.

(** ** Failing closed

    A comment in [page_conflicts] says that giving an unresolvable path the
    conservative root key would answer the same as returning early. *)

Section fallback.
Context {E : Type} (root : FileIdentity) (rk : bytes -> result E ResolvedPathKey).

Definition key_or_conservative (p : bytes) : LeaseKey :=
  lease_key p match rk p with Ok k => k | Err _ => conservative_path_key root end.

Context `{!PathResolver root rk}.

Lemma fallback_anchored p : anchored_at root (resolved (key_or_conservative p)).
Proof.
  unfold key_or_conservative. destruct (rk p) as [k|e] eqn:Ek; cbn.
  - by eapply resolver_anchored.
  - left.
Qed.

Lemma conservative_conflict p q e :
  rk p = Err e -> path_keys_conflict (key_or_conservative p) (key_or_conservative q) = true /\
  path_keys_conflict (key_or_conservative q) (key_or_conservative p) = true.
Proof.
  intros Ep. rewrite (path_keys_conflict_sym (key_or_conservative q)).
  assert (path_keys_conflict (key_or_conservative p) (key_or_conservative q) = true) as Hx; [|done].
  unfold path_keys_conflict. unfold key_or_conservative at 5. rewrite Ep. cbn [resolved lease_key].
  rewrite conservative_conflicts by apply fallback_anchored. by rewrite !orb_true_r.
Qed.

Lemma batch_keys l keys :
  resolve_batch rk l = Ok keys -> zip_with lease_key l keys = key_or_conservative <$> l.
Proof.
  intros H%collect_Ok. apply Forall2_fmap_l in H.
  induction H as [|x k l keys Hx _ IH]; [done|]. cbn. rewrite IH. f_equal.
  unfold key_or_conservative. by rewrite Hx.
Qed.

Lemma batch_error l e : resolve_batch rk l = Err e -> exists x, x ∈ l /\ exists e', rk x = Err e'.
Proof.
  unfold resolve_batch. induction l as [|x l IH]; cbn; [done|]. intros H.
  destruct (rk x) as [k|e'] eqn:Ex; cbn in H; [|exists x; split; [left|eauto]].
  destruct (collect (rk <$> l)); cbn in H; [done|].
  destruct IH as (y & Hy & Ey); [done|]. exists y. split; [by right|done].
Qed.

(** The candidates of a page are its normalised paths with their permissions. *)
Lemma candidates_of_lexicals rs (sps : list StateBlockingPath) lexicals :
  collect ((fun sp => p ← rs (bp_path sp); Ok (normalize_key p)) <$> sps) = Ok lexicals ->
  exists cands, collect (candidate_of (E:=E) rs <$> sps) = Ok cands /\ cands.*1 = lexicals.
Proof.
  revert lexicals. induction sps as [|sp sps IH]; intros lexicals Hlex; cbn in Hlex.
  - injection Hlex as <-. by exists [].
  - destruct (rs (bp_path sp)) as [q|] eqn:Eq; cbn in Hlex; [|done].
    destruct (collect (_ <$> sps)) as [ls|] eqn:El in Hlex; cbn in Hlex; [|done]. injection Hlex as <-.
    destruct (IH _ El) as (cands & Hc & <-).
    assert (candidate_of rs sp = Ok (normalize_key q, allows_exact_replacement sp)) as Hcs
      by (unfold candidate_of; by rewrite Eq).
    rewrite fmap_cons. cbn [collect]. rewrite Hcs. cbn [mbind result_bind].
    rewrite Hc. cbn. eauto.
Qed.

Lemma fallback_conflict (xs ys : list bytes) x y :
  x ∈ xs -> y ∈ ys -> path_keys_conflict (key_or_conservative x) (key_or_conservative y) = true ->
  paths_conflict (key_or_conservative <$> xs) (key_or_conservative <$> ys) = true.
Proof.
  intros Hx Hy Hxy. apply paths_conflict_spec.
  exists (key_or_conservative x), (key_or_conservative y).
  split_and!; [by apply list_elem_of_fmap_2..|done].
Qed.

Lemma batch_candidates (cands : list (bytes * bool)) keys :
  resolve_batch rk cands.*1 = Ok keys ->
  zip_with (fun (c : bytes * bool) k => (lease_key c.1 k, c.2)) cands keys =
  (fun c => (key_or_conservative c.1, c.2)) <$> cands.
Proof.
  intros Ek. apply collect_Ok in Ek. rewrite !Forall2_fmap_l in Ek.
  induction Ek as [|c k cs keys Hx _ IH]; [done|]. cbn in *. rewrite IH. f_equal.
  unfold key_or_conservative. by rewrite Hx.
Qed.

Lemma symmetric_keys_conflict (sources : list LeaseKey) (cands : list (bytes * bool)) :
  keys_conflict SymmetricConflict sources ((fun c => (key_or_conservative c.1, c.2)) <$> cands) =
  paths_conflict sources (key_or_conservative <$> cands.*1).
Proof.
  cbn [keys_conflict]. unfold paths_conflict. induction sources as [|a l IH]; [done|].
  cbn [existsb]. rewrite IH. f_equal. clear IH.
  induction cands as [|c cands IHc]; [done|]. rewrite !fmap_cons. cbn [existsb fst]. by rewrite IHc.
Qed.
End fallback.

(** For renames and deletes the early return is what falling back to the
    conservative key would give: on a page of paths that lie below the root, the
    scanner's answer is whether some source's key conflicts with some path's key,
    every unresolvable path standing for the whole root.  This needs only that
    the resolver's keys are anchored at the root. *)
Lemma symmetric_scan_fails_closed {E} root rs (rk : bytes -> result E ResolvedPathKey)
    (s : StatePathScanner) (sps : list StateBlockingPath) (lexicals : list bytes) :
  PathResolver root rk -> scanner_ok rk s -> relation s = SymmetricConflict ->
  sources s <> [] -> sps <> [] ->
  collect ((fun sp => p ← rs (bp_path sp); Ok (normalize_key p)) <$> sps) = Ok lexicals ->
  (page_conflicts rs rk s sps).2 =
  paths_conflict (key_or_conservative root rk <$> sources s) (key_or_conservative root rk <$> lexicals).
Proof.
  intros Hres Hs Hrel Hsrc Hsps Hlex.
  destruct (page_conflicts rs rk s sps) as [s' b] eqn:Epc.
  apply page_conflicts_verdict in Epc as [-> _]; [|done]. cbn [snd]. rewrite Hrel.
  destruct (candidates_of_lexicals rs _ _ Hlex) as (cands & Hc & Hcl).
  assert (exists x0, x0 ∈ sources s) as [x0 Hx0].
  { destruct (sources s) as [|x0 xs]; [done|]. exists x0. left. }
  assert (exists y0, y0 ∈ lexicals) as [y0 Hy0].
  { apply length_collect in Hlex. rewrite length_fmap in Hlex. destruct sps, lexicals as [|y0 ys]; try done.
    exists y0. left. }
  unfold verdict. destruct sps as [|sp0 sps0]; [done|]. unfold source_keys.
  destruct (resolve_batch rk (sources s)) as [sk|e] eqn:Esk; cbn [mbind result_bind].
  - destruct (resolve_batch rk cands.*1) as [keys|e] eqn:Ek.
    + rewrite (blocked_candidates rs rk _ _ _ _ _ Hc Ek), (batch_candidates root rk _ _ Ek).
      by rewrite (batch_keys root rk _ _ Esk), symmetric_keys_conflict, Hcl.
    + rewrite blocked_error by (right; eauto). symmetry.
      destruct (batch_error rk _ _ Ek) as (y & Hy & e' & Ey). rewrite Hcl in Hy.
      apply (fallback_conflict root rk _ _ x0 y); [done..|].
      by apply (conservative_conflict root rk y x0 e').
  - symmetry. destruct (batch_error rk _ _ Esk) as (x & Hx & e' & Ex).
    apply (fallback_conflict root rk _ _ x y0); [done..|]. by apply (conservative_conflict root rk x y0 e').
Qed.

(** ** Concrete scans *)

Definition example_resolve (p : bytes) : result RootedPaths.IoError bytes :=
  RootedPaths.resolve_state_path (str "/srv") p.
Definition example_key (p : bytes) : result RootedPaths.IoError ResolvedPathKey :=
  RootedPaths.resolved_path_key_blocking RootedPaths.example_fs p.

Lemma persisted_conflict_complete_witness :
  exists b, has_persisted_path_conflict example_resolve example_key 10 UploadStore.table0 ∅
              [str "/srv/a"] = Some (Ok b).
Proof.
  destruct (persisted_conflict_complete example_resolve example_key UploadStore.table0 ∅
              [str "/srv/a"] 10) as (b & E & _).
  - apply UploadStore.decodes0.
  - apply map_Forall_empty.
  - by vm_compute.
  - exists b. exact E.
Defined.

Lemma persisted_descendant_complete_witness :
  exists b, has_persisted_path_descendant example_resolve example_key 10 UploadStore.table0 ∅
              (str "/srv/a") = Some (Ok b).
Proof.
  destruct (persisted_descendant_complete example_resolve example_key UploadStore.table0 ∅
              (str "/srv/a") 10) as (b & E & _).
  - apply UploadStore.decodes0.
  - apply map_Forall_empty.
  - by vm_compute.
  - exists b. exact E.
Defined.

Definition example_scanner : StatePathScanner :=
  {| sources := [str "/srv/a"]; resolved_sources := None; relation := SymmetricConflict |}.
Definition example_page : list StateBlockingPath :=
  [{| bp_path := str "a/b.txt"; allows_exact_replacement := false |}].

Lemma symmetric_scan_fails_closed_witness :
  (page_conflicts example_resolve example_key example_scanner example_page).2 =
  paths_conflict (key_or_conservative {| device := 1; inode := 2 |} example_key <$> [str "/srv/a"])
    (key_or_conservative {| device := 1; inode := 2 |} example_key <$> [str "/srv/a/b.txt"]).
Proof.
  apply (symmetric_scan_fails_closed {| device := 1; inode := 2 |} example_resolve example_key
           example_scanner example_page [str "/srv/a/b.txt"]).
  - exact (RootedPaths.rooted_resolver RootedPaths.example_fs).
  - intros ks Hks. discriminate Hks.
  - reflexivity.
  - discriminate.
  - discriminate.
  - by vm_compute.
Defined.

(** C40. For a replacing upload the comment's equivalence does not hold: with one
    unresolvable durable path the scanner reports an obstacle, while giving that
    path the conservative root key would not, because the root is not below the
    replaced entry.  The code errs on the safe side. *)
Theorem directional_fallback_differs :
  exists (rk : bytes -> result unit ResolvedPathKey) (s : StatePathScanner) (sp : StateBlockingPath),
    PathResolver root_example rk /\ relation s = StrictDescendant /\
    (page_conflicts (fun p => Ok p) rk s [sp]).2 = true /\
    keys_conflict StrictDescendant (key_or_conservative root_example rk <$> sources s)
      [(key_or_conservative root_example rk (normalize_key (bp_path sp)),
        allows_exact_replacement sp)] = false.
Proof.
  exists (fun p => if bool_decide (p = str "/srv/share/a/b") then Ok (resolved key_example) else Err tt),
    {| sources := [str "/srv/share/a/b"]; resolved_sources := None; relation := StrictDescendant |},
    {| bp_path := str "/srv/share/z"; allows_exact_replacement := false |}.
  split_and!; [|done|by vm_compute|by vm_compute].
  intros p k. case_bool_decide; [|done]. intros [= <-]. left.
Qed.
End StateScan.
