(* ===== verification/StoreActor.v ===== *)
(** * The state store's worker

    [src/server/state_store/actor.rs], with the envelope of
    [src/server/state_store.rs] and [recover_database] of
    [src/server/state_store/database.rs]: one thread owns the database, drains
    control messages before each command, and keeps a queue of reservation
    cleanups that a transient database error made it postpone.

    The environment decides what the channels hold, whether a requester has gone
    away, and which statements the database refuses; those decisions are the
    fields of a [Turn]. *)

From S2P Require Import Prelude Paths Sql StateModel OperationStore UploadStore PurgeStore StateScan.

Module StoreActor.

Record Db : Type := {
  operations : OperationStore.Table;
  upload_sessions : UploadStore.Table;
  purge_jobs : PurgeStore.Table }.

Definition with_operations (db : Db) t : Db :=
  {| operations := t; upload_sessions := upload_sessions db; purge_jobs := purge_jobs db |}.
Definition with_uploads (db : Db) t : Db :=
  {| operations := operations db; upload_sessions := t; purge_jobs := purge_jobs db |}.
Definition with_purges (db : Db) t : Db :=
  {| operations := operations db; upload_sessions := upload_sessions db; purge_jobs := t |}.

(** One transaction over the three tables at startup. *)
Definition recover_database (db : Db) (operation_ttl_ms upload_ttl_ms now : Z) : result string Db :=
  operation_expires_at ← expiration_time now operation_ttl_ms;
  upload_expires_at ← expiration_time now upload_ttl_ms;
  ops ← OperationStore.recover_operations (operations db) now operation_expires_at;
  ups ← UploadStore.recover_uploads (upload_sessions db) now upload_expires_at;
  pjs ← PurgeStore.recover_purges (purge_jobs db) now;
  Ok {| operations := ops; upload_sessions := ups; purge_jobs := pjs |}.

(** ** Commands *)

Inductive Command : Type :=
| Wake
| ProbeReadiness
| Begin (key : OperationKey) (fingerprint fresh_lease : bytes)
| Status (key : OperationKey)
| MarkCommitStarted (key : OperationKey) (lease : bytes)
| Complete (key : OperationKey) (lease : bytes) (outcome : StoredOutcome)
| Upload (c : UploadStore.Command)
| LoadUploadSession (key : UploadSessionKey)
| ListUploadSessionsPageBlocking (after : option UploadSessionKey) (limit : Z)
| ListUploadSessionsPage (after : option UploadSessionKey) (limit : Z)
| ListExpiredUploadSessions (after : option UploadSessionKey) (limit : Z)
| MatchExpiredUploadSession (expected : ExpiredUploadSession)
| Purge (c : PurgeStore.Command)
| LoadPurgeJob (key : PurgeJobKey)
| ListPreparedPurgeJobs (limit : Z)
| ListPurgeJobs (limit : Z)
| IsStatePathBoundBlocking (path : bytes)
| ListStateBlockingPaths (after : option StatePathCursor) (limit : Z).

Inductive ControlCommand : Type :=
| Abandon (key : OperationKey) (lease : bytes)
| Shutdown.

Inductive Reply : Type :=
| ROperation (r : OperationStore.Reply)
| RUpload (r : UploadStore.Reply)
| RPurge (r : PurgeStore.Reply)
| RSession (r : result string (option StoredUploadSession))
| RSessions (r : result string (list StoredUploadSession))
| RExpired (r : result string (list ExpiredUploadSession))
| RJob (r : result string (option StoredPurgeJob))
| RJobs (r : result string (list StoredPurgeJob))
| RMatches (r : result string bool)
| RPage (r : result string StatePathPage)
| RProbe (r : result string unit).

(** ** The worker *)

Record StoreWorker : Type := {
  db : Db;
  deferred_abandons : list (OperationKey * bytes) }.

Definition set_db (w : StoreWorker) (d : Db) : StoreWorker :=
  {| db := d; deferred_abandons := deferred_abandons w |}.
Definition set_deferred (w : StoreWorker) (q : list (OperationKey * bytes)) : StoreWorker :=
  {| db := db w; deferred_abandons := q |}.

(** One attempt to abandon a lease; [fault] is the database refusing it. *)
Definition try_abandon (limits : Limits) (w : StoreWorker) (now : Z) (key : OperationKey)
    (lease : bytes) (fault : bool) : result string StoreWorker :=
  if fault then Err "database error"
  else t ← OperationStore.abandon_operation limits (operations (db w)) now key lease;
       Ok (set_db w (with_operations (db w) t)).

Definition defer_abandon (w : StoreWorker) (key : OperationKey) (lease : bytes) : StoreWorker :=
  if existsb (fun pending => bool_decide (pending = (key, lease))) (deferred_abandons w) then w
  else set_deferred w (deferred_abandons w ++ [(key, lease)]).

Definition retry_one_deferred_abandon (limits : Limits) (w : StoreWorker) (now : Z) (fault : bool)
    : StoreWorker :=
  match deferred_abandons w with
  | [] => w
  | (key, lease) :: rest =>
      let w := set_deferred w rest in
      match try_abandon limits w now key lease fault with
      | Ok w => w
      | Err _ => set_deferred w (deferred_abandons w ++ [(key, lease)])
      end
  end.

Definition abandon_or_defer (limits : Limits) (w : StoreWorker) (now : Z) (key : OperationKey)
    (lease : bytes) (fault : bool) : StoreWorker :=
  match try_abandon limits w now key lease fault with
  | Ok w => w
  | Err _ => defer_abandon w key lease
  end.

(** The waiting control messages with the database's reaction to each; [true]
    means shut down. *)
Fixpoint drain_controls (limits : Limits) (w : StoreWorker) (now : Z)
    (controls : list (ControlCommand * bool)) : StoreWorker * bool :=
  match controls with
  | [] => (w, false)
  | (Abandon key lease, fault) :: controls =>
      drain_controls limits (abandon_or_defer limits w now key lease fault) now controls
  | (Shutdown, _) :: _ => (w, true)
  end.

Definition process_controls (limits : Limits) (w : StoreWorker) (now : Z) (retry_fault : bool)
    (controls : list (ControlCommand * bool)) : StoreWorker * bool :=
  drain_controls limits (retry_one_deferred_abandon limits w now retry_fault) now controls.

Record Turn : Type := {
  turn_now : Z;
  retry_fault : bool;
  controls : list (ControlCommand * bool);
  command : Command;
  reply_closed : bool;
  command_fault : bool;
  delivered : bool;
  cleanup_fault : bool }.

(** A command on one table; a refused statement changes nothing. *)
Definition on_operations (limits : Limits) (w : StoreWorker) (t : Turn) (c : OperationStore.Command)
    : StoreWorker * option Reply :=
  if command_fault t then (w, Some (ROperation (OperationStore.RError "database error")))
  else let '(tbl, r) := OperationStore.exec limits (operations (db w)) (turn_now t) c in
       (set_db w (with_operations (db w) tbl), Some (ROperation r)).
Definition on_uploads (limits : Limits) (w : StoreWorker) (t : Turn) (c : UploadStore.Command)
    : StoreWorker * option Reply :=
  if command_fault t then (w, Some (RUpload (UploadStore.RError "database error")))
  else let '(tbl, r) := UploadStore.exec limits (upload_sessions (db w)) (turn_now t) c in
       (set_db w (with_uploads (db w) tbl), Some (RUpload r)).
Definition on_purges (limits : Limits) (w : StoreWorker) (t : Turn) (c : PurgeStore.Command)
    : StoreWorker * option Reply :=
  if command_fault t then (w, Some (RPurge (PurgeStore.RError "database error")))
  else let '(tbl, r) := PurgeStore.exec limits (purge_jobs (db w)) (turn_now t) c in
       (set_db w (with_purges (db w) tbl), Some (RPurge r)).

(** A read; an asynchronous one is skipped when the requester has gone away. *)
Definition blocking_read {A} (w : StoreWorker) (t : Turn) (f : result string A -> Reply)
    (r : result string A) : StoreWorker * option Reply :=
  (w, Some (f (if command_fault t then Err "database error" else r))).
Definition reading {A} (w : StoreWorker) (t : Turn) (f : result string A -> Reply)
    (r : result string A) : StoreWorker * option Reply :=
  if reply_closed t then (w, None) else blocking_read w t f r.

Definition begin_lease (r : option Reply) : option bytes :=
  match r with
  | Some (ROperation (OperationStore.RBegin (Started lease))) => Some lease
  | _ => None
  end.

Definition run_command (limits : Limits) (w : StoreWorker) (t : Turn) : StoreWorker * option Reply :=
  let d := db w in
  match command t with
  | Wake => (w, None)
  | ProbeReadiness => reading w t RProbe (Ok tt)
  | Begin key fp lease =>
      if reply_closed t then (w, None)
      else
        let '(w, r) := on_operations limits w t (OperationStore.Begin key fp lease) in
        if delivered t then (w, r)
        else match begin_lease r with
             | Some lease =>
                 (abandon_or_defer limits w (turn_now t) key lease (cleanup_fault t), None)
             | None => (w, None)
             end
  | Status key =>
      if reply_closed t then (w, None) else on_operations limits w t (OperationStore.Status key)
  | MarkCommitStarted key lease =>
      on_operations limits w t (OperationStore.MarkCommitStarted key lease)
  | Complete key lease o => on_operations limits w t (OperationStore.Complete key lease o)
  | Upload c => on_uploads limits w t c
  | LoadUploadSession key =>
      reading w t RSession (UploadStore.load_upload_session (upload_sessions d) key)
  | ListUploadSessionsPageBlocking after limit =>
      blocking_read w t RSessions
        (UploadStore.upload_sessions_page limits (upload_sessions d) after limit)
  | ListUploadSessionsPage after limit =>
      reading w t RSessions (UploadStore.upload_sessions_page limits (upload_sessions d) after limit)
  | ListExpiredUploadSessions after limit =>
      reading w t RExpired
        (UploadStore.expired_upload_sessions (upload_sessions d) (turn_now t) after limit)
  | MatchExpiredUploadSession x =>
      reading w t RMatches
        (UploadStore.expired_upload_session_matches (upload_sessions d) (turn_now t) x)
  | Purge c => on_purges limits w t c
  | LoadPurgeJob key => reading w t RJob (PurgeStore.load_purge_job (purge_jobs d) key)
  | ListPreparedPurgeJobs limit =>
      reading w t RJobs (PurgeStore.prepared_purge_jobs (purge_jobs d) limit)
  | ListPurgeJobs limit => reading w t RJobs (PurgeStore.purge_jobs (purge_jobs d) limit)
  | IsStatePathBoundBlocking path =>
      blocking_read w t RMatches
        (Ok (StateScan.state_path_is_bound (upload_sessions d) (purge_jobs d) path))
  | ListStateBlockingPaths after limit =>
      reading w t RPage (StateScan.state_blocking_paths (upload_sessions d) (purge_jobs d) after limit)
  end.

(** One pass through the loop; [true] ends it. *)
Definition turn (limits : Limits) (w : StoreWorker) (t : Turn) : StoreWorker * bool :=
  let '(w, stop) := process_controls limits w (turn_now t) (retry_fault t) (controls t) in
  if stop then (w, true) else ((run_command limits w t).1, false).

Fixpoint run (limits : Limits) (w : StoreWorker) (ts : list Turn) : StoreWorker :=
  match ts with
  | [] => w
  | t :: ts => let '(w, stop) := turn limits w t in if stop then w else run limits w ts
  end.
(** ** The cleanup queue *)

Lemma retry_none limits w now fault :
  deferred_abandons w = [] -> retry_one_deferred_abandon limits w now fault = w.
Proof. intros E. unfold retry_one_deferred_abandon. by rewrite E. Qed.

Lemma defer_queue w key lease p :
  p ∈ deferred_abandons (defer_abandon w key lease) <-> p = (key, lease) \/ p ∈ deferred_abandons w.
Proof.
  unfold defer_abandon. destruct (existsb _ _) eqn:E; cbn.
  - split; [by right|]. intros [->|?]; [|done]. apply existsb_exists in E as (x & Hx & Hp).
    split_bool. subst x. by apply list_elem_of_In.
  - rewrite elem_of_app, list_elem_of_singleton. tauto.
Qed.

Lemma defer_db w key lease : db (defer_abandon w key lease) = db w.
Proof. unfold defer_abandon. by destruct (existsb _ _). Qed.

Definition lease_settled (w : StoreWorker) (key : OperationKey) (lease : bytes) : Prop :=
  OperationStore.settled (operations (db w)) key lease.

(** A lease that must not stay behind is settled or queued. *)
Definition accounted (w : StoreWorker) (key : OperationKey) (lease : bytes) : Prop :=
  lease_settled w key lease \/ (key, lease) ∈ deferred_abandons w.

Lemma abandon_settled_other limits t now k l t' key lease :
  OperationStore.abandon_operation limits t now k l = Ok t' ->
  OperationStore.settled t key lease -> OperationStore.settled t' key lease.
Proof.
  intros E Hs. pose proof (OperationStore.exec_settled limits t now (OperationStore.Abandon k l) key lease Hs) as H.
  cbn in H. rewrite E in H. by apply H.
Qed.

Lemma try_abandon_Ok limits w now k l fault w' :
  try_abandon limits w now k l fault = Ok w' ->
  fault = false /\ deferred_abandons w' = deferred_abandons w /\ lease_settled w' k l /\
  forall key lease, lease_settled w key lease -> lease_settled w' key lease.
Proof.
  unfold try_abandon. destruct fault; [done|]. intros H. inv_result. subst w'.
  split_and!; [done..| |].
  - by eapply OperationStore.abandon_settles.
  - intros key lease. by eapply abandon_settled_other.
Qed.

Lemma abandon_or_defer_accounts limits w now k l fault :
  accounted (abandon_or_defer limits w now k l fault) k l.
Proof.
  unfold abandon_or_defer. destruct (try_abandon limits w now k l fault) as [w'|e] eqn:E.
  - left. by apply try_abandon_Ok in E as (_ & _ & ? & _).
  - right. apply defer_queue. by left.
Qed.

Lemma abandon_or_defer_accounted limits w now k l fault key lease :
  accounted w key lease -> accounted (abandon_or_defer limits w now k l fault) key lease.
Proof.
  unfold abandon_or_defer. destruct (try_abandon limits w now k l fault) as [w'|e] eqn:E.
  - apply try_abandon_Ok in E as (_ & Hq & _ & Hk). intros [?|?]; [left; auto|right; by rewrite Hq].
  - intros [Hs|?].
    + left. unfold lease_settled. by rewrite defer_db.
    + right. apply defer_queue. by right.
Qed.

Lemma retry_accounted limits w now fault key lease :
  accounted w key lease -> accounted (retry_one_deferred_abandon limits w now fault) key lease.
Proof.
  unfold retry_one_deferred_abandon. destruct (deferred_abandons w) as [|[k l] rest] eqn:Eq; [done|].
  intros Ha. destruct (try_abandon limits (set_deferred w rest) now k l fault) as [w'|e] eqn:E.
  - apply try_abandon_Ok in E as (_ & Hq & Hs & Hk). destruct Ha as [Ha|Ha].
    + left. by apply Hk.
    + rewrite Eq in Ha. apply elem_of_cons in Ha as [[= -> ->]|Ha]; [by left|].
      right. by rewrite Hq.
  - destruct Ha as [Ha|Ha]; [by left|right]. cbn. rewrite Eq in Ha. rewrite elem_of_app, list_elem_of_singleton.
    apply elem_of_cons in Ha as [->|Ha]; auto.
Qed.

Lemma drain_accounted limits w now cs key lease :
  accounted w key lease -> accounted (drain_controls limits w now cs).1 key lease.
Proof.
  revert w. induction cs as [|[[k l|] f] cs IH]; intros w Ha; cbn; [done| |done].
  apply IH. by apply abandon_or_defer_accounted.
Qed.

Lemma drain_accounts limits w now cs key lease fault :
  (Abandon key lease, fault) ∈ cs -> (drain_controls limits w now cs).2 = false ->
  accounted (drain_controls limits w now cs).1 key lease.
Proof.
  revert w. induction cs as [|[c f] cs IH]; intros w Hin; [by apply not_elem_of_nil in Hin|].
  apply elem_of_cons in Hin as [[= <- <-]|Hin]; cbn.
  - intros _. apply drain_accounted, abandon_or_defer_accounts.
  - destruct c; [|done]. by apply IH.
Qed.

Definition introduces (lease : bytes) (t : Turn) : Prop :=
  exists key fp, command t = Begin key fp lease.

Lemma run_command_accounted limits w t key lease :
  ~ introduces lease t -> accounted w key lease -> accounted (run_command limits w t).1 key lease.
Proof.
  intros Hni Ha.
  assert (forall c, OperationStore.fresh_lease_of c <> Some lease ->
    accounted (on_operations limits w t c).1 key lease) as Hop.
  { intros c Hc. unfold on_operations. destruct (command_fault t); [done|].
    pose proof (OperationStore.exec_settled limits (operations (db w)) (turn_now t) c key lease) as Hx.
    destruct (OperationStore.exec _ _ _ _) as [tbl r]. cbn.
    destruct Ha as [Ha|Ha]; [left; by apply Hx|by right]. }
  unfold run_command, reading, blocking_read.
  destruct (command t) as [| |k fp l|k|k l|k l o|c|k|a n|a n|a n|x|c|k|n|n|q|a n] eqn:Ec; try done;
    try (destruct (reply_closed t); done); try (apply Hop; done).
  - destruct (reply_closed t); [done|].
    specialize (Hop (OperationStore.Begin k fp l)). cbn in Hop.
    assert (Some l <> Some lease) as Hl by (intros [= ->]; apply Hni; by exists k, fp).
    destruct (on_operations limits w t _) as [w' r]. cbn in Hop. specialize (Hop Hl).
    destruct (delivered t); [done|]. destruct (begin_lease r); [|done].
    by apply abandon_or_defer_accounted.
  - destruct (reply_closed t); [done|]. by apply Hop.
  - unfold on_uploads. destruct (command_fault t); [done|]. by destruct (UploadStore.exec _ _ _ _).
  - unfold on_purges. destruct (command_fault t); [done|]. by destruct (PurgeStore.exec _ _ _ _).
Qed.

Lemma turn_accounted limits w t key lease :
  ~ introduces lease t -> accounted w key lease -> accounted (turn limits w t).1 key lease.
Proof.
  intros Hni Ha. unfold turn, process_controls.
  pose proof (drain_accounted limits (retry_one_deferred_abandon limits w (turn_now t) (retry_fault t))
    (turn_now t) (controls t) key lease (retry_accounted _ _ _ _ _ _ Ha)) as Hd.
  destruct (drain_controls _ _ _ _) as [w1 []]; [done|]. cbn in *. by apply run_command_accounted.
Qed.

Lemma run_accounted limits ts w key lease :
  Forall (fun t => ~ introduces lease t) ts -> accounted w key lease ->
  accounted (run limits w ts) key lease.
Proof.
  revert w. induction ts as [|t ts IH]; intros w Hni Ha; [done|]. cbn.
  apply Forall_cons in Hni as [Hn Hni]. pose proof (turn_accounted limits w t key lease Hn Ha) as Ht.
  destruct (turn limits w t) as [w1 []]; [done|]. by apply IH.
Qed.

Lemma undelivered_accounted limits w t key fp lease :
  command t = Begin key fp lease -> delivered t = false -> accounted w key lease ->
  accounted (run_command limits w t).1 key lease.
Proof.
  intros Hc Hd Ha. unfold run_command. rewrite Hc. destruct (reply_closed t); [done|].
  unfold on_operations. rewrite Hd. destruct (command_fault t); [done|]. cbn [OperationStore.exec].
  destruct (OperationStore.begin_operation _ _ _ _ _ _) as [[tbl b]|e] eqn:E;
    cbn [OperationStore.commit]; [|by destruct w as [[] ?]].
  apply OperationStore.begin_cases in E as [[-> Hb]|(_ & -> & _)]; cbn [begin_lease].
  - assert (match b with Started l => Some l | _ => None end = None) as Hnone
      by (destruct b as [l| | | |]; [by specialize (Hb l)|done..]).
    rewrite Hnone. destruct Ha as [Ha|Ha]; [left|by right]. intros r Hr. cbn in Hr.
    apply OperationStore.lookup_purge in Hr as [Hr _]. by apply Ha.
  - apply abandon_or_defer_accounts.
Qed.

(** C12. No reservation is forgotten: once an abandonment has been received, or
    a new reservation could not be delivered to its requester, then whatever
    commands, requesters and database errors follow, either no operation in
    progress holds that lease any more, or its cleanup is still queued. *)
Theorem cleanup_never_lost limits w t ts key lease :
  ((exists fault, (Abandon key lease, fault) ∈ controls t) /\ ~ introduces lease t \/
   (exists fp, command t = Begin key fp lease) /\ delivered t = false /\ lease_settled w key lease) ->
  (turn limits w t).2 = false -> Forall (fun t => ~ introduces lease t) ts ->
  accounted (run limits w (t :: ts)) key lease.
Proof.
  intros Hcase Hstop Hni. cbn. unfold turn, process_controls in *.
  set (w0 := retry_one_deferred_abandon limits w (turn_now t) (retry_fault t)) in *.
  assert (accounted (run_command limits (drain_controls limits w0 (turn_now t) (controls t)).1 t).1
            key lease) as Ha.
  { destruct Hcase as [[[fault Hin] Hn]|[[fp Hc] [Hd Hs]]].
    - apply run_command_accounted; [done|]. eapply drain_accounts; [done|].
      by destruct (drain_controls _ _ _ _) as [w1 []].
    - eapply undelivered_accounted; [done..|]. apply drain_accounted, retry_accounted. by left. }
  destruct (drain_controls _ _ _ _) as [w1 []]; [done|]. by apply run_accounted.
Qed.
(** ** Progress of the queue *)

Definition operation_command_ok (c : Command) : Prop :=
  match c with
  | Begin key fp lease => OperationStore.command_ok (OperationStore.Begin key fp lease)
  | Complete key lease o => OperationStore.command_ok (OperationStore.Complete key lease o)
  | _ => True
  end.

(** A turn in which the database refuses nothing and no shutdown arrives. *)
Record clean (limits : Limits) (t : Turn) : Prop := {
  cl_retry : retry_fault t = false;
  cl_controls : Forall (fun cf => cf.1 <> Shutdown /\ cf.2 = false) (controls t);
  cl_cleanup : cleanup_fault t = false;
  cl_time : is_i64 (turn_now t + ttl_ms limits);
  cl_command : operation_command_ok (command t) }.

Definition operations_ok (limits : Limits) (w : StoreWorker) : Prop :=
  OperationStore.table_ok limits (operations (db w)).

Lemma try_abandon_clean limits w now k l :
  operations_ok limits w -> is_i64 (now + ttl_ms limits) ->
  exists w', try_abandon limits w now k l false = Ok w' /\
    deferred_abandons w' = deferred_abandons w /\ operations_ok limits w'.
Proof.
  intros Hok Hi. unfold try_abandon.
  destruct (OperationStore.abandon_total limits (operations (db w)) now Hok Hi k l) as (t & -> & Ht).
  cbn. eauto.
Qed.

Lemma abandon_or_defer_clean limits w now k l :
  operations_ok limits w -> is_i64 (now + ttl_ms limits) ->
  deferred_abandons (abandon_or_defer limits w now k l false) = deferred_abandons w /\
  operations_ok limits (abandon_or_defer limits w now k l false).
Proof.
  intros Hok Hi. unfold abandon_or_defer.
  by destruct (try_abandon_clean limits w now k l Hok Hi) as (w' & -> & ? & ?).
Qed.

Lemma drain_clean limits w now cs :
  operations_ok limits w -> is_i64 (now + ttl_ms limits) ->
  Forall (fun cf => cf.1 <> Shutdown /\ cf.2 = false) cs ->
  exists w', drain_controls limits w now cs = (w', false) /\
    deferred_abandons w' = deferred_abandons w /\ operations_ok limits w'.
Proof.
  intros Hok Hi. revert w Hok. induction cs as [|[[k l|] f] cs IH]; intros w Hok Hcs; cbn; [eauto| |].
  - apply Forall_cons in Hcs as [[_ Hf] Hcs]. cbn in Hf. subst f.
    destruct (abandon_or_defer_clean limits w now k l Hok Hi) as [Hq Hok'].
    destruct (IH _ Hok' Hcs) as (w' & -> & Hq' & ?). exists w'. by rewrite Hq', Hq.
  - apply Forall_cons in Hcs as [[Hx _] _]. done.
Qed.

Lemma on_operations_clean limits w t c :
  operations_ok limits w -> is_i64 (turn_now t + ttl_ms limits) -> OperationStore.command_ok c ->
  deferred_abandons (on_operations limits w t c).1 = deferred_abandons w /\
  operations_ok limits (on_operations limits w t c).1.
Proof.
  intros Hok Hi Hc. unfold on_operations. destruct (command_fault t); [done|].
  pose proof (OperationStore.exec_total limits (operations (db w)) (turn_now t) c Hok Hi Hc) as [Ht _].
  by destruct (OperationStore.exec _ _ _ _).
Qed.

Lemma run_command_clean limits w t :
  operations_ok limits w -> clean limits t ->
  deferred_abandons (run_command limits w t).1 = deferred_abandons w /\
  operations_ok limits (run_command limits w t).1.
Proof.
  intros Hok [_ _ Hcl Hi Hc]. unfold run_command, reading, blocking_read.
  destruct (command t) as [| |k fp l|k|k l|k l o|c|k|a n|a n|a n|x|c|k|n|n|q|a n]; try done;
    try (destruct (reply_closed t); done); try (by apply on_operations_clean).
  - destruct (reply_closed t); [done|].
    pose proof (on_operations_clean limits w t (OperationStore.Begin k fp l) Hok Hi Hc) as [Hq Hok'].
    destruct (on_operations limits w t _) as [w' r]. cbn in *. destruct (delivered t); [done|].
    destruct (begin_lease r) as [lease|]; [|done]. rewrite Hcl. cbn.
    destruct (abandon_or_defer_clean limits w' (turn_now t) k lease Hok' Hi) as [Hq' ?].
    by rewrite Hq'.
  - destruct (reply_closed t); [done|]. by apply on_operations_clean.
  - unfold on_uploads. destruct (command_fault t); [done|]. by destruct (UploadStore.exec _ _ _ _).
  - unfold on_purges. destruct (command_fault t); [done|]. by destruct (PurgeStore.exec _ _ _ _).
Qed.

Lemma turn_clean limits w t :
  operations_ok limits w -> clean limits t ->
  deferred_abandons (turn limits w t).1 = tail (deferred_abandons w) /\
  operations_ok limits (turn limits w t).1 /\ (turn limits w t).2 = false.
Proof.
  intros Hok Hcl. unfold turn, process_controls. rewrite (cl_retry _ _ Hcl).
  assert (deferred_abandons (retry_one_deferred_abandon limits w (turn_now t) false)
            = tail (deferred_abandons w) /\
          operations_ok limits (retry_one_deferred_abandon limits w (turn_now t) false)) as [Hq Hok1].
  { unfold retry_one_deferred_abandon. destruct (deferred_abandons w) as [|[k l] rest] eqn:Eq; [done|].
    destruct (try_abandon_clean limits (set_deferred w rest) (turn_now t) k l) as (w' & -> & ? & ?);
      [done|apply Hcl|done]. }
  destruct (drain_clean limits _ (turn_now t) (controls t) Hok1 (cl_time _ _ Hcl) (cl_controls _ _ Hcl))
    as (w' & -> & Hq' & Hok'). cbn.
  destruct (run_command_clean limits w' t Hok' Hcl) as [Hq2 Hok2]. split; [|done]. by rewrite Hq2, Hq', Hq.
Qed.

Lemma run_clean limits ts w :
  operations_ok limits w -> Forall (clean limits) ts ->
  deferred_abandons (run limits w ts) = drop (length ts) (deferred_abandons w).
Proof.
  revert w. induction ts as [|t ts IH]; intros w Hok Hcl; [done|]. cbn [run length].
  apply Forall_cons in Hcl as [Ht Hcl]. destruct (turn_clean limits w t Hok Ht) as (Hq & Hok' & Hs).
  destruct (turn limits w t) as [w' b]. cbn in *. subst b. rewrite (IH w' Hok' Hcl), Hq.
  destruct (deferred_abandons w); cbn; [by rewrite ?drop_nil|done].
Qed.

(** Postponed cleanups complete: once the database accepts statements again,
    as many turns of the worker as there are postponed cleanups empty the queue,
    and then no operation in progress holds any of the queued leases, whatever
    the commands processed meanwhile. *)
Lemma deferred_cleanup_completes limits w ts :
  operations_ok limits w -> Forall (clean limits) ts ->
  (length (deferred_abandons w) <= length ts)%nat ->
  deferred_abandons (run limits w ts) = [] /\
  forall key lease, (key, lease) ∈ deferred_abandons w ->
    Forall (fun t => ~ introduces lease t) ts -> lease_settled (run limits w ts) key lease.
Proof.
  intros Hok Hcl Hlen.
  assert (deferred_abandons (run limits w ts) = []) as Hq.
  { rewrite run_clean by done. by apply drop_ge. }
  split; [done|]. intros key lease Hin Hni.
  destruct (run_accounted limits ts w key lease Hni) as [Hs|Hx]; [by right|done|].
  rewrite Hq in Hx. by apply not_elem_of_nil in Hx.
Qed.

(** ** Startup *)

Record db_ok (d : Db) : Prop := {
  dk_operations : map_Forall OperationStore.row_ok (operations d);
  dk_uploads : map_Forall UploadStore.decodes (upload_sessions d);
  dk_purges : map_Forall PurgeStore.row_ok (purge_jobs d) }.

(** Nothing is in progress: no running operation, no upload between commit start
    and commit, no claimed purge job. *)
Record quiescent (d : Db) : Prop := {
  qu_operations : map_Forall (fun _ r => ~ OperationStore.active r) (operations d);
  qu_uploads : map_Forall (fun _ r => UploadStore.r_state r <> UPLOAD_COMMIT_STARTED) (upload_sessions d);
  qu_purges : map_Forall (fun _ r => PurgeStore.r_state r <> PURGE_CLAIMED) (purge_jobs d) }.

(** Startup leaves a consistent database: recovery of any well-formed
    database succeeds as one transaction, and its result is well formed again and
    quiescent, so the new process starts with no operation, commit or claim that
    belongs to the old one. *)
Lemma recovery_quiescent (d : Db) operation_ttl upload_ttl now :
  db_ok d -> is_i64 (now + operation_ttl) -> is_i64 (now + upload_ttl) -> (0 < operation_ttl)%Z ->
  exists d', recover_database d operation_ttl upload_ttl now = Ok d' /\ db_ok d' /\ quiescent d'.
Proof.
  intros [Ho Hu Hp] H1 H2 Hpos. unfold recover_database, expiration_time.
  rewrite !(proj2 (i64_checked_add_Some _ _ _)) by done. cbn [ok_or mbind result_bind].
  destruct (OperationStore.recover_operations_resolved (operations d) now (now + operation_ttl) Ho)
    as (ops & -> & _ & Hops); [lia|].
  destruct (UploadStore.recover_uploads_resolved (upload_sessions d) now (now + upload_ttl) Hu)
    as (ups & -> & Hnone & Hups).
  destruct (PurgeStore.recover_purges_requeued (purge_jobs d) now Hp) as (pjs & -> & _ & Hpjs).
  cbn [mbind result_bind]. eexists. split; [done|].
  assert (forall k r, ups !! k = Some r -> UploadStore.decodes k r /\
    UploadStore.r_state r <> UPLOAD_COMMIT_STARTED) as Hrow.
  { intros k r Hr. destruct (upload_sessions d !! k) as [r0|] eqn:E0.
    - destruct (Hu k r0 E0) as [s Hs]. destruct (Hups k r0 s E0 Hs) as (r' & Hr' & Hd & Hst & _).
      rewrite Hr in Hr'. injection Hr' as <-. split; [by eexists|].
      apply UploadStore.decode_inv in Hd as (_ & _ & ->). cbn [UploadStore.row_of UploadStore.encode_row
        UploadStore.r_state]. intros E. apply Hst. by destruct (up_state (UploadStore.recovered s)).
    - by rewrite (Hnone k E0) in Hr. }
  split; split; cbn.
  - intros k r Hr. by apply Hops in Hr as [? _].
  - intros k r Hr. by apply Hrow in Hr as [? _].
  - intros k r Hr. by apply Hpjs in Hr as [? _].
  - intros k r Hr. apply Hops in Hr as (_ & Hs & _). unfold OperationStore.active. rewrite Hs. by intros [].
  - intros k r Hr. by apply Hrow in Hr as [_ ?].
  - intros k r Hr. by apply Hpjs in Hr as (_ & ? & _).
Qed.
(** ** A concrete worker *)

Definition db0 : Db :=
  {| operations := {[OperationStore.key0 := OperationStore.row0]};
     upload_sessions := UploadStore.table0;
     purge_jobs := {[PurgeStore.key0 := PurgeStore.claimed0]} |}.
Definition worker0 : StoreWorker :=
  {| db := db0; deferred_abandons := [(OperationStore.key0, OperationStore.lease0)] |}.
Definition turn0 : Turn :=
  {| turn_now := 9; retry_fault := false;
     controls := [(Abandon OperationStore.key0 OperationStore.lease0, false)];
     command := Status OperationStore.key0; reply_closed := false; command_fault := false;
     delivered := true; cleanup_fault := false |}.

Lemma cleanup_never_lost_witness :
  accounted (run OperationStore.limits0 worker0 [turn0]) OperationStore.key0 OperationStore.lease0.
Proof.
  apply (cleanup_never_lost OperationStore.limits0 worker0 turn0 []).
  - left. split; [exists false; left|]. intros (k & fp & E). discriminate E.
  - by vm_compute.
  - constructor.
Defined.

Lemma deferred_cleanup_completes_witness :
  deferred_abandons (run OperationStore.limits0 worker0 [turn0]) = [].
Proof.
  apply (deferred_cleanup_completes OperationStore.limits0 worker0 [turn0]).
  - apply OperationStore.operations0_ok.
  - constructor; [|constructor]. split; [reflexivity| |reflexivity|split; by vm_compute|exact I].
    constructor; [split; [discriminate|reflexivity]|constructor].
  - by vm_compute.
Defined.

Lemma recovery_quiescent_witness : exists d', recover_database db0 1000 1000 50 = Ok d' /\ quiescent d'.
Proof.
  destruct (recovery_quiescent db0 1000 1000 50) as (d' & E & _ & Hq).
  - split; unfold db0; cbn [operations upload_sessions purge_jobs].
    + apply map_Forall_singleton, OperationStore.row0_ok.
    + apply UploadStore.decodes0.
    + apply map_Forall_singleton, PurgeStore.claimed0_ok.
  - split; by vm_compute.
  - split; by vm_compute.
  - by vm_compute.
  - exists d'. split; [exact E|exact Hq].
Defined.
End StoreActor.
