(* ===== verification/DiskSpace.v ===== *)
(** * Disk-space reservations

    [src/server/disk_space.rs]: writers reserve the bytes they are about to write
    so that concurrent uploads cannot eat into the protected free space.  The
    amount reserved per device and a revision per device live behind one mutex;
    the file system is asked for its free space without holding it, and the
    answer is used only if the revision has not moved.

    A request is a task that can be interrupted between its locked sections, so a
    run of the system is any interleaving of the steps of any number of requests
    and reservations. *)

From S2P Require Import Prelude.

Module DiskSpace.

Definition MAX_CAPACITY_SNAPSHOT_RETRIES : nat := 8.
Definition RESERVATION_RELEASE_BATCH_BYTES : Z := 1048576.

Record DiskSpaceState : Type := {
  reserved : gmap Z Z;
  revisions : gmap Z Z }.

Record DiskSpaceReservation : Type := {
  device : Z;
  remaining : Z;
  pending_release : Z }.

(** ** Arithmetic *)

Definition space_budget_fits (available already_reserved requested minimum_free : Z) : bool :=
  match u64_checked_add minimum_free already_reserved ≫= fun required =>
          u64_checked_add required requested with
  | Some required => (required <=? available)%Z
  | None => false
  end.

Definition round_up (value unit_ : Z) : option Z :=
  if (value =? 0)%Z then Some 0%Z
  else u ← u64_checked_sub unit_ 1; s ← u64_checked_add value u; Some (s / unit_ * unit_)%Z.

Definition allocation_budget (logical_bytes allocation_unit metadata_bytes : Z) : option Z :=
  a ← round_up logical_bytes allocation_unit;
  b ← round_up metadata_bytes allocation_unit;
  u64_checked_add a b.

Definition available_bytes (available_blocks fragment_size : Z) : option Z :=
  u64_checked_mul available_blocks fragment_size.

(** [fstatvfs] reports the fragment size; a report of zero counts as one. *)
Definition allocated_reservation_bytes (f_frsize logical_bytes metadata_bytes : Z) : result string Z :=
  ok_or (allocation_budget logical_bytes (Z.max f_frsize 1) metadata_bytes)
    "disk-space reservation including allocation overhead exceeds u64".

(** [None]: [fstatvfs] failed; otherwise the blocks and their size it reports. *)
Definition available_space (stats : option (Z * Z)) : option Z :=
  '(f_bavail, f_frsize) ← stats; available_bytes f_bavail f_frsize.

Lemma available_space_u64 stats available :
  match stats with Some (b, f) => is_u64 b /\ is_u64 f | None => True end ->
  available_space stats = Some available -> is_u64 available.
Proof.
  destruct stats as [[b f]|]; [|done]. intros [Hb Hf] H. unfold available_space in H. cbn in H.
  unfold available_bytes in H. apply u64_checked_mul_Some in H as [-> H]. unfold is_u64 in *. nia.
Qed.

(** ** Locked sections *)

(** [debug_assert!] panics in a build with debug assertions and is absent from
    the others; [debug] says which build runs. *)
Definition debug_assert (debug condition : bool) (message : string) : result string unit :=
  if debug then ensure condition message else Ok tt.

Definition bump_revision (s : DiskSpaceState) (d : Z) : DiskSpaceState :=
  {| reserved := reserved s;
     revisions := <[d := u64_wrapping_add (default 0%Z (revisions s !! d)) 1]> (revisions s) |}.

(** [Err] is the panic of an [expect]. *)
Definition reserve_locked (s : DiskSpaceState) (d available requested minimum_free : Z)
    : result string (DiskSpaceState * option DiskSpaceReservation) :=
  let held := default 0%Z (reserved s !! d) in
  if negb (space_budget_fits available held requested minimum_free) then Ok (s, None)
  else
    let r := {| device := d; remaining := requested; pending_release := 0 |} in
    if (0 <? requested)%Z then
      total ← ok_or (u64_checked_add held requested)
                "a checked disk-space reservation must not overflow";
      Ok (bump_revision {| reserved := <[d := total]> (reserved s); revisions := revisions s |} d, Some r)
    else Ok (s, Some r).

Definition release (debug : bool) (s : DiskSpaceState) (d bytes : Z) : result string DiskSpaceState :=
  if (bytes =? 0)%Z then Ok s
  else
    match reserved s !! d with
    | None =>
        _ ← debug_assert debug false "disk-space reservation bucket disappeared";
        Ok (bump_revision s d)
    | Some held =>
        _ ← debug_assert debug (bytes <=? held)%Z "assertion failed: bytes <= *reserved";
        let left := u64_saturating_sub held bytes in
        Ok (bump_revision
              {| reserved := if (left =? 0)%Z then delete d (reserved s)
                             else <[d := left]> (reserved s);
                 revisions := revisions s |} d)
    end.

(** ** Reservations *)

Definition flush_pending_release (debug : bool) (s : DiskSpaceState) (r : DiskSpaceReservation)
    : result string (DiskSpaceState * DiskSpaceReservation) :=
  s ← release debug s (device r) (pending_release r);
  Ok (s, {| device := device r; remaining := remaining r; pending_release := 0 |}).

Definition consume (debug : bool) (s : DiskSpaceState) (r : DiskSpaceReservation) (bytes : Z)
    : result string (DiskSpaceState * DiskSpaceReservation) :=
  _ ← debug_assert debug (bytes <=? remaining r)%Z "assertion failed: bytes <= self.remaining";
  let consumed := Z.min bytes (remaining r) in
  pending ← ok_or (u64_checked_add (pending_release r) consumed)
              "consumed disk-space reservation bytes must not overflow";
  let r := {| device := device r; remaining := remaining r - consumed; pending_release := pending |} in
  if (RESERVATION_RELEASE_BATCH_BYTES <=? pending_release r)%Z then flush_pending_release debug s r
  else Ok (s, r).

Definition drop (debug : bool) (s : DiskSpaceState) (r : DiskSpaceReservation) : result string DiskSpaceState :=
  tracked ← ok_or (u64_checked_add (remaining r) (pending_release r))
              "tracked disk-space reservation bytes must not overflow";
  release debug s (device r) tracked.

(** ** Requests *)

(** Where a request stands: about to read the revision, probing the file system,
    or about to decide.  [rq_left] counts the rounds of the loop still to come. *)
Inductive Pc : Type :=
| Observe
| Probe (observed_revision : Z)
| Decide (observed_revision available : Z).

Inductive Goal_ : Type :=
| ToReserve (requested : Z)
| ToVerify.

Record Request : Type := {
  rq_device : Z; rq_goal : Goal_; rq_minimum_free : Z; rq_left : nat; rq_pc : Pc }.

Inductive Answer : Type :=
| Granted (id : Z) | Denied | Verified (enough : bool) | WouldBlock | ProbeFailed
| DifferentFilesystem.

Record System : Type := {
  shared : DiskSpaceState;
  live : gmap Z DiskSpaceReservation;
  requests : gmap Z Request;
  answers : gmap Z Answer;
  fresh : Z }.

Definition init : System :=
  {| shared := {| reserved := ∅; revisions := ∅ |}; live := ∅; requests := ∅; answers := ∅;
     fresh := 0 |}.

Definition revision_of (s : DiskSpaceState) (d : Z) : Z := default 0%Z (revisions s !! d).

Definition with_request (s : System) (i : Z) (q : Request) : System :=
  {| shared := shared s; live := live s; requests := <[i := q]> (requests s);
     answers := answers s; fresh := fresh s |}.
Definition answer (s : System) (i : Z) (a : Answer) : System :=
  {| shared := shared s; live := live s; requests := delete i (requests s);
     answers := <[i := a]> (answers s); fresh := fresh s |}.
Definition at_pc (q : Request) (p : Pc) : Request :=
  {| rq_device := rq_device q; rq_goal := rq_goal q; rq_minimum_free := rq_minimum_free q;
     rq_left := rq_left q; rq_pc := p |}.

(** The head of both loops: the revision is read under the lock, or the rounds
    are used up. *)
Definition observe_revision (s : System) (i : Z) (q : Request) : System :=
  match rq_left q with
  | O => answer s i WouldBlock
  | S n =>
      with_request s i
        {| rq_device := rq_device q; rq_goal := rq_goal q;
           rq_minimum_free := rq_minimum_free q; rq_left := n;
           rq_pc := Probe (revision_of (shared s) (rq_device q)) |}
  end.

(** The second half of a round: the decision under the lock, or another round
    when the revision moved. *)
Definition reserve_on_device (s : System) (i : Z) (q : Request) (requested observed available : Z)
    : result string System :=
  if negb (revision_of (shared s) (rq_device q) =? observed)%Z then
    Ok (with_request s i (at_pc q Observe))
  else
    '(st, r) ← reserve_locked (shared s) (rq_device q) available requested (rq_minimum_free q);
    match r with
    | None => Ok (answer s i Denied)
    | Some r =>
        let s := answer s i (Granted (fresh s)) in
        Ok {| shared := st; live := <[fresh s := r]> (live s); requests := requests s;
              answers := answers s; fresh := fresh s + 1 |}
    end.

Definition reserved_space_is_available_on_device (s : System) (i : Z) (q : Request)
    (observed available : Z) : System :=
  if negb (revision_of (shared s) (rq_device q) =? observed)%Z then
    with_request s i (at_pc q Observe)
  else
    let held := default 0%Z (reserved (shared s) !! rq_device q) in
    answer s i (Verified
      match u64_checked_add (rq_minimum_free q) held with
      | Some required => (required <=? available)%Z
      | None => false
      end).

Definition decide_request (s : System) (i : Z) (q : Request) (observed available : Z)
    : result string System :=
  match rq_goal q with
  | ToReserve requested => reserve_on_device s i q requested observed available
  | ToVerify => Ok (reserved_space_is_available_on_device s i q observed available)
  end.

(** ** The system *)

Inductive Action : Type :=
| StartReserve (i d requested minimum_free : Z)
| StartVerify (i id actual_device minimum_free : Z)
| Advance (i : Z)
| Probed (i : Z) (outcome : option (Z * Z))
| Consume (id bytes : Z)
| Drop (id : Z).

(** A call is identified by a number no earlier call had. *)
Definition unused (s : System) (i : Z) : bool :=
  match requests s !! i, answers s !! i with None, None => true | _, _ => false end.

Definition start (s : System) (i d : Z) (g : Goal_) (minimum_free : Z) : option (result string System) :=
  if negb (unused s i) then None
  else Some (Ok (with_request s i {| rq_device := d; rq_goal := g; rq_minimum_free := minimum_free;
                                    rq_left := MAX_CAPACITY_SNAPSHOT_RETRIES; rq_pc := Observe |})).

Definition set_live (s : System) (st : DiskSpaceState) (l : gmap Z DiskSpaceReservation) : System :=
  {| shared := st; live := l; requests := requests s; answers := answers s; fresh := fresh s |}.

(** The pending bytes are flushed before the device is compared and the check
    starts. *)
Definition reserved_space_is_available_async (debug : bool) (s : System) (i id : Z)
    (r : DiskSpaceReservation) (actual_device minimum_free : Z) : option (result string System) :=
  match flush_pending_release debug (shared s) r with
  | Err e => Some (Err e)
  | Ok (st, r) =>
      let s := set_live s st (<[id := r]> (live s)) in
      if negb (actual_device =? device r)%Z then
        if unused s i then Some (Ok (answer s i DifferentFilesystem)) else None
      else start s i (device r) ToVerify minimum_free
  end.

(** [None]: the action is not possible now; [Some (Err _)]: a panic. *)
Definition exec (debug : bool) (a : Action) (s : System) : option (result string System) :=
  match a with
  | StartReserve i d requested minimum_free => start s i d (ToReserve requested) minimum_free
  | StartVerify i id actual_device minimum_free =>
      r ← live s !! id;
      reserved_space_is_available_async debug s i id r actual_device minimum_free
  | Advance i =>
      q ← requests s !! i;
      match rq_pc q with
      | Observe => Some (Ok (observe_revision s i q))
      | Probe _ => None
      | Decide observed available => Some (decide_request s i q observed available)
      end
  | Probed i outcome =>
      q ← requests s !! i;
      match rq_pc q with
      | Probe observed =>
          Some (Ok match available_space outcome with
                   | Some available => with_request s i (at_pc q (Decide observed available))
                   | None => answer s i ProbeFailed
                   end)
      | _ => None
      end
  | Consume id bytes =>
      r ← live s !! id;
      match consume debug (shared s) r bytes with
      | Err e => Some (Err e)
      | Ok (st, r) => Some (Ok (set_live s st (<[id := r]> (live s))))
      end
  | Drop id =>
      r ← live s !! id;
      match drop debug (shared s) r with
      | Err e => Some (Err e)
      | Ok st => Some (Ok (set_live s st (delete id (live s))))
      end
  end.

(** The arguments' types (byte counts are unsigned 64-bit numbers), and for a
    build with debug assertions the promise [consume] asserts of its caller. *)
Definition action_ok (debug : bool) (a : Action) (s : System) : Prop :=
  match a with
  | StartReserve _ _ requested minimum_free => is_u64 requested /\ is_u64 minimum_free
  | StartVerify _ _ _ minimum_free => is_u64 minimum_free
  | Probed _ (Some (f_bavail, f_frsize)) => is_u64 f_bavail /\ is_u64 f_frsize
  | Consume id bytes =>
      is_u64 bytes /\
      (debug = true -> forall r, live s !! id = Some r -> (bytes <= remaining r)%Z)
  | _ => True
  end.

Inductive reachable (debug : bool) : System -> Prop :=
| reach_init : reachable debug init
| reach_step s a s' :
    reachable debug s -> action_ok debug a s -> exec debug a s = Some (Ok s') ->
    reachable debug s'.

(** A run of several actions, each of them possible in its turn. *)
Fixpoint run (debug : bool) (acts : list Action) (s : System) : option System :=
  match acts with
  | [] => Some s
  | a :: acts =>
      match exec debug a s with
      | Some (Ok s') => run debug acts s'
      | _ => None
      end
  end.

(** ** The reservations a device carries *)

Definition tracked_by (d : Z) (r : DiskSpaceReservation) : Z :=
  if (device r =? d)%Z then remaining r + pending_release r else 0.

Definition tracked (d : Z) (l : gmap Z DiskSpaceReservation) : Z :=
  map_sum (tracked_by d) l.

Definition held (s : DiskSpaceState) (d : Z) : Z := default 0%Z (reserved s !! d).

Lemma tracked_insert d l id r :
  l !! id = None -> tracked d (<[id := r]> l) = (tracked_by d r + tracked d l)%Z.
Proof. apply map_sum_insert. Qed.

Lemma tracked_delete d l id r :
  l !! id = Some r -> tracked d (delete id l) = (tracked d l - tracked_by d r)%Z.
Proof. apply map_sum_delete. Qed.

Lemma tracked_update d l id r r' :
  l !! id = Some r -> tracked d (<[id := r']> l) = (tracked d l - tracked_by d r + tracked_by d r')%Z.
Proof. apply map_sum_update. Qed.

(** ** The accounting invariant *)

(** Every bucket holds a positive number of bytes: an emptied one is removed. *)
Definition buckets (s : DiskSpaceState) : Prop :=
  forall d z, reserved s !! d = Some z -> (0 < z <= U64_MAX)%Z.

Definition well_sized (r : DiskSpaceReservation) : Prop :=
  (0 <= remaining r /\ 0 <= pending_release r)%Z.

Definition request_ok (q : Request) : Prop :=
  is_u64 (rq_minimum_free q) /\
  match rq_goal q with ToReserve requested => is_u64 requested | ToVerify => True end /\
  match rq_pc q with Decide _ available => is_u64 available | _ => True end.

Record Inv (s : System) : Prop := {
  inv_accounts : forall d, held (shared s) d = tracked d (live s);
  inv_buckets : buckets (shared s);
  inv_sized : map_Forall (fun id r => (id < fresh s)%Z /\ well_sized r) (live s);
  inv_requests : map_Forall (fun _ q => request_ok q) (requests s) }.

Lemma tracked_by_nonneg d r : well_sized r -> (0 <= tracked_by d r)%Z.
Proof. unfold well_sized, tracked_by. case_match; lia. Qed.

Lemma inv_well_sized s : Inv s -> map_Forall (fun _ => well_sized) (live s).
Proof. intros HI id r H. apply (inv_sized s HI id r H). Qed.

Lemma tracked_member d l id r :
  map_Forall (fun _ => well_sized) l -> l !! id = Some r -> (tracked_by d r <= tracked d l)%Z.
Proof.
  intros Hl. apply (map_sum_member (tracked_by d)). intros k v Hv. by apply tracked_by_nonneg, (Hl k v).
Qed.

Lemma held_bounds s d : buckets s -> (0 <= held s d <= U64_MAX)%Z.
Proof.
  intros Hb. unfold held. destruct (reserved s !! d) as [z|] eqn:E; cbn.
  - apply Hb in E. lia.
  - unfold U64_MAX. lia.
Qed.

Lemma held_bump s d d' : held (bump_revision s d) d' = held s d'.
Proof. done. Qed.

(** Releasing at most what a device holds takes that much off its account, leaves
    the other devices alone and trips no assertion in either build. *)
Lemma release_spec debug s d bytes :
  buckets s -> (0 <= bytes <= held s d)%Z ->
  exists s', release debug s d bytes = Ok s' /\ buckets s' /\
             forall d', held s' d' = (held s d' - if (d =? d')%Z then bytes else 0)%Z.
Proof.
  intros Hb Hle. unfold release.
  destruct (Z.eqb_spec bytes 0) as [->|Hz].
  { exists s. split_and!; [done..|]. intros d'. case_match; lia. }
  unfold held in Hle. destruct (reserved s !! d) as [h|] eqn:E; cbn in Hle; [|lia].
  assert (Hd : debug_assert debug (bytes <=? h)%Z "assertion failed: bytes <= *reserved" = Ok tt).
  { unfold debug_assert. destruct debug; [|done]. unfold ensure. destruct (Z.leb_spec bytes h); [done|lia]. }
  rewrite Hd. cbn [mbind result_bind]. eexists. split; [done|].
  unfold u64_saturating_sub. rewrite Z.max_l by lia.
  pose proof (Hb _ _ E) as Hh. split.
  - intros d' z. cbn. destruct (Z.eqb_spec (h - bytes) 0).
    + rewrite lookup_delete_Some. intros [_ H]. by apply (Hb d').
    + rewrite lookup_insert_Some. intros [[<- <-]|[_ H]]; [lia|by apply (Hb d')].
  - intros d'. unfold held. cbn.
    destruct (Z.eqb_spec (h - bytes) 0), (Z.eqb_spec d d') as [<-|Hne].
    + rewrite lookup_delete_eq, E. cbn. lia.
    + rewrite lookup_delete_ne by done. lia.
    + rewrite lookup_insert_eq, E. cbn. lia.
    + rewrite lookup_insert_ne by done. lia.
Qed.

(** Reserving either refuses and changes nothing, or adds the request to the
    device's account within the capacity that was probed. *)
Lemma reserve_locked_spec s d available requested minimum_free :
  buckets s -> is_u64 requested -> is_u64 minimum_free -> is_u64 available ->
  if (minimum_free + held s d + requested <=? available)%Z then
    exists s', reserve_locked s d available requested minimum_free =
                 Ok (s', Some {| device := d; remaining := requested; pending_release := 0 |}) /\
               buckets s' /\
               forall d', held s' d' = (held s d' + if (d =? d')%Z then requested else 0)%Z
  else reserve_locked s d available requested minimum_free = Ok (s, None).
Proof.
  unfold is_u64. intros Hb Hr Hm Ha. pose proof (held_bounds s d Hb) as Hh.
  unfold reserve_locked. fold (held s d).
  assert (Hf : space_budget_fits available (held s d) requested minimum_free =
               (minimum_free + held s d + requested <=? available)%Z).
  { unfold space_budget_fits, u64_checked_add.
    destruct (Z.leb_spec (minimum_free + held s d) U64_MAX); cbn.
    - destruct (Z.leb_spec (minimum_free + held s d + requested) U64_MAX); [done|].
      symmetry. apply Z.leb_gt. lia.
    - symmetry. apply Z.leb_gt. lia. }
  rewrite Hf. destruct (Z.leb_spec (minimum_free + held s d + requested) available) as [Hle|]; [|done].
  cbn [negb]. destruct (Z.ltb_spec 0 requested).
  - unfold u64_checked_add. rewrite (proj2 (Z.leb_le _ _)) by lia. cbn [ok_or mbind result_bind].
    eexists. split; [done|]. split.
    + intros d' z. cbn. rewrite lookup_insert_Some. intros [[<- <-]|[_ H']]; [lia|by apply (Hb d')].
    + intros d'. unfold held at 1. cbn. destruct (Z.eqb_spec d d') as [<-|Hne].
      * rewrite lookup_insert_eq. done.
      * rewrite lookup_insert_ne by done. unfold held. lia.
  - exists s. split; [done|]. split; [done|]. intros d'. case_match; lia.
Qed.

(** What a call on a reservation may do to the device's account: move it by as
    much as the reservation's own tracked bytes moved. *)
Definition rebalanced (s : DiskSpaceState) (r : DiskSpaceReservation)
    (s' : DiskSpaceState) (r' : DiskSpaceReservation) : Prop :=
  buckets s' /\ well_sized r' /\ device r' = device r /\
  forall d, held s' d = (held s d - tracked_by d r + tracked_by d r')%Z.

Lemma flush_spec debug s r :
  buckets s -> well_sized r -> (remaining r + pending_release r <= held s (device r))%Z ->
  exists s' r', flush_pending_release debug s r = Ok (s', r') /\ rebalanced s r s' r' /\
                remaining r' = remaining r.
Proof.
  intros Hb [Hr Hp] Hle. unfold flush_pending_release.
  destruct (release_spec debug s (device r) (pending_release r) Hb) as (s' & -> & Hb' & Hh); [lia|].
  cbn [mbind result_bind]. eexists _, _. split; [done|]. split; [|done].
  split_and!; [done|by split|done|]. intros d. rewrite Hh. unfold tracked_by. cbn. case_match; lia.
Qed.

Lemma consume_spec debug s r bytes :
  buckets s -> well_sized r -> (remaining r + pending_release r <= held s (device r))%Z ->
  is_u64 bytes -> (debug = true -> bytes <= remaining r)%Z ->
  exists s' r', consume debug s r bytes = Ok (s', r') /\ rebalanced s r s' r' /\
                remaining r' = (remaining r - Z.min bytes (remaining r))%Z.
Proof.
  intros Hb Hw Hle [Hby _] Hd. pose proof Hw as [Hr Hp]. unfold consume.
  assert (Ha : debug_assert debug (bytes <=? remaining r)%Z "assertion failed: bytes <= self.remaining" = Ok tt).
  { unfold debug_assert, ensure. destruct debug; [|done].
    specialize (Hd eq_refl). by rewrite (proj2 (Z.leb_le _ _) Hd). }
  rewrite Ha. cbn [mbind result_bind].
  pose proof (held_bounds s (device r) Hb) as Hh.
  unfold u64_checked_add. rewrite (proj2 (Z.leb_le _ _)) by lia. cbn [ok_or mbind result_bind].
  case_match.
  - edestruct (flush_spec debug s
      {| device := device r; remaining := remaining r - Z.min bytes (remaining r);
         pending_release := pending_release r + Z.min bytes (remaining r) |})
      as (s' & r' & Hf & (Hb' & Hw' & Hdev & Hbal) & Hrem); [done|split; cbn; lia|cbn; lia|].
    exists s', r'. split; [exact Hf|]. split; [|exact Hrem].
    split_and!; [done..|]. intros d. rewrite Hbal. unfold tracked_by. cbn. case_match; lia.
  - eexists _, _. split; [done|]. split; [|done].
    split_and!; [done|split; cbn; lia|done|]. intros d. unfold tracked_by. cbn. case_match; lia.
Qed.

Lemma drop_spec debug s r :
  buckets s -> well_sized r -> (remaining r + pending_release r <= held s (device r))%Z ->
  exists s', drop debug s r = Ok s' /\ buckets s' /\
             forall d, held s' d = (held s d - tracked_by d r)%Z.
Proof.
  intros Hb [Hr Hp] Hle. unfold drop.
  pose proof (held_bounds s (device r) Hb) as Hh.
  unfold u64_checked_add. rewrite (proj2 (Z.leb_le _ _)) by lia. cbn [ok_or mbind result_bind].
  destruct (release_spec debug s (device r) (remaining r + pending_release r) Hb) as (s' & -> & Hb' & Hbal); [lia|].
  exists s'. split_and!; [done..|]. intros d. by rewrite Hbal.
Qed.

(** ** Preservation *)

Lemma accounts_init : Inv init.
Proof. split; [done|intros d z H; cbn in H; by rewrite lookup_empty in H|apply map_Forall_empty..]. Qed.

Lemma inv_reservation s id r :
  Inv s -> live s !! id = Some r ->
  well_sized r /\ (remaining r + pending_release r <= held (shared s) (device r))%Z.
Proof.
  intros HI H. pose proof (inv_well_sized s HI) as Hl. split; [by apply (Hl id)|].
  rewrite (inv_accounts s HI).
  pose proof (tracked_member (device r) (live s) id r Hl H) as Hm.
  unfold tracked_by in Hm. by rewrite Z.eqb_refl in Hm.
Qed.

Lemma inv_with_request s i q : Inv s -> request_ok q -> Inv (with_request s i q).
Proof. intros [] Hq. split; try done. by apply map_Forall_insert_2. Qed.

Lemma inv_answer s i a : Inv s -> Inv (answer s i a).
Proof. intros []. split; try done. by apply map_Forall_delete. Qed.

Lemma inv_rebalance s id r st r' :
  Inv s -> live s !! id = Some r -> rebalanced (shared s) r st r' ->
  Inv (set_live s st (<[id := r']> (live s))).
Proof.
  intros HI H (Hb & Hw & Hdev & Hbal). pose proof HI as [Ha _ Hs Hq]. split; try done.
  - intros d. cbn. rewrite Hbal, (tracked_update _ _ _ r), Ha by done. lia.
  - apply map_Forall_insert_2; [|done]. split; [|done]. apply (Hs id r H).
Qed.

Lemma inv_drop s id r st :
  Inv s -> live s !! id = Some r -> buckets st ->
  (forall d, held st d = held (shared s) d - tracked_by d r)%Z ->
  Inv (set_live s st (delete id (live s))).
Proof.
  intros [Ha Hb Hs Hq] H Hb' Hbal. split; try done.
  - intros d. cbn. by rewrite Hbal, (tracked_delete _ _ _ r), Ha.
  - by apply map_Forall_delete.
Qed.

Lemma inv_grant s d requested st :
  Inv s -> is_u64 requested -> buckets st ->
  (forall d', held st d' = held (shared s) d' + if (d =? d') then requested else 0)%Z ->
  Inv {| shared := st;
         live := <[fresh s := {| device := d; remaining := requested; pending_release := 0 |}]> (live s);
         requests := requests s; answers := answers s; fresh := fresh s + 1 |}.
Proof.
  intros [Ha Hb Hs Hq] [Hr _] Hb' Hbal. split; try done; cbn.
  - intros d'. rewrite Hbal, Ha, tracked_insert.
    + unfold tracked_by. cbn. case_match; lia.
    + destruct (live s !! fresh s) eqn:E; [|done]. apply Hs in E. lia.
  - apply map_Forall_insert_2; [split; [lia|by split]|].
    intros id r H. apply Hs in H as [Hid Hw]. split; [lia|done].
Qed.

Lemma accounts_start s i d g mf o :
  Inv s -> is_u64 mf -> match g with ToReserve req => is_u64 req | ToVerify => True end ->
  start s i d g mf = Some o -> exists s', o = Ok s' /\ Inv s'.
Proof.
  intros HI Hm Hg H. unfold start in H. case_match; simplify_eq. eexists. split; [done|].
  apply inv_with_request; [done|]. by split_and!.
Qed.

Lemma inv_decide s i q observed available :
  Inv s -> request_ok q -> rq_pc q = Decide observed available ->
  exists s', decide_request s i q observed available = Ok s' /\ Inv s'.
Proof.
  intros HI (Hmf & Hg & Hpc) Epc. rewrite Epc in Hpc. 
  assert (Inv (with_request s i (at_pc q Observe))) as Hretry.
  { apply inv_with_request; [done|]. by split_and!. }
  unfold decide_request, reserve_on_device, reserved_space_is_available_on_device.
  destruct (rq_goal q) as [req|] eqn:Eg; destruct (negb _); eauto using inv_answer.
  pose proof (reserve_locked_spec (shared s) (rq_device q) available req (rq_minimum_free q)
                (inv_buckets s HI) Hg Hmf Hpc) as Hspec.
  case_match.
  - destruct Hspec as (st & -> & Hb & Hbal). cbn [mbind result_bind]. eexists. split; [done|].
    by apply (inv_grant (answer s i (Granted (fresh s)))); [apply inv_answer| | |].
  - rewrite Hspec. cbn [mbind result_bind]. eexists. split; [done|]. by apply inv_answer.
Qed.

(** Every action that is possible succeeds, and keeps the invariant. *)
Lemma exec_inv debug a s o :
  Inv s -> action_ok debug a s -> exec debug a s = Some o -> exists s', o = Ok s' /\ Inv s'.
Proof.
  intros HI Hok H. destruct a as [i d req mf|i id ad mf|i|i oc|id b|id]; cbn in H.
  - destruct Hok. by apply accounts_start in H.
  - destruct (live s !! id) as [r|] eqn:El; [|done]. cbn in H.
    destruct (inv_reservation s id r HI El) as [Hw Hle].
    destruct (flush_spec debug (shared s) r (inv_buckets s HI) Hw Hle) as (st & r' & Hf & Hbal & _).
    unfold reserved_space_is_available_async in H.
    rewrite Hf in H. pose proof (inv_rebalance s id r st r' HI El Hbal) as HI'.
    destruct (negb (ad =? device r')%Z); [|by apply accounts_start in H].
    destruct (unused _ i); simplify_eq. eexists. split; [done|]. by apply inv_answer.
  - destruct (requests s !! i) as [q|] eqn:Eq; [|done]. cbn in H.
    pose proof (inv_requests s HI i q Eq) as Hq.
    destruct (rq_pc q) as [|rv|rv av] eqn:Epc; simplify_eq.
    + eexists. split; [done|]. unfold observe_revision. destruct (rq_left q).
      * by apply inv_answer.
      * apply inv_with_request; [done|]. destruct Hq as (? & ? & ?). by split_and!.
    + by apply inv_decide.
  - destruct (requests s !! i) as [q|] eqn:Eq; [|done]. cbn in H.
    pose proof (inv_requests s HI i q Eq) as (Hmf & Hg & Hpc).
    destruct (rq_pc q); simplify_eq. eexists. split; [done|].
    destruct (available_space oc) as [av|] eqn:Eav; [|by apply inv_answer].
    apply inv_with_request; [done|]. split_and!; [done..|].
    cbn. eapply available_space_u64; [|done]. by destruct oc as [[]|].
  - destruct (live s !! id) as [r|] eqn:El; [|done]. cbn in H.
    destruct (inv_reservation s id r HI El) as [Hw Hle]. destruct Hok as [Hb Hd].
    destruct (consume_spec debug (shared s) r b (inv_buckets s HI) Hw Hle Hb) as (st & r' & Hf & Hbal & _).
    { intros ->. by apply Hd. }
    rewrite Hf in H. simplify_eq. eexists. split; [done|]. by apply (inv_rebalance s id r).
  - destruct (live s !! id) as [r|] eqn:El; [|done]. cbn in H.
    destruct (inv_reservation s id r HI El) as [Hw Hle].
    destruct (drop_spec debug (shared s) r (inv_buckets s HI) Hw Hle) as (st & Hf & Hb & Hbal).
    rewrite Hf in H. simplify_eq. eexists. split; [done|]. by apply (inv_drop s id r).
Qed.

Lemma reachable_accounts debug s : reachable debug s -> Inv s.
Proof.
  induction 1 as [|s a s' Hs IH Hok He]; [apply accounts_init|].
  by destruct (exec_inv debug a s _ IH Hok He) as (s2 & [= ->] & HI).
Qed.

(** ** What a reservation promises *)

Lemma decide_new debug s i id r s' :
  Inv s -> exec debug (Advance i) s = Some (Ok s') -> live s !! id = None -> live s' !! id = Some r ->
  exists q observed available requested,
    requests s !! i = Some q /\ rq_pc q = Decide observed available /\
    rq_goal q = ToReserve requested /\ revision_of (shared s) (rq_device q) = observed /\
    r = {| device := rq_device q; remaining := requested; pending_release := 0 |} /\
    live s' = <[id := r]> (live s) /\
    (rq_minimum_free q + tracked (rq_device q) (live s) + requested <= available)%Z.
Proof.
  intros HI H Hn Hr. cbn in H. destruct (requests s !! i) as [q|] eqn:Eq; [|done]. cbn in H.
  destruct (inv_requests s HI i q Eq) as (Hmf & Hg & Hpc).
  destruct (rq_pc q) as [|rv|rv av] eqn:Epc; [|done|].
  { unfold observe_revision in H. destruct (rq_left q); simplify_eq; cbn in Hr; congruence. }
  unfold decide_request, reserve_on_device, reserved_space_is_available_on_device in H.
  destruct (rq_goal q) as [req|] eqn:Eg;
    destruct (Z.eqb_spec (revision_of (shared s) (rq_device q)) rv) as [Hrev|];
    cbn [negb] in H; simplify_eq; cbn in Hr; try congruence.
  pose proof (reserve_locked_spec (shared s) (rq_device q) av req (rq_minimum_free q)
                (inv_buckets s HI) Hg Hmf Hpc) as Hspec.
  destruct (Z.leb_spec (rq_minimum_free q + held (shared s) (rq_device q) + req) av) as [Hle|].
  - destruct Hspec as (st & Hst & _). rewrite Hst in H. cbn [mbind result_bind] in H. simplify_eq.
    cbn in Hr. apply lookup_insert_Some in Hr as [[<- <-]|[_ Hr]]; [|by rewrite Hn in Hr].
    eexists q, _, av, req. rewrite <- (inv_accounts s HI). by split_and!.
  - rewrite Hspec in H. cbn [mbind result_bind] in H. simplify_eq. cbn in Hr. congruence.
Qed.

Lemma set_live_new s st id0 r0 id r :
  live s !! id = None -> live (set_live s st (<[id0 := r0]> (live s))) !! id = Some r -> id = id0.
Proof. cbn. rewrite lookup_insert_Some. naive_solver. Qed.

Lemma start_live s i d g mf s' : start s i d g mf = Some (Ok s') -> live s' = live s /\ shared s' = shared s.
Proof. unfold start. intros H. destruct (negb _); by simplify_eq. Qed.

(** C10. A new reservation comes only from a request's decision, taken while the
    revision it observed before probing still stands, and fits: the protected free
    space together with everything every live reservation on the device still
    tracks, the new one included, is at most the free space that was probed. *)
Theorem reservation_within_capacity debug s a s' id r :
  reachable debug s -> action_ok debug a s -> exec debug a s = Some (Ok s') ->
  live s !! id = None -> live s' !! id = Some r ->
  exists i q observed available requested,
    a = Advance i /\ requests s !! i = Some q /\ rq_pc q = Decide observed available /\
    rq_goal q = ToReserve requested /\ revision_of (shared s) (rq_device q) = observed /\
    r = {| device := rq_device q; remaining := requested; pending_release := 0 |} /\
    (rq_minimum_free q + tracked (rq_device q) (live s') <= available)%Z.
Proof.
  intros HR%reachable_accounts Hok H Hn Hr.
  destruct a as [i d req mf|i id0 ad mf|i|i oc|id0 b|id0].
  - apply start_live in H as [Hl _]. by rewrite Hl, Hn in Hr.
  - cbn in H. destruct (live s !! id0) eqn:El; [|done]. cbn in H.
    unfold reserved_space_is_available_async in H.
    destruct (flush_pending_release _ _ _) as [[st r0]|]; [|done].
    assert (live s' = <[id0 := r0]> (live s)) as Hl.
    { destruct (negb _); [destruct (unused _ _); by simplify_eq|].
      by apply start_live in H as [Hl _]. }
    rewrite Hl in Hr. apply (set_live_new s st) in Hr; congruence.
  - destruct (decide_new debug s i id r s' HR H Hn Hr)
      as (q & rv & av & req & Hq & Hpc & Hg & Hrev & -> & Hl & Hle).
    exists i, q, rv, av, req. split_and!; try done.
    rewrite Hl, tracked_insert by done. unfold tracked_by. cbn. rewrite Z.eqb_refl. lia.
  - cbn in H. destruct (requests s !! i) as [q|] eqn:Eq; [|done]. cbn in H.
    destruct (rq_pc q); simplify_eq. destruct (available_space oc); cbn in Hr; congruence.
  - cbn in H. destruct (live s !! id0) eqn:El; [|done]. cbn in H.
    destruct (consume _ _ _ _) as [[st r0]|]; simplify_eq.
    apply (set_live_new s st) in Hr; congruence.
  - cbn in H. destruct (live s !! id0) eqn:El; [|done]. cbn in H.
    destruct (drop _ _ _) as [st|]; simplify_eq.
    cbn in Hr. apply lookup_delete_Some in Hr as [_ Hr]. congruence.
Qed.

Lemma run_reachable acts s s' :
  reachable false s -> Forall (fun a => forall t, action_ok false a t) acts ->
  run false acts s = Some s' -> reachable false s'.
Proof.
  intros Hs Hok. revert s Hs. induction Hok as [|a acts Ha Hok IH]; intros s Hs H; cbn in H.
  - by simplify_eq.
  - destruct (exec false a s) as [[s2|]|] eqn:E; [|done..].
    eapply IH; [|done]. by eapply reach_step.
Qed.

(** Two uploads of 100 and 200 bytes to device 7, which keeps 1000 bytes free. *)
Definition two_uploads : list Action :=
  [StartReserve 1 7 100 1000; StartReserve 2 7 200 1000; Advance 1; Probed 1 (Some (50, 100)%Z); Advance 1;
   Advance 2; Probed 2 (Some (50, 100)%Z)].

Lemma two_uploads_ok : Forall (fun a => forall t, action_ok false a t) two_uploads.
Proof. unfold two_uploads, is_u64, U64_MAX. repeat constructor; cbn; unfold is_u64, U64_MAX; lia. Qed.

Definition before_grant : System := default init (run false two_uploads init).
Definition after_grant : System := default init (run false (two_uploads ++ [Advance 2]) init).

Lemma before_grant_reachable : reachable false before_grant.
Proof. eapply run_reachable; [apply reach_init|apply two_uploads_ok|vm_compute; reflexivity]. Qed.

Lemma reservation_within_capacity_witness :
  exists i q observed available requested,
    Advance 2 = Advance i /\ requests before_grant !! i = Some q /\ rq_pc q = Decide observed available /\
    rq_goal q = ToReserve requested /\ revision_of (shared before_grant) (rq_device q) = observed /\
    {| device := 7; remaining := 200; pending_release := 0 |} =
      {| device := rq_device q; remaining := requested; pending_release := 0 |} /\
    (rq_minimum_free q + tracked (rq_device q) (live after_grant) <= available)%Z.
Proof.
  apply (reservation_within_capacity false before_grant (Advance 2) after_grant 1
           {| device := 7; remaining := 200; pending_release := 0 |}).
  - apply before_grant_reachable.
  - exact I.
  - vm_compute. reflexivity.
  - vm_compute. reflexivity.
  - vm_compute. reflexivity.
Defined.

(** C15. The books are exact in every reachable state: what the tracker holds for a
    device is the sum of what the live reservations on it still track, fits a
    64-bit number, and no action that is possible panics, whether or not the build
    has debug assertions. *)
Theorem accounting_exact debug s :
  reachable debug s ->
  (forall d, held (shared s) d = tracked d (live s) /\ is_u64 (tracked d (live s))) /\
  (forall d, reserved (shared s) !! d <> Some 0%Z) /\
  (forall a e, action_ok debug a s -> exec debug a s <> Some (Err e)).
Proof.
  intros HI%reachable_accounts. split_and!.
  - intros d. rewrite <- (inv_accounts s HI). split; [done|]. by apply held_bounds, inv_buckets.
  - intros d H. apply (inv_buckets s HI) in H. lia.
  - intros a e Hok H. by destruct (exec_inv debug a s _ HI Hok H) as (s' & ? & _).
Qed.

Lemma accounting_exact_witness :
  (forall d, held (shared before_grant) d = tracked d (live before_grant) /\
             is_u64 (tracked d (live before_grant))) /\
  (forall d, reserved (shared before_grant) !! d <> Some 0%Z) /\
  (forall a e, action_ok false a before_grant -> exec false a before_grant <> Some (Err e)).
Proof. apply (accounting_exact false before_grant). apply before_grant_reachable. Defined.

(** ** The revision protects the snapshot *)

(** An action leaves a device's account and revision alone, or moves the revision
    on by one. *)
Definition bumps (d : Z) (s s' : DiskSpaceState) : Prop :=
  (reserved s' !! d = reserved s !! d /\ revision_of s' d = revision_of s d) \/
  revision_of s' d = u64_wrapping_add (revision_of s d) 1.

Lemma bumps_refl d s : bumps d s s.
Proof. by left. Qed.

Lemma bumps_bump d d0 s m :
  (d <> d0 -> m !! d = reserved s !! d) ->
  bumps d s (bump_revision {| reserved := m; revisions := revisions s |} d0).
Proof.
  intros Hm. unfold bumps, revision_of. cbn. destruct (decide (d = d0)) as [->|Hne].
  - right. by rewrite lookup_insert_eq.
  - left. rewrite lookup_insert_ne by done. auto.
Qed.

Lemma bumps_release debug d d0 b s s' : release debug s d0 b = Ok s' -> bumps d s s'.
Proof.
  unfold release. intros H. case_match; simplify_eq; [apply bumps_refl|].
  destruct (reserved s !! d0) as [h|]; destruct (debug_assert _ _ _) as [[]|]; cbn in H; simplify_eq.
  - apply bumps_bump. intros Hne. case_match; by rewrite ?lookup_delete_ne, ?lookup_insert_ne.
  - destruct s. by apply bumps_bump.
Qed.

Lemma bumps_flush debug d s r s' r' : flush_pending_release debug s r = Ok (s', r') -> bumps d s s'.
Proof.
  unfold flush_pending_release. destruct (release _ _ _ _) eqn:E; cbn; [|done].
  intros ?; simplify_eq. by eapply bumps_release.
Qed.

Lemma bumps_consume debug d s r b s' r' : consume debug s r b = Ok (s', r') -> bumps d s s'.
Proof.
  unfold consume. destruct (debug_assert _ _ _); cbn [mbind result_bind]; [|done].
  destruct (ok_or _ _); cbn [mbind result_bind]; [|done].
  case_match; [apply bumps_flush|intros ?; simplify_eq; apply bumps_refl].
Qed.

Lemma bumps_reserve d s d0 av req mf s' r : reserve_locked s d0 av req mf = Ok (s', r) -> bumps d s s'.
Proof.
  unfold reserve_locked. intros H. destruct (negb _); simplify_eq; [apply bumps_refl|].
  destruct (0 <? req)%Z; [|simplify_eq; apply bumps_refl].
  destruct (u64_checked_add _ _); cbn in H; simplify_eq.
  apply bumps_bump. intros Hne. by rewrite lookup_insert_ne.
Qed.

Lemma bumps_exec debug d a s s' : exec debug a s = Some (Ok s') -> bumps d (shared s) (shared s').
Proof.
  intros H. destruct a as [i d0 req mf|i id ad mf|i|i oc|id b|id]; cbn in H.
  - apply start_live in H as [_ ->]. apply bumps_refl.
  - destruct (live s !! id) as [r|]; [|done]. cbn in H.
    unfold reserved_space_is_available_async in H.
    destruct (flush_pending_release _ _ _) as [[st r']|] eqn:Ef; [|done].
    apply (bumps_flush _ d) in Ef. destruct (negb _).
    + destruct (unused _ _); by simplify_eq.
    + by apply start_live in H as [_ ->].
  - destruct (requests s !! i) as [q|]; [|done]. cbn in H.
    destruct (rq_pc q); simplify_eq; [unfold observe_revision; destruct (rq_left q); apply bumps_refl|].
    unfold decide_request, reserve_on_device, reserved_space_is_available_on_device in H.
    destruct (rq_goal q), (negb _); simplify_eq; try apply bumps_refl.
    destruct (reserve_locked _ _ _ _ _) as [[st [r|]]|] eqn:Er; cbn in H; simplify_eq;
      [|apply bumps_refl].
    by apply (bumps_reserve d) in Er.
  - destruct (requests s !! i) as [q|]; [|done]. cbn in H.
    destruct (rq_pc q); simplify_eq. destruct (available_space oc); apply bumps_refl.
  - destruct (live s !! id) as [r|]; [|done]. cbn in H.
    destruct (consume _ _ _ _) as [[st r']|] eqn:Ef; simplify_eq. by apply (bumps_consume _ d) in Ef.
  - destruct (live s !! id) as [r|]; [|done]. cbn in H. unfold drop in H.
    destruct (ok_or _ _); cbn [mbind result_bind] in H; [|done].
    destruct (release _ _ _ _) as [st|] eqn:Ef; simplify_eq. by apply (bumps_release _ d) in Ef.
Qed.

(** Along a run a device's revision moves on by the number of changes. *)
Lemma run_revision debug d acts s s' :
  run debug acts s = Some s' ->
  (revision_of (shared s') d = revision_of (shared s) d /\
   forall pre post sm, acts = pre ++ post -> run debug pre s = Some sm ->
     reserved (shared sm) !! d = reserved (shared s) !! d) \/
  exists k, (1 <= k <= Z.of_nat (length acts))%Z /\
            revision_of (shared s') d = ((revision_of (shared s) d + k) mod (U64_MAX + 1))%Z.
Proof.
  revert s. induction acts as [|a acts IH]; intros s H; cbn in H.
  { simplify_eq. left. split; [done|]. intros pre post sm E Hr.
    symmetry in E. apply app_nil in E as [-> _]. cbn in Hr. by simplify_eq. }
  destruct (exec debug a s) as [[s1|]|] eqn:E; [|done..].
  destruct (bumps_exec _ d _ _ _ E) as [[Hm Hr]|Hr], (IH _ H) as [[Hr' Hp]|(k & Hk & Hr')].
  - left. split; [congruence|]. intros [|b pre] post sm Ea Hrun; cbn in Hrun; [by simplify_eq|].
    injection Ea as <- Ea. rewrite E in Hrun. rewrite (Hp _ _ _ Ea Hrun). done.
  - right. exists k. cbn [length]. split; [lia|]. congruence.
  - right. exists 1%Z. cbn [length]. split; [lia|]. by rewrite Hr', Hr.
  - right. exists (1 + k)%Z. cbn [length]. split; [lia|].
    rewrite Hr', Hr. unfold u64_wrapping_add. rewrite Z.add_mod_idemp_l by done.
    f_equal. lia.
Qed.

(** The revision is a sound witness that the snapshot is still good: when, after
    any run of fewer than 2^64 actions of the other requests and reservations, a
    request finds the revision it observed, the device's account was the same in
    every state in between, in particular when the file system was probed.  (The
    revision wraps, so the bound is needed.) *)
Lemma snapshot_stable debug d acts s s' pre post sm :
  run debug acts s = Some s' -> (Z.of_nat (length acts) <= U64_MAX)%Z ->
  revision_of (shared s') d = revision_of (shared s) d ->
  acts = pre ++ post -> run debug pre s = Some sm ->
  held (shared sm) d = held (shared s) d.
Proof.
  intros H Hlen Hrev Ha Hpre. unfold held.
  destruct (run_revision _ d _ _ _ H) as [[_ Hp]|(k & Hk & Hr)]; [by rewrite (Hp _ _ _ Ha Hpre)|].
  exfalso. rewrite Hrev in Hr. unfold U64_MAX in *.
  pose proof (Z.div_mod (revision_of (shared s) d + k) (18446744073709551615 + 1) ltac:(lia)) as Hdm.
  rewrite <- Hr in Hdm.
  pose proof (Z.mod_pos_bound (revision_of (shared s) d + k) (18446744073709551615 + 1) ltac:(lia)).
  nia.
Qed.

Lemma snapshot_stable_witness :
  held (shared (default init (run false [StartReserve 3 8 5 6; Advance 3] before_grant))) 7 = held (shared before_grant) 7.
Proof.
  apply (snapshot_stable false 7 [StartReserve 3 8 5 6; Advance 3; Probed 3 (Some (1, 100)%Z); Advance 3]
           before_grant
           (default init (run false [StartReserve 3 8 5 6; Advance 3; Probed 3 (Some (1, 100)%Z); Advance 3]
                            before_grant))
           [StartReserve 3 8 5 6; Advance 3] [Probed 3 (Some (1, 100)%Z); Advance 3]).
  all: vm_compute; try reflexivity; discriminate.
Defined.

(** ** A request ends *)

Definition own (i : Z) (a : Action) : bool :=
  match a with Advance j => (i =? j)%Z | Probed j _ => (i =? j)%Z | _ => false end.

(** The steps a request can still take: three per round that is left. *)
Definition steps_left (q : Request) : nat :=
  match rq_pc q with
  | Observe => 3 * rq_left q
  | Probe _ => 3 * rq_left q + 2
  | Decide _ _ => 3 * rq_left q + 1
  end.

(** Before it starts a call has every step to take, once answered none. *)
Definition budget (s : System) (i : Z) : nat :=
  match answers s !! i, requests s !! i with
  | Some _, _ => 0
  | None, Some q => S (steps_left q)
  | None, None => S (3 * MAX_CAPACITY_SNAPSHOT_RETRIES)
  end.

(** An answered call is no longer in flight. *)
Definition settled (s : System) : Prop :=
  forall i a, answers s !! i = Some a -> requests s !! i = None.

Lemma budget_answer s i a : budget (answer s i a) i = 0.
Proof. unfold budget. cbn. by rewrite lookup_insert_eq. Qed.
Lemma budget_answer_ne s i j a : i <> j -> budget (answer s i a) j = budget s j.
Proof. intros. unfold budget. cbn. by rewrite lookup_insert_ne, lookup_delete_ne. Qed.
Lemma budget_request s i q : answers s !! i = None -> budget (with_request s i q) i = S (steps_left q).
Proof. intros H. unfold budget. cbn. by rewrite H, lookup_insert_eq. Qed.
Lemma budget_request_ne s i j q : i <> j -> budget (with_request s i q) j = budget s j.
Proof. intros. unfold budget. cbn. by rewrite lookup_insert_ne. Qed.
Lemma budget_set_live s st l i : budget (set_live s st l) i = budget s i.
Proof. done. Qed.

Lemma settled_answer s i a : settled s -> settled (answer s i a).
Proof.
  intros H j b. cbn. rewrite lookup_insert_Some, lookup_delete_None. intros [[-> _]|[_ Hb]]; [by left|].
  right. by eapply H.
Qed.
Lemma settled_request s i q : settled s -> answers s !! i = None -> settled (with_request s i q).
Proof.
  intros H Ha j b. cbn. rewrite lookup_insert_None. intros Hb. split; [by eapply H|congruence].
Qed.

(** One step of a call takes one step off its budget; the steps of the others
    leave it alone. *)
Definition spends (i : Z) (own_step : bool) (s s' : System) : Prop :=
  settled s' /\ (budget s' i + (if own_step then 1 else 0) <= budget s i)%nat.

Lemma spends_answer i j own_step s a :
  settled s -> answers s !! j = None -> (own_step = true -> i = j) ->
  spends i own_step s (answer s j a).
Proof.
  intros Hs Ha Ho. split; [by apply settled_answer|].
  destruct (decide (j = i)) as [->|Hne].
  - rewrite budget_answer. unfold budget. rewrite Ha. repeat case_match; lia.
  - rewrite budget_answer_ne by done. destruct own_step; [|lia]. by rewrite Ho in Hne.
Qed.

Lemma spends_request i j own_step s q :
  settled s -> answers s !! j = None -> (own_step = true -> i = j) ->
  (S (steps_left q) + (if own_step then 1 else 0) <= budget s j)%nat ->
  spends i own_step s (with_request s j q).
Proof.
  intros Hs Ha Ho Hb. split; [by apply settled_request|].
  destruct (decide (j = i)) as [->|Hne].
  - by rewrite budget_request.
  - rewrite budget_request_ne by done. destruct own_step; [|lia]. by rewrite Ho in Hne.
Qed.

Lemma unused_true s i : unused s i = true -> requests s !! i = None /\ answers s !! i = None.
Proof. unfold unused. destruct (requests s !! i), (answers s !! i); naive_solver. Qed.

Lemma spends_start i s j d g mf s' :
  settled s -> start s j d g mf = Some (Ok s') -> spends i false s s'.
Proof.
  intros Hs H. unfold start in H. destruct (unused s j) eqn:Hu; cbn in H; simplify_eq.
  apply unused_true in Hu as [Hr Ha]. apply spends_request; try done.
  unfold budget. rewrite Ha, Hr. cbn. lia.
Qed.

Lemma in_flight s i q :
  settled s -> requests s !! i = Some q -> answers s !! i = None /\ budget s i = S (steps_left q).
Proof.
  intros Hs H. unfold budget. destruct (answers s !! i) eqn:E; [by rewrite (Hs _ _ E) in H|].
  by rewrite H.
Qed.

Lemma spends_decide i j s q observed available s' :
  settled s -> requests s !! j = Some q -> rq_pc q = Decide observed available ->
  decide_request s j q observed available = Ok s' -> spends i (i =? j)%Z s s'.
Proof.
  intros Hs Hq Hpc H. destruct (in_flight s j q Hs Hq) as [Ha Hb].
  unfold steps_left in Hb. rewrite Hpc in Hb.
  assert (forall a, spends i (i =? j)%Z s (answer s j a)) as Hans.
  { intros a. apply spends_answer; [done..|]. by intros ?%Z.eqb_eq. }
  assert (spends i (i =? j)%Z s (with_request s j (at_pc q Observe))) as Hretry.
  { apply spends_request; [done|done|by intros ?%Z.eqb_eq|].
    rewrite Hb. unfold steps_left. cbn. case_match; lia. }
  unfold decide_request, reserve_on_device, reserved_space_is_available_on_device in H.
  destruct (rq_goal q), (negb _); simplify_eq; try done.
  destruct (reserve_locked _ _ _ _ _) as [[st [r|]]|]; cbn in H; simplify_eq; apply Hans.
Qed.

Lemma spends_exec debug i a s s' :
  settled s -> exec debug a s = Some (Ok s') -> spends i (own i a) s s'.
Proof.
  intros Hs H. destruct a as [j d0 req mf|j id ad mf|j|j oc|id b|id]; cbn in H |- *.
  - by apply (spends_start i) in H.
  - destruct (live s !! id) as [r|]; [|done]. cbn in H.
    unfold reserved_space_is_available_async in H.
    destruct (flush_pending_release _ _ _) as [[st r']|] eqn:Ef; [|done].
    destruct (negb _); [|by apply (spends_start i) in H].
    destruct (unused _ j) eqn:Hu; simplify_eq. apply unused_true in Hu as [_ Ha].
    by apply (spends_answer i j false (set_live s st (<[id := r']> (live s)))).
  - destruct (requests s !! j) as [q|] eqn:Hq; [|done]. cbn in H.
    destruct (in_flight s j q Hs Hq) as [Ha Hb]. unfold steps_left in Hb.
    destruct (rq_pc q) eqn:Hpc; [|done|simplify_eq; by eapply spends_decide].
    simplify_eq. unfold observe_revision. destruct (rq_left q).
    + apply spends_answer; [done..|]. by intros ?%Z.eqb_eq.
    + apply spends_request; [done|done|by intros ?%Z.eqb_eq|].
      rewrite Hb. unfold steps_left. cbn. case_match; lia.
  - destruct (requests s !! j) as [q|] eqn:Hq; [|done]. cbn in H.
    destruct (in_flight s j q Hs Hq) as [Ha Hb]. unfold steps_left in Hb.
    destruct (rq_pc q) eqn:Hpc; simplify_eq. destruct (available_space oc).
    + apply spends_request; [done|done|by intros ?%Z.eqb_eq|].
      rewrite Hb. unfold steps_left. cbn. case_match; lia.
    + apply spends_answer; [done..|]. by intros ?%Z.eqb_eq.
  - destruct (live s !! id) as [r|]; [|done]. cbn in H.
    destruct (consume _ _ _ _) as [[st r']|]; simplify_eq. split; [done|].
    rewrite budget_set_live. lia.
  - destruct (live s !! id) as [r|]; [|done]. cbn in H.
    destruct (drop _ _ _) as [st|]; simplify_eq. split; [done|].
    rewrite budget_set_live. lia.
Qed.

Lemma spends_run debug i acts s s' :
  settled s -> run debug acts s = Some s' ->
  (length (filter (fun a => own i a = true) acts) + budget s' i <= budget s i)%nat.
Proof.
  revert s. induction acts as [|a acts IH]; intros s Hs H; cbn in H; [by simplify_eq|].
  destruct (exec debug a s) as [[s1|]|] eqn:E; [|done..].
  destruct (spends_exec debug i a s s1 Hs E) as [Hs1 Hb].
  specialize (IH s1 Hs1 H). rewrite filter_cons.
  destruct (own i a); cbn [length] in *; case_decide; cbn [length]; [lia|done|done|lia].
Qed.

(** A request ends: in a run from the start, however its steps interleave with
    those of other requests and of reservations, a call takes at most 25 steps of
    its own (eight rounds of three and the answer), and while it is in flight one
    of its steps is possible. *)
Lemma request_ends debug acts s i :
  run debug acts init = Some s ->
  (length (filter (fun a => own i a = true) acts) <= 25)%nat /\
  forall q, requests s !! i = Some q ->
    (exists o, exec debug (Advance i) s = Some o) \/
    (forall outcome, exists o, exec debug (Probed i outcome) s = Some o).
Proof.
  intros H. split.
  - pose proof (spends_run debug i acts init s ltac:(by intros ?? Ha; cbn in Ha; rewrite lookup_empty in Ha) H) as Hb.
    change (budget init i) with 25%nat in Hb. lia.
  - intros q Hq. destruct (rq_pc q) eqn:Hpc.
    + left. cbn. rewrite Hq. cbn. rewrite Hpc. eauto.
    + right. intros oc. cbn. rewrite Hq. cbn. rewrite Hpc. eauto.
    + left. cbn. rewrite Hq. cbn. rewrite Hpc. eauto.
Qed.

Lemma request_ends_witness :
  (length (filter (fun a => own 2 a = true) two_uploads) <= 25)%nat /\
  forall q, requests before_grant !! 2%Z = Some q ->
    (exists o, exec false (Advance 2) before_grant = Some o) \/
    (forall outcome, exists o, exec false (Probed 2 outcome) before_grant = Some o).
Proof. apply (request_ends false two_uploads before_grant 2). vm_compute. reflexivity. Defined.

(** ** Allocation overhead *)

Lemma round_up_spec v u :
  is_u64 v -> is_u64 u -> (0 < u)%Z ->
  match round_up v u with
  | Some z => (v <= z < v + u /\ z mod u = 0)%Z
  | None => (U64_MAX < v + u - 1)%Z
  end.
Proof.
  unfold is_u64, round_up. intros Hv Hu Hpos. destruct (Z.eqb_spec v 0) as [->|Hz].
  { split; [lia|]. by rewrite Z.mod_0_l by lia. }
  unfold u64_checked_sub, u64_checked_add. rewrite (proj2 (Z.leb_le _ _)) by lia. cbn.
  destruct (Z.leb_spec (v + (u - 1)) U64_MAX); cbn; [|lia].
  rewrite Z.mod_mul by lia.
  pose proof (Z.div_mod (v + (u - 1)) u ltac:(lia)).
  pose proof (Z.mod_pos_bound (v + (u - 1)) u ltac:(lia)). lia.
Qed.

(** What is reserved for an upload covers its allocation: both the contents and
    the metadata rounded up to whole file-system fragments, at most one fragment
    above each; the computation never wraps, and it fails only when the rounded
    sum could leave 64 bits. *)
Lemma allocated_bytes_cover f_frsize logical metadata :
  is_u64 f_frsize -> is_u64 logical -> is_u64 metadata ->
  match allocated_reservation_bytes f_frsize logical metadata with
  | Ok b => is_u64 b /\ (logical + metadata <= b < logical + metadata + 2 * Z.max f_frsize 1)%Z /\
            (b mod Z.max f_frsize 1 = 0)%Z
  | Err _ => (U64_MAX < logical + metadata + 2 * (Z.max f_frsize 1 - 1))%Z
  end.
Proof.
  intros Hf Hl Hm. unfold allocated_reservation_bytes, allocation_budget.
  assert (is_u64 (Z.max f_frsize 1)) as Hu by (unfold is_u64, U64_MAX in *; lia).
  pose proof (round_up_spec logical _ Hl Hu ltac:(lia)) as Ha.
  pose proof (round_up_spec metadata _ Hm Hu ltac:(lia)) as Hb.
  unfold is_u64 in *. destruct (round_up logical _) as [a|]; cbn; [|lia].
  destruct (round_up metadata _) as [b|]; cbn; [|lia].
  unfold u64_checked_add. destruct (Z.leb_spec (a + b) U64_MAX); cbn; [|lia].
  split; [lia|]. split; [lia|]. rewrite Z.add_mod by lia. destruct Ha as [_ ->], Hb as [_ ->].
  apply Z.mod_0_l. lia.
Qed.

Lemma allocated_bytes_cover_witness :
  match allocated_reservation_bytes 4096 10000 300 with
  | Ok b => is_u64 b /\ (10000 + 300 <= b < 10000 + 300 + 2 * Z.max 4096 1)%Z /\
            (b mod Z.max 4096 1 = 0)%Z
  | Err _ => (U64_MAX < 10000 + 300 + 2 * (Z.max 4096 1 - 1))%Z
  end.
Proof. apply (allocated_bytes_cover 4096 10000 300); vm_compute; split; discriminate. Defined.
End DiskSpace.
