(* ===== verification/ListSort.v ===== *)
(** * The interruptible stable sort of directory listings

    [stable_sort_by_interruptible] and [compare_path_items] of
    [src/server/listing.rs]: a bottom-up merge sort of indices that polls for
    cancellation every 256 units of work, inverts the resulting permutation and
    applies it to the items in place, cycle by cycle.

    Positions are natural numbers: a Rust slice has at most [isize::MAX]
    elements, so the saturating additions and doublings of the code, all of them
    cut off at the length, never differ from the exact ones.  Indexing out of
    range is the value [Panicked], and loops carry fuel; both are shown not to
    occur. *)

From S2P Require Import Prelude.

Module ListSort.

Inductive InterruptibleSortFailure : Type := Interrupted | Allocation.

(** How a run ends without a result. *)
Inductive Stop : Type :=
| Failed (f : InterruptibleSortFailure)
| Panicked
| OutOfFuel.

Definition INTERRUPT_CHECK_INTERVAL : nat := 256.

(** [work_since_check], and how often [active] has been called. *)
Record Ticks : Type := { work_since_check : nat; polls : nat }.

Definition get {A} (l : list A) (i : nat) : result Stop A := ok_or (l !! i) Panicked.

(** [l\[i\] = x] and [l.swap(i, j)] *)
Definition set {A} (l : list A) (i : nat) (x : A) : result Stop (list A) :=
  _ ← get l i; Ok (<[i := x]> l).
Definition swap {A} (l : list A) (i j : nat) : result Stop (list A) :=
  x ← get l i; y ← get l j; Ok (<[i := y]> (<[j := x]> l)).

Section sort.
Context {T : Type} (compare : T -> T -> comparison) (active : nat -> bool).

Definition poll (st : Ticks) : result Stop Ticks :=
  if active (polls st) then
    Ok {| work_since_check := work_since_check st; polls := S (polls st) |}
  else Err (Failed Interrupted).

(** One unit of work. *)
Definition tick (st : Ticks) : result Stop Ticks :=
  let work := S (work_since_check st) in
  if (INTERRUPT_CHECK_INTERVAL <=? work)%nat then
    st ← poll st; Ok {| work_since_check := 0; polls := polls st |}
  else Ok {| work_since_check := work; polls := polls st |}.

(** [for index in 0..len], from [index] on. *)
Fixpoint fill (n index : nat) (current : list nat) (st : Ticks) : result Stop (list nat * Ticks) :=
  match n with
  | O => Ok (current, st)
  | S n => st ← tick st; fill n (S index) (current ++ [index]) st
  end.

(** [take_left], with the short-circuits of the code. *)
Definition take_left (values : list T) (current : list nat) (left middle right stop : nat)
    : result Stop bool :=
  if (right =? stop)%nat then Ok true
  else if (left <? middle)%nat then
    i ← get current left; x ← get values i;
    j ← get current right; y ← get values j;
    Ok (bool_decide (compare x y <> Gt))
  else Ok false.

(** [while left < middle || right < end] *)
Fixpoint merge_runs (fuel : nat) (values : list T) (current : list nat)
    (left middle right stop : nat) (next : list nat) (st : Ticks) : result Stop (list nat * Ticks) :=
  if ((left <? middle)%nat || (right <? stop)%nat) then
    match fuel with
    | O => Err OutOfFuel
    | S fuel =>
        st ← tick st;
        b ← take_left values current left middle right stop;
        if b : bool then
          i ← get current left;
          merge_runs fuel values current (S left) middle right stop (next ++ [i]) st
        else
          j ← get current right;
          merge_runs fuel values current left middle (S right) stop (next ++ [j]) st
    end
  else Ok (next, st).

(** [while start < len] *)
Fixpoint merge_pass (fuel : nat) (values : list T) (current : list nat) (width start : nat)
    (next : list nat) (st : Ticks) : result Stop (list nat * Ticks) :=
  let len := length values in
  if (start <? len)%nat then
    match fuel with
    | O => Err OutOfFuel
    | S fuel =>
        let middle := Nat.min (start + width) len in
        let stop := Nat.min (start + width * 2) len in
        '(next, st) ← merge_runs len values current start middle middle stop next st;
        merge_pass fuel values current width stop next st
    end
  else Ok (next, st).

(** [while width < len] *)
Fixpoint merge_passes (fuel : nat) (values : list T) (current : list nat) (width : nat) (st : Ticks)
    : result Stop (list nat * Ticks) :=
  if (width <? length values)%nat then
    match fuel with
    | O => Err OutOfFuel
    | S fuel =>
        '(next, st) ← merge_pass (length values) values current width 0 [] st;
        merge_passes fuel values next (width * 2) st
    end
  else Ok (current, st).

(** [for (new_position, &old_position) in current.iter().enumerate()] *)
Fixpoint invert (current : list nat) (new_position : nat) (next : list nat) (st : Ticks)
    : result Stop (list nat * Ticks) :=
  match current with
  | [] => Ok (next, st)
  | old_position :: current =>
      st ← tick st;
      next ← set next old_position new_position;
      invert current (S new_position) next st
  end.

(** [while next\[position\] != position]; the items are changed in place, so
    they are returned whatever happens. *)
Fixpoint rotate (fuel : nat) (values : list T) (next : list nat) (position : nat) (st : Ticks)
    : list T * result Stop (list nat * Ticks) :=
  match get next position with
  | Err e => (values, Err e)
  | Ok destination =>
      if (destination =? position)%nat then (values, Ok (next, st))
      else
        match fuel with
        | O => (values, Err OutOfFuel)
        | S fuel =>
            match tick st with
            | Err e => (values, Err e)
            | Ok st =>
                match swap values position destination with
                | Err e => (values, Err e)
                | Ok values =>
                    match swap next position destination with
                    | Err e => (values, Err e)
                    | Ok next => rotate fuel values next position st
                    end
                end
            end
        end
  end.

(** [for position in 0..len], from [position] on. *)
Fixpoint apply_cycles (n : nat) (values : list T) (next : list nat) (position : nat) (st : Ticks)
    : list T * result Stop Ticks :=
  match n with
  | O => (values, Ok st)
  | S n =>
      match rotate (length values) values next position st with
      | (values, Ok (next, st)) => apply_cycles n values next (S position) st
      | (values, Err e) => (values, Err e)
      end
  end.

(** The phases that leave the items alone: the inverse of the sorting
    permutation. *)
Definition destinations (reserve_current reserve_next : bool) (values : list T) (st : Ticks)
    : result Stop (list nat * Ticks) :=
  let len := length values in
  _ ← ensure reserve_current (Failed Allocation);
  '(current, st) ← fill len 0 [] st;
  _ ← ensure reserve_next (Failed Allocation);
  '(current, st) ← merge_passes len values current 1 st;
  invert current 0 (replicate len 0) st.

(** [reserve_current] and [reserve_next]: whether the two allocations succeed. *)
Definition stable_sort_by_interruptible (reserve_current reserve_next : bool) (values : list T)
    : list T * result Stop unit :=
  match poll {| work_since_check := 0; polls := 0 |} with
  | Err e => (values, Err e)
  | Ok st =>
      if (length values <? 2)%nat then (values, Ok tt)
      else
        match destinations reserve_current reserve_next values st with
        | Err e => (values, Err e)
        | Ok (next, st) =>
            match apply_cycles (length values) values next 0 st with
            | (values, Err e) => (values, Err e)
            | (values, Ok st) => (values, _ ← poll st; Ok tt)
            end
        end
  end.
End sort.

(** ** Runs that may be interrupted *)

(** The three-way comparison of a total preorder: what [Ordering]-returning
    closures have to satisfy. *)
Class PreorderCmp {T} (compare : T -> T -> comparison) : Prop := {
  pre_opp : forall a b, compare b a = CompOpp (compare a b);
  pre_trans : forall a b c, compare a b <> Gt -> compare b c <> Gt -> compare a c <> Gt }.

Section proofs.
Context {T : Type} (compare : T -> T -> comparison) (active : nat -> bool).

(** The run ends with a result satisfying [P], or was interrupted because a
    poll said so; it neither panics nor runs out of fuel. *)
Definition ends {A} (P : A -> Prop) (r : result Stop A) : Prop :=
  match r with
  | Ok a => P a
  | Err e => e = Failed Interrupted /\ exists n, active n = false
  end.

Lemma ends_bind {A B} (Q : A -> Prop) (P : B -> Prop) m (f : A -> result Stop B) :
  ends Q m -> (forall a, Q a -> ends P (f a)) -> ends P (m ≫= f).
Proof. destruct m; cbn; auto. Qed.

Lemma ends_mono {A} (Q P : A -> Prop) r : ends Q r -> (forall a, Q a -> P a) -> ends P r.
Proof. destruct r; cbn; auto. Qed.

Lemma get_ends {A} (P : A -> Prop) l i x : l !! i = Some x -> P x -> ends P (get l i).
Proof. unfold get. by intros ->. Qed.

Lemma poll_ends st : ends (fun _ => True) (poll active st).
Proof. unfold poll. destruct (active (polls st)) eqn:E; cbn; eauto. Qed.

Lemma tick_ends st : ends (fun _ => True) (tick active st).
Proof.
  unfold tick. case_match; [|done]. eapply ends_bind; [apply poll_ends|done].
Qed.

Lemma fill_ends n index current st :
  ends (fun r => r.1 = current ++ seq index n) (fill active n index current st).
Proof.
  revert index current st. induction n as [|n IH]; intros index current st; cbn.
  - by rewrite app_nil_r.
  - eapply ends_bind; [apply tick_ends|]. intros st' _.
    eapply ends_mono; [apply IH|]. intros [out st2] ->. by rewrite <- app_assoc.
Qed.

(** ** Merging *)

Context (values : list T).

(** The order the sort produces: by [compare], and by original position where
    that says equal. *)
Definition before (i j : nat) : Prop :=
  exists x y, values !! i = Some x /\ values !! j = Some y /\
              (compare x y = Lt \/ (compare x y = Eq /\ (i < j)%nat)).

Context `{!PreorderCmp compare}.

(** Taking the left item first when it is not greater. *)
Definition at_most (i j : nat) : Prop :=
  match values !! i, values !! j with Some x, Some y => compare x y <> Gt | _, _ => True end.
#[local] Instance at_most_dec i j : Decision (at_most i j).
Proof. unfold at_most. repeat case_match; apply _. Defined.

Lemma before_at_most i j : before i j -> at_most i j.
Proof. intros (x & y & Hx & Hy & [E|[E _]]); unfold at_most; by rewrite Hx, Hy, E. Qed.

Lemma before_trans i j k : before i j -> before j k -> before i k.
Proof.
  intros (x & y & Hx & Hy & Hxy) (y' & z & Hy' & Hz & Hyz). simplify_eq.
  exists x, z. split_and!; [done..|].
  assert (compare x y <> Gt) as Lxy by (by destruct Hxy as [->|[-> _]]).
  assert (compare y z <> Gt) as Lyz by (by destruct Hyz as [->|[-> _]]).
  pose proof (pre_trans x y z Lxy Lyz) as Hle.
  destruct (compare x z) eqn:E; [|by left|done].
  (* [x] and [z] tie, so both comparisons with [y] are ties *)
  assert (compare z x <> Gt) as Hzx by (by rewrite (pre_opp x z), E).
  pose proof (pre_trans y z x Lyz Hzx) as Hyx.
  pose proof (pre_trans z x y Hzx Lxy) as Hzy.
  rewrite (pre_opp x y) in Hyx. rewrite (pre_opp y z) in Hzy.
  right. split; [done|].
  destruct Hxy as [Hxy|[_ ?]]; [by rewrite Hxy in Hyx|].
  destruct Hyz as [Hyz|[_ ?]]; [by rewrite Hyz in Hzy|]. lia.
Qed.

Lemma before_decided i j :
  is_Some (values !! i) -> is_Some (values !! j) -> (i < j)%nat ->
  if decide (at_most i j) then before i j else before j i.
Proof.
  intros [x Hx] [y Hy] Hlt. unfold before. destruct (decide (at_most i j)) as [Hc|Hc];
    unfold at_most in Hc; rewrite Hx, Hy in Hc.
  - exists x, y. split_and!; [done..|]. destruct (compare x y); naive_solver.
  - exists y, x. split_and!; [done..|]. left. rewrite (pre_opp x y).
    destruct (compare x y); naive_solver.
Qed.

(** A list of positions is one sorted run. *)
Definition sorted_run (l : list nat) : Prop := StronglySorted before l.

Lemma run_head_before x l y : before y x -> sorted_run (x :: l) -> Forall (before y) (x :: l).
Proof.
  intros Hyx [_ HF]%StronglySorted_inv. constructor; [done|].
  eapply Forall_impl; [exact HF|]. intros z. by apply before_trans.
Qed.

(** Merging two runs, the left one from earlier positions, gives a run. *)
Lemma merge_sorted l1 l2 :
  sorted_run l1 -> sorted_run l2 ->
  Forall (fun i => is_Some (values !! i)) l1 -> Forall (fun i => is_Some (values !! i)) l2 ->
  (forall x y, x ∈ l1 -> y ∈ l2 -> (x < y)%nat) ->
  sorted_run (list_merge at_most l1 l2).
Proof.
  intros S1. revert l2. induction l1 as [|x l1 IH1]; intros l2 S2 V1 V2 Hlt.
  { by rewrite list_merge_nil_l. }
  induction l2 as [|y l2 IH2]; [by rewrite list_merge_nil_r|].
  rewrite list_merge_cons. pose proof S1 as [S1' F1]%StronglySorted_inv.
  pose proof S2 as [S2' F2]%StronglySorted_inv.
  inversion V1 as [|? ? Vx V1']; subst. inversion V2 as [|? ? Vy V2']; subst.
  pose proof (before_decided x y Vx Vy ltac:(apply Hlt; left)) as Hd.
  destruct (decide (at_most x y)); constructor.
  - apply IH1; [done..|]. intros ????. apply Hlt; [by right|done].
  - rewrite merge_Permutation, Forall_app. split; [done|]. by apply run_head_before.
  - apply IH2; [done..|]. intros ????. apply Hlt; [done|by right].
  - rewrite merge_Permutation, Forall_app. split; [by apply run_head_before|done].
Qed.

(** [l] is what the code has still to read of [current] from position [i] on. *)
Definition remaining (current : list nat) (i : nat) (l : list nat) : Prop :=
  forall k, (k < length l)%nat -> current !! (i + k)%nat = l !! k.

Lemma remaining_head current i x l : remaining current i (x :: l) -> current !! i = Some x.
Proof. intros H. specialize (H 0%nat). cbn in H. rewrite Nat.add_0_r in H. apply H. lia. Qed.

Lemma remaining_tail current i x l : remaining current i (x :: l) -> remaining current (S i) l.
Proof.
  intros H k Hk. specialize (H (S k)). cbn [length] in H.
  rewrite Nat.add_succ_l, <- Nat.add_succ_r. apply H. lia.
Qed.

Lemma take_left_ok current left middle right stop l1 l2 :
  remaining current left l1 -> (left + length l1 = middle)%nat ->
  remaining current right l2 -> (right + length l2 = stop)%nat ->
  Forall (fun i => is_Some (values !! i)) l1 -> Forall (fun i => is_Some (values !! i)) l2 ->
  take_left compare values current left middle right stop =
  Ok match l1, l2 with
     | x :: _, y :: _ => bool_decide (at_most x y)
     | _, [] => true
     | [], _ => false
     end.
Proof.
  intros R1 E1 R2 E2 V1 V2. unfold take_left.
  destruct l2 as [|y l2]; cbn [length] in *.
  { rewrite (proj2 (Nat.eqb_eq right stop)) by lia. by destruct l1. }
  rewrite (proj2 (Nat.eqb_neq right stop)) by lia.
  destruct l1 as [|x l1]; cbn [length] in *.
  { by rewrite (proj2 (Nat.ltb_ge left middle)) by lia. }
  rewrite (proj2 (Nat.ltb_lt left middle)) by lia.
  inversion V1 as [|? ? [vx Vx] _]; subst. inversion V2 as [|? ? [vy Vy] _]; subst.
  unfold get. rewrite (remaining_head _ _ _ _ R1), (remaining_head _ _ _ _ R2).
  cbn [ok_or mbind result_bind]. rewrite Vx, Vy. cbn [ok_or mbind result_bind]. f_equal.
  apply bool_decide_ext. unfold at_most. by rewrite Vx, Vy.
Qed.

(** The merge loop computes the list merge of what is left of both runs. *)
Lemma merge_runs_ends current middle stop fuel : forall left right l1 l2 next st,
  remaining current left l1 -> (left + length l1 = middle)%nat ->
  remaining current right l2 -> (right + length l2 = stop)%nat ->
  (length l1 + length l2 <= fuel)%nat ->
  Forall (fun i => is_Some (values !! i)) l1 -> Forall (fun i => is_Some (values !! i)) l2 ->
  ends (fun r => r.1 = next ++ list_merge at_most l1 l2)
    (merge_runs compare active fuel values current left middle right stop next st).
Proof.
  induction fuel as [|fuel IH]; intros left right l1 l2 next st R1 E1 R2 E2 Hf V1 V2; cbn [merge_runs].
  all: assert ((left <? middle) || (right <? stop) = match l1, l2 with [], [] => false | _, _ => true end)%nat
    as -> by (destruct l1, l2; cbn [length] in *;
      destruct (Nat.ltb_spec left middle), (Nat.ltb_spec right stop); try lia; done).
  { destruct l1, l2; cbn in Hf; try lia. cbn. by rewrite app_nil_r. }
  destruct (decide (l1 = [] /\ l2 = [])) as [[-> ->]|Hne]; [cbn; by rewrite app_nil_r|].
  replace (match l1, l2 with [], [] => false | _, _ => true end) with true by (destruct l1, l2; naive_solver).
  eapply ends_bind; [apply tick_ends|]. intros st' _.
  rewrite (take_left_ok current left middle right stop l1 l2) by done. cbn [mbind result_bind].
  assert (forall x l, l1 = x :: l -> list_merge at_most l1 l2 = x :: list_merge at_most l l2 ->
    ends (fun r => r.1 = next ++ list_merge at_most l1 l2)
      (i ← get current left;
       merge_runs compare active fuel values current (S left) middle right stop (next ++ [i]) st')) as Hl.
  { intros x l -> Hm. unfold get. rewrite (remaining_head _ _ _ _ R1). cbn [ok_or mbind result_bind length] in *.
    eapply ends_mono; [apply (IH (S left) right l l2); eauto using remaining_tail; try lia; by inversion V1|].
    intros r ->. by rewrite Hm, <- app_assoc. }
  assert (forall y l, l2 = y :: l -> list_merge at_most l1 l2 = y :: list_merge at_most l1 l ->
    ends (fun r => r.1 = next ++ list_merge at_most l1 l2)
      (j ← get current right;
       merge_runs compare active fuel values current left middle (S right) stop (next ++ [j]) st')) as Hr.
  { intros y l -> Hm. unfold get. rewrite (remaining_head _ _ _ _ R2). cbn [ok_or mbind result_bind length] in *.
    eapply ends_mono; [apply (IH left (S right) l1 l); eauto using remaining_tail; try lia; by inversion V2|].
    intros r ->. by rewrite Hm, <- app_assoc. }
  destruct l1 as [|x l1], l2 as [|y l2].
  { by destruct Hne. }
  { apply (Hr y l2); by rewrite ?list_merge_nil_l. }
  { apply (Hl x l1); by rewrite ?list_merge_nil_r. }
  rewrite list_merge_cons in Hl, Hr |- *.
  case_bool_decide as Hd; [apply (Hl x l1)|apply (Hr y l2)]; try done; by case_decide.
Qed.

(** ** Passes *)

(** Consecutive sorted runs of [w] positions, the last one possibly shorter, the
    first starting at position [s]; each holds exactly the positions it spans. *)
Inductive runs (w : nat) : nat -> list nat -> Prop :=
| runs_nil s : runs w s []
| runs_app s l rest :
    (0 < length l <= w)%nat -> (rest <> [] -> length l = w) ->
    l ≡ₚ seq s (length l) -> sorted_run l -> runs w (s + length l) rest -> runs w s (l ++ rest).

Lemma runs_range w s l : runs w s l -> Forall (fun i => s <= i < s + length l)%nat l.
Proof.
  induction 1 as [|s l rest Hl _ Hp _ _ IH]; [constructor|].
  rewrite length_app, Forall_app. split.
  - rewrite Hp. apply Forall_forall. intros i Hi%elem_of_seq. lia.
  - eapply Forall_impl; [exact IH|]. cbn. lia.
Qed.

Lemma runs_singletons s n : (s + n <= length values)%nat -> runs 1 s (seq s n).
Proof.
  revert s. induction n as [|n IH]; intros s Hs; [constructor|].
  apply (runs_app 1 s [s]); cbn; try lia; try done.
  - by repeat constructor.
  - rewrite Nat.add_1_r. apply IH. lia.
Qed.

(** The first two runs of a list of runs, the second possibly empty. *)
Lemma runs_pair w s l :
  runs w s l -> l <> [] ->
  exists l1 l2 rest, l = l1 ++ l2 ++ rest /\ (0 < length l1 <= w)%nat /\ (length l2 <= w)%nat /\
    (l2 ++ rest <> [] -> length l1 = w) /\ (rest <> [] -> length l2 = w) /\
    l1 ≡ₚ seq s (length l1) /\ l2 ≡ₚ seq (s + length l1) (length l2) /\
    sorted_run l1 /\ sorted_run l2 /\ runs w (s + length l1 + length l2) rest.
Proof.
  intros H Hne. destruct H as [|s l1 r1 H1 F1 P1 S1 Hr]; [done|].
  remember (s + length l1)%nat as s2 eqn:Es. destruct Hr as [|s2 l2 r2 H2 F2 P2 S2 Hr].
  - exists l1, [], []. subst; split_and!; try done; try (cbn; lia); constructor.
  - exists l1, l2, r2. subst; split_and!; try done; try lia.
Qed.

Lemma range_some s n : (s + n <= length values)%nat ->
  forall l, l ≡ₚ seq s n -> Forall (fun i => is_Some (values !! i)) l.
Proof.
  intros Hs l ->. apply Forall_forall. intros i Hi%elem_of_seq. apply lookup_lt_is_Some. lia.
Qed.

(** Where the code cuts the two runs out of [current]. *)
Lemma pair_bounds w start len (l1 l2 rest : list nat) :
  (length l1 + length l2 + length rest = len - start)%nat -> (start <= len)%nat ->
  (length l1 <= w)%nat -> (length l2 <= w)%nat ->
  (l2 ++ rest <> [] -> length l1 = w) -> (rest <> [] -> length l2 = w) ->
  Nat.min (start + w) len = (start + length l1)%nat /\
  Nat.min (start + w * 2) len = (start + length l1 + length l2)%nat.
Proof.
  intros Htot Hs L1 L2 F1 F2. split.
  - destruct (decide (l2 ++ rest = [])) as [[-> ->]%app_nil|Hn]; [cbn in *; lia|].
    pose proof (F1 Hn). lia.
  - destruct (decide (rest = [])) as [->|Hn]; [cbn in *; lia|].
    pose proof (F2 Hn). pose proof (F1 ltac:(by destruct l2, rest)). lia.
Qed.

Lemma runs_merge w s l1 l2 (rest l : list nat) :
  (0 < length l1 <= w)%nat -> (length l2 <= w)%nat ->
  (l2 ++ rest <> [] -> length l1 = w) -> (rest <> [] -> length l2 = w) -> (rest = [] -> l = []) ->
  (s + length l1 + length l2 <= length values)%nat ->
  l1 ≡ₚ seq s (length l1) -> l2 ≡ₚ seq (s + length l1) (length l2) ->
  sorted_run l1 -> sorted_run l2 -> runs (w * 2) (s + length l1 + length l2) l ->
  runs (w * 2) s (list_merge at_most l1 l2 ++ l).
Proof.
  intros L1 L2 F1 F2 Hl Hlen P1 P2 S1 S2 Hr.
  assert (length (list_merge at_most l1 l2) = length l1 + length l2)%nat as Hm
    by (by rewrite merge_Permutation, length_app).
  apply runs_app; rewrite ?Hm.
  - lia.
  - intros Hn. assert (rest <> []) as Hrn by auto.
    pose proof (F2 Hrn). pose proof (F1 ltac:(by destruct l2, rest)). lia.
  - rewrite seq_app, merge_Permutation. by rewrite <- P1, <- P2.
  - apply merge_sorted; try done.
    + by apply (range_some s (length l1)); [lia|].
    + by apply (range_some (s + length l1) (length l2)); [lia|].
    + intros x y Hx Hy. rewrite P1 in Hx. rewrite P2 in Hy. apply elem_of_seq in Hx, Hy. lia.
  - by rewrite Nat.add_assoc.
Qed.

(** One pass doubles the width of the runs. *)
Lemma merge_pass_ends current w fuel : forall start next st,
  (0 < w)%nat -> length current = length values -> (start <= length values)%nat ->
  runs w start (drop start current) -> (length values - start <= fuel)%nat ->
  ends (fun r => exists l, r.1 = next ++ l /\ length l = (length values - start)%nat /\ runs (w * 2) start l)
    (merge_pass compare active fuel values current w start next st).
Proof.
  induction fuel as [|fuel IH]; intros start next st Hw Hlen Hs Hruns Hf; cbn [merge_pass].
  all: destruct (Nat.ltb_spec start (length values)) as [Hlt|Hge].
  1: lia.
  1,3: exists []; rewrite app_nil_r; split_and!; cbn; [done|lia|constructor].
  destruct (runs_pair _ _ _ Hruns) as (l1 & l2 & rest & Hd & L1 & L2 & F1 & F2 & P1 & P2 & S1 & S2 & Hrest).
  { intros E%(f_equal length). rewrite length_drop in E. cbn in E. lia. }
  assert (length l1 + length l2 + length rest = length values - start)%nat as Htot.
  { rewrite <- Hlen, <- length_drop, Hd, !length_app. lia. }
  destruct (pair_bounds w start (length values) l1 l2 rest) as [-> ->]; [done|done|lia|done..|].
  eapply ends_bind; [apply (merge_runs_ends current _ _ _ start _ l1 l2)|].
  - intros k Hk. rewrite <- lookup_drop, Hd. by apply lookup_app_l.
  - done.
  - intros k Hk. rewrite <- Nat.add_assoc, <- lookup_drop, Hd, lookup_app_r, Nat.add_comm, Nat.add_sub by lia.
    by apply lookup_app_l.
  - done.
  - lia.
  - apply (range_some start (length l1)); [lia|done].
  - apply (range_some (start + length l1) (length l2)); [lia|done].
  - intros [next' st'] Hn. cbn in Hn. subst next'.
    eapply ends_mono; [apply IH; try done; [lia| |lia]|].
    { rewrite <- !drop_drop, Hd, drop_app_length', drop_app_length' by done. done. }
    intros r (l & -> & Hl & Hr). exists (list_merge at_most l1 l2 ++ l). rewrite <- app_assoc.
    split_and!; [done|rewrite length_app, merge_Permutation, length_app; lia|].
    apply (runs_merge w start l1 l2 rest); try done; [|lia].
    intros ->. apply nil_length_inv. cbn in Htot. lia.
Qed.

Lemma runs_single w l : runs w 0 l -> (length l <= w)%nat -> l ≡ₚ seq 0 (length l) /\ sorted_run l.
Proof.
  intros H Hle. remember 0%nat as s eqn:Es. destruct H as [|s l rest Hl Hr Hp Hs _]; [split; constructor|].
  subst s. destruct rest as [|x rest]; [by rewrite app_nil_r|].
  rewrite length_app, Hr in Hle by done. cbn in Hle. lia.
Qed.

Lemma merge_passes_ends fuel : forall current w st,
  (0 < w)%nat -> length current = length values -> runs w 0 current ->
  (length values - w <= fuel)%nat ->
  ends (fun r => r.1 ≡ₚ seq 0 (length values) /\ sorted_run r.1)
    (merge_passes compare active fuel values current w st).
Proof.
  induction fuel as [|fuel IH]; intros current w st Hw Hlen Hr Hf; cbn [merge_passes].
  all: destruct (Nat.ltb_spec w (length values)) as [Hlt|Hge]; [|cbn; rewrite <- Hlen in Hge |- *; by apply (runs_single w)].
  1: lia.
  eapply ends_bind; [apply merge_pass_ends; try done; lia|].
  intros [next st'] (l & Hn & Hl & Hr'). cbn [fst app] in Hn. subst next.
  apply IH; [lia|lia|done|lia].
Qed.

(** ** Inverting the permutation *)

Lemma set_ends {A} (l : list A) i x : (i < length l)%nat -> ends (fun l' => l' = <[i := x]> l) (set l i x).
Proof.
  intros Hi. unfold set. eapply ends_bind; [|done].
  destruct (lookup_lt_is_Some_2 l i Hi) as [y Hy]. by eapply (get_ends (fun _ => True)).
Qed.

Lemma invert_ends current : forall n next st,
  NoDup current -> Forall (fun i => i < length next)%nat current ->
  ends (fun r => length r.1 = length next /\
          (forall k i, current !! k = Some i -> r.1 !! i = Some (n + k)%nat) /\
          (forall i, i ∉ current -> r.1 !! i = next !! i))
    (invert active current n next st).
Proof.
  induction current as [|i current IH]; intros n next st Hd Hb; cbn [invert].
  { by split_and!. }
  apply NoDup_cons in Hd as [Hi Hd]. inversion Hb as [|? ? Hin Hb']; subst.
  eapply ends_bind; [apply tick_ends|]. intros st' _.
  eapply ends_bind; [by apply set_ends|]. intros ? ->.
  eapply ends_mono; [apply IH; [done|by rewrite length_insert]|].
  intros [out st2] (Hlen & Hout & Hkeep). cbn [fst] in *. rewrite length_insert in Hlen.
  split_and!; [done| |].
  - intros [|k] j Hj; cbn in Hj.
    + simplify_eq. rewrite Hkeep, list_lookup_insert_eq by done. f_equal. lia.
    + rewrite (Hout k j Hj). f_equal. lia.
  - intros j Hj. apply not_elem_of_cons in Hj as [Hne Hj].
    by rewrite (Hkeep j Hj), list_lookup_insert_ne.
Qed.

(** ** Applying the permutation in place *)

Section cycles.
Context {A : Type}.
Implicit Types l : list A.

Lemma swap_Ok l i j x y :
  l !! i = Some x -> l !! j = Some y -> swap l i j = Ok (<[i := y]> (<[j := x]> l)).
Proof. intros Hi Hj. unfold swap, get. by rewrite Hi, Hj. Qed.

Lemma lookup_swap l i j x y k :
  l !! i = Some x -> l !! j = Some y ->
  (<[i := y]> (<[j := x]> l)) !! k =
  if decide (k = i) then Some y else if decide (k = j) then Some x else l !! k.
Proof.
  intros Hi Hj. repeat case_decide; subst.
  - rewrite list_lookup_insert_eq; [done|]. rewrite length_insert. by eapply lookup_lt_Some.
  - rewrite list_lookup_insert_ne, list_lookup_insert_eq by (done || by eapply lookup_lt_Some). done.
  - by rewrite !list_lookup_insert_ne by done.
Qed.

Lemma swap_Permutation l i j x y :
  l !! i = Some x -> l !! j = Some y -> <[i := y]> (<[j := x]> l) ≡ₚ l.
Proof.
  intros Hi Hj. apply Permutation_inj. rewrite !length_insert. split; [done|].
  exists (fun k => if decide (k = i) then j else if decide (k = j) then i else k). split.
  - intros a b H. repeat case_decide; congruence.
  - intros k. rewrite (lookup_swap l i j x y k Hi Hj). repeat case_decide; congruence.
Qed.
End cycles.

(** [v] holds the items on their way, [n] where each of them has to go. *)
Record placing (goal v : list T) (n : list nat) : Prop := {
  placing_items : length v = length goal;
  placing_length : length n = length goal;
  placing_distinct : NoDup n;
  placing_range : forall i d, n !! i = Some d -> (d < length goal)%nat;
  placing_goal : forall i d x, n !! i = Some d -> v !! i = Some x -> goal !! d = Some x }.

Lemma placing_swap goal v n p d x y e :
  placing goal v n -> n !! p = Some d -> n !! d = Some e -> v !! p = Some x -> v !! d = Some y ->
  placing goal (<[p := y]> (<[d := x]> v)) (<[p := e]> (<[d := d]> n)).
Proof.
  intros [Hv Hn Hd Hr Hg] Hp He Hx Hy. split.
  - by rewrite !length_insert.
  - by rewrite !length_insert.
  - by rewrite (swap_Permutation n p d d e).
  - intros i k. rewrite (lookup_swap n p d d e) by done. repeat case_decide; intros; simplify_eq; eauto.
  - intros i k z. rewrite (lookup_swap n p d d e), (lookup_swap v p d x y) by done.
    repeat case_decide; intros; simplify_eq; eauto.
Qed.

(** The positions whose item is not yet in place. *)
Definition unplaced (n : list nat) : gset nat :=
  filter (fun i => n !! i <> Some i) (list_to_set (seq 0 (length n))).

Lemma elem_of_unplaced n i : i ∈ unplaced n <-> exists d, n !! i = Some d /\ d <> i.
Proof.
  unfold unplaced. rewrite elem_of_filter, elem_of_list_to_set, elem_of_seq. split.
  - intros [Hi Hlt]. destruct (lookup_lt_is_Some_2 n i) as [d Hd]; [lia|]. exists d. split; [done|congruence].
  - intros (d & Hd & Hne). split; [congruence|]. apply lookup_lt_Some in Hd. lia.
Qed.

Lemma unplaced_size n : (size (unplaced n) <= length n)%nat.
Proof.
  transitivity (size (list_to_set (C:=gset nat) (seq 0 (length n)))).
  - apply subseteq_size. set_solver.
  - rewrite size_list_to_set by apply NoDup_seq. by rewrite length_seq.
Qed.

Lemma unplaced_swap n p d e :
  NoDup n -> n !! p = Some d -> d <> p -> n !! d = Some e ->
  (size (unplaced (<[p := e]> (<[d := d]> n))) < size (unplaced n))%nat.
Proof.
  intros Hd Hp Hne He. apply subset_size. split.
  - intros i. rewrite !elem_of_unplaced. intros (k & Hk & Hki).
    rewrite (lookup_swap n p d d e) in Hk by done. repeat case_decide; subst; naive_solver.
  - intros Hsub. assert (d ∈ unplaced n) as Hin.
    { apply elem_of_unplaced. exists e. split; [done|]. intros ->.
      by assert (p = d) by (by eapply NoDup_lookup). }
    apply Hsub, elem_of_unplaced in Hin as (k & Hk & Hkd).
    rewrite (lookup_swap n p d d e) in Hk by done. repeat case_decide; naive_solver.
Qed.

(** What a phase that moves items guarantees: it loses none, and if it ends it
    is still on the way to the goal with the first positions in place. *)
Definition on_the_way {B} (v v' : list T) (P : B -> Prop) (r : result Stop B) : Prop :=
  v' ≡ₚ v /\ ends P r.

Definition placed_below (n : list nat) (k : nat) : Prop := forall q, (q < k)%nat -> n !! q = Some q.

Lemma rotate_ends goal p fuel : forall v n st,
  placing goal v n -> (p < length goal)%nat -> placed_below n p -> (size (unplaced n) <= fuel)%nat ->
  on_the_way v (rotate active fuel v n p st).1
    (fun r => placing goal (rotate active fuel v n p st).1 r.1 /\ placed_below r.1 (S p))
    (rotate active fuel v n p st).2.
Proof.
  induction fuel as [|fuel IH]; intros v n st HP Hp Hb Hf; cbn [rotate]; unfold get.
  all: pose proof HP as [Hv Hn Hd Hr Hg].
  all: destruct (lookup_lt_is_Some_2 n p) as [d Hpd]; [lia|]; rewrite Hpd; cbn [ok_or].
  all: destruct (Nat.eqb_spec d p) as [->|Hne].
  1,3: split; [done|]; cbn; split; [done|]; intros q Hq; destruct (decide (q = p)) as [->|]; [done|apply Hb; lia].
  { assert (p ∈ unplaced n) as Hin by (apply elem_of_unplaced; eauto).
    assert (size (unplaced n) = 0%nat) as Hz%size_empty_inv by lia. set_solver. }
  pose proof (tick_ends st) as Ht. destruct (tick active st) as [st'|e0]; [|by split].
  destruct (lookup_lt_is_Some_2 n d) as [e He]; [rewrite Hn; by eapply Hr|].
  destruct (lookup_lt_is_Some_2 v p) as [x Hx]; [lia|].
  destruct (lookup_lt_is_Some_2 v d) as [y Hy]; [rewrite Hv; by eapply Hr|].
  rewrite (swap_Ok v p d x y), (swap_Ok n p d d e) by done.
  destruct (IH (<[p:=y]> (<[d:=x]> v)) (<[p:=e]> (<[d:=d]> n)) st') as [IH1 IH2]; [| | | |split; [|done]].
  - by apply placing_swap.
  - done.
  - intros q Hq. rewrite (lookup_swap n p d d e) by done.
    destruct (decide (q = p)); [lia|]. destruct (decide (q = d)) as [->|]; [|by apply Hb].
    exfalso. apply Hne. eapply (NoDup_lookup n d p d); [done|by apply Hb|done].
  - pose proof (unplaced_swap n p d e Hd Hpd Hne He). lia.
  - by rewrite IH1, (swap_Permutation v p d x y).
Qed.

Lemma apply_cycles_ends goal k : forall v n p st,
  placing goal v n -> (p + k = length goal)%nat -> placed_below n p ->
  on_the_way v (apply_cycles active k v n p st).1
    (fun _ => (apply_cycles active k v n p st).1 = goal) (apply_cycles active k v n p st).2.
Proof.
  induction k as [|k IH]; intros v n p st HP Hp Hb; cbn [apply_cycles].
  - split; [done|]. cbn. destruct HP as [Hv Hn _ _ Hg]. apply list_eq_same_length with (length goal); [done|done|].
    intros i x y Hi Hx Hy. specialize (Hg i i x (Hb i ltac:(lia)) Hx). congruence.
  - destruct (rotate_ends goal p (length v) v n st) as [Hperm He]; [done|lia|done| |].
    { rewrite (placing_items _ _ _ HP), <- (placing_length _ _ _ HP). apply unplaced_size. }
    destruct (rotate active (length v) v n p st) as [v' [[n' st']|e]]; cbn [fst snd] in *; [|by split].
    destruct He as [HP' Hb']. destruct (IH v' n' (S p) st') as [IH1 IH2]; [done|lia|done|].
    split; [by rewrite IH1|done].
Qed.

(** ** The whole sort *)

(** [out] is the stable sort of [values]: the items at the positions of a
    rearrangement in which each precedes the next by [compare], or by original
    position when [compare] ties. *)
Definition stable_sort_of (out : list T) : Prop :=
  exists positions, positions ≡ₚ seq 0 (length values) /\ StronglySorted before positions /\
    Forall2 (fun i x => values !! i = Some x) positions out.

Definition gives_up (reserve_current reserve_next : bool) (e : Stop) : Prop :=
  (e = Failed Interrupted /\ exists n, active n = false) \/
  (e = Failed Allocation /\ reserve_current && reserve_next = false).

(** The inverse of a rearrangement sends every item where the rearrangement puts
    it. *)
Lemma placing_inverse positions next out :
  positions ≡ₚ seq 0 (length values) -> length next = length values ->
  (forall k i, positions !! k = Some i -> next !! i = Some k) ->
  Forall2 (fun i x => values !! i = Some x) positions out -> placing out values next.
Proof.
  intros Hp Hlen Hinv Hout. pose proof (Forall2_length _ _ _ Hout) as Hl.
  rewrite Hp, length_seq in Hl.
  assert (forall i d, next !! i = Some d -> positions !! d = Some i) as Hback.
  { intros i d Hi. assert (i ∈ positions) as [k Hk]%list_elem_of_lookup_1.
    { rewrite Hp. apply elem_of_seq. apply lookup_lt_Some in Hi. lia. }
    pose proof (Hinv k i Hk). by simplify_eq. }
  split; [lia|lia| | |].
  - apply NoDup_alt. intros i j d Hi%Hback Hj%Hback. by simplify_eq.
  - intros i d Hi%Hback%lookup_lt_Some. rewrite Hp, length_seq in Hi. lia.
  - intros i d x Hi%Hback Hx.
    destruct (Forall2_lookup_l _ _ _ _ _ Hout Hi) as (y & Hy & Hxy). congruence.
Qed.

Lemma items_at positions :
  positions ≡ₚ seq 0 (length values) -> exists out, Forall2 (fun i x => values !! i = Some x) positions out.
Proof.
  intros Hp. assert (Forall (fun i => is_Some (values !! i)) positions) as HF.
  { by apply (range_some 0 (length values)). }
  clear Hp. induction HF as [|i l [x Hx] _ [out Hout]]; [exists []; constructor|].
  exists (x :: out). by constructor.
Qed.

Lemma destinations_ends st :
  ends (fun r => exists out, stable_sort_of out /\ placing out values r.1)
    (destinations compare active true true values st).
Proof.
  unfold destinations. cbn [ensure mbind result_bind].
  eapply ends_bind; [apply fill_ends|]. intros [current st1] Hc. cbn [fst app] in Hc. subst current.
  eapply ends_bind; [apply merge_passes_ends; [lia|apply length_seq|by apply runs_singletons|lia]|].
  intros [current st2] [Hp Hs]. cbn [fst] in *. destruct (items_at _ Hp) as [out Hout].
  eapply ends_mono; [apply invert_ends|].
  - rewrite Hp. apply NoDup_seq.
  - rewrite length_replicate, Hp. apply Forall_forall. intros i Hi%elem_of_seq. lia.
  - intros [next st3] (Hlen & Hinv & _). cbn [fst] in *. exists out. split; [by exists current|].
    rewrite length_replicate in Hlen. by apply (placing_inverse current).
Qed.

Lemma destinations_gives_up rc rn st e :
  destinations compare active rc rn values st = Err e -> gives_up rc rn e.
Proof.
  destruct (rc && rn) eqn:Ea.
  - apply andb_true_iff in Ea as [-> ->]. intros H. pose proof (destinations_ends st) as He.
    rewrite H in He. by left.
  - unfold destinations. destruct rc; cbn [ensure mbind result_bind]; [|intros [= <-]; by right].
    pose proof (fill_ends (length values) 0 [] st) as Hfill.
    destruct (fill active (length values) 0 [] st) as [[current st1]|e1]; cbn [mbind result_bind].
    + destruct rn; [done|]. cbn. intros [= <-]. by right.
    + intros [= <-]. by left.
Qed.

Lemma stable_sort_short : (length values < 2)%nat -> stable_sort_of values.
Proof.
  intros Hlen. exists (seq 0 (length values)). split; [done|].
  destruct values as [|x [|y l]]; cbn in *; [split; constructor| |lia].
  split; repeat constructor.
Qed.

Lemma sort_ends rc rn :
  let '(out, r) := stable_sort_by_interruptible compare active rc rn values in
  out ≡ₚ values /\ match r with Ok _ => stable_sort_of out | Err e => gives_up rc rn e end.
Proof.
  unfold stable_sort_by_interruptible.
  pose proof (poll_ends {| work_since_check := 0; polls := 0 |}) as Hpoll.
  destruct (poll active _) as [st|e]; [|split; [done|by left]].
  destruct (Nat.ltb_spec (length values) 2); [split; [done|by apply stable_sort_short]|].
  destruct (destinations compare active rc rn values st) as [[next st1]|e] eqn:Ed;
    [|split; [done|by apply destinations_gives_up in Ed]].
  assert (rc = true /\ rn = true) as [-> ->].
  { unfold destinations in Ed. destruct rc; [|done]. cbn [ensure mbind result_bind] in Ed.
    destruct (fill _ _ _ _ _) as [[]|]; [|done]. cbn [ensure mbind result_bind] in Ed. by destruct rn. }
  pose proof (destinations_ends st) as He. rewrite Ed in He. destruct He as (goal & Hsort & HP).
  pose proof (apply_cycles_ends goal (length values) values next 0 st1 HP) as Hcy.
  destruct (apply_cycles active (length values) values next 0 st1) as [out r].
  destruct Hcy as [Hperm Hend]; [by rewrite (placing_items _ _ _ HP)|intros q Hq; lia|].
  destruct r as [st2|e]; cbn [fst snd] in *; [|split; [done|by left]].
  split; [done|]. pose proof (poll_ends st2) as Hp2. destruct (poll active st2); cbn in *; [by subst|by left].
Qed.
End proofs.

(** ** Listing entries *)

Inductive PathType : Type := Dir | SymlinkDir | File | SymlinkFile.

Record PathItem : Type := {
  path_type : PathType;
  sort_name : bytes;
  name : bytes;
  mtime : Z;
  size : Z;
  item_revision : bytes }.

(** [Ord for PathType]: directories before files. *)
Definition to_value (t : PathType) : Z := match t with Dir | SymlinkDir => 0 | _ => 1 end.
Definition path_type_cmp (a b : PathType) : comparison := (to_value a ?= to_value b)%Z.

Section comparisons.
(** [alphanumeric_sort::compare_str] *)
Context (compare_str : bytes -> bytes -> comparison).

Definition sort_by_name (a b : PathItem) : comparison :=
  match path_type_cmp (path_type a) (path_type b) with
  | Eq => then_cmp (compare_str (sort_name a) (sort_name b)) (bytes_cmp (name a) (name b))
  | value => value
  end.

Definition sort_by_mtime (a b : PathItem) : comparison :=
  match path_type_cmp (path_type a) (path_type b) with
  | Eq => then_cmp (mtime a ?= mtime b)%Z (sort_by_name a b)
  | value => value
  end.

Definition sort_by_size (a b : PathItem) : comparison :=
  match path_type_cmp (path_type a) (path_type b) with
  | Eq => then_cmp (size a ?= size b)%Z (sort_by_name a b)
  | value => value
  end.

Definition compare_path_items (sort order : bytes) (left right : PathItem) : comparison :=
  let ordering :=
    if bool_decide (sort = str "mtime") then sort_by_mtime left right
    else if bool_decide (sort = str "size") then sort_by_size left right
    else sort_by_name left right in
  if bool_decide (order = str "desc") then CompOpp ordering else ordering.

(** What the sort's closure reads each time it is asked whether to go on. *)
Record Signals : Type := { is_cancelled : bool; running : bool; in_time : bool }.

Definition sort_active (signals : nat -> Signals) (n : nat) : bool :=
  negb (is_cancelled (signals n)) && running (signals n) && in_time (signals n).

(** The problems of [ListingProblem] a sort reports; [SortCrashed] stands for a
    panic, or a loop that never ends. *)
Inductive SortProblem : Type :=
| DirectoryOperationTimeout | ServerStopping | DirectorySortLimit | SortCrashed.

(** [last]: the flags as they are when the interruption is reported. *)
Definition sort_path_items_interruptibly (sort order : bytes) (signals : nat -> Signals)
    (last : Signals) (reserve_current reserve_next : bool) (paths : list PathItem)
    : list PathItem * result SortProblem unit :=
  match stable_sort_by_interruptible (compare_path_items sort order) (sort_active signals)
          reserve_current reserve_next paths with
  | (paths, Ok _) => (paths, Ok tt)
  | (paths, Err (Failed Interrupted)) =>
      (paths, Err (if negb (is_cancelled last) && running last then DirectoryOperationTimeout
                   else ServerStopping))
  | (paths, Err (Failed Allocation)) => (paths, Err DirectorySortLimit)
  | (paths, Err _) => (paths, Err SortCrashed)
  end.
End comparisons.

(** ** Comparisons are preorders *)

#[global] Instance total_preorder {A} (cmp : A -> A -> comparison) `{!TotalCmp cmp} : PreorderCmp cmp.
Proof. split; [apply (cmp_opp cmp)|]. intros a b c. apply (cmp_le_trans cmp). Qed.

#[global] Instance preorder_on {A B} (f : A -> B) cmp `{!PreorderCmp cmp} :
  PreorderCmp (fun x y => cmp (f x) (f y)).
Proof. split; [intros; apply pre_opp|intros a b c; apply pre_trans]. Qed.

(** The rules of a three-way comparison along a chain. *)
Lemma pre_lt_le {A} (cmp : A -> A -> comparison) `{!PreorderCmp cmp} a b c :
  cmp a b = Lt -> cmp b c <> Gt -> cmp a c = Lt.
Proof.
  intros Hab Hbc. pose proof (pre_trans a b c ltac:(by rewrite Hab) Hbc).
  destruct (cmp a c) eqn:E; [|done|done]. exfalso.
  assert (cmp b a <> Gt) as Hba.
  { apply (pre_trans b c a); [done|]. by rewrite (pre_opp a c), E. }
  by rewrite (pre_opp a b), Hab in Hba.
Qed.

Lemma pre_le_lt {A} (cmp : A -> A -> comparison) `{!PreorderCmp cmp} a b c :
  cmp a b <> Gt -> cmp b c = Lt -> cmp a c = Lt.
Proof.
  intros Hab Hbc. pose proof (pre_trans a b c Hab ltac:(by rewrite Hbc)).
  destruct (cmp a c) eqn:E; [|done|done]. exfalso.
  assert (cmp c b <> Gt) as Hcb.
  { apply (pre_trans c a b); [|done]. by rewrite (pre_opp a c), E. }
  by rewrite (pre_opp b c), Hbc in Hcb.
Qed.

#[global] Instance preorder_then {A} (c d : A -> A -> comparison) `{!PreorderCmp c, !PreorderCmp d} :
  PreorderCmp (fun x y => then_cmp (c x y) (d x y)).
Proof.
  split; unfold then_cmp.
  - intros x y. rewrite (pre_opp x y), (pre_opp (compare:=d) x y). by destruct (c x y).
  - intros x y z. pose proof (pre_trans (compare:=c) x y z) as Hc.
    pose proof (pre_trans (compare:=d) x y z) as Hd.
    pose proof (pre_lt_le c x y z) as L. pose proof (pre_le_lt c x y z) as R.
    destruct (c x y), (c y z), (c x z); naive_solver.
Qed.

#[global] Instance preorder_opp {A} (c : A -> A -> comparison) `{!PreorderCmp c} :
  PreorderCmp (fun x y => CompOpp (c x y)).
Proof.
  split.
  - intros x y. by rewrite (pre_opp x y).
  - intros x y z. rewrite <- !(pre_opp (compare:=c)). intros Hyx Hzy. by apply (pre_trans z y x).
Qed.

Lemma preorder_ext {A} (c d : A -> A -> comparison) :
  (forall x y, c x y = d x y) -> PreorderCmp c -> PreorderCmp d.
Proof. intros E H. split; intros; rewrite <- !E in *; [apply pre_opp|by eapply pre_trans]. Qed.

Section lawful.
Context (compare_str : bytes -> bytes -> comparison) `{!PreorderCmp compare_str}.

(** Directories first, then the keys in turn. *)
Definition by_type (rest : PathItem -> PathItem -> comparison) (a b : PathItem) : comparison :=
  then_cmp (to_value (path_type a) ?= to_value (path_type b))%Z (rest a b).

Lemma by_type_preorder rest cmp :
  (forall a b, cmp a b = match path_type_cmp (path_type a) (path_type b) with
                         | Eq => rest a b | value => value end) ->
  PreorderCmp rest -> PreorderCmp cmp.
Proof.
  intros E H. apply (preorder_ext (by_type rest)).
  - intros a b. rewrite E. unfold by_type, path_type_cmp, then_cmp. by destruct (_ ?= _)%Z.
  - apply (preorder_then (fun a b => (to_value (path_type a) ?= to_value (path_type b))%Z) rest).
Qed.

Lemma sort_by_name_preorder : PreorderCmp (sort_by_name compare_str).
Proof.
  apply (by_type_preorder (fun a b => then_cmp (compare_str (sort_name a) (sort_name b)) (bytes_cmp (name a) (name b)))); [done|].
  apply (preorder_then (fun a b => compare_str (sort_name a) (sort_name b)) (fun a b => bytes_cmp (name a) (name b))).
Qed.

Lemma sort_by_mtime_preorder : PreorderCmp (sort_by_mtime compare_str).
Proof.
  pose proof sort_by_name_preorder.
  apply (by_type_preorder (fun a b => then_cmp (mtime a ?= mtime b)%Z (sort_by_name compare_str a b))); [done|].
  apply (preorder_then (fun a b => (mtime a ?= mtime b)%Z) (sort_by_name compare_str)).
Qed.

Lemma sort_by_size_preorder : PreorderCmp (sort_by_size compare_str).
Proof.
  pose proof sort_by_name_preorder.
  apply (by_type_preorder (fun a b => then_cmp (size a ?= size b)%Z (sort_by_name compare_str a b))); [done|].
  apply (preorder_then (fun a b => (size a ?= size b)%Z) (sort_by_name compare_str)).
Qed.

#[export] Instance compare_path_items_preorder sort order :
  PreorderCmp (compare_path_items compare_str sort order).
Proof.
  set (ordering := fun l r =>
    if bool_decide (sort = str "mtime") then sort_by_mtime compare_str l r
    else if bool_decide (sort = str "size") then sort_by_size compare_str l r
    else sort_by_name compare_str l r).
  assert (PreorderCmp ordering) as Hord.
  { unfold ordering. repeat case_bool_decide; eapply preorder_ext; try done;
      eauto using sort_by_name_preorder, sort_by_mtime_preorder, sort_by_size_preorder. }
  unfold compare_path_items. change (PreorderCmp (fun l r =>
    if bool_decide (order = str "desc") then CompOpp (ordering l r) else ordering l r)).
  destruct (bool_decide (order = str "desc")); [apply _|done].
Qed.
End lawful.

(** ** Theorems *)

(** C36. A directory listing is sorted as asked: whatever the sort key and order,
    provided the natural-order comparison of names is a total preorder, a sort that
    succeeds orders the entries by [compare_path_items], stably and without losing
    any; it reports a timeout only if a poll found the sort inactive although the
    server still runs, and an allocation problem only if an allocation failed. *)
Theorem listing_sorted compare_str sort order signals last rc rn paths :
  PreorderCmp compare_str ->
  let '(out, r) := sort_path_items_interruptibly compare_str sort order signals last rc rn paths in
  out ≡ₚ paths /\
  match r with
  | Ok _ => stable_sort_of (compare_path_items compare_str sort order) paths out
  | Err DirectoryOperationTimeout =>
      (exists n, sort_active signals n = false) /\ is_cancelled last = false /\ running last = true
  | Err ServerStopping =>
      (exists n, sort_active signals n = false) /\ (is_cancelled last = true \/ running last = false)
  | Err DirectorySortLimit => rc && rn = false
  | Err SortCrashed => False
  end.
Proof.
  intros Hc. unfold sort_path_items_interruptibly.
  pose proof (sort_ends (compare_path_items compare_str sort order) (sort_active signals) paths rc rn) as H.
  destruct (stable_sort_by_interruptible _ _ _ _ _) as [out [[]|e]]; [done|].
  destruct H as [Hp [[-> Hn]|[-> Ha]]]; (split; [done|]); [|done].
  destruct (is_cancelled last), (running last); cbn; naive_solver.
Qed.

(** Three entries, and a sort that is allowed one poll before the deadline. *)
Definition entry0 (t : PathType) (n : bytes) (z : Z) : PathItem :=
  {| path_type := t; sort_name := n; name := n; mtime := 0; size := z; item_revision := [] |}.
Definition entries0 : list PathItem :=
  [entry0 File (str "b") 5; entry0 Dir (str "d") 0; entry0 File (str "a") 5].
Definition signals0 (n : nat) : Signals := {| is_cancelled := false; running := true; in_time := (n <? 1)%nat |}.

Lemma listing_sorted_witness :
  let '(out, r) := sort_path_items_interruptibly bytes_cmp (str "size") (str "asc") signals0 (signals0 1)
                     true true entries0 in
  out ≡ₚ entries0 /\
  match r with
  | Ok _ => stable_sort_of (compare_path_items bytes_cmp (str "size") (str "asc")) entries0 out
  | Err DirectoryOperationTimeout =>
      (exists n, sort_active signals0 n = false) /\
      is_cancelled (signals0 1) = false /\ running (signals0 1) = true
  | Err ServerStopping =>
      (exists n, sort_active signals0 n = false) /\
      (is_cancelled (signals0 1) = true \/ running (signals0 1) = false)
  | Err DirectorySortLimit => true && true = false
  | Err SortCrashed => False
  end.
Proof.
  apply (listing_sorted bytes_cmp (str "size") (str "asc") signals0 (signals0 1) true true entries0).
  apply total_preorder, _.
Defined.

(** Within the deadline the same entries come out directories first, then by size
    and name. *)
Example sort_entries :
  sort_path_items_interruptibly bytes_cmp (str "size") (str "asc")
    (fun _ => signals0 0) (signals0 0) true true entries0 =
  ([entry0 Dir (str "d") 0; entry0 File (str "a") 5; entry0 File (str "b") 5], Ok tt).
Proof. vm_compute. reflexivity. Qed.

Example sort_example :
  stable_sort_by_interruptible (fun a b => (a.1 ?= b.1)%Z) (fun _ => true) true true
    [(3, "a"); (1, "b"); (3, "c"); (2, "d"); (1, "e"); (0, "f"); (3, "g")]%Z =
  ([(0, "f"); (1, "b"); (1, "e"); (2, "d"); (3, "a"); (3, "c"); (3, "g")]%Z, Ok tt).
Proof. reflexivity. Qed.
End ListSort.
