(* ===== verification/ListSnapshot.v ===== *)
(** * The listing snapshot cache

    [src/server/listing/snapshot.rs]: a directory listing with more entries than
    fit a page is kept as an immutable snapshot, and a signed cursor names the
    snapshot and the offset of the next page.  The cache is bounded in number and
    bytes, globally and per owner, and evicts the oldest snapshots first.

    Instants are nanoseconds.  SHA-256 and base64 are libraries of the program and
    parameters here. *)

From S2P Require Import Prelude Paths ListSort.

Module ListSnapshot.

Definition MAX_CACHED_LIST_SNAPSHOTS : Z := 32.
Definition MAX_CACHED_LIST_SNAPSHOT_BYTES : Z := 67108864.
Definition MAX_CACHED_LIST_SNAPSHOTS_PER_OWNER : Z := 8.
Definition MAX_CACHED_LIST_SNAPSHOT_BYTES_PER_OWNER : Z := 33554432.
Definition LIST_SNAPSHOT_TTL : Z := 120000000000.

Record DirectorySnapshot : Type := {
  ds_device : Z; ds_inode : Z;
  ds_mtime : Z; ds_mtime_nanoseconds : Z;
  ds_ctime : Z; ds_ctime_nanoseconds : Z }.
#[global] Instance DirectorySnapshot_eq_dec : EqDecision DirectorySnapshot.
Proof. solve_decision. Defined.

Record ListSnapshotBinding : Type := {
  owner : bytes;
  path : bytes;
  directory : DirectorySnapshot;
  sort : bytes;
  order : bytes;
  query : bytes;
  limit : Z }.

(** [ListSnapshotRequest] borrows the same fields. *)
Definition ListSnapshotRequest : Type := ListSnapshotBinding.

(** Paths are compared by component; the directory is compared separately. *)
Definition matches_request (b : ListSnapshotBinding) (r : ListSnapshotRequest) : bool :=
  bool_decide (owner b = owner r) && path_eqb (path b) (path r) &&
  bool_decide (sort b = sort r) && bool_decide (order b = order r) &&
  bool_decide (query b = query r) && (limit b =? limit r)%Z.

Record ListSnapshotRecord : Type := {
  secret : bytes;
  binding : ListSnapshotBinding;
  paths : list ListSort.PathItem;
  expires_at : Z;
  weight : Z }.

Record ListSnapshotStore : Type := {
  snapshots : gmap bytes ListSnapshotRecord;
  insertion_order : list bytes;
  total_weight : Z }.

Definition default_store : ListSnapshotStore :=
  {| snapshots := ∅; insertion_order := []; total_weight := 0 |}.

Record ListSnapshotPage : Type := {
  page_paths : list ListSort.PathItem;
  range_start : Z;
  range_end : Z;
  next_cursor : option bytes }.

(** [&self.paths\[self.range.clone()\]], which panics out of range. *)
Definition page_items (p : ListSnapshotPage) : result string (list ListSort.PathItem) :=
  if ((range_start p <=? range_end p) && (range_end p <=? Z.of_nat (length (page_paths p))))%Z then
    Ok (take (Z.to_nat (range_end p - range_start p)) (drop (Z.to_nat (range_start p)) (page_paths p)))
  else Err "range out of bounds".

(** ** Eviction *)

(** [remove_oldest] pops until it has removed a snapshot. *)
Fixpoint pop_oldest (q : list bytes) (s : ListSnapshotStore) : ListSnapshotStore :=
  match q with
  | [] => {| snapshots := snapshots s; insertion_order := []; total_weight := total_weight s |}
  | id :: q =>
      match snapshots s !! id with
      | Some r =>
          {| snapshots := delete id (snapshots s); insertion_order := q;
             total_weight := u64_saturating_sub (total_weight s) (weight r) |}
      | None => pop_oldest q s
      end
  end.
Definition remove_oldest (s : ListSnapshotStore) : ListSnapshotStore := pop_oldest (insertion_order s) s.

(** [while let Some(id) = self.insertion_order.front()]; every round shortens the
    queue. *)
Fixpoint purge_loop (fuel : nat) (s : ListSnapshotStore) (now : Z) : ListSnapshotStore :=
  match fuel, insertion_order s with
  | S fuel, id :: _ =>
      let expired := match snapshots s !! id with
                     | None => true
                     | Some r => (expires_at r <=? now)%Z
                     end in
      if expired then purge_loop fuel (remove_oldest s) now else s
  | _, _ => s
  end.
Definition purge_expired (s : ListSnapshotStore) (now : Z) : ListSnapshotStore :=
  purge_loop (length (insertion_order s)) s now.

Definition owner_usage (s : ListSnapshotStore) (o : bytes) : Z * Z :=
  map_fold (fun _ r '(count, w) =>
    if bool_decide (owner (binding r) = o) then (u64_saturating_add count 1, u64_saturating_add w (weight r))
    else (count, w)) (0, 0)%Z (snapshots s).

(** The oldest snapshot of an owner: its identifier and the queue without it. *)
Fixpoint take_owned (s : ListSnapshotStore) (o : bytes) (q : list bytes) : option (bytes * list bytes) :=
  match q with
  | [] => None
  | id :: q =>
      match snapshots s !! id with
      | Some r =>
          if bool_decide (owner (binding r) = o) then Some (id, q)
          else '(x, q) ← take_owned s o q; Some (x, id :: q)
      | None => '(x, q) ← take_owned s o q; Some (x, id :: q)
      end
  end.

Definition remove_oldest_for_owner (s : ListSnapshotStore) (o : bytes) : ListSnapshotStore * bool :=
  match take_owned s o (insertion_order s) with
  | None => (s, false)
  | Some (id, q) =>
      match snapshots s !! id with
      | Some r =>
          ({| snapshots := delete id (snapshots s); insertion_order := q;
              total_weight := u64_saturating_sub (total_weight s) (weight r) |}, true)
      | None => ({| snapshots := snapshots s; insertion_order := q; total_weight := total_weight s |}, false)
      end
  end.

Definition owner_fits (s : ListSnapshotStore) (o : bytes) (w : Z) : bool :=
  let '(owner_count, owner_weight) := owner_usage s o in
  (owner_count <? MAX_CACHED_LIST_SNAPSHOTS_PER_OWNER)%Z &&
  (u64_saturating_add owner_weight w <=? MAX_CACHED_LIST_SNAPSHOT_BYTES_PER_OWNER)%Z.

(** The two loops of [make_room]; every round removes a snapshot. *)
Fixpoint make_owner_room (fuel : nat) (s : ListSnapshotStore) (o : bytes) (w : Z) : ListSnapshotStore :=
  if owner_fits s o w then s
  else match fuel with
       | O => s
       | S fuel =>
           let '(s, removed) := remove_oldest_for_owner s o in
           if removed then make_owner_room fuel s o w else s
       end.

Definition crowded (s : ListSnapshotStore) (w : Z) : bool :=
  negb (Z.of_nat (size (snapshots s)) =? 0)%Z &&
  ((MAX_CACHED_LIST_SNAPSHOTS <=? Z.of_nat (size (snapshots s)))%Z ||
   (MAX_CACHED_LIST_SNAPSHOT_BYTES <? u64_saturating_add (total_weight s) w)%Z).

Fixpoint make_global_room (fuel : nat) (s : ListSnapshotStore) (w : Z) : ListSnapshotStore :=
  if crowded s w then
    match fuel with
    | O => s
    | S fuel => make_global_room fuel (remove_oldest s) w
    end
  else s.

Definition make_room (s : ListSnapshotStore) (o : bytes) (w : Z) : ListSnapshotStore :=
  let s := make_owner_room (size (snapshots s)) s o w in
  make_global_room (size (snapshots s)) s w.

(** ** Weight *)

(** The sizes and capacities a snapshot's allocations have; they are not
    determined by its contents. *)
Record Allocation : Type := {
  record_size : Z; item_size : Z; path_capacity : Z;
  sort_capacity : Z; order_capacity : Z; query_capacity : Z;
  name_capacities : list (Z * Z) }.

Definition list_snapshot_weight (a : Allocation) (b : ListSnapshotBinding) : Z :=
  let fixed := u64_saturating_add (record_size a)
                 (u64_saturating_mul (path_capacity a) (item_size a)) in
  foldl (fun w '(name, sort_name) => u64_saturating_add (u64_saturating_add w name) sort_name)
    (u64_saturating_add (u64_saturating_add (u64_saturating_add
       (u64_saturating_add fixed (Z.of_nat (length (path b)))) (sort_capacity a)) (order_capacity a))
       (query_capacity a))
    (name_capacities a).

(** ** Cursors *)

Inductive ListSnapshotLookupError : Type := DirectoryChanged | InvalidBinding | Unavailable.

Record DecodedListCursor : Type := { id : bytes; offset : Z; tag : bytes }.

Section cursors.
(** [Sha256::digest] and [URL_SAFE_NO_PAD] *)
Context (sha256 : bytes -> bytes) (b64_encode : bytes -> bytes) (b64_decode : bytes -> option bytes).

Definition xor_byte (a b : byte) : byte := byte_of (Z.lxor (byte_val a) (byte_val b)).

Definition hmac_sha256 (key : bytes) (parts : list bytes) : bytes :=
  let key_block :=
    if (64 <? length key)%nat then sha256 key ++ replicate 32 x00
    else key ++ replicate (64 - length key) x00 in
  let inner_pad := xor_byte x36 <$> key_block in
  let outer_pad := xor_byte x5c <$> key_block in
  sha256 (outer_pad ++ sha256 (inner_pad ++ concat parts)).

Definition list_cursor_tag (secret id : bytes) (offset : Z) : bytes :=
  take 16 (hmac_sha256 secret [str "xczs-list-cursor-v1" ++ [x00]; id; u64_be offset]).

Definition encode_list_cursor (id secret : bytes) (offset : Z) : bytes :=
  b64_encode (x03 :: id ++ u64_be offset ++ list_cursor_tag secret id offset).

Definition decode_list_cursor (value : bytes) : result string DecodedListCursor :=
  if negb (length value =? 76)%nat then Err "invalid list cursor length"
  else
    bs ← ok_or (b64_decode value) "invalid list cursor encoding";
    if negb ((length bs =? 57)%nat && bool_decide (head bs = Some x03)) then
      Err "unsupported list cursor version"
    else if negb (bool_decide (b64_encode bs = value)) then Err "non-canonical list cursor encoding"
    else Ok {| id := take 32 (drop 1 bs);
               offset := be_val (take 8 (drop 33 bs));
               tag := drop 41 bs |}.

(** ** The two operations of the cache *)

Definition store_page (s : ListSnapshotStore) (cursor : DecodedListCursor)
    (request : ListSnapshotRequest) (now : Z)
    : ListSnapshotStore * result ListSnapshotLookupError ListSnapshotPage :=
  let s := purge_expired s now in
  (s,
   snapshot ← ok_or (snapshots s !! id cursor) Unavailable;
   let expected_tag := list_cursor_tag (secret snapshot) (id cursor) (offset cursor) in
   _ ← ensure (bool_decide (expected_tag = tag cursor)) Unavailable;
   _ ← ensure (matches_request (binding snapshot) request) InvalidBinding;
   _ ← ensure (bool_decide (directory (binding snapshot) = directory request)) DirectoryChanged;
   let len := Z.of_nat (length (paths snapshot)) in
   _ ← ensure (negb ((offset cursor =? 0) || (len <=? offset cursor))%Z) Unavailable;
   let stop := Z.min (u64_saturating_add (offset cursor) (limit (binding snapshot))) len in
   Ok {| page_paths := paths snapshot; range_start := offset cursor; range_end := stop;
         next_cursor := if (stop <? len)%Z
                        then Some (encode_list_cursor (id cursor) (secret snapshot) stop) else None |}).

Inductive ListingProblem : Type := ListSnapshotLimit | DirectoryOperationFailed.

(** The caller caches only listings longer than a page, which the code asserts in
    debug builds.  Eight attempts at a fresh identifier; [None] is a failure of [getrandom]. *)
Fixpoint find_fresh (s : ListSnapshotStore) (draws : list (option (bytes * bytes))) : option (bytes * bytes) :=
  match draws with
  | [] => None
  | None :: draws => find_fresh s draws
  | Some (i, k) :: draws =>
      match snapshots s !! i with Some _ => find_fresh s draws | None => Some (i, k) end
  end.

Definition cache (s : ListSnapshotStore) (a : Allocation) (b : ListSnapshotBinding)
    (items : list ListSort.PathItem) (draws : list (option (bytes * bytes))) (now : Z)
    : ListSnapshotStore * result ListingProblem ListSnapshotPage :=
  let w := list_snapshot_weight a b in
  if (MAX_CACHED_LIST_SNAPSHOT_BYTES_PER_OWNER <? w)%Z then (s, Err ListSnapshotLimit)
  else
    let s := make_room (purge_expired s now) (owner b) w in
    match find_fresh s (take 8 draws) with
    | None => (s, Err DirectoryOperationFailed)
    | Some (i, k) =>
        ({| snapshots := <[i := {| secret := k; binding := b; paths := items;
                                   expires_at := now + LIST_SNAPSHOT_TTL; weight := w |}]> (snapshots s);
            insertion_order := insertion_order s ++ [i];
            total_weight := u64_saturating_add (total_weight s) w |},
         Ok {| page_paths := items; range_start := 0; range_end := limit b;
               next_cursor := Some (encode_list_cursor i k (limit b)) |})
    end.
End cursors.

(** ** The bounds of the cache *)

Definition owned_count (o : bytes) (r : ListSnapshotRecord) : Z :=
  if bool_decide (owner (binding r) = o) then 1 else 0.
Definition owned_weight (o : bytes) (r : ListSnapshotRecord) : Z :=
  if bool_decide (owner (binding r) = o) then weight r else 0.

(** The queue lists exactly the stored snapshots, and the weight is exact. *)
Record consistent (s : ListSnapshotStore) : Prop := {
  con_order : NoDup (insertion_order s);
  con_ids : forall i, i ∈ insertion_order s <-> is_Some (snapshots s !! i);
  con_weights : map_Forall (fun _ r => 0 <= weight r <= MAX_CACHED_LIST_SNAPSHOT_BYTES_PER_OWNER)%Z (snapshots s);
  con_total : total_weight s = map_sum weight (snapshots s) }.

Record bounded (s : ListSnapshotStore) : Prop := {
  bound_count : (Z.of_nat (size (snapshots s)) <= MAX_CACHED_LIST_SNAPSHOTS)%Z;
  bound_bytes : (total_weight s <= MAX_CACHED_LIST_SNAPSHOT_BYTES)%Z;
  bound_owner_count : forall o, (map_sum (owned_count o) (snapshots s) <= MAX_CACHED_LIST_SNAPSHOTS_PER_OWNER)%Z;
  bound_owner_bytes : forall o,
    (map_sum (owned_weight o) (snapshots s) <= MAX_CACHED_LIST_SNAPSHOT_BYTES_PER_OWNER)%Z }.

(** A snapshot taken out of the store, wherever it stood in the queue. *)
Definition without (s : ListSnapshotStore) (i : bytes) (r : ListSnapshotRecord) (q : list bytes)
    : ListSnapshotStore :=
  {| snapshots := delete i (snapshots s); insertion_order := q;
     total_weight := u64_saturating_sub (total_weight s) (weight r) |}.

Definition removes (s s' : ListSnapshotStore) (i : bytes) : Prop :=
  exists r pre post, insertion_order s = pre ++ i :: post /\ snapshots s !! i = Some r /\
    s' = without s i r (pre ++ post).

Lemma weight_member s i r :
  consistent s -> snapshots s !! i = Some r -> (0 <= weight r <= total_weight s)%Z.
Proof.
  intros [_ _ Hw Ht] Hi. split; [by apply (Hw i)|]. rewrite Ht.
  apply (map_sum_member weight _ i); [|done]. intros j v Hj. apply Hw in Hj. cbn in Hj. lia.
Qed.

Lemma owned_nonneg s o :
  consistent s ->
  map_Forall (fun _ r => 0 <= owned_count o r)%Z (snapshots s) /\
  map_Forall (fun _ r => 0 <= owned_weight o r)%Z (snapshots s).
Proof.
  intros Hc. split; intros i r Hi; unfold owned_count, owned_weight; case_bool_decide; try lia.
  by apply (con_weights s Hc i).
Qed.

Lemma removes_consistent s s' i : removes s s' i -> consistent s -> consistent s'.
Proof.
  intros (r & pre & post & Ho & Hi & ->) Hc. pose proof (weight_member s i r Hc Hi) as Hw.
  destruct Hc as [Hn Hids Hws Ht]. rewrite Ho in Hn, Hids.
  rewrite <- Permutation_middle in Hn. apply NoDup_cons in Hn as [Hni Hn].
  split; cbn.
  - done.
  - intros j. specialize (Hids j). rewrite <- Permutation_middle, elem_of_cons in Hids.
    destruct (decide (j = i)) as [->|Hne].
    + rewrite lookup_delete_eq. split; [done|by intros [? ?]].
    + rewrite lookup_delete_ne by done. rewrite <- Hids. naive_solver.
  - by apply map_Forall_delete.
  - rewrite (map_sum_delete _ _ _ r) by done. unfold u64_saturating_sub. lia.
Qed.

Lemma removes_sum (f : ListSnapshotRecord -> Z) s s' i :
  removes s s' i -> map_Forall (fun _ r => 0 <= f r)%Z (snapshots s) ->
  (map_sum f (snapshots s') <= map_sum f (snapshots s))%Z.
Proof.
  intros (r & pre & post & Ho & Hi & ->) Hf. cbn. rewrite (map_sum_delete _ _ _ r) by done.
  pose proof (Hf i r Hi). cbn in *. lia.
Qed.

Lemma removes_size s s' i : removes s s' i -> size (snapshots s) = S (size (snapshots s')).
Proof.
  intros (r & pre & post & Ho & Hi & ->). cbn. rewrite map_size_delete_Some; [|by eexists].
  destruct (size (snapshots s)) eqn:E; [|done].
  apply map_size_empty_inv in E. by rewrite E, lookup_empty in Hi.
Qed.

Lemma removes_bounded s s' i : removes s s' i -> consistent s -> bounded s -> bounded s'.
Proof.
  intros H Hc [Hn Hb Ho Hw]. pose proof (removes_size _ _ _ H) as Hsz.
  pose proof (fun o => removes_sum (owned_count o) _ _ _ H (proj1 (owned_nonneg s o Hc))) as H1.
  pose proof (fun o => removes_sum (owned_weight o) _ _ _ H (proj2 (owned_nonneg s o Hc))) as H2.
  split.
  - lia.
  - destruct H as (r & pre & post & _ & Hi & ->). cbn. pose proof (weight_member s i r Hc Hi).
    unfold u64_saturating_sub. lia.
  - intros o. specialize (H1 o). specialize (Ho o). lia.
  - intros o. specialize (H2 o). specialize (Hw o). lia.
Qed.

(** [remove_oldest] takes out the head of the queue. *)
Lemma remove_oldest_removes s i q :
  consistent s -> insertion_order s = i :: q -> removes s (remove_oldest s) i.
Proof.
  intros Hc Ho. assert (is_Some (snapshots s !! i)) as [r Hi] by (apply (con_ids s Hc); rewrite Ho; left).
  exists r, [], q. split_and!; [done..|]. unfold remove_oldest. rewrite Ho. cbn. by rewrite Hi.
Qed.

(** Evicting: any number of removals. *)
Definition evicts : ListSnapshotStore -> ListSnapshotStore -> Prop := rtc (fun s s' => exists i, removes s s' i).

Lemma evicts_consistent s s' : evicts s s' -> consistent s -> consistent s'.
Proof. induction 1 as [|s s1 s2 [i Hi] _ IH]; eauto using removes_consistent. Qed.

Lemma evicts_bounded s s' : evicts s s' -> consistent s -> bounded s -> bounded s'.
Proof.
  induction 1 as [|s s1 s2 [i Hi] _ IH]; eauto using removes_consistent, removes_bounded.
Qed.

Lemma evicts_sum (f : ListSnapshotRecord -> Z) s s' :
  evicts s s' -> map_Forall (fun _ r => 0 <= f r)%Z (snapshots s) ->
  (map_sum f (snapshots s') <= map_sum f (snapshots s))%Z.
Proof.
  induction 1 as [s|s s1 s2 [i Hi] _ IH]; [lia|]. intros Hf.
  pose proof (removes_sum f _ _ _ Hi Hf).
  assert (map_Forall (fun _ r => 0 <= f r)%Z (snapshots s1)) as Hf1.
  { destruct Hi as (r & pre & post & _ & _ & ->). by apply map_Forall_delete. }
  specialize (IH Hf1). lia.
Qed.

Lemma purge_loop_evicts fuel s now : consistent s -> evicts s (purge_loop fuel s now).
Proof.
  revert s. induction fuel as [|fuel IH]; intros s Hc; cbn [purge_loop]; [constructor|].
  destruct (insertion_order s) as [|i q] eqn:Eo; [constructor|]. case_match; [|constructor].
  pose proof (remove_oldest_removes s i q Hc Eo) as Hr.
  eapply rtc_l; [by exists i|]. apply IH. by eapply removes_consistent.
Qed.

Lemma purge_evicts s now : consistent s -> evicts s (purge_expired s now).
Proof. apply purge_loop_evicts. Qed.

(** ** Making room *)

(** The saturating counters of [owner_usage] are exact up to saturation. *)
Lemma owner_usage_sums s o :
  consistent s ->
  owner_usage s o = (Z.min (map_sum (owned_count o) (snapshots s)) U64_MAX,
                     Z.min (map_sum (owned_weight o) (snapshots s)) U64_MAX).
Proof.
  intros Hc. pose proof (con_weights s Hc) as Hw. unfold owner_usage. revert Hw.
  generalize (snapshots s). intros m. induction m as [|i r m Hi IH] using map_ind; [done|].
  intros Hw. rewrite map_fold_insert_L; [| |done].
  - apply map_Forall_insert in Hw as [Hr Hm]; [|done]. rewrite IH by done.
    rewrite !map_sum_insert by done.
    assert (0 <= map_sum (owned_count o) m /\ 0 <= map_sum (owned_weight o) m)%Z as [H1 H2].
    { split; apply map_sum_nonneg; intros j v Hj; unfold owned_count, owned_weight; case_bool_decide; try lia.
      apply Hm in Hj. cbn in Hj. lia. }
    revert H1 H2. generalize (map_sum (owned_count o) m), (map_sum (owned_weight o) m). intros c w H1 H2.
    unfold owned_count, owned_weight, u64_saturating_add.
    cbn in Hr. case_bool_decide; apply pair_equal_spec; lia.
  - intros j1 j2 r1 r2 [c w] _ Hj1 Hj2. apply Hw in Hj1, Hj2. cbn in Hj1, Hj2. unfold u64_saturating_add.
    repeat case_bool_decide; try done. f_equal; lia.
Qed.

Lemma owner_fits_spec s o w :
  consistent s -> (0 <= w)%Z ->
  owner_fits s o w = true <->
  (map_sum (owned_count o) (snapshots s) < MAX_CACHED_LIST_SNAPSHOTS_PER_OWNER /\
   map_sum (owned_weight o) (snapshots s) + w <= MAX_CACHED_LIST_SNAPSHOT_BYTES_PER_OWNER)%Z.
Proof.
  intros Hc Hw. unfold owner_fits. rewrite owner_usage_sums by done.
  rewrite andb_true_iff, Z.ltb_lt, Z.leb_le. unfold u64_saturating_add.
  unfold U64_MAX, MAX_CACHED_LIST_SNAPSHOTS_PER_OWNER, MAX_CACHED_LIST_SNAPSHOT_BYTES_PER_OWNER. lia.
Qed.

Lemma take_owned_Some s o q i q' :
  take_owned s o q = Some (i, q') ->
  exists r pre post, q = pre ++ i :: post /\ q' = pre ++ post /\ snapshots s !! i = Some r /\
    owner (binding r) = o.
Proof.
  revert q'. induction q as [|j q IH]; intros q' H; cbn in H; [done|].
  destruct (snapshots s !! j) as [r|] eqn:Ej; [case_bool_decide|]; simplify_eq.
  - by exists r, [], q'.
  - destruct (take_owned s o q) as [[x q2]|]; cbn in H; simplify_eq.
    destruct (IH _ eq_refl) as (r' & pre & post & -> & -> & Hi & Ho). by exists r', (j :: pre), post.
  - destruct (take_owned s o q) as [[x q2]|]; cbn in H; simplify_eq.
    destruct (IH _ eq_refl) as (r' & pre & post & -> & -> & Hi & Ho). by exists r', (j :: pre), post.
Qed.

Lemma take_owned_None s o q i r :
  take_owned s o q = None -> i ∈ q -> snapshots s !! i = Some r -> owner (binding r) <> o.
Proof.
  induction q as [|j q IH]; cbn; intros H Hi Hr; [by apply not_elem_of_nil in Hi|].
  apply elem_of_cons in Hi as [->|Hi].
  - rewrite Hr in H. by case_bool_decide.
  - apply IH; [|done|done]. destruct (snapshots s !! j); [case_bool_decide|]; try done;
      by destruct (take_owned s o q) as [[]|].
Qed.

(** Either the owner has no snapshot left, or its oldest one is removed. *)
Lemma remove_owned_cases s o :
  consistent s ->
  (remove_oldest_for_owner s o = (s, false) /\
   map_sum (owned_count o) (snapshots s) = 0%Z /\ map_sum (owned_weight o) (snapshots s) = 0%Z) \/
  (exists s' i, remove_oldest_for_owner s o = (s', true) /\ removes s s' i).
Proof.
  intros Hc. unfold remove_oldest_for_owner.
  destruct (take_owned s o (insertion_order s)) as [[i q]|] eqn:Et.
  - right. destruct (take_owned_Some _ _ _ _ _ Et) as (r & pre & post & Ho & -> & Hi & _).
    rewrite Hi. eexists _, i. split; [done|]. by exists r, pre, post.
  - left. split; [done|]. split; apply map_sum_zero; intros i r Hi;
      unfold owned_count, owned_weight; rewrite bool_decide_false; try done;
      (eapply take_owned_None; [done| |done]; apply (con_ids s Hc); eauto).
Qed.

Lemma make_owner_room_ok fuel o w : forall s,
  consistent s -> (0 <= w <= MAX_CACHED_LIST_SNAPSHOT_BYTES_PER_OWNER)%Z ->
  (size (snapshots s) <= fuel)%nat ->
  evicts s (make_owner_room fuel s o w) /\ owner_fits (make_owner_room fuel s o w) o w = true.
Proof.
  assert (forall s, consistent s -> (0 <= w <= MAX_CACHED_LIST_SNAPSHOT_BYTES_PER_OWNER)%Z ->
    map_sum (owned_count o) (snapshots s) = 0%Z -> map_sum (owned_weight o) (snapshots s) = 0%Z ->
    owner_fits s o w = true) as Hzero.
  { intros s Hc Hw H1 H2. apply owner_fits_spec; [done|lia|]. rewrite H1, H2.
    unfold MAX_CACHED_LIST_SNAPSHOTS_PER_OWNER. lia. }
  induction fuel as [|fuel IH]; intros s Hc Hw Hf; cbn [make_owner_room].
  all: destruct (owner_fits s o w) eqn:Ef; [by split; [constructor|]|].
  - assert (snapshots s = ∅) as Hs by (apply map_size_empty_inv; lia).
    rewrite Hzero in Ef by (done || by rewrite Hs). done.
  - destruct (remove_owned_cases s o Hc) as [(-> & H1 & H2)|(s' & i & -> & Hr)].
    + by rewrite Hzero in Ef.
    + pose proof (removes_size _ _ _ Hr). destruct (IH s') as [He Hfit]; [by eapply removes_consistent|done|lia|].
      split; [|done]. eapply rtc_l; [by exists i|done].
Qed.

Lemma make_global_room_ok fuel w : forall s,
  consistent s -> (size (snapshots s) <= fuel)%nat ->
  evicts s (make_global_room fuel s w) /\ crowded (make_global_room fuel s w) w = false.
Proof.
  induction fuel as [|fuel IH]; intros s Hc Hf; cbn [make_global_room].
  all: destruct (crowded s w) eqn:Ec; [|by split; [constructor|]].
  - exfalso. unfold crowded in Ec. by replace (size (snapshots s)) with 0%nat in Ec by lia.
  - assert (exists i q, insertion_order s = i :: q) as (i & q & Ho).
    { destruct (insertion_order s) as [|i q] eqn:Ho; [|eauto].
      exfalso. unfold crowded in Ec. assert (snapshots s = ∅) as Hs; [|by rewrite Hs in Ec].
      apply map_empty. intros i. destruct (snapshots s !! i) eqn:Ei; [|done].
      assert (i ∈ insertion_order s) as Hi by (apply (con_ids s Hc); eauto).
      rewrite Ho in Hi. by apply not_elem_of_nil in Hi. }
    pose proof (remove_oldest_removes s i q Hc Ho) as Hr. pose proof (removes_size _ _ _ Hr).
    destruct (IH (remove_oldest s)) as [He Hn]; [by eapply removes_consistent|lia|].
    split; [|done]. eapply rtc_l; [by exists i|done].
Qed.

Lemma not_crowded s w :
  consistent s -> (0 <= w <= MAX_CACHED_LIST_SNAPSHOT_BYTES_PER_OWNER)%Z -> crowded s w = false ->
  (Z.of_nat (size (snapshots s)) < MAX_CACHED_LIST_SNAPSHOTS)%Z /\
  (total_weight s + w <= MAX_CACHED_LIST_SNAPSHOT_BYTES)%Z.
Proof.
  intros Hc Hw Hn. unfold crowded in Hn. apply andb_false_iff in Hn as [Hn|Hn].
  - apply negb_false_iff, Z.eqb_eq in Hn. rewrite Hn. split; [done|].
    assert (snapshots s = ∅) as Hs by (apply map_size_empty_inv; lia).
    rewrite (con_total s Hc), Hs, map_sum_empty.
    unfold MAX_CACHED_LIST_SNAPSHOT_BYTES, MAX_CACHED_LIST_SNAPSHOT_BYTES_PER_OWNER in *. lia.
  - apply orb_false_iff in Hn as [H1 H2]. rewrite Z.leb_gt in H1. rewrite Z.ltb_ge in H2.
    split; [done|]. by apply u64_saturating_add_le in H2.
Qed.

Lemma owner_fits_evicts s s' o w :
  consistent s -> (0 <= w)%Z -> evicts s s' -> owner_fits s o w = true -> owner_fits s' o w = true.
Proof.
  intros Hc Hw He Hfit. pose proof (evicts_consistent _ _ He Hc) as Hc'.
  apply owner_fits_spec in Hfit as [H1 H2]; [|done..]. apply owner_fits_spec; [done..|].
  pose proof (evicts_sum (owned_count o) _ _ He (proj1 (owned_nonneg s o Hc))).
  pose proof (evicts_sum (owned_weight o) _ _ He (proj2 (owned_nonneg s o Hc))). lia.
Qed.

(** After [make_room] one more snapshot of that weight fits every bound. *)
Lemma make_room_ok s o w :
  consistent s -> (0 <= w <= MAX_CACHED_LIST_SNAPSHOT_BYTES_PER_OWNER)%Z ->
  evicts s (make_room s o w) /\ owner_fits (make_room s o w) o w = true /\
  (Z.of_nat (size (snapshots (make_room s o w))) < MAX_CACHED_LIST_SNAPSHOTS)%Z /\
  (total_weight (make_room s o w) + w <= MAX_CACHED_LIST_SNAPSHOT_BYTES)%Z.
Proof.
  intros Hc Hw. unfold make_room.
  destruct (make_owner_room_ok (size (snapshots s)) o w s Hc Hw) as [He1 Hfit]; [lia|].
  generalize dependent (make_owner_room (size (snapshots s)) s o w). intros s1 He1 Hfit. cbn zeta.
  pose proof (evicts_consistent _ _ He1 Hc) as Hc1.
  destruct (make_global_room_ok (size (snapshots s1)) w s1 Hc1) as [He2 Hn]; [lia|].
  generalize dependent (make_global_room (size (snapshots s1)) s1 w). intros s2 He2 Hn.
  pose proof (evicts_consistent _ _ He2 Hc1) as Hc2.
  split; [exact (rtc_trans _ _ _ He1 He2)|].
  split; [by apply (owner_fits_evicts s1); [|lia| |]|]. by apply not_crowded.
Qed.

(** ** Inserting *)

Definition allocation_ok (a : Allocation) : Prop :=
  (0 <= record_size a /\ 0 <= item_size a /\ 0 <= path_capacity a /\ 0 <= sort_capacity a /\
   0 <= order_capacity a /\ 0 <= query_capacity a)%Z /\
  Forall (fun c => 0 <= c.1 /\ 0 <= c.2)%Z (name_capacities a).

Lemma saturating_nonneg a b : (0 <= a)%Z -> (0 <= b)%Z -> (0 <= u64_saturating_add a b)%Z.
Proof. unfold u64_saturating_add, U64_MAX. lia. Qed.

Lemma weight_nonneg a b : allocation_ok a -> (0 <= list_snapshot_weight a b)%Z.
Proof.
  intros [(H1 & H2 & H3 & H4 & H5 & H6) HF]. unfold list_snapshot_weight.
  assert (0 <= u64_saturating_mul (path_capacity a) (item_size a))%Z as Hm
    by (unfold u64_saturating_mul, U64_MAX; nia).
  match goal with |- (0 <= foldl _ ?w0 _)%Z => assert (0 <= w0)%Z as Hw0 end.
  { repeat apply saturating_nonneg; lia. }
  revert Hw0. generalize dependent (u64_saturating_add (u64_saturating_add (u64_saturating_add
    (u64_saturating_add (u64_saturating_add (record_size a) (u64_saturating_mul (path_capacity a) (item_size a)))
      (Z.of_nat (length (path b)))) (sort_capacity a)) (order_capacity a)) (query_capacity a)).
  induction HF as [|[n sn] l [Hn Hsn] _ IH]; intros w Hw; cbn [foldl]; [done|].
  apply IH. by repeat apply saturating_nonneg.
Qed.

Definition inserted (s : ListSnapshotStore) (i : bytes) (r : ListSnapshotRecord) : ListSnapshotStore :=
  {| snapshots := <[i := r]> (snapshots s); insertion_order := insertion_order s ++ [i];
     total_weight := u64_saturating_add (total_weight s) (weight r) |}.

Lemma saturating_exact a b c : (a + b <= c)%Z -> (c < U64_MAX)%Z -> u64_saturating_add a b = (a + b)%Z.
Proof. unfold u64_saturating_add. generalize U64_MAX. lia. Qed.

Lemma inserted_consistent s i r :
  consistent s -> snapshots s !! i = None ->
  (0 <= weight r <= MAX_CACHED_LIST_SNAPSHOT_BYTES_PER_OWNER)%Z ->
  (total_weight s + weight r <= MAX_CACHED_LIST_SNAPSHOT_BYTES)%Z -> consistent (inserted s i r).
Proof.
  intros [Hn Hids Hw Ht] Hi Hr Hfit. split; cbn.
  - apply NoDup_app. split_and!; [done| |apply NoDup_singleton].
    intros j Hj ->%list_elem_of_singleton. apply Hids in Hj as [? ?]. congruence.
  - intros j. rewrite elem_of_app, list_elem_of_singleton, Hids.
    destruct (decide (j = i)) as [->|Hne].
    + rewrite lookup_insert_eq. naive_solver.
    + rewrite lookup_insert_ne by done. naive_solver.
  - by apply map_Forall_insert_2.
  - rewrite (saturating_exact _ _ MAX_CACHED_LIST_SNAPSHOT_BYTES), map_sum_insert, Ht by done. lia.
Qed.

Lemma inserted_bounded s i r :
  consistent s -> bounded s -> snapshots s !! i = None ->
  (0 <= weight r)%Z -> owner_fits s (owner (binding r)) (weight r) = true ->
  (Z.of_nat (size (snapshots s)) < MAX_CACHED_LIST_SNAPSHOTS)%Z ->
  (total_weight s + weight r <= MAX_CACHED_LIST_SNAPSHOT_BYTES)%Z -> bounded (inserted s i r).
Proof.
  intros Hc [Hn Hb Ho Hw] Hi Hr Hfit Hsz Htot. apply owner_fits_spec in Hfit as [F1 F2]; [|done..]. split; cbn.
  - rewrite map_size_insert_None by done. lia.
  - by rewrite (saturating_exact _ _ MAX_CACHED_LIST_SNAPSHOT_BYTES).
  - intros o. rewrite map_sum_insert by done. unfold owned_count at 1. specialize (Ho o).
    case_bool_decide; subst; lia.
  - intros o. rewrite map_sum_insert by done. unfold owned_weight at 1. specialize (Hw o).
    case_bool_decide; subst; lia.
Qed.

Lemma find_fresh_Some s draws i k :
  find_fresh s draws = Some (i, k) -> snapshots s !! i = None /\ Some (i, k) ∈ draws.
Proof.
  induction draws as [|[[j l]|] draws IH]; cbn; [done| |].
  - destruct (snapshots s !! j) eqn:E; [|by intros [= -> ->]; split; [|left]].
    intros [Hi Hin]%IH. split; [done|by right].
  - intros [Hi Hin]%IH. split; [done|by right].
Qed.

Section operations.
Context (sha256 : bytes -> bytes) (b64_encode : bytes -> bytes).

(** What [cache] does, on every branch. *)
Lemma cache_cases s a b items draws now :
  consistent s -> bounded s -> allocation_ok a ->
  let w := list_snapshot_weight a b in
  let '(s', r) := cache sha256 b64_encode s a b items draws now in
  (w > MAX_CACHED_LIST_SNAPSHOT_BYTES_PER_OWNER /\ s' = s /\ r = Err ListSnapshotLimit)%Z \/
  exists s1, evicts s s1 /\
    ((s' = s1 /\ r = Err DirectoryOperationFailed) \/
     exists i k, let rec := {| secret := k; binding := b; paths := items;
                               expires_at := now + LIST_SNAPSHOT_TTL; weight := w |} in
       snapshots s1 !! i = None /\ Some (i, k) ∈ draws /\ s' = inserted s1 i rec /\ consistent s' /\ bounded s' /\
       (exists s0, s0 = purge_expired s now /\ evicts s0 s1) /\
       r = Ok {| page_paths := items; range_start := 0; range_end := limit b;
                 next_cursor := Some (encode_list_cursor sha256 b64_encode i k (limit b)) |}).
Proof.
  intros Hc Hb Ha. cbn zeta. unfold cache. pose proof (weight_nonneg a b Ha) as Hw.
  destruct (Z.ltb_spec MAX_CACHED_LIST_SNAPSHOT_BYTES_PER_OWNER (list_snapshot_weight a b)) as [Hbig|Hsmall].
  { left. split_and!; [lia|done..]. }
  pose proof (purge_evicts s now Hc) as He0.
  pose proof (evicts_consistent _ _ He0 Hc) as Hc0. pose proof (evicts_bounded _ _ He0 Hc Hb) as Hb0.
  destruct (make_room_ok (purge_expired s now) (owner b) (list_snapshot_weight a b) Hc0)
    as (He1 & Hfit & Hsz & Htot); [done|].
  generalize dependent (make_room (purge_expired s now) (owner b) (list_snapshot_weight a b)).
  intros s1 He1 Hfit Hsz Htot.
  pose proof (evicts_consistent _ _ He1 Hc0) as Hc1. pose proof (evicts_bounded _ _ He1 Hc0 Hb0) as Hb1.
  destruct (find_fresh _ _) as [[i k]|] eqn:Ef; right; exists s1;
    (split; [exact (rtc_trans _ _ _ He0 He1)|]); [|by left]. right.
  apply find_fresh_Some in Ef as [Ef Hin]. apply elem_of_take in Hin as (n & Hin & _).
  exists i, k. split_and!; try done.
  - by eapply list_elem_of_lookup_2.
  - by apply inserted_consistent.
  - by apply inserted_bounded.
  - by eexists.
Qed.

Lemma page_store s cursor request now :
  (store_page sha256 b64_encode s cursor request now).1 = purge_expired s now.
Proof. done. Qed.
End operations.

(** ** Expiry *)

(** When the queued snapshots expire, oldest first. *)
Definition expiries (s : ListSnapshotStore) : list Z :=
  omap (fun i => expires_at <$> snapshots s !! i) (insertion_order s).

(** No snapshot expires before an older one, or later than one lifetime after
    [last]: true when the instants passed in do not go back. *)
Definition clocked (last : Z) (s : ListSnapshotStore) : Prop :=
  StronglySorted Z.le (expiries s) /\ Forall (fun e => e <= last + LIST_SNAPSHOT_TTL)%Z (expiries s).

Lemma expiries_delete s i (l : list bytes) :
  i ∉ l -> omap (fun j => expires_at <$> delete i (snapshots s) !! j) l =
           omap (fun j => expires_at <$> snapshots s !! j) l.
Proof.
  induction l as [|j l IH]; intros Hi; [done|]. apply not_elem_of_cons in Hi as [Hne Hi].
  cbn. rewrite lookup_delete_ne by done. by rewrite IH.
Qed.

Lemma removes_expiries s s' i :
  consistent s -> removes s s' i ->
  exists before e after, expiries s = before ++ e :: after /\ expiries s' = before ++ after.
Proof.
  intros Hc (r & pre & post & Ho & Hi & ->). pose proof (con_order s Hc) as Hn.
  rewrite Ho in Hn. rewrite <- Permutation_middle in Hn. apply NoDup_cons in Hn as [Hn _].
  unfold expiries. cbn. rewrite Ho, expiries_delete, !omap_app by done. cbn. rewrite Hi. cbn. eauto.
Qed.

Lemma removes_clocked last s s' i : consistent s -> removes s s' i -> clocked last s -> clocked last s'.
Proof.
  intros Hc H [HS HF]. destruct (removes_expiries s s' i Hc H) as (l & e & l' & E & E').
  unfold clocked. rewrite E in HS, HF. rewrite E'. split.
  - apply StronglySorted_app in HS as (H1 & H2 & H3%StronglySorted_inv). apply StronglySorted_app.
    split_and!; [|done|by destruct H3]. intros x y Hx Hy. apply H1; [done|by right].
  - rewrite !Forall_app in *. rewrite Forall_cons in HF. naive_solver.
Qed.

Lemma evicts_clocked last s s' : evicts s s' -> consistent s -> clocked last s -> clocked last s'.
Proof. induction 1 as [|s s1 s2 [i Hi] _ IH]; eauto using removes_consistent, removes_clocked. Qed.

Lemma clocked_mono last last' s : clocked last s -> (last <= last')%Z -> clocked last' s.
Proof. intros [HS HF] Hle. split; [done|]. eapply Forall_impl; [exact HF|]. cbn. lia. Qed.

Lemma inserted_clocked last s i r :
  consistent s -> snapshots s !! i = None -> expires_at r = (last + LIST_SNAPSHOT_TTL)%Z ->
  clocked last s -> clocked last (inserted s i r).
Proof.
  intros Hc Hi Hr [HS HF]. unfold clocked, expiries. cbn. rewrite omap_app. cbn. rewrite lookup_insert_eq. cbn.
  assert (omap (fun j => expires_at <$> <[i:=r]> (snapshots s) !! j) (insertion_order s) = expiries s) as ->.
  { unfold expiries. assert (i ∉ insertion_order s) as Hni.
    { rewrite (con_ids s Hc), Hi. by intros [? ?]. }
    clear -Hni. induction (insertion_order s) as [|j l IH]; [done|].
    apply not_elem_of_cons in Hni as [Hne Hni]. cbn. rewrite lookup_insert_ne by done. by rewrite IH. }
  rewrite Hr. split.
  - apply StronglySorted_app. split_and!; [|done|by repeat constructor].
    intros x y Hx ->%list_elem_of_singleton. rewrite Forall_forall in HF. by apply HF.
  - rewrite Forall_app. split; [done|]. by repeat constructor.
Qed.

(** With enough fuel the purge stops only at a live head or an empty queue. *)
Lemma purge_loop_head fuel now : forall s,
  consistent s -> (length (insertion_order s) <= fuel)%nat ->
  match insertion_order (purge_loop fuel s now) with
  | [] => True
  | i :: _ => exists r, snapshots (purge_loop fuel s now) !! i = Some r /\ (now < expires_at r)%Z
  end.
Proof.
  induction fuel as [|fuel IH]; intros s Hc Hf; cbn [purge_loop].
  { destruct (insertion_order s) as [|i q] eqn:Ho; [by rewrite ?Ho|]. cbn in Hf. lia. }
  destruct (insertion_order s) as [|i q] eqn:Ho; [by rewrite ?Ho|].
  assert (is_Some (snapshots s !! i)) as [r Hi] by (apply (con_ids s Hc); rewrite Ho; left).
  rewrite Hi. destruct (Z.leb_spec (expires_at r) now) as [Hle|Hlt]; [|rewrite ?Ho; eauto].
  pose proof (remove_oldest_removes s i q Hc Ho) as Hr.
  apply IH; [by eapply removes_consistent|]. unfold remove_oldest. rewrite Ho. cbn. rewrite Hi. cbn in *. lia.
Qed.

Lemma elem_of_expiries s i r :
  consistent s -> snapshots s !! i = Some r -> expires_at r ∈ expiries s.
Proof.
  intros Hc Hi. unfold expiries. apply list_elem_of_omap. exists i. rewrite Hi. split; [|done].
  apply (con_ids s Hc). eauto.
Qed.

(** After a purge nothing that has expired is left. *)
Lemma purge_alive last s now i r :
  consistent s -> clocked last s -> snapshots (purge_expired s now) !! i = Some r -> (now < expires_at r)%Z.
Proof.
  intros Hc Hcl Hi. pose proof (purge_evicts s now Hc) as He.
  pose proof (evicts_consistent _ _ He Hc) as Hc'. destruct (evicts_clocked last _ _ He Hc Hcl) as [HS _].
  pose proof (purge_loop_head (length (insertion_order s)) now s Hc ltac:(lia)) as Hh.
  fold (purge_expired s now) in Hh. apply (elem_of_expiries _ i r Hc') in Hi as Hin. unfold expiries in HS, Hin.
  destruct (insertion_order (purge_expired s now)) as [|j q]; [by apply not_elem_of_nil in Hin|].
  destruct Hh as (rj & Hj & Hlt). cbn in HS, Hin. rewrite Hj in HS, Hin. cbn in HS, Hin.
  apply StronglySorted_inv in HS as [_ HF]. rewrite Forall_forall in HF.
  apply elem_of_cons in Hin as [->|Hin]; [done|]. apply HF in Hin. lia.
Qed.

(** A purge leaves what has not expired alone. *)
Lemma purge_loop_keeps fuel now i r : forall s,
  consistent s -> snapshots s !! i = Some r -> (now < expires_at r)%Z ->
  snapshots (purge_loop fuel s now) !! i = Some r.
Proof.
  induction fuel as [|fuel IH]; intros s Hc Hi Hlt; cbn [purge_loop]; [done|].
  destruct (insertion_order s) as [|j q] eqn:Ho; [done|].
  assert (is_Some (snapshots s !! j)) as [rj Hj] by (apply (con_ids s Hc); rewrite Ho; left).
  rewrite Hj. destruct (Z.leb_spec (expires_at rj) now) as [Hle|]; [|done].
  pose proof (remove_oldest_removes s j q Hc Ho) as Hr.
  apply IH; [by eapply removes_consistent| |done]. unfold remove_oldest. rewrite Ho. cbn. rewrite Hj. cbn.
  rewrite lookup_delete_ne; [done|]. intros ->. simplify_eq. lia.
Qed.

(** ** Cursors *)

(** What the code relies on of SHA-256 and of unpadded base64. *)
Class CursorCodec (sha256 b64_encode : bytes -> bytes) (b64_decode : bytes -> option bytes) : Prop := {
  sha256_length : forall b, length (sha256 b) = 32%nat;
  b64_roundtrip : forall b, b64_decode (b64_encode b) = Some b;
  b64_length : forall b, length (b64_encode b) = ((4 * length b + 2) / 3)%nat }.

Section paging.
Context (sha256 b64_encode : bytes -> bytes) (b64_decode : bytes -> option bytes).

(** A client that follows the cursors: each page is asked for at some later
    moment, when the cache is in some state. *)
Fixpoint follow (visits : list (ListSnapshotStore * Z)) (cursor : bytes) (request : ListSnapshotRequest)
    : option (list ListSort.PathItem) :=
  match visits with
  | [] => None
  | (s, now) :: visits =>
      match decode_list_cursor b64_encode b64_decode cursor with
      | Err _ => None
      | Ok c =>
          match (store_page sha256 b64_encode s c request now).2 with
          | Err _ => None
          | Ok p =>
              match page_items p with
              | Err _ => None
              | Ok items =>
                  match next_cursor p with
                  | None => Some items
                  | Some cursor => rest ← follow visits cursor request; Some (items ++ rest)
                  end
              end
          end
      end
  end.

Context `{!CursorCodec sha256 b64_encode b64_decode}.

Lemma tag_length k i off : length (list_cursor_tag sha256 k i off) = 16%nat.
Proof. unfold list_cursor_tag, hmac_sha256. rewrite length_take, sha256_length. done. Qed.

Lemma decode_encode i k off :
  length i = 32%nat -> is_u64 off ->
  decode_list_cursor b64_encode b64_decode (encode_list_cursor sha256 b64_encode i k off) =
  Ok {| id := i; offset := off; tag := list_cursor_tag sha256 k i off |}.
Proof.
  intros Hi Hoff. unfold decode_list_cursor, encode_list_cursor.
  set (t := list_cursor_tag sha256 k i off). pose proof (tag_length k i off) as Ht. fold t in Ht.
  assert (length (u64_be off) = 8%nat) as Hb by apply length_be_bytes.
  assert (length (x03 :: i ++ u64_be off ++ t) = 57%nat) as Hl.
  { cbn [length]. rewrite !length_app, Hi, Hb, Ht. done. }
  rewrite b64_length, Hl, b64_roundtrip. cbn [Nat.eqb negb ok_or mbind result_bind].
  change ((4 * 57 + 2) / 3 =? 76)%nat with true. cbn [negb ok_or mbind result_bind]. rewrite Hl.
  rewrite !bool_decide_true by done. cbn [Nat.eqb andb negb head]. f_equal. f_equal.
  - cbn [drop]. by apply take_app_length'.
  - change (drop 33 (x03 :: i ++ u64_be off ++ t)) with (drop 32 (i ++ u64_be off ++ t)).
    rewrite drop_app_length', take_app_length' by done. by apply be_val_u64.
  - change (drop 41 (x03 :: i ++ u64_be off ++ t)) with (drop 40 (i ++ u64_be off ++ t)).
    rewrite app_assoc, drop_app_length'; [done|]. by rewrite length_app, Hi, Hb.
Qed.

Lemma matches_request_refl b : matches_request b b = true.
Proof. unfold matches_request, path_eqb. by rewrite !bool_decide_true, Z.eqb_refl by done. Qed.

(** One page of a snapshot that is still there. *)
Lemma page_of_snapshot s i r off now :
  consistent s -> snapshots s !! i = Some r -> (now < expires_at r)%Z ->
  (0 < off < Z.of_nat (length (paths r)))%Z ->
  let len := Z.of_nat (length (paths r)) in
  let stop := Z.min (u64_saturating_add off (limit (binding r))) len in
  (store_page sha256 b64_encode s
     {| id := i; offset := off; tag := list_cursor_tag sha256 (secret r) i off |} (binding r) now).2 =
  Ok {| page_paths := paths r; range_start := off; range_end := stop;
        next_cursor := if (stop <? len)%Z
                       then Some (encode_list_cursor sha256 b64_encode i (secret r) stop) else None |}.
Proof.
  intros Hc Hi Hlt Hoff. cbn zeta. unfold store_page. cbn [snd id offset tag].
  unfold purge_expired. rewrite (purge_loop_keeps _ _ i r) by done. cbn [ok_or mbind result_bind].
  rewrite bool_decide_true, matches_request_refl by done. cbn [ensure mbind result_bind].
  rewrite bool_decide_true by done. cbn [ensure mbind result_bind].
  rewrite (proj2 (Z.eqb_neq off 0)), (proj2 (Z.leb_gt _ off)) by lia. done.
Qed.

(** Following the cursors from an offset collects the rest of the snapshot. *)
Lemma follow_collects i r visits : forall off,
  length i = 32%nat -> (0 < limit (binding r))%Z -> (Z.of_nat (length (paths r)) <= U64_MAX)%Z ->
  Forall (fun v => consistent v.1 /\ snapshots v.1 !! i = Some r /\ (v.2 < expires_at r)%Z) visits ->
  (0 < off < Z.of_nat (length (paths r)))%Z ->
  (Z.of_nat (length (paths r)) - off <= Z.of_nat (length visits))%Z ->
  follow visits (encode_list_cursor sha256 b64_encode i (secret r) off) (binding r) =
  Some (drop (Z.to_nat off) (paths r)).
Proof.
  induction visits as [|[s now] visits IH]; intros off Hi Hlim Hmax HF Hoff Hlen; cbn [length] in Hlen; [lia|].
  apply Forall_cons in HF as [(Hc & Hs & Hlt) HF]. cbn [fst snd] in *. cbn [follow].
  rewrite decode_encode, page_of_snapshot by (done || unfold is_u64; lia).
  set (stop := Z.min (u64_saturating_add off (limit (binding r))) (Z.of_nat (length (paths r)))).
  assert (off < stop <= Z.of_nat (length (paths r)))%Z as Hstop.
  { unfold stop, u64_saturating_add. revert Hmax. generalize U64_MAX. lia. }
  unfold page_items. cbn [page_paths range_start range_end next_cursor].
  rewrite (proj2 (Z.leb_le off stop)), (proj2 (Z.leb_le stop _)) by lia. cbn [andb].
  destruct (Z.ltb_spec stop (Z.of_nat (length (paths r)))) as [Hmore|Hdone].
  - rewrite IH by (done || lia). cbn. f_equal.
    rewrite <- (take_drop (Z.to_nat (stop - off)) (drop (Z.to_nat off) (paths r))) at 2. f_equal.
    rewrite drop_drop. f_equal. lia.
  - f_equal. apply take_ge. rewrite length_drop. lia.
Qed.
End paging.

(** ** Runs of the cache *)

Inductive Op : Type :=
| CacheOp (a : Allocation) (b : ListSnapshotBinding) (items : list ListSort.PathItem)
    (draws : list (option (bytes * bytes))) (now : Z)
| PageOp (cursor : DecodedListCursor) (request : ListSnapshotRequest) (now : Z).

Definition op_time (op : Op) : Z := match op with CacheOp _ _ _ _ now => now | PageOp _ _ now => now end.
Definition op_ok (op : Op) : Prop := match op with CacheOp a _ _ _ _ => allocation_ok a | PageOp _ _ _ => True end.

(** The instants passed in do not go back, from [last] on. *)
Fixpoint in_time (last : Z) (ops : list Op) (now : Z) : Prop :=
  match ops with
  | [] => (last <= now)%Z
  | op :: ops => (last <= op_time op)%Z /\ in_time (op_time op) ops now
  end.

Section run.
Context (sha256 b64_encode : bytes -> bytes).

Definition step (s : ListSnapshotStore) (op : Op) : ListSnapshotStore :=
  match op with
  | CacheOp a b items draws now => (cache sha256 b64_encode s a b items draws now).1
  | PageOp cursor request now => (store_page sha256 b64_encode s cursor request now).1
  end.
Definition run (s : ListSnapshotStore) (ops : list Op) : ListSnapshotStore := foldl step s ops.

Lemma step_good s op :
  consistent s -> bounded s -> op_ok op -> consistent (step s op) /\ bounded (step s op).
Proof.
  intros Hc Hb Hop. destruct op as [a b items draws now|cursor request now]; cbn [step].
  - pose proof (cache_cases sha256 b64_encode s a b items draws now Hc Hb Hop) as H. cbn zeta in H.
    destruct (cache _ _ _ _ _ _ _ _) as [s' r]; cbn [fst].
    destruct H as [(_ & -> & _)|(s1 & He & [[-> _]|(i & k & _ & _ & _ & Hc' & Hb' & _)])]; [done| |done].
    split; [by eapply evicts_consistent|by eapply evicts_bounded].
  - rewrite page_store. pose proof (purge_evicts s now Hc) as He.
    split; [by eapply evicts_consistent|by eapply evicts_bounded].
Qed.

Lemma run_good ops s :
  consistent s -> bounded s -> Forall op_ok ops -> consistent (run s ops) /\ bounded (run s ops).
Proof.
  intros Hc Hb HF. revert s Hc Hb. induction HF as [|op ops Hop _ IH]; intros s Hc Hb; [done|].
  cbn. destruct (step_good s op Hc Hb Hop). by apply IH.
Qed.

Lemma step_clocked last s op :
  consistent s -> bounded s -> op_ok op -> (last <= op_time op)%Z ->
  clocked last s -> clocked (op_time op) (step s op).
Proof.
  intros Hc Hb Hop Hle Hcl%(fun H => clocked_mono _ (op_time op) _ H Hle).
  destruct op as [a b items draws now|cursor request now]; cbn [step op_time] in *.
  - pose proof (cache_cases sha256 b64_encode s a b items draws now Hc Hb Hop) as H. cbn zeta in H.
    destruct (cache _ _ _ _ _ _ _ _) as [s' r]; cbn [fst].
    destruct H as [(_ & -> & _)|(s1 & He & [[-> _]|(i & k & Hi & _ & -> & _)])];
      [done|by eapply evicts_clocked|].
    apply inserted_clocked; [by eapply evicts_consistent|done|done|by eapply evicts_clocked].
  - rewrite page_store. pose proof (purge_evicts s now Hc) as He. by eapply evicts_clocked.
Qed.

Lemma run_clocked ops last s now :
  consistent s -> bounded s -> Forall op_ok ops -> in_time last ops now ->
  clocked last s -> clocked now (run s ops).
Proof.
  intros Hc Hb HF. revert last s Hc Hb. induction HF as [|op ops Hop _ IH]; intros last s Hc Hb Ht Hcl; cbn in *.
  - by eapply clocked_mono.
  - destruct Ht as [Hle Ht]. destruct (step_good s op Hc Hb Hop).
    eapply IH; [done|done|exact Ht|by eapply step_clocked].
Qed.
End run.

Lemma default_good : consistent default_store /\ bounded default_store.
Proof.
  split; split; cbn; try done.
  - constructor.
  - intros i. rewrite lookup_empty. split; [by intros ?%not_elem_of_nil|by intros [? ?]].
Qed.

Lemma default_clocked last : clocked last default_store.
Proof. split; constructor. Qed.

(** ** Theorems *)

(** The cache stays within its bounds: along any sequence of calls, whatever
    their times, at most 32 snapshots and 64 MiB are kept, at most 8 snapshots and
    32 MiB of them for any one owner, the recorded weight is the exact sum of the
    snapshots' weights, and the eviction queue lists every snapshot exactly once. *)
Lemma snapshot_cache_bounded sha256 b64_encode ops :
  Forall op_ok ops ->
  let s := run sha256 b64_encode default_store ops in consistent s /\ bounded s.
Proof. intros HF. apply run_good; [apply default_good..|done]. Qed.

(** C37. A page is handed out only on a genuine cursor: after any sequence of calls
    with instants that do not go back, a successful lookup means that the cursor
    names a stored snapshot that has not expired, carries the tag computed with
    that snapshot's secret for this very offset, and comes with the owner, path,
    sort keys, query, page size and directory state the snapshot was made for; the
    page is cut from that snapshot at the cursor's offset. *)
Theorem page_authentic sha256 b64_encode ops cursor request now p :
  Forall op_ok ops -> in_time 0 ops now -> is_u64 (offset cursor) ->
  let s := run sha256 b64_encode default_store ops in
  (store_page sha256 b64_encode s cursor request now).2 = Ok p ->
  exists r, snapshots (purge_expired s now) !! id cursor = Some r /\ (now < expires_at r)%Z /\
    tag cursor = list_cursor_tag sha256 (secret r) (id cursor) (offset cursor) /\
    matches_request (binding r) request = true /\ directory (binding r) = directory request /\
    (0 < offset cursor < Z.of_nat (length (paths r)))%Z /\
    page_paths p = paths r /\ range_start p = offset cursor.
Proof.
  intros HF Ht [Hoff _] s H. destruct default_good as [Hc0 Hb0].
  destruct (run_good sha256 b64_encode ops default_store Hc0 Hb0 HF) as [Hc Hb].
  pose proof (run_clocked sha256 b64_encode ops 0 default_store now Hc0 Hb0 HF Ht (default_clocked 0)) as Hcl.
  fold s in Hc, Hb, Hcl. unfold store_page in H. cbn [snd] in H.
  apply bind_Ok in H as (r & Hr%ok_or_Ok & H). apply bind_Ok in H as (u1 & Htag & H).
  apply bind_Ok in H as (u2 & Hm & H). apply bind_Ok in H as (u3 & Hd & H). apply bind_Ok in H as (u4 & Ho & H).
  rewrite ensure_Ok in Htag, Hm, Hd, Ho. rewrite bool_decide_eq_true in Htag, Hd.
  rewrite negb_true_iff, orb_false_iff, Z.eqb_neq, Z.leb_gt in Ho.
  injection H as <-. exists r. cbn. split_and!; try done; [by eapply purge_alive|lia|lia].
Qed.

(** A listing of three entries, two per page. *)
Definition item0 (n : Z) : ListSort.PathItem :=
  {| ListSort.path_type := ListSort.File; ListSort.sort_name := [byte_of n]; ListSort.name := [byte_of n];
     ListSort.mtime := 0; ListSort.size := n; ListSort.item_revision := [] |}.
Definition items0 : list ListSort.PathItem := [item0 1; item0 2; item0 3].
Definition directory0 : DirectorySnapshot :=
  {| ds_device := 1; ds_inode := 2; ds_mtime := 3; ds_mtime_nanoseconds := 4; ds_ctime := 5;
     ds_ctime_nanoseconds := 6 |}.
Definition binding0 : ListSnapshotBinding :=
  {| owner := str "alice"; path := str "/srv/a"; directory := directory0; sort := str "name";
     order := str "asc"; query := []; limit := 2 |}.
Definition allocation0 : Allocation :=
  {| record_size := 200; item_size := 100; path_capacity := 3; sort_capacity := 4; order_capacity := 3;
     query_capacity := 0; name_capacities := [(1, 1); (1, 1); (1, 1)]%Z |}.
Definition id0 : bytes := replicate 32 x01.
Definition secret0 : bytes := replicate 32 x02.
Definition cache0 : Op := CacheOp allocation0 binding0 items0 [None; Some (id0, secret0)] 1000.

(** Stand-ins with the laws of the two libraries: the sum of the bytes for a
    digest, and the bytes followed by padding for an encoding. *)
Definition digest0 (b : bytes) : bytes := replicate 32 (byte_of (foldr Z.add 0%Z (byte_val <$> b))).
Definition encode0 (b : bytes) : bytes := b ++ replicate ((4 * length b + 2) / 3 - length b) x2d.
Definition decode0 (b : bytes) : option bytes := Some (take (3 * length b / 4) b).

#[local] Instance codec0 : CursorCodec digest0 encode0 decode0.
Proof.
  assert (forall n, n <= (4 * n + 2) / 3)%nat as Hge.
  { intros n. pose proof (Nat.div_mod (4 * n + 2) 3 ltac:(lia)).
    pose proof (Nat.mod_upper_bound (4 * n + 2) 3 ltac:(lia)). lia. }
  split.
  - intros b. apply length_replicate.
  - intros b. unfold decode0, encode0. rewrite length_app, length_replicate. f_equal.
    specialize (Hge (length b)).
    replace (3 * (length b + ((4 * length b + 2) / 3 - length b)) / 4)%nat with (length b);
      [by apply take_app_length|].
    apply (Nat.div_unique _ 4 _ (3 * ((4 * length b + 2) / 3) - 4 * length b)).
    + pose proof (Nat.div_mod (4 * length b + 2) 3 ltac:(lia)). lia.
    + pose proof (Nat.div_mod (4 * length b + 2) 3 ltac:(lia)).
      pose proof (Nat.mod_upper_bound (4 * length b + 2) 3 ltac:(lia)). lia.
  - intros b. unfold encode0. rewrite length_app, length_replicate. specialize (Hge (length b)). lia.
Qed.

Lemma cache0_ok : Forall op_ok [cache0].
Proof. repeat constructor; cbn; lia. Qed.

Lemma snapshot_cache_bounded_witness :
  let s := run digest0 encode0 default_store [cache0] in consistent s /\ bounded s.
Proof. apply (snapshot_cache_bounded digest0 encode0 [cache0]). apply cache0_ok. Defined.

Definition cursor0 : DecodedListCursor :=
  {| id := id0; offset := 2; tag := list_cursor_tag digest0 secret0 id0 2 |}.
Definition page0 : ListSnapshotPage :=
  {| page_paths := items0; range_start := 2; range_end := 3; next_cursor := None |}.

Lemma page_authentic_witness :
  let s := run digest0 encode0 default_store [cache0] in
  exists r, snapshots (purge_expired s 2000) !! id cursor0 = Some r /\ (2000 < expires_at r)%Z /\
    tag cursor0 = list_cursor_tag digest0 (secret r) (id cursor0) (offset cursor0) /\
    matches_request (binding r) binding0 = true /\ directory (binding r) = directory binding0 /\
    (0 < offset cursor0 < Z.of_nat (length (paths r)))%Z /\
    page_paths page0 = paths r /\ range_start page0 = offset cursor0.
Proof.
  apply (page_authentic digest0 encode0 [cache0] cursor0 binding0 2000 page0).
  - apply cache0_ok.
  - vm_compute. split; discriminate.
  - vm_compute. split; discriminate.
  - vm_compute. reflexivity.
Defined.

(** C38. Paging is complete: when a listing is cached, the first page and the pages
    a client gets by following the cursors are together the whole listing, every
    entry once and in order, whatever other calls the cache serves in between, as
    long as the snapshot is not evicted and has not expired when a page is asked
    for; as many visits as there are entries are enough. *)
Theorem paging_complete sha256 b64_encode b64_decode s a b items draws now s' first cursor c visits :
  CursorCodec sha256 b64_encode b64_decode ->
  consistent s -> bounded s -> allocation_ok a ->
  (0 < limit b < Z.of_nat (length items))%Z -> (Z.of_nat (length items) <= U64_MAX)%Z ->
  Forall (fun d => match d with Some (i, _) => length i = 32%nat | None => True end) draws ->
  cache sha256 b64_encode s a b items draws now = (s', Ok first) ->
  next_cursor first = Some cursor -> decode_list_cursor b64_encode b64_decode cursor = Ok c ->
  Forall (fun v => consistent v.1 /\ snapshots v.1 !! id c = snapshots s' !! id c /\
                   (v.2 < now + LIST_SNAPSHOT_TTL)%Z) visits ->
  (length items <= length visits)%nat ->
  exists page rest, page_items first = Ok page /\
    follow sha256 b64_encode b64_decode visits cursor b = Some rest /\ page ++ rest = items.
Proof.
  intros Hcodec Hc Hb Ha Hlim Hmax Hids H Hcur Hdec HF Hlen.
  pose proof (cache_cases sha256 b64_encode s a b items draws now Hc Hb Ha) as Hcases.
  rewrite H in Hcases. cbn zeta in Hcases.
  destruct Hcases as [(_ & _ & ?)|(s1 & _ & [[_ ?]|(i & k & _ & Hin & -> & _ & _ & _ & Hfirst)])]; [done..|].
  injection Hfirst as ->. cbn in Hcur. injection Hcur as <-.
  assert (length i = 32%nat) as Hi by (rewrite Forall_forall in Hids; by apply Hids in Hin).
  rewrite decode_encode in Hdec by (done || unfold is_u64; lia). injection Hdec as <-. cbn [id] in HF.
  exists (take (Z.to_nat (limit b)) items), (drop (Z.to_nat (limit b)) items). split_and!.
  - unfold page_items. cbn [range_start range_end page_paths].
    rewrite (proj2 (Z.leb_le 0 (limit b))), (proj2 (Z.leb_le (limit b) _)) by lia. cbn [andb].
    rewrite Z.sub_0_r. by rewrite drop_0.
  - eapply (follow_collects sha256 b64_encode b64_decode i
      {| secret := k; binding := b; paths := items; expires_at := now + LIST_SNAPSHOT_TTL;
         weight := list_snapshot_weight a b |} visits (limit b)); cbn; try done; try lia.
    eapply Forall_impl; [exact HF|]. intros v (H1 & H2 & H3). split_and!; [done| |done].
    rewrite H2. apply lookup_insert_eq.
  - apply take_drop.
Qed.

Definition store0 : ListSnapshotStore := run digest0 encode0 default_store [cache0].

Lemma paging_complete_witness :
  exists page rest,
    page_items {| page_paths := items0; range_start := 0; range_end := 2;
                  next_cursor := Some (encode_list_cursor digest0 encode0 id0 secret0 2) |} = Ok page /\
    follow digest0 encode0 decode0 (replicate 3 (store0, 2000%Z))
      (encode_list_cursor digest0 encode0 id0 secret0 2) binding0 = Some rest /\ page ++ rest = items0.
Proof.
  apply (paging_complete digest0 encode0 decode0 default_store allocation0 binding0 items0
           [None; Some (id0, secret0)] 1000 store0
           {| page_paths := items0; range_start := 0; range_end := 2;
              next_cursor := Some (encode_list_cursor digest0 encode0 id0 secret0 2) |}
           (encode_list_cursor digest0 encode0 id0 secret0 2) cursor0).
  - apply codec0.
  - apply default_good.
  - apply default_good.
  - vm_compute. split_and!; try discriminate. repeat constructor; discriminate.
  - vm_compute. done.
  - vm_compute. discriminate.
  - repeat constructor.
  - reflexivity.
  - reflexivity.
  - vm_compute. reflexivity.
  - assert (consistent store0) as Hc
      by (apply (run_good digest0 encode0); [apply default_good..|apply cache0_ok]).
    apply Forall_replicate. split; [exact Hc|split; [reflexivity|vm_compute; reflexivity]].
  - vm_compute. lia.
Defined.
End ListSnapshot.
