(* ===== verification/Problem.v ===== *)
(** * Problems and responses

    [src/server/problem.rs] and the public states of [src/server/protocol.rs]:
    the stable error codes, the recovery advice, and the part of an HTTP response
    the upload handlers write.  A response body is kept as the [ApiError] it
    serialises; header values are kept as the values they print. *)

From S2P Require Import Prelude.

Module Problem.

(** ** Error codes *)

Definition ErrorCode : Type := bytes.

Definition API_ENDPOINT_NOT_FOUND : ErrorCode := str "api_endpoint_not_found".
Definition DELETE_NOT_COMMITTED : ErrorCode := str "delete_not_committed".
Definition DELETE_STATE_CONFLICT : ErrorCode := str "delete_state_conflict".
Definition DELETE_TARGET_CHANGED : ErrorCode := str "delete_target_changed".
Definition DESTINATION_CHANGED : ErrorCode := str "destination_changed".
Definition DESTINATION_EXISTS : ErrorCode := str "destination_exists".
Definition DESTINATION_DIRECTORY_NOT_FOUND : ErrorCode := str "destination_directory_not_found".
Definition DESTINATION_NOT_DIRECTORY : ErrorCode := str "destination_not_directory".
Definition DIRECTORY_ACCESS_FORBIDDEN : ErrorCode := str "directory_access_forbidden".
Definition DIRECTORY_CHANGED : ErrorCode := str "directory_changed".
Definition DIRECTORY_DEPTH_LIMIT : ErrorCode := str "directory_depth_limit".
Definition DIRECTORY_ENTRY_LIMIT : ErrorCode := str "directory_entry_limit".
Definition DIRECTORY_INTO_ITSELF : ErrorCode := str "directory_into_itself".
Definition DIRECTORY_MEMORY_LIMIT : ErrorCode := str "directory_memory_limit".
Definition DIRECTORY_OPERATION_FAILED : ErrorCode := str "directory_operation_failed".
Definition DIRECTORY_OPERATION_LIMIT : ErrorCode := str "directory_operation_limit".
Definition DIRECTORY_OPERATION_TIMEOUT : ErrorCode := str "directory_operation_timeout".
Definition DIRECTORY_OVERWRITE_FORBIDDEN : ErrorCode := str "directory_overwrite_forbidden".
Definition DIRECTORY_SORT_LIMIT : ErrorCode := str "directory_sort_limit".
Definition DIRECTORY_SYMLINK_LOOP : ErrorCode := str "directory_symlink_loop".
Definition FILESYSTEM_TIMEOUT : ErrorCode := str "filesystem_timeout".
Definition INSUFFICIENT_STORAGE : ErrorCode := str "insufficient_storage".
Definition INTERNAL_ERROR : ErrorCode := str "internal_error".
Definition INVALID_DESTINATION_PATH : ErrorCode := str "invalid_destination_path".
Definition INVALID_DESTINATION_REVISION : ErrorCode := str "invalid_destination_revision".
Definition INVALID_JOB_ID : ErrorCode := str "invalid_job_id".
Definition INVALID_JSON : ErrorCode := str "invalid_json".
Definition INVALID_LIST_CURSOR : ErrorCode := str "invalid_list_cursor".
Definition INVALID_LIST_LIMIT : ErrorCode := str "invalid_list_limit".
Definition INVALID_LIST_PATH : ErrorCode := str "invalid_list_path".
Definition INVALID_TAG_FILTER : ErrorCode := str "invalid_tag_filter".
Definition TAG_LOOKUP_FAILED : ErrorCode := str "tag_lookup_failed".
Definition INVALID_MOVE_PATH : ErrorCode := str "invalid_move_path".
Definition INVALID_OPERATION_ID : ErrorCode := str "invalid_operation_id".
Definition INVALID_PATH : ErrorCode := str "invalid_path".
Definition INVALID_RENAME_NAME : ErrorCode := str "invalid_rename_name".
Definition INVALID_RENAME_PATH : ErrorCode := str "invalid_rename_path".
Definition INVALID_REQUEST : ErrorCode := str "invalid_request".
Definition INVALID_REQUEST_BODY : ErrorCode := str "invalid_request_body".
Definition INVALID_SOURCE_PATH : ErrorCode := str "invalid_source_path".
Definition INVALID_SOURCE_REVISION : ErrorCode := str "invalid_source_revision".
Definition INVALID_UPLOAD_ID : ErrorCode := str "invalid_upload_id".
Definition INVALID_UPLOAD_LENGTH : ErrorCode := str "invalid_upload_length".
Definition INVALID_UPLOAD_OFFSET : ErrorCode := str "invalid_upload_offset".
Definition INVALID_UPLOAD_OVERWRITE : ErrorCode := str "invalid_upload_overwrite".
Definition INVALID_TARGET_REVISION : ErrorCode := str "invalid_target_revision".
Definition JOB_NOT_FOUND : ErrorCode := str "job_not_found".
Definition JOB_STORE_UNAVAILABLE : ErrorCode := str "job_store_unavailable".
Definition LIST_CURSOR_UNAVAILABLE : ErrorCode := str "list_cursor_unavailable".
Definition LIST_PATH_NOT_DIRECTORY : ErrorCode := str "list_path_not_directory".
Definition LIST_PATH_NOT_FOUND : ErrorCode := str "list_path_not_found".
Definition LIST_SNAPSHOT_LIMIT : ErrorCode := str "list_snapshot_limit".
Definition METHOD_NOT_ALLOWED : ErrorCode := str "method_not_allowed".
Definition MKDIR_STATE_CONFLICT : ErrorCode := str "mkdir_state_conflict".
Definition MKDIR_STATE_UNAVAILABLE : ErrorCode := str "mkdir_state_unavailable".
Definition MOVE_STATE_CONFLICT : ErrorCode := str "move_state_conflict".
Definition MOVE_STATE_UNAVAILABLE : ErrorCode := str "move_state_unavailable".
Definition OPERATION_ID_CONFLICT : ErrorCode := str "operation_id_conflict".
Definition OPERATION_IN_PROGRESS : ErrorCode := str "operation_in_progress".
Definition OPERATION_NOT_COMMITTED : ErrorCode := str "operation_not_committed".
Definition OPERATION_REGISTRY_FULL : ErrorCode := str "operation_registry_full".
Definition OPERATION_RESULT_UNKNOWN : ErrorCode := str "operation_result_unknown".
Definition OPERATION_STORE_UNAVAILABLE : ErrorCode := str "operation_store_unavailable".
Definition OUTCOME_UNCERTAIN : ErrorCode := str "outcome_uncertain".
Definition PATH_WAIT_CONCURRENCY_LIMIT : ErrorCode := str "path_wait_concurrency_limit".
Definition PATH_EXISTS : ErrorCode := str "path_exists".
Definition PURGE_BACKLOG_FULL : ErrorCode := str "purge_backlog_full".
Definition PURGE_STATE_UNAVAILABLE : ErrorCode := str "purge_state_unavailable".
Definition REQUEST_BODY_TOO_LARGE : ErrorCode := str "request_body_too_large".
Definition REQUEST_CONFLICT : ErrorCode := str "request_conflict".
Definition REQUEST_FORBIDDEN : ErrorCode := str "request_forbidden".
Definition REQUEST_NOT_FOUND : ErrorCode := str "request_not_found".
Definition REQUEST_TIMEOUT : ErrorCode := str "request_timeout".
Definition SOURCE_CHANGED : ErrorCode := str "source_changed".
Definition SOURCE_REVISION_REQUIRED : ErrorCode := str "source_revision_required".
Definition DESTINATION_REVISION_REQUIRED : ErrorCode := str "destination_revision_required".
Definition RENAME_STATE_CONFLICT : ErrorCode := str "rename_state_conflict".
Definition RENAME_STATE_UNAVAILABLE : ErrorCode := str "rename_state_unavailable".
Definition ROOT_DELETE_FORBIDDEN : ErrorCode := str "root_delete_forbidden".
Definition SEARCH_QUERY_TOO_LONG : ErrorCode := str "search_query_too_long".
Definition SEARCH_RESULT_LIMIT : ErrorCode := str "search_result_limit".
Definition SERVER_STOPPING : ErrorCode := str "server_stopping".
Definition SOURCE_EQUALS_DESTINATION : ErrorCode := str "source_equals_destination".
Definition SOURCE_NOT_FOUND : ErrorCode := str "source_not_found".
Definition TARGET_NOT_FOUND : ErrorCode := str "target_not_found".
Definition UNSUPPORTED_FILENAME : ErrorCode := str "unsupported_filename".
Definition UNSUPPORTED_MEDIA_TYPE : ErrorCode := str "unsupported_media_type".
Definition UPLOAD_BODY_EXCEEDS_REMAINING_LENGTH : ErrorCode := str "upload_body_exceeds_remaining_length".
Definition UPLOAD_CHECKPOINT_PERSIST_FAILED : ErrorCode := str "upload_checkpoint_persist_failed".
Definition UPLOAD_COMMITTED_LENGTH_MISMATCH : ErrorCode := str "upload_committed_length_mismatch".
Definition UPLOAD_CONCURRENCY_LIMIT : ErrorCode := str "upload_concurrency_limit".
Definition UPLOAD_ID_REJECTED : ErrorCode := str "upload_id_rejected".
Definition UPLOAD_IDLE_TIMEOUT : ErrorCode := str "upload_idle_timeout".
Definition UPLOAD_IN_PROGRESS : ErrorCode := str "upload_in_progress".
Definition UPLOAD_INSUFFICIENT_STORAGE : ErrorCode := str "upload_insufficient_storage".
Definition UPLOAD_LENGTH_CHANGED : ErrorCode := str "upload_length_changed".
Definition UPLOAD_LENGTH_MISMATCH : ErrorCode := str "upload_length_mismatch".
Definition UPLOAD_METADATA_PRESERVATION_REFUSED : ErrorCode := str "upload_metadata_preservation_refused".
Definition UPLOAD_NOT_PUBLISHED : ErrorCode := str "upload_not_published".
Definition UPLOAD_OFFSET_CHANGED : ErrorCode := str "upload_offset_changed".
Definition UPLOAD_OUTCOME_UNKNOWN : ErrorCode := str "upload_outcome_unknown".
Definition UPLOAD_PATH_WAIT_TIMEOUT : ErrorCode := str "upload_path_wait_timeout".
Definition UPLOAD_PRECOMMIT_FAILED : ErrorCode := str "upload_precommit_failed".
Definition UPLOAD_PREFLIGHT_CONCURRENCY_LIMIT : ErrorCode := str "upload_preflight_concurrency_limit".
Definition UPLOAD_PUBLICATION_DURABILITY_UNKNOWN : ErrorCode := str "upload_publication_durability_unknown".
Definition UPLOAD_PUBLICATION_OUTCOME_UNKNOWN : ErrorCode := str "upload_publication_outcome_unknown".
Definition UPLOAD_RESULT_UNKNOWN : ErrorCode := str "upload_result_unknown".
Definition UPLOAD_SESSION_CONFLICT : ErrorCode := str "upload_session_conflict".
Definition UPLOAD_SESSION_NOT_FOUND : ErrorCode := str "upload_session_not_found".
Definition UPLOAD_SESSION_STORE_FULL : ErrorCode := str "upload_session_store_full".
Definition UPLOAD_SIZE_LIMIT_EXCEEDED : ErrorCode := str "upload_size_limit_exceeded".
Definition UPLOAD_STAGE_CONFLICT : ErrorCode := str "upload_stage_conflict".
Definition UPLOAD_STAGE_INVALID : ErrorCode := str "upload_stage_invalid".
Definition UPLOAD_STATE_CONFLICT : ErrorCode := str "upload_state_conflict".
Definition UPLOAD_STATE_UNAVAILABLE : ErrorCode := str "upload_state_unavailable".
Definition UPLOAD_TARGET_CHANGED : ErrorCode := str "upload_target_changed".
Definition UPLOAD_TARGET_INSPECTION_TIMEOUT : ErrorCode := str "upload_target_inspection_timeout".
Definition UPLOAD_TARGET_NOT_FOUND : ErrorCode := str "upload_target_not_found".
Definition UPLOAD_TERMINAL_RECORD_FAILED : ErrorCode := str "upload_terminal_record_failed".

Definition ALL : list ErrorCode :=
  [API_ENDPOINT_NOT_FOUND; DELETE_NOT_COMMITTED; DELETE_STATE_CONFLICT; DELETE_TARGET_CHANGED; DESTINATION_CHANGED; DESTINATION_EXISTS; DESTINATION_DIRECTORY_NOT_FOUND; DESTINATION_NOT_DIRECTORY; DIRECTORY_ACCESS_FORBIDDEN; DIRECTORY_CHANGED; DIRECTORY_DEPTH_LIMIT; DIRECTORY_ENTRY_LIMIT; DIRECTORY_INTO_ITSELF; DIRECTORY_MEMORY_LIMIT; DIRECTORY_OPERATION_FAILED; DIRECTORY_OPERATION_LIMIT; DIRECTORY_OPERATION_TIMEOUT; DIRECTORY_OVERWRITE_FORBIDDEN; DIRECTORY_SORT_LIMIT; DIRECTORY_SYMLINK_LOOP; FILESYSTEM_TIMEOUT; INSUFFICIENT_STORAGE; INTERNAL_ERROR; INVALID_DESTINATION_PATH; INVALID_DESTINATION_REVISION; INVALID_JOB_ID; INVALID_JSON; INVALID_LIST_CURSOR; INVALID_LIST_LIMIT; INVALID_LIST_PATH; INVALID_TAG_FILTER; TAG_LOOKUP_FAILED; INVALID_MOVE_PATH; INVALID_OPERATION_ID; INVALID_PATH; INVALID_RENAME_NAME; INVALID_RENAME_PATH; INVALID_REQUEST; INVALID_REQUEST_BODY; INVALID_SOURCE_PATH; INVALID_SOURCE_REVISION; INVALID_UPLOAD_ID; INVALID_UPLOAD_LENGTH; INVALID_UPLOAD_OFFSET; INVALID_UPLOAD_OVERWRITE; INVALID_TARGET_REVISION; JOB_NOT_FOUND; JOB_STORE_UNAVAILABLE; LIST_CURSOR_UNAVAILABLE; LIST_PATH_NOT_DIRECTORY; LIST_PATH_NOT_FOUND; LIST_SNAPSHOT_LIMIT; METHOD_NOT_ALLOWED; MKDIR_STATE_CONFLICT; MKDIR_STATE_UNAVAILABLE; MOVE_STATE_CONFLICT; MOVE_STATE_UNAVAILABLE; OPERATION_ID_CONFLICT; OPERATION_IN_PROGRESS; OPERATION_NOT_COMMITTED; OPERATION_REGISTRY_FULL; OPERATION_RESULT_UNKNOWN; OPERATION_STORE_UNAVAILABLE; OUTCOME_UNCERTAIN; PATH_WAIT_CONCURRENCY_LIMIT; PATH_EXISTS; PURGE_BACKLOG_FULL; PURGE_STATE_UNAVAILABLE; REQUEST_BODY_TOO_LARGE; REQUEST_CONFLICT; REQUEST_FORBIDDEN; REQUEST_NOT_FOUND; REQUEST_TIMEOUT; SOURCE_CHANGED; SOURCE_REVISION_REQUIRED; DESTINATION_REVISION_REQUIRED; RENAME_STATE_CONFLICT; RENAME_STATE_UNAVAILABLE; ROOT_DELETE_FORBIDDEN; SEARCH_QUERY_TOO_LONG; SEARCH_RESULT_LIMIT; SERVER_STOPPING; SOURCE_EQUALS_DESTINATION; SOURCE_NOT_FOUND; TARGET_NOT_FOUND; UNSUPPORTED_FILENAME; UNSUPPORTED_MEDIA_TYPE; UPLOAD_BODY_EXCEEDS_REMAINING_LENGTH; UPLOAD_CHECKPOINT_PERSIST_FAILED; UPLOAD_COMMITTED_LENGTH_MISMATCH; UPLOAD_CONCURRENCY_LIMIT; UPLOAD_ID_REJECTED; UPLOAD_IDLE_TIMEOUT; UPLOAD_IN_PROGRESS; UPLOAD_INSUFFICIENT_STORAGE; UPLOAD_LENGTH_CHANGED; UPLOAD_LENGTH_MISMATCH; UPLOAD_METADATA_PRESERVATION_REFUSED; UPLOAD_NOT_PUBLISHED; UPLOAD_OFFSET_CHANGED; UPLOAD_OUTCOME_UNKNOWN; UPLOAD_PATH_WAIT_TIMEOUT; UPLOAD_PRECOMMIT_FAILED; UPLOAD_PREFLIGHT_CONCURRENCY_LIMIT; UPLOAD_PUBLICATION_DURABILITY_UNKNOWN; UPLOAD_PUBLICATION_OUTCOME_UNKNOWN; UPLOAD_RESULT_UNKNOWN; UPLOAD_SESSION_CONFLICT; UPLOAD_SESSION_NOT_FOUND; UPLOAD_SESSION_STORE_FULL; UPLOAD_SIZE_LIMIT_EXCEEDED; UPLOAD_STAGE_CONFLICT; UPLOAD_STAGE_INVALID; UPLOAD_STATE_CONFLICT; UPLOAD_STATE_UNAVAILABLE; UPLOAD_TARGET_CHANGED; UPLOAD_TARGET_INSPECTION_TIMEOUT; UPLOAD_TARGET_NOT_FOUND; UPLOAD_TERMINAL_RECORD_FAILED].

(** The assertions of [ErrorCode::checked]. *)
Definition is_lower (b : byte) : bool := ((97 <=? byte_val b) && (byte_val b <=? 122))%Z.
Definition is_digit (b : byte) : bool := ((48 <=? byte_val b) && (byte_val b <=? 57))%Z.
Definition checked (value : bytes) : option ErrorCode :=
  if negb (negb (bool_decide (value = [])) && (length value <=? 64)%nat) then None
  else match value with
       | [] => None
       | first :: rest =>
           if negb (is_lower first) then None
           else if forallb (fun b => is_lower b || is_digit b || bool_decide (b = x5f)) rest
                then Some value else None
       end.

(** ** Recovery advice *)

Inductive RecoveryAdvice : Type :=
| NoAdvice | Retry | RetryAfterSeconds (seconds : Z) | RetryWithNewId | ResumeUpload
| QueryJob | QueryUpload | QueryUploadAfterSeconds (seconds : Z) | RefreshTarget.

Definition recovery_wire_name (r : RecoveryAdvice) : option bytes :=
  match r with
  | NoAdvice => None
  | Retry | RetryAfterSeconds _ => Some (str "retry")
  | RetryWithNewId => Some (str "retry_with_new_id")
  | ResumeUpload => Some (str "resume_upload")
  | QueryJob => Some (str "query_job")
  | QueryUpload | QueryUploadAfterSeconds _ => Some (str "query_upload")
  | RefreshTarget => Some (str "refresh_target")
  end.

Definition retry_after_seconds (r : RecoveryAdvice) : option Z :=
  match r with
  | RetryAfterSeconds seconds | QueryUploadAfterSeconds seconds => Some seconds
  | _ => None
  end.

(** ** Upload states *)

Inductive UploadPublicState : Type :=
| PsRunning | PsAwaitingConfirmation | PsCommitted | PsRejected | PsNotSeen | PsNotStarted | PsUnknown.
#[global] Instance UploadPublicState_eq_dec : EqDecision UploadPublicState.
Proof. solve_decision. Defined.

Definition upload_wire_name (s : UploadPublicState) : bytes :=
  match s with
  | PsRunning => str "running"
  | PsAwaitingConfirmation => str "awaiting-confirmation"
  | PsCommitted => str "committed"
  | PsRejected => str "rejected"
  | PsNotSeen => str "not-seen"
  | PsNotStarted => str "not-started"
  | PsUnknown => str "unknown"
  end.

(** ** Problems *)

Record UploadProblemContext : Type := {
  pc_upload_id : bytes;
  pc_state : UploadPublicState;
  pc_length : option Z;
  pc_offset : option Z }.

Record ApiError : Type := {
  api_status : Z;
  api_code : ErrorCode;
  api_detail : bytes;
  api_recovery : RecoveryAdvice;
  api_upload : option UploadProblemContext }.

Definition new_api_error (status : Z) (code : ErrorCode) (detail : bytes) : ApiError :=
  {| api_status := status; api_code := code; api_detail := detail; api_recovery := NoAdvice;
     api_upload := None |}.
Definition with_recovery (recovery : RecoveryAdvice) (e : ApiError) : ApiError :=
  {| api_status := api_status e; api_code := api_code e; api_detail := api_detail e;
     api_recovery := recovery; api_upload := api_upload e |}.
Definition with_upload (upload : UploadProblemContext) (e : ApiError) : ApiError :=
  {| api_status := api_status e; api_code := api_code e; api_detail := api_detail e;
     api_recovery := api_recovery e; api_upload := Some upload |}.

(** ** Responses *)

Record Response : Type := {
  res_status : Z;
  h_upload_id : option bytes;
  h_state : option UploadPublicState;
  h_length : option Z;
  h_offset : option Z;
  h_revision : option bytes;
  h_replaceable : option bool;
  h_retry_after : option Z;
  res_problem : option ApiError }.

Definition default_response : Response :=
  {| res_status := 200; h_upload_id := None; h_state := None; h_length := None; h_offset := None;
     h_revision := None; h_replaceable := None; h_retry_after := None; res_problem := None |}.

Definition set_status (status : Z) (r : Response) : Response :=
  {| res_status := status; h_upload_id := h_upload_id r; h_state := h_state r; h_length := h_length r;
     h_offset := h_offset r; h_revision := h_revision r; h_replaceable := h_replaceable r;
     h_retry_after := h_retry_after r; res_problem := res_problem r |}.
Definition set_upload_id (i : bytes) (r : Response) : Response :=
  {| res_status := res_status r; h_upload_id := Some i; h_state := h_state r; h_length := h_length r;
     h_offset := h_offset r; h_revision := h_revision r; h_replaceable := h_replaceable r;
     h_retry_after := h_retry_after r; res_problem := res_problem r |}.
Definition set_offset (offset : Z) (r : Response) : Response :=
  {| res_status := res_status r; h_upload_id := h_upload_id r; h_state := h_state r;
     h_length := h_length r; h_offset := Some offset; h_revision := h_revision r;
     h_replaceable := h_replaceable r; h_retry_after := h_retry_after r; res_problem := res_problem r |}.
Definition set_target (revision : option bytes) (replaceable : bool) (r : Response) : Response :=
  {| res_status := res_status r; h_upload_id := h_upload_id r; h_state := h_state r;
     h_length := h_length r; h_offset := h_offset r; h_revision := revision;
     h_replaceable := Some replaceable; h_retry_after := h_retry_after r; res_problem := res_problem r |}.

Definition render_problem (error : ApiError) (r : Response) : Response :=
  {| res_status := api_status error; h_upload_id := h_upload_id r; h_state := h_state r;
     h_length := h_length r; h_offset := h_offset r; h_revision := h_revision r;
     h_replaceable := h_replaceable r; h_retry_after := retry_after_seconds (api_recovery error);
     res_problem := Some error |}.

(** The error vocabulary is sound: every code satisfies the constraints clients
    rely on, no two codes share a wire name, and no two upload states do. *)
Lemma vocabulary_well_formed :
  Forall (fun code => checked code = Some code) ALL /\ NoDup ALL /\ Inj (=) (=) upload_wire_name.
Proof.
  split; [|split].
  - by apply (bool_decide_eq_true_1 (Forall (fun code => checked code = Some code) ALL)).
  - by apply (bool_decide_eq_true_1 (NoDup ALL)).
  - intros [] []; done.
Qed.
End Problem.
