(* ===== verification/FileRevision.v ===== *)
(** * Identities and revisions of directory entries

    What [fstat] and [statat] report ([Stat]), the two identities
    [server/rooted_fs.rs] derives from it, and the revision that a durable purge
    record and an upload's target token commit to.  [DeleteIdentity] tells objects
    apart, [ExistingReplacementTarget] tells states of one object apart. *)

From S2P Require Import Prelude.

(** [rustix::fs::FileType] and [FileType::from_raw_mode] *)
Inductive FileType : Type :=
| RegularFile | Directory | Symlink | BlockDevice | CharacterDevice | Fifo | Socket | UnknownType.
#[global] Instance FileType_eq_dec : EqDecision FileType.
Proof. solve_decision. Defined.

Definition S_IFMT : Z := 61440.
Definition from_raw_mode (mode : Z) : FileType :=
  let kind := Z.land mode S_IFMT in
  if (kind =? 32768)%Z then RegularFile
  else if (kind =? 16384)%Z then Directory
  else if (kind =? 40960)%Z then Symlink
  else if (kind =? 24576)%Z then BlockDevice
  else if (kind =? 8192)%Z then CharacterDevice
  else if (kind =? 4096)%Z then Fifo
  else if (kind =? 49152)%Z then Socket
  else UnknownType.

(** The fields of [rustix::fs::Stat] the code reads. *)
Record Stat : Type := {
  st_dev : Z;
  st_ino : Z;
  st_mode : Z;
  st_nlink : Z;
  st_size : Z;
  st_uid : Z;
  st_gid : Z;
  st_mtime : Z;
  st_mtime_nsec : Z;
  st_ctime : Z;
  st_ctime_nsec : Z }.

Record ExistingReplacementTarget : Type := {
  rt_device : Z;
  rt_inode : Z;
  rt_file_type : FileType;
  rt_links : Z;
  rt_size : Z;
  rt_uid : Z;
  rt_gid : Z;
  rt_mode : Z;
  rt_modified_seconds : Z;
  rt_modified_nanoseconds : Z;
  rt_changed_seconds : Z;
  rt_changed_nanoseconds : Z }.
#[global] Instance ExistingReplacementTarget_eq_dec : EqDecision ExistingReplacementTarget.
Proof. solve_decision. Defined.

Inductive ReplacementTargetIdentity : Type :=
| Missing | Existing (target : ExistingReplacementTarget).
#[global] Instance ReplacementTargetIdentity_eq_dec : EqDecision ReplacementTargetIdentity.
Proof. solve_decision. Defined.

Record DeleteIdentity : Type := { del_device : Z; del_inode : Z; del_is_directory : bool }.
#[global] Instance DeleteIdentity_eq_dec : EqDecision DeleteIdentity.
Proof. solve_decision. Defined.

Definition replacement_target_identity (stat : Stat) : ExistingReplacementTarget :=
  {| rt_device := st_dev stat; rt_inode := st_ino stat; rt_file_type := from_raw_mode (st_mode stat);
     rt_links := st_nlink stat; rt_size := st_size stat; rt_uid := st_uid stat; rt_gid := st_gid stat;
     rt_mode := st_mode stat; rt_modified_seconds := st_mtime stat;
     rt_modified_nanoseconds := st_mtime_nsec stat; rt_changed_seconds := st_ctime stat;
     rt_changed_nanoseconds := st_ctime_nsec stat |}.

Definition delete_identity_from_stat (stat : Stat) : DeleteIdentity :=
  {| del_device := st_dev stat; del_inode := st_ino stat;
     del_is_directory := bool_decide (from_raw_mode (st_mode stat) = Directory) |}.

Definition delete_identity_of (i : ReplacementTargetIdentity) : option DeleteIdentity :=
  match i with
  | Missing => None
  | Existing target =>
      Some {| del_device := rt_device target; del_inode := rt_inode target;
              del_is_directory := bool_decide (rt_file_type target = Directory) |}
  end.

Definition exists_ (i : ReplacementTargetIdentity) : bool :=
  match i with Missing => false | Existing _ => true end.

Definition is_replaceable (i : ReplacementTargetIdentity) : bool :=
  match i with
  | Missing => true
  | Existing target =>
      match rt_file_type target with
      | Symlink => true
      | RegularFile => (rt_links target =? 1)%Z && (Z.land (rt_mode target) 3072 =? 0)%Z
      | _ => false
      end
  end.

Definition file_type_revision_tag (t : FileType) : Z :=
  match t with
  | RegularFile => 1 | Directory => 2 | Symlink => 3 | BlockDevice => 4 | CharacterDevice => 5
  | Fifo => 6 | Socket => 7 | UnknownType => 255
  end.

(** The bytes [update_revision_digest] adds. *)
Definition revision_digest (i : ReplacementTargetIdentity) : bytes :=
  match i with
  | Missing => [byte_of 0]
  | Existing t =>
      [byte_of 1] ++ be_bytes 8 (rt_device t) ++ be_bytes 8 (rt_inode t)
      ++ [byte_of (file_type_revision_tag (rt_file_type t))]
      ++ be_bytes 8 (rt_links t) ++ be_bytes 8 (rt_size t) ++ be_bytes 4 (rt_uid t)
      ++ be_bytes 4 (rt_gid t) ++ be_bytes 4 (rt_mode t) ++ be_bytes 8 (rt_modified_seconds t)
      ++ be_bytes 8 (rt_modified_nanoseconds t) ++ be_bytes 8 (rt_changed_seconds t)
      ++ be_bytes 8 (rt_changed_nanoseconds t)
  end.

(** [ReplacementTargetIdentity::purge_revision], over [Sha256]. *)
Definition PURGE_REVISION_DOMAIN : bytes := str "xczs-purge-trash-revision-v1" ++ [x00].
Definition purge_revision (sha256 : bytes -> bytes) (i : ReplacementTargetIdentity) : bytes :=
  sha256 (PURGE_REVISION_DOMAIN ++ revision_digest i).

(** ** The digest commits to every field *)

(** The machine widths of the fields; signed ones are written in two's complement. *)
Record target_typed (t : ExistingReplacementTarget) : Prop := {
  ty_device : is_u64 (rt_device t);
  ty_inode : is_u64 (rt_inode t);
  ty_links : is_u64 (rt_links t);
  ty_size : is_i64 (rt_size t);
  ty_uid : (0 <= rt_uid t <= U32_MAX)%Z;
  ty_gid : (0 <= rt_gid t <= U32_MAX)%Z;
  ty_mode : (0 <= rt_mode t <= U32_MAX)%Z;
  ty_modified : is_i64 (rt_modified_seconds t);
  ty_modified_nanoseconds : is_u64 (rt_modified_nanoseconds t);
  ty_changed : is_i64 (rt_changed_seconds t);
  ty_changed_nanoseconds : is_u64 (rt_changed_nanoseconds t) }.

Definition identity_typed (i : ReplacementTargetIdentity) : Prop :=
  match i with Missing => True | Existing t => target_typed t end.

Lemma be_val_bytes_mod n z : be_val (be_bytes n z) = (z mod 256 ^ Z.of_nat n)%Z.
Proof.
  revert z; induction n as [|n IH]; intros z.
  - change (256 ^ Z.of_nat 0)%Z with 1%Z. by rewrite Z.mod_1_r.
  - cbn [be_bytes]. rewrite be_val_snoc, byte_val_of, IH, Nat2Z.inj_succ, Z.pow_succ_r by lia.
    rewrite Z.rem_mul_r; lia.
Qed.

Lemma be_bytes_inj_mod n a b : be_bytes n a = be_bytes n b -> (a mod 256 ^ Z.of_nat n = b mod 256 ^ Z.of_nat n)%Z.
Proof. intros E. by rewrite <- !be_val_bytes_mod, E. Qed.

Lemma be_bytes_unsigned n a b :
  (0 <= a < 256 ^ Z.of_nat n)%Z -> (0 <= b < 256 ^ Z.of_nat n)%Z -> be_bytes n a = be_bytes n b -> a = b.
Proof. intros Ha Hb E%be_bytes_inj_mod. rewrite !Z.mod_small in E; lia. Qed.

Lemma be_bytes_i64 a b : is_i64 a -> is_i64 b -> be_bytes 8 a = be_bytes 8 b -> a = b.
Proof.
  unfold is_i64, I64_MIN, I64_MAX. intros Ha Hb E%be_bytes_inj_mod. revert E.
  change (256 ^ Z.of_nat 8)%Z with 18446744073709551616%Z. intros E.
  pose proof (Z.div_mod a 18446744073709551616). pose proof (Z.div_mod b 18446744073709551616).
  pose proof (Z.mod_pos_bound a 18446744073709551616). lia.
Qed.

Lemma revision_tag_inj a b :
  byte_of (file_type_revision_tag a) = byte_of (file_type_revision_tag b) -> a = b.
Proof. by destruct a, b. Qed.

Lemma be_bytes_app_inj n a b (l k : bytes) :
  be_bytes n a ++ l = be_bytes n b ++ k -> be_bytes n a = be_bytes n b /\ l = k.
Proof. intros E. apply app_inj_1 in E; [done|]. by rewrite !length_be_bytes. Qed.

(** Splits an equation of concatenated big-endian words into its words. *)
Ltac split_words H :=
  repeat match type of H with
  | be_bytes _ _ ++ _ = be_bytes _ _ ++ _ =>
      let E := fresh "Ew" in apply be_bytes_app_inj in H as [E H]
  | [_] ++ _ = [_] ++ _ => let E := fresh "Et" in apply (app_inj_1 [_] [_]) in H as [E H]; [|done]
  end.

(** The digest is an injective encoding: no field of a target can change without
    the bytes that are hashed changing. *)
Lemma revision_digest_inj i j :
  identity_typed i -> identity_typed j -> revision_digest i = revision_digest j -> i = j.
Proof.
  destruct i as [|s], j as [|t]; try done. intros Hs Ht E. cbn [revision_digest] in E.
  split_words E. apply (inj (fun b => [b])) in Et0. destruct Hs, Ht.
  assert (forall a b, be_bytes 8 a = be_bytes 8 b -> is_u64 a -> is_u64 b -> a = b) as H8.
  { unfold is_u64, U64_MAX. intros a b Eb ??. eapply be_bytes_unsigned; [| |exact Eb]; lia. }
  assert (forall a b, be_bytes 4 a = be_bytes 4 b -> (0 <= a <= U32_MAX)%Z -> (0 <= b <= U32_MAX)%Z -> a = b) as H4.
  { unfold U32_MAX. intros a b Eb ??. eapply be_bytes_unsigned; [| |exact Eb]; lia. }
  f_equal. destruct s, t. f_equal; first [by apply revision_tag_inj | by apply be_bytes_i64 | by apply H8 | by apply H4].
Qed.
