(* ===== verification/UploadProtocol.v ===== *)
(** * The upload headers

    [src/server/upload/protocol.rs]: the request headers that name an upload, its
    length and offset, and the overwrite policy; every one of them may occur at
    most once and only in its canonical spelling. *)

From S2P Require Import Prelude Paths Utils Problem.

Module UploadProtocol.
Import Utils Problem.

Definition RESUMABLE_UPLOAD_MIN_SIZE : Z := 20 * 1024 * 1024.
Definition UPLOAD_ID_HEADER : string := "x-xczs-upload-id".
Definition UPLOAD_LENGTH_HEADER : string := "x-xczs-upload-length".
Definition UPLOAD_OFFSET_HEADER : string := "x-xczs-upload-offset".
Definition UPLOAD_OVERWRITE_HEADER : string := "x-xczs-upload-overwrite".
Definition TARGET_REVISION_HEADER : string := "x-xczs-target-revision".

(** A header map keeps every value of a repeated header. *)
Definition HeaderMap : Type := list (string * bytes).
Definition get_all (headers : HeaderMap) (name : string) : list bytes :=
  (fun h => h.2) <$> filter (fun h => h.1 = name) headers.

(** [HeaderValue::to_str]: visible ASCII and tabs. *)
Definition to_str (value : bytes) : option bytes :=
  if forallb (fun b => ((32 <=? byte_val b) && (byte_val b <? 127) || (byte_val b =? 9))%Z) value
  then Some value else None.

Definition is_lower_hex (b : byte) : bool :=
  is_ascii_digit b || ((97 <=? byte_val b) && (byte_val b <=? 102))%Z.

(** ** Target revisions *)

Definition TargetRevision_encode (revision : bytes) : bytes := encode_hex revision.
Definition TargetRevision_parse (value : bytes) : option bytes :=
  if (length value =? 64)%nat && forallb is_lower_hex value then decode_hex_to_slice value 32
  else None.

Inductive UploadOverwritePolicy : Type := NoReplace | IfUnchanged (revision : bytes).
Definition revision (policy : UploadOverwritePolicy) : option bytes :=
  match policy with NoReplace => None | IfUnchanged revision => Some revision end.

Inductive UploadOverwriteParseError : Type :=
| ErrUploadOverwrite (detail : string) | ErrTargetRevision (detail : string).

(** ** Upload modes *)

Inductive UploadMode : Type := Fresh | Resume (offset : Z).
Definition mode_offset (m : UploadMode) : option Z :=
  match m with Fresh => None | Resume offset => Some offset end.
Definition is_resume (m : UploadMode) : bool := match m with Fresh => false | Resume _ => true end.

(** ** Header parsing *)

Definition unique_upload_header (headers : HeaderMap) (name : string) : result string (option bytes) :=
  match get_all headers name with
  | [] => Ok None
  | [first] => Ok (Some first)
  | _ => Err ("Duplicate " +:+ name +:+ " header")
  end.

(** [Uuid::parse_str] is a parameter. *)
Definition parse_upload_id (parse_uuid : bytes -> option bytes) (headers : HeaderMap)
    : result string (option bytes) :=
  first ← unique_upload_header headers UPLOAD_ID_HEADER;
  match first with
  | None => Ok None
  | Some value =>
      value ← ok_or (to_str value) "Invalid x-xczs-upload-id header";
      if negb (length value =? 36)%nat
         || negb (forallb (fun ib => if bool_decide (ib.1 ∈ [8; 13; 18; 23]%nat)
                                     then bool_decide (ib.2 = x2d) else is_lower_hex ib.2)
                    (imap (fun i b => (i, b)) value))
      then Err "Invalid x-xczs-upload-id header: expected a lowercase canonical UUID"
      else uuid ← ok_or (parse_uuid value) "Invalid x-xczs-upload-id header"; Ok (Some uuid)
  end.

Definition parse_canonical_u64 (value : bytes) (name : string) : result string Z :=
  value ← ok_or (to_str value) ("Invalid " +:+ name +:+ " header");
  if bool_decide (value = []) || negb (forallb is_ascii_digit value)
     || ((1 <? length value)%nat && bool_decide (head value = Some x30))
  then Err ("Invalid " +:+ name +:+ " header: expected canonical unsigned decimal digits")
  else ok_or (parse_u64 value) ("Invalid " +:+ name +:+ " header").

Definition parse_upload_length (headers : HeaderMap) : result string (option Z) :=
  first ← unique_upload_header headers UPLOAD_LENGTH_HEADER;
  match first with
  | None => Ok None
  | Some value => n ← parse_canonical_u64 value UPLOAD_LENGTH_HEADER; Ok (Some n)
  end.

Definition parse_upload_offset (headers : HeaderMap) : result string (option Z) :=
  first ← unique_upload_header headers UPLOAD_OFFSET_HEADER;
  match first with
  | None => Ok None
  | Some value => n ← parse_canonical_u64 value UPLOAD_OFFSET_HEADER; Ok (Some n)
  end.

Definition map_err {E F A} (f : E -> F) (r : result E A) : result F A :=
  match r with Ok a => Ok a | Err e => Err (f e) end.

Definition parse_upload_overwrite (headers : HeaderMap)
    : result UploadOverwriteParseError UploadOverwritePolicy :=
  overwrite ← map_err ErrUploadOverwrite (unique_upload_header headers UPLOAD_OVERWRITE_HEADER);
  revision ← map_err ErrTargetRevision (unique_upload_header headers TARGET_REVISION_HEADER);
  let replace :=
    revision ← ok_or revision
      (ErrTargetRevision "The x-xczs-target-revision header is required when x-xczs-upload-overwrite is true");
    revision ← ok_or (to_str revision ≫= TargetRevision_parse)
      (ErrTargetRevision "Invalid x-xczs-target-revision header: expected 64 lowercase hexadecimal characters");
    Ok (IfUnchanged revision) in
  let no_replace :=
    if bool_decide (revision = None) then Ok NoReplace
    else Err (ErrTargetRevision
      "The x-xczs-target-revision header requires x-xczs-upload-overwrite: true") in
  match overwrite with
  | None => no_replace
  | Some value =>
      if bool_decide (value = str "false") then no_replace
      else if bool_decide (value = str "true") then replace
      else Err (ErrUploadOverwrite "Invalid x-xczs-upload-overwrite header: expected true or false")
  end.

(** ** Response headers *)

Definition apply_upload_record_headers (upload_id : bytes) (upload_length upload_offset : option Z)
    (state : UploadPublicState) (r : Response) : Response :=
  {| res_status := res_status r; h_upload_id := Some upload_id; h_state := Some state;
     h_length := match upload_length with Some n => Some n | None => h_length r end;
     h_offset := match upload_offset with Some n => Some n | None => h_offset r end;
     h_revision := h_revision r; h_replaceable := h_replaceable r; h_retry_after := h_retry_after r;
     res_problem := res_problem r |}.

(** ** Canonical spellings *)

Lemma to_str_Some value v : to_str value = Some v -> v = value.
Proof. unfold to_str. destruct (forallb _ value); naive_solver. Qed.

Lemma digits_to_str l : Forall (fun b => is_ascii_digit b = true) l -> to_str l = Some l.
Proof.
  intros H. unfold to_str. assert (forallb (fun b => ((32 <=? byte_val b) && (byte_val b <? 127) || (byte_val b =? 9))%Z) l = true) as ->;
    [|done].
  apply forallb_Forall, Forall_forall. intros b Hb. rewrite Forall_forall in H.
  specialize (H b Hb). apply is_ascii_digit_range in H. apply orb_true_iff. left.
  apply andb_true_iff. split; [apply Z.leb_le|apply Z.ltb_lt]; lia.
Qed.

Lemma parse_canonical_u64_Ok value name n :
  parse_canonical_u64 value name = Ok n <-> is_u64 n /\ value = u64_to_string n.
Proof.
  unfold parse_canonical_u64. split.
  - intros (v & Hv%ok_or_Ok%to_str_Some & H)%bind_Ok. subst v.
    destruct (bool_decide (value = [])) eqn:E1; [done|]. destruct (forallb is_ascii_digit value) eqn:E2; [|done].
    destruct ((1 <? length value)%nat && _) eqn:E3; [done|]. cbn [negb orb] in H.
    apply ok_or_Ok in H. apply bool_decide_eq_false in E1.
    assert (Forall (fun b => is_ascii_digit b = true) value) as Hf
      by (by apply forallb_Forall).
    unfold parse_u64 in H.
    assert (match value with x2b :: rest => rest | _ => value end = value) as Hd.
    { destruct value as [|b l]; [done|]. apply Forall_cons in Hf as [Hb _]. by destruct b. }
    rewrite Hd, bool_decide_false in H by done.
    apply parse_digits_Some in H as (_ & -> & Hmax); [|split; [lia|done]].
    split; [split; [by apply digits_value_ge|done]|]. apply canonical_unique; [|done..].
    split_and!; [done..|]. intros Hlen Hh. rewrite (proj2 (Nat.ltb_lt _ _) Hlen), bool_decide_true in E3 by done. done.
  - intros [Hn ->]. destruct (u64_to_string_canonical n Hn) as (Hne & Hf & Hz).
    rewrite digits_to_str by done. cbn [ok_or mbind result_bind]. rewrite bool_decide_false by done.
    assert (forallb is_ascii_digit (u64_to_string n) = true) as -> by (by apply forallb_Forall).
    cbn [negb orb].
    assert ((1 <? length (u64_to_string n))%nat && bool_decide (head (u64_to_string n) = Some x30) = false) as ->.
    { destruct (Nat.ltb_spec 1 (length (u64_to_string n))); [|done]. cbn. apply bool_decide_eq_false. auto. }
    by rewrite parse_u64_to_string.
Qed.

Lemma lower_hex_nibble b :
  is_lower_hex b = true -> exists n, hex_nibble b = Some n /\ (0 <= n < 16)%Z /\ hex_digit n = b.
Proof. destruct b; try discriminate; intros _; eexists; (split; [vm_compute; reflexivity|]); (split; [lia|reflexivity]). Qed.

Lemma join_nibbles h l :
  (0 <= h < 16)%Z -> (0 <= l < 16)%Z ->
  Z.shiftr (byte_val (byte_of (Z.lor (Z.shiftl h 4) l))) 4 = h /\
  Z.land (byte_val (byte_of (Z.lor (Z.shiftl h 4) l))) 15 = l.
Proof.
  intros Hh Hl.
  assert (forallb (fun x => forallb (fun y =>
    (Z.shiftr (byte_val (byte_of (Z.lor (Z.shiftl x 4) y))) 4 =? x)%Z
    && (Z.land (byte_val (byte_of (Z.lor (Z.shiftl x 4) y))) 15 =? y)%Z) (seqZ 0 16)) (seqZ 0 16) = true) as HF
    by (vm_compute; reflexivity).
  rewrite forallb_forall in HF. specialize (HF h). rewrite <-list_elem_of_In, elem_of_seqZ in HF.
  specialize (HF ltac:(lia)). rewrite forallb_forall in HF. specialize (HF l).
  rewrite <-list_elem_of_In, elem_of_seqZ in HF. specialize (HF ltac:(lia)).
  apply andb_true_iff in HF as [H1 H2]. by apply Z.eqb_eq in H1, H2.
Qed.

(** The digits are read two at a time. *)
Lemma encode_decode_pairs n l out :
  length l = (n * 2)%nat -> Forall (fun b => is_lower_hex b = true) l -> decode_pairs l = Some out ->
  encode_hex out = l /\ length out = n.
Proof.
  revert l out. induction n as [|n IH]; intros l out Hlen Hf; [by destruct l; [intros [= <-]|]|].
  destruct l as [|h [|lo l]]; [done..|]. apply Forall_cons in Hf as [Hh [Hlo Hf]%Forall_cons].
  cbn [decode_pairs]. destruct (lower_hex_nibble h Hh) as (x & -> & Hx & Ex).
  destruct (lower_hex_nibble lo Hlo) as (y & -> & Hy & Ey). cbn [mbind option_bind].
  intros (rest & Hr & [= <-])%bind_Some. destruct (IH l rest) as [E En]; [cbn in Hlen; lia|done..|].
  destruct (join_nibbles x y Hx Hy) as [Ea Eb]. cbn [encode_hex map concat app length].
  unfold encode_hex in E. by rewrite Ea, Eb, E, Ex, Ey, En.
Qed.

Lemma encode_hex_lower l : Forall (fun b => is_lower_hex b = true) (encode_hex l).
Proof.
  assert (forall n, (0 <= n < 16)%Z -> is_lower_hex (hex_digit n) = true) as Hd.
  { intros n Hn. assert (Forall (fun n => is_lower_hex (hex_digit n) = true) (seqZ 0 16)) as HF
      by (vm_compute; repeat constructor).
    rewrite Forall_forall in HF. apply HF, elem_of_seqZ. lia. }
  induction l as [|b l IH]; [constructor|]. cbn [encode_hex map concat app].
  destruct (nibble_ranges b). constructor; [by apply Hd|]. constructor; [by apply Hd|exact IH].
Qed.

Lemma TargetRevision_parse_Some value r :
  TargetRevision_parse value = Some r <-> value = TargetRevision_encode r /\ length r = 32%nat.
Proof.
  unfold TargetRevision_parse, TargetRevision_encode. split.
  - destruct (Nat.eqb_spec (length value) 64) as [Hlen|]; [|done].
    destruct (forallb is_lower_hex value) eqn:Ef; [|done]. cbn [andb]. unfold decode_hex_to_slice.
    destruct (negb _); [done|]. intros H.
    destruct (encode_decode_pairs 32 value r) as [<- ?]; [done| |done..].
    by apply forallb_Forall.
  - intros [-> Hlen]. rewrite length_encode_hex, Hlen. cbn [Nat.mul Nat.add Nat.eqb andb].
    assert (forallb is_lower_hex (encode_hex r) = true) as -> by apply forallb_Forall, encode_hex_lower.
    rewrite <- Hlen. apply decode_encode_hex.
Qed.

Lemma unique_header_Ok headers name o :
  unique_upload_header headers name = Ok o <-> get_all headers name = option_list o.
Proof. unfold unique_upload_header. destruct (get_all headers name) as [|? [|]]; destruct o; naive_solver. Qed.

Lemma encode_hex_to_str l : to_str (encode_hex l) = Some (encode_hex l).
Proof.
  unfold to_str. assert (forallb (fun b => ((32 <=? byte_val b) && (byte_val b <? 127) || (byte_val b =? 9))%Z) (encode_hex l) = true) as ->;
    [|done].
  apply forallb_Forall. eapply Forall_impl; [apply encode_hex_lower|]. intros b Hb. by destruct b.
Qed.

Lemma parse_number_iff values name n :
  (exists o, values = option_list o /\
     match o with
     | None => Ok None
     | Some value => n ← parse_canonical_u64 value name; Ok (Some n)
     end = Ok (Some n)) <-> is_u64 n /\ values = [u64_to_string n].
Proof.
  split.
  - intros ([value|] & -> & H); [|done]. apply bind_Ok in H as (m & H & [= ->]).
    apply parse_canonical_u64_Ok in H as [Hn ->]. done.
  - intros [Hn ->]. exists (Some (u64_to_string n)). split; [done|].
    by rewrite (proj2 (parse_canonical_u64_Ok _ name n)).
Qed.

Lemma map_err_Ok {E F A} (f : E -> F) (r : result E A) a : map_err f r = Ok a <-> r = Ok a.
Proof. destruct r; cbn; naive_solver. Qed.

Lemma overwrite_replace headers r :
  parse_upload_overwrite headers = Ok (IfUnchanged r) <->
  length r = 32%nat /\ get_all headers UPLOAD_OVERWRITE_HEADER = [str "true"] /\
  get_all headers TARGET_REVISION_HEADER = [TargetRevision_encode r].
Proof.
  unfold parse_upload_overwrite. split.
  - intros (o & Ho%map_err_Ok%unique_header_Ok & (v & Hv%map_err_Ok%unique_header_Ok & H)%bind_Ok)%bind_Ok.
    cbv zeta in H. destruct o as [o|]; [|by destruct (bool_decide _)].
    destruct (bool_decide (o = str "false")); [by destruct (bool_decide _)|].
    destruct (bool_decide (o = str "true")) eqn:E; [|done]. apply bool_decide_eq_true in E as ->.
    apply bind_Ok in H as (x & ->%ok_or_Ok & (y & Hy%ok_or_Ok & [= ->])%bind_Ok).
    apply bind_Some in Hy as (z & ->%to_str_Some & [-> Hlen]%TargetRevision_parse_Some). done.
  - intros (Hlen & Ho & Hv). unfold unique_upload_header. rewrite Ho, Hv. cbn [map_err mbind result_bind].
    cbv zeta. rewrite bool_decide_false, bool_decide_true by done. cbn [ok_or mbind result_bind option_bind].
    unfold TargetRevision_encode. rewrite encode_hex_to_str. cbn [mbind option_bind].
    by rewrite (proj2 (TargetRevision_parse_Some (encode_hex r) r)).
Qed.

Lemma overwrite_none headers :
  parse_upload_overwrite headers = Ok NoReplace <->
  (get_all headers UPLOAD_OVERWRITE_HEADER = [] \/ get_all headers UPLOAD_OVERWRITE_HEADER = [str "false"]) /\
  get_all headers TARGET_REVISION_HEADER = [].
Proof.
  unfold parse_upload_overwrite. split.
  - intros (o & Ho%map_err_Ok%unique_header_Ok & (v & Hv%map_err_Ok%unique_header_Ok & H)%bind_Ok)%bind_Ok.
    cbv zeta in H. destruct o as [o|].
    + destruct (bool_decide (o = str "false")) eqn:E.
      * apply bool_decide_eq_true in E as ->. destruct (bool_decide (v = None)) eqn:Ev; [|done].
        apply bool_decide_eq_true in Ev as ->. split; [by right|done].
      * destruct (bool_decide (o = str "true")); [|done].
        by apply bind_Ok in H as (x & _ & (y & _ & ?)%bind_Ok).
    + destruct (bool_decide (v = None)) eqn:Ev; [|done]. apply bool_decide_eq_true in Ev as ->.
      split; [by left|done].
  - intros [[Ho|Ho] Hv]; unfold unique_upload_header; rewrite Ho, Hv; cbn [map_err mbind result_bind]; cbv zeta;
      by rewrite ?bool_decide_true.
Qed.

(** The upload headers are read strictly: a length or offset is accepted
    exactly when the header occurs once and is the canonical decimal spelling of
    a 64-bit number, so that printing what was read gives back the header; an
    overwrite is requested exactly by the value true together with the printed
    form of a 32-byte revision, and refused exactly by its absence or false
    without a revision. *)
Lemma upload_headers_canonical (headers : HeaderMap) :
  (forall n, parse_upload_length headers = Ok (Some n) <->
     is_u64 n /\ get_all headers UPLOAD_LENGTH_HEADER = [u64_to_string n]) /\
  (forall n, parse_upload_offset headers = Ok (Some n) <->
     is_u64 n /\ get_all headers UPLOAD_OFFSET_HEADER = [u64_to_string n]) /\
  (forall r, parse_upload_overwrite headers = Ok (IfUnchanged r) <->
     length r = 32%nat /\ get_all headers UPLOAD_OVERWRITE_HEADER = [str "true"] /\
     get_all headers TARGET_REVISION_HEADER = [TargetRevision_encode r]) /\
  (parse_upload_overwrite headers = Ok NoReplace <->
     (get_all headers UPLOAD_OVERWRITE_HEADER = [] \/ get_all headers UPLOAD_OVERWRITE_HEADER = [str "false"]) /\
     get_all headers TARGET_REVISION_HEADER = []).
Proof.
  split_and!.
  - intros n. unfold parse_upload_length. rewrite bind_Ok. setoid_rewrite unique_header_Ok.
    apply parse_number_iff.
  - intros n. unfold parse_upload_offset. rewrite bind_Ok. setoid_rewrite unique_header_Ok.
    apply parse_number_iff.
  - intros r. apply overwrite_replace.
  - apply overwrite_none.
Qed.
End UploadProtocol.
