(* ===== verification/UploadWorld.v ===== *)
(** * The world of an upload

    The handlers of [src/server/upload/] run against the file system, the state
    store's worker, the clock, the request body and the disk-space tracker.  Those
    are a parameter: [UploadEnv] lists the calls the handlers make, each a function
    of the world that answers with a value, an error, or not at all because the
    process died during the call.  [M] is the handlers' monad: the world, the
    upload table and the response are threaded through, an error ends a handler
    unless it is caught, a crash always ends it. *)

From S2P Require Import Prelude Paths PathKeys Sql StateModel UploadStore RootedPaths Problem FileRevision.

Export Problem FileRevision.

Abbreviation IoError := RootedPaths.IoError.

(** ** Identities *)

(** What [fstat] and [statat] tell about an entry. *)
Record Metadata : Type := {
  md_is_file : bool;
  md_nlink : Z;
  md_len : Z;
  md_identity : StoredFileIdentity }.

Inductive PrivateUploadStageValidation : Type := StagePresent | StageMissing | IdentityMismatch.
#[global] Instance PrivateUploadStageValidation_eq_dec : EqDecision PrivateUploadStageValidation.
Proof. solve_decision. Defined.

Inductive ReplaceAndSyncOutcome : Type :=
| RPublished | RRejected | RNotPublished (e : IoError) | RDurabilityUnknown (e : IoError).

(** One event of the request body: a chunk, its end, an error of the connection,
    the deadline, or a forced shutdown. *)
Inductive Frame : Type :=
| Chunk (data : bytes) | EndOfBody | BodyError | FrameTimeout | ForcedShutdown.

(** What becomes of a command sent to the state store: it is not accepted, it is
    executed at the given time and answered, it is executed but its reply is lost,
    it fails without effect, or the process dies, before or after its commit. *)
Inductive DbVerdict : Type :=
| DbRefused | DbRun (now : Z) | DbLost (now : Z) | DbFailed | DbCrashed (committed : option Z).

(** ** The environment *)

Class UploadEnv : Type := {
  (* what is outside *)
  World : Type;
  File : Type;
  Entry : Type;
  Created : Type;
  Preserved : Type;
  Reservation : Type;
  (* configuration, UUIDs and digests *)
  root_path : bytes;
  limits : Limits;
  upload_ttl : Z;
  max_upload_size : Z;
  min_free_space : Z;
  upload_idle_timeout : Z;
  hyphenated : bytes -> bytes;
  sha256 : bytes -> bytes;
  (* the clock, the state store's worker, the request *)
  instant_now : World -> Z * World;
  store_dispatch : World -> DbVerdict * World;
  next_frame : Z -> World -> option Frame * World;
  mutation_cell : World -> Z;
  set_mutation_cell : Z -> World -> World;
  active_upload_files : World -> list RootedEntryKey;
  set_active_upload_files : list RootedEntryKey -> World -> World;
  wait_for_maintenance_claim_change : Z -> World -> option (result IoError unit) * World;
  (* disk space *)
  reserve_allocated : File -> Z -> Z -> Z -> World -> option (result IoError (option Reservation)) * World;
  reserved_space_is_available : Reservation -> File -> Z -> World -> option (result IoError bool) * World;
  consume : Reservation -> Z -> World -> World;
  (* paths *)
  open_read : bytes -> World -> option (result IoError File) * World;
  open_write : bytes -> World -> option (result IoError File) * World;
  open_nearest_existing_parent : bytes -> World -> option (result IoError File) * World;
  metadata_nofollow : bytes -> World -> option (result IoError Metadata) * World;
  entry_key : bytes -> World -> option (result IoError RootedEntryKey) * World;
  sync_parent : bytes -> World -> option (result IoError unit) * World;
  replacement_identity : bytes -> World -> option (result IoError ReplacementTargetIdentity) * World;
  replacement_metadata : bytes -> World ->
    option (result IoError (ReplacementTargetIdentity * option Preserved)) * World;
  create_private_upload_stage : bytes -> World -> option (result IoError (File * Created)) * World;
  rollback_created_ancestors : Created -> World -> option (result IoError unit) * World;
  remove_empty_upload_stage_directory : bytes -> World -> option (result IoError bool) * World;
  validate_private_upload_stage : bytes -> option StoredFileIdentity -> World ->
    option (result IoError PrivateUploadStageValidation) * World;
  capture_entry_for_purge : bytes -> bool -> World -> option (result IoError (option Entry)) * World;
  entry_identity : Entry -> DeleteIdentity;
  purge_slice : Entry -> World -> option (result IoError bool) * World;
  rename_replace_if_unchanged : bytes -> File -> bytes -> ReplacementTargetIdentity -> World ->
    option ReplaceAndSyncOutcome * World;
  (* open files *)
  file_metadata : File -> World -> option (result IoError Metadata) * World;
  file_flush : File -> World -> option (result IoError unit) * World;
  file_sync : File -> World -> option (result IoError unit) * World;
  file_write_all : File -> bytes -> World -> option (result IoError unit) * World;
  file_seek_start : File -> Z -> World -> option (result IoError unit) * World;
  file_set_len : File -> Z -> World -> option (result IoError unit) * World;
  apply_replacement_metadata : File -> Preserved -> World -> option (result IoError unit) * World }.

(** ** Errors and outcomes *)

Inductive UploadRecordStoreError : Type := StoreConflict | StoreFull.

(** [anyhow::Error], as far as a handler distinguishes errors. *)
Inductive Error : Type :=
| EIo (e : IoError) | ERecord (e : UploadRecordStoreError) | EDispatch | EOther (message : string).

Inductive outcome (A : Type) : Type := Val (a : A) | Fail (e : Error) | Crashed.
Arguments Val {A} a.
Arguments Fail {A} e.
Arguments Crashed {A}.

(** ** The monad *)

Section monad.
Context `{UploadEnv}.

(** The keys of the active files this request has registered are part of the state,
    because they are given up however the request ends. *)
Record St : Type := {
  world : World;
  table : UploadStore.Table;
  response : Response;
  leased : list RootedEntryKey }.
Definition with_world (w : World) (s : St) : St :=
  {| world := w; table := table s; response := response s; leased := leased s |}.
Definition with_table (t : UploadStore.Table) (s : St) : St :=
  {| world := world s; table := t; response := response s; leased := leased s |}.
Definition with_response (r : Response) (s : St) : St :=
  {| world := world s; table := table s; response := r; leased := leased s |}.
Definition with_leased (l : list RootedEntryKey) (s : St) : St :=
  {| world := world s; table := table s; response := response s; leased := l |}.

Definition M (A : Type) : Type := St -> outcome A * St.

#[export] Instance M_ret : MRet M := fun A a s => (Val a, s).
#[export] Instance M_bind : MBind M := fun A B f m s =>
  match m s with
  | (Val a, s) => f a s
  | (Fail e, s) => (Fail e, s)
  | (Crashed, s) => (Crashed, s)
  end.

Definition throw {A} (e : Error) : M A := fun s => (Fail e, s).

(** An error as a value; a crash is not caught. *)
Definition attempt {A} (m : M A) : M (result Error A) := fun s =>
  match m s with
  | (Val a, s) => (Val (Ok a), s)
  | (Fail e, s) => (Val (Err e), s)
  | (Crashed, s) => (Crashed, s)
  end.

(** A call of the environment, its error as a value or thrown. *)
Definition call {A} (op : World -> option (result IoError A) * World) : M (result IoError A) := fun s =>
  let '(o, w) := op (world s) in
  (match o with Some r => Val r | None => Crashed end, with_world w s).
Definition of_io {A} (r : result IoError A) : M A :=
  match r with Ok a => mret a | Err e => throw (EIo e) end.
Definition io {A} (op : World -> option (result IoError A) * World) : M A := call op ≫= of_io.

Definition of_result {A} (r : result string A) : M A :=
  match r with Ok a => mret a | Err e => throw (EOther e) end.
Definition ensure_m (b : bool) (message : string) : M unit :=
  if b then mret tt else throw (EOther message).

Definition now : M Z := fun s => let '(z, w) := instant_now (world s) in (Val z, with_world w s).
Definition respond (f : Response -> Response) : M unit := fun s =>
  (Val tt, with_response (f (response s)) s).

(** A command of the state store.  The commands of other tasks that its worker executes
    between two commands of this one are left out: a request works on the row of its own
    upload, under the lease of its path. *)
Definition db {A} (command : UploadStore.Table -> Z -> result string (UploadStore.Table * A)) : M A :=
  fun s =>
    let '(v, w) := store_dispatch (world s) in
    let s := with_world w s in
    match v with
    | DbRefused => (Fail EDispatch, s)
    | DbFailed => (Fail (EOther "state store"), s)
    | DbRun now =>
        match command (table s) now with
        | Ok (t, a) => (Val a, with_table t s)
        | Err e => (Fail (EOther e), s)
        end
    | DbLost now =>
        match command (table s) now with
        | Ok (t, a) => (Fail (EOther "The state store thread exited before replying"), with_table t s)
        | Err e => (Fail (EOther "The state store thread exited before replying"), s)
        end
    | DbCrashed None => (Crashed, s)
    | DbCrashed (Some now) =>
        match command (table s) now with
        | Ok (t, _) => (Crashed, with_table t s)
        | Err _ => (Crashed, s)
        end
    end.

(** ** The state store's methods *)

Definition save_upload_session (session : StoredUploadSession) : M StoreUploadSession :=
  _ ← of_result (session_validate session);
  db (fun t now => UploadStore.save_upload_session limits t now session upload_ttl).

Definition upload_session (key : UploadSessionKey) : M (option StoredUploadSession) :=
  db (fun t _ => o ← UploadStore.load_upload_session t key; Ok (t, o)).

Definition reject_upload_session (key : UploadSessionKey) (target stage : bytes) : M RejectUploadSession :=
  _ ← of_result (validate_stored_path target "Upload target");
  _ ← of_result (validate_stored_path stage "Upload stage");
  db (fun t now => UploadStore.reject_upload_session t now key target stage upload_ttl).

Definition remove_upload_session_if_matches (expected : StoredUploadSession) : M bool :=
  _ ← of_result (session_validate expected);
  db (fun t _ => UploadStore.remove_upload_session_if_matches t expected).
End monad.
