(* ===== verification/UploadRecord.v ===== *)
(** * Upload records

    [src/server/upload/record.rs]: the durable record of one upload, tied to the
    staging file it describes.  A record is written only after the bytes it
    promises are on disk, a stage is opened only if it is the very file the record
    names, and a stage is removed only by its identity. *)

From S2P Require Import Prelude Paths Sql StateModel UploadStore RootedPaths PathPolicy UploadWorld.

Module UploadRecord.

Inductive UploadRecordState : Type :=
| RsRunning | RsAwaitingConfirmation | RsCommitted | RsRejected | RsUnknown.
#[global] Instance UploadRecordState_eq_dec : EqDecision UploadRecordState.
Proof. solve_decision. Defined.

Record UploadCheckpoint : Type := {
  cp_upload_length : Z;
  cp_durable_offset : Z;
  cp_state : UploadRecordState;
  cp_target_revision : option bytes }.

Inductive UploadRecordLookup : Type :=
| LookupNotSeen | LookupForeignOwner | LookupFound (checkpoint : UploadCheckpoint).

Record RejectedUploadRecord : Type := {
  rj_upload_length : Z;
  rj_durable_offset : Z;
  rj_stage_path : bytes;
  rj_stage_identity : option StoredFileIdentity }.

Inductive UploadDiscardLookup : Type :=
| DiscardNotSeen | DiscardForeignOwner | DiscardStateConflict (checkpoint : UploadCheckpoint)
| DiscardRejected (record : RejectedUploadRecord).

Inductive StageCleanupOutcome : Type := RemovedOrAbsent | ReplacementPreserved.
#[global] Instance StageCleanupOutcome_eq_dec : EqDecision StageCleanupOutcome.
Proof. solve_decision. Defined.

Record UploadRecordContext : Type := {
  rc_owner_id : bytes;
  rc_upload_id : bytes;
  rc_target_path : bytes;
  rc_stage_path : bytes;
  rc_upload_length : Z;
  rc_target_revision : option bytes;
  rc_target_revision_bound : bool }.

Definition new_context (owner_id upload_id target_path stage_path : bytes) (upload_length : Z)
    : UploadRecordContext :=
  {| rc_owner_id := owner_id; rc_upload_id := upload_id; rc_target_path := target_path;
     rc_stage_path := stage_path; rc_upload_length := upload_length;
     rc_target_revision := None; rc_target_revision_bound := false |}.
Definition with_target_revision (target_revision : option bytes) (c : UploadRecordContext)
    : UploadRecordContext :=
  {| rc_owner_id := rc_owner_id c; rc_upload_id := rc_upload_id c;
     rc_target_path := rc_target_path c; rc_stage_path := rc_stage_path c;
     rc_upload_length := rc_upload_length c;
     rc_target_revision := target_revision; rc_target_revision_bound := true |}.

Definition upload_session_key (owner_id upload_id : bytes) : UploadSessionKey :=
  {| owner := owner_id; id := upload_id |}.

Definition record_state (s : StoredUploadState) : UploadRecordState :=
  match s with
  | Committed => RsCommitted
  | Rejected => RsRejected
  | Running => RsRunning
  | AwaitingConfirmation => RsAwaitingConfirmation
  | CommitStarted | Unknown => RsUnknown
  end.

Definition upload_checkpoint (s : StoredUploadSession) : UploadCheckpoint :=
  {| cp_upload_length := upload_length s; cp_durable_offset := durable_offset s;
     cp_state := record_state (up_state s); cp_target_revision := target_revision s |}.

(** The errors that mean that a stage cannot be reached. *)
Definition unreachable_stage (e : IoError) : bool :=
  match e with
  | RootedPaths.NotFound | RootedPaths.NotADirectory | RootedPaths.PermissionDenied => true
  | _ => false
  end.

Section record.
Context `{UploadEnv}.

Definition upload_temp_path (path upload_id : bytes) : M bytes :=
  of_result (PathPolicy.upload_temp_path hyphenated sha256 path upload_id).
Definition is_upload_temp_path (target upload_id stage : bytes) : M bool :=
  of_result (PathPolicy.is_upload_temp_path hyphenated sha256 target upload_id stage).
Definition resolve_state_path (relative : bytes) : M bytes :=
  of_io (RootedPaths.resolve_state_path root_path relative).
Definition state_relative_path (path : bytes) : M bytes :=
  of_io (RootedPaths.state_relative_path root_path path).

(** ** Paths *)

Definition validated_relative_paths (upload_id target_path stage_path : bytes) : M (bytes * bytes) :=
  matches ← is_upload_temp_path target_path upload_id stage_path;
  _ ← ensure_m matches "Upload staging path does not match its target and ID";
  target_relative ← state_relative_path target_path;
  stage_relative ← state_relative_path stage_path;
  target ← resolve_state_path target_relative;
  _ ← ensure_m (path_eqb target target_path) "Upload target path is not a canonical root-relative path";
  stage ← resolve_state_path stage_relative;
  _ ← ensure_m (path_eqb stage stage_path) "Upload staging path is not a canonical root-relative path";
  mret (target_relative, stage_relative).

(** ** Startup *)

Definition validate_stage_layout (session : StoredUploadSession) : M unit :=
  let upload_id := id (up_key session) in
  target_path' ← resolve_state_path (target_path session);
  stored_stage ← resolve_state_path (stage_path session);
  target_relative ← state_relative_path target_path';
  stage_relative ← (if path_eqb target_relative (target_path session)
                    then state_relative_path stored_stage else mret []);
  _ ← ensure_m (path_eqb target_relative (target_path session)
                && path_eqb stage_relative (stage_path session))
        "Upload has a non-canonical rooted path";
  private_stage ← upload_temp_path target_path' upload_id;
  _ ← ensure_m (path_eqb stored_stage private_stage)
        "Upload has a stage path that does not match its target";
  let stage_owning := negb (is_terminal (up_state session)) in
  validation ← io (validate_private_upload_stage private_stage (stage_identity session));
  if bool_decide (validation = IdentityMismatch) && stage_owning then
    throw (EOther (if bool_decide (stage_identity session = None)
                   then "Upload has no durable inode identity for its active stage"
                   else "Upload staging identity does not match its active record"))
  else mret tt.

(** ** Reading a record *)

Definition valid_resumable_stage (stage_path : bytes) (durable_offset : Z)
    (expected_identity : option StoredFileIdentity) : M bool :=
  match expected_identity with
  | None => mret false
  | Some expected_identity =>
      opened ← call (open_write stage_path);
      match opened with
      | Err e => if unreachable_stage e then mret false else throw (EIo e)
      | Ok file =>
          metadata ← io (file_metadata file);
          mret (md_is_file metadata && (md_nlink metadata =? 1)%Z
                && (durable_offset <=? md_len metadata)%Z
                && bool_decide (md_identity metadata = expected_identity))
      end
  end.

Definition classify_stored_session (upload_id expected_target target_path' : bytes)
    (session : StoredUploadSession) : M UploadRecordLookup :=
  stored_target ← resolve_state_path (target_path session);
  stored_stage ← resolve_state_path (stage_path session);
  foreign ←
    (if negb (path_eqb (target_path session) expected_target) then mret true
     else
       expected ← resolve_state_path expected_target;
       if negb (path_eqb stored_target expected) || negb (path_eqb stored_target target_path')
       then mret true
       else
         ours ← is_upload_temp_path stored_target upload_id stored_stage;
         if negb ours then mret true
         else
           relative ← state_relative_path stored_stage;
           mret (negb (path_eqb relative (stage_path session))));
  if foreign : bool then mret LookupForeignOwner
  else
    lost ←
      (if bool_decide (up_state session = Running \/ up_state session = AwaitingConfirmation)
          && (durable_offset session <? upload_length session)%Z
       then valid ← valid_resumable_stage stored_stage (durable_offset session) (stage_identity session);
            mret (negb valid)
       else mret false);
    if lost : bool then mret LookupNotSeen else mret (LookupFound (upload_checkpoint session)).

Definition lookup (owner_id upload_id target_path stage_path : bytes) : M UploadRecordLookup :=
  '(target_relative, _) ← validated_relative_paths upload_id target_path stage_path;
  found ← upload_session (upload_session_key owner_id upload_id);
  match found with
  | Some session => classify_stored_session upload_id target_relative target_path session
  | None => mret LookupNotSeen
  end.

Definition open_resumable_stage (record : UploadRecordContext) (offset : Z)
    (expected_state : UploadRecordState) : M (option File) :=
  '(target_relative, stage_relative) ←
     validated_relative_paths (rc_upload_id record) (rc_target_path record) (rc_stage_path record);
  found ← upload_session (upload_session_key (rc_owner_id record) (rc_upload_id record));
  match found with
  | None => mret None
  | Some session =>
      if negb (path_eqb (target_path session) target_relative)
         || negb (path_eqb (stage_path session) stage_relative)
         || negb (upload_length session =? rc_upload_length record)%Z
         || negb (durable_offset session =? offset)%Z
         || match expected_state with
            | RsRunning => negb (bool_decide (up_state session = Running))
            | RsAwaitingConfirmation => negb (bool_decide (up_state session = AwaitingConfirmation))
            | _ => true
            end
      then mret None
      else
        match stage_identity session with
        | None => mret None
        | Some expected_identity =>
            opened ← call (match expected_state with
                           | RsAwaitingConfirmation => open_read (rc_stage_path record)
                           | _ => open_write (rc_stage_path record)
                           end);
            match opened with
            | Err e => if unreachable_stage e then mret None else throw (EIo e)
            | Ok file =>
                metadata ← io (file_metadata file);
                let invalid_length :=
                  match expected_state with
                  | RsRunning => (md_len metadata <? offset)%Z
                  | RsAwaitingConfirmation => negb (md_len metadata =? offset)%Z
                  | _ => true
                  end in
                if negb (md_is_file metadata) || negb (md_nlink metadata =? 1)%Z || invalid_length
                   || negb (bool_decide (md_identity metadata = expected_identity))
                then mret None
                else mret (Some file)
            end
        end
  end.

(** ** Writing a record *)

Definition persist_state (record : UploadRecordContext) (offset : Z) (state : StoredUploadState)
    (found_identity : option StoredFileIdentity) : M unit :=
  let key := upload_session_key (rc_owner_id record) (rc_upload_id record) in
  '(target_relative, stage_relative) ←
     validated_relative_paths (rc_upload_id record) (rc_target_path record) (rc_stage_path record);
  existing ← (if bool_decide (found_identity = None) || negb (rc_target_revision_bound record)
              then upload_session key else mret None);
  let stage := match found_identity with
               | Some i => Some i
               | None => existing ≫= stage_identity
               end in
  let revision := if rc_target_revision_bound record then rc_target_revision record
                  else existing ≫= target_revision in
  saved ← save_upload_session
    {| up_key := key; target_path := target_relative; stage_path := stage_relative;
       upload_length := rc_upload_length record; durable_offset := offset; up_state := state;
       stage_identity := stage; target_revision := revision |};
  match saved with
  | UploadInserted | UploadUpdated | UploadUnchanged => mret tt
  | UploadConflict => throw (ERecord StoreConflict)
  | UploadFull => throw (ERecord StoreFull)
  end.

(** The stage's bytes reach the disk and its name is still its own. *)
Definition sync_and_identify_stage (file : File) (stage_path : bytes) (offset : Z)
    : M StoredFileIdentity :=
  _ ← io (file_flush file);
  _ ← io (file_sync file);
  metadata ← io (file_metadata file);
  _ ← ensure_m (md_is_file metadata) "Upload stage is not a file";
  _ ← ensure_m (md_nlink metadata =? 1)%Z "Upload stage has multiple hard links";
  _ ← ensure_m (offset <=? md_len metadata)%Z "Upload stage is shorter than its durable checkpoint";
  path_metadata ← io (metadata_nofollow stage_path);
  _ ← ensure_m (md_is_file path_metadata && (md_nlink path_metadata =? 1)%Z
                && bool_decide (md_identity path_metadata = md_identity metadata))
        "Upload stage descriptor no longer matches its rooted path";
  mret (md_identity metadata).

Definition persist_checkpoint_inner (file : File) (record : UploadRecordContext) (offset : Z)
    (sync_dir : bool) : M unit :=
  _ ← ensure_m (offset <=? rc_upload_length record)%Z "Upload checkpoint exceeds declared length";
  known ← sync_and_identify_stage file (rc_stage_path record) offset;
  _ ← (if sync_dir then io (sync_parent (rc_stage_path record)) else mret tt);
  persist_state record offset Running (Some known).

Definition persist_checkpoint (file : File) (record : UploadRecordContext) (offset : Z) : M unit :=
  persist_checkpoint_inner file record offset false.
Definition persist_initial_checkpoint (file : File) (record : UploadRecordContext) (offset : Z)
    : M unit :=
  persist_checkpoint_inner file record offset true.

Definition persist_commit_started (file : File) (record : UploadRecordContext) : M unit :=
  known ← sync_and_identify_stage file (rc_stage_path record) (rc_upload_length record);
  persist_state record (rc_upload_length record) CommitStarted (Some known).

Definition persist_awaiting_confirmation (file : File) (record : UploadRecordContext) : M unit :=
  known ← sync_and_identify_stage file (rc_stage_path record) (rc_upload_length record);
  persist_state record (rc_upload_length record) AwaitingConfirmation (Some known).

Definition persist_terminal (record : UploadRecordContext) (offset : Z) (state : UploadRecordState)
    : M unit :=
  match state with
  | RsCommitted => persist_state record offset Committed None
  | RsRejected => persist_state record offset Rejected None
  | RsRunning => throw (EOther "A terminal upload record cannot be running")
  | RsAwaitingConfirmation => throw (EOther "A terminal upload record cannot await confirmation")
  | RsUnknown => throw (EOther "A terminal upload record cannot be unknown")
  end.

Definition persist_unknown (record : UploadRecordContext) (offset : Z) : M unit :=
  _ ← ensure_m (offset =? rc_upload_length record)%Z "An unknown upload publication must be fully durable";
  persist_state record offset Unknown None.

(** ** Removing a stage and its record *)

Definition remove_file_if_identity (path : bytes) (expected : StoredFileIdentity)
    : M StageCleanupOutcome :=
  captured ← io (capture_entry_for_purge path false);
  match captured with
  | None => mret RemovedOrAbsent
  | Some entry =>
      if negb (bool_decide (entry_identity entry =
           {| del_device := id_device expected; del_inode := id_inode expected;
              del_is_directory := false |}))
      then mret ReplacementPreserved
      else
        complete ← io (purge_slice entry);
        if complete : bool then mret RemovedOrAbsent
        else throw (EOther "Upload cleanup did not finish its single-file purge")
  end.

Definition remove_stage_directory_if_empty (stage_path : bytes) : M unit :=
  match PathPolicy.upload_stage_directory stage_path with
  | Some _ => _ ← io (remove_empty_upload_stage_directory stage_path); mret tt
  | None => mret tt
  end.

Definition reset (owner_id upload_id target_path' stage_path' : bytes) : M unit :=
  '(target_relative, stage_relative) ← validated_relative_paths upload_id target_path' stage_path';
  found ← upload_session (upload_session_key owner_id upload_id);
  match found with
  | None => mret tt
  | Some session =>
      if negb (path_eqb (target_path session) target_relative)
         || negb (path_eqb (stage_path session) stage_relative)
      then throw (ERecord StoreConflict)
      else
        _ ← match stage_identity session with
            | Some known =>
                cleaned ← remove_file_if_identity stage_path' known;
                if bool_decide (cleaned = ReplacementPreserved) then throw (ERecord StoreConflict)
                else mret tt
            | None => mret tt
            end;
        removed ← remove_upload_session_if_matches session;
        if negb removed then throw (ERecord StoreConflict)
        else remove_stage_directory_if_empty stage_path'
  end.

Definition discard_unrecorded_stage (file : File) (stage_path : bytes) : M unit :=
  metadata ← io (file_metadata file);
  _ ← ensure_m (md_is_file metadata && (md_nlink metadata =? 1)%Z)
        "Unrecorded upload stage is not a private regular file";
  cleaned ← remove_file_if_identity stage_path (md_identity metadata);
  if bool_decide (cleaned = ReplacementPreserved) then throw (ERecord StoreConflict)
  else remove_stage_directory_if_empty stage_path.

Definition rollback_upload_ancestors (created_ancestors : option Created) : M unit :=
  match created_ancestors with
  | Some created => io (rollback_created_ancestors created)
  | None => mret tt
  end.

Definition reset_and_ancestors (owner_id upload_id target_path stage_path : bytes)
    (created_ancestors : option Created) : M unit :=
  _ ← reset owner_id upload_id target_path stage_path;
  rollback_upload_ancestors created_ancestors.

(** ** Discarding *)

Definition reject_for_discard (owner_id upload_id target_path' stage_path' : bytes)
    : M UploadDiscardLookup :=
  let key := upload_session_key owner_id upload_id in
  '(target_relative, _) ← validated_relative_paths upload_id target_path' stage_path';
  found ← upload_session key;
  match found with
  | None => mret DiscardNotSeen
  | Some existing =>
      stored_target ← resolve_state_path (target_path existing);
      stored_stage ← resolve_state_path (stage_path existing);
      foreign ←
        (if negb (path_eqb (target_path existing) target_relative)
            || negb (path_eqb stored_target target_path')
         then mret true
         else
           ours ← is_upload_temp_path stored_target upload_id stored_stage;
           if negb ours then mret true
           else
             relative ← state_relative_path stored_stage;
             mret (negb (path_eqb relative (stage_path existing))));
      if foreign : bool then mret DiscardForeignOwner
      else
        result ← reject_upload_session key target_relative (stage_path existing);
        mret match result with
             | RejectNotFound => DiscardNotSeen
             | RejectBindingConflict => DiscardForeignOwner
             | RejectStateConflict session => DiscardStateConflict (upload_checkpoint session)
             | RejectRejected session =>
                 DiscardRejected
                   {| rj_upload_length := upload_length session;
                      rj_durable_offset := durable_offset session;
                      rj_stage_path := stored_stage; rj_stage_identity := stage_identity session |}
             end
  end.

Definition cleanup_rejected_stage (record : RejectedUploadRecord) : M unit :=
  match rj_stage_identity record with
  | None => mret tt
  | Some known =>
      _ ← remove_file_if_identity (rj_stage_path record) known;
      remove_stage_directory_if_empty (rj_stage_path record)
  end.
End record.
End UploadRecord.
