(* ===== verification/UploadFailure.v ===== *)
(** * How an upload reports and ends

    The problem responses of [src/server/upload.rs], the inspection of the target
    ([src/server/upload/target.rs]), the boundary between an upload and its HTTP
    deadline ([MutationProgress] of [src/server/router/request.rs]) and the ways an
    upload ends before it is published ([src/server/upload/failure.rs]). *)

From S2P Require Import Prelude Paths StateModel UploadStore RootedPaths Problem UploadProtocol UploadWorld.
From S2P Require Import UploadRecord.

Module UploadFailure.
Import UploadProtocol UploadRecord.

(** HTTP status codes. *)
Definition OK : Z := 200.
Definition CREATED : Z := 201.
Definition NO_CONTENT : Z := 204.
Definition NOT_FOUND : Z := 404.
Definition TIMEOUT : Z := 408.
Definition CONFLICT : Z := 409.
Definition TOO_LARGE : Z := 413.
Definition SERVER_ERROR : Z := 500.
Definition UNAVAILABLE : Z := 503.
Definition NO_SPACE : Z := 507.

Record UploadErrorContext : Type := {
  ec_upload_id : bytes;
  ec_state : UploadPublicState;
  ec_upload_length : option Z;
  ec_upload_offset : option Z }.
Definition error_context (upload_id : bytes) (state : UploadPublicState)
    (upload_length upload_offset : option Z) : UploadErrorContext :=
  {| ec_upload_id := upload_id; ec_state := state; ec_upload_length := upload_length;
     ec_upload_offset := upload_offset |}.

(** [bool::then_some] *)
Definition then_some {A} (b : bool) (a : A) : option A := if b then Some a else None.

Section failure.
Context `{UploadEnv}.

Definition apply_upload_problem (context : UploadErrorContext) (status : Z) (code : ErrorCode)
    (detail : bytes) (recovery : RecoveryAdvice) : M unit :=
  let problem :=
    with_upload {| pc_upload_id := hyphenated (ec_upload_id context); pc_state := ec_state context;
                   pc_length := ec_upload_length context; pc_offset := ec_upload_offset context |}
      (with_recovery recovery (new_api_error status code detail)) in
  _ ← respond (render_problem problem);
  respond (apply_upload_record_headers (hyphenated (ec_upload_id context)) (ec_upload_length context)
             (ec_upload_offset context) (ec_state context)).

Definition apply_upload_record_store_problem (context : UploadErrorContext) (error : Error) : M bool :=
  match error with
  | EDispatch =>
      _ ← apply_upload_problem context UNAVAILABLE UPLOAD_STATE_UNAVAILABLE
            (str "Upload state storage is temporarily unavailable") QueryUpload;
      mret true
  | ERecord StoreConflict =>
      _ ← apply_upload_problem context CONFLICT UPLOAD_SESSION_CONFLICT
            (str "Upload ID conflicts with an existing session; query it before retrying") QueryUpload;
      mret true
  | ERecord StoreFull =>
      _ ← apply_upload_problem context UNAVAILABLE UPLOAD_SESSION_STORE_FULL
            (str "Upload session capacity is temporarily exhausted") (RetryAfterSeconds 1);
      mret true
  | EIo _ | EOther _ => mret false
  end.

(** ** The target *)

Record UploadTargetInspection : Type := {
  in_exists : bool;
  in_replaceable : bool;
  in_revision : option bytes }.

Definition target_revision_of (owner_id canonical_relative_path : bytes) (i : ReplacementTargetIdentity)
    : option bytes :=
  if negb (exists_ i) then None
  else Some (sha256 (str "xczs-upload-target-revision-v1" ++ [x00] ++ owner_id
                     ++ be_bytes 8 (Z.of_nat (length canonical_relative_path))
                     ++ canonical_relative_path ++ revision_digest i)).

Definition inspect_target_identity (owner_id canonical_relative_path : bytes)
    (i : ReplacementTargetIdentity) : UploadTargetInspection :=
  {| in_exists := exists_ i; in_replaceable := is_replaceable i;
     in_revision := target_revision_of owner_id canonical_relative_path i |}.

Definition apply_target_inspection_headers (inspection : UploadTargetInspection) : M unit :=
  respond (set_target (TargetRevision_encode <$> in_revision inspection) (in_replaceable inspection)).

Definition inspect_upload_target (owner_id path : bytes) : M UploadTargetInspection :=
  i ← io (replacement_identity path);
  canonical_relative_path ← state_relative_path path;
  mret (inspect_target_identity owner_id canonical_relative_path i).

Definition render_upload_target_conflict (path owner_id : bytes) (context : UploadErrorContext) : M unit :=
  canonical_relative_path ← state_relative_path path;
  i ← io (replacement_identity path);
  let inspection := inspect_target_identity owner_id canonical_relative_path i in
  _ ← apply_target_inspection_headers inspection;
  if in_exists inspection then
    apply_upload_problem context CONFLICT DESTINATION_EXISTS
      (str "The upload destination exists and requires explicit overwrite confirmation") RefreshTarget
  else
    apply_upload_problem context CONFLICT UPLOAD_TARGET_CHANGED
      (str "The upload destination changed after confirmation; refresh it before retrying") RefreshTarget.

(** ** The mutation boundary *)

Definition PREFLIGHT : Z := 0.
Definition RESERVED : Z := 1.
Definition DETACHED_COMMIT : Z := 2.
Definition CANCELLED_BEFORE_UPLOAD_MUTATION : Z := 3.

Definition begin_upload_mutation : M bool := fun s =>
  let w := world s in
  if (mutation_cell w =? PREFLIGHT)%Z
  then (Val true, with_world (set_mutation_cell DETACHED_COMMIT w) s)
  else (Val (mutation_cell w =? DETACHED_COMMIT)%Z, s).

Definition outcome_can_be_unknown : M bool := fun s =>
  (Val (mutation_cell (world s) =? DETACHED_COMMIT)%Z, s).

Definition begin_upload_mutation_or_reject (upload_id : bytes) (upload_length : Z)
    (upload_offset : option Z) (message : bytes) : M bool :=
  started ← begin_upload_mutation;
  if started : bool then mret true
  else
    _ ← apply_upload_problem (error_context upload_id PsNotStarted (Some upload_length) upload_offset)
          TIMEOUT REQUEST_TIMEOUT message Retry;
    mret false.

(** ** Endings *)

Definition apply_upload_unknown (upload_id : bytes) (message : bytes) : M unit :=
  apply_upload_problem (error_context upload_id PsUnknown None None) TIMEOUT UPLOAD_OUTCOME_UNKNOWN
    message QueryUpload.

Definition apply_awaiting_confirmation_problem (upload_id : bytes) (upload_length : Z) (status : Z)
    (code : ErrorCode) (message : bytes) : M unit :=
  apply_upload_problem
    (error_context upload_id PsAwaitingConfirmation (Some upload_length) (Some upload_length))
    status code message QueryUpload.

(** What every ending of one upload refers to. *)
Record Session : Type := {
  se_owner_id : bytes;
  se_upload_id : bytes;
  se_target_path : bytes;
  se_upload_path : bytes;
  se_upload_length : Z }.

Definition session_context (u : Session) : UploadRecordContext :=
  new_context (se_owner_id u) (se_upload_id u) (se_target_path u) (se_upload_path u) (se_upload_length u).
Definition reset_session (u : Session) (created_ancestors : option Created) : M unit :=
  reset_and_ancestors (se_owner_id u) (se_upload_id u) (se_target_path u) (se_upload_path u)
    created_ancestors.

Definition finish_precommit_space_failure (u : Session) (file : File) (initial_offset : Z)
    (resume : bool) (created_ancestors : option Created) (message : bytes) : M unit :=
  if resume then
    truncated ← call (file_set_len file initial_offset);
    _ ← (if is_ok truncated then _ ← call (file_sync file); mret tt else mret tt);
    apply_upload_problem
      (error_context (se_upload_id u) PsRunning (Some (se_upload_length u)) (Some initial_offset))
      NO_SPACE UPLOAD_INSUFFICIENT_STORAGE message ResumeUpload
  else
    cleaned ← attempt (reset_session u created_ancestors);
    if negb (is_ok cleaned) then
      apply_upload_unknown (se_upload_id u)
        (str "Upload rollback could not be confirmed after a disk-space failure")
    else
      apply_upload_problem (error_context (se_upload_id u) PsRejected (Some (se_upload_length u)) None)
        NO_SPACE UPLOAD_INSUFFICIENT_STORAGE message RetryWithNewId.

Definition finish_precommit_io_failure (u : Session) (initial_offset : Z) (resume : bool)
    (created_ancestors : option Created) (message : bytes) : M unit :=
  rolled_back ← (if resume then mret true
                 else cleaned ← attempt (reset_session u created_ancestors); mret (is_ok cleaned));
  if negb rolled_back then
    apply_upload_unknown (se_upload_id u)
      (str "Upload rollback could not be confirmed after a precommit failure")
  else
    apply_upload_problem
      (error_context (se_upload_id u) (if resume then PsRunning else PsRejected)
         (Some (se_upload_length u)) (then_some resume initial_offset))
      SERVER_ERROR UPLOAD_PRECOMMIT_FAILED message
      (if resume then ResumeUpload else RetryWithNewId).

(** The record is removed with the ancestors the request created, if it created any. *)
Definition reset_if_created (u : Session) (created_ancestors : option Created) : M unit :=
  match created_ancestors with
  | Some _ => reset_session u created_ancestors
  | None => mret tt
  end.

Definition discard_if_fresh (u : Session) (file : File) (fresh : bool) : M (option (result Error unit)) :=
  if fresh then discarded ← attempt (discard_unrecorded_stage file (se_upload_path u)); mret (Some discarded)
  else mret None.
Definition check_discard (discarded : option (result Error unit)) : M unit :=
  match discarded with Some (Err e) => throw e | _ => mret tt end.

Definition finish_timed_out_upload (u : Session) (file : File) (message : bytes)
    (resume_offset : option Z) (created_ancestors : option Created) : M unit :=
  let fresh := bool_decide (resume_offset = None) in
  flushed ← call (file_flush file);
  match flushed with
  | Err e =>
      discarded ← discard_if_fresh u file fresh;
      _ ← reset_if_created u created_ancestors;
      _ ← check_discard discarded;
      throw (EIo e)
  | Ok _ =>
      metadata ← call (file_metadata file);
      match metadata with
      | Err e => _ ← reset_if_created u created_ancestors; throw (EIo e)
      | Ok metadata =>
          let partial_size := md_len metadata in
          let valid := match resume_offset with Some o => (o <=? partial_size)%Z | None => true end in
          _ ←
            (if valid && (partial_size <=? se_upload_length u)%Z
                && (negb fresh || (RESUMABLE_UPLOAD_MIN_SIZE <=? partial_size)%Z)
             then
               saved ← attempt ((if fresh then persist_initial_checkpoint else persist_checkpoint)
                                  file (session_context u) partial_size);
               match saved with
               | Err e =>
                   discarded ← discard_if_fresh u file fresh;
                   _ ← reset_if_created u created_ancestors;
                   _ ← check_discard discarded;
                   throw e
               | Ok _ => respond (set_offset partial_size)
               end
             else if fresh then
               discarded ← attempt (discard_unrecorded_stage file (se_upload_path u));
               _ ← reset_session u created_ancestors;
               check_discard (Some discarded)
             else
               match resume_offset with
               | Some initial_offset =>
                   _ ← (if (initial_offset <? partial_size)%Z then
                          _ ← io (file_set_len file initial_offset); io (file_sync file)
                        else mret tt);
                   respond (set_offset initial_offset)
               | None => mret tt
               end);
          apply_upload_unknown (se_upload_id u) message
      end
  end.

Definition upload_deadline_expired (deadline : Z) (upload_id : bytes) (message : bytes) : M bool :=
  t ← now;
  if (t <? deadline)%Z then mret false
  else _ ← apply_upload_unknown upload_id message; mret true.

Definition upload_deadline_expired_before_mutation (deadline : Z) (upload_id : bytes) (upload_length : Z)
    (upload_offset : option Z) (message : bytes) : M bool :=
  t ← now;
  if (t <? deadline)%Z then mret false
  else
    _ ← apply_upload_problem (error_context upload_id PsNotStarted (Some upload_length) upload_offset)
          TIMEOUT REQUEST_TIMEOUT message Retry;
    mret true.
End failure.
End UploadFailure.
