(* ===== verification/UploadCommit.v ===== *)
(** * Publishing an upload

    [src/server/upload/commit.rs] and [commit_staged_file] of
    [src/server/storage.rs]: the last checks, the replay of the target's metadata,
    the durable record that publication has started, the conditional rename, and
    the record of how it ended. *)

From S2P Require Import Prelude Paths StateModel UploadStore RootedPaths Utils Problem UploadProtocol UploadWorld.
From S2P Require Import UploadRecord UploadFailure.

Module UploadCommit.
Import UploadProtocol UploadRecord UploadFailure.

Section commit.
Context `{UploadEnv}.

(** The disk-space reservation of one upload and what is left of it. *)
Record SpaceLease : Type := { lease_token : Reservation; lease_remaining : Z }.

(** ** Storage *)

Inductive CommitStagedFileOutcome : Type :=
| Published | RejectedCommit (file : File) | NotPublished (e : Error) | PublishedDurabilityUnknown (e : IoError).

Definition rename_op (source : bytes) (file : File) (destination : bytes)
    (expected : ReplacementTargetIdentity) : M ReplaceAndSyncOutcome := fun s =>
  let '(o, w) := rename_replace_if_unchanged source file destination expected (world s) in
  (match o with Some r => Val r | None => Crashed end, with_world w s).

Definition commit_staged_file (file : File) (source destination : bytes)
    (expected_destination : ReplacementTargetIdentity) : M CommitStagedFileOutcome :=
  synced ← call (file_sync file);
  match synced with
  | Err e => mret (NotPublished (EIo e))
  | Ok _ =>
      outcome ← rename_op source file destination expected_destination;
      mret match outcome with
           | RPublished => Published
           | RRejected => RejectedCommit file
           | RNotPublished e => NotPublished (EIo e)
           | RDurabilityUnknown e => PublishedDurabilityUnknown e
           end
  end.

(** ** Publication *)

Definition commit_ready_upload (u : Session) (target_identity : ReplacementTargetIdentity)
    (target_revision : option bytes) (created_ancestors : option Created) (file : File)
    (success_status : Z) : M unit :=
  let context := session_context u in
  let upload_length := se_upload_length u in
  let finish :=
    recorded ← attempt (persist_terminal context upload_length RsCommitted);
    match recorded with
    | Err _ =>
        apply_upload_problem
          (error_context (se_upload_id u) PsUnknown (Some upload_length) (Some upload_length))
          SERVER_ERROR UPLOAD_TERMINAL_RECORD_FAILED
          (str "Upload was published, but terminal confirmation could not be persisted; query the upload ID before any retry")
          QueryUpload
    | Ok _ =>
        _ ← respond (set_status success_status);
        respond (apply_upload_record_headers (hyphenated (se_upload_id u)) (Some upload_length)
                   (Some upload_length) PsCommitted)
    end in
  committed ← commit_staged_file file (se_upload_path u) (se_target_path u) target_identity;
  match committed with
  | Published =>
      _ ← call (remove_empty_upload_stage_directory (se_upload_path u)); finish
  | RejectedCommit file =>
      retained ← attempt (persist_awaiting_confirmation file (with_target_revision target_revision context));
      match retained with
      | Err _ =>
          apply_upload_unknown (se_upload_id u)
            (str "Upload was not published, but its retained stage could not be confirmed")
      | Ok _ =>
          render_upload_target_conflict (se_target_path u) (se_owner_id u)
            (error_context (se_upload_id u) PsAwaitingConfirmation (Some upload_length) (Some upload_length))
      end
  | NotPublished _ =>
      _ ← reset_session u created_ancestors;
      _ ← attempt (persist_terminal context 0 RsRejected);
      apply_upload_problem (error_context (se_upload_id u) PsRejected (Some upload_length) None)
        SERVER_ERROR UPLOAD_NOT_PUBLISHED (str "Upload was not published; retry the upload") RetryWithNewId
  | PublishedDurabilityUnknown _ =>
      _ ← attempt (persist_unknown context upload_length);
      _ ← call (remove_empty_upload_stage_directory (se_upload_path u));
      apply_upload_problem
        (error_context (se_upload_id u) PsUnknown (Some upload_length) (Some upload_length))
        SERVER_ERROR UPLOAD_PUBLICATION_DURABILITY_UNKNOWN
        (str "Upload commit was not confirmed; refresh the folder before trying again") QueryUpload
  end.

(** ** The checks before publication *)

Record TransferredUpload : Type := {
  tu_session : Session;
  tu_mode : UploadMode;
  tu_deadline : Z;
  tu_target_identity : ReplacementTargetIdentity;
  tu_target_revision : option bytes;
  tu_checkpoint_state : option UploadRecordState;
  tu_target_metadata : option Preserved;
  tu_created_ancestors : option Created;
  tu_file : File;
  tu_space_lease : SpaceLease;
  tu_success_status : Z }.

Definition awaiting (state : option UploadRecordState) : bool :=
  bool_decide (state = Some RsAwaitingConfirmation).

(** [Ok(true)] and nothing else. *)
Definition space_confirmed (lease : SpaceLease) (file : File) : M bool :=
  available ← call (reserved_space_is_available (lease_token lease) file min_free_space);
  mret match available with Ok b => b | Err _ => false end.

(** The deadline test that precedes every step: [true] when the upload has ended. *)
Definition ended_by_deadline (t : TransferredUpload) : M bool :=
  let u := tu_session t in
  time ← now;
  if (time <? tu_deadline t)%Z then mret false
  else
    _ ← (if awaiting (tu_checkpoint_state t) then
           apply_awaiting_confirmation_problem (se_upload_id u) (se_upload_length u) TIMEOUT
             REQUEST_TIMEOUT (str "Upload timed out before durable commit")
         else
           finish_timed_out_upload u (tu_file t) (str "Upload timed out before durable commit")
             (mode_offset (tu_mode t)) (tu_created_ancestors t));
    mret true.

(** A rollback whose failure leaves the outcome unknown. *)
Definition reject_after_rollback (t : TransferredUpload) (unconfirmed : bytes) (status : Z)
    (code : ErrorCode) (detail : bytes) : M unit :=
  let u := tu_session t in
  cleaned ← attempt (reset_session u (tu_created_ancestors t));
  if negb (is_ok cleaned) then apply_upload_unknown (se_upload_id u) unconfirmed
  else apply_upload_problem
         (error_context (se_upload_id u) PsRejected (Some (se_upload_length u)) None)
         status code detail RetryWithNewId.

Definition policy_refusal (e : IoError) : bool :=
  match e with
  | RootedPaths.Unsupported | RootedPaths.PermissionDenied | RootedPaths.InvalidData => true
  | _ => false
  end.

(** The replay of the replaced file's metadata: [true] when the upload goes on. *)
Definition replay_metadata (t : TransferredUpload) : M bool :=
  let u := tu_session t in
  match tu_target_metadata t with
  | None => mret true
  | Some metadata =>
      applied ← call (apply_replacement_metadata (tu_file t) metadata);
      match applied with
      | Ok _ => mret true
      | Err e =>
          _ ←
            (if awaiting (tu_checkpoint_state t) then
               apply_awaiting_confirmation_problem (se_upload_id u) (se_upload_length u)
                 (if policy_refusal e then CONFLICT else SERVER_ERROR)
                 (if policy_refusal e then UPLOAD_METADATA_PRESERVATION_REFUSED
                  else UPLOAD_PRECOMMIT_FAILED)
                 (if policy_refusal e then str "Cannot preserve target metadata; overwrite was refused"
                  else str "Target metadata replay failed before commit")
             else
               _ ← reset_session u (tu_created_ancestors t);
               if policy_refusal e then
                 apply_upload_problem
                   (error_context (se_upload_id u) PsRejected (Some (se_upload_length u)) None)
                   CONFLICT UPLOAD_METADATA_PRESERVATION_REFUSED
                   (str "Cannot preserve target metadata; overwrite was refused") RefreshTarget
               else throw (EIo e));
          mret false
      end
  end.

(** The stage does not have the declared length. *)
Definition length_mismatch (t : TransferredUpload) (actual_length : Z) : M unit :=
  let u := tu_session t in
  let upload_length := se_upload_length u in
  let resumable := (actual_length <? upload_length)%Z in
  _ ← (if resumable then
         _ ← persist_checkpoint (tu_file t)
               (with_target_revision (tu_target_revision t) (session_context u)) actual_length;
         respond (set_offset actual_length)
       else reset_session u (tu_created_ancestors t));
  apply_upload_problem
    (error_context (se_upload_id u) (if resumable then PsRunning else PsRejected) (Some upload_length)
       (then_some resumable actual_length))
    CONFLICT UPLOAD_LENGTH_MISMATCH
    (str "Upload is incomplete: expected " ++ Utils.u64_to_string upload_length ++ str " bytes, stored "
     ++ Utils.u64_to_string actual_length)
    (if resumable then ResumeUpload else RetryWithNewId).

(** From the replay of the metadata on: the part that no deadline interrupts. *)
Definition commit_transferred (t : TransferredUpload) : M unit :=
  let u := tu_session t in
  let upload_length := se_upload_length u in
  go ← replay_metadata t;
  if negb go then mret tt
  else
    enough ← space_confirmed (tu_space_lease t) (tu_file t);
    if negb enough then
      if awaiting (tu_checkpoint_state t) then
        apply_awaiting_confirmation_problem (se_upload_id u) upload_length NO_SPACE
          UPLOAD_INSUFFICIENT_STORAGE (str "Insufficient protected free disk space before publication")
      else
        reject_after_rollback t
          (str "Upload rollback could not be confirmed after metadata replay") NO_SPACE
          UPLOAD_INSUFFICIENT_STORAGE (str "Insufficient protected free disk space before publication")
    else
      recorded ← attempt (persist_commit_started (tu_file t)
                    (with_target_revision (tu_target_revision t) (session_context u)));
      if negb (is_ok recorded) then
        reject_after_rollback t
          (str "Upload rollback could not be confirmed before publication") SERVER_ERROR
          UPLOAD_CHECKPOINT_PERSIST_FAILED (str "Upload was not published; retry with a new upload ID")
      else
        enough ← space_confirmed (tu_space_lease t) (tu_file t);
        if negb enough then
          reject_after_rollback t
            (str "Upload rollback could not be confirmed before publication") NO_SPACE
            UPLOAD_INSUFFICIENT_STORAGE (str "Insufficient protected free disk space before publication")
        else
          commit_ready_upload u (tu_target_identity t) (tu_target_revision t) (tu_created_ancestors t)
            (tu_file t) (tu_success_status t).

Definition prepare_transferred_upload (t : TransferredUpload) : M unit :=
  let u := tu_session t in
  let resume := is_resume (tu_mode t) in
  let awaiting_confirmation := awaiting (tu_checkpoint_state t) in
  let initial_offset := default 0%Z (mode_offset (tu_mode t)) in
  let upload_length := se_upload_length u in
  flushed ← call (file_flush (tu_file t));
  match flushed with
  | Err _ =>
      if awaiting_confirmation then
        apply_awaiting_confirmation_problem (se_upload_id u) upload_length SERVER_ERROR
          UPLOAD_PRECOMMIT_FAILED (str "Upload staging flush failed before commit")
      else
        finish_precommit_io_failure u initial_offset resume (tu_created_ancestors t)
          (str "Upload staging flush failed before commit")
  | Ok _ =>
      enough ← space_confirmed (tu_space_lease t) (tu_file t);
      if negb enough then
        if awaiting_confirmation then
          apply_awaiting_confirmation_problem (se_upload_id u) upload_length NO_SPACE
            UPLOAD_INSUFFICIENT_STORAGE
            (str "Protected free disk space could not be confirmed before commit")
        else
          finish_precommit_space_failure u (tu_file t) initial_offset resume (tu_created_ancestors t)
            (str "Protected free disk space could not be confirmed before commit")
      else
        ended ← ended_by_deadline t;
        if ended : bool then mret tt
        else
          metadata ← call (file_metadata (tu_file t));
          match metadata with
          | Err e =>
              if awaiting_confirmation then
                apply_awaiting_confirmation_problem (se_upload_id u) upload_length SERVER_ERROR
                  UPLOAD_PRECOMMIT_FAILED (str "Upload staging metadata failed before commit")
              else throw (EIo e)
          | Ok metadata =>
              let actual_length := md_len metadata in
              ended ← ended_by_deadline t;
              if ended : bool then mret tt
              else if negb (actual_length =? upload_length)%Z then
                if awaiting_confirmation then
                  apply_awaiting_confirmation_problem (se_upload_id u) upload_length CONFLICT
                    UPLOAD_STAGE_INVALID (str "Upload staging file changed before commit")
                else length_mismatch t actual_length
              else
                ended ← ended_by_deadline t;
                if ended : bool then mret tt else commit_transferred t
          end
  end.
End commit.
End UploadCommit.
