(* ===== verification/UploadTransfer.v ===== *)
(** * Receiving the body of an upload

    [src/server/upload/transfer.rs]: the chunks of the request body are appended to
    the stage, never beyond the declared length, until the body ends, a deadline
    passes or something fails; what a failure leaves behind is either recorded as a
    resumable prefix or removed. *)

From S2P Require Import Prelude Paths StateModel UploadStore RootedPaths Problem UploadProtocol UploadWorld.
From S2P Require Import UploadRecord UploadFailure UploadCommit.

Module UploadTransfer.
Import UploadProtocol UploadRecord UploadFailure UploadCommit.

Definition DISK_SPACE_RECHECK_BYTES : Z := 8 * 1024 * 1024.
Definition UPLOAD_RESERVATION_METADATA_BYTES : Z := 1024 * 1024 + 64 * 1024.

Inductive UploadTransferError : Type :=
| TIo (e : IoError) | TIdleTimeout | TTotalTimeout | TExcessBody | TInsufficientStorage.

Definition partial_upload_is_checkpointable (partial_size initial_offset upload_length : Z) (resume : bool)
    : bool :=
  (initial_offset <=? partial_size)%Z && (partial_size <=? upload_length)%Z
  && (resume || (RESUMABLE_UPLOAD_MIN_SIZE <=? partial_size)%Z).

(** Instants count nanoseconds; [Instant::checked_add] fails beyond 64-bit seconds. *)
Definition instant_checked_add (t d : Z) : option Z :=
  if ((t + d) / 1000000000 <=? I64_MAX)%Z then Some (t + d)%Z else None.

Section transfer.
Context `{UploadEnv}.

Definition apply_awaiting_confirmation_transfer_error (upload_id : bytes) (upload_length : Z)
    (error : UploadTransferError) : M unit :=
  let '(status, code, detail) :=
    match error with
    | TIo _ => (SERVER_ERROR, UPLOAD_PRECOMMIT_FAILED, str "Upload confirmation body failed before publication")
    | TIdleTimeout => (TIMEOUT, UPLOAD_IDLE_TIMEOUT, str "Upload confirmation body idle timeout")
    | TTotalTimeout =>
        (TIMEOUT, REQUEST_TIMEOUT,
         str "Upload deadline exceeded while waiting for an empty confirmation body")
    | TExcessBody =>
        (TOO_LARGE, UPLOAD_BODY_EXCEEDS_REMAINING_LENGTH,
         str "Request body exceeds declared remaining upload length")
    | TInsufficientStorage =>
        (NO_SPACE, UPLOAD_INSUFFICIENT_STORAGE, str "Insufficient protected free disk space")
    end in
  apply_upload_problem
    (error_context upload_id PsAwaitingConfirmation (Some upload_length) (Some upload_length))
    status code detail QueryUpload.

(** ** Writing chunks *)

Definition consume_lease (lease : SpaceLease) (n : Z) : M SpaceLease := fun s =>
  (Val {| lease_token := lease_token lease;
          lease_remaining := lease_remaining lease - Z.min n (lease_remaining lease) |},
   with_world (consume (lease_token lease) n (world s)) s).

(** [None] in the result: the chunk was written; the lease and the bytes until the
    next check of the disk space move on. *)
Definition write_upload_chunk (lease : SpaceLease) (file : File) (data : bytes) (bytes_until_space_check : Z)
    : M (result UploadTransferError (SpaceLease * Z)) :=
  if bool_decide (data = []) then mret (Ok (lease, bytes_until_space_check))
  else
    let data_len := Z.of_nat (length data) in
    if (lease_remaining lease <? data_len)%Z then mret (Err TExcessBody)
    else
      checked ←
        (if (bytes_until_space_check <=? data_len)%Z then
           available ← call (reserved_space_is_available (lease_token lease) file min_free_space);
           mret match available with
                | Err e => Err (TIo e)
                | Ok false => Err TInsufficientStorage
                | Ok true => Ok DISK_SPACE_RECHECK_BYTES
                end
         else mret (Ok bytes_until_space_check));
      match checked with
      | Err e => mret (Err e)
      | Ok until =>
          written ← call (file_write_all file data);
          match written with
          | Err e => mret (Err (TIo e))
          | Ok _ =>
              lease ← consume_lease lease data_len;
              mret (Ok (lease, u64_saturating_sub until data_len))
          end
      end.

Definition next_frame_op (deadline : Z) : M Frame := fun s =>
  let '(o, w) := next_frame deadline (world s) in
  (match o with Some f => Val f | None => Crashed end, with_world w s).

(** A nonempty chunk: as much of it as is still expected is written, and the idle
    deadline moves on. *)
Definition accept_chunk (file : File) (total_deadline : Z) (lease : SpaceLease)
    (remaining idle_deadline bytes_until_space_check : Z) (chunk : bytes)
    : M (result UploadTransferError (SpaceLease * Z * Z * Z)) :=
  let accepted_bytes := Z.min remaining (Z.of_nat (length chunk)) in
  if (0 <? accepted_bytes)%Z then
    written ← write_upload_chunk lease file (take (Z.to_nat accepted_bytes) chunk) bytes_until_space_check;
    match written with
    | Err e => mret (Err e)
    | Ok (lease, until) =>
        t ← now;
        match instant_checked_add t upload_idle_timeout with
        | None => mret (Err (TIo RootedPaths.InvalidInput))
        | Some idle_deadline =>
            t ← now;
            if (total_deadline <=? t)%Z then mret (Err TTotalTimeout)
            else mret (Ok (lease, until, remaining - accepted_bytes, idle_deadline)%Z)
        end
    end
  else mret (Ok (lease, bytes_until_space_check, remaining, idle_deadline)).

(** The loop; [fuel] bounds the number of frames, and a loop that has not ended
    within it is one that is still running when the process stops. *)
Fixpoint receive_loop (fuel : nat) (file : File) (total_deadline : Z) (lease : SpaceLease)
    (remaining idle_deadline bytes_until_space_check : Z) : M (result UploadTransferError SpaceLease) :=
  match fuel with
  | O => fun s => (Crashed, s)
  | S fuel =>
      frame ← next_frame_op (Z.min total_deadline idle_deadline);
      match frame with
      | ForcedShutdown => mret (Err (TIo RootedPaths.Interrupted))
      | BodyError => mret (Err (TIo RootedPaths.OtherIo))
      | FrameTimeout =>
          t ← now;
          mret (Err (if (total_deadline <=? t)%Z then TTotalTimeout else TIdleTimeout))
      | EndOfBody => mret (Ok lease)
      | Chunk chunk =>
          if bool_decide (chunk = []) then
            receive_loop fuel file total_deadline lease remaining idle_deadline bytes_until_space_check
          else
            accepted ← accept_chunk file total_deadline lease remaining idle_deadline
                         bytes_until_space_check chunk;
            match accepted with
            | Err e => mret (Err e)
            | Ok (lease, until, rest, idle_deadline) =>
                if (Z.min remaining (Z.of_nat (length chunk)) <? Z.of_nat (length chunk))%Z
                then mret (Err TExcessBody)
                else receive_loop fuel file total_deadline lease rest idle_deadline until
            end
      end
  end.

Definition receive_upload_body (fuel : nat) (file : File) (lease : SpaceLease) (remaining total_deadline : Z)
    : M (result UploadTransferError SpaceLease) :=
  started ← now;
  match instant_checked_add started upload_idle_timeout with
  | None => mret (Err (TIo RootedPaths.InvalidInput))
  | Some idle_deadline =>
      receive_loop fuel file total_deadline lease remaining idle_deadline DISK_SPACE_RECHECK_BYTES
  end.

(** ** Failed transfers *)

Record UploadTransaction : Type := {
  tx_session : Session;
  tx_mode : UploadMode;
  tx_deadline : Z;
  tx_target_identity : ReplacementTargetIdentity;
  tx_target_revision : option bytes;
  tx_checkpoint_state : option UploadRecordState;
  tx_target_metadata : option Preserved;
  tx_created_ancestors : option Created;
  tx_file : File;
  tx_space_lease : SpaceLease;
  tx_success_status : Z }.

Definition transferred (t : UploadTransaction) (lease : SpaceLease) : TransferredUpload :=
  {| tu_session := tx_session t; tu_mode := tx_mode t; tu_deadline := tx_deadline t;
     tu_target_identity := tx_target_identity t; tu_target_revision := tx_target_revision t;
     tu_checkpoint_state := tx_checkpoint_state t; tu_target_metadata := tx_target_metadata t;
     tu_created_ancestors := tx_created_ancestors t; tu_file := tx_file t; tu_space_lease := lease;
     tu_success_status := tx_success_status t |}.

(** Keep the prefix that arrived as a checkpoint, or remove what cannot be resumed. *)
Definition keep_or_reset (t : UploadTransaction) (partial_size : Z) : M bool :=
  let u := tx_session t in
  let resume := is_resume (tx_mode t) in
  let initial_offset := default 0%Z (mode_offset (tx_mode t)) in
  let keep_for_resume :=
    partial_upload_is_checkpointable partial_size initial_offset (se_upload_length u) resume in
  _ ←
    (if keep_for_resume : bool then
       persist_checkpoint (tx_file t) (with_target_revision (tx_target_revision t) (session_context u))
         partial_size
     else if negb resume then reset_session u (tx_created_ancestors t)
     else throw (EIo RootedPaths.InvalidData));
  mret keep_for_resume.

(** The declared length was exceeded or the disk is full: back to where it started. *)
Definition transfer_refused (t : UploadTransaction) (status : Z) (code : ErrorCode) (detail : bytes)
    : M unit :=
  let u := tx_session t in
  let resume := is_resume (tx_mode t) in
  apply_upload_problem
    (error_context (se_upload_id u) (if resume then PsRunning else PsRejected) (Some (se_upload_length u))
       (then_some resume (default 0%Z (mode_offset (tx_mode t)))))
    status code detail (if resume then ResumeUpload else RetryWithNewId).

(** What becomes of the stage and what is answered, by the kind of failure. *)
Definition fail_transfer (t : UploadTransaction) (partial_size : Z) (error : UploadTransferError) : M unit :=
  let u := tx_session t in
  let resume := is_resume (tx_mode t) in
  let initial_offset := default 0%Z (mode_offset (tx_mode t)) in
  match error with
  | TExcessBody =>
      _ ← (if resume then
             _ ← io (file_set_len (tx_file t) initial_offset); io (file_sync (tx_file t))
           else reset_session u (tx_created_ancestors t));
      transfer_refused t TOO_LARGE UPLOAD_BODY_EXCEEDS_REMAINING_LENGTH
        (str "Request body exceeds declared remaining upload length")
  | TInsufficientStorage =>
      _ ← io (file_set_len (tx_file t) initial_offset);
      _ ← io (file_sync (tx_file t));
      _ ← (if resume then mret tt else reset_session u (tx_created_ancestors t));
      transfer_refused t NO_SPACE UPLOAD_INSUFFICIENT_STORAGE (str "Insufficient protected free disk space")
  | TIdleTimeout =>
      keep_for_resume ← keep_or_reset t partial_size;
      _ ← (if keep_for_resume : bool then respond (set_offset partial_size) else mret tt);
      apply_upload_problem
        (error_context (se_upload_id u) (if keep_for_resume : bool then PsRunning else PsRejected)
           (Some (se_upload_length u)) (then_some keep_for_resume partial_size))
        TIMEOUT UPLOAD_IDLE_TIMEOUT (str "upload body idle timeout")
        (if keep_for_resume : bool then ResumeUpload else RetryWithNewId)
  | TIo e => _ ← keep_or_reset t partial_size; throw (EIo e)
  | TTotalTimeout => throw (EOther "handled before metadata I/O")
  end.

Definition transfer_failed (t : UploadTransaction) (error : UploadTransferError) : M unit :=
  metadata ← call (file_metadata (tx_file t));
  partial_size ← match metadata with
                 | Ok metadata => mret (md_len metadata)
                 | Err e => if is_resume (tx_mode t) then throw (EIo e) else mret 0%Z
                 end;
  fail_transfer t partial_size error.

Definition transfer_upload_body (fuel : nat) (t : UploadTransaction) : M unit :=
  let u := tx_session t in
  let initial_offset := default 0%Z (mode_offset (tx_mode t)) in
  match u64_checked_sub (se_upload_length u) initial_offset with
  | None => throw (EOther "validated upload offset")
  | Some remaining =>
      received ← receive_upload_body fuel (tx_file t) (tx_space_lease t) remaining (tx_deadline t);
      match received with
      | Ok lease => prepare_transferred_upload (transferred t lease)
      | Err error =>
          if awaiting (tx_checkpoint_state t) then
            apply_awaiting_confirmation_transfer_error (se_upload_id u) (se_upload_length u) error
          else
            match error with
            | TTotalTimeout =>
                finish_timed_out_upload u (tx_file t)
                  (str "Upload deadline exceeded; the final result is unknown")
                  (mode_offset (tx_mode t)) (tx_created_ancestors t)
            | _ => transfer_failed t error
            end
      end
  end.
End transfer.
End UploadTransfer.
