(* ===== verification/UploadPrepare.v ===== *)
(** * Preparing an upload

    [src/server/upload/prepare.rs]: what an upload id may do given its record, which
    target it may replace, the space it needs, and the staging file it writes to,
    new or reopened.  [None] means that the request has been answered. *)

From S2P Require Import Prelude Paths PathKeys StateModel UploadStore RootedPaths Utils Problem UploadProtocol UploadWorld.
From S2P Require Import UploadRecord UploadFailure UploadCommit UploadTransfer.

Module UploadPrepare.
Import UploadProtocol UploadRecord UploadFailure UploadCommit UploadTransfer.

Definition awaiting_stage_is_create_only (checkpoint : UploadCheckpoint) : bool :=
  bool_decide (cp_state checkpoint = RsAwaitingConfirmation)
  && bool_decide (cp_target_revision checkpoint = None).

Record UploadOptions : Type := {
  op_owner : bytes;
  op_mode : UploadMode;
  op_upload_id : bytes;
  op_upload_length : Z;
  op_overwrite : UploadOverwritePolicy;
  op_deadline : Z }.

Section prepare.
Context `{UploadEnv}.

Definition owner_persistent (owner : bytes) : bytes :=
  sha256 (str "xczs-durable-owner-v1" ++ [x00] ++ owner).

(** Continue unless the request has been answered. *)
Definition proceed {A B} (m : M (option A)) (f : A -> M (option B)) : M (option B) :=
  o ← m; match o with Some a => f a | None => mret None end.
Definition answered {A} (m : M unit) : M (option A) := _ ← m; mret None.
(** [true]: the request has been answered. *)
Definition unless (m : M bool) : M (option unit) :=
  b ← m; mret (if b : bool then None else Some tt).
Definition when (m : M bool) : M (option unit) :=
  b ← m; mret (if b : bool then Some tt else None).

(** ** The active-file registry *)

Fixpoint wait_for_cleanup (fuel : nat) (marker : RootedEntryKey) (deadline : Z) : M unit :=
  match fuel with
  | O => fun s => (Crashed, s)
  | S fuel =>
      claimed ← (fun s => (Val (bool_decide (marker ∈ active_upload_files (world s))), s));
      if claimed : bool then
        _ ← io (wait_for_maintenance_claim_change deadline); wait_for_cleanup fuel marker deadline
      else mret tt
  end.

(** Registers the stage unless maintenance has claimed it; atomic under the lock. *)
Definition register_active (k : RootedEntryKey) : M bool := fun s =>
  let active := active_upload_files (world s) in
  if bool_decide (maintenance_marker k ∈ active) then (Val false, s)
  else (Val true,
        with_leased (k :: leased s)
          (with_world (set_active_upload_files
             (if bool_decide (k ∈ active) then active else k :: active) (world s)) s)).

Fixpoint track_active_upload_files (fuel : nat) (upload_path : bytes) (deadline : Z) : M unit :=
  match fuel with
  | O => fun s => (Crashed, s)
  | S fuel =>
      k ← io (entry_key upload_path);
      registered ← register_active k;
      if registered : bool then mret tt
      else
        _ ← wait_for_cleanup fuel (maintenance_marker k) deadline;
        track_active_upload_files fuel upload_path deadline
  end.

Definition release_active : M unit := fun s =>
  (Val tt, with_leased [] (with_world (set_active_upload_files
     (filter (fun k => k ∉ leased s) (active_upload_files (world s))) (world s)) s)).

(** ** The record of the upload id *)

Definition check_existing_record (u : Session) (mode : UploadMode) (record : UploadCheckpoint)
    : M (option unit) :=
  let upload_id := se_upload_id u in
  let resume := is_resume mode in
  let context state :=
    error_context upload_id state (Some (cp_upload_length record)) (Some (cp_durable_offset record)) in
  let refuse state code detail recovery :=
    answered (apply_upload_problem (context state) CONFLICT code detail recovery) in
  match cp_state record with
  | RsCommitted =>
      if (cp_upload_length record =? se_upload_length u)%Z then
        answered (_ ← respond (set_status OK);
                  respond (apply_upload_record_headers (hyphenated upload_id) (Some (cp_upload_length record))
                             (Some (cp_durable_offset record)) PsCommitted))
      else
        refuse PsCommitted UPLOAD_COMMITTED_LENGTH_MISMATCH
          (str "Upload ID is already committed with length " ++ Utils.u64_to_string (cp_upload_length record))
          QueryUpload
  | RsRejected =>
      refuse PsRejected UPLOAD_ID_REJECTED (str "Upload ID was rejected; start with a new upload ID")
        RetryWithNewId
  | RsRunning =>
      if resume then mret (Some tt)
      else refuse PsRunning UPLOAD_IN_PROGRESS
             (str "Upload ID is already running or awaiting terminal confirmation; query its status")
             QueryUpload
  | RsAwaitingConfirmation =>
      if negb resume then
        answered (render_upload_target_conflict (se_target_path u) (se_owner_id u)
                    (context PsAwaitingConfirmation))
      else if negb (cp_upload_length record =? se_upload_length u)%Z then
        refuse PsAwaitingConfirmation UPLOAD_LENGTH_CHANGED
          (str "Upload length changed: expected " ++ Utils.u64_to_string (cp_upload_length record)
           ++ str ", received " ++ Utils.u64_to_string (se_upload_length u)) QueryUpload
      else if negb (bool_decide (mode_offset mode = Some (cp_durable_offset record))) then
        refuse PsAwaitingConfirmation UPLOAD_OFFSET_CHANGED (str "Upload offset changed; query it again")
          QueryUpload
      else mret (Some tt)
  | RsUnknown =>
      answered (apply_upload_problem (context PsUnknown) SERVER_ERROR UPLOAD_PUBLICATION_OUTCOME_UNKNOWN
        (str "Upload publication outcome is unknown; query or refresh before retrying") QueryUpload)
  end.

Definition session_not_found (upload_id : bytes) : M unit :=
  apply_upload_problem (error_context upload_id PsNotSeen None None) NOT_FOUND UPLOAD_SESSION_NOT_FOUND
    (str "Not Found") RetryWithNewId.

(** ** The target *)

Definition select_target (u : Session) (mode : UploadMode) (overwrite : UploadOverwritePolicy)
    (existing_record : option UploadCheckpoint)
    : M (option (ReplacementTargetIdentity * option Preserved)) :=
  let upload_id := se_upload_id u in
  let path := se_target_path u in
  let conflict_state :=
    match cp_state <$> existing_record with
    | Some RsAwaitingConfirmation => PsAwaitingConfirmation
    | Some RsRunning => PsRunning
    | _ => PsNotStarted
    end in
  let context := error_context upload_id conflict_state (Some (se_upload_length u))
                   (cp_durable_offset <$> existing_record) in
  inspected ← io (replacement_identity path);
  canonical_relative_path ← state_relative_path path;
  let inspection := inspect_target_identity (se_owner_id u) canonical_relative_path inspected in
  let running_no_replace_may_finish_staging :=
    is_resume mode && match existing_record with
                      | Some record => bool_decide (cp_state record = RsRunning)
                      | None => false
                      end in
  match overwrite with
  | NoReplace =>
      if in_exists inspection && negb running_no_replace_may_finish_staging then
        answered (_ ← apply_target_inspection_headers inspection;
                  apply_upload_problem context CONFLICT DESTINATION_EXISTS
                    (str "The upload destination exists and requires explicit overwrite confirmation")
                    RefreshTarget)
      else if match existing_record with
              | Some record => bool_decide (cp_state record = RsAwaitingConfirmation)
                               && negb (awaiting_stage_is_create_only record)
              | None => false
              end then
        answered (apply_upload_problem
                    (error_context upload_id PsAwaitingConfirmation (Some (se_upload_length u))
                       (cp_durable_offset <$> existing_record))
                    CONFLICT UPLOAD_METADATA_PRESERVATION_REFUSED
                    (str "The retained stage contains metadata from a replaced target; discard it and start a new create-only upload")
                    RefreshTarget)
      else mret (Some (Missing, None))
  | IfUnchanged expected =>
      if negb (bool_decide (in_revision inspection = Some expected)) || negb (in_replaceable inspection) then
        answered (render_upload_target_conflict path (se_owner_id u) context)
      else
        target ← call (replacement_metadata path);
        match target with
        | Err e =>
            if policy_refusal e
            then answered (render_upload_target_conflict path (se_owner_id u) context)
            else throw (EIo e)
        | Ok (i, preserved) =>
            if negb (bool_decide (target_revision_of (se_owner_id u) canonical_relative_path i = Some expected))
            then answered (render_upload_target_conflict path (se_owner_id u) context)
            else mret (Some (i, preserved))
        end
  end.

(** ** The checkpoint *)

Definition check_checkpoint (u : Session) (initial_offset : Z) (checkpoint : UploadCheckpoint)
    : M (option unit) :=
  let public_state :=
    match cp_state checkpoint with RsAwaitingConfirmation => PsAwaitingConfirmation | _ => PsRunning end in
  let context := error_context (se_upload_id u) public_state (Some (cp_upload_length checkpoint))
                   (Some (cp_durable_offset checkpoint)) in
  if negb (cp_upload_length checkpoint =? se_upload_length u)%Z then
    answered (apply_upload_problem context CONFLICT UPLOAD_LENGTH_CHANGED
      (str "Upload length changed: expected " ++ Utils.u64_to_string (cp_upload_length checkpoint)
       ++ str ", received " ++ Utils.u64_to_string (se_upload_length u)) QueryUpload)
  else if negb (cp_durable_offset checkpoint =? initial_offset)%Z then
    answered (apply_upload_problem context CONFLICT UPLOAD_OFFSET_CHANGED
      (str "Upload offset changed; query it again") QueryUpload)
  else mret (Some tt).

Definition body_too_long (u : Session) (session_checkpoint : option UploadCheckpoint)
    (resume : bool) (initial_offset : Z) : M unit :=
  let '(state, recovery) :=
    match cp_state <$> session_checkpoint with
    | Some RsAwaitingConfirmation => (PsAwaitingConfirmation, QueryUpload)
    | Some _ => (PsRunning, ResumeUpload)
    | None => (PsRejected, RetryWithNewId)
    end in
  apply_upload_problem
    (error_context (se_upload_id u) state (Some (se_upload_length u)) (then_some resume initial_offset))
    TOO_LARGE UPLOAD_BODY_EXCEEDS_REMAINING_LENGTH
    (str "Request body exceeds declared remaining upload length") recovery.

(** ** Staging files *)

(** A stage made by this request is given up before anything is recorded for it. *)
Definition abandon_fresh_stage (u : Session) (file : File) (created : Created) : M unit :=
  discarded ← attempt (discard_unrecorded_stage file (se_upload_path u));
  _ ← rollback_upload_ancestors (Some created);
  check_discard (Some discarded).

Definition reserve (file : File) (remaining : Z) : M (option SpaceLease) :=
  r ← io (reserve_allocated file remaining UPLOAD_RESERVATION_METADATA_BYTES min_free_space);
  mret ((fun token => {| lease_token := token; lease_remaining := remaining |}) <$> r).

(** A fresh upload reserves its space, crosses the mutation boundary, creates its
    stage and registers it. *)
Definition create_fresh_stage (fuel : nat) (u : Session) (deadline remaining : Z)
    : M (option (SpaceLease * File * Created)) :=
  let upload_id := se_upload_id u in
  anchor ← io (open_nearest_existing_parent (se_upload_path u));
  reserved ← reserve anchor remaining;
  match reserved with
  | None =>
      answered (apply_upload_problem (error_context upload_id PsRejected (Some (se_upload_length u)) None)
        NO_SPACE UPLOAD_INSUFFICIENT_STORAGE (str "Insufficient protected free disk space") RetryWithNewId)
  | Some lease =>
      proceed (unless (upload_deadline_expired_before_mutation deadline upload_id (se_upload_length u) None
                 (str "Upload deadline exceeded while reserving disk space"))) (fun _ =>
      proceed (when (begin_upload_mutation_or_reject upload_id (se_upload_length u) None
                 (str "Upload timed out before creating its staging namespace"))) (fun _ =>
      made ← call (create_private_upload_stage (se_upload_path u));
      match made with
      | Err RootedPaths.AlreadyExists =>
          answered (apply_upload_problem
            (error_context upload_id PsNotSeen (Some (se_upload_length u)) None) CONFLICT
            UPLOAD_STAGE_CONFLICT (str "Upload staging path is already occupied; retry with a new upload ID")
            RetryWithNewId)
      | Err e => throw (EIo e)
      | Ok (file, created) =>
          tracked ← attempt (track_active_upload_files fuel (se_upload_path u) deadline);
          match tracked with
          | Err (EIo RootedPaths.TimedOut) =>
              _ ← abandon_fresh_stage u file created;
              _ ← upload_deadline_expired deadline upload_id (str "Upload deadline exceeded during preparation");
              mret None
          | Err e => _ ← abandon_fresh_stage u file created; throw e
          | Ok _ =>
              expired ← upload_deadline_expired deadline upload_id
                          (str "Upload deadline exceeded during preparation");
              if expired : bool then answered (abandon_fresh_stage u file created)
              else mret (Some (lease, file, created))
          end
      end))
  end.

(** The first record of a fresh upload. *)
Definition record_fresh_stage (u : Session) (deadline : Z) (requested_revision : option bytes)
    (file : File) (created : Created) : M (option (File * Z)) :=
  t ← now;
  if (deadline <=? t)%Z then
    answered (finish_timed_out_upload u file
      (str "Upload deadline exceeded while preparing the staging file") None (Some created))
  else
    recorded ← attempt (persist_initial_checkpoint file
                  (with_target_revision requested_revision (session_context u)) 0);
    match recorded with
    | Ok _ => mret (Some (file, CREATED))
    | Err e =>
        discard_result ← attempt (discard_unrecorded_stage file (se_upload_path u));
        reset_result ← attempt (reset (se_owner_id u) (se_upload_id u) (se_target_path u) (se_upload_path u));
        rollback_result ← attempt (rollback_upload_ancestors (Some created));
        _ ← check_discard (Some discard_result);
        _ ← check_discard (Some reset_result);
        _ ← check_discard (Some rollback_result);
        throw e
    end.

(** The reopened stage of a resumed upload, cut back to its recorded offset. *)
Definition reopen_stage (u : Session) (deadline offset : Z) (requested_revision : option bytes)
    (checkpoint : UploadCheckpoint) : M (option (File * Z)) :=
  let upload_id := se_upload_id u in
  let upload_length := se_upload_length u in
  opened ← open_resumable_stage (session_context u) offset (cp_state checkpoint);
  match opened with
  | None =>
      answered (apply_upload_problem
        (error_context upload_id
           (if bool_decide (cp_state checkpoint = RsAwaitingConfirmation)
            then PsAwaitingConfirmation else PsRunning) (Some upload_length) (Some offset))
        CONFLICT UPLOAD_STAGE_INVALID (str "Upload staging file is invalid; restart the upload") QueryUpload)
  | Some file =>
      metadata ← io (file_metadata file);
      _ ← io (file_seek_start file offset);
      proceed (unless (upload_deadline_expired_before_mutation deadline upload_id upload_length (Some offset)
                 (str "Upload deadline exceeded before resuming the staging file"))) (fun _ =>
      proceed (if (offset <? md_len metadata)%Z then
                 proceed (when (begin_upload_mutation_or_reject upload_id upload_length (Some offset)
                            (str "Upload timed out before truncating its staging file"))) (fun _ =>
                 _ ← io (file_set_len file offset); mret (Some tt))
               else mret (Some tt)) (fun _ =>
      proceed (if bool_decide (cp_state checkpoint = RsRunning)
                  && negb (bool_decide (cp_target_revision checkpoint = requested_revision)) then
                 proceed (when (begin_upload_mutation_or_reject upload_id upload_length (Some offset)
                            (str "Upload timed out before updating its resumable state"))) (fun _ =>
                 _ ← persist_checkpoint file (with_target_revision requested_revision (session_context u)) offset;
                 mret (Some tt))
               else mret (Some tt)) (fun _ =>
      mret (Some (file, NO_CONTENT)))))
  end.

(** The deadline after the stage is ready. *)
Definition deadline_after_stage (u : Session) (mode : UploadMode) (deadline : Z) (file : File)
    (created : option Created) (message : bytes) : M (option unit) :=
  t ← now;
  unknown ← outcome_can_be_unknown;
  if (deadline <=? t)%Z && is_resume mode && negb unknown then
    _ ← upload_deadline_expired_before_mutation deadline (se_upload_id u) (se_upload_length u)
          (mode_offset mode) message;
    mret None
  else
    t ← now;
    if (deadline <=? t)%Z then answered (finish_timed_out_upload u file message (mode_offset mode) created)
    else mret (Some tt).

(** The reservation the transfer will use, confirmed against the file system. *)
Definition confirm_space (u : Session) (mode : UploadMode) (awaiting_confirmation : bool) (file : File)
    (created : option Created) (reserved : option SpaceLease) : M (option SpaceLease) :=
  let upload_id := se_upload_id u in
  let upload_length := se_upload_length u in
  let resume := is_resume mode in
  let initial_offset := default 0%Z (mode_offset mode) in
  match reserved with
  | None =>
      if awaiting_confirmation then
        answered (apply_awaiting_confirmation_problem upload_id upload_length NO_SPACE
          UPLOAD_INSUFFICIENT_STORAGE (str "Insufficient protected free disk space"))
      else
        _ ← (if resume then mret tt else reset_session u created);
        answered (apply_upload_problem
          (error_context upload_id (if resume then PsRunning else PsRejected) (Some upload_length)
             (then_some resume initial_offset))
          NO_SPACE UPLOAD_INSUFFICIENT_STORAGE (str "Insufficient protected free disk space")
          (if resume then ResumeUpload else RetryWithNewId))
  | Some lease =>
      enough ← space_confirmed lease file;
      if enough : bool then mret (Some lease)
      else if awaiting_confirmation then
        answered (apply_awaiting_confirmation_problem upload_id upload_length NO_SPACE
          UPLOAD_INSUFFICIENT_STORAGE
          (str "Protected free disk space could not be confirmed after staging preparation"))
      else
        proceed (when (begin_upload_mutation_or_reject upload_id upload_length (mode_offset mode)
                   (str "Upload timed out before finalizing a disk-space failure"))) (fun _ =>
        answered (finish_precommit_space_failure u file initial_offset resume created
          (str "Protected free disk space could not be confirmed after staging preparation")))
  end.

(** ** The whole preparation *)

(** The stage is open: its deadline, its space, and the mutation boundary. *)
Definition finish_preparation (u : Session) (options : UploadOptions)
    (target : ReplacementTargetIdentity * option Preserved) (checkpoint_state : option UploadRecordState)
    (fresh : option (SpaceLease * File * Created)) (remaining : Z) (file : File) (status : Z)
    : M (option UploadTransaction) :=
  let mode := op_mode options in
  let deadline := op_deadline options in
  let created_ancestors := (fun made => made.2) <$> fresh in
  proceed (deadline_after_stage u mode deadline file created_ancestors
             (str "Upload deadline exceeded while preparing the staging file")) (fun _ =>
  reserved ← match fresh with
             | Some (lease, _, _) => mret (Some lease)
             | None => reserve file remaining
             end;
  proceed (confirm_space u mode (awaiting checkpoint_state) file created_ancestors reserved) (fun lease =>
  proceed (deadline_after_stage u mode deadline file created_ancestors
             (str "Upload deadline exceeded while reserving disk space")) (fun _ =>
  proceed (when (begin_upload_mutation_or_reject (se_upload_id u) (se_upload_length u) (mode_offset mode)
             (str "Upload timed out before transferring its request body"))) (fun _ =>
  mret (Some {| tx_session := u; tx_mode := mode; tx_deadline := deadline;
                tx_target_identity := target.1; tx_target_revision := revision (op_overwrite options);
                tx_checkpoint_state := checkpoint_state; tx_target_metadata := target.2;
                tx_created_ancestors := created_ancestors; tx_file := file;
                tx_space_lease := lease; tx_success_status := status |}))))).

(** The target and the checkpoint are settled: the length of the body, and a stage. *)
Definition stage_upload (fuel : nat) (u : Session) (options : UploadOptions)
    (request_body_length : option Z) (target : ReplacementTargetIdentity * option Preserved)
    (session_checkpoint : option UploadCheckpoint) : M (option UploadTransaction) :=
  let mode := op_mode options in
  let resume := is_resume mode in
  let deadline := op_deadline options in
  let requested_revision := revision (op_overwrite options) in
  let initial_offset := default 0%Z (mode_offset mode) in
  match u64_checked_sub (se_upload_length u) initial_offset with
  | None => throw (EOther "Upload offset exceeds total length")
  | Some remaining =>
      if match request_body_length with Some n => (remaining <? n)%Z | None => false end then
        answered (body_too_long u session_checkpoint resume initial_offset)
      else
        proceed (if resume then mret (Some None)
                 else proceed (create_fresh_stage fuel u deadline remaining)
                        (fun made => mret (Some (Some made))))
          (fun fresh : option (SpaceLease * File * Created) =>
        proceed (match mode_offset mode, fresh, session_checkpoint with
                 | None, Some (_, file, created), _ =>
                     record_fresh_stage u deadline requested_revision file created
                 | Some offset, _, Some checkpoint =>
                     reopen_stage u deadline offset requested_revision checkpoint
                 | _, _, _ => throw (EOther "every upload has an active-session lease")
                 end) (fun staged : File * Z =>
        finish_preparation u options target (cp_state <$> session_checkpoint) fresh remaining
          staged.1 staged.2))
  end.

(** What the record of the upload id allows; an upload that is resumed is registered
    as active before its stage is looked at. *)
Definition consult_record (fuel : nat) (u : Session) (options : UploadOptions)
    : M (option (option UploadCheckpoint)) :=
  let mode := op_mode options in
  let resume := is_resume mode in
  let upload_id := se_upload_id u in
  let upload_length := se_upload_length u in
  let deadline := op_deadline options in
  found ← lookup (se_owner_id u) upload_id (se_target_path u) (se_upload_path u);
  proceed (match found with
           | LookupFound record => mret (Some (Some record))
           | LookupNotSeen => mret (Some None)
           | LookupForeignOwner => answered (session_not_found upload_id)
           end) (fun existing_record =>
  proceed (match existing_record with
           | Some record => check_existing_record u mode record
           | None => mret (Some tt)
           end) (fun _ =>
  proceed (if bool_decide (existing_record = None) && (max_upload_size <? upload_length)%Z then
             answered (apply_upload_problem
               (error_context upload_id PsRejected (Some upload_length) None) TOO_LARGE
               UPLOAD_SIZE_LIMIT_EXCEEDED
               (str "Upload length " ++ Utils.u64_to_string upload_length
                ++ str " exceeds the configured maximum of " ++ Utils.u64_to_string max_upload_size
                ++ str " bytes") NoAdvice)
           else mret (Some tt)) (fun _ =>
  proceed (if resume then
             tracked ← attempt (track_active_upload_files fuel (se_upload_path u) deadline);
             match tracked with
             | Ok _ => mret (Some tt)
             | Err (EIo (RootedPaths.NotFound | RootedPaths.NotADirectory)) =>
                 answered (session_not_found upload_id)
             | Err (EIo RootedPaths.TimedOut) =>
                 _ ← upload_deadline_expired_before_mutation deadline upload_id upload_length
                       (mode_offset mode) (str "Upload deadline exceeded during preparation");
                 mret None
             | Err e => throw e
             end
           else mret (Some tt)) (fun _ =>
  mret (Some existing_record))))).

Definition prepare_upload (fuel : nat) (path : bytes) (options : UploadOptions)
    (request_body_length : option Z) : M (option UploadTransaction) :=
  let mode := op_mode options in
  let resume := is_resume mode in
  let upload_offset := mode_offset mode in
  let upload_id := op_upload_id options in
  let upload_length := op_upload_length options in
  let deadline := op_deadline options in
  let owner_id := owner_persistent (op_owner options) in
  let expired message :=
    unless (upload_deadline_expired_before_mutation deadline upload_id upload_length upload_offset message) in
  _ ← respond (set_upload_id (hyphenated upload_id));
  proceed (expired (str "Upload deadline exceeded during preparation")) (fun _ =>
  upload_path ← upload_temp_path path upload_id;
  let u := {| se_owner_id := owner_id; se_upload_id := upload_id; se_target_path := path;
              se_upload_path := upload_path; se_upload_length := upload_length |} in
  proceed (consult_record fuel u options) (fun existing_record =>
  proceed (if resume then expired (str "Upload deadline exceeded during preparation")
           else mret (Some tt)) (fun _ =>
  proceed (select_target u mode (op_overwrite options) existing_record)
    (fun target : ReplacementTargetIdentity * option Preserved =>
  proceed (expired (str "Upload deadline exceeded while inspecting the target")) (fun _ =>
  proceed (if resume then
             match existing_record with
             | None => answered (session_not_found upload_id)
             | Some checkpoint => mret (Some (Some checkpoint))
             end
           else mret (Some None)) (fun session_checkpoint =>
  proceed (expired (str "Upload deadline exceeded while preparing the checkpoint")) (fun _ =>
  proceed (match session_checkpoint with
           | Some checkpoint => check_checkpoint u (default 0%Z upload_offset) checkpoint
           | None => mret (Some tt)
           end) (fun _ =>
  stage_upload fuel u options request_body_length target session_checkpoint)))))))).
End prepare.
End UploadPrepare.
