(* ===== verification/UploadHandler.v ===== *)
(** * The upload handlers

    The three requests of [src/server/upload.rs]: an upload, the query of its
    state, and the discarding of an upload that awaits confirmation. *)

From S2P Require Import Prelude Paths StateModel UploadStore RootedPaths Problem UploadProtocol UploadWorld.
From S2P Require Import UploadRecord UploadFailure UploadCommit UploadTransfer UploadPrepare.

Module UploadHandler.
Import UploadProtocol UploadRecord UploadFailure UploadCommit UploadTransfer UploadPrepare.

Section handlers.
Context `{UploadEnv}.

(** An error of the record store is answered; any other is passed on. *)
Definition report_error (options : UploadOptions) (result : result Error unit) : M unit :=
  match result with
  | Ok _ => mret tt
  | Err error =>
      applied ← apply_upload_record_store_problem
                  (error_context (op_upload_id options) PsUnknown (Some (op_upload_length options))
                     (mode_offset (op_mode options))) error;
      if applied : bool then mret tt else throw error
  end.

Definition handle_upload (fuel : nat) (path : bytes) (options : UploadOptions)
    (request_body_length : option Z) : M unit :=
  result ← attempt (prepared ← prepare_upload fuel path options request_body_length;
                    match prepared with
                    | None => mret tt
                    | Some upload => transfer_upload_body fuel upload
                    end);
  _ ← release_active;
  report_error options result.

(** [status_not_found] of [server.rs] writes the status and a plain body. *)
Definition handle_upload_status (path owner upload_id : bytes) : M unit :=
  let owner_id := owner_persistent owner in
  upload_path ← upload_temp_path path upload_id;
  looked ← attempt (lookup owner_id upload_id path upload_path);
  match looked with
  | Err error =>
      applied ← apply_upload_record_store_problem (error_context upload_id PsUnknown None None) error;
      if applied : bool then mret tt else throw error
  | Ok (LookupNotSeen | LookupForeignOwner) =>
      _ ← respond (set_status NOT_FOUND);
      respond (apply_upload_record_headers (hyphenated upload_id) None None PsNotSeen)
  | Ok (LookupFound checkpoint) =>
      let headers state :=
        respond (apply_upload_record_headers (hyphenated upload_id) (Some (cp_upload_length checkpoint))
                   (Some (cp_durable_offset checkpoint)) state) in
      match cp_state checkpoint with
      | RsRunning => headers PsRunning
      | RsAwaitingConfirmation =>
          _ ← respond (set_status CONFLICT);
          inspection ← inspect_upload_target owner_id path;
          _ ← apply_target_inspection_headers inspection;
          headers PsAwaitingConfirmation
      | RsCommitted => headers PsCommitted
      | RsRejected => _ ← respond (set_status CONFLICT); headers PsRejected
      | RsUnknown =>
          apply_upload_problem
            (error_context upload_id PsUnknown (Some (cp_upload_length checkpoint))
               (Some (cp_durable_offset checkpoint)))
            SERVER_ERROR UPLOAD_PUBLICATION_OUTCOME_UNKNOWN
            (str "Upload publication outcome is unknown; refresh the target before any retry") RefreshTarget
      end
  end.

Definition discard_awaiting_upload (owner path upload_id : bytes) : M unit :=
  let owner_id := owner_persistent owner in
  upload_path ← upload_temp_path path upload_id;
  decided ← attempt (reject_for_discard owner_id upload_id path upload_path);
  match decided with
  | Err error =>
      applied ← apply_upload_record_store_problem (error_context upload_id PsUnknown None None) error;
      if applied : bool then mret tt else throw error
  | Ok (DiscardNotSeen | DiscardForeignOwner) =>
      apply_upload_problem (error_context upload_id PsNotSeen None None) NOT_FOUND
        UPLOAD_SESSION_NOT_FOUND (str "Upload session not found") NoAdvice
  | Ok (DiscardStateConflict record) =>
      match cp_state record with
      | RsRejected | RsAwaitingConfirmation => throw (EOther "unreachable")
      | state =>
          apply_upload_problem
            (error_context upload_id
               match state with RsRunning => PsRunning | RsCommitted => PsCommitted | _ => PsUnknown end
               (Some (cp_upload_length record)) (Some (cp_durable_offset record)))
            CONFLICT UPLOAD_STATE_CONFLICT
            (str "Only an upload awaiting overwrite confirmation can be discarded") QueryUpload
      end
  | Ok (DiscardRejected record) =>
      cleaned ← attempt (cleanup_rejected_stage record);
      match cleaned with
      | Err _ =>
          apply_upload_problem
            (error_context upload_id PsRejected (Some (rj_upload_length record))
               (Some (rj_durable_offset record)))
            SERVER_ERROR UPLOAD_STAGE_INVALID
            (str "Upload is rejected, but staged data cleanup did not finish; retry discard") Retry
      | Ok _ =>
          _ ← respond (set_status NO_CONTENT);
          respond (apply_upload_record_headers (hyphenated upload_id) (Some (rj_upload_length record))
                     (Some (rj_durable_offset record)) PsRejected)
      end
  end.
End handlers.
End UploadHandler.
