(* ===== verification/UploadLaws.v ===== *)
(** * Reasoning about the upload handlers

    What the handlers rely on, and how their runs are reasoned about.  [UploadLaws]
    states what the calls of [UploadEnv] do to the bytes of files, to what has been
    published and to the request body: a file has bytes that writes have produced,
    of which a prefix is visible to [fstat], of which a prefix is certain to survive
    a crash.  [wp] is the weakest precondition of a handler, with one postcondition
    for values and errors and one state predicate that must hold wherever the
    process may die. *)

From S2P Require Import Prelude Paths Sql StateModel UploadStore RootedPaths Problem UploadWorld.

(** ** Laws *)

Record Publication : Type := { pub_path : bytes; pub_file : StoredFileIdentity; pub_data : bytes }.

(** The file that is displaced when the object [i] is replaced; none if there was none. *)
Definition replaces (i : ReplacementTargetIdentity) (j : StoredFileIdentity) : Prop :=
  match i with
  | Missing => False
  | Existing t => j = {| id_device := rt_device t; id_inode := rt_inode t |}
  end.

Definition entry_file (d : DeleteIdentity) : StoredFileIdentity :=
  {| id_device := del_device d; id_inode := del_inode d |}.

Class UploadView `{UploadEnv} : Type := {
  content : World -> StoredFileIdentity -> bytes;
  visible : World -> StoredFileIdentity -> bytes;
  durable : World -> StoredFileIdentity -> bytes;
  file_id : File -> StoredFileIdentity;
  cursor : World -> File -> Z;
  published : World -> list Publication;
  delivered : World -> bytes }.

Section views.
Context `{UploadView}.

(** The bytes of a file stay; more of them may become visible or durable. *)
Record same_file (w w' : World) (i : StoredFileIdentity) : Prop := {
  sf_content : content w' i = content w i;
  sf_visible : visible w i `prefix_of` visible w' i;
  sf_durable : durable w i `prefix_of` durable w' i }.

Record elsewhere (i : StoredFileIdentity) (w w' : World) : Prop := {
  el_files : forall j, j <> i -> same_file w w' j;
  el_published : published w' = published w;
  el_delivered : delivered w' = delivered w }.

(** Nothing happens to files, positions, publications or the body. *)
Record quiet (w w' : World) : Prop := {
  q_files : forall i, same_file w w' i;
  q_cursor : forall f, cursor w' f = cursor w f;
  q_published : published w' = published w;
  q_delivered : delivered w' = delivered w }.

Definition quiet_op {A} (op : World -> option (result IoError A) * World) : Prop :=
  forall w, quiet w (op w).2.

(** A system call on a file keeps what is durable and visible; the bytes queued for
    it may be lost, not reordered. *)
Record file_op (f : File) (queued : bytes) (w w' : World) : Prop := {
  fo_elsewhere : elsewhere (file_id f) w w';
  fo_content : content w' (file_id f) `prefix_of` content w (file_id f) ++ queued;
  fo_visible : visible w (file_id f) `prefix_of` visible w' (file_id f);
  fo_durable : durable w (file_id f) `prefix_of` durable w' (file_id f) }.

Record cut_op (f : File) (n : nat) (w w' : World) : Prop := {
  co_elsewhere : elsewhere (file_id f) w w';
  co_content : content w' (file_id f) `prefix_of` content w (file_id f);
  co_visible : take n (visible w (file_id f)) `prefix_of` visible w' (file_id f);
  co_durable : take n (durable w (file_id f)) `prefix_of` durable w' (file_id f) }.
End views.

Class UploadLaws `{V : UploadView} : Prop := {
  law_order w i : durable w i `prefix_of` visible w i /\ visible w i `prefix_of` content w i;
  law_file_id f : is_u64 (id_device (file_id f)) /\ is_u64 (id_inode (file_id f));
  law_sha256 b : length (sha256 b) = 32;
  (* calls that touch no file's bytes *)
  law_now w : quiet w (instant_now w).2;
  law_dispatch w : quiet w (store_dispatch w).2;
  law_dispatch_time w now :
    (store_dispatch w).1 = DbRun now \/ (store_dispatch w).1 = DbLost now \/
    (store_dispatch w).1 = DbCrashed (Some now) -> is_i64 (now + upload_ttl);
  law_mutation_cell z w : quiet w (set_mutation_cell z w);
  law_active l w : quiet w (set_active_upload_files l w);
  law_consume r n w : quiet w (consume r n w);
  law_wait d : quiet_op (wait_for_maintenance_claim_change d);
  law_reserve f a b c : quiet_op (reserve_allocated f a b c);
  law_available r f m : quiet_op (reserved_space_is_available r f m);
  law_open_read p : quiet_op (open_read p);
  law_open_write p : quiet_op (open_write p);
  law_open_parent p : quiet_op (open_nearest_existing_parent p);
  law_metadata_nofollow p : quiet_op (metadata_nofollow p);
  law_entry_key p : quiet_op (entry_key p);
  law_sync_parent p : quiet_op (sync_parent p);
  law_replacement_identity p : quiet_op (replacement_identity p);
  law_replacement_metadata p : quiet_op (replacement_metadata p);
  law_create p : quiet_op (create_private_upload_stage p);
  law_rollback c : quiet_op (rollback_created_ancestors c);
  law_remove_directory p : quiet_op (remove_empty_upload_stage_directory p);
  law_validate p i : quiet_op (validate_private_upload_stage p i);
  law_capture p b : quiet_op (capture_entry_for_purge p b);
  law_metadata f : quiet_op (file_metadata f);
  law_apply_metadata f p : quiet_op (apply_replacement_metadata f p);
  (* what they answer *)
  law_created p w f c : (create_private_upload_stage p w).1 = Some (Ok (f, c)) ->
    content w (file_id f) = [] /\ cursor w f = 0%Z;
  law_opened p w f : (open_read p w).1 = Some (Ok f) \/ (open_write p w).1 = Some (Ok f) ->
    visible w (file_id f) = content w (file_id f);
  law_stat f w m : (file_metadata f w).1 = Some (Ok m) ->
    md_identity m = file_id f /\
    md_len m = Z.of_nat (length (visible (file_metadata f w).2 (file_id f))) /\ is_u64 (md_len m);
  (* open files *)
  law_seek f n w : let '(o, w') := file_seek_start f n w in
    (forall i, same_file w w' i) /\ published w' = published w /\ delivered w' = delivered w /\
    (o = Some (Ok tt) -> cursor w' f = n);
  law_write f data w : cursor w f = Z.of_nat (length (content w (file_id f))) ->
    let '(o, w') := file_write_all f data w in
    file_op f data w w' /\
    (o = Some (Ok tt) -> content w' (file_id f) = content w (file_id f) ++ data /\
       cursor w' f = Z.of_nat (length (content w' (file_id f))));
  law_flush f w : let '(o, w') := file_flush f w in
    file_op f [] w w' /\ cursor w' f = cursor w f /\
    (o = Some (Ok tt) -> content w' (file_id f) = content w (file_id f) /\
       visible w' (file_id f) = content w (file_id f));
  law_sync f w : let '(o, w') := file_sync f w in
    file_op f [] w w' /\ cursor w' f = cursor w f /\
    (o = Some (Ok tt) -> durable w' (file_id f) = visible w' (file_id f));
  law_set_len f n w : (0 <= n <= Z.of_nat (length (visible w (file_id f))))%Z ->
    let '(o, w') := file_set_len f n w in
    cut_op f (Z.to_nat n) w w' /\ cursor w' f = cursor w f /\
    (o = Some (Ok tt) -> content w' (file_id f) = take (Z.to_nat n) (content w (file_id f)));
  (* removal, publication and the body *)
  law_purge e w : del_is_directory (entry_identity e) = false ->
    let '(o, w') := purge_slice e w in
    let i := entry_file (entry_identity e) in
    elsewhere i w w' /\ (same_file w w' i \/ content w' i = []) /\
    (o = Some (Ok true) -> content w' i = []);
  (* A publication is checked and then done by a rename: of a destination expected to be
     missing, one that displaces nothing; of one expected to exist, a plain rename, which
     displaces whatever file is at the destination by then, the expected one or another.
     The name of the stage is in a directory private to the server, and only this upload
     acts on it. *)
  law_rename source f destination expected w :
    let '(o, w') := rename_replace_if_unchanged source f destination expected w in
    let event := {| pub_path := destination; pub_file := file_id f; pub_data := visible w (file_id f) |} in
    same_file w w' (file_id f) /\ delivered w' = delivered w /\
    (quiet w w' \/
     published w' = published w ++ [event] /\
     exists displaced, (expected = Missing -> displaced = Missing) /\
       forall i, ~ replaces displaced i -> same_file w w' i) /\
    match o with
    | Some RPublished => published w' = published w ++ [event]
    | Some RRejected | Some (RNotPublished _) => quiet w w'
    | Some (RDurabilityUnknown _) | None => True
    end;
  law_frame d w : let '(o, w') := next_frame d w in
    (forall i, same_file w w' i) /\ (forall f, cursor w' f = cursor w f) /\ published w' = published w /\
    match o with
    | Some (Chunk data) => delivered w' = delivered w ++ data
    | Some _ => delivered w' = delivered w
    | None => delivered w `prefix_of` delivered w'
    end }.

(** ** The relations compose *)

Section relations.
Context `{V : UploadView}.

Lemma same_file_refl w i : same_file w w i.
Proof. by split. Qed.
Lemma same_file_trans w1 w2 w3 i : same_file w1 w2 i -> same_file w2 w3 i -> same_file w1 w3 i.
Proof. intros [] []. split; [congruence|by etrans..]. Qed.

#[export] Instance quiet_preorder : PreOrder quiet.
Proof.
  split.
  - by split.
  - intros a b c [] []. split; [|congruence..]. intros i. by eapply same_file_trans.
Qed.

Lemma elsewhere_trans i w1 w2 w3 : elsewhere i w1 w2 -> elsewhere i w2 w3 -> elsewhere i w1 w3.
Proof. intros [] []. split; [|congruence..]. intros. eapply same_file_trans; eauto. Qed.

Lemma quiet_elsewhere i w w' : quiet w w' -> elsewhere i w w'.
Proof. intros []. by split. Qed.
End relations.

(** ** Weakest preconditions *)

Section wp.
Context `{V : UploadView}.

Definition wp {A} (C : St -> Prop) (m : M A) (Q : result Error A -> St -> Prop) (s : St) : Prop :=
  match m s with
  | (Val a, s') => Q (Ok a) s'
  | (Fail e, s') => Q (Err e) s'
  | (Crashed, s') => C s'
  end.

Lemma wp_mono {A} C (m : M A) (P Q : result Error A -> St -> Prop) s :
  wp C m P s -> (forall r s', P r s' -> Q r s') -> wp C m Q s.
Proof. unfold wp. destruct (m s) as [[]]; eauto. Qed.

Lemma wp_crash {A} (C C' : St -> Prop) (m : M A) Q s :
  wp C m Q s -> (forall s', C s' -> C' s') -> wp C' m Q s.
Proof. unfold wp. destruct (m s) as [[]]; eauto. Qed.

Lemma wp_ret {A} C (a : A) (Q : result Error A -> St -> Prop) s : Q (Ok a) s -> wp C (mret a) Q s.
Proof. done. Qed.

Lemma wp_bind {A B} C (m : M A) (f : A -> M B) Q s :
  wp C m (fun r s' => match r with Ok a => wp C (f a) Q s' | Err e => Q (Err e) s' end) s ->
  wp C (m ≫= f) Q s.
Proof. unfold wp, mbind, M_bind. destruct (m s) as [[]]; done. Qed.

Lemma wp_assoc {A B D} C (m : M A) (f : A -> M B) (g : B -> M D) Q s :
  wp C ((m ≫= f) ≫= g) Q s -> wp C (m ≫= fun a => f a ≫= g) Q s.
Proof. unfold wp, mbind, M_bind. destruct (m s) as [[]]; done. Qed.

Lemma wp_throw {A} C e (Q : result Error A -> St -> Prop) s : Q (Err e) s -> wp C (throw e) Q s.
Proof. done. Qed.

Lemma wp_attempt {A} C (m : M A) (Q : result Error (result Error A) -> St -> Prop) s :
  wp C m (fun r => Q (Ok r)) s -> wp C (attempt m) Q s.
Proof. unfold wp, attempt. destruct (m s) as [[]]; done. Qed.

(** A call: whatever the law of the operation leaves possible. *)
Lemma wp_call {A} (C : St -> Prop) (op : World -> option (result IoError A) * World)
    (Q : result Error (result IoError A) -> St -> Prop) s :
  (forall o w', op (world s) = (o, w') ->
     match o with Some r => Q (Ok r) (with_world w' s) | None => C (with_world w' s) end) ->
  wp C (call op) Q s.
Proof. unfold wp, call. intros HQ. destruct (op (world s)) as [[r|] w'] eqn:E; apply (HQ _ _ eq_refl). Qed.

Lemma wp_io {A} (C : St -> Prop) (op : World -> option (result IoError A) * World)
    (Q : result Error A -> St -> Prop) s :
  (forall o w', op (world s) = (o, w') ->
     match o with
     | Some (Ok a) => Q (Ok a) (with_world w' s)
     | Some (Err e) => Q (Err (EIo e)) (with_world w' s)
     | None => C (with_world w' s)
     end) ->
  wp C (io op) Q s.
Proof.
  intros HQ. apply wp_bind, wp_call. intros o w' E. specialize (HQ o w' E).
  destruct o as [[a|e]|]; [by apply wp_ret|by apply wp_throw|done].
Qed.

Lemma wp_respond C f (Q : result Error unit -> St -> Prop) s :
  Q (Ok tt) (with_response (f (response s)) s) -> wp C (respond f) Q s.
Proof. done. Qed.

Lemma wp_of_result {A} C (r : result string A) (Q : result Error A -> St -> Prop) s :
  (forall a, r = Ok a -> Q (Ok a) s) -> (forall e, r = Err e -> Q (Err (EOther e)) s) ->
  wp C (of_result r) Q s.
Proof. destruct r; intros H1 H2; [apply wp_ret|apply wp_throw]; auto. Qed.

Lemma wp_ensure C b e (Q : result Error unit -> St -> Prop) s :
  (b = true -> Q (Ok tt) s) -> (b = false -> Q (Err (EOther e)) s) -> wp C (ensure_m b e) Q s.
Proof. destruct b; intros H1 H2; [apply wp_ret|apply wp_throw]; auto. Qed.

(** ** Runs that change nothing that is promised *)

(** The table, every file and the state the response reports are as they were. *)
Record calm (s s' : St) : Prop := {
  calm_world : quiet (world s) (world s');
  calm_table : table s' = table s;
  calm_told : h_state (response s') = h_state (response s) }.

#[export] Instance calm_preorder : PreOrder calm.
Proof. split; [by split|]. intros a b c [] []. split; [by etrans|congruence..]. Qed.

Definition Calm {A} (m : M A) : Prop := forall s, calm s (m s).2.

Definition Stable (I : St -> Prop) : Prop := forall s s', I s -> calm s s' -> I s'.

Lemma wp_calm {A} (I C : St -> Prop) (m : M A) Q s :
  Calm m -> Stable I -> I s -> (forall s', I s' -> C s') ->
  (forall r s', I s' -> calm s s' -> Q r s') -> wp C m Q s.
Proof.
  intros Hm HI Hs HC HQ. specialize (Hm s). unfold wp.
  destruct (m s) as [[a|e|] s']; cbn in *; eauto.
Qed.

Lemma Calm_ret {A} (a : A) : Calm (mret a).
Proof. intros s. done. Qed.
Lemma Calm_throw {A} e : Calm (throw e : M A).
Proof. intros s. done. Qed.
Lemma Calm_bind {A B} (m : M A) (f : A -> M B) : Calm m -> (forall a, Calm (f a)) -> Calm (m ≫= f).
Proof.
  intros Hm Hf s. specialize (Hm s). unfold mbind, M_bind.
  destruct (m s) as [[a|e|] s']; [|done..]. cbn in *. etrans; [done|]. apply Hf.
Qed.
Lemma Calm_attempt {A} (m : M A) : Calm m -> Calm (attempt m).
Proof. intros Hm s. specialize (Hm s). unfold attempt. by destruct (m s) as [[]]. Qed.
Lemma Calm_call {A} (op : World -> option (result IoError A) * World) : quiet_op op -> Calm (call op).
Proof. intros Ho s. specialize (Ho (world s)). unfold call. destruct (op (world s)). by split. Qed.
Lemma Calm_of_io {A} (r : result IoError A) : Calm (of_io r).
Proof. destruct r; done. Qed.
Lemma Calm_io {A} (op : World -> option (result IoError A) * World) : quiet_op op -> Calm (io op).
Proof. intros. apply Calm_bind; [by apply Calm_call|apply Calm_of_io]. Qed.
Lemma Calm_of_result {A} (r : result string A) : Calm (of_result r).
Proof. destruct r; done. Qed.
Lemma Calm_ensure b e : Calm (ensure_m b e).
Proof. destruct b; done. Qed.
Lemma Calm_respond f : (forall r, h_state (f r) = h_state r) -> Calm (respond f).
Proof. intros Hf s. split; [done|done|apply Hf]. Qed.
Lemma Calm_pure {A} (f : St -> outcome A) : Calm (fun s => (f s, s)).
Proof. intros s. done. Qed.
End wp.

(** ** The state store *)

Section store.
Context `{L : UploadLaws}.

Lemma Calm_now : Calm now.
Proof. intros s. unfold now. pose proof (law_now (world s)) as Hq. destruct (instant_now (world s)). by split. Qed.

Lemma Calm_upload_session key : Calm (upload_session key).
Proof.
  intros s. unfold upload_session, db. pose proof (law_dispatch (world s)) as Hd.
  destruct (store_dispatch (world s)) as [v w]. cbn in Hd. destruct v as [|now|now| |[now|]]; try by split.
  all: destruct (UploadStore.load_upload_session (table (with_world w s)) key) as [o|e]; by split.
Qed.

(** Reading a row returns it or fails. *)
Lemma wp_upload_session (C : St -> Prop) key (Q : result Error (option StoredUploadSession) -> St -> Prop) s o :
  UploadStore.load_upload_session (table s) key = Ok o ->
  (forall s', calm s s' -> response s' = response s -> C s' /\ Q (Ok o) s' /\ forall e, Q (Err e) s') ->
  wp C (upload_session key) Q s.
Proof.
  intros Ho HQ. unfold wp, upload_session, db. pose proof (law_dispatch (world s)) as Hd.
  destruct (store_dispatch (world s)) as [v w]. cbn in Hd.
  assert (calm s (with_world w s)) as Hc by by split.
  specialize (HQ _ Hc eq_refl) as (HC & HO & HE).
  destruct v as [|now|now| |[now|]]; try done.
  all: change (table (with_world w s)) with (table s); rewrite Ho; cbn; auto.
Qed.

(** What a command leaves in the table, whether or not its reply arrives. *)
Lemma wp_db {A} (C : St -> Prop) (command : UploadStore.Table -> Z -> result string (UploadStore.Table * A))
    (Q : result Error A -> St -> Prop) s :
  (forall w', quiet (world s) w' -> C (with_world w' s) /\ (forall e, Q (Err e) (with_world w' s)) /\
     forall now, is_i64 (now + upload_ttl) -> forall t a, command (table s) now = Ok (t, a) ->
       let s' := with_table t (with_world w' s) in C s' /\ Q (Ok a) s' /\ forall e, Q (Err e) s') ->
  wp C (db command) Q s.
Proof.
  intros HQ. unfold wp, db. pose proof (law_dispatch (world s)) as Hd.
  pose proof (law_dispatch_time (world s)) as Ht.
  destruct (store_dispatch (world s)) as [v w]. cbn [fst snd] in *.
  specialize (HQ w Hd) as (HC & HE & HR).
  destruct v as [|now|now| |[now|]]; try done.
  all: change (table (with_world w s)) with (table s).
  all: specialize (HR now (Ht now ltac:(auto))).
  all: destruct (command (table s) now) as [[t a]|e]; [|done].
  all: by specialize (HR t a eq_refl) as (HC' & HO & HE').
Qed.
End store.

(** ** Open files *)

Section files.
Context `{L : UploadLaws}.

Lemma calm_world_step s w' : quiet (world s) w' -> calm s (with_world w' s).
Proof. by split. Qed.

(** Calls and clock readings that cannot fail as computations. *)
Lemma wp_call_quiet {A} (I C : St -> Prop) (op : World -> option (result IoError A) * World)
    (Q : result Error (result IoError A) -> St -> Prop) s :
  quiet_op op -> Stable I -> I s -> (forall s', I s' -> C s') ->
  (forall r s', I s' -> calm s s' -> Q (Ok r) s') -> wp C (call op) Q s.
Proof.
  intros Hop HI Hs HC HQ. apply wp_call. intros o w' E. specialize (Hop (world s)). rewrite E in Hop.
  pose proof (calm_world_step s w' Hop) as Hc. destruct o as [r|]; [|apply HC]; eauto.
Qed.

Lemma wp_now (I C : St -> Prop) (Q : result Error Z -> St -> Prop) s :
  Stable I -> I s -> (forall t s', I s' -> calm s s' -> Q (Ok t) s') -> wp C now Q s.
Proof.
  intros HI Hs HQ. unfold wp, now. pose proof (law_now (world s)) as Hq.
  destruct (instant_now (world s)) as [t w']. pose proof (calm_world_step s w' Hq). eauto.
Qed.

Definition stat_of (f : File) (s : St) (m : Metadata) : Prop :=
  md_identity m = file_id f /\ md_len m = Z.of_nat (length (visible (world s) (file_id f))) /\
  is_u64 (md_len m).

Lemma wp_call_metadata (C : St -> Prop) f (Q : result Error (result IoError Metadata) -> St -> Prop) s :
  (forall s', calm s s' -> C s' /\ (forall e, Q (Ok (Err e)) s') /\
     forall m, stat_of f s' m -> Q (Ok (Ok m)) s') ->
  wp C (call (file_metadata f)) Q s.
Proof.
  intros HQ. apply wp_call. intros o w' E.
  pose proof (law_metadata f (world s)) as Hq. pose proof (law_stat f (world s)) as Hs.
  rewrite E in Hq, Hs. cbn [fst snd] in *.
  destruct (HQ _ (calm_world_step s w' Hq)) as (HC & HE & HO).
  destruct o as [[m|e]|]; [|done..]. apply HO. by apply Hs.
Qed.

Lemma wp_metadata (C : St -> Prop) f (Q : result Error Metadata -> St -> Prop) s :
  (forall s', calm s s' -> C s' /\ (forall e, Q (Err e) s') /\ forall m, stat_of f s' m -> Q (Ok m) s') ->
  wp C (io (file_metadata f)) Q s.
Proof.
  intros HQ. apply wp_bind, wp_call_metadata. intros s' Hc. specialize (HQ s' Hc) as (HC & HE & HO).
  split_and!; [done| |].
  - intros e. by apply wp_throw.
  - intros m Hm. apply wp_ret. auto.
Qed.

(** Only the bytes of [f] are touched, and none that are visible or durable get lost. *)
Record touch (f : File) (s s' : St) : Prop := {
  to_file : file_op f [] (world s) (world s');
  to_cursor : cursor (world s') f = cursor (world s) f;
  to_table : table s' = table s;
  to_told : h_state (response s') = h_state (response s) }.

Lemma quiet_file_op f w w' : quiet w w' -> file_op f [] w w'.
Proof.
  intros Hq. destruct (q_files _ _ Hq (file_id f)) as [Hc Hv Hd].
  split; [by apply quiet_elsewhere|by rewrite app_nil_r, Hc|done..].
Qed.

Lemma calm_touch f s s' : calm s s' -> touch f s s'.
Proof. intros [Hq Ht Hh]. split; [by apply quiet_file_op|apply Hq|done..]. Qed.

#[export] Instance touch_preorder f : PreOrder (touch f).
Proof.
  split; [intros s; apply calm_touch; reflexivity|].
  intros a b c [[H1 H2 H3 H4] ? ? ?] [[G1 G2 G3 G4] ? ? ?]. rewrite app_nil_r in *.
  split; [|congruence..]. split; [by eapply elsewhere_trans|rewrite ?app_nil_r; by etrans..].
Qed.

(** A synchronous flush that succeeds makes every byte visible. *)
Lemma wp_flush (C : St -> Prop) f (Q : result Error (result IoError unit) -> St -> Prop) s :
  (forall s', touch f s s' -> C s' /\ (forall e, Q (Ok (Err e)) s') /\
     (content (world s') (file_id f) = content (world s) (file_id f) ->
      visible (world s') (file_id f) = content (world s) (file_id f) -> Q (Ok (Ok tt)) s')) ->
  wp C (call (file_flush f)) Q s.
Proof.
  intros HQ. apply wp_call. intros o w' E. pose proof (law_flush f (world s)) as Hl. rewrite E in Hl.
  destruct Hl as (Hf & Hc & Hok). destruct (HQ (with_world w' s)) as (HC & HE & HO); [by split|].
  destruct o as [[[]|e]|]; [|done..]. by destruct (Hok eq_refl); apply HO.
Qed.

Lemma wp_sync (C : St -> Prop) f (Q : result Error (result IoError unit) -> St -> Prop) s :
  (forall s', touch f s s' -> C s' /\ (forall e, Q (Ok (Err e)) s') /\
     (durable (world s') (file_id f) = visible (world s') (file_id f) -> Q (Ok (Ok tt)) s')) ->
  wp C (call (file_sync f)) Q s.
Proof.
  intros HQ. apply wp_call. intros o w' E. pose proof (law_sync f (world s)) as Hl. rewrite E in Hl.
  destruct Hl as (Hf & Hc & Hok). destruct (HQ (with_world w' s)) as (HC & HE & HO); [by split|].
  destruct o as [[[]|e]|]; [|done..]. by apply HO, Hok.
Qed.

(** Bytes that are all visible cannot get lost any more. *)
Lemma touch_whole f s s' :
  touch f s s' -> visible (world s) (file_id f) = content (world s) (file_id f) ->
  visible (world s') (file_id f) = content (world s) (file_id f) /\
  content (world s') (file_id f) = content (world s) (file_id f).
Proof.
  intros [[_ Hc Hv _] _ _ _] Hw. rewrite app_nil_r in Hc. rewrite Hw in Hv.
  destruct (law_order (world s') (file_id f)) as [_ Ho].
  assert (content (world s') (file_id f) = content (world s) (file_id f)) as Ec
    by (apply (anti_symm prefix); [done|by etrans]).
  split; [|done]. apply (anti_symm prefix); [by rewrite <-Ec|done].
Qed.
End files.

(** Steps whose rule is given by their shape. *)
Ltac wp_step :=
  cbv zeta;
  lazymatch goal with
  | |- wp _ (mbind _ _) _ _ => apply wp_bind
  | |- wp _ (mret _) _ _ => apply wp_ret
  | |- wp _ (throw _) _ _ => apply wp_throw
  | |- wp _ (attempt _) _ _ => apply wp_attempt
  | |- wp _ (respond _) _ _ => apply wp_respond
  end.

Create HintDb calm.
#[export] Hint Resolve Calm_ret Calm_throw Calm_bind Calm_attempt Calm_call Calm_io Calm_of_io
  Calm_of_result Calm_ensure Calm_pure Calm_now Calm_upload_session : calm.
#[export] Hint Resolve law_wait law_reserve law_available law_open_read law_open_write law_open_parent
  law_metadata_nofollow law_entry_key law_sync_parent law_replacement_identity law_replacement_metadata
  law_create law_rollback law_remove_directory law_validate law_capture law_metadata
  law_apply_metadata : calm.

(** Calmness by the shape of the code. *)
Ltac calm :=
  repeat (intros; try progress cbv zeta;
    match goal with
    | |- Calm (match ?x with _ => _ end) => destruct x
    | |- Calm _ => progress eauto 1 with calm nocore
    | |- quiet_op (match ?x with _ => _ end) => destruct x
    | |- Calm (mbind _ _) => apply Calm_bind
    | |- Calm (attempt _) => apply Calm_attempt
    | |- Calm (respond _) => solve [apply Calm_respond; done]
    | |- Calm (call _) => apply Calm_call
    | |- Calm (io _) => apply Calm_io
    | |- quiet_op _ => solve [auto with calm nocore]
    end).
