(* ===== verification/UploadMemory.v ===== *)
(** * An upload environment in memory

    An instance of [UploadEnv] and of [UploadLaws]: files are byte strings that are
    written through, names are an association list, the request body is a list of
    frames.  It shows that the laws are satisfiable and lets the handlers run. *)

From S2P Require Import Prelude Paths PathKeys Sql StateModel UploadStore RootedPaths Problem UploadWorld.
From S2P Require Import UploadLaws.

Module UploadMemory.

(** The readings of the clock to come (then it shows zero), when the request that awaits
    the upload gives up, what it found when it did, and the time of the store. *)
Record Timing : Type := {
  tm_readings : list Z;
  tm_deadline : Z;
  tm_cancelled : option bool;
  tm_store : Z }.
Definition steady : Timing :=
  {| tm_readings := []; tm_deadline := 0; tm_cancelled := None; tm_store := 1000 |}.

Record Memory : Type := {
  m_files : gmap Z bytes;
  m_names : list (bytes * Z);
  m_next : Z;
  m_cursors : gmap Z Z;
  m_frames : list Frame;
  m_body : bytes;
  m_published : list Publication;
  m_cell : Z;
  m_active : list RootedEntryKey;
  m_timing : Timing }.

(** A handle: its number and the inode it is open on. *)
Record Handle : Type := { h_number : Z; h_inode : Z }.

Definition inode_id (n : Z) : StoredFileIdentity := {| id_device := 0; id_inode := n |}.
Definition handle_id (h : Handle) : StoredFileIdentity := inode_id (h_inode h mod (U64_MAX + 1)).

Definition mem_content (w : Memory) (i : StoredFileIdentity) : bytes :=
  if (id_device i =? 0)%Z then default [] (m_files w !! id_inode i) else [].
Definition mem_cursor (w : Memory) (h : Handle) : Z := default 0%Z (m_cursors w !! h_number h).

Definition set_files (fs : gmap Z bytes) (w : Memory) : Memory :=
  {| m_files := fs; m_names := m_names w; m_next := m_next w; m_cursors := m_cursors w;
     m_frames := m_frames w; m_body := m_body w; m_published := m_published w; m_cell := m_cell w;
     m_active := m_active w; m_timing := m_timing w |}.
Definition set_names (ns : list (bytes * Z)) (next : Z) (w : Memory) : Memory :=
  {| m_files := m_files w; m_names := ns; m_next := next; m_cursors := m_cursors w;
     m_frames := m_frames w; m_body := m_body w; m_published := m_published w; m_cell := m_cell w;
     m_active := m_active w; m_timing := m_timing w |}.
Definition set_cursor (h : Handle) (n : Z) (w : Memory) : Memory :=
  {| m_files := m_files w; m_names := m_names w; m_next := m_next w;
     m_cursors := <[h_number h := n]> (m_cursors w);
     m_frames := m_frames w; m_body := m_body w; m_published := m_published w; m_cell := m_cell w;
     m_active := m_active w; m_timing := m_timing w |}.
Definition set_body (frames : list Frame) (body : bytes) (w : Memory) : Memory :=
  {| m_files := m_files w; m_names := m_names w; m_next := m_next w; m_cursors := m_cursors w;
     m_frames := frames; m_body := body; m_published := m_published w; m_cell := m_cell w;
     m_active := m_active w; m_timing := m_timing w |}.
Definition set_published (ps : list Publication) (w : Memory) : Memory :=
  {| m_files := m_files w; m_names := m_names w; m_next := m_next w; m_cursors := m_cursors w;
     m_frames := m_frames w; m_body := m_body w; m_published := ps; m_cell := m_cell w;
     m_active := m_active w; m_timing := m_timing w |}.
Definition set_cell (z : Z) (w : Memory) : Memory :=
  {| m_files := m_files w; m_names := m_names w; m_next := m_next w; m_cursors := m_cursors w;
     m_frames := m_frames w; m_body := m_body w; m_published := m_published w; m_cell := z;
     m_active := m_active w; m_timing := m_timing w |}.
Definition set_active (l : list RootedEntryKey) (w : Memory) : Memory :=
  {| m_files := m_files w; m_names := m_names w; m_next := m_next w; m_cursors := m_cursors w;
     m_frames := m_frames w; m_body := m_body w; m_published := m_published w; m_cell := m_cell w;
     m_active := l; m_timing := m_timing w |}.
Definition set_timing (t : Timing) (w : Memory) : Memory :=
  {| m_files := m_files w; m_names := m_names w; m_next := m_next w; m_cursors := m_cursors w;
     m_frames := m_frames w; m_body := m_body w; m_published := m_published w; m_cell := m_cell w;
     m_active := m_active w; m_timing := t |}.

Definition find_name (p : bytes) (w : Memory) : option Z :=
  snd <$> find (fun e => bool_decide (e.1 = p)) (m_names w).
Definition drop_name (p : bytes) (w : Memory) : list (bytes * Z) :=
  filter (fun e => e.1 <> p) (m_names w).

Definition ok {A} (a : A) (w : Memory) : option (result IoError A) * Memory := (Some (Ok a), w).
Definition err {A} (e : IoError) (w : Memory) : option (result IoError A) * Memory := (Some (Err e), w).

Definition stat_of_inode (n : Z) (w : Memory) : option (result IoError Metadata) * Memory :=
  let len := Z.of_nat (length (mem_content w (inode_id n))) in
  if (len <=? U64_MAX)%Z
  then ok {| md_is_file := true; md_nlink := 1; md_len := len; md_identity := inode_id n |} w
  else err RootedPaths.OtherIo w.

Definition mem_open (p : bytes) (w : Memory) : option (result IoError Handle) * Memory :=
  match find_name p w with
  | Some n => ok {| h_number := m_next w; h_inode := n |} (set_names (m_names w) (m_next w + 1) w)
  | None => err RootedPaths.NotFound w
  end.

Definition mem_create (p : bytes) (w : Memory) : option (result IoError (Handle * unit)) * Memory :=
  match find_name p w with
  | Some _ => err RootedPaths.AlreadyExists w
  | None =>
      let h := {| h_number := m_next w; h_inode := m_next w |} in
      if bool_decide (mem_content w (handle_id h) = []) && (mem_cursor w h =? 0)%Z
      then ok (h, tt) (set_names ((p, m_next w) :: m_names w) (m_next w + 1) w)
      else err RootedPaths.OtherIo w
  end.

Definition mem_write (h : Handle) (data : bytes) (w : Memory) : option (result IoError unit) * Memory :=
  let i := handle_id h in
  let c := mem_content w i in
  if (mem_cursor w h =? Z.of_nat (length c))%Z
  then ok tt (set_cursor h (Z.of_nat (length (c ++ data))) (set_files (<[id_inode i := c ++ data]> (m_files w)) w))
  else err RootedPaths.OtherIo w.

Definition mem_set_len (h : Handle) (n : Z) (w : Memory) : option (result IoError unit) * Memory :=
  let i := handle_id h in
  ok tt (set_files (<[id_inode i := take (Z.to_nat n) (mem_content w i)]> (m_files w)) w).

Definition mem_purge (e : Z) (w : Memory) : option (result IoError bool) * Memory :=
  ok true (set_names (filter (fun x => x.2 <> e) (m_names w)) (m_next w)
             (set_files (delete e (m_files w)) w)).

(** The destination must be as expected; only missing destinations are supported. *)
Definition mem_rename (source : bytes) (h : Handle) (destination : bytes)
    (expected : ReplacementTargetIdentity) (w : Memory) : option ReplaceAndSyncOutcome * Memory :=
  match find_name destination w, expected with
  | None, Missing =>
      (Some RPublished,
       set_names ((destination, id_inode (handle_id h)) :: drop_name source w) (m_next w)
         (set_published (m_published w ++
            [{| pub_path := destination; pub_file := handle_id h; pub_data := mem_content w (handle_id h) |}]) w))
  | _, _ => (Some RRejected, w)
  end.

Definition mem_frame (_ : Z) (w : Memory) : option Frame * Memory :=
  match m_frames w with
  | [] => (Some EndOfBody, w)
  | Chunk data :: rest => (Some (Chunk data), set_body rest (m_body w ++ data) w)
  | f :: rest => (Some f, set_body rest (m_body w) w)
  end.

(** The request gives up when the clock shows its deadline: the cell is closed if it is
    still at zero. *)
Definition mem_now (w : Memory) : Z * Memory :=
  let tm := m_timing w in
  match tm_readings tm with
  | [] => (0%Z, w)
  | t :: rest =>
      let fires := (tm_deadline tm <=? t)%Z && bool_decide (tm_cancelled tm = None) in
      let closes := (m_cell w =? 0)%Z in
      (t, set_timing {| tm_readings := rest; tm_deadline := tm_deadline tm;
                        tm_cancelled := if fires then Some closes else tm_cancelled tm;
                        tm_store := tm_store tm |}
            (if fires && closes then set_cell 3 w else w))
  end.

Definition mem_limits : Limits :=
  {| capacity := 4; per_owner := 4; ttl_ms := 1000; upload_ttl_ms := 1000;
     upload_capacity := 4; upload_per_owner := 4; purge_capacity := 4; purge_per_owner := 4 |}.

#[global] Instance mem_env : UploadEnv := {|
  World := Memory; File := Handle; Entry := Z; Created := unit; Preserved := unit; Reservation := unit;
  root_path := str "/srv"; limits := mem_limits; upload_ttl := 1000; max_upload_size := 1000000;
  min_free_space := 0; upload_idle_timeout := 1000000000;
  hyphenated := fun b => b; sha256 := fun b => take 32 (b ++ replicate 32 x00);
  instant_now := mem_now; store_dispatch := fun w => (DbRun (tm_store (m_timing w) mod 1000000), w);
  next_frame := mem_frame; mutation_cell := m_cell; set_mutation_cell := set_cell;
  active_upload_files := m_active; set_active_upload_files := set_active;
  wait_for_maintenance_claim_change := fun _ => err RootedPaths.TimedOut;
  reserve_allocated := fun _ _ _ _ => ok (Some tt);
  reserved_space_is_available := fun _ _ _ => ok true;
  consume := fun _ _ w => w;
  open_read := mem_open; open_write := mem_open;
  open_nearest_existing_parent := fun _ w => ok {| h_number := -1; h_inode := 0 |} w;
  metadata_nofollow := fun p w =>
    match find_name p w with Some n => stat_of_inode n w | None => err RootedPaths.NotFound w end;
  entry_key := fun p => ok {| ek_parent := {| device := 0; inode := 1 |}; ek_name := p |};
  sync_parent := fun _ => ok tt;
  replacement_identity := fun p w =>
    match find_name p w with Some _ => err RootedPaths.Unsupported w | None => ok Missing w end;
  replacement_metadata := fun _ => ok (Missing, None);
  create_private_upload_stage := mem_create;
  rollback_created_ancestors := fun _ => ok tt;
  remove_empty_upload_stage_directory := fun _ => ok true;
  validate_private_upload_stage := fun p i w =>
    match find_name p w with
    | None => ok StageMissing w
    | Some n => ok (if bool_decide (i = Some (inode_id n)) then StagePresent else IdentityMismatch) w
    end;
  capture_entry_for_purge := fun p _ w => ok (find_name p w) w;
  entry_identity := fun e => {| del_device := 0; del_inode := e; del_is_directory := false |};
  purge_slice := mem_purge; rename_replace_if_unchanged := mem_rename;
  file_metadata := fun h => stat_of_inode (id_inode (handle_id h));
  file_flush := fun _ => ok tt; file_sync := fun _ => ok tt; file_write_all := mem_write;
  file_seek_start := fun h n w => ok tt (set_cursor h n w); file_set_len := mem_set_len;
  apply_replacement_metadata := fun _ _ => ok tt |}.

#[global] Instance mem_view : UploadView := {|
  content := mem_content; visible := mem_content; durable := mem_content; file_id := handle_id;
  cursor := mem_cursor; published := m_published; delivered := m_body |}.

(** ** The laws hold *)

Lemma mem_quiet (w w' : Memory) :
  m_files w' = m_files w -> m_cursors w' = m_cursors w -> m_published w' = m_published w ->
  m_body w' = m_body w -> quiet w w'.
Proof.
  intros Hf Hc Hp Hb. assert (forall i, mem_content w' i = mem_content w i) as Hm
    by (intros; unfold mem_content; by rewrite Hf).
  split; cbn; try done.
  - intros i. split; cbn; by rewrite ?Hm.
  - intros f. unfold mem_cursor. by rewrite Hc.
Qed.

Lemma mem_insert_same (w : Memory) n c :
  mem_content (set_files (<[n := c]> (m_files w)) w) (inode_id n) = c.
Proof. unfold mem_content. cbn. by rewrite lookup_insert_eq. Qed.

Lemma mem_insert_other (w : Memory) n c i :
  i <> inode_id n -> mem_content (set_files (<[n := c]> (m_files w)) w) i = mem_content w i.
Proof.
  intros Hi. unfold mem_content. cbn. destruct (Z.eqb_spec (id_device i) 0) as [E|]; [|done].
  rewrite lookup_insert_ne; [done|]. intros ->. apply Hi. destruct i. cbn in *. by subst.
Qed.

Lemma mem_same_file (w w' : Memory) i : mem_content w' i = mem_content w i -> same_file w w' i.
Proof. intros E. split; cbn; by rewrite ?E. Qed.

Lemma stat_quiet n : quiet_op (stat_of_inode n).
Proof. intros w. unfold stat_of_inode. cbn. destruct (_ <=? _)%Z; by apply mem_quiet. Qed.

Lemma mem_elsewhere (w : Memory) n c w' :
  (forall i, mem_content w' i = mem_content (set_files (<[n := c]> (m_files w)) w) i) ->
  m_published w' = m_published w -> m_body w' = m_body w -> elsewhere (inode_id n) w w'.
Proof.
  intros Hc Hp Hb. split; cbn; [|done..]. intros j Hj. apply mem_same_file.
  rewrite Hc. by apply mem_insert_other.
Qed.

Lemma mem_write_law (f : Handle) data (w : Memory) :
  mem_cursor w f = Z.of_nat (length (mem_content w (handle_id f))) ->
  let '(o, w') := mem_write f data w in
  file_op f data w w' /\
  (o = Some (Ok tt) -> mem_content w' (handle_id f) = mem_content w (handle_id f) ++ data /\
     mem_cursor w' f = Z.of_nat (length (mem_content w' (handle_id f)))).
Proof.
  intros Hcur. unfold mem_write. rewrite Hcur, Z.eqb_refl. cbn [ok].
  set (c := mem_content w (handle_id f)). set (w' := set_cursor _ _ _).
  assert (mem_content w' (handle_id f) = c ++ data) as Hc by apply mem_insert_same.
  split.
  - split; cbn [content visible durable file_id mem_view]; rewrite ?Hc; [by apply (mem_elsewhere w _ (c ++ data))|reflexivity|by apply prefix_app_r..].
  - intros _. rewrite Hc. split; [done|]. unfold w', mem_cursor. cbn. by rewrite lookup_insert_eq.
Qed.

Lemma mem_cut_law (f : Handle) n (w : Memory) :
  let '(o, w') := mem_set_len f n w in
  cut_op f (Z.to_nat n) w w' /\ mem_cursor w' f = mem_cursor w f /\
  (o = Some (Ok tt) -> mem_content w' (handle_id f) = take (Z.to_nat n) (mem_content w (handle_id f))).
Proof.
  unfold mem_set_len. cbn [ok]. set (c := take _ _). set (w' := set_files _ _).
  assert (mem_content w' (handle_id f) = c) as Hc by apply mem_insert_same.
  split_and!; [|done|done]. split; cbn [content visible durable file_id mem_view]; rewrite ?Hc; try done.
  - by apply (mem_elsewhere w _ c).
  - exists (drop (Z.to_nat n) (mem_content w (handle_id f))). symmetry. apply take_drop.
Qed.

Lemma mem_purge_law (e : Z) (w : Memory) :
  let '(o, w') := mem_purge e w in elsewhere (inode_id e) w w' /\ mem_content w' (inode_id e) = [].
Proof.
  unfold mem_purge. cbn [ok]. split.
  - split; cbn; [|done..]. intros j Hj. apply mem_same_file. unfold mem_content. cbn.
    destruct (Z.eqb_spec (id_device j) 0) as [E|]; [|done].
    rewrite lookup_delete_ne; [done|]. intros ->. apply Hj. destruct j. cbn in *. by subst.
  - unfold mem_content. cbn. by rewrite lookup_delete_eq.
Qed.

Lemma mem_file_op_refl (f : Handle) (w : Memory) : file_op f [] w w.
Proof. split; [by split|by rewrite app_nil_r|done..]. Qed.

Lemma mem_rename_law source (f : Handle) destination expected (w : Memory) :
  let '(o, w') := mem_rename source f destination expected w in
  let event := {| pub_path := destination; pub_file := handle_id f; pub_data := mem_content w (handle_id f) |} in
  same_file w w' (handle_id f) /\ m_body w' = m_body w /\
  (quiet w w' \/
   m_published w' = m_published w ++ [event] /\
   exists displaced, (expected = Missing -> displaced = Missing) /\
     forall i, ~ replaces displaced i -> same_file w w' i) /\
  match o with
  | Some RPublished => m_published w' = m_published w ++ [event]
  | Some RRejected | Some (RNotPublished _) => quiet w w'
  | Some (RDurabilityUnknown _) | None => True
  end.
Proof.
  unfold mem_rename. destruct (find_name destination w), expected; cbn;
    (split; [by apply mem_same_file|]); (split; [done|]);
    try (split; [left|]; by apply mem_quiet).
  split; [right|done]. split; [done|]. eexists. split; [done|]. intros. by apply mem_same_file.
Qed.

Lemma mem_stat_law (f : Handle) (w : Memory) m :
  (stat_of_inode (id_inode (handle_id f)) w).1 = Some (Ok m) ->
  md_identity m = handle_id f /\
  md_len m = Z.of_nat (length (mem_content (stat_of_inode (id_inode (handle_id f)) w).2 (handle_id f))) /\
  is_u64 (md_len m).
Proof.
  unfold stat_of_inode. destruct (_ <=? _)%Z eqn:E; cbn [ok err fst snd]; [|done].
  intros [= <-]. apply Z.leb_le in E. cbn [md_identity md_len]. split_and!; [done..|].
  unfold is_u64. split; [lia|exact E].
Qed.

#[global] Instance mem_laws : UploadLaws.
Proof.
  split; try (intros; intros w; cbn; by apply mem_quiet); try (intros; cbn; by apply mem_quiet).
  - done.
  - intros f. cbn. unfold is_u64. split; [unfold U64_MAX; lia|].
    pose proof (Z.mod_pos_bound (h_inode f) (U64_MAX + 1)). unfold U64_MAX in *. lia.
  - intros b. change (length (take 32 (b ++ replicate 32 x00)) = 32). rewrite length_take, length_app, length_replicate. lia.
  - intros w. cbn. unfold mem_now. destruct (tm_readings _); [done|]. apply mem_quiet; cbn; by destruct (_ && _).
  - intros w now. cbn. intros [[= <-]|[|]]; [|done..].
    pose proof (Z.mod_pos_bound (tm_store (m_timing w)) 1000000 ltac:(lia)). unfold is_i64, I64_MIN, I64_MAX. lia.
  - intros p w. cbn. unfold mem_open. destruct (find_name p w); by apply mem_quiet.
  - intros p w. cbn. unfold mem_open. destruct (find_name p w); by apply mem_quiet.
  - intros p w. cbn. destruct (find_name p w); [apply stat_quiet|by apply mem_quiet].
  - intros p w. cbn. destruct (find_name p w); by apply mem_quiet.
  - intros p w. cbn. unfold mem_create. destruct (find_name p w); [by apply mem_quiet|].
    destruct (_ && _); by apply mem_quiet.
  - intros p i w. cbn. destruct (find_name p w); by apply mem_quiet.
  - intros f. apply stat_quiet.
  - intros p w f c. cbn. unfold mem_create. destruct (find_name p w); [done|].
    destruct (_ && _) eqn:E; [|done]. cbn. intros [= <- <-].
    apply andb_true_iff in E as [E1 E2]. apply bool_decide_eq_true in E1. by apply Z.eqb_eq in E2.
  - done.
  - apply mem_stat_law.
  - intros f n w. cbn. split_and!; [by intros; apply mem_same_file|done|done|].
    intros _. unfold mem_cursor. cbn. by rewrite lookup_insert_eq.
  - apply mem_write_law.
  - intros f w. split; [apply mem_file_op_refl|done].
  - intros f w. split; [apply mem_file_op_refl|done].
  - intros f n w _. apply mem_cut_law.
  - intros e w _. destruct (mem_purge_law e w). split; [done|]. split; [by right|done].
  - apply mem_rename_law.
  - intros d w. cbn. unfold mem_frame. destruct (m_frames w) as [|[] ?]; cbn;
      (split; [intros; by apply mem_same_file|done]).
Qed.

(** ** A request *)

Definition mem_start (frames : list Frame) : St := {|
  world := {| m_files := ∅; m_names := []; m_next := 7; m_cursors := ∅; m_frames := frames; m_body := [];
              m_published := []; m_cell := 0; m_active := []; m_timing := steady |};
  table := ∅; response := default_response; leased := [] |}.

(** The next request on the state one has left behind. *)
Definition mem_again (frames : list Frame) (s : St) : St := {|
  world := set_cell 0 (set_body frames (m_body (world s)) (world s));
  table := table s; response := default_response; leased := [] |}.

Lemma mem_empty_ok : UploadStore.table_ok mem_limits ∅.
Proof.
  split.
  - apply map_Forall_empty.
  - intros k1 k2 r1 r2 H1. by rewrite lookup_empty in H1.
  - vm_compute. discriminate.
  - intros ow. unfold count_where, hits. rewrite map_filter_empty, map_size_empty. vm_compute. discriminate.
Qed.
End UploadMemory.
