(* ===== verification/UploadSafety.v ===== *)
(** * What an upload promises

    The contract of the upload handlers as an abstract machine: an upload id holds
    no promise, the promise that some bytes are kept, or the knowledge of how the
    upload ended.  [request] says what one request may make of it and what it may
    publish.  This file relates the machine to the upload table and the files, and
    proves that the operations every ending of an upload is built from (recording,
    resetting, discarding) keep the relation, whatever fails and wherever the
    process dies. *)

From S2P Require Import Prelude Paths Sql StateModel UploadStore RootedPaths PathPolicy Problem UploadProtocol.
From S2P Require Import UploadWorld UploadRecord UploadFailure UploadLaws.

(** ** The abstract machine *)

Inductive promise : Type :=
| NoPromise            (* the upload id is free *)
| Holds (data : bytes) (* these bytes have been accepted and are kept for resumption *)
| Undecided            (* publication was started and its end is not known *)
| Refused              (* the upload was rejected *)
| Done.                (* the upload was published *)

(** An upload id that has been decided, or whose publication is in doubt, is closed. *)
Definition active (a : promise) : Prop :=
  match a with NoPromise | Holds _ => True | _ => False end.

(** One request that starts from [base] and receives [d]; [len] is the declared
    length of the upload.  Only an active upload can change; bytes that are held are
    never dropped except with the whole upload; what is published is the base and
    the whole body, of the declared length. *)
Inductive request (base d : bytes) (len : Z) (a : promise) : list bytes -> promise -> Prop :=
| rq_keep : request base d len a [] a
| rq_record e :
    active a -> e `prefix_of` base ++ d -> (forall held, a = Holds held -> held `prefix_of` e) ->
    request base d len a [] (Holds e)
| rq_forget : active a -> request base d len a [] NoPromise
| rq_refuse : active a -> request base d len a [] Refused
| rq_doubt : active a -> request base d len a [] Undecided
| rq_publish a' :
    active a -> Z.of_nat (length (base ++ d)) = len -> a' = Undecided \/ a' = Done ->
    request base d len a [base ++ d] a'.

Module UploadSafety.
Import UploadProtocol UploadRecord UploadFailure.

(** ** Rows *)

Definition found (limits : Limits) (t : UploadStore.Table) (k : UploadSessionKey)
    (o : option StoredUploadSession) : Prop :=
  UploadStore.table_ok limits t /\ UploadStore.load_upload_session t k = Ok o.

Definition live (o : option StoredUploadSession) : Prop :=
  forall r, o = Some r -> is_terminal (up_state r) = false.

(** What a successful save makes of the row of its key. *)
Variant stored (o : option StoredUploadSession) (x : StoredUploadSession)
    : option StoredUploadSession -> Prop :=
| stored_new : o = None -> stored o x (Some x)
| stored_merged old :
    o = Some old -> UploadStore.merge_upload_session old x = Some x ->
    stored o x (Some (UploadStore.with_paths old x)).

Lemma stored_row o x o' :
  stored o x o' -> exists r, o' = Some r /\ up_state r = up_state x /\
    durable_offset r = durable_offset x /\ stage_identity r = stage_identity x /\
    (forall old, o = Some old -> (durable_offset old <= durable_offset x)%Z).
Proof.
  intros [->|old -> Hm]; [by exists x|].
  apply UploadStore.merge_Some in Hm as (_ & _ & _ & _ & _ & Hp).
  eexists. split_and!; [done..|]. intros old' [= <-]. apply (UploadStore.pr_offset _ _ Hp).
Qed.

Lemma live_not_droppable t k r now :
  UploadStore.load_upload_session t k = Ok (Some r) -> is_terminal (up_state r) = false ->
  forall row, t !! k = Some row -> UploadStore.droppable now k row = false.
Proof.
  intros (row & Hrow & (_ & _ & Er)%UploadStore.decode_inv)%UploadStore.load_Ok Ht row' Hrow'.
  rewrite Hrow in Hrow'. injection Hrow' as <-. rewrite Er. unfold UploadStore.droppable. cbn.
  apply andb_false_iff. right. by destruct (up_state r).
Qed.

Lemma load_kept t k o now :
  live o -> UploadStore.load_upload_session t k = Ok o ->
  UploadStore.load_upload_session (delete_where (UploadStore.droppable now) t).1 k = Ok o.
Proof.
  intros Hl Ho. destruct o as [r|].
  - pose proof (live_not_droppable t k r now Ho (Hl _ eq_refl)) as Hd.
    apply UploadStore.load_Ok in Ho as (row & Hrow & Hr). apply UploadStore.load_Ok. exists row.
    split; [|done]. apply lookup_delete_where. split; [done|]. by apply Hd.
  - apply UploadStore.load_None. unfold UploadStore.load_upload_session in Ho.
    destruct (t !! k) as [row|] eqn:E; [inv_result; done|].
    destruct (_ !! k) as [row|] eqn:E' in |- *; [|done].
    apply lookup_delete_where in E' as [E' _]. congruence.
Qed.

(** A save of a row that is not final succeeds or leaves it as it is. *)
Lemma save_row limits t now ttl x o :
  found limits t (up_key x) o -> live o -> UploadStore.encodable x -> is_i64 (now + ttl) ->
  exists t' a, UploadStore.save_upload_session limits t now x ttl = Ok (t', a) /\
    ((a = UploadConflict \/ a = UploadFull) /\ found limits t' (up_key x) o \/
     (a <> UploadConflict /\ a <> UploadFull) /\ exists o', found limits t' (up_key x) o' /\ stored o x o').
Proof.
  intros [Ht Ho] Hl He Hi.
  pose proof (UploadStore.upload_exec_step limits t now (UploadStore.Save x ttl)
    (UploadStore.to_rows _ _ Ht) (conj He Hi)) as Hstep.
  cbn [UploadStore.exec] in Hstep. rewrite (UploadStore.en_valid x He) in Hstep.
  cbn [mbind result_bind] in Hstep.
  destruct (UploadStore.save_saved limits t now x ttl (UploadStore.to_rows _ _ Ht) He Hi)
    as (t' & a & E & Hs).
  rewrite E in Hstep. cbn in Hstep. apply (UploadStore.upload_step_ok _ _ _ _ _ _ Ht) in Hstep as Ht'.
  pose proof (load_kept t (up_key x) o now Hl Ho) as Hk.
  exists t', a. split; [done|].
  destruct Hs as [|Hn|Hn _ _ _|row old Hrow Hold _ Hm].
  - left. split; [by left|done].
  - left. split; [by right|done].
  - right. split; [done|]. exists (Some x). split.
    + split; [done|]. apply UploadStore.load_Ok. eexists. split; [apply lookup_insert_eq|].
      by apply UploadStore.decode_row_of.
    + rewrite (UploadStore.load_None _ _ Hn) in Hk. injection Hk as <-. by constructor.
  - right. split; [by case_match|]. exists (Some (UploadStore.with_paths old x)). split.
    + split; [done|]. apply UploadStore.load_Ok. eexists. split; [apply lookup_insert_eq|].
      change (up_key x) with (up_key (UploadStore.with_paths old x)). apply UploadStore.decode_row_of.
      apply UploadStore.merge_Some in Hm as (_ & _ & _ & _ & Hlen & _).
      apply UploadStore.with_paths_encodable; [|done..]. by apply (UploadStore.decode_inv _ _ _ Hold).
    + rewrite (UploadStore.load_Some _ _ _ _ Hrow Hold) in Hk. injection Hk as <-. by econstructor.
Qed.

(** Removing a session leaves no row, or the one that was there. *)
Lemma remove_row limits t x k o :
  found limits t k o -> UploadStore.encodable x -> up_key x = k ->
  exists t' b, UploadStore.remove_upload_session_if_matches t x = Ok (t', b) /\
    ((b = false /\ found limits t' k o) \/ found limits t' k None).
Proof.
  intros [Ht Ho] He <-.
  pose proof (UploadStore.upload_exec_step limits t 0 (UploadStore.Remove x)
    (UploadStore.to_rows _ _ Ht) He) as Hstep.
  cbn [UploadStore.exec] in Hstep. rewrite (UploadStore.en_valid x He) in Hstep.
  cbn [mbind result_bind] in Hstep.
  destruct (UploadStore.remove_cases t x (UploadStore.to_rows _ _ Ht)) as (t' & b & E & Hc).
  rewrite E in Hstep. exists t', b. split; [done|].
  destruct Hc as [[-> ->]|[-> _]]; [by left|]. right.
  split; [by eapply UploadStore.upload_step_ok|]. apply UploadStore.load_None, lookup_delete_eq.
Qed.

(** ** Making a stage durable *)

Section durability.
Context `{L : UploadLaws}.

Lemma wp_io_call {A} (C : St -> Prop) (op : World -> option (result IoError A) * World)
    (Q : result Error A -> St -> Prop) s :
  wp C (call op) (fun r s' => match r with
                              | Ok (Ok a) => Q (Ok a) s'
                              | Ok (Err e) => Q (Err (EIo e)) s'
                              | Err e => Q (Err e) s'
                              end) s -> wp C (io op) Q s.
Proof. intros Hw. apply wp_bind. eapply wp_mono; [done|]. by intros [[|]|]. Qed.

(** A stage that was synchronised holds every byte written to it. *)
Lemma wp_sync_and_identify (C : St -> Prop) f path n (Q : result Error StoredFileIdentity -> St -> Prop) s :
  (forall s', touch f s s' -> C s' /\ (forall e, Q (Err e) s')) ->
  (forall s', touch f s s' -> content (world s') (file_id f) = content (world s) (file_id f) ->
     durable (world s') (file_id f) = content (world s) (file_id f) ->
     (n <= Z.of_nat (length (content (world s) (file_id f))))%Z -> Q (Ok (file_id f)) s') ->
  wp C (sync_and_identify_stage f path n) Q s.
Proof.
  intros HE HO. unfold sync_and_identify_stage.
  apply wp_bind, wp_io_call, wp_flush. intros s1 H1. destruct (HE s1 H1) as [HC1 HE1].
  split_and!; [done..|]. intros Ec1 Ev1.
  apply wp_bind, wp_io_call, wp_sync. intros s2 H2.
  assert (touch f s s2) as H02 by by etrans. destruct (HE s2 H02) as [HC2 HE2].
  split_and!; [done..|]. intros Ed2.
  destruct (touch_whole f s1 s2 H2) as [Ev2 Ec2]; [congruence|].
  apply wp_bind, wp_metadata. intros s3 H3.
  assert (touch f s s3) as H03 by (etrans; [done|by apply calm_touch]). destruct (HE s3 H03) as [HC3 HE3].
  split_and!; [done..|]. intros m (Hi & Hn & _).
  destruct (touch_whole f s2 s3) as [Ev3 Ec3]; [by apply calm_touch|congruence|].
  apply wp_bind, wp_ensure; intros _; [|done]. apply wp_bind, wp_ensure; intros _; [|done].
  apply wp_bind, wp_ensure; intros Hle; [|done].
  apply wp_bind. apply (wp_calm (calm s3)); [calm|intros ? ? ? ?; by etrans|done| |].
  { intros s4 Hc4. apply HE. etrans; [done|by apply calm_touch]. }
  intros [pm|e] s4 H4 _; [|apply HE; etrans; [done|by apply calm_touch]].
  assert (touch f s s4) as H04 by (etrans; [done|by apply calm_touch]).
  apply wp_bind, wp_ensure; intros _; [|by apply HE]. apply wp_ret. rewrite Hi.
  apply HO; [done|..].
  - rewrite (sf_content _ _ _ (q_files _ _ (calm_world _ _ H4) (file_id f))). congruence.
  - apply (anti_symm prefix).
    + etrans; [apply law_order|]. etrans; [apply law_order|].
      rewrite (sf_content _ _ _ (q_files _ _ (calm_world _ _ H4) (file_id f))).
      by rewrite Ec3, Ec2, Ec1.
    + etrans; [|apply (sf_durable _ _ _ (q_files _ _ (calm_world _ _ H4) (file_id f)))].
      etrans; [|apply (sf_durable _ _ _ (q_files _ _ (calm_world _ _ H3) (file_id f)))].
      by rewrite Ed2, Ev2, Ec1.
  - split_bool. rewrite Ev3, Ec2, Ec1 in Hn. lia.
Qed.
End durability.

(** ** The relation between the machine and the world *)

Section relation.
Context `{L : UploadLaws}.

(** The bytes are safe on disk, or the file is gone (in which case the row is never
    reported as resumable).  A stage without bytes counts as gone: that a recorded stage
    was emptied is not excluded here, only that it holds other bytes. *)
Definition kept (w : World) (i : StoredFileIdentity) (held : bytes) : Prop :=
  held `prefix_of` durable w i \/ content w i = [].

Definition abstracts (w : World) (o : option StoredUploadSession) (a : promise) : Prop :=
  match o with
  | None => a = NoPromise
  | Some r =>
      match up_state r with
      | Running | AwaitingConfirmation =>
          exists held i, a = Holds held /\ durable_offset r = Z.of_nat (length held) /\
            stage_identity r = Some i /\ kept w i held
      | CommitStarted | Unknown => a = Undecided
      | Rejected => a = Refused
      | Committed => a = Done
      end
  end.

Lemma prefix_take {A} n (l : list A) : take n l `prefix_of` l.
Proof. exists (drop n l). by rewrite take_drop. Qed.

Lemma prefix_take_le {A} n (l k : list A) : k `prefix_of` l -> length k <= n -> k `prefix_of` take n l.
Proof. intros [r ->] Hn. rewrite take_app_ge by done. by exists (take (n - length k) r). Qed.

Lemma durable_content w i : durable w i `prefix_of` content w i.
Proof. destruct (law_order w i). by etrans. Qed.

Lemma kept_mono w w' i held :
  kept w i held -> durable w i `prefix_of` durable w' i -> content w' i `prefix_of` content w i ->
  kept w' i held.
Proof.
  intros [Hp|Hc] Hd Hx; [left; by etrans|right]. rewrite Hc in Hx. by apply prefix_nil_inv.
Qed.

Lemma kept_same w w' i held : kept w i held -> same_file w w' i -> kept w' i held.
Proof. intros Hk [Hc _ Hd]. apply (kept_mono w); [done..|by rewrite Hc]. Qed.

(** The relation depends on the recorded file only. *)
Lemma abstracts_kept w w' o a :
  abstracts w o a ->
  (forall r i held, o = Some r -> stage_identity r = Some i -> kept w i held -> kept w' i held) ->
  abstracts w' o a.
Proof.
  intros Ha Hk. destruct o as [r|]; [|done]. cbn in *.
  destruct (up_state r) eqn:E; try done;
    destruct Ha as (held & i & -> & Hn & Hi & Hx); exists held, i; split_and!; eauto.
Qed.

Lemma abstracts_Holds w o held :
  abstracts w o (Holds held) -> exists r i, o = Some r /\ (up_state r = Running \/ up_state r = AwaitingConfirmation) /\
    durable_offset r = Z.of_nat (length held) /\ stage_identity r = Some i /\ kept w i held.
Proof.
  destruct o as [r|]; [|done]. cbn. intros Ha.
  destruct (up_state r) eqn:E; try done; destruct Ha as (h & i & [= ->] & Hn & Hi & Hx); eauto 10.
Qed.
End relation.

(** ** One request *)

(** The state before the request, the upload it names, what was promised and where
    it starts from; the files it may change are those of [gh_own]. *)
Class Ghost `{UploadEnv} : Type := {
  gh_start : St;
  gh_upload : Session;
  gh_promise : promise;
  gh_base : bytes;
  gh_own : StoredFileIdentity -> Prop;
  gh_overwrite : UploadOverwritePolicy;
  gh_key : key_wf (upload_session_key (se_owner_id gh_upload) (se_upload_id gh_upload)) = true;
  gh_length : (0 <= se_upload_length gh_upload)%Z }.

(** What a publication may displace: nothing, unless the client confirmed to overwrite. *)
Definition allowed `{G : Ghost} (i : ReplacementTargetIdentity) : Prop := gh_overwrite = NoReplace -> i = Missing.

(** Stages are written only for an active upload. *)
Class Active `{G : Ghost} : Prop := is_active : active gh_promise.

Section request.
Context `{L : UploadLaws} {G : Ghost}.

Abbreviation s0 := gh_start.
Abbreviation u := gh_upload.
Abbreviation a0 := gh_promise.
Abbreviation base := gh_base.
Abbreviation own := gh_own.
Abbreviation k := (upload_session_key (se_owner_id u) (se_upload_id u)).

(** A state in which nothing has been published. *)
Record State (o : option StoredUploadSession) (a : promise) (d : bytes) (s : St) : Prop := {
  st_found : found limits (table s) k o;
  st_abstracts : abstracts (world s) o a;
  st_owned : forall r i, o = Some r -> stage_identity r = Some i -> own i;
  st_frame : forall i, ~ own i -> same_file (world s0) (world s) i;
  st_published : published (world s) = published (world s0);
  st_delivered : delivered (world s) = delivered (world s0) ++ d }.

Definition Safe (s : St) : Prop :=
  exists o a d, State o a d s /\ request base d (se_upload_length u) a0 [] a.

Lemma State_calm o a d : Stable (State o a d).
Proof.
  intros s s' [[Ht Ho] Ha Hw Hf Hp Hd] [[Hq Hc Hp' Hd'] Htab Htold]. split; rewrite ?Htab.
  - done.
  - eapply abstracts_kept; [done|]. intros. by eapply kept_same.
  - done.
  - intros i Hi. eapply same_file_trans; eauto.
  - congruence.
  - congruence.
Qed.

Lemma Safe_calm : Stable Safe.
Proof. intros s s' (o & a & d & Hs & Hr) Hc. exists o, a, d. split; [by eapply State_calm|done]. Qed.

(** A call on the bytes of one file the request may change. *)
Lemma State_file o a d s w' i :
  State o a d s -> own i -> elsewhere i (world s) w' ->
  (forall held, kept (world s) i held -> kept w' i held) -> State o a d (with_world w' s).
Proof.
  intros [Hfo Ha Hw Hf Hp Hd] Hi [Hel Hp' Hd'] Hk. split; cbn; try done.
  - eapply abstracts_kept; [done|]. intros r j held Hr Hj Hkj.
    destruct (decide (j = i)) as [->|Hne]; [by apply Hk|]. by eapply kept_same; [|apply Hel].
  - intros j Hj. eapply same_file_trans; [by apply Hf|]. apply Hel. intros ->. done.
  - congruence.
  - congruence.
Qed.

Lemma State_file_op o a d s w' f :
  State o a d s -> own (file_id f) -> file_op f [] (world s) w' -> State o a d (with_world w' s).
Proof.
  intros Hs Hi [He Hc Hv Hd]. apply (State_file _ _ _ _ _ (file_id f)); [done..|].
  intros held Hk. rewrite app_nil_r in Hc. by eapply kept_mono.
Qed.

(** A file that is gone keeps every promise: its row is not resumable any more. *)
Lemma State_purge o a d s w' i :
  State o a d s -> own i -> elsewhere i (world s) w' ->
  same_file (world s) w' i \/ content w' i = [] -> State o a d (with_world w' s).
Proof.
  intros Hs Hi He Hx. apply (State_file _ _ _ _ _ i); [done..|]. intros held Hk.
  destruct Hx as [Hx|Hx]; [by eapply kept_same|by right].
Qed.

Lemma Safe_purge s w' i :
  Safe s -> own i -> elsewhere i (world s) w' ->
  same_file (world s) w' i \/ content w' i = [] -> Safe (with_world w' s).
Proof. intros (o & a & d & Hs & Hr) ? ? ?. exists o, a, d. split; [by eapply State_purge|done]. Qed.

(** A row that is replaced. *)
Lemma State_table o a d s o' a' w' t' :
  State o a d s -> quiet (world s) w' -> found limits t' k o' -> abstracts w' o' a' ->
  (forall r i, o' = Some r -> stage_identity r = Some i -> own i) ->
  State o' a' d (with_table t' (with_world w' s)).
Proof.
  intros [Hfo Ha Hw Hf Hp Hd] [Hq Hc Hp' Hd'] Hfo' Ha' Hw'. split; cbn; try done.
  - intros i Hi. eapply same_file_trans; eauto.
  - congruence.
  - congruence.
Qed.

(** ** Steps that keep the relation *)

Definition Keeps {A} (m : M A) : Prop := forall s, Safe s ->
  wp Safe m (fun _ s' => Safe s' /\ h_state (response s') = h_state (response s)) s.

Lemma Keeps_calm {A} (m : M A) : Calm m -> Keeps m.
Proof.
  intros Hm s Hs. apply (wp_calm Safe); [done|apply Safe_calm|done..|]. by intros _ s' Hs' [].
Qed.

Lemma wp_keeps {A} (C : St -> Prop) (m : M A) Q s :
  Keeps m -> Safe s -> (forall s', Safe s' -> C s') ->
  (forall r s', Safe s' -> h_state (response s') = h_state (response s) -> Q r s') -> wp C m Q s.
Proof.
  intros Hm Hs HC HQ. eapply wp_crash; [|exact HC]. eapply wp_mono; [by apply Hm|].
  intros r s' []. auto.
Qed.

Lemma Keeps_bind {A B} (m : M A) (f : A -> M B) : Keeps m -> (forall a, Keeps (f a)) -> Keeps (m ≫= f).
Proof.
  intros Hm Hf s Hs. apply wp_bind. apply (wp_keeps Safe); [done..|].
  intros [a|e] s' Hs' Hr; [|done]. rewrite <-Hr. by apply Hf.
Qed.

Lemma Keeps_attempt {A} (m : M A) : Keeps m -> Keeps (attempt m).
Proof. intros Hm s Hs. by apply wp_attempt, Hm. Qed.

Lemma Keeps_purge e : del_is_directory (entry_identity e) = false -> own (entry_file (entry_identity e)) ->
  Keeps (io (purge_slice e)).
Proof.
  intros Hd Ho s Hs. apply wp_io. intros o w' E. pose proof (law_purge e (world s) Hd) as Hp.
  rewrite E in Hp. destruct Hp as (He & Hx & _).
  assert (Safe (with_world w' s)) as Hs' by by eapply Safe_purge. by destruct o as [[]|].
Qed.

(** A stage is removed by identity: a file of another identity is left alone. *)
Lemma Keeps_remove_file path i : own i -> Keeps (remove_file_if_identity path i).
Proof.
  intros Ho. unfold remove_file_if_identity. apply Keeps_bind; [apply Keeps_calm; calm|].
  intros [entry|]; [|apply Keeps_calm; calm].
  destruct (bool_decide _) eqn:E; cbn [negb]; [|apply Keeps_calm; calm].
  apply bool_decide_eq_true in E. apply Keeps_bind; [|intros; apply Keeps_calm; calm].
  apply Keeps_purge; rewrite E; [done|]. by destruct i.
Qed.

Lemma Calm_remove_stage_directory path : Calm (remove_stage_directory_if_empty path).
Proof. unfold remove_stage_directory_if_empty. calm. Qed.

Lemma Keeps_discard_unrecorded f path : own (file_id f) -> Keeps (discard_unrecorded_stage f path).
Proof.
  intros Ho s Hs. unfold discard_unrecorded_stage. apply wp_bind, wp_metadata. intros s1 Hc1.
  assert (Safe s1) as Hs1 by by eapply Safe_calm. pose proof (calm_told _ _ Hc1) as Ht.
  split; [done|]. split; [done|]. intros m [Hi _]. rewrite Hi.
  apply (wp_keeps Safe); [|done..|intros; split; congruence].
  apply Keeps_bind; [apply Keeps_calm; calm|intros _].
  apply Keeps_bind; [by apply Keeps_remove_file|intros c]. apply Keeps_calm.
  destruct (bool_decide _); [calm|apply Calm_remove_stage_directory].
Qed.

Lemma Calm_validated_relative_paths i t p : Calm (validated_relative_paths i t p).
Proof.
  unfold validated_relative_paths, is_upload_temp_path, state_relative_path, resolve_state_path. calm.
Qed.

(** The row of the upload, as every state of the relation has one. *)
Lemma Safe_row s : Safe s -> exists o, UploadStore.load_upload_session (table s) k = Ok o /\
  found limits (table s) k o /\ forall r i, o = Some r -> stage_identity r = Some i -> own i.
Proof. intros (o & a & d & [Hf _ Hw _ _ _] & _). exists o. split; [apply Hf|done]. Qed.

Lemma load_encodable t o r :
  UploadStore.load_upload_session t o = Ok (Some r) -> UploadStore.encodable r /\ up_key r = o.
Proof. by intros (row & _ & (? & ? & _)%UploadStore.decode_inv)%UploadStore.load_Ok. Qed.

(** Removing the row gives the upload id free. *)
Lemma wp_remove_session `{!Active} C x (Q : result Error bool -> St -> Prop) s :
  Safe s -> UploadStore.encodable x -> up_key x = k -> (forall s', Safe s' -> C s') ->
  (forall r s', Safe s' -> h_state (response s') = h_state (response s) ->
     (r = Ok true -> found limits (table s') k None) -> Q r s') ->
  wp C (remove_upload_session_if_matches x) Q s.
Proof.
  intros (o & a & d & Hs & Hr) He Hx HC HQ. unfold remove_upload_session_if_matches.
  rewrite (UploadStore.en_valid x He). apply wp_bind, wp_ret, wp_db. intros w' Hq.
  assert (Safe (with_world w' s)) as Hs'.
  { exists o, a, d. split; [|done]. eapply State_calm; [done|]. by apply calm_world_step. }
  split; [by apply HC|]. split; [intros; by apply HQ|]. intros now Hi t b Ec.
  destruct (remove_row limits (table s) x k o (st_found _ _ _ _ Hs) He Hx) as (t' & b' & Ec' & Hcase).
  rewrite Ec' in Ec. injection Ec as -> ->. cbv zeta.
  assert (Safe (with_table t (with_world w' s)) /\ (b = true -> found limits t k None)) as [Hsafe Hb].
  { destruct Hcase as [[-> Hfo]|Hfo].
    - split; [|done]. exists o, a, d. split; [|done]. eapply State_table; try done; try apply Hs.
      eapply abstracts_kept; [apply Hs|]. intros. eapply kept_same; [done|]. apply Hq.
    - split; [|done]. exists None, NoPromise, d. split; [|constructor; apply is_active].
      by eapply State_table. }
  split; [by apply HC|]. split; [|intros; by apply HQ].
  apply HQ; [done..|]. intros [= ->]. by apply Hb.
Qed.

Lemma wp_reset `{!Active} C t p (Q : result Error unit -> St -> Prop) s :
  Safe s -> (forall s', Safe s' -> C s') ->
  (forall r s', Safe s' -> h_state (response s') = h_state (response s) ->
     (r = Ok tt -> found limits (table s') k None) -> Q r s') ->
  wp C (reset (se_owner_id u) (se_upload_id u) t p) Q s.
Proof.
  intros Hs HC HQ. unfold reset. apply wp_bind. apply (wp_calm Safe);
    [apply Calm_validated_relative_paths|apply Safe_calm|done..|].
  intros [[tr sr]|e] s1 Hs1 Hc1; [|apply HQ; [done|apply Hc1|done]].
  destruct (Safe_row _ Hs1) as (o & Ho & Hfo & Hown). apply wp_bind, (wp_upload_session _ _ _ _ o Ho).
  intros s2 Hc2 _. assert (Safe s2) as Hs2 by by eapply Safe_calm.
  assert (h_state (response s2) = h_state (response s)) as Hh2
    by (rewrite (calm_told _ _ Hc2); apply (calm_told _ _ Hc1)).
  split; [by apply HC|]. split; [|intros; by apply HQ].
  destruct o as [r|]; [|apply wp_ret, HQ; [done..|]; intros _; by rewrite (calm_table _ _ Hc2)].
  destruct (_ || _); [apply wp_throw; by apply HQ|].
  destruct (load_encodable _ _ _ Ho) as [He Hk].
  apply wp_bind. apply (wp_keeps C); [|done..|].
  { destruct (stage_identity r) as [i|] eqn:Ei; [|apply Keeps_calm; calm].
    apply Keeps_bind; [by apply Keeps_remove_file, (Hown r)|]. intros c. apply Keeps_calm. calm. }
  intros [[]|e] s3 Hs3 Hh3; [|apply HQ; [done|congruence|done]].
  apply wp_bind, wp_remove_session; [done..|]. intros [b|e] s4 Hs4 Hh4 Hb; [|apply HQ; [done|congruence|done]].
  destruct b; cbn [negb]; [|apply wp_throw, HQ; [done|congruence|done]].
  specialize (Hb eq_refl).
  apply (wp_calm (fun s => Safe s /\ found limits (table s) k None)).
  - apply Calm_remove_stage_directory.
  - intros x y [Hx Hx'] Hc. split; [by eapply Safe_calm|]. by rewrite (calm_table _ _ Hc).
  - done.
  - intros x [Hx _]. by apply HC.
  - intros x y [Hy Hy'] Hc. apply HQ; [done| |done]. rewrite (calm_told _ _ Hc). congruence.
Qed.

Lemma Keeps_reset_session `{!Active} created : Keeps (reset_session u created).
Proof.
  intros s Hs. unfold reset_session, reset_and_ancestors. apply wp_bind, wp_reset; [done..|].
  intros [[]|e] s1 Hs1 Hh1 _; [|done]. rewrite <-Hh1. apply Keeps_calm; [|done].
  unfold rollback_upload_ancestors. calm.
Qed.

(** After a successful reset the row is gone. *)
Lemma wp_reset_session `{!Active} C created (Q : result Error unit -> St -> Prop) s :
  Safe s -> (forall s', Safe s' -> C s') ->
  (forall r s', Safe s' -> h_state (response s') = h_state (response s) ->
     (r = Ok tt -> found limits (table s') k None) -> Q r s') ->
  wp C (reset_session u created) Q s.
Proof.
  intros Hs HC HQ. unfold reset_session, reset_and_ancestors. apply wp_bind, wp_reset; [done..|].
  intros [[]|e] s1 Hs1 Hh1 Hf; [|by apply HQ].
  apply (wp_calm (fun s => Safe s /\ found limits (table s) k None)).
  - unfold rollback_upload_ancestors. calm.
  - intros x y [Hx Hx'] Hc. split; [by eapply Safe_calm|]. by rewrite (calm_table _ _ Hc).
  - split; [done|]. by apply Hf.
  - intros x [Hx _]. by apply HC.
  - intros x y [Hy Hy'] Hc. apply HQ; [done| |done]. rewrite (calm_told _ _ Hc). congruence.
Qed.

(** ** Writing the record *)

(** The record a request writes carries its own length and a digest-sized revision. *)
Definition own_context (c : UploadRecordContext) : Prop :=
  rc_owner_id c = se_owner_id u /\ rc_upload_id c = se_upload_id u /\
  rc_upload_length c = se_upload_length u /\
  (rc_target_revision_bound c = true -> forall v, rc_target_revision c = Some v -> length v = 32%nat).

(** The session that [persist_state] saves. *)
Record saves (o : option StoredUploadSession) (offset : Z) (state : StoredUploadState)
    (i : option StoredFileIdentity) (x : StoredUploadSession) : Prop := {
  sv_key : up_key x = k;
  sv_length : upload_length x = se_upload_length u;
  sv_offset : durable_offset x = offset;
  sv_state : up_state x = state;
  sv_identity : stage_identity x = match i with Some i => Some i | None => o ≫= stage_identity end }.

(** A save leaves the row as it was or stores the session, whatever it answers. *)
Lemma wp_save (C : St -> Prop) x (Q : result Error StoreUploadSession -> St -> Prop) s o :
  found limits (table s) k o -> live o -> up_key x = k ->
  (session_validate x = Ok tt -> UploadStore.encodable x) ->
  (forall s' t' o', calm s s' -> found limits t' k o' -> o' = o \/ stored o x o' ->
     C (with_table t' s') /\ forall e, Q (Err e) (with_table t' s')) ->
  (forall s' t' a, calm s s' -> found limits t' k o -> a = UploadConflict \/ a = UploadFull ->
     Q (Ok a) (with_table t' s')) ->
  (forall s' t' o' a, calm s s' -> found limits t' k o' -> stored o x o' ->
     a <> UploadConflict -> a <> UploadFull -> Q (Ok a) (with_table t' s')) ->
  wp C (save_upload_session x) Q s.
Proof.
  intros Hf Hlive Hx He HE HN HO. unfold save_upload_session.
  assert (forall s', calm s s' -> C s' /\ forall e, Q (Err e) s') as HE'.
  { intros s' Hc. destruct (HE s' (table s') o Hc) as [HC HQ]; [by rewrite (calm_table _ _ Hc)|by left|].
    by destruct s'. }
  apply wp_bind, wp_of_result; [|intros; by apply HE']. intros [] Hval. specialize (He Hval).
  apply wp_db. intros w' Hq. pose proof (calm_world_step s w' Hq) as Hcw.
  destruct (HE' _ Hcw) as [HCw HEw]. split_and!; [done..|]. intros now Hi t a Ec.
  rewrite <-Hx in Hf.
  destruct (save_row limits (table s) now upload_ttl x o Hf Hlive He Hi) as (t' & a' & Ec' & Hcase).
  rewrite Ec' in Ec. injection Ec as -> ->. cbv zeta. rewrite Hx in Hcase.
  destruct Hcase as [[Ha Hfo]|[[Ha1 Ha2] (o' & Hfo & Hst)]].
  - destruct (HE _ t o Hcw Hfo) as [HC HQ]; [by left|]. split_and!; [done| |done]. by apply HN.
  - destruct (HE _ t o' Hcw Hfo) as [HC HQ]; [by right|]. split_and!; [done| |done]. by eapply HO.
Qed.

(** The session built from the context and the row is a valid one. *)
Lemma saves_encodable c offset state i o ex x :
  own_context c -> (forall r, o = Some r -> UploadStore.encodable r) -> (0 <= offset)%Z ->
  (forall f, i = Some f -> is_u64 (id_device f) /\ is_u64 (id_inode f)) ->
  saves o offset state i x -> (rc_target_revision_bound c = false -> ex = o) ->
  target_revision x = (if rc_target_revision_bound c then rc_target_revision c else ex ≫= target_revision) ->
  session_validate x = Ok tt -> UploadStore.encodable x.
Proof.
  intros (_ & _ & _ & Hv) Henc Hoff Hid [Hk Hl Ho Hs Hi] Hex Hrev Hval. split.
  - done.
  - rewrite Hk. apply gh_key.
  - rewrite Hl, Ho. split; [apply gh_length|done].
  - intros f. rewrite Hi. destruct i as [f'|]; [intros [= ->]; by apply Hid|].
    destruct o as [r|]; [|done]. by apply UploadStore.en_identity, Henc.
  - intros v. rewrite Hrev. destruct (rc_target_revision_bound c) eqn:Eb.
    + intros Ev. unfold blob_length. by rewrite (Hv eq_refl v Ev).
    + rewrite Hex by done. destruct o as [r|]; [|done]. by apply UploadStore.en_revision, Henc.
Qed.

Lemma wp_persist_state C c offset state i (Q : result Error unit -> St -> Prop) s o :
  own_context c -> found limits (table s) k o -> live o -> (0 <= offset)%Z ->
  (forall f, i = Some f -> is_u64 (id_device f) /\ is_u64 (id_inode f)) ->
  (forall s' t' o', calm s s' -> found limits t' k o' ->
     o' = o \/ (exists x, saves o offset state i x /\ stored o x o') ->
     C (with_table t' s') /\ forall e, Q (Err e) (with_table t' s')) ->
  (forall s' t' o' x, calm s s' -> found limits t' k o' -> saves o offset state i x -> stored o x o' ->
     Q (Ok tt) (with_table t' s')) ->
  wp C (persist_state c offset state i) Q s.
Proof.
  intros Hctx Hf Hlive Hoff Hid HE HO. pose proof Hctx as (Ho & Hu & Hl & _).
  unfold persist_state. rewrite Ho, Hu, Hl.
  assert (forall s', calm s s' -> C s' /\ forall e, Q (Err e) s') as HE'.
  { intros s' Hc. destruct (HE s' (table s') o Hc) as [HC HQ]; [by rewrite (calm_table _ _ Hc)|by left|].
    by destruct s'. }
  cbv zeta. apply wp_bind. apply (wp_calm (calm s));
    [apply Calm_validated_relative_paths|intros ? ? ? ?; by etrans|done|intros; by apply HE'|].
  intros [[tr sr]|e] s1 Hc1 _; [|by apply HE']. apply wp_bind.
  apply (wp_mono _ _ (fun r s2 => calm s s2 /\ match r with
    | Ok ex => (i = None -> ex = o) /\ (rc_target_revision_bound c = false -> ex = o)
    | Err _ => True end)).
  { destruct (bool_decide (i = None) || negb (rc_target_revision_bound c)) eqn:Eb.
    - apply (wp_upload_session _ _ _ _ o); [rewrite (calm_table _ _ Hc1); apply Hf|].
      intros s2 Hc2 _. assert (calm s s2) as Hc by by etrans. by destruct (HE' s2 Hc).
    - apply wp_ret. apply orb_false_iff in Eb as [E1 E2]. apply bool_decide_eq_false in E1.
      apply negb_false_iff in E2. split; [done|]. split; congruence. }
  intros [ex|e] s2 [Hc2 Hex]; [|by apply HE']. destruct Hex as [Hex1 Hex2]. apply wp_bind.
  match goal with |- wp _ (save_upload_session ?y) _ _ => set (x := y) end.
  assert (saves o offset state i x) as Hx.
  { split; try done. cbn. destruct i; [done|]. by rewrite Hex1. }
  apply (wp_save _ _ _ _ o); try done.
  - by rewrite (calm_table _ _ Hc2).
  - eapply saves_encodable; try done. intros r ->. by apply (load_encodable _ _ _ (proj2 Hf)).
  - intros s' t' o' Hc Hfo Hcase. apply (HE s' t' o'); [by etrans|done|]. naive_solver.
  - intros s' t' a Hc Hfo Ha. destruct (HE s' t' o) as [_ HQ]; [by etrans|done|by left|].
    destruct Ha as [-> | ->]; apply wp_throw, HQ.
  - intros s' t' o' a Hc Hfo Hst Ha1 Ha2.
    assert (Q (Ok tt) (with_table t' s')) as Hok by (eapply HO; [by etrans|done..]).
    by destruct a; (apply wp_ret || done).
Qed.

(** ** Recording what a stage holds *)

(** A stage that may be recorded: its bytes are the base and a part of the body, and
    if there was a promise before, the row is still that far and the stage, once long
    enough, has the promised bytes. *)
Record Recordable (f : File) (d : bytes) (s : St) : Prop := {
  rb_state : exists o a, State o a d s /\ request base d (se_upload_length u) a0 [] a /\ live o /\
    forall held, a0 = Holds held -> exists old, o = Some old /\ (Z.of_nat (length held) <= durable_offset old)%Z;
  rb_own : own (file_id f);
  rb_content : content (world s) (file_id f) `prefix_of` base ++ d;
  rb_old : forall held, a0 = Holds held -> length held <= length (content (world s) (file_id f)) ->
    held `prefix_of` content (world s) (file_id f) }.

Definition recorded (state : StoredUploadState) (e : bytes) : promise :=
  match state with CommitStarted => Undecided | _ => Holds e end.

(** The row that a successful record leaves. *)
Record Recorded (f : File) (state : StoredUploadState) (e d : bytes) (s : St) : Prop := {
  rd_row : exists r, State (Some r) (recorded state e) d s /\ up_state r = state /\
    stage_identity r = Some (file_id f) /\ durable_offset r = Z.of_nat (length e);
  rd_content : content (world s) (file_id f) `prefix_of` base ++ d;
  rd_durable : durable (world s) (file_id f) = content (world s) (file_id f);
  rd_prefix : e `prefix_of` content (world s) (file_id f);
  rd_old : forall held, a0 = Holds held -> held `prefix_of` e }.

Definition recording (state : StoredUploadState) : Prop :=
  state = Running \/ state = AwaitingConfirmation \/ state = CommitStarted.

Lemma Recordable_Safe f d s : Recordable f d s -> Safe s.
Proof. intros [(o & a & Hs & Hr & _) _ _ _]. by exists o, a, d. Qed.

Lemma Recorded_Safe `{!Active} f state e d s : recording state -> Recorded f state e d s -> Safe s.
Proof.
  intros Hst [(r & Hs & _) Hc _ Hp Ho]. exists (Some r), (recorded state e), d. split; [done|].
  destruct Hst as [-> |[-> | ->]]; cbn; constructor; try done; try apply is_active; by etrans.
Qed.

Lemma Recordable_touch f d s s' :
  Recordable f d s -> touch f s s' ->
  content (world s') (file_id f) = content (world s) (file_id f) -> Recordable f d s'.
Proof.
  intros [(o & a & Hs & Hr) Ho Hc Hold] Ht Ec. split; rewrite ?Ec; try done.
  exists o, a. split; [|done].
  pose proof (State_file_op _ _ _ _ _ _ Hs Ho (to_file _ _ _ Ht)) as Hs'.
  destruct Hs'. split; try done. by rewrite (to_table _ _ _ Ht).
Qed.

Lemma Safe_touch f s s' : Safe s -> own (file_id f) -> touch f s s' -> Safe s'.
Proof.
  intros (o & a & d & Hs & Hr) Ho Ht. exists o, a, d. split; [|done].
  pose proof (State_file_op _ _ _ _ _ _ Hs Ho (to_file _ _ _ Ht)) as Hs'.
  destruct Hs'. split; try done. by rewrite (to_table _ _ _ Ht).
Qed.

Lemma stored_Recorded f d s n state t' s' o a x o' :
  recording state -> State o a d s -> own (file_id f) ->
  content (world s) (file_id f) `prefix_of` base ++ d ->
  durable (world s) (file_id f) = content (world s) (file_id f) ->
  (0 <= n <= Z.of_nat (length (content (world s) (file_id f))))%Z ->
  (forall held, a0 = Holds held -> length held <= length (content (world s) (file_id f)) ->
    held `prefix_of` content (world s) (file_id f)) ->
  (forall held, a0 = Holds held -> exists old, o = Some old /\ (Z.of_nat (length held) <= durable_offset old)%Z) ->
  calm s s' -> found limits t' k o' -> saves o n state (Some (file_id f)) x -> stored o x o' ->
  Recorded f state (take (Z.to_nat n) (content (world s) (file_id f))) d (with_table t' s').
Proof.
  intros Hst Hs Hown Hc Hd Hn Hold Hprom Hcalm Hfo [_ _ Hoff Hstate Hid] Hsto.
  destruct (stored_row _ _ _ Hsto) as (r & -> & Hr1 & Hr2 & Hr3 & Hr4).
  pose proof (q_files _ _ (calm_world _ _ Hcalm) (file_id f)) as Hsf.
  pose proof (sf_content _ _ _ Hsf) as Ec.
  assert (durable (world s') (file_id f) = content (world s') (file_id f)) as Ed'.
  { apply (anti_symm prefix); [apply durable_content|]. rewrite Ec, <-Hd. apply Hsf. }
  set (e := take _ _). assert (e `prefix_of` content (world s) (file_id f)) as He by apply prefix_take.
  assert (durable_offset r = Z.of_nat (length e)) as Hlen.
  { rewrite Hr2, Hoff. unfold e. rewrite length_take. lia. }
  split; cbn.
  - exists r. split; [|rewrite Hr1, Hr3; split_and!; congruence].
    pose proof (State_calm _ _ _ _ _ Hs Hcalm) as [_ _ _ Hf Hp Hdel]. split; cbn; try done.
    + rewrite Hr1, Hstate. destruct Hst as [-> |[-> | ->]]; cbn; try done;
        exists e, (file_id f); split_and!; try congruence; left; by rewrite Ed', Ec.
    + intros r' i [= <-]. rewrite Hr3, Hid. intros [= <-]. done.
  - by rewrite Ec.
  - done.
  - by rewrite Ec.
  - intros held Hh. destruct (Hprom held Hh) as (old & -> & Hle).
    specialize (Hr4 old eq_refl). apply prefix_take_le; [apply Hold|]; lia || done.
Qed.

Lemma wp_persist_known `{!Active} (C : St -> Prop) f c n state (Q : result Error unit -> St -> Prop) s d :
  recording state -> own_context c -> Recordable f d s ->
  durable (world s) (file_id f) = content (world s) (file_id f) ->
  (0 <= n <= Z.of_nat (length (content (world s) (file_id f))))%Z ->
  (forall s', Safe s' -> C s') ->
  (forall e s', Safe s' -> h_state (response s') = h_state (response s) -> Q (Err e) s') ->
  (forall s', Recorded f state (take (Z.to_nat n) (content (world s) (file_id f))) d s' ->
     content (world s') (file_id f) = content (world s) (file_id f) ->
     cursor (world s') f = cursor (world s) f ->
     h_state (response s') = h_state (response s) -> Q (Ok tt) s') ->
  wp C (persist_state c n state (Some (file_id f))) Q s.
Proof.
  intros Hst Hctx Hrb Hd Hn HC HE HO.
  destruct Hrb as [(o & a & Hs & Hreq & Hlive & Hprom) Hown Hc Hold].
  assert (forall s' t' o' x, calm s s' -> found limits t' k o' ->
    saves o n state (Some (file_id f)) x -> stored o x o' ->
    Recorded f state (take (Z.to_nat n) (content (world s) (file_id f))) d (with_table t' s')) as Hrec.
  { intros. by eapply stored_Recorded. }
  apply (wp_persist_state _ _ _ _ _ _ _ o); try done; [apply Hs|lia| | |].
  - intros g [= <-]. apply law_file_id.
  - intros s' t' o' Hcalm Hfo Hcase.
    assert (Safe (with_table t' s')) as Hsafe.
    { destruct Hcase as [->|(x & Hx & Hsto)]; [|by eapply Recorded_Safe, Hrec].
      exists o, a, d. split; [|done]. pose proof (State_calm _ _ _ _ _ Hs Hcalm) as []. by split. }
    split; [by apply HC|]. intros e. apply HE; [done|]. apply Hcalm.
  - intros s' t' o' x Hcalm Hfo Hx Hsto. apply HO; [by eapply Hrec|..].
    + apply (q_files _ _ (calm_world _ _ Hcalm) (file_id f)).
    + apply (calm_world _ _ Hcalm).
    + apply Hcalm.
Qed.

Lemma wp_persist_synced `{!Active} (C : St -> Prop) f c n state (sync_dir : bool) path (Q : result Error unit -> St -> Prop) s d :
  recording state -> own_context c -> Recordable f d s -> (0 <= n)%Z ->
  (forall s', Safe s' -> C s') ->
  (forall e s', Safe s' -> h_state (response s') = h_state (response s) -> Q (Err e) s') ->
  (forall s', Recorded f state (take (Z.to_nat n) (content (world s) (file_id f))) d s' ->
     (n <= Z.of_nat (length (content (world s) (file_id f))))%Z ->
     content (world s') (file_id f) = content (world s) (file_id f) ->
     cursor (world s') f = cursor (world s) f ->
     h_state (response s') = h_state (response s) -> Q (Ok tt) s') ->
  wp C (known ← sync_and_identify_stage f path n;
        _ ← (if sync_dir then io (sync_parent path) else mret tt);
        persist_state c n state (Some known)) Q s.
Proof.
  intros Hst Hctx Hrb Hn HC HE HO. pose proof (rb_own _ _ _ Hrb) as Hown.
  assert (forall s', touch f s s' -> Safe s') as Hts.
  { intros. eapply Safe_touch; [by eapply Recordable_Safe|done..]. }
  apply wp_bind, wp_sync_and_identify.
  { intros s' Ht. split; [by apply HC, Hts|]. intros. apply HE; [by apply Hts|apply Ht]. }
  intros s1 Ht1 Ec1 Ed1 Hle. apply wp_bind. apply (wp_calm (calm s1)).
  - calm.
  - intros ? ? ? ?. by etrans.
  - done.
  - intros s' Hc. apply HC, Hts. etrans; [done|by apply calm_touch].
  - intros r s2 Hc2 _. assert (touch f s s2) as Ht2 by (etrans; [done|by apply calm_touch]).
    destruct r as [[]|e]; [|apply HE; [by apply Hts|apply Ht2]].
    pose proof (q_files _ _ (calm_world _ _ Hc2) (file_id f)) as Hsf.
    assert (content (world s2) (file_id f) = content (world s) (file_id f)) as Ec2
      by (rewrite (sf_content _ _ _ Hsf); congruence).
    apply (wp_persist_known _ _ _ _ _ _ _ d); try done.
    + by eapply Recordable_touch.
    + apply (anti_symm prefix); [apply durable_content|]. rewrite Ec2, <-Ed1. apply Hsf.
    + by rewrite Ec2.
    + intros e s' Hs' Hh. apply HE; [done|]. rewrite Hh. apply Ht2.
    + rewrite Ec2. intros s' Hr Hc Hcur Hh. apply HO; try done.
      * rewrite Hcur. apply Ht2.
      * rewrite Hh. apply Ht2.
Qed.

(** The resumable checkpoint. *)
Lemma wp_persist_checkpoint `{!Active} (C : St -> Prop) f c n sync_dir (Q : result Error unit -> St -> Prop) s d :
  own_context c -> Recordable f d s -> (0 <= n)%Z ->
  (forall s', Safe s' -> C s') ->
  (forall e s', Safe s' -> h_state (response s') = h_state (response s) -> Q (Err e) s') ->
  (forall s', Recorded f Running (take (Z.to_nat n) (content (world s) (file_id f))) d s' ->
     (n <= Z.of_nat (length (content (world s) (file_id f))))%Z ->
     content (world s') (file_id f) = content (world s) (file_id f) ->
     cursor (world s') f = cursor (world s) f ->
     h_state (response s') = h_state (response s) -> Q (Ok tt) s') ->
  wp C (persist_checkpoint_inner f c n sync_dir) Q s.
Proof.
  intros Hctx Hrb Hn HC HE HO. unfold persist_checkpoint_inner. apply wp_bind, wp_ensure; intros _.
  - apply (wp_persist_synced _ _ _ _ _ _ _ _ _ d); try done. by left.
  - apply HE; [by eapply Recordable_Safe|done].
Qed.

End request.
End UploadSafety.
