(* ===== verification/UploadEndings.v ===== *)
(** * Receiving, and ending without publication

    Proofs about [src/server/upload/transfer.rs] and
    [src/server/upload/failure.rs]: while a body is received the stage holds the
    base and a prefix of the body in order, and every way to end an upload before
    publication keeps the relation of [UploadSafety] and answers what is true. *)

From S2P Require Import Prelude Paths Sql StateModel UploadStore RootedPaths Problem UploadProtocol UploadWorld.
From S2P Require Import UploadRecord UploadFailure UploadCommit UploadTransfer UploadLaws UploadSafety.

Module UploadEndings.
Import UploadProtocol UploadRecord UploadFailure UploadCommit UploadTransfer UploadSafety.

Section endings.
Context `{L : UploadLaws} {G : Ghost}.
Context {Hactive : Active}.

Abbreviation u := gh_upload.
Abbreviation base := gh_base.
Abbreviation k := (upload_session_key (se_owner_id u) (se_upload_id u)).
Abbreviation silent s s' := (h_state (response s') = h_state (response s)).

(** ** What a response says *)

Definition row_in (s : St) (state : StoredUploadState) (r : StoredUploadSession) : Prop :=
  UploadStore.load_upload_session (table s) k = Ok (Some r) /\ up_state r = state.

(** A response that reports a state that lasts reports the one in the table, and a
    resumable one with the offset recorded there. *)
Definition told (s : St) : Prop :=
  match h_state (response s) with
  | Some PsRunning =>
      exists r, row_in s Running r /\ h_offset (response s) = Some (durable_offset r)
  | Some PsAwaitingConfirmation =>
      exists r, row_in s AwaitingConfirmation r /\ h_offset (response s) = Some (durable_offset r)
  | Some PsCommitted => exists r, row_in s Committed r
  | _ => True
  end.

Definition Ended {A} (r : result Error A) (s : St) : Prop := Safe s /\ (is_ok r = true -> told s).

Lemma Safe_view s s' : world s' = world s -> table s' = table s -> Safe s -> Safe s'.
Proof.
  intros Hw Ht (o & a & d & [] & Hr). exists o, a, d. split; [|done]. split; rewrite ?Hw, ?Ht; done.
Qed.

Lemma Ended_Safe {A} (r : result Error A) s : Ended r s -> Safe s.
Proof. by intros []. Qed.

Lemma Ended_Err {A} e s : Safe s -> Ended (Err e : result Error A) s.
Proof. by split. Qed.

Definition plain (state : UploadPublicState) : bool :=
  match state with PsRunning | PsAwaitingConfirmation | PsCommitted => false | _ => true end.

Lemma wp_problem (C : St -> Prop) context status code detail recovery (Q : result Error unit -> St -> Prop) s :
  (forall s', world s' = world s -> table s' = table s ->
     h_state (response s') = Some (ec_state context) ->
     h_offset (response s') = match ec_upload_offset context with
                              | Some n => Some n | None => h_offset (response s) end -> Q (Ok tt) s') ->
  wp C (apply_upload_problem context status code detail recovery) Q s.
Proof. intros HQ. apply wp_bind, wp_respond, wp_respond, HQ; done. Qed.

(** A response that promises nothing. *)
Lemma wp_plain (C : St -> Prop) context status code detail recovery (Q : result Error unit -> St -> Prop) s :
  plain (ec_state context) = true -> Safe s -> (forall s', Ended (Ok tt) s' -> Q (Ok tt) s') ->
  wp C (apply_upload_problem context status code detail recovery) Q s.
Proof.
  intros Hp Hs HQ. apply wp_problem. intros s' Hw Ht Hh _. apply HQ. split; [by eapply Safe_view|].
  intros _. unfold told. rewrite Hh. by destruct (ec_state context).
Qed.

Lemma wp_unknown (C : St -> Prop) i message (Q : result Error unit -> St -> Prop) s :
  Safe s -> (forall s', Ended (Ok tt) s' -> Q (Ok tt) s') -> wp C (apply_upload_unknown i message) Q s.
Proof. intros Hs HQ. by apply wp_plain. Qed.

(** ** Receiving *)

(** A recorded stage being written: its row promises the base, the stage has it
    durably and holds nothing but the base and the body. *)
Record Recv (f : File) (state : StoredUploadState) (d : bytes) (s : St) : Prop := {
  rv_row : exists r, found limits (table s) k (Some r) /\ up_state r = state /\
    durable_offset r = Z.of_nat (length base) /\ stage_identity r = Some (file_id f);
  rv_state : state = Running \/ state = AwaitingConfirmation;
  rv_own : gh_own (file_id f);
  rv_base : base `prefix_of` durable (world s) (file_id f);
  rv_content : content (world s) (file_id f) `prefix_of` base ++ d;
  rv_frame : forall i, ~ gh_own i -> same_file (world gh_start) (world s) i;
  rv_published : published (world s) = published (world gh_start);
  rv_delivered : delivered (world s) = delivered (world gh_start) ++ d;
  rv_old : forall held, gh_promise = Holds held -> held = base }.

Lemma Recv_State f state d s : Recv f state d s ->
  exists r, State (Some r) (Holds base) d s /\ up_state r = state /\ row_in s state r /\
    durable_offset r = Z.of_nat (length base).
Proof.
  intros [(r & Hf & Hst & Hn & Hi) Hr Ho Hb Hc Hfr Hp Hd Hold]. exists r. split_and!; [|done..|by split; [apply Hf|]|done].
  split; try done.
  - cbn. rewrite Hst. destruct Hr as [-> | ->]; exists base, (file_id f); split_and!; try done; by left.
  - intros r' i [= <-]. rewrite Hi. intros [= <-]. done.
Qed.

Lemma Recv_Recordable f state d s : Recv f state d s -> Recordable f d s.
Proof.
  intros Hr. destruct (Recv_State _ _ _ _ Hr) as (r & Hs & Hst & _ & Hn). split; try apply Hr.
  - exists (Some r), (Holds base). split; [done|]. split_and!.
    + constructor; [apply is_active|by apply prefix_app_r|].
      intros held Hh. by rewrite (rv_old _ _ _ _ Hr held Hh).
    + intros r' [= <-]. rewrite Hst. by destruct (rv_state _ _ _ _ Hr) as [-> | ->].
    + intros held Hh. exists r. rewrite (rv_old _ _ _ _ Hr held Hh). split; [done|]. lia.
  - intros held Hh _. rewrite (rv_old _ _ _ _ Hr held Hh). etrans; [apply Hr|apply durable_content].
Qed.

Lemma Recv_Safe f state d s : Recv f state d s -> Safe s.
Proof. intros. by eapply Recordable_Safe, Recv_Recordable. Qed.

(** The world moves on. *)
Lemma Recv_world f state d e s s' :
  Recv f state d s -> table s' = table s ->
  (forall i, i <> file_id f -> same_file (world s) (world s') i) ->
  published (world s') = published (world s) -> delivered (world s') = delivered (world s) ++ e ->
  base `prefix_of` durable (world s') (file_id f) ->
  content (world s') (file_id f) `prefix_of` base ++ d ++ e -> Recv f state (d ++ e) s'.
Proof.
  intros [] Ht Hf Hp Hd Hb Hc. split; try done.
  - by rewrite Ht.
  - intros i Hi. eapply same_file_trans; [by apply rv_frame0|]. apply Hf. by intros ->.
  - congruence.
  - by rewrite Hd, rv_delivered0, app_assoc.
Qed.

Lemma Recv_touch f state d s s' : Recv f state d s -> touch f s s' -> Recv f state d s'.
Proof.
  intros Hr [[[Hf Hp Hd] Hc Hv Hdu] _ Ht _]. rewrite app_nil_r in Hc. rewrite <-(app_nil_r d).
  eapply Recv_world; rewrite ?app_nil_r; try done.
  - etrans; [apply Hr|done].
  - etrans; [done|apply Hr].
Qed.

Lemma Recv_calm f state d : Stable (Recv f state d).
Proof. intros s s' Hr Hc. eapply Recv_touch; [done|]. by apply calm_touch. Qed.

(** Cutting the stage back to its base loses no promise. *)
Lemma Recv_cut f state d s w' :
  Recv f state d s -> cut_op f (length base) (world s) w' -> Recv f state d (with_world w' s).
Proof.
  intros Hr [[Hf Hp Hd] Hc Hv Hdu]. rewrite <-(app_nil_r d).
  eapply Recv_world; rewrite ?app_nil_r; try done.
  - etrans; [|done]. apply prefix_take_le; [apply Hr|done].
  - etrans; [done|apply Hr].
Qed.

Lemma wp_cut (C : St -> Prop) f (Q : result Error (result IoError unit) -> St -> Prop) s state d :
  Recv f state d s -> (forall s', Safe s' -> C s') ->
  (forall r s', Recv f state d s' -> silent s s' ->
     (r = Ok tt -> content (world s') (file_id f) = base /\ cursor (world s') f = cursor (world s) f) ->
     Q (Ok r) s') ->
  wp C (call (file_set_len f (Z.of_nat (length base)))) Q s.
Proof.
  intros Hr HC HQ. apply wp_call. intros o w' E.
  assert (base `prefix_of` content (world s) (file_id f)) as Hbc
    by (etrans; [apply Hr|apply durable_content]).
  pose proof (law_set_len f (Z.of_nat (length base)) (world s)) as Hl. rewrite E, Nat2Z.id in Hl.
  destruct Hl as (Hcut & Hcur & Hok).
  { split; [lia|]. apply inj_le. apply prefix_length. etrans; [apply Hr|]. apply law_order. }
  pose proof (Recv_cut _ _ _ _ _ Hr Hcut) as Hr'.
  destruct o as [[[]|e]|].
  - apply HQ; [done..|]. intros _. split; [|done]. cbn. rewrite Hok by done.
    destruct Hbc as [rest ->]. by rewrite take_app_length.
  - by apply HQ.
  - apply HC. by eapply Recv_Safe.
Qed.

(** The stage holds everything received so far and the next byte goes to its end. *)
Record Exact (f : File) (state : StoredUploadState) (d : bytes) (s : St) : Prop := {
  ex_recv : Recv f state d s;
  ex_content : content (world s) (file_id f) = base ++ d;
  ex_cursor : cursor (world s) f = Z.of_nat (length (base ++ d)) }.

Lemma Exact_calm f state d : Stable (Exact f state d).
Proof.
  intros s s' [Hr Hc Hcur] Hcalm. split; [by eapply Recv_calm|..].
  - by rewrite (sf_content _ _ _ (q_files _ _ (calm_world _ _ Hcalm) (file_id f))).
  - by rewrite (q_cursor _ _ (calm_world _ _ Hcalm)).
Qed.

(** The chunk has arrived; part of it may have been written. *)
Record Arrived (f : File) (state : StoredUploadState) (d chunk : bytes) (s : St) : Prop := {
  ar_recv : Recv f state (d ++ chunk) s;
  ar_content : content (world s) (file_id f) = base ++ d;
  ar_cursor : cursor (world s) f = Z.of_nat (length (base ++ d)) }.

Lemma Arrived_calm f state d chunk : Stable (Arrived f state d chunk).
Proof.
  intros s s' [Hr Hc Hcur] Hcalm. split; [by eapply Recv_calm|..].
  - by rewrite (sf_content _ _ _ (q_files _ _ (calm_world _ _ Hcalm) (file_id f))).
  - by rewrite (q_cursor _ _ (calm_world _ _ Hcalm)).
Qed.

Lemma wp_next_frame (C : St -> Prop) f state d deadline (Q : result Error Frame -> St -> Prop) s :
  Exact f state d s -> (forall s', Safe s' -> C s') ->
  (forall chunk s', silent s s' -> Arrived f state d chunk s' -> Q (Ok (Chunk chunk)) s') ->
  (forall frame s', silent s s' -> Exact f state d s' -> (forall chunk, frame <> Chunk chunk) ->
     Q (Ok frame) s') ->
  wp C (next_frame_op deadline) Q s.
Proof.
  intros [Hr Hc Hcur] HC HA HO. unfold wp, next_frame_op.
  pose proof (law_frame deadline (world s)) as Hl.
  destruct (next_frame deadline (world s)) as [o w']. destruct Hl as (Hf & Hcur' & Hp & Hd).
  assert (forall e, delivered w' = delivered (world s) ++ e -> Recv f state (d ++ e) (with_world w' s)) as Hr'.
  { intros e He. destruct (Hf (file_id f)) as [Ec _ Edu]. eapply Recv_world; try done.
    - etrans; [apply Hr|done].
    - rewrite app_assoc. cbn. rewrite Ec. apply prefix_app_r, Hr. }
  destruct (Hf (file_id f)) as [Ec _ _].
  assert (delivered w' = delivered (world s) -> Exact f state d (with_world w' s)) as Hex.
  { intros Hsame. split; cbn; [|congruence..]. rewrite <-(app_nil_r d). apply Hr'. by rewrite app_nil_r. }
  destruct o as [[chunk| | | |]|].
  - apply HA; [done|]. split; cbn; [by apply Hr'|congruence..].
  - apply HO; [done|by apply Hex|done].
  - apply HO; [done|by apply Hex|done].
  - apply HO; [done|by apply Hex|done].
  - apply HO; [done|by apply Hex|done].
  - destruct Hd as [e Hd]. apply HC. by eapply Recv_Safe, Hr'.
Qed.

Lemma wp_consume (C : St -> Prop) lease n (Q : result Error SpaceLease -> St -> Prop) s :
  Q (Ok {| lease_token := lease_token lease;
           lease_remaining := lease_remaining lease - Z.min n (lease_remaining lease) |})
    (with_world (consume (lease_token lease) n (world s)) s) ->
  wp C (consume_lease lease n) Q s.
Proof. done. Qed.

(** One chunk: its accepted part is appended, or only a part of that is. *)
Lemma wp_write_chunk (C : St -> Prop) f state d chunk n lease until
    (Q : result Error (result UploadTransferError (SpaceLease * Z)) -> St -> Prop) s :
  Arrived f state d chunk s -> (forall s', Safe s' -> C s') ->
  (forall e s', silent s s' -> Recv f state (d ++ chunk) s' -> Q (Ok (Err e)) s') ->
  (forall p s', silent s s' -> Recv f state (d ++ chunk) s' ->
     content (world s') (file_id f) = base ++ d ++ take n chunk ->
     cursor (world s') f = Z.of_nat (length (base ++ d ++ take n chunk)) -> Q (Ok (Ok p)) s') ->
  wp C (write_upload_chunk lease f (take n chunk) until) Q s.
Proof.
  intros Ha HC HE HO. unfold write_upload_chunk.
  destruct (bool_decide _) eqn:Eb.
  { apply bool_decide_eq_true in Eb. apply wp_ret. rewrite Eb, app_nil_r in HO.
    apply HO; [done|apply Ha..]. }
  destruct (_ <? _)%Z; [apply wp_ret, HE; [done|apply Ha]|].
  assert (forall s', silent s s' -> Arrived f state d chunk s' -> forall until,
    wp C (written ← call (file_write_all f (take n chunk));
          match written with
          | Err e => mret (Err (TIo e))
          | Ok _ => lease ← consume_lease lease (Z.of_nat (length (take n chunk)));
                    mret (Ok (lease, u64_saturating_sub until (Z.of_nat (length (take n chunk)))))
          end) Q s') as Hwrite.
  { intros s' Hsil Ha' until'. destruct Ha' as [Hr Hc Hcur]. apply wp_bind, wp_call. intros o w' E.
    pose proof (law_write f (take n chunk) (world s')) as Hl. rewrite E, Hc in Hl.
    destruct (Hl Hcur) as [[[Hf Hp Hd] Hcont Hv Hdu] Hok].
    assert (Recv f state (d ++ chunk) (with_world w' s')) as Hr'.
    { rewrite <-(app_nil_r (d ++ chunk)). eapply Recv_world; rewrite ?app_nil_r; try done.
      - etrans; [apply Hr|done].
      - cbn. etrans; [done|]. rewrite Hc, <-app_assoc. do 2 apply prefix_app. apply prefix_take. }
    destruct o as [[[]|e]|].
    - destruct (Hok eq_refl) as [Ec' Ecur']. rewrite <-app_assoc in Ec'. rewrite Ec' in Ecur'.
      apply wp_bind, wp_consume, wp_ret.
      pose proof (law_consume (lease_token lease) (Z.of_nat (length (take n chunk))) w') as Hq.
      pose proof (calm_world_step (with_world w' s') _ Hq) as Hcalm.
      apply HO; [done|by eapply Recv_calm|cbn..].
      + by rewrite (sf_content _ _ _ (q_files _ _ Hq (file_id f))).
      + by rewrite (q_cursor _ _ Hq).
    - by apply wp_ret, HE.
    - by eapply HC, Recv_Safe. }
  apply wp_bind. destruct (_ <=? _)%Z; [|by apply wp_ret, Hwrite].
  apply wp_bind. apply (wp_call_quiet (Arrived f state d chunk)); [calm|apply Arrived_calm|done|..].
  { intros s' Hs'. by eapply HC, Recv_Safe, ar_recv. }
  intros r s1 Hs1 Hc1. apply wp_ret. pose proof (calm_told _ _ Hc1) as Hsil.
  destruct r as [[]|e]; [by apply Hwrite| |]; apply wp_ret, HE; (done || apply Hs1).
Qed.

(** What a chunk leaves when all that was expected of it is written. *)
Record Accepted (f : File) (state : StoredUploadState) (d chunk : bytes) (n : nat) (s : St) : Prop := {
  ac_recv : Recv f state (d ++ chunk) s;
  ac_content : content (world s) (file_id f) = base ++ d ++ take n chunk;
  ac_cursor : cursor (world s) f = Z.of_nat (length (base ++ d ++ take n chunk)) }.

Lemma Accepted_calm f state d chunk n : Stable (Accepted f state d chunk n).
Proof.
  intros s s' [Hr Hc Hcur] Hcalm. split; [by eapply Recv_calm|..].
  - by rewrite (sf_content _ _ _ (q_files _ _ (calm_world _ _ Hcalm) (file_id f))).
  - by rewrite (q_cursor _ _ (calm_world _ _ Hcalm)).
Qed.

Lemma wp_accept_chunk f state d chunk total lease remaining idle until s :
  Arrived f state d chunk s ->
  wp Safe (accept_chunk f total lease remaining idle until chunk) (fun r s' => silent s s' /\ match r with
    | Ok (Ok _) => Accepted f state d chunk (Z.to_nat (Z.min remaining (Z.of_nat (length chunk)))) s'
    | Ok (Err _) => Recv f state (d ++ chunk) s'
    | Err _ => False
    end) s.
Proof.
  intros Ha. unfold accept_chunk. cbv zeta. set (n := Z.min _ _). destruct (0 <? n)%Z eqn:En.
  2:{ apply wp_ret. split; [done|]. apply Z.ltb_ge in En. assert (Z.to_nat n = 0) as -> by lia.
      split; rewrite ?take_0, ?app_nil_r; apply Ha. }
  apply wp_bind, (wp_write_chunk _ f state d); [done..| |].
  { intros e s' Hsil Hr. apply wp_ret. split; [congruence|done]. }
  intros [lease' until'] s' Hsil Hr Hc Hcur.
  assert (Accepted f state d chunk (Z.to_nat n) s') as Hacc by by split.
  apply wp_bind. apply (wp_now (Accepted f state d chunk (Z.to_nat n))); [apply Accepted_calm|done|].
  intros t s2 Hs2 Hc2. destruct (instant_checked_add _ _) as [idle'|].
  2:{ apply wp_ret. split; [rewrite (calm_told _ _ Hc2); congruence|apply Hs2]. }
  apply wp_bind. apply (wp_now (Accepted f state d chunk (Z.to_nat n))); [apply Accepted_calm|done|].
  intros t' s3 Hs3 Hc3.
  assert (silent s s3) as Hsil3 by (rewrite (calm_told _ _ Hc3), (calm_told _ _ Hc2); congruence).
  destruct (_ <=? _)%Z; apply wp_ret; (split; [done|]); [apply Hs3|done].
Qed.

(** The loop: if it ends with the body, the stage is the base and the whole body. *)
Lemma wp_receive_loop (C : St -> Prop) f state total (Q : result Error (result UploadTransferError SpaceLease) -> St -> Prop) h :
  (forall s', Safe s' -> C s') ->
  (forall e s' d, Recv f state d s' -> h_state (response s') = h -> Q (Ok (Err e)) s') ->
  (forall lease s' d, Exact f state d s' -> h_state (response s') = h -> Q (Ok (Ok lease)) s') ->
  forall fuel lease remaining idle until d s,
  Exact f state d s -> h_state (response s) = h ->
  wp C (receive_loop fuel f total lease remaining idle until) Q s.
Proof.
  intros HC HE HO fuel. induction fuel as [|fuel IH]; intros lease remaining idle until d s Hs Hh.
  { by eapply HC, Recv_Safe, ex_recv. }
  cbn [receive_loop]. apply wp_bind, (wp_next_frame _ f state d); [done..| |].
  2:{ intros frame s1 Hs1 He Hn. destruct frame; [by destruct (Hn data)|..].
      - apply wp_ret. eapply HO; [done|congruence].
      - apply wp_ret. eapply HE; [apply He|congruence].
      - apply wp_bind. apply (wp_now (Exact f state d)); [apply Exact_calm|done|].
        intros t s2 He2 Hc2. apply wp_ret. eapply HE; [apply He2|]. rewrite (calm_told _ _ Hc2). congruence.
      - apply wp_ret. eapply HE; [apply He|congruence]. }
  intros chunk s1 Hs1 Ha. destruct (bool_decide (chunk = [])) eqn:Eb.
  { apply bool_decide_eq_true in Eb as ->. apply (IH _ _ _ _ d); [|congruence].
    destruct Ha as [Hr Hc Hcur]. rewrite app_nil_r in Hr. by split. }
  apply wp_bind. apply (wp_crash Safe); [|done]. eapply wp_mono; [by apply wp_accept_chunk|].
  intros [[[[[lease' until'] rest] idle']|e]|e] s2 [Hsil Hs2]; [| |done].
  2:{ apply wp_ret. eapply HE; [done|congruence]. }
  destruct Hs2 as [Hr Hc Hcur]. destruct (_ <? _)%Z eqn:El.
  { apply wp_ret. eapply HE; [done|congruence]. }
  apply (IH _ _ _ _ (d ++ chunk)); [|congruence]. apply Z.ltb_ge in El.
  rewrite take_ge in Hc, Hcur by lia. by split.
Qed.

Lemma wp_receive_body (C : St -> Prop) f state d fuel lease remaining total
    (Q : result Error (result UploadTransferError SpaceLease) -> St -> Prop) s :
  Exact f state d s -> (forall s', Safe s' -> C s') ->
  (forall e s' d, Recv f state d s' -> silent s s' -> Q (Ok (Err e)) s') ->
  (forall lease s' d, Exact f state d s' -> silent s s' -> Q (Ok (Ok lease)) s') ->
  wp C (receive_upload_body fuel f lease remaining total) Q s.
Proof.
  intros Hs HC HE HO. apply wp_bind. apply (wp_now (Exact f state d)); [apply Exact_calm|done|].
  intros t s1 Hs1 Hc1. pose proof (calm_told _ _ Hc1) as Hh. destruct (instant_checked_add _ _).
  - by eapply (wp_receive_loop _ _ _ _ _ (h_state (response s))).
  - apply wp_ret. eapply HE; [apply Hs1|done].
Qed.

(** ** Endings *)

Lemma session_own_context : own_context (session_context u).
Proof. done. Qed.
Lemma revision_own_context v :
  (forall x, v = Some x -> length x = 32) -> own_context (with_target_revision v (session_context u)).
Proof. intros Hv. split_and!; [done..|]. intros _ x Hx. by apply Hv. Qed.

(** The response names the row's state and offset. *)
Lemma wp_as_recorded f state d status code detail recovery context s :
  Recv f state d s ->
  ec_state context = match state with Running => PsRunning | _ => PsAwaitingConfirmation end ->
  ec_upload_offset context = Some (Z.of_nat (length base)) ->
  wp Safe (apply_upload_problem context status code detail recovery) Ended s.
Proof.
  intros Hr Hst Hoff. apply wp_problem. intros s' Hw Ht Hh Ho.
  split; [eapply Safe_view, Recv_Safe; done|]. intros _.
  destruct (Recv_State _ _ _ _ Hr) as (r & _ & _ & Hrow & Hn). unfold told, row_in in *. rewrite Hh, Hst, Ho, Hoff, Ht.
  destruct (rv_state _ _ _ _ Hr) as [-> | ->]; exists r; (split; [done|]); by rewrite Hn.
Qed.

Lemma wp_after_reset created (m : M unit) s :
  Safe s -> (forall s', Safe s' -> wp Safe m Ended s') ->
  wp Safe (_ ← reset_session u created; m) Ended s.
Proof.
  intros Hs Hm. apply wp_bind. apply (wp_keeps Safe); [apply Keeps_reset_session|done..|].
  intros [[]|e] s' Hs' _; [by apply Hm|by apply Ended_Err].
Qed.

(** A rollback of a fresh upload: confirmed, or the outcome is unknown. *)
Lemma wp_rolled_back created message context status code detail recovery s :
  Safe s -> plain (ec_state context) = true ->
  wp Safe (cleaned ← attempt (reset_session u created);
           if negb (is_ok cleaned) then apply_upload_unknown (se_upload_id u) message
           else apply_upload_problem context status code detail recovery) Ended s.
Proof.
  intros Hs Hp. apply wp_bind, wp_attempt. apply (wp_keeps Safe); [apply Keeps_reset_session|done..|].
  intros r s1 Hs1 _. destruct r; cbn [is_ok negb]; [by apply wp_plain|by apply wp_unknown].
Qed.

Lemma wp_space_failure f d resume created message s :
  Recv f Running d s ->
  wp Safe (finish_precommit_space_failure u f (Z.of_nat (length base)) resume created message) Ended s.
Proof.
  intros Hr. unfold finish_precommit_space_failure. destruct resume.
  2:{ apply wp_rolled_back; [by eapply Recv_Safe|done]. }
  apply wp_bind, (wp_cut _ _ _ _ Running d); [done..|]. intros r s1 Hr1 _ _. apply wp_bind.
  apply (wp_mono _ _ (fun r s' => r = Ok tt /\ Recv f Running d s')).
  - destruct (is_ok r); [|by apply wp_ret]. apply wp_bind, wp_sync. intros s2 Ht2.
    assert (Recv f Running d s2) as Hr2 by by eapply Recv_touch.
    split_and!; [by eapply Recv_Safe|by intros; apply wp_ret..].
  - intros [[]|e] s2 [E Hr2]; [|done]. by eapply wp_as_recorded.
Qed.

Lemma wp_io_failure f d resume created message s :
  Recv f Running d s ->
  wp Safe (finish_precommit_io_failure u (Z.of_nat (length base)) resume created message) Ended s.
Proof.
  intros Hr. unfold finish_precommit_io_failure. destruct resume.
  - apply wp_bind, wp_ret. by eapply wp_as_recorded.
  - apply wp_bind, wp_bind, wp_attempt. apply (wp_keeps Safe); [apply Keeps_reset_session|by eapply Recv_Safe|done|].
    intros r s1 Hs1 _. apply wp_ret. destruct r; cbn; [by apply wp_plain|by apply wp_unknown].
Qed.

Lemma Keeps_reset_if_created created : Keeps (reset_if_created u created).
Proof. destruct created; [apply Keeps_reset_session|apply Keeps_calm; calm]. Qed.

Lemma Keeps_discard_if_fresh f fresh : gh_own (file_id f) -> Keeps (discard_if_fresh u f fresh).
Proof.
  intros Ho. unfold discard_if_fresh. destruct fresh; [|apply Keeps_calm; calm].
  apply Keeps_bind; [by apply Keeps_attempt, Keeps_discard_unrecorded|]. intros. apply Keeps_calm. calm.
Qed.

Lemma Keeps_check_discard r : Keeps (check_discard r).
Proof. apply Keeps_calm. destruct r as [[]|]; calm. Qed.

(** Giving up: whatever is removed, the relation stays, and the request fails. *)
Lemma wp_giving_up {A} f fresh created e s :
  Safe s -> gh_own (file_id f) ->
  wp Safe (discarded ← discard_if_fresh u f fresh;
           _ ← reset_if_created u created;
           _ ← check_discard discarded;
           throw e : M A) (fun r s' => Safe s' /\ is_ok r = false) s.
Proof.
  intros Hs Ho. apply wp_bind. apply (wp_keeps Safe); [by apply Keeps_discard_if_fresh|done..|].
  intros [x|?] s1 Hs1 _; [|done]. apply wp_bind. apply (wp_keeps Safe); [apply Keeps_reset_if_created|done..|].
  intros [[]|?] s2 Hs2 _; [|done]. apply wp_bind. apply (wp_keeps Safe); [apply Keeps_check_discard|done..|].
  intros [[]|?] s3 Hs3 _; [|done]. by apply wp_throw.
Qed.

Lemma wp_timed_out f d resume_offset created message s :
  Recordable f d s ->
  (forall o, resume_offset = Some o -> o = Z.of_nat (length base) /\ exists state, Recv f state d s) ->
  wp Safe (finish_timed_out_upload u f message resume_offset created) Ended s.
Proof.
  intros Hrb Hro. pose proof (rb_own _ _ _ Hrb) as Hown.
  pose proof (Recordable_Safe _ _ _ Hrb) as Hs.
  unfold finish_timed_out_upload. set (fresh := bool_decide _).
  apply wp_bind, wp_flush. intros s1 Ht1. assert (Safe s1) as Hs1 by by eapply Safe_touch.
  split; [done|]. split.
  { intros e. eapply wp_mono; [by apply wp_giving_up|]. intros r s' [Hs' Hr]. split; [done|congruence]. }
  intros Ec1 Ev1. assert (Recordable f d s1) as Hrb1 by by eapply Recordable_touch.
  apply wp_bind, wp_call_metadata. intros s2 Hc2.
  assert (Safe s2) as Hs2 by by eapply Safe_calm.
  assert (content (world s2) (file_id f) = content (world s1) (file_id f)) as Ec2
    by apply (q_files _ _ (calm_world _ _ Hc2) (file_id f)).
  assert (Recordable f d s2) as Hrb2 by (eapply Recordable_touch; [done|by apply calm_touch|done]).
  split; [done|]. split.
  { intros e. apply wp_bind. apply (wp_keeps Safe); [apply Keeps_reset_if_created|done..|].
    intros [[]|?] s' Hs' _; by apply Ended_Err. }
  intros m (_ & _ & Hu). cbv zeta. apply wp_bind.
  apply (wp_mono _ _ (fun _ s' => Safe s')).
  2:{ intros [[]|e] s' Hs'; [by apply wp_unknown|by apply Ended_Err]. }
  destruct (_ && _).
  - apply wp_bind, wp_attempt.
    assert (forall sd, wp Safe (persist_checkpoint_inner f (session_context u) (md_len m) sd) (fun _ => Safe) s2) as Hp.
    { intros sd. apply (wp_persist_checkpoint _ _ _ _ _ _ _ d); try done; [by destruct Hu|].
      intros s' Hr _ _ _ _. eapply Recorded_Safe; [by left|done]. }
    assert (wp Safe ((if fresh then persist_initial_checkpoint else persist_checkpoint) f (session_context u)
      (md_len m)) (fun _ => Safe) s2) as Hp' by (destruct fresh; apply Hp).
    eapply wp_mono; [apply Hp'|]. intros r s3 Hs3. cbn beta. destruct r as [[]|e].
    + apply wp_respond. by apply (Safe_view s3).
    + eapply wp_mono; [by apply wp_giving_up|]. by intros r s' [].
  - destruct fresh eqn:Ef.
    + apply wp_bind, wp_attempt. apply (wp_keeps Safe); [by apply Keeps_discard_unrecorded|done..|].
      intros r s3 Hs3 _. cbn beta. apply wp_bind. apply (wp_keeps Safe); [apply Keeps_reset_session|done..|].
      intros [[]|?] s4 Hs4 _; [|done]. apply (wp_keeps Safe); [apply Keeps_check_discard|done..|]. done.
    + destruct resume_offset as [o|]; [|done]. destruct (Hro o eq_refl) as [-> [state Hr]].
      assert (Recv f state d s2) as Hr2.
      { eapply Recv_calm; [|done]. by eapply Recv_touch. }
      apply wp_bind, (wp_mono _ _ (fun _ s' => Safe s')).
      * destruct (_ <? _)%Z; [|by apply wp_ret].
        apply wp_bind, wp_io_call, (wp_cut _ _ _ _ state d); [done..|].
        intros [[]|e] s3 Hr3 _ _; [|by eapply Recv_Safe].
        apply wp_io_call, wp_sync. intros s4 Ht4.
        assert (Safe s4) by (by eapply Recv_Safe, Recv_touch). done.
      * intros [[]|e] s3 Hs3; [|done]. apply wp_respond. by apply (Safe_view s3).
Qed.

(** ** Failed transfers *)

(** A transaction of this request: its mode names the base, its revision is a digest, its
    target may be displaced. *)
Record own_transaction (t : UploadTransaction) : Prop := {
  ot_session : tx_session t = u;
  ot_offset : default 0%Z (mode_offset (tx_mode t)) = Z.of_nat (length base);
  ot_revision : forall v, tx_target_revision t = Some v -> length v = 32;
  ot_target : allowed (tx_target_identity t) }.

(** The row holds exactly the offset that is reported. *)
Lemma wp_as_checkpointed f e d status code detail recovery context s :
  Recorded f Running e d s -> ec_state context = PsRunning ->
  ec_upload_offset context = Some (Z.of_nat (length e)) ->
  wp Safe (apply_upload_problem context status code detail recovery) Ended s.
Proof.
  intros Hr Hst Hoff. apply wp_problem. intros s' Hw Ht Hh Ho.
  split; [eapply Safe_view, Recorded_Safe; [done..| |done]; by left|]. intros _.
  destruct (rd_row _ _ _ _ _ Hr) as (r & Hs & Hrs & _ & Hn). unfold told, row_in. rewrite Hh, Hst, Ho, Hoff, Ht.
  exists r. rewrite Hn. split; [|done]. split; [apply Hs|done].
Qed.

Lemma wp_keep_or_reset t f d partial s :
  own_transaction t -> tx_file t = f -> Recv f Running d s -> (0 <= partial)%Z ->
  wp Safe (keep_or_reset t partial) (fun r s' => Safe s' /\
    (r = Ok true -> exists e d, Recorded f Running e d s' /\ partial = Z.of_nat (length e))) s.
Proof.
  intros [Hsess Hoff Hrev] <- Hr Hp. pose proof (Recv_Safe _ _ _ _ Hr) as Hs.
  unfold keep_or_reset. rewrite Hsess. apply wp_bind.
  destruct (partial_upload_is_checkpointable _ _ _ _).
  - apply (wp_persist_checkpoint _ _ _ _ _ _ _ d);
      [by apply revision_own_context|by eapply Recv_Recordable|done|done|by intros|].
    intros s' Hrec Hle _ _ _. apply wp_ret. split; [eapply Recorded_Safe; [by left|done]|].
    intros _. eexists _, d. split; [done|]. rewrite length_take. lia.
  - destruct (is_resume _); cbn [negb]; [by apply wp_throw|].
    apply (wp_keeps Safe); [apply Keeps_reset_session|done..|].
    intros [[]|e] s' Hs' _; [by apply wp_ret|done].
Qed.

Lemma wp_transfer_refused t f d status code detail s :
  own_transaction t -> Safe s -> (is_resume (tx_mode t) = true -> Recv f Running d s) ->
  wp Safe (transfer_refused t status code detail) Ended s.
Proof.
  intros [Hsess Hoff _] Hs Hr. unfold transfer_refused. rewrite Hoff.
  destruct (is_resume _); [by eapply wp_as_recorded; [apply Hr|..]|by apply wp_plain].
Qed.

Lemma wp_cut_sync f state d s :
  Recv f state d s ->
  wp Safe (_ ← io (file_set_len f (Z.of_nat (length base))); io (file_sync f))
    (fun _ s' => Recv f state d s') s.
Proof.
  intros Hr. apply wp_bind, wp_io_call, (wp_cut _ _ _ _ state d); [done..|].
  intros [[]|e] s2 Hr2 _ _; [|done]. apply wp_io_call, wp_sync. intros s3 Ht3.
  assert (Recv f state d s3) as Hr3 by by eapply Recv_touch. split; [by eapply Recv_Safe|done].
Qed.

Lemma wp_fail_transfer t f d partial error s :
  own_transaction t -> tx_file t = f -> Recv f Running d s -> (0 <= partial)%Z ->
  wp Safe (fail_transfer t partial error) Ended s.
Proof.
  intros Hot Hf Hr Hpart. pose proof (Recv_Safe _ _ _ _ Hr) as Hs.
  pose proof (wp_cut_sync f Running d s Hr) as Hcut.
  unfold fail_transfer. rewrite (ot_session _ Hot), (ot_offset _ Hot), Hf. cbv zeta. destruct error as [e| | | |].
  - apply wp_bind. eapply wp_mono; [by apply (wp_keep_or_reset t f d)|].
    intros [keep|e'] s2 [Hs2 _]; by apply Ended_Err.
  - apply wp_bind. eapply wp_mono; [by apply (wp_keep_or_reset t f d)|].
    intros [keep|e'] s2 [Hs2 Hk]; [|by apply Ended_Err]. apply wp_bind. destruct keep.
    + destruct (Hk eq_refl) as (e & d' & Hrec & ->). apply wp_respond.
      eapply wp_as_checkpointed; [|done..]. destruct Hrec as [(r & [] & ?) ? ? ? ?]. split; try done. by exists r.
    + by apply wp_ret, wp_plain.
  - by apply wp_throw, Ended_Err.
  - apply wp_bind. destruct (is_resume (tx_mode t)) eqn:Er.
    + eapply wp_mono; [exact Hcut|]. intros [[]|e] s1 Hr1; [|by apply Ended_Err, (Recv_Safe f Running d)].
      apply (wp_transfer_refused t f d); [done|by eapply Recv_Safe|done].
    + apply (wp_keeps Safe); [apply Keeps_reset_session|done..|].
      intros [[]|e] s1 Hs1 _; [|by apply Ended_Err].
      apply (wp_transfer_refused t f d); [done..|congruence].
  - apply wp_assoc, wp_bind. eapply wp_mono; [exact Hcut|].
    intros [[]|e] s1 Hr1; [|by apply Ended_Err, (Recv_Safe f Running d)].
    pose proof (Recv_Safe _ _ _ _ Hr1) as Hs1. apply wp_bind.
    destruct (is_resume (tx_mode t)) eqn:Er; [by apply wp_ret, (wp_transfer_refused t f d)|].
    apply (wp_keeps Safe); [apply Keeps_reset_session|done..|].
    intros [[]|e] s2 Hs2 _; [|by apply Ended_Err].
    apply (wp_transfer_refused t f d); [done..|congruence].
Qed.

Lemma wp_transfer_failed t f d error s :
  own_transaction t -> tx_file t = f -> Recv f Running d s -> wp Safe (transfer_failed t error) Ended s.
Proof.
  intros Hot Hf Hr. unfold transfer_failed. rewrite Hf. apply wp_bind, wp_call_metadata. intros s1 Hc1.
  assert (Recv f Running d s1) as Hr1 by by eapply Recv_calm. pose proof (Recv_Safe _ _ _ _ Hr1) as Hs1.
  split_and!; [done| |].
  - intros e. apply wp_bind. destruct (is_resume _); [by apply wp_throw, Ended_Err|].
    apply wp_ret. by eapply wp_fail_transfer.
  - intros m (_ & _ & [Hm _]). apply wp_bind, wp_ret. by eapply wp_fail_transfer.
Qed.

(** A transfer of an upload that awaits confirmation fails without touching it. *)
Lemma wp_awaiting_problem f d status code detail s :
  Recv f AwaitingConfirmation d s -> Z.of_nat (length base) = se_upload_length u ->
  wp Safe (apply_awaiting_confirmation_problem (se_upload_id u) (se_upload_length u) status code detail) Ended s.
Proof. intros Hr Hl. eapply wp_as_recorded; [done..|]. by rewrite Hl. Qed.

Lemma wp_awaiting_error f d error s :
  Recv f AwaitingConfirmation d s -> Z.of_nat (length base) = se_upload_length u ->
  wp Safe (apply_awaiting_confirmation_transfer_error (se_upload_id u) (se_upload_length u) error) Ended s.
Proof.
  intros Hr Hl. unfold apply_awaiting_confirmation_transfer_error.
  destruct error; (eapply wp_as_recorded; [done..|]; by rewrite Hl).
Qed.
End endings.
End UploadEndings.
