(* ===== verification/UploadPublish.v ===== *)
(** * Publication

    Proofs about [src/server/upload/commit.rs]: a stage is published only when it
    holds exactly the base and the body, has the declared length, is durable, and
    the record says that publication has started; and the record tells afterwards
    that it may have been published. *)

From S2P Require Import Prelude Paths Sql StateModel UploadStore RootedPaths Problem UploadProtocol UploadWorld.
From S2P Require Import UploadRecord UploadFailure UploadCommit UploadTransfer UploadLaws UploadSafety.
From S2P Require Import UploadEndings.

Module UploadPublish.
Import UploadProtocol UploadRecord UploadFailure UploadCommit UploadTransfer UploadSafety UploadEndings.

Section publish.
Context `{L : UploadLaws} {G : Ghost}.
Context {Hactive : Active}.

Abbreviation u := gh_upload.
Abbreviation base := gh_base.
Abbreviation k := (upload_session_key (se_owner_id u) (se_upload_id u)).
Abbreviation silent s s' := (h_state (response s') = h_state (response s)).

Definition committing (state : StoredUploadState) : Prop :=
  state = CommitStarted \/ state = Committed \/ state = Unknown.

(** ** A published upload *)

Record Pub (f : File) (d : bytes) (state : StoredUploadState) (s : St) : Prop := {
  pb_row : exists r, found limits (table s) k (Some r) /\ up_state r = state;
  pb_state : committing state;
  pb_active : active gh_promise;
  pb_published : published (world s) = published (world gh_start) ++
    [{| pub_path := se_target_path u; pub_file := file_id f; pub_data := base ++ d |}];
  pb_length : Z.of_nat (length (base ++ d)) = se_upload_length u;
  pb_durable : base ++ d `prefix_of` durable (world s) (file_id f);
  pb_delivered : delivered (world s) = delivered (world gh_start) ++ d;
  pb_frame : exists victim, allowed victim /\ forall i, ~ gh_own i -> ~ replaces victim i ->
    same_file (world gh_start) (world s) i }.

Lemma Pub_calm f d state : Stable (Pub f d state).
Proof.
  intros s s' [Hr Hst Hact Hp Hl Hdu Hde [v [Hv Hf]]] [[Hq _ Hp' Hde'] Ht _]. split; try done.
  - by rewrite Ht.
  - congruence.
  - etrans; [done|apply Hq].
  - congruence.
  - exists v. split; [done|]. intros i Hi Hx. eapply same_file_trans; [by apply Hf|apply Hq].
Qed.

Lemma Pub_view f d state s s' : world s' = world s -> table s' = table s -> Pub f d state s -> Pub f d state s'.
Proof. intros Hw Ht []. split; rewrite ?Hw, ?Ht; done. Qed.

(** Where the process may die, and how a request may end. *)
Definition Known (s : St) : Prop := Safe s \/ exists f d state, Pub f d state s.
Definition Over {A} (r : result Error A) (s : St) : Prop := Known s /\ (is_ok r = true -> told s).

Lemma Ended_Over {A} (m : M A) s : wp Safe m Ended s -> wp Known m Over s.
Proof.
  intros Hm. eapply wp_crash; [|intros; by left]. eapply wp_mono; [exact Hm|].
  intros r s' [Hs Ht]. split; [by left|done].
Qed.

Lemma Pub_Known f d state s : Pub f d state s -> Known s.
Proof. intros. right. eauto. Qed.

Lemma Known_view s s' : world s' = world s -> table s' = table s -> Known s -> Known s'.
Proof.
  intros Hw Ht [Hs|(f & d & st & Hp)]; [left; by eapply Safe_view|right].
  exists f, d, st. by eapply Pub_view.
Qed.

Lemma Known_calm : Stable Known.
Proof.
  intros s s' [Hs|(f & d & st & Hp)] Hc; [left; by eapply Safe_calm|].
  right. exists f, d, st. by eapply Pub_calm.
Qed.

Lemma wp_plain_over context status code detail recovery s :
  plain (ec_state context) = true -> Known s ->
  wp Known (apply_upload_problem context status code detail recovery) Over s.
Proof.
  intros Hp Hs. apply wp_problem. intros s' Hw Ht Hh _. split; [by eapply Known_view|].
  intros _. unfold told. rewrite Hh. by destruct (ec_state context).
Qed.

(** ** The last record *)

Lemma wp_persist_last c offset state (P : StoredUploadState -> St -> Prop) s r
    (Q : result Error unit -> St -> Prop) (C : St -> Prop) :
  own_context c -> found limits (table s) k (Some r) -> is_terminal (up_state r) = false -> (0 <= offset)%Z ->
  (forall s' t' r', calm s s' -> found limits t' k (Some r') -> up_state r' = up_state r \/ up_state r' = state ->
     stage_identity r' = stage_identity r -> P (up_state r') (with_table t' s')) ->
  (forall st s', P st s' -> C s') -> (forall st e s', P st s' -> Q (Err e) s') ->
  (forall s', P state s' -> Q (Ok tt) s') ->
  wp C (persist_state c offset state None) Q s.
Proof.
  intros Hctx Hf Hlive Hoff HP HC HE HO. apply (wp_persist_state _ _ _ _ _ _ _ (Some r)); try done.
  - intros r' [= <-]. done.
  - intros s' t' o' Hc Hfo Hcase.
    assert (exists st, P st (with_table t' s')) as [st Hst].
    { destruct Hcase as [->|(x & [_ _ _ Hxs Hxi] & Hsto)].
      - exists (up_state r). apply HP; auto.
      - destruct (stored_row _ _ _ Hsto) as (r' & -> & H1 & _ & H3 & _). exists (up_state r').
        apply HP; [done..|right; congruence|by rewrite H3]. }
    split; [by eapply HC|intros; by eapply HE].
  - intros s' t' o' x Hc Hfo [_ _ _ Hxs Hxi] Hsto. apply HO.
    destruct (stored_row _ _ _ Hsto) as (r' & -> & H1 & _ & H3 & _).
    rewrite <-Hxs, <-H1. apply HP; [done..|right; congruence|by rewrite H3].
Qed.

(** ** Ready to be published *)

Record Ready (f : File) (d : bytes) (s : St) : Prop := {
  rdy_recorded : Recorded f CommitStarted (base ++ d) d s;
  rdy_content : content (world s) (file_id f) = base ++ d;
  rdy_length : Z.of_nat (length (base ++ d)) = se_upload_length u }.

Lemma Ready_Safe f d s : Ready f d s -> Safe s.
Proof. intros [Hr _ _]. eapply Recorded_Safe; [|done]. by right; right. Qed.

Lemma Recorded_touch f state e d s s' :
  gh_own (file_id f) -> Recorded f state e d s -> touch f s s' -> Recorded f state e d s'.
Proof.
  intros Ho [(r & Hs & Hr) Hc Hd Hp Hold] Ht.
  assert (visible (world s) (file_id f) = content (world s) (file_id f)) as Hv.
  { apply (anti_symm prefix); [apply law_order|]. rewrite <-Hd. apply law_order. }
  destruct (touch_whole f s s' Ht Hv) as [Ev Ec]. split; rewrite ?Ec; try done.
  - exists r. split; [|done]. pose proof (State_file_op _ _ _ _ _ _ Hs Ho (to_file _ _ _ Ht)) as [].
    split; try done. by rewrite (to_table _ _ _ Ht).
  - apply (anti_symm prefix); [rewrite <-Ec; apply durable_content|]. rewrite <-Hd.
    apply (fo_durable _ _ _ _ (to_file _ _ _ Ht)).
Qed.

Lemma Recorded_own f state e d s : Recorded f state e d s -> gh_own (file_id f).
Proof. intros [(r & Hs & _ & Hi & _) _ _ _ _]. by eapply st_owned. Qed.

Lemma Ready_touch f d s s' : Ready f d s -> touch f s s' -> Ready f d s'.
Proof.
  intros [Hr Hc Hl] Ht. pose proof (Recorded_own _ _ _ _ _ Hr) as Ho.
  assert (visible (world s) (file_id f) = content (world s) (file_id f)) as Hv.
  { apply (anti_symm prefix); [apply law_order|]. rewrite <-(rd_durable _ _ _ _ _ Hr). apply law_order. }
  destruct (touch_whole f s s' Ht Hv) as [_ Ec].
  split; [by eapply Recorded_touch|congruence|done].
Qed.

Lemma Ready_calm f d : Stable (Ready f d).
Proof. intros s s' Hr Hc. eapply Ready_touch; [done|]. by apply calm_touch. Qed.

(** The rename: nothing happened, or exactly the stage was published. *)
Lemma Ready_Pub f d s w' displaced :
  Ready f d s -> allowed displaced -> same_file (world s) w' (file_id f) -> delivered w' = delivered (world s) ->
  published w' = published (world s) ++
    [{| pub_path := se_target_path u; pub_file := file_id f; pub_data := visible (world s) (file_id f) |}] ->
  (forall i, ~ replaces displaced i -> same_file (world s) w' i) ->
  Pub f d CommitStarted (with_world w' s).
Proof.
  intros [[(r & Hs & Hst & _) _ Hdu _ _] Hc Hl] Hal Hsf Hde Hp Hf.
  assert (visible (world s) (file_id f) = base ++ d) as Hv.
  { apply (anti_symm prefix); [rewrite <-Hc; apply law_order|]. rewrite <-Hc, <-Hdu. apply law_order. }
  split; cbn; try done.
  - exists r. split; [apply Hs|done].
  - by left.
  - by rewrite Hp, (st_published _ _ _ _ Hs), Hv.
  - rewrite <-Hc, <-Hdu. apply Hsf.
  - rewrite Hde. apply Hs.
  - exists displaced. split; [done|]. intros i Hi Hx. eapply same_file_trans; [by apply Hs|by apply Hf].
Qed.

Lemma wp_commit_staged_file f d expected s :
  Ready f d s -> allowed expected ->
  wp Known (commit_staged_file f (se_upload_path u) (se_target_path u) expected)
    (fun r s' => match r with
     | Ok Published => Pub f d CommitStarted s'
     | Ok (RejectedCommit g) => g = f /\ Ready f d s'
     | Ok (NotPublished _) => Ready f d s'
     | Ok (PublishedDurabilityUnknown _) => Ready f d s' \/ Pub f d CommitStarted s'
     | Err _ => False
     end) s.
Proof.
  intros Hr Hal. unfold commit_staged_file. apply wp_bind, wp_sync. intros s1 Ht1.
  assert (Ready f d s1) as Hr1 by by eapply Ready_touch.
  split_and!; [left; by eapply Ready_Safe|intros; by apply wp_ret|]. intros _. apply wp_bind.
  unfold wp, rename_op.
  pose proof (law_rename (se_upload_path u) f (se_target_path u) expected (world s1)) as Hl.
  destruct (rename_replace_if_unchanged _ _ _ _ _) as [o w']. destruct Hl as (Hsf & Hde & Hcase & Ho).
  assert (forall v, (expected = Missing -> v = Missing) -> allowed v) as Hall by (intros v Hv Hn; by apply Hv, Hal).
  assert (quiet (world s1) w' -> Ready f d (with_world w' s1)) as Hq.
  { intros. eapply Ready_calm; [done|]. by apply calm_world_step. }
  assert (Ready f d (with_world w' s1) \/ Pub f d CommitStarted (with_world w' s1)) as Hboth.
  { destruct Hcase as [Hquiet|(Hp & v & Hv & Hf)]; [by left; apply Hq|right]. by eapply (Ready_Pub f d s1 w' v); eauto. }
  destruct o as [[| |e|e]|]; cbn.
  - destruct Hcase as [Hquiet|(Hp & v & Hv & Hf)]; [|by eapply (Ready_Pub f d s1 w' v); eauto].
    rewrite (q_published _ _ Hquiet) in Ho. apply (f_equal length) in Ho.
    rewrite length_app in Ho. cbn in Ho. lia.
  - auto.
  - auto.
  - done.
  - destruct Hboth as [Hb|Hb]; [left; by eapply Ready_Safe|right; eauto].
Qed.

(** What the publication leaves is recorded. *)
Lemma Pub_table f d state s s' t' r :
  Pub f d state s -> calm s s' -> found limits t' k (Some r) -> committing (up_state r) ->
  Pub f d (up_state r) (with_table t' s').
Proof.
  intros Hp Hc Hf Hst. pose proof (Pub_calm _ _ _ _ _ Hp Hc) as []. split; try done. by exists r.
Qed.

Lemma wp_persist_pub f d state s :
  Pub f d CommitStarted s -> state = Committed \/ state = Unknown ->
  wp Known (persist_state (session_context u) (se_upload_length u) state None)
    (fun r s' => (exists st, Pub f d st s') /\ (r = Ok tt -> Pub f d state s')) s.
Proof.
  intros Hp Hst. pose proof (pb_row _ _ _ _ Hp) as (r & Hf & Hr).
  apply (wp_persist_last _ _ _ (fun st s' => Pub f d st s') _ r); try done.
  - by rewrite Hr.
  - apply gh_length.
  - intros s' t' r' Hc Hf' Hcase _. eapply Pub_table; [done..|]. unfold committing. rewrite Hr in Hcase.
    destruct Hcase as [-> | ->], Hst as [-> | ->]; auto.
  - intros. by eapply Pub_Known.
  - intros st e s' Hp'. split; [by exists st|done].
  - intros s' Hp'. split; [by eexists|done].
Qed.

Lemma wp_published f d status s :
  Pub f d CommitStarted s ->
  wp Known (recorded ← attempt (persist_terminal (session_context u) (se_upload_length u) RsCommitted);
    match recorded with
    | Err _ =>
        apply_upload_problem
          (error_context (se_upload_id u) PsUnknown (Some (se_upload_length u)) (Some (se_upload_length u)))
          SERVER_ERROR UPLOAD_TERMINAL_RECORD_FAILED
          (str "Upload was published, but terminal confirmation could not be persisted; query the upload ID before any retry")
          QueryUpload
    | Ok _ =>
        _ ← respond (set_status status);
        respond (apply_upload_record_headers (hyphenated (se_upload_id u)) (Some (se_upload_length u))
                   (Some (se_upload_length u)) PsCommitted)
    end) Over s.
Proof.
  intros Hp. apply wp_bind, wp_attempt. eapply wp_mono; [apply wp_persist_pub; [done|by left]|].
  intros r s1 [[st Hst] Hok]. cbn beta. destruct r as [[]|e].
  - specialize (Hok eq_refl). apply wp_bind, wp_respond, wp_respond.
    split; [eapply Known_view; [..|by eapply Pub_Known]; done|]. intros _. unfold told. cbn.
    destruct (pb_row _ _ _ _ Hok) as (r & Hf & Hr). exists r. split; [apply Hf|done].
  - apply wp_plain_over; [done|by eapply Pub_Known].
Qed.

(** The outcome of the rename is not known. *)
Lemma wp_persist_doubt f d s :
  Ready f d s ->
  wp Known (persist_state (session_context u) (se_upload_length u) Unknown None) (fun _ => Safe) s.
Proof.
  intros Hr. pose proof (rd_row _ _ _ _ _ (rdy_recorded _ _ _ Hr)) as (r & Hs & Hst & Hi & _).
  apply (wp_persist_last _ _ _ (fun _ => Safe) _ r); try done.
  - apply Hs.
  - by rewrite Hst.
  - apply gh_length.
  - intros s' t' r' Hc Hf Hcase Hid. exists (Some r'), Undecided, d. split; [|constructor; apply is_active].
    pose proof (State_calm _ _ _ _ _ Hs Hc) as [_ _ Ho Hfr Hp Hde]. split; cbn; try done.
    + rewrite Hst in Hcase. by destruct Hcase as [-> | ->].
    + intros x i [= <-]. rewrite Hid. by apply Ho.
  - intros. by left.
Qed.

(** The stage could not be published and is refused. *)
Lemma wp_persist_refused s :
  Safe s -> found limits (table s) k None ->
  wp Known (persist_state (session_context u) 0 Rejected None) (fun _ => Safe) s.
Proof.
  intros (o & a & d & Hs & Hreq) Hf.
  assert (forall s' t' o' x, calm s s' -> found limits t' k o' -> saves None 0 Rejected None x ->
    stored None x o' -> Safe (with_table t' s')) as Hstored.
  { intros s' t' o' x Hc Hfo [_ _ _ Hxs Hxi] Hsto.
    pose proof (State_calm _ _ _ _ _ Hs Hc) as [_ _ _ Hfr Hp Hde].
    destruct (stored_row _ _ _ Hsto) as (r' & -> & H1 & _ & H3 & _).
    exists (Some r'), Refused, d. split; [|constructor; apply is_active]. split; cbn; try done.
    - by rewrite H1, Hxs.
    - intros y i [= <-]. by rewrite H3, Hxi. }
  apply (wp_persist_state _ _ _ _ _ _ _ None); try done.
  intros s' t' o' Hc Hfo [->|(x & Hx & Hsto)].
  - pose proof (State_calm _ _ _ _ _ Hs Hc) as [_ _ _ Hfr Hp Hde].
    assert (Safe (with_table t' s')); [|split; [by left|done]].
    exists None, NoPromise, d. split; [|constructor; apply is_active]. by split.
  - assert (Safe (with_table t' s')) by by eapply Hstored. split; [by left|done].
Qed.

(** ** After the commit record *)

Lemma wp_conflict context s (I : St -> Prop) :
  Stable I -> I s -> (forall s', I s' -> Known s') ->
  (forall s', I s' -> forall code detail,
     wp Known (apply_upload_problem context CONFLICT code detail RefreshTarget) Over s') ->
  wp Known (render_upload_target_conflict (se_target_path u) (se_owner_id u) context) Over s.
Proof.
  intros HI Hs HK Hm. unfold render_upload_target_conflict, state_relative_path.
  apply wp_bind. apply (wp_calm I); [calm|done..|]. intros [rel|e] s1 Hs1 _; [|split; [by apply HK|done]].
  apply wp_bind. apply (wp_calm I); [calm|done..|]. intros [i|e] s2 Hs2 _; [|split; [by apply HK|done]].
  apply wp_bind. unfold apply_target_inspection_headers. apply (wp_calm I); [calm|done..|].
  intros [[]|e] s3 Hs3 _; [|split; [by apply HK|done]].
  destruct (in_exists _); by apply Hm.
Qed.

(** The stage is kept for a later confirmation. *)
Lemma wp_retained f d v s :
  Ready f d s -> (forall x, v = Some x -> length x = 32) ->
  wp Known (retained ← attempt (persist_awaiting_confirmation f (with_target_revision v (session_context u)));
    match retained with
    | Err _ =>
        apply_upload_unknown (se_upload_id u)
          (str "Upload was not published, but its retained stage could not be confirmed")
    | Ok _ =>
        render_upload_target_conflict (se_target_path u) (se_owner_id u)
          (error_context (se_upload_id u) PsAwaitingConfirmation (Some (se_upload_length u))
             (Some (se_upload_length u)))
    end) Over s.
Proof.
  intros Hr Hv. pose proof (Ready_Safe _ _ _ Hr) as Hsafe.
  destruct Hr as [Hrec Hc Hl]. pose proof (Recorded_own _ _ _ _ _ Hrec) as Hown.
  assert (Recordable f d s) as Hrb.
  { destruct Hrec as [(r & Hs & Hst & _ & Hn) Hco _ Hp Hold]. split; try done.
    - exists (Some r), Undecided. split_and!; [done|constructor; apply is_active| |].
      + intros x [= <-]. by rewrite Hst.
      + intros held Hh. exists r. split; [done|]. rewrite Hn. apply inj_le, prefix_length. by apply Hold.
    - intros held Hh _. rewrite Hc. by apply Hold. }
  apply wp_bind, wp_attempt. unfold persist_awaiting_confirmation.
  apply (wp_persist_synced _ _ _ _ _ false _ _ _ d); try done.
  - right. by left.
  - apply gh_length.
  - intros. by left.
  - intros e s1 Hs1 _. apply Ended_Over. by apply wp_unknown.
  - cbn. rewrite Hc, take_ge by lia. intros s1 Hrec1 _ Hc1 _ _.
    assert (recording AwaitingConfirmation) as Hra by (right; by left).
    apply (wp_conflict _ _ (fun s' => Recorded f AwaitingConfirmation (base ++ d) d s')).
    + intros x y Hx Hcalm. eapply Recorded_touch; [done..|by apply calm_touch].
    + done.
    + intros s' Hs'. left. by eapply Recorded_Safe.
    + intros s' Hs' code detail. apply wp_problem. intros s2 Hw Ht Hh Ho.
      split; [left; eapply Safe_view; [done..|]; by eapply Recorded_Safe|]. intros _.
      destruct (rd_row _ _ _ _ _ Hs') as (r & Hst & Hrs & _ & Hn). unfold told. rewrite Hh. cbn.
      exists r. rewrite Ho, Hn, Hl. split; [|done]. split; [rewrite Ht; apply Hst|done].
Qed.

Lemma wp_commit_ready f d expected v created status s :
  Ready f d s -> allowed expected -> (forall x, v = Some x -> length x = 32) ->
  wp Known (commit_ready_upload u expected v created f status) Over s.
Proof.
  intros Hr Hal Hv. unfold commit_ready_upload. cbv zeta. apply wp_bind.
  eapply wp_mono; [by apply wp_commit_staged_file|]. intros [[|g|e|e]|e] s1 Hs1; [| | | |done].
  - apply wp_bind. apply (wp_call_quiet (Pub f d CommitStarted)); [calm|apply Pub_calm|done| |].
    { intros. by eapply Pub_Known. }
    intros _ s2 Hs2 _. by eapply wp_published.
  - destruct Hs1 as [-> Hs1]. by eapply wp_retained.
  - pose proof (Ready_Safe _ _ _ Hs1) as Hsafe. apply wp_bind, wp_reset_session; [done|by left|].
    intros [[]|x] s2 Hs2 _ Hnone; [|split; [by left|done]]. specialize (Hnone eq_refl).
    apply wp_bind, wp_attempt. eapply wp_mono; [by apply wp_persist_refused|]. intros r s3 Hs3. cbn beta.
    apply Ended_Over. by apply wp_plain.
  - apply wp_bind, wp_attempt. unfold persist_unknown. apply wp_bind, wp_ensure; [intros _|rewrite Z.eqb_refl; done].
    apply (wp_mono _ _ (fun _ => Known)).
    { destruct Hs1 as [Hs1|Hs1].
      - eapply wp_mono; [by eapply wp_persist_doubt|]. intros. by left.
      - eapply wp_mono; [eapply wp_persist_pub; [done|by right]|]. intros r s' [[st Hst] _]. by eapply Pub_Known. }
    intros r s2 Hs2. cbn beta. apply wp_bind.
    apply (wp_call_quiet Known); [calm|apply Known_calm|done..|]. intros _ s3 Hs3 _. by apply wp_plain_over.
Qed.

(** ** The checks before publication *)

(** A transferred upload of this request and the stage it is about. *)
Record own_transferred (t : TransferredUpload) (f : File) (state : StoredUploadState) : Prop := {
  of_session : tu_session t = u;
  of_file : tu_file t = f;
  of_offset : default 0%Z (mode_offset (tu_mode t)) = Z.of_nat (length base);
  of_revision : forall v, tu_target_revision t = Some v -> length v = 32;
  of_target : allowed (tu_target_identity t);
  of_state : state = if awaiting (tu_checkpoint_state t) then AwaitingConfirmation else Running;
  of_awaiting : state = AwaitingConfirmation -> Z.of_nat (length base) = se_upload_length u }.

Lemma of_running t f state :
  own_transferred t f state -> awaiting (tu_checkpoint_state t) = false -> state = Running.
Proof. intros Ho E. by rewrite (of_state _ _ _ Ho), E. Qed.

Lemma of_confirming t f state :
  own_transferred t f state -> awaiting (tu_checkpoint_state t) = true ->
  state = AwaitingConfirmation /\ Z.of_nat (length base) = se_upload_length u.
Proof.
  intros Ho E. assert (state = AwaitingConfirmation) as Hs by by rewrite (of_state _ _ _ Ho), E.
  split; [done|]. by apply (of_awaiting _ _ _ Ho).
Qed.

(** The stage is complete, all of it is visible, and it has the declared length. *)
Record Full (f : File) (state : StoredUploadState) (d : bytes) (s : St) : Prop := {
  fu_recv : Recv f state d s;
  fu_content : content (world s) (file_id f) = base ++ d;
  fu_length : Z.of_nat (length (base ++ d)) = se_upload_length u }.

Lemma Full_calm f state d : Stable (Full f state d).
Proof.
  intros s s' [Hr Hc Hl] Hcalm. split; [by eapply Recv_calm| |done].
  by rewrite (sf_content _ _ _ (q_files _ _ (calm_world _ _ Hcalm) (file_id f))).
Qed.

Lemma wp_awaiting_over f d status code detail s :
  Recv f AwaitingConfirmation d s -> Z.of_nat (length base) = se_upload_length u ->
  wp Known (apply_awaiting_confirmation_problem (se_upload_id u) (se_upload_length u) status code detail) Over s.
Proof. intros. by eapply Ended_Over, wp_awaiting_problem. Qed.

(** The deadline: [true] means that the request has been answered. *)
Lemma wp_ended_by_deadline t f state d (I : St -> Prop) s :
  own_transferred t f state -> Stable I -> I s -> (forall s', I s' -> Recv f state d s') ->
  wp Known (ended_by_deadline t) (fun r s' => match r with
    | Ok true => Over (Ok tt) s' | Ok false => I s' | Err e => Over (Err e : result Error unit) s' end) s.
Proof.
  intros Ho HI Hs HR. unfold ended_by_deadline. rewrite (of_session _ _ _ Ho), (of_file _ _ _ Ho). cbv zeta.
  apply wp_bind. apply (wp_now I); [done..|]. intros now s1 Hs1 _. pose proof (HR _ Hs1) as Hr.
  destruct (_ <? _)%Z; [by apply wp_ret|]. apply wp_bind.
  apply (wp_mono _ _ Over); [|intros [[]|e] s2 H2; [by apply wp_ret|done]].
  destruct (awaiting _) eqn:Ea.
  - destruct (of_confirming _ _ _ Ho Ea) as [-> Hl]. by eapply wp_awaiting_over.
  - apply Ended_Over. eapply wp_timed_out; [by eapply Recv_Recordable|].
    intros o Eo. split; [|by exists state]. rewrite <-(of_offset _ _ _ Ho), Eo. done.
Qed.

Lemma wp_reject_after_rollback t f state unconfirmed status code detail s :
  own_transferred t f state -> Safe s ->
  wp Known (reject_after_rollback t unconfirmed status code detail) Over s.
Proof.
  intros Ho Hs. unfold reject_after_rollback. rewrite (of_session _ _ _ Ho).
  by apply Ended_Over, wp_rolled_back.
Qed.

Lemma wp_replay_metadata t f state d s :
  own_transferred t f state -> Full f state d s ->
  wp Known (replay_metadata t) (fun r s' => match r with
    | Ok true => Full f state d s' | Ok false => Over (Ok tt) s'
    | Err e => Over (Err e : result Error unit) s' end) s.
Proof.
  intros Ho Hf. unfold replay_metadata. rewrite (of_session _ _ _ Ho). cbv zeta.
  destruct (tu_target_metadata t) as [m|]; [|by apply wp_ret].
  apply wp_bind. apply (wp_call_quiet (Full f state d)); [calm|apply Full_calm|done|..].
  { intros s' Hs'. left. by eapply Recv_Safe, fu_recv. }
  intros [[]|e] s1 Hs1 _; [by apply wp_ret|]. apply wp_bind.
  apply (wp_mono _ _ Over); [|intros [[]|e'] s2 H2; [by apply wp_ret|done]].
  destruct (awaiting _) eqn:Ea.
  - destruct (of_confirming _ _ _ Ho Ea) as [-> Hl]. eapply wp_awaiting_over; [apply Hs1|done].
  - apply Ended_Over, wp_after_reset; [by eapply Recv_Safe, fu_recv|]. intros s2 Hs2.
    destruct (policy_refusal e); [by apply wp_plain|by apply wp_throw, Ended_Err].
Qed.

Lemma wp_space_confirmed (I C : St -> Prop) lease f (Q : result Error bool -> St -> Prop) s :
  Stable I -> I s -> (forall s', I s' -> C s') -> (forall b s', I s' -> calm s s' -> Q (Ok b) s') ->
  wp C (space_confirmed lease f) Q s.
Proof.
  intros HI Hs HC HQ. apply wp_bind. apply (wp_call_quiet I); [calm|done..|].
  intros r s1 Hs1 Hc1. apply wp_ret. by apply HQ.
Qed.

Lemma wp_commit_transferred t f state d s :
  own_transferred t f state -> Full f state d s -> wp Known (commit_transferred t) Over s.
Proof.
  intros Ho Hf. unfold commit_transferred. apply wp_bind.
  eapply wp_mono; [by apply wp_replay_metadata|].
  intros [[]|e] s1 Hs1; [|by apply wp_ret|done]. cbn [negb].
  assert (forall s', Full f state d s' -> Known s') as HK.
  { intros s' Hs'. left. by eapply Recv_Safe, fu_recv. }
  apply wp_bind. apply (wp_space_confirmed (Full f state d)); [apply Full_calm|done..|].
  rewrite (of_session _ _ _ Ho), (of_file _ _ _ Ho). intros enough s2 Hs2 _.
  pose proof (Recv_Safe _ _ _ _ (fu_recv _ _ _ _ Hs2)) as Hsafe2.
  destruct enough; cbn [negb].
  2:{ destruct (awaiting _) eqn:Ea; [|by eapply wp_reject_after_rollback].
      destruct (of_confirming _ _ _ Ho Ea) as [-> Hl]. eapply wp_awaiting_over; [apply Hs2|done]. }
  apply wp_bind, wp_attempt. unfold persist_commit_started. destruct Hs2 as [Hr2 Hc2 Hl2].
  apply (wp_persist_synced _ _ _ _ _ false _ _ _ d); cbn [rc_upload_length with_target_revision session_context].
  - by right; right.
  - apply revision_own_context, (of_revision _ _ _ Ho).
  - by eapply Recv_Recordable.
  - apply gh_length.
  - intros. by left.
  - intros e s3 Hs3 _. cbn [is_ok negb]. by eapply wp_reject_after_rollback.
  - cbn. rewrite Hc2, take_ge by lia. intros s3 Hrec3 _ Hc3 _ _. cbn [is_ok negb].
    assert (Ready f d s3) as Hr3 by by split.
    apply wp_bind. apply (wp_space_confirmed (Ready f d)); [apply Ready_calm|done|..].
    { intros. left. by eapply Ready_Safe. }
    intros enough s4 Hs4 _. destruct enough; cbn [negb].
    + eapply wp_commit_ready; [done|apply (of_target _ _ _ Ho)|apply (of_revision _ _ _ Ho)].
    + eapply wp_reject_after_rollback; [done|]. by eapply Ready_Safe.
Qed.

(** A stage shorter than declared is recorded as far as it got. *)
Lemma wp_length_mismatch t f state d n s :
  own_transferred t f state -> Recv f Running d s -> (0 <= n)%Z ->
  wp Known (length_mismatch t n) Over s.
Proof.
  intros Ho Hr Hn. apply Ended_Over. unfold length_mismatch.
  rewrite (of_session _ _ _ Ho), (of_file _ _ _ Ho). cbv zeta. apply wp_bind.
  destruct (_ <? _)%Z.
  - apply wp_bind. apply (wp_persist_checkpoint _ _ _ _ _ _ _ d).
    + apply revision_own_context, (of_revision _ _ _ Ho).
    + by eapply Recv_Recordable.
    + done.
    + done.
    + intros e s1 Hs1 _. by apply Ended_Err.
    + intros s1 Hrec Hle _ _ _. apply wp_respond. eapply wp_as_checkpointed.
      * destruct Hrec as [(r & [] & ?) ? ? ? ?]. split; try done. by exists r.
      * done.
      * cbn. rewrite length_take. do 2 f_equal. lia.
  - apply (wp_keeps Safe); [apply Keeps_reset_session|by eapply Recv_Safe|done|].
    intros [[]|e] s1 Hs1 _; [by apply wp_plain|by apply Ended_Err].
Qed.

(** Everything received is visible. *)
Record Flushed (f : File) (state : StoredUploadState) (d : bytes) (s : St) : Prop := {
  fl_recv : Recv f state d s;
  fl_content : content (world s) (file_id f) = base ++ d;
  fl_visible : visible (world s) (file_id f) = base ++ d }.

Lemma Flushed_calm f state d : Stable (Flushed f state d).
Proof.
  intros s s' [Hr Hc Hv] Hcalm.
  destruct (touch_whole f s s') as [Hv' Hc']; [by apply calm_touch|congruence|].
  split; [by eapply Recv_calm|congruence..].
Qed.

(** A check that failed: an upload that awaits confirmation stays as it is, any
    other ends as the code says. *)
Lemma wp_check_failed t f state d status code detail (other : M unit) s :
  own_transferred t f state -> Recv f state d s ->
  (Recv f Running d s -> wp Known other Over s) ->
  wp Known (if awaiting (tu_checkpoint_state t)
            then apply_awaiting_confirmation_problem (se_upload_id u) (se_upload_length u) status code detail
            else other) Over s.
Proof.
  intros Ho Hr Hm. destruct (awaiting _) eqn:Ea.
  - destruct (of_confirming _ _ _ Ho Ea) as [-> Hl]. by eapply wp_awaiting_over.
  - rewrite (of_running _ _ _ Ho Ea) in Hr. by apply Hm.
Qed.

Lemma wp_unless_deadline t f state d (next : M unit) s :
  own_transferred t f state -> Flushed f state d s ->
  (forall s', Flushed f state d s' -> wp Known next Over s') ->
  wp Known (ended ← ended_by_deadline t; if ended : bool then mret tt else next) Over s.
Proof.
  intros Ho Hf Hm. apply wp_bind.
  eapply wp_mono; [eapply (wp_ended_by_deadline _ _ _ d (Flushed f state d)); [done|apply Flushed_calm|done|]|].
  { by intros s' []. }
  intros [[]|e] s1 Hs1; [by apply wp_ret|by apply Hm|done].
Qed.

Lemma wp_prepare_transferred t f state d s :
  own_transferred t f state -> Exact f state d s -> wp Known (prepare_transferred_upload t) Over s.
Proof.
  intros Ho He. unfold prepare_transferred_upload.
  rewrite (of_session _ _ _ Ho), (of_file _ _ _ Ho), (of_offset _ _ _ Ho). cbv zeta.
  apply wp_bind, wp_flush. intros s1 Ht1.
  assert (Recv f state d s1) as Hr1 by (eapply Recv_touch; [apply He|done]).
  split; [left; by eapply Recv_Safe|]. split.
  { intros e. eapply wp_check_failed; [done..|]. intros Hr. by eapply Ended_Over, wp_io_failure. }
  intros Ec1 Ev1. rewrite (ex_content _ _ _ _ He) in Ec1, Ev1.
  assert (Flushed f state d s1) as Hf1 by by split.
  assert (forall s', Flushed f state d s' -> Known s') as HK.
  { intros s' Hs'. left. by eapply Recv_Safe, fl_recv. }
  apply wp_bind. apply (wp_space_confirmed (Flushed f state d)); [apply Flushed_calm|done..|].
  intros enough s2 Hs2 _. destruct enough; cbn [negb].
  2:{ eapply wp_check_failed; [done|apply Hs2|]. intros Hr. by eapply Ended_Over, wp_space_failure. }
  eapply wp_unless_deadline; [done..|]. intros s3 Hs3.
  apply wp_bind, wp_call_metadata. intros s4 Hc4.
  pose proof (Flushed_calm _ _ _ _ _ Hs3 Hc4) as Hs4. split; [by apply HK|]. split.
  { intros e. eapply wp_check_failed; [done|apply Hs4|]. intros Hr.
    apply wp_throw. split; [by apply HK|done]. }
  intros m (_ & Hlen & _). rewrite (fl_visible _ _ _ _ Hs4) in Hlen. cbv zeta.
  eapply wp_unless_deadline; [done..|]. intros s5 Hs5. destruct (_ =? _)%Z eqn:El; cbn [negb].
  - eapply wp_unless_deadline; [done..|]. intros s6 [Hr6 Hc6 _].
    eapply wp_commit_transferred; [done|]. split; [done..|]. apply Z.eqb_eq in El. congruence.
  - eapply wp_check_failed; [done|apply Hs5|]. intros Hr. eapply wp_length_mismatch; [done..|lia].
Qed.

(** ** The transfer *)

Record own_upload (t : UploadTransaction) (state : StoredUploadState) : Prop := {
  ou_transaction : own_transaction t;
  ou_state : state = if awaiting (tx_checkpoint_state t) then AwaitingConfirmation else Running;
  ou_awaiting : state = AwaitingConfirmation -> Z.of_nat (length base) = se_upload_length u }.

Lemma own_upload_transferred t state lease :
  own_upload t state -> own_transferred (transferred t lease) (tx_file t) state.
Proof. intros [[] ]. by split. Qed.

Lemma wp_transfer_upload_body fuel t state d s :
  own_upload t state -> Exact (tx_file t) state d s -> wp Known (transfer_upload_body fuel t) Over s.
Proof.
  intros Ho He. pose proof (ou_transaction _ _ Ho) as Hot. unfold transfer_upload_body.
  rewrite (ot_session _ Hot). cbv zeta. pose proof (Recv_Safe _ _ _ _ (ex_recv _ _ _ _ He)) as Hs.
  destruct (u64_checked_sub _ _) as [remaining|]; [|apply wp_throw; split; [by left|done]].
  apply wp_bind, (wp_receive_body _ (tx_file t) state d); [done|by left|..].
  - intros e s1 d1 Hr _. apply Ended_Over. destruct (awaiting _) eqn:Ea.
    + assert (state = AwaitingConfirmation) as -> by by rewrite (ou_state _ _ Ho), Ea.
      eapply wp_awaiting_error; [done|]. by apply (ou_awaiting _ _ Ho).
    + assert (state = Running) as -> by by rewrite (ou_state _ _ Ho), Ea.
      destruct e; try by eapply wp_transfer_failed.
      eapply wp_timed_out; [by eapply Recv_Recordable|]. intros o Eo. split; [|by eexists].
      rewrite <-(ot_offset _ Hot), Eo. done.
  - intros lease s1 d1 He1 _. eapply wp_prepare_transferred; [|done]. by apply own_upload_transferred.
Qed.
End publish.
End UploadPublish.
