(* ===== verification/UploadContract.v ===== *)
(** * The contract of the upload handlers

    Proofs about [src/server/upload/prepare.rs] and [src/server/upload.rs]: from any
    state of the table and the files, whatever the file system, the clock, the
    client and the state store answer, and wherever the process dies, one request
    is a step of the abstract machine of [UploadSafety]; it changes no other file,
    and its response is true. *)

From S2P Require Import Prelude Paths PathKeys Sql StateModel UploadStore RootedPaths PathPolicy Problem UploadProtocol.
From S2P Require Import UploadWorld UploadRecord UploadFailure UploadCommit UploadTransfer UploadPrepare.
From S2P Require Import UploadHandler UploadLaws UploadSafety UploadEndings UploadPublish UploadMemory.

Module UploadContract.
Import UploadProtocol UploadRecord UploadFailure UploadCommit UploadTransfer UploadPrepare UploadHandler
  UploadSafety UploadEndings UploadPublish.

(** ** Steps that change nothing *)

Section calm.
Context `{L : UploadLaws}.

Lemma Calm_upload_temp_path p i : Calm (upload_temp_path p i).
Proof. unfold upload_temp_path. calm. Qed.
Lemma Calm_is_upload_temp_path t i p : Calm (is_upload_temp_path t i p).
Proof. unfold is_upload_temp_path. calm. Qed.
Lemma Calm_resolve_state_path p : Calm (resolve_state_path p).
Proof. unfold resolve_state_path. calm. Qed.
Lemma Calm_state_relative_path p : Calm (state_relative_path p).
Proof. unfold state_relative_path. calm. Qed.

Lemma Calm_begin_upload_mutation : Calm begin_upload_mutation.
Proof.
  intros s. unfold begin_upload_mutation. destruct (_ =? _)%Z; [|done].
  apply calm_world_step, law_mutation_cell.
Qed.

Lemma Calm_outcome_can_be_unknown : Calm outcome_can_be_unknown.
Proof. intros s. done. Qed.

Lemma Calm_reserve f n : Calm (reserve f n).
Proof. unfold reserve. calm. Qed.

Lemma Calm_register_active e : Calm (register_active e).
Proof.
  intros s. unfold register_active. destruct (bool_decide (maintenance_marker e ∈ _)); [done|].
  split; [apply law_active|done..].
Qed.

Lemma Calm_release_active : Calm release_active.
Proof. intros s. split; [apply law_active|done..]. Qed.

Lemma Calm_wait_for_cleanup fuel marker deadline : Calm (wait_for_cleanup fuel marker deadline).
Proof. induction fuel; cbn [wait_for_cleanup]; [intros s; done|]. calm. Qed.

Lemma Calm_track fuel p deadline : Calm (track_active_upload_files fuel p deadline).
Proof.
  induction fuel; cbn [track_active_upload_files]; [intros s; done|].
  apply Calm_bind; [calm|]. intros e. apply Calm_bind; [apply Calm_register_active|]. intros [].
  - calm.
  - apply Calm_bind; [apply Calm_wait_for_cleanup|done].
Qed.
End calm.

#[export] Hint Resolve Calm_upload_temp_path Calm_is_upload_temp_path Calm_resolve_state_path
  Calm_state_relative_path Calm_begin_upload_mutation Calm_outcome_can_be_unknown Calm_reserve
  Calm_register_active Calm_release_active Calm_track Calm_validated_relative_paths : calm.

(** ** The row of an upload *)

(** A row that a request may go on with. *)
Definition open_row (o : option StoredUploadSession) : Prop :=
  forall r, o = Some r -> up_state r = Running \/ up_state r = AwaitingConfirmation.

Lemma open_live o : open_row o -> live o.
Proof. intros Ho r Hr. by destruct (Ho r Hr) as [-> | ->]. Qed.

Section lookups.
Context `{L : UploadLaws}.

Lemma wp_still {A} (C : St -> Prop) (m : M A) (Q : result Error A -> St -> Prop) s0 s :
  Calm m -> calm s0 s -> (forall s', calm s0 s' -> C s') -> (forall r s', calm s0 s' -> Q r s') -> wp C m Q s.
Proof. intros Hm Hs HC HQ. apply (wp_calm (calm s0)); [done|intros ? ? ? ?; by etrans|done..|]. auto. Qed.

(** A lookup changes nothing and reports the row it finds. *)
Lemma wp_classify_row i t p r s0 s :
  calm s0 s ->
  wp (calm s0) (classify_stored_session i t p r) (fun x s' => calm s0 s' /\ match x with
    | Ok (LookupFound c) => c = upload_checkpoint r
    | Ok LookupNotSeen => open_row (Some r)
    | _ => True
    end) s.
Proof.
  intros Hi. unfold classify_stored_session.
  apply wp_bind, (wp_still _ _ _ s0); [auto with calm|done..|]. intros [st|e] s1 Hs1; [|done].
  apply wp_bind, (wp_still _ _ _ s0); [auto with calm|done..|]. intros [ss|e] s2 Hs2; [|done].
  apply wp_bind, (wp_still _ _ _ s0); [calm|done..|]. intros [foreign|e] s3 Hs3; [|done].
  destruct foreign; [by apply wp_ret|]. apply wp_bind.
  destruct (_ && _) eqn:Eb; [|by apply wp_ret, wp_ret].
  apply andb_true_iff in Eb as [Es _]. apply bool_decide_eq_true in Es.
  apply wp_bind, (wp_still _ _ _ s0); [unfold valid_resumable_stage; calm|done..|]. intros [valid|e] s4 Hs4; [|done].
  apply wp_ret. destruct valid; apply wp_ret; [done|]. split; [done|]. by intros r' [= <-].
Qed.

Lemma wp_lookup_row ow i p st o s :
  UploadStore.load_upload_session (table s) (upload_session_key ow i) = Ok o ->
  wp (calm s) (lookup ow i p st) (fun x s' => calm s s' /\ match x with
    | Ok (LookupFound c) => exists r, o = Some r /\ c = upload_checkpoint r
    | Ok LookupNotSeen => open_row o
    | _ => True
    end) s.
Proof.
  intros Ho. unfold lookup.
  apply wp_bind, (wp_still _ _ _ s); [auto with calm|done..|]. intros [[tr sr]|e] s1 Hs1; [|done].
  rewrite <-(calm_table _ _ Hs1) in Ho. apply wp_bind, (wp_upload_session _ _ _ _ o Ho). intros s2 Hc2 _.
  assert (calm s s2) as Hs2 by by etrans. split; [done|]. split; [|done]. cbv beta iota. destruct o as [r|].
  - eapply wp_mono; [by apply (wp_classify_row _ _ _ _ s)|]. intros [[| |c]|e] s3 [H3 Hx]; naive_solver.
  - apply wp_ret. split; [done|]. by intros r.
Qed.
End lookups.

(** ** Before anything is changed *)

Section prepare.
Context `{L : UploadLaws} {G : Ghost}.
Context (o0 : option StoredUploadSession).
Context (Hstart : State o0 gh_promise [] gh_start) (Hmute : h_state (response gh_start) = None).

Abbreviation u := gh_upload.
Abbreviation base := gh_base.
Abbreviation k := (upload_session_key (se_owner_id u) (se_upload_id u)).
Abbreviation Idle := (calm gh_start).

Lemma Idle_stable : Stable Idle.
Proof. intros s s' Hs Hc. by etrans. Qed.

Lemma Idle_State s : Idle s -> State o0 gh_promise [] s.
Proof. intros. by eapply State_calm. Qed.

Lemma Idle_Safe s : Idle s -> Safe s.
Proof. intros Hi. exists o0, gh_promise, []. split; [by apply Idle_State|constructor]. Qed.

Lemma Idle_mute s : Idle s -> h_state (response s) = None.
Proof. intros Hi. by rewrite (calm_told _ _ Hi). Qed.

Lemma mute_told s : h_state (response s) = None -> told s.
Proof. unfold told. by intros ->. Qed.

Lemma Idle_load s : Idle s -> UploadStore.load_upload_session (table s) k = Ok o0.
Proof. intros Hi. rewrite (calm_table _ _ Hi). apply (st_found _ _ _ _ Hstart). Qed.

(** How a step of the preparation may end: it goes on with a value, the request has
    been answered truthfully, or it fails. *)
Definition Goes {A} (P : A -> St -> Prop) (r : result Error (option A)) (s : St) : Prop :=
  match r with
  | Ok (Some a) => P a s
  | Ok None => Safe s /\ told s
  | Err _ => Safe s
  end.

Lemma wp_proceed {A B} (m : M (option A)) (f : A -> M (option B)) P P' s :
  wp Safe m (Goes P) s -> (forall a s', P a s' -> wp Safe (f a) (Goes P') s') ->
  wp Safe (proceed m f) (Goes P') s.
Proof.
  intros Hm Hf. apply wp_bind. eapply wp_mono; [exact Hm|]. intros [[a|]|e] s1 Hs1; [by apply Hf|done..].
Qed.

Lemma wp_answered {A} (m : M unit) (P : A -> St -> Prop) s :
  wp Safe m Ended s -> wp Safe (answered m) (Goes P) s.
Proof.
  intros Hm. apply wp_bind. eapply wp_mono; [exact Hm|].
  intros [[]|e] s1 [Hs Ht]; [apply wp_ret; split; auto|done].
Qed.

Lemma wp_idle {A} (m : M A) (Q : result Error A -> St -> Prop) s :
  Calm m -> Idle s -> (forall a s', Idle s' -> calm s s' -> Q (Ok a) s') ->
  (forall e s', Safe s' -> Q (Err e) s') -> wp Safe m Q s.
Proof.
  intros Hm Hs HO HE. apply (wp_calm Idle); [done|apply Idle_stable|done|apply Idle_Safe|].
  intros [a|e] s' Hs' Hc; [by apply HO|]. by apply HE, Idle_Safe.
Qed.

(** A response that reports the row. *)
Definition says (context : UploadErrorContext) : Prop :=
  match ec_state context with
  | PsRunning => exists r, o0 = Some r /\ up_state r = Running /\ ec_upload_offset context = Some (durable_offset r)
  | PsAwaitingConfirmation =>
      exists r, o0 = Some r /\ up_state r = AwaitingConfirmation /\ ec_upload_offset context = Some (durable_offset r)
  | PsCommitted => exists r, o0 = Some r /\ up_state r = Committed
  | _ => True
  end.

Lemma wp_says context status code detail recovery s :
  says context -> Idle s -> wp Safe (apply_upload_problem context status code detail recovery) Ended s.
Proof.
  intros Hsay Hi. apply wp_problem. intros s' Hw Ht Hh Ho.
  split; [by eapply Safe_view, Idle_Safe|]. intros _. pose proof (Idle_load s Hi) as Hl.
  unfold told, says, row_in in *. rewrite Hh, Ho, Ht.
  destruct (ec_state context); try done; [..|by destruct Hsay as (r & -> & ?); exists r];
    destruct Hsay as (r & -> & ? & ->); by exists r.
Qed.

Lemma wp_conflict_says context s :
  says context -> Idle s ->
  wp Safe (render_upload_target_conflict (se_target_path u) (se_owner_id u) context) Ended s.
Proof.
  intros Hsay Hi. unfold render_upload_target_conflict.
  apply wp_bind, wp_idle; [auto with calm|done| |by intros; apply Ended_Err]. intros rel s1 Hs1 _.
  apply wp_bind, wp_idle; [calm|done| |by intros; apply Ended_Err]. intros i s2 Hs2 _.
  apply wp_bind. unfold apply_target_inspection_headers.
  apply wp_idle; [calm|done| |by intros; apply Ended_Err]. intros _ s3 Hs3 _.
  destruct (in_exists _); by apply wp_says.
Qed.

(** ** The record *)

Lemma open_active : open_row o0 -> Active.
Proof.
  intros Ho. pose proof (st_abstracts _ _ _ _ Hstart) as Ha. unfold Active, active.
  set (o := o0) in Ha. assert (o0 = o) as Eo by done. clearbody o. destruct o as [r|]; cbn in Ha; [|by rewrite Ha].
  destruct (Ho r Eo) as [Es|Es]; rewrite Es in Ha; by destruct Ha as (held & i & -> & _).
Qed.

Definition of_row (c : UploadCheckpoint) (r : StoredUploadSession) : Prop :=
  o0 = Some r /\ c = upload_checkpoint r.

Lemma wp_lookup s :
  Idle s ->
  wp Safe (lookup (se_owner_id u) (se_upload_id u) (se_target_path u) (se_upload_path u))
    (fun x s' => match x with
     | Ok (LookupFound c) => Idle s' /\ exists r, of_row c r
     | Ok LookupNotSeen => Idle s' /\ open_row o0
     | Ok LookupForeignOwner => Idle s'
     | Err _ => Safe s'
     end) s.
Proof.
  intros Hi. apply (wp_crash (calm s)); [|intros s' Hc; apply Idle_Safe; by etrans].
  eapply wp_mono; [by apply wp_lookup_row, Idle_load|]. intros x s' [Hc Hx].
  assert (Idle s') as Hi' by by etrans. destruct x as [[| |c]|e]; [done..| |by apply Idle_Safe]. done.
Qed.

(** A record that a request may resume. *)
Definition resumable (mode : UploadMode) (r : StoredUploadSession) : Prop :=
  is_resume mode = true /\ (up_state r = Running \/ up_state r = AwaitingConfirmation).

Lemma wp_check_existing_record mode c r s :
  of_row c r -> Idle s ->
  wp Safe (check_existing_record u mode c) (Goes (fun _ s' => Idle s' /\ resumable mode r)) s.
Proof.
  intros [Ho ->] Hi. unfold check_existing_record, resumable. cbv zeta. cbn [upload_checkpoint cp_state].
  destruct (up_state r) eqn:Es; cbn [record_state].
  - destruct (is_resume mode); [apply wp_ret; cbn; by auto|]. apply wp_answered, wp_says; [|done]. unfold says; cbn; eauto.
  - apply wp_answered, wp_says; [|done]. done.
  - destruct (_ =? _)%Z.
    + apply wp_answered, wp_bind, wp_respond, wp_respond.
      split; [by apply (Safe_view s); [..|apply Idle_Safe]|]. intros _. unfold told. cbn.
      exists r. split; [|done]. pose proof (Idle_load s Hi) as Hl. rewrite Ho in Hl. exact Hl.
    + apply wp_answered, wp_says; [|done]. unfold says; cbn; eauto.
  - apply wp_answered, wp_says; [|done]. done.
  - apply wp_answered, wp_says; [|done]. done.
  - destruct (is_resume mode); cbn [negb].
    2:{ apply wp_answered, wp_conflict_says; [|done]. unfold says; cbn; eauto. }
    destruct (negb _); [apply wp_answered, wp_says; [|done]; unfold says; cbn; by eauto|].
    destruct (negb _); [apply wp_answered, wp_says; [|done]; unfold says; cbn; by eauto|].
    apply wp_ret. cbn. auto.
Qed.

(** ** The target *)

Lemma wp_select_target mode overwrite existing s :
  match existing with Some c => exists r, of_row c r | None => True end -> Idle s ->
  wp Safe (select_target u mode overwrite existing)
    (Goes (fun target s => (overwrite = NoReplace -> target.1 = Missing) /\ Idle s)) s.
Proof.
  intros He Hi. unfold select_target. cbv zeta. set (context := error_context _ _ _ _).
  assert (says context) as Hsay.
  { destruct existing as [c|]; [|done]. destruct He as (r & Ho & ->). unfold says, context. cbn.
    destruct (up_state r) eqn:Es; cbn; eauto. }
  assert (forall n, match existing with
      | Some record => bool_decide (cp_state record = RsAwaitingConfirmation)
                       && negb (awaiting_stage_is_create_only record)
      | None => false
      end = true -> says (error_context (se_upload_id u) PsAwaitingConfirmation n (cp_durable_offset <$> existing))) as Haw.
  { intros n. destruct existing as [c|]; [|done]. destruct He as (r & Ho & ->). cbn.
    intros [Ea _]%andb_true_iff. apply bool_decide_eq_true in Ea. unfold says. cbn.
    exists r. split; [done|]. split; [|done]. by destruct (up_state r). }
  apply wp_bind, wp_idle; [calm|done| |done]. intros inspected s1 Hs1 _.
  apply wp_bind, wp_idle; [auto with calm|done| |done]. intros rel s2 Hs2 _. destruct overwrite as [|expected].
  - destruct (_ && _).
    { apply wp_answered, wp_bind. unfold apply_target_inspection_headers.
      apply wp_idle; [calm|done| |by intros; apply Ended_Err]. intros _ s3 Hs3 _. by apply wp_says. }
    destruct (match existing with Some _ => _ | None => _ end) eqn:Em; [|by apply wp_ret].
    apply wp_answered, wp_says; [by apply Haw|done].
  - destruct (_ || _); [by apply wp_answered, wp_conflict_says|].
    apply wp_bind, wp_idle; [calm|done| |done]. intros [[i preserved]|e] s3 Hs3 _.
    + destruct (negb _); [by apply wp_answered, wp_conflict_says|by apply wp_ret].
    + destruct (policy_refusal e); [by apply wp_answered, wp_conflict_says|].
      by apply wp_throw, Idle_Safe.
Qed.

(** ** The checkpoint *)

Lemma wp_check_checkpoint mode initial c r s :
  of_row c r -> resumable mode r -> Idle s ->
  wp Safe (check_checkpoint u initial c) (Goes (fun _ s' => Idle s' /\
    upload_length r = se_upload_length u /\ durable_offset r = initial)) s.
Proof.
  intros [Ho ->] [_ Hst] Hi. unfold check_checkpoint. cbv zeta. set (context := error_context _ _ _ _).
  assert (says context) as Hsay.
  { unfold says, context. cbn. destruct Hst as [Es|Es]; rewrite Es; cbn; eauto. }
  destruct (_ =? _)%Z eqn:El; cbn [negb]; [|by apply wp_answered, wp_says].
  destruct (_ =? _)%Z eqn:Eo in |- *; cbn [negb]; [|by apply wp_answered, wp_says].
  apply Z.eqb_eq in El, Eo. by apply wp_ret.
Qed.

Lemma wp_body_too_long checkpoint resume initial s :
  match checkpoint with
  | Some c => exists r mode, of_row c r /\ resumable mode r /\ resume = true /\ durable_offset r = initial
  | None => True
  end -> Idle s ->
  wp Safe (body_too_long u checkpoint resume initial) Ended s.
Proof.
  intros Hc Hi. unfold body_too_long. destruct checkpoint as [c|]; [|by apply wp_says].
  destruct Hc as (r & mode & [Ho ->] & [_ Hst] & -> & <-). cbn.
  destruct Hst as [Es|Es]; rewrite Es; cbn; (apply wp_says; [|done]); unfold says; cbn; eauto.
Qed.

(** ** Deadlines *)

Lemma wp_expired_before (I : St -> Prop) deadline offset message s :
  Stable I -> I s -> (forall s', I s' -> Safe s') ->
  wp Safe (unless (upload_deadline_expired_before_mutation deadline (se_upload_id u) (se_upload_length u)
             offset message)) (Goes (fun _ => I)) s.
Proof.
  intros HI Hs HS. apply wp_bind, wp_bind. apply (wp_now I); [done..|]. intros t s1 Hs1 _.
  destruct (_ <? _)%Z; [by apply wp_ret, wp_ret|]. apply wp_bind.
  apply wp_plain; [done|by apply HS|]. intros s2 [Hs2 Ht]. apply wp_ret, wp_ret. split; auto.
Qed.

(** The same test after which the request ends either way. *)
Lemma wp_expired_none {A} (I : St -> Prop) (P : A -> St -> Prop) deadline offset message s :
  Stable I -> I s -> (forall s', I s' -> Safe s' /\ h_state (response s') = None) ->
  wp Safe (_ ← upload_deadline_expired_before_mutation deadline (se_upload_id u) (se_upload_length u)
                 offset message; mret None) (Goes P) s.
Proof.
  intros HI Hs HS. apply wp_bind, wp_bind. apply (wp_now I); [done..|]. intros t s1 Hs1 _.
  destruct (HS _ Hs1) as [Hsafe Hm].
  destruct (_ <? _)%Z; [apply wp_ret, wp_ret; split; [done|by apply mute_told]|]. apply wp_bind.
  apply wp_plain; [done..|]. intros s2 [Hs2 Ht]. apply wp_ret, wp_ret. split; auto.
Qed.

Lemma wp_begin_mutation (I : St -> Prop) offset message s :
  Stable I -> I s -> (forall s', I s' -> Safe s') ->
  wp Safe (when (begin_upload_mutation_or_reject (se_upload_id u) (se_upload_length u) offset message))
    (Goes (fun _ => I)) s.
Proof.
  intros HI Hs HS. apply wp_bind, wp_bind. apply (wp_calm I); [auto with calm|done..|].
  intros [b|e] s1 Hs1 _; [|by apply HS]. destruct b; [by apply wp_ret, wp_ret|]. apply wp_bind.
  apply wp_plain; [done|by apply HS|]. intros s2 [Hs2 Ht]. apply wp_ret, wp_ret. split; auto.
Qed.

(** ** A fresh stage *)

Context (Hown : forall i, content (world gh_start) i = [] -> gh_own i).

(** A stage this request has made and nothing refers to. *)
Record Fresh (f : File) (s : St) : Prop := {
  fr_idle : Idle s;
  fr_content : content (world gh_start) (file_id f) = [];
  fr_cursor : cursor (world s) f = 0%Z }.

Lemma Fresh_stable f : Stable (Fresh f).
Proof.
  intros s s' [Hi Hc Hcur] Hcalm. split; [by etrans|done|]. by rewrite (q_cursor _ _ (calm_world _ _ Hcalm)).
Qed.

Lemma Keeps_abandon f created : gh_own (file_id f) -> Keeps (abandon_fresh_stage u f created).
Proof.
  intros Ho. unfold abandon_fresh_stage. apply Keeps_bind; [by apply Keeps_attempt, Keeps_discard_unrecorded|].
  intros r. apply Keeps_bind; [apply Keeps_calm; unfold rollback_upload_ancestors; calm|].
  intros _. apply Keeps_check_discard.
Qed.

Lemma wp_expired deadline message s :
  Safe s -> told s ->
  wp Safe (upload_deadline_expired deadline (se_upload_id u) message) (fun r s' => match r with
    | Ok true => Safe s' /\ h_state (response s') = Some PsUnknown
    | Ok false => calm s s'
    | Err _ => Safe s'
    end) s.
Proof.
  intros Hs Ht. apply wp_bind. apply (wp_now (fun s' => calm s s' /\ Safe s')).
  { intros x y [H1 H2] Hc. split; [by etrans|by eapply Safe_calm]. }
  { done. }
  intros t s1 [Hc1 Hs1] _. destruct (_ <? _)%Z; [by apply wp_ret|]. apply wp_bind, wp_problem.
  intros s2 Hw Htab Hh _. apply wp_ret. split; [by eapply Safe_view|done].
Qed.

Lemma unknown_told s : h_state (response s) = Some PsUnknown -> told s.
Proof. unfold told. by intros ->. Qed.

Lemma wp_create_stage p s :
  Idle s ->
  wp Safe (call (create_private_upload_stage p)) (fun r s' => match r with
    | Ok (Ok (f, _)) => Fresh f s' | Ok (Err _) => Idle s' | Err _ => False end) s.
Proof.
  intros Hi. apply wp_call. intros o w' E.
  pose proof (law_create p (world s)) as Hq. rewrite E in Hq. cbn in Hq.
  assert (Idle (with_world w' s)) as Hi' by (etrans; [done|by apply calm_world_step]).
  destruct o as [[[f c]|e]|]; [|done|by apply Idle_Safe].
  destruct (law_created p (world s) f c) as [Hc Hcur]; [by rewrite E|]. split; [done|..].
  - rewrite <-Hc. symmetry. apply (q_files _ _ (calm_world _ _ Hi) (file_id f)).
  - cbn. by rewrite (q_cursor _ _ Hq).
Qed.

Lemma wp_create_fresh_stage fuel deadline remaining s :
  Idle s ->
  wp Safe (create_fresh_stage fuel u deadline remaining) (Goes (fun made => Fresh made.1.2)) s.
Proof.
  intros Hi. unfold create_fresh_stage. cbv zeta.
  apply wp_bind, wp_idle; [calm|done| |done]. intros anchor s1 Hs1 _.
  apply wp_bind, wp_idle; [auto with calm|done| |done]. intros [lease|] s2 Hs2 _; [|by apply wp_answered, wp_says].
  eapply wp_proceed; [apply (wp_expired_before Idle); [apply Idle_stable|done|apply Idle_Safe]|]. intros [] s3 Hs3.
  eapply wp_proceed; [apply (wp_begin_mutation Idle); [apply Idle_stable|done|apply Idle_Safe]|]. intros [] s4 Hs4.
  apply wp_bind. eapply wp_mono; [by apply wp_create_stage|].
  intros [[[f created]|e]|e] s5 Hs5; [| |done].
  2:{ destruct e; try (by apply wp_throw, Idle_Safe). by apply wp_answered, wp_says. }
  pose proof (Hown _ (fr_content _ _ Hs5)) as Ho.
  assert (forall s', Fresh f s' -> Safe s' /\ h_state (response s') = None) as HF.
  { intros s' [Hi' _ _]. split; [by apply Idle_Safe|by apply Idle_mute]. }
  apply wp_bind, wp_attempt.
  apply (wp_calm (Fresh f)); [auto with calm|apply Fresh_stable|done|by intros s' []%HF|].
  intros r s6 Hs6 _. cbn beta. pose proof (HF _ Hs6) as [Hsafe6 Hmute6]. destruct r as [[]|e].
  - apply wp_bind. eapply wp_mono; [apply wp_expired; [done|by apply mute_told]|].
    intros [[]|e] s7 Hs7; [| |done].
    + destruct Hs7 as [Hs7 Hh7]. apply wp_answered. apply (wp_keeps Safe); [by apply Keeps_abandon|done..|].
      intros r s8 Hs8 Hh8. split; [done|]. intros _. apply unknown_told. congruence.
    + apply wp_ret. by eapply Fresh_stable.
  - assert (wp Safe (_ ← abandon_fresh_stage u f created; throw e)
      (Goes (fun made : SpaceLease * File * Created => Fresh made.1.2)) s6) as Hother.
    { apply wp_bind. apply (wp_keeps Safe); [by apply Keeps_abandon|done..|].
      intros [[]|?] s7 Hs7 _; done. }
    destruct e as [[]| | |]; try exact Hother.
    apply wp_bind. apply (wp_keeps Safe); [by apply Keeps_abandon|done..|].
    intros [[]|?] s7 Hs7 Hh7; [|done]. apply wp_bind.
    eapply wp_mono; [apply wp_expired; [done|apply mute_told; congruence]|].
    intros [[]|?] s8 Hs8; [| |done]; apply wp_ret.
    + destruct Hs8. split; [done|by apply unknown_told].
    + split; [by eapply Safe_calm|]. apply mute_told. rewrite (calm_told _ _ Hs8). congruence.
Qed.

(** A stage that is recorded and ready to receive. *)
Definition Staged (state : StoredUploadState) (f : File) (s : St) : Prop :=
  Exact f state [] s /\ h_state (response s) = None.

Lemma Staged_stable state f : Stable (Staged state f).
Proof. intros s s' [He Hm] Hc. split; [by eapply Exact_calm|]. by rewrite (calm_told _ _ Hc). Qed.

Lemma Staged_Safe `{!Active} state f s : Staged state f s -> Safe s.
Proof. intros [He _]. by eapply Recv_Safe, ex_recv. Qed.

Lemma Fresh_Recordable f s : base = [] -> live o0 -> Fresh f s -> Recordable f [] s.
Proof.
  intros Hb Hl [Hi Hc Hcur].
  assert (content (world s) (file_id f) = []) as Hc'.
  { rewrite <-Hc. apply (q_files _ _ (calm_world _ _ Hi) (file_id f)). }
  split; rewrite ?Hc'.
  - exists o0, gh_promise. split_and!; [by apply Idle_State|constructor|done|].
    intros held Hh. pose proof (st_abstracts _ _ _ _ Hstart) as Ha. rewrite Hh in Ha.
    apply abstracts_Holds in Ha as (r & i & Ho & _ & Hn & _). exists r. split; [done|]. lia.
  - by apply Hown.
  - apply prefix_nil.
  - intros held _ Hn. destruct held; [done|]. cbn in Hn. lia.
Qed.

(** A first record makes the fresh stage the one to receive into. *)
Lemma Recorded_Staged f e s :
  Recorded f Running e [] s -> length e = length base -> content (world s) (file_id f) = base ->
  cursor (world s) f = Z.of_nat (length base) -> h_state (response s) = None ->
  (forall held, gh_promise = Holds held -> held `prefix_of` e -> held = base) -> Staged Running f s.
Proof.
  intros Hrec Hn Hc Hcur Hm Hold. split; [|done]. pose proof (Recorded_own _ _ _ _ _ Hrec) as Ho.
  destruct Hrec as [(r & [Hf Ha Hw Hfr Hp Hd] & Hst & Hi & Hoff) Hco Hdu Hpe Hpre].
  split; rewrite ?app_nil_r; [|done..]. split; try done.
  - exists r. split_and!; try done. by rewrite Hoff, Hn.
  - by left.
  - by rewrite Hdu, Hc.
  - intros held Hh. apply Hold; [done|]. by apply Hpre.
Qed.

(** The first error of a cleanup, or the error that led to it. *)
Lemma wp_check_all {A} rs e s :
  Safe s ->
  wp Safe (foldr (fun r (m : M A) => _ ← check_discard r; m) (throw e) rs)
    (fun r s' => Safe s' /\ is_ok r = false) s.
Proof.
  revert s. induction rs as [|r rs IH]; intros s Hs; cbn [foldr]; [by apply wp_throw|].
  apply wp_bind. apply (wp_keeps Safe); [apply Keeps_check_discard|done..|].
  intros [[]|?] s1 Hs1 _; [by apply IH|done].
Qed.

Lemma wp_record_fresh_stage `{!Active} deadline v f created s :
  base = [] -> live o0 -> (forall x, v = Some x -> length x = 32) -> Fresh f s ->
  wp Safe (record_fresh_stage u deadline v f created) (Goes (fun p => Staged Running p.1)) s.
Proof.
  intros Hb Hl Hv Hs. unfold record_fresh_stage.
  assert (forall s', Fresh f s' -> Safe s') as HF by (intros s' []; by apply Idle_Safe).
  pose proof (Hown _ (fr_content _ _ Hs)) as Ho.
  apply wp_bind. apply (wp_now (Fresh f)); [apply Fresh_stable|done|]. intros t s1 Hs1 _.
  pose proof (Fresh_Recordable f s1 Hb Hl Hs1) as Hrb. destruct (_ <=? _)%Z.
  { apply wp_answered. by eapply wp_timed_out. }
  apply wp_bind, wp_attempt.
  apply (wp_persist_checkpoint _ _ _ _ _ _ _ []); [by apply revision_own_context|done..| |].
  - intros e s2 Hs2 _. apply wp_bind, wp_attempt. apply (wp_keeps Safe); [by apply Keeps_discard_unrecorded|done..|].
    intros r1 s3 Hs3 _. cbn beta. apply wp_bind, wp_attempt, wp_reset; [done..|]. intros r2 s4 Hs4 _ _. cbn beta.
    apply wp_bind, wp_attempt. apply (wp_keeps Safe); [apply Keeps_calm; unfold rollback_upload_ancestors; calm|done..|].
    intros r3 s5 Hs5 _. cbn beta. eapply wp_mono; [by apply (wp_check_all [Some r1; Some r2; Some r3])|].
    by intros [] s6 [? ?].
  - assert (content (world s1) (file_id f) = []) as Hc1.
    { rewrite <-(fr_content _ _ Hs1). apply (q_files _ _ (calm_world _ _ (fr_idle _ _ Hs1)) (file_id f)). }
    rewrite Hc1. intros s2 Hrec _ Hc2 Hcur2 Hh2. cbv beta iota. apply wp_ret. cbn in *.
    eapply Recorded_Staged; [done|..]; rewrite ?Hb.
    + done.
    + done.
    + rewrite Hcur2. apply Hs1.
    + rewrite Hh2. apply Idle_mute, Hs1.
    + intros held _ Hp. by apply prefix_nil_inv.
Qed.

(** ** A stage that is opened again *)

(** The stage the row names, as it was left: it begins with the promised bytes. *)
Record Opened (r : StoredUploadSession) (f : File) (n : Z) (s : St) : Prop := {
  on_state : State (Some r) (Holds base) [] s;
  on_file : stage_identity r = Some (file_id f);
  on_base : base `prefix_of` durable (world s) (file_id f);
  on_whole : visible (world s) (file_id f) = content (world s) (file_id f);
  on_length : n = Z.of_nat (length (content (world s) (file_id f)));
  on_mute : h_state (response s) = None }.

Lemma Opened_world r f n s s' :
  Opened r f n s -> (forall i, same_file (world s) (world s') i) -> published (world s') = published (world s) ->
  delivered (world s') = delivered (world s) -> table s' = table s ->
  h_state (response s') = h_state (response s) -> Opened r f n s'.
Proof.
  intros [[Hfo Ha Hw Hfr Hp Hd] Hi Hb Hwh Hn Hm] Hf Hp' Hd' Ht Hh. destruct (Hf (file_id f)) as [Ec Ev Ed].
  split; rewrite ?Ec; try done.
  - split; rewrite ?Ht; try congruence.
    + eapply abstracts_kept; [done|]. intros. by eapply kept_same.
    + done.
    + intros i Hi'. eapply same_file_trans; [by apply Hfr|apply Hf].
  - by etrans.
  - apply (anti_symm prefix); [rewrite <-Ec; apply law_order|]. by rewrite <-Hwh.
  - congruence.
Qed.

Lemma Opened_stable r f n : Stable (Opened r f n).
Proof. intros s s' Ho [[Hq Hc Hp Hd] Ht Hh]. by eapply Opened_world. Qed.

Lemma Opened_Safe r f n s : gh_promise = Holds base -> Opened r f n s -> Safe s.
Proof. intros Hp []. exists (Some r), (Holds base), []. split; [done|]. rewrite Hp. constructor. Qed.

(** Only the very file of the record, at least as long as recorded, is opened. *)
Lemma wp_open_resumable r offset s :
  o0 = Some r -> Idle s ->
  wp Safe (open_resumable_stage (session_context u) offset (record_state (up_state r))) (fun x s' => match x with
    | Ok (Some f) => Idle s' /\ stage_identity r = Some (file_id f) /\ offset = durable_offset r /\
        (offset <= Z.of_nat (length (visible (world s') (file_id f))))%Z /\
        visible (world s') (file_id f) = content (world s') (file_id f)
    | Ok None => Idle s'
    | Err _ => Safe s'
    end) s.
Proof.
  intros Ho Hi. unfold open_resumable_stage. cbn [rc_owner_id rc_upload_id rc_target_path rc_stage_path session_context new_context].
  apply wp_bind, wp_idle; [auto with calm|done| |done]. intros [tr sr] s1 Hs1 _.
  apply wp_bind, (wp_upload_session _ _ _ _ (Some r)); [by rewrite <-Ho; apply Idle_load|]. intros s2 Hc2 _.
  assert (Idle s2) as Hs2 by by etrans. pose proof (Idle_Safe _ Hs2) as Hsafe.
  split; [done|]. split; [|done]. cbv beta iota.
  destruct (_ || _) eqn:Eb; [by apply wp_ret|].
  assert (offset = durable_offset r) as ->.
  { apply orb_false_iff in Eb as [Eb _]. apply orb_false_iff in Eb as [_ Eb].
    apply negb_false_iff, Z.eqb_eq in Eb. done. }
  clear Eb. destruct (stage_identity r) as [i|] eqn:Ei; [|by apply wp_ret].
  apply wp_bind, wp_call. intros o w' E.
  set (op := match record_state (up_state r) with RsAwaitingConfirmation => _ | _ => _ end) in E.
  assert (quiet (world s2) w') as Hq.
  { assert (quiet_op op) as Hop by (unfold op; destruct (record_state _); auto with calm).
    specialize (Hop (world s2)). by rewrite E in Hop. }
  assert (Idle (with_world w' s2)) as Hs3 by (etrans; [done|by apply calm_world_step]).
  destruct o as [[f|e]|]; [| |by apply Idle_Safe].
  2:{ destruct (unreachable_stage e); [by apply wp_ret|by apply wp_throw, Idle_Safe]. }
  assert (visible (world s2) (file_id f) = content (world s2) (file_id f)) as Hwh.
  { apply (law_opened (se_upload_path u)). unfold op in E.
    destruct (record_state _); rewrite E; cbn; auto. }
  apply wp_bind, wp_metadata. intros s4 Hc4. assert (Idle s4) as Hs4 by by etrans.
  pose proof (Idle_Safe _ Hs4) as Hsafe4. split; [done|]. split; [done|]. intros m (Hid & Hlen & _).
  destruct (touch_whole f s2 s4) as [Hv4 Hc4'].
  { transitivity (with_world w' s2); apply calm_touch; [by apply calm_world_step|done]. }
  { done. }
  cbv zeta. destruct (negb _ || negb _ || _ || _) eqn:Ebad; [by apply wp_ret|]. apply wp_ret.
  apply orb_false_iff in Ebad as [Ebad Emd]. apply orb_false_iff in Ebad as [_ Elen].
  apply negb_false_iff, bool_decide_eq_true in Emd. rewrite Hid in Emd. split_and!; [done|congruence|done| |congruence].
  rewrite <-Hlen. destruct (record_state _); try done.
  - apply Z.ltb_ge in Elen. done.
  - apply negb_false_iff, Z.eqb_eq in Elen. lia.
Qed.

(** Opening finds the promised bytes. *)
Lemma Idle_Opened r f s :
  o0 = Some r -> gh_promise = Holds base -> Idle s -> stage_identity r = Some (file_id f) ->
  (durable_offset r <= Z.of_nat (length (visible (world s) (file_id f))))%Z ->
  visible (world s) (file_id f) = content (world s) (file_id f) ->
  Opened r f (Z.of_nat (length (content (world s) (file_id f)))) s.
Proof.
  intros Ho Hp Hi Hid Hle Hwh. pose proof (Idle_State _ Hi) as Hs. rewrite Ho, Hp in Hs.
  split; try done; [|by apply Idle_mute].
  destruct (abstracts_Holds _ _ _ (st_abstracts _ _ _ _ Hs)) as (r' & i & [= <-] & _ & Hn & Hi' & Hk).
  rewrite Hid in Hi'. injection Hi' as <-. destruct Hk as [Hk|Hk]; [done|].
  rewrite Hwh, Hk, Hn in Hle. cbn in Hle. destruct base; [apply prefix_nil|]. cbn in Hle. lia.
Qed.

Lemma Opened_Staged r f n s state :
  Opened r f n s -> up_state r = state -> gh_promise = Holds base ->
  content (world s) (file_id f) = base -> cursor (world s) f = Z.of_nat (length base) -> Staged state f s.
Proof.
  intros [Hs Hi Hb Hwh Hn Hm] Hst Hp Hc Hcur. split; [|done]. split; rewrite ?app_nil_r; [|done..].
  pose proof Hs as [Hfo Ha Hw Hfr Hpub Hd].
  destruct (abstracts_Holds _ _ _ Ha) as (r' & i & [= <-] & Hr & Hoff & _).
  split; rewrite ?app_nil_r; try done.
  - by exists r.
  - by rewrite <-Hst.
  - by eapply Hw.
  - by rewrite Hc.
  - by rewrite Hd, app_nil_r.
  - intros held Hh. congruence.
Qed.

(** Cut back to the recorded offset. *)
Lemma wp_truncate r f n s :
  gh_promise = Holds base -> Opened r f n s -> cursor (world s) f = Z.of_nat (length base) ->
  (Z.of_nat (length base) < n)%Z ->
  wp Safe (io (file_set_len f (Z.of_nat (length base)))) (fun x s' => match x with
    | Ok _ => Staged (up_state r) f s' | Err _ => Safe s' end) s.
Proof.
  intros Hp Ho Hcur Hn. pose proof Ho as [Hs Hi Hb Hwh Hlen Hm].
  apply wp_io. intros o w' E.
  pose proof (law_set_len f (Z.of_nat (length base)) (world s)) as Hl. rewrite E, Nat2Z.id in Hl.
  destruct Hl as ([Hel Hco Hvi Hdu] & Hcur' & Hok); [rewrite Hwh; lia|].
  assert (base `prefix_of` content (world s) (file_id f)) as Hbc by (etrans; [done|apply durable_content]).
  assert (base `prefix_of` durable w' (file_id f)) as Hb' by (etrans; [|done]; by apply prefix_take_le).
  assert (State (Some r) (Holds base) [] (with_world w' s)) as Hs'.
  { destruct Hs as [Hfo Ha Hw Hfr Hpub Hd]. destruct Hel as [Hf Hp' Hd']. split; cbn; try congruence; try done.
    - destruct (abstracts_Holds _ _ _ Ha) as (r' & i & [= <-] & Hr & Hoff & Hi' & _). cbn.
      rewrite Hi in Hi'. injection Hi' as <-.
      destruct Hr as [-> | ->]; exists base, (file_id f); split_and!; try done; by left.
    - intros j Hj. eapply same_file_trans; [by apply Hfr|]. apply Hf. intros ->. apply Hj. by eapply Hw. }
  assert (Safe (with_world w' s)) as Hsafe.
  { exists (Some r), (Holds base), []. split; [done|]. rewrite Hp. constructor. }
  destruct o as [[[]|e]|]; [|done..]. specialize (Hok eq_refl).
  assert (content w' (file_id f) = base) as Hc'.
  { rewrite Hok. destruct Hbc as [rest ->]. by rewrite take_app_length. }
  eapply (Opened_Staged r f (Z.of_nat (length base))); try done; [|by cbn; rewrite Hcur'].
  split; try done; cbn; rewrite ?Hc'; [|done].
  apply (anti_symm prefix); [rewrite <-Hc'; apply law_order|]. etrans; [done|apply law_order].
Qed.

Lemma wp_seek r f n offset s :
  gh_promise = Holds base -> Opened r f n s ->
  wp Safe (io (file_seek_start f offset)) (fun x s' => match x with
    | Ok _ => Opened r f n s' /\ cursor (world s') f = offset | Err _ => Safe s' end) s.
Proof.
  intros Hp Ho. apply wp_io. intros o w' E. pose proof (law_seek f offset (world s)) as Hl. rewrite E in Hl.
  destruct Hl as (Hf & Hpub & Hd & Hok).
  assert (Opened r f n (with_world w' s)) as Ho' by by eapply Opened_world.
  pose proof (Opened_Safe _ _ _ _ Hp Ho') as Hsafe.
  destruct o as [[[]|e]|]; [|done..]. split; [done|]. by apply Hok.
Qed.

(** The revision a resumed upload asks for replaces the recorded one. *)
Lemma wp_rerecord `{!Active} f v s :
  gh_promise = Holds base -> (forall x, v = Some x -> length x = 32) -> Staged Running f s ->
  wp Safe (persist_checkpoint f (with_target_revision v (session_context u)) (Z.of_nat (length base)))
    (fun x s' => match x with Ok _ => Staged Running f s' | Err _ => Safe s' end) s.
Proof.
  intros Hp Hv [He Hm]. destruct He as [Hr Hc Hcur]. rewrite app_nil_r in *.
  apply (wp_persist_checkpoint _ _ _ _ _ _ _ []);
    [by apply revision_own_context|by eapply Recv_Recordable|lia|done|done|].
  rewrite Hc, Nat2Z.id, take_ge by done. intros s1 Hrec _ Hc1 Hcur1 Hh1.
  eapply Recorded_Staged; try done; try congruence.
Qed.

Lemma wp_reopen_stage `{!Active} deadline offset v mode c r s :
  of_row c r -> resumable mode r -> gh_promise = Holds base -> durable_offset r = offset ->
  (forall x, v = Some x -> length x = 32) -> Idle s ->
  wp Safe (reopen_stage u deadline offset v c) (Goes (fun p => Staged (up_state r) p.1)) s.
Proof.
  intros [Ho ->] [_ Hst] Hp Hoff Hv Hi. unfold reopen_stage. cbv zeta. cbn [cp_state upload_checkpoint].
  assert (durable_offset r = Z.of_nat (length base)) as Hn.
  { pose proof (st_abstracts _ _ _ _ Hstart) as Ha. rewrite Hp in Ha.
    destruct (abstracts_Holds _ _ _ Ha) as (r' & i & Hr' & _ & Hn & _). congruence. }
  rewrite Hn in Hoff. subst offset.
  apply wp_bind. eapply wp_mono; [by eapply wp_open_resumable|].
  intros [[f|]|e] s1 Hs1; [| |done].
  2:{ apply wp_answered, wp_says; [|done]. unfold says. cbn. rewrite <-Hn.
      destruct Hst as [Es|Es]; rewrite Es; cbn [record_state].
      - rewrite bool_decide_false by done. by eauto.
      - rewrite bool_decide_true by done. by eauto. }
  destruct Hs1 as (Hs1 & Hid & Hoff & Hle & Hwh). rewrite Hoff in Hle.
  pose proof (Idle_Opened r f s1 Ho Hp Hs1 Hid Hle Hwh) as Ho1.
  set (n := Z.of_nat _) in Ho1. clearbody n.
  assert (forall s', Opened r f n s' -> Safe s') as HS by (intros; by eapply Opened_Safe).
  apply wp_bind, wp_metadata. intros s2 Hc2. pose proof (Opened_stable _ _ _ _ _ Ho1 Hc2) as Ho2.
  split; [by apply HS|]. split; [intros; by apply HS|]. intros m (_ & Hlen & _).
  rewrite (on_whole _ _ _ _ Ho2), <-(on_length _ _ _ _ Ho2) in Hlen. rewrite Hlen.
  apply wp_bind. eapply wp_mono; [by apply wp_seek|]. intros [[]|e] s3 Hs3; [|done].
  set (I := fun x => Opened r f n x /\ cursor (world x) f = Z.of_nat (length base)).
  assert (Stable I) as HI.
  { intros x y [Hx Hcur] Hc. split; [by eapply Opened_stable|]. by rewrite (q_cursor _ _ (calm_world _ _ Hc)). }
  assert (forall s', I s' -> Safe s') as HIS by (intros s' [? _]; by apply HS).
  eapply wp_proceed; [by apply (wp_expired_before I)|]. intros [] s4 Hs4.
  assert (forall s', Staged (up_state r) f s' -> Safe s') as HSS by apply Staged_Safe.
  eapply (wp_proceed _ _ (fun _ => Staged (up_state r) f)).
  { destruct (_ <? _)%Z eqn:El.
    - eapply wp_proceed; [by apply (wp_begin_mutation I)|]. intros [] s5 [Ho5 Hcur5]. apply Z.ltb_lt in El.
      apply wp_bind. eapply wp_mono; [by eapply wp_truncate|]. intros [[]|e] s6 Hs6; [by apply wp_ret|done].
    - apply Z.ltb_ge in El. destruct Hs4 as [Ho4 Hcur4]. apply wp_ret. cbn.
      eapply Opened_Staged; try done.
      assert (base `prefix_of` content (world s4) (file_id f)) as [rest Hrest].
      { etrans; [apply Ho4|apply durable_content]. }
      pose proof (on_length _ _ _ _ Ho4) as Hl4. rewrite Hrest, length_app in Hl4.
      destruct rest; [by rewrite app_nil_r in Hrest|]. cbn in Hl4. lia. }
  intros [] s5 Hs5. eapply (wp_proceed _ _ (fun _ => Staged (up_state r) f)).
  { destruct (_ && _) eqn:Eb; [|by apply wp_ret].
    assert (up_state r = Running) as Er.
    { apply andb_true_iff in Eb as [Eb _]. apply bool_decide_eq_true in Eb. by destruct (up_state r). }
    eapply wp_proceed; [apply (wp_begin_mutation (Staged (up_state r) f)); [apply Staged_stable|done..]|].
    intros [] s6 Hs6. apply wp_bind. rewrite Er in *. eapply wp_mono; [by apply wp_rerecord|].
    intros [[]|e] s7 Hs7; [by apply wp_ret|done]. }
  intros [] s6 Hs6. by apply wp_ret.
Qed.

(** ** The stage is ready *)

Lemma wp_deadline_after_stage `{!Active} mode deadline f created message state s :
  default 0%Z (mode_offset mode) = Z.of_nat (length base) -> Staged state f s ->
  wp Safe (deadline_after_stage u mode deadline f created message) (Goes (fun _ => Staged state f)) s.
Proof.
  intros Hoff Hs. unfold deadline_after_stage. apply wp_bind.
  apply (wp_now (Staged state f)); [apply Staged_stable|done|]. intros t s1 Hs1 _.
  apply wp_bind. apply (wp_calm (Staged state f)); [auto with calm|apply Staged_stable|done|apply Staged_Safe|].
  intros [unknown|e] s2 Hs2 _; [|by eapply Staged_Safe]. destruct (_ && _).
  - apply (wp_expired_none (Staged state f)); [apply Staged_stable|done|].
    intros s' Hs'. split; [by eapply Staged_Safe|apply Hs'].
  - apply wp_bind. apply (wp_now (Staged state f)); [apply Staged_stable|done|]. intros t' s3 Hs3 _.
    destruct (_ <=? _)%Z; [|by apply wp_ret]. destruct Hs3 as [[Hr _ _] _]. apply wp_answered.
    eapply wp_timed_out; [by eapply Recv_Recordable|]. intros o Eo. split; [|by eexists].
    rewrite <-Hoff, Eo. done.
Qed.

Lemma wp_confirm_space `{!Active} mode aw f created reserved state s :
  default 0%Z (mode_offset mode) = Z.of_nat (length base) ->
  state = (if aw : bool then AwaitingConfirmation else Running) ->
  (state = AwaitingConfirmation -> Z.of_nat (length base) = se_upload_length u) -> Staged state f s ->
  wp Safe (confirm_space u mode aw f created reserved) (Goes (fun _ => Staged state f)) s.
Proof.
  intros Hoff Hst Haw Hs. unfold confirm_space. rewrite Hoff. cbv zeta.
  assert (forall s' status code detail (other : M (option SpaceLease)), Staged state f s' ->
    (Staged Running f s' -> aw = false -> wp Safe other (Goes (fun _ => Staged state f)) s') ->
    wp Safe (if aw : bool then answered (apply_awaiting_confirmation_problem (se_upload_id u) (se_upload_length u)
               status code detail) else other) (Goes (fun _ => Staged state f)) s') as Hcase.
  { intros s' status code detail other Hs' Hother. destruct aw; subst state; [|by apply Hother].
    destruct Hs' as [[Hr _ _] _]. apply wp_answered. eapply wp_awaiting_problem; [done|auto]. }
  destruct reserved as [lease|].
  - apply wp_bind. apply (wp_space_confirmed (Staged state f)); [apply Staged_stable|done|apply Staged_Safe|].
    intros [] s1 Hs1 _; [by apply wp_ret|]. apply Hcase; [done|]. intros Hs1' ->.
    eapply wp_proceed; [apply (wp_begin_mutation (Staged Running f)); [apply Staged_stable|done|apply Staged_Safe]|].
    intros [] s2 [[Hr2 _ _] _]. apply wp_answered. by eapply wp_space_failure.
  - apply Hcase; [done|]. intros Hs1 ->. pose proof (Staged_Safe _ _ _ Hs1) as Hsafe. apply wp_bind.
    destruct (is_resume mode).
    + apply wp_ret, wp_answered. destruct Hs1 as [[Hr _ _] _]. by eapply wp_as_recorded.
    + apply (wp_keeps Safe); [apply Keeps_reset_session|done..|]. intros [[]|e] s2 Hs2 _; [|done].
      apply wp_answered. by apply wp_plain.
Qed.

(** ** The whole preparation *)

Context (path : bytes) (options : UploadOptions) (upload_path : bytes).
Context (Hupload : gh_upload =
  {| se_owner_id := owner_persistent (op_owner options); se_upload_id := op_upload_id options;
     se_target_path := path; se_upload_path := upload_path; se_upload_length := op_upload_length options |}).
Context (Hpath : forall p, PathPolicy.upload_temp_path hyphenated sha256 path (op_upload_id options) = Ok p ->
  p = upload_path).
Context (Hbase : if is_resume (op_mode options) then forall held, gh_promise = Holds held -> base = held
                 else base = []).
Context (Hoverwrite : gh_overwrite = op_overwrite options).
Context (Hrevision : forall v, revision (op_overwrite options) = Some v -> length v = 32).

(** The checkpoint a resumed request goes on with. *)
Definition resumes (c : option UploadCheckpoint) : Prop :=
  if is_resume (op_mode options) then
    exists cp r, c = Some cp /\ of_row cp r /\ resumable (op_mode options) r /\
      upload_length r = se_upload_length u /\ mode_offset (op_mode options) = Some (durable_offset r) /\
      gh_promise = Holds base
  else c = None.

Definition state_of (c : option UploadCheckpoint) : StoredUploadState :=
  if awaiting (cp_state <$> c) then AwaitingConfirmation else Running.

Lemma resumes_offset c : resumes c -> default 0%Z (mode_offset (op_mode options)) = Z.of_nat (length base).
Proof.
  unfold resumes. destruct (op_mode options) as [|n] eqn:Em; cbn in *.
  - intros _. by rewrite Hbase.
  - intros (cp & r & _ & [Ho _] & _ & _ & [= ->] & Hp).
    pose proof (st_abstracts _ _ _ _ Hstart) as Ha. rewrite Hp in Ha.
    destruct (abstracts_Holds _ _ _ Ha) as (r' & i & Hr' & _ & Hn & _). congruence.
Qed.

Lemma resumes_state c cp r :
  c = Some cp -> of_row cp r -> resumable (op_mode options) r -> state_of c = up_state r.
Proof.
  intros -> [_ ->] [_ Hst]. unfold state_of, awaiting. cbn.
  destruct Hst as [-> | ->]; cbn; [by rewrite bool_decide_false|by rewrite bool_decide_true].
Qed.

Lemma resumes_awaiting c :
  resumes c -> state_of c = AwaitingConfirmation -> Z.of_nat (length base) = se_upload_length u.
Proof.
  intros Hr Hst. pose proof (resumes_offset c Hr) as Hoff. unfold resumes in Hr.
  destruct (is_resume (op_mode options)); [|by subst c].
  destruct Hr as (cp & r & -> & Hrow & Hres & Hlen & Hm & _). rewrite Hm in Hoff. cbn in Hoff.
  rewrite (resumes_state _ _ _ eq_refl Hrow Hres) in Hst. destruct Hrow as [Ho _].
  pose proof (Idle_load gh_start ltac:(done)) as Hl. rewrite Ho in Hl.
  destruct (load_encodable _ _ _ Hl) as [He _].
  pose proof (UploadStore.en_valid _ He) as Hv. apply UploadStore.session_validate_Ok in Hv as (_ & _ & _ & _ & Hv).
  rewrite Hst in Hv. specialize (Hv ltac:(set_solver)). lia.
Qed.

(** What a request may do given the record of its upload id. *)
Definition may_go (existing : option UploadCheckpoint) : Prop :=
  match existing with
  | Some c => exists r, of_row c r /\ resumable (op_mode options) r
  | None => open_row o0
  end.

Lemma may_go_row existing :
  may_go existing -> match existing with Some c => exists r, of_row c r | None => True end.
Proof. destruct existing; [|done]. intros (r & ? & _). eauto. Qed.

Lemma may_go_open existing : may_go existing -> open_row o0.
Proof.
  destruct existing as [c|]; [|done]. intros (r & [Ho _] & [_ Hst]) r' Hr'. congruence.
Qed.

(** The last steps: the recorded stage, its deadline, its space and the boundary. *)
Definition ready (t : UploadTransaction) (s : St) : Prop :=
  Active /\ exists state, own_upload t state /\ Staged state (tx_file t) s.

Lemma wp_finish_preparation `{!Active} c target fresh remaining f status s :
  resumes c -> allowed target.1 -> Staged (state_of c) f s ->
  wp Safe (finish_preparation u options target (cp_state <$> c) fresh remaining f status) (Goes ready) s.
Proof.
  intros Hc Hal Hs. unfold finish_preparation. cbv zeta. pose proof (resumes_offset c Hc) as Hoff.
  pose proof (Staged_stable (state_of c) f) as HI. pose proof (Staged_Safe (state_of c) f) as HS.
  eapply wp_proceed; [by apply wp_deadline_after_stage|]. intros [] s1 Hs1.
  apply wp_bind. apply (wp_calm (Staged (state_of c) f)); [|done..|].
  { destruct fresh as [[[? ?] ?]|]; [calm|auto with calm]. }
  intros [reserved|e] s2 Hs2 _; [|by apply HS].
  eapply wp_proceed; [eapply (wp_confirm_space _ _ _ _ _ (state_of c)); [done|done| |done]|].
  { by apply resumes_awaiting. }
  intros lease s3 Hs3. cbv beta in Hs3. eapply wp_proceed; [by apply wp_deadline_after_stage|]. intros [] s4 Hs4.
  eapply wp_proceed; [by apply (wp_begin_mutation (Staged (state_of c) f))|]. intros [] s5 Hs5.
  apply wp_ret. split; [done|]. exists (state_of c). split; [|done]. split; [by split|done|]. by apply resumes_awaiting.
Qed.

Lemma mode_cases mode :
  (is_resume mode = false /\ mode_offset mode = None) \/
  exists n, is_resume mode = true /\ mode_offset mode = Some n.
Proof. destruct mode; cbn; eauto. Qed.

Lemma wp_stage_upload `{!Active} fuel body target c s :
  resumes c -> allowed target.1 -> live o0 -> Idle s ->
  wp Safe (stage_upload fuel u options body target c) (Goes ready) s.
Proof.
  intros Hc Hal Hlive Hi. unfold stage_upload. cbv zeta.
  destruct (u64_checked_sub _ _) as [remaining|]; [|by apply wp_throw, Idle_Safe].
  destruct (match body with Some n => (remaining <? n)%Z | None => false end).
  { apply wp_answered, wp_body_too_long; [|done]. pose proof (resumes_offset c Hc) as Hoff.
    unfold resumes in Hc. destruct (is_resume (op_mode options)); [|by subst c].
    destruct Hc as (cp & r & -> & Hrow & Hres & _ & Hm & _). rewrite Hm. by exists r, (op_mode options). }
  pose proof Hc as Hc'. unfold resumes in Hc'. pose proof Hbase as Hb.
  destruct (mode_cases (op_mode options)) as [[Em Eo]|[offset [Em Eo]]]; rewrite Em in Hb, Hc' |- *;
    rewrite ?Eo in Hc'; rewrite Eo.
  - subst c.
    eapply (wp_proceed _ _ (fun fresh s' => exists lease f created, fresh = Some (lease, f, created) /\ Fresh f s')).
    { eapply wp_proceed; [by apply wp_create_fresh_stage|]. intros [[lease f] created] s1 Hs1.
      apply wp_ret. by exists lease, f, created. }
    intros fresh s1 (lease & f & created & -> & Hs1).
    eapply wp_proceed; [by apply wp_record_fresh_stage|].
    intros [g status] s2 Hs2. by apply wp_finish_preparation.
  - destruct Hc' as (cp & r & -> & Hrow & Hres & _ & [= ->] & Hp).
    eapply (wp_proceed _ _ (fun fresh s' => fresh = None /\ Idle s')); [by apply wp_ret|]. intros fresh s1 [-> Hs1].
    eapply wp_proceed; [by eapply wp_reopen_stage|]. intros [f status] s2 Hs2.
    apply wp_finish_preparation; [done..|]. by rewrite (resumes_state _ _ _ eq_refl Hrow).
Qed.

Lemma wp_consult_record fuel s :
  Idle s ->
  wp Safe (consult_record fuel u options) (Goes (fun existing s' => Idle s' /\ may_go existing)) s.
Proof.
  intros Hi. unfold consult_record. cbv zeta.
  assert (forall s', Idle s' -> Safe s') as HS by apply Idle_Safe.
  apply wp_bind. eapply wp_mono; [by apply wp_lookup|]. intros [found|e] s1 Hs1; [|done].
  eapply (wp_proceed _ _ (fun existing s' => Idle s' /\
    match existing with Some c => exists r, of_row c r | None => open_row o0 end)).
  { destruct found as [| |c]; [by apply wp_ret| |by apply wp_ret]. apply wp_answered. by apply wp_says. }
  intros existing s2 [Hs2 Hex]. eapply (wp_proceed _ _ (fun _ s' => Idle s' /\ may_go existing)).
  { destruct existing as [c|]; [|by apply wp_ret]. destruct Hex as [r Hrow].
    eapply wp_mono; [by apply wp_check_existing_record|].
    intros [[[]|]|] s3 Hs3; [|done..]. destruct Hs3 as [Hs3 Hres]. split; [done|]. by exists r. }
  intros [] s3 [Hs3 Hgo]. eapply (wp_proceed _ _ (fun _ => Idle)).
  { destruct (_ && _); [|by apply wp_ret]. apply wp_answered. by apply wp_says. }
  intros [] s4 Hs4. cbv beta in Hs4. eapply (wp_proceed _ _ (fun _ => Idle)).
  { destruct (is_resume (op_mode options)); [|by apply wp_ret]. apply wp_bind, wp_attempt.
    apply (wp_calm Idle); [auto with calm|apply Idle_stable|done..|].
    intros r s5 Hs5 _. cbv beta. destruct r as [[]|e]; [by apply wp_ret|].
    destruct e as [[]| | |]; try by (apply wp_throw, HS). 1-2: apply wp_answered; by apply wp_says.
    apply (wp_expired_none Idle); [apply Idle_stable|done|].
    intros s' Hs'. split; [by apply HS|by apply Idle_mute]. }
  intros [] s5 Hs5. by apply wp_ret.
Qed.

(** The checks of the checkpoint establish what a resumed request relies on. *)
Lemma wp_checked_checkpoint c s :
  (if is_resume (op_mode options) then exists cp r, c = Some cp /\ of_row cp r /\ resumable (op_mode options) r
   else c = None) -> Idle s ->
  wp Safe (match c with
           | Some cp => check_checkpoint u (default 0%Z (mode_offset (op_mode options))) cp
           | None => mret (Some tt)
           end) (Goes (fun _ s' => Idle s' /\ resumes c)) s.
Proof.
  intros Hc Hi. unfold resumes.
  destruct (mode_cases (op_mode options)) as [[Em Eo]|[n [Em Eo]]]; rewrite Em in Hc |- *; rewrite Eo.
  { subst c. by apply wp_ret. }
  destruct Hc as (cp & r & -> & Hrow & Hres). eapply wp_mono; [by eapply wp_check_checkpoint|].
  intros [[[]|]|] s1 Hs1; [|done..]. destruct Hs1 as (Hs1 & Hl & Ho). split; [done|].
  exists cp, r. split_and!; try done; [by rewrite Ho|].
  pose proof (st_abstracts _ _ _ _ Hstart) as Ha. rewrite (proj1 Hrow) in Ha. cbn in Ha.
  pose proof Hbase as Hb. rewrite Em in Hb. destruct Hres as [_ Hst].
  destruct Hst as [Es|Es]; rewrite Es in Ha; destruct Ha as (held & i & Hp & _); by rewrite (Hb held Hp).
Qed.

Lemma wp_prepare_upload fuel body s :
  Idle s -> wp Safe (prepare_upload fuel path options body) (Goes ready) s.
Proof.
  intros Hi. unfold prepare_upload. cbv zeta.
  pose proof (f_equal se_upload_id Hupload) as Eid. pose proof (f_equal se_upload_length Hupload) as Elen.
  cbn in Eid, Elen.
  assert (forall m s', Idle s' -> wp Safe (unless (upload_deadline_expired_before_mutation (op_deadline options)
    (op_upload_id options) (op_upload_length options) (mode_offset (op_mode options)) m))
    (Goes (fun _ : unit => Idle)) s') as Hexp.
  { intros m s' Hs'. rewrite <-Eid, <-Elen.
    apply (wp_expired_before Idle); [apply Idle_stable|done|apply Idle_Safe]. }
  apply wp_bind, wp_idle; [calm|done| |done]. intros _ s1 Hs1 _.
  eapply wp_proceed; [by apply Hexp|]. intros [] s2 Hs2. cbv beta in Hs2.
  apply wp_bind. unfold upload_temp_path. apply wp_of_result; [|intros; by apply Idle_Safe].
  intros p Hp. rewrite (Hpath p Hp). clear p Hp. rewrite <-Hupload.
  eapply wp_proceed; [by apply wp_consult_record|]. intros existing s3 [Hs3 Hgo].
  eapply (wp_proceed _ _ (fun _ => Idle)).
  { destruct (is_resume (op_mode options)); [|by apply wp_ret]. by apply Hexp. }
  intros [] s4 Hs4. cbv beta in Hs4.
  eapply wp_proceed; [apply wp_select_target; [by apply may_go_row|done]|]. intros target s5 [Htg Hs5].
  eapply wp_proceed; [by apply Hexp|]. intros [] s6 Hs6. cbv beta in Hs6.
  eapply (wp_proceed _ _ (fun c s' => Idle s' /\
    if is_resume (op_mode options) then exists cp r, c = Some cp /\ of_row cp r /\ resumable (op_mode options) r
    else c = None)).
  { destruct (is_resume (op_mode options)); [|by apply wp_ret]. destruct existing as [c|].
    - destruct Hgo as (r & ? & ?). apply wp_ret. split; [done|]. by exists c, r.
    - apply wp_answered. rewrite <-Eid. by apply wp_says. }
  intros c s7 [Hs7 Hc]. eapply wp_proceed; [by apply Hexp|]. intros [] s8 Hs8. cbv beta in Hs8.
  eapply wp_proceed; [by apply wp_checked_checkpoint|]. intros [] s9 [Hs9 Hres].
  pose proof (may_go_open _ Hgo) as Hopen. pose proof (open_active Hopen) as Hact.
  apply wp_stage_upload; [done|by unfold allowed; rewrite Hoverwrite|by apply open_live|done].
Qed.

(** ** The request *)

Lemma wp_store_problem context error s :
  plain (ec_state context) = true -> Known s ->
  wp Known (apply_upload_record_store_problem context error) (fun r s' =>
    Known s' /\ (r = Ok true -> told s')) s.
Proof.
  intros Hp Hs. destruct error as [e|[]| |e]; cbn [apply_upload_record_store_problem].
  all: try by apply wp_ret.
  all: apply wp_bind; eapply wp_mono; [by apply wp_plain_over|].
  all: intros [[]|e] s' [Hk Ht]; [apply wp_ret; split; auto|done].
Qed.

Lemma told_view s s' : table s' = table s -> response s' = response s -> told s -> told s'.
Proof. intros Ht Hr. unfold told, row_in. by rewrite Ht, Hr. Qed.

Lemma wp_report (r : result Error unit) s :
  Over r s -> wp Known (_ ← release_active; report_error options r) Over s.
Proof.
  intros [Hk Ht]. apply wp_bind.
  assert (forall s', table s' = table s -> response s' = response s -> Known s' ->
    wp Known (report_error options r) Over s') as Hr.
  { intros s' Htab Hres Hk'. destruct r as [[]|e]; cbn [report_error].
    - apply wp_ret. split; [done|]. intros _. by apply (told_view s), Ht.
    - apply wp_bind. eapply wp_mono; [by apply wp_store_problem|].
      intros [[]|x] s1 [Hk1 Ht1]; [apply wp_ret; split; auto|by apply wp_throw|done]. }
  apply Hr; [done..|]. eapply Known_calm; [exact Hk|apply Calm_release_active].
Qed.

Lemma wp_handle_upload fuel body : wp Known (handle_upload fuel path options body) Over gh_start.
Proof.
  unfold handle_upload. apply wp_bind, wp_attempt.
  apply (wp_mono _ _ Over); [|intros r s Hs; by apply wp_report].
  apply wp_bind. apply (wp_crash Safe); [|intros; by left]. eapply wp_mono; [by apply wp_prepare_upload|].
  intros [[t|]|e] s Hs.
  - destruct Hs as (Hact & state & Ho & He & _). by eapply wp_transfer_upload_body.
  - destruct Hs as [Hs Ht]. apply wp_ret. split; [by left|done].
  - split; [by left|done].
Qed.

End prepare.

(** ** The contract *)

Section contract.
Context `{L : UploadLaws}.

(** Where a request starts: after the bytes that are held, or anew. *)
Definition base_of (mode : UploadMode) (a : promise) : bytes :=
  match a with Holds held => if is_resume mode then held else [] | _ => [] end.

Definition request_key (options : UploadOptions) : UploadSessionKey :=
  upload_session_key (owner_persistent (op_owner options)) (op_upload_id options).

(** What the HTTP layer has checked of the options. *)
Definition options_ok (options : UploadOptions) : Prop :=
  length (op_upload_id options) = 16 /\ (0 <= op_upload_length options)%Z /\
  forall v, revision (op_overwrite options) = Some v -> length v = 32.

Definition own_files (s : St) (o : option StoredUploadSession) (i : StoredFileIdentity) : Prop :=
  content (world s) i = [] \/ exists r, o = Some r /\ stage_identity r = Some i.

Lemma request_key_wf options : options_ok options -> key_wf (request_key options) = true.
Proof.
  intros (Hi & _). unfold key_wf, request_key, upload_session_key, owner_persistent. cbn.
  by rewrite law_sha256, Hi.
Qed.

(** The frame of one request as an instance of the proofs above. *)
Definition ghost_of (path upload_path : bytes) (options : UploadOptions) (s : St)
    (o : option StoredUploadSession) (a : promise) (Hok : options_ok options) : Ghost :=
  {| gh_start := s;
     gh_upload := {| se_owner_id := owner_persistent (op_owner options); se_upload_id := op_upload_id options;
                     se_target_path := path; se_upload_path := upload_path;
                     se_upload_length := op_upload_length options |};
     gh_promise := a; gh_base := base_of (op_mode options) a; gh_own := own_files s o;
     gh_overwrite := op_overwrite options;
     gh_key := request_key_wf options Hok; gh_length := proj1 (proj2 Hok) |}.

Lemma ghost_start path upload_path options s o a Hok :
  found limits (table s) (request_key options) o -> abstracts (world s) o a ->
  State (G := ghost_of path upload_path options s o a Hok) o a [] s.
Proof.
  intros Hf Ha. split; cbn; try done.
  - intros r i Hr Hi. right. eauto.
  - by rewrite app_nil_r.
Qed.


Definition stage_path_of (path : bytes) (options : UploadOptions) : bytes :=
  match PathPolicy.upload_temp_path hyphenated sha256 path (op_upload_id options) with
  | Ok p => p | Err _ => [] end.

Lemma request_over fuel path options body s o a (Hok : options_ok options) :
  found limits (table s) (request_key options) o -> abstracts (world s) o a -> h_state (response s) = None ->
  let G := ghost_of path (stage_path_of path options) options s o a Hok in
  wp Known (handle_upload fuel path options body) Over s.
Proof.
  intros Hf Ha Hm G.
  eapply (wp_handle_upload (G := G) o); try done.
  - by apply ghost_start.
  - intros i Hi. by left.
  - intros p Hp. unfold stage_path_of. by rewrite Hp.
  - cbn. unfold base_of. destruct (is_resume _); [intros held ->; done|by destruct a].
  - apply Hok.
Qed.

(** What a run of the handler leaves behind, whatever its outcome. *)
Lemma request_known fuel path options body s o a (Hok : options_ok options) :
  found limits (table s) (request_key options) o -> abstracts (world s) o a -> h_state (response s) = None ->
  Known (G := ghost_of path (stage_path_of path options) options s o a Hok)
    (handle_upload fuel path options body s).2.
Proof.
  intros Hf Ha Hm. pose proof (request_over fuel path options body s o a Hok Hf Ha Hm) as Hw.
  cbv zeta in Hw. unfold wp in Hw. destruct (handle_upload fuel path options body s) as [[[]|e|] s'];
    [apply Hw..|done].
Qed.

(** C2. One upload request is a step of the abstract machine.  From any state in which
    the row of the upload id stands for the promise [a], for any answers of the file
    system, the clock, the client and the state store, any outcome of the handler and
    any point at which the process dies, the row afterwards stands for a promise that
    [request] allows: held bytes are only extended, by bytes of this body in order,
    or given up with the row; a decided upload stays as it is; and what was published
    is nothing, or exactly the held bytes followed by the body, of the declared
    length, at the target, durably. *)
Theorem upload_request_refines fuel path options body s o a :
  options_ok options -> found limits (table s) (request_key options) o -> abstracts (world s) o a ->
  h_state (response s) = None ->
  let s' := (handle_upload fuel path options body s).2 in
  exists o' a' d f pubs,
    found limits (table s') (request_key options) o' /\ abstracts (world s') o' a' /\
    delivered (world s') = delivered (world s) ++ d /\
    request (base_of (op_mode options) a) d (op_upload_length options) a pubs a' /\
    published (world s') = published (world s) ++
      ((fun data => {| pub_path := path; pub_file := f; pub_data := data |}) <$> pubs) /\
    Forall (fun data => data `prefix_of` durable (world s') f) pubs.
Proof.
  intros Hok Hf Ha Hm s'. destruct (request_known fuel path options body s o a Hok Hf Ha Hm)
    as [(o' & a' & d & [Hf' Ha' _ _ Hp Hd] & Hr)|(f & d & st & Hpub)].
  - exists o', a', d, {| id_device := 0; id_inode := 0 |}, []. cbn in *. rewrite app_nil_r. done.
  - destruct Hpub as [(r & Hf' & Hst) Hcom Hact Hp Hl Hdu Hd _].
    exists (Some r), (if bool_decide (st = Committed) then Done else Undecided), d, (file_id f),
      [base_of (op_mode options) a ++ d].
    split_and!; [done| |done| |done|by constructor].
    + cbn. rewrite Hst. destruct Hcom as [-> |[-> | ->]]; by rewrite ?bool_decide_true, ?bool_decide_false by done.
    + apply rq_publish; [done..|]. case_bool_decide; auto.
Qed.

(** C18. Responses are true.  When the handler answers, a response that says the upload
    runs or awaits confirmation gives the state and the offset that are recorded, and
    one that says it is committed is given only if the record says so and the upload
    was published by this request or recorded as committed before it. *)
Theorem upload_response_true fuel path options body s o a s' :
  options_ok options -> found limits (table s) (request_key options) o -> abstracts (world s) o a ->
  h_state (response s) = None -> handle_upload fuel path options body s = (Val tt, s') ->
  exists o', UploadStore.load_upload_session (table s') (request_key options) = Ok o' /\
    match h_state (response s') with
    | Some PsRunning =>
        exists r, o' = Some r /\ up_state r = Running /\ h_offset (response s') = Some (durable_offset r)
    | Some PsAwaitingConfirmation =>
        exists r, o' = Some r /\ up_state r = AwaitingConfirmation /\
          h_offset (response s') = Some (durable_offset r)
    | Some PsCommitted =>
        exists r, o' = Some r /\ up_state r = Committed /\
          (a = Done \/ exists data f, Z.of_nat (length data) = op_upload_length options /\
             published (world s') = published (world s) ++
               [{| pub_path := path; pub_file := f; pub_data := data |}])
    | _ => True
    end.
Proof.
  intros Hok Hf Ha Hm E. pose proof (request_over fuel path options body s o a Hok Hf Ha Hm) as Hw.
  cbv zeta in Hw. unfold wp in Hw. rewrite E in Hw. destruct Hw as [Hk Ht]. specialize (Ht eq_refl).
  assert (exists o', UploadStore.load_upload_session (table s') (request_key options) = Ok o' /\
    forall r, o' = Some r -> up_state r = Committed -> a = Done \/ exists data f,
      Z.of_nat (length data) = op_upload_length options /\ published (world s') = published (world s) ++
        [{| pub_path := path; pub_file := f; pub_data := data |}]) as (o' & Ho' & Hc).
  { destruct Hk as [(o' & a' & d & [Hf' Ha' _ _ _ _] & Hr)|(f & d & st & Hpub)].
    - exists o'. split; [apply Hf'|]. intros r -> Hst. cbn in Ha'. rewrite Hst in Ha'. subst a'. left.
      by inversion Hr.
    - destruct Hpub as [(r & Hf' & _) _ _ Hp Hl _ _ _]. exists (Some r). split; [apply Hf'|].
      intros _ _ _. right. by exists (base_of (op_mode options) a ++ d), (file_id f). }
  exists o'. split; [done|]. unfold request_key in Ho'. unfold told, row_in in Ht. cbn in Ht, Ho'. rewrite Ho' in Ht.
  destruct (h_state (response s')) as [[]|]; try done.
  - destruct Ht as (r & [[= ->] ?] & ?). by exists r.
  - destruct Ht as (r & [[= ->] ?] & ?). by exists r.
  - destruct Ht as (r & [= ->] & ?). exists r. split_and!; [done..|]. by apply (Hc r).
Qed.

(** C19. An upload touches no other file.  Whatever happens, a file that had bytes when
    the request began and is not the recorded stage of this upload keeps them through
    everything the request does, with at most one exception: the file that a publication
    over an existing target displaces, whichever is there by then.  Nothing is displaced
    unless the request published and the client had confirmed, with a revision of the
    target, that it is to be overwritten. *)
Theorem upload_touches_its_stage_only fuel path options body s o a :
  options_ok options -> found limits (table s) (request_key options) o -> abstracts (world s) o a ->
  h_state (response s) = None ->
  let s' := (handle_upload fuel path options body s).2 in
  exists displaced,
    (published (world s') = published (world s) \/ op_overwrite options = NoReplace -> displaced = Missing) /\
    forall i, content (world s) i <> [] -> (forall r, o = Some r -> stage_identity r <> Some i) ->
      ~ replaces displaced i ->
      content (world s') i = content (world s) i /\ durable (world s) i `prefix_of` durable (world s') i.
Proof.
  intros Hok Hf Ha Hm s'.
  assert (forall i, content (world s) i <> [] -> (forall r, o = Some r -> stage_identity r <> Some i) ->
    ~ own_files s o i) as Hown.
  { intros i Hc Hi [?|(r & Hr & ?)]; [done|]. by eapply Hi. }
  destruct (request_known fuel path options body s o a Hok Hf Ha Hm)
    as [(o' & a' & d & [_ _ _ Hfr Hp _] & _)|(f & d & st & [_ _ _ Hp _ _ _ (v & Hv & Hfr)])].
  - exists Missing. split; [done|]. intros i Hc Hi _. by destruct (Hfr i (Hown i Hc Hi)).
  - exists v. split.
    + intros [Hsame|Hno]; [exfalso|by apply Hv]. cbn in Hp. fold s' in Hp. rewrite Hp in Hsame. apply (f_equal length) in Hsame.
      rewrite length_app in Hsame. cbn in Hsame. lia.
    + intros i Hc Hi Hx. by destruct (Hfr i (Hown i Hc Hi) Hx).
Qed.
End contract.

(** ** Runs *)

Definition run_path : bytes := str "/srv/a".
Definition run_options (mode : UploadMode) : UploadOptions :=
  {| op_owner := str "me"; op_mode := mode; op_upload_id := replicate 16 x61; op_upload_length := 5;
     op_overwrite := NoReplace; op_deadline := 1000 |}.
Definition run_start : St := UploadMemory.mem_start [Chunk (str "hel"); Chunk (str "lo")].

(** A fresh upload of five bytes is published. *)
Example run_fresh :
  let '(r, s) := handle_upload 20 run_path (run_options UploadProtocol.Fresh) (Some 5%Z) run_start in
  r = Val tt /\ h_state (response s) = Some PsCommitted /\ pub_data <$> published (world s) = [str "hello"].
Proof. by vm_compute. Qed.

(** The process dies after the first chunk; the client resumes and finishes. *)
Example run_resumed :
  let '(r, s) := handle_upload 1 run_path (run_options UploadProtocol.Fresh) (Some 5%Z) run_start in
  r = Crashed /\ pub_data <$> published (world s) = [] /\
  let '(r, s) := handle_upload 20 run_path (run_options (Resume 0)) (Some 5%Z)
                   (UploadMemory.mem_again [Chunk (str "hello")] s) in
  r = Val tt /\ h_state (response s) = Some PsCommitted /\ pub_data <$> published (world s) = [str "hello"].
Proof. by vm_compute. Qed.

Lemma run_options_ok mode : options_ok (run_options mode).
Proof. by split_and!. Qed.
Lemma run_found mode : found limits (table run_start) (request_key (run_options mode)) None.
Proof. split; [apply UploadMemory.mem_empty_ok|done]. Qed.

Abbreviation run_end := ((handle_upload 20 run_path (run_options UploadProtocol.Fresh) (Some 5%Z) run_start).2).

Lemma upload_request_refines_witness :
  (pub_data <$> published (world run_end)) = [str "hello"] /\
  exists o' a' d f pubs,
    found limits (table run_end) (request_key (run_options UploadProtocol.Fresh)) o' /\
    abstracts (world run_end) o' a' /\
    delivered (world run_end) = delivered (world run_start) ++ d /\
    request [] d 5 NoPromise pubs a' /\
    published (world run_end) = published (world run_start) ++
      ((fun data => {| pub_path := run_path; pub_file := f; pub_data := data |}) <$> pubs) /\
    Forall (fun data => data `prefix_of` durable (world run_end) f) pubs.
Proof.
  split; [by vm_compute|].
  apply (upload_request_refines 20 run_path (run_options UploadProtocol.Fresh) (Some 5%Z) run_start None NoPromise).
  - apply run_options_ok.
  - apply run_found.
  - reflexivity.
  - reflexivity.
Defined.

Lemma upload_response_true_witness :
  exists s', handle_upload 20 run_path (run_options UploadProtocol.Fresh) (Some 5%Z) run_start = (Val tt, s') /\
    h_state (response s') = Some PsCommitted /\
    exists o', UploadStore.load_upload_session (table s') (request_key (run_options UploadProtocol.Fresh)) = Ok o'.
Proof.
  assert ((handle_upload 20 run_path (run_options UploadProtocol.Fresh) (Some 5%Z) run_start).1 = Val tt /\
    h_state (response run_end) = Some PsCommitted) as [Hr Hh] by by vm_compute.
  destruct (handle_upload 20 run_path (run_options UploadProtocol.Fresh) (Some 5%Z) run_start) as [r s'] eqn:E.
  cbn [fst snd] in Hr, Hh. subst r.
  exists s'. split; [reflexivity|]. split; [exact Hh|].
  destruct (upload_response_true 20 run_path (run_options UploadProtocol.Fresh) (Some 5%Z) run_start None NoPromise s'
    (run_options_ok _) (run_found _) eq_refl eq_refl E) as (o' & Ho' & _). by exists o'.
Defined.

Lemma upload_touches_its_stage_only_witness :
  exists displaced,
    (published (world run_end) = published (world run_start) \/ op_overwrite (run_options UploadProtocol.Fresh) = NoReplace ->
       displaced = Missing) /\
    forall i, content (world run_start) i <> [] ->
      (forall r, @None StoredUploadSession = Some r -> stage_identity r <> Some i) -> ~ replaces displaced i ->
      content (world run_end) i = content (world run_start) i /\
      durable (world run_start) i `prefix_of` durable (world run_end) i.
Proof.
  apply (upload_touches_its_stage_only 20 run_path (run_options UploadProtocol.Fresh) (Some 5%Z) run_start None NoPromise).
  - apply run_options_ok.
  - apply run_found.
  - reflexivity.
  - reflexivity.
Defined.
End UploadContract.
