(* ===== verification/UploadRuns.v ===== *)
(** * Runs of the upload handlers

    Every run of a handler, whatever its outcome, is a sequence of small steps: a call
    of the environment, a command of the state store on the row of the request's own
    upload id, or a change of the response.  It follows that a request leaves the rows
    of all other uploads alone. *)

From S2P Require Import Prelude Paths Sql StateModel UploadStore RootedPaths PathPolicy Problem UploadProtocol.
From S2P Require Import UploadWorld UploadRecord UploadFailure UploadCommit UploadTransfer UploadPrepare.
From S2P Require Import UploadHandler UploadLaws.

Create HintDb runs.

Module UploadRuns.
Import UploadProtocol UploadRecord UploadFailure UploadCommit UploadTransfer UploadPrepare UploadHandler.

(** ** Steps *)

Definition died {A} (o : option A) : bool := match o with None => true | Some _ => false end.

Section steps.
Context `{UploadEnv}.

(** One call; the boolean tells whether the process died during it. *)
Inductive call_step (w : World) : bool -> World -> Prop :=
| es_now : call_step w false (instant_now w).2
| es_dispatch :
    call_step w (match (store_dispatch w).1 with DbCrashed _ => true | _ => false end) (store_dispatch w).2
| es_frame d : call_step w (died (next_frame d w).1) (next_frame d w).2
| es_active l : call_step w false (set_active_upload_files l w)
| es_consume r n : call_step w false (consume r n w)
| es_wait d : call_step w (died (wait_for_maintenance_claim_change d w).1) (wait_for_maintenance_claim_change d w).2
| es_reserve f a b c : call_step w (died (reserve_allocated f a b c w).1) (reserve_allocated f a b c w).2
| es_available r f m :
    call_step w (died (reserved_space_is_available r f m w).1) (reserved_space_is_available r f m w).2
| es_open_read p : call_step w (died (open_read p w).1) (open_read p w).2
| es_open_write p : call_step w (died (open_write p w).1) (open_write p w).2
| es_open_parent p :
    call_step w (died (open_nearest_existing_parent p w).1) (open_nearest_existing_parent p w).2
| es_metadata_nofollow p : call_step w (died (metadata_nofollow p w).1) (metadata_nofollow p w).2
| es_entry_key p : call_step w (died (entry_key p w).1) (entry_key p w).2
| es_sync_parent p : call_step w (died (sync_parent p w).1) (sync_parent p w).2
| es_replacement_identity p : call_step w (died (replacement_identity p w).1) (replacement_identity p w).2
| es_replacement_metadata p : call_step w (died (replacement_metadata p w).1) (replacement_metadata p w).2
| es_create p : call_step w (died (create_private_upload_stage p w).1) (create_private_upload_stage p w).2
| es_rollback c : call_step w (died (rollback_created_ancestors c w).1) (rollback_created_ancestors c w).2
| es_remove_directory p :
    call_step w (died (remove_empty_upload_stage_directory p w).1) (remove_empty_upload_stage_directory p w).2
| es_validate p i :
    call_step w (died (validate_private_upload_stage p i w).1) (validate_private_upload_stage p i w).2
| es_capture p b : call_step w (died (capture_entry_for_purge p b w).1) (capture_entry_for_purge p b w).2
| es_purge e : call_step w (died (purge_slice e w).1) (purge_slice e w).2
| es_rename a f b e :
    call_step w (died (rename_replace_if_unchanged a f b e w).1) (rename_replace_if_unchanged a f b e w).2
| es_metadata f : call_step w (died (file_metadata f w).1) (file_metadata f w).2
| es_flush f : call_step w (died (file_flush f w).1) (file_flush f w).2
| es_sync f : call_step w (died (file_sync f w).1) (file_sync f w).2
| es_write f d : call_step w (died (file_write_all f d w).1) (file_write_all f d w).2
| es_seek f n : call_step w (died (file_seek_start f n w).1) (file_seek_start f n w).2
| es_set_len f n : call_step w (died (file_set_len f n w).1) (file_set_len f n w).2
| es_apply_metadata f p :
    call_step w (died (apply_replacement_metadata f p w).1) (apply_replacement_metadata f p w).2.

(** A step of the world is a call, or the mutation cell is written. *)
Inductive env_step (w : World) : bool -> World -> Prop :=
| env_call b w' : call_step w b w' -> env_step w b w'
| env_cell z : env_step w false (set_mutation_cell z w).

(** A command of the state store that writes the row of [k]. *)
Inductive row_step (k : UploadSessionKey) (t : UploadStore.Table) : UploadStore.Table -> Prop :=
| rs_save now x t' a :
    up_key x = k -> UploadStore.save_upload_session limits t now x upload_ttl = Ok (t', a) -> row_step k t t'
| rs_reject now target stage t' a :
    UploadStore.reject_upload_session t now k target stage upload_ttl = Ok (t', a) -> row_step k t t'
| rs_remove x t' a :
    up_key x = k -> UploadStore.remove_upload_session_if_matches t x = Ok (t', a) -> row_step k t t'.

Inductive run_step (k : UploadSessionKey) (s : St) : St -> Prop :=
| rn_world b w' : env_step (world s) b w' -> run_step k s (with_world w' s)
| rn_row t' : row_step k (table s) t' -> run_step k s (with_table t' s)
| rn_response r : run_step k s (with_response r s)
| rn_leased l : run_step k s (with_leased l s).

Definition is_call {A} (op : World -> option (result IoError A) * World) : Prop :=
  forall w, call_step w (died (op w).1) (op w).2.

(** Every run of [m] is a sequence of steps. *)
Definition Runs (k : UploadSessionKey) {A} (m : M A) : Prop := forall s, rtc (run_step k) s (m s).2.

Lemma Runs_ret k {A} (a : A) : Runs k (mret a).
Proof. intros s. apply rtc_refl. Qed.
Lemma Runs_throw k {A} e : Runs k (throw e : M A).
Proof. intros s. apply rtc_refl. Qed.
Lemma Runs_pure k {A} (f : St -> outcome A) : Runs k (fun s => (f s, s)).
Proof. intros s. apply rtc_refl. Qed.

(** What follows a step may use what the step is known to return. *)
Lemma Runs_bind_val k {A B} (P : A -> Prop) (m : M A) (f : A -> M B) :
  Runs k m -> (forall s a s', m s = (Val a, s') -> P a) -> (forall a, P a -> Runs k (f a)) -> Runs k (m ≫= f).
Proof.
  intros Hm Hv Hf s. specialize (Hm s). unfold mbind, M_bind.
  destruct (m s) as [[a|e|] s'] eqn:E; [|done..]. cbn in *. etrans; [done|]. eapply Hf, Hv, E.
Qed.
Lemma Runs_bind k {A B} (m : M A) (f : A -> M B) : Runs k m -> (forall a, Runs k (f a)) -> Runs k (m ≫= f).
Proof. intros Hm Hf. by apply (Runs_bind_val k (fun _ => True)). Qed.
Lemma Runs_attempt k {A} (m : M A) : Runs k m -> Runs k (attempt m).
Proof. intros Hm s. specialize (Hm s). unfold attempt. by destruct (m s) as [[]]. Qed.
Lemma Runs_call k {A} (op : World -> option (result IoError A) * World) : is_call op -> Runs k (call op).
Proof.
  intros Ho s. specialize (Ho (world s)). unfold call. destruct (op (world s)). cbn in *.
  eapply rtc_once, rn_world, env_call, Ho.
Qed.
Lemma Runs_of_io k {A} (r : result IoError A) : Runs k (of_io r).
Proof. destruct r; [apply Runs_ret|apply Runs_throw]. Qed.
Lemma Runs_io k {A} (op : World -> option (result IoError A) * World) : is_call op -> Runs k (io op).
Proof. intros. apply Runs_bind; [by apply Runs_call|intros; apply Runs_of_io]. Qed.
Lemma Runs_of_result k {A} (r : result string A) : Runs k (of_result r).
Proof. destruct r; [apply Runs_ret|apply Runs_throw]. Qed.
Lemma Runs_ensure k b e : Runs k (ensure_m b e).
Proof. destruct b; [apply Runs_ret|apply Runs_throw]. Qed.
Lemma Runs_respond k f : Runs k (respond f).
Proof. intros s. apply rtc_once, rn_response. Qed.
Lemma Runs_now k : Runs k now.
Proof.
  intros s. unfold now. pose proof (es_now (world s)) as He. destruct (instant_now (world s)).
  eapply rtc_once, rn_world, env_call, He.
Qed.

(** A command of the store is a call and, when it is executed, a step of the table. *)
Lemma Runs_db k {A} (command : UploadStore.Table -> Z -> result string (UploadStore.Table * A)) :
  (forall t now t' a, command t now = Ok (t', a) -> t' = t \/ row_step k t t') -> Runs k (db command).
Proof.
  intros Hc s. unfold db. pose proof (es_dispatch (world s)) as He.
  destruct (store_dispatch (world s)) as [v w]. cbn [fst snd] in He. etrans; [eapply rtc_once, rn_world, env_call, He|].
  set (s1 := with_world w s).
  assert (forall now, forall t' a, command (table s1) now = Ok (t', a) ->
    rtc (run_step k) s1 (with_table t' s1)) as Hr.
  { intros now t' a E. destruct (Hc _ _ _ _ E) as [-> |Hs]; [by destruct s1|]. by eapply rtc_once, rn_row. }
  destruct v as [|now|now| |[now|]]; try apply rtc_refl;
    destruct (command (table s1) now) as [[t' a]|e] eqn:E; try apply rtc_refl; by eapply Hr.
Qed.

Lemma Runs_save k x : up_key x = k -> Runs k (save_upload_session x).
Proof.
  intros Hk. apply Runs_bind; [apply Runs_of_result|]. intros _. apply Runs_db. intros t now t' a E.
  right. by eapply rs_save.
Qed.
Lemma Runs_reject k target stage : Runs k (reject_upload_session k target stage).
Proof.
  apply Runs_bind; [apply Runs_of_result|]. intros _. apply Runs_bind; [apply Runs_of_result|]. intros _.
  apply Runs_db. intros t now t' a E. right. by eapply rs_reject.
Qed.
Lemma Runs_remove k x : up_key x = k -> Runs k (remove_upload_session_if_matches x).
Proof.
  intros Hk. apply Runs_bind; [apply Runs_of_result|]. intros _. apply Runs_db. intros t now t' a E.
  right. by eapply rs_remove.
Qed.
Lemma Runs_upload_session k key : Runs k (upload_session key).
Proof. apply Runs_db. intros t now t' a E. left. inv_result. done. Qed.

(** A row that was read is the row of its key. *)
Lemma upload_session_key_of key s o s' :
  upload_session key s = (Val o, s') -> forall r, o = Some r -> up_key r = key.
Proof.
  unfold upload_session, db. destruct (store_dispatch (world s)) as [v w].
  destruct v as [|now|now| |[now|]]; try done;
    destruct (UploadStore.load_upload_session (table (with_world w s)) key) as [o'|e] eqn:E; try done.
  intros [= <- _] r ->. apply UploadStore.load_Ok in E as (row & _ & Hr).
  by apply UploadStore.decode_inv in Hr as [? _].
Qed.
End steps.

#[export] Hint Constructors call_step : runs.
#[export] Hint Resolve Runs_ret Runs_throw Runs_of_io Runs_of_result Runs_ensure Runs_respond Runs_now
  Runs_pure Runs_save Runs_reject Runs_remove Runs_upload_session : runs.

(** Runs by the shape of the code. *)
Ltac runs :=
  repeat (intros; try progress cbv zeta;
    match goal with
    | |- Runs _ (match ?x with _ => _ end) => destruct x
    | |- Runs _ _ => progress eauto 2 with runs nocore
    | |- Runs _ (mbind _ _) => apply Runs_bind
    | |- Runs _ (attempt _) => apply Runs_attempt
    | |- Runs _ (call _) => apply Runs_call
    | |- Runs _ (io _) => apply Runs_io
    | |- is_call (match ?x with _ => _ end) => destruct x
    | |- is_call _ => intros ?; solve [auto with runs nocore]
    end).

(** ** The record store *)

Section handlers.
Context `{UploadEnv}.

Lemma Runs_validated k a b c : Runs k (validated_relative_paths a b c).
Proof. unfold validated_relative_paths, is_upload_temp_path, state_relative_path, resolve_state_path. runs. Qed.
#[local] Hint Resolve Runs_validated : runs.
Lemma Runs_lookup k a b c d : Runs k (lookup a b c d).
Proof.
  unfold lookup, classify_stored_session, valid_resumable_stage, is_upload_temp_path, state_relative_path,
    resolve_state_path. runs.
Qed.
Lemma Runs_open_resumable k c o st : Runs k (open_resumable_stage c o st).
Proof. unfold open_resumable_stage. runs. Qed.
Lemma Runs_persist_state k c o st i :
  upload_session_key (rc_owner_id c) (rc_upload_id c) = k -> Runs k (persist_state c o st i).
Proof. intros Hk. unfold persist_state. runs. Qed.
#[local] Hint Resolve Runs_persist_state : runs.
Lemma Runs_sync_and_identify k f p o : Runs k (sync_and_identify_stage f p o).
Proof. unfold sync_and_identify_stage. runs. Qed.
#[local] Hint Resolve Runs_sync_and_identify : runs.
Lemma Runs_persist_checkpoint_inner k f c o b :
  upload_session_key (rc_owner_id c) (rc_upload_id c) = k -> Runs k (persist_checkpoint_inner f c o b).
Proof. intros Hk. unfold persist_checkpoint_inner. runs. Qed.
Lemma Runs_commit_started k f c :
  upload_session_key (rc_owner_id c) (rc_upload_id c) = k -> Runs k (persist_commit_started f c).
Proof. intros Hk. unfold persist_commit_started. runs. Qed.
Lemma Runs_awaiting k f c :
  upload_session_key (rc_owner_id c) (rc_upload_id c) = k -> Runs k (persist_awaiting_confirmation f c).
Proof. intros Hk. unfold persist_awaiting_confirmation. runs. Qed.
Lemma Runs_terminal k c o st :
  upload_session_key (rc_owner_id c) (rc_upload_id c) = k -> Runs k (persist_terminal c o st).
Proof. intros Hk. unfold persist_terminal. runs. Qed.
Lemma Runs_unknown k c o :
  upload_session_key (rc_owner_id c) (rc_upload_id c) = k -> Runs k (persist_unknown c o).
Proof. intros Hk. unfold persist_unknown. runs. Qed.
Lemma Runs_remove_file k p i : Runs k (remove_file_if_identity p i).
Proof. unfold remove_file_if_identity. runs. Qed.
#[local] Hint Resolve Runs_remove_file : runs.
Lemma Runs_remove_directory k p : Runs k (remove_stage_directory_if_empty p).
Proof. unfold remove_stage_directory_if_empty. runs. Qed.
#[local] Hint Resolve Runs_remove_directory : runs.
Lemma Runs_discard_stage k f p : Runs k (discard_unrecorded_stage f p).
Proof. unfold discard_unrecorded_stage. runs. Qed.
Lemma Runs_rollback k c : Runs k (rollback_upload_ancestors c).
Proof. unfold rollback_upload_ancestors. runs. Qed.
#[local] Hint Resolve Runs_rollback : runs.

(** What is removed is the row that was read under the same key. *)
Lemma Runs_reset k ow i p st : upload_session_key ow i = k -> Runs k (reset ow i p st).
Proof.
  intros <-. unfold reset. apply Runs_bind; [runs|]. intros [target stage].
  apply (Runs_bind_val _ (fun o => forall r, o = Some r -> up_key r = upload_session_key ow i)).
  - apply Runs_upload_session.
  - intros s o s' E r. by eapply upload_session_key_of.
  - intros [r|] Hr; [specialize (Hr r eq_refl)|]; runs.
Qed.
#[local] Hint Resolve Runs_reset : runs.
Lemma Runs_reset_and k ow i p st c : upload_session_key ow i = k -> Runs k (reset_and_ancestors ow i p st c).
Proof. intros Hk. unfold reset_and_ancestors. runs. Qed.
Lemma Runs_reject_for_discard k ow i p st : upload_session_key ow i = k -> Runs k (reject_for_discard ow i p st).
Proof.
  intros <-. unfold reject_for_discard, is_upload_temp_path, state_relative_path, resolve_state_path. runs.
Qed.
Lemma Runs_cleanup k r : Runs k (cleanup_rejected_stage r).
Proof. unfold cleanup_rejected_stage. runs. Qed.
End handlers.
#[export] Hint Resolve Runs_validated Runs_lookup Runs_open_resumable Runs_persist_checkpoint_inner
  Runs_commit_started Runs_awaiting Runs_terminal Runs_unknown Runs_discard_stage Runs_rollback Runs_reset
  Runs_reset_and Runs_reject_for_discard Runs_cleanup Runs_persist_state Runs_sync_and_identify Runs_remove_file
  Runs_remove_directory : runs.

(** ** Endings *)

Section endings.
Context `{UploadEnv}.

Lemma Runs_problem k c st code d r : Runs k (apply_upload_problem c st code d r).
Proof. unfold apply_upload_problem. runs. Qed.
#[local] Hint Resolve Runs_problem : runs.
Lemma Runs_store_problem k c e : Runs k (apply_upload_record_store_problem c e).
Proof. unfold apply_upload_record_store_problem. runs. Qed.
Lemma Runs_inspection k i : Runs k (apply_target_inspection_headers i).
Proof. unfold apply_target_inspection_headers. runs. Qed.
#[local] Hint Resolve Runs_inspection : runs.
Lemma Runs_inspect k ow p : Runs k (inspect_upload_target ow p).
Proof. unfold inspect_upload_target, state_relative_path. runs. Qed.
Lemma Runs_target_conflict k p ow c : Runs k (render_upload_target_conflict p ow c).
Proof. unfold render_upload_target_conflict, inspect_upload_target, state_relative_path. runs. Qed.
Lemma Runs_begin k : Runs k begin_upload_mutation.
Proof.
  intros s. unfold begin_upload_mutation. repeat case_match; try apply rtc_refl.
  all: eapply rtc_once, rn_world, env_cell.
Qed.
#[local] Hint Resolve Runs_begin : runs.
Lemma Runs_can_be_unknown k : Runs k outcome_can_be_unknown.
Proof. intros s. apply rtc_refl. Qed.
Lemma Runs_begin_or_reject k a b c d : Runs k (begin_upload_mutation_or_reject a b c d).
Proof. unfold begin_upload_mutation_or_reject. runs. Qed.
Lemma Runs_apply_unknown k a b : Runs k (apply_upload_unknown a b).
Proof. unfold apply_upload_unknown. runs. Qed.
Lemma Runs_awaiting_problem k a b c d e : Runs k (apply_awaiting_confirmation_problem a b c d e).
Proof. unfold apply_awaiting_confirmation_problem. runs. Qed.
#[local] Hint Resolve Runs_apply_unknown Runs_awaiting_problem Runs_target_conflict : runs.

Section session.
Context (k : UploadSessionKey) (u : Session) (Hu : upload_session_key (se_owner_id u) (se_upload_id u) = k).

Lemma Runs_reset_session c : Runs k (reset_session u c).
Proof. unfold reset_session. runs. Qed.
#[local] Hint Resolve Runs_reset_session : runs.
Lemma Runs_space_failure f o b c msg : Runs k (finish_precommit_space_failure u f o b c msg).
Proof. unfold finish_precommit_space_failure. runs. Qed.
Lemma Runs_io_failure o b c msg : Runs k (finish_precommit_io_failure u o b c msg).
Proof. unfold finish_precommit_io_failure. runs. Qed.
Lemma Runs_timed_out f msg o c : Runs k (finish_timed_out_upload u f msg o c).
Proof.
  unfold finish_timed_out_upload, discard_if_fresh, reset_if_created, check_discard, persist_initial_checkpoint,
    persist_checkpoint. runs. case_bool_decide; runs.
Qed.
#[local] Hint Resolve Runs_space_failure Runs_io_failure Runs_timed_out : runs.

Lemma Runs_rename_op a f b e : Runs k (rename_op a f b e).
Proof.
  intros s. unfold rename_op. pose proof (es_rename (world s) a f b e) as He.
  destruct (rename_replace_if_unchanged a f b e (world s)). eapply rtc_once, rn_world, env_call, He.
Qed.
#[local] Hint Resolve Runs_rename_op : runs.
Lemma Runs_commit_ready i v c f st : Runs k (commit_ready_upload u i v c f st).
Proof. unfold commit_ready_upload, commit_staged_file. runs. Qed.
#[local] Hint Resolve Runs_commit_ready : runs.
Lemma Runs_space_confirmed l f : Runs k (space_confirmed l f).
Proof. unfold space_confirmed. runs. Qed.
#[local] Hint Resolve Runs_space_confirmed : runs.
Lemma Runs_prepare_transferred t : tu_session t = u -> Runs k (prepare_transferred_upload t).
Proof.
  intros E. unfold prepare_transferred_upload, commit_transferred, length_mismatch, replay_metadata,
    reject_after_rollback, ended_by_deadline, persist_checkpoint. rewrite E. runs.
Qed.
End session.
End endings.
#[export] Hint Resolve Runs_problem Runs_store_problem Runs_inspection Runs_inspect Runs_target_conflict
  Runs_begin_or_reject Runs_can_be_unknown Runs_apply_unknown Runs_awaiting_problem Runs_reset_session
  Runs_space_failure Runs_io_failure Runs_timed_out Runs_begin Runs_rename_op Runs_commit_ready Runs_space_confirmed Runs_prepare_transferred : runs.

(** ** Transfer and preparation *)

Section requests.
Context `{UploadEnv}.

Section session.
Context (k : UploadSessionKey) (u : Session) (Hu : upload_session_key (se_owner_id u) (se_upload_id u) = k).

Lemma Runs_consume l n : Runs k (consume_lease l n).
Proof. intros s. unfold consume_lease. eapply rtc_once, rn_world, env_call, es_consume. Qed.
Lemma Runs_frame d : Runs k (next_frame_op d).
Proof.
  intros s. unfold next_frame_op. pose proof (es_frame (world s) d) as He.
  destruct (next_frame d (world s)). eapply rtc_once, rn_world, env_call, He.
Qed.
#[local] Hint Resolve Runs_consume Runs_frame : runs.
Lemma Runs_accept f d l r i b c : Runs k (accept_chunk f d l r i b c).
Proof. unfold accept_chunk, write_upload_chunk. runs. Qed.
#[local] Hint Resolve Runs_accept : runs.
Lemma Runs_receive_loop fuel f d l r i b : Runs k (receive_loop fuel f d l r i b).
Proof. revert l r i b. induction fuel as [|fuel IH]; intros; cbn [receive_loop]; runs. Qed.
#[local] Hint Resolve Runs_receive_loop : runs.
Lemma Runs_transfer_failed t e : tx_session t = u -> Runs k (transfer_failed t e).
Proof.
  intros E. unfold transfer_failed, fail_transfer, keep_or_reset, transfer_refused, persist_checkpoint.
  rewrite E. runs.
Qed.
#[local] Hint Resolve Runs_transfer_failed : runs.
Lemma Runs_transfer fuel t : tx_session t = u -> Runs k (transfer_upload_body fuel t).
Proof.
  intros E. unfold transfer_upload_body, receive_upload_body, apply_awaiting_confirmation_transfer_error.
  rewrite E. runs.
Qed.

Lemma Runs_proceed {A B} (m : M (option A)) (f : A -> M (option B)) :
  Runs k m -> (forall a, Runs k (f a)) -> Runs k (proceed m f).
Proof. intros. unfold proceed. runs. Qed.
Lemma Runs_answered {A} (m : M unit) : Runs k m -> Runs k (answered (A := A) m).
Proof. intros. unfold answered. runs. Qed.
Lemma Runs_unless m : Runs k m -> Runs k (unless m).
Proof. intros. unfold unless. runs. Qed.
Lemma Runs_when m : Runs k m -> Runs k (when m).
Proof. intros. unfold when. runs. Qed.
Lemma Runs_expired d i msg : Runs k (upload_deadline_expired d i msg).
Proof. unfold upload_deadline_expired. runs. Qed.
Lemma Runs_expired_before d i n o msg : Runs k (upload_deadline_expired_before_mutation d i n o msg).
Proof. unfold upload_deadline_expired_before_mutation. runs. Qed.
#[local] Hint Resolve Runs_expired Runs_expired_before : runs.

Lemma Runs_wait fuel marker d : Runs k (wait_for_cleanup fuel marker d).
Proof. induction fuel as [|fuel IH]; cbn [wait_for_cleanup]; runs. Qed.
Lemma Runs_register key : Runs k (register_active key).
Proof.
  intros s. unfold register_active. case_bool_decide; [apply rtc_refl|].
  etrans; [eapply rtc_once, rn_world, env_call, es_active|]. apply rtc_once, rn_leased.
Qed.
#[local] Hint Resolve Runs_wait Runs_register : runs.
Lemma Runs_track fuel p d : Runs k (track_active_upload_files fuel p d).
Proof. induction fuel as [|fuel IH]; cbn [track_active_upload_files]; runs. Qed.
#[local] Hint Resolve Runs_track : runs.
Lemma Runs_release : Runs k release_active.
Proof.
  intros s. unfold release_active. etrans; [eapply rtc_once, rn_world, env_call, es_active|]. apply rtc_once, rn_leased.
Qed.
End session.
End requests.
#[export] Hint Resolve Runs_transfer Runs_expired Runs_expired_before Runs_wait Runs_register Runs_track
  Runs_release Runs_consume Runs_frame Runs_accept Runs_receive_loop Runs_transfer_failed : runs.

(** [runs] with the combinators of the preparation. *)
Ltac runs_on :=
  repeat first [ progress intros | progress runs | apply Runs_proceed | apply Runs_answered | apply Runs_unless | apply Runs_when ].

Section preparation.
Context `{UploadEnv}.

Section session.
Context (k : UploadSessionKey) (u : Session) (Hu : upload_session_key (se_owner_id u) (se_upload_id u) = k).

Lemma Runs_not_found i : Runs k (session_not_found i).
Proof. unfold session_not_found. runs. Qed.
#[local] Hint Resolve Runs_not_found : runs.
Lemma Runs_check_existing mode r : Runs k (check_existing_record u mode r).
Proof. unfold check_existing_record. runs_on. Qed.
#[local] Hint Resolve Runs_check_existing : runs.
Lemma Runs_select_target mode ov r : Runs k (select_target u mode ov r).
Proof. unfold select_target, state_relative_path. runs_on. Qed.
Lemma Runs_check_checkpoint o c : Runs k (check_checkpoint u o c).
Proof. unfold check_checkpoint. runs_on. Qed.
Lemma Runs_abandon f c : Runs k (abandon_fresh_stage u f c).
Proof. unfold abandon_fresh_stage, check_discard. runs_on. Qed.
#[local] Hint Resolve Runs_abandon : runs.
Lemma Runs_reserve f n : Runs k (reserve f n).
Proof. unfold reserve. runs. Qed.
#[local] Hint Resolve Runs_reserve : runs.
Lemma Runs_create_fresh fuel d n : Runs k (create_fresh_stage fuel u d n).
Proof. unfold create_fresh_stage. runs_on.
Qed.
Lemma Runs_record_fresh d v f c : Runs k (record_fresh_stage u d v f c).
Proof. unfold record_fresh_stage, check_discard, persist_initial_checkpoint. runs_on. Qed.
Lemma Runs_reopen d o v c : Runs k (reopen_stage u d o v c).
Proof. unfold reopen_stage, persist_checkpoint. runs_on. Qed.
Lemma Runs_deadline_after mode d f c msg : Runs k (deadline_after_stage u mode d f c msg).
Proof. unfold deadline_after_stage. runs_on. Qed.
Lemma Runs_confirm_space mode b f c r : Runs k (confirm_space u mode b f c r).
Proof. unfold confirm_space. runs_on. Qed.
#[local] Hint Resolve Runs_create_fresh Runs_record_fresh Runs_reopen Runs_deadline_after
  Runs_confirm_space : runs.
Lemma Runs_finish options t st fr n f c : Runs k (finish_preparation u options t st fr n f c).
Proof. unfold finish_preparation. runs_on. Qed.
#[local] Hint Resolve Runs_finish : runs.
Lemma Runs_stage fuel options b t c : Runs k (stage_upload fuel u options b t c).
Proof. unfold stage_upload, body_too_long. runs_on. Qed.
Lemma Runs_consult fuel options : Runs k (consult_record fuel u options).
Proof. unfold consult_record. runs_on. Qed.
End session.
#[local] Hint Extern 0 (upload_session_key _ _ = _) => reflexivity : runs.
#[local] Hint Resolve Runs_not_found Runs_select_target Runs_check_checkpoint Runs_stage Runs_consult : runs.

Lemma Runs_prepare fuel path options body :
  Runs (upload_session_key (owner_persistent (op_owner options)) (op_upload_id options))
    (prepare_upload fuel path options body).
Proof. unfold prepare_upload, upload_temp_path. runs_on. Qed.

(** *** What a preparation hands over *)

Definition Gives {A} (P : A -> Prop) (m : M (option A)) : Prop :=
  forall s a s', m s = (Val (Some a), s') -> P a.

Lemma Gives_bind {A B} (P : B -> Prop) (m : M A) (f : A -> M (option B)) :
  (forall a, Gives P (f a)) -> Gives P (m ≫= f).
Proof.
  intros Hf s b s' E. unfold mbind, M_bind in E. destruct (m s) as [[a|e|] s1]; [|done..]. by eapply Hf.
Qed.
Lemma Gives_proceed {A B} (P : B -> Prop) (m : M (option A)) (f : A -> M (option B)) :
  (forall a, Gives P (f a)) -> Gives P (proceed m f).
Proof. intros Hf. apply Gives_bind. intros [a|]; [apply Hf|]. by intros s b s' [=]. Qed.
Lemma Gives_answered {A} (P : A -> Prop) (m : M unit) : Gives P (answered m).
Proof. apply Gives_bind. by intros _ s b s' [=]. Qed.
Lemma Gives_throw {A} (P : A -> Prop) e : Gives P (throw e).
Proof. by intros s b s' [=]. Qed.

(** The transaction is the one of the request. *)
Definition handed (options : UploadOptions) (t : UploadTransaction) : Prop :=
  se_owner_id (tx_session t) = owner_persistent (op_owner options) /\
  se_upload_id (tx_session t) = op_upload_id options /\
  se_upload_length (tx_session t) = op_upload_length options /\ tx_mode t = op_mode options.

Lemma prepare_handed fuel path options body : Gives (handed options) (prepare_upload fuel path options body).
Proof.
  unfold prepare_upload. apply Gives_bind. intros _. apply Gives_proceed. intros _.
  apply Gives_bind. intros upload_path. do 7 (apply Gives_proceed; intros ?).
  unfold stage_upload. destruct (u64_checked_sub _ _); [|apply Gives_throw].
  case_match; [apply Gives_answered|]. do 2 (apply Gives_proceed; intros ?).
  unfold finish_preparation. apply Gives_proceed. intros _. apply Gives_bind. intros o.
  do 3 (apply Gives_proceed; intros ?). by intros s b s' [= <- _].
Qed.

(** ** Whole requests *)

Lemma Runs_report k options r : Runs k (report_error options r).
Proof. unfold report_error. runs. Qed.
#[local] Hint Resolve Runs_report : runs.

Lemma Runs_handle_upload fuel path options body :
  Runs (upload_session_key (owner_persistent (op_owner options)) (op_upload_id options))
    (handle_upload fuel path options body).
Proof.
  unfold handle_upload. apply Runs_bind; [|runs]. apply Runs_attempt.
  apply (Runs_bind_val _ (fun o => forall t, o = Some t -> handed options t)); [apply Runs_prepare| |].
  - intros s o s' E t Ht. subst o. exact (prepare_handed _ _ _ _ _ _ _ E).
  - intros [t|] Ht; [|runs]. destruct (Ht t eq_refl) as (Ho & Hi & _). eapply Runs_transfer; [|done].
    by rewrite Ho, Hi.
Qed.

Lemma Runs_status k path ow i : Runs k (handle_upload_status path ow i).
Proof. unfold handle_upload_status, upload_temp_path. runs. Qed.

Lemma Runs_discard ow path i :
  Runs (upload_session_key (owner_persistent ow) i) (discard_awaiting_upload ow path i).
Proof. unfold discard_awaiting_upload, upload_temp_path. runs. Qed.
End preparation.
#[export] Hint Resolve Runs_not_found Runs_check_existing Runs_select_target Runs_check_checkpoint Runs_abandon
  Runs_reserve Runs_create_fresh Runs_record_fresh Runs_reopen Runs_deadline_after Runs_confirm_space Runs_finish
  Runs_stage Runs_consult Runs_report : runs.

(** ** Other uploads *)

(** Rows of other keys stay, or are finished rows that have expired. *)
Definition spares (k : UploadSessionKey) (t t' : UploadStore.Table) : Prop :=
  forall k', k' <> k ->
    t' !! k' = t !! k' \/
    t' !! k' = None /\ exists row now, t !! k' = Some row /\ UploadStore.droppable now k' row = true.

#[export] Instance spares_preorder k : PreOrder (spares k).
Proof.
  split; [by left|]. intros a b c Hab Hbc k' Hk.
  destruct (Hab k' Hk) as [E1|[E1 Hr]], (Hbc k' Hk) as [E2|[E2 (row & now & E3 & Hd)]].
  - left. congruence.
  - right. split; [done|]. exists row, now. by rewrite <-E1.
  - right. split; [congruence|done].
  - congruence.
Qed.

Lemma spares_only k t t' : (forall k', k' <> k -> t' !! k' = t !! k') -> spares k t t'.
Proof. intros Ht k' Hk. left. by apply Ht. Qed.

Lemma spares_purge k now (t : UploadStore.Table) : spares k t (delete_where (UploadStore.droppable now) t).1.
Proof.
  intros k' Hk. destruct ((delete_where (UploadStore.droppable now) t).1 !! k') as [row|] eqn:E.
  - left. by apply lookup_delete_where in E as [-> _].
  - apply lookup_delete_where_None in E as [E|(row & E & Hd)]; [by left|right]. eauto.
Qed.

Lemma spares_write t x now e a t' b :
  UploadStore.write_session t x now e a = Ok (t', b) -> spares (up_key x) t t'.
Proof.
  unfold UploadStore.write_session, upsert_row. intros E. inv_result.
  destruct (UploadStore.check _ _); [|done]. inv_result. subst.
  apply spares_only. intros k' Hk. by rewrite lookup_insert_ne.
Qed.

Lemma row_step_spares `{UploadEnv} k t t' : row_step k t t' -> spares k t t'.
Proof.
  intros [now x t1 a <- E|now target stage t1 a E|x t1 a <- E].
  - unfold UploadStore.save_upload_session in E. inv_result. cbv zeta in *. inv_result.
    etrans; [apply (spares_purge _ now)|].
    destruct (_ && _); [by simplify_eq|]. destruct a1 as [old|].
    + destruct (UploadStore.merge_upload_session old x) as [m|] eqn:Em; [|by simplify_eq].
      apply UploadStore.merge_Some in Em as [-> _]. destruct (session_eqb x old); by eapply spares_write.
    + destruct (_ || _); [by simplify_eq|]. by eapply spares_write.
  - unfold UploadStore.reject_upload_session in E. inv_result. destruct a0; [by simplify_eq|]. inv_result.
    destruct a1; [by simplify_eq|]. inv_result. destruct a1 as [t2 n]. inv_result.
    apply update_where_Ok in Hbind2 as (_ & Et & _).
    simplify_eq. apply spares_only. intros k' Hk. rewrite lookup_apply_where.
    rewrite bool_decide_false by done. by destruct (t !! k').
  - unfold UploadStore.remove_upload_session_if_matches in E. inv_result. destruct (negb _); [by simplify_eq|].
    destruct (delete_where _ t) as [t2 n] eqn:Ed. inv_result. apply (f_equal fst) in Ed. cbn [fst] in Ed. subst.
    apply spares_only. intros k' Hk. apply option_eq. intros r. rewrite lookup_delete_where.
    rewrite bool_decide_false by done. naive_solver.
Qed.

Lemma rtc_spares `{UploadEnv} k s s' : rtc (run_step k) s s' -> spares k (table s) (table s').
Proof.
  induction 1 as [|s1 s2 s3 Hs _ IH]; [done|]. etrans; [|exact IH]. destruct Hs; try done. by apply row_step_spares.
Qed.

(** Requests do not disturb each other's records.  Whatever an upload request or a
    discard does and however it ends, the row of every other upload id is as it was,
    or has been dropped after it had been decided and its lifetime was over. *)
Lemma requests_spare_other_uploads `{UploadEnv} fuel path options body ow i s :
  spares (upload_session_key (owner_persistent (op_owner options)) (op_upload_id options))
    (table s) (table (handle_upload fuel path options body s).2) /\
  spares (upload_session_key (owner_persistent ow) i) (table s) (table (discard_awaiting_upload ow path i s).2).
Proof.
  split.
  - eapply rtc_spares, Runs_handle_upload.
  - eapply rtc_spares, Runs_discard.
Qed.

End UploadRuns.
