(* ===== verification/UploadReturns.v ===== *)
(** * Upload requests return

    The loops of the upload handlers end as long as the process lives: the loop that
    receives the body is paid for by the declared length, the loops that wait for
    maintenance by the wake-ups they get.  The fuel of the model is therefore never
    used up when it exceeds these bounds. *)

From S2P Require Import Prelude Paths PathKeys Sql StateModel UploadStore RootedPaths PathPolicy Problem UploadProtocol.
From S2P Require Import UploadWorld UploadRecord UploadFailure UploadCommit UploadTransfer UploadPrepare.
From S2P Require Import UploadHandler UploadLaws UploadMemory UploadRuns.

Create HintDb returns.

Module UploadReturns.
Import UploadProtocol UploadRecord UploadFailure UploadCommit UploadTransfer UploadPrepare UploadHandler UploadRuns.

(** What the loops wait for comes to an end: [left] bounds the empty frames of the
    body (a nonempty one is paid for by the declared length) and the wake-ups of a
    wait for maintenance. *)
Class Finite `{UploadEnv} : Type := {
  left : World -> nat;
  left_step w b w' : env_step w b w' -> left w' <= left w;
  left_empty d w w' : next_frame d w = (Some (Chunk []), w') -> left w' < left w;
  left_wait d w w' : wait_for_maintenance_claim_change d w = (Some (Ok tt), w') -> left w' < left w }.

(** The process lives. *)
Class Alive `{UploadEnv} : Prop := alive w b w' : env_step w b w' -> b = false.

Section termination.
Context `{F : Finite} `{!Alive}.

Definition Returns (n : nat) {A} (m : M A) : Prop := forall s, left (world s) <= n -> (m s).1 <> Crashed.

Lemma run_left k s s' : rtc (run_step k) s s' -> left (world s') <= left (world s).
Proof.
  induction 1 as [|s1 s2 s3 Hs _ IH]; [done|]. etrans; [exact IH|].
  destruct Hs as [b w' He| | |]; cbn; [by eapply left_step|done..].
Qed.

Lemma Returns_ret n {A} (a : A) : Returns n (mret a).
Proof. by intros s _ [=]. Qed.
Lemma Returns_throw n {A} e : Returns n (throw e : M A).
Proof. by intros s _ [=]. Qed.
Lemma Returns_val n {A} (f : St -> A) : Returns n (fun s => (Val (f s), s)).
Proof. by intros s _ [=]. Qed.
Lemma Returns_bind_val k n {A B} (P : A -> Prop) (m : M A) (f : A -> M B) :
  Runs k m -> Returns n m -> (forall s a s', m s = (Val a, s') -> P a) -> (forall a, P a -> Returns n (f a)) ->
  Returns n (m ≫= f).
Proof.
  intros Hr Hm Hv Hf s Hs. pose proof (run_left _ _ _ (Hr s)) as Hl. specialize (Hm s Hs).
  unfold mbind, M_bind. destruct (m s) as [[a|e|] s'] eqn:E; cbn in *; [|done..].
  apply Hf; [by eapply Hv|lia].
Qed.
Lemma Returns_bind n {A B} k (m : M A) (f : A -> M B) :
  Runs k m -> Returns n m -> (forall a, Returns n (f a)) -> Returns n (m ≫= f).
Proof. intros Hr Hm Hf. by apply (Returns_bind_val k n (fun _ => True)). Qed.
Lemma Returns_attempt n {A} (m : M A) : Returns n m -> Returns n (attempt m).
Proof. intros Hm s Hs. specialize (Hm s Hs). unfold attempt. by destruct (m s) as [[]]. Qed.
Lemma Returns_call n {A} (op : World -> option (result IoError A) * World) : is_call op -> Returns n (call op).
Proof.
  intros Ho s Hs. specialize (Ho (world s)). apply env_call, alive in Ho. unfold call.
  by destruct (op (world s)) as [[r|] w'].
Qed.
Lemma Returns_of_io n {A} (r : result IoError A) : Returns n (of_io r).
Proof. by destruct r. Qed.
Lemma Returns_io n {A} (op : World -> option (result IoError A) * World) : is_call op -> Returns n (io op).
Proof.
  intros Ho s Hs. pose proof (Returns_call n op Ho s Hs) as Hc. unfold io, mbind, M_bind.
  by destruct (call op s) as [[[]|e|] s'].
Qed.
Lemma Returns_of_result n {A} (r : result string A) : Returns n (of_result r).
Proof. by destruct r. Qed.
Lemma Returns_ensure n b e : Returns n (ensure_m b e).
Proof. by destruct b. Qed.
Lemma Returns_respond n f : Returns n (respond f).
Proof. by intros s _ [=]. Qed.
Lemma Returns_now n : Returns n now.
Proof. intros s _. unfold now. by destruct (instant_now (world s)). Qed.
Lemma Returns_db n {A} (command : UploadStore.Table -> Z -> result string (UploadStore.Table * A)) :
  Returns n (db command).
Proof.
  intros s _. pose proof (alive _ _ _ (env_call _ _ _ (es_dispatch (world s)))) as Ha. unfold db.
  destruct (store_dispatch (world s)) as [v w]. cbn in Ha.
  destruct v as [|now|now| |[now|]]; try done; by destruct (command _ now) as [[]|].
Qed.
Lemma Returns_proceed n {A B} k (m : M (option A)) (f : A -> M (option B)) :
  Runs k m -> Returns n m -> (forall a, Returns n (f a)) -> Returns n (proceed m f).
Proof. intros. unfold proceed. eapply Returns_bind; [done..|]. intros []; [done|apply Returns_ret]. Qed.
Lemma Returns_answered n {A} k (m : M unit) : Runs k m -> Returns n m -> Returns n (answered (A := A) m).
Proof. intros. unfold answered. eapply Returns_bind; [done..|]. intros. apply Returns_ret. Qed.
Lemma Returns_unless n k m : Runs k m -> Returns n m -> Returns n (unless m).
Proof. intros. unfold unless. eapply Returns_bind; [done..|]. intros. apply Returns_ret. Qed.
Lemma Returns_when n k m : Runs k m -> Returns n m -> Returns n (when m).
Proof. intros. unfold when. eapply Returns_bind; [done..|]. intros. apply Returns_ret. Qed.
End termination.

#[export] Hint Resolve Returns_ret Returns_throw Returns_of_io Returns_of_result Returns_ensure Returns_respond
  Returns_now Returns_val Returns_db : returns.

(** Returning by the shape of the code; [k] is the key of the request. *)
Ltac returns k :=
  repeat (intros; try progress cbv zeta;
    match goal with
    | |- Returns _ (match ?x with _ => _ end) => destruct x
    | |- Returns _ _ => progress eauto 2 with returns nocore
    | |- Returns _ (mbind _ _) => apply (Returns_bind _ k); [solve [runs_on]|..]
    | |- Returns _ (attempt _) => apply Returns_attempt
    | |- Returns _ (call _) => apply Returns_call
    | |- Returns _ (io _) => apply Returns_io
    | |- Returns _ (proceed _ _) => apply (Returns_proceed _ k); [solve [runs_on]|..]
    | |- Returns _ (answered _) => apply (Returns_answered _ k); [solve [runs_on]|..]
    | |- Returns _ (unless _) => apply (Returns_unless _ k); [solve [runs_on]|..]
    | |- Returns _ (when _) => apply (Returns_when _ k); [solve [runs_on]|..]
    | |- is_call (match ?x with _ => _ end) => destruct x
    | |- is_call _ => intros ?; solve [auto with runs nocore]
    end).

Section returning.
Context `{F : Finite} `{!Alive} (k : UploadSessionKey) (n : nat).

Lemma Returns_validated a b c : Returns n (validated_relative_paths a b c).
Proof. unfold validated_relative_paths, is_upload_temp_path, state_relative_path, resolve_state_path. returns k. Qed.
Lemma Returns_upload_session key : Returns n (upload_session key).
Proof. unfold upload_session. returns k. Qed.
#[local] Hint Resolve Returns_validated Returns_upload_session : returns.
Lemma Returns_lookup a b c d : Returns n (lookup a b c d).
Proof.
  unfold lookup, classify_stored_session, valid_resumable_stage, is_upload_temp_path, state_relative_path,
    resolve_state_path. returns k.
Qed.
Lemma Returns_open_resumable c o st : Returns n (open_resumable_stage c o st).
Proof. unfold open_resumable_stage. returns k. Qed.
Lemma Returns_persist_state c o st i :
  upload_session_key (rc_owner_id c) (rc_upload_id c) = k -> Returns n (persist_state c o st i).
Proof. intros Hk. unfold persist_state, save_upload_session. returns k. Qed.
#[local] Hint Resolve Returns_persist_state : returns.
Lemma Returns_sync_and_identify f p o : Returns n (sync_and_identify_stage f p o).
Proof. unfold sync_and_identify_stage. returns k. Qed.
#[local] Hint Resolve Returns_sync_and_identify : returns.
Lemma Returns_persist_checkpoint_inner f c o b :
  upload_session_key (rc_owner_id c) (rc_upload_id c) = k -> Returns n (persist_checkpoint_inner f c o b).
Proof. intros Hk. unfold persist_checkpoint_inner. returns k. Qed.
Lemma Returns_commit_started f c :
  upload_session_key (rc_owner_id c) (rc_upload_id c) = k -> Returns n (persist_commit_started f c).
Proof. intros Hk. unfold persist_commit_started. returns k. Qed.
Lemma Returns_awaiting f c :
  upload_session_key (rc_owner_id c) (rc_upload_id c) = k -> Returns n (persist_awaiting_confirmation f c).
Proof. intros Hk. unfold persist_awaiting_confirmation. returns k. Qed.
Lemma Returns_terminal c o st :
  upload_session_key (rc_owner_id c) (rc_upload_id c) = k -> Returns n (persist_terminal c o st).
Proof. intros Hk. unfold persist_terminal. returns k. Qed.
Lemma Returns_unknown c o :
  upload_session_key (rc_owner_id c) (rc_upload_id c) = k -> Returns n (persist_unknown c o).
Proof. intros Hk. unfold persist_unknown. returns k. Qed.
Lemma Returns_remove_file p i : Returns n (remove_file_if_identity p i).
Proof. unfold remove_file_if_identity. returns k. Qed.
Lemma Returns_remove_directory p : Returns n (remove_stage_directory_if_empty p).
Proof. unfold remove_stage_directory_if_empty. returns k. Qed.
Lemma Returns_rollback c : Returns n (rollback_upload_ancestors c).
Proof. unfold rollback_upload_ancestors. returns k. Qed.
#[local] Hint Resolve Returns_remove_file Returns_remove_directory Returns_rollback : returns.
Lemma Returns_discard_stage f p : Returns n (discard_unrecorded_stage f p).
Proof. unfold discard_unrecorded_stage. returns k. Qed.
Lemma Returns_reset ow i p st : upload_session_key ow i = k -> Returns n (reset ow i p st).
Proof.
  intros Hk. unfold reset, remove_upload_session_if_matches. apply (Returns_bind _ k); [runs|returns k|].
  intros [target stage].
  apply (Returns_bind_val k _ (fun o => forall r, o = Some r -> up_key r = k)); [runs|returns k|..].
  - intros s o s' E r Hr. rewrite <-Hk. by eapply upload_session_key_of.
  - intros [r|] Hr; [specialize (Hr r eq_refl)|]; returns k.
Qed.
#[local] Hint Resolve Returns_reset : returns.
Lemma Returns_reset_and ow i p st c : upload_session_key ow i = k -> Returns n (reset_and_ancestors ow i p st c).
Proof. intros Hk. unfold reset_and_ancestors. returns k. Qed.
#[local] Hint Resolve Returns_persist_checkpoint_inner Returns_commit_started Returns_awaiting Returns_terminal
  Returns_unknown Returns_discard_stage Returns_reset_and : returns.

Lemma Returns_problem c st code d r : Returns n (apply_upload_problem c st code d r).
Proof. unfold apply_upload_problem. returns k. Qed.
#[local] Hint Resolve Returns_problem : returns.
Lemma Returns_target_conflict p ow c : Returns n (render_upload_target_conflict p ow c).
Proof.
  unfold render_upload_target_conflict, inspect_upload_target, state_relative_path, apply_target_inspection_headers.
  returns k.
Qed.
Lemma Returns_begin_or_reject a b c d : Returns n (begin_upload_mutation_or_reject a b c d).
Proof.
  assert (Returns n begin_upload_mutation).
  { intros s _. unfold begin_upload_mutation. by repeat case_match. }
  unfold begin_upload_mutation_or_reject. returns k.
Qed.
Lemma Returns_apply_unknown a b : Returns n (apply_upload_unknown a b).
Proof. unfold apply_upload_unknown. returns k. Qed.
Lemma Returns_awaiting_problem a b c d e : Returns n (apply_awaiting_confirmation_problem a b c d e).
Proof. unfold apply_awaiting_confirmation_problem. returns k. Qed.
#[local] Hint Resolve Returns_target_conflict Returns_begin_or_reject Returns_apply_unknown
  Returns_awaiting_problem : returns.

Section session.
Context (u : Session) (Hu : upload_session_key (se_owner_id u) (se_upload_id u) = k).

Lemma Returns_reset_session c : Returns n (reset_session u c).
Proof. unfold reset_session. returns k. Qed.
#[local] Hint Resolve Returns_reset_session : returns.
Lemma Returns_timed_out f msg o c : Returns n (finish_timed_out_upload u f msg o c).
Proof.
  unfold finish_timed_out_upload, discard_if_fresh, reset_if_created, check_discard, persist_initial_checkpoint,
    persist_checkpoint. returns k.
  all: case_bool_decide; returns k.
Qed.
Lemma Returns_space_failure f o b c msg : Returns n (finish_precommit_space_failure u f o b c msg).
Proof. unfold finish_precommit_space_failure. returns k. Qed.
Lemma Returns_io_failure o b c msg : Returns n (finish_precommit_io_failure u o b c msg).
Proof. unfold finish_precommit_io_failure. returns k. Qed.
Lemma Returns_rename_op a f b e : Returns n (rename_op a f b e).
Proof.
  intros s _. pose proof (alive _ _ _ (env_call _ _ _ (es_rename (world s) a f b e))) as Ha. unfold rename_op.
  by destruct (rename_replace_if_unchanged a f b e (world s)) as [[r|] w'].
Qed.
Lemma Returns_space_confirmed l f : Returns n (space_confirmed l f).
Proof. unfold space_confirmed. returns k. Qed.
#[local] Hint Resolve Returns_timed_out Returns_space_failure Returns_io_failure Returns_rename_op
  Returns_space_confirmed : returns.
Lemma Returns_commit_ready i v c f st : Returns n (commit_ready_upload u i v c f st).
Proof. unfold commit_ready_upload, commit_staged_file. returns k. Qed.
#[local] Hint Resolve Returns_commit_ready : returns.
Lemma Returns_prepare_transferred t : tu_session t = u -> Returns n (prepare_transferred_upload t).
Proof.
  intros E. unfold prepare_transferred_upload, commit_transferred, length_mismatch, replay_metadata,
    reject_after_rollback, ended_by_deadline, persist_checkpoint. rewrite E. returns k.
Qed.
#[local] Hint Resolve Returns_prepare_transferred : returns.

(** *** The loops *)

(** A nonempty chunk that is accepted is paid for by the length that was declared. *)
Lemma accept_rest f d l r i b c s l' b' r' i' s' :
  accept_chunk f d l r i b c s = (Val (Ok (l', b', r', i')), s') ->
  r' = (if 0 <? Z.min r (Z.of_nat (length c)) then r - Z.min r (Z.of_nat (length c)) else r)%Z.
Proof.
  unfold accept_chunk. destruct (0 <? _)%Z eqn:Ea; [|by intros [=]].
  unfold mbind, M_bind. destruct (write_upload_chunk _ _ _ _ s) as [[[[l1 b1]|e]|e|] s1]; try done.
  destruct (now s1) as [[t1|e|] s2]; try done. destruct (instant_checked_add _ _); try done.
  destruct (now s2) as [[t2|e|] s3]; try done. destruct (_ <=? _)%Z; try done. by intros [=].
Qed.

Lemma Returns_accept f d l r i b c : Returns n (accept_chunk f d l r i b c).
Proof.
  assert (forall lease x, Returns n (consume_lease lease x)) by (by intros lease x s _ [=]).
  unfold accept_chunk, write_upload_chunk. returns k.
Qed.

Lemma receive_returns fuel f d l r i b s :
  left (world s) <= n -> left (world s) + Z.to_nat r < fuel -> (receive_loop fuel f d l r i b s).1 <> Crashed.
Proof.
  revert l r i b s. induction fuel as [|fuel IH]; intros l r i b s Hn Hf; [lia|]. cbn [receive_loop].
  unfold mbind at 1, M_bind at 1. unfold next_frame_op.
  pose proof (es_frame (world s) (Z.min d i)) as He. pose proof (alive _ _ _ (env_call _ _ _ He)) as Ha.
  apply env_call, left_step in He. destruct (next_frame _ (world s)) as [[fr|] w1] eqn:Ef; [|done]. cbn [fst snd] in *.
  destruct fr as [c| | | |]; try done; [|by unfold mbind, M_bind, now; destruct (instant_now _)].
  case_bool_decide as Hc; [subst c; apply left_empty in Ef; apply IH; cbn; lia|].
  unfold mbind at 1, M_bind at 1.
  pose proof (Returns_accept f d l r i b c (with_world w1 s)) as Hr.
  pose proof (run_left k _ _ (Runs_accept k f d l r i b c (with_world w1 s))) as Hl. cbn in Hl.
  destruct (accept_chunk f d l r i b c (with_world w1 s)) as [[[[[[l' b'] r'] i']|e]|e|] s2] eqn:Ea; cbn [fst snd] in *.
  - apply accept_rest in Ea.
    destruct (Z.min r (Z.of_nat (length c)) <? Z.of_nat (length c))%Z eqn:Ex; [done|]. apply Z.ltb_ge in Ex.
    assert (0 < length c) by (destruct c; [done|cbn; lia]). apply IH; [lia|].
    destruct (0 <? _)%Z eqn:E0; [apply Z.ltb_lt in E0|apply Z.ltb_ge in E0]; lia.
  - done.
  - done.
  - exfalso. apply Hr; [cbn; lia|done].
Qed.

Lemma Returns_transfer fuel t :
  tx_session t = u ->
  n + Z.to_nat (se_upload_length u - default 0%Z (mode_offset (tx_mode t))) < fuel ->
  Returns n (transfer_upload_body fuel t).
Proof.
  intros E Hf. unfold transfer_upload_body, receive_upload_body, apply_awaiting_confirmation_transfer_error,
    transfer_failed, fail_transfer, keep_or_reset, transfer_refused, persist_checkpoint. rewrite E.
  destruct (u64_checked_sub _ _) as [r|] eqn:Er; [|returns k].
  apply u64_checked_sub_Some in Er as [-> _].
  assert (forall file d l i b, Returns n (receive_loop fuel file d l
    (se_upload_length u - default 0%Z (mode_offset (tx_mode t))) i b)) as Hl.
  { intros file d l i b s Hs. apply receive_returns; lia. }
  apply (Returns_bind _ k); [runs|returns k|]. returns k.
Qed.

Lemma wait_returns fuel marker d s :
  left (world s) < fuel ->
  match wait_for_cleanup fuel marker d s with
  | (Crashed, _) => False
  | (Val _, s') => marker ∈ active_upload_files (world s) -> left (world s') < left (world s)
  | (Fail _, _) => True
  end.
Proof.
  revert s. induction fuel as [|fuel IH]; intros s Hf; [lia|]. cbn [wait_for_cleanup].
  unfold mbind at 1, M_bind at 1. case_bool_decide as Hm; [|by cbn; intros].
  unfold io, call, mbind, M_bind. pose proof (alive _ _ _ (env_call _ _ _ (es_wait (world s) d))) as Ha.
  destruct (wait_for_maintenance_claim_change d (world s)) as [[[[]|e]|] w1] eqn:E; [|done..].
  apply left_wait in E. specialize (IH (with_world w1 s)). cbn in IH.
  pose proof (run_left k _ _ (Runs_wait k fuel marker d (with_world w1 s))) as Hl. cbn in Hl.
  cbn. destruct (wait_for_cleanup fuel marker d (with_world w1 s)) as [[[]|e|] s2]; cbn in *; [lia|done|]. apply IH. lia.
Qed.

Lemma Returns_track fuel p d : S n < fuel -> Returns n (track_active_upload_files fuel p d).
Proof.
  intros Hf s Hs. revert s Hs. assert (forall m s, left (world s) <= m -> S m < fuel ->
    (track_active_upload_files fuel p d s).1 <> Crashed) as Hx; [|intros s Hs; by eapply Hx].
  clear Hf. induction fuel as [|fuel IH]; intros m s Hs Hf; [lia|]. cbn [track_active_upload_files].
  pose proof (Returns_io m (entry_key p) ltac:(intros ?; constructor) s Hs) as Hi.
  pose proof (run_left k _ _ (Runs_io k (entry_key p) ltac:(intros ?; constructor) s)) as Hl.
  unfold mbind at 1, M_bind at 1. destruct (io (entry_key p) s) as [[key|e|] s1]; cbn [fst snd] in *; [|done..].
  unfold register_active, mbind at 1, M_bind at 1. case_bool_decide as Hm; [|done].
  unfold mbind, M_bind. pose proof (wait_returns fuel (maintenance_marker key) d s1) as Hw.
  destruct (wait_for_cleanup fuel _ d s1) as [[[]|e|] s2]; [|done|exfalso; apply Hw; lia].
  apply (IH (left (world s2))); [done|]. specialize (Hw ltac:(lia) Hm). lia.
Qed.

(** *** The preparation *)

Lemma Returns_expired d i msg : Returns n (upload_deadline_expired d i msg).
Proof. unfold upload_deadline_expired. returns k. Qed.
Lemma Returns_expired_before d i len o msg : Returns n (upload_deadline_expired_before_mutation d i len o msg).
Proof. unfold upload_deadline_expired_before_mutation. returns k. Qed.
Lemma Returns_not_found i : Returns n (session_not_found i).
Proof. unfold session_not_found. returns k. Qed.
#[local] Hint Resolve Returns_expired Returns_expired_before Returns_not_found Returns_lookup
  Returns_open_resumable : returns.
Lemma Returns_check_existing mode r : Returns n (check_existing_record u mode r).
Proof. unfold check_existing_record. returns k. Qed.
#[local] Hint Resolve Returns_check_existing : returns.
Lemma Returns_select_target mode ov r : Returns n (select_target u mode ov r).
Proof. unfold select_target, state_relative_path, apply_target_inspection_headers. returns k. Qed.
Lemma Returns_check_checkpoint o c : Returns n (check_checkpoint u o c).
Proof. unfold check_checkpoint. returns k. Qed.
Lemma Returns_abandon f c : Returns n (abandon_fresh_stage u f c).
Proof. unfold abandon_fresh_stage, check_discard. returns k. Qed.
Lemma Returns_reserve f len : Returns n (reserve f len).
Proof. unfold reserve. returns k. Qed.
#[local] Hint Resolve Returns_abandon Returns_reserve : returns.
Lemma Returns_create_fresh fuel d len : S n < fuel -> Returns n (create_fresh_stage fuel u d len).
Proof. intros Hf. pose proof (fun p d => Returns_track fuel p d Hf) as Ht. unfold create_fresh_stage. returns k. Qed.
Lemma Returns_record_fresh d v f c : Returns n (record_fresh_stage u d v f c).
Proof. unfold record_fresh_stage, check_discard, persist_initial_checkpoint. returns k. Qed.
Lemma Returns_reopen d o v c : Returns n (reopen_stage u d o v c).
Proof. unfold reopen_stage, persist_checkpoint. returns k. Qed.
Lemma Returns_deadline_after mode d f c msg : Returns n (deadline_after_stage u mode d f c msg).
Proof. unfold deadline_after_stage, outcome_can_be_unknown. returns k. Qed.
Lemma Returns_confirm_space mode b f c r : Returns n (confirm_space u mode b f c r).
Proof. unfold confirm_space. returns k. Qed.
#[local] Hint Resolve Returns_create_fresh Returns_record_fresh Returns_reopen Returns_deadline_after
  Returns_confirm_space : returns.
Lemma Returns_finish options t st fr len f c : Returns n (finish_preparation u options t st fr len f c).
Proof. unfold finish_preparation. returns k. Qed.
#[local] Hint Resolve Returns_finish : returns.
Lemma Returns_stage fuel options b t c : S n < fuel -> Returns n (stage_upload fuel u options b t c).
Proof. intros Hf. unfold stage_upload, body_too_long. returns k. Qed.
Lemma Returns_consult fuel options : S n < fuel -> Returns n (consult_record fuel u options).
Proof. intros Hf. pose proof (fun p d => Returns_track fuel p d Hf) as Ht. unfold consult_record. returns k. Qed.
End session.
#[local] Hint Resolve Returns_expired_before Returns_not_found Returns_select_target Returns_check_checkpoint
  Returns_stage Returns_consult : returns.

Lemma Returns_prepare fuel path options body :
  upload_session_key (owner_persistent (op_owner options)) (op_upload_id options) = k -> S n < fuel ->
  Returns n (prepare_upload fuel path options body).
Proof.
  intros Hk Hf. unfold prepare_upload, upload_temp_path. apply (Returns_bind _ k); [runs|returns k|]. intros _.
  apply (Returns_proceed _ k); [runs_on|returns k|]. intros _.
  apply (Returns_bind _ k); [runs|returns k|]. intros upload_path. cbv zeta. set (u := {| se_owner_id := _ |}).
  assert (upload_session_key (se_owner_id u) (se_upload_id u) = k) as Hu by done. clearbody u.
  returns k.
Qed.

Lemma Returns_handle_upload fuel path options body :
  upload_session_key (owner_persistent (op_owner options)) (op_upload_id options) = k ->
  (0 <= default 0 (mode_offset (op_mode options)))%Z -> n + Z.to_nat (op_upload_length options) + 1 < fuel ->
  Returns n (handle_upload fuel path options body).
Proof.
  intros Hk Ho Hf. unfold handle_upload, report_error, apply_upload_record_store_problem.
  apply (Returns_bind _ k).
  - apply Runs_attempt.
    apply (Runs_bind_val _ (fun o => forall t, o = Some t -> handed options t)); [rewrite <-Hk; apply Runs_prepare| |].
    + intros s o s' E t ->. by eapply prepare_handed.
    + intros [t|] Ht; [|runs]. destruct (Ht t eq_refl) as (E1 & E2 & _).
      eapply Runs_transfer; [|done]. by rewrite E1, E2.
  - apply Returns_attempt.
    apply (Returns_bind_val k _ (fun o => forall t, o = Some t -> handed options t));
      [rewrite <-Hk; apply Runs_prepare|apply Returns_prepare; [done|lia]|..].
    + intros s o s' E t ->. by eapply prepare_handed.
    + intros [t|] Ht; [|returns k]. destruct (Ht t eq_refl) as (E1 & E2 & E3 & E4).
      apply (Returns_transfer (tx_session t)); [by rewrite E1, E2|done|]. rewrite E3, E4. lia.
  - intros r. apply (Returns_bind _ k); [runs|by intros s _ [=]|]. intros _.
    destruct r; returns k.
Qed.
End returning.

(** ** The theorem *)

(** C21. An upload request returns.  As long as the process lives, the body has finitely
    many empty frames and maintenance is waited for finitely often, the handler ends
    with a value or an error: fuel beyond the declared length of the upload and the
    bound on those events is never used up, since every other chunk is paid for by a
    byte that was declared. *)
Theorem upload_request_returns `{Finite} `{!Alive} fuel path options body s :
  (0 <= default 0 (mode_offset (op_mode options)))%Z ->
  left (world s) + Z.to_nat (op_upload_length options) + 1 < fuel ->
  (handle_upload fuel path options body s).1 <> Crashed.
Proof. intros Ho Hf. by eapply Returns_handle_upload. Qed.

(** ** A run *)

(** In memory no call dies and a frame that is read is gone. *)
Lemma mem_step (w : World) b w' :
  env_step w b w' -> b = false /\ length (UploadMemory.m_frames w') <= length (UploadMemory.m_frames w).
Proof.
  destruct 1 as [b w' Hc|z]; [|by split]. destruct Hc; cbn; unfold UploadMemory.mem_now,
    UploadMemory.mem_open, UploadMemory.mem_create, UploadMemory.mem_write, UploadMemory.mem_rename,
    UploadMemory.stat_of_inode; try by repeat case_match; cbn; (split; [done|lia]).
  unfold UploadMemory.mem_frame. destruct (UploadMemory.m_frames w) as [|[] fs] eqn:E; cbn; rewrite ?E;
    (split; [done|cbn; lia]).
Qed.

#[export] Instance mem_finite : Finite.
Proof.
  refine {| left := fun w : World => length (UploadMemory.m_frames w) |}.
  - intros w b w' Hs. apply mem_step in Hs as [_ Hs]. exact Hs.
  - intros d w w'. cbn. unfold UploadMemory.mem_frame. destruct (UploadMemory.m_frames w) as [|[] fs]; try done.
    intros [= -> <-]. cbn. lia.
  - intros d w w'. cbn. by intros [=].
Defined.

#[export] Instance mem_alive : Alive.
Proof. intros w b w' Hs. apply mem_step in Hs as [Hs _]. exact Hs. Qed.

(** A body of two chunks and an empty frame, for a declared length of five bytes. *)
Lemma upload_request_returns_witness :
  let options := {| op_owner := str "me"; op_mode := UploadProtocol.Fresh; op_upload_id := replicate 16 x61;
                    op_upload_length := 5; op_overwrite := NoReplace; op_deadline := 1000 |} in
  let s := UploadMemory.mem_start [Chunk (str "hel"); Chunk []; Chunk (str "lo")] in
  left (world s) + Z.to_nat 5 + 1 < 10 /\ (handle_upload 10 (str "/srv/a") options (Some 5%Z) s).1 <> Crashed.
Proof.
  cbv zeta. split.
  - vm_compute. lia.
  - apply (upload_request_returns 10).
    + cbn. lia.
    + vm_compute. lia.
Defined.
End UploadReturns.
