(* ===== verification/UploadHistory.v ===== *)
(** * The life of an upload

    What happens to an upload id between its requests: its status is queried, it is
    discarded, the process dies and the database is recovered, other requests run.
    The promise of the abstract machine survives all of it, and along any history of
    such events an upload id is published at most once while its record is kept.  Once a
    record has expired, any save and maintenance may remove it, and the id is free
    again. *)

From S2P Require Import Prelude Paths Sql StateModel UploadStore RootedPaths PathPolicy Problem UploadProtocol.
From S2P Require Import UploadWorld UploadRecord UploadFailure UploadCommit UploadTransfer UploadPrepare.
From S2P Require Import UploadHandler UploadLaws UploadMemory UploadSafety UploadEndings UploadContract.

Module UploadHistory.
Import UploadProtocol UploadRecord UploadFailure UploadPrepare UploadHandler UploadSafety UploadEndings UploadContract.

(** ** Recovery *)

Lemma decoded_stage k r x :
  UploadStore.decode_upload_row (k, r) = Ok x ->
  UploadStore.r_stage_path r = stage_path x /\ UploadStore.row_active r = negb (is_terminal (up_state x)).
Proof. intros (_ & _ & ->)%UploadStore.decode_inv. by rewrite UploadStore.row_active_of. Qed.

Lemma recovered_stage now limit x r :
  UploadStore.r_stage_path (UploadStore.recovered_row now limit x r) = stage_path x /\
  (UploadStore.row_active (UploadStore.recovered_row now limit x r) = true -> is_terminal (up_state x) = false).
Proof.
  unfold UploadStore.recovered_row, UploadStore.row_active, UploadStore.recovered.
  destruct (up_state x) eqn:E; (split; [done|]); cbn; rewrite ?E; done.
Qed.

(** Recovery keeps the table well formed, and every row but for an interrupted commit. *)
Lemma recover_found limits t now limit k o :
  found limits t k o ->
  exists t', UploadStore.recover_uploads t now limit = Ok t' /\ found limits t' k (UploadStore.recovered <$> o).
Proof.
  intros [[Hr Hs Hc Hw] Ho].
  destruct (UploadStore.recover_uploads_lookup t now limit Hr) as (t' & E & Hn & Ht).
  destruct (UploadStore.recover_uploads_resolved t now limit Hr) as (t'' & E' & _ & Hd).
  rewrite E in E'. injection E' as <-. exists t'. split; [done|].
  assert (forall k' r', t' !! k' = Some r' -> exists r x, t !! k' = Some r /\
    UploadStore.decode_upload_row (k', r) = Ok x /\ r' = UploadStore.recovered_row now limit x r) as Hinv.
  { intros k' r' Hr'. destruct (t !! k') as [r|] eqn:Er; [|by rewrite (Hn _ Er) in Hr'].
    destruct (Hr _ _ Er) as [x Hx]. rewrite (Ht _ _ _ Er Hx) in Hr'. injection Hr' as <-. eauto 10. }
  assert (forall k', is_Some (t' !! k') -> is_Some (t !! k')) as Hdom.
  { intros k' [r' Hr']. destruct (Hinv _ _ Hr') as (r & x & Hx & _). eauto. }
  split; [split|].
  - intros k' r' Hr'. destruct (Hinv _ _ Hr') as (r & x & Hx & Hdx & ->).
    destruct (Hd _ _ _ Hx Hdx) as (r' & E' & Hr'' & _). rewrite Hr' in E'. injection E' as ->. by eexists.
  - intros k1 k2 r1 r2 H1 H2 A1 A2 Hp.
    destruct (Hinv _ _ H1) as (q1 & x1 & Q1 & D1 & ->), (Hinv _ _ H2) as (q2 & x2 & Q2 & D2 & ->).
    destruct (recovered_stage now limit x1 q1) as [P1 T1], (recovered_stage now limit x2 q2) as [P2 T2].
    destruct (decoded_stage _ _ _ D1) as [S1 B1], (decoded_stage _ _ _ D2) as [S2 B2].
    apply (Hs k1 k2 q1 q2); [done..| | |congruence]; [rewrite B1, T1|rewrite B2, T2]; done.
  - etrans; [|exact Hc]. by apply UploadStore.upload_counts_mono.
  - intros ow. etrans; [|apply (Hw ow)]. by apply UploadStore.upload_counts_mono.
  - destruct o as [x|]; cbn.
    + apply UploadStore.load_Ok in Ho as (r & Hx & Hdx). destruct (Hd _ _ _ Hx Hdx) as (r' & Hx' & Hr' & _).
      apply UploadStore.load_Ok. eauto.
    + apply UploadStore.load_None. destruct (t' !! k) as [r'|] eqn:Ek; [|done].
      destruct (Hinv _ _ Ek) as (r & x & Hx & Hdx & _). by rewrite (UploadStore.load_Some _ _ _ _ Hx Hdx) in Ho.
Qed.

(** ** Discarding *)

(** What a rejection leaves in the table, and when it says so. *)
Lemma reject_row limits t now k target stage ttl o :
  found limits t k o -> validate_stored_path target "Upload target" = Ok tt ->
  validate_stored_path stage "Upload stage" = Ok tt -> is_i64 (now + ttl) ->
  exists t' a, UploadStore.reject_upload_session t now k target stage ttl = Ok (t', a) /\
    ((t' = t /\ forall x, a = RejectRejected x -> o = Some x /\ up_state x = Rejected) \/
     exists r, o = Some r /\ up_state r = AwaitingConfirmation /\ a = RejectRejected (UploadStore.session_rejected r) /\
       found limits t' k (Some (UploadStore.session_rejected r))).
Proof.
  intros [Ht Ho] Hv1 Hv2 Hi. pose proof (UploadStore.to_rows _ _ Ht) as Hd.
  pose proof (UploadStore.upload_exec_step limits t now (UploadStore.Reject k target stage ttl) Hd
    (conj Hv1 (conj Hv2 Hi))) as Hstep.
  cbn [UploadStore.exec] in Hstep. rewrite Hv1, Hv2 in Hstep. cbn [mbind result_bind] in Hstep.
  destruct (UploadStore.reject_precheck_Ok t k target stage Hd) as [[a|r] Hp].
  - exists t, a. split; [unfold UploadStore.reject_upload_session; by rewrite Hp|]. left. split; [done|].
    intros x ->. unfold UploadStore.reject_precheck in Hp. rewrite Ho in Hp. cbn in Hp.
    destruct o as [r|]; [|done]. repeat case_match; simplify_eq. by split_bool.
  - destruct (UploadStore.reject_rejected t now k target stage ttl Hd Hi) as (t' & a & E & Hs).
    rewrite E in Hstep. exists t', a. split; [done|].
    assert (UploadStore.table_ok limits t') as Ht' by by eapply UploadStore.upload_step_ok.
    destruct Hs as [a Hp'|row x Hrow Hx Hsx]; [by rewrite Hp in Hp'|]. right.
    apply UploadStore.reject_precheck_inr in Hp as (Hp & _). rewrite Ho in Hp. injection Hp as ->.
    rewrite (UploadStore.load_Some _ _ _ _ Hrow Hx) in Ho. injection Ho as ->. exists r.
    split_and!; [done..|]. split; [done|]. apply UploadStore.load_Ok. eexists. split; [apply lookup_insert_eq|].
    apply UploadStore.decode_inv in Hx as (<- & He & _).
    change (up_key r) with (up_key (UploadStore.session_rejected r)).
    by apply UploadStore.decode_row_of, UploadStore.session_rejected_encodable.
Qed.
Section discard.
Context `{L : UploadLaws} (s0 : St) (k : UploadSessionKey) (o : option StoredUploadSession).
Context (Ho : found limits (table s0) k o) (Hm : h_state (response s0) = None).

(** Nothing has been changed but the response. *)
Definition Still (s : St) : Prop := quiet (world s0) (world s) /\ table s = table s0.

(** The row says that the upload was rejected; at most its stage has been removed. *)
Definition Gone (s : St) : Prop :=
  exists r, o = Some r /\ (up_state r = AwaitingConfirmation \/ up_state r = Rejected) /\
    found limits (table s) k (Some (UploadStore.session_rejected r)) /\
    (forall j, stage_identity r <> Some j -> same_file (world s0) (world s) j) /\
    published (world s) = published (world s0) /\ delivered (world s) = delivered (world s0).

Abbreviation Kept := (fun s => Still s \/ Gone s).

Lemma Still_calm s : calm s0 s -> Still s.
Proof. by intros []. Qed.

Lemma Gone_world s s' :
  Gone s -> table s' = table s -> (forall j r, o = Some r -> stage_identity r <> Some j -> same_file (world s) (world s') j) ->
  published (world s') = published (world s) -> delivered (world s') = delivered (world s) -> Gone s'.
Proof.
  intros (r & Hr & Hst & Hf & Hq & Hp & Hd) Ht Hw Hp' Hd'. exists r. rewrite Ht.
  split_and!; [done|done|done| |congruence|congruence]. intros j Hj. eapply same_file_trans; [by apply Hq|by eapply Hw].
Qed.

Lemma Gone_calm s s' : Gone s -> calm s s' -> Gone s'.
Proof. intros Hg [[Hq _ Hp Hd] Ht _]. eapply Gone_world; [done..|]. done. Qed.

(** The decision: a row that awaits confirmation becomes a rejected one. *)
Lemma wp_reject_for_discard ow i p st s :
  upload_session_key ow i = k -> calm s0 s ->
  wp Kept (reject_for_discard ow i p st) (fun x s' => Kept s' /\ h_state (response s') = None /\
    match x with
    | Ok (DiscardRejected rec) => Gone s' /\ rj_stage_identity rec = o ≫= stage_identity
    | _ => True
    end) s.
Proof.
  intros Hk Hs. unfold reject_for_discard. rewrite Hk.
  assert (forall s', calm s0 s' -> Kept s') as HK by (intros; left; by apply Still_calm).
  assert (forall s', calm s0 s' -> h_state (response s') = None) as HM by (by intros s' [_ _ ->]).
  apply wp_bind, (wp_still _ _ _ s0); [auto with calm|done..|]. intros [[tr sr]|e] s1 H1; [|auto].
  pose proof (proj2 Ho) as Hl. rewrite <-(calm_table _ _ H1) in Hl.
  apply wp_bind, (wp_upload_session _ _ _ _ o Hl). intros s2 Hc2 _.
  assert (calm s0 s2) as H2 by by etrans. split; [auto|]. split; [|auto]. cbv beta iota.
  set (o' := o) at 1. assert (o = o') as Eo by done. clearbody o'. destruct o' as [r|]; [|apply wp_ret; auto].
  apply wp_bind, (wp_still _ _ _ s0); [auto with calm|done..|]. intros [stt|e] s3 H3; [|auto].
  apply wp_bind, (wp_still _ _ _ s0); [auto with calm|done..|]. intros [sts|e] s4 H4; [|auto].
  apply wp_bind, (wp_still _ _ _ s0); [calm|done..|]. intros [foreign|e] s5 H5; [|auto].
  destruct foreign; [apply wp_ret; auto|]. unfold reject_upload_session. apply wp_bind.
  apply wp_bind, wp_of_result; [intros [] V1|auto]. apply wp_bind, wp_of_result; [intros [] V2|auto].
  apply wp_db. intros w' Hq.
  assert (calm s0 (with_world w' s5)) as H6 by (etrans; [exact H5|by apply calm_world_step]).
  split_and!; [auto..|]. intros now Hi t a Ec. cbv zeta.
  assert (found limits (table s5) k o) as Hf by (by rewrite (calm_table _ _ H5)).
  destruct (reject_row limits _ now k tr (stage_path r) upload_ttl o Hf V1 V2 Hi) as (t' & a' & Ec' & Hc).
  rewrite Ec' in Ec. injection Ec as -> ->. set (s6 := with_world w' s5) in *.
  pose proof (calm_world _ _ H6) as Hw6.
  destruct Hc as [[-> Hx]|(r' & Hr' & Hst & -> & Hf')].
  - change (table s5) with (table s6). assert (with_table (table s6) s6 = s6) as -> by by destruct s6.
    split; [auto|]. split; [|auto]. apply wp_ret. split; [auto|]. split; [auto|].
    destruct a as [| |x|x]; try done. destruct (Hx x eq_refl) as [Hox Hsx]. split; [|cbn; by rewrite Hox].
    exists x. split_and!; [done|by right| |intros; apply Hw6|apply Hw6..].
    rewrite (calm_table _ _ H6). assert (UploadStore.session_rejected x = x) as -> by (destruct x; cbn in *; by subst).
    by rewrite <-Hox.
  - assert (Gone (with_table t s6)) as Hg.
    { exists r'. split_and!; [done|by left|done|intros; apply Hw6|apply Hw6..]. }
    assert (h_state (response (with_table t s6)) = None) as Hn by (cbn; apply (HM _ H6)).
    split; [by right|]. split; [|by auto]. apply wp_ret. split; [by right|]. split; [done|]. split; [done|].
    cbn. by rewrite Hr'.
Qed.

(** Removing the stage of a rejected upload touches nothing else. *)
Lemma wp_cleanup rec s :
  Gone s -> h_state (response s) = None -> rj_stage_identity rec = o ≫= stage_identity ->
  wp Gone (cleanup_rejected_stage rec) (fun _ s' => Gone s' /\ h_state (response s') = None) s.
Proof.
  intros Hg Hn Hi. unfold cleanup_rejected_stage. destruct (rj_stage_identity rec) as [i|]; [|by apply wp_ret].
  set (I := fun s => Gone s /\ h_state (response s) = None).
  assert (Stable I) as HI.
  { intros x y [Hx Hx'] Hc. split; [by eapply Gone_calm|]. by rewrite (calm_told _ _ Hc). }
  assert (I s) as Hs by done. apply (wp_crash I); [|by intros ? []].
  unfold remove_file_if_identity. apply wp_bind, wp_bind.
  apply (wp_calm I); [calm|done..|]. intros [[e|]|x] s1 Hs1 _; [| |done]; cycle 1.
  { apply wp_ret. apply (wp_calm I); [apply Calm_remove_stage_directory|done..]. }
  destruct (bool_decide _) eqn:E; cbn [negb].
  2: { apply wp_ret. apply (wp_calm I); [apply Calm_remove_stage_directory|done..]. }
  apply bool_decide_eq_true in E. apply wp_bind, wp_io. intros oc w' Ep.
  pose proof (law_purge e (world s1)) as Hp. rewrite E in Hp. specialize (Hp eq_refl). rewrite Ep in Hp.
  destruct Hp as ([Hel Hpu Hde] & _ & _).
  assert (I (with_world w' s1)) as Hs2.
  { split; [|apply Hs1]. eapply Gone_world; [apply Hs1|done| |done|done]. intros j r Hr Hj. apply Hel. intros ->.
    apply Hj. rewrite Hr in Hi. cbn in Hi. rewrite <-Hi. f_equal. by destruct i. }
  destruct oc as [[c|x]|]; [|done..]. destruct c; [apply wp_ret|by apply wp_throw].
  apply (wp_calm I); [apply Calm_remove_stage_directory|done..].
Qed.

Lemma Kept_view s s' : Kept s -> world s' = world s -> table s' = table s -> Kept s'.
Proof.
  intros [[Hq Ht]|Hg] Hw Ht'; [left; split; congruence|right]. eapply Gone_world; [done|done| |congruence|congruence].
  intros j r _ _. rewrite Hw. apply same_file_refl.
Qed.

(** A response never says that an upload was rejected that was not. *)
Definition Decided (x : result Error unit) (s : St) : Prop :=
  Kept s /\ (x = Ok tt -> h_state (response s) = Some PsRejected -> Gone s).

Lemma wp_decided context status code detail recovery s :
  Kept s -> ec_state context <> PsRejected \/ Gone s ->
  wp Kept (apply_upload_problem context status code detail recovery) Decided s.
Proof.
  intros Hk Hr. apply wp_problem. intros s' Hw Ht Hh _. split; [by apply (Kept_view s)|].
  intros _. rewrite Hh. intros [= Hp]. destruct Hr as [Hr|Hg]; [done|].
  eapply Gone_world; [done|done| |congruence|congruence]. intros j r _ _. rewrite Hw. apply same_file_refl.
Qed.

Lemma wp_store_answer context e s :
  Kept s -> h_state (response s) = None -> ec_state context = PsUnknown ->
  wp Kept (applied ← apply_upload_record_store_problem context e; if applied : bool then mret tt else throw e)
    Decided s.
Proof.
  intros Hk Hn Hc.
  assert (forall status code detail recovery, wp Kept (apply_upload_problem context status code detail recovery)
    Decided s) as Hp by (intros; apply wp_decided; [done|]; left; by rewrite Hc).
  apply wp_bind. unfold apply_upload_record_store_problem.
  destruct e as [e|[]| |msg]; first [apply wp_ret, wp_throw; by split|
    apply wp_bind; eapply wp_mono; [apply Hp|]; intros [[]|x] s' Hs'; [by apply wp_ret, wp_ret|done]].
Qed.

Lemma wp_discard_upload ow path i :
  upload_session_key (owner_persistent ow) i = k -> wp Kept (discard_awaiting_upload ow path i) Decided s0.
Proof.
  intros Hk. unfold discard_awaiting_upload.
  assert (forall s', calm s0 s' -> Kept s') as HK by (intros; left; by apply Still_calm).
  apply wp_bind, (wp_still _ _ _ s0); [auto with calm|done..|]. intros [up|e] s1 H1; [|split; [auto|done]].
  apply wp_bind, wp_attempt. eapply wp_mono; [by apply wp_reject_for_discard|].
  intros [[| |c|rec]|e] s2 (Hk2 & Hn2 & Hx).
  - apply wp_decided; [done|by left].
  - apply wp_decided; [done|by left].
  - destruct (cp_state c); first [apply wp_decided; [done|by left]|by apply wp_throw].
  - destruct Hx as [Hg Hi]. apply wp_bind, wp_attempt, (wp_crash Gone); [|by right].
    eapply wp_mono; [by apply wp_cleanup|]. intros [[]|e] s3 [Hg3 Hn3].
    + apply wp_bind, wp_respond, wp_respond.
      match goal with |- Decided _ ?x => assert (Gone x) as Hx end.
      { eapply Gone_world; [exact Hg3|done| |done|done]. intros j r _ _. apply same_file_refl. }
      split; [by right|done].
    + apply wp_decided; [by right|by right].
  - by apply wp_store_answer.
Qed.

(** The promise after a discard. *)
Lemma Kept_abstracts a s :
  abstracts (world s0) o a -> Kept s ->
  exists o' a', found limits (table s) k o' /\ abstracts (world s) o' a' /\
    (a' = a \/ a' = Refused /\ exists held, a = Holds held) /\ published (world s) = published (world s0).
Proof.
  intros Ha [[Hq Ht]|(r & -> & Hst & Hf & _ & Hp & _)].
  - exists o, a. rewrite Ht. split_and!; [done| |by left|apply Hq].
    eapply abstracts_kept; [done|]. intros. eapply kept_same; [done|apply Hq].
  - exists (Some (UploadStore.session_rejected r)), Refused. split_and!; [done|done| |done].
    cbn in Ha. destruct Hst as [Hst|Hst]; rewrite Hst in Ha; [right|left; by rewrite Ha].
    destruct Ha as (held & i & -> & _). eauto.
Qed.
End discard.

(** ** The status of an upload *)

Section status.
Context `{L : UploadLaws} (s0 : St) (o : option StoredUploadSession) (ow path i : bytes).
Abbreviation k := (upload_session_key (owner_persistent ow) i).
Context (Ho : UploadStore.load_upload_session (table s0) k = Ok o) (Hm : h_state (response s0) = None).

Definition reports (s : St) : Prop :=
  let of_row states :=
    exists r, o = Some r /\ up_state r ∈ states /\ h_length (response s) = Some (upload_length r) /\
      h_offset (response s) = Some (durable_offset r) in
  match h_state (response s) with
  | Some PsRunning => of_row [Running]
  | Some PsAwaitingConfirmation => of_row [AwaitingConfirmation]
  | Some PsCommitted => of_row [Committed]
  | Some PsRejected => of_row [Rejected]
  | Some PsUnknown => res_status (response s) ∈ [UNAVAILABLE; CONFLICT] \/ of_row [CommitStarted; Unknown]
  | Some PsNotSeen => res_status (response s) = NOT_FOUND
  | Some PsNotStarted | None => False
  end.

Definition Queried (x : result Error unit) (s : St) : Prop := Still s0 s /\ (x = Ok tt -> reports s).

Lemma Still_view s s' : Still s0 s -> world s' = world s -> table s' = table s -> Still s0 s'.
Proof. intros [] Hw Ht. split; congruence. Qed.

Lemma wp_query : wp (Still s0) (handle_upload_status path ow i) Queried s0.
Proof.
  unfold handle_upload_status.
  assert (forall s', calm s0 s' -> Still s0 s') as HK by (intros; by apply Still_calm).
  apply wp_bind, (wp_still _ _ _ s0); [auto with calm|done..|]. intros [up|e] s1 H1; [|by split; auto].
  apply wp_bind, wp_attempt. rewrite <-(calm_table _ _ H1) in Ho.
  apply (wp_crash (calm s1)); [|intros s' Hs'; apply HK; by etrans].
  eapply wp_mono; [by apply wp_lookup_row|]. intros x s2 [Hc2 Hx].
  assert (calm s0 s2) as H2 by by etrans. apply HK in H2 as Hst.
  destruct x as [[| |c]|e].
  - apply wp_bind, wp_respond, wp_respond. by split.
  - apply wp_bind, wp_respond, wp_respond. by split.
  - destruct Hx as (r & Hr & ->). cbn [upload_checkpoint cp_state cp_upload_length cp_durable_offset].
    assert (forall s' st states, Still s0 s' -> up_state r ∈ states ->
      match st with PsRunning => states = [Running] | PsAwaitingConfirmation => states = [AwaitingConfirmation]
      | PsCommitted => states = [Committed] | PsRejected => states = [Rejected] | _ => False end ->
      wp (Still s0) (respond (apply_upload_record_headers (hyphenated i) (Some (upload_length r))
        (Some (durable_offset r)) st)) Queried s') as Hrow.
    { intros s' st states Hs' Hin Hstates. apply wp_respond. split; [done|]. intros _. unfold reports. cbn.
      destruct st; try done; subst states; by exists r. }
    assert (forall s', Still s0 s' -> up_state r ∈ [CommitStarted; Unknown] -> forall status code detail recovery,
      wp (Still s0) (apply_upload_problem (error_context i PsUnknown (Some (upload_length r))
        (Some (durable_offset r))) status code detail recovery) Queried s') as Hunknown.
    { intros s' Hs' Hin status code detail recovery. apply wp_bind, wp_respond, wp_respond. split; [done|]. intros _.
      right. by exists r. }
    destruct (up_state r) eqn:Es; cbn [record_state].
    + apply (Hrow _ _ [Running]); [done|set_solver|done].
    + apply Hunknown; [done|set_solver].
    + apply (Hrow _ _ [Committed]); [done|set_solver|done].
    + apply wp_bind, wp_respond. apply (Hrow _ _ [Rejected]); [done|set_solver|done].
    + apply Hunknown; [done|set_solver].
    + apply wp_bind, wp_respond. set (s3 := with_response _ s2). assert (calm s0 s3) as H3 by (etrans; [exact H2|by split]).
      unfold inspect_upload_target, apply_target_inspection_headers.
      apply wp_bind, (wp_still _ _ _ s0); [calm|done..|]. intros [x|e] s4 H4; [|by split; auto].
      apply wp_bind, (wp_still _ _ _ s0); [calm|done..|]. intros [y|e] s5 H5; [|by split; auto].
      apply (Hrow _ _ [AwaitingConfirmation]); [by apply HK|set_solver|done].
  - apply wp_bind. unfold apply_upload_record_store_problem.
    destruct e as [e|[]| |msg]; try (apply wp_ret, wp_throw; by split);
      apply wp_bind, wp_bind, wp_respond, wp_respond, wp_ret, wp_ret; (split; [done|]); intros _; left; cbn; set_solver.
Qed.
End status.

(** ** Histories *)

Section history.
Context `{L : UploadLaws}.

(** What a crash leaves: every durable byte, and none that was not written. *)
Record survives (w w' : World) : Prop := {
  sr_durable i : durable w i `prefix_of` durable w' i;
  sr_content i : content w' i `prefix_of` content w i;
  sr_published : published w' = published w }.

Lemma recovered_abstracts w w' o a :
  abstracts w o a -> survives w w' -> abstracts w' (UploadStore.recovered <$> o) a.
Proof.
  intros Ha [Hd Hc _]. apply (abstracts_kept w w') in Ha; [|intros r i held _ _ Hk; by apply (kept_mono w)].
  destruct o as [r|]; [|done]. cbn in *. by destruct (up_state r).
Qed.

(** Every request answers with a response of its own. *)
Definition fresh (s : St) : St := with_response default_response s.

(** One event in the life of the upload id [k], with the data it publishes for it. *)
Variant event (k : UploadSessionKey) (s : St) : list bytes -> St -> Prop :=
| ev_request fuel path options body s' :
    options_ok options -> request_key options = k -> s' = (handle_upload fuel path options body (fresh s)).2 ->
    event k s (pub_data <$> drop (length (published (world s))) (published (world s'))) s'
| ev_status ow path i : event k s [] (handle_upload_status path ow i (fresh s)).2
| ev_discard ow path i :
    upload_session_key (owner_persistent ow) i = k -> event k s [] (discard_awaiting_upload ow path i (fresh s)).2
| ev_restart now limit w' t' :
    survives (world s) w' -> UploadStore.recover_uploads (table s) now limit = Ok t' ->
    event k s [] (with_table t' (with_world w' s))
| ev_other s' o :
    found limits (table s) k o -> found limits (table s') k o ->
    (forall r i held, o = Some r -> stage_identity r = Some i -> kept (world s) i held -> kept (world s') i held) ->
    event k s [] s'.

(** What has happened to [k] since [s]: the data published in each life of its record
    that has ended, and in the present one.  A life ends when the record is removed,
    which saves of other uploads and maintenance do once it has expired. *)
Inductive history (k : UploadSessionKey) (s : St) : list (list bytes) -> list bytes -> St -> Prop :=
| hist_nil : history k s [] [] s
| hist_event past log s1 l s2 : history k s past log s1 -> event k s1 l s2 -> history k s past (log ++ l) s2
| hist_forgotten past log s1 s2 :
    history k s past log s1 -> found limits (table s2) k None -> history k s (past ++ [log]) [] s2.

(** One event as a step of the abstract machine. *)
Variant lives (a : promise) : list bytes -> promise -> Prop :=
| lv_request base d len pubs a' : request base d len a pubs a' -> lives a pubs a'
| lv_refuse held : a = Holds held -> lives a [] Refused.

Lemma request_event fuel path options body s o a :
  options_ok options -> found limits (table s) (request_key options) o -> abstracts (world s) o a ->
  let s' := (handle_upload fuel path options body (fresh s)).2 in
  exists o' a' d, found limits (table s') (request_key options) o' /\ abstracts (world s') o' a' /\
    request (base_of (op_mode options) a) d (op_upload_length options) a
      (pub_data <$> drop (length (published (world s))) (published (world s'))) a'.
Proof.
  intros Hok Hf Ha s'.
  destruct (request_known fuel path options body (fresh s) o a Hok Hf Ha eq_refl)
    as [(o' & a' & d & [Hf' Ha' _ _ Hp _] & Hr)|(f & d & st & [(r & Hf' & Hst) Hcom Hact Hp Hl _ _ _])].
  - exists o', a', d. split_and!; [done..|]. cbn in Hp. subst s'. rewrite Hp, drop_all. exact Hr.
  - exists (Some r), (if bool_decide (st = Committed) then Done else Undecided), d.
    split_and!; [done| |].
    + cbn. rewrite Hst. destruct Hcom as [-> |[-> | ->]]; by rewrite ?bool_decide_true, ?bool_decide_false by done.
    + subst s'. cbn in Hp. rewrite Hp, drop_app_length. cbn. apply rq_publish; [done..|]. case_bool_decide; auto.
Qed.

Lemma event_lives k s l s' o a :
  found limits (table s) k o -> abstracts (world s) o a -> event k s l s' ->
  exists o' a', found limits (table s') k o' /\ abstracts (world s') o' a' /\ lives a l a'.
Proof.
  intros Hf Ha [fuel path options body s1 Hok <- ->|ow path i|ow path i Hk|now limit w' t' Hw Ht|s1 o1 Hf1 Hf2 Hk].
  - destruct (request_event fuel path options body s o a Hok Hf Ha) as (o' & a' & d & ? & ? & ?).
    exists o', a'. split_and!; [done..|]. by eapply lv_request.
  - destruct (UploadStore.load_decodes (table s) (upload_session_key (owner_persistent ow) i)
      (UploadStore.to_rows _ _ (proj1 Hf))) as [x Hx].
    pose proof (wp_query (fresh s) x ow path i Hx eq_refl) as Hq. unfold wp in Hq.
    assert (Still (fresh s) (handle_upload_status path ow i (fresh s)).2) as [Hs Ht].
    { destruct (handle_upload_status path ow i (fresh s)) as [[[]|e|] s1]; [apply Hq..|exact Hq]. }
    exists o, a. rewrite Ht. split_and!; [done| |by eapply (lv_request _ [] [] 0), rq_keep].
    eapply abstracts_kept; [done|]. intros. eapply kept_same; [done|apply Hs].
  - pose proof (wp_discard_upload (fresh s) k o Hf eq_refl ow path i Hk) as Hd. unfold wp in Hd.
    destruct (Kept_abstracts (fresh s) k o Hf a (discard_awaiting_upload ow path i (fresh s)).2 Ha)
      as (o' & a' & Hf' & Ha' & Hx & _).
    { destruct (discard_awaiting_upload ow path i (fresh s)) as [[[]|e|] s1]; [apply Hd..|exact Hd]. }
    exists o', a'. split_and!; [done..|].
    destruct Hx as [-> |(-> & held & ->)]; [by eapply (lv_request _ [] [] 0), rq_keep|by eapply lv_refuse].
  - destruct (recover_found limits (table s) now limit k o Hf) as (t1 & Et & Hf'). rewrite Ht in Et.
    injection Et as <-. exists (UploadStore.recovered <$> o), a.
    split_and!; [done|by eapply recovered_abstracts|by eapply (lv_request _ [] [] 0), rq_keep].
  - exists o, a. assert (o1 = o) as -> by (destruct Hf as [_ Ho], Hf1 as [_ Ho1]; congruence).
    split_and!; [done|by eapply abstracts_kept|by eapply (lv_request _ [] [] 0), rq_keep].
Qed.

(** What the log of a history and the promise at its end have to do with each other. *)
Definition accounts (log : list bytes) (a : promise) : Prop :=
  log = [] /\ a <> Done \/ exists data, log = [data] /\ (a = Undecided \/ a = Done).

Lemma lives_accounts log a l a' : accounts log a -> lives a l a' -> accounts (log ++ l) a'.
Proof.
  intros Ha [base d len pubs a1 Hr|held ->].
  - destruct Ha as [[-> Hd]|(data & -> & Hd)].
    + cbn. destruct Hr; try by left. right. eauto.
    + assert (~ active a) as Hn by (destruct Hd as [-> | ->]; by intros []).
      destruct Hr; try done. rewrite app_nil_r. right. eauto.
  - destruct Ha as [[-> _]|(data & -> & [|])]; [|done..]. by left.
Qed.

Lemma accounts_once log a : accounts log a -> length log <= 1.
Proof. intros [[-> _]|(data & -> & _)]; cbn; lia. Qed.

Lemma history_accounts k s past log s' o a :
  found limits (table s) k o -> abstracts (world s) o a -> accounts [] a -> history k s past log s' ->
  Forall (fun life => length life <= 1) past /\
  exists o' a', found limits (table s') k o' /\ abstracts (world s') o' a' /\ accounts log a'.
Proof.
  intros Hf Ha Hl. induction 1 as [|past log s1 l s2 _ IH He|past log s1 s2 _ IH Hn].
  - split; [constructor|]. by exists o, a.
  - destruct IH as (Hp & o1 & a1 & Hf1 & Ha1 & Hl1). split; [done|].
    destruct (event_lives _ _ _ _ _ _ Hf1 Ha1 He) as (o2 & a2 & ? & ? & Hv). exists o2, a2. split_and!; [done..|].
    by eapply lives_accounts.
  - destruct IH as (Hp & o1 & a1 & Hf1 & Ha1 & Hl1). split.
    + apply Forall_app. split; [done|]. apply Forall_singleton. by eapply accounts_once.
    + exists None, NoPromise. split_and!; [done..|by left].
Qed.

(** C8. While the record of an upload is kept, it is published at most once.  Take any
    sequence of requests with the same upload id, status queries, discards, crashes with
    recovery of the database, removals of the record (which saves of other uploads and
    maintenance do once it has expired), and other work that leaves the record and the
    bytes of its stage alone.  Between two removals of the record at most one request
    publishes.  At the end, if none has published since the last removal, the record
    does not say committed; if one has, the record says that the upload is committed or
    that its end is in doubt. *)
Theorem upload_published_once k s past log s' o a :
  found limits (table s) k o -> abstracts (world s) o a -> active a -> history k s past log s' ->
  Forall (fun life => length life <= 1) past /\
  exists o' a', found limits (table s') k o' /\ abstracts (world s') o' a' /\
    (log = [] /\ a' <> Done \/ exists data, log = [data] /\ (a' = Undecided \/ a' = Done)).
Proof.
  intros Hf Ha Hact Hh. apply (history_accounts k s past log s' o a Hf Ha); [|done]. left. split; [done|].
  by intros ->.
Qed.

(** C20. A crash loses no acknowledged byte.  Recovery of the database succeeds, keeps
    the table well formed and leaves every upload id with the promise it had: the
    bytes a client was told are stored are still there, an interrupted publication is
    in doubt, and a decided upload stays decided. *)
Theorem recovery_keeps_promises k s w' now limit o a :
  found limits (table s) k o -> abstracts (world s) o a -> survives (world s) w' ->
  exists t', UploadStore.recover_uploads (table s) now limit = Ok t' /\
    found limits t' k (UploadStore.recovered <$> o) /\ abstracts w' (UploadStore.recovered <$> o) a.
Proof.
  intros Hf Ha Hw. destruct (recover_found limits (table s) now limit k o Hf) as (t' & Et & Hf').
  exists t'. split_and!; [done..|]. by eapply recovered_abstracts.
Qed.

(** Discarding decides.  Whatever happens during a discard, the upload is as it was
    or has been rejected, the latter only if it was waiting for confirmation; nothing
    is published, no file but its stage is touched, and a response that says rejected
    is given only if the row says so. *)
Lemma discard_decides ow path i s o a :
  found limits (table s) (upload_session_key (owner_persistent ow) i) o -> abstracts (world s) o a ->
  h_state (response s) = None ->
  let '(x, s') := discard_awaiting_upload ow path i s in
  exists o' a', found limits (table s') (upload_session_key (owner_persistent ow) i) o' /\
    abstracts (world s') o' a' /\
    (a' = a \/ a' = Refused /\ exists held, a = Holds held) /\ published (world s') = published (world s) /\
    (forall j, (forall r, o = Some r -> stage_identity r <> Some j) -> same_file (world s) (world s') j) /\
    (x = Val tt -> h_state (response s') = Some PsRejected -> exists r, o' = Some r /\ up_state r = Rejected).
Proof.
  set (k := upload_session_key _ i). intros Hf Ha Hm.
  pose proof (wp_discard_upload s k o Hf Hm ow path i eq_refl) as Hd. unfold wp in Hd.
  destruct (discard_awaiting_upload ow path i s) as [x s'].
  assert ((Still s s' \/ Gone s k o s') /\
    (x = Val tt -> h_state (response s') = Some PsRejected -> Gone s k o s')) as [Hk Hr].
  { destruct x as [[]|e|]; [destruct Hd as [? Hd]; split; auto|by destruct Hd|done]. }
  destruct (Kept_abstracts s k o Hf a s' Ha Hk) as (o' & a' & Hf' & Ha' & Hx & Hp). exists o', a'.
  split_and!; [done..| |].
  - intros j Hj. destruct Hk as [[Hq _]|(r & Hr' & _ & _ & Hq & _)]; [apply Hq|]. by apply Hq, Hj.
  - intros Hx1 Hs. destruct (Hr Hx1 Hs) as (r & _ & _ & Hf'' & _). destruct Hf' as [_ Ho'], Hf'' as [_ Ho''].
    rewrite Ho' in Ho''. injection Ho'' as ->. by eexists.
Qed.

(** Queries tell the truth and change nothing.  A status request leaves the table,
    every file and what is published as they are; when it answers, the state, the
    length and the offset it reports are those of the row. *)
Lemma upload_status_true ow path i s o :
  UploadStore.load_upload_session (table s) (upload_session_key (owner_persistent ow) i) = Ok o ->
  h_state (response s) = None ->
  let '(x, s') := handle_upload_status path ow i s in
  quiet (world s) (world s') /\ table s' = table s /\ (x = Val tt -> reports o s').
Proof.
  intros Ho Hm. pose proof (wp_query s o ow path i Ho Hm) as Hq. unfold wp in Hq.
  destruct (handle_upload_status path ow i s) as [[[]|e|] s'].
  - destruct Hq as [[? ?] Hr]. split_and!; auto.
  - destruct Hq as [[? ?] _]. by split_and!.
  - destruct Hq as [? ?]. by split_and!.
Qed.
End history.

(** ** Runs *)

(** A first request dies after it has recorded its stage; the server restarts, the
    client resumes and finishes. *)
Abbreviation k0 := (request_key (run_options UploadProtocol.Fresh)).
Definition life1 : St := (handle_upload 1 run_path (run_options UploadProtocol.Fresh) (Some 5%Z) (fresh run_start)).2.
Definition restarted : World :=
  UploadMemory.set_cell 0 (UploadMemory.set_body [Chunk (str "hello")] (UploadMemory.m_body (world life1)) (world life1)).
Definition recovered_table : UploadStore.Table :=
  match UploadStore.recover_uploads (table life1) 1500 3000 with Ok t => t | Err _ => ∅ end.
Definition life2 : St := with_table recovered_table (with_world restarted life1).
Definition life3 : St := (handle_upload 20 run_path (run_options (Resume 0)) (Some 5%Z) (fresh life2)).2.

Lemma restarted_survives : survives (world life1) restarted.
Proof. by split. Qed.

(** The record has expired, and a save of another upload has removed it. *)
Definition life4 : St := with_table ∅ life3.

Lemma life_history : history k0 run_start [] [str "hello"] life3.
Proof.
  assert (pub_data <$> drop (length (published (world run_start))) (published (world life1)) = []) as E1
    by by vm_compute.
  assert (UploadStore.recover_uploads (table life1) 1500 3000 = Ok recovered_table) as E2.
  { destruct (request_event 1 run_path (run_options UploadProtocol.Fresh) (Some 5%Z) run_start None NoPromise
      (run_options_ok _) (run_found _) eq_refl) as (o & a & d & Hf & _).
    destruct (recover_found limits _ 1500 3000 _ _ Hf) as (t & E & _).
    unfold recovered_table, life1. by rewrite E. }
  assert (pub_data <$> drop (length (published (world life2))) (published (world life3)) = [str "hello"]) as E3
    by by vm_compute.
  pose proof (ev_request k0 run_start 1 run_path (run_options UploadProtocol.Fresh) (Some 5%Z) life1
    (run_options_ok _) eq_refl eq_refl) as H1. rewrite E1 in H1.
  pose proof (ev_restart k0 life1 1500 3000 restarted recovered_table restarted_survives E2) as H2.
  pose proof (ev_request k0 life2 20 run_path (run_options (Resume 0)) (Some 5%Z) life3
    (run_options_ok _) eq_refl eq_refl) as H3. rewrite E3 in H3.
  exact (hist_event _ _ _ _ _ _ _ (hist_event _ _ _ _ _ _ _ (hist_event _ _ _ _ _ _ _ (hist_nil _ _) H1) H2) H3).
Qed.

Lemma life_forgotten : history k0 run_start [[str "hello"]] [] life4.
Proof. apply (hist_forgotten _ _ [] _ life3); [apply life_history|]. split; [apply UploadMemory.mem_empty_ok|by vm_compute]. Qed.

Lemma upload_published_once_witness :
  (history k0 run_start [] [str "hello"] life3 /\
   Forall (fun life => length life <= 1) ([] : list (list bytes)) /\
   exists o' a', found limits (table life3) k0 o' /\ abstracts (world life3) o' a' /\
     ([str "hello"] = [] /\ a' <> Done \/ exists data, [str "hello"] = [data] /\ (a' = Undecided \/ a' = Done))) /\
  (history k0 run_start [[str "hello"]] [] life4 /\
   Forall (fun life => length life <= 1) [[str "hello"]] /\
   exists o' a', found limits (table life4) k0 o' /\ abstracts (world life4) o' a' /\
     (([] : list bytes) = [] /\ a' <> Done \/ exists data, ([] : list bytes) = [data] /\ (a' = Undecided \/ a' = Done))).
Proof.
  split.
  - split; [apply life_history|].
    apply (upload_published_once k0 run_start [] [str "hello"] life3 None NoPromise);
      [apply run_found|reflexivity|exact I|apply life_history].
  - split; [apply life_forgotten|].
    apply (upload_published_once k0 run_start [[str "hello"]] [] life4 None NoPromise);
      [apply run_found|reflexivity|exact I|apply life_forgotten].
Defined.

(** An upload whose target appeared while it ran: it waits for confirmation. *)
Definition waiting : StoredUploadSession :=
  {| up_key := k0; target_path := str "a";
     stage_path := drop 5 (stage_path_of run_path (run_options UploadProtocol.Fresh));
     upload_length := 5; durable_offset := 5; up_state := AwaitingConfirmation;
     stage_identity := Some {| id_device := 0; id_inode := 7 |}; target_revision := None |}.
Definition waiting_state : St :=
  with_table (UploadStore.exec UploadMemory.mem_limits ∅ 1000 (UploadStore.Save waiting 1000)).1 run_start.

Lemma waiting_found : found limits (table waiting_state) k0 (Some waiting).
Proof.
  split; [|by vm_compute].
  eapply UploadStore.upload_step_ok; [apply UploadMemory.mem_empty_ok|]. apply UploadStore.upload_exec_step.
  - apply map_Forall_empty.
  - split; [|by vm_compute]. split; [by vm_compute|by vm_compute|cbn; lia| |done].
    intros i [= <-]. by vm_compute.
Qed.

Lemma discard_decides_witness :
  res_status (response (discard_awaiting_upload (str "me") run_path (replicate 16 x61) waiting_state).2) = NO_CONTENT /\
  let '(x, s') := discard_awaiting_upload (str "me") run_path (replicate 16 x61) waiting_state in
  exists o' a', found limits (table s') k0 o' /\ abstracts (world s') o' a' /\
    (a' = Holds (str "hello") \/ a' = Refused /\ exists held, Holds (str "hello") = Holds held) /\
    published (world s') = published (world waiting_state) /\
    (forall j, (forall r, Some waiting = Some r -> stage_identity r <> Some j) ->
       same_file (world waiting_state) (world s') j) /\
    (x = Val tt -> h_state (response s') = Some PsRejected -> exists r, o' = Some r /\ up_state r = Rejected).
Proof.
  split; [by vm_compute|].
  apply (discard_decides (str "me") run_path (replicate 16 x61) waiting_state (Some waiting) (Holds (str "hello"))).
  - apply waiting_found.
  - exists (str "hello"), {| id_device := 0; id_inode := 7 |}. split_and!; [reflexivity..|]. right. reflexivity.
  - reflexivity.
Defined.

Lemma upload_status_true_witness :
  h_state (response (handle_upload_status run_path (str "me") (replicate 16 x61) waiting_state).2)
    = Some PsAwaitingConfirmation /\
  let '(x, s') := handle_upload_status run_path (str "me") (replicate 16 x61) waiting_state in
  quiet (world waiting_state) (world s') /\ table s' = table waiting_state /\
  (x = Val tt -> reports (Some waiting) s').
Proof.
  split; [by vm_compute|].
  apply (upload_status_true (str "me") run_path (replicate 16 x61) waiting_state (Some waiting)).
  - apply waiting_found.
  - reflexivity.
Defined.

Lemma recovery_keeps_promises_witness :
  exists t', UploadStore.recover_uploads (table waiting_state) 1500 3000 = Ok t' /\
    found limits t' k0 (Some waiting) /\ abstracts (world waiting_state) (Some waiting) (Holds (str "hello")).
Proof.
  apply (recovery_keeps_promises k0 waiting_state (world waiting_state) 1500 3000 (Some waiting) (Holds (str "hello"))).
  - apply waiting_found.
  - exists (str "hello"), {| id_device := 0; id_inode := 7 |}. split_and!; [reflexivity..|]. right. reflexivity.
  - split; reflexivity.
Defined.
End UploadHistory.
