(* ===== verification/OperationResponse.v ===== *)
(** * Responses to tracked operations

    What [server/operation_registry.rs] and the end of [server/router.rs] write into a
    response to a tracked mutation or a job query: the operation headers, the problem
    or job body, and the retry advice; the reading of the operation header; and the
    fingerprint of a request.  [MutationProgress] of [server/router/request.rs] decides
    what is said of a request that failed or ran out of time. *)

From S2P Require Import Prelude Utils StateModel OperationStore OperationRegistry Problem UploadProtocol.

Module OperationResponse.
Import OperationRegistry Problem.

(** ** Texts of the tracked errors *)

Definition detail (e : TrackedOperationError) : bytes :=
  match e with
  | InvalidJson => str "Invalid JSON request"
  | InvalidPath => str "Invalid path"
  | PathExists => str "Path already exists"
  | InvalidSourcePath => str "Invalid source path"
  | InvalidDestinationPath => str "Invalid destination path"
  | SourceEqualsDestination => str "Source and destination must differ"
  | InvalidMovePath => str "Invalid move path"
  | InvalidRenameName => str "Rename name must be one valid path segment"
  | InvalidRenamePath => str "Invalid rename path"
  | SourceNotFound => str "Source not found"
  | SourceRevisionRequired => str "Source revision is required"
  | InvalidSourceRevision => str "Source revision is invalid"
  | SourceChanged => str "Source changed after it was listed"
  | DirectoryIntoItself => str "A directory cannot be moved into itself"
  | DestinationExists => str "Destination already exists"
  | DestinationRevisionRequired => str "Destination revision is required for overwrite"
  | InvalidDestinationRevision => str "Destination revision is invalid"
  | DestinationChanged => str "Destination changed after overwrite confirmation"
  | DestinationDirectoryNotFound => str "Destination directory not found"
  | DestinationNotDirectory => str "Destination path is not a directory"
  | DirectoryOverwriteForbidden => str "Directories cannot be overwritten"
  | MkdirStateConflict => str "Directory path conflicts with an active upload or pending delete"
  | MoveStateConflict => str "Source or destination conflicts with an active upload or pending delete"
  | RenameStateConflict =>
      str "Rename source or destination conflicts with an active upload or pending delete"
  | TargetNotFound => str "Target not found"
  | DeleteStateConflict => str "Target conflicts with an active upload or pending delete"
  | PurgeBacklogFull => str "Delete backlog is temporarily full"
  | PurgeStateUnavailable => str "Delete state storage is temporarily unavailable"
  | DeleteTargetChanged => str "Delete target changed before commit"
  | DeleteNotCommitted => str "Delete was not committed; refresh the target before retrying"
  | OutcomeUncertain => str "Operation outcome is uncertain; inspect the target before trying again"
  end.

Definition recovery (e : TrackedOperationError) : RecoveryAdvice :=
  match e with OutcomeUncertain => QueryJob | _ => NoAdvice end.

(** ** Responses *)

Record OperationProblemContext : Type := {
  op_operation_id : bytes;
  op_state : OperationPublicState;
  op_http_status : option Z }.

(** [OperationBody] and [JobBody] have the same fields under two names of the first. *)
Record JobBody : Type := {
  jb_id : bytes;
  jb_state : OperationPublicState;
  jb_http_status : option Z;
  jb_code : option ErrorCode;
  jb_detail : option bytes }.

Inductive Body : Type :=
| EmptyBody
| ProblemBody (error : ApiError) (operation : option OperationProblemContext)
| OperationBody (b : JobBody)
| JobStatusBody (b : JobBody).

Record OpResponse : Type := {
  or_status : Z;
  or_operation_id : option bytes;
  or_operation_state : option OperationPublicState;
  or_replayed : bool;
  or_retry_after : option Z;
  or_source_revision : option bytes;
  or_target_revision : option bytes;
  or_body : Body }.

Definition default_response : OpResponse :=
  {| or_status := 200; or_operation_id := None; or_operation_state := None; or_replayed := false;
     or_retry_after := None; or_source_revision := None; or_target_revision := None; or_body := EmptyBody |}.

Definition put_status (status : Z) (r : OpResponse) : OpResponse :=
  {| or_status := status; or_operation_id := or_operation_id r; or_operation_state := or_operation_state r;
     or_replayed := or_replayed r; or_retry_after := or_retry_after r; or_source_revision := or_source_revision r;
     or_target_revision := or_target_revision r; or_body := or_body r |}.
Definition put_replayed (r : OpResponse) : OpResponse :=
  {| or_status := or_status r; or_operation_id := or_operation_id r; or_operation_state := or_operation_state r;
     or_replayed := true; or_retry_after := or_retry_after r; or_source_revision := or_source_revision r;
     or_target_revision := or_target_revision r; or_body := or_body r |}.
Definition put_retry_after (v : option Z) (r : OpResponse) : OpResponse :=
  {| or_status := or_status r; or_operation_id := or_operation_id r; or_operation_state := or_operation_state r;
     or_replayed := or_replayed r; or_retry_after := v; or_source_revision := or_source_revision r;
     or_target_revision := or_target_revision r; or_body := or_body r |}.
Definition put_body (b : Body) (r : OpResponse) : OpResponse :=
  {| or_status := or_status r; or_operation_id := or_operation_id r; or_operation_state := or_operation_state r;
     or_replayed := or_replayed r; or_retry_after := or_retry_after r; or_source_revision := or_source_revision r;
     or_target_revision := or_target_revision r; or_body := b |}.

(** [apply_revision_header] for the two revision headers; [None] removes the header. *)
Definition put_source_revision (v : option bytes) (r : OpResponse) : OpResponse :=
  {| or_status := or_status r; or_operation_id := or_operation_id r; or_operation_state := or_operation_state r;
     or_replayed := or_replayed r; or_retry_after := or_retry_after r;
     or_source_revision := UploadProtocol.TargetRevision_encode <$> v;
     or_target_revision := or_target_revision r; or_body := or_body r |}.
Definition put_target_revision (v : option bytes) (r : OpResponse) : OpResponse :=
  {| or_status := or_status r; or_operation_id := or_operation_id r; or_operation_state := or_operation_state r;
     or_replayed := or_replayed r; or_retry_after := or_retry_after r; or_source_revision := or_source_revision r;
     or_target_revision := UploadProtocol.TargetRevision_encode <$> v; or_body := or_body r |}.

(** [render_problem] with the context of an operation, if there is one. *)
Definition render_op_problem (error : ApiError) (operation : option OperationProblemContext) (r : OpResponse)
    : OpResponse :=
  put_body (ProblemBody error operation)
    (put_retry_after (retry_after_seconds (api_recovery error)) (put_status (api_status error) r)).

Section responses.
Context (hyphenated : bytes -> bytes).
Implicit Types (id : bytes) (r : OpResponse).

Definition set_operation_headers id (state : OperationPublicState) r : OpResponse :=
  {| or_status := or_status r; or_operation_id := Some (hyphenated id); or_operation_state := Some state;
     or_replayed := or_replayed r; or_retry_after := or_retry_after r; or_source_revision := or_source_revision r;
     or_target_revision := or_target_revision r; or_body := or_body r |}.

Definition operation_context id (state : OperationPublicState) (http_status : option Z)
    : option OperationProblemContext :=
  Some {| op_operation_id := hyphenated id; op_state := state; op_http_status := http_status |}.

Definition apply_operation_outcome id (outcome : OperationOutcome) (replayed : bool) r : OpResponse :=
  let r := set_operation_headers id (o_state outcome) r in
  let r := if replayed then put_replayed r else r in
  match o_error outcome with
  | Some error =>
      render_op_problem
        (with_recovery (recovery error) (new_api_error (o_status outcome) (error_code error) (detail error)))
        (operation_context id (o_state outcome) (Some (o_status outcome))) r
  | None => put_status (o_status outcome) r
  end.

Definition apply_running id r : OpResponse :=
  put_body (OperationBody {| jb_id := hyphenated id; jb_state := PRunning; jb_http_status := None;
                             jb_code := Some OPERATION_IN_PROGRESS;
                             jb_detail := Some (str "Operation is still running") |})
    (put_retry_after (Some 1%Z) (set_operation_headers id PRunning (put_status 202 r))).

(** A rejection: the headers, and a problem without an HTTP status of its own. *)
Definition rejected id (status : Z) (code : ErrorCode) (text : bytes) (advice : RecoveryAdvice) r : OpResponse :=
  render_op_problem (with_recovery advice (new_api_error status code text))
    (operation_context id PRejected None) (set_operation_headers id PRejected r).

Definition apply_conflict id r : OpResponse :=
  rejected id 409 OPERATION_ID_CONFLICT (str "Operation ID was already used for a different request") NoAdvice r.
Definition apply_registry_full id r : OpResponse :=
  rejected id 503 OPERATION_REGISTRY_FULL (str "Operation registry is temporarily full") (RetryAfterSeconds 1) r.
Definition apply_registry_unavailable id r : OpResponse :=
  rejected id 503 OPERATION_STORE_UNAVAILABLE (str "Operation state store is temporarily unavailable")
    (RetryAfterSeconds 1) r.

Definition unknown_problem id (status : Z) (code : ErrorCode) (text : bytes) (advice : RecoveryAdvice) r : OpResponse :=
  render_op_problem (with_recovery advice (new_api_error status code text))
    (operation_context id PUnknown None) (set_operation_headers id PUnknown r).

Definition apply_status id (status : OperationStatus) r : OpResponse :=
  match status with
  | SRunning =>
      put_body (JobStatusBody {| jb_id := hyphenated id; jb_state := PRunning; jb_http_status := None;
                                 jb_code := None; jb_detail := None |})
        (set_operation_headers id PRunning (put_status 200 r))
  | SCompleted outcome =>
      put_body (JobStatusBody {| jb_id := hyphenated id; jb_state := o_state outcome;
                                 jb_http_status := Some (o_status outcome);
                                 jb_code := error_code <$> o_error outcome;
                                 jb_detail := detail <$> o_error outcome |})
        (set_operation_headers id (o_state outcome) (put_status 200 r))
  | SNotFound => unknown_problem id 404 JOB_NOT_FOUND (str "Job not found") RefreshTarget r
  | SUnavailable =>
      unknown_problem id 503 JOB_STORE_UNAVAILABLE (str "Job state store is temporarily unavailable")
        (RetryAfterSeconds 1) r
  end.

Definition apply_invalid_id (message : bytes) r : OpResponse :=
  render_op_problem (new_api_error 400 INVALID_OPERATION_ID message) None r.
Definition apply_invalid_job_id (message : bytes) r : OpResponse :=
  render_op_problem (new_api_error 400 INVALID_JOB_ID message) None r.

Definition apply_unknown id (status : Z) (code : ErrorCode) (message : bytes) r : OpResponse :=
  unknown_problem id status code message QueryJob r.
End responses.

(** ** Identifiers and fingerprints *)

Definition OPERATION_ID_HEADER : string := "x-xczs-operation-id".

Section identifiers.
Context (parse_uuid : bytes -> option bytes) (hyphenated sha256 : bytes -> bytes).

Definition parse_canonical_operation_id (value : bytes) : option bytes :=
  id ← parse_uuid value; if bool_decide (hyphenated id = value) then Some id else None.

Definition parse_operation_id (headers : UploadProtocol.HeaderMap) : result bytes (option bytes) :=
  match UploadProtocol.get_all headers OPERATION_ID_HEADER with
  | [] => Ok None
  | [value] =>
      match UploadProtocol.to_str value ≫= parse_canonical_operation_id with
      | Some id => Ok (Some id)
      | None => Err (str "The x-xczs-operation-id header must be a canonical UUID")
      end
  | _ => Err (str "The x-xczs-operation-id header must appear exactly once")
  end.

(** The bytes that are digested determine the parts: each is preceded by its length. *)
Definition fingerprint_input (parts : list bytes) : bytes :=
  concat ((fun part => be_bytes 8 (Z.of_nat (length part)) ++ part) <$> parts).
Definition fingerprint (parts : list bytes) : bytes := sha256 (fingerprint_input parts).
End identifiers.

(** ** The progress of a request *)

Inductive MutationProgress : Type := Preflight | Reserved | DetachedCommit | CancelledBeforeUploadMutation.
#[global] Instance MutationProgress_eq_dec : EqDecision MutationProgress.
Proof. solve_decision. Defined.

Definition mark_reserved (p : MutationProgress) : MutationProgress :=
  match p with Preflight => Reserved | _ => p end.
Definition mark_detached_commit (p : MutationProgress) : MutationProgress := DetachedCommit.
Definition outcome_can_be_unknown (p : MutationProgress) : bool := bool_decide (p = DetachedCommit).

(** ** The end of a request *)

Section endings.
Context (hyphenated : bytes -> bytes).

Definition apply_operation_timeout (id : bytes) (p : MutationProgress) (r : OpResponse) : OpResponse :=
  if outcome_can_be_unknown p then
    apply_unknown hyphenated id 504 OPERATION_RESULT_UNKNOWN
      (str "Request timed out after commit dispatch; query the operation status before retrying") r
  else
    rejected hyphenated id 504 REQUEST_TIMEOUT
      (str "Request timed out before filesystem commit; retrying with the same operation ID is safe") Retry r.

Definition apply_operation_failure_before_commit (id : bytes) (r : OpResponse) : OpResponse :=
  rejected hyphenated id 500 OPERATION_NOT_COMMITTED
    (str "Request failed before filesystem commit; retrying with the same operation ID is safe") Retry r.

(** A response without operation headers gets them from its status and the progress. *)
Definition complete_headers (id : bytes) (p : MutationProgress) (r : OpResponse) : OpResponse :=
  match or_operation_id r with
  | Some _ => r
  | None =>
      set_operation_headers hyphenated id
        (if is_success (or_status r) then PSucceeded
         else if outcome_can_be_unknown p then PUnknown else PRejected) r
  end.

(** A handler that returned an error. *)
Definition apply_operation_error (id : bytes) (p : MutationProgress) : OpResponse :=
  if outcome_can_be_unknown p then apply_operation_outcome hyphenated id uncertain false default_response
  else apply_operation_failure_before_commit id default_response.
End endings.
End OperationResponse.
