(* ===== verification/Kernel.v ===== *)
(** * The descriptor system calls and their monad

    The deletion code of [server/rooted_fs.rs], [server/rooted_fs/purge.rs] and
    [server/purge.rs] acts on the file system through descriptors and single names.
    Those calls, the clock, the shutdown token and the random identifiers are a
    parameter: the class [Kernel] lists them, each a function of the world that
    answers with a value, an [Errno], or not at all because the process died during
    the call.  [Sys S] is the monad of code with a mutable state [S]: an error keeps
    the state reached so far (as [&mut self] does when [?] returns early), and a
    failed [expect] or an index out of bounds is an outcome of its own. *)

From S2P Require Import Prelude RootedPaths PathPolicy FileRevision.

Export FileRevision.
Abbreviation IoError := RootedPaths.IoError.

(** ** Errors *)

(** [rustix::io::Errno], as far as the code or [io::Error::kind] distinguishes them. *)
Inductive Errno : Type :=
| NOENT | NOTDIR | EXIST | NOTEMPTY | ACCES | INTR | INVAL | TIMEDOUT | NOSYS | XDEV | LOOP | NAMETOOLONG
| OtherErrno.
#[global] Instance Errno_eq_dec : EqDecision Errno.
Proof. solve_decision. Defined.

(** [io::Error::from(errno).kind()] *)
Definition of_errno (e : Errno) : IoError :=
  match e with
  | NOENT => RootedPaths.NotFound
  | NOTDIR => RootedPaths.NotADirectory
  | EXIST => RootedPaths.AlreadyExists
  | ACCES => RootedPaths.PermissionDenied
  | INTR => RootedPaths.Interrupted
  | INVAL => RootedPaths.InvalidInput
  | TIMEDOUT => RootedPaths.TimedOut
  | NOSYS => RootedPaths.Unsupported
  | XDEV => RootedPaths.CrossesDevices
  | LOOP => RootedPaths.FilesystemLoop
  | NAMETOOLONG => RootedPaths.InvalidFilename
  | NOTEMPTY | OtherErrno => RootedPaths.OtherIo
  end.

Lemma of_errno_not_invalid_data e : of_errno e <> RootedPaths.InvalidData.
Proof. by destruct e. Qed.

(** ** The calls *)

Inductive UnlinkFlag : Type := AtEmpty | AtRemoveDir.

Class Kernel : Type := {
  OsWorld : Type;
  OwnedFd : Type;
  Dir : Type;
  (* [Uuid::new_v4], its text form and parser, [Sha256::digest] *)
  new_v4 : OsWorld -> bytes * OsWorld;
  hyphenated : bytes -> bytes;
  parse_uuid : bytes -> option bytes;
  sha256 : bytes -> bytes;
  (* [Instant::now], the shutdown token, [Vec::try_reserve], [blocking_io_gate().run] *)
  instant_now : OsWorld -> Z * OsWorld;
  is_cancelled : OsWorld -> bool * OsWorld;
  try_reserve : OsWorld -> bool * OsWorld;
  gate_admits : OsWorld -> bool * OsWorld;
  (* descriptors *)
  fstat : OwnedFd -> OsWorld -> option (result Errno Stat) * OsWorld;
  fsync : OwnedFd -> OsWorld -> option (result Errno unit) * OsWorld;
  dup : OwnedFd -> OsWorld -> option (result Errno OwnedFd) * OsWorld;
  (* one name in an open directory, symbolic links not followed *)
  statat : OwnedFd -> bytes -> OsWorld -> option (result Errno Stat) * OsWorld;
  openat_path : OwnedFd -> bytes -> OsWorld -> option (result Errno OwnedFd) * OsWorld;
  openat2_directory : OwnedFd -> bytes -> OsWorld -> option (result Errno OwnedFd) * OsWorld;
  renameat_noreplace : OwnedFd -> bytes -> OwnedFd -> bytes -> OsWorld ->
    option (result Errno unit) * OsWorld;
  mkdirat : OwnedFd -> bytes -> OsWorld -> option (result Errno unit) * OsWorld;
  unlinkat : OwnedFd -> bytes -> UnlinkFlag -> OsWorld -> option (result Errno unit) * OsWorld;
  (* [Dir::new], [Dir::read], [Dir::seek], [Dir::fd] *)
  dir_new : OwnedFd -> OsWorld -> option (result Errno Dir) * OsWorld;
  dir_read : Dir -> OsWorld -> option (option (result Errno (bytes * Z))) * OsWorld;
  dir_seek : Dir -> Z -> OsWorld -> option (result Errno unit) * OsWorld;
  dir_fd : Dir -> result Errno OwnedFd;
  (* the shared root: its descriptor, its path, and [openat2] below it *)
  root_fd : OwnedFd;
  root_path : bytes;
  openat2_beneath : OwnedFd -> bytes -> OsWorld -> option (result Errno OwnedFd) * OsWorld }.

(** ** Outcomes *)

Inductive outcome (A : Type) : Type :=
| Val (a : A) | Fail (e : IoError) | Crashed | Panicked | OutOfFuel.
Arguments Val {A} a.
Arguments Fail {A} e.
Arguments Crashed {A}.
Arguments Panicked {A}.
Arguments OutOfFuel {A}.

Section monad.
Context `{Kernel}.

Definition Sys (S A : Type) : Type := S -> OsWorld -> outcome A * S * OsWorld.

#[export] Instance Sys_ret {S} : MRet (Sys S) := fun A a s w => (Val a, s, w).
#[export] Instance Sys_bind {S} : MBind (Sys S) := fun A B f m s w =>
  match m s w with
  | (Val a, s, w) => f a s w
  | (Fail e, s, w) => (Fail e, s, w)
  | (Crashed, s, w) => (Crashed, s, w)
  | (Panicked, s, w) => (Panicked, s, w)
  | (OutOfFuel, s, w) => (OutOfFuel, s, w)
  end.

#[export] Instance Sys_fmap {S} : FMap (Sys S) := fun A B f m => m ≫= (fun a => mret (f a)).

Definition throw {S A} (e : IoError) : Sys S A := fun s w => (Fail e, s, w).
Definition crash {S A} : Sys S A := fun s w => (Crashed, s, w).
Definition panic {S A} : Sys S A := fun s w => (Panicked, s, w).
Definition out_of_fuel {S A} : Sys S A := fun s w => (OutOfFuel, s, w).

(** [Option::expect] *)
Definition expect {S A} (o : option A) : Sys S A :=
  match o with Some a => mret a | None => panic end.

Definition get {S} : Sys S S := fun s w => (Val s, s, w).
Definition gets {S A} (f : S -> A) : Sys S A := fun s w => (Val (f s), s, w).
Definition modify {S} (f : S -> S) : Sys S unit := fun s w => (Val tt, f s, w).

(** A call, its [Errno] as a value or thrown as an [io::Error]. *)
Definition call {S A} (op : OsWorld -> option A * OsWorld) : Sys S A := fun s w =>
  let '(o, w) := op w in (match o with Some r => Val r | None => Crashed end, s, w).
Definition of_result {S A} (r : result Errno A) : Sys S A :=
  match r with Ok a => mret a | Err e => throw (of_errno e) end.
Definition of_io {S A} (r : result IoError A) : Sys S A :=
  match r with Ok a => mret a | Err e => throw e end.
Definition io {S A} (op : OsWorld -> option (result Errno A) * OsWorld) : Sys S A :=
  call op ≫= of_result.

(** Calls that cannot fail. *)
Definition ask {S A} (op : OsWorld -> A * OsWorld) : Sys S A := fun s w =>
  let '(a, w) := op w in (Val a, s, w).

(** An error as a value. *)
Definition attempt {S A} (m : Sys S A) : Sys S (result IoError A) := fun s w =>
  match m s w with
  | (Val a, s, w) => (Val (Ok a), s, w)
  | (Fail e, s, w) => (Val (Err e), s, w)
  | (Crashed, s, w) => (Crashed, s, w)
  | (Panicked, s, w) => (Panicked, s, w)
  | (OutOfFuel, s, w) => (OutOfFuel, s, w)
  end.

(** Code with a state of its own, run to its end: [m] starts from [t]; its outcome
    and the state it leaves are the answer. *)
Definition run_on {S T A} (t : T) (m : Sys T A) : Sys S (result IoError A * T) := fun s w =>
  match m t w with
  | (Val a, t, w) => (Val (Ok a, t), s, w)
  | (Fail e, t, w) => (Val (Err e, t), s, w)
  | (Crashed, _, w) => (Crashed, s, w)
  | (Panicked, _, w) => (Panicked, s, w)
  | (OutOfFuel, _, w) => (OutOfFuel, s, w)
  end.

(** [BlockingIoGate::run]: closing the gate or losing the blocking thread before
    the work starts is an error of its own. *)
Definition gated {S A} (m : Sys S A) : Sys S A :=
  admitted ← ask gate_admits;
  if admitted : bool then m else throw RootedPaths.OtherIo.

(** ** Weakest preconditions

    [Q] holds of the value or error, the state and the world a computation ends
    with; [C] holds of the world wherever the process may die.  A run that is cut
    off for want of fuel counts as one during which the process dies; a panic
    satisfies no precondition. *)

Definition wps {S A} (C : OsWorld -> Prop) (m : Sys S A) (Q : result IoError A -> S -> OsWorld -> Prop)
    (s : S) (w : OsWorld) : Prop :=
  match m s w with
  | (Val a, s', w') => Q (Ok a) s' w'
  | (Fail e, s', w') => Q (Err e) s' w'
  | (Crashed, _, w') => C w'
  | (Panicked, _, _) => False
  | (OutOfFuel, _, w') => C w'
  end.

(** The postcondition of the first half of a sequence. *)
Definition then_post {S A B} (C : OsWorld -> Prop) (f : A -> Sys S B)
    (Q : result IoError B -> S -> OsWorld -> Prop) (r : result IoError A) : S -> OsWorld -> Prop :=
  match r with Ok a => wps C (f a) Q | Err e => Q (Err e) end.

Section rules.
Context {S : Type}.
Implicit Types (C : OsWorld -> Prop) (s : S) (w : OsWorld).

Lemma wps_ret {A} C (a : A) (Q : result IoError A -> S -> OsWorld -> Prop) s w : Q (Ok a) s w -> wps C (mret a) Q s w.
Proof. done. Qed.

Lemma wps_bind {A B} C (m : Sys S A) (f : A -> Sys S B) Q s w :
  wps C m (then_post C f Q) s w -> wps C (m ≫= f) Q s w.
Proof.
  unfold wps at 1 2, then_post, mbind, Sys_bind.
  destruct (m s w) as [[[a|e| | |] s'] w']; done.
Qed.

Lemma wps_mono {A} C C' (m : Sys S A) (Q Q' : result IoError A -> S -> OsWorld -> Prop) s w :
  wps C m Q s w -> (forall r s w, Q r s w -> Q' r s w) -> (forall w, C w -> C' w) -> wps C' m Q' s w.
Proof. unfold wps. destruct (m s w) as [[[a|e| | |] s'] w']; eauto. Qed.

Lemma wps_throw {A} C e (Q : result IoError A -> S -> OsWorld -> Prop) s w : Q (Err e) s w -> wps C (throw e) Q s w.
Proof. done. Qed.

Lemma wps_out_of_fuel {A} C (Q : result IoError A -> S -> OsWorld -> Prop) s w : C w -> wps C out_of_fuel Q s w.
Proof. done. Qed.

Lemma wps_expect {A} C (o : option A) a (Q : result IoError A -> S -> OsWorld -> Prop) s w :
  o = Some a -> Q (Ok a) s w -> wps C (expect o) Q s w.
Proof. by intros ->. Qed.

Lemma wps_get C (Q : result IoError S -> S -> OsWorld -> Prop) s w : Q (Ok s) s w -> wps C get Q s w.
Proof. done. Qed.

Lemma wps_gets {A} C (f : S -> A) Q s w : Q (Ok (f s)) s w -> wps C (gets f) Q s w.
Proof. done. Qed.

Lemma wps_modify C (f : S -> S) Q s w : Q (Ok tt) (f s) w -> wps C (modify f) Q s w.
Proof. done. Qed.

Lemma wps_call {A} C (op : OsWorld -> option A * OsWorld) Q s w :
  (forall a w', op w = (Some a, w') -> Q (Ok a) s w') ->
  (forall w', op w = (None, w') -> C w') -> wps C (call op) Q s w.
Proof. intros Ha Hc. unfold wps, call. destruct (op w) as [[a|] w'] eqn:E; eauto. Qed.

Lemma wps_ask {A} C (op : OsWorld -> A * OsWorld) Q s w :
  (forall a w', op w = (a, w') -> Q (Ok a) s w') -> wps C (ask op) Q s w.
Proof. intros Ha. unfold wps, ask. destruct (op w) as [a w'] eqn:E; eauto. Qed.

Lemma wps_io {A} C (op : OsWorld -> option (result Errno A) * OsWorld) Q s w :
  (forall a w', op w = (Some (Ok a), w') -> Q (Ok a) s w') ->
  (forall e w', op w = (Some (Err e), w') -> Q (Err (of_errno e)) s w') ->
  (forall w', op w = (None, w') -> C w') -> wps C (io op) Q s w.
Proof. intros Ha He Hc. apply wps_bind, wps_call; [|done]. intros [a|e] w'; cbn; eauto. Qed.

Lemma wps_attempt {A} C (m : Sys S A) Q s w :
  wps C m (fun r => Q (Ok r)) s w -> wps C (attempt m) Q s w.
Proof. unfold wps, attempt. destruct (m s w) as [[[a|e| | |] s'] w']; done. Qed.

Lemma wps_run_on {T A} C (t : T) (m : Sys T A) (Q : result IoError (result IoError A * T) -> S -> OsWorld -> Prop) s w :
  wps C m (fun r t w => Q (Ok (r, t)) s w) t w -> wps C (run_on t m) Q s w.
Proof. unfold wps, run_on. destruct (m t w) as [[[a|e| | |] s'] w']; done. Qed.

End rules.
End monad.

(** A call that leads from a world to one in relation [R] to it. *)
Definition op_in `{Kernel} (R : OsWorld -> OsWorld -> Prop) {A} (op : OsWorld -> A * OsWorld) : Prop :=
  forall w, R w (op w).2.
