(* ===== verification/KernelLaws.v ===== *)
(** * What the descriptor calls promise

    [KernelView] describes the world the calls of [Kernel] act on: objects, what a
    name in a directory means, and four histories: which names have meant which
    objects, which identifiers this run has drawn, which directory entries it has
    removed, and how many answers of the state store have been lost.  [KernelLaws] says what the calls do to it.  Other programs, and
    other requests of the server, may act between any two calls: the laws say what
    names mean when a call returns, and nothing about names that this run has not
    drawn itself when the next one begins.  Calls may also take effect and still
    report an error. *)

From S2P Require Import Prelude RootedPaths PathPolicy FileRevision Kernel.

(** An entry [unlinkat] removed: the directory, the name and the object it meant. *)
Record Removal {I : Type} : Type := { rm_directory : I; rm_name : bytes; rm_object : I }.
Arguments Removal : clear implicits.

(** An entry renamed, with the object the new name meant before; a directory made. *)
Inductive Change {I : Type} : Type :=
| Relinked (directory : I) (name : bytes) (new_directory : I) (new_name : bytes) (object : I) (replaced : option I)
| Made (directory : I) (name : bytes).
Arguments Change : clear implicits.

Class KernelView `{Kernel} : Type := {
  Ino : Type;
  fd_ino : OwnedFd -> Ino;
  dir_ino : Dir -> Ino;
  number : Ino -> Z * Z;
  names : OsWorld -> Ino -> bytes -> option Ino;
  seen : OsWorld -> Ino -> bytes -> Ino -> Prop;
  drawn : OsWorld -> bytes -> Prop;
  (* how many commands the state store has executed whose answer was lost *)
  lost_replies : OsWorld -> nat;
  removed : OsWorld -> list (Removal Ino) }.

Section views.
Context `{KernelView}.

(** Histories only grow. *)
Record later (w w' : OsWorld) : Prop := {
  lt_seen d n i : seen w d n i -> seen w' d n i;
  lt_drawn u : drawn w u -> drawn w' u;
  lt_lost : lost_replies w <= lost_replies w' }.

(** Nothing is removed. *)
Record quiet (w w' : OsWorld) : Prop := {
  q_later : later w w';
  q_removed : removed w' = removed w }.

Definition quiet_op {A} (op : OsWorld -> A * OsWorld) : Prop := forall w, quiet w (op w).2.

Definition stat_number (st : Stat) : Z * Z := (st_dev st, st_ino st).

(** The entry [n] of directory [d] is removed.  If [n] is a quarantine name made of an
    identifier of this run, it is what [n] meant when the last call returned: nobody
    else acts on such names. *)
Record unlinked (d : Ino) (n : bytes) (w w' : OsWorld) : Prop := {
  un_later : later w w';
  un_removed : exists i, removed w' = removed w ++ [{| rm_directory := d; rm_name := n; rm_object := i |}] /\
    forall u j, n = PathPolicy.quarantine_name hyphenated u -> drawn w u -> names w d n = Some j -> i = j }.
End views.

Class KernelLaws `{V : KernelView} : Prop := {
  law_seen w d n i : names w d n = Some i -> seen w d n i;
  (* an open descriptor keeps its object, and so its number, alive *)
  law_pinned w f d n i : names w d n = Some i -> number i = number (fd_ino f) -> i = fd_ino f;
  (* calls that remove nothing *)
  law_new_v4 : quiet_op new_v4;
  law_drawn w : drawn (new_v4 w).2 (new_v4 w).1;
  law_now : quiet_op instant_now;
  law_cancelled : quiet_op is_cancelled;
  law_reserve : quiet_op try_reserve;
  law_gate : quiet_op gate_admits;
  law_fsync f : quiet_op (fsync f);
  law_dup f : quiet_op (dup f);
  law_fstat f : quiet_op (fstat f);
  law_statat d n : quiet_op (statat d n);
  law_open_path d n : quiet_op (openat_path d n);
  law_open_directory d n : quiet_op (openat2_directory d n);
  law_open_beneath d n : quiet_op (openat2_beneath d n);
  law_rename d n d' n' : quiet_op (renameat_noreplace d n d' n');
  law_mkdir d n : quiet_op (mkdirat d n);
  law_dir_new f : quiet_op (dir_new f);
  law_dir_read d : quiet_op (dir_read d);
  law_dir_seek d n : quiet_op (dir_seek d n);
  (* what they answer *)
  law_dup_ino f w g : (dup f w).1 = Some (Ok g) -> fd_ino g = fd_ino f;
  law_dir_ino f w d : (dir_new f w).1 = Some (Ok d) -> dir_ino d = fd_ino f;
  law_dir_fd d f : dir_fd d = Ok f -> fd_ino f = dir_ino d;
  law_fstat_number f w st : (fstat f w).1 = Some (Ok st) -> stat_number st = number (fd_ino f);
  law_statat_named d n w st : (statat d n w).1 = Some (Ok st) ->
    exists i, names (statat d n w).2 (fd_ino d) n = Some i /\ stat_number st = number i;
  law_open_path_named d n w f : (openat_path d n w).1 = Some (Ok f) ->
    names (openat_path d n w).2 (fd_ino d) n = Some (fd_ino f);
  law_open_directory_named d n w f : (openat2_directory d n w).1 = Some (Ok f) ->
    names (openat2_directory d n w).2 (fd_ino d) n = Some (fd_ino f);
  (* removal: it happens if it is reported, and may happen if it is not *)
  law_unlink d n flag w : let '(o, w') := unlinkat d n flag w in
    unlinked (fd_ino d) n w w' \/ o <> Some (Ok tt) /\ quiet w w' }.

(** ** Everything below a directory, as it has ever been *)

Section inside.
Context `{L : KernelLaws}.

(** [i] can be reached from [r] through names that have been seen. *)
Definition inside (w : OsWorld) (r i : Ino) : Prop := rtc (fun d i => exists n, seen w d n i) r i.

Lemma later_refl w : later w w.
Proof. by split. Qed.
Lemma later_trans w1 w2 w3 : later w1 w2 -> later w2 w3 -> later w1 w3.
Proof. intros [] []. split; [eauto..|lia]. Qed.
Lemma quiet_trans w1 w2 w3 : quiet w1 w2 -> quiet w2 w3 -> quiet w1 w3.
Proof. intros [] []. split; [by eapply later_trans|congruence]. Qed.

Lemma inside_mono w w' r i : later w w' -> inside w r i -> inside w' r i.
Proof. intros Hl. apply rtc_subrel. intros d j [n Hn]. exists n. by apply Hl. Qed.

Lemma inside_step w r d n i : inside w r d -> names w d n = Some i -> inside w r i.
Proof. intros Hd Hn. eapply rtc_r; [done|]. exists n. by apply law_seen. Qed.

(** Equal identities mean equal numbers. *)
Lemma same_number st st' :
  replacement_target_identity st = replacement_target_identity st' -> stat_number st = stat_number st'.
Proof. intros [=]. unfold stat_number. congruence. Qed.
End inside.
