(* ===== verification/KernelMemory.v ===== *)
(** * A file system in memory

    An instance of [Kernel] and its laws: directories with ordered entries, objects
    with numbers that are never reused, and a script of errors.  Deletion runs on it,
    and it shows that the laws can hold. *)

From S2P Require Import Prelude Paths Utils RootedPaths PathPolicy FileRevision Kernel KernelLaws.

Module KernelMemory.

(** An entry of a directory: the position [readdir] reports after it, its name and
    the number of the object it means. *)
Record Entry : Type := { en_dir : Z; en_offset : Z; en_name : bytes; en_object : Z }.

Record Memory : Type := {
  m_entries : list Entry;
  m_modes : list (Z * Z);
  m_versions : list (Z * Z);
  m_positions : list (Z * Z);
  m_next : Z;
  m_clock : Z;
  m_errors : list Errno;
  m_seen : list (Z * bytes * Z);
  m_drawn : list bytes;
  m_removed : list (Removal Z);
  m_changes : list (Change Z);
  m_observed : list (Z * ExistingReplacementTarget);
  m_opened : list (bytes * Z);
  m_lost : nat }.

Definition assoc (k : Z) (l : list (Z * Z)) : Z :=
  match list_find (fun p => p.1 = k) l with Some (_, p) => p.2 | None => 0%Z end.

(** An object without a recorded mode is a directory. *)
Definition mode_of (m : Memory) (i : Z) : Z :=
  match list_find (fun p => p.1 = i) (m_modes m) with Some (_, p) => p.2 | None => 16877%Z end.

Definition entry_of (m : Memory) (d : Z) (n : bytes) : option Entry :=
  match list_find (fun e => en_dir e = d /\ en_name e = n) (m_entries m) with
  | Some (_, e) => Some e
  | None => None
  end.
Definition name_of (m : Memory) (d : Z) (n : bytes) : option Z := en_object <$> entry_of m d n.

Definition stat_of (m : Memory) (i : Z) : Stat :=
  {| st_dev := 7; st_ino := i; st_mode := mode_of m i; st_nlink := 1; st_size := 0; st_uid := 0;
     st_gid := 0; st_mtime := assoc i (m_versions m); st_mtime_nsec := 0; st_ctime := 0; st_ctime_nsec := 0 |}.

(** The entries there were are remembered as seen. *)
Definition with_entries (d : Z) (l : list Entry) (m : Memory) : Memory :=
  {| m_entries := l; m_modes := m_modes m;
     m_versions := (d, m_next m) :: m_versions m; m_positions := m_positions m; m_next := (m_next m + 1)%Z;
     m_clock := (m_clock m + 1)%Z; m_errors := m_errors m;
     m_seen := m_seen m ++ ((fun e => (en_dir e, en_name e, en_object e)) <$> m_entries m);
     m_drawn := m_drawn m; m_removed := m_removed m;
     m_changes := m_changes m; m_observed := m_observed m; m_opened := m_opened m; m_lost := m_lost m |}.
Definition with_removed (x : Removal Z) (m : Memory) : Memory :=
  {| m_entries := m_entries m; m_modes := m_modes m; m_versions := m_versions m; m_positions := m_positions m;
     m_next := m_next m; m_clock := m_clock m; m_errors := m_errors m; m_seen := m_seen m; m_drawn := m_drawn m;
     m_removed := m_removed m ++ [x];
     m_changes := m_changes m; m_observed := m_observed m; m_opened := m_opened m; m_lost := m_lost m |}.
Definition with_position (h p : Z) (m : Memory) : Memory :=
  {| m_entries := m_entries m; m_modes := m_modes m; m_versions := m_versions m;
     m_positions := (h, p) :: m_positions m;
     m_next := (m_next m + 1)%Z; m_clock := (m_clock m + 1)%Z; m_errors := m_errors m; m_seen := m_seen m;
     m_drawn := m_drawn m; m_removed := m_removed m;
     m_changes := m_changes m; m_observed := m_observed m; m_opened := m_opened m; m_lost := m_lost m |}.
Definition with_drawn (u : bytes) (m : Memory) : Memory :=
  {| m_entries := m_entries m; m_modes := m_modes m; m_versions := m_versions m; m_positions := m_positions m;
     m_next := (m_next m + 1)%Z; m_clock := (m_clock m + 1)%Z; m_errors := m_errors m; m_seen := m_seen m;
     m_drawn := u :: m_drawn m; m_removed := m_removed m;
     m_changes := m_changes m; m_observed := m_observed m; m_opened := m_opened m; m_lost := m_lost m |}.
Definition tick (m : Memory) : Memory :=
  {| m_entries := m_entries m; m_modes := m_modes m; m_versions := m_versions m; m_positions := m_positions m;
     m_next := m_next m; m_clock := (m_clock m + 1)%Z; m_errors := m_errors m; m_seen := m_seen m;
     m_drawn := m_drawn m; m_removed := m_removed m;
     m_changes := m_changes m; m_observed := m_observed m; m_opened := m_opened m; m_lost := m_lost m |}.
Definition with_errors (l : list Errno) (m : Memory) : Memory :=
  {| m_entries := m_entries m; m_modes := m_modes m; m_versions := m_versions m; m_positions := m_positions m;
     m_next := m_next m; m_clock := m_clock m; m_errors := l; m_seen := m_seen m;
     m_drawn := m_drawn m; m_removed := m_removed m;
     m_changes := m_changes m; m_observed := m_observed m; m_opened := m_opened m; m_lost := m_lost m |}.

(** An answer of the state store is lost. *)
Definition with_lost (m : Memory) : Memory :=
  {| m_entries := m_entries m; m_modes := m_modes m; m_versions := m_versions m; m_positions := m_positions m;
     m_next := m_next m; m_clock := m_clock m; m_errors := m_errors m; m_seen := m_seen m;
     m_drawn := m_drawn m; m_removed := m_removed m;
     m_changes := m_changes m; m_observed := m_observed m; m_opened := m_opened m; m_lost := S (m_lost m) |}.

(** What a request did and saw. *)
Definition with_notes (c : list (Change Z)) (o : list (Z * ExistingReplacementTarget)) (p : list (bytes * Z)) (m : Memory)
    : Memory :=
  {| m_entries := m_entries m; m_modes := m_modes m; m_versions := m_versions m; m_positions := m_positions m;
     m_next := m_next m; m_clock := m_clock m; m_errors := m_errors m; m_seen := m_seen m;
     m_drawn := m_drawn m; m_removed := m_removed m;
     m_changes := m_changes m ++ c; m_observed := o ++ m_observed m; m_opened := p ++ m_opened m; m_lost := m_lost m |}.

Definition holds_entries (m : Memory) (i : Z) : bool := bool_decide (from_raw_mode (mode_of m i) = Directory).
Definition is_empty (m : Memory) (i : Z) : bool := forallb (fun e => negb (en_dir e =? i)%Z) (m_entries m).

Definition look {A} (d : Z) (n : bytes) (f : Memory -> Z -> result Errno A) (m : Memory)
    : option (result Errno A) * Memory :=
  (Some (match name_of m d n with Some i => f m i | None => Err NOENT end), tick m).

(** [stat] of an object whose number fits. *)
Definition stat_object (i : Z) (m : Memory) : option (result Errno Stat) * Memory :=
  if ((0 <=? i) && (i <? 2 ^ 64))%Z
  then (Some (Ok (stat_of m i)), with_notes [] [(i, replacement_target_identity (stat_of m i))] [] (tick m))
  else (Some (Err OtherErrno), tick m).
Definition stat_entry (d : Z) (n : bytes) (m : Memory) : option (result Errno Stat) * Memory :=
  match name_of m d n with Some i => stat_object i m | None => (Some (Err NOENT), tick m) end.

Definition without (d : Z) (n : bytes) (l : list Entry) : list Entry :=
  filter (fun x => ~ (en_dir x = d /\ en_name x = n)) l.

Definition rename_entry (d : Z) (n : bytes) (d' : Z) (n' : bytes) (m : Memory)
    : option (result Errno unit) * Memory :=
  match entry_of m d n, name_of m d' n' with
  | None, _ => (Some (Err NOENT), tick m)
  | Some _, Some _ => (Some (Err EXIST), tick m)
  | Some e, None =>
      (Some (Ok tt),
       with_notes [Relinked d n d' n' (en_object e) None] [] []
         (with_entries d (without d n (m_entries m)
                          ++ [{| en_dir := d'; en_offset := m_next m; en_name := n'; en_object := en_object e |}]) m))
  end.

(** A new, empty directory. *)
Definition make_entry (d : Z) (n : bytes) (m : Memory) : option (result Errno unit) * Memory :=
  match name_of m d n with
  | Some _ => (Some (Err EXIST), tick m)
  | None =>
      (Some (Ok tt),
       with_notes [Made d n] [] []
         (with_entries d (m_entries m ++ [{| en_dir := d; en_offset := m_next m; en_name := n; en_object := m_next m |}]) m))
  end.

Definition unlink_entry (d : Z) (n : bytes) (flag : UnlinkFlag) (m : Memory) : option (result Errno unit) * Memory :=
  match m_errors m with
  | e :: rest => (Some (Err e), with_errors rest m)
  | [] =>
      match name_of m d n with
      | None => (Some (Err NOENT), tick m)
      | Some i =>
          if match flag with AtRemoveDir => negb (is_empty m i) | AtEmpty => holds_entries m i end
          then (Some (Err NOTEMPTY), tick m)
          else (Some (Ok tt),
                with_entries d (without d n (m_entries m))
                  (with_removed {| rm_directory := d; rm_name := n; rm_object := i |} m))
      end
  end.

(** A directory stream is its directory and a handle whose position is in memory; it does
    not report the directory itself and its parent. *)
Definition read_entry (h : Z * Z) (m : Memory) : option (option (result Errno (bytes * Z))) * Memory :=
  match list_find (fun e => (en_dir e = h.1 /\ (assoc h.2 (m_positions m) < en_offset e)%Z) /\
                            en_name e <> DOT /\ en_name e <> DOT ++ DOT) (m_entries m) with
  | None => (Some None, tick m)
  | Some (_, e) => (Some (Some (Ok (en_name e, en_offset e))), with_position h.2 (en_offset e) m)
  end.

Fixpoint walk (names : list bytes) (m : Memory) (i : Z) : option Z :=
  match names with
  | [] => Some i
  | n :: rest => if bool_decide (n = DOT) then walk rest m i else name_of m i n ≫= walk rest m
  end.

Definition draw (m : Memory) : bytes * Memory :=
  let u := be_bytes 16 (m_next m) in (u, with_drawn u m).

(** Some digest of 32 bytes. *)
Definition digest (b : bytes) : bytes :=
  be_bytes 32 (foldl (fun acc x => (acc * 257 + byte_val x + 1) mod 2 ^ 255)%Z 0%Z b).

#[global] Instance memory_kernel : Kernel := {|
  OsWorld := Memory;
  OwnedFd := Z;
  Dir := Z * Z;
  new_v4 := draw;
  hyphenated := Utils.encode_hex;
  parse_uuid v := Utils.decode_hex_to_slice v 16;
  sha256 := digest;
  instant_now m := (m_clock m + 1, tick m)%Z;
  is_cancelled m := (false, m);
  try_reserve m := (true, m);
  gate_admits m := (true, m);
  fstat := stat_object;
  fsync i m := (Some (Ok tt), tick m);
  dup i m := (Some (Ok i), tick m);
  statat := stat_entry;
  openat_path d n m := look d n (fun _ i => Ok i) m;
  openat2_directory d n m := look d n (fun m i => if holds_entries m i then Ok i else Err NOTDIR) m;
  renameat_noreplace := rename_entry;
  mkdirat := make_entry;
  unlinkat := unlink_entry;
  dir_new i m := (Some (Ok (i, m_next m)), with_position (m_next m) 0 m);
  dir_read := read_entry;
  dir_seek h p m := (Some (Ok tt), with_position h.2 p m);
  dir_fd h := Ok h.1;
  root_fd := 1%Z;
  root_path := str "/srv";
  openat2_beneath d p m :=
    match walk (component_bytes <$> components p) m d with
    | Some i => (Some (Ok i), with_notes [] [] [(p, i)] (tick m))
    | None => (Some (Err NOENT), tick m)
    end |}.

#[global] Instance memory_view : KernelView := {|
  Ino := Z;
  fd_ino i := i;
  dir_ino h := h.1;
  number i := (7, i)%Z;
  names := name_of;
  seen m d n i := name_of m d n = Some i \/ (d, n, i) ∈ m_seen m;
  drawn m u := u ∈ m_drawn m /\ length u = 16%nat;
  lost_replies := m_lost;
  removed := m_removed |}.

(** ** The laws *)

Lemma entry_of_Some m d n e :
  entry_of m d n = Some e -> e ∈ m_entries m /\ en_dir e = d /\ en_name e = n.
Proof.
  unfold entry_of. destruct (list_find _ _) as [[i x]|] eqn:E; [|done]. intros [= ->].
  apply list_find_Some in E as (Hx & [Hd Hn] & _). split_and!; [by eapply list_elem_of_lookup_2|done|done].
Qed.

Lemma name_seen m d n i : name_of m d n = Some i -> (d, n, i) ∈ (fun e => (en_dir e, en_name e, en_object e)) <$> m_entries m.
Proof.
  unfold name_of. intros (e & He & ->)%fmap_Some. apply entry_of_Some in He as (Hi & <- & <-).
  apply list_elem_of_fmap. by exists e.
Qed.

(** The entries stay, or the memory notes what they were. *)
Lemma memory_later (m m' : Memory) :
  (m_entries m' = m_entries m /\ m_seen m' = m_seen m \/
   m_seen m' = m_seen m ++ ((fun e => (en_dir e, en_name e, en_object e)) <$> m_entries m)) ->
  m_drawn m ⊆ m_drawn m' -> m_lost m <= m_lost m' -> later m m'.
Proof.
  intros Hs Hd Hl. split; [|intros u [Hu ?]; split; [by apply Hd|done]|done]. intros d n i; cbn.
  destruct Hs as [[He Hs]|Hs]; rewrite Hs.
  - unfold name_of, entry_of. rewrite He. tauto.
  - rewrite elem_of_app. intros [Hn|Hn]; [|tauto]. right. right. by apply name_seen.
Qed.

Lemma memory_quiet (m m' : Memory) :
  (m_entries m' = m_entries m /\ m_seen m' = m_seen m \/
   m_seen m' = m_seen m ++ ((fun e => (en_dir e, en_name e, en_object e)) <$> m_entries m)) ->
  m_drawn m ⊆ m_drawn m' -> m_lost m <= m_lost m' -> m_removed m' = m_removed m -> quiet m m'.
Proof. intros Hs Hd Hn Hr. split; [by apply memory_later|done]. Qed.

Ltac quiet_memory := intros ?; apply memory_quiet; [by auto|set_solver|by auto|done].

Lemma rename_quiet d n d' n' : quiet_op (rename_entry d n d' n').
Proof.
  intros m. unfold rename_entry. destruct (entry_of m d n), (name_of m d' n'); apply memory_quiet; cbn; auto.
Qed.

Lemma unlink_law d n flag (m : Memory) : let '(o, m') := unlink_entry d n flag m in
  unlinked d n m m' \/ o <> Some (Ok tt) /\ quiet m m'.
Proof.
  unfold unlink_entry. destruct (m_errors m); [|right; split; [done|by apply memory_quiet; auto]].
  destruct (name_of m d n) as [i|] eqn:En; [|right; split; [done|by apply memory_quiet; auto]].
  destruct (match flag with AtEmpty => _ | AtRemoveDir => _ end).
  { right. split; [done|by apply memory_quiet; auto]. }
  left. split; [apply memory_later; cbn; auto|]. exists i. split; [done|]. cbn. intros u j _ _. congruence.
Qed.

Lemma stat_object_quiet i : quiet_op (stat_object i).
Proof. intros m. unfold stat_object. destruct (_ && _); apply memory_quiet; cbn; auto. Qed.
Lemma make_quiet d n : quiet_op (make_entry d n).
Proof. intros m. unfold make_entry. destruct (name_of m d n); apply memory_quiet; cbn; auto. Qed.

Lemma stat_object_Ok i m st : (stat_object i m).1 = Some (Ok st) -> st = stat_of m i.
Proof. unfold stat_object. destruct (_ && _); [by intros [= <-]|done]. Qed.

#[global] Instance memory_laws : KernelLaws.
Proof.
  split; cbn; try (intros; quiet_memory).
  - by left.
  - by intros _ f d n i _ [= ->].
  - intros w. split; [left|exact (length_be_bytes 16 (m_next w))].
  - apply stat_object_quiet.
  - intros d n m. unfold stat_entry. destruct (name_of m d n); [apply stat_object_quiet|by apply memory_quiet; auto].
  - intros d n m. destruct (walk _ _ _); apply memory_quiet; cbn; auto.
  - intros d n d' n'. apply rename_quiet.
  - apply make_quiet.
  - intros d m. unfold read_entry. destruct (list_find _ _) as [[]|]; apply memory_quiet; cbn; auto.
  - by intros f w g [= <-].
  - by intros f w d [= <-].
  - by intros d f [= <-].
  - by intros f w st ->%stat_object_Ok.
  - intros d n w st. unfold stat_entry. destruct (name_of w d n) as [i|] eqn:E; [|done]. intros Hst.
    pose proof (stat_object_Ok _ _ _ Hst) as ->. exists i. split; [|done]. unfold stat_object in *. by destruct (_ && _).
  - intros d n w f. unfold look. destruct (name_of w d n) as [i|] eqn:E; [|done]. by intros [= <-].
  - intros d n w f. unfold look. destruct (name_of w d n) as [i|] eqn:E; [|done].
    destruct (holds_entries w i); [by intros [= <-]|done].
  - intros. apply unlink_law.
Qed.
End KernelMemory.
