(* ===== verification/TrashPurge.v ===== *)
(** * Purging a trash entry

    [TrashEntry] of [server/rooted_fs/purge.rs]: the resumable, depth-first removal
    of one trash entry.  A slice works until a number of entries, a deadline or the
    shutdown stops it; the stack of frames remembers where it was.  Everything that
    is removed is first renamed to a fresh quarantine name and compared with an open
    descriptor of what was meant. *)

From S2P Require Import Prelude RootedPaths PathPolicy FileRevision Kernel.

Import RootedPaths PathPolicy.

Definition MAX_PURGE_STACK_DEPTH : nat := 2048.

(** [Vec::pop] and an update of the last element. *)
Definition pop_back {A} (l : list A) : option (A * list A) :=
  match last l with Some x => Some (x, removelast l) | None => None end.
Definition alter_last {A} (f : A -> A) (l : list A) : list A := alter f (pred (length l)) l.

Section purge.
Context `{Kernel}.

(** ** The entry *)

Record PurgeDirectory : Type := {
  pd_name : bytes;
  pd_cursor : Z;
  pd_identity : DeleteIdentity;
  pd_revision : ExistingReplacementTarget;
  pd_anchor : option OwnedFd }.

Record PurgeResume : Type := { pr_directory : OwnedFd; pr_depth : nat }.

Record TrashEntry : Type := {
  te_parent : OwnedFd;
  te_name : bytes;
  te_is_dir : bool;
  te_identity : DeleteIdentity;
  te_anchor : OwnedFd;
  te_revision : bytes;
  te_stack : list PurgeDirectory;
  te_resume : option PurgeResume;
  te_pending : option PurgeDirectory }.

(** [TrashEntry::new] *)
Definition new_entry (parent : OwnedFd) (name : bytes) (identity : DeleteIdentity) (root_anchor : OwnedFd)
    (trash_revision : bytes) : TrashEntry :=
  {| te_parent := parent; te_name := name; te_is_dir := del_is_directory identity;
     te_identity := identity; te_anchor := root_anchor; te_revision := trash_revision;
     te_stack := []; te_resume := None; te_pending := None |}.

Definition with_name (n : bytes) (e : TrashEntry) : TrashEntry :=
  {| te_parent := te_parent e; te_name := n; te_is_dir := te_is_dir e; te_identity := te_identity e;
     te_anchor := te_anchor e; te_revision := te_revision e; te_stack := te_stack e;
     te_resume := te_resume e; te_pending := te_pending e |}.
Definition with_stack (l : list PurgeDirectory) (e : TrashEntry) : TrashEntry :=
  {| te_parent := te_parent e; te_name := te_name e; te_is_dir := te_is_dir e; te_identity := te_identity e;
     te_anchor := te_anchor e; te_revision := te_revision e; te_stack := l;
     te_resume := te_resume e; te_pending := te_pending e |}.
Definition with_resume (r : option PurgeResume) (e : TrashEntry) : TrashEntry :=
  {| te_parent := te_parent e; te_name := te_name e; te_is_dir := te_is_dir e; te_identity := te_identity e;
     te_anchor := te_anchor e; te_revision := te_revision e; te_stack := te_stack e;
     te_resume := r; te_pending := te_pending e |}.
Definition with_pending (p : option PurgeDirectory) (e : TrashEntry) : TrashEntry :=
  {| te_parent := te_parent e; te_name := te_name e; te_is_dir := te_is_dir e; te_identity := te_identity e;
     te_anchor := te_anchor e; te_revision := te_revision e; te_stack := te_stack e;
     te_resume := te_resume e; te_pending := p |}.

Definition with_cursor (c : Z) (d : PurgeDirectory) : PurgeDirectory :=
  {| pd_name := pd_name d; pd_cursor := c; pd_identity := pd_identity d; pd_revision := pd_revision d;
     pd_anchor := pd_anchor d |}.
Definition with_revision (r : ExistingReplacementTarget) (d : PurgeDirectory) : PurgeDirectory :=
  {| pd_name := pd_name d; pd_cursor := pd_cursor d; pd_identity := pd_identity d; pd_revision := r;
     pd_anchor := pd_anchor d |}.
Definition with_anchor (a : option OwnedFd) (d : PurgeDirectory) : PurgeDirectory :=
  {| pd_name := pd_name d; pd_cursor := pd_cursor d; pd_identity := pd_identity d;
     pd_revision := pd_revision d; pd_anchor := a |}.
Definition with_frame_name (n : bytes) (d : PurgeDirectory) : PurgeDirectory :=
  {| pd_name := n; pd_cursor := pd_cursor d; pd_identity := pd_identity d;
     pd_revision := pd_revision d; pd_anchor := pd_anchor d |}.

(** [purge_stack.last_mut().expect(..).cursor = next] *)
Definition advance (next : Z) : Sys TrashEntry unit :=
  stack ← gets te_stack;
  _ ← expect (last stack);
  modify (fun e => with_stack (alter_last (with_cursor next) (te_stack e)) e).

(** ** Isolation *)

Definition is_quarantine_entry_name (name : bytes) : bool :=
  match classify_internal_name parse_uuid hyphenated name with Some Quarantine => true | _ => false end.

(** [isolate_anchored_entry_for_unlink]: the name now carried, or [None] if there is
    nothing to isolate.  [publish] is the assignment to [*name]. *)
Fixpoint isolate_attempts {S} (attempts : nat) (publish : bytes -> S -> S) (parent : OwnedFd) (name : bytes)
    (anchor : OwnedFd) : Sys S (option bytes) :=
  match attempts with
  | O => throw AlreadyExists
  | Datatypes.S attempts =>
      uuid ← ask new_v4;
      let isolated := quarantine_name hyphenated uuid in
      renamed ← call (renameat_noreplace parent name parent isolated);
      match renamed : result Errno unit with
      | Err EXIST => isolate_attempts attempts publish parent name anchor
      | Err NOENT => mret None
      | Err e => throw (of_errno e)
      | Ok _ =>
          _ ← modify (publish isolated);
          anchored ← call (fstat anchor);
          match anchored : result Errno Stat with
          | Err _ => throw InvalidData
          | Ok anchored =>
              named ← call (statat parent isolated);
              match named : result Errno Stat with
              | Err _ => throw InvalidData
              | Ok named =>
                  if bool_decide (replacement_target_identity anchored = replacement_target_identity named)
                  then mret (Some isolated) else throw InvalidData
              end
          end
      end
  end.
Definition isolate_anchored_entry_for_unlink {S} (publish : bytes -> S -> S) (parent : OwnedFd)
    (name : bytes) (anchor : OwnedFd) : Sys S (option bytes) :=
  isolate_attempts 16 publish parent name anchor.

(** The removal of an isolated entry: whatever prevents it is reported as
    [InvalidData] ([isolated_removal_error] and the messages beside it). *)
Definition unlink_isolated {S} (parent : OwnedFd) (name : bytes) (flag : UnlinkFlag) : Sys S unit :=
  removed ← call (unlinkat parent name flag);
  match removed : result Errno unit with
  | Ok _ | Err NOENT => mret tt
  | Err _ => throw InvalidData
  end.

(** ** Stopping *)

Definition cancelled {S} (cancellable : bool) : Sys S bool :=
  if cancellable then ask is_cancelled else mret false.

Definition past {S} (deadline : Z) : Sys S bool :=
  t ← ask instant_now; mret (deadline <=? t)%Z.

Definition stop_requested {S} (cancellable : bool) (deadline : Z) : Sys S bool :=
  c ← cancelled cancellable;
  if c : bool then mret true else past deadline.

Definition slice_over {S} (cancellable : bool) (examined max_entries deadline : Z) : Sys S bool :=
  c ← cancelled cancellable;
  if c : bool then mret true
  else if (max_entries <=? examined)%Z then mret true else past deadline.

(** ** The retained directory *)

Definition fd_of {S} (directory : Dir) : Sys S OwnedFd := of_result (dir_fd directory).

Definition update_purge_directory_revision (directory : Dir) (depth : nat) : Sys TrashEntry unit :=
  fd ← fd_of directory;
  metadata ← io (fstat fd);
  match depth with
  | O => throw InvalidData
  | Datatypes.S index =>
      stack ← gets te_stack;
      match stack !! index with
      | None => throw InvalidData
      | Some frame =>
          if bool_decide (delete_identity_from_stat metadata = pd_identity frame)
          then modify (fun e => with_stack (alter (with_revision (replacement_target_identity metadata)) index
                                              (te_stack e)) e)
          else throw InvalidData
      end
  end.

Definition retain_purge_directory (directory : Dir) (depth : nat) : Sys TrashEntry unit :=
  fd ← fd_of directory;
  copy ← io (dup fd);
  modify (with_resume (Some {| pr_directory := copy; pr_depth := depth |})).

Definition remember_purge_directory (directory : Dir) (depth : nat) : Sys TrashEntry unit :=
  _ ← update_purge_directory_revision directory depth;
  retain_purge_directory directory depth.

(** Remembering the current directory before an error is returned. *)
Definition remember_and_throw {A} (directory : Dir) (e : IoError) : Sys TrashEntry A :=
  depth ← gets (length ∘ te_stack);
  _ ← remember_purge_directory directory depth;
  throw e.

Definition reserve_purge_directory_slot : Sys TrashEntry unit :=
  depth ← gets (length ∘ te_stack);
  if (MAX_PURGE_STACK_DEPTH <=? depth)%nat then throw InvalidData
  else
    reserved ← ask try_reserve;
    if reserved : bool then mret tt else throw OtherIo.

(** ** Reopening the current directory *)

(** [statat] names something that is not [expected]. *)
Definition renamed_away {S} (parent : OwnedFd) (name : bytes) (expected : Stat -> bool) : Sys S bool :=
  current ← call (statat parent name);
  mret (match current : result Errno Stat with Ok metadata => negb (expected metadata) | Err _ => false end).

Definition has_revision (r : ExistingReplacementTarget) (metadata : Stat) : bool :=
  bool_decide (replacement_target_identity metadata = r).
Definition has_identity (i : DeleteIdentity) (metadata : Stat) : bool :=
  bool_decide (delete_identity_from_stat metadata = i).

(** The loop that descends from depth [depth] to the top of the stack, through
    [rest], the frames below. *)
Fixpoint descend (rest : list PurgeDirectory) (current : OwnedFd) (depth : nat) (examined : Z)
    (max_entries deadline : Z) (cancellable : bool) : Sys TrashEntry (option OwnedFd * Z) :=
  match rest with
  | [] => mret (Some current, examined)
  | frame :: rest =>
      over ← slice_over cancellable examined max_entries deadline;
      if over : bool then
        _ ← modify (with_resume (Some {| pr_directory := current; pr_depth := depth |}));
        mret (None, examined)
      else
        opened ← call (openat2_directory current (pd_name frame));
        match opened : result Errno OwnedFd with
        | Ok next =>
            opened_metadata ← io (fstat next);
            named ← call (statat current (pd_name frame));
            match named : result Errno Stat with
            | Err NOENT => throw InvalidData
            | Err e => throw (of_errno e)
            | Ok named_metadata =>
                if has_revision (pd_revision frame) opened_metadata
                   && has_revision (pd_revision frame) named_metadata
                then descend rest next (Datatypes.S depth) (examined + 1)%Z max_entries deadline cancellable
                else throw InvalidData
            end
        | Err e =>
            away ← renamed_away current (pd_name frame) (has_revision (pd_revision frame));
            if away : bool then throw InvalidData
            else
              _ ← modify (with_resume (Some {| pr_directory := current; pr_depth := depth |}));
              throw (of_errno e)
        end
  end.

(** The directory to start from: the retained one, or the root of the trash tree. *)
Definition resume_point (target_depth : nat) : Sys TrashEntry (OwnedFd * nat) :=
  resume ← gets te_resume;
  _ ← modify (with_resume None);
  let reopen : Sys TrashEntry (OwnedFd * nat) :=
    stack ← gets te_stack;
    root_frame ← expect (head stack);
    parent ← gets te_parent;
    root ← io (openat2_directory parent (pd_name root_frame));
    metadata ← io (fstat root);
    if has_revision (pd_revision root_frame) metadata then mret (root, 1%nat) else throw InvalidData in
  match resume with
  | Some resume =>
      if ((1 <=? pr_depth resume)%nat && (pr_depth resume <=? target_depth)%nat)
      then mret (pr_directory resume, pr_depth resume) else reopen
  | None => reopen
  end.

Definition open_current_purge_directory (examined max_entries deadline : Z) (cancellable : bool)
    : Sys TrashEntry (option Dir * Z) :=
  target_depth ← gets (length ∘ te_stack);
  '(current, depth) ← resume_point target_depth;
  metadata ← io (fstat current);
  stack ← gets te_stack;
  frame ← expect (stack !! pred depth);
  if negb (has_revision (pd_revision frame) metadata) then throw InvalidData
  else
    '(reached, examined) ← descend (drop depth stack) current depth examined max_entries deadline cancellable;
    match reached with
    | None => mret (None, examined)
    | Some current =>
        directory ← io (dir_new current);
        top ← expect (last stack);
        if (pd_cursor top =? 0)%Z then mret (Some directory, examined)
        else
          sought ← call (dir_seek directory (pd_cursor top));
          match sought : result Errno unit with
          | Ok _ => mret (Some directory, examined)
          | Err e => _ ← remember_purge_directory directory target_depth; throw (of_errno e)
          end
    end.

(** ** A trash file *)

(** The end of a purge: the entry is gone and its absence is made durable. *)
Definition gone (parent : OwnedFd) : Sys TrashEntry bool :=
  _ ← io (fsync parent); mret true.

(** The isolation and removal of the root of the trash entry. *)
Definition remove_root (flag : UnlinkFlag) : Sys TrashEntry bool :=
  e ← get;
  isolated ← isolate_anchored_entry_for_unlink with_name (te_parent e) (te_name e) (te_anchor e);
  match isolated : option bytes with
  | None => gone (te_parent e)
  | Some name =>
      _ ← unlink_isolated (te_parent e) name flag;
      gone (te_parent e)
  end.

Definition purge_file (deadline : Z) (cancellable : bool) : Sys TrashEntry bool :=
  stop ← stop_requested cancellable deadline;
  if stop : bool then mret false
  else
    e ← get;
    anchored ← io (fstat (te_anchor e));
    let anchored_identity := replacement_target_identity anchored in
    if negb (bool_decide (purge_revision sha256 (Existing anchored_identity) = te_revision e))
    then throw InvalidData
    else
      named ← call (statat (te_parent e) (te_name e));
      match named : result Errno Stat with
      | Ok metadata => if has_revision anchored_identity metadata then remove_root AtEmpty else throw InvalidData
      | Err NOENT => gone (te_parent e)
      | Err error =>
          away ← renamed_away (te_parent e) (te_name e) (has_revision anchored_identity);
          throw (if away : bool then InvalidData else of_errno error)
      end.

(** ** A trash directory *)

(** One turn of the slice's loop: go on with a directory, or return. *)
Inductive Step : Type := Again (directory : Dir) (examined : Z) | Return (complete : bool).

(** The first slice opens the root of the trash tree. *)
Definition open_root_directory (deadline : Z) (cancellable : bool) : Sys TrashEntry Step :=
  stop ← stop_requested cancellable deadline;
  if stop : bool then mret (Return false)
  else
    e ← get;
    opened ← call (openat2_directory (te_parent e) (te_name e));
    match opened : result Errno OwnedFd with
    | Err NOENT => Return <$> gone (te_parent e)
    | Err error =>
        current ← call (statat (te_parent e) (te_name e));
        match current : result Errno Stat with
        | Ok metadata =>
            throw (if has_identity (te_identity e) metadata then of_errno error else InvalidData)
        | Err NOENT => Return <$> gone (te_parent e)
        | Err _ => throw (of_errno error)
        end
    | Ok directory =>
        opened_metadata ← io (fstat directory);
        anchored ← io (fstat (te_anchor e));
        let anchored_identity := replacement_target_identity anchored in
        if negb (bool_decide (purge_revision sha256 (Existing anchored_identity) = te_revision e))
           || negb (has_revision anchored_identity opened_metadata)
        then throw InvalidData
        else
          directory ← io (dir_new directory);
          _ ← reserve_purge_directory_slot;
          _ ← modify (fun e => with_stack (te_stack e ++
                [{| pd_name := te_name e; pd_cursor := 0; pd_identity := te_identity e;
                    pd_revision := replacement_target_identity opened_metadata; pd_anchor := None |}]) e);
          mret (Again directory 0)
    end.

(** The removal of a child directory whose contents are gone. *)
Definition unlink_pending (directory : Dir) (examined : Z) (completed : PurgeDirectory)
    : Sys TrashEntry Step :=
  parent_fd ← fd_of directory;
  match pd_anchor completed with
  | None => throw InvalidData
  | Some pending_anchor =>
      anchored ← io (fstat pending_anchor);
      if negb (has_revision (pd_revision completed) anchored) then throw InvalidData
      else
        named ← call (statat parent_fd (pd_name completed));
        match named : result Errno Stat with
        | Err NOENT => mret (Again directory examined)
        | Err e => throw (of_errno e)
        | Ok metadata =>
            if negb (has_revision (replacement_target_identity anchored) metadata) then throw InvalidData
            else
              isolated ← isolate_anchored_entry_for_unlink (fun _ e => e) parent_fd (pd_name completed)
                           pending_anchor;
              match isolated : option bytes with
              | None => mret (Again directory examined)
              | Some name =>
                  _ ← unlink_isolated parent_fd name AtRemoveDir;
                  mret (Again directory examined)
              end
        end
  end.

(** The removal of the root directory whose contents are gone. *)
Definition finish_root (completed : PurgeDirectory) : Sys TrashEntry bool :=
  e ← get;
  anchored ← io (fstat (te_anchor e));
  if negb (has_revision (pd_revision completed) anchored) then throw InvalidData
  else
    named ← call (statat (te_parent e) (te_name e));
    match named : result Errno Stat with
    | Ok metadata =>
        if has_revision (replacement_target_identity anchored) metadata
        then remove_root AtRemoveDir else throw InvalidData
    | Err NOENT => gone (te_parent e)
    | Err e => throw (of_errno e)
    end.

(** All entries of the current directory have been read. *)
Definition finish_directory (directory : Dir) (examined max_entries deadline : Z) (cancellable : bool)
    : Sys TrashEntry Step :=
  completed_depth ← gets (length ∘ te_stack);
  _ ← update_purge_directory_revision directory completed_depth;
  pending_anchor ←
    (if (1 <? completed_depth)%nat
     then fd ← fd_of directory; copy ← io (dup fd); mret (Some copy)
     else mret None);
  stack ← gets te_stack;
  '(completed, rest) ← expect (pop_back stack);
  _ ← modify (with_stack rest);
  match rest with
  | [] => Return <$> finish_root completed
  | _ :: _ =>
      _ ← modify (with_pending (Some (with_anchor pending_anchor completed)));
      '(reopened, examined) ← open_current_purge_directory examined max_entries deadline cancellable;
      mret (match reopened with Some directory => Again directory examined | None => Return false end)
  end.

(** Descend into a child directory. *)
Definition enter_child (directory : Dir) (directory_fd : OwnedFd) (name : bytes) (next_cursor : Z)
    (metadata : Stat) (examined : Z) : Sys TrashEntry Step :=
  _ ← reserve_purge_directory_slot;
  opened ← call (openat2_directory directory_fd name);
  match opened : result Errno OwnedFd with
  | Err NOENT => _ ← advance next_cursor; mret (Again directory examined)
  | Err error =>
      away ← renamed_away directory_fd name (has_identity (delete_identity_from_stat metadata));
      if away : bool then throw InvalidData else remember_and_throw directory (of_errno error)
  | Ok child =>
      opened_metadata ← io (fstat child);
      named ← call (statat directory_fd name);
      match named : result Errno Stat with
      | Err NOENT => throw InvalidData
      | Err e => throw (of_errno e)
      | Ok named_metadata =>
          if negb (has_revision (replacement_target_identity metadata) opened_metadata
                   && has_revision (replacement_target_identity metadata) named_metadata)
          then throw InvalidData
          else
            made ← call (dir_new child);
            match made : result Errno Dir with
            | Err e => remember_and_throw directory (of_errno e)
            | Ok child =>
                _ ← advance next_cursor;
                depth ← gets (length ∘ te_stack);
                _ ← update_purge_directory_revision directory depth;
                _ ← modify (fun e => with_stack (te_stack e ++
                      [{| pd_name := name; pd_cursor := 0; pd_identity := delete_identity_from_stat metadata;
                          pd_revision := replacement_target_identity metadata; pd_anchor := None |}]) e);
                mret (Again child examined)
            end
      end
  end.

(** Remove a child that is not a directory. *)
Definition remove_child (directory : Dir) (directory_fd : OwnedFd) (name : bytes) (next_cursor : Z)
    (metadata : Stat) (examined : Z) : Sys TrashEntry Step :=
  let skip : Sys TrashEntry Step := _ ← advance next_cursor; mret (Again directory examined) in
  opened ← call (openat_path directory_fd name);
  match opened : result Errno OwnedFd with
  | Err NOENT => skip
  | Err e => throw (of_errno e)
  | Ok child_anchor =>
      opened_metadata ← io (fstat child_anchor);
      named ← call (statat directory_fd name);
      match named : result Errno Stat with
      | Err NOENT => skip
      | Err e => throw (of_errno e)
      | Ok named_metadata =>
          if negb (has_revision (replacement_target_identity metadata) opened_metadata
                   && has_revision (replacement_target_identity metadata) named_metadata)
          then throw InvalidData
          else
            isolated ← isolate_anchored_entry_for_unlink (fun _ e => e) directory_fd name child_anchor;
            match isolated : option bytes with
            | None => skip
            | Some isolated => _ ← unlink_isolated directory_fd isolated AtEmpty; skip
            end
      end
  end.

Definition purge_child (directory : Dir) (name : bytes) (next_cursor : Z) (examined : Z)
    : Sys TrashEntry Step :=
  if bool_decide (name ∈ [str "."; str ".."]) then
    _ ← advance next_cursor; mret (Again directory examined)
  else if is_quarantine_entry_name name then throw InvalidData
  else
    let examined := (examined + 1)%Z in
    directory_fd ← fd_of directory;
    found ← call (statat directory_fd name);
    match found : result Errno Stat with
    | Err NOENT => _ ← advance next_cursor; mret (Again directory examined)
    | Err e => remember_and_throw directory (of_errno e)
    | Ok metadata =>
        if bool_decide (from_raw_mode (st_mode metadata) = Directory)
        then enter_child directory directory_fd name next_cursor metadata examined
        else remove_child directory directory_fd name next_cursor metadata examined
    end.

Definition purge_step (directory : Dir) (examined max_entries deadline : Z) (cancellable : bool)
    : Sys TrashEntry Step :=
  pending ← gets te_pending;
  match pending with
  | Some completed =>
      _ ← modify (with_pending None);
      unlink_pending directory (examined + 1) completed
  | None =>
      next ← call (dir_read directory);
      match next : option (result Errno (bytes * Z)) with
      | None => finish_directory directory examined max_entries deadline cancellable
      | Some (Err e) => remember_and_throw directory (of_errno e)
      | Some (Ok (name, next_cursor)) => purge_child directory name next_cursor examined
      end
  end.

Fixpoint purge_loop (fuel : nat) (directory : Dir) (examined max_entries deadline : Z) (cancellable : bool)
    : Sys TrashEntry bool :=
  match fuel with
  | O => out_of_fuel
  | Datatypes.S fuel =>
      over ← slice_over cancellable examined max_entries deadline;
      if over : bool then
        depth ← gets (length ∘ te_stack);
        _ ← remember_purge_directory directory depth;
        mret false
      else
        step ← purge_step directory examined max_entries deadline cancellable;
        match step with
        | Again directory examined => purge_loop fuel directory examined max_entries deadline cancellable
        | Return complete => mret complete
        end
  end.

(** ** Slices *)

Definition purge_slice_blocking (fuel : nat) (max_entries deadline : Z) (cancellable : bool)
    : Sys TrashEntry bool :=
  is_dir ← gets te_is_dir;
  if negb is_dir then purge_file deadline cancellable
  else
    stack ← gets te_stack;
    match stack with
    | [] =>
        opened ← open_root_directory deadline cancellable;
        match opened with
        | Return complete => mret complete
        | Again directory examined => purge_loop fuel directory examined max_entries deadline cancellable
        end
    | _ :: _ =>
        '(reopened, examined) ← open_current_purge_directory 0 max_entries deadline cancellable;
        match reopened with
        | None => mret false
        | Some directory => purge_loop fuel directory examined max_entries deadline cancellable
        end
    end.

(** The entry's new name, in every place that remembers the old one. *)
Definition rename_root (old_name name : bytes) (e : TrashEntry) : TrashEntry :=
  with_stack (match te_stack e with
              | root :: rest =>
                  (if bool_decide (pd_name root = old_name) then with_frame_name name root else root) :: rest
              | [] => []
              end) (with_name name e).

Fixpoint quarantine_attempts (attempts : nat) : Sys TrashEntry unit :=
  match attempts with
  | O => throw AlreadyExists
  | Datatypes.S attempts =>
      e ← get;
      uuid ← ask new_v4;
      let quarantine := quarantine_name hyphenated uuid in
      renamed ← call (renameat_noreplace (te_parent e) (te_name e) (te_parent e) quarantine);
      match renamed : result Errno unit with
      | Ok _ => _ ← modify (rename_root (te_name e) quarantine); io (fsync (te_parent e))
      | Err EXIST => quarantine_attempts attempts
      | Err NOENT => io (fsync (te_parent e))
      | Err error => throw (of_errno error)
      end
  end.

Definition quarantine_after_identity_error_blocking : Sys TrashEntry unit :=
  e ← get;
  if is_quarantine_entry_name (te_name e) then io (fsync (te_parent e)) else quarantine_attempts 16.

(** [Instant::checked_add]; an instant has seconds of 64 bits. *)
Definition INSTANT_MAX : Z := I64_MAX * 1000000000 + 999999999.
Definition instant_checked_add (t d : Z) : option Z := if (t + d <=? INSTANT_MAX)%Z then Some (t + d)%Z else None.

(** The value says whether the entry is completely removed; the state is the entry
    as [Pending] and [TrashPurgeError] return it. *)
Definition purge_slice (fuel : nat) (max_entries max_duration : Z) : Sys TrashEntry bool :=
  gated (
    t ← ask instant_now;
    deadline ← match instant_checked_add t max_duration with Some d => mret d | None => ask instant_now end;
    purged ← attempt (purge_slice_blocking fuel (Z.max max_entries 1) deadline true);
    match purged : result IoError bool with
    | Err InvalidData => _ ← quarantine_after_identity_error_blocking; throw InvalidData
    | Err e => throw e
    | Ok complete => mret complete
    end).
End purge.
