(* ===== verification/TrashSafety.v ===== *)
(** * Purging removes nothing but the trash entry

    Whatever other programs do to the trash tree while it is purged, however calls
    fail and wherever the process dies: a slice removes directory entries only below
    the object the trash entry pins, and that object itself from its parent
    directory; it removes no more entries than it may examine; its stack stays
    bounded; and none of its [expect]s fails. *)

From S2P Require Import Prelude RootedPaths PathPolicy FileRevision Kernel KernelLaws TrashPurge KernelMemory.

Import RootedPaths.

Module TrashSafety.

(** The removed entry belonged to the tree below [root], or is [root] in [parent],
    under a quarantine name of this run. *)
Definition within `{KernelView} (w : OsWorld) (parent root : Ino) (x : Removal Ino) : Prop :=
  (exists u, drawn w u /\ rm_name x = PathPolicy.quarantine_name hyphenated u) /\
  (rm_directory x = parent /\ rm_object x = root \/
   inside w root (rm_directory x) /\ inside w root (rm_object x)).

(** The computation came to its own end. *)
Definition is_final {A} (o : outcome A) : bool := match o with Val _ | Fail _ => true | _ => false end.

(** What a trash entry refers to. *)
Record entry_ok `{KernelView} (w : OsWorld) (e : TrashEntry) : Prop := {
  eo_identity : (del_device (te_identity e), del_inode (te_identity e)) = number (fd_ino (te_anchor e));
  eo_stack : length (te_stack e) <= MAX_PURGE_STACK_DEPTH;
  eo_root f : head (te_stack e) = Some f -> pd_identity f = te_identity e /\
    (rt_device (pd_revision f), rt_inode (pd_revision f)) = number (fd_ino (te_anchor e));
  eo_resume r : te_resume e = Some r -> inside w (fd_ino (te_anchor e)) (fd_ino (pr_directory r));
  eo_pending p a : te_pending e = Some p -> pd_anchor p = Some a ->
    inside w (fd_ino (te_anchor e)) (fd_ino a) }.

Section safety.
Context `{L : KernelLaws}.

(** ** The invariant of a slice that started in [w0] and may examine [budget] entries *)

Context (w0 : OsWorld) (p a : OwnedFd) (budget : Z).
Abbreviation root := (fd_ino a).

Record purged (n : Z) (w : OsWorld) : Prop := {
  pg_later : later w0 w;
  pg_removed : exists new, removed w = removed w0 ++ new /\
    Forall (within w (fd_ino p) root) new /\ (Z.of_nat (length new) <= n)%Z;
  pg_budget : (n <= budget)%Z }.

Record Inv (n : Z) (e : TrashEntry) (w : OsWorld) : Prop := {
  iv_parent : te_parent e = p;
  iv_anchor : te_anchor e = a;
  iv_entry : entry_ok w e;
  iv_purged : purged n w }.

(** Wherever the process dies. *)
Definition Safe (w : OsWorld) : Prop := purged budget w.

Lemma within_mono w w' x : later w w' -> within w (fd_ino p) root x -> within w' (fd_ino p) root x.
Proof.
  intros Hl [(u & Hu & Hn) Hx]. split; [exists u; split; [by apply Hl|done]|].
  destruct Hx as [?|[? ?]]; [by left|right]. split; by eapply inside_mono.
Qed.

Lemma purged_mono n m w : (n <= m <= budget)%Z -> purged n w -> purged m w.
Proof. intros Hn [? (new & ? & ? & ?) ?]. split; [done| |lia]. exists new. split_and!; [done..|lia]. Qed.

Lemma purged_quiet n w w' : quiet w w' -> purged n w -> purged n w'.
Proof.
  intros [Hl Hr] [? (new & E & Hw & ?) ?]. split; [by eapply later_trans| |done].
  exists new. rewrite Hr. split_and!; [done| |done]. eapply Forall_impl; [done|]. intros x. by apply within_mono.
Qed.

Lemma entry_ok_later w w' e : later w w' -> entry_ok w e -> entry_ok w' e.
Proof.
  intros Hl []. split; [done..| |]; eauto using inside_mono.
Qed.

Lemma Inv_quiet n e w w' : quiet w w' -> Inv n e w -> Inv n e w'.
Proof. intros Hq []. split; [done..| |by eapply purged_quiet]. eapply entry_ok_later; [apply Hq|done]. Qed.

Lemma Inv_mono n m e w : (n <= m <= budget)%Z -> Inv n e w -> Inv m e w.
Proof. intros Hn []. split; [done..|by eapply purged_mono]. Qed.

Lemma Inv_budget n e w : Inv n e w -> (n <= budget)%Z.
Proof. by intros [_ _ _ []]. Qed.

Lemma Inv_Safe n e w : Inv n e w -> Safe w.
Proof. intros Hi. eapply purged_mono; [split; [by eapply Inv_budget|done]|apply Hi]. Qed.

(** ** Reasoning with the invariant

    A value satisfies [q]; after an error only the invariant is known. *)

Definition post {A} (q : A -> TrashEntry -> OsWorld -> Prop) (r : result IoError A) (e : TrashEntry)
    (w : OsWorld) : Prop :=
  match r with Ok x => q x e w | Err _ => Inv budget e w end.

Definition runs {A} (m : Sys TrashEntry A) (q : A -> TrashEntry -> OsWorld -> Prop) : TrashEntry -> OsWorld -> Prop :=
  wps Safe m (post q).

Lemma runs_bind {A B} (m : Sys TrashEntry A) (f : A -> Sys TrashEntry B) q e w :
  runs m (fun x => runs (f x) q) e w -> runs (m ≫= f) q e w.
Proof. intros Hm. apply wps_bind. eapply wps_mono; [apply Hm| |done]. by intros [] ??. Qed.

Lemma runs_mono {A} (m : Sys TrashEntry A) (q q' : A -> TrashEntry -> OsWorld -> Prop) e w :
  runs m q e w -> (forall x e w, q x e w -> q' x e w) -> runs m q' e w.
Proof. intros Hm Hq. eapply wps_mono; [apply Hm| |done]. intros []; cbn; eauto. Qed.

Lemma runs_throw {A} n err (q : A -> TrashEntry -> OsWorld -> Prop) e w : Inv n e w -> runs (throw err) q e w.
Proof. intros Hi. apply wps_throw. cbn. eapply Inv_mono; [|done]. split; [by eapply Inv_budget|done]. Qed.

Lemma runs_call {A} n (op : OsWorld -> option A * OsWorld) q e w :
  quiet_op op -> Inv n e w ->
  (forall o w', op w = (Some o, w') -> later w w' -> Inv n e w' -> q o e w') -> runs (call op) q e w.
Proof.
  intros Hop Hi Hq. specialize (Hop w). apply wps_call.
  - intros o w' E. rewrite E in Hop. cbn in *. eapply Hq; [done|apply Hop|by eapply Inv_quiet].
  - intros w' E. rewrite E in Hop. eapply Inv_Safe. by eapply Inv_quiet.
Qed.

Lemma runs_ask {A} n (op : OsWorld -> A * OsWorld) q e w :
  quiet_op op -> Inv n e w ->
  (forall o w', op w = (o, w') -> later w w' -> Inv n e w' -> q o e w') -> runs (ask op) q e w.
Proof.
  intros Hop Hi Hq. specialize (Hop w). apply wps_ask.
  intros o w' E. rewrite E in Hop. cbn in *. eapply Hq; [done|apply Hop|by eapply Inv_quiet].
Qed.

Lemma runs_result {A} n (r : result Errno A) q e w :
  Inv n e w -> (forall x, r = Ok x -> q x e w) -> runs (of_result r) q e w.
Proof. intros Hi Hq. destruct r; [by apply wps_ret, Hq|by eapply runs_throw]. Qed.

Lemma runs_io {A} n (op : OsWorld -> option (result Errno A) * OsWorld) q e w :
  quiet_op op -> Inv n e w ->
  (forall o w', op w = (Some (Ok o), w') -> later w w' -> Inv n e w' -> q o e w') -> runs (io op) q e w.
Proof.
  intros Hop Hi Hq. apply runs_bind. eapply runs_call; [done|done|].
  intros o w' E Hl Hi'. eapply runs_result; [done|]. intros x ->. by eapply Hq.
Qed.

Lemma runs_ret {A} (x : A) (q : A -> TrashEntry -> OsWorld -> Prop) e w : q x e w -> runs (mret x) q e w.
Proof. done. Qed.
Lemma runs_gets {A} (f : TrashEntry -> A) (q : A -> TrashEntry -> OsWorld -> Prop) e w :
  q (f e) e w -> runs (gets f) q e w.
Proof. done. Qed.
Lemma runs_get (q : TrashEntry -> TrashEntry -> OsWorld -> Prop) e w : q e e w -> runs get q e w.
Proof. done. Qed.
Lemma runs_modify f (q : unit -> TrashEntry -> OsWorld -> Prop) e w : q tt (f e) w -> runs (modify f) q e w.
Proof. done. Qed.
Lemma runs_expect {A} (o : option A) x (q : A -> TrashEntry -> OsWorld -> Prop) e w :
  o = Some x -> q x e w -> runs (expect o) q e w.
Proof. by intros ->. Qed.

(** A step of symbolic execution. *)
Ltac step :=
  lazymatch goal with
  | |- runs (_ ≫= _) _ _ _ => apply runs_bind
  | |- runs (mret _) _ _ _ => apply runs_ret
  | |- runs (throw _) _ _ _ => by eapply runs_throw
  | |- runs (gets _) _ _ _ => apply runs_gets
  | |- runs get _ _ _ => apply runs_get
  | |- runs (modify _) _ _ _ => apply runs_modify
  | |- runs (if ?b then _ else _) _ _ _ => let E := fresh "E" in destruct b eqn:E
  end.

Lemma runs_cancelled n cancellable q e w :
  Inv n e w -> (forall b w', later w w' -> Inv n e w' -> q b e w') -> runs (cancelled cancellable) q e w.
Proof.
  intros Hi Hq. unfold cancelled. step; [|apply runs_ret, Hq; [apply later_refl|done]].
  eapply runs_ask; [apply law_cancelled|done|eauto].
Qed.

Lemma runs_past n deadline q e w :
  Inv n e w -> (forall b w', later w w' -> Inv n e w' -> q b e w') -> runs (past deadline) q e w.
Proof.
  intros Hi Hq. unfold past. step. eapply runs_ask; [apply law_now|done|].
  intros o w' _ Hl Hi'. step. by apply Hq.
Qed.

Lemma runs_stop n cancellable deadline q e w :
  Inv n e w -> (forall b w', later w w' -> Inv n e w' -> q b e w') -> runs (stop_requested cancellable deadline) q e w.
Proof.
  intros Hi Hq. unfold stop_requested. step. eapply runs_cancelled; [done|]. intros b w' Hl Hi'.
  step; [step; by apply Hq|]. eapply runs_past; [done|]. intros. apply Hq; [by eapply later_trans|done].
Qed.

(** The slice goes on only within its budget. *)
Lemma runs_over n cancellable deadline q e w :
  Inv n e w ->
  (forall b w', later w w' -> Inv n e w' -> (b = false -> n < budget)%Z -> q b e w') ->
  runs (slice_over cancellable n budget deadline) q e w.
Proof.
  intros Hi Hq. unfold slice_over. step. eapply runs_cancelled; [done|]. intros b w' Hl Hi'.
  step; [step; by apply Hq|]. step; [step; by apply Hq|]. apply Z.leb_gt in E0.
  eapply runs_past; [done|]. intros. apply Hq; [by eapply later_trans|done|done].
Qed.

(** ** Isolation and removal *)

(** [m] is the name, drawn by this run, under which [d] holds [i]. *)
Definition isolated (w : OsWorld) (d : Ino) (m : bytes) (i : Ino) : Prop :=
  exists u, m = PathPolicy.quarantine_name hyphenated u /\ drawn w u /\ names w d m = Some i.

Lemma runs_isolate k publish parent name anchor n q e w :
  (forall m n e w, Inv n e w -> Inv n (publish m e) w) -> Inv n e w ->
  (forall o e' w', later w w' -> Inv n e' w' -> e' = e \/ (exists m, e' = publish m e) ->
     (forall m, o = Some m -> isolated w' (fd_ino parent) m (fd_ino anchor)) -> q o e' w') ->
  runs (isolate_attempts k publish parent name anchor) q e w.
Proof.
  intros Hp. revert w. induction k as [|k IH]; intros w Hi Hq; cbn [isolate_attempts]; [step|].
  step. eapply runs_ask; [apply law_new_v4|done|]. intros u w1 Eu Hl1 Hi1. step.
  assert (drawn w1 u) as Hu by (pose proof (law_drawn w) as Hd; by rewrite Eu in Hd).
  eapply runs_call; [apply law_rename|done|]. intros [[]|err] w2 _ Hl2 Hi2.
  - step. step. step. eapply runs_call; [apply law_fstat|by apply Hp|]. intros [st|] w3 E3 Hl3 Hi3; [|step].
    step. eapply runs_call; [apply law_statat|done|]. intros [st'|] w4 E4 Hl4 Hi4; [|step].
    step; [|step]. step. split_bool. apply Hq; [by do 3 (eapply later_trans; [done|])|done|by right; eexists|].
    intros m [= <-]. exists u. split; [done|]. split; [by apply Hl4, Hl3, Hl2|].
    pose proof (law_statat_named parent (PathPolicy.quarantine_name hyphenated u) w3 st') as Hs.
    pose proof (law_fstat_number anchor w2 st) as Hf. rewrite E3 in Hf. rewrite E4 in Hs. cbn [fst snd] in Hf, Hs.
    destruct (Hs eq_refl) as (i & Hn & Hst). rewrite Hn. f_equal.
    eapply law_pinned; [exact Hn|]. rewrite <- Hst, <- Hf by done. symmetry. by apply same_number.
  - destruct err; try step.
    + apply Hq; [by eapply later_trans|done|by left|done].
    + apply IH; [done|]. intros o e' w' Hl'. apply Hq. do 2 (eapply later_trans; [done|]). done.
Qed.

(** Removing an isolated entry that is part of the trash tree costs one entry. *)
Lemma runs_unlink d m i flag n q e w :
  Inv n e w -> (n < budget)%Z -> isolated w (fd_ino d) m i ->
  (fd_ino d = fd_ino p /\ i = root \/ inside w root (fd_ino d) /\ inside w root i) ->
  (forall w', later w w' -> Inv (n + 1) e w' -> q tt e w') ->
  runs (unlink_isolated d m flag) q e w.
Proof.
  intros Hi Hn (u & Em & Hu & Hd) Hw Hq. unfold unlink_isolated. apply runs_bind.
  pose proof (law_unlink d m flag w) as Hk. unfold runs, wps, call.
  destruct (unlinkat d m flag w) as [o w'] eqn:E.
  assert (later w w' /\ Inv (n + 1) e w') as [Hl Hi'].
  { destruct Hk as [[Hl (j & Er & Hj)]|[_ Hq']].
    - specialize (Hj u i Em Hu Hd) as ->. split; [done|]. destruct Hi as [? ? He [Hl0 (new & En & Hnew & Hlen) _]].
      split; [done..|by eapply entry_ok_later|]. split; [by eapply later_trans| |lia].
      exists (new ++ [{| rm_directory := fd_ino d; rm_name := m; rm_object := i |}]).
      rewrite Er, En, <- app_assoc, length_app. cbn. split_and!; [done| |lia]. apply Forall_app. split.
      + eapply Forall_impl; [done|]. intros x. by apply within_mono.
      + apply Forall_singleton. split; [exists u; split; [by apply Hl|done]|]. cbn.
        destruct Hw as [?|[? ?]]; [by left|right; split; by eapply inside_mono].
    - split; [apply Hq'|]. eapply Inv_quiet; [done|]. eapply Inv_mono; [|done]. lia. }
  assert (Inv budget e w') as Hb by (eapply Inv_mono; [|done]; lia).
  destruct o as [[[]|err]|]; cbn; [by apply Hq| |by eapply Inv_Safe].
  destruct err; cbn; first [by apply Hq|done].
Qed.

(** ** The stack and the entry *)

Definition same_root (e e' : TrashEntry) : Prop :=
  te_parent e' = te_parent e /\ te_anchor e' = te_anchor e /\ te_identity e' = te_identity e.

Lemma Inv_edit n e e' w : Inv n e w -> same_root e e' -> entry_ok w e' -> Inv n e' w.
Proof. intros [] (Hp & Ha & _) ?. split; [congruence..|done|done]. Qed.

Lemma Inv_with_name n m e w : Inv n e w -> Inv n (with_name m e) w.
Proof. intros Hi. eapply Inv_edit; [done|done|]. by destruct (iv_entry _ _ _ Hi). Qed.

Lemma Inv_with_resume n r e w :
  Inv n e w -> (forall x, r = Some x -> inside w root (fd_ino (pr_directory x))) -> Inv n (with_resume r e) w.
Proof.
  intros Hi Hr. eapply Inv_edit; [done|done|]. pose proof (iv_anchor _ _ _ Hi) as Ha.
  destruct (iv_entry _ _ _ Hi). split; cbn; try done. intros x Hx. rewrite Ha. by apply Hr.
Qed.

Lemma Inv_with_pending n x e w :
  Inv n e w -> (forall y b, x = Some y -> pd_anchor y = Some b -> inside w root (fd_ino b)) ->
  Inv n (with_pending x e) w.
Proof.
  intros Hi Hr. eapply Inv_edit; [done|done|]. pose proof (iv_anchor _ _ _ Hi) as Ha.
  destruct (iv_entry _ _ _ Hi). split; cbn; try done. intros y b Hy Hb. rewrite Ha. by eapply Hr.
Qed.

(** A new stack is as good as the old one if it is short and its root frame is. *)
Definition root_frame_ok (e : TrashEntry) (l : list PurgeDirectory) : Prop :=
  forall f, head l = Some f -> pd_identity f = te_identity e /\
    (rt_device (pd_revision f), rt_inode (pd_revision f)) = number root.

Lemma Inv_with_stack n l e w :
  Inv n e w -> length l <= MAX_PURGE_STACK_DEPTH -> root_frame_ok e l -> Inv n (with_stack l e) w.
Proof.
  intros Hi Hl Hr. eapply Inv_edit; [done|done|]. pose proof (iv_anchor _ _ _ Hi) as Ha.
  destruct (iv_entry _ _ _ Hi). split; cbn; try done. intros f Hf. rewrite Ha. by apply Hr.
Qed.

Lemma Inv_root_frame n e w : Inv n e w -> root_frame_ok e (te_stack e).
Proof. intros Hi f Hf. rewrite <- (iv_anchor _ _ _ Hi). by apply (eo_root _ _ (iv_entry _ _ _ Hi)). Qed.

Lemma Inv_depth n e w : Inv n e w -> length (te_stack e) <= MAX_PURGE_STACK_DEPTH.
Proof. intros Hi. apply (iv_entry _ _ _ Hi). Qed.

Lemma root_frame_alter e f i l :
  root_frame_ok e l ->
  (forall x, head l = Some x -> i = 0 -> pd_identity (f x) = pd_identity x /\
     (rt_device (pd_revision (f x)), rt_inode (pd_revision (f x))) = number root) ->
  root_frame_ok e (alter f i l).
Proof.
  intros Hl Hf x. destruct l as [|y l]; [done|]. destruct i as [|i]; cbn; [|by apply Hl].
  intros [= <-]. destruct (Hf y eq_refl eq_refl) as [-> ->]. split; [by apply Hl|done].
Qed.

Lemma Inv_advance n c e w :
  Inv n e w -> Inv n (with_stack (alter_last (with_cursor c) (te_stack e)) e) w.
Proof.
  intros Hi. apply Inv_with_stack; [done| |].
  - unfold alter_last. rewrite length_alter. by eapply Inv_depth.
  - apply root_frame_alter; [by eapply Inv_root_frame|]. intros x Hx _. split; [done|].
    apply (Inv_root_frame _ _ _ Hi x Hx).
Qed.

Lemma runs_advance n c q e w :
  Inv n e w -> te_stack e <> [] ->
  (forall l, length l = length (te_stack e) -> Inv n (with_stack l e) w -> q tt (with_stack l e) w) ->
  runs (advance c) q e w.
Proof.
  intros Hi Hne Hq. unfold advance. step. step. step. destruct (last (te_stack e)) as [x|] eqn:El.
  2: by apply last_None in El.
  eapply runs_expect; [done|]. step. apply Hq; [apply length_alter|by apply Inv_advance].
Qed.

Lemma runs_fd n directory q e w :
  Inv n e w -> (forall f, fd_ino f = dir_ino directory -> q f e w) -> runs (fd_of directory) q e w.
Proof. intros Hi Hq. eapply runs_result; [done|]. intros f Hf. apply Hq. by apply law_dir_fd. Qed.

Lemma runs_update n directory depth q e w :
  Inv n e w ->
  (forall l w', later w w' -> length l = length (te_stack e) -> Inv n (with_stack l e) w' ->
     q tt (with_stack l e) w') ->
  runs (update_purge_directory_revision directory depth) q e w.
Proof.
  intros Hi Hq. unfold update_purge_directory_revision. step. eapply runs_fd; [done|]. intros f _. step.
  eapply runs_io; [apply law_fstat|done|]. intros st w' _ Hl Hi'. destruct depth as [|i]; [step|].
  step. step. destruct (te_stack e !! i) as [x|] eqn:Ex; [|step]. step; [|step]. split_bool.
  step. apply Hq; [done|apply length_alter|]. apply Inv_with_stack; [done| |].
  - rewrite length_alter. by eapply Inv_depth.
  - apply root_frame_alter; [by eapply Inv_root_frame|]. intros y Hy ->. split; [done|]. cbn.
    rewrite head_lookup in Hy. rewrite Ex in Hy. injection Hy as ->.
    destruct (Inv_root_frame _ _ _ Hi y) as [Ey _]; [by rewrite head_lookup|].
    pose proof (eo_identity _ _ (iv_entry _ _ _ Hi)) as Hn. rewrite (iv_anchor _ _ _ Hi) in Hn.
    rewrite <- Hn, <- Ey, <- E. done.
Qed.

Lemma runs_remember n directory depth q e w :
  Inv n e w -> inside w root (dir_ino directory) ->
  (forall e' w', later w w' -> Inv n e' w' -> q tt e' w') ->
  runs (remember_purge_directory directory depth) q e w.
Proof.
  intros Hi Hd Hq. unfold remember_purge_directory. step. eapply runs_update; [done|].
  intros l w1 Hl1 _ Hi1. unfold retain_purge_directory. step. eapply runs_fd; [done|]. intros f Ef. step.
  eapply runs_io; [apply law_dup|done|]. intros g w2 E2 Hl2 Hi2. step. apply Hq; [by eapply later_trans|].
  apply Inv_with_resume; [done|]. intros x [= <-]. cbn.
  pose proof (law_dup_ino f w1 g) as Hg. rewrite E2 in Hg. rewrite Hg, Ef by done.
  eapply inside_mono; [|done]. by eapply later_trans.
Qed.

Lemma runs_remember_throw {A} n directory err (q : A -> TrashEntry -> OsWorld -> Prop) e w :
  Inv n e w -> inside w root (dir_ino directory) -> runs (remember_and_throw directory err) q e w.
Proof.
  intros Hi Hd. unfold remember_and_throw. step. step. step. eapply runs_remember; [done..|].
  intros. by eapply runs_throw.
Qed.

Lemma runs_reserve n q e w :
  Inv n e w ->
  (forall w', later w w' -> Inv n e w' -> length (te_stack e) < MAX_PURGE_STACK_DEPTH -> q tt e w') ->
  runs reserve_purge_directory_slot q e w.
Proof.
  intros Hi Hq. unfold reserve_purge_directory_slot. step. step. cbn [compose]. step; [step|].
  apply Nat.leb_gt in E. step. eapply runs_ask; [apply law_reserve|done|]. intros b w' _ Hl Hi'.
  step; [step; by apply Hq|step].
Qed.

Lemma runs_renamed_away n parent name expected q e w :
  Inv n e w -> (forall b w', later w w' -> Inv n e w' -> q b e w') ->
  runs (renamed_away parent name expected) q e w.
Proof.
  intros Hi Hq. unfold renamed_away. step. eapply runs_call; [apply law_statat|done|]. intros o w' _ Hl Hi'.
  step. by apply Hq.
Qed.

(** ** Reopening *)

Lemma opened_inside w d name f w' :
  openat2_directory d name w = (Some (Ok f), w') -> inside w' root (fd_ino d) -> inside w' root (fd_ino f).
Proof.
  intros E Hd. eapply inside_step; [done|]. pose proof (law_open_directory_named d name w f) as Ho.
  rewrite E in Ho. by apply Ho.
Qed.

Lemma runs_descend rest current depth n cancellable deadline q e w :
  Inv n e w -> inside w root (fd_ino current) ->
  (forall o n' r w', later w w' -> Inv n' (with_resume r e) w' ->
     (forall f, o = Some f -> inside w' root (fd_ino f)) -> q (o, n') (with_resume r e) w') ->
  runs (descend rest current depth n budget deadline cancellable) q e w.
Proof.
  revert current depth n w. induction rest as [|frame rest IH]; intros current depth n w Hi Hc Hq; cbn [descend].
  { step. specialize (Hq (Some current) n (te_resume e) w). destruct e. apply Hq; [apply later_refl|done|].
    by intros f [= <-]. }
  step. eapply runs_over; [done|]. intros b w1 Hl1 Hi1 Hb. specialize (Hb : b = false -> _).
  assert (inside w1 root (fd_ino current)) as Hc1 by by eapply inside_mono.
  step.
  { step. step. step. apply Hq; [done| |done]. apply Inv_with_resume; [done|]. by intros x [= <-]. }
  specialize (Hb eq_refl). step. eapply runs_call; [apply law_open_directory|done|].
  intros [next|err] w2 E2 Hl2 Hi2.
  - assert (inside w2 root (fd_ino next)) as Hn by (eapply opened_inside; [done|by eapply inside_mono]).
    step. eapply runs_io; [apply law_fstat|done|]. intros st w3 _ Hl3 Hi3.
    step. eapply runs_call; [apply law_statat|done|]. intros [st'|err] w4 _ Hl4 Hi4; [|destruct err; step].
    step; [|step]. apply IH.
    + eapply Inv_mono; [|done]. lia.
    + eapply inside_mono; [|done]. by eapply later_trans.
    + intros o n' r w' Hl'. apply Hq. do 4 (eapply later_trans; [done|]). done.
  - step. eapply runs_renamed_away; [done|]. intros away w3 Hl3 Hi3. step; [step|]. step. step.
    eapply runs_throw, Inv_with_resume; [done|]. intros x [= <-]. eapply inside_mono; [|done].
    by eapply later_trans.
Qed.

(** The root of the trash tree, opened again by its name, is the pinned object. *)
Lemma reopened_root w name f w' st r :
  openat2_directory p name w = (Some (Ok f), w') -> (fstat f w').1 = Some (Ok st) ->
  has_revision r st = true -> (rt_device r, rt_inode r) = number root -> fd_ino f = root.
Proof.
  intros E Hst Hr Hn. pose proof (law_open_directory_named p name w f) as Ho. rewrite E in Ho.
  eapply law_pinned; [by apply Ho|]. rewrite <- (law_fstat_number f w' st Hst), <- Hn.
  unfold has_revision in Hr. split_bool. by subst r.
Qed.

Lemma runs_resume_point n q e w :
  Inv n e w -> te_stack e <> [] ->
  (forall f d w', later w w' -> Inv n (with_resume None e) w' -> inside w' root (fd_ino f) ->
     1 <= d <= length (te_stack e) -> q (f, d) (with_resume None e) w') ->
  runs (resume_point (length (te_stack e))) q e w.
Proof.
  intros Hi Hne Hq. unfold resume_point. step. step. step. step.
  assert (Inv n (with_resume None e) w) as Hi1 by (by apply Inv_with_resume).
  set (reopen := (stack ← gets te_stack; _) : Sys TrashEntry (OwnedFd * nat)).
  assert (runs reopen q (with_resume None e) w) as Hre.
  { unfold reopen. step. step. step. cbn [te_stack with_resume]. destruct (te_stack e) as [|x l] eqn:El; [done|].
    eapply runs_expect; [done|]. step. step. cbn [te_parent with_resume]. rewrite (iv_parent _ _ _ Hi). step.
    eapply runs_io; [apply law_open_directory|done|]. intros f w1 E1 Hl1 Hi'. step.
    eapply runs_io; [apply law_fstat|done|]. intros st w2 E2 Hl2 Hi2. step; [|step]. step.
    apply Hq; [by eapply later_trans|done| |cbn; lia].
    destruct (Inv_root_frame _ _ _ Hi x) as [_ Hx]; [by rewrite El|].
    rewrite (reopened_root _ _ _ _ st (pd_revision x) E1); [apply rtc_refl|by rewrite E2|done|done]. }
  destruct (te_resume e) as [r|] eqn:Er; [|done]. step; [|done]. step. split_bool.
  apply Hq; [apply later_refl|done| |split; by apply Nat.leb_le].
  rewrite <- (iv_anchor _ _ _ Hi). by apply (eo_resume _ _ (iv_entry _ _ _ Hi)).
Qed.

Lemma runs_open_current n cancellable deadline q e w :
  Inv n e w -> te_stack e <> [] ->
  (forall o n' r w', later w w' -> Inv n' (with_resume r e) w' ->
     (forall d, o = Some d -> inside w' root (dir_ino d)) -> q (o, n') (with_resume r e) w') ->
  runs (open_current_purge_directory n budget deadline cancellable) q e w.
Proof.
  intros Hi Hne Hq. unfold open_current_purge_directory. step. step. cbn [compose]. step.
  eapply runs_resume_point; [done..|]. intros f d w1 Hl1 Hi1 Hf Hd. step.
  eapply runs_io; [apply law_fstat|done|]. intros st w2 _ Hl2 Hi2. step. step. step. cbn [te_stack with_resume].
  destruct (lookup_lt_is_Some_2 (te_stack e) (pred d)) as [x Hx]; [lia|].
  eapply runs_expect; [done|]. step; [step|]. step.
  eapply runs_descend; [done|by eapply inside_mono|]. intros o n' r w3 Hl3 Hi3 Ho.
  destruct o as [g|]; [|by step; apply Hq; [do 3 (eapply later_trans; [done|]); apply later_refl|..]].
  step. eapply runs_io; [apply law_dir_new|done|]. intros dir w4 E4 Hl4 Hi4.
  assert (later w w4) as Hl by (do 4 (eapply later_trans; [done|]); apply later_refl).
  assert (inside w4 root (dir_ino dir)) as Hdir.
  { pose proof (law_dir_ino g w3 dir) as Hg. rewrite E4 in Hg. rewrite Hg by done.
    eapply inside_mono; [exact Hl4|]. by apply Ho. }
  step. destruct (last (te_stack e)) as [top|] eqn:Et; [|by apply last_None in Et].
  eapply runs_expect; [done|]. step.
  { step. apply Hq; [done|done|]. by intros ? [= <-]. }
  step. eapply runs_call; [apply law_dir_seek|done|]. intros [[]|err] w5 _ Hl5 Hi5.
  - step. apply Hq; [by eapply later_trans|done|]. intros ? [= <-]. by eapply inside_mono.
  - step. eapply runs_remember; [done|by eapply inside_mono|]. intros. by eapply runs_throw.
Qed.

(** ** The removal of the root *)

Definition ended {A} (_ : A) (e : TrashEntry) (w : OsWorld) : Prop := Inv budget e w.

Lemma Inv_ended n {A} (x : A) e w : Inv n e w -> ended x e w.
Proof. intros Hi. eapply Inv_mono; [|done]. split; [by eapply Inv_budget|done]. Qed.

Lemma runs_gone n parent e w : Inv n e w -> runs (gone parent) ended e w.
Proof.
  intros Hi. unfold gone. step. eapply runs_io; [apply law_fsync|done|]. intros. step. by eapply Inv_ended.
Qed.

Lemma runs_remove_root flag n e w : Inv n e w -> (n < budget)%Z -> runs (remove_root flag) ended e w.
Proof.
  intros Hi Hn. unfold remove_root. step. step. step. rewrite (iv_parent _ _ _ Hi), (iv_anchor _ _ _ Hi).
  eapply runs_isolate; [intros; by apply Inv_with_name|done|]. intros [m|] e1 w1 Hl1 Hi1 _ Hm.
  - step. eapply runs_unlink; [done|done|by apply Hm|by left|]. intros. by eapply runs_gone.
  - by eapply runs_gone.
Qed.

Lemma runs_purge_file deadline cancellable e w :
  Inv 0 e w -> (0 < budget)%Z -> runs (purge_file deadline cancellable) ended e w.
Proof.
  intros Hi Hb. unfold purge_file. step. eapply runs_stop; [done|]. intros stop w1 Hl1 Hi1.
  step; [step; by eapply Inv_ended|]. step. step. step.
  eapply runs_io; [apply law_fstat|done|]. intros st w2 _ Hl2 Hi2. cbn zeta. step; [step|]. step.
  eapply runs_call; [apply law_statat|done|]. intros [st'|err] w3 _ Hl3 Hi3.
  - step; [by eapply runs_remove_root|step].
  - destruct err; first [by eapply runs_gone|step; eapply runs_renamed_away; [done|]; intros; step].
Qed.

(** ** The loop *)

Record active (n : Z) (e : TrashEntry) (w : OsWorld) (d : Dir) : Prop := {
  ac_inv : Inv n e w;
  ac_inside : inside w root (dir_ino d);
  ac_stack : te_stack e <> [] }.

Definition stepped (s : Step) (e : TrashEntry) (w : OsWorld) : Prop :=
  match s with Again d n => active n e w d | Return _ => Inv budget e w end.

Lemma active_later n e w w' d : later w w' -> active n e w d -> Inv n e w' -> active n e w' d.
Proof. intros Hl [] Hi. split; [done|by eapply inside_mono|done]. Qed.

Lemma runs_return (m : Sys TrashEntry bool) e w : runs m ended e w -> runs (Return <$> m) stepped e w.
Proof. intros Hm. change (runs (m ≫= fun b => mret (Return b)) stepped e w). step. by eapply runs_mono. Qed.

(** Go on with the next entry of the same directory. *)
Lemma runs_skip n c d e w :
  active n e w d -> runs (_ ← advance c; mret (Again d n)) stepped e w.
Proof.
  intros [Hi Hd Hs]. step. eapply runs_advance; [done..|]. intros l Hl Hi'. step. split; [done..|].
  cbn. intros ->. by destruct (te_stack e).
Qed.

Lemma runs_open_root deadline cancellable e w :
  Inv 0 e w -> te_stack e = [] -> runs (open_root_directory deadline cancellable) stepped e w.
Proof.
  intros Hi Hs. unfold open_root_directory. step. eapply runs_stop; [done|]. intros stop w1 Hl1 Hi1.
  step; [step; by eapply (Inv_ended _ false)|]. step. step. step. rewrite (iv_parent _ _ _ Hi), (iv_anchor _ _ _ Hi).
  eapply runs_call; [apply law_open_directory|done|]. intros [f|err] w2 E2 Hl2 Hi2.
  - step. eapply runs_io; [apply law_fstat|done|]. intros st w3 E3 Hl3 Hi3.
    step. eapply runs_io; [apply law_fstat|done|]. intros st' w4 E4 Hl4 Hi4. cbn zeta.
    step; [step|]. split_bool. step.
    eapply runs_io; [apply law_dir_new|done|]. intros dir w5 E5 Hl5 Hi5. step.
    eapply runs_reserve; [done|]. intros w6 Hl6 Hi6 Hlen. step. step. step.
    pose proof (law_fstat_number a w3 st') as Hn. rewrite E4 in Hn.
    assert (stat_number st = number root) as Hst.
    { rewrite <- Hn by done. apply same_number. unfold has_revision in *. split_bool. done. }
    rewrite Hs in *. split; [|  |by cbn].
    + apply Inv_with_stack; [done|cbn; lia|]. intros x [= <-]. by split.
    + pose proof (law_dir_ino f w4 dir) as Hd. rewrite E5 in Hd. rewrite Hd by done.
      rewrite (reopened_root w1 (te_name e) f w2 st (replacement_target_identity st) E2); [apply rtc_refl|by rewrite E3| |done].
      unfold has_revision. by apply bool_decide_eq_true.
  - destruct err; first [by eapply runs_return, runs_gone
      |step; eapply runs_call; [apply law_statat|done|]; intros [st|err] w3 _ Hl3 Hi3;
       [step|destruct err; first [by eapply runs_return, runs_gone|step]]].
Qed.

Lemma runs_unlink_pending n d completed e w :
  active n e w d -> (n < budget)%Z ->
  (forall b, pd_anchor completed = Some b -> inside w root (fd_ino b)) ->
  runs (unlink_pending d (n + 1) completed) stepped e w.
Proof.
  intros [Hi Hd Hs] Hn Hb. unfold unlink_pending. step. eapply runs_fd; [done|]. intros f Ef.
  destruct (pd_anchor completed) as [b|]; [|step]. specialize (Hb b eq_refl).
  step. eapply runs_io; [apply law_fstat|done|]. intros st w1 _ Hl1 Hi1. step; [step|]. step.
  assert (forall w', later w1 w' -> Inv n e w' -> active (n + 1) e w' d) as Hgo.
  { intros w' Hl' Hi'. split; [eapply Inv_mono; [|done]; lia| |done]. eapply inside_mono; [|done]. by eapply later_trans. }
  eapply runs_call; [apply law_statat|done|]. intros [st'|err] w2 _ Hl2 Hi2.
  2: destruct err; first [by step; apply Hgo|step].
  step; [step|]. step. eapply runs_isolate; [done|done|]. intros o e' w3 Hl3 Hi3 He Ho.
  assert (e' = e) as -> by (destruct He as [?|[_ ?]]; done).
  destruct o as [m|]; [|step; apply Hgo; [by eapply later_trans|done]]. step.
  assert (later w w3) as Hl by (do 3 (eapply later_trans; [done|]); apply later_refl).
  eapply runs_unlink; [done|done|by apply Ho| |].
  - right. rewrite Ef. split; by eapply inside_mono.
  - intros w4 Hl4 Hi4. step. split; [done| |done]. eapply inside_mono; [|done]. by eapply later_trans.
Qed.

Lemma runs_finish_root n completed e w : Inv n e w -> (n < budget)%Z -> runs (finish_root completed) ended e w.
Proof.
  intros Hi Hn. unfold finish_root. step. step. step.
  eapply runs_io; [apply law_fstat|done|]. intros st w1 _ Hl1 Hi1. step; [step|]. step.
  eapply runs_call; [apply law_statat|done|]. intros [st'|err] w2 _ Hl2 Hi2.
  - step; [by eapply runs_remove_root|step].
  - destruct err; first [by eapply runs_gone|step].
Qed.

Lemma root_frame_removelast e (l : list PurgeDirectory) x rest :
  root_frame_ok e l -> pop_back l = Some (x, rest) -> root_frame_ok e rest.
Proof.
  unfold pop_back. intros Hl. destruct l as [|y [|z l]]; [done|by intros [= <- <-]|].
  destruct (last _); [|done]. by intros [= <- <-].
Qed.

Lemma length_pop_back {A} (l : list A) x rest : pop_back l = Some (x, rest) -> length l = S (length rest).
Proof.
  unfold pop_back. destruct l as [|y l] using rev_ind; [done|]. rewrite last_snoc, removelast_last.
  intros [= <- <-]. rewrite length_app. cbn. lia.
Qed.

Lemma pop_back_Some {A} (l : list A) : l <> [] -> exists x rest, pop_back l = Some (x, rest).
Proof. unfold pop_back. intros Hl. destruct (last l) as [x|] eqn:E; [by eexists _, _|]. by apply last_None in E. Qed.

Lemma runs_finish_directory n d cancellable deadline e w :
  active n e w d -> (n < budget)%Z -> runs (finish_directory d n budget deadline cancellable) stepped e w.
Proof.
  intros [Hi Hd Hs] Hn. unfold finish_directory. step. step. cbn [compose]. step.
  eapply runs_update; [done|]. intros l w1 Hl1 Hlen Hi1. set (e1 := with_stack l e) in *. step.
  assert (l <> []) as Hl by (intros ->; by destruct (te_stack e)).
  eapply (runs_mono _ (fun o e' w' => e' = e1 /\ later w1 w' /\ Inv n e1 w' /\
    forall b, o = Some b -> fd_ino b = dir_ino d)).
  { step; [|step; split_and!; [done|apply later_refl|done|done]].
    step. eapply runs_fd; [done|]. intros f Ef. step. eapply runs_io; [apply law_dup|done|].
    intros g w2 E2 Hl2 Hi2. step. split_and!; [done..|]. intros b [= <-].
    pose proof (law_dup_ino f w1 g) as Hg. rewrite E2 in Hg. by rewrite Hg. }
  intros pending e2 w2 (-> & Hl2 & Hi2 & Hp). step. step. step. cbn [te_stack with_stack e1].
  destruct (pop_back_Some l Hl) as (x & rest & Ex). eapply runs_expect; [done|]. cbn beta iota. step. step.
  pose proof (length_pop_back _ _ _ Ex) as Hlr. pose proof (Inv_depth _ _ _ Hi) as Hdepth.
  assert (Inv n (with_stack rest e1) w2) as Hi3.
  { apply Inv_with_stack; [done|lia|]. eapply (root_frame_removelast _ l); [|done]. by apply (Inv_root_frame _ _ _ Hi2). }
  destruct rest as [|y rest]; [by eapply runs_return, runs_finish_root|].
  step. step. step. eapply runs_open_current; [|done|].
  { apply Inv_with_pending; [done|]. intros z b [= <-] Hb. cbn in Hb. rewrite (Hp b Hb).
    eapply inside_mono; [|done]. by eapply later_trans. }
  intros o n' r w3 Hl3 Hi4 Ho. step. destruct o as [d'|]; [|by eapply (Inv_ended _ false)].
  split; [done|by apply Ho|done].
Qed.

(** The entry grows by the frame of a child directory. *)
Lemma Inv_push n x e w :
  Inv n e w -> te_stack e <> [] -> length (te_stack e) < MAX_PURGE_STACK_DEPTH ->
  Inv n (with_stack (te_stack e ++ [x]) e) w.
Proof.
  intros Hi Hs Hl. apply Inv_with_stack; [done|rewrite length_app; cbn; lia|].
  destruct (te_stack e) as [|y l] eqn:E; [done|]. intros f [= <-].
  apply (Inv_root_frame _ _ _ Hi). by rewrite E.
Qed.

Lemma runs_enter_child n d f name c metadata e w :
  active n e w d -> fd_ino f = dir_ino d -> runs (enter_child d f name c metadata n) stepped e w.
Proof.
  intros Ha Ef. pose proof (ac_inv _ _ _ _ Ha) as Hi. unfold enter_child. step.
  eapply runs_reserve; [done|]. intros w1 Hl1 Hi1 Hlen. step.
  eapply runs_call; [apply law_open_directory|done|]. intros o w2 E2 Hl2 Hi2.
  assert (active n e w2 d) as Ha2 by (apply (active_later n e w); [by eapply later_trans|done|done]).
  assert (inside w2 root (fd_ino f)) as Hf by (rewrite Ef; apply Ha2).
  destruct o as [child|err].
  2: destruct err; first [by apply runs_skip
    |step; eapply runs_renamed_away; [done|]; intros away w3 Hl3 Hi3; step;
     [step|eapply runs_remember_throw; [done|]; rewrite <- Ef; by eapply inside_mono]].
  step. eapply runs_io; [apply law_fstat|done|]. intros st w3 _ Hl3 Hi3. step.
  eapply runs_call; [apply law_statat|done|]. intros [st'|err] w4 _ Hl4 Hi4; [|destruct err; step].
  step; [step|]. step. eapply runs_call; [apply law_dir_new|done|]. intros o w5 E5 Hl5 Hi5.
  assert (later w2 w5) as Hl25 by (do 3 (eapply later_trans; [done|]); apply later_refl).
  destruct o as [dir|err]; [|eapply runs_remember_throw; [done|]; rewrite <- Ef; by eapply inside_mono].
  step. eapply runs_advance; [done|apply Ha|]. intros l Hll Hi6. step. step. cbn [compose]. step.
  eapply runs_update; [done|]. intros l' w6 Hl6 Hll' Hi7. step. step. step.
  assert (l' <> []) as Hne.
  { intros ->. cbn in Hll'. rewrite Hll in Hll'. pose proof (ac_stack _ _ _ _ Ha) as Hs. by destruct (te_stack e). }
  split; [apply Inv_push; [done|done|cbn in *; lia]| |cbn; by destruct l'].
  pose proof (law_dir_ino child w4 dir) as Hd. rewrite E5 in Hd. rewrite Hd by done.
  apply (inside_mono w2); [by eapply later_trans|]. by eapply opened_inside.
Qed.

Lemma runs_remove_child n d f name c metadata e w :
  active n e w d -> (n + 1 <= budget)%Z -> fd_ino f = dir_ino d ->
  runs (remove_child d f name c metadata (n + 1)) stepped e w.
Proof.
  intros Ha Hn Ef. pose proof (ac_inv _ _ _ _ Ha) as Hi. unfold remove_child.
  assert (forall w', later w w' -> Inv (n + 1) e w' -> active (n + 1) e w' d) as Hgo.
  { intros w' Hl Hi'. split; [done| |apply Ha]. eapply inside_mono; [done|apply Ha]. }
  assert (forall w', Inv n e w' -> Inv (n + 1) e w') as Hmore by (intros; eapply Inv_mono; [|done]; lia).
  step. eapply runs_call; [apply law_open_path|done|]. intros o w1 E1 Hl1 Hi1.
  destruct o as [b|err]; [|destruct err; first [by apply runs_skip, Hgo, Hmore|step]].
  assert (inside w1 root (fd_ino b)) as Hb.
  { eapply inside_step; [eapply inside_mono; [exact Hl1|apply Ha]|]. rewrite <- Ef.
    pose proof (law_open_path_named f name w b) as Ho. rewrite E1 in Ho. by apply Ho. }
  step. eapply runs_io; [apply law_fstat|done|]. intros st w2 _ Hl2 Hi2. step.
  eapply runs_call; [apply law_statat|done|]. intros o w3 _ Hl3 Hi3.
  assert (later w1 w3) as Hl13 by by eapply later_trans. assert (later w w3) as Hl03 by by eapply later_trans.
  destruct o as [st'|err]; [|destruct err; first [by apply runs_skip, Hgo; [|apply Hmore]|step]].
  step; [step|]. step. eapply runs_isolate; [done|done|]. intros o e' w4 Hl4 Hi4 He Ho.
  assert (e' = e) as -> by (destruct He as [?|[_ ?]]; done).
  assert (later w w4) as Hl04 by by eapply later_trans.
  destruct o as [m|]; [|by apply runs_skip, Hgo; [|apply Hmore]]. step.
  eapply runs_unlink; [done|lia|by apply Ho| |].
  - right. rewrite Ef. split; [eapply inside_mono; [exact Hl04|apply Ha]|].
    eapply inside_mono; [|exact Hb]. by eapply later_trans.
  - intros w5 Hl5 Hi5. apply runs_skip, Hgo; [by eapply later_trans|done].
Qed.

Lemma runs_purge_child n d name c e w :
  active n e w d -> (n < budget)%Z -> runs (purge_child d name c n) stepped e w.
Proof.
  intros Ha Hn. unfold purge_child. step; [by apply runs_skip|]. step; [eapply runs_throw; apply Ha|].
  cbn zeta. step. eapply runs_fd; [apply Ha|]. intros f Ef. step.
  eapply runs_call; [apply law_statat|apply Ha|]. intros o w1 _ Hl1 Hi1.
  assert (active n e w1 d) as Ha1 by by eapply active_later.
  assert (active (n + 1) e w1 d) as Ha2.
  { destruct Ha1. split; [eapply Inv_mono; [|done]; lia|done|done]. }
  destruct o as [st|err]; [step; [by apply runs_enter_child|apply runs_remove_child; [done|lia|done]]|].
  destruct err; first [by apply runs_skip|by eapply runs_remember_throw; [apply Ha1|apply Ha1]].
Qed.

Lemma runs_purge_step n d cancellable deadline e w :
  active n e w d -> (n < budget)%Z -> runs (purge_step d n budget deadline cancellable) stepped e w.
Proof.
  intros Ha Hn. pose proof (ac_inv _ _ _ _ Ha) as Hi. unfold purge_step. step. step.
  destruct (te_pending e) as [x|] eqn:Ep.
  - step. step. apply runs_unlink_pending; [|done|].
    + destruct Ha. split; [by apply Inv_with_pending|done|done].
    + intros b Hb. rewrite <- (iv_anchor _ _ _ Hi). by eapply (eo_pending _ _ (iv_entry _ _ _ Hi)).
  - step. eapply runs_call; [apply law_dir_read|done|]. intros o w1 _ Hl1 Hi1.
    assert (active n e w1 d) as Ha1 by by eapply active_later.
    destruct o as [[[name c]|err]|]; [by apply runs_purge_child|eapply runs_remember_throw; apply Ha1
      |by apply runs_finish_directory].
Qed.

Lemma runs_purge_loop fuel n d cancellable deadline e w :
  active n e w d -> runs (purge_loop fuel d n budget deadline cancellable) ended e w.
Proof.
  revert n d e w. induction fuel as [|fuel IH]; intros n d e w Ha; cbn [purge_loop].
  { apply wps_out_of_fuel. eapply Inv_Safe, Ha. }
  step. eapply runs_over; [apply Ha|]. intros over w1 Hl1 Hi1 Hn.
  assert (active n e w1 d) as Ha1 by by eapply active_later.
  step.
  - step. step. step. eapply runs_remember; [done|apply Ha1|]. intros. step. by eapply Inv_ended.
  - step. eapply runs_mono; [apply runs_purge_step; [done|by apply Hn]|].
    intros [d' n'|b] e' w' Hs; [by apply IH|by step].
Qed.

Lemma runs_slice_blocking fuel cancellable deadline e w :
  Inv 0 e w -> (0 < budget)%Z -> runs (purge_slice_blocking fuel budget deadline cancellable) ended e w.
Proof.
  intros Hi Hb. unfold purge_slice_blocking. step. step. step; [by apply runs_purge_file|]. step. step.
  destruct (te_stack e) as [|x l] eqn:El.
  - step. eapply runs_mono; [by apply runs_open_root|]. intros [d n|b] e' w' Hs; [by apply runs_purge_loop|by step].
  - step. eapply runs_open_current; [done|by rewrite El|]. intros o n r w' Hl' Hi' Ho.
    destruct o as [d|]; [|step; by eapply Inv_ended].
    apply runs_purge_loop. split; [done|by apply Ho|cbn; by rewrite El].
Qed.

(** ** The slice as the worker runs it *)

Lemma Inv_rename_root n old m e w : Inv n e w -> Inv n (rename_root old m e) w.
Proof.
  intros Hi. unfold rename_root. apply Inv_with_stack.
  - by apply Inv_with_name.
  - pose proof (Inv_depth _ _ _ Hi). by destruct (te_stack e).
  - pose proof (Inv_root_frame _ _ _ Hi) as Hr. destruct (te_stack e) as [|x l]; [done|].
    intros f [= <-]. specialize (Hr x eq_refl). by destruct (bool_decide _).
Qed.

Lemma runs_quarantine_attempts k e w : Inv budget e w -> runs (quarantine_attempts k) ended e w.
Proof.
  revert w. induction k as [|k IH]; intros w Hi; cbn [quarantine_attempts]; [step|].
  step. step. step. eapply runs_ask; [apply law_new_v4|done|]. intros u w1 _ Hl1 Hi1. cbn zeta. step.
  eapply runs_call; [apply law_rename|done|]. intros o w2 _ Hl2 Hi2.
  destruct o as [[]|err].
  - step. step. eapply runs_io; [apply law_fsync|by apply Inv_rename_root|]. by intros.
  - destruct err; first [by apply IH|step|eapply runs_io; [apply law_fsync|done|by intros]].
Qed.

Lemma runs_quarantine e w : Inv budget e w -> runs quarantine_after_identity_error_blocking ended e w.
Proof.
  intros Hi. unfold quarantine_after_identity_error_blocking. step. step. step.
  - eapply runs_io; [apply law_fsync|done|by intros].
  - by apply runs_quarantine_attempts.
Qed.

Lemma runs_slice fuel max_entries max_duration e w :
  Inv 0 e w -> budget = Z.max max_entries 1 -> runs (purge_slice fuel max_entries max_duration) ended e w.
Proof.
  intros Hi Hb. unfold purge_slice, gated. step. eapply runs_ask; [apply law_gate|done|]. intros ok w1 _ Hl1 Hi1.
  step; [|step]. step. eapply runs_ask; [apply law_now|done|]. intros t w2 _ Hl2 Hi2. step.
  eapply (runs_mono _ (fun _ e' w' => Inv 0 e' w')).
  { destruct (instant_checked_add t max_duration); [by step|]. eapply runs_ask; [apply law_now|done|by intros]. }
  intros deadline e3 w3 Hi3. step. rewrite <- Hb.
  apply wps_attempt. eapply wps_mono; [apply (runs_slice_blocking fuel true deadline); [done|lia]| |done].
  intros [b|err] e4 w4; cbn [post]; intros Hi4; [by step|].
  destruct err; first [step; eapply runs_mono; [by apply runs_quarantine|]; intros; step|step].
Qed.
End safety.

(** ** What a slice does *)

Section theorems.
Context `{L : KernelLaws}.

Lemma Inv_start w e : entry_ok w e -> forall budget, (0 <= budget)%Z -> Inv w (te_parent e) (te_anchor e) budget 0 e w.
Proof.
  intros He budget Hb. split; [done..|]. split; [apply later_refl| |done]. exists [].
  split_and!; [by rewrite app_nil_r|constructor|done].
Qed.

(** C33. Purging removes only the trash entry.  Whatever other programs do to the tree
    in between, whichever calls fail or fail to report what they did, and wherever the
    process dies, every directory entry that a slice removes was isolated under a fresh
    quarantine name and is the pinned root of the trash entry, in its parent directory,
    or lies in the tree below that root; there are at most as many as the slice may
    examine; no [expect] fails, and what the slice hands back can be resumed. *)
Theorem purge_removes_only_trash fuel max_entries max_duration e w :
  entry_ok w e ->
  let '(o, e', w') := purge_slice fuel max_entries max_duration e w in
  (exists new, removed w' = removed w ++ new /\
     Forall (within w' (fd_ino (te_parent e)) (fd_ino (te_anchor e))) new /\
     (Z.of_nat (length new) <= Z.max max_entries 1)%Z) /\
  o <> Panicked /\
  (is_final o = true -> entry_ok w' e' /\ te_parent e' = te_parent e /\ te_anchor e' = te_anchor e).
Proof.
  intros He. set (b := Z.max max_entries 1).
  pose proof (runs_slice w (te_parent e) (te_anchor e) b fuel max_entries max_duration e w
    (Inv_start w e He b ltac:(lia)) eq_refl) as Hr.
  unfold runs, wps in Hr. destruct (purge_slice fuel max_entries max_duration e w) as [[o e'] w'].
  assert (purged w (te_parent e) (te_anchor e) b b w') as Hp.
  { destruct o; try done; apply (iv_purged _ _ _ _ _ _ _ Hr). }
  split_and!; [apply Hp|by destruct o|].
  destruct o; intros Ho; try done; cbn in Hr; destruct Hr; done.
Qed.
End theorems.
(** ** A run

    [/srv] holds a file and the trash directory [t] with a file [a] and a directory
    [sub] with a file [b]. *)

Import KernelMemory.

Definition entry (d o : Z) (n : string) (i : Z) : Entry := {| en_dir := d; en_offset := o; en_name := str n; en_object := i |}.
Definition tree : Memory :=
  {| m_entries := [entry 1 1 "keep" 2; entry 1 2 "t" 3; entry 3 3 "a" 4; entry 3 4 "sub" 5; entry 5 5 "b" 6];
     m_modes := [(1, 16877); (2, 33188); (3, 16877); (4, 33188); (5, 16877); (6, 33188)]%Z;
     m_versions := []; m_positions := []; m_next := 100; m_clock := 0; m_errors := []; m_seen := [];
     m_drawn := []; m_removed := []; m_changes := []; m_observed := []; m_opened := []; m_lost := 0 |}.
Definition trash : TrashEntry :=
  new_entry (1 : OwnedFd)%Z (str "t") (delete_identity_from_stat (stat_of tree 3)) (3 : OwnedFd)%Z
    (purge_revision sha256 (Existing (replacement_target_identity (stat_of tree 3)))).

(** The slices that follow one another. *)
Fixpoint slices (n : nat) (budget : Z) (e : TrashEntry) (m : Memory) : list (outcome bool) * list Z :=
  match n with
  | O => ([], rm_object <$> m_removed m)
  | S n =>
      match purge_slice 100 budget 1000 e m with
      | (o, e, m) => let '(os, l) := slices n budget e m in (o :: os, l)
      end
  end.

Lemma trash_ok : entry_ok tree trash.
Proof. by split; [|cbn; lia|..]. Qed.

Lemma purge_removes_only_trash_witness :
  slices 5 1 trash tree = ([Val false; Val false; Val false; Val false; Val true], [4; 6; 5; 3])%Z /\
  let '(o, e', w') := purge_slice 100 100 1000 trash tree in
  (exists new, removed w' = removed tree ++ new /\
     Forall (within w' (fd_ino (te_parent trash)) (fd_ino (te_anchor trash))) new /\
     (Z.of_nat (length new) <= Z.max 100 1)%Z) /\
  o <> Panicked /\
  (is_final o = true -> entry_ok w' e' /\ te_parent e' = te_parent trash /\ te_anchor e' = te_anchor trash).
Proof. split; [by vm_compute|]. apply (purge_removes_only_trash 100 100 1000 trash tree), trash_ok. Defined.
End TrashSafety.
