(* ===== verification/KernelMotion.v ===== *)
(** * Calls lead forward

    [WorldOrder R]: every descriptor call leads to a world that follows, in the preorder
    [R].  Then so does all of the purge code, whatever its state, and it ends apart from
    its one loop.  [R] is the order of the clock in [TrashReturns], and the growth of
    the histories in [MaintenanceSafety]. *)

From S2P Require Import Prelude RootedPaths PathPolicy FileRevision Kernel KernelLaws TrashPurge.

Create HintDb motion.

Class WorldOrder `{Kernel} (R : OsWorld -> OsWorld -> Prop) : Prop := {
  wo_preorder :: PreOrder R;
  wo_now : op_in R instant_now;
  wo_new_v4 : op_in R new_v4;
  wo_cancelled : op_in R is_cancelled;
  wo_reserve : op_in R try_reserve;
  wo_gate : op_in R gate_admits;
  wo_fsync f : op_in R (fsync f);
  wo_dup f : op_in R (dup f);
  wo_fstat f : op_in R (fstat f);
  wo_statat d n : op_in R (statat d n);
  wo_open_path d n : op_in R (openat_path d n);
  wo_open_directory d n : op_in R (openat2_directory d n);
  wo_rename d n d' n' : op_in R (renameat_noreplace d n d' n');
  wo_unlink d n f : op_in R (unlinkat d n f);
  wo_dir_new f : op_in R (dir_new f);
  wo_dir_read d : op_in R (dir_read d);
  wo_dir_seek d n : op_in R (dir_seek d n) }.
#[export] Hint Resolve wo_now wo_new_v4 wo_cancelled wo_reserve wo_gate wo_fsync wo_dup wo_fstat wo_statat
  wo_open_path wo_open_directory wo_rename wo_unlink wo_dir_new wo_dir_read wo_dir_seek : motion.

Module KernelMotion.

(** A computation that leads forward, whatever its state, and ends. *)
Definition forward `{Kernel} (R : OsWorld -> OsWorld -> Prop) {S A} (m : Sys S A) : Prop :=
  forall s w, let '(o, _, w') := m s w in o <> OutOfFuel /\ R w w'.

Section rules.
Context `{Kernel} (R : OsWorld -> OsWorld -> Prop) `{!PreOrder R} {S : Type}.

Lemma forward_ret {A} (a : A) : forward R (S := S) (mret a).
Proof. intros s w. by split. Qed.
Lemma forward_throw {A} e : forward R (S := S) (A := A) (throw e).
Proof. intros s w. by split. Qed.
Lemma forward_gets {A} (f : S -> A) : forward R (gets f).
Proof. intros s w. by split. Qed.
Lemma forward_get : forward R (S := S) get.
Proof. intros s w. by split. Qed.
Lemma forward_modify f : forward R (S := S) (modify f).
Proof. intros s w. by split. Qed.
Lemma forward_expect {A} (o : option A) : forward R (S := S) (expect o).
Proof. intros s w. by destruct o; split. Qed.
Lemma forward_of_result {A} (r : result Errno A) : forward R (S := S) (of_result r).
Proof. intros s w. by destruct r; split. Qed.
Lemma forward_of_io {A} (r : result IoError A) : forward R (S := S) (of_io r).
Proof. intros s w. by destruct r; split. Qed.

Lemma forward_then {A B} (m : Sys S A) (f : A -> Sys S B) : forward R m -> (forall a, forward R (f a)) -> forward R (m ≫= f).
Proof.
  intros Hm Hf s w. unfold mbind, Sys_bind. specialize (Hm s w).
  destruct (m s w) as [[[a|e| | |] s1] w1]; destruct Hm as [Ho Hc]; try done.
  specialize (Hf a s1 w1). destruct (f a s1 w1) as [[o s2] w2]. split; [apply Hf|by etrans; [|apply Hf]].
Qed.

Lemma forward_fmap {A B} (f : A -> B) (m : Sys S A) : forward R m -> forward R (f <$> m).
Proof. intros Hm. apply forward_then; [done|]. intros. apply forward_ret. Qed.

Lemma forward_call {A} (op : OsWorld -> option A * OsWorld) :
  op_in R op -> forward R (S := S) (call op).
Proof. intros Hop s w. unfold call. specialize (Hop w). destruct (op w) as [[]]; split; done. Qed.

Lemma forward_ask {A} (op : OsWorld -> A * OsWorld) :
  op_in R op -> forward R (S := S) (ask op).
Proof. intros Hop s w. unfold ask. specialize (Hop w). destruct (op w); split; done. Qed.

Lemma forward_io {A} (op : OsWorld -> option (result Errno A) * OsWorld) :
  op_in R op -> forward R (S := S) (io op).
Proof. intros Hop. apply forward_then; [by apply forward_call|]. intros. apply forward_of_result. Qed.

Lemma forward_attempt {A} (m : Sys S A) : forward R m -> forward R (attempt m).
Proof.
  intros Hm s w. unfold attempt. specialize (Hm s w).
  by destruct (m s w) as [[[a|e| | |] s1] w1]; destruct Hm.
Qed.
End rules.

Ltac forward_step :=
  lazymatch goal with
  | |- forward _ (_ ≫= _) => apply forward_then; try apply _; intros
  | |- forward _ (_ <$> _) => apply forward_fmap; try apply _
  | |- forward _ (mret _) => apply forward_ret; try apply _
  | |- forward _ (throw _) => apply forward_throw; try apply _
  | |- forward _ (gets _) => apply forward_gets; try apply _
  | |- forward _ get => apply forward_get; try apply _
  | |- forward _ (modify _) => apply forward_modify; try apply _
  | |- forward _ (expect _) => apply forward_expect; try apply _
  | |- forward _ (of_result _) => apply forward_of_result; try apply _
  | |- forward _ (of_io _) => apply forward_of_io; try apply _
  | |- forward _ (call _) => apply forward_call; eauto with motion typeclass_instances
  | |- forward _ (ask _) => apply forward_ask; eauto with motion typeclass_instances
  | |- forward _ (io _) => apply forward_io; eauto with motion typeclass_instances
  | |- forward _ (attempt _) => apply forward_attempt; try apply _
  | |- forward _ (match ?x with _ => _ end) => destruct x
  | |- _ => solve [eauto with motion typeclass_instances]
  end.
Ltac forward_auto := cbv beta zeta; repeat (forward_step; cbv beta zeta).

Section motion.
Context `{Kernel} (R : OsWorld -> OsWorld -> Prop) `{!WorldOrder R}.

Lemma forward_isolate {S} k (publish : bytes -> S -> S) parent name anchor :
  forward R (isolate_attempts k publish parent name anchor).
Proof. induction k; cbn [isolate_attempts]; forward_auto. Qed.
Hint Resolve forward_isolate : motion.

Lemma forward_unlink_isolated {S} parent name flag : forward R (S := S) (unlink_isolated parent name flag).
Proof. unfold unlink_isolated. forward_auto. Qed.
Lemma forward_cancelled {S} c : forward R (S := S) (cancelled c).
Proof. unfold cancelled. forward_auto. Qed.
Lemma forward_past {S} d : forward R (S := S) (past d).
Proof. unfold past. forward_auto. Qed.
Hint Resolve forward_unlink_isolated forward_cancelled forward_past : motion.

Lemma forward_over {S} c n b d : forward R (S := S) (slice_over c n b d).
Proof. unfold slice_over. forward_auto. Qed.
Lemma forward_stop {S} c d : forward R (S := S) (stop_requested c d).
Proof. unfold stop_requested. forward_auto. Qed.
Lemma forward_update directory depth : forward R (update_purge_directory_revision directory depth).
Proof. unfold update_purge_directory_revision, fd_of. forward_auto. Qed.
Hint Resolve forward_over forward_stop forward_update : motion.
Lemma forward_remember directory depth : forward R (remember_purge_directory directory depth).
Proof. unfold remember_purge_directory, retain_purge_directory, fd_of. forward_auto. Qed.
Hint Resolve forward_remember : motion.
Lemma forward_remember_throw {A} directory e : forward R (A := A) (remember_and_throw directory e).
Proof. unfold remember_and_throw. forward_auto. Qed.
Lemma forward_reserve : forward R reserve_purge_directory_slot.
Proof. unfold reserve_purge_directory_slot. forward_auto. Qed.
Lemma forward_away {S} parent name x : forward R (S := S) (renamed_away parent name x).
Proof. unfold renamed_away. forward_auto. Qed.
Lemma forward_advance c : forward R (advance c).
Proof. unfold advance. forward_auto. Qed.
Lemma forward_gone parent : forward R (gone parent).
Proof. unfold gone. forward_auto. Qed.
Hint Resolve forward_remember_throw forward_reserve forward_away forward_advance forward_gone : motion.

Lemma forward_descend rest current depth n b d c : forward R (descend rest current depth n b d c).
Proof. revert current depth n. induction rest; intros; cbn [descend]; forward_auto. Qed.
Lemma forward_resume k : forward R (resume_point k).
Proof. unfold resume_point. forward_auto. Qed.
Hint Resolve forward_descend forward_resume : motion.
Lemma forward_open_current n b d c : forward R (open_current_purge_directory n b d c).
Proof. unfold open_current_purge_directory. forward_auto. Qed.
Lemma forward_remove_root flag : forward R (remove_root flag).
Proof. unfold remove_root, isolate_anchored_entry_for_unlink. forward_auto. Qed.
Hint Resolve forward_open_current forward_remove_root : motion.

Lemma forward_purge_file d c : forward R (purge_file d c).
Proof. unfold purge_file. forward_auto. Qed.
Lemma forward_open_root d c : forward R (open_root_directory d c).
Proof. unfold open_root_directory. forward_auto. Qed.
Lemma forward_unlink_pending d n x : forward R (unlink_pending d n x).
Proof. unfold unlink_pending, fd_of, isolate_anchored_entry_for_unlink. forward_auto. Qed.
Lemma forward_finish_root x : forward R (finish_root x).
Proof. unfold finish_root. forward_auto. Qed.
Hint Resolve forward_purge_file forward_open_root forward_unlink_pending forward_finish_root : motion.
Lemma forward_finish_directory x n b d c : forward R (finish_directory x n b d c).
Proof. unfold finish_directory, fd_of. forward_auto. Qed.
Lemma forward_enter_child x f n k m i : forward R (enter_child x f n k m i).
Proof. unfold enter_child. forward_auto. Qed.
Lemma forward_remove_child x f n k m i : forward R (remove_child x f n k m i).
Proof. unfold remove_child, isolate_anchored_entry_for_unlink. forward_auto. Qed.
Hint Resolve forward_finish_directory forward_enter_child forward_remove_child : motion.
Lemma forward_purge_child x n k i : forward R (purge_child x n k i).
Proof. unfold purge_child, fd_of. forward_auto. Qed.
Hint Resolve forward_purge_child : motion.
Lemma forward_purge_step x n b d c : forward R (purge_step x n b d c).
Proof. unfold purge_step. forward_auto. Qed.
Lemma forward_quarantine : forward R quarantine_after_identity_error_blocking.
Proof.
  assert (forall k, forward R (quarantine_attempts k)) by (induction k; cbn [quarantine_attempts]; forward_auto).
  unfold quarantine_after_identity_error_blocking. forward_auto.
Qed.
Hint Resolve forward_purge_step forward_quarantine : motion.


(** The loop too, if it ends. *)
Definition moves {S A} (m : Sys S A) : Prop := forall s w, R w (m s w).2.

Lemma forward_moves {S A} (m : Sys S A) : forward R m -> moves m.
Proof. intros Hm s w. specialize (Hm s w). by destruct (m s w) as [[o s'] w']; destruct Hm. Qed.
Lemma moves_bind {S A B} (m : Sys S A) (f : A -> Sys S B) : moves m -> (forall a, moves (f a)) -> moves (m ≫= f).
Proof.
  intros Hm Hf s w. specialize (Hm s w). unfold mbind, Sys_bind.
  destruct (m s w) as [[[a|e| | |] s1] w1]; try done. etrans; [exact Hm|apply Hf].
Qed.
Lemma moves_attempt {S A} (m : Sys S A) : moves m -> moves (attempt m).
Proof. intros Hm s w. specialize (Hm s w). unfold attempt. by destruct (m s w) as [[[a|e| | |] s1] w1]. Qed.

Lemma loop_moves fuel dir n b d c : moves (purge_loop fuel dir n b d c).
Proof.
  revert dir n. induction fuel as [|fuel IH]; intros dir n; cbn [purge_loop]; [by intros s w|].
  apply moves_bind; [apply forward_moves; forward_auto|]. intros []; [apply forward_moves; forward_auto|].
  apply moves_bind; [apply forward_moves; forward_auto|]. intros []; [apply IH|apply forward_moves; forward_auto].
Qed.

Lemma slice_moves fuel b d : moves (purge_slice fuel b d).
Proof.
  unfold purge_slice, gated. apply moves_bind; [apply forward_moves; forward_auto|].
  intros []; [|apply forward_moves; forward_auto].
  apply moves_bind; [apply forward_moves; forward_auto|]. intros t.
  apply moves_bind; [apply forward_moves; forward_auto|]. intros deadline.
  apply moves_bind; [apply moves_attempt; unfold purge_slice_blocking|intros; apply forward_moves; forward_auto].
  apply moves_bind; [apply forward_moves; forward_auto|]. intros is_dir. destruct (negb is_dir); [apply forward_moves; forward_auto|].
  apply moves_bind; [apply forward_moves; forward_auto|]. intros stack.
  destruct stack; (apply moves_bind; [apply forward_moves; forward_auto|]); [intros []|intros [[] ]];
    first [apply loop_moves|apply forward_moves; forward_auto].
Qed.
End motion.
#[export] Hint Resolve forward_isolate forward_unlink_isolated forward_cancelled forward_past forward_over forward_stop forward_update forward_remember forward_remember_throw forward_reserve forward_away forward_advance forward_gone forward_descend forward_resume forward_open_current forward_remove_root forward_purge_file forward_open_root forward_unlink_pending forward_finish_root forward_finish_directory forward_enter_child forward_remove_child forward_purge_child forward_purge_step forward_quarantine : motion.
End KernelMotion.
