(* ===== verification/TrashReturns.v ===== *)
(** * Slices end

    A slice stops at its deadline: [ClockLaws] says that time passes, one nanosecond
    at least from one reading of the clock to the next, and that no call sets it back.
    A slice then reads the clock at most once per nanosecond of its duration, which is
    the fuel it needs. *)

From S2P Require Import Prelude RootedPaths PathPolicy FileRevision Kernel KernelLaws KernelMemory TrashPurge TrashSafety KernelMotion.

Create HintDb clock.

Module TrashReturns.
Import TrashSafety KernelMotion.

Class ClockLaws `{Kernel} : Type := {
  clock_at : OsWorld -> Z;
  tick_now w : (clock_at w < clock_at (instant_now w).2)%Z /\ (instant_now w).1 = clock_at (instant_now w).2;
  pass_new_v4 w : (clock_at w <= clock_at (new_v4 w).2)%Z;
  pass_cancelled w : (clock_at w <= clock_at (is_cancelled w).2)%Z;
  pass_reserve w : (clock_at w <= clock_at (try_reserve w).2)%Z;
  pass_gate w : (clock_at w <= clock_at (gate_admits w).2)%Z;
  pass_fsync f w : (clock_at w <= clock_at (fsync f w).2)%Z;
  pass_dup f w : (clock_at w <= clock_at (dup f w).2)%Z;
  pass_fstat f w : (clock_at w <= clock_at (fstat f w).2)%Z;
  pass_statat d n w : (clock_at w <= clock_at (statat d n w).2)%Z;
  pass_open_path d n w : (clock_at w <= clock_at (openat_path d n w).2)%Z;
  pass_open_directory d n w : (clock_at w <= clock_at (openat2_directory d n w).2)%Z;
  pass_rename d n d' n' w : (clock_at w <= clock_at (renameat_noreplace d n d' n' w).2)%Z;
  pass_unlink d n f w : (clock_at w <= clock_at (unlinkat d n f w).2)%Z;
  pass_dir_new f w : (clock_at w <= clock_at (dir_new f w).2)%Z;
  pass_dir_read d w : (clock_at w <= clock_at (dir_read d w).2)%Z;
  pass_dir_seek d n w : (clock_at w <= clock_at (dir_seek d n w).2)%Z }.
#[export] Hint Resolve pass_new_v4 pass_cancelled pass_reserve pass_gate pass_fsync pass_dup pass_fstat pass_statat
  pass_open_path pass_open_directory pass_rename pass_unlink pass_dir_new pass_dir_read pass_dir_seek : clock.

(** Time passes. *)
Definition clock_le `{ClockLaws} (w w' : OsWorld) : Prop := (clock_at w <= clock_at w')%Z.
#[export] Instance clock_order `{ClockLaws} : WorldOrder clock_le.
Proof.
  split; unfold op_in, clock_le; auto with clock.
  - split; [intros w; lia|intros w1 w2 w3; lia].
  - intros w. pose proof (tick_now w). lia.
Qed.

Ltac clock_lia := unfold clock_le in *; lia.

Section returns.
Context `{ClockLaws}.
Abbreviation ends := (forward clock_le).

(** ** The loop *)

(** The loop goes on only if the clock was read and the deadline is still ahead. *)
Lemma over_ticks {S} c n b d (s : S) w s' w' :
  slice_over c n b d s w = (Val false, s', w') -> (clock_at w < clock_at w' < d)%Z.
Proof.
  unfold slice_over, mbind at 1, Sys_bind at 1. pose proof (forward_cancelled clock_le (S := S) c s w) as Hc.
  destruct (cancelled c s w) as [[[[]|e| | |] s1] w1]; try done. destruct (b <=? n)%Z; [done|].
  unfold past, mbind, Sys_bind, ask. pose proof (tick_now w1) as [Ht Et]. destruct (instant_now w1) as [t w2].
  cbn in *. intros [= Hd -> ->]. apply Z.leb_gt in Hd. clock_lia.
Qed.

(** Ends as long as the fuel covers the time that is left. *)
Definition ends_by {A} (deadline : Z) (fuel : nat) (m : Sys TrashEntry A) : Prop :=
  forall e w, 0 < fuel -> (deadline - clock_at w < Z.of_nat fuel)%Z ->
    let '(o, _, w') := m e w in o <> OutOfFuel /\ (clock_at w <= clock_at w')%Z.

Lemma ends_ends_by {A} d fuel (m : Sys TrashEntry A) : ends m -> ends_by d fuel m.
Proof. intros Hm e w _ _. apply Hm. Qed.

Lemma ends_by_bind {A B} d fuel (m : Sys TrashEntry A) (f : A -> Sys TrashEntry B) :
  ends m -> (forall a, ends_by d fuel (f a)) -> ends_by d fuel (m ≫= f).
Proof.
  intros Hm Hf e w Hn Hd. unfold mbind, Sys_bind. specialize (Hm e w).
  destruct (m e w) as [[[a|x| | |] e1] w1]; destruct Hm as [Ho Hc]; try done.
  specialize (Hf a e1 w1 Hn ltac:(clock_lia)). destruct (f a e1 w1) as [[o e2] w2]. split; [apply Hf|]. clock_lia.
Qed.

(** The same from a later moment. *)
Lemma ends_from {A} d fuel (m : Sys TrashEntry A) e1 w1 w :
  ends_by d fuel m -> 0 < fuel -> (d - clock_at w1 < Z.of_nat fuel)%Z -> (clock_at w <= clock_at w1)%Z ->
  let '(o, _, w') := m e1 w1 in o <> OutOfFuel /\ (clock_at w <= clock_at w')%Z.
Proof.
  intros Hm Hn Hd Hc. specialize (Hm e1 w1 Hn Hd). destruct (m e1 w1) as [[o e2] w2].
  split; [apply Hm|]. clock_lia.
Qed.

Lemma loop_ends fuel dir n b d c : ends_by d fuel (purge_loop fuel dir n b d c).
Proof.
  revert dir n. induction fuel as [|fuel IH]; intros dir n e w Hn Hd; [clock_lia|]. cbn [purge_loop].
  unfold mbind at 1, Sys_bind at 1. pose proof (forward_over clock_le (S := TrashEntry) c n b d e w) as Ho.
  destruct (slice_over c n b d e w) as [[o e1] w1] eqn:E. destruct Ho as [Ho Hc].
  destruct o as [[]|x| | |]; try done.
  - apply (ends_from d (S fuel)); [|clock_lia|clock_lia|done]. apply ends_ends_by. forward_auto.
  - apply over_ticks in E as [Ht Hl]. apply (ends_from d fuel); [|clock_lia|clock_lia|clock_lia].
    apply ends_by_bind; [forward_auto|]. intros []; [apply IH|apply ends_ends_by; forward_auto].
Qed.

Lemma slice_blocking_ends fuel b d c : ends_by d fuel (purge_slice_blocking fuel b d c).
Proof.
  unfold purge_slice_blocking. apply ends_by_bind; [forward_auto|]. intros is_dir.
  destruct (negb is_dir); [apply ends_ends_by; forward_auto|].
  apply ends_by_bind; [forward_auto|]. intros stack. destruct stack.
  - apply ends_by_bind; [forward_auto|]. intros []; [apply loop_ends|apply ends_ends_by; forward_auto].
  - apply ends_by_bind; [forward_auto|]. intros [[] ]; [apply loop_ends|apply ends_ends_by; forward_auto].
Qed.

Lemma slice_ends fuel b d :
  (0 <= d < Z.of_nat fuel)%Z -> forall e w, (purge_slice fuel b d e w).1.1 <> OutOfFuel.
Proof.
  intros Hd e w. unfold purge_slice, gated, mbind at 1, Sys_bind at 1. cbn [ask].
  pose proof (pass_gate w) as Hg. unfold ask. destruct (gate_admits w) as [[] w1]; [|done].
  unfold mbind at 1, Sys_bind at 1. pose proof (tick_now w1) as [_ Ht]. destruct (instant_now w1) as [t w2].
  cbn in Ht. subst t. set (dl := match instant_checked_add _ _ with Some _ => _ | None => _ end).
  assert (forall e, exists t w3, dl e w2 = (Val t, e, w3) /\ (clock_at w2 <= clock_at w3)%Z /\ (t - clock_at w3 < Z.of_nat fuel)%Z)
    as Hdl.
  { intros e'. unfold dl, instant_checked_add. destruct (_ <=? _)%Z.
    - exists (clock_at w2 + d)%Z, w2. split; [done|]. clock_lia.
    - unfold ask. pose proof (tick_now w2) as [Hlt Ht]. destruct (instant_now w2) as [t w3]. cbn in *. subst t.
      exists (clock_at w3), w3. split; [done|]. clock_lia. }
  destruct (Hdl e) as (t & w3 & Et & Hc & Hl). unfold mbind at 1, Sys_bind at 1. rewrite Et.
  unfold mbind at 1, Sys_bind at 1, attempt.
  pose proof (slice_blocking_ends fuel (Z.max b 1) t true e w3 ltac:(clock_lia) ltac:(clock_lia)) as Hs.
  destruct (purge_slice_blocking fuel (Z.max b 1) t true e w3) as [[[x|x| | |] e4] w4]; [done| |done|done|by destruct Hs].
  destruct x; try done. pose proof (forward_quarantine clock_le e4 w4) as Hq. unfold mbind, Sys_bind.
  by destruct (quarantine_after_identity_error_blocking e4 w4) as [[[y|y| | |] e5] w5]; destruct Hq.
Qed.
End returns.

(** C34. A slice ends.  With one unit of fuel for every nanosecond of its duration, a
    slice of a well-formed entry returns a value or an error, unless the process dies:
    it does not run out of fuel and does not panic. *)
Theorem purge_slice_returns `{L : KernelLaws} `{!ClockLaws} fuel max_entries max_duration e w :
  entry_ok w e -> (0 <= max_duration < Z.of_nat fuel)%Z ->
  is_final (purge_slice fuel max_entries max_duration e w).1.1 = true \/
  (purge_slice fuel max_entries max_duration e w).1.1 = Crashed.
Proof.
  intros He Hf. pose proof (slice_ends fuel max_entries max_duration Hf e w) as Ho.
  pose proof (runs_slice w (te_parent e) (te_anchor e) (Z.max max_entries 1) fuel max_entries max_duration e w
    (Inv_start w e He (Z.max max_entries 1) ltac:(lia)) eq_refl) as Hr. unfold runs, wps in Hr.
  destruct (purge_slice fuel max_entries max_duration e w) as [[[] ?] ?]; cbn in *; auto.
Qed.

Import KernelMemory.

#[export] Instance memory_clock : ClockLaws.
Proof.
  refine {| clock_at := m_clock |}; cbn; intros; try lia.
  all: unfold stat_entry, stat_object, make_entry, rename_entry, unlink_entry, read_entry; repeat case_match; cbn in *; lia.
Defined.

Lemma purge_slice_returns_witness :
  (purge_slice 100 2 50 trash tree).1.1 = Val false /\
  (is_final (purge_slice 100 2 50 trash tree).1.1 = true \/ (purge_slice 100 2 50 trash tree).1.1 = Crashed).
Proof.
  split; [by vm_compute|]. apply (purge_slice_returns 100 2 50 trash tree); [apply trash_ok|]. lia.
Defined.
End TrashReturns.
