(* ===== verification/RootedParents.v ===== *)
(** * Parent directories

    How [server/rooted_fs.rs] reaches the directory that holds a path's last name:
    every component is opened below the shared root, missing ones are created when
    the caller asks for it, and created ones are removed again, as long as they are
    still the created ones and empty, when the request fails later. *)

From S2P Require Import Prelude Paths PathKeys RootedPaths FileRevision Kernel.

Import RootedPaths.

Section parents.
Context `{Kernel} {S : Type}.

Record CreatedAncestor : Type := { ca_path : bytes; ca_identity : FileIdentity }.

Record OpenedParent : Type := {
  op_fd : OwnedFd;
  op_name : bytes;
  op_created : list CreatedAncestor }.

Definition open_directory_from_root (relative : bytes) : Sys S OwnedFd :=
  io (openat2_beneath root_fd (if bool_decide (relative = []) then DOT else relative)).

(** The components of a path above its last name, which must all be ordinary. *)
Definition parent_components (path : bytes) : Sys S (list Component * bytes) :=
  relative ← of_io (relative_path root_path path);
  match last relative with
  | Some (Normal name) => mret (removelast relative, name)
  | _ => throw OtherIo
  end.

(** ** Without creating anything *)

Fixpoint open_existing (components : list Component) (current : OwnedFd) (prefix : bytes) : Sys S OwnedFd :=
  match components with
  | [] => mret current
  | Normal component :: rest =>
      let prefix := push prefix component in
      next ← open_directory_from_root prefix;
      open_existing rest next prefix
  | _ :: _ => throw InvalidInput
  end.

(** [open_parent_blocking(path, false)] *)
Definition open_parent (path : bytes) : Sys S OpenedParent :=
  '(components, name) ← parent_components path;
  current ← io (dup root_fd);
  current ← open_existing components current [];
  mret {| op_fd := current; op_name := name; op_created := [] |}.

(** ** Creating and rolling back ancestors *)

Definition stat_identity (st : Stat) : FileIdentity := {| device := st_dev st; inode := st_ino st |}.

Definition not_found (e : IoError) : bool := match e with NotFound | NotADirectory => true | _ => false end.

Fixpoint rollback_loop (created : list CreatedAncestor) : Sys S unit :=
  match created with
  | [] => mret tt
  | ancestor :: rest =>
      opened ← attempt (open_parent (ca_path ancestor));
      match opened : result IoError OpenedParent with
      | Err e => if not_found e then rollback_loop rest else throw e
      | Ok parent =>
          current ← call (statat (op_fd parent) (op_name parent));
          match current : result Errno Stat with
          | Err NOENT => rollback_loop rest
          | Err e => throw (of_errno e)
          | Ok current =>
              if negb (bool_decide (from_raw_mode (st_mode current) = Directory))
                 || negb (bool_decide (stat_identity current = ca_identity ancestor))
              then mret tt
              else
                gone ← call (unlinkat (op_fd parent) (op_name parent) AtRemoveDir);
                match gone : result Errno unit with
                | Ok _ => _ ← io (fsync (op_fd parent)); rollback_loop rest
                | Err NOENT => rollback_loop rest
                | Err NOTEMPTY | Err EXIST => mret tt
                | Err e => throw (of_errno e)
                end
          end
      end
  end.
Definition rollback_created_ancestors_blocking (created : list CreatedAncestor) : Sys S unit :=
  rollback_loop (reverse created).

(** [let _ = self.rollback_created_ancestors_blocking(..)] before an error. *)
Definition rollback_and_throw {A} (created : list CreatedAncestor) (e : IoError) : Sys S A :=
  _ ← attempt (rollback_created_ancestors_blocking created); throw e.

(** [mkdirat], made durable; the value says whether this call created it. *)
Definition make_directory (current : OwnedFd) (component : bytes) (created : list CreatedAncestor)
    : Sys S bool :=
  made ← call (mkdirat current component);
  match made : result Errno unit with
  | Ok _ =>
      synced ← call (fsync current);
      match synced : result Errno unit with
      | Ok _ => mret true
      | Err e => _ ← call (unlinkat current component AtRemoveDir); rollback_and_throw created (of_errno e)
      end
  | Err EXIST =>
      synced ← call (fsync current);
      match synced : result Errno unit with
      | Ok _ => mret false
      | Err e => rollback_and_throw created (of_errno e)
      end
  | Err e => rollback_and_throw created (of_errno e)
  end.

Definition identify_created (current : OwnedFd) (component : bytes) (created : list CreatedAncestor)
    : Sys S FileIdentity :=
  found ← call (statat current component);
  match found : result Errno Stat with
  | Ok metadata =>
      if bool_decide (from_raw_mode (st_mode metadata) = Directory) then mret (stat_identity metadata)
      else _ ← call (unlinkat current component AtRemoveDir); rollback_and_throw created InvalidData
  | Err e => _ ← call (unlinkat current component AtRemoveDir); rollback_and_throw created (of_errno e)
  end.

Definition create_ancestor (current : OwnedFd) (component prefix : bytes) (created : list CreatedAncestor)
    : Sys S (OwnedFd * list CreatedAncestor) :=
  created_here ← make_directory current component created;
  created_identity ←
    (if created_here : bool then Some <$> identify_created current component created else mret None);
  reopened ← attempt (open_directory_from_root prefix);
  match reopened : result IoError OwnedFd with
  | Ok current =>
      mret (current, created ++ match created_identity with
                                | Some i => [{| ca_path := push root_path prefix; ca_identity := i |}]
                                | None => []
                                end)
  | Err e =>
      _ ← (if created_here : bool then
             above ← attempt (open_directory_from_root (default [] (parent prefix)));
             match above : result IoError OwnedFd with
             | Ok above => _ ← call (unlinkat above component AtRemoveDir); _ ← call (fsync above); mret tt
             | Err _ => mret tt
             end
           else mret tt);
      rollback_and_throw created e
  end.

Fixpoint open_creating (components : list Component) (current : OwnedFd) (prefix : bytes)
    (created : list CreatedAncestor) : Sys S (OwnedFd * list CreatedAncestor) :=
  match components with
  | [] => mret (current, created)
  | Normal component :: rest =>
      let prefix := push prefix component in
      opened ← attempt (open_directory_from_root prefix);
      match opened : result IoError OwnedFd with
      | Ok next => open_creating rest next prefix created
      | Err NotFound =>
          '(next, created) ← create_ancestor current component prefix created;
          open_creating rest next prefix created
      | Err e => rollback_and_throw created e
      end
  | _ :: _ => throw InvalidInput
  end.

(** [open_parent_blocking(path, true)] *)
Definition open_parent_creating (path : bytes) : Sys S OpenedParent :=
  '(components, name) ← parent_components path;
  current ← io (dup root_fd);
  '(current, created) ← open_creating components current [] [];
  mret {| op_fd := current; op_name := name; op_created := created |}.

Definition open_parent_blocking (path : bytes) (create_ancestors : bool) : Sys S OpenedParent :=
  if create_ancestors then open_parent_creating path else open_parent path.
End parents.
