(* ===== verification/TrashMoves.v ===== *)
(** * Moving entries to the trash, and back out of its reach

    The deletion operations of [server/rooted_fs.rs]: the checked rename of a target
    to its trash name, the quarantine of a trash entry nobody can vouch for, and the
    capture of a trash entry for purging. *)

From S2P Require Import Prelude Paths RootedPaths PathPolicy FileRevision Kernel TrashPurge RootedParents.

Import RootedPaths PathPolicy.

Section moves.
Context `{Kernel}.

Inductive CheckedTrashMove : Type :=
| Moved (entry : TrashEntry) | TargetChanged | NotMoved (e : IoError) | DurabilityUnknown (e : IoError).

Definition trash_path_for_id (path trash_id : bytes) : result IoError bytes :=
  _ ← relative_path root_path path;
  above ← ok_or (parent path) InvalidInput;
  Ok (push above (delete_trash_name hyphenated trash_id)).

Section state.
Context {S : Type}.

Definition delete_identity (path : bytes) : Sys S DeleteIdentity :=
  gated (
    parent ← open_parent_blocking path false;
    metadata ← io (statat (op_fd parent) (op_name parent));
    mret (delete_identity_from_stat metadata)).

Definition replacement_identity (path : bytes) : Sys S ReplacementTargetIdentity :=
  gated (
    opened ← attempt (open_parent_blocking path false);
    match opened : result IoError OpenedParent with
    | Err NotFound => mret Missing
    | Err e => throw e
    | Ok parent =>
        found ← call (statat (op_fd parent) (op_name parent));
        match found : result Errno Stat with
        | Ok metadata => mret (Existing (replacement_target_identity metadata))
        | Err NOENT => mret Missing
        | Err e => throw (of_errno e)
        end
    end).

(** ** The checked rename *)

Definition delete_identity_at (parent : OwnedFd) (name : bytes) : Sys S (result IoError (option DeleteIdentity)) :=
  found ← call (statat parent name);
  mret (match found : result Errno Stat with
        | Ok metadata => Ok (Some (delete_identity_from_stat metadata))
        | Err NOENT => Ok None
        | Err e => Err (of_errno e)
        end).

Definition classify_failed_checked_trash_rename (parent : OwnedFd) (source_name trash_name : bytes)
    (expected : DeleteIdentity) (rename_error : IoError) : Sys S CheckedTrashMove :=
  source ← delete_identity_at parent source_name;
  trash ← delete_identity_at parent trash_name;
  mret (if match source with Ok (Some i) => bool_decide (i = expected) | _ => false end
           && match trash with Ok i => negb (bool_decide (i = Some expected)) | Err _ => false end
        then NotMoved rename_error else DurabilityUnknown rename_error).

(** An error after the rename: the parent is synchronised, its outcome ignored. *)
Definition unverified (parent : OwnedFd) : Sys S CheckedTrashMove :=
  _ ← call (fsync parent); mret (DurabilityUnknown InvalidData).

(** After the rename: the trash name must mean what was pinned. *)
Definition verify_moved (parent : OwnedFd) (name : bytes) (expected : DeleteIdentity) (root_anchor : OwnedFd)
    : Sys S CheckedTrashMove :=
  anchored ← call (fstat root_anchor);
  match anchored : result Errno Stat with
  | Err _ => unverified parent
  | Ok anchored_metadata =>
      moved ← call (statat parent name);
      match moved : result Errno Stat with
      | Err _ => unverified parent
      | Ok moved_metadata =>
          if negb (bool_decide (delete_identity_from_stat moved_metadata = expected))
             || negb (bool_decide (replacement_target_identity moved_metadata
                                   = replacement_target_identity anchored_metadata))
          then unverified parent
          else
            synced ← call (fsync parent);
            match synced : result Errno unit with
            | Err e => mret (DurabilityUnknown (of_errno e))
            | Ok _ =>
                mret (Moved (new_entry parent name (delete_identity_from_stat moved_metadata) root_anchor
                       (purge_revision sha256 (Existing (replacement_target_identity anchored_metadata)))))
            end
      end
  end.

(** Errors that mean the target is no longer there. *)
Definition missing_errno (e : Errno) : bool := match e with NOENT | NOTDIR => true | _ => false end.
Definition classify_errno (e : Errno) : CheckedTrashMove :=
  if missing_errno e then TargetChanged else NotMoved (of_errno e).

(** Pin the target and check that it is still the expected one. *)
Definition rename_checked (parent : OpenedParent) (name : bytes) (expected : DeleteIdentity)
    (expected_revision_identity : option ReplacementTargetIdentity) : Sys S CheckedTrashMove :=
  found ← call (statat (op_fd parent) (op_name parent));
  match found : result Errno Stat with
  | Err e => mret (classify_errno e)
  | Ok metadata =>
      let actual_revision_identity := Existing (replacement_target_identity metadata) in
      if negb (bool_decide (delete_identity_from_stat metadata = expected))
         || match expected_revision_identity with
            | Some e => negb (bool_decide (e = actual_revision_identity))
            | None => false
            end
      then mret TargetChanged
      else
        anchored ← call (openat_path (op_fd parent) (op_name parent));
        match anchored : result Errno OwnedFd with
        | Err e => mret (classify_errno e)
        | Ok root_anchor =>
            opened ← call (fstat root_anchor);
            match opened : result Errno Stat with
            | Err e => mret (NotMoved (of_errno e))
            | Ok opened =>
                named ← call (statat (op_fd parent) (op_name parent));
                match named : result Errno Stat with
                | Err e => mret (classify_errno e)
                | Ok named =>
                    if negb (bool_decide (Existing (replacement_target_identity opened) = actual_revision_identity))
                       || negb (bool_decide (replacement_target_identity named = replacement_target_identity opened))
                    then mret TargetChanged
                    else
                      renamed ← call (renameat_noreplace (op_fd parent) (op_name parent) (op_fd parent) name);
                      match renamed : result Errno unit with
                      | Err e =>
                          classify_failed_checked_trash_rename (op_fd parent) (op_name parent) name expected
                            (of_errno e)
                      | Ok _ => verify_moved (op_fd parent) name expected root_anchor
                      end
                end
            end
        end
  end.

Definition move_to_trash_with_expected_identity_outcome (path trash_id : bytes) (expected : DeleteIdentity)
    (expected_revision_identity : option ReplacementTargetIdentity) : Sys S CheckedTrashMove :=
  match trash_path_for_id path trash_id with
  | Err e => mret (NotMoved e)
  | Ok trash_path =>
      name ← expect (file_name trash_path);
      ran ← attempt (gated (
        opened ← attempt (open_parent_blocking path false);
        match opened : result IoError OpenedParent with
        | Err e => mret (if not_found e then TargetChanged else NotMoved e)
        | Ok parent => rename_checked parent name expected expected_revision_identity
        end));
      mret (match ran : result IoError CheckedTrashMove with Ok outcome => outcome | Err e => DurabilityUnknown e end)
  end.

(** ** Quarantine *)

Fixpoint quarantine_loop (attempts : nat) (parent : OpenedParent) (parent_path : bytes) : Sys S (option bytes) :=
  match attempts with
  | O => throw AlreadyExists
  | Datatypes.S attempts =>
      uuid ← ask new_v4;
      let name := quarantine_name hyphenated uuid in
      renamed ← call (renameat_noreplace (op_fd parent) (op_name parent) (op_fd parent) name);
      match renamed : result Errno unit with
      | Ok _ => _ ← io (fsync (op_fd parent)); mret (Some (push parent_path name))
      | Err EXIST => quarantine_loop attempts parent parent_path
      | Err e => if missing_errno e then mret None else throw (of_errno e)
      end
  end.

Definition quarantine_internal_trash (path : bytes) : Sys S (option bytes) :=
  gated (
    match file_name path ≫= classify_internal_name parse_uuid hyphenated with
    | Some DeleteTrash =>
        parent_path ← of_io (ok_or (Paths.parent path) InvalidInput);
        parent ← open_parent_blocking path false;
        quarantine_loop 16 parent parent_path
    | _ => throw InvalidInput
    end).

(** ** Capture *)

Definition capture_entry_for_purge_with_type_blocking (path : bytes) (expected_directory : option bool)
    (expected_revision : option bytes) : Sys S (option TrashEntry) :=
  opened ← attempt (open_parent_blocking path false);
  match opened : result IoError OpenedParent with
  | Err e => if not_found e then mret None else throw e
  | Ok parent =>
      anchored ← call (openat_path (op_fd parent) (op_name parent));
      match anchored : result Errno OwnedFd with
      | Err NOENT => mret None
      | Err e => throw (of_errno e)
      | Ok root_anchor =>
          opened_metadata ← io (fstat root_anchor);
          named ← call (statat (op_fd parent) (op_name parent));
          match named : result Errno Stat with
          | Err NOENT => mret None
          | Err e => throw (of_errno e)
          | Ok named_metadata =>
              if negb (bool_decide (replacement_target_identity opened_metadata
                                    = replacement_target_identity named_metadata))
              then throw InvalidData
              else
                let identity := delete_identity_from_stat opened_metadata in
                let trash_revision :=
                  purge_revision sha256 (Existing (replacement_target_identity opened_metadata)) in
                if match expected_directory with
                   | Some d => negb (Bool.eqb (del_is_directory identity) d)
                   | None => false
                   end
                   || match expected_revision with
                      | Some r => negb (bool_decide (trash_revision = r))
                      | None => false
                      end
                then throw InvalidData
                else mret (Some (new_entry (op_fd parent) (op_name parent) identity root_anchor trash_revision))
          end
      end
  end.

Definition capture_entry_for_purge (path : bytes) (expected_directory : bool) : Sys S (option TrashEntry) :=
  gated (capture_entry_for_purge_with_type_blocking path (Some expected_directory) None).

Definition capture_entry_for_purge_with_revision (path : bytes) (expected_directory : bool)
    (expected_revision : bytes) : Sys S (option TrashEntry) :=
  gated (capture_entry_for_purge_with_type_blocking path (Some expected_directory) (Some expected_revision)).
End state.
End moves.
