(* ===== verification/KernelSteps.v ===== *)
(** * Code that leaves the world in a relation

    [keeps R m]: whatever [m] does, it leaves the caller's state alone, does not panic
    or run out of fuel, and the worlds before and after it are in [R].  [R] is a
    preorder that the calls which only look at the file system are in ([ReadOnly]):
    [quiet] when nothing may be removed, [still] of [MutationLaws] when nothing may be
    changed at all. *)

From S2P Require Import Prelude RootedPaths PathPolicy FileRevision Kernel KernelLaws TrashPurge RootedParents TrashMoves.

Import RootedPaths.

Create HintDb keeps.

Class ReadOnly `{Kernel} (R : OsWorld -> OsWorld -> Prop) : Prop := {
  ro_preorder :: PreOrder R;
  ro_gate : op_in R gate_admits;
  ro_fsync f : op_in R (fsync f);
  ro_dup f : op_in R (dup f);
  ro_fstat f : op_in R (fstat f);
  ro_statat d n : op_in R (statat d n);
  ro_open_path d n : op_in R (openat_path d n);
  ro_open_beneath d n : op_in R (openat2_beneath d n) }.

#[export] Hint Resolve ro_gate ro_fsync ro_dup ro_fstat ro_statat ro_open_path ro_open_beneath : keeps.

Section keeps.
Context `{Kernel} (R : OsWorld -> OsWorld -> Prop) `{!PreOrder R}.

Definition keeps {S A} (m : Sys S A) : Prop :=
  forall s w, let '(o, s', w') := m s w in s' = s /\ R w w' /\ o <> Panicked /\ o <> OutOfFuel.

Section rules.
Context {S : Type}.

Lemma keeps_ret {A} (a : A) : keeps (S := S) (mret a).
Proof. intros s w. by split_and!. Qed.
Lemma keeps_throw {A} e : keeps (S := S) (A := A) (throw e).
Proof. intros s w. by split_and!. Qed.
Lemma keeps_of_io {A} (r : result IoError A) : keeps (S := S) (of_io r).
Proof. destruct r; [apply keeps_ret|apply keeps_throw]. Qed.
Lemma keeps_of_result {A} (r : result Errno A) : keeps (S := S) (of_result r).
Proof. destruct r; [apply keeps_ret|apply keeps_throw]. Qed.
Lemma keeps_expect {A} (o : option A) : is_Some o -> keeps (S := S) (expect o).
Proof. intros [a ->]. apply keeps_ret. Qed.

Lemma keeps_bind {A B} (m : Sys S A) (f : A -> Sys S B) : keeps m -> (forall a, keeps (f a)) -> keeps (m ≫= f).
Proof.
  intros Hm Hf s w. unfold mbind, Sys_bind. specialize (Hm s w).
  destruct (m s w) as [[[a|e| | |] s1] w1]; destruct Hm as (-> & Hq & Hp & Ho); try done.
  specialize (Hf a s w1). destruct (f a s w1) as [[o s2] w2]. destruct Hf as (-> & Hq' & ?).
  split; [done|]. split; [by etrans|done].
Qed.

Lemma keeps_fmap {A B} (f : A -> B) (m : Sys S A) : keeps m -> keeps (f <$> m).
Proof. intros Hm. apply keeps_bind; [done|]. intros. apply keeps_ret. Qed.

Lemma keeps_call {A} (op : OsWorld -> option A * OsWorld) : op_in R op -> keeps (S := S) (call op).
Proof. intros Hop s w. specialize (Hop w). unfold call. destruct (op w) as [[]]; done. Qed.
Lemma keeps_ask {A} (op : OsWorld -> A * OsWorld) : op_in R op -> keeps (S := S) (ask op).
Proof. intros Hop s w. specialize (Hop w). unfold ask. destruct (op w); done. Qed.
Lemma keeps_io {A} (op : OsWorld -> option (result Errno A) * OsWorld) : op_in R op -> keeps (S := S) (io op).
Proof. intros Hop. apply keeps_bind; [by apply keeps_call|]. intros. apply keeps_of_result. Qed.
Lemma keeps_attempt {A} (m : Sys S A) : keeps m -> keeps (attempt m).
Proof.
  intros Hm s w. unfold attempt. specialize (Hm s w).
  destruct (m s w) as [[[a|e| | |] s1] w1]; destruct Hm as (-> & ? & ? & ?); done.
Qed.
Lemma keeps_gated {A} (m : Sys S A) : op_in R gate_admits -> keeps m -> keeps (gated m).
Proof.
  intros Hg Hm. unfold gated. apply keeps_bind; [by apply keeps_ask|]. intros []; [done|apply keeps_throw].
Qed.

Lemma keeps_wps {A} C (m : Sys S A) (Q : result IoError A -> S -> OsWorld -> Prop) s w :
  keeps m -> (forall w', R w w' -> C w') ->
  (forall r w', R w w' ->
     (m s w = (match r with Ok a => Val a | Err e => Fail e end, s, w')) -> Q r s w') ->
  wps C m Q s w.
Proof.
  intros Hm Hc Hq. specialize (Hm s w). unfold wps.
  destruct (m s w) as [[o s1] w1]. destruct Hm as (-> & Hw & ? & ?).
  destruct o as [a|e| | |]; [by apply (Hq (Ok a))|by apply (Hq (Err e))|by apply Hc|done|done].
Qed.
End rules.
End keeps.

Ltac keeps_step :=
  lazymatch goal with
  | |- keeps _ (_ ≫= _) => apply keeps_bind; [apply _| |intros]
  | |- keeps _ (_ <$> _) => apply keeps_fmap; [apply _|]
  | |- keeps _ (mret _) => apply keeps_ret; apply _
  | |- keeps _ (throw _) => apply keeps_throw; apply _
  | |- keeps _ (of_io _) => apply keeps_of_io; apply _
  | |- keeps _ (of_result _) => apply keeps_of_result; apply _
  | |- keeps _ (call _) => apply keeps_call; eauto with keeps typeclass_instances
  | |- keeps _ (ask _) => apply keeps_ask; eauto with keeps typeclass_instances
  | |- keeps _ (io _) => apply keeps_io; [apply _|]; eauto with keeps typeclass_instances
  | |- keeps _ (attempt _) => apply keeps_attempt
  | |- keeps _ (gated _) => apply keeps_gated; [apply _|eauto with keeps typeclass_instances|]
  | |- keeps _ (match ?x with _ => _ end) => destruct x
  | |- _ => solve [eauto with keeps typeclass_instances]
  end.
Ltac keeps_auto := cbv beta zeta; repeat (keeps_step; cbv beta zeta).

(** ** Looking at paths *)

Section looks.
Context `{Kernel} (R : OsWorld -> OsWorld -> Prop) `{!ReadOnly R} {S : Type}.

Lemma keeps_open_existing cs current prefix : keeps R (S := S) (open_existing cs current prefix).
Proof.
  revert current prefix. induction cs as [|c cs IH]; intros; cbn [open_existing]; [keeps_auto|].
  destruct c; [keeps_auto..|]. unfold RootedParents.open_directory_from_root. keeps_auto.
Qed.
Hint Resolve keeps_open_existing : keeps.

Lemma keeps_open_parent path : keeps R (S := S) (open_parent_blocking path false).
Proof. unfold open_parent_blocking, open_parent, parent_components. keeps_auto. Qed.
Hint Resolve keeps_open_parent : keeps.

Lemma keeps_delete_identity path : keeps R (S := S) (delete_identity path).
Proof. unfold delete_identity. keeps_auto. Qed.
Lemma keeps_replacement_identity path : keeps R (S := S) (replacement_identity path).
Proof. unfold replacement_identity. keeps_auto. Qed.

Lemma keeps_capture path d r : keeps R (S := S) (capture_entry_for_purge_with_type_blocking path d r).
Proof. unfold capture_entry_for_purge_with_type_blocking. keeps_auto. Qed.

Lemma keeps_verify parent name expected anchor : keeps R (S := S) (verify_moved parent name expected anchor).
Proof. unfold verify_moved, unverified. keeps_auto. Qed.

Lemma keeps_classify parent n n' expected e :
  keeps R (S := S) (classify_failed_checked_trash_rename parent n n' expected e).
Proof. unfold classify_failed_checked_trash_rename, delete_identity_at. keeps_auto. Qed.
End looks.
#[export] Hint Resolve keeps_open_parent keeps_delete_identity keeps_replacement_identity keeps_capture keeps_verify
  keeps_classify : keeps.

(** ** What a computation went through *)

Section runs.
Context `{Kernel} {S : Type}.

Lemma bind_Val {A B} (m : Sys S A) (f : A -> Sys S B) s w b s' w' :
  (m ≫= f) s w = (Val b, s', w') -> exists a s1 w1, m s w = (Val a, s1, w1) /\ f a s1 w1 = (Val b, s', w').
Proof. unfold mbind, Sys_bind. destruct (m s w) as [[[] ?] ?]; naive_solver. Qed.
Lemma call_Val {A} (op : OsWorld -> option A * OsWorld) (s : S) w a s' w' :
  call op s w = (Val a, s', w') -> s' = s /\ op w = (Some a, w').
Proof. unfold call. destruct (op w) as [[]]; naive_solver. Qed.
Lemma ask_Val {A} (op : OsWorld -> A * OsWorld) (s : S) w a s' w' :
  ask op s w = (Val a, s', w') -> s' = s /\ op w = (a, w').
Proof. unfold ask. destruct (op w); naive_solver. Qed.
Lemma io_Val {A} (op : OsWorld -> option (result Errno A) * OsWorld) (s : S) w a s' w' :
  io op s w = (Val a, s', w') -> s' = s /\ op w = (Some (Ok a), w').
Proof. intros ([x|x] & s1 & w1 & [-> E]%call_Val & Hx)%bind_Val; [|done]. by injection Hx as -> -> ->. Qed.
End runs.

(** ** Weakest preconditions with a condition on the state

    As [wps], but [C] also speaks of the state the process leaves when it dies (the
    durable part of which a restarted process finds), and a run must not be cut off. *)

Section crashes.
Context `{Kernel}.

Definition wpx {S A} (C : S -> OsWorld -> Prop) (m : Sys S A) (Q : result IoError A -> S -> OsWorld -> Prop)
    (s : S) (w : OsWorld) : Prop :=
  match m s w with
  | (Val a, s', w') => Q (Ok a) s' w'
  | (Fail e, s', w') => Q (Err e) s' w'
  | (Crashed, s', w') => C s' w'
  | (Panicked, _, _) | (OutOfFuel, _, _) => False
  end.

Definition next_post {S A B} (C : S -> OsWorld -> Prop) (f : A -> Sys S B)
    (Q : result IoError B -> S -> OsWorld -> Prop) (r : result IoError A) : S -> OsWorld -> Prop :=
  match r with Ok a => wpx C (f a) Q | Err e => Q (Err e) end.

Section rules.
Context {S : Type}.
Implicit Types (C : S -> OsWorld -> Prop) (s : S) (w : OsWorld).

Lemma wpx_bind {A B} C (m : Sys S A) (f : A -> Sys S B) Q s w :
  wpx C m (next_post C f Q) s w -> wpx C (m ≫= f) Q s w.
Proof.
  unfold wpx at 1 2, next_post, mbind, Sys_bind. destruct (m s w) as [[[a|e| | |] s'] w']; done.
Qed.
Lemma wpx_mono {A} C C' (m : Sys S A) (Q Q' : result IoError A -> S -> OsWorld -> Prop) s w :
  wpx C m Q s w -> (forall r s w, Q r s w -> Q' r s w) -> (forall s w, C s w -> C' s w) -> wpx C' m Q' s w.
Proof. unfold wpx. destruct (m s w) as [[[a|e| | |] s'] w']; eauto. Qed.
Lemma wpx_ret {A} C (a : A) (Q : result IoError A -> S -> OsWorld -> Prop) s w : Q (Ok a) s w -> wpx C (mret a) Q s w.
Proof. done. Qed.
Lemma wpx_throw {A} C e (Q : result IoError A -> S -> OsWorld -> Prop) s w : Q (Err e) s w -> wpx C (throw e) Q s w.
Proof. done. Qed.
Lemma wpx_crash {A} C (Q : result IoError A -> S -> OsWorld -> Prop) s w : C s w -> wpx C crash Q s w.
Proof. done. Qed.
Lemma wpx_of_io {A} C (r : result IoError A) Q s w : Q r s w -> wpx C (of_io r) Q s w.
Proof. by destruct r. Qed.
Lemma wpx_expect {A} C (o : option A) a (Q : result IoError A -> S -> OsWorld -> Prop) s w :
  o = Some a -> Q (Ok a) s w -> wpx C (expect o) Q s w.
Proof. by intros ->. Qed.
Lemma wpx_gets {A} C (f : S -> A) Q s w : Q (Ok (f s)) s w -> wpx C (gets f) Q s w.
Proof. done. Qed.
Lemma wpx_get C Q s w : Q (Ok s) s w -> wpx C get Q s w.
Proof. done. Qed.
Lemma wpx_modify C (f : S -> S) Q s w : Q (Ok tt) (f s) w -> wpx C (modify f) Q s w.
Proof. done. Qed.
Lemma wpx_call {A} C (op : OsWorld -> option A * OsWorld) Q s w :
  (forall a w', op w = (Some a, w') -> Q (Ok a) s w') ->
  (forall w', op w = (None, w') -> C s w') -> wpx C (call op) Q s w.
Proof. intros Ha Hc. unfold wpx, call. destruct (op w) as [[a|] w'] eqn:E; eauto. Qed.
Lemma wpx_ask {A} C (op : OsWorld -> A * OsWorld) Q s w :
  (forall a w', op w = (a, w') -> Q (Ok a) s w') -> wpx C (ask op) Q s w.
Proof. intros Ha. unfold wpx, ask. destruct (op w) as [a w'] eqn:E; eauto. Qed.
Lemma wpx_attempt {A} C (m : Sys S A) Q s w :
  wpx C m (fun r => Q (Ok r)) s w -> wpx C (attempt m) Q s w.
Proof. unfold wpx, attempt. destruct (m s w) as [[[a|e| | |] s'] w']; done. Qed.

(** [r] as the outcome a computation ends with. *)
Definition ended_with {A} (r : result IoError A) : outcome A := match r with Ok a => Val a | Err e => Fail e end.

Lemma wpx_keeps {A} R C (m : Sys S A) (Q : result IoError A -> S -> OsWorld -> Prop) s w :
  keeps R m -> (forall w', R w w' -> C s w') ->
  (forall r w', R w w' -> m s w = (ended_with r, s, w') -> Q r s w') -> wpx C m Q s w.
Proof.
  intros Hm Hc Hq. specialize (Hm s w). unfold wpx.
  destruct (m s w) as [[o s1] w1]. destruct Hm as (-> & Hw & ? & ?).
  destruct o as [a|e| | |]; [by apply (Hq (Ok a))|by apply (Hq (Err e))|by apply Hc|done|done].
Qed.

(** Code that ends. *)
Definition ends {A} (m : Sys S A) : Prop := forall s w, wpx (fun _ _ => True) m (fun _ _ _ => True) s w.

Lemma ends_keeps {A} R (m : Sys S A) : keeps R m -> ends m.
Proof. intros Hm s w. by apply (wpx_keeps R). Qed.
Lemma whole_bind {A B} (m : Sys S A) (f : A -> Sys S B) : ends m -> (forall a, ends (f a)) -> ends (m ≫= f).
Proof. intros Hm Hf s w. apply wpx_bind. eapply wpx_mono; [apply Hm| |done]. intros [a|e] s' w' _; [apply Hf|done]. Qed.
Lemma whole_attempt {A} (m : Sys S A) : ends m -> ends (attempt m).
Proof. intros Hm s w. apply wpx_attempt. eapply wpx_mono; [apply Hm|done|done]. Qed.
End rules.
End crashes.
