(* ===== verification/TrashCapture.v ===== *)
(** * Capturing and moving trash entries

    Looking for, quarantining, capturing and moving entries removes nothing, leaves
    the caller's state alone and does not panic; an entry that is handed out for
    purging pins the object its name meant, with the identity and the revision that
    were asked for. *)

From S2P Require Import Prelude Paths RootedPaths PathPolicy FileRevision Kernel KernelLaws KernelMemory.
From S2P Require Import KernelSteps TrashPurge TrashSafety RootedParents TrashMoves.

Import RootedPaths.

Module TrashCapture.
Import TrashSafety.

Section captures.
Context `{L : KernelLaws} {S : Type}.

#[export] Instance quiet_preorder : PreOrder quiet.
Proof. split; [intros w; split; [apply later_refl|done]|intros w1 w2 w3; apply quiet_trans]. Qed.
#[export] Instance quiet_read_only : ReadOnly quiet.
Proof.
  split; [apply _|exact law_gate|exact law_fsync|exact law_dup|exact law_fstat|exact law_statat|
    exact law_open_path|exact law_open_beneath].
Qed.

Lemma keeps_quarantine path : keeps quiet (S := S) (quarantine_internal_trash path).
Proof.
  assert (forall k p d, keeps quiet (S := S) (quarantine_loop k p d)).
  { assert (op_in quiet new_v4) by exact law_new_v4.
    assert (forall d n d' n', op_in quiet (renameat_noreplace d n d' n')) by exact law_rename.
    induction k; intros; cbn [quarantine_loop]; keeps_auto. }
  unfold quarantine_internal_trash. keeps_auto.
Qed.

Lemma keeps_rename_checked parent name expected r : keeps quiet (S := S) (rename_checked parent name expected r).
Proof.
  assert (forall d n d' n', op_in quiet (renameat_noreplace d n d' n')) by exact law_rename.
  unfold rename_checked. keeps_auto.
Qed.

(** ** What is handed out *)

(** An entry that nothing has been done with yet, for the object its name meant. *)
Record pinned (w : OsWorld) (e : TrashEntry) : Prop := {
  pn_ok : entry_ok w e;
  pn_fresh : te_stack e = [];
  pn_named : seen w (fd_ino (te_parent e)) (te_name e) (fd_ino (te_anchor e)) }.

Lemma pinned_new w parent name anchor st i r :
  stat_number st = number (fd_ino anchor) -> names w (fd_ino parent) name = Some i -> number i = number (fd_ino anchor) ->
  pinned w (new_entry parent name (delete_identity_from_stat st) anchor r).
Proof.
  intros Hst Hn Hi. pose proof (law_pinned _ _ _ _ _ Hn Hi) as ->. split; [|done|by apply law_seen].
  split; cbn; [done|lia|done|done|done].
Qed.

Lemma pinned_later w w' e : later w w' -> pinned w e -> pinned w' e.
Proof. intros Hl [He Hs Hn]. split; [by eapply entry_ok_later|done|by apply Hl]. Qed.

Lemma capture_pinned path d r (s : S) w e s' w' :
  capture_entry_for_purge_with_type_blocking path d r s w = (Val (Some e), s', w') ->
  pinned w' e /\ (forall b, d = Some b -> te_is_dir e = b) /\ (forall v, r = Some v -> te_revision e = v).
Proof.
  unfold capture_entry_for_purge_with_type_blocking.
  intros ([parent|err] & s1 & w1 & _ & Hx)%bind_Val; [|by destruct (not_found err)].
  apply bind_Val in Hx as ([anchor|err] & s2 & w2 & [-> E2]%call_Val & Hx); [|by destruct err].
  apply bind_Val in Hx as (st & s3 & w3 & [-> E3]%io_Val & Hx).
  apply bind_Val in Hx as ([st'|err] & s4 & w4 & [-> E4]%call_Val & Hx); [|by destruct err].
  destruct (negb _) eqn:En; [done|]. cbv beta zeta in Hx. destruct (_ || _) eqn:Eo; [done|].
  injection Hx as <- <- <-. split_bool.
  pose proof (law_fstat_number anchor w2 st) as Hf. rewrite E3 in Hf. specialize (Hf eq_refl).
  pose proof (law_statat_named (op_fd parent) (op_name parent) w3 st') as Hs. rewrite E4 in Hs.
  destruct (Hs eq_refl) as (i & Hn & Hi). split; [|split].
  - eapply pinned_new; [done|exact Hn|]. rewrite <- Hf, <- Hi. by apply same_number.
  - intros b ->. apply negb_false_iff, eqb_prop in H0. done.
  - intros v ->. by split_bool.
Qed.

Lemma verify_pinned parent name expected anchor (s : S) w e s' w' :
  verify_moved parent name expected anchor s w = (Val (Moved e), s', w') ->
  pinned w' e /\ te_identity e = expected /\ te_parent e = parent /\ te_name e = name.
Proof.
  unfold verify_moved, unverified.
  intros ([st|err] & s1 & w1 & [-> E1]%call_Val & Hx)%bind_Val.
  2: by apply bind_Val in Hx as (? & ? & ? & _ & Hx).
  apply bind_Val in Hx as ([st'|err] & s2 & w2 & [-> E2]%call_Val & Hx).
  2: by apply bind_Val in Hx as (? & ? & ? & _ & Hx).
  destruct (_ || _) eqn:Eo; [by apply bind_Val in Hx as (? & ? & ? & _ & Hx)|].
  apply bind_Val in Hx as ([u|err] & s3 & w3 & [-> E3]%call_Val & Hx); [|done].
  injection Hx as <- <- <-. split_bool.
  pose proof (law_fstat_number anchor w st) as Hf. rewrite E1 in Hf. specialize (Hf eq_refl).
  pose proof (law_statat_named parent name w1 st') as Hs. rewrite E2 in Hs.
  destruct (Hs eq_refl) as (i & Hn & Hi).
  assert (stat_number st' = number (fd_ino anchor)) as Hst by (rewrite <- Hf; by apply same_number).
  split; [|by split].
  eapply pinned_later; [|eapply pinned_new; [exact Hst|exact Hn|congruence]].
  pose proof (law_fsync parent w2) as Hq. rewrite E3 in Hq. apply Hq.
Qed.
End captures.
End TrashCapture.
