(* ===== verification/PurgeWorker.v ===== *)
(** * The purge worker

    [server/purge.rs]: durable deletions are claimed from the state store, opened by
    the revision they recorded, purged slice by slice, and completed, retried later or
    quarantined; prepared jobs whose deletion was interrupted are reconciled.  The
    state store's worker thread, the coordinator's leases and the signal channel are
    part of the environment ([ServerEnv]); the purge table is the state. *)

From S2P Require Import Prelude Paths Sql StateModel PurgeStore RootedPaths PathPolicy FileRevision.
From S2P Require Import Kernel TrashPurge RootedParents TrashMoves.

Import RootedPaths.

Definition DELETE_PURGE_SIGNAL_CAPACITY : nat := 64.
Definition DELETE_PURGE_ACTIVE_CAPACITY : nat := 64.
Definition DELETE_PURGE_RECONCILE_LIMIT : Z := 4096.
(** Durations in nanoseconds. *)
Definition DELETE_PURGE_IDLE_POLL : Z := 1000000000.
Definition DELETE_PURGE_SLICE_ENTRIES : Z := 256.
Definition DELETE_PURGE_SLICE_TIME : Z := 25000000.
Definition DELETE_PURGE_RETRY_BASE : Z := 100000000.
Definition DELETE_PURGE_RETRY_MAX : Z := 30000000000.

(** [Duration::saturating_mul] stays below [Duration::MAX] here: the factor is at
    most [u32::MAX]. *)
Definition purge_retry_delay (failures : Z) : Z :=
  let exponent := Z.min (u64_saturating_sub failures 1) 16 in
  let multiplier := if (exponent <? 32)%Z then Z.shiftl 1 exponent else U32_MAX in
  Z.min (DELETE_PURGE_RETRY_BASE * multiplier) DELETE_PURGE_RETRY_MAX.

(** [u32::saturating_add] *)
Definition u32_saturating_add (a b : Z) : Z := Z.min (a + b) U32_MAX.

(** ** The environment *)

(** What becomes of a command sent to the state store: refused, failed without effect,
    executed and answered, executed with its reply lost; or the process dies before or
    after its commit. *)
Inductive StoreVerdict : Type :=
| NotAccepted | NotExecuted | Executed (now : Z) | Unanswered (now : Z)
| DiedBefore | DiedAfter (now : Z).

Section worker.
Context `{Kernel}.

Inductive PurgeSignal : Type := Wake | OrphanSignal (entry : TrashEntry).
Inductive TryRecv : Type := Received (s : PurgeSignal) | Empty | Disconnected.
(** How the worker's [select!] ends. *)
Inductive Woken : Type := ShutDown | Signalled (s : option PurgeSignal) | TimerFired.

Class ServerEnv : Type := {
  store_limits : Limits;
  dispatch : OsWorld -> StoreVerdict * OsWorld;
  (* commands of other tasks that the store executes, on the table as it is, before the
     worker's next command *)
  foreign : PurgeStore.Table -> OsWorld -> list (Z * PurgeStore.Command) * OsWorld;
  acquire : list bytes -> OsWorld -> unit * OsWorld;
  release : OsWorld -> unit * OsWorld;
  try_recv : OsWorld -> TryRecv * OsWorld;
  wait : bool -> Z -> OsWorld -> Woken * OsWorld }.

Context `{!ServerEnv}.

Abbreviation Table := PurgeStore.Table.

(** ** Commands of the store *)

Definition db {A} (command : Table -> Z -> result string (Table * A)) : Sys Table A :=
  t ← get;
  others ← ask (foreign t);
  _ ← modify (fun t => (PurgeStore.run store_limits t others).1);
  verdict ← ask dispatch;
  t ← get;
  match verdict : StoreVerdict with
  | NotAccepted | NotExecuted => throw OtherIo
  | Executed now =>
      match command t now with
      | Ok (t, a) => _ ← modify (fun _ => t); mret a
      | Err _ => throw OtherIo
      end
  | Unanswered now =>
      _ ← modify (fun t => match command t now with Ok (t, _) => t | Err _ => t end); throw OtherIo
  | DiedBefore => crash
  | DiedAfter now =>
      _ ← modify (fun t => match command t now with Ok (t, _) => t | Err _ => t end); crash
  end.

Definition of_string {A} (r : result string A) : Sys Table A :=
  match r with Ok a => mret a | Err _ => throw OtherIo end.

Definition prepare_purge_job (job : StoredPurgeJob) : Sys Table StorePurgeJob :=
  _ ← of_string (purge_validate_new job);
  db (fun t now => PurgeStore.prepare_purge_job store_limits t now job).
Definition purge_job (key : PurgeJobKey) : Sys Table (option StoredPurgeJob) :=
  db (fun t _ => o ← PurgeStore.load_purge_job t key; Ok (t, o)).
Definition prepared_purge_jobs (limit : Z) : Sys Table (list StoredPurgeJob) :=
  n ← of_string (query_limit limit);
  db (fun t _ => l ← PurgeStore.prepared_purge_jobs t n; Ok (t, l)).
Definition mark_purge_job_ready (key : PurgeJobKey) (revision : bytes) : Sys Table bool :=
  db (fun t now => PurgeStore.mark_purge_job_ready t now key revision).
Definition claim_due_purge_job : Sys Table (option StoredPurgeJob) :=
  db (fun t now => PurgeStore.claim_due_purge_job t now).
Definition retry_purge_job (key : PurgeJobKey) (delay : Z) : Sys Table bool :=
  delay_ms ← of_string (duration_ms delay "Purge retry delay");
  db (fun t now => PurgeStore.retry_purge_job t now key delay_ms).
Definition complete_purge_job (key : PurgeJobKey) : Sys Table bool :=
  db (fun t _ => Ok (PurgeStore.complete_purge_job t key)).
Definition remove_purge_job (key : PurgeJobKey) : Sys Table bool :=
  db (fun t _ => Ok (PurgeStore.remove_purge_job t key)).

(** ** Preparing a deletion *)

Record PreparedPurge : Type := {
  pp_key : PurgeJobKey;
  pp_trash_id : bytes;
  pp_source_identity : DeleteIdentity }.
Inductive PreparePurge : Type := PPrepared (p : PreparedPurge) | PFull.

Fixpoint prepare_attempts (attempts : nat) (owner target target_path : bytes) (source : DeleteIdentity)
    : Sys Table PreparePurge :=
  match attempts with
  | O => throw OtherIo
  | S attempts =>
      trash_id ← ask new_v4;
      trash_path ← of_io (trash_path_for_id target trash_id);
      trash_path ← of_io (state_relative_path root_path trash_path);
      let key := {| StateModel.owner := owner; id := trash_id |} in
      stored ← prepare_purge_job
        {| pj_key := key; pj_target_path := target_path; pj_trash_path := trash_path;
           source_identity := {| id_device := del_device source; id_inode := del_inode source |};
           trash_revision := None; is_directory := del_is_directory source;
           pj_state := Prepared; attempts := 0 |};
      match stored with
      | PurgeInserted => mret (PPrepared {| pp_key := key; pp_trash_id := trash_id; pp_source_identity := source |})
      | PurgeExisting | PurgeConflict => prepare_attempts attempts owner target target_path source
      | PurgeFull => mret PFull
      end
  end.

(** [owner] is the persistent digest [OwnerId::persistent] of the request's owner. *)
Definition prepare_purge_with_identity (owner target : bytes) (source : DeleteIdentity) : Sys Table PreparePurge :=
  target_path ← of_io (state_relative_path root_path target);
  prepare_attempts 16 owner target target_path source.

(** ** Work *)

Record PurgeWork : Type := { pw_job : StoredPurgeJob; pw_entry : TrashEntry }.
Inductive PurgeTask : Type := Durable (work : PurgeWork) | Orphan (entry : TrashEntry).

(** What the worker does with a claimed job next: it is done with it, it has opened
    it, or the state store did not record what became of it. *)
Inductive Opening : Type := NoWork | Work (work : PurgeWork) | OpenFailed (job : StoredPurgeJob).
Inductive PurgeWorkResult : Type := WorkComplete | WorkPending (work : PurgeWork) | WorkRetry (job : StoredPurgeJob).

Definition purge_identity_matches (i : DeleteIdentity) (job : StoredPurgeJob) : bool :=
  (del_device i =? id_device (source_identity job))%Z && (del_inode i =? id_inode (source_identity job))%Z
  && Bool.eqb (del_is_directory i) (is_directory job).

Definition quarantine_claimed_purge_job (job : StoredPurgeJob) : Sys Table unit :=
  trash ← of_io (resolve_state_path root_path (pj_trash_path job));
  _ ← quarantine_internal_trash trash;
  completed ← complete_purge_job (pj_key job);
  if completed : bool then mret tt else throw OtherIo.

Definition defer_purge_job (job : StoredPurgeJob) : Sys Table unit :=
  retried ← retry_purge_job (pj_key job) (purge_retry_delay (u32_saturating_add (StateModel.attempts job) 1));
  if retried : bool then mret tt else throw OtherIo.

(** The job of an entry that failed: quarantined if the entry is not what it should
    be, tried again otherwise. *)
Definition settle_failed (job : StoredPurgeJob) (e : IoError) : Sys Table unit :=
  match e with InvalidData => quarantine_claimed_purge_job job | _ => defer_purge_job job end.

Definition or_retry {A} (m : Sys Table unit) (done retry : A) : Sys Table A :=
  r ← attempt m; mret (match r : result IoError unit with Ok _ => done | Err _ => retry end).

Definition open_purge_work (job : StoredPurgeJob) : Sys Table Opening :=
  match resolve_state_path root_path (pj_trash_path job) with
  | Err _ => mret (OpenFailed job)
  | Ok trash_path =>
      match trash_revision job with
      | None => or_retry (quarantine_claimed_purge_job job) NoWork (OpenFailed job)
      | Some revision =>
          captured ← attempt (capture_entry_for_purge_with_revision trash_path (is_directory job) revision);
          match captured : result IoError (option TrashEntry) with
          | Ok (Some entry) =>
              if purge_identity_matches (te_identity entry) job
              then mret (Work {| pw_job := job; pw_entry := entry |})
              else or_retry (quarantine_claimed_purge_job job) NoWork (OpenFailed job)
          | Ok None => or_retry (_ ← complete_purge_job (pj_key job); mret tt) NoWork (OpenFailed job)
          | Err e => or_retry (settle_failed job e) NoWork (OpenFailed job)
          end
      end
  end.

Definition retry_claimed_purge_work (job : StoredPurgeJob) : Sys Table Opening :=
  current ← attempt (purge_job (pj_key job));
  match current : result IoError (option StoredPurgeJob) with
  | Ok (Some current) => if bool_decide (pj_state current = Claimed) then open_purge_work current else mret NoWork
  | Ok None => mret NoWork
  | Err _ => mret (OpenFailed job)
  end.

Definition slice (fuel : nat) (entry : TrashEntry) : Sys Table (result IoError bool * TrashEntry) :=
  run_on entry (purge_slice fuel DELETE_PURGE_SLICE_ENTRIES DELETE_PURGE_SLICE_TIME).

Definition process_purge_work (fuel : nat) (work : PurgeWork) : Sys Table PurgeWorkResult :=
  '(purged, entry) ← slice fuel (pw_entry work);
  match purged with
  | Ok true =>
      or_retry (_ ← complete_purge_job (pj_key (pw_job work)); mret tt) WorkComplete (WorkRetry (pw_job work))
  | Ok false => mret (WorkPending {| pw_job := pw_job work; pw_entry := entry |})
  | Err e => or_retry (settle_failed (pw_job work) e) WorkComplete (WorkRetry (pw_job work))
  end.

(** ** The worker's loop *)

Record ClaimedPurgeRetry : Type := { cr_due : Z; cr_job : StoredPurgeJob; cr_local_failures : Z }.

Record Worker : Type := { pending : list PurgeTask; claimed_retries : list ClaimedPurgeRetry }.
Definition active_tasks (k : Worker) : nat := length (pending k) + length (claimed_retries k).
Definition push_task (t : PurgeTask) (k : Worker) : Worker :=
  {| pending := pending k ++ [t]; claimed_retries := claimed_retries k |}.

(** The retries stay ordered by the time they are due. *)
Fixpoint insert_retry (retry : ClaimedPurgeRetry) (retries : list ClaimedPurgeRetry) : list ClaimedPurgeRetry :=
  match retries with
  | [] => [retry]
  | queued :: rest =>
      if (cr_due retry <? cr_due queued)%Z then retry :: retries else queued :: insert_retry retry rest
  end.

Definition schedule_claimed_purge_retry (job : StoredPurgeJob) (local_failures : Z) (k : Worker)
    : Sys Table Worker :=
  let local_failures := Z.max local_failures 1 in
  t ← ask instant_now;
  mret {| pending := pending k;
          claimed_retries := insert_retry {| cr_due := t + purge_retry_delay local_failures; cr_job := job;
                                             cr_local_failures := local_failures |} (claimed_retries k) |}.

(** The outcome of opening a claimed job. *)
Definition take_opening (o : Opening) (local_failures : Z) (k : Worker) : Sys Table Worker :=
  match o with
  | NoWork => mret k
  | Work work => mret (push_task (Durable work) k)
  | OpenFailed job => schedule_claimed_purge_retry job local_failures k
  end.

(** [None]: the worker returns. *)
Fixpoint receive_signals (fuel : nat) (k : Worker) : Sys Table (option Worker) :=
  match fuel with
  | O => out_of_fuel
  | S fuel =>
      if (active_tasks k <? DELETE_PURGE_ACTIVE_CAPACITY)%nat then
        r ← ask try_recv;
        match r with
        | Received Wake => receive_signals fuel k
        | Received (OrphanSignal entry) => receive_signals fuel (push_task (Orphan entry) k)
        | Empty => mret (Some k)
        | Disconnected => mret None
        end
      else mret (Some k)
  end.

Definition run_due_retry (k : Worker) : Sys Table Worker :=
  if (length (pending k) <? DELETE_PURGE_ACTIVE_CAPACITY)%nat then
    match claimed_retries k with
    | [] => mret k
    | retry :: rest =>
        t ← ask instant_now;
        if (cr_due retry <=? t)%Z then
          opened ← retry_claimed_purge_work (cr_job retry);
          take_opening opened (u32_saturating_add (cr_local_failures retry) 1)
            {| pending := pending k; claimed_retries := rest |}
        else mret k
    end
  else mret k.

Fixpoint claim_jobs (fuel : nat) (k : Worker) : Sys Table (option Worker) :=
  match fuel with
  | O => out_of_fuel
  | S fuel =>
      if (active_tasks k <? DELETE_PURGE_ACTIVE_CAPACITY)%nat then
        stop ← ask is_cancelled;
        if stop : bool then mret None
        else
          claimed ← attempt claim_due_purge_job;
          match claimed : result IoError (option StoredPurgeJob) with
          | Ok (Some job) =>
              opened ← open_purge_work job;
              k ← take_opening opened 1 k;
              claim_jobs fuel k
          | Ok None | Err _ => mret (Some k)
          end
      else mret (Some k)
  end.

Definition run_task (fuel : nat) (task : PurgeTask) (k : Worker) : Sys Table Worker :=
  match task with
  | Durable work =>
      processed ← process_purge_work fuel work;
      match processed with
      | WorkComplete => mret k
      | WorkPending work => mret (push_task (Durable work) k)
      | WorkRetry job => schedule_claimed_purge_retry job 1 k
      end
  | Orphan entry =>
      '(purged, entry) ← slice fuel entry;
      mret (match purged with Ok false => push_task (Orphan entry) k | _ => k end)
  end.

Definition idle (k : Worker) : Sys Table (option Worker) :=
  retry_delay ←
    match claimed_retries k with
    | retry :: _ =>
        t ← ask instant_now;
        mret (Z.min (u64_saturating_sub (cr_due retry) t) DELETE_PURGE_IDLE_POLL)
    | [] => mret DELETE_PURGE_IDLE_POLL
    end;
  woken ← ask (wait (active_tasks k <? DELETE_PURGE_ACTIVE_CAPACITY)%nat retry_delay);
  mret (match woken with
        | ShutDown => None
        | Signalled (Some Wake) => Some k
        | Signalled (Some (OrphanSignal entry)) => Some (push_task (Orphan entry) k)
        | Signalled None => None
        | TimerFired => Some k
        end).

(** One turn of [run_purge_worker]'s loop. *)
Definition worker_turn (fuel : nat) (k : Worker) : Sys Table (option Worker) :=
  stop ← ask is_cancelled;
  if stop : bool then mret None
  else
    received ← receive_signals fuel k;
    match received with
    | None => mret None
    | Some k =>
        k ← run_due_retry k;
        claimed ← claim_jobs fuel k;
        match claimed with
        | None => mret None
        | Some k =>
            match pending k with
            | task :: rest =>
                Some <$> run_task fuel task {| pending := rest; claimed_retries := claimed_retries k |}
            | [] => idle k
            end
        end
    end.

(** The worker over [turns] turns; [None] once it has returned. *)
Fixpoint run_purge_worker (turns fuel : nat) (k : Worker) : Sys Table (option Worker) :=
  match turns with
  | O => mret (Some k)
  | S turns =>
      o ← worker_turn fuel k;
      match o with None => mret None | Some k => run_purge_worker turns fuel k end
  end.

(** ** Reconciliation *)

Definition delete_identity_if_present (path : bytes) : Sys Table (option DeleteIdentity) :=
  found ← attempt (delete_identity path);
  match found : result IoError DeleteIdentity with
  | Ok i => mret (Some i)
  | Err e => if not_found e then mret None else throw e
  end.

Definition reconcile_under_lease (key : PurgeJobKey) (trash : bytes) : Sys Table unit :=
  loaded ← purge_job key;
  match loaded with
  | None => mret tt
  | Some job =>
      if negb (bool_decide (pj_state job = Prepared)) then mret tt
      else
        trash_identity ← delete_identity_if_present trash;
        _ ← match trash_identity : option DeleteIdentity with
            | Some _ => _ ← quarantine_internal_trash trash; mret tt
            | None => mret tt
            end;
        _ ← remove_purge_job (pj_key job);
        mret tt
  end.

Definition reconcile_prepared_purge_job (job : StoredPurgeJob) : Sys Table unit :=
  target ← of_io (resolve_state_path root_path (pj_target_path job));
  trash ← of_io (resolve_state_path root_path (pj_trash_path job));
  _ ← ask (acquire [target; trash]);
  reconciled ← attempt (reconcile_under_lease (pj_key job) trash);
  _ ← ask release;
  of_io reconciled.

Fixpoint reconcile_each (jobs : list StoredPurgeJob) : Sys Table unit :=
  match jobs with
  | [] => mret tt
  | job :: jobs =>
      stop ← ask is_cancelled;
      if stop : bool then mret tt
      else _ ← attempt (reconcile_prepared_purge_job job); reconcile_each jobs
  end.

Definition reconcile_prepared_purge_jobs : Sys Table unit :=
  jobs ← prepared_purge_jobs DELETE_PURGE_RECONCILE_LIMIT;
  reconcile_each jobs.

Definition reconcile_prepared_purge_key (key : PurgeJobKey) : Sys Table unit :=
  loaded ← attempt (purge_job key);
  match loaded : result IoError (option StoredPurgeJob) with
  | Ok (Some job) =>
      if bool_decide (pj_state job = Prepared) then
        _ ← attempt (reconcile_prepared_purge_job job); mret tt
      else mret tt
  | _ => mret tt
  end.
End worker.
