(* ===== verification/PurgeOwnership.v ===== *)
(** * The worker owns what it has claimed

    At every point where the purge worker waits or starts another turn, the jobs that
    are claimed in the database are those the worker still holds, each once: no claimed
    job is forgotten and none is held twice, whatever the file system and the state
    store answer.  Every command that the store executes without its answer reaching
    the worker can put one job in doubt, and no more than one: the job may be claimed
    and not held, held and no longer claimed, or held twice. *)

From S2P Require Import Prelude Paths Sql StateModel PurgeStore RootedPaths PathPolicy FileRevision.
From S2P Require Import Kernel KernelLaws KernelMemory TrashPurge TrashSafety RootedParents TrashMoves TrashCapture.
From S2P Require Import KernelSteps PurgeWorker.

Import RootedPaths.

Module PurgeOwnership.
Import TrashSafety TrashCapture.

Definition claimed (t : PurgeStore.Table) (k : PurgeJobKey) : Prop :=
  exists r, t !! k = Some r /\ PurgeStore.r_state r = PURGE_CLAIMED.

(** What other tasks ask of the store: deletions are prepared, made ready or given up;
    none of them is about a claimed job. *)
Definition foreign_command (t : PurgeStore.Table) (c : PurgeStore.Command) : Prop :=
  match c with
  | PurgeStore.Prepare _ | PurgeStore.MarkReady _ _ => True
  | PurgeStore.RemoveJob k => ~ claimed t k
  | PurgeStore.Claim | PurgeStore.Retry _ _ | PurgeStore.Complete _ => False
  end.
Fixpoint foreign_ok (limits : Limits) (t : PurgeStore.Table) (cs : list (Z * PurgeStore.Command)) : Prop :=
  match cs with
  | [] => True
  | (now, c) :: cs =>
      PurgeStore.command_ok now c /\ foreign_command t c /\
      foreign_ok limits (PurgeStore.exec limits t now c).1 cs
  end.

Class ServerLaws `{V : KernelView} `{!ServerEnv} : Prop := {
  law_dispatch : quiet_op dispatch;
  law_foreign t : quiet_op (foreign t);
  law_acquire l : quiet_op (acquire l);
  law_release : quiet_op release;
  law_try_recv : quiet_op try_recv;
  law_wait b d : quiet_op (wait b d);
  (* a command that is executed without being answered is counted *)
  law_lost w now : (dispatch w).1 = Unanswered now -> lost_replies w < lost_replies (dispatch w).2;
  law_dispatch_time w now :
    (dispatch w).1 = Executed now \/ (dispatch w).1 = Unanswered now \/ (dispatch w).1 = DiedAfter now ->
    is_i64 now /\ is_i64 (now + 30000);
  law_foreign_ok t w : PurgeStore.table_ok store_limits t -> foreign_ok store_limits t (foreign t w).1;
  (* the branch of [select!] that receives is guarded *)
  law_wait_enabled b d w s : (wait b d w).1 = Signalled s -> b = true;
  (* what maintenance hands over *)
  law_recv_entry w e : (try_recv w).1 = Received (OrphanSignal e) -> entry_ok (try_recv w).2 e;
  law_wait_entry b d w e : (wait b d w).1 = Signalled (Some (OrphanSignal e)) -> entry_ok (wait b d w).2 e }.

Section ownership.
Context `{L : KernelLaws} `{!ServerEnv} `{!ServerLaws}.
Implicit Types (t : PurgeStore.Table) (D O : list PurgeJobKey) (w : OsWorld).

(** ** The claimed jobs *)

(** The claimed jobs of a well-formed table are those of [O], each once there, except
    for the jobs of [D], which are in doubt. *)
Record Clear (D O : list PurgeJobKey) t : Prop := {
  cl_table : PurgeStore.table_ok store_limits t;
  cl_claimed k : k ∉ D -> k ∈ O <-> claimed t k;
  cl_once : NoDup (filter (.∉ D) O) }.

Lemma Clear_perm D O O' t : O ≡ₚ O' -> Clear D O t -> Clear D O' t.
Proof.
  intros HP [Ht Hk Ho]. split; [done|intros k; by rewrite <- HP; auto|].
  by rewrite (filter_Permutation _ _ _ HP) in Ho.
Qed.

Lemma once_outside D O k : k ∉ D -> NoDup (filter (.∉ D) (k :: O)) -> k ∉ O.
Proof.
  intros Hk. rewrite filter_cons_True by done. intros [Hn _]%NoDup_cons Hin. apply Hn.
  by apply list_elem_of_filter.
Qed.

Lemma once_tail D O k : NoDup (filter (.∉ D) (k :: O)) -> NoDup (filter (.∉ D) O).
Proof. rewrite filter_cons. case_decide; [|done]. by intros [_ ?]%NoDup_cons. Qed.

Lemma once_cons D O k : (k ∉ D -> k ∉ O) -> NoDup (filter (.∉ D) O) -> NoDup (filter (.∉ D) (k :: O)).
Proof.
  intros Hk Ho. rewrite filter_cons. case_decide; [|done]. constructor; [|done].
  rewrite list_elem_of_filter. intros [_ ?]. by apply Hk.
Qed.

(** More jobs in doubt. *)
Lemma once_doubt D O k : NoDup (filter (.∉ D) O) -> NoDup (filter (.∉ k :: D) O).
Proof.
  intros Ho. induction O as [|x O IH]; [done|]. specialize (IH (once_tail _ _ _ Ho)). apply once_cons; [|done].
  intros Hx. eapply once_outside; [|done]. set_solver.
Qed.

Lemma claimed_insert t k r k' :
  claimed (<[k := r]> t) k' <-> (k' = k /\ PurgeStore.r_state r = PURGE_CLAIMED \/ k' <> k /\ claimed t k').
Proof.
  unfold claimed. destruct (decide (k' = k)) as [->|Hk].
  - rewrite lookup_insert_eq. naive_solver.
  - rewrite lookup_insert_ne by done. naive_solver.
Qed.

Lemma claimed_delete t k k' : claimed (delete k t) k' <-> k' <> k /\ claimed t k'.
Proof.
  unfold claimed. destruct (decide (k' = k)) as [->|Hk].
  - rewrite lookup_delete_eq. naive_solver.
  - rewrite lookup_delete_ne by done. naive_solver.
Qed.

Lemma foreign_step t now c :
  PurgeStore.table_ok store_limits t -> PurgeStore.command_ok now c -> foreign_command t c ->
  forall k, claimed (PurgeStore.exec store_limits t now c).1 k <-> claimed t k.
Proof.
  intros Ht Hc Hf k. pose proof (PurgeStore.purge_exec_step store_limits t now c Ht Hc) as Hs.
  destruct (PurgeStore.exec store_limits t now c) as [t' a]. cbn in *.
  destruct Hs as [b|j -> Hn _|k0 r v -> Hr Hst|k0 r -> Hr Hd _|k0 r d -> Hr Hst|k0 [-> | ->]]; cbn in Hf; try done.
  - rewrite claimed_insert. cbn. split; [naive_solver|]. intros Hk. right. split; [|done].
    intros ->. destruct Hk as (r & Hr & _). by rewrite Hn in Hr.
  - rewrite claimed_insert. cbn. split; [naive_solver|]. intros Hk. right. split; [|done].
    intros ->. destruct Hk as (r' & Hr' & Hc'). rewrite Hr in Hr'. injection Hr' as <-. by rewrite Hst in Hc'.
  - rewrite claimed_delete. split; [naive_solver|]. intros Hk. split; [|done]. by intros ->.
Qed.

Lemma foreign_run t cs :
  PurgeStore.table_ok store_limits t -> foreign_ok store_limits t cs ->
  PurgeStore.table_ok store_limits (PurgeStore.run store_limits t cs).1 /\
  forall k, claimed (PurgeStore.run store_limits t cs).1 k <-> claimed t k.
Proof.
  revert t. induction cs as [|[now c] cs IH]; intros t Ht Hf; cbn; [done|]. destruct Hf as (Hc & Hk & Hf).
  pose proof (foreign_step t now c Ht Hc Hk) as Hs.
  pose proof (PurgeStore.purge_exec_step store_limits t now c Ht Hc) as Hst.
  destruct (PurgeStore.exec store_limits t now c) as [t1 a]. cbn in *.
  destruct (IH t1) as [Ht' Hk']; [by eapply PurgeStore.purge_step_ok|done|].
  destruct (PurgeStore.run store_limits t1 cs). cbn in *. split; [done|]. intros k. by rewrite Hk', Hs.
Qed.

(** Nothing happens to any claimed job but [k]. *)
Definition only_about k t t' : Prop := forall k', k' <> k -> claimed t' k' <-> claimed t k'.

(** A command that concerns at most one claimed job. *)
Definition about_one {A} (command : PurgeStore.Table -> Z -> result string (PurgeStore.Table * A)) : Prop :=
  forall t now t' a, PurgeStore.table_ok store_limits t -> is_i64 now -> is_i64 (now + 30000) ->
    command t now = Ok (t', a) -> PurgeStore.table_ok store_limits t' /\ exists k, only_about k t t'.

Lemma Clear_doubt D O t t' k :
  Clear D O t -> PurgeStore.table_ok store_limits t' -> only_about k t t' -> Clear (k :: D) O t'.
Proof.
  intros [Ht Hk Ho] Ht' Ha. split; [done| |by apply once_doubt]. intros k' Hn.
  rewrite not_elem_of_cons in Hn. rewrite (Ha k') by apply Hn. exact (Hk k' (proj2 Hn)).
Qed.

Section since.
(** The replies lost before the time from which doubts are counted. *)
Variable lost0 : nat.

(** The claimed jobs are those of [O], up to one job for each reply lost since. *)
Definition Claims O t w : Prop := exists D, length D + lost0 <= lost_replies w /\ Clear D O t.

Lemma Claims_table O t w : Claims O t w -> PurgeStore.table_ok store_limits t.
Proof. by intros (D & _ & []). Qed.

Lemma Claims_later O t w w' : Claims O t w -> later w w' -> Claims O t w'.
Proof. intros (D & Hn & HD) [_ _ Hl]. exists D. split; [lia|done]. Qed.

Lemma Claims_perm O O' t w : O ≡ₚ O' -> Claims O t w -> Claims O' t w.
Proof. intros HP (D & Hn & HD). exists D. split; [done|]. by eapply Clear_perm. Qed.

Lemma Claims_foreign O t w w' : Claims O t w -> Claims O (PurgeStore.run store_limits t (foreign t w').1).1 w.
Proof.
  intros (D & Hn & [Ht Hk Ho]). exists D. split; [done|].
  destruct (foreign_run t (foreign t w').1 Ht (law_foreign_ok t w' Ht)) as [Ht' Hk'].
  split; [done| |done]. intros k Hnk. rewrite Hk'. exact (Hk k Hnk).
Qed.

(** ** Commands *)

Abbreviation wpt := (wps (S := PurgeStore.Table) (fun _ => True)).

Lemma wps_db {A} (command : PurgeStore.Table -> Z -> result string (PurgeStore.Table * A)) Q O t w :
  about_one command -> Claims O t w ->
  (forall t' w', Claims O t' w' -> later w w' -> Q (Err OtherIo) t' w') ->
  (forall D t1 now t2 a w', length D + lost0 <= lost_replies w' -> Clear D O t1 -> PurgeStore.table_ok store_limits t2 ->
     is_i64 now -> is_i64 (now + 30000) -> command t1 now = Ok (t2, a) -> later w w' -> Q (Ok a) t2 w') ->
  wpt (db command) Q t w.
Proof.
  intros Hone Ht He Hq. unfold db. apply wps_bind, wps_get. cbn [then_post]. apply wps_bind, wps_ask.
  intros cs w1 E1. cbn [then_post]. apply wps_bind, wps_modify. cbn [then_post]. apply wps_bind, wps_ask.
  intros v w2 E2. cbn [then_post]. apply wps_bind, wps_get. cbn [then_post].
  assert (Claims O (PurgeStore.run store_limits t cs).1 w) as (D & Hn & HD).
  { pose proof (Claims_foreign O t w w Ht) as Hf. by rewrite E1 in Hf. }
  pose proof (law_foreign t w) as [Hl1 _]. rewrite E1 in Hl1. cbn in Hl1.
  pose proof (law_dispatch w1) as [Hl2 _]. rewrite E2 in Hl2. cbn in Hl2.
  pose proof (later_trans _ _ _ Hl1 Hl2) as Hl. pose proof (lt_lost _ _ Hl1). pose proof (lt_lost _ _ Hl2).
  set (t1 := (PurgeStore.run store_limits t cs).1) in *.
  assert (Claims O t1 w2) as Ht1 by (exists D; split; [lia|done]).
  pose proof (law_dispatch_time w1) as Hti. pose proof (law_lost w1) as Hlo. rewrite E2 in Hti, Hlo. cbn in Hti, Hlo.
  destruct v as [| |now|now| |now]; [by apply He|by apply He| | |done|done].
  - destruct (Hti now) as [Hn1 Hn2]; [by left|].
    destruct (command _ now) as [[t2 a]|e] eqn:Ec; [|by apply He].
    apply wps_bind, wps_modify, wps_ret. eapply (Hq D t1 now); [lia|done| |done..].
    by destruct (Hone t1 now t2 a) as [? _]; [apply HD|..].
  - destruct (Hti now) as [Hn1 Hn2]; [by right; left|]. specialize (Hlo now eq_refl).
    apply wps_bind, wps_modify. cbn [then_post]. apply He; [|done].
    destruct (command _ now) as [[t2 a]|e] eqn:Ec; [|done].
    destruct (Hone t1 now t2 a) as (Ht2 & k & Hk); [apply HD|done..|].
    exists (k :: D). split; [cbn; lia|]. by eapply Clear_doubt.
Qed.

(** The job in hand, [key], is no longer claimed. *)
Lemma Clear_released D O key t t' :
  Clear D (key :: O) t -> PurgeStore.table_ok store_limits t' ->
  (forall k, claimed t' k <-> k <> key /\ claimed t k) -> Clear D O t'.
Proof.
  intros [Ht Hk Ho] Ht' Ha. split; [done| |by eapply once_tail]. intros k Hn. rewrite Ha, <- (Hk k Hn).
  destruct (decide (k = key)) as [->|]; [|set_solver].
  pose proof (once_outside _ _ _ Hn Ho). naive_solver.
Qed.

(** The job in hand was not claimed: it was in doubt. *)
Lemma Clear_unclaimed D O key t : Clear D (key :: O) t -> ~ claimed t key -> Clear D O t.
Proof.
  intros HD Hn. eapply Clear_released; [done|apply HD|]. intros k. split; [|naive_solver].
  intros Hk. split; [|done]. by intros ->.
Qed.

Definition released key O (b : bool) t w : Prop := Claims O t w /\ (b = false -> Claims (key :: O) t w).

(** What completing a job and putting it back say, once they are executed. *)
Lemma released_intro D key O b t t' w :
  length D + lost0 <= lost_replies w -> Clear D (key :: O) t -> PurgeStore.table_ok store_limits t' ->
  (if b : bool then forall k, claimed t' k <-> k <> key /\ claimed t k else t' = t /\ ~ claimed t key) ->
  released key O b t' w.
Proof.
  intros Hn HD Ht' Hb. destruct b.
  - split; [|done]. exists D. split; [done|]. by eapply Clear_released.
  - destruct Hb as [-> Hc]. split; [|by exists D]. exists D. split; [done|]. by eapply Clear_unclaimed.
Qed.

Lemma claimed_row t key r : t !! key = Some r -> PurgeStore.r_state r <> PURGE_CLAIMED -> ~ claimed t key.
Proof. intros Hr Hs (r' & Hr' & Hs'). congruence. Qed.

Lemma complete_cases t key t' b :
  PurgeStore.complete_purge_job t key = (t', b) ->
  if b : bool then forall k, claimed t' k <-> k <> key /\ claimed t k else t' = t /\ ~ claimed t key.
Proof.
  unfold PurgeStore.complete_purge_job. rewrite PurgeStore.delete_state.
  destruct (t !! key) as [r|] eqn:Er; [|intros [= <- <-]; split; [done|by intros (r & Hr & _); rewrite Er in Hr]].
  destruct (Z.eqb_spec (PurgeStore.r_state r) PURGE_CLAIMED) as [Hs|Hs]; intros [= <- <-]; [intros k; apply claimed_delete|].
  split; [done|]. by eapply claimed_row.
Qed.

Lemma complete_one key : about_one (fun t _ => Ok (PurgeStore.complete_purge_job t key)).
Proof.
  intros t now t' b Ht _ _ E. assert (PurgeStore.complete_purge_job t key = (t', b)) as Ec by congruence. clear E.
  pose proof (PurgeStore.purge_exec_step store_limits t now (PurgeStore.Complete key) Ht I) as Hs.
  pose proof (PurgeStore.purge_step_ok _ _ _ _ _ _ (I : PurgeStore.command_ok now (PurgeStore.Complete key)) Ht Hs) as Ht2.
  unfold PurgeStore.exec in Ht2. rewrite Ec in Ht2. split; [done|]. exists key. intros k Hk.
  apply complete_cases in Ec. destruct b; [rewrite Ec; naive_solver|]. by destruct Ec as [-> _].
Qed.

Lemma wps_complete key Q O t w :
  Claims (key :: O) t w ->
  (forall t' w', Claims (key :: O) t' w' -> later w w' -> Q (Err OtherIo) t' w') ->
  (forall b t' w', released key O b t' w' -> later w w' -> Q (Ok b) t' w') ->
  wpt (complete_purge_job key) Q t w.
Proof.
  intros Ht He Hq. eapply wps_db; [apply complete_one|done|done|]. intros D t1 now t2 b w' Hn HD Ht2 _ _ E Hl.
  apply Hq; [|done]. eapply released_intro; [done|done|done|]. apply complete_cases. congruence.
Qed.

Lemma retry_delay_bounds failures :
  (DELETE_PURGE_RETRY_BASE <= purge_retry_delay failures <= DELETE_PURGE_RETRY_MAX)%Z.
Proof.
  unfold purge_retry_delay, u64_saturating_sub. rewrite (proj2 (Z.ltb_lt _ 32)) by lia.
  rewrite Z.shiftl_1_l. assert (1 <= 2 ^ Z.min (Z.max (failures - 1) 0) 16)%Z by (apply (Z.pow_le_mono_r 2 0); lia).
  unfold DELETE_PURGE_RETRY_BASE, DELETE_PURGE_RETRY_MAX. lia.
Qed.

Lemma retry_ms_bounds failures : (100 <= purge_retry_delay failures / 1000000 <= 30000)%Z.
Proof.
  pose proof (retry_delay_bounds failures) as Hb. unfold DELETE_PURGE_RETRY_BASE, DELETE_PURGE_RETRY_MAX in Hb.
  split; [apply Z.div_le_lower_bound; lia|apply Z.div_le_upper_bound; lia].
Qed.

Lemma retry_cases t now ms key t' b :
  PurgeStore.table_ok store_limits t -> is_i64 (now + ms) ->
  PurgeStore.retry_purge_job t now key ms = Ok (t', b) ->
  PurgeStore.table_ok store_limits t' /\
  if b : bool then forall k, claimed t' k <-> k <> key /\ claimed t k else t' = t /\ ~ claimed t key.
Proof.
  intros Ht Hnow Ec.
  pose proof (PurgeStore.purge_exec_step store_limits t now (PurgeStore.Retry key ms) Ht Hnow) as Hs.
  pose proof (PurgeStore.purge_step_ok _ _ _ _ _ _ (Hnow : PurgeStore.command_ok now (PurgeStore.Retry key ms)) Ht Hs) as Ht2.
  unfold PurgeStore.exec in Ht2. rewrite Ec in Ht2. cbn in Ht2. split; [done|].
  unfold PurgeStore.retry_purge_job, expiration_time in Ec.
  rewrite (proj2 (i64_checked_add_Some _ _ _)) in Ec by done. cbn [ok_or mbind result_bind] in Ec.
  rewrite PurgeStore.update_state in Ec by (intros r' Hr' _; apply PurgeStore.row_ok_retry; by apply (PurgeStore.to_rows _ _ Ht)).
  destruct (t !! key) as [r|] eqn:Er; [|injection Ec as <- <-; split; [done|by intros (r & Hr & _); rewrite Er in Hr]].
  destruct (Z.eqb_spec (PurgeStore.r_state r) PURGE_CLAIMED) as [Hst|Hst]; injection Ec as <- <-.
  - intros k. rewrite claimed_insert. cbn. naive_solver.
  - split; [done|]. by eapply claimed_row.
Qed.

Lemma wps_retry key failures Q O t w :
  Claims (key :: O) t w ->
  (forall t' w', Claims (key :: O) t' w' -> later w w' -> Q (Err OtherIo) t' w') ->
  (forall b t' w', released key O b t' w' -> later w w' -> Q (Ok b) t' w') ->
  wpt (retry_purge_job key (purge_retry_delay failures)) Q t w.
Proof.
  intros Ht He Hq. unfold retry_purge_job. apply wps_bind.
  pose proof (retry_ms_bounds failures) as Hms. unfold duration_ms, as_millis.
  rewrite i64_try_from_id by (unfold I64_MAX; lia). apply wps_ret. cbn [then_post].
  set (ms := (purge_retry_delay failures / 1000000)%Z) in *.
  assert (forall now, is_i64 now -> is_i64 (now + 30000) -> is_i64 (now + ms)) as Hnow by (unfold is_i64; lia).
  eapply wps_db; [|done|done|].
  - intros t1 now t2 b Ht1 Hi1 Hi2 E. apply retry_cases in E as [Ht2 Hb]; [|done|by apply Hnow].
    split; [done|]. exists key. intros k Hk. destruct b; [rewrite Hb; naive_solver|]. by destruct Hb as [-> _].
  - intros D t1 now t2 b w' Hn HD Ht2 Hi1 Hi2 E Hl. apply Hq; [|done].
    apply retry_cases in E as [_ Hb]; [|apply HD|by apply Hnow]. by eapply released_intro.
Qed.

(** ** What becomes of a claimed job *)

(** A computation that settles the claimed job [key], or leaves it claimed. *)
Definition settles (m : Sys PurgeStore.Table unit) (key : PurgeJobKey) : Prop :=
  forall O t w, Claims (key :: O) t w ->
    wpt m (fun r t' w' => later w w' /\ Claims (match r with Ok _ => O | Err _ => key :: O end) t' w') t w.

Lemma settles_complete key : settles (_ ← complete_purge_job key; mret tt) key.
Proof.
  intros O t w Ht. apply wps_bind. eapply wps_complete; [done|done|]. intros b t' w' [] Hl.
  cbn [then_post]. by apply wps_ret.
Qed.

Lemma settles_quarantine job : settles (quarantine_claimed_purge_job job) (pj_key job).
Proof.
  intros O t w Ht. unfold quarantine_claimed_purge_job. apply wps_bind, (keeps_wps quiet); [apply keeps_of_io, _|done|].
  intros [trash|e] w1 [Hl1 _] _; [|split; [done|by eapply Claims_later]]. cbn [then_post].
  apply wps_bind, (keeps_wps quiet); [apply keeps_quarantine|done|].
  intros [o|e] w2 [Hl2 _] _; (assert (later w w2) as Hl by by eapply later_trans); cbn [then_post].
  2: { split; [done|by eapply Claims_later]. }
  apply wps_bind. eapply wps_complete; [by eapply Claims_later| |]; cbn [then_post].
  - intros t' w' Ht' Hl'. split; [by eapply later_trans|done].
  - intros [] t' w' [Hr Hf] Hl'; (split; [by eapply later_trans|auto]).
Qed.

Lemma settles_defer job : settles (defer_purge_job job) (pj_key job).
Proof.
  intros O t w Ht. unfold defer_purge_job. apply wps_bind. eapply wps_retry; [done|done|]; cbn [then_post].
  intros [] t' w' [Hr Hf] Hl'; (split; [done|auto]).
Qed.

Lemma settles_failed job e : settles (settle_failed job e) (pj_key job).
Proof. destruct e; first [apply settles_quarantine|apply settles_defer]. Qed.

Lemma wps_or_retry {A} (m : Sys PurgeStore.Table unit) key (x y : A) Q O t w :
  settles m key -> Claims (key :: O) t w ->
  (forall t' w', later w w' -> Claims O t' w' -> Q (Ok x) t' w') ->
  (forall t' w', later w w' -> Claims (key :: O) t' w' -> Q (Ok y) t' w') ->
  wpt (or_retry m x y) Q t w.
Proof.
  intros Hm Ht Hx Hy. unfold or_retry. apply wps_bind, wps_attempt.
  eapply wps_mono; [by apply (Hm O)| |done]. intros [u|e] t' w' [Hl Hc]; apply wps_ret; auto.
Qed.

(** ** Opening and processing *)

(** The job is settled, or the answer names it. *)
Definition opened (key : PurgeJobKey) O (o : Opening) t w : Prop :=
  match o with
  | NoWork => Claims O t w
  | Work k => Claims (key :: O) t w /\ pj_key (pw_job k) = key /\ entry_ok w (pw_entry k)
  | OpenFailed j => Claims (key :: O) t w /\ pj_key j = key
  end.

Lemma wps_open job Q O t w :
  Claims (pj_key job :: O) t w ->
  (forall o t' w', later w w' -> opened (pj_key job) O o t' w' -> Q (Ok o) t' w') ->
  wpt (open_purge_work job) Q t w.
Proof.
  intros Ht Hq. unfold open_purge_work.
  destruct (RootedPaths.resolve_state_path _ _) as [trash|e]; [|apply wps_ret, Hq; [apply later_refl|done]].
  assert (forall (m : Sys PurgeStore.Table unit) w1, settles m (pj_key job) -> later w w1 ->
    wpt (or_retry m NoWork (OpenFailed job)) Q t w1) as Hor.
  { intros m w1 Hm Hl1. eapply wps_or_retry; [done|by eapply Claims_later| |]; intros t' w' Hl' Hc;
      (apply Hq; [by eapply later_trans|done]). }
  destruct (trash_revision job) as [revision|]; [|apply Hor; [apply settles_quarantine|apply later_refl]].
  apply wps_bind, wps_attempt, (keeps_wps quiet); [unfold capture_entry_for_purge_with_revision; keeps_auto|done|].
  intros [[entry|]|e] w1 [Hl1 _] E1; cbn [then_post].
  - destruct (purge_identity_matches _ _); [|by apply Hor, Hl1; apply settles_quarantine].
    apply wps_ret, Hq; [done|]. split; [by eapply Claims_later|]. split; [done|].
    apply bind_Val in E1 as ([] & s1 & w2 & _ & E1); [|done]. by apply capture_pinned in E1 as [[] _].
  - by apply Hor, Hl1; apply settles_complete.
  - by apply Hor, Hl1; apply settles_failed.
Qed.

Lemma reading_one {A} (f : PurgeStore.Table -> result string A) : about_one (fun t _ => o ← f t; Ok (t, o)).
Proof.
  intros t now t' a Ht _ _ E. destruct (f t); cbn in E; [|done]. injection E as <- <-.
  split; [done|]. exists {| owner := []; id := [] |}. by intros k _.
Qed.

Lemma wps_purge_job key Q O t w :
  Claims O t w ->
  (forall t' w', Claims O t' w' -> later w w' -> Q (Err OtherIo) t' w') ->
  (forall D t' w', length D + lost0 <= lost_replies w' -> Clear D O t' -> later w w' ->
     Q (Ok (PurgeStore.job_of key <$> t' !! key)) t' w') ->
  wpt (purge_job key) Q t w.
Proof.
  intros Ht He Hq. eapply wps_db; [apply reading_one|done|done|]. intros D t1 now t2 a w' Hn HD _ _ _ E Hl.
  unfold PurgeStore.load_purge_job in E. specialize (Hq D t1 w' Hn HD Hl).
  destruct (t1 !! key) as [r|] eqn:Er; [|by injection E as <- <-].
  rewrite PurgeStore.decode_ok in E by (by apply (PurgeStore.to_rows _ _ (cl_table _ _ _ HD))).
  by injection E as <- <-.
Qed.

Lemma wps_retry_claimed job Q O t w :
  Claims (pj_key job :: O) t w ->
  (forall o t' w', later w w' -> opened (pj_key job) O o t' w' -> Q (Ok o) t' w') ->
  wpt (retry_claimed_purge_work job) Q t w.
Proof.
  intros Ht Hq. unfold retry_claimed_purge_work. apply wps_bind, wps_attempt.
  eapply wps_purge_job; [done| |]; cbn [then_post].
  { intros t1 w1 Ht1 Hl1. by apply wps_ret, Hq. }
  intros D t1 w1 Hn HD Hl1.
  assert (~ claimed t1 (pj_key job) -> Q (Ok NoWork) t1 w1) as Hdrop.
  { intros Hnc. apply Hq; [done|]. exists D. split; [done|]. by eapply Clear_unclaimed. }
  destruct (t1 !! pj_key job) as [r|] eqn:Hr; cbn [fmap option_fmap option_map].
  2: { apply wps_ret, Hdrop. intros (r & Hr' & _). by rewrite Hr in Hr'. }
  destruct (decide (PurgeStore.r_state r = PURGE_CLAIMED)) as [Hst|Hst].
  - rewrite bool_decide_true by (cbn; unfold PurgeStore.state_of; by rewrite Hst).
    apply (wps_open (PurgeStore.job_of (pj_key job) r) _ O); [by exists D|].
    intros o t' w' Hl Ho. apply Hq; [by eapply later_trans|done].
  - rewrite bool_decide_false; [apply wps_ret, Hdrop; by eapply claimed_row|].
    cbn. pose proof (PurgeStore.ro_state _ _ (PurgeStore.to_rows _ _ (cl_table _ _ _ HD) _ _ Hr)) as Hs.
    rewrite !elem_of_cons, elem_of_nil in Hs. by destruct Hs as [->|[->|[?|[]]]].
Qed.

Lemma wps_slice fuel e Q t w :
  entry_ok w e ->
  (forall r e' w', later w w' -> entry_ok w' e' -> Q (Ok (r, e')) t w') ->
  wpt (slice fuel e) Q t w.
Proof.
  intros He Hq. unfold slice. apply wps_run_on.
  eapply wps_mono; [apply (runs_slice w (te_parent e) (te_anchor e) (Z.max DELETE_PURGE_SLICE_ENTRIES 1));
    [apply Inv_start; [done|by vm_compute]|done]| |done].
  intros r e' w' Hi. assert (Inv w (te_parent e) (te_anchor e) (Z.max DELETE_PURGE_SLICE_ENTRIES 1)
    (Z.max DELETE_PURGE_SLICE_ENTRIES 1) e' w') as [_ _ Hok [Hl _ _]] by by destruct r.
  by apply Hq.
Qed.

Lemma wps_process fuel work Q O t w :
  Claims (pj_key (pw_job work) :: O) t w -> entry_ok w (pw_entry work) ->
  (forall r t' w', later w w' ->
     match r with
     | WorkComplete => Claims O t' w'
     | WorkPending k => Claims (pj_key (pw_job work) :: O) t' w' /\ pw_job k = pw_job work /\ entry_ok w' (pw_entry k)
     | WorkRetry j => Claims (pj_key (pw_job work) :: O) t' w' /\ j = pw_job work
     end -> Q (Ok r) t' w') ->
  wpt (process_purge_work fuel work) Q t w.
Proof.
  intros Ht He Hq. unfold process_purge_work. apply wps_bind, wps_slice; [done|].
  intros r e' w1 Hl1 He1. cbn [then_post].
  assert (forall m : Sys PurgeStore.Table unit, settles m (pj_key (pw_job work)) ->
    wpt (or_retry m WorkComplete (WorkRetry (pw_job work))) Q t w1) as Hor.
  { intros m Hm. eapply wps_or_retry; [done|by eapply Claims_later| |]; intros t' w' Hl' Hc;
      (apply Hq; [by eapply later_trans|done]). }
  destruct r as [[]|e].
  - apply Hor, settles_complete.
  - apply wps_ret, Hq; [done|]. split; [by eapply Claims_later|done].
  - apply Hor, settles_failed.
Qed.

Lemma claim_cases' t now t' o :
  PurgeStore.table_ok store_limits t -> PurgeStore.claim_due_purge_job t now = Ok (t', o) ->
  PurgeStore.table_ok store_limits t' /\
  match o with
  | None => t' = t
  | Some job => ~ claimed t (pj_key job) /\ forall k, claimed t' k <-> k = pj_key job \/ claimed t k
  end.
Proof.
  intros Ht Ec.
  destruct (PurgeStore.claim_cases t now (PurgeStore.to_rows _ _ Ht)) as [[E _]|(k & r & Hr & Hd & _ & E)];
    rewrite E in Ec; injection Ec as <- <-; [done|].
  split.
  { eapply PurgeStore.purge_table_update; [done..| |done]. apply PurgeStore.row_ok_claimed.
    by apply (PurgeStore.to_rows _ _ Ht). }
  split.
  - eapply claimed_row; [done|]. unfold PurgeStore.due in Hd. intros Hst. by rewrite Hst in Hd.
  - intros k'. rewrite claimed_insert. cbn. destruct (decide (k' = k)); naive_solver.
Qed.

Lemma wps_claim Q O t w :
  Claims O t w ->
  (forall t' w', Claims O t' w' -> later w w' -> Q (Err OtherIo) t' w') ->
  (forall t' w', Claims O t' w' -> later w w' -> Q (Ok None) t' w') ->
  (forall job t' w', Claims (pj_key job :: O) t' w' -> later w w' -> Q (Ok (Some job)) t' w') ->
  wpt claim_due_purge_job Q t w.
Proof.
  intros Ht He Hno Hq. eapply wps_db; [|done|done|].
  - intros t1 now t2 o Ht1 _ _ E. apply claim_cases' in E as [Ht2 E]; [|done]. split; [done|].
    destruct o as [job|]; [|exists {| owner := []; id := [] |}; subst; by intros k _].
    exists (pj_key job). intros k Hk. destruct E as [_ E]. rewrite E. naive_solver.
  - intros D t1 now t2 o w' Hn HD Ht2 _ _ E Hl. apply claim_cases' in E as [_ E]; [|apply HD].
    destruct o as [job|]; [|subst; apply Hno; [by exists D|done]].
    apply Hq; [|done]. exists D. split; [done|]. destruct E as [Hnc E]. destruct HD as [Ht1 Hk Ho].
    split; [done| |].
    + intros k Hnk. rewrite E, elem_of_cons, (Hk k Hnk). done.
    + apply once_cons; [|done]. intros Hnk. by rewrite (Hk _ Hnk).
Qed.

(** ** The worker *)

Lemma perm_middle {A} (l1 l2 l3 : list A) x : l1 ++ l2 ++ x :: l3 ≡ₚ x :: l1 ++ l2 ++ l3.
Proof. by rewrite !app_assoc, <- Permutation_middle. Qed.

Definition task_key (x : PurgeTask) : option PurgeJobKey :=
  match x with Durable work => Some (pj_key (pw_job work)) | Orphan _ => None end.
Definition task_entry (x : PurgeTask) : TrashEntry :=
  match x with Durable work => pw_entry work | Orphan e => e end.

(** The jobs the worker holds. *)
Definition owned (k : Worker) : list PurgeJobKey :=
  omap task_key (pending k) ++ (pj_key ∘ cr_job <$> claimed_retries k).

(** The worker holds, besides the jobs of [X] and [n] tasks in hand, the claimed jobs, each
    once, up to one job for each reply lost since; its entries can be purged, its retries are ordered, and it is not full. *)
Record Owns (X : list PurgeJobKey) (n : nat) (k : Worker) t w : Prop := {
  ow_claims : Claims (X ++ owned k) t w;
  ow_entries : Forall (entry_ok w ∘ task_entry) (pending k);
  ow_sorted : Sorted (fun a b => (cr_due a <= cr_due b)%Z) (claimed_retries k);
  ow_room : n + active_tasks k <= DELETE_PURGE_ACTIVE_CAPACITY }.

Lemma entries_later (l : list PurgeTask) w w' :
  later w w' -> Forall (entry_ok w ∘ task_entry) l -> Forall (entry_ok w' ∘ task_entry) l.
Proof. intros Hl Hf. eapply Forall_impl; [done|]. intros x. by apply entry_ok_later. Qed.

(** Another table and a later world. *)
Lemma Owns_move X n k t w t' w' :
  Owns X n k t w -> later w w' -> Claims (X ++ owned k) t' w' -> Owns X n k t' w'.
Proof. intros [] Hl Hc. split; [done|by eapply entries_later|done|done]. Qed.

Lemma Owns_later X n k t w w' : Owns X n k t w -> later w w' -> Owns X n k t w'.
Proof. intros Hk Hl. eapply Owns_move; [done|done|]. eapply Claims_later; [apply Hk|done]. Qed.

Lemma insert_retry_perm x l : insert_retry x l ≡ₚ x :: l.
Proof.
  induction l as [|y l IH]; cbn; [done|]. destruct (_ <? _)%Z; [done|]. rewrite IH. apply Permutation_swap.
Qed.

Lemma insert_retry_sorted x l :
  Sorted (fun a b => (cr_due a <= cr_due b)%Z) l ->
  Sorted (fun a b => (cr_due a <= cr_due b)%Z) (insert_retry x l).
Proof.
  induction 1 as [|y l Hs IH Hy]; cbn; [by repeat constructor|].
  destruct (Z.ltb_spec (cr_due x) (cr_due y)).
  - constructor; [by constructor|constructor; lia].
  - constructor; [done|]. destruct l as [|z l]; cbn; [constructor; lia|].
    destruct (_ <? _)%Z; constructor; [lia|]. by inversion Hy.
Qed.

Lemma Owns_push_durable X n k t w work :
  Owns (pj_key (pw_job work) :: X) (S n) k t w -> entry_ok w (pw_entry work) ->
  Owns X n (push_task (Durable work) k) t w.
Proof.
  intros [Hc He Hs Hr] Hw.
  assert (X ++ owned (push_task (Durable work) k) ≡ₚ pj_key (pw_job work) :: X ++ owned k) as HP.
  { unfold owned, push_task. cbn [pending claimed_retries]. rewrite omap_app, <- app_assoc. apply perm_middle. }
  split; [by eapply Claims_perm| |done|].
  - cbn. apply Forall_app. split; [done|by apply Forall_singleton].
  - unfold active_tasks in *. cbn. rewrite length_app. cbn. lia.
Qed.

Lemma Owns_push_orphan X n k t w e :
  Owns X (S n) k t w -> entry_ok w e -> Owns X n (push_task (Orphan e) k) t w.
Proof.
  intros [Hc He Hs Hr] Hw.
  assert (owned (push_task (Orphan e) k) = owned k) as HP.
  { unfold owned, push_task. cbn [pending claimed_retries]. rewrite omap_app. cbn. by rewrite app_nil_r. }
  split; rewrite ?HP; [done..| |done|].
  - cbn. apply Forall_app. split; [done|by apply Forall_singleton].
  - unfold active_tasks in *. cbn. rewrite length_app. cbn. lia.
Qed.

Lemma wps_schedule job n Q X k t w :
  Owns (pj_key job :: X) 1 k t w ->
  (forall k' w', Owns X 0 k' t w' -> later w w' -> Q (Ok k') t w') ->
  wpt (schedule_claimed_purge_retry job n k) Q t w.
Proof.
  intros [Hc He Hs Hr] Hq. unfold schedule_claimed_purge_retry. apply wps_bind, wps_ask. intros u w' E.
  cbn [then_post]. assert (later w w') as Hl by (pose proof (law_now w) as Hf; rewrite E in Hf; apply Hf).
  apply wps_ret, Hq; [|done]. set (x := {| cr_due := _; cr_job := _; cr_local_failures := _ |}).
  assert (X ++ owned {| pending := pending k; claimed_retries := insert_retry x (claimed_retries k) |}
    ≡ₚ pj_key job :: X ++ owned k) as HP.
  { unfold owned. cbn [pending claimed_retries]. rewrite insert_retry_perm. apply perm_middle. }
  split; [eapply Claims_perm; [done|by eapply Claims_later]|by eapply entries_later|by apply insert_retry_sorted|].
  unfold active_tasks in *. cbn. rewrite insert_retry_perm. cbn. lia.
Qed.

Lemma wps_take key o n Q k t0 w0 t w :
  Owns [key] 1 k t0 w0 -> later w0 w -> opened key (owned k) o t w ->
  (forall k' w', Owns [] 0 k' t w' -> later w w' -> Q (Ok k') t w') ->
  wpt (take_opening o n k) Q t w.
Proof.
  intros Hk Hl Ho Hq. unfold take_opening. destruct o as [|work|job]; cbn in Ho.
  - apply wps_ret. apply Hq; [|apply later_refl]. destruct Hk. split; [done|by eapply entries_later|done|lia].
  - destruct Ho as (Hc & <- & He). apply wps_ret. apply Hq; [|apply later_refl].
    apply Owns_push_durable; [by eapply Owns_move|done].
  - destruct Ho as (Hc & <-). eapply wps_schedule; [by eapply Owns_move|done].
Qed.

(** The worker returned, or it owns the claimed jobs. *)
Definition owning (r : result IoError (option Worker)) t w : Prop :=
  match r with Ok (Some k) => Owns [] 0 k t w | Ok None => True | Err _ => False end.

Lemma wps_receive fuel k t w (Q : result IoError (option Worker) -> PurgeStore.Table -> OsWorld -> Prop) :
  Owns [] 0 k t w -> Q (Ok None) t w ->
  (forall k' w', Owns [] 0 k' t w' -> Q (Ok (Some k')) t w') -> (forall w', Q (Ok None) t w') ->
  wpt (receive_signals fuel k) Q t w.
Proof.
  revert k w. induction fuel as [|fuel IH]; intros k w Hk Hn Hq Hnone; cbn [receive_signals]; [done|].
  destruct (Nat.ltb_spec (active_tasks k) DELETE_PURGE_ACTIVE_CAPACITY); [|by apply wps_ret, Hq].
  apply wps_bind, wps_ask. intros r w' E. cbn [then_post].
  assert (later w w') as Hl by (pose proof (law_try_recv w) as Hf; rewrite E in Hf; apply Hf).
  assert (Owns [] 0 k t w') as Hk' by (by eapply Owns_later).
  destruct r as [[|e]| |]; [by apply IH| |by apply wps_ret, Hq|by apply wps_ret].
  apply IH; [|done..]. apply Owns_push_orphan.
  - destruct Hk'. split; [done..|]. lia.
  - pose proof (law_recv_entry w e) as Hf. rewrite E in Hf. by apply Hf.
Qed.

Lemma wps_due_retry k t w (Q : result IoError Worker -> PurgeStore.Table -> OsWorld -> Prop) :
  Owns [] 0 k t w -> (forall k' t' w', Owns [] 0 k' t' w' -> Q (Ok k') t' w') ->
  wpt (run_due_retry k) Q t w.
Proof.
  intros Hk Hq. unfold run_due_retry. destruct (_ <? _)%nat; [|by apply wps_ret, Hq].
  destruct k as [tasks [|x l]]; cbn [claimed_retries pending]; [by apply wps_ret, Hq|].
  apply wps_bind, wps_ask. intros now w1 E1. cbn [then_post].
  assert (later w w1) as Hl by (pose proof (law_now w) as Hf; rewrite E1 in Hf; apply Hf).
  assert (Owns [] 0 {| pending := tasks; claimed_retries := x :: l |} t w1) as Hk1 by (by eapply Owns_later).
  destruct (_ <=? _)%Z; [|by apply wps_ret, Hq].
  assert (Owns [pj_key (cr_job x)] 1 {| pending := tasks; claimed_retries := l |} t w1) as Hx.
  { destruct Hk1 as [Hc He Hs Hr]. unfold owned in *. cbn in *.
    assert (omap task_key tasks ++ pj_key (cr_job x) :: (pj_key ∘ cr_job <$> l)
      ≡ₚ pj_key (cr_job x) :: omap task_key tasks ++ (pj_key ∘ cr_job <$> l)) as HP by (by rewrite Permutation_middle).
    split; cbn; [by eapply Claims_perm|done|by inversion Hs|unfold active_tasks in *; cbn in *; lia]. }
  apply wps_bind. eapply wps_retry_claimed; [apply Hx|]. intros o t' w' Hl' Ho. cbn [then_post].
  eapply wps_take; [exact Hx|done|exact Ho|]. intros k' w'' Hk' _. by apply Hq.
Qed.

Lemma wps_claim_jobs fuel k t w : Owns [] 0 k t w -> wpt (claim_jobs fuel k) owning t w.
Proof.
  revert k t w. induction fuel as [|fuel IH]; intros k t w Hk; cbn [claim_jobs]; [done|].
  destruct (Nat.ltb_spec (active_tasks k) DELETE_PURGE_ACTIVE_CAPACITY); [|by apply wps_ret].
  apply wps_bind, wps_ask. intros stop w1 E1. cbn [then_post].
  assert (later w w1) as Hl by (pose proof (law_cancelled w) as Hf; rewrite E1 in Hf; apply Hf).
  destruct stop; [by apply wps_ret|]. apply wps_bind, wps_attempt.
  eapply wps_claim; [eapply Claims_later; [apply Hk|done]|..].
  - intros t' w' Hc Hl'. cbn [then_post]. apply wps_ret. eapply Owns_move; [done|by eapply later_trans|done].
  - intros t' w' Hc Hl'. cbn [then_post]. apply wps_ret. eapply Owns_move; [done|by eapply later_trans|done].
  - intros job t' w' Hc Hl'. cbn [then_post].
    assert (Owns [pj_key job] 1 k t' w') as Hj.
    { destruct Hk. split; [done|eapply entries_later; [|done]; by eapply later_trans|done|cbn; lia]. }
    apply wps_bind. eapply wps_open; [apply Hj|]. intros o t2 w2 Hl2 Ho. cbn [then_post].
    apply wps_bind. eapply wps_take; [exact Hj|exact Hl2|exact Ho|]. intros k' w3 Hk' _. by apply IH.
Qed.

Lemma wps_run_task fuel x rest l t w :
  Owns [] 0 {| pending := x :: rest; claimed_retries := l |} t w ->
  wpt (run_task fuel x {| pending := rest; claimed_retries := l |})
    (fun r t' w' => match r with Ok k => Owns [] 0 k t' w' | Err _ => False end) t w.
Proof.
  intros [Hc He Hs Hr]. apply Forall_cons in He as [Hx He].
  set (k := {| pending := rest; claimed_retries := l |}).
  assert (1 + active_tasks k <= DELETE_PURGE_ACTIVE_CAPACITY) as Hroom by (unfold active_tasks in *; cbn in *; lia).
  destruct x as [work|e]; cbn [run_task].
  - assert (Owns [pj_key (pw_job work)] 1 k t w) as Hk by (by split).
    apply wps_bind. eapply wps_process; [exact Hc|done|]. intros r t' w' Hl Hrr. cbn [then_post].
    destruct r as [|work'|job].
    + apply wps_ret. destruct Hk. split; [done|by eapply entries_later|done|lia].
    + destruct Hrr as (Hc' & Ej & He'). apply wps_ret. apply Owns_push_durable; [|done]. rewrite Ej. by eapply Owns_move.
    + destruct Hrr as (Hc' & ->). eapply wps_schedule; [by eapply Owns_move|]. by intros.
  - assert (Owns [] 1 k t w) as Hk by (by split).
    apply wps_bind, wps_slice; [done|]. intros r e' w' Hl He'. cbn [then_post]. apply wps_ret.
    assert (Owns [] 1 k t w') as Hk' by (by eapply Owns_later).
    destruct r as [[]|err]; [|by apply Owns_push_orphan|]; destruct Hk'; (split; [done..|lia]).
Qed.

Lemma wps_idle k t w : Owns [] 0 k t w -> pending k = [] -> wpt (idle k) owning t w.
Proof.
  intros Hk Hp. unfold idle. apply wps_bind.
  assert (forall d w', later w w' -> wpt (woken ← ask (wait (active_tasks k <? DELETE_PURGE_ACTIVE_CAPACITY)%nat d);
    mret (match woken with
        | ShutDown => None
        | Signalled (Some Wake) => Some k
        | Signalled (Some (OrphanSignal entry)) => Some (push_task (Orphan entry) k)
        | Signalled None => None
        | TimerFired => Some k
        end)) owning t w') as Hw.
  { intros d w' Hl. apply wps_bind, wps_ask. intros r w2 E2. cbn [then_post]. apply wps_ret.
    pose proof (law_wait (active_tasks k <? DELETE_PURGE_ACTIVE_CAPACITY)%nat d w') as [Hl2 _]. rewrite E2 in Hl2.
    assert (Owns [] 0 k t w2) as Hk2 by (eapply Owns_later; [done|by eapply later_trans]).
    destruct r as [|[[|e]|]|]; try done. apply Owns_push_orphan.
    - destruct Hk2. split; [done..|]. pose proof (law_wait_enabled _ _ w' _ (f_equal fst E2)) as Hb.
      apply Nat.ltb_lt in Hb. lia.
    - pose proof (law_wait_entry (active_tasks k <? DELETE_PURGE_ACTIVE_CAPACITY)%nat d w' e) as Hf.
      rewrite E2 in Hf. by apply Hf. }
  destruct (claimed_retries k) as [|x l]; [by apply wps_ret, Hw, later_refl|].
  apply wps_bind, wps_ask. intros now w1 E1. cbn [then_post]. apply wps_ret, Hw.
  pose proof (law_now w) as Hf. rewrite E1 in Hf. apply Hf.
Qed.

Lemma wps_turn fuel k t w : Owns [] 0 k t w -> wpt (worker_turn fuel k) owning t w.
Proof.
  intros Hk. unfold worker_turn. apply wps_bind, wps_ask. intros stop w1 E1. cbn [then_post].
  assert (later w w1) as Hl by (pose proof (law_cancelled w) as Hf; rewrite E1 in Hf; apply Hf).
  destruct stop; [by apply wps_ret|]. apply wps_bind. eapply wps_receive.
  { by eapply Owns_later. }
  { by apply wps_ret. }
  2: { intros. by apply wps_ret. }
  intros k2 w2 Hk2. cbn [then_post]. apply wps_bind. eapply wps_due_retry; [done|]. intros k3 t3 w3 Hk3.
  cbn [then_post]. apply wps_bind. eapply wps_mono; [by apply wps_claim_jobs| |done].
  intros [[k4|]|e] t4 w4 Hk4; [|by apply wps_ret|done]. cbn [then_post owning] in *.
  destruct k4 as [[|x rest] l]; cbn [pending claimed_retries]; [by apply wps_idle|].
  apply wps_bind. eapply wps_mono; [by apply wps_run_task| |done]. intros [k5|e] t5 w5 Hk5; [by apply wps_ret|done].
Qed.

Lemma wps_worker turns fuel k t w : Owns [] 0 k t w -> wpt (run_purge_worker turns fuel k) owning t w.
Proof.
  revert k t w. induction turns as [|turns IH]; intros k t w Hk; cbn [run_purge_worker]; [by apply wps_ret|].
  apply wps_bind. eapply wps_mono; [by apply wps_turn| |done].
  intros [[k'|]|e] t' w' Hk'; [by apply IH|by apply wps_ret|done].
Qed.

End since.

(** All but [n] jobs are claimed exactly if the worker holds them, which it does once; and
    the worker is in order. *)
Definition accounted (n : nat) (k : Worker) t w : Prop :=
  (exists in_doubt, length in_doubt <= n /\
     (forall key, key ∉ in_doubt -> key ∈ owned k <-> claimed t key) /\
     NoDup (filter (.∉ in_doubt) (owned k))) /\
  active_tasks k <= DELETE_PURGE_ACTIVE_CAPACITY /\
  Sorted (fun a b => (cr_due a <= cr_due b)%Z) (claimed_retries k) /\
  Forall (entry_ok w ∘ task_entry) (pending k) /\ PurgeStore.table_ok store_limits t.

(** C35. The worker owns what it has claimed.  After any number of turns of the purge
    worker, whatever the file system and the state store answer and whatever other
    deletions are prepared or withdrawn meanwhile, the jobs claimed in the database are
    the jobs the worker holds, and it holds each of them once, except for at most as many
    jobs as commands were executed whose answer did not reach the worker: if no answer is
    lost there is no exception.  In any case it holds at most 64 tasks, its retries are
    ordered by the time they are due, every entry it holds can be purged safely, the
    constraints of the table hold; and the worker neither fails nor panics. *)
Theorem worker_owns_claims turns fuel k t w :
  Owns (lost_replies w) [] 0 k t w ->
  match run_purge_worker turns fuel k t w with
  | (Val (Some k'), t', w') => accounted (lost_replies w' - lost_replies w) k' t' w'
  | (Fail _, _, _) | (Panicked, _, _) => False
  | _ => True
  end.
Proof.
  intros Hk. pose proof (wps_worker _ turns fuel k t w Hk) as Hw. unfold wps in Hw.
  destruct (run_purge_worker turns fuel k t w) as [[[[k'|]|e| | |] t'] w']; try done.
  destruct Hw as [(D & Hn & [Ht Hc Ho]) He Hs Hr]. split; [|done]. exists D. split; [lia|done].
Qed.
End ownership.

(** ** A run *)

Import KernelMemory.

#[export] Instance memory_server : ServerEnv (H := memory_kernel) := {|
  store_limits := PurgeStore.limits0;
  dispatch m := (Executed 1000, m);
  foreign _ m := ([], m);
  acquire _ m := (tt, m);
  release m := (tt, m);
  try_recv m := (Empty, m);
  wait _ _ m := (TimerFired, m) |}.

#[export] Instance memory_server_laws : ServerLaws.
Proof.
  split; cbn; try (intros; quiet_memory); try done.
  intros w now [[= <-]|[[=]|[=]]]. split; by vm_compute.
Qed.

(** The same server, except that the answer to the first command after something was
    removed is lost. *)
Definition losing (m : Memory) : bool := bool_decide (m_lost m = 0) && negb (bool_decide (m_removed m = [])).
Definition losing_server : ServerEnv (H := memory_kernel) := {|
  store_limits := PurgeStore.limits0;
  dispatch m := if losing m then (Unanswered 1000, with_lost m) else (Executed 1000, m);
  foreign _ m := ([], m);
  acquire _ m := (tt, m);
  release m := (tt, m);
  try_recv m := (Empty, m);
  wait _ _ m := (TimerFired, m) |}.

Lemma losing_server_laws : ServerLaws (H0 := losing_server).
Proof.
  split; cbn; try (intros; quiet_memory); try done.
  - intros m. destruct (losing m); apply memory_quiet; cbn; auto.
  - intros w now. destruct (losing w); cbn; [lia|done].
  - intros w now Hv. assert (now = 1000%Z) as -> by (destruct (losing w); naive_solver). split; by vm_compute.
Qed.

(** The deletion of [/srv/t], ready to be purged. *)
Definition t_key : PurgeJobKey := {| owner := replicate 32 x41; id := replicate 16 x42 |}.
Definition t_row : PurgeStore.Row :=
  PurgeStore.set_ready 900 (te_revision trash)
    (PurgeStore.fresh_row
       {| pj_key := t_key; pj_target_path := str "target"; pj_trash_path := str "t";
          source_identity := {| id_device := 7; id_inode := 3 |}; trash_revision := None;
          is_directory := true; pj_state := Prepared; attempts := 0 |} 800).
Definition t_table : PurgeStore.Table := {[t_key := t_row]}.
Definition no_work : Worker := {| pending := []; claimed_retries := [] |}.

Definition t_turn (E : ServerEnv (H := memory_kernel)) : option (nat * nat * nat * nat) :=
  match run_purge_worker 1 200 no_work t_table tree with
  | (Val (Some k), t, m) => Some (active_tasks k, size t, length (m_removed m), m_lost m)
  | _ => None
  end.

Lemma t_table_ok : PurgeStore.table_ok PurgeStore.limits0 t_table.
Proof. apply PurgeStore.purges0_ok. split; try done; first [by intros v [= <-]|cbn; set_solver]. Qed.

Lemma starts_owning (E : ServerEnv (H := memory_kernel)) :
  PurgeStore.table_ok store_limits t_table -> Owns (lost_replies tree) [] 0 no_work t_table tree.
Proof.
  intros Ht. split; [|constructor|constructor|cbn; lia]. exists []. split; [done|]. split; [done| |constructor].
  intros k _. split; [by intros ?%elem_of_nil|]. unfold t_table.
  by intros (r & [<- <-]%lookup_singleton_Some & Hs).
Qed.

(** With every answer received, nothing is left to do; with the last one lost, the worker
    still holds a job that is no longer in the table. *)
Lemma worker_owns_claims_witness :
  t_turn memory_server = Some (0, 0, 4, 0) /\
  match run_purge_worker (H0 := memory_server) 1 200 no_work t_table tree with
  | (Val (Some k'), t', w') => accounted (lost_replies w' - lost_replies tree) k' t' w'
  | (Fail _, _, _) | (Panicked, _, _) => False
  | _ => True
  end /\
  t_turn losing_server = Some (1, 0, 4, 1) /\
  match run_purge_worker (H0 := losing_server) 1 200 no_work t_table tree with
  | (Val (Some k'), t', w') => accounted (H0 := losing_server) (lost_replies w' - lost_replies tree) k' t' w'
  | (Fail _, _, _) | (Panicked, _, _) => False
  | _ => True
  end.
Proof.
  split; [by vm_compute|]. split; [|split; [by vm_compute|]].
  - exact (worker_owns_claims 1 200 no_work t_table tree (starts_owning memory_server t_table_ok)).
  - exact (worker_owns_claims (H1 := losing_server_laws) 1 200 no_work t_table tree (starts_owning losing_server t_table_ok)).
Defined.
End PurgeOwnership.
