(* ===== verification/MutationWorld.v ===== *)
(** * The world of tracked mutations

    Deleting, moving, renaming and creating directories: the handlers of
    [server/delete.rs] and [server/browser_api.rs] run over the descriptor calls of
    [Kernel], the purge table and the operation table of the state store, and the
    response they write.  [MutationEnv] is what else they ask of their environment;
    [Session] is the state a request works on. *)

From S2P Require Import Prelude Paths PathKeys Sql StateModel OperationStore OperationRegistry UploadStore PurgeStore.
From S2P Require Import RootedPaths PathPolicy StateScan Problem UploadProtocol FileRevision OperationResponse.
From S2P Require Import Kernel TrashPurge RootedParents TrashMoves PurgeWorker.

Export Problem OperationResponse.
Import RootedPaths OperationRegistry.

Record Session : Type := {
  rq_purges : PurgeStore.Table;
  rq_operations : OperationStore.Table;
  rq_response : OpResponse;
  rq_progress : MutationProgress;
  rq_operation : option OperationGuard;
  rq_leased : bool }.

Definition with_purges (t : PurgeStore.Table) (s : Session) : Session :=
  {| rq_purges := t; rq_operations := rq_operations s; rq_response := rq_response s;
     rq_progress := rq_progress s; rq_operation := rq_operation s;
     rq_leased := rq_leased s |}.
Definition with_operations (t : OperationStore.Table) (s : Session) : Session :=
  {| rq_purges := rq_purges s; rq_operations := t; rq_response := rq_response s; rq_progress := rq_progress s; rq_operation := rq_operation s;
     rq_leased := rq_leased s |}.
Definition with_response (r : OpResponse) (s : Session) : Session :=
  {| rq_purges := rq_purges s; rq_operations := rq_operations s; rq_response := r; rq_progress := rq_progress s; rq_operation := rq_operation s;
     rq_leased := rq_leased s |}.
Definition with_progress (p : MutationProgress) (s : Session) : Session :=
  {| rq_purges := rq_purges s; rq_operations := rq_operations s; rq_response := rq_response s; rq_progress := p;
     rq_operation := rq_operation s;
     rq_leased := rq_leased s |}.
Definition with_operation (g : option OperationGuard) (s : Session) : Session :=
  {| rq_purges := rq_purges s; rq_operations := rq_operations s; rq_response := rq_response s;
     rq_progress := rq_progress s; rq_operation := g; rq_leased := rq_leased s |}.
Definition with_leased (b : bool) (s : Session) : Session :=
  {| rq_purges := rq_purges s; rq_operations := rq_operations s; rq_response := rq_response s;
     rq_progress := rq_progress s; rq_operation := rq_operation s; rq_leased := b |}.

(** How reading a request's body ends. *)
Inductive BodyError : Type := BodyTooLarge | BodyInvalid.

Section world.
Context `{Kernel} `{!ServerEnv}.

Class MutationEnv : Type := {
  (* [renameat] replaces; [openat2] below the root with [O_PATH], the last component
     followed or not *)
  renameat : OwnedFd -> bytes -> OwnedFd -> bytes -> OsWorld -> option (result Errno unit) * OsWorld;
  openat2_path : bool -> bytes -> OsWorld -> option (result Errno OwnedFd) * OsWorld;
  (* the answers of the calls [resolved_path_key_blocking] makes *)
  resolving_fs : OsWorld -> Fs OwnedFd * OsWorld;
  (* commands of other requests on the operation table, the time an abandonment is
     executed, and the upload sessions there are *)
  op_foreign : OperationStore.Table -> OsWorld -> list (Z * OperationStore.Command) * OsWorld;
  op_now : OsWorld -> Z * OsWorld;
  uploads_now : OsWorld -> UploadStore.Table * OsWorld;
  (* semaphores: requests that wait for paths, state scans, commits *)
  path_wait_slot : OsWorld -> bool * OsWorld;
  state_scan_slot : OsWorld -> bool * OsWorld;
  commit_slot : OsWorld -> bool * OsWorld;
  notify_purge_worker : OsWorld -> unit * OsWorld;
  (* the request's body *)
  collect_body : Z -> OsWorld -> result BodyError bytes * OsWorld;
  (* configuration *)
  path_policy : PathPolicy.PathPolicy;
  platform_reserved_paths : list bytes }.

Context `{!MutationEnv}.

(** ** State *)

Definition on_purges {A} (m : Sys PurgeStore.Table A) : Sys Session A := fun s w =>
  let '(o, t, w) := m (rq_purges s) w in (o, with_purges t s, w).

Definition respond (f : OpResponse -> OpResponse) : Sys Session unit :=
  modify (fun s => with_response (f (rq_response s)) s).

Definition progress (f : MutationProgress -> MutationProgress) : Sys Session unit :=
  modify (fun s => with_progress (f (rq_progress s)) s).

(** ** Operations *)

(** A command on the operation table: refused, failed, or executed and answered. *)
Definition op_command (c : OperationStore.Command) : Sys Session (result StoreError OperationStore.Reply) :=
  t ← gets rq_operations;
  others ← ask (op_foreign t);
  _ ← modify (fun s => with_operations (OperationStore.run store_limits (rq_operations s) others).1 s);
  verdict ← ask dispatch;
  let execute now := modify (fun s =>
    with_operations (OperationStore.exec store_limits (rq_operations s) now c).1 s) in
  match verdict : StoreVerdict with
  | NotAccepted => mret (Err StateStoreDispatchError)
  | NotExecuted => mret (Err (StoreFailed "the command failed"))
  | Executed now =>
      t ← gets rq_operations;
      _ ← execute now;
      mret (Ok (OperationStore.exec store_limits t now c).2)
  | Unanswered now => _ ← execute now; mret (Err (StoreFailed "the reply was lost"))
  | DiedBefore => crash
  | DiedAfter now => _ ← execute now; crash
  end.

(** [OwnerId::persistent] and [OperationKey::new] *)
Definition owner_persistent (owner : bytes) : bytes := sha256 (str "xczs-durable-owner-v1" ++ [x00] ++ owner).
Definition operation_key (owner operation_id : bytes) : OperationKey :=
  {| StateModel.owner := owner_persistent owner; id := operation_id |}.

Definition begin_tracked (owner operation_id fp : bytes) : Sys Session BeginOperation :=
  let key := operation_key owner operation_id in
  lease ← ask new_v4;
  stored ← op_command (OperationStore.Begin key fp lease);
  of_io (match OperationRegistry.begin key
                 match stored with
                 | Ok (OperationStore.RBegin b) => Ok b
                 | Ok (OperationStore.RError e) => Err (StoreFailed e)
                 | Ok _ => Err (StoreFailed "unexpected reply")
                 | Err e => Err e
                 end with
         | Ok b => Ok b
         | Err _ => Err OtherIo
         end).

(** The guard of the request's operation, while the request owns it. *)
Definition take_operation : Sys Session (option OperationGuard) :=
  g ← gets rq_operation; _ ← modify (with_operation None); mret g.

(** [OperationGuard::mark_commit_started] *)
Definition mark_commit_started : Sys Session unit :=
  operation ← gets rq_operation;
  match operation with
  | None => mret tt
  | Some g =>
      if g_completed g then mret tt
      else
        marked ← op_command (OperationStore.MarkCommitStarted (g_key g) (g_lease g));
        match marked : result StoreError OperationStore.Reply with
        | Ok (OperationStore.RMarked true) => mret tt
        | _ => throw OtherIo
        end
  end.

(** Dropping a guard sends the store's worker an abandonment. *)
Definition drop_guard (g : OperationGuard) : Sys Session unit :=
  now ← ask op_now;
  modify (fun s => with_operations (OperationRegistry.drop_guard store_limits (rq_operations s) now g) s).
Definition drop_operation : Sys Session unit :=
  operation ← take_operation;
  match operation with Some g => drop_guard g | None => mret tt end.

(** [OperationGuard::complete] consumes the guard. *)
Definition complete (outcome : OperationOutcome) : Sys Session unit :=
  operation ← take_operation;
  match operation with
  | None => mret tt
  | Some g =>
      stored ← expect (match into_stored outcome with Ok stored => Some stored | Err _ => None end);
      completed ← op_command (OperationStore.Complete (g_key g) (g_lease g) stored);
      match completed : result StoreError OperationStore.Reply with
      | Ok (OperationStore.RCompleted true) => mret tt
      | _ => _ ← drop_guard g; throw OtherIo
      end
  end.

(** ** Leases, commits and the scan of durable paths *)

Definition acquire_request_path_lease (paths : list bytes) : Sys Session bool :=
  admitted ← ask path_wait_slot;
  if admitted : bool then
    _ ← ask (acquire paths); _ ← modify (with_leased true); mret true
  else mret false.

(** Dropping the lease, if the request still has it. *)
Definition release_lease : Sys Session unit :=
  held ← gets rq_leased;
  if held : bool then _ ← ask release; modify (with_leased false) else mret tt.

(** When a request ends, what it still owns is dropped. *)
Definition owning {A} (m : Sys Session A) : Sys Session A :=
  r ← attempt m; _ ← drop_operation; _ ← release_lease; of_io r.

Definition run_operation_commit {A} (task : Sys Session A) : Sys Session A :=
  admitted ← ask commit_slot;
  if admitted : bool then _ ← progress mark_detached_commit; task else throw OtherIo.

(** The lease on the paths keeps the tables as the scan found them, as far as it is
    concerned; the fuel is one more than there are rows. *)
Definition has_persisted_path_conflict (paths : list bytes) : Sys Session bool :=
  admitted ← ask state_scan_slot;
  if negb admitted then throw OtherIo
  else
    p ← gets rq_purges;
    u ← ask uploads_now;
    fs ← ask resolving_fs;
    verdict ← ask dispatch;
    match verdict : StoreVerdict with
    | NotAccepted | NotExecuted | Unanswered _ => throw OtherIo
    | DiedBefore | DiedAfter _ => crash
    | Executed _ =>
        match StateScan.has_persisted_path_conflict (resolve_state_path root_path)
                (resolved_path_key_blocking fs) (S (size (StateScan.state_paths u p))) u p paths with
        | Some (Ok conflict) => mret conflict
        | Some (Err _) => throw OtherIo
        | None => out_of_fuel
        end
    end.

(** ** Revisions *)

(** [target_revision]: the token a client holds for the state of an entry. *)
Definition target_revision (owner_id relative : bytes) (i : ReplacementTargetIdentity) : option bytes :=
  if negb (exists_ i) then None
  else Some (sha256 (str "xczs-upload-target-revision-v1" ++ [x00] ++ owner_id
                     ++ be_bytes 8 (Z.of_nat (length relative)) ++ relative ++ revision_digest i)).

(** ** Rejections *)

Definition apply_rejection (id : bytes) (status : Z) (code : ErrorCode) (text : bytes)
    (advice : RecoveryAdvice) : Sys Session unit := respond (rejected hyphenated id status code text advice).

Definition PATH_WAIT_LIMIT_DETAIL : bytes := str "Too many path-coordinated requests are active".
Definition render_path_wait_limit (id : bytes) : Sys Session unit :=
  apply_rejection id 429 PATH_WAIT_CONCURRENCY_LIMIT PATH_WAIT_LIMIT_DETAIL (RetryAfterSeconds 1).

(** Completing an operation and answering with its outcome. *)
Definition finish (id : bytes) (outcome : OperationOutcome) : Sys Session unit :=
  _ ← complete outcome;
  respond (apply_operation_outcome hyphenated id outcome false).

(** What a request is told that did not start its operation; [true] if it did. *)
Definition answer_begin (id : bytes) (b : BeginOperation) : Sys Session bool :=
  match b with
  | BStarted g => _ ← progress mark_reserved; _ ← modify (with_operation (Some g)); mret true
  | BRunning => _ ← respond (apply_running hyphenated id); mret false
  | BReplay outcome => _ ← respond (apply_operation_outcome hyphenated id outcome true); mret false
  | BConflict => _ ← respond (apply_conflict hyphenated id); mret false
  | BFull => _ ← respond (apply_registry_full hyphenated id); mret false
  | BUnavailable => _ ← respond (apply_registry_unavailable hyphenated id); mret false
  end.

(** ** The end of a request *)

(** How the router answers, whichever way the handler of the operation [id] ended. *)
Definition serve (id : bytes) (handler : Sys Session unit) : Sys Session unit :=
  ended ← attempt (owning handler);
  p ← gets rq_progress;
  match ended : result IoError unit with
  | Ok _ => respond (complete_headers hyphenated id p)
  | Err _ => respond (fun _ => apply_operation_error hyphenated id p)
  end.
End world.
