(* ===== verification/RootedMutations.v ===== *)
(** * Checked mutations below the shared root

    From [server/rooted_fs.rs] and [server.rs]: the metadata of an entry, the tests that
    keep requests inside the shared root and out of the platform's namespaces, the
    creation of a directory, the relocation of an entry whose source and destination
    were observed before, and the publication of a staged file.  The mutex that
    serialises the creation of ancestors is not modelled: the laws of the calls allow
    any other program to act between two of them. *)

From S2P Require Import Prelude Paths PathKeys RootedPaths PathPolicy FileRevision.
From S2P Require Import Kernel TrashPurge RootedParents TrashMoves PurgeWorker MutationWorld.

Import RootedPaths.

Inductive CheckedRelocationOutcome : Type :=
| Relocated | SourceChangedOutcome | DestinationChangedOutcome | DestinationExistsOutcome | SameFile.
#[global] Instance CheckedRelocationOutcome_eq_dec : EqDecision CheckedRelocationOutcome.
Proof. solve_decision. Defined.

Inductive CheckedMissingRename : Type := Renamed | DestinationPresent | PublishedIdentityUnknown (e : IoError).

Inductive ReplaceAndSyncOutcome : Type :=
| Published | ReplaceRejected | NotPublished (e : IoError) | PublishedDurabilityUnknown (e : IoError).

Section mutations.
Context `{Kernel} `{!ServerEnv} `{!MutationEnv} {S : Type}.

(** ** Metadata *)

Definition relative_path_or_dot (path : bytes) : result IoError bytes :=
  relative ← ok_or (strip_path_prefix path root_path) PermissionDenied;
  if bool_decide (relative = []) then Ok DOT
  else if existsb (fun c => negb (is_normal c)) relative then Err InvalidInput
  else ok_or (strip_path path root_path) PermissionDenied.

Definition metadata_of (nofollow : bool) (path : bytes) : Sys S Stat :=
  gated (relative ← of_io (relative_path_or_dot path);
         fd ← io (openat2_path nofollow relative);
         io (fstat fd)).
Definition metadata_nofollow (path : bytes) : Sys S Stat := metadata_of true path.
Definition metadata (path : bytes) : Sys S Stat := metadata_of false path.

Definition is_dir (st : Stat) : bool := bool_decide (from_raw_mode (st_mode st) = Directory).
Definition is_file (st : Stat) : bool := bool_decide (from_raw_mode (st_mode st) = RegularFile).

Definition route_metadata (path : bytes) : Sys S (option Stat) :=
  found ← attempt (metadata path);
  match found : result IoError Stat with
  | Ok st => mret (Some st)
  | Err NotFound | Err FilesystemLoop =>
      fallback ← attempt (metadata_nofollow path);
      match fallback : result IoError Stat with
      | Ok st => mret (Some st)
      | Err e => if not_found e then mret None else throw e
      end
  | Err CrossesDevices | Err NotADirectory => mret None
  | Err e => throw e
  end.

(** [true]: the path leaves the shared root. *)
Definition guard_root_contained (path : bytes) : Sys S bool :=
  found ← attempt (metadata path);
  match found : result IoError Stat with
  | Ok _ | Err NotFound | Err NotADirectory => mret false
  | Err CrossesDevices => mret true
  | Err e => throw e
  end.

(** ** Platform namespaces *)

Fixpoint reserved_conflict (fs : Fs OwnedFd) (target : ResolvedPathKey) (protect_ancestors : bool)
    (reserved : list bytes) : result IoError bool :=
  match reserved with
  | [] => Ok false
  | r :: reserved =>
      key ← resolved_path_key_blocking fs (push root_path (trim_start_matches SLASH r));
      if resolved_path_contains key target || (protect_ancestors && resolved_path_contains target key)
      then Ok true else reserved_conflict fs target protect_ancestors reserved
  end.

Definition platform_path_conflict (path : bytes) (protect_ancestors : bool) : Sys S bool :=
  if path_eqb path root_path then mret protect_ancestors
  else gated (
    fs ← ask resolving_fs;
    match resolved_path_key_blocking fs path with
    | Ok target => of_io (reserved_conflict fs target protect_ancestors platform_reserved_paths)
    | Err CrossesDevices => mret true
    | Err e => throw e
    end).

(** ** Directories *)

Definition create_directory (path : bytes) : Sys S bool :=
  gated (
    parent ← open_parent_blocking path true;
    made ← call (mkdirat (op_fd parent) (op_name parent));
    match made : result Errno unit with
    | Err e => rollback_and_throw (op_created parent) (of_errno e)
    | Ok _ =>
        _ ← io (fsync (op_fd parent));
        mret (negb (bool_decide (length (op_created parent) = 0%nat)))
    end).

(** ** Renames *)

Definition opened_directories_match (first second : OwnedFd) : Sys S bool :=
  a ← io (fstat first); b ← io (fstat second);
  mret ((st_dev a =? st_dev b) && (st_ino a =? st_ino b))%Z.

Definition sync_renamed_parents (source destination : OwnedFd) (same_parent : bool) : Sys S unit :=
  _ ← io (fsync source);
  if same_parent then mret tt else io (fsync destination).

Definition rename_missing_and_verify (source_parent : OwnedFd) (source_name : bytes) (source_anchor : OwnedFd)
    (destination_parent : OwnedFd) (destination_name : bytes) : Sys S CheckedMissingRename :=
  renamed ← call (renameat_noreplace source_parent source_name destination_parent destination_name);
  match renamed : result Errno unit with
  | Err EXIST => mret DestinationPresent
  | Err e => throw (of_errno e)
  | Ok _ =>
      anchored ← call (fstat source_anchor);
      match anchored : result Errno Stat with
      | Err _ => mret (PublishedIdentityUnknown InvalidData)
      | Ok anchored =>
          named ← call (statat destination_parent destination_name);
          match named : result Errno Stat with
          | Err _ => mret (PublishedIdentityUnknown InvalidData)
          | Ok named =>
              if bool_decide (replacement_target_identity anchored = replacement_target_identity named)
              then mret Renamed else mret (PublishedIdentityUnknown InvalidData)
          end
      end
  end.

(** The destination was observed before: it must be as it was, and is replaced. *)
Definition replace_expected (source destination : OpenedParent) (source_stat : Stat)
    (current_destination : ReplacementTargetIdentity) (expected : ExistingReplacementTarget)
    : Sys S (option CheckedRelocationOutcome) :=
  if negb (bool_decide (current_destination = Existing expected)) then mret (Some DestinationChangedOutcome)
  else if ((st_dev source_stat =? rt_device expected) && (st_ino source_stat =? rt_inode expected))%Z
  then mret (Some SameFile)
  else
    _ ← io (renameat (op_fd source) (op_name source) (op_fd destination) (op_name destination));
    mret None.

(** The destination must be missing. *)
Definition move_to_missing (source destination : OpenedParent) (same_parent : bool)
    (expected_source current_destination : ReplacementTargetIdentity) (destination_changed : bool)
    : Sys S (option CheckedRelocationOutcome) :=
  let present := Some (if destination_changed then DestinationChangedOutcome else DestinationExistsOutcome) in
  if negb (bool_decide (current_destination = Missing)) then mret present
  else
    anchor ← call (openat_path (op_fd source) (op_name source));
    match anchor : result Errno OwnedFd with
    | Err e => if missing_errno e then mret (Some SourceChangedOutcome) else throw (of_errno e)
    | Ok source_anchor =>
        anchored ← io (fstat source_anchor);
        if negb (bool_decide (Existing (replacement_target_identity anchored) = expected_source))
        then mret (Some SourceChangedOutcome)
        else
          renamed ← rename_missing_and_verify (op_fd source) (op_name source) source_anchor
                      (op_fd destination) (op_name destination);
          match renamed with
          | Renamed => mret None
          | DestinationPresent => mret present
          | PublishedIdentityUnknown e =>
              _ ← attempt (sync_renamed_parents (op_fd source) (op_fd destination) same_parent);
              throw e
          end
    end.

(** Both parents are open: [None] from the two branches goes on to the final [fsync]. *)
Definition relocate_between (source destination : OpenedParent) (expected_source : ReplacementTargetIdentity)
    (expected_destination : option ReplacementTargetIdentity) : Sys S CheckedRelocationOutcome :=
  same_parent ← opened_directories_match (op_fd source) (op_fd destination);
  found ← call (statat (op_fd source) (op_name source));
  match found : result Errno Stat with
  | Err e => if missing_errno e then mret SourceChangedOutcome else throw (of_errno e)
  | Ok source_stat =>
      if negb (bool_decide (Existing (replacement_target_identity source_stat) = expected_source))
      then mret SourceChangedOutcome
      else
        occupant ← call (statat (op_fd destination) (op_name destination));
        current_destination ← match occupant : result Errno Stat with
                              | Ok st => mret (Existing (replacement_target_identity st))
                              | Err e => if missing_errno e then mret Missing else throw (of_errno e)
                              end;
        ended ← match expected_destination with
                | Some (Existing expected) =>
                    replace_expected source destination source_stat current_destination expected
                | _ =>
                    move_to_missing source destination same_parent expected_source current_destination
                      (bool_decide (is_Some expected_destination))
                end;
        match ended : option CheckedRelocationOutcome with
        | Some outcome => mret outcome
        | None =>
            _ ← sync_renamed_parents (op_fd source) (op_fd destination) same_parent;
            mret Relocated
        end
  end.

Definition rename_if_unchanged (source destination : bytes) (expected_source : ReplacementTargetIdentity)
    (expected_destination : option ReplacementTargetIdentity) : Sys S CheckedRelocationOutcome :=
  gated (
    opened ← attempt (open_parent_blocking source false);
    match opened : result IoError OpenedParent with
    | Err e => if not_found e then mret SourceChangedOutcome else throw e
    | Ok source =>
        opened ← attempt (open_parent_blocking destination false);
        match opened : result IoError OpenedParent with
        | Err e => if not_found e then mret DestinationChangedOutcome else throw e
        | Ok destination => relocate_between source destination expected_source expected_destination
        end
    end).

(** ** Publishing a staged file *)

(** [PreparedCheckedReplace] *)
Inductive PreparedCheckedReplace : Type :=
| PreparedRenamed (source destination : OpenedParent) (same_parent : bool)
| PreparedRejected | PreparedIdentityUnknown (e : IoError).

Definition prepare_checked_replace (source destination : bytes) (opened_source : OwnedFd)
    (expected_destination : ReplacementTargetIdentity) : Sys S PreparedCheckedReplace :=
  source ← open_parent_blocking source false;
  destination ← open_parent_blocking destination false;
  same_parent ← opened_directories_match (op_fd source) (op_fd destination);
  opened_stat ← io (fstat opened_source);
  named ← call (statat (op_fd source) (op_name source));
  match named : result Errno Stat with
  | Err NOENT => mret PreparedRejected
  | Err e => throw (of_errno e)
  | Ok named_stat =>
      let opened_identity := replacement_target_identity opened_stat in
      if negb (bool_decide (opened_identity = replacement_target_identity named_stat))
         || negb (bool_decide (rt_file_type opened_identity = RegularFile))
         || negb (rt_links opened_identity =? 1)%Z
      then mret PreparedRejected
      else
        occupant ← call (statat (op_fd destination) (op_name destination));
        current ← match occupant : result Errno Stat with
                  | Ok st => mret (Some (replacement_target_identity st))
                  | Err NOENT => mret None
                  | Err e => throw (of_errno e)
                  end;
        match expected_destination with
        | Missing =>
            match current : option ExistingReplacementTarget with
            | Some _ => mret PreparedRejected
            | None =>
                renamed ← rename_missing_and_verify (op_fd source) (op_name source) opened_source
                            (op_fd destination) (op_name destination);
                match renamed with
                | Renamed => mret (PreparedRenamed source destination same_parent)
                | DestinationPresent => mret PreparedRejected
                | PublishedIdentityUnknown e =>
                    _ ← attempt (sync_renamed_parents (op_fd source) (op_fd destination) same_parent);
                    mret (PreparedIdentityUnknown e)
                end
            end
        | Existing expected =>
            if negb (bool_decide (current = Some expected)) then mret PreparedRejected
            else
              _ ← io (renameat (op_fd source) (op_name source) (op_fd destination) (op_name destination));
              mret (PreparedRenamed source destination same_parent)
        end
  end.

Definition rename_replace_if_unchanged (source : bytes) (source_file : OwnedFd) (destination : bytes)
    (expected_destination : ReplacementTargetIdentity) : Sys S ReplaceAndSyncOutcome :=
  opened ← call (dup source_file);
  match opened : result Errno OwnedFd with
  | Err e => mret (NotPublished (of_errno e))
  | Ok opened_source =>
      ran ← attempt (gated (
        prepared ← attempt (prepare_checked_replace source destination opened_source expected_destination);
        match prepared : result IoError PreparedCheckedReplace with
        | Ok (PreparedRenamed source destination same_parent) =>
            synced ← attempt (sync_renamed_parents (op_fd source) (op_fd destination) same_parent);
            match synced : result IoError unit with
            | Ok _ => mret Published
            | Err e => mret (PublishedDurabilityUnknown e)
            end
        | Ok PreparedRejected => mret ReplaceRejected
        | Ok (PreparedIdentityUnknown e) => mret (PublishedDurabilityUnknown e)
        | Err e => mret (NotPublished e)
        end));
      match ran : result IoError ReplaceAndSyncOutcome with
      | Ok outcome => mret outcome
      | Err e => mret (PublishedDurabilityUnknown e)
      end
  end.
End mutations.
