(* ===== verification/DeleteHandler.v ===== *)
(** * Deleting

    The DELETE request of [server/router/files.rs] and [handle_delete] of
    [server/delete.rs]: the target must be the one the client saw; its deletion is
    recorded before it is moved into the trash, and made ready for the purge worker
    afterwards. *)

From S2P Require Import Prelude Paths Sql StateModel OperationStore OperationRegistry PurgeStore RootedPaths PathPolicy.
From S2P Require Import Problem UploadProtocol FileRevision OperationResponse Kernel TrashPurge RootedParents TrashMoves.
From S2P Require Import PurgeWorker MutationWorld RootedMutations.

Import RootedPaths OperationRegistry MutationWorld.

Inductive DeleteCommitOutcome : Type :=
| DeleteSucceeded
| DeleteRejected (outcome : OperationOutcome)
| DeleteTargetMoved (outcome : OperationOutcome) (current_revision : option bytes).

Inductive DeleteCondition : Type := ConditionMissing | ConditionInvalid | ConditionRevision (revision : bytes).

Definition IF_MATCH : string := "if-match".
Definition QUOTE : byte := x22.

Definition parse_delete_condition (headers : UploadProtocol.HeaderMap) : DeleteCondition :=
  match UploadProtocol.get_all headers IF_MATCH with
  | [] => ConditionMissing
  | [value] =>
      match value ← UploadProtocol.to_str value; value ← strip_prefix [QUOTE] value;
            value ← strip_suffix [QUOTE] value; UploadProtocol.TargetRevision_parse value with
      | Some revision => ConditionRevision revision
      | None => ConditionInvalid
      end
  | _ => ConditionInvalid
  end.

Section delete.
Context `{Kernel} `{!ServerEnv} `{!MutationEnv}.

(** ** The commit *)

(** The revision a client is told after its target changed. *)
Definition current_revision (owner_id relative path : bytes) : Sys Session (option bytes) :=
  found ← attempt (replacement_identity path);
  mret (match found : result IoError ReplacementTargetIdentity with
        | Ok i => target_revision owner_id relative i
        | Err _ => None
        end).

(** The intent is withdrawn, and the operation ends with [outcome]. *)
Definition withdraw (key : PurgeJobKey) (outcome : OperationOutcome) : Sys Session unit :=
  gone ← on_purges (remove_purge_job key);
  if negb gone then throw OtherIo else complete outcome.

(** With the intent recorded: the move, and what becomes of the intent. *)
Definition commit_prepared (owner path : bytes) (prepared : PreparedPurge)
    (expected_revision_identity : ReplacementTargetIdentity) : Sys Session DeleteCommitOutcome :=
  _ ← mark_commit_started;
  moved ← move_to_trash_with_expected_identity_outcome path (pp_trash_id prepared)
            (pp_source_identity prepared) (Some expected_revision_identity);
  match moved with
  | Moved trash =>
      ready ← on_purges (mark_purge_job_ready (pp_key prepared) (te_revision trash));
      if negb ready then throw OtherIo
      else _ ← complete (success 204); mret DeleteSucceeded
  | TargetChanged =>
      let outcome := failure 412 DeleteTargetChanged in
      _ ← withdraw (pp_key prepared) outcome;
      relative ← of_io (state_relative_path root_path path);
      revision ← current_revision (owner_persistent owner) relative path;
      mret (DeleteTargetMoved outcome revision)
  | NotMoved _ =>
      let outcome := failure 500 DeleteNotCommitted in
      _ ← withdraw (pp_key prepared) outcome;
      mret (DeleteRejected outcome)
  | DurabilityUnknown e => throw e
  end.

Definition delete_commit (owner path : bytes) (expected_delete_identity : DeleteIdentity)
    (expected_revision_identity : ReplacementTargetIdentity) : Sys Session DeleteCommitOutcome :=
  prepared ← attempt (on_purges
    (prepare_purge_with_identity (owner_persistent owner) path expected_delete_identity));
  match prepared : result IoError PreparePurge with
  | Ok (PPrepared prepared) =>
      committed ← attempt (commit_prepared owner path prepared expected_revision_identity);
      _ ← release_lease;
      match committed : result IoError DeleteCommitOutcome with
      | Ok DeleteSucceeded => _ ← ask notify_purge_worker; mret DeleteSucceeded
      | Ok outcome => mret outcome
      | Err e => _ ← on_purges (reconcile_prepared_purge_key (pp_key prepared)); throw e
      end
  | Ok PFull =>
      let outcome := failure 503 PurgeBacklogFull in
      _ ← complete outcome; mret (DeleteRejected outcome)
  | Err _ =>
      let outcome := failure 503 PurgeStateUnavailable in
      _ ← complete outcome; mret (DeleteRejected outcome)
  end.

Definition handle_delete (owner operation_id path : bytes) (expected_revision_identity : ReplacementTargetIdentity)
    (expected_delete_identity : DeleteIdentity) : Sys Session unit :=
  conflict ← attempt (has_persisted_path_conflict [path]);
  match conflict : result IoError bool with
  | Ok true => finish operation_id (failure 409 DeleteStateConflict)
  | Err _ =>
      _ ← drop_operation;
      apply_rejection operation_id 503 PURGE_STATE_UNAVAILABLE
        (str "Delete state storage is temporarily unavailable") (RetryAfterSeconds 1)
  | Ok false =>
      outcome ← run_operation_commit
        (delete_commit owner path expected_delete_identity expected_revision_identity);
      match outcome with
      | DeleteSucceeded => respond (apply_operation_outcome hyphenated operation_id (success 204) false)
      | DeleteRejected o => respond (apply_operation_outcome hyphenated operation_id o false)
      | DeleteTargetMoved o revision =>
          _ ← respond (put_source_revision revision);
          respond (apply_operation_outcome hyphenated operation_id o false)
      end
  end.

(** ** The request *)

Definition reserved_target (route_path : bytes) : bool :=
  match head (split SLASH route_path) with
  | Some part => PathPolicy.is_reserved_component platform_reserved_paths path_policy part
  | None => false
  end
  || PathPolicy.is_platform_path platform_reserved_paths route_path
  || PathPolicy.is_platform_ancestor platform_reserved_paths route_path.

(** The target is the one whose revision the client sent. *)
Definition dispatch_delete (owner operation_id path expected_revision : bytes) : Sys Session unit :=
  identity ← replacement_identity path;
  relative ← of_io (state_relative_path root_path path);
  let current := target_revision (owner_persistent owner) relative identity in
  if negb (bool_decide (current = Some expected_revision)) then
    _ ← respond (put_source_revision current);
    finish operation_id (failure 412 DeleteTargetChanged)
  else
    delete_identity ← expect (delete_identity_of identity);
    handle_delete owner operation_id path identity delete_identity.

(** Admission and inspection of the target; [true] if the request goes on. *)
Definition prepare_target (operation_id path : bytes) : Sys Session bool :=
  admitted ← acquire_request_path_lease [path];
  if negb admitted then _ ← render_path_wait_limit operation_id; mret false
  else
    conflict ← platform_path_conflict path true;
    hidden ← (if conflict : bool then mret true
              else
                found ← route_metadata path;
                match found : option Stat with
                | Some _ => mret false
                | None => guard_root_contained path
                end);
    if hidden : bool then _ ← finish operation_id (failure 404 TargetNotFound); mret false
    else mret true.

(** The operation begins, under the revision the client requires; [go_on] is what the
    request does once it owns the operation. *)
Definition begin_delete (owner operation_id route_path : bytes) (condition : DeleteCondition)
    (go_on : bytes -> Sys Session unit) : Sys Session unit :=
  match condition with
  | ConditionMissing =>
      apply_rejection operation_id 428 SOURCE_REVISION_REQUIRED (str "The If-Match header is required")
        NoAdvice
  | ConditionInvalid =>
      apply_rejection operation_id 400 INVALID_SOURCE_REVISION
        (str "If-Match must contain one strong quoted target revision") NoAdvice
  | ConditionRevision revision =>
      begun ← begin_tracked owner operation_id
                (fingerprint sha256 [str "DELETE"; route_path; revision]);
      started ← answer_begin operation_id begun;
      if negb started then mret tt else go_on revision
  end.

(** [FileRequest::prepare_content] for [DELETE] *)
Definition delete_request (owner route_path : bytes) (headers : UploadProtocol.HeaderMap) : Sys Session unit :=
  match parse_operation_id parse_uuid hyphenated headers with
  | Ok None => respond (apply_invalid_id (str "The x-xczs-operation-id header is required"))
  | Err message => respond (apply_invalid_id message)
  | Ok (Some operation_id) =>
      let path := PathPolicy.resolve_route path_policy route_path in
      if reserved_target route_path then
        apply_rejection operation_id 404 TARGET_NOT_FOUND (str "Target not found") NoAdvice
      else if PathPolicy.is_managed_root path_policy path then
        apply_rejection operation_id 403 ROOT_DELETE_FORBIDDEN (str "Shared root cannot be deleted") NoAdvice
      else
        begin_delete owner operation_id route_path (parse_delete_condition headers) (fun revision =>
          ready ← prepare_target operation_id path;
          if ready : bool then dispatch_delete owner operation_id path revision else mret tt)
  end.
End delete.
