(* ===== verification/BrowserApi.v ===== *)
(** * The browser's mutations

    [server/browser_api.rs]: creating directories, moving and renaming.  A request
    names its operation; its handler checks the paths, the revisions the client saw and
    the durable state, commits the change, and completes the operation with the outcome
    it answers.  The operation of these requests is always present ([TrackedOperation]
    is [Some] from [handle_browser_api] on), so its absence is not a case here. *)

From S2P Require Import Prelude Paths Utils Sql StateModel OperationStore OperationRegistry RootedPaths PathPolicy.
From S2P Require Import Problem UploadProtocol FileRevision OperationResponse Kernel TrashPurge RootedParents TrashMoves.
From S2P Require Import PurgeWorker MutationWorld RootedMutations.

Import RootedPaths OperationRegistry MutationWorld.

Definition MKDIR_API_PATH : bytes := str "__xczs__/api/mkdir".
Definition MOVE_API_PATH : bytes := str "__xczs__/api/move".
Definition RENAME_API_PATH : bytes := str "__xczs__/api/rename".
Definition API_BODY_LIMIT : Z := 16384.

Definition is_tracked_browser_mutation (path : bytes) : bool :=
  bool_decide (path = MKDIR_API_PATH) || bool_decide (path = MOVE_API_PATH) || bool_decide (path = RENAME_API_PATH).

Record MkdirRequest : Type := { mk_path : bytes }.
Record MoveRequest : Type := {
  mv_source : bytes;
  mv_directory : bytes;
  mv_source_revision : option bytes;
  mv_destination_revision : option bytes;
  mv_overwrite : bool }.
Record RenameRequest : Type := {
  rn_source : bytes;
  rn_name : bytes;
  rn_source_revision : option bytes;
  rn_destination_revision : option bytes;
  rn_overwrite : bool }.

Inductive RelocationKind : Type := Move | Rename.

Definition invalid_path_error (kind : RelocationKind) : TrackedOperationError :=
  match kind with Move => InvalidMovePath | Rename => InvalidRenamePath end.
Definition state_conflict_error (kind : RelocationKind) : TrackedOperationError :=
  match kind with Move => MoveStateConflict | Rename => RenameStateConflict end.
Definition state_unavailable_code (kind : RelocationKind) : ErrorCode :=
  match kind with Move => MOVE_STATE_UNAVAILABLE | Rename => RENAME_STATE_UNAVAILABLE end.
Definition state_unavailable_detail (kind : RelocationKind) : bytes :=
  match kind with
  | Move => str "Move safety state is temporarily unavailable"
  | Rename => str "Rename safety state is temporarily unavailable"
  end.

Record RelocationRequest : Type := {
  rl_source : bytes;
  rl_destination : bytes;
  rl_destination_directory : bytes;
  rl_source_revision : option bytes;
  rl_destination_revision : option bytes;
  rl_overwrite : bool;
  rl_kind : RelocationKind }.

Definition is_single_browser_name (name : bytes) : bool :=
  negb (bool_decide (name = [])) && (length name <=? PathPolicy.BROWSER_COMPONENT_BYTES_LIMIT)%nat
  && negb (bool_decide (name = DOT)) && negb (bool_decide (name = DOTDOT))
  && negb (bool_decide (SLASH ∈ name)) && negb (bool_decide (x00 ∈ name)).

Definition logical_child (directory name : bytes) : bytes :=
  if bool_decide (directory = [SLASH]) then SLASH :: name else directory ++ SLASH :: name.

(** [str::rsplit('/').next()] and [rsplit_once('/')] *)
Definition last_segment (path : bytes) : bytes := default [] (last (split SLASH path)).
Definition rsplit_once (path : bytes) : option (bytes * bytes) :=
  let segments := split SLASH path in
  if (length segments <=? 1)%nat then None
  else Some (join [SLASH] (take (pred (length segments)) segments), last_segment path).

Section browser.
Context `{Kernel} `{!ServerEnv} `{!MutationEnv}.

Definition resolve_browser_path (path : bytes) : option bytes :=
  PathPolicy.parse_browser_target parse_uuid hyphenated platform_reserved_paths path_policy path.
Definition resolve_browser_directory (path : bytes) : option bytes :=
  PathPolicy.parse_list_target parse_uuid hyphenated platform_reserved_paths path_policy path.
Definition protects (path : bytes) : bool :=
  PathPolicy.protects_platform_namespace platform_reserved_paths path_policy path.

Definition finish_api_error (id : bytes) (status : Z) (error : TrackedOperationError) : Sys Session unit :=
  finish id (failure status error).

(** [status_api_error] with an operation *)
Definition status_api_error (id : bytes) (status : Z) (code : ErrorCode) (message : bytes) : Sys Session unit :=
  apply_rejection id status code message NoAdvice.

(** No lease: the operation is given up. *)
Definition refuse_wait (id : bytes) : Sys Session unit := _ ← drop_operation; render_path_wait_limit id.

(** Short-circuiting disjunction of tests. *)
Definition or_else {S} (a b : Sys S bool) : Sys S bool := x ← a; if x : bool then mret true else b.

(** A commit holds the lease until it ends. *)
Definition commit_with_lease {A} (task : Sys Session A) : Sys Session A :=
  run_operation_commit (r ← attempt task; _ ← release_lease; of_io r).

(** ** Directories *)

Definition commit_mkdir (path : bytes) : Sys Session bool :=
  _ ← mark_commit_started;
  created ← attempt (create_directory path);
  match created : result IoError bool with
  | Ok _ => _ ← complete (success 201); mret true
  | Err AlreadyExists => _ ← complete (failure 409 PathExists); mret false
  | Err e => throw e
  end.

Definition handle_api_mkdir (id : bytes) (request : MkdirRequest) : Sys Session unit :=
  match resolve_browser_path (mk_path request) with
  | None => finish_api_error id 400 InvalidPath
  | Some path =>
      admitted ← acquire_request_path_lease [path];
      if negb admitted then refuse_wait id
      else
        invalid ← or_else (guard_root_contained path) (platform_path_conflict path false);
        if invalid : bool then finish_api_error id 400 InvalidPath
        else
          found ← attempt (metadata_nofollow path);
          match found : result IoError Stat with
          | Ok _ => finish_api_error id 409 PathExists
          | Err NotFound =>
              conflict ← attempt (has_persisted_path_conflict [path]);
              match conflict : result IoError bool with
              | Ok true => finish_api_error id 409 MkdirStateConflict
              | Err _ =>
                  _ ← drop_operation;
                  apply_rejection id 503 MKDIR_STATE_UNAVAILABLE
                    (str "Directory safety state is temporarily unavailable") (RetryAfterSeconds 1)
              | Ok false =>
                  created ← commit_with_lease (commit_mkdir path);
                  respond (apply_operation_outcome hyphenated id
                             (if created : bool then success 201 else failure 409 PathExists) false)
              end
          | Err e => throw e
          end
  end.

(** ** Relocations *)

(** The outcome recorded for the way a relocation ended. *)
Definition relocation_outcome (o : CheckedRelocationOutcome) : OperationOutcome :=
  match o with
  | Relocated => success 204
  | DestinationExistsOutcome => failure 409 DestinationExists
  | SameFile => failure 409 SourceEqualsDestination
  | SourceChangedOutcome => failure 412 SourceChanged
  | DestinationChangedOutcome => failure 412 DestinationChanged
  end.

Definition commit_relocation (source destination : bytes) (source_identity : ReplacementTargetIdentity)
    (expected_destination : option ReplacementTargetIdentity) : Sys Session CheckedRelocationOutcome :=
  _ ← mark_commit_started;
  outcome ← rename_if_unchanged source destination source_identity expected_destination;
  _ ← complete (relocation_outcome outcome);
  mret outcome.

(** The revision header of a target that changed, if it can be read. *)
Definition tell_revision (put : option bytes -> OpResponse -> OpResponse) (owner relative path : bytes)
    : Sys Session unit :=
  found ← attempt (replacement_identity path);
  match found : result IoError ReplacementTargetIdentity with
  | Ok i => respond (put (target_revision (owner_persistent owner) relative i))
  | Err _ => mret tt
  end.

(** With all checks passed: the commit and its answer. *)
Definition finish_relocation (owner id : bytes) (request : RelocationRequest)
    (source_relative destination_relative : bytes)
    (source_identity destination_identity : ReplacementTargetIdentity) : Sys Session unit :=
  outcome ← commit_with_lease
    (commit_relocation (rl_source request) (rl_destination request) source_identity
       (if rl_overwrite request then Some destination_identity else None));
  _ ← match outcome with
      | SourceChangedOutcome => tell_revision put_source_revision owner source_relative (rl_source request)
      | DestinationChangedOutcome =>
          tell_revision put_target_revision owner destination_relative (rl_destination request)
      | _ => mret tt
      end;
  respond (apply_operation_outcome hyphenated id (relocation_outcome outcome) false).

(** The durable state does not stand in the way. *)
Definition admit_relocation (owner id : bytes) (request : RelocationRequest)
    (source_relative destination_relative : bytes)
    (source_identity destination_identity : ReplacementTargetIdentity) : Sys Session unit :=
  outside ← guard_root_contained (rl_destination request);
  if outside : bool then finish_api_error id 400 (invalid_path_error (rl_kind request))
  else
    conflict ← attempt (has_persisted_path_conflict [rl_source request; rl_destination request]);
    match conflict : result IoError bool with
    | Ok true => finish_api_error id 409 (state_conflict_error (rl_kind request))
    | Err _ =>
        _ ← drop_operation;
        apply_rejection id 503 (state_unavailable_code (rl_kind request))
          (state_unavailable_detail (rl_kind request)) (RetryAfterSeconds 1)
    | Ok false =>
        finish_relocation owner id request source_relative destination_relative source_identity
          destination_identity
    end.

(** The destination is free, or may be replaced. *)
Definition check_destination (owner id : bytes) (request : RelocationRequest) (destination_revision : option bytes)
    (source_relative : bytes) (source_identity : ReplacementTargetIdentity) (source_meta : Stat)
    : Sys Session unit :=
  destination_identity ← replacement_identity (rl_destination request);
  destination_relative ← of_io (state_relative_path root_path (rl_destination request));
  let current := target_revision (owner_persistent owner) destination_relative destination_identity in
  if rl_overwrite request && negb (bool_decide (current = destination_revision)) then
    _ ← respond (put_target_revision current);
    finish_api_error id 412 DestinationChanged
  else
    destination_meta ← (if exists_ destination_identity
                        then st ← metadata_nofollow (rl_destination request); mret (Some st)
                        else mret None);
    let go_on := admit_relocation owner id request source_relative destination_relative source_identity
                   destination_identity in
    match destination_meta : option Stat with
    | None => go_on
    | Some destination_meta =>
        if is_dir source_meta || is_dir destination_meta
        then finish_api_error id 409 DirectoryOverwriteForbidden
        else if negb (rl_overwrite request) then
          _ ← respond (put_target_revision current);
          finish_api_error id 409 DestinationExists
        else if ((st_dev source_meta =? st_dev destination_meta)
                 && (st_ino source_meta =? st_ino destination_meta))%Z
        then finish_api_error id 409 SourceEqualsDestination
        else go_on
    end.

(** The source is as the client saw it, and both paths may be changed. *)
Definition check_relocation (owner id : bytes) (request : RelocationRequest) (source_revision : bytes)
    (destination_revision : option bytes) : Sys Session unit :=
  let source := rl_source request in
  let destination := rl_destination request in
  source_identity ← replacement_identity source;
  source_relative ← of_io (state_relative_path root_path source);
  let current := target_revision (owner_persistent owner) source_relative source_identity in
  if negb (bool_decide (current = Some source_revision)) then
    _ ← respond (put_source_revision current);
    finish_api_error id 412 SourceChanged
  else
    invalid ← or_else (guard_root_contained source)
                (or_else (guard_root_contained destination)
                   (or_else (platform_path_conflict source true) (platform_path_conflict destination true)));
    if invalid : bool then finish_api_error id 400 (invalid_path_error (rl_kind request))
    else
      found ← attempt (metadata_nofollow source);
      match found : result IoError Stat with
      | Err NotFound => finish_api_error id 404 SourceNotFound
      | Err e => throw e
      | Ok source_meta =>
          if is_dir source_meta && starts_with destination source
          then finish_api_error id 409 DirectoryIntoItself
          else
            directory ← attempt (metadata (rl_destination_directory request));
            match directory : result IoError Stat with
            | Ok meta =>
                if is_dir meta then
                  check_destination owner id request destination_revision source_relative source_identity source_meta
                else finish_api_error id 409 DestinationNotDirectory
            | Err e => if not_found e then finish_api_error id 404 DestinationDirectoryNotFound else throw e
            end
      end.

(** The revisions a relocation must come with. *)
Definition required_revisions (request : RelocationRequest)
    : result (Z * TrackedOperationError) (bytes * option bytes) :=
  source ← match rl_source_revision request with
           | Some value => ok_or (UploadProtocol.TargetRevision_parse value) (400%Z, InvalidSourceRevision)
           | None => Err (428%Z, SourceRevisionRequired)
           end;
  destination ← match rl_overwrite request, rl_destination_revision request with
                | false, None => Ok None
                | false, Some _ => Err (400%Z, InvalidDestinationRevision)
                | true, None => Err (428%Z, DestinationRevisionRequired)
                | true, Some value =>
                    r ← ok_or (UploadProtocol.TargetRevision_parse value) (400%Z, InvalidDestinationRevision);
                    Ok (Some r)
                end;
  Ok (source, destination).

Definition handle_api_relocation (owner id : bytes) (request : RelocationRequest) : Sys Session unit :=
  if protects (rl_source request) || protects (rl_destination request)
  then finish_api_error id 400 InvalidPath
  else
    match required_revisions request with
    | Err (status, error) => finish_api_error id status error
    | Ok (source_revision, destination_revision) =>
        if path_eqb (rl_source request) (rl_destination request)
        then finish_api_error id 400 SourceEqualsDestination
        else
          admitted ← acquire_request_path_lease [rl_source request; rl_destination request];
          if negb admitted then refuse_wait id
          else check_relocation owner id request source_revision destination_revision
    end.

Definition handle_api_move (owner id : bytes) (request : MoveRequest) : Sys Session unit :=
  match resolve_browser_path (mv_source request) with
  | None => finish_api_error id 400 InvalidSourcePath
  | Some source =>
      match resolve_browser_directory (mv_directory request) with
      | None => finish_api_error id 400 InvalidDestinationPath
      | Some directory =>
          match resolve_browser_path (logical_child (mv_directory request) (last_segment (mv_source request))) with
          | None => finish_api_error id 400 InvalidDestinationPath
          | Some destination =>
              handle_api_relocation owner id
                {| rl_source := source; rl_destination := destination; rl_destination_directory := directory;
                   rl_source_revision := mv_source_revision request;
                   rl_destination_revision := mv_destination_revision request;
                   rl_overwrite := mv_overwrite request; rl_kind := Move |}
          end
      end
  end.

Definition handle_api_rename (owner id : bytes) (request : RenameRequest) : Sys Session unit :=
  match resolve_browser_path (rn_source request) with
  | None => finish_api_error id 400 InvalidSourcePath
  | Some source =>
      if negb (is_single_browser_name (rn_name request)) then finish_api_error id 400 InvalidRenameName
      else
        '(parent_logical, _) ← expect (rsplit_once (rn_source request));
        let parent_logical := if bool_decide (parent_logical = []) then [SLASH] else parent_logical in
        match resolve_browser_path (logical_child parent_logical (rn_name request)) with
        | None => finish_api_error id 400 InvalidRenameName
        | Some destination =>
            destination_directory ← expect (parent source);
            handle_api_relocation owner id
              {| rl_source := source; rl_destination := destination;
                 rl_destination_directory := destination_directory;
                 rl_source_revision := rn_source_revision request;
                 rl_destination_revision := rn_destination_revision request;
                 rl_overwrite := rn_overwrite request; rl_kind := Rename |}
        end
  end.

(** ** The requests *)

(** [serde_json] and the media types of [mime] *)
Class BrowserCodec : Type := {
  parse_mkdir : bytes -> option MkdirRequest;
  parse_move : bytes -> option MoveRequest;
  parse_rename : bytes -> option RenameRequest;
  media_essence : bytes -> option bytes }.
Context `{!BrowserCodec}.

Definition CONTENT_TYPE : string := "content-type".
Definition request_content_type_is (headers : UploadProtocol.HeaderMap) (expected : bytes) : bool :=
  match UploadProtocol.get_all headers CONTENT_TYPE with
  | [value] =>
      match UploadProtocol.to_str value ≫= media_essence with
      | Some essence => Utils.eq_ignore_ascii_case essence expected
      | None => false
      end
  | _ => false
  end.

Definition dispatch_api (endpoint owner id body : bytes) : Sys Session unit :=
  if bool_decide (endpoint = MKDIR_API_PATH) then
    match parse_mkdir body with
    | Some request => handle_api_mkdir id request
    | None => finish_api_error id 400 InvalidJson
    end
  else if bool_decide (endpoint = MOVE_API_PATH) then
    match parse_move body with
    | Some request => handle_api_move owner id request
    | None => finish_api_error id 400 InvalidJson
    end
  else
    match parse_rename body with
    | Some request => handle_api_rename owner id request
    | None => finish_api_error id 400 InvalidJson
    end.

(** For the three tracked endpoints; the upload endpoints are other handlers. *)
Definition handle_browser_api (endpoint owner : bytes) (headers : UploadProtocol.HeaderMap) : Sys Session unit :=
  if negb (is_tracked_browser_mutation endpoint) then
    respond (render_op_problem (new_api_error 404 API_ENDPOINT_NOT_FOUND (str "API endpoint not found")) None)
  else
    match parse_operation_id parse_uuid hyphenated headers with
    | Ok None => respond (apply_invalid_id (str "The x-xczs-operation-id header is required"))
    | Err message => respond (apply_invalid_id message)
    | Ok (Some id) =>
        if negb (request_content_type_is headers (str "application/json")) then
          status_api_error id 415 UNSUPPORTED_MEDIA_TYPE (str "Content-Type must be application/json")
        else
          body ← ask (collect_body API_BODY_LIMIT);
          match body : result BodyError bytes with
          | Err BodyTooLarge => status_api_error id 413 REQUEST_BODY_TOO_LARGE (str "Request body too large")
          | Err BodyInvalid => status_api_error id 400 INVALID_REQUEST_BODY (str "Invalid request body")
          | Ok body =>
              begun ← begin_tracked owner id (fingerprint sha256 [str "POST"; endpoint; body]);
              started ← answer_begin id begun;
              if started : bool then dispatch_api endpoint owner id body else mret tt
          end
    end.
End browser.
