(* ===== verification/MutationLaws.v ===== *)
(** * What a request can count on

    [ChangeView] adds to [KernelView] the history of the changes this request makes
    to directories, of the states objects were seen in, and of the directories that
    were opened by their path.  [ChangeLaws] says which calls change something, what
    they record when they do, and what other requests leave alone: names made of
    identifiers of this request, its lease on its operation, and its deletion while it
    is prepared (whose paths the request has leased). *)

From S2P Require Import Prelude Paths Sql StateModel OperationStore UploadStore PurgeStore RootedPaths PathPolicy FileRevision.
From S2P Require Import Kernel KernelLaws KernelSteps TrashPurge RootedParents TrashMoves PurgeWorker.
From S2P Require Import MutationWorld RootedMutations.

Import RootedPaths.

Class ChangeView `{KernelView} : Type := {
  changes : OsWorld -> list (Change Ino);
  observed : OsWorld -> Ino -> ExistingReplacementTarget -> Prop;
  opened_at : OsWorld -> bytes -> Ino -> Prop;
  file_type : OsWorld -> Ino -> FileType }.

Section views.
Context `{ChangeView}.

(** The histories of this request only grow, and objects keep their type. *)
Record grows (w w' : OsWorld) : Prop := {
  gr_later : later w w';
  gr_observed i x : observed w i x -> observed w' i x;
  gr_opened p i : opened_at w p i -> opened_at w' p i;
  gr_type i : file_type w' i = file_type w i }.

(** Nothing is removed and nothing is changed. *)
Record still (w w' : OsWorld) : Prop := {
  sl_grows : grows w w';
  sl_removed : removed w' = removed w;
  sl_changes : changes w' = changes w }.

#[export] Instance grows_preorder : PreOrder grows.
Proof.
  split; [intros w; split; [apply later_refl|done..]|].
  intros w1 w2 w3 [] []. split; [by eapply later_trans|eauto..|congruence].
Qed.
#[export] Instance still_preorder : PreOrder still.
Proof. split; [by intros w; split|]. intros w1 w2 w3 [] []. split; [by etrans|congruence..]. Qed.

(** One more change, nothing removed. *)
Record changed (c : Change Ino) (w w' : OsWorld) : Prop := {
  cg_grows : grows w w';
  cg_removed : removed w' = removed w;
  cg_changes : changes w' = changes w ++ [c] }.

(** The answer of a [stat] call about [i]. *)
Record describes (w : OsWorld) (i : Ino) (st : Stat) : Prop := {
  ds_number : stat_number st = number i;
  ds_wide : is_u64 (st_dev st) /\ is_u64 (st_ino st);
  ds_type : from_raw_mode (st_mode st) = file_type w i;
  ds_observed : observed w i (replacement_target_identity st) }.

(** A trash name of this request. *)
Definition own (w : OsWorld) (n : bytes) : Prop :=
  exists u, drawn w u /\ n = PathPolicy.delete_trash_name hyphenated u.
End views.

(** What another task may ask of the purge table while this request prepares, makes
    ready or gives up the deletion [u]. *)
Definition spares (u : bytes) (c : PurgeStore.Command) : Prop :=
  match c with PurgeStore.MarkReady k _ | PurgeStore.RemoveJob k => id k <> u | _ => True end.
(** No other request begins with the lease [l]. *)
Definition other_lease (l : bytes) (c : OperationStore.Command) : Prop :=
  match c with OperationStore.Begin _ _ lease => lease <> l | _ => True end.

Class ChangeLaws `{L : KernelLaws} `{!ServerEnv} `{!MutationEnv} `{!ChangeView} : Prop := {
  (* calls that change nothing *)
  still_read_only :: ReadOnly still;
  still_new_v4 : op_in still new_v4;
  still_dispatch : op_in still dispatch;
  still_foreign t : op_in still (foreign t);
  still_acquire l : op_in still (acquire l);
  still_release : op_in still release;
  still_open_path b p : op_in still (openat2_path b p);
  still_resolving : op_in still resolving_fs;
  still_op_foreign t : op_in still (op_foreign t);
  still_op_now : op_in still op_now;
  still_uploads : op_in still uploads_now;
  still_path_wait : op_in still path_wait_slot;
  still_scan : op_in still state_scan_slot;
  still_commit_slot : op_in still commit_slot;
  still_notify : op_in still notify_purge_worker;
  still_body n : op_in still (collect_body n);
  (* what they answer *)
  law_fstat_describes f w st : (fstat f w).1 = Some (Ok st) -> describes (fstat f w).2 (fd_ino f) st;
  law_statat_describes d n w st : (statat d n w).1 = Some (Ok st) ->
    exists i, names (statat d n w).2 (fd_ino d) n = Some i /\ describes (statat d n w).2 i st;
  law_statat_missing d n w : (statat d n w).1 = Some (Err NOENT) -> names (statat d n w).2 (fd_ino d) n = None;
  law_opened p w f : (openat2_beneath root_fd p w).1 = Some (Ok f) ->
    opened_at (openat2_beneath root_fd p w).2 p (fd_ino f);
  (* nobody else acts on a trash name of this request *)
  law_own_fstat f d n w : own w n -> names (fstat f w).2 d n = names w d n;
  law_own_statat f m d n w : own w n -> names (statat f m w).2 d n = names w d n;
  (* a rename or [mkdirat] that is reported has happened; one that fails may have, unless
     the new name is reported to exist *)
  law_rename_noreplace d n d' n' w : let '(o, w') := renameat_noreplace d n d' n' w in
    (exists i, changed (Relinked (fd_ino d) n (fd_ino d') n' i None) w w' /\ names w' (fd_ino d') n' = Some i) /\
      o <> Some (Err EXIST) \/
    o <> Some (Ok tt) /\ still w w';
  law_renameat d n d' n' w : let '(o, w') := renameat d n d' n' w in
    (exists i x, changed (Relinked (fd_ino d) n (fd_ino d') n' i x) w w') \/ o <> Some (Ok tt) /\ still w w';
  law_mkdirat d n w : let '(o, w') := mkdirat d n w in
    changed (Made (fd_ino d) n) w w' /\ o <> Some (Err EXIST) \/ o <> Some (Ok tt) /\ still w w';
  law_unlink_changes d n flag w : let w' := (unlinkat d n flag w).2 in grows w w' /\ changes w' = changes w;
  (* digests and identifiers *)
  law_sha256 b : blob_length (sha256 b) = 32%Z;
  law_uuid w u : drawn w u -> blob_length u = 16%Z;
  law_hyphenated u : SLASH ∉ hyphenated u;
  (* the state store *)
  law_uploads w : map_Forall UploadStore.decodes (uploads_now w).1;
  law_foreign_typed t w now c : (now, c) ∈ (foreign t w).1 -> PurgeStore.command_ok now c;
  law_foreign_own t w now c u : drawn w u -> (now, c) ∈ (foreign t w).1 -> spares u c;
  law_op_foreign_lease t w now c u : drawn w u -> (now, c) ∈ (op_foreign t w).1 -> other_lease u c }.

#[export] Hint Resolve still_new_v4 still_dispatch still_foreign still_acquire still_release still_open_path
  still_resolving still_op_foreign still_op_now still_uploads still_path_wait still_scan still_commit_slot
  still_notify still_body : keeps.

Section still.
Context `{L : ChangeLaws} {S : Type}.

Lemma still_call {A} (op : OsWorld -> A * OsWorld) w a w' : op_in still op -> op w = (a, w') -> still w w'.
Proof. intros Hop E. specialize (Hop w). by rewrite E in Hop. Qed.

(** A call that changes nothing, and what follows. *)
Lemma wpx_look {A B} (op : OsWorld -> option A * OsWorld) (f : A -> Sys S B) C Q s w :
  op_in still op -> (forall w', still w w' -> C s w') ->
  (forall a w', op w = (Some a, w') -> still w w' -> wpx C (f a) Q s w') -> wpx C (call op ≫= f) Q s w.
Proof.
  intros Hop Hc Hq. apply wpx_bind, wpx_call; intros; [eapply Hq|eapply Hc]; by eauto using still_call.
Qed.

Lemma describes_grows w w' i st : grows w w' -> describes w i st -> describes w' i st.
Proof. intros Hg []. split; [done..|by rewrite (gr_type _ _ Hg)|by apply Hg]. Qed.

Lemma own_grows w w' n : grows w w' -> own w n -> own w' n.
Proof. intros [Hl _ _ _] (u & Hu & ->). exists u. split; [by apply Hl|done]. Qed.

(** A name whose description has the number of an open descriptor means its object. *)
Lemma describes_pinned w d n i f st :
  names w d n = Some i -> describes w i st -> stat_number st = number (fd_ino f) -> i = fd_ino f.
Proof. intros Hn [Hi _ _ _] Hst. eapply law_pinned; [done|]. congruence. Qed.

Lemma changed_before c w1 w2 w3 : still w1 w2 -> changed c w2 w3 -> changed c w1 w3.
Proof. intros [] []. split; [by etrans|congruence..]. Qed.
Lemma changed_after c w1 w2 w3 : changed c w1 w2 -> still w2 w3 -> changed c w1 w3.
Proof. intros [] []. split; [by etrans|congruence..]. Qed.

(** Two descriptions of an object agree on what a deletion identifies. *)
Lemma describes_deleted w w' i st st' :
  grows w w' -> describes w i st -> describes w' i st' -> delete_identity_from_stat st = delete_identity_from_stat st'.
Proof.
  intros Hg [Hn _ Ht _]%(describes_grows _ _ _ _ Hg) [Hn' _ Ht' _]. unfold stat_number, delete_identity_from_stat in *. rewrite Ht, Ht'. congruence.
Qed.

(** ** The directory that holds a path *)

(** [d] was opened as the directory of [path], whose last name is [n]. *)
Definition held (w : OsWorld) (path : bytes) (d : Ino) (n : bytes) : Prop :=
  exists cs, relative_path root_path path = Ok (cs ++ [Normal n]) /\
    (cs = [] /\ d = fd_ino root_fd \/
     exists p, p = path_from_components (component_bytes <$> cs) /\
       opened_at w (if bool_decide (p = []) then DOT else p) d).

Lemma held_grows w w' path d n : grows w w' -> held w path d n -> held w' path d n.
Proof.
  intros Hg (cs & Hr & Ho). exists cs. split; [done|].
  destruct Ho as [?|(p & Hp & Ho)]; [by left|right; exists p; split; [done|by apply Hg]].
Qed.

Lemma open_existing_opened cs current prefix (s : S) w f s' w' :
  open_existing cs current prefix s w = (Val f, s', w') ->
  cs = [] /\ f = current \/
  exists p, p = fold_left push (component_bytes <$> cs) prefix /\
    opened_at w' (if bool_decide (p = []) then DOT else p) (fd_ino f).
Proof.
  revert current prefix w. induction cs as [|[| | |c] cs IH]; intros current prefix w; cbn [open_existing]; try done.
  { intros [= -> _ _]. by left. }
  intros (next & s1 & w1 & [-> E]%io_Val & Hx)%bind_Val. right. eexists. split; [done|].
  pose proof (law_opened (if bool_decide (push prefix c = []) then DOT else push prefix c) w next) as Ho.
  rewrite E in Ho. specialize (Ho eq_refl). cbn in Ho.
  pose proof (keeps_open_existing still cs next (push prefix c) s w1) as Hk. rewrite Hx in Hk.
  destruct Hk as (_ & [Hg _ _] & _).
  apply IH in Hx as [[-> ->]|(p & -> & Hp)]; [|done]. by apply Hg.
Qed.

Lemma open_parent_held path (s : S) w p s' w' :
  open_parent_blocking path false s w = (Val p, s', w') -> held w' path (fd_ino (op_fd p)) (op_name p).
Proof.
  unfold open_parent_blocking, open_parent, parent_components.
  intros ([cs name] & s1 & w1 & Hx & Hy)%bind_Val. apply bind_Val in Hx as (rel & s2 & w2 & Hr & Hx).
  destruct (relative_path root_path path) as [rel'|] eqn:Er; [|done]. injection Hr as -> -> ->.
  destruct (last rel) as [[| | |c]|] eqn:El; try done. injection Hx as <- <- <- <-.
  apply bind_Val in Hy as (root & s3 & w3 & [-> Ed]%io_Val & Hy).
  apply bind_Val in Hy as (f & s4 & w4 & Hf & Hy). injection Hy as <- <- <-. cbn.
  exists (removelast rel). split.
  { f_equal. apply last_Some in El as [l ->]. by rewrite removelast_last. }
  apply open_existing_opened in Hf as [[-> ->]|Hp]; [left|by right]. split; [done|].
  eapply law_dup_ino. by rewrite Ed.
Qed.

(** ** Reading *)

Lemma still_metadata b path : keeps still (S := S) (metadata_of b path).
Proof. unfold metadata_of. keeps_auto. Qed.
Hint Resolve still_metadata : keeps.
Lemma still_route_metadata path : keeps still (S := S) (route_metadata path).
Proof. unfold route_metadata, metadata, metadata_nofollow. keeps_auto. Qed.
Lemma still_guard path : keeps still (S := S) (guard_root_contained path).
Proof. unfold guard_root_contained, metadata. keeps_auto. Qed.
Lemma still_platform path b : keeps still (S := S) (platform_path_conflict path b).
Proof. unfold platform_path_conflict. keeps_auto. Qed.
Lemma still_match a b : keeps still (S := S) (opened_directories_match a b).
Proof. unfold opened_directories_match. keeps_auto. Qed.
Lemma still_sync a b c : keeps still (S := S) (sync_renamed_parents a b c).
Proof. unfold sync_renamed_parents. keeps_auto. Qed.
End still.
#[export] Hint Resolve still_metadata still_route_metadata still_guard still_platform still_match still_sync : keeps.
