(* ===== verification/MutationMemory.v ===== *)
(** * Requests on the file system in memory

    The environment of [MutationWorld] on top of [KernelMemory], and its laws: requests
    run on it, and it shows that what [MutationLaws] asks for can hold. *)

From S2P Require Import Prelude Paths PathKeys Utils Sql StateModel OperationStore UploadStore PurgeStore RootedPaths PathPolicy.
From S2P Require Import UploadProtocol FileRevision.
From S2P Require Import Kernel KernelLaws KernelSteps KernelMemory TrashPurge TrashSafety RootedParents TrashMoves TrashCapture.
From S2P Require Import PurgeWorker PurgeOwnership MutationWorld RootedMutations BrowserApi MutationLaws.

Import RootedPaths KernelMemory PurgeOwnership.

Module MutationMemory.

Definition replace_entry (d : Z) (n : bytes) (d' : Z) (n' : bytes) (m : Memory) : option (result Errno unit) * Memory :=
  match entry_of m d n with
  | None => (Some (Err NOENT), tick m)
  | Some e =>
      (Some (Ok tt),
       with_notes [Relinked d n d' n' (en_object e) (name_of m d' n')] [] []
         (with_entries d (without d n (without d' n' (m_entries m))
                          ++ [{| en_dir := d'; en_offset := m_next m; en_name := n'; en_object := en_object e |}]) m))
  end.

Definition walk_path (p : bytes) (m : Memory) : option Z := walk (component_bytes <$> components p) m 1.

(** The answers the path resolver gets. *)
Definition memory_fs (m : Memory) : Fs Z :=
  {| fs_root := 1%Z; fs_root_identity := {| device := 7; inode := 1 |}; fs_root_path := str "/srv";
     fs_dup d := Ok d;
     fs_openat2 p := match walk_path p m with
                     | Some i => if holds_entries m i then Ok i else Err NotADirectory
                     | None => Err NotFound
                     end;
     fs_fstat d := Ok {| device := 7; inode := d |};
     fs_parent d := match list_find (fun e => en_object e = d) (m_entries m) with
                    | Some (_, e) => Ok (en_dir e)
                    | None => Ok d
                    end;
     fs_statat d n := match name_of m d n with Some i => Ok (holds_entries m i) | None => Err NotFound end;
     fs_child_identity d n := match name_of m d n with
                              | Some i => Ok {| device := 7; inode := i |}
                              | None => Err NotFound
                              end |}.

Definition move_text : bytes := str "move keep to archive".

#[global] Instance memory_mutations : MutationEnv (H := memory_kernel) := {|
  renameat := replace_entry;
  openat2_path _ p m := match walk_path p m with
                        | Some i => (Some (Ok i), with_notes [] [] [(p, i)] (tick m))
                        | None => (Some (Err NOENT), tick m)
                        end;
  resolving_fs m := (memory_fs m, m);
  op_foreign _ m := ([], m);
  op_now m := (1000%Z, m);
  uploads_now m := (∅, m);
  path_wait_slot m := (true, m);
  state_scan_slot m := (true, m);
  commit_slot m := (true, m);
  notify_purge_worker m := (tt, m);
  collect_body _ m := (Ok move_text, m);
  path_policy := PathPolicy.new (str "/srv") (str "__assets__/");
  platform_reserved_paths := [] |}.

#[global] Instance memory_changes : ChangeView (H0 := memory_view) := {|
  changes := m_changes;
  observed m i x := (i, x) ∈ m_observed m;
  opened_at m p i := (p, i) ∈ m_opened m;
  file_type m i := from_raw_mode (mode_of m i) |}.

(** ** The laws *)

Lemma memory_grows (m m' : Memory) :
  later m m' -> m_modes m' = m_modes m -> m_observed m ⊆ m_observed m' -> m_opened m ⊆ m_opened m' -> grows m m'.
Proof.
  intros Hl Hm Ho Hp. split; [done|intros i x; apply Ho|intros p i; apply Hp|]. intros i. cbn. unfold mode_of. by rewrite Hm.
Qed.

(** The entries are the same, and the notes do not shrink. *)
Lemma memory_still (m m' : Memory) :
  m_entries m' = m_entries m -> m_seen m' = m_seen m -> m_drawn m ⊆ m_drawn m' -> m_removed m' = m_removed m ->
  m_changes m' = m_changes m -> m_modes m' = m_modes m -> m_observed m ⊆ m_observed m' -> m_opened m ⊆ m_opened m' ->
  m_lost m <= m_lost m' -> still m m'.
Proof. intros. split; [apply memory_grows; [apply memory_later; auto|done..]|done|done]. Qed.

Ltac still_memory := intros ?; apply memory_still; cbn; first [done|apply app_nil_r|set_solver].

Lemma stat_object_still i : op_in still (stat_object i).
Proof. intros m. unfold stat_object. destruct (_ && _); apply memory_still; cbn; first [done|apply app_nil_r|set_solver]. Qed.
Lemma stat_entry_still d n : op_in still (stat_entry d n).
Proof. intros m. unfold stat_entry. destruct (name_of m d n); [apply stat_object_still|apply memory_still; cbn; first [done|apply app_nil_r|set_solver]]. Qed.

#[global] Instance memory_read_only : ReadOnly (H := memory_kernel) still.
Proof.
  split; [apply _|..]; cbn; try (intros; still_memory).
  - apply stat_object_still.
  - apply stat_entry_still.
  - intros d n m. destruct (walk _ _ _); apply memory_still; cbn; first [done|apply app_nil_r|set_solver].
Qed.

(** New entries, with what there was remembered. *)
Lemma memory_changed c d l (m : Memory) : changed c m (with_notes [c] [] [] (with_entries d l m)).
Proof. split; [apply memory_grows; [apply memory_later; cbn; auto|done..]|done|done]. Qed.

Lemma encode_hex_no_slash u : SLASH ∉ Utils.encode_hex u.
Proof.
  assert (Forall (fun n => Utils.hex_digit n <> SLASH) (seqZ 0 16)) as Hd by (apply (bool_decide_unpack _); by vm_compute).
  rewrite Forall_forall in Hd. induction u as [|b u IH]; [by intros ?%elem_of_nil|].
  cbn [Utils.encode_hex map concat]. rewrite elem_of_app. intros [Hx|Hx]; [|by apply IH].
  destruct (Utils.nibble_ranges b) as [Hh Hl]. apply elem_of_cons in Hx as [Hx|Hx]; [|apply list_elem_of_singleton in Hx];
    symmetry in Hx; revert Hx; apply Hd, elem_of_seqZ; lia.
Qed.

Lemma name_of_new (l : list Entry) (e : Entry) (m : Memory) :
  Forall (fun x => ~ (en_dir x = en_dir e /\ en_name x = en_name e)) l -> m_entries m = l ++ [e] ->
  name_of m (en_dir e) (en_name e) = Some (en_object e).
Proof.
  intros Hl Hm. unfold name_of, entry_of. rewrite Hm, list_find_app_r by by apply list_find_None.
  cbn. by rewrite decide_True.
Qed.

Lemma name_of_None (m : Memory) d n :
  name_of m d n = None -> Forall (fun x => ~ (en_dir x = d /\ en_name x = n)) (m_entries m).
Proof.
  unfold name_of, entry_of. destruct (list_find _ _) as [[]|] eqn:E; [done|]. intros _. by apply list_find_None in E.
Qed.

Lemma rename_entry_law d n d' n' (m : Memory) : let '(o, m') := rename_entry d n d' n' m in
  (exists i, changed (Relinked d n d' n' i None) m m' /\ name_of m' d' n' = Some i) /\ o <> Some (Err EXIST) \/
  o <> Some (Ok tt) /\ still m m'.
Proof.
  unfold rename_entry. destruct (entry_of m d n) as [e|]; [|right; split; [done|by apply memory_still; cbn; auto]].
  destruct (name_of m d' n') eqn:En; [right; split; [done|by apply memory_still; cbn; auto]|].
  left. split; [|done]. exists (en_object e). split; [apply memory_changed|].
  eapply (name_of_new _ {| en_dir := d'; en_offset := m_next m; en_name := n'; en_object := en_object e |}); [|done].
  apply Forall_forall. intros x [_ Hx]%list_elem_of_filter. cbn.
  exact (proj1 (Forall_forall _ _) (name_of_None m d' n' En) x Hx).
Qed.

Lemma stat_object_describes i (m : Memory) st :
  (stat_object i m).1 = Some (Ok st) -> describes (stat_object i m).2 (i : Ino) st.
Proof.
  unfold stat_object. destruct (_ && _) eqn:E; [|done]. intros [= <-]. split_bool.
  split; [done|split; [by vm_compute|cbn; unfold is_u64, U64_MAX; lia]|done|left].
Qed.

Lemma stat_object_names i (m : Memory) d n : name_of (stat_object i m).2 d n = name_of m d n.
Proof. unfold stat_object. by destruct (_ && _). Qed.
Lemma stat_entry_names f k (m : Memory) d n : name_of (stat_entry f k m).2 d n = name_of m d n.
Proof. unfold stat_entry. destruct (name_of m f k); [apply stat_object_names|done]. Qed.

Lemma unlink_changes d n flag (m : Memory) :
  grows m (unlink_entry d n flag m).2 /\ m_changes (unlink_entry d n flag m).2 = m_changes m.
Proof.
  unfold unlink_entry. repeat case_match; (split; [|done]); apply memory_grows; try done; apply memory_later; cbn; auto.
Qed.

#[global] Instance memory_change_laws : ChangeLaws (H0 := memory_server) (H1 := memory_mutations) (H2 := memory_changes).
Proof.
  split; try (intros; still_memory); try done; cbn.
  - apply _.
  - intros b p m. destruct (walk_path p m); apply memory_still; cbn; first [done|apply app_nil_r|set_solver].
  - intros. by apply stat_object_describes.
  - intros d n m st. rewrite stat_entry_names. unfold stat_entry. destruct (name_of m d n) as [i|]; [|done].
    intros Hst. exists i. split; [done|by apply stat_object_describes].
  - intros d n m. rewrite stat_entry_names. unfold stat_entry. destruct (name_of m d n) as [i|]; [|done].
    unfold stat_object. by destruct (_ && _).
  - intros p m f. destruct (walk _ _ _); [intros [= <-]; left|done].
  - intros. apply stat_object_names.
  - intros. apply stat_entry_names.
  - apply rename_entry_law.
  - intros d n d' n' m. unfold replace_entry. destruct (entry_of m d n) as [e|].
    + left. eexists _, _. apply memory_changed.
    + right. split; [done|by apply memory_still; cbn; auto].
  - intros d n m. unfold make_entry. destruct (name_of m d n).
    + right. split; [done|by apply memory_still; cbn; auto].
    + left. split; [apply memory_changed|done].
  - apply unlink_changes.
  - intros _ u [_ Hu]. unfold blob_length. by rewrite Hu.
  - apply encode_hex_no_slash.
  - by intros _ _ now c ?%elem_of_nil.
  - by intros _ _ now c u _ ?%elem_of_nil.
  - by intros _ _ now c u _ ?%elem_of_nil.
Qed.
End MutationMemory.
