(* ===== verification/MutationSafety.v ===== *)
(** * What a request does before its commit, and how it ends

    The operations a tracked request is made of, over the laws of [MutationLaws]: the
    reservation of its operation, the checks that change nothing, the start and the end
    of its commit, and the response. *)

From S2P Require Import Prelude Paths Sql StateModel OperationStore OperationRegistry UploadStore PurgeStore StateScan.
From S2P Require Import RootedPaths PathPolicy FileRevision OperationResponse.
From S2P Require Import Kernel KernelLaws KernelSteps TrashPurge RootedParents TrashMoves PurgeWorker.
From S2P Require Import MutationWorld RootedMutations MutationLaws.

Import RootedPaths OperationRegistry MutationWorld.

Create HintDb tame.

Module MutationSafety.

Section tame.
Context `{L : ChangeLaws}.
Implicit Types (s : Session) (w : OsWorld).

(** ** Steps that change nothing *)

(** Only the response and the lease may differ; nothing is replayed. *)
Record kin (s s' : Session) : Prop := {
  kin_purges : rq_purges s' = rq_purges s;
  kin_operations : rq_operations s' = rq_operations s;
  kin_operation : rq_operation s' = rq_operation s;
  kin_progress : rq_progress s' = rq_progress s;
  kin_replayed : or_replayed (rq_response s') = or_replayed (rq_response s) }.
#[export] Instance kin_preorder : PreOrder kin.
Proof. split; [by intros s|]. intros s1 s2 s3 [] []. split; congruence. Qed.

Definition tame {A} (m : Sys Session A) : Prop :=
  forall s w, PurgeStore.table_ok store_limits (rq_purges s) ->
    let '(o, s', w') := m s w in kin s s' /\ still w w' /\ o <> Panicked /\ o <> OutOfFuel.

Lemma tame_keeps {A} (m : Sys Session A) : keeps still m -> tame m.
Proof. intros Hm s w _. specialize (Hm s w). destruct (m s w) as [[o s'] w']. destruct Hm as (-> & ? & ?). done. Qed.

Lemma tame_bind {A B} (m : Sys Session A) (f : A -> Sys Session B) : tame m -> (forall a, tame (f a)) -> tame (m ≫= f).
Proof.
  intros Hm Hf s w Ht. unfold mbind, Sys_bind. specialize (Hm s w Ht).
  destruct (m s w) as [[[a|e| | |] s1] w1]; destruct Hm as (Hk & Hw & Hp & Ho); try done.
  assert (PurgeStore.table_ok store_limits (rq_purges s1)) as Ht1 by (by rewrite (kin_purges _ _ Hk)).
  specialize (Hf a s1 w1 Ht1). destruct (f a s1 w1) as [[o s2] w2]. destruct Hf as (Hk' & Hw' & ?).
  split; [by etrans|]. split; [by etrans|done].
Qed.
Lemma tame_attempt {A} (m : Sys Session A) : tame m -> tame (attempt m).
Proof.
  intros Hm s w Ht. unfold attempt. specialize (Hm s w Ht).
  destruct (m s w) as [[[a|e| | |] s1] w1]; destruct Hm as (? & ? & ? & ?); done.
Qed.
Lemma tame_modify f : (forall s, kin s (f s)) -> tame (modify f).
Proof. intros Hf s w _. by split_and!. Qed.
Lemma tame_gets {A} (f : Session -> A) : tame (gets f).
Proof. intros s w _. by split_and!. Qed.

Lemma wpx_tame {A} C (m : Sys Session A) (Q : result IoError A -> Session -> OsWorld -> Prop) s w :
  tame m -> PurgeStore.table_ok store_limits (rq_purges s) ->
  (forall s' w', kin s s' -> still w w' -> C s' w') ->
  (forall r s' w', kin s s' -> still w w' -> m s w = (ended_with r, s', w') -> Q r s' w') -> wpx C m Q s w.
Proof.
  intros Hm Ht Hc Hq. specialize (Hm s w Ht). unfold wpx.
  destruct (m s w) as [[o s1] w1]. destruct Hm as (Hk & Hw & ? & ?).
  destruct o as [a|e| | |]; [by apply (Hq (Ok a))|by apply (Hq (Err e))|by apply Hc|done|done].
Qed.

Lemma tame_acquire paths : tame (acquire_request_path_lease paths).
Proof.
  unfold acquire_request_path_lease. apply tame_bind; [apply tame_keeps; keeps_auto|]. intros [].
  - apply tame_bind; [apply tame_keeps; keeps_auto|]. intros _. apply tame_bind; [by apply tame_modify|].
    intros _. apply tame_keeps. keeps_auto.
  - apply tame_keeps. keeps_auto.
Qed.
Lemma tame_release : tame release_lease.
Proof.
  unfold release_lease. apply tame_bind; [apply tame_gets|]. intros [].
  - apply tame_bind; [apply tame_keeps; keeps_auto|]. intros _. by apply tame_modify.
  - apply tame_keeps. keeps_auto.
Qed.

Lemma tame_scan paths : tame (has_persisted_path_conflict paths).
Proof.
  unfold MutationWorld.has_persisted_path_conflict. apply tame_bind; [apply tame_keeps; keeps_auto|].
  intros []; cbn [negb]; [|apply tame_keeps; keeps_auto].
  intros s w Ht. unfold mbind at 1, Sys_bind at 1. cbn [gets]. unfold mbind at 1, Sys_bind at 1, ask at 1.
  pose proof (law_uploads w) as Hu. pose proof (still_uploads w) as Hw1. destruct (uploads_now w) as [u w1]. cbn in Hu, Hw1.
  unfold mbind at 1, Sys_bind at 1, ask at 1. pose proof (still_resolving w1) as Hw2.
  destruct (resolving_fs w1) as [fs w2]. unfold mbind, Sys_bind, ask. pose proof (still_dispatch w2) as Hw3.
  destruct (dispatch w2) as [v w3]. cbn in Hw2, Hw3. assert (still w w3) as Hw by (do 2 (etrans; [done|]); done).
  destruct v; try by split_and!.
  destruct (StateScan.scan_complete (resolve_state_path root_path) (resolved_path_key_blocking fs) u (rq_purges s)
    StateScan.SymmetricConflict (normalize_key <$> paths) (Datatypes.S (size (StateScan.state_paths u (rq_purges s))))) as (b & Hb & _);
    [done|by apply PurgeStore.to_rows in Ht|lia|].
  unfold StateScan.has_persisted_path_conflict. rewrite Hb. by split_and!.
Qed.
End tame.
#[export] Hint Resolve tame_acquire tame_release tame_scan : tame.

Ltac tame_step :=
  lazymatch goal with
  | |- tame (_ ≫= _) => apply tame_bind; [|intros]
  | |- tame (attempt _) => apply tame_attempt
  | |- tame (respond _) => apply tame_modify; done
  | |- tame (match ?x with _ => _ end) => destruct x
  | |- tame _ => first [solve [eauto with tame typeclass_instances] | apply tame_keeps; keeps_auto]
  end.
Ltac tame_auto := cbv beta zeta; repeat (tame_step; cbv beta zeta).

(** ** The operation of a request *)

(** A row that holds the lease [l] on [key] has the fingerprint [fp]. *)
Definition mine (key : OperationKey) (l fp : bytes) (t : OperationStore.Table) : Prop :=
  forall r, t !! key = Some r -> OperationStore.lease_token r = l -> OperationStore.fingerprint r = fp.

(** The operation [key] is recorded as finished with [oc], for a request [fp]. *)
Definition recorded (key : OperationKey) (fp : bytes) (oc : OperationOutcome) (t : OperationStore.Table) : Prop :=
  exists r now expires stored, t !! key = Some (OperationStore.set_completed now expires stored r) /\
    OperationStore.fingerprint r = fp /\ into_stored oc = Ok stored /\ outcome_validate stored = Ok tt.

Lemma mine_exec limits key l fp t now c :
  mine key l fp t -> other_lease l c -> mine key l fp (OperationStore.exec limits t now c).1.
Proof.
  intros Hm Ho r' Hr' Hl. pose proof (OperationStore.exec_row_step limits t now c key) as Hs. rewrite Hr' in Hs.
  remember (t !! key) as o eqn:Eo. remember (Some r') as o' eqn:Eo'. symmetry in Eo.
  destruct Hs as [o|r Hx|f l' ->|r f l' -> Hx|r -> Hx|r e oc -> Hx|r -> Hx|r e -> Hx]; simplify_eq; cbn in *;
    first [done | by apply Hm | by eapply Hm].
Qed.

Lemma mine_run limits key l fp cs : forall t,
  mine key l fp t -> (forall now c, (now, c) ∈ cs -> other_lease l c) -> mine key l fp (OperationStore.run limits t cs).1.
Proof.
  induction cs as [|[now c] cs IH]; intros t Hm Hc; [done|]. cbn [OperationStore.run].
  pose proof (mine_exec limits key l fp t now c Hm (Hc now c ltac:(left))) as Hm1.
  destruct (OperationStore.exec limits t now c) as [t1 r1]. specialize (IH t1 Hm1 ltac:(intros; eapply Hc; by right)).
  by destruct (OperationStore.run limits t1 cs).
Qed.

(** [s] with another operation table. *)
Definition retabled (s s' : Session) : Prop := exists t, s' = with_operations t s.

Section operation.
Context `{L : ChangeLaws}.
Implicit Types (s : Session) (w : OsWorld).

(** The operation table after other requests had their turn. *)
Definition turned s w (t : OperationStore.Table) : Prop :=
  t = (OperationStore.run store_limits (rq_operations s) (op_foreign (rq_operations s) w).1).1.

Lemma turned_mine s w t key l fp : turned s w t -> drawn w l -> mine key l fp (rq_operations s) -> mine key l fp t.
Proof. intros -> Hd Hm. apply mine_run; [done|]. intros now c Hc. by eapply law_op_foreign_lease. Qed.

Lemma wpx_op_command c C Q s w :
  (forall t w', still w w' -> C (with_operations t s) w') ->
  (forall t w' e, still w w' -> Q (Ok (Err e)) (with_operations t s) w') ->
  (forall t now w', turned s w t -> still w w' -> (exists w1, (dispatch w1).1 = Executed now) ->
     Q (Ok (Ok (OperationStore.exec store_limits t now c).2))
       (with_operations (OperationStore.exec store_limits t now c).1 s) w') ->
  wpx C (op_command c) Q s w.
Proof.
  intros Hc He Hq. unfold op_command. apply wpx_bind, wpx_gets. cbn [next_post]. apply wpx_bind, wpx_ask.
  intros cs w1 E1. cbn [next_post]. apply wpx_bind, wpx_modify. cbn [next_post]. apply wpx_bind, wpx_ask.
  intros v w2 E2. cbn [next_post].
  assert (still w w2) as Hw.
  { etrans; [exact (still_call _ _ _ _ (still_op_foreign _) E1)|exact (still_call _ _ _ _ still_dispatch E2)]. }
  destruct v as [| |now|now| |now]; [by apply wpx_ret, He..| | |by apply wpx_crash, Hc|].
  - apply wpx_bind, wpx_gets. cbn [next_post]. apply wpx_bind, wpx_modify, wpx_ret.
    apply (Hq _ now); [|done|]; [unfold turned; by rewrite E1|]. exists w1. by rewrite E2.
  - apply wpx_bind, wpx_modify, wpx_ret. by apply He.
  - apply wpx_bind, wpx_modify, wpx_crash. by apply Hc.
Qed.

(** The operation of the request is [key], reserved for [fp]. *)
Definition owns (key : OperationKey) (fp : bytes) s w : Prop :=
  exists g, rq_operation s = Some g /\ g_key g = key /\ drawn w (g_lease g) /\ mine key (g_lease g) fp (rq_operations s).

Lemma owns_kin key fp s s' w w' : kin s s' -> grows w w' -> owns key fp s w -> owns key fp s' w'.
Proof.
  intros [_ Ht Hg _ _] [[_ Hd] _ _ _] (g & ? & ? & ? & ?). exists g. rewrite Hg, Ht. split_and!; [done..|by apply Hd|done].
Qed.

Lemma wpx_begin owner id fp C Q s w :
  (forall t w', still w w' -> C (with_operations t s) w') ->
  (forall t w' e, still w w' -> Q (Err e) (with_operations t s) w') ->
  (forall t w' b, still w w' ->
     (forall g, b = BStarted g -> owns (operation_key owner id) fp (with_operation (Some g) (with_operations t s)) w') ->
     Q (Ok b) (with_operations t s) w') ->
  wpx C (begin_tracked owner id fp) Q s w.
Proof.
  intros Hc He Hq. unfold begin_tracked. apply wpx_bind, wpx_ask. intros lease w1 E1. cbn [next_post].
  pose proof (still_call _ _ _ _ still_new_v4 E1) as Hw1.
  assert (drawn w1 lease) as Hd by (pose proof (law_drawn w) as Hd; by rewrite E1 in Hd).
  apply wpx_bind, wpx_op_command.
  - intros t w' Hw. apply Hc. by etrans.
  - intros t w' e Hw. cbn [next_post]. apply wpx_of_io. destruct e as [|e]; cbn.
    + apply Hq; [by etrans|done].
    + apply He. by etrans.
  - intros t now w' _ Hw _. cbn [next_post]. apply wpx_of_io. cbn [OperationStore.exec].
    destruct (OperationStore.begin_operation store_limits t now lease (operation_key owner id) fp) as [[t' b]|e] eqn:Eb;
      [|apply He; by etrans]. cbn [OperationStore.commit fst snd].
    pose proof (OperationStore.begin_cases _ _ _ _ _ _ _ _ Eb) as Hb.
    destruct (begin _ _) as [b'|e] eqn:Er; [|apply He; by etrans]. apply Hq; [by etrans|].
    intros g ->. destruct b as [l| |o| |]; cbn in Er; try (by destruct (from_stored _)); try done.
    injection Er as <-. destruct Hb as [[_ Hb]|(_ & [= ->] & _ & _ & ->)]; [by destruct (Hb l)|].
    eexists. split; [done|]. cbn. split; [done|]. split; [apply Hw, Hd|].
    intros r. rewrite lookup_insert_eq. by intros [= <-].
Qed.

Lemma wpx_mark_started key fp C Q s w :
  owns key fp s w ->
  (forall t w', still w w' -> C (with_operations t s) w') ->
  (forall t w' e, still w w' -> Q (Err e) (with_operations t s) w') ->
  (forall t w', still w w' -> owns key fp (with_operations t s) w' -> Q (Ok tt) (with_operations t s) w') ->
  wpx C MutationWorld.mark_commit_started Q s w.
Proof.
  intros (g & Hg & Hk & Hd & Hm) Hc He Hq. unfold MutationWorld.mark_commit_started. apply wpx_bind, wpx_gets.
  cbn [next_post]. rewrite Hg. destruct (g_completed g).
  { apply wpx_ret. assert (s = with_operations (rq_operations s) s) as Hs by by destruct s.
    rewrite Hs. apply Hq; [done|]. rewrite <- Hs. by exists g. }
  apply wpx_bind, wpx_op_command; [done| |].
  { intros t w' e Hw. apply wpx_throw. by apply He. }
  intros t now w' Ht Hw _. cbn [next_post].
  pose proof (turned_mine _ _ _ _ _ _ Ht Hd Hm) as Hm'.
  pose proof (mine_exec store_limits key _ fp t now (OperationStore.MarkCommitStarted (g_key g) (g_lease g)) Hm' I) as Hm2.
  destruct (OperationStore.exec store_limits t now _) as [t' [ | |[]| | | ]]; try (apply wpx_throw; by apply He).
  apply wpx_ret. apply Hq; [done|]. exists g. split_and!; [done..| |done]. by apply Hw.
Qed.

(** The session after its operation was completed. *)
Definition closed (s : Session) (t : OperationStore.Table) : Session := with_operations t (with_operation None s).

Lemma wpx_complete key fp oc C Q s w :
  owns key fp s w -> terminal_outcome oc ->
  (forall t w', still w w' -> C (closed s t) w') ->
  (forall t w' e, still w w' -> Q (Err e) (closed s t) w') ->
  (forall t w', still w w' -> recorded key fp oc t -> Q (Ok tt) (closed s t) w') ->
  wpx C (MutationWorld.complete oc) Q s w.
Proof.
  intros (g & Hg & Hk & Hd & Hm) Ho Hc He Hq. unfold MutationWorld.complete, take_operation.
  apply wpx_bind, wpx_bind, wpx_gets. cbn [next_post]. apply wpx_bind, wpx_modify, wpx_ret. cbn [next_post].
  rewrite Hg. destruct (into_stored_ok oc Ho) as (stored & Hst & _ & _). rewrite Hst.
  apply wpx_bind. eapply wpx_expect; [done|]. cbn [next_post]. apply wpx_bind.
  assert (forall t w', still w w' ->
    wpx C (MutationWorld.drop_guard g ≫= fun _ => throw OtherIo) Q (closed s t) w') as Hdrop.
  { intros t w' Hw. unfold MutationWorld.drop_guard. apply wpx_bind, wpx_bind, wpx_ask. intros now w1 E1.
    apply wpx_modify. cbn [next_post]. apply wpx_throw, He.
    etrans; [done|exact (still_call _ _ _ _ still_op_now E1)]. }
  apply wpx_op_command.
  - intros t w' Hw. by apply Hc.
  - intros t w' e Hw. cbn [next_post]. by apply Hdrop.
  - intros t now w' Ht Hw _. cbn [next_post]. pose proof (turned_mine _ _ _ _ _ _ Ht Hd Hm) as Hm'.
    destruct (OperationStore.exec store_limits t now _) as [t' [ | | |[]| | ]] eqn:Ee; try by apply Hdrop.
    apply wpx_ret, Hq; [done|].
    apply OperationStore.complete_row in Ee as (Hv & r & Hr & Hl & _ & ->). subst key.
    exists r, now, (now + ttl_ms store_limits)%Z, stored. split; [apply lookup_insert_eq|]. split_and!; [by apply Hm'|done|done].
Qed.

Lemma wpx_drop_operation C Q s w :
  (forall t w', still w w' -> (rq_operation s = None -> t = rq_operations s) -> Q (Ok tt) (closed s t) w') ->
  wpx C drop_operation Q s w.
Proof.
  intros Hq. unfold drop_operation, take_operation. apply wpx_bind, wpx_bind, wpx_gets. cbn [next_post].
  apply wpx_bind, wpx_modify, wpx_ret. cbn [next_post]. destruct (rq_operation s) as [g|].
  - unfold MutationWorld.drop_guard. apply wpx_bind, wpx_ask. intros now w1 E1. apply wpx_modify. cbn [next_post].
    apply Hq; [exact (still_call _ _ _ _ still_op_now E1)|done].
  - apply wpx_ret. exact (Hq (rq_operations s) w ltac:(done) ltac:(done)).
Qed.
Lemma wpx_release C Q s w :
  (forall b w', still w w' -> Q (Ok tt) (with_leased b s) w') -> wpx C release_lease Q s w.
Proof.
  intros Hq. unfold release_lease. apply wpx_bind, wpx_gets. cbn [next_post]. destruct (rq_leased s) eqn:E.
  - apply wpx_bind, wpx_ask. intros [] w' E'. cbn [next_post]. apply wpx_modify, Hq.
    exact (still_call _ _ _ _ still_release E').
  - apply wpx_ret. assert (s = with_leased false s) as -> by (destruct s; by cbn in E; subst). by apply Hq.
Qed.
End operation.

(** ** Requests *)

(** The answer that the operation [id] ended with [oc]. *)
Definition tells (hyphenated : bytes -> bytes) (id : bytes) (oc : OperationOutcome) (r : OpResponse) : Prop :=
  exists r0, or_replayed r0 = false /\ r = apply_operation_outcome hyphenated id oc false r0.

(** An answer that claims nothing about a commit of this request. *)
Definition silent (hyphenated : bytes -> bytes) (id : bytes) (r : OpResponse) : Prop :=
  or_operation_id r = Some (hyphenated id) /\
  (or_operation_state r = Some PRejected \/ or_operation_state r = Some PRunning \/ or_replayed r = true).

Lemma tells_id h id oc r : tells h id oc r -> or_operation_id r = Some (h id).
Proof. intros (r0 & _ & ->). unfold apply_operation_outcome. by destruct (o_error oc). Qed.

Lemma success_terminal status : in_range 200 299 status = true -> terminal_outcome (success status).
Proof.
  intros Hr. unfold in_range in *. split_bool.
  split; [apply andb_true_iff; split; apply Z.leb_le; cbn; lia|left; split_and!; [done| |done]].
  apply andb_true_iff; split; apply Z.leb_le; cbn; lia.
Qed.
Lemma failure_terminal status error : in_range 300 599 status = true -> terminal_outcome (failure status error).
Proof.
  intros Hr. unfold in_range in *. split_bool.
  split; [apply andb_true_iff; split; apply Z.leb_le; cbn; lia|right; split_and!; [by left| |by eexists]].
  apply andb_false_iff. right. apply Z.leb_gt. cbn. lia.
Qed.

Section contract.
Context `{L : ChangeLaws}.
Implicit Types (s : Session) (w : OsWorld).
Context (w0 : OsWorld) (key : OperationKey) (fp id : bytes).
(** What an outcome says about the purge table and the world it is answered in. *)
Context (effect : OperationOutcome -> PurgeStore.Table -> OsWorld -> Prop).
Context (effect_failed : forall oc t w, o_state oc = PFailed -> still w0 w -> effect oc t w).
Context (effect_still : forall oc t w w', effect oc t w -> still w w' -> effect oc t w').

(** Before the commit. *)
Record Pre s w : Prop := {
  pre_still : still w0 w;
  pre_purges : PurgeStore.table_ok store_limits (rq_purges s);
  pre_owns : owns key fp s w;
  pre_fresh : or_replayed (rq_response s) = false }.

(** Where the request may be cut off or fail: nothing has changed, or the router
    knows that the outcome is unknown. *)
Definition Cut s w : Prop := still w0 w \/ rq_progress s = DetachedCommit.

(** Answered: with the outcome that is recorded, or without a claim. *)
Definition Answered s w : Prop :=
  (exists oc, tells hyphenated id oc (rq_response s) /\ recorded key fp oc (rq_operations s) /\
     rq_operation s = None /\ effect oc (rq_purges s) w) \/
  still w0 w /\ silent hyphenated id (rq_response s).

Definition goes {A} (m : Sys Session A) (q : A -> Session -> OsWorld -> Prop) : Session -> OsWorld -> Prop :=
  wpx Cut m (fun r s w => match r with Ok a => q a s w | Err _ => Cut s w end).

Lemma goes_bind {A B} (m : Sys Session A) (f : A -> Sys Session B) q s w :
  goes m (fun a => goes (f a) q) s w -> goes (m ≫= f) q s w.
Proof. intros Hm. apply wpx_bind. eapply wpx_mono; [exact Hm| |done]. by intros [a|e]. Qed.

Lemma goes_mono {A} (m : Sys Session A) (q q' : A -> Session -> OsWorld -> Prop) s w :
  goes m q s w -> (forall a s w, q a s w -> q' a s w) -> goes m q' s w.
Proof. intros Hm Hq. eapply wpx_mono; [exact Hm| |done]. intros [a|e] s' w'; [apply Hq|done]. Qed.

Lemma goes_respond f (q : unit -> Session -> OsWorld -> Prop) s w :
  q tt (with_response (f (rq_response s)) s) w -> goes (respond f) q s w.
Proof. done. Qed.
Lemma goes_modify f (q : unit -> Session -> OsWorld -> Prop) s w : q tt (f s) w -> goes (modify f) q s w.
Proof. done. Qed.
Lemma goes_ret {A} (a : A) (q : A -> Session -> OsWorld -> Prop) s w : q a s w -> goes (mret a) q s w.
Proof. done. Qed.
Lemma goes_throw {A} e (q : A -> Session -> OsWorld -> Prop) s w : Cut s w -> goes (throw e) q s w.
Proof. done. Qed.
Lemma goes_expect {A} (o : option A) a (q : A -> Session -> OsWorld -> Prop) s w :
  o = Some a -> q a s w -> goes (expect o) q s w.
Proof. by intros ->. Qed.

Lemma Pre_kin s s' w w' : kin s s' -> still w w' -> Pre s w -> Pre s' w'.
Proof.
  intros Hk Hw [? ? ? ?]. split; [by etrans|by rewrite (kin_purges _ _ Hk)| |by rewrite (kin_replayed _ _ Hk)].
  eapply owns_kin; [done|apply Hw|done].
Qed.
Lemma Pre_Cut s w : Pre s w -> Cut s w.
Proof. intros []. by left. Qed.

Lemma goes_tame {A} (m : Sys Session A) (q : A -> Session -> OsWorld -> Prop) s w :
  tame m -> Pre s w -> (forall a s' w', Pre s' w' -> m s w = (Val a, s', w') -> q a s' w') -> goes m q s w.
Proof.
  intros Hm Hp Hq. apply wpx_tame; [done|apply Hp| |].
  - intros s' w' Hk Hw. by apply Pre_Cut, (Pre_kin s s' w w').
  - intros [a|e] s' w' Hk Hw E; [apply Hq; [by apply (Pre_kin s s' w w')|done]|].
    by apply Pre_Cut, (Pre_kin s s' w w').
Qed.

Lemma goes_complete oc (q : unit -> Session -> OsWorld -> Prop) s w :
  owns key fp s w -> terminal_outcome oc ->
  (forall t w', still w w' -> Cut (closed s t) w') ->
  (forall t w', still w w' -> recorded key fp oc t -> q tt (closed s t) w') -> goes (MutationWorld.complete oc) q s w.
Proof. intros Ho Ht Hc Hq. eapply wpx_complete; [done|done|done|intros; by apply Hc|done]. Qed.

Lemma goes_finish oc s w :
  Pre s w -> terminal_outcome oc -> o_state oc = PFailed -> goes (finish id oc) (fun _ => Answered) s w.
Proof.
  intros [Hs _ Ho Hf] Ht Hst. unfold MutationWorld.finish. apply goes_bind, goes_complete; [done|done| |].
  - intros t w' Hw. left. by etrans.
  - intros t w' Hw Hr. apply goes_respond. left. exists oc. split_and!; [|done|done|].
    + eexists. split; [|done]. done.
    + apply effect_failed; [done|]. by etrans.
Qed.

Lemma goes_failure status error s w :
  Pre s w -> in_range 300 599 status = true -> goes (finish id (failure status error)) (fun _ => Answered) s w.
Proof. intros Hp Hr. by apply goes_finish; [|apply failure_terminal|]. Qed.

Lemma silent_rejected status code text advice r : silent hyphenated id (rejected hyphenated id status code text advice r).
Proof. split; [done|]. by left. Qed.

Lemma goes_reject status code text advice s w :
  still w0 w -> goes (apply_rejection id status code text advice) (fun _ => Answered) s w.
Proof. intros Hs. apply goes_respond. right. split; [done|]. apply silent_rejected. Qed.

Lemma goes_refuse status code text advice s w :
  Pre s w -> goes (drop_operation ≫= fun _ => apply_rejection id status code text advice) (fun _ => Answered) s w.
Proof.
  intros [Hs _ _ _]. apply goes_bind. apply wpx_drop_operation. intros t w' Hw _. apply goes_reject. by etrans.
Qed.

Lemma Pre_progress f s w : Pre s w -> Pre (with_progress f s) w.
Proof. by intros []. Qed.
Lemma Pre_respond r s w : or_replayed r = false -> Pre s w -> Pre (with_response r s) w.
Proof. by intros Hr []. Qed.

(** The commit is over, and its outcome is to be told. *)
Definition delivered (oc : OperationOutcome) s w : Prop :=
  or_replayed (rq_response s) = false /\ recorded key fp oc (rq_operations s) /\ rq_operation s = None /\
  effect oc (rq_purges s) w.

Lemma goes_deliver oc s w :
  delivered oc s w -> goes (respond (apply_operation_outcome hyphenated id oc false)) (fun _ => Answered) s w.
Proof. intros (Hf & Hr & Hn & He). apply goes_respond. left. exists oc. split_and!; [by eexists|done..]. Qed.

Lemma delivered_kin oc s s' w w' : kin s s' -> still w w' -> delivered oc s w -> delivered oc s' w'.
Proof.
  intros [Hp Ht Hg _ Hr] Hw (? & ? & ? & ?). unfold delivered. rewrite Hp, Ht, Hg, Hr. split_and!; [done..|].
  by eapply effect_still.
Qed.

(** ** The beginning and the end *)

(** How a request starts. *)
Record Start s w : Prop := {
  start_still : still w0 w;
  start_purges : PurgeStore.table_ok store_limits (rq_purges s);
  start_fresh : or_replayed (rq_response s) = false }.

Lemma goes_begin owner s w :
  key = operation_key owner id -> Start s w ->
  goes (begin_tracked owner id fp)
    (fun b => goes (answer_begin id b) (fun started s w => if started then Pre s w else Answered s w)) s w.
Proof.
  intros Hkey [Hs Hp Hf]. apply wpx_begin.
  - intros t w' Hw. left. by etrans.
  - intros t w' e Hw. left. by etrans.
  - intros t w' b Hw Hb. assert (still w0 w') as Hw' by by etrans.
    destruct b as [g| |oc| | |]; unfold answer_begin.
    + apply goes_bind, goes_modify, goes_bind, goes_modify, goes_ret. split; [done|done| |done].
      rewrite Hkey. destruct (Hb g eq_refl) as (g' & ? & ? & ? & ?). by exists g'.
    + apply goes_bind, goes_respond, goes_ret. right. split; [done|]. split; [done|]. right. by left.
    + apply goes_bind, goes_respond, goes_ret. right. split; [done|].
      split; [|right; right]; cbn; unfold apply_operation_outcome; by destruct (o_error oc).
    + apply goes_bind, goes_respond, goes_ret. right. split; [done|]. apply silent_rejected.
    + apply goes_bind, goes_respond, goes_ret. right. split; [done|]. apply silent_rejected.
    + apply goes_bind, goes_respond, goes_ret. right. split; [done|]. apply silent_rejected.
Qed.

(** What a client is told: the recorded outcome and its effect; no claim, and nothing
    has changed; or that the outcome is unknown, after the commit was dispatched. *)
Definition Served s w : Prop :=
  (exists oc, tells hyphenated id oc (rq_response s) /\ recorded key fp oc (rq_operations s) /\
     effect oc (rq_purges s) w) \/
  still w0 w /\ silent hyphenated id (rq_response s) \/
  rq_progress s = DetachedCommit /\ tells hyphenated id uncertain (rq_response s).

Lemma serve_contract handler s w :
  goes handler (fun _ => Answered) s w ->
  wpx Cut (serve id handler) (fun r s w => r = Ok tt /\ Served s w) s w.
Proof.
  intros Hh. unfold serve, owning. apply wpx_bind, wpx_attempt, wpx_bind, wpx_attempt.
  eapply wpx_mono; [exact Hh| |done]. clear s w Hh. intros r s w Hr. cbn [next_post].
  apply wpx_bind, wpx_drop_operation. intros t w1 Hw1 Ht. cbn [next_post].
  apply wpx_bind, wpx_release. intros leased w2 Hw2. cbn [next_post]. apply wpx_of_io. cbn [next_post].
  assert (still w w2) as Hw by by etrans.
  apply wpx_bind, wpx_gets. cbn [next_post]. destruct r as [[]|e].
  - apply wpx_modify. split; [done|]. destruct Hr as [(oc & Hte & Hre & Hn & He)|[Hst Hsi]].
    + left. exists oc. cbn. unfold complete_headers. rewrite (tells_id _ _ _ _ Hte), (Ht Hn).
      split_and!; [done..|]. by apply (effect_still _ _ w).
    + right. left. cbn. unfold complete_headers. rewrite (proj1 Hsi). split; [by etrans|done].
  - apply wpx_modify. split; [done|]. right. cbn. unfold apply_operation_error, outcome_can_be_unknown.
    case_bool_decide as Ep.
    + right. split; [done|]. by exists default_response.
    + left. destruct Hr as [Hst|?]; [|done]. split; [by etrans|]. apply silent_rejected.
Qed.
End contract.
End MutationSafety.
