(* ===== verification/DeleteContract.v ===== *)
(** * A delete request tells the truth

    [delete_request] under [serve]: a success means that exactly the object whose state
    the client had seen was moved to the trash, with its deletion recorded and ready;
    a failure means that it was not moved; and at every moment after the move, even if
    the process dies, the deletion is recorded. *)

From S2P Require Import Prelude Paths Utils Sql StateModel OperationStore OperationRegistry PurgeStore RootedPaths PathPolicy.
From S2P Require Import Problem UploadProtocol FileRevision OperationResponse.
From S2P Require Import Kernel KernelLaws KernelSteps KernelMemory TrashPurge RootedParents TrashMoves PurgeWorker.
From S2P Require Import TrashSafety TrashCapture PurgeOwnership MutationWorld RootedMutations DeleteHandler MutationLaws.
From S2P Require Import MutationMemory MutationSafety.

Import RootedPaths OperationRegistry MutationWorld.

Module DeleteContract.
Import MutationSafety TrashCapture.

Section purges.
Context `{L : ChangeLaws}.
Implicit Types (t : PurgeStore.Table) (w : OsWorld).

(** ** Commands on the purge table *)

(** The table after other tasks had their turn. *)
Definition yielded t w t1 : Prop := t1 = (PurgeStore.run store_limits t (foreign t w).1).1.

Lemma run_ok cs t :
  PurgeStore.table_ok store_limits t -> (forall now c, (now, c) ∈ cs -> PurgeStore.command_ok now c) ->
  PurgeStore.table_ok store_limits (PurgeStore.run store_limits t cs).1.
Proof.
  revert t. induction cs as [|[now c] cs IH]; intros t Ht Hc; [done|]. cbn [PurgeStore.run].
  assert (PurgeStore.command_ok now c) as Hc1 by (apply Hc; left).
  pose proof (PurgeStore.purge_step_ok _ _ _ _ _ _ Hc1 Ht (PurgeStore.purge_exec_step store_limits t now c Ht Hc1)) as Ht1.
  destruct (PurgeStore.exec store_limits t now c) as [t1 a]. specialize (IH t1 Ht1 ltac:(intros; eapply Hc; by right)).
  by destruct (PurgeStore.run store_limits t1 cs).
Qed.

(** A prepared job is only touched by commands that name it. *)
Lemma exec_prepared t now c k r :
  PurgeStore.table_ok store_limits t -> PurgeStore.command_ok now c -> spares (id k) c ->
  t !! k = Some r -> PurgeStore.r_state r = PURGE_PREPARED -> (PurgeStore.exec store_limits t now c).1 !! k = Some r.
Proof.
  intros Ht Hc Hs Hr Hp. pose proof (PurgeStore.purge_exec_step store_limits t now c Ht Hc) as Hst.
  assert (forall k0 r0, t !! k0 = Some r0 -> PurgeStore.r_state r0 <> PURGE_PREPARED -> k0 <> k) as Hne
    by (intros k0 r0 Hr0 Hn ->; by rewrite Hr in Hr0; simplify_eq).
  destruct c as [j|k0 v| |k0 d|k0|k0]; cbn [spares] in Hs.
  5:{ clear Hst. cbn [PurgeStore.exec]. unfold PurgeStore.complete_purge_job. rewrite PurgeStore.delete_state.
      destruct (t !! k0) as [r0|] eqn:Hr0; [|done]. destruct (Z.eqb_spec (PurgeStore.r_state r0) PURGE_CLAIMED); [|done].
      cbn. rewrite lookup_delete_ne; [done|]. apply (Hne _ _ Hr0). by rewrite e. }
  all: destruct Hst as [b|j' Hj Hn _|k1 r0 v' Hj Hr0 Hst|k1 r0 Hj Hr0 Hd _|k1 r0 d' Hj Hr0 Hst|k1 [Hj|Hj]];
    simplify_eq; try done;
    first [rewrite lookup_insert_ne; [done|]|rewrite lookup_delete_ne; [done|]]; try congruence.
  all: apply (Hne _ _ Hr0); intros E; unfold PurgeStore.due in *; rewrite E in *; done.
Qed.

Lemma yielded_ok t w t1 :
  yielded t w t1 -> PurgeStore.table_ok store_limits t -> PurgeStore.table_ok store_limits t1.
Proof. intros -> Ht. apply run_ok; [done|]. intros now c Hc. by eapply law_foreign_typed. Qed.

Lemma yielded_prepared t w t1 k r :
  yielded t w t1 -> PurgeStore.table_ok store_limits t -> drawn w (id k) ->
  t !! k = Some r -> PurgeStore.r_state r = PURGE_PREPARED -> t1 !! k = Some r.
Proof.
  intros -> Ht Hd. assert (forall now c, (now, c) ∈ (foreign t w).1 -> PurgeStore.command_ok now c /\ spares (id k) c) as Hc.
  { intros now c Hc. split; [by eapply law_foreign_typed|by eapply law_foreign_own]. }
  revert Hc Ht. generalize (foreign t w).1. intros cs. revert t.
  induction cs as [|[now c] cs IH]; intros t Hc Ht Hr Hp; [done|]. cbn [PurgeStore.run].
  destruct (Hc now c ltac:(left)) as [Hc1 Hs1].
  pose proof (exec_prepared t now c k r Ht Hc1 Hs1 Hr Hp) as Hr1.
  pose proof (PurgeStore.purge_step_ok _ _ _ _ _ _ Hc1 Ht (PurgeStore.purge_exec_step store_limits t now c Ht Hc1)) as Ht1.
  destruct (PurgeStore.exec store_limits t now c) as [t1 a].
  specialize (IH t1 ltac:(intros; apply Hc; by right) Ht1 Hr1 Hp). by destruct (PurgeStore.run store_limits t1 cs).
Qed.

Lemma wpx_db {A} (command : PurgeStore.Table -> Z -> result string (PurgeStore.Table * A)) C Q t w :
  (forall t1 w', yielded t w t1 -> still w w' -> C t1 w' /\ forall e, Q (Err e) t1 w') ->
  (forall t1 now t2 a w', yielded t w t1 -> still w w' -> command t1 now = Ok (t2, a) ->
     C t2 w' /\ (forall e, Q (Err e) t2 w') /\ Q (Ok a) t2 w') ->
  wpx C (db command) Q t w.
Proof.
  intros Hn Hq. unfold db. apply wpx_bind, wpx_get. cbn [next_post]. apply wpx_bind, wpx_ask.
  intros cs w1 E1. cbn [next_post]. apply wpx_bind, wpx_modify. cbn [next_post]. apply wpx_bind, wpx_ask.
  intros v w2 E2. cbn [next_post]. apply wpx_bind, wpx_get. cbn [next_post].
  assert (still w w2) as Hw.
  { etrans; [exact (still_call _ _ _ _ (still_foreign _) E1)|exact (still_call _ _ _ _ still_dispatch E2)]. }
  assert (yielded t w (PurgeStore.run store_limits t cs).1) as Hy by (unfold yielded; by rewrite E1).
  destruct (Hn _ w2 Hy Hw) as [Hc He]. specialize (Hq (PurgeStore.run store_limits t cs).1).
  destruct v as [| |now|now| |now]; [apply wpx_throw, He..| | |by apply wpx_crash|];
    specialize (Hq now); destruct (command _ now) as [[t2 a]|e] eqn:Ec.
  - apply wpx_bind, wpx_modify, wpx_ret. by apply (Hq t2 a w2).
  - apply wpx_throw, He.
  - apply wpx_bind, wpx_modify, wpx_throw. rewrite Ec. by apply (Hq t2 a w2).
  - apply wpx_bind, wpx_modify, wpx_throw. rewrite Ec. apply He.
  - apply wpx_bind, wpx_modify, wpx_crash. rewrite Ec. by apply (Hq t2 a w2).
  - apply wpx_bind, wpx_modify, wpx_crash. by rewrite Ec.
Qed.

(** A prepared job that this request is removing, or making ready. *)
Lemma wpx_remove k r C Q t w :
  PurgeStore.table_ok store_limits t -> drawn w (id k) -> t !! k = Some r -> PurgeStore.r_state r = PURGE_PREPARED ->
  (forall t' w', still w w' -> PurgeStore.table_ok store_limits t' -> t' !! k = Some r \/ t' !! k = None ->
     C t' w' /\ forall e, Q (Err e) t' w') ->
  (forall t' w', still w w' -> PurgeStore.table_ok store_limits t' -> t' !! k = None -> Q (Ok true) t' w') ->
  wpx C (remove_purge_job k) Q t w.
Proof.
  intros Ht Hd Hr Hp Hc Hq. apply wpx_db.
  - intros t1 w' Hy Hw. apply Hc; [done|by eapply yielded_ok|]. left. by eapply yielded_prepared.
  - intros t1 now t2 a w' Hy Hw E'. assert (PurgeStore.remove_purge_job t1 k = (t2, a)) as E by congruence. clear E'.
    unfold PurgeStore.remove_purge_job in E. rewrite PurgeStore.delete_job, (yielded_prepared _ _ _ _ _ Hy Ht Hd Hr Hp) in E. injection E as <- <-.
    assert (PurgeStore.table_ok store_limits (delete k t1)) as Ht2 by (eapply PurgeStore.table_ok_delete, yielded_ok; done).
    assert (delete k t1 !! k = None) as Hn by apply lookup_delete_eq.
    destruct (Hc (delete k t1) w' Hw Ht2 ltac:(by right)). by split_and!; [..|apply Hq].
Qed.

Lemma wpx_mark_ready k r v C Q t w :
  PurgeStore.table_ok store_limits t -> drawn w (id k) -> t !! k = Some r -> PurgeStore.r_state r = PURGE_PREPARED ->
  blob_length v = 32%Z ->
  (forall t' w', still w w' -> t' !! k = Some r \/ (exists now, t' !! k = Some (PurgeStore.set_ready now v r)) ->
     C t' w' /\ forall e, Q (Err e) t' w') ->
  (forall t' now w', still w w' -> t' !! k = Some (PurgeStore.set_ready now v r) -> Q (Ok true) t' w') ->
  wpx C (mark_purge_job_ready k v) Q t w.
Proof.
  intros Ht Hd Hr Hp Hv Hc Hq. apply wpx_db.
  - intros t1 w' Hy Hw. apply Hc; [done|]. left. by eapply yielded_prepared.
  - intros t1 now t2 a w' Hy Hw E. pose proof (yielded_prepared _ _ _ _ _ Hy Ht Hd Hr Hp) as Hr1.
    pose proof (yielded_ok _ _ _ Hy Ht) as Ht1. unfold PurgeStore.mark_purge_job_ready in E.
    rewrite PurgeStore.update_state in E.
    2:{ intros r' Hr' _. apply PurgeStore.row_ok_ready; [by apply (PurgeStore.to_rows _ _ Ht1)|done]. }
    rewrite Hr1, Hp in E. cbn in E. injection E as <- <-.
    assert (<[k := PurgeStore.set_ready now v r]> t1 !! k = Some (PurgeStore.set_ready now v r)) as Hn by apply lookup_insert_eq.
    destruct (Hc _ w' Hw ltac:(right; by exists now)). by split_and!; [..|eapply Hq].
Qed.

(** ** Preparing *)

(** The row of a deletion of [path] under the trash identifier [u]. *)
Record intends (path u : bytes) (source : DeleteIdentity) (r : PurgeStore.Row) : Prop := {
  in_target : state_relative_path root_path path = Ok (PurgeStore.r_target_path r);
  in_trash : exists trash, trash_path_for_id path u = Ok trash /\
    state_relative_path root_path trash = Ok (PurgeStore.r_trash_path r);
  in_device : PurgeStore.source_device_be r = u64_be (del_device source);
  in_inode : PurgeStore.source_inode_be r = u64_be (del_inode source);
  in_directory : PurgeStore.r_is_directory r = if del_is_directory source then 1%Z else 0%Z }.

Definition prepared (owner path : bytes) (source : DeleteIdentity) (p : PreparedPurge) t w : Prop :=
  PurgeStore.table_ok store_limits t /\ drawn w (pp_trash_id p) /\ pp_source_identity p = source /\
  pp_key p = {| StateModel.owner := owner; id := pp_trash_id p |} /\
  exists r, t !! pp_key p = Some r /\ PurgeStore.r_state r = PURGE_PREPARED /\ intends path (pp_trash_id p) source r.

Lemma wpx_prepare owner path source C Q t w :
  PurgeStore.table_ok store_limits t -> blob_length owner = 32%Z ->
  is_u64 (del_device source) -> is_u64 (del_inode source) ->
  (forall t' w', still w w' -> C t' w') ->
  (forall r t' w', still w w' -> PurgeStore.table_ok store_limits t' ->
     (forall p, r = Ok (PPrepared p) -> prepared owner path source p t' w') -> Q r t' w') ->
  wpx C (prepare_purge_with_identity owner path source) Q t w.
Proof.
  intros Ht Ho Hdev Hino Hc Hq. unfold prepare_purge_with_identity. apply wpx_bind, wpx_of_io.
  destruct (state_relative_path root_path path) as [target|e] eqn:Et; cbn [next_post]; [|by apply Hq].
  assert (exists w1, still w w1 /\ w1 = w) as (w1 & Hw1 & Ew) by by exists w. rewrite <- Ew. clear Ew.
  revert t w1 Hw1 Ht. generalize 16%nat. intros k. induction k as [|k IH]; intros t w1 Hw1 Ht; cbn [prepare_attempts].
  { apply wpx_throw. by apply Hq. }
  apply wpx_bind, wpx_ask. intros u w2 Eu. cbn [next_post].
  assert (still w w2) as Hw2 by (etrans; [done|exact (still_call _ _ _ _ still_new_v4 Eu)]).
  assert (drawn w2 u) as Hu by (pose proof (law_drawn w1) as Hd; by rewrite Eu in Hd). clear w1 Hw1 Eu.
  apply wpx_bind, wpx_of_io. destruct (trash_path_for_id path u) as [trash|e] eqn:Etr; cbn [next_post]; [|by apply Hq].
  apply wpx_bind, wpx_of_io. destruct (state_relative_path root_path trash) as [trash_rel|e] eqn:Es;
    cbn [next_post]; [|by apply Hq].
  set (job := {| pj_key := _ |}). apply wpx_bind. unfold prepare_purge_job. apply wpx_bind.
  destruct (purge_validate_new job) as [[]|e] eqn:Ev; cbn [of_string]; [apply wpx_ret|by apply wpx_throw, Hq]. cbn [next_post].
  assert (PurgeStore.job_typed job) as Hty.
  { pose proof (law_uuid _ _ Hu) as Hlu. unfold blob_length in *. split; [|done]. unfold key_wf. cbn.
    apply andb_true_iff. split; by apply Z.eqb_eq. }
  apply wpx_db.
  - intros t1 w' Hy Hw. split; [apply Hc; by etrans|]. intros e. cbn [next_post].
    apply Hq; [by etrans|by eapply yielded_ok|done].
  - intros t1 now t2 a w' Hy Hw E. assert (still w w') as Hw' by by etrans. cbn [next_post].
    pose proof (yielded_ok _ _ _ Hy Ht) as Ht1.
    destruct (PurgeStore.prepare_cases store_limits t1 now job Ht1 Hty Ev) as [(a' & E' & Ha)|(Hn & E' & Ht2)];
      rewrite E' in E; injection E as <- <-.
    + split_and!; [by apply Hc|by intros e; apply Hq|]. destruct a'; [done|by apply IH..|]. apply wpx_ret. by apply Hq.
    + split_and!; [by apply Hc|by intros e; apply Hq|]. apply wpx_ret, Hq; [done|done|]. intros p [= <-].
      split_and!; [done|by apply Hw|done|done|]. exists (PurgeStore.fresh_row job now). split; [apply lookup_insert_eq|].
      split; [done|]. split; [done|by exists trash|done..].
Qed.
End purges.

(** ** The move *)

Section move.
Context `{L : ChangeLaws} {S : Type} (path u : bytes) (ri : ExistingReplacementTarget) (expected : DeleteIdentity).
Context (expected_ri : delete_identity_of (Existing ri) = Some expected).
Implicit Types (s : S) (w : OsWorld).

Abbreviation trash_name := (PathPolicy.delete_trash_name hyphenated u).

(** The object [i], which the path named, now has the trash name. *)
Definition put_away (i : Ino) w w' : Prop :=
  exists d n, held w' path d n /\ changed (Relinked d n d trash_name i None) w w'.

(** It is the object that was seen in the state [ri]. *)
Definition took w w' : Prop := exists i, put_away i w w' /\ observed w' i ri.
(** The object that was seen in the state [ri] has not been moved. *)
Definition spared w w' : Prop := still w w' \/ exists i, put_away i w w' /\ number i <> (rt_device ri, rt_inode ri).
Definition perhaps w w' : Prop := still w w' \/ exists i, put_away i w w'.

Lemma put_away_after i w w1 w2 : put_away i w w1 -> still w1 w2 -> put_away i w w2.
Proof.
  intros (d & n & Hh & Hc) Hw. exists d, n. split; [by eapply held_grows; [apply Hw|]|by eapply changed_after].
Qed.

(** How the move ends. *)
Definition move_post (w : OsWorld) (r : CheckedTrashMove) (w' : OsWorld) : Prop :=
  match r with
  | Moved e => took w w' /\ blob_length (te_revision e) = 32%Z
  | TargetChanged => still w w'
  | NotMoved _ => spared w w'
  | DurabilityUnknown _ => perhaps w w'
  end.

Lemma trash_name_normal : normal_name trash_name.
Proof.
  unfold PathPolicy.delete_trash_name. split_and!; try done.
  assert (SLASH ∉ PathPolicy.DELETE_TRASH_PREFIX) by (apply (bool_decide_unpack _); by vm_compute).
  assert (SLASH ∉ PathPolicy.DELETE_TRASH_SUFFIX) by (apply (bool_decide_unpack _); by vm_compute).
  pose proof (law_hyphenated u). rewrite !elem_of_app. tauto.
Qed.

Lemma deleted_of_stat st : replacement_target_identity st = ri -> delete_identity_from_stat st = expected.
Proof. intros <-. cbn in expected_ri. by injection expected_ri as <-. Qed.

(** After the rename: the trash name means the object that was moved, [i]. *)
Lemma wpx_verify parent anchor i C (Q : result IoError CheckedTrashMove -> S -> OsWorld -> Prop) s w w1 :
  own w1 trash_name -> names w1 (fd_ino parent) trash_name = Some i -> put_away i w w1 -> observed w1 (fd_ino anchor) ri ->
  (forall w', perhaps w w' -> C s w') -> (forall r w', move_post w r w' -> Q (Ok r) s w') ->
  wpx C (verify_moved parent trash_name expected anchor) Q s w1.
Proof.
  intros Hown Hn Hput Hob Hc Hq.
  assert (forall w', still w1 w' -> perhaps w w') as Hper.
  { intros w' Hw. right. exists i. by eapply put_away_after. }
  assert (forall w', still w1 w' -> wpx C (unverified parent) Q s w') as Hun.
  { intros w' Hw. apply wpx_look; [keeps_auto|..].
    - intros w2 Hw2. apply Hc, Hper. by etrans.
    - intros a w2 _ Hw2. apply wpx_ret, Hq, Hper. by etrans. }
  unfold verify_moved. apply wpx_look; [eauto with keeps typeclass_instances|by eauto|].
  intros [st|e] w2 E2 Hw2; [|by apply Hun].
  pose proof (law_own_fstat anchor (fd_ino parent) _ _ Hown) as Hn2. rewrite E2, Hn in Hn2. cbn [fst snd] in Hn2.
  pose proof (law_fstat_describes anchor w1 st) as Hst. rewrite E2 in Hst. specialize (Hst eq_refl). cbn [fst snd] in Hst.
  assert (own w2 trash_name) as Hown2 by (eapply own_grows; [apply Hw2|done]).
  apply wpx_look; [eauto with keeps typeclass_instances|intros; apply Hc, Hper; by etrans|].
  intros [st'|e] w3 E3 Hw3; [|apply Hun; by etrans]. assert (still w1 w3) as Hw13 by by etrans.
  pose proof (law_own_statat parent trash_name (fd_ino parent) _ _ Hown2) as Hn3. rewrite E3, Hn2 in Hn3. cbn [fst snd] in Hn3.
  pose proof (law_statat_describes parent trash_name w2 st') as Hst'. rewrite E3 in Hst'.
  destruct (Hst' eq_refl) as (i' & Hi' & Hdes). cbn [fst snd] in Hi', Hdes. rewrite Hn3 in Hi'. injection Hi' as <-.
  destruct (_ || _) eqn:Eo; [by apply Hun|]. split_bool.
  assert (i = fd_ino anchor) as ->.
  { eapply describes_pinned; [exact Hn3|exact Hdes|]. rewrite <- (ds_number _ _ _ Hst). by apply same_number. }
  apply wpx_look; [eauto with keeps typeclass_instances|intros; apply Hc, Hper; by etrans|].
  intros [[]|e] w4 _ Hw4; apply wpx_ret, Hq; [|apply Hper; by etrans]. assert (still w1 w4) as Hw14 by by etrans.
  split; [|apply law_sha256]. exists (fd_ino anchor). split; [by eapply put_away_after|]. by apply Hw14.
Qed.

(** A rename that failed may have moved something else, but not what [anchor] pins. *)
Lemma wpx_classify parent source anchor i e C (Q : result IoError CheckedTrashMove -> S -> OsWorld -> Prop) s w w1 w2 st :
  own w1 trash_name -> names w1 (fd_ino parent) trash_name = Some i -> put_away i w w1 ->
  describes w2 (fd_ino anchor) st -> grows w2 w1 -> replacement_target_identity st = ri ->
  (forall w', perhaps w w' -> C s w') -> (forall r w', move_post w r w' -> Q (Ok r) s w') ->
  wpx C (classify_failed_checked_trash_rename parent source trash_name expected e) Q s w1.
Proof.
  intros Hown Hn Hput Hst Hg Hri Hc Hq.
  assert (forall w', still w1 w' -> perhaps w w') as Hper.
  { intros w' Hw. right. exists i. by eapply put_away_after. }
  unfold classify_failed_checked_trash_rename, delete_identity_at.
  apply wpx_bind, wpx_look; [eauto with keeps typeclass_instances|by eauto|].
  intros a w3 E3 Hw3. apply wpx_ret. cbn [next_post].
  pose proof (law_own_statat parent source (fd_ino parent) _ _ Hown) as Hn3. rewrite E3, Hn in Hn3. cbn [fst snd] in Hn3.
  assert (own w3 trash_name) as Hown3 by (eapply own_grows; [apply Hw3|done]).
  apply wpx_bind, wpx_look; [eauto with keeps typeclass_instances|intros; apply Hc, Hper; by etrans|].
  intros b w4 E4 Hw4. apply wpx_ret. cbn [next_post]. assert (still w1 w4) as Hw14 by by etrans.
  pose proof (law_own_statat parent trash_name (fd_ino parent) _ _ Hown3) as Hn4. rewrite E4, Hn3 in Hn4. cbn [fst snd] in Hn4.
  apply wpx_ret, Hq. destruct (_ && _) eqn:Eo; [|by apply Hper]. cbn. right. exists i.
  split; [by eapply put_away_after|]. intros Hnum. apply andb_true_iff in Eo as [_ Eo].
  destruct b as [st'|[]]; try done.
  - pose proof (law_statat_describes parent trash_name w3 st') as Hst'. rewrite E4 in Hst'.
    destruct (Hst' eq_refl) as (i' & Hi' & Hdes). cbn [fst snd] in Hi', Hdes. rewrite Hn4 in Hi'. injection Hi' as <-.
    assert (i = fd_ino anchor) as ->.
    { eapply law_pinned; [exact Hn4|]. rewrite Hnum, <- (ds_number _ _ _ Hst), <- Hri. done. }
    split_bool. apply Eo. f_equal. assert (grows w2 w4) as Hg24 by (etrans; [done|apply Hw14]).
    rewrite <- (describes_deleted _ _ _ _ _ Hg24 Hst Hdes). by apply deleted_of_stat.
  - pose proof (law_statat_missing parent trash_name w3) as Hmi. rewrite E4 in Hmi. specialize (Hmi eq_refl).
    cbn [fst snd] in Hmi. congruence.
Qed.

Lemma wpx_classify_unmoved parent source e C (Q : result IoError CheckedTrashMove -> S -> OsWorld -> Prop) s w w1 :
  still w w1 -> (forall w', perhaps w w' -> C s w') -> (forall r w', move_post w r w' -> Q (Ok r) s w') ->
  wpx C (classify_failed_checked_trash_rename parent source trash_name expected e) Q s w1.
Proof.
  intros Hw1 Hc Hq. unfold classify_failed_checked_trash_rename, delete_identity_at.
  apply wpx_bind, wpx_look; [eauto with keeps typeclass_instances|intros; apply Hc; left; by etrans|].
  intros a w3 _ Hw3. apply wpx_ret. cbn [next_post].
  apply wpx_bind, wpx_look; [eauto with keeps typeclass_instances|intros; apply Hc; left; do 2 (etrans; [done|]); done|].
  intros b w4 _ Hw4. apply wpx_ret. cbn [next_post]. apply wpx_ret, Hq.
  assert (still w w4) by (etrans; [done|]; by etrans). destruct (_ && _); by left.
Qed.

(** The rename itself, of what [anchor] pins. *)
Lemma wpx_rename_pinned parent anchor st C (Q : result IoError CheckedTrashMove -> S -> OsWorld -> Prop) s w w1 :
  drawn w1 u -> held w1 path (fd_ino (op_fd parent)) (op_name parent) -> still w w1 ->
  describes w1 (fd_ino anchor) st -> replacement_target_identity st = ri ->
  (forall w', perhaps w w' -> C s w') -> (forall r w', move_post w r w' -> Q (Ok r) s w') ->
  wpx C (renamed ← call (renameat_noreplace (op_fd parent) (op_name parent) (op_fd parent) trash_name);
         match renamed : result Errno unit with
         | Err e =>
             classify_failed_checked_trash_rename (op_fd parent) (op_name parent) trash_name expected (of_errno e)
         | Ok _ => verify_moved (op_fd parent) trash_name expected anchor
         end) Q s w1.
Proof.
  intros Hu Hheld Hw1 Hst Hri Hc Hq.
  pose proof (law_rename_noreplace (op_fd parent) (op_name parent) (op_fd parent) trash_name w1) as Hren.
  assert (forall i w2, changed (Relinked (fd_ino (op_fd parent)) (op_name parent) (fd_ino (op_fd parent)) trash_name i None)
    w1 w2 -> put_away i w w2) as Hput.
  { intros i w2 Hch. exists (fd_ino (op_fd parent)), (op_name parent).
    split; [by eapply held_grows; [apply Hch|]|by eapply changed_before]. }
  apply wpx_bind, wpx_call; intros; rewrite H3 in Hren.
  2:{ apply Hc. destruct Hren as [[(i & Hch & Hn) _]|[_ Hw2]]; [right; exists i; by apply Hput|left; by etrans]. }
  cbn [next_post]. destruct Hren as [[(i & Hch & Hn) _]|[Hno Hw2]].
  - assert (own w' trash_name) as Hown by (exists u; split; [by apply Hch|done]).
    destruct a as [[]|e].
    + eapply wpx_verify; [done|done|by apply Hput| |done|done]. apply Hch. rewrite <- Hri. apply Hst.
    + eapply wpx_classify; [done|done|by apply Hput|exact Hst|apply Hch|done..].
  - destruct a as [[]|e]; [done|]. apply (wpx_classify_unmoved _ _ _ C Q s w); [by etrans|done|done].
Qed.

Lemma wpx_rename_checked parent C (Q : result IoError CheckedTrashMove -> S -> OsWorld -> Prop) s w w1 :
  drawn w1 u -> held w1 path (fd_ino (op_fd parent)) (op_name parent) -> still w w1 ->
  (forall w', perhaps w w' -> C s w') -> (forall r w', move_post w r w' -> Q (Ok r) s w') ->
  wpx C (rename_checked parent trash_name expected (Some (Existing ri))) Q s w1.
Proof.
  intros Hu Hheld Hw1 Hc Hq.
  assert (forall w', still w w' -> C s w') as Hc1 by (intros; apply Hc; by left).
  assert (forall w', still w w' -> Q (Ok TargetChanged) s w') as Ht by (intros; by apply Hq).
  assert (forall e w', still w w' -> Q (Ok (NotMoved e)) s w') as Hn by (intros; apply Hq; by left).
  assert (forall e w', still w w' -> Q (Ok (classify_errno e)) s w') as He.
  { intros e w' Hw. unfold classify_errno. destruct (missing_errno e); auto. }
  unfold rename_checked. apply wpx_look; [eauto with keeps typeclass_instances|intros; apply Hc1; by etrans|].
  intros [st1|e] w2 E2 Hw2; assert (still w w2) as Hww2 by (by etrans); [|by apply wpx_ret, He]. cbv zeta.
  destruct (negb _ || _) eqn:Eo; [by apply wpx_ret, Ht|]. apply orb_false_iff in Eo as [_ Hri%negb_false_iff%bool_decide_eq_true].
  apply wpx_look; [eauto with keeps typeclass_instances|intros; apply Hc1; by etrans|].
  intros [anchor|e] w3 E3 Hw3; assert (still w w3) as Hww3 by (by etrans); [|by apply wpx_ret, He].
  apply wpx_look; [eauto with keeps typeclass_instances|intros; apply Hc1; by etrans|].
  intros [st2|e] w4 E4 Hw4; assert (still w w4) as Hww4 by (by etrans); [|by apply wpx_ret, Hn].
  pose proof (law_fstat_describes anchor w3 st2) as Hst. rewrite E4 in Hst. specialize (Hst eq_refl). cbn [fst snd] in Hst.
  apply wpx_look; [eauto with keeps typeclass_instances|intros; apply Hc1; by etrans|].
  intros [st3|e] w5 E5 Hw5; assert (still w w5) as Hww5 by (by etrans); [|by apply wpx_ret, He].
  destruct (_ || _) eqn:Eo; [by apply wpx_ret, Ht|]. split_bool.
  assert (grows w1 w5) as Hg by (etrans; [apply Hw2|]; etrans; [apply Hw3|]; etrans; [apply Hw4|apply Hw5]).
  apply (wpx_rename_pinned parent anchor st2 C Q s w w5); [by apply Hg|by eapply held_grows|done| |congruence|done|done].
  eapply describes_grows; [apply Hw5|done].
Qed.

Lemma wpx_move C (Q : result IoError CheckedTrashMove -> S -> OsWorld -> Prop) s w :
  drawn w u ->
  (forall w', perhaps w w' -> C s w') -> (forall r w', move_post w r w' -> Q (Ok r) s w') ->
  wpx C (move_to_trash_with_expected_identity_outcome path u expected (Some (Existing ri))) Q s w.
Proof.
  intros Hu Hc Hq. unfold move_to_trash_with_expected_identity_outcome, trash_path_for_id.
  destruct (relative_path root_path path) as [rel|e]; cbn [mbind result_bind]; [|apply wpx_ret, Hq; by left].
  destruct (parent path) as [above|]; cbn [ok_or mbind result_bind]; [|apply wpx_ret, Hq; by left].
  apply wpx_bind. eapply (wpx_expect _ _ trash_name).
  { unfold file_name. rewrite PathPolicy.push_name by apply trash_name_normal. by rewrite last_snoc. }
  cbn [next_post]. apply wpx_bind, wpx_attempt. unfold gated. apply wpx_bind, wpx_ask. intros admitted w1 E1.
  pose proof (still_call _ _ _ _ ro_gate E1) as Hw1. cbn [next_post]. destruct admitted.
  2:{ apply wpx_throw. cbn [next_post]. apply wpx_ret, Hq. by left. }
  apply wpx_bind, wpx_attempt. apply (wpx_keeps still); [keeps_auto|intros; apply Hc; left; by etrans|].
  intros [p|e] w2 Hw2 E2; cbn [next_post].
  - apply (wpx_rename_checked p _ _ s w w2); [by apply Hw2, Hw1|by eapply open_parent_held|by etrans|done|].
    intros r w' Hr. cbn [next_post]. by apply wpx_ret, Hq.
  - apply wpx_ret. cbn [next_post]. apply wpx_ret, Hq. destruct (not_found e); [|left]; cbn; by etrans.
Qed.
End move.

(** ** The commit *)

Section commit.
Context `{L : ChangeLaws}.
Implicit Types (s : Session) (w : OsWorld).

Lemma wpx_on_purges {A} (m : Sys PurgeStore.Table A) C Q s w :
  wpx (fun t => C (with_purges t s)) m (fun r t => Q r (with_purges t s)) (rq_purges s) w -> wpx C (on_purges m) Q s w.
Proof. unfold wpx, on_purges. by destruct (m (rq_purges s) w) as [[[a|e| | |] t] w']. Qed.

Context (owner path : bytes) (ri : ExistingReplacementTarget) (expected : DeleteIdentity) (p : PreparedPurge).
Context (key : OperationKey) (fp : bytes).
Context (expected_ri : delete_identity_of (Existing ri) = Some expected).

(** The deletion is recorded. *)
Definition intent (state : Z) s : Prop :=
  exists r, rq_purges s !! pp_key p = Some r /\ PurgeStore.r_state r = state /\ intends path (pp_trash_id p) expected r.

(** The object was not moved, or its deletion is recorded. *)
Definition guarded w0 s w : Prop :=
  spared path (pp_trash_id p) ri w0 w \/ intent PURGE_PREPARED s \/ intent PURGE_READY s.

(** The operation is closed with [oc]. *)
Definition ended oc s : Prop := recorded key fp oc (rq_operations s) /\ rq_operation s = None.

Definition commit_post w0 (r : result IoError DeleteCommitOutcome) s w : Prop :=
  match r with
  | Ok DeleteSucceeded => took path (pp_trash_id p) ri w0 w /\ intent PURGE_READY s /\ ended (success 204) s
  | Ok (DeleteRejected oc) | Ok (DeleteTargetMoved oc _) =>
      o_state oc = PFailed /\ spared path (pp_trash_id p) ri w0 w /\ rq_purges s !! pp_key p = None /\ ended oc s
  | Err _ => guarded w0 s w
  end.

(** What the commit leaves alone. *)
Definition same_answer s s' : Prop := rq_progress s' = rq_progress s /\ rq_response s' = rq_response s.

Lemma intends_ready now v r :
  intends path (pp_trash_id p) expected r -> intends path (pp_trash_id p) expected (PurgeStore.set_ready now v r).
Proof. by intros []. Qed.

Lemma owns_alike s s' w w' :
  rq_operation s' = rq_operation s -> rq_operations s' = rq_operations s -> grows w w' ->
  owns key fp s w -> owns key fp s' w'.
Proof.
  intros Hg Ht [[_ Hd] _ _ _] (g & ? & ? & ? & ?). exists g. rewrite Hg, Ht. split_and!; [done..|by apply Hd|done].
Qed.

(** Withdrawing an intent that came to nothing. *)
Lemma wpx_withdraw oc C (Q : result IoError unit -> Session -> OsWorld -> Prop) s w :
  prepared (owner_persistent owner) path expected p (rq_purges s) w -> owns key fp s w -> terminal_outcome oc ->
  (forall s' w', still w w' -> same_answer s s' -> C s' w' /\ forall e, Q (Err e) s' w') ->
  (forall s' w', still w w' -> same_answer s s' -> rq_purges s' !! pp_key p = None -> ended oc s' -> Q (Ok tt) s' w') ->
  wpx C (withdraw (pp_key p) oc) Q s w.
Proof.
  intros (Ht & Hd & _ & Hk & r & Hr & Hst & Hin) Ho Hoc Hc Hq. unfold withdraw. apply wpx_bind, wpx_on_purges.
  assert (drawn w (id (pp_key p))) as Hd' by by rewrite Hk.
  apply (wpx_remove _ r); [done..| |].
  - intros t' w1 Hw1 _ _. by apply (Hc (with_purges t' s) w1 Hw1).
  - intros t' w1 Hw1 _ Hn. cbn [next_post negb]. eapply wpx_complete; [|done|..].
    + eapply owns_alike; [done|done|apply Hw1|done].
    + intros t w2 Hw2. apply Hc; [by etrans|done].
    + intros t w2 e Hw2. apply Hc; [by etrans|done].
    + intros t w2 Hw2 Hrec. apply Hq; [by etrans|done..].
Qed.

Lemma prepared_after s' w w' t :
  prepared (owner_persistent owner) path expected p t w -> grows w w' -> rq_purges s' = t ->
  prepared (owner_persistent owner) path expected p (rq_purges s') w'.
Proof. intros (Ht & Hd & Hs & Hk & Hr) [[_ Hg] _ _ _] ->. split_and!; [done|by apply Hg|done..]. Qed.

Lemma perhaps_grows u w w' : perhaps path u w w' -> grows w w'.
Proof. by intros [[]|(i & d & n & _ & [])]. Qed.
Lemma move_post_grows u r w w' : move_post path u ri w r w' -> grows w w'.
Proof.
  destruct r; cbn.
  - intros [(i & (d & n & _ & []) & _) _]. done.
  - by intros [].
  - by intros [[]|(i & (d & n & _ & []) & _)].
  - apply perhaps_grows.
Qed.
Lemma spared_after u w w1 w2 : spared path u ri w w1 -> still w1 w2 -> spared path u ri w w2.
Proof.
  intros [Hw|(i & Hp & Hn)] Hw2; [left; by etrans|right; exists i; split; [by eapply put_away_after|done]].
Qed.
Lemma spared_before u w w1 w2 : still w w1 -> spared path u ri w1 w2 -> spared path u ri w w2.
Proof.
  intros Hw [Hw2|(i & (d & n & Hh & Hc) & Hn)]; [left; by etrans|right]. exists i. split; [|done].
  exists d, n. split; [done|by eapply changed_before].
Qed.
Lemma took_around u w w1 w2 w3 : still w w1 -> took path u ri w1 w2 -> still w2 w3 -> took path u ri w w3.
Proof.
  intros Hw (i & (d & n & Hh & Hc) & Ho) Hw3. exists i. split; [|by apply Hw3]. exists d, n.
  split; [by eapply held_grows; [apply Hw3|]|]. eapply changed_before; [done|by eapply changed_after].
Qed.

(** The deletion became ready, and the operation is completed. *)
Lemma wpx_ready v C (Q : result IoError DeleteCommitOutcome -> Session -> OsWorld -> Prop) s w :
  prepared (owner_persistent owner) path expected p (rq_purges s) w -> owns key fp s w -> blob_length v = 32%Z ->
  (forall s' w', still w w' -> same_answer s s' -> intent PURGE_PREPARED s' \/ intent PURGE_READY s' ->
     C s' w' /\ forall e, Q (Err e) s' w') ->
  (forall s' w', still w w' -> same_answer s s' -> intent PURGE_READY s' -> ended (success 204) s' ->
     Q (Ok DeleteSucceeded) s' w') ->
  wpx C (ready ← on_purges (mark_purge_job_ready (pp_key p) v);
         if negb ready then throw OtherIo else _ ← MutationWorld.complete (success 204); mret DeleteSucceeded) Q s w.
Proof.
  intros (Ht & Hd & _ & Hk & r & Hr & Hst & Hin) Ho Hv Hc Hq. apply wpx_bind, wpx_on_purges.
  assert (drawn w (id (pp_key p))) as Hd' by by rewrite Hk.
  apply (wpx_mark_ready _ r); [done..| |].
  - intros t' w1 Hw1 Hcase. apply (Hc (with_purges t' s) w1 Hw1 ltac:(done)).
    destruct Hcase as [Hr'|(now & Hr')]; [left; by exists r|right; eexists; by split_and!; [..|apply intends_ready]].
  - intros t' now w1 Hw1 Hr'. cbn [next_post negb]. apply wpx_bind.
    assert (forall s', rq_purges s' = t' -> intent PURGE_READY s') as Hir.
    { intros s' Hs'. eexists. rewrite Hs'. split_and!; [exact Hr'|done|by apply intends_ready]. }
    eapply wpx_complete; [|by apply success_terminal|..].
    + eapply owns_alike; [done|done|apply Hw1|done].
    + intros t w2 Hw2. apply Hc; [by etrans|done|right; by apply Hir].
    + intros t w2 e Hw2. apply Hc; [by etrans|done|right; by apply Hir].
    + intros t w2 Hw2 Hrec. apply wpx_ret, Hq; [by etrans|done|by apply Hir|done].
Qed.

Lemma wpx_commit_prepared C Q s w :
  prepared (owner_persistent owner) path expected p (rq_purges s) w -> owns key fp s w ->
  (forall s' w', same_answer s s' -> guarded w s' w' -> C s' w') ->
  (forall r s' w', same_answer s s' -> commit_post w r s' w' -> Q r s' w') ->
  wpx C (commit_prepared owner path p (Existing ri)) Q s w.
Proof.
  intros Hp Ho Hc Hq. unfold commit_prepared. apply wpx_bind.
  assert (forall s' w', same_answer s s' -> guarded w s' w' -> C s' w' /\ forall e, Q (Err e) s' w') as Hcut.
  { intros s' w' Hs Hg. split; [by apply Hc|intros e; by apply Hq]. }
  assert (forall w', still w w' -> spared path (pp_trash_id p) ri w w') as Hsp by (by left).
  eapply wpx_mark_started; [done|..].
  { intros t w1 Hw1. apply Hcut; [done|left; auto]. }
  { intros t w1 e Hw1. apply Hcut; [done|left; auto]. }
  intros t w1 Hw1 Ho1. cbn [next_post]. apply wpx_bind. set (s1 := with_operations t s).
  assert (forall w2, grows w w2 -> prepared (owner_persistent owner) path expected p (rq_purges s1) w2) as Hp1.
  { intros w2 Hg. by eapply prepared_after. }
  assert (pp_source_identity p = expected) as -> by apply Hp.
  assert (intent PURGE_PREPARED s1) as Hi by (destruct Hp as (_ & _ & _ & _ & r & ?); by exists r).
  apply (wpx_move path (pp_trash_id p) ri expected expected_ri).
  { apply (Hp1 w1), Hw1. }
  { intros w2 _. apply Hcut; [done|]. right. by left. }
  intros mv w2 Hmv. cbn [next_post].
  pose proof (move_post_grows _ _ _ _ Hmv) as Hg2. assert (owns key fp s1 w2) as Ho2 by by eapply owns_alike.
  assert (grows w w2) as Hg by (etrans; [apply Hw1|done]).
  assert (spared path (pp_trash_id p) ri w1 w2 -> forall s' w', still w2 w' -> same_answer s1 s' -> guarded w s' w') as Hun.
  { intros Hsp2 s' w' Hw Hs. left. eapply spared_before; [done|by eapply spared_after]. }
  destruct mv as [e| |e|e]; cbn in Hmv.
  - destruct Hmv as [Htook Hv]. apply wpx_ready; [by apply Hp1|done|done|..].
    + intros s' w' Hw Hs Hii. apply Hcut; [done|by right].
    + intros s' w' Hw Hs Hii He. apply Hq; [done|]. split_and!; [|done..]. by eapply took_around.
  - specialize (Hun ltac:(by left)). cbv zeta. apply wpx_bind. eapply wpx_withdraw; [by apply Hp1|done|by apply failure_terminal|..].
    + intros s' w' Hw Hs. apply Hcut; [done|by apply Hun].
    + intros s' w' Hw Hs Hn He. cbn [next_post]. apply wpx_bind, wpx_of_io.
      destruct (state_relative_path root_path path) as [rel|e]; [|by apply Hq, Hun]. cbn [next_post].
      apply wpx_bind. unfold current_revision. apply (wpx_keeps still); [keeps_auto|..].
      * intros w3 Hw3. apply Hc, Hun; [done|by etrans|done].
      * intros [rev|e] w3 Hw3 _; [|apply Hq, Hun; [done|by etrans|done]]. apply wpx_ret, Hq; [done|].
        split_and!; [done| |done..]. eapply spared_before; [done|]. left. etrans; [done|by etrans].
  - specialize (Hun Hmv). cbv zeta. apply wpx_bind. eapply wpx_withdraw; [by apply Hp1|done|by apply failure_terminal|..].
    + intros s' w' Hw Hs. apply Hcut; [done|by apply Hun].
    + intros s' w' Hw Hs Hn He. apply wpx_ret, Hq; [done|]. split_and!; [done| |done..].
      eapply spared_before; [done|by eapply spared_after].
  - apply wpx_throw, Hcut; [done|]. right. by left.
Qed.
End commit.

(** ** Reconciliation ends *)

Section reconcile.
Context `{L : ChangeLaws}.

Lemma ends_db {A} (command : PurgeStore.Table -> Z -> result string (PurgeStore.Table * A)) : ends (db command).
Proof. intros t w. by apply wpx_db. Qed.

Lemma ends_reconcile k : ends (reconcile_prepared_purge_key k).
Proof.
  assert (forall A (m : Sys PurgeStore.Table A), keeps still m -> ends m) as Hk by (intros; by eapply ends_keeps).
  unfold reconcile_prepared_purge_key, purge_job. apply whole_bind; [apply whole_attempt, ends_db|].
  intros [[job|]|e]; [|apply Hk; keeps_auto..]. destruct (bool_decide _); [|apply Hk; keeps_auto].
  apply whole_bind; [|intros; apply Hk; keeps_auto]. apply whole_attempt. unfold reconcile_prepared_purge_job.
  do 3 (apply whole_bind; [apply Hk; keeps_auto|intros]).
  apply whole_bind; [apply whole_attempt|intros r; apply whole_bind; intros; apply Hk; keeps_auto].
  unfold reconcile_under_lease, purge_job, remove_purge_job. apply whole_bind; [apply ends_db|].
  intros [j|]; [|apply Hk; keeps_auto]. destruct (negb _); [apply Hk; keeps_auto|].
  apply whole_bind; [unfold delete_identity_if_present; apply Hk; keeps_auto|]. intros found.
  apply whole_bind; [|intros; apply whole_bind; [apply ends_db|intros; apply Hk; keeps_auto]].
  destruct found; [|apply Hk; keeps_auto]. apply whole_bind; [eapply ends_keeps, keeps_quarantine|intros; apply Hk; keeps_auto].
Qed.
End reconcile.

(** ** The request *)

Section request.
Context `{L : ChangeLaws}.
Implicit Types (s : Session) (w : OsWorld).
Context (w0 : OsWorld) (owner op path revision fp : bytes).

(** [ri] is a state of the target that the client's revision stands for. *)
Definition matches (ri : ExistingReplacementTarget) : Prop :=
  exists relative, state_relative_path root_path path = Ok relative /\
    target_revision (owner_persistent owner) relative (Existing ri) = Some revision.

(** What the outcome of a deletion means.  Success: exactly the object that was seen in
    the state the client asked for is in the trash, and its purge is ready.  Failure:
    it was not moved. *)
Definition delete_effect (oc : OperationOutcome) (t : PurgeStore.Table) (w : OsWorld) : Prop :=
  match o_state oc with
  | PSucceeded =>
      exists ri expected u r, matches ri /\ delete_identity_of (Existing ri) = Some expected /\ took path u ri w0 w /\
        t !! {| StateModel.owner := owner_persistent owner; id := u |} = Some r /\
        PurgeStore.r_state r = PURGE_READY /\ intends path u expected r
  | _ => still w0 w \/ exists ri u, matches ri /\ spared path u ri w0 w
  end.

Lemma delete_effect_failed oc t w : o_state oc = PFailed -> still w0 w -> delete_effect oc t w.
Proof. intros Hs Hw. unfold delete_effect. rewrite Hs. by left. Qed.

Lemma delete_effect_still oc t w w' : delete_effect oc t w -> still w w' -> delete_effect oc t w'.
Proof.
  assert (delete_effect oc t w -> still w w' ->
    (still w0 w \/ exists ri u, matches ri /\ spared path u ri w0 w) ->
    still w0 w' \/ exists ri u, matches ri /\ spared path u ri w0 w') as Hf.
  { intros _ Hw [H3|(ri & u & Hm & Hs)]; [left; by etrans|right; exists ri, u; split; [done|by eapply spared_after]]. }
  unfold delete_effect in *. destruct (o_state oc); try (intros He Hw; by apply Hf).
  intros (ri & e & u & r & Hm & He & Ht & Hr) Hw. exists ri, e, u, r. split_and!; [done..| |apply Hr|apply Hr|apply Hr].
  by eapply took_around.
Qed.

Abbreviation key := (operation_key owner op).
Abbreviation Pre := (MutationSafety.Pre w0 key fp).
Abbreviation goes := (MutationSafety.goes w0).
Abbreviation Answered := (MutationSafety.Answered w0 key fp op delete_effect).

Abbreviation delivers := (MutationSafety.delivered key fp delete_effect).

(** What the commit hands back. *)
Definition outcome_of (out : DeleteCommitOutcome) : OperationOutcome :=
  match out with DeleteSucceeded => success 204 | DeleteRejected o | DeleteTargetMoved o _ => o end.

Lemma goes_delete_commit ri expected s w :
  Pre s w -> rq_progress s = DetachedCommit -> matches ri -> delete_identity_of (Existing ri) = Some expected ->
  is_u64 (rt_device ri) -> is_u64 (rt_inode ri) ->
  goes (delete_commit owner path expected (Existing ri)) (fun out => delivers (outcome_of out)) s w.
Proof.
  intros [Hst Ht Ho Hf] Hprog Hm Hex Hdev Hino. unfold delete_commit.
  assert (forall s' w', rq_progress s' = DetachedCommit -> Cut w0 s' w') as Hcut by (intros; by right).
  assert (forall t w1 oc, still w w1 -> o_state oc = PFailed -> terminal_outcome oc ->
    goes (_ ← MutationWorld.complete oc; mret (DeleteRejected oc)) (fun out => delivers (outcome_of out)) (with_purges t s) w1) as Hreject.
  { intros t w1 oc Hw1 Hoc Hter. apply goes_bind. apply (goes_complete w0 key fp).
    - eapply owns_alike; [done|done|apply Hw1|done].
    - done.
    - intros. by apply Hcut.
    - intros t' w2 Hw2 Hrec. apply goes_ret. split_and!; [done..|].
      apply delete_effect_failed; [done|]. do 2 (etrans; [done|]). done. }
  apply goes_bind. apply wpx_attempt, wpx_on_purges. apply wpx_prepare; [done|apply law_sha256|..].
  { injection Hex as <-. done. }
  { injection Hex as <-. done. }
  { intros. by apply Hcut. }
  intros r t w1 Hw1 Ht1 Hpr. destruct r as [[p|]|e].
  - specialize (Hpr p eq_refl). apply goes_bind. apply wpx_attempt.
    apply (wpx_commit_prepared owner path ri expected p key fp Hex).
    + done.
    + eapply owns_alike; [done|done|apply Hw1|done].
    + intros s' w' [Hs' _] _. apply Hcut. by rewrite Hs'.
    + intros r s' w' [Hs' Hr'] Hpost. apply goes_bind. apply wpx_release. intros b w2 Hw2.
      assert (rq_progress s' = DetachedCommit) as Hprog' by by rewrite Hs'.
      assert (or_replayed (rq_response s') = false) as Hf' by by rewrite Hr'.
      assert (forall oc, spared path (pp_trash_id p) ri w1 w' -> o_state oc = PFailed ->
        forall t', delete_effect oc t' w2) as Hspared.
      { intros oc Hsp Hoc t'. unfold delete_effect. rewrite Hoc. right. exists ri, (pp_trash_id p). split; [done|].
        eapply spared_before; [|by eapply spared_after]. by etrans. }
      destruct r as [[|oc|oc rev]|e]; cbn in Hpost.
      * destruct Hpost as (Htook & (r & Hr & Hrs & Hin) & He). apply goes_bind. apply wpx_ask. intros [] w3 E3.
        apply goes_ret. split_and!; [done|apply He|apply He|].
        pose proof (still_call _ _ _ _ still_notify E3) as Hw3.
        exists ri, expected, (pp_trash_id p), r. split_and!; [done|done| |..|done|done].
        -- eapply took_around; [|exact Htook|by etrans]. by etrans.
        -- destruct Hpr as (_ & _ & _ & Hkey & _). by rewrite <- Hkey.
      * destruct Hpost as (Hoc & Hsp & _ & He). apply goes_ret. split_and!; [done|apply He|apply He|by apply Hspared].
      * destruct Hpost as (Hoc & Hsp & _ & He). apply goes_ret. split_and!; [done|apply He|apply He|by apply Hspared].
      * apply goes_bind. apply wpx_on_purges. eapply wpx_mono; [apply ends_reconcile| |].
        -- intros [[]|?] t' w3 _; by apply Hcut.
        -- intros t' w3 _. by apply Hcut.
  - by apply Hreject; [|..|apply failure_terminal].
  - by apply Hreject; [|..|apply failure_terminal].
Qed.

Abbreviation goes_fail := (goes_failure w0 key fp op delete_effect delete_effect_failed).

Lemma goes_handle_delete ri expected s w :
  Pre s w -> matches ri -> delete_identity_of (Existing ri) = Some expected ->
  is_u64 (rt_device ri) -> is_u64 (rt_inode ri) ->
  goes (handle_delete owner op path (Existing ri) expected) (fun _ => Answered) s w.
Proof.
  intros Hp Hm Hex Hdev Hino. unfold handle_delete. apply goes_bind. apply (goes_tame w0 key fp); [tame_auto|done|].
  intros r s1 w1 Hp1 _. destruct r as [[]|e].
  - by apply goes_fail.
  - apply goes_bind. unfold run_operation_commit. apply goes_bind.
    apply (goes_tame w0 key fp); [tame_auto|done|]. intros [] s2 w2 Hp2 _; [|by apply Pre_Cut in Hp2].
    apply goes_bind, goes_modify. eapply goes_mono; [by apply (goes_delete_commit ri); [apply Pre_progress|..]|].
    intros [|o|o rev] s3 w3 Hd; [|..|apply goes_bind, goes_respond]; by apply goes_deliver.
  - by apply (goes_refuse w0 key fp).
Qed.

Lemma replacement_identity_wide s w ri s' w' :
  replacement_identity path s w = (Val (Existing ri), s', w') -> is_u64 (rt_device ri) /\ is_u64 (rt_inode ri).
Proof.
  unfold replacement_identity, gated. intros (a & s1 & w1 & _ & Hx)%bind_Val. destruct a; [|done].
  apply bind_Val in Hx as ([parent|[]] & s2 & w2 & _ & Hx); try done.
  apply bind_Val in Hx as ([st|[]] & s3 & w3 & [-> E]%call_Val & Hx); try done. injection Hx as <- _ _.
  pose proof (law_statat_describes (op_fd parent) (op_name parent) w2 st) as Hd. rewrite E in Hd.
  destruct (Hd eq_refl) as (i & _ & [_ Hw _ _]). exact Hw.
Qed.

Lemma goes_dispatch_delete s w : Pre s w -> goes (dispatch_delete owner op path revision) (fun _ => Answered) s w.
Proof.
  intros Hp. unfold dispatch_delete. apply goes_bind. apply (goes_tame w0 key fp); [tame_auto|done|].
  intros i s1 w1 Hp1 Ei. apply goes_bind. apply wpx_of_io.
  destruct (state_relative_path root_path path) as [rel|e] eqn:Er; [|by apply Pre_Cut in Hp1]. cbv zeta.
  case_bool_decide as Em; cbn [negb].
  - destruct i as [|ri]; [done|]. destruct (replacement_identity_wide _ _ _ _ _ Ei).
    apply goes_bind. eapply goes_expect; [done|]. apply goes_handle_delete; [done|by exists rel|done..].
  - apply goes_bind, goes_respond, goes_fail; [|done]. apply Pre_respond; [apply Hp1|done].
Qed.

Lemma goes_prepare_target s w :
  Pre s w -> goes (prepare_target op path) (fun ready s w => if ready then Pre s w else Answered s w) s w.
Proof.
  intros Hp. unfold prepare_target. apply goes_bind. apply (goes_tame w0 key fp); [tame_auto|done|].
  intros [] s1 w1 Hp1 _; cbn [negb].
  - apply goes_bind. apply (goes_tame w0 key fp); [tame_auto|done|]. intros conflict s2 w2 Hp2 _.
    apply goes_bind. apply (goes_tame w0 key fp); [tame_auto|done|]. intros [] s3 w3 Hp3 _; [|by apply goes_ret].
    apply goes_bind. eapply goes_mono; [by apply goes_fail|]. intros [] s4 w4 Ha. by apply goes_ret.
  - apply goes_bind. eapply goes_mono; [apply (goes_reject w0 key fp op delete_effect), Hp1|].
    intros [] s2 w2 Ha. by apply goes_ret.
Qed.
End request.

Section theorems.
Context `{L : ChangeLaws}.

(** The request begins, with nothing done yet. *)
Record fresh_request (s : Session) : Prop := {
  fresh_purges : PurgeStore.table_ok store_limits (rq_purges s);
  fresh_response : or_replayed (rq_response s) = false }.

Lemma goes_delete_request owner op route headers revision s w :
  fresh_request s -> parse_operation_id parse_uuid hyphenated headers = Ok (Some op) ->
  parse_delete_condition headers = ConditionRevision revision ->
  let path := PathPolicy.resolve_route path_policy route in
  let fp := fingerprint sha256 [str "DELETE"; route; revision] in
  MutationSafety.goes w (delete_request owner route headers)
    (fun _ => MutationSafety.Answered w (operation_key owner op) fp op (delete_effect w owner path revision)) s w.
Proof.
  intros [Ht Hf] Hid Hcond. unfold delete_request, begin_delete. rewrite Hid, Hcond. cbv beta zeta iota.
  set (path := PathPolicy.resolve_route path_policy route).
  destruct (reserved_target route); [by apply goes_reject|]. destruct (PathPolicy.is_managed_root _ _); [by apply goes_reject|].
  pose proof (goes_begin w (operation_key owner op) (fingerprint sha256 [str "DELETE"; route; revision]) op
    (delete_effect w owner path revision) owner s w eq_refl) as Hb.
  apply goes_bind. eapply goes_mono; [by apply Hb|]. intros b s1 w1 Hb1. apply goes_bind.
  eapply goes_mono; [exact Hb1|]. intros [] s2 w2 Hs2; [|by apply goes_ret]. cbn [negb].
  apply goes_bind. eapply goes_mono; [by apply goes_prepare_target|]. intros [] s3 w3 Hs3; [|by apply goes_ret].
  by apply goes_dispatch_delete.
Qed.

(** C3. A delete request tells the truth, whatever the file system, the state store and
    other requests do.  Unless the process dies, the request ends with an answer.  If
    the answer is an outcome of this request, that outcome is recorded for it: success
    means that exactly one thing has changed, the object that was seen in the state the
    client's revision stands for was renamed from the requested path to its trash name,
    and its purge is ready; failure means that this object was not moved.  If the answer
    makes no claim (rejected, running, or a replay), nothing has changed.  Otherwise the
    answer is that the outcome is unknown, and then, or when the process dies after a
    change, the commit had been dispatched. *)
Theorem delete_answer_true owner op route headers revision s w :
  fresh_request s -> parse_operation_id parse_uuid hyphenated headers = Ok (Some op) ->
  parse_delete_condition headers = ConditionRevision revision ->
  let path := PathPolicy.resolve_route path_policy route in
  let fp := fingerprint sha256 [str "DELETE"; route; revision] in
  let '(o, s', w') := serve op (delete_request owner route headers) s w in
  match o with
  | Val _ => MutationSafety.Served w (operation_key owner op) fp op (delete_effect w owner path revision) s' w'
  | Crashed => still w w' \/ rq_progress s' = DetachedCommit
  | Fail _ | Panicked | OutOfFuel => False
  end.
Proof.
  intros Hs Hid Hcond path fp.
  pose proof (serve_contract w (operation_key owner op) fp op (delete_effect w owner path revision)
    (delete_effect_still w owner path revision) (delete_request owner route headers) s w) as Hc.
  unfold wpx in Hc. specialize (Hc ltac:(by apply goes_delete_request)).
  destruct (serve _ _ s w) as [[[a|e| | |] s'] w']; [by apply Hc|by destruct Hc|done..].
Qed.

(** C6. The commit of a deletion never leaves its object moved and unrecorded.  From the
    moment the deletion is prepared, its row being in the purge table, until the commit
    returns, fails or dies with the process, at whatever point: the object that was asked
    for has not been moved, or the row is still in the purge table, prepared or ready, for
    a reconciliation or for the purge worker to find.  (The commit is [commit_prepared].
    If it fails, [delete_commit] then reconciles the row itself, which may end with the
    row removed and what was at the trash name quarantined: this is not part of the
    claim.) *)
Theorem delete_intent_first owner path ri expected p key fp s w :
  delete_identity_of (Existing ri) = Some expected ->
  prepared (owner_persistent owner) path expected p (rq_purges s) w -> owns key fp s w ->
  let '(o, s', w') := commit_prepared owner path p (Existing ri) s w in
  o <> Panicked /\ o <> OutOfFuel /\ guarded path ri expected p w s' w'.
Proof.
  intros Hex Hp Ho.
  assert (wpx (guarded path ri expected p w) (commit_prepared owner path p (Existing ri))
    (fun _ => guarded path ri expected p w) s w) as Hw.
  { apply (wpx_commit_prepared owner path ri expected p key fp Hex); [done|done|by intros|].
    intros [[|oc|oc rev]|e] s' w' _ Hc; cbn in Hc; [right; right; by apply Hc|left; by apply Hc..|done]. }
  unfold wpx in Hw. by destruct (commit_prepared _ _ _ _ s w) as [[[a|e| | |] s'] w'].
Qed.
End theorems.

(** ** A request

    Alice deletes [/srv/keep]. *)

Import KernelMemory TrashSafety PurgeOwnership MutationMemory.

Definition before0 : @OsWorld memory_kernel := tree.
Definition alice : bytes := str "alice".
Definition op0 : bytes := replicate 16 x31.
Definition keep_identity : ExistingReplacementTarget := replacement_target_identity (stat_of tree 2).
Definition keep_revision : bytes :=
  default [] (target_revision (owner_persistent alice) (str "keep") (Existing keep_identity)).
Definition headers0 : UploadProtocol.HeaderMap :=
  [(OPERATION_ID_HEADER, Utils.encode_hex op0); (IF_MATCH, QUOTE :: Utils.encode_hex keep_revision ++ [QUOTE])].
Definition session0 : Session :=
  {| rq_purges := ∅; rq_operations := ∅; rq_response := default_response; rq_progress := Preflight;
     rq_operation := None; rq_leased := false |}.

(** What there is to see of a run. *)
Definition glance (r : outcome unit * Session * Memory) : outcome unit * option OperationPublicState * bool * Z * nat :=
  let '(o, s, m) := r in
  (o, or_operation_state (rq_response s), or_replayed (rq_response s), or_status (rq_response s), length (m_changes m)).

Lemma session0_fresh : fresh_request session0.
Proof.
  split; [|done]. pose proof (PurgeStore.table_ok_delete _ _ t_key t_table_ok) as Ht.
  unfold t_table in Ht. by rewrite delete_singleton_eq in Ht.
Qed.

Lemma delete_answer_true_witness :
  let run := serve op0 (delete_request alice (str "keep") headers0) session0 before0 in
  glance run = (Val tt, Some PSucceeded, false, 204%Z, 1) /\
  let path := PathPolicy.resolve_route path_policy (str "keep") in
  let fp := fingerprint sha256 [str "DELETE"; str "keep"; keep_revision] in
  let '(o, s', w') := run in
  match o with
  | Val _ =>
      MutationSafety.Served before0 (operation_key alice op0) fp op0
        (delete_effect before0 alice path keep_revision) s' w'
  | Crashed => still before0 w' \/ rq_progress s' = DetachedCommit
  | Fail _ | Panicked | OutOfFuel => False
  end.
Proof.
  split; [by vm_compute|].
  apply (delete_answer_true (L := memory_change_laws) alice op0 (str "keep") headers0 keep_revision session0 before0);
    [apply session0_fresh|by vm_compute|by vm_compute].
Defined.

(** The same deletion, prepared. *)
Definition u0 : bytes := be_bytes 16 100.
Definition marked : @OsWorld memory_kernel := with_drawn u0 tree.
Definition purge0 : PreparedPurge :=
  {| pp_key := {| StateModel.owner := owner_persistent alice; id := u0 |}; pp_trash_id := u0;
     pp_source_identity := delete_identity_from_stat (stat_of tree 2) |}.
Definition keep_job : StoredPurgeJob :=
  {| pj_key := pp_key purge0; pj_target_path := str "keep"; pj_trash_path := PathPolicy.delete_trash_name hyphenated u0;
     source_identity := {| id_device := 7; id_inode := 2 |}; trash_revision := None; is_directory := false;
     pj_state := Prepared; attempts := 0 |}.
Definition session1 : Session :=
  {| rq_purges := {[pp_key purge0 := PurgeStore.fresh_row keep_job 900]};
     rq_operations := {[operation_key alice op0 := OperationStore.reserved 900 (replicate 32 x46) u0]};
     rq_response := default_response; rq_progress := DetachedCommit;
     rq_operation := Some {| g_key := operation_key alice op0; g_lease := u0; g_completed := false |}; rq_leased := true |}.

Lemma purge0_prepared :
  prepared (owner_persistent alice) (str "/srv/keep") (delete_identity_from_stat (stat_of tree 2)) purge0
    (rq_purges session1) marked.
Proof.
  assert (drawn marked u0) as Hd by (split; [left|by vm_compute]).
  split_and!; [|done|done|done|].
  - apply PurgeStore.purges0_ok. apply (PurgeStore.fresh_row_ok keep_job 900); [|by vm_compute].
    split; [by vm_compute|split; split; by vm_compute].
  - eexists. split; [apply lookup_singleton_eq|]. split; [done|]. split; [by vm_compute| |by vm_compute..].
    exists (push (str "/srv") (PathPolicy.delete_trash_name hyphenated u0)). split; by vm_compute.
Qed.

Lemma delete_intent_first_witness :
  (commit_prepared alice (str "/srv/keep") purge0 (Existing keep_identity) session1 marked).1.1 = Val DeleteSucceeded /\
  let '(o, s', w') := commit_prepared alice (str "/srv/keep") purge0 (Existing keep_identity) session1 marked in
  o <> Panicked /\ o <> OutOfFuel /\
  guarded (str "/srv/keep") keep_identity (delete_identity_from_stat (stat_of tree 2)) purge0 marked s' w'.
Proof.
  split; [by vm_compute|].
  apply (delete_intent_first (L := memory_change_laws) alice (str "/srv/keep") keep_identity _ purge0 (operation_key alice op0) (replicate 32 x46));
    [done|apply purge0_prepared|].
  eexists. split; [done|]. split; [done|]. split; [by split; [left|vm_compute]|].
  intros r. cbn [rq_operations session1]. by intros [_ <-]%lookup_singleton_Some.
Defined.
End DeleteContract.
