(* ===== verification/BrowserContract.v ===== *)
(** * The browser's mutations tell the truth

    [handle_browser_api] under [serve]: what the answer to a request that creates a
    directory, moves or renames says about the file system. *)

From S2P Require Import Prelude Paths Utils Sql StateModel OperationStore OperationRegistry PurgeStore RootedPaths PathPolicy.
From S2P Require Import Problem UploadProtocol FileRevision OperationResponse.
From S2P Require Import Kernel KernelLaws KernelSteps KernelMemory TrashPurge RootedParents TrashMoves PurgeWorker.
From S2P Require Import PurgeOwnership MutationWorld RootedMutations BrowserApi MutationLaws MutationMemory MutationSafety.
From S2P Require Import DeleteContract.

Import RootedPaths OperationRegistry MutationWorld.

Module BrowserContract.
Import MutationSafety DeleteContract.

(** ** Relocations *)

Section relocate.
Context `{L : ChangeLaws} {S : Type}.
Implicit Types (s : S) (w : OsWorld).
Context (source destination : bytes) (si : ExistingReplacementTarget) (ed : option ReplacementTargetIdentity).

(** One entry was renamed from [source] to [destination]: the object [i], over [x].  An
    object [j] had been seen under the source in the state [si].  Either nothing was
    replaced, and [j] has been seen under the new name; or the destination had been seen
    in the expected state, and the two that were seen are different objects.  In the
    second case the check is followed by a plain rename, as the source says: that another
    program replaced an entry between the two, so that [i] is not [j], is not excluded. *)
Definition relocated w w' : Prop :=
  exists d n d' n' i x j,
    changed (Relinked d n d' n' i x) w w' /\ held w' source d n /\ held w' destination d' n' /\
    seen w' d n j /\ observed w' j si /\
    (x = None /\ seen w' d' n' j /\ (forall di, ed <> Some (Existing di)) \/
     exists di k, ed = Some (Existing di) /\ seen w' d' n' k /\ observed w' k di /\
       (rt_device si, rt_inode si) <> (rt_device di, rt_inode di)).

Definition relocate_post w (o : CheckedRelocationOutcome) w' : Prop :=
  match o with Relocated => relocated w w' | _ => still w w' end.

(** The destination is expected to be missing: what the rename and its verification show. *)
Lemma wpx_missing src dst anchor C (Q : result IoError CheckedMissingRename -> S -> OsWorld -> Prop) s w w1 :
  held w1 source (fd_ino (op_fd src)) (op_name src) -> held w1 destination (fd_ino (op_fd dst)) (op_name dst) ->
  still w w1 -> seen w1 (fd_ino (op_fd src)) (op_name src) (fd_ino anchor) -> observed w1 (fd_ino anchor) si ->
  (forall di, ed <> Some (Existing di)) ->
  (forall w', C s w') -> (forall e w', Q (Err e) s w') ->
  (forall r w', match r with
    | Renamed => relocated w w' | DestinationPresent => still w w' | PublishedIdentityUnknown _ => True end -> Q (Ok r) s w') ->
  wpx C (rename_missing_and_verify (op_fd src) (op_name src) anchor (op_fd dst) (op_name dst)) Q s w1.
Proof.
  intros Hs Hd Hw1 Hsee Hob Hed Hc He Hq. unfold rename_missing_and_verify.
  pose proof (law_rename_noreplace (op_fd src) (op_name src) (op_fd dst) (op_name dst) w1) as Hren.
  apply wpx_bind, wpx_call; [|by intros]. intros r w2 E2. rewrite E2 in Hren. cbn [next_post].
  destruct r as [[]|e].
  2:{ destruct Hren as [[(i & Hch & Hn) Hx]|[_ Hw2]].
      - destruct e; try (by apply wpx_throw, He). by destruct Hx.
      - destruct e; try (by apply wpx_throw, He). apply wpx_ret, Hq. by etrans. }
  destruct Hren as [[(i & Hch & Hn) _]|[Hx _]]; [|by destruct Hx].
  apply wpx_look; [eauto with keeps typeclass_instances|by intros|]. intros [st|e] w3 E3 Hw3; [|by apply wpx_ret, Hq].
  apply wpx_look; [eauto with keeps typeclass_instances|by intros|]. intros [st'|e] w4 E4 Hw4; [|by apply wpx_ret, Hq].
  case_bool_decide as Ei; [|by apply wpx_ret, Hq]. apply wpx_ret, Hq.
  pose proof (law_fstat_describes anchor w2 st) as Hst. rewrite E3 in Hst. specialize (Hst eq_refl). cbn [fst snd] in Hst.
  pose proof (law_statat_describes (op_fd dst) (op_name dst) w3 st') as Hst'. rewrite E4 in Hst'.
  destruct (Hst' eq_refl) as (k & Hk & Hdes). cbn [fst snd] in Hk, Hdes.
  assert (k = fd_ino anchor) as ->.
  { eapply describes_pinned; [exact Hk|exact Hdes|]. rewrite <- (ds_number _ _ _ Hst). by apply same_number. }
  assert (still w2 w4) as Hw24 by by etrans. assert (changed (Relinked (fd_ino (op_fd src)) (op_name src)
    (fd_ino (op_fd dst)) (op_name dst) i None) w w4) as Hch4.
  { eapply changed_before; [done|by eapply changed_after]. }
  assert (grows w1 w4) as Hg by (etrans; [apply Hch|apply Hw24]).
  exists (fd_ino (op_fd src)), (op_name src), (fd_ino (op_fd dst)), (op_name dst), i, None, (fd_ino anchor).
  split_and!; [done|by eapply held_grows|by eapply held_grows|by apply Hg|by apply Hg|].
  left. split_and!; [done|by apply law_seen|done].
Qed.

Lemma relocated_after w w1 w2 : relocated w w1 -> still w1 w2 -> relocated w w2.
Proof.
  intros (d & n & d' & n' & i & x & j & Hch & Hs & Hd & Hse & Ho & Hx) Hw. assert (grows w1 w2) as Hg by apply Hw.
  exists d, n, d', n', i, x, j. split_and!; [by eapply changed_after|by eapply held_grows..|by apply Hg|by apply Hg|].
  destruct Hx as [(-> & ? & ?)|(di & k & ? & ? & ? & ?)]; [left; split_and!; [done|by apply Hg|done]|].
  right. exists di, k. split_and!; [done|by apply Hg|by apply Hg|done].
Qed.

Lemma relocated_before w w1 w2 : still w w1 -> relocated w1 w2 -> relocated w w2.
Proof.
  intros Hw (d & n & d' & n' & i & x & j & Hch & Hr). exists d, n, d', n', i, x, j.
  split; [by eapply changed_before|done].
Qed.

(** How the two ways to rename end: [None] goes on. *)
Definition branch_post w (o : option CheckedRelocationOutcome) w' : Prop :=
  match o with None => relocated w w' | Some o => o <> Relocated /\ still w w' end.

Section branches.
Context (src dst : OpenedParent) (w w1 : OsWorld) (s : S) (C : S -> OsWorld -> Prop).
Context (Q : result IoError (option CheckedRelocationOutcome) -> S -> OsWorld -> Prop).
Context (Hs : held w1 source (fd_ino (op_fd src)) (op_name src)).
Context (Hd : held w1 destination (fd_ino (op_fd dst)) (op_name dst)).
Context (Hw1 : still w w1) (Hc : forall w', C s w') (He : forall e w', Q (Err e) s w').
Context (Hq : forall o w', branch_post w o w' -> Q (Ok o) s w').

Lemma wpx_move_to_missing same changed :
  (forall di, ed <> Some (Existing di)) -> forall current,
  wpx C (move_to_missing src dst same (Existing si) current changed) Q s w1.
Proof.
  intros Hed current. unfold move_to_missing. case_bool_decide; cbn [negb].
  2:{ apply wpx_ret, Hq. by destruct changed. }
  apply wpx_look; [eauto with keeps typeclass_instances|by intros|]. intros [anchor|e] w2 E2 Hw2.
  2:{ destruct (missing_errno e); [|by apply wpx_throw]. apply wpx_ret, Hq. split; [done|by etrans]. }
  pose proof (law_open_path_named (op_fd src) (op_name src) w1 anchor) as Hn. rewrite E2 in Hn. specialize (Hn eq_refl).
  apply wpx_bind. unfold io. apply wpx_look; [eauto with keeps typeclass_instances|by intros|].
  intros [st|e] w3 E3 Hw3; [|by apply He]. apply wpx_ret. cbn [next_post].
  pose proof (law_fstat_describes anchor w2 st) as Hst. rewrite E3 in Hst. specialize (Hst eq_refl). cbn [fst snd] in Hst.
  assert (still w w3) as Hw by (etrans; [done|by etrans]). assert (grows w1 w3) as Hg by (etrans; [apply Hw2|apply Hw3]).
  case_bool_decide as Ei; cbn [negb]; [|apply wpx_ret, Hq; by split]. injection Ei as Ei.
  apply wpx_bind. eapply (wpx_missing src dst anchor C _ s w w3); [by eapply held_grows|by eapply held_grows|done| |..|done|done|done|].
  { apply Hw3. by apply law_seen. }
  { rewrite <- Ei. apply Hst. }
  intros [| |e] w4 Hr; cbn [next_post].
  - by apply wpx_ret, Hq.
  - apply wpx_ret, Hq. by destruct changed.
  - apply wpx_bind, wpx_attempt. apply (wpx_keeps still); [keeps_auto|by intros|]. intros r w5 _ _. by apply wpx_throw.
Qed.

Lemma wpx_replace_expected st j k di :
  ed = Some (Existing di) -> replacement_target_identity st = si ->
  seen w1 (fd_ino (op_fd src)) (op_name src) j -> observed w1 j si ->
  seen w1 (fd_ino (op_fd dst)) (op_name dst) k -> observed w1 k di ->
  wpx C (replace_expected src dst st (Existing di) di) Q s w1.
Proof.
  intros Hed Hsi Hsj Hoj Hsk Hok. unfold replace_expected. rewrite bool_decide_true by done. cbn [negb].
  destruct (_ && _) eqn:Eb; [by apply wpx_ret, Hq|].
  apply wpx_bind, wpx_bind, wpx_call; [|by intros]. intros [[]|e] w2 E2; [|by apply He]. apply wpx_ret. cbn [next_post].
  apply wpx_ret, Hq. pose proof (law_renameat (op_fd src) (op_name src) (op_fd dst) (op_name dst) w1) as Hren.
  rewrite E2 in Hren. destruct Hren as [(i & x & Hch)|[Hx _]]; [|by destruct Hx]. assert (grows w1 w2) as Hg by apply Hch.
  exists (fd_ino (op_fd src)), (op_name src), (fd_ino (op_fd dst)), (op_name dst), i, x, j.
  split_and!; [by eapply changed_before|by eapply held_grows..|by apply Hg|by apply Hg|].
  right. exists di, k. split_and!; [done|by apply Hg|by apply Hg|]. rewrite <- Hsi. cbn. intros [= E1 E3].
  rewrite E1, E3, !Z.eqb_refl in Eb. done.
Qed.
End branches.

(** Both names were looked at: the rename, and what is left to do. *)
Lemma wpx_relocate_seen src dst same st j current C (Q : result IoError CheckedRelocationOutcome -> S -> OsWorld -> Prop) s w w1 :
  held w1 source (fd_ino (op_fd src)) (op_name src) -> held w1 destination (fd_ino (op_fd dst)) (op_name dst) ->
  still w w1 -> (forall w', C s w') -> (forall e w', Q (Err e) s w') ->
  (forall o w', relocate_post w o w' -> Q (Ok o) s w') ->
  replacement_target_identity st = si -> seen w1 (fd_ino (op_fd src)) (op_name src) j -> observed w1 j si ->
  (forall di, current = Existing di -> exists k, seen w1 (fd_ino (op_fd dst)) (op_name dst) k /\ observed w1 k di) ->
  wpx C (ended ← match ed with
                 | Some (Existing expected) => replace_expected src dst st current expected
                 | _ => move_to_missing src dst same (Existing si) current (bool_decide (is_Some ed))
                 end;
         match ended : option CheckedRelocationOutcome with
         | Some outcome => mret outcome
         | None => _ ← sync_renamed_parents (op_fd src) (op_fd dst) same; mret Relocated
         end) Q s w1.
Proof.
  intros Hs Hd Hw1 Hc He Hq Hsi Hsj Hoj Hcur. apply wpx_bind.
  eapply (wpx_mono C _ _ (fun r s' w' => s' = s /\ forall o, r = Ok o -> branch_post w o w')); [| |done].
  - assert ((exists di, ed = Some (Existing di)) \/ forall di, ed <> Some (Existing di)) as [[di Hed]|Hed].
    { destruct ed as [[|di]|]; [right; congruence|left; by exists di|right; congruence]. }
    + rewrite Hed. destruct (decide (current = Existing di)) as [->|Hne].
      * destruct (Hcur di eq_refl) as (k & Hk & Hok).
        apply (wpx_replace_expected src dst w w1 s C _ Hs Hd Hw1 Hc) with j k;
          [done|intros o' w' Ho; split; [done|]; by intros ? [= <-]|done..].
      * unfold replace_expected. rewrite bool_decide_false by done. apply wpx_ret. split; [done|]. by intros o [= <-].
    + assert (wpx C (move_to_missing src dst same (Existing si) current (bool_decide (is_Some ed)))
        (fun r s' w' => s' = s /\ forall o, r = Ok o -> branch_post w o w') s w1) as Hm.
      { apply (wpx_move_to_missing src dst w w1 s C _ Hs Hd Hw1 Hc);
          [done|intros o' w' Ho; split; [done|]; by intros ? [= <-]|done]. }
      destruct ed as [[|di]|]; [done|by destruct (Hed di)|done].
  - intros [o|e] s' w' [-> Hb]; [|by apply He]. specialize (Hb o eq_refl). cbn [next_post]. destruct o as [o|].
    + destruct Hb as [Hne Hb]. apply wpx_ret, Hq. by destruct o.
    + apply wpx_bind. apply (wpx_keeps still); [keeps_auto|by intros|]. intros [[]|e] w5 Hw5 _; [|by apply He].
      apply wpx_ret, Hq. by eapply relocated_after.
Qed.

Lemma wpx_relocate_between src dst C (Q : result IoError CheckedRelocationOutcome -> S -> OsWorld -> Prop) s w w1 :
  held w1 source (fd_ino (op_fd src)) (op_name src) -> held w1 destination (fd_ino (op_fd dst)) (op_name dst) ->
  still w w1 -> (forall w', C s w') -> (forall e w', Q (Err e) s w') ->
  (forall o w', relocate_post w o w' -> Q (Ok o) s w') ->
  wpx C (relocate_between src dst (Existing si) ed) Q s w1.
Proof.
  intros Hs Hd Hw1 Hc He Hq. unfold relocate_between. apply wpx_bind.
  apply (wpx_keeps still); [keeps_auto|by intros|]. intros [same|e] w2 Hw2 _; [|by apply He]. cbn [next_post].
  apply wpx_look; [eauto with keeps typeclass_instances|by intros|]. intros [st|e] w3 E3 Hw3.
  2:{ destruct (missing_errno e); [apply wpx_ret, Hq|by apply wpx_throw]. cbn. do 2 (etrans; [done|]). done. }
  assert (still w w3) as Hww3 by (etrans; [done|by etrans]).
  case_bool_decide as Ei; cbn [negb]; [|by apply wpx_ret, Hq]. injection Ei as Ei.
  pose proof (law_statat_describes (op_fd src) (op_name src) w2 st) as Hst. rewrite E3 in Hst.
  destruct (Hst eq_refl) as (j & Hj & Hdj). cbn [fst snd] in Hj, Hdj.
  apply wpx_look; [eauto with keeps typeclass_instances|by intros|]. intros occupant w4 E4 Hw4.
  assert (still w w4) as Hww4 by by etrans. assert (grows w1 w4) as Hg by (etrans; [apply Hw2|etrans; [apply Hw3|apply Hw4]]).
  assert (held w4 source (fd_ino (op_fd src)) (op_name src)) as Hs4 by by eapply held_grows.
  assert (held w4 destination (fd_ino (op_fd dst)) (op_name dst)) as Hd4 by by eapply held_grows.
  assert (seen w4 (fd_ino (op_fd src)) (op_name src) j) as Hsj by (apply Hw4; by apply law_seen).
  assert (observed w4 j si) as Hoj by (apply Hw4; rewrite <- Ei; apply Hdj).
  apply wpx_bind. destruct occupant as [st'|e]; [|destruct (missing_errno e); [|by apply wpx_throw, He]];
    apply wpx_ret, (wpx_relocate_seen src dst same st j _ C Q s w w4); try done.
  intros di [= <-]. pose proof (law_statat_describes (op_fd dst) (op_name dst) w3 st') as Hst'. rewrite E4 in Hst'.
  destruct (Hst' eq_refl) as (k & Hk & Hdk). exists k. split; [by apply law_seen|apply Hdk].
Qed.

Lemma wpx_rename_if_unchanged C (Q : result IoError CheckedRelocationOutcome -> S -> OsWorld -> Prop) s w :
  (forall w', C s w') -> (forall e w', Q (Err e) s w') -> (forall o w', relocate_post w o w' -> Q (Ok o) s w') ->
  wpx C (rename_if_unchanged source destination (Existing si) ed) Q s w.
Proof.
  intros Hc He Hq. unfold rename_if_unchanged, gated. apply wpx_bind, wpx_ask. intros admitted w1 E1.
  pose proof (still_call _ _ _ _ ro_gate E1) as Hw1. cbn [next_post]. destruct admitted; [|by apply wpx_throw].
  apply wpx_bind, wpx_attempt. apply (wpx_keeps still); [keeps_auto|by intros|]. intros [src|e] w2 Hw2 E2; cbn [next_post].
  2:{ destruct (not_found e); [apply wpx_ret, Hq; cbn; by etrans|by apply wpx_throw]. }
  apply wpx_bind, wpx_attempt. apply (wpx_keeps still); [keeps_auto|by intros|]. intros [dst|e] w3 Hw3 E3; cbn [next_post].
  2:{ destruct (not_found e); [apply wpx_ret, Hq|by apply wpx_throw]. cbn. etrans; [done|by etrans]. }
  apply open_parent_held in E2, E3.
  eapply (wpx_relocate_between src dst C Q s w); [eapply held_grows; [apply Hw3|done]|done| |done..].
  etrans; [done|by etrans].
Qed.
End relocate.

(** ** Directories *)

Section making.
Context `{L : ChangeLaws}.
Implicit Types (w : OsWorld).

Definition is_made (c : Change Ino) : Prop := match c with Made _ _ => True | Relinked _ _ _ _ _ _ => False end.

(** All that changes is that directories are made. *)
Definition making w w' : Prop := grows w w' /\ exists l, changes w' = changes w ++ l /\ Forall is_made l.

#[export] Instance making_preorder : PreOrder making.
Proof.
  split; [intros w; split; [done|]; exists []; by rewrite app_nil_r|].
  intros w1 w2 w3 [Hg (l & Hl & Hf)] [Hg' (l' & Hl' & Hf')]. split; [by etrans|].
  exists (l ++ l'). split; [by rewrite Hl', Hl, app_assoc|by apply Forall_app].
Qed.
Lemma still_making w w' : still w w' -> making w w'.
Proof. intros [Hg _ Hc]. split; [done|]. exists []. by rewrite app_nil_r. Qed.
Lemma op_still_making {A} (op : OsWorld -> A * OsWorld) : op_in still op -> op_in making op.
Proof. intros Hop w. apply still_making, Hop. Qed.

#[export] Instance making_read_only : ReadOnly making.
Proof. split; [apply _|..]; intros; apply op_still_making; eauto with keeps typeclass_instances. Qed.

Lemma making_mkdir d n : op_in making (mkdirat d n).
Proof.
  intros w. pose proof (law_mkdirat d n w) as Hm. destruct (mkdirat d n w) as [o w'].
  destruct Hm as [[[Hg _ Hc] _]|[_ Hs]]; [|by apply still_making]. split; [done|]. exists [Made (fd_ino d) n].
  split; [done|by constructor].
Qed.
Lemma making_unlink d n flag : op_in making (unlinkat d n flag).
Proof.
  intros w. destruct (law_unlink_changes d n flag w) as [Hg Hc]. split; [done|]. exists []. by rewrite app_nil_r.
Qed.
Hint Resolve making_mkdir making_unlink : keeps.

Context {S : Type}.

Lemma making_rollback_loop l : keeps making (S := S) (rollback_loop l).
Proof.
  induction l as [|a l IH]; cbn [rollback_loop]; [keeps_auto|].
  apply keeps_bind; [apply _|apply keeps_attempt, (keeps_open_parent making (ca_path a))|intros]. keeps_auto.
Qed.
Lemma making_rollback {A} l e : keeps making (S := S) (rollback_and_throw (A := A) l e).
Proof. pose proof making_rollback_loop. unfold rollback_and_throw, rollback_created_ancestors_blocking. keeps_auto. Qed.
Hint Resolve making_rollback : keeps.
Lemma making_make d n l : keeps making (S := S) (make_directory d n l).
Proof. unfold make_directory. keeps_auto. Qed.
Lemma making_identify d n l : keeps making (S := S) (identify_created d n l).
Proof. unfold identify_created. keeps_auto. Qed.
Hint Resolve making_make making_identify : keeps.
Lemma making_ancestor d n p l : keeps making (S := S) (create_ancestor d n p l).
Proof. unfold create_ancestor, RootedParents.open_directory_from_root. keeps_auto. Qed.
Hint Resolve making_ancestor : keeps.
Lemma making_open cs d p l : keeps making (S := S) (open_creating cs d p l).
Proof.
  revert d p l. induction cs as [|[| | |c] cs IH]; intros; cbn [open_creating]; keeps_auto.
  all: unfold RootedParents.open_directory_from_root; keeps_auto.
Qed.
Hint Resolve making_open : keeps.
Lemma making_open_parent path : keeps making (S := S) (open_parent_blocking path true).
Proof. unfold open_parent_blocking, open_parent_creating, parent_components. keeps_auto. Qed.
Hint Resolve making_open_parent : keeps.

(** The directory that is handed out was opened by its path. *)
Lemma from_root_opened p (s : S) w f s' w' :
  RootedParents.open_directory_from_root p s w = (Val f, s', w') ->
  s' = s /\ opened_at w' (if bool_decide (p = []) then DOT else p) (fd_ino f).
Proof.
  intros [-> E]%io_Val. split; [done|].
  pose proof (law_opened (if bool_decide (p = []) then DOT else p) w f) as Ho. rewrite E in Ho. by apply Ho.
Qed.

Lemma create_ancestor_opened d n p l (s : S) w f l' s' w' :
  create_ancestor d n p l s w = (Val (f, l'), s', w') -> opened_at w' (if bool_decide (p = []) then DOT else p) (fd_ino f).
Proof.
  unfold create_ancestor. intros (b & s1 & w1 & _ & Hx)%bind_Val. apply bind_Val in Hx as (i & s2 & w2 & _ & Hx).
  apply bind_Val in Hx as (r & s3 & w3 & E3 & Hx). unfold attempt in E3.
  destruct (RootedParents.open_directory_from_root p s2 w2) as [[[g|e| | |] s4] w4] eqn:Eo; try done.
  - injection E3 as <- <- <-. injection Hx as <- _ _ <-. by apply from_root_opened in Eo as [_ Ho].
  - injection E3 as <- <- <-. apply bind_Val in Hx as (? & ? & ? & _ & Hx).
    unfold rollback_and_throw in Hx. by apply bind_Val in Hx as (? & ? & ? & _ & Hx).
Qed.

Lemma open_creating_opened cs current prefix l (s : S) w f l' s' w' :
  open_creating cs current prefix l s w = (Val (f, l'), s', w') ->
  cs = [] /\ f = current \/
  exists p, p = fold_left push (component_bytes <$> cs) prefix /\
    opened_at w' (if bool_decide (p = []) then DOT else p) (fd_ino f).
Proof.
  revert current prefix l s w. induction cs as [|[| | |c] cs IH]; intros current prefix l s w; cbn [open_creating]; try done.
  { intros [= -> _ _ _]. by left. }
  cbv zeta. intros (r & s1 & w1 & E1 & Hx)%bind_Val. right. eexists. split; [done|]. cbn [fmap list_fmap fold_left component_bytes].
  assert (forall next l1 s2 w2, opened_at w2 (if bool_decide (push prefix c = []) then DOT else push prefix c) (fd_ino next) ->
    open_creating cs next (push prefix c) l1 s2 w2 = (Val (f, l'), s', w') ->
    opened_at w' (if bool_decide (fold_left push (component_bytes <$> cs) (push prefix c) = []) then DOT
                  else fold_left push (component_bytes <$> cs) (push prefix c)) (fd_ino f)) as Hnext.
  { intros next l1 s2 w2 Ho E. pose proof (making_open cs next (push prefix c) l1 s2 w2) as Hk. rewrite E in Hk.
    destruct Hk as (_ & [Hg _] & _). apply IH in E as [[-> ->]|(p & -> & Hp)]; [by apply Hg|done]. }
  unfold attempt in E1.
  destruct (RootedParents.open_directory_from_root (push prefix c) s w) as [[[g|e| | |] s4] w4] eqn:Eo; try done.
  - injection E1 as <- <- <-. apply from_root_opened in Eo as [-> Ho]. by eapply Hnext.
  - injection E1 as <- <- <-.
    destruct e; try (unfold rollback_and_throw in Hx; by apply bind_Val in Hx as (? & ? & ? & _ & Hx)).
    apply bind_Val in Hx as ([next l1] & s5 & w5 & E5 & Hx). apply create_ancestor_opened in E5. by eapply Hnext.
Qed.

Lemma open_parent_creating_held path (s : S) w p s' w' :
  open_parent_blocking path true s w = (Val p, s', w') -> held w' path (fd_ino (op_fd p)) (op_name p).
Proof.
  unfold open_parent_blocking, open_parent_creating, parent_components.
  intros ([cs name] & s1 & w1 & Hx & Hy)%bind_Val. apply bind_Val in Hx as (rel & s2 & w2 & Hr & Hx).
  destruct (relative_path root_path path) as [rel'|] eqn:Er; [|done]. injection Hr as -> -> ->.
  destruct (last rel) as [[| | |c]|] eqn:El; try done. injection Hx as <- <- <- <-.
  apply bind_Val in Hy as (root & s3 & w3 & [-> Ed]%io_Val & Hy).
  apply bind_Val in Hy as ([f created] & s4 & w4 & Hf & Hy). injection Hy as <- <- <-. cbn.
  exists (removelast rel). split.
  { f_equal. apply last_Some in El as [l ->]. by rewrite removelast_last. }
  apply open_creating_opened in Hf as [[-> ->]|Hp]; [left|by right]. split; [done|].
  eapply law_dup_ino. by rewrite Ed.
Qed.

(** The directory [path] was made, after missing ancestors. *)
Definition made_directory path w w' : Prop :=
  exists d n l, changes w' = changes w ++ l ++ [Made d n] /\ Forall is_made l /\ held w' path d n /\ grows w w'.

Lemma wpx_create_directory path C (Q : result IoError bool -> S -> OsWorld -> Prop) s w :
  (forall w', C s w') -> (forall e w', making w w' -> Q (Err e) s w') ->
  (forall b w', made_directory path w w' -> Q (Ok b) s w') -> wpx C (create_directory path) Q s w.
Proof.
  intros Hc He Hq. unfold create_directory, gated. apply wpx_bind, wpx_ask. intros admitted w1 E1.
  pose proof (still_making _ _ (still_call _ _ _ _ ro_gate E1)) as Hw1. cbn [next_post].
  destruct admitted; [|by apply wpx_throw, He].
  apply wpx_bind. apply (wpx_keeps making); [keeps_auto|by intros|].
  intros [parent|e] w2 Hw2 E2; cbn [next_post]; [|apply He; by etrans]. assert (making w w2) as Hww2 by by etrans.
  apply open_parent_creating_held in E2. apply wpx_bind, wpx_call; [|by intros]. intros r w3 E3. cbn [next_post].
  pose proof (making_mkdir (op_fd parent) (op_name parent) w2) as Hw3. rewrite E3 in Hw3. cbn in Hw3.
  pose proof (law_mkdirat (op_fd parent) (op_name parent) w2) as Hm. rewrite E3 in Hm. destruct r as [[]|e].
  - destruct Hm as [[[Hg _ Hch] _]|[Hx _]]; [|by destruct Hx].
    apply wpx_bind. unfold io. apply wpx_look; [eauto with keeps typeclass_instances|by intros|].
    intros [[]|e] w4 E4 Hw4; [apply wpx_ret|apply He; etrans; [done|etrans; [done|by apply still_making]]].
    cbn [next_post]. apply wpx_ret, Hq. destruct Hww2 as [Hg2 (l & Hl & Hf)].
    exists (fd_ino (op_fd parent)), (op_name parent), l. split_and!; [|done| |].
    + by rewrite (sl_changes _ _ Hw4), Hch, Hl, app_assoc.
    + eapply held_grows; [|done]. etrans; [done|apply Hw4].
    + etrans; [done|]. etrans; [done|apply Hw4].
  - apply (wpx_keeps making); [apply making_rollback|by intros|]. intros r w4 Hw4 E4.
    assert (making w w4) as Hww4 by (etrans; [done|by etrans]).
    destruct r as [b|e']; [|by apply He].
    unfold rollback_and_throw in E4. by apply bind_Val in E4 as (? & ? & ? & _ & E4).
Qed.
End making.

(** ** Requests to relocate *)

(** What the outcome of a relocation means: success, that the one change is the rename
    that was asked for, of a source in the state the client saw, over a destination (if
    it was to be overwritten) in the state the client saw; failure, that nothing has
    changed. *)
Definition relocation_effect `{ChangeView} `{!ServerEnv} `{!MutationEnv} (w0 : OsWorld) (owner : bytes)
    (rq : RelocationRequest) (oc : OperationOutcome) (w : OsWorld) : Prop :=
  match o_state oc with
  | PSucceeded =>
      exists srev drev si di srel drel, required_revisions rq = Ok (srev, drev) /\
        state_relative_path root_path (rl_source rq) = Ok srel /\
        target_revision (owner_persistent owner) srel (Existing si) = Some srev /\
        state_relative_path root_path (rl_destination rq) = Ok drel /\
        (rl_overwrite rq = true -> target_revision (owner_persistent owner) drel di = drev) /\
        relocated (rl_source rq) (rl_destination rq) si (if rl_overwrite rq then Some di else None) w0 w
  | _ => still w0 w
  end.

(** What the outcome of a request to create a directory means: success, that the last
    change made that directory, and the others directories too; failure, that at most
    directories were made. *)
Definition mkdir_effect `{ChangeView} `{!ServerEnv} `{!MutationEnv} (w0 : OsWorld) (path : bytes) (oc : OperationOutcome)
    (w : OsWorld) : Prop :=
  match o_state oc with PSucceeded => made_directory path w0 w | _ => making w0 w end.

(** The relocation that the body of a request asks for. *)
Definition asks `{Kernel} `{!ServerEnv} `{!MutationEnv} `{!BrowserCodec} (endpoint body : bytes) (rq : RelocationRequest) : Prop :=
  (endpoint = MOVE_API_PATH /\ exists mv, parse_move body = Some mv /\
     resolve_browser_path (mv_source mv) = Some (rl_source rq) /\
     resolve_browser_path (logical_child (mv_directory mv) (last_segment (mv_source mv))) = Some (rl_destination rq) /\
     (rl_source_revision rq, rl_destination_revision rq, rl_overwrite rq) =
       (mv_source_revision mv, mv_destination_revision mv, mv_overwrite mv)) \/
  (endpoint = RENAME_API_PATH /\ exists rn above name, parse_rename body = Some rn /\
     resolve_browser_path (rn_source rn) = Some (rl_source rq) /\ rsplit_once (rn_source rn) = Some (above, name) /\
     resolve_browser_path (logical_child (if bool_decide (above = []) then [SLASH] else above) (rn_name rn)) =
       Some (rl_destination rq) /\
     (rl_source_revision rq, rl_destination_revision rq, rl_overwrite rq) =
       (rn_source_revision rn, rn_destination_revision rn, rn_overwrite rn)).

Definition browser_effect `{ChangeView} `{!ServerEnv} `{!MutationEnv} `{!BrowserCodec} (w0 : OsWorld)
    (owner endpoint body : bytes) (oc : OperationOutcome) (w : OsWorld) : Prop :=
  o_state oc = PFailed /\ still w0 w \/
  (endpoint = MKDIR_API_PATH /\ exists rq path, parse_mkdir body = Some rq /\
     resolve_browser_path (mk_path rq) = Some path /\ mkdir_effect w0 path oc w) \/
  (exists rq, asks endpoint body rq /\ relocation_effect w0 owner rq oc w).

Section contract.
Context `{L : ChangeLaws}.
Implicit Types (s : Session) (w : OsWorld).
Context (w0 : OsWorld) (owner op fp : bytes).
Context (effect : OperationOutcome -> PurgeStore.Table -> OsWorld -> Prop).
Context (effect_failed : forall oc t w, o_state oc = PFailed -> still w0 w -> effect oc t w).
Context (effect_still : forall oc t w w', effect oc t w -> still w w' -> effect oc t w').

Abbreviation key := (operation_key owner op).
Abbreviation Pre := (MutationSafety.Pre w0 key fp).
Abbreviation goes := (MutationSafety.goes w0).
Abbreviation Answered := (MutationSafety.Answered w0 key fp op effect).
Abbreviation delivers := (MutationSafety.delivered key fp effect).
Abbreviation fails := (goes_failure w0 key fp op effect effect_failed).

(** A commit under the lease: it ends the operation itself, or the outcome is unknown. *)
Lemma goes_commit {A} (task : Sys Session A) (outcome : A -> OperationOutcome) s w :
  Pre s w ->
  (forall s w, Pre s w -> rq_progress s = DetachedCommit ->
     wpx (fun s' _ => rq_progress s' = DetachedCommit) task
       (fun r s' w' => rq_progress s' = DetachedCommit /\ forall a, r = Ok a -> delivers (outcome a) s' w') s w) ->
  goes (commit_with_lease task) (fun a s w => delivers (outcome a) s w /\ rq_progress s = DetachedCommit) s w.
Proof.
  intros Hp Hm. unfold commit_with_lease, run_operation_commit. apply goes_bind.
  apply (goes_tame w0 key fp); [tame_auto|done|]. intros [] s1 w1 Hp1 _; [|by apply Pre_Cut in Hp1].
  apply goes_bind, goes_modify, goes_bind. apply wpx_attempt.
  eapply wpx_mono; [apply Hm; [by apply Pre_progress|done]| |by right].
  intros r s2 w2 [Hprog Hr]. apply goes_bind. apply wpx_release. intros b w3 Hw3. apply wpx_of_io.
  destruct r as [a|e]; [|by right]. split; [|done]. eapply delivered_kin; [done| |done|by apply Hr]. by split.
Qed.

Section relocation.
Context (rq : RelocationRequest).
Context (relocation : forall oc t w, relocation_effect w0 owner rq oc w -> effect oc t w).

Lemma relocation_terminal o : terminal_outcome (relocation_outcome o).
Proof. destruct o; [by apply success_terminal|by apply failure_terminal..]. Qed.

(** What the checks before a relocation have found. *)
Record checked (srev : bytes) (drev : option bytes) (srel drel : bytes)
    (si : ExistingReplacementTarget) (di : ReplacementTargetIdentity) : Prop := {
  ck_revisions : required_revisions rq = Ok (srev, drev);
  ck_source : state_relative_path root_path (rl_source rq) = Ok srel;
  ck_source_revision : target_revision (owner_persistent owner) srel (Existing si) = Some srev;
  ck_destination : state_relative_path root_path (rl_destination rq) = Ok drel;
  ck_destination_revision : rl_overwrite rq = true -> target_revision (owner_persistent owner) drel di = drev }.

Lemma goes_finish_relocation srev drev srel drel si di s w :
  Pre s w -> checked srev drev srel drel si di ->
  goes (finish_relocation owner op rq srel drel (Existing si) di) (fun _ => Answered) s w.
Proof.
  intros Hp Hck. unfold finish_relocation. apply goes_bind. eapply goes_mono.
  - apply (goes_commit _ relocation_outcome); [done|]. clear s w Hp. intros s w Hp Hprog.
    unfold commit_relocation. apply wpx_bind. eapply wpx_mark_started; [apply Hp|by intros..|].
    intros t w1 Hw1 Ho1. cbn [next_post]. apply wpx_bind.
    apply (wpx_rename_if_unchanged (rl_source rq) (rl_destination rq) si); [by intros..|]. intros o w2 Ho.
    cbn [next_post]. apply wpx_bind. 
    assert (still w0 w1) as Hw01 by (etrans; [apply Hp|done]).
    assert (grows w1 w2) as Hg2.
    { destruct o; cbn in Ho; try apply Ho. destruct Ho as (? & ? & ? & ? & ? & ? & ? & Hch & _). apply Hch. }
    eapply wpx_complete; [by eapply owns_alike|apply relocation_terminal|by intros..|].
    intros t' w3 Hw3 Hrec. apply wpx_ret. split; [done|]. intros o' [= <-].
    split_and!; [apply Hp|done|done|]. apply relocation. unfold relocation_effect.
    destruct o; cbn [relocation_outcome success failure o_state]; cbn in Ho;
      try (etrans; [exact Hw01|]; by etrans). destruct Hck. exists srev, drev, si, di, srel, drel.
    split_and!; [done..|]. eapply relocated_before; [done|by eapply relocated_after].
  - intros o s1 w1 [Hd Hprog]. cbv beta in Hd.
    assert (forall put relative path, (forall v r, or_replayed (put v r) = or_replayed r) ->
      goes (tell_revision put owner relative path) (fun _ => delivers (relocation_outcome o)) s1 w1) as Htell.
    { intros put relative path Hput. unfold tell_revision. apply goes_bind. apply wpx_attempt.
      apply (wpx_keeps still); [keeps_auto|by right|]. intros r w2 Hw2 _. destruct r as [i|e].
      - apply goes_respond. eapply delivered_kin; [done| |exact Hw2|exact Hd]. split; try done. cbn. by rewrite Hput.
      - apply goes_ret. by eapply delivered_kin. }
    apply goes_bind. apply (goes_mono _ _ (fun _ => delivers (relocation_outcome o)));
      [|intros [] s2 w2 Hd2; by apply goes_deliver].
    destruct o; first [by apply goes_ret|by apply Htell].
Qed.

Lemma goes_admit srev drev srel drel si di s w :
  Pre s w -> checked srev drev srel drel si di ->
  goes (admit_relocation owner op rq srel drel (Existing si) di) (fun _ => Answered) s w.
Proof.
  intros Hp Hck. unfold admit_relocation. apply goes_bind. apply (goes_tame w0 key fp); [tame_auto|done|].
  intros [] s1 w1 Hp1 _; [by apply fails|]. apply goes_bind. apply (goes_tame w0 key fp); [tame_auto|done|].
  intros [[]|e] s2 w2 Hp2 _; [by apply fails|by eapply goes_finish_relocation|by apply (goes_refuse w0 key fp)].
Qed.

Lemma goes_check_destination srev drev srel si meta s w :
  Pre s w -> required_revisions rq = Ok (srev, drev) -> state_relative_path root_path (rl_source rq) = Ok srel ->
  target_revision (owner_persistent owner) srel (Existing si) = Some srev ->
  goes (check_destination owner op rq drev srel (Existing si) meta) (fun _ => Answered) s w.
Proof.
  intros Hp Hrq Hsrel Hsrev. unfold check_destination. apply goes_bind. apply (goes_tame w0 key fp); [tame_auto|done|].
  intros di s1 w1 Hp1 _. apply goes_bind. apply wpx_of_io.
  destruct (state_relative_path root_path (rl_destination rq)) as [drel|e] eqn:Hdrel; [|by apply Pre_Cut in Hp1]. cbv zeta.
  destruct (rl_overwrite rq && _) eqn:Eo.
  { apply goes_bind, goes_respond, fails; [|done]. apply Pre_respond; [apply Hp1|done]. }
  assert (checked srev drev srel drel si di) as Hck.
  { split; [done..|]. intros Hov. rewrite Hov in Eo. cbn in Eo. by split_bool. }
  clear Eo.
  apply goes_bind. apply (goes_tame w0 key fp); [unfold metadata_nofollow; tame_auto|done|].
  intros [dmeta|] s2 w2 Hp2 _; [|by eapply goes_admit].
  destruct (is_dir meta || is_dir dmeta); [by apply fails|]. destruct (negb (rl_overwrite rq)).
  { apply goes_bind, goes_respond, fails; [|done]. apply Pre_respond; [apply Hp2|done]. }
  destruct (_ && _); [by apply fails|by eapply goes_admit].
Qed.

Lemma goes_check_relocation srev drev s w :
  Pre s w -> required_revisions rq = Ok (srev, drev) ->
  goes (check_relocation owner op rq srev drev) (fun _ => Answered) s w.
Proof.
  intros Hp Hrq. unfold check_relocation. cbv zeta. apply goes_bind. apply (goes_tame w0 key fp); [tame_auto|done|].
  intros i s1 w1 Hp1 _. apply goes_bind. apply wpx_of_io.
  destruct (state_relative_path root_path (rl_source rq)) as [srel|e] eqn:Hsrel; [|by apply Pre_Cut in Hp1].
  case_bool_decide as Em; cbn [negb].
  2:{ apply goes_bind, goes_respond, fails; [|done]. apply Pre_respond; [apply Hp1|done]. }
  destruct i as [|si]; [done|]. apply goes_bind. apply (goes_tame w0 key fp); [unfold or_else; tame_auto|done|].
  intros [] s2 w2 Hp2 _; [by apply fails|]. apply goes_bind.
  apply (goes_tame w0 key fp); [unfold metadata_nofollow; tame_auto|done|]. intros [meta|e] s3 w3 Hp3 _.
  2:{ destruct e; first [by apply fails|apply goes_throw; by apply Pre_Cut in Hp3]. }
  destruct (_ && _); [by apply fails|]. apply goes_bind.
  apply (goes_tame w0 key fp); [unfold metadata; tame_auto|done|]. intros [dir|e] s4 w4 Hp4 _.
  - destruct (is_dir dir); [by eapply goes_check_destination|by apply fails].
  - destruct (not_found e); [by apply fails|apply goes_throw; by apply Pre_Cut in Hp4].
Qed.

Lemma goes_relocation s w :
  Pre s w -> goes (handle_api_relocation owner op rq) (fun _ => Answered) s w.
Proof.
  intros Hp. unfold handle_api_relocation. destruct (_ || _); [by apply fails|].
  destruct (required_revisions rq) as [[srev drev]|[status error]] eqn:Hrq.
  - destruct (path_eqb _ _); [by apply fails|]. apply goes_bind. apply (goes_tame w0 key fp); [tame_auto|done|].
    intros [] s1 w1 Hp1 _; cbn [negb]; [by apply goes_check_relocation|by apply (goes_refuse w0 key fp)].
  - apply fails; [done|]. revert Hrq. unfold required_revisions.
    destruct (rl_source_revision rq) as [v|]; cbn [mbind result_bind]; [|by intros [= <- _]].
    destruct (UploadProtocol.TargetRevision_parse v); cbn [ok_or mbind result_bind]; [|by intros [= <- _]].
    destruct (rl_overwrite rq), (rl_destination_revision rq) as [v'|]; cbn [mbind result_bind]; try (by intros [= <- _]).
    destruct (UploadProtocol.TargetRevision_parse v'); cbn; [done|by intros [= <- _]].
Qed.
End relocation.

Lemma goes_mkdir rq s w :
  (forall path oc t w, resolve_browser_path (mk_path rq) = Some path -> mkdir_effect w0 path oc w -> effect oc t w) ->
  Pre s w -> goes (handle_api_mkdir op rq) (fun _ => Answered) s w.
Proof.
  intros Hmk Hp. unfold handle_api_mkdir. destruct (resolve_browser_path (mk_path rq)) as [path|] eqn:Ep; [|by apply fails].
  specialize (Hmk path). apply goes_bind. apply (goes_tame w0 key fp); [tame_auto|done|]. intros [] s1 w1 Hp1 _; cbn [negb];
    [|by apply (goes_refuse w0 key fp)].
  apply goes_bind. apply (goes_tame w0 key fp); [unfold or_else; tame_auto|done|]. intros [] s2 w2 Hp2 _; [by apply fails|].
  apply goes_bind. apply (goes_tame w0 key fp); [unfold metadata_nofollow; tame_auto|done|]. intros [meta|e] s3 w3 Hp3 _; [by apply fails|].
  destruct e; try (apply goes_throw; by apply Pre_Cut in Hp3).
  apply goes_bind. apply (goes_tame w0 key fp); [tame_auto|done|].
  intros [[]|e] s4 w4 Hp4 _; [by apply fails| |by apply (goes_refuse w0 key fp)].
  apply goes_bind. set (told := fun created : bool => if created then success 201 else failure 409 PathExists).
  apply (goes_mono _ _ (fun b s w => delivers (told b) s w /\ rq_progress s = DetachedCommit));
    [|intros b s5 w5 [Hd _]; exact (goes_deliver w0 key fp op effect _ _ _ Hd)].
  apply (goes_commit _ told); [done|].
  clear s w Hp s1 w1 Hp1 s2 w2 Hp2 s3 w3 Hp3 s4 w4 Hp4. intros s w Hp Hprog.
  unfold commit_mkdir. apply wpx_bind. eapply wpx_mark_started; [apply Hp|by intros..|].
  intros t w1 Hw1 Ho1. cbn [next_post]. apply wpx_bind, wpx_attempt. assert (still w0 w1) as Hw01 by (etrans; [apply Hp|done]).
  apply wpx_create_directory; [by intros|..].
  - intros e w2 Hm. cbn [next_post]. destruct e; try (by apply wpx_throw). apply wpx_bind.
    eapply wpx_complete; [eapply owns_alike; [done|done|apply Hm|exact Ho1]|by apply failure_terminal|by intros..|].
    intros t' w3 Hw3 Hrec. apply wpx_ret. split; [done|]. intros b [= <-]. split_and!; [apply Hp|done|done|].
    apply Hmk; [done|]. cbn. etrans; [by apply still_making|]. etrans; [done|by apply still_making].
  - intros b w2 (d & n & l & Hch & Hf & Hh & Hg). cbn [next_post]. apply wpx_bind.
    eapply wpx_complete; [by eapply owns_alike|by apply success_terminal|by intros..|].
    intros t' w3 Hw3 Hrec. apply wpx_ret. split; [done|]. intros b' [= <-]. split_and!; [apply Hp|done|done|].
    apply Hmk; [done|]. exists d, n, l. split_and!; [|done| |].
    + by rewrite (sl_changes _ _ Hw3), Hch, (sl_changes _ _ Hw01).
    + eapply held_grows; [apply Hw3|done].
    + etrans; [apply Hw01|]. etrans; [done|apply Hw3].
Qed.
End contract.

(** ** The requests *)

Section requests.
Context `{L : ChangeLaws} `{!BrowserCodec}.
Implicit Types (s : Session) (w : OsWorld).
Context (w0 : OsWorld) (owner op endpoint text : bytes).

Abbreviation effect := (fun oc (_ : PurgeStore.Table) => browser_effect w0 owner endpoint text oc).
Abbreviation fp := (fingerprint sha256 [str "POST"; endpoint; text]).
Abbreviation Pre := (MutationSafety.Pre w0 (operation_key owner op) fp).
Abbreviation Answered := (MutationSafety.Answered w0 (operation_key owner op) fp op effect).

Lemma browser_effect_failed oc (t : PurgeStore.Table) w : o_state oc = PFailed -> still w0 w -> effect oc t w.
Proof. by left. Qed.

Lemma browser_effect_still oc (t : PurgeStore.Table) w w' : effect oc t w -> still w w' -> effect oc t w'.
Proof.
  intros [[Hs Hw]|[(He & rq & path & Hrq & Hp & Hmk)|(rq & Ha & Hr)]] Hw'.
  - left. split; [done|by etrans].
  - right. left. split; [done|]. exists rq, path. split_and!; [done..|]. unfold mkdir_effect in *.
    destruct (o_state oc); try (etrans; [done|by apply still_making]).
    destruct Hmk as (d & n & l & Hch & Hf & Hh & Hg). exists d, n, l.
    split_and!; [by rewrite (sl_changes _ _ Hw')|done|by eapply held_grows; [apply Hw'|]|etrans; [done|apply Hw']].
  - right. right. exists rq. split; [done|]. unfold relocation_effect in *. destruct (o_state oc); try by etrans.
    destruct Hr as (srev & drev & si & di & srel & drel & ? & ? & ? & ? & ? & Hr).
    exists srev, drev, si, di, srel, drel. split_and!; [done..|]. by eapply relocated_after.
Qed.

Abbreviation fails := (goes_failure w0 (operation_key owner op) fp op effect browser_effect_failed).

Lemma goes_relocating rq s w :
  asks endpoint text rq -> Pre s w -> MutationSafety.goes w0 (handle_api_relocation owner op rq) (fun _ => Answered) s w.
Proof.
  intros Ha Hp. apply (goes_relocation w0 owner op fp effect browser_effect_failed browser_effect_still rq); [|done].
  intros oc t w' Hr. right. right. by exists rq.
Qed.

Lemma goes_move mv s w :
  endpoint = MOVE_API_PATH -> parse_move text = Some mv -> Pre s w ->
  MutationSafety.goes w0 (handle_api_move owner op mv) (fun _ => Answered) s w.
Proof.
  intros He Hmv Hp. unfold handle_api_move. destruct (resolve_browser_path (mv_source mv)) as [src|] eqn:Es; [|by apply fails].
  destruct (resolve_browser_directory (mv_directory mv)); [|by apply fails].
  destruct (resolve_browser_path (logical_child _ _)) as [dst|] eqn:Ed; [|by apply fails].
  apply goes_relocating; [|done]. left. split; [done|]. by exists mv.
Qed.

(** The parts of an accepted path that a rename takes for granted. *)
Lemma browser_path_splits path p :
  resolve_browser_path path = Some p -> is_Some (rsplit_once path) /\ is_Some (parent p).
Proof.
  unfold resolve_browser_path. intros E.
  pose proof (PathPolicy.browser_target_spec parse_uuid hyphenated platform_reserved_paths (fun _ => None) (fun x => x) path_policy path) as Hs.
  rewrite E in Hs. destruct Hs as (parts & -> & ((first & rest & -> & _) & _) & Hc). split.
  - unfold rsplit_once. cbn [split]. rewrite decide_True by done. cbn [length].
    pose proof (split_nonempty SLASH (join [SLASH] (first :: rest))) as Hn.
    destruct (split SLASH _) as [|x l] eqn:Ex; [done|]. cbn [length Nat.leb]. by eexists.
  - unfold parent. destruct (body p) as [start segments]. rewrite Hc, last_app.
    assert (is_Some (last (first :: rest))) as [x Hx] by (apply last_is_Some; done).
    rewrite fmap_last, Hx. by eexists.
Qed.

Lemma goes_rename rn s w :
  endpoint = RENAME_API_PATH -> parse_rename text = Some rn -> Pre s w ->
  MutationSafety.goes w0 (handle_api_rename owner op rn) (fun _ => Answered) s w.
Proof.
  intros He Hrn Hp. unfold handle_api_rename. destruct (resolve_browser_path (rn_source rn)) as [src|] eqn:Es; [|by apply fails].
  destruct (browser_path_splits _ _ Es) as [[[above name] Ea] [dir Edir]].
  destruct (negb _); [by apply fails|]. apply goes_bind. eapply goes_expect; [exact Ea|]. cbv beta iota zeta.
  destruct (resolve_browser_path (logical_child _ _)) as [dst|] eqn:Ed; [|by apply fails].
  apply goes_bind. eapply goes_expect; [exact Edir|]. apply goes_relocating; [|done].
  right. split; [done|]. by exists rn, above, name.
Qed.

Lemma goes_dispatch_api s w :
  is_tracked_browser_mutation endpoint = true -> Pre s w ->
  MutationSafety.goes w0 (dispatch_api endpoint owner op text) (fun _ => Answered) s w.
Proof.
  intros Ht Hp. unfold dispatch_api. case_bool_decide as E1; [|case_bool_decide as E2].
  - destruct (parse_mkdir text) as [rq|] eqn:Eq; [|by apply fails].
    apply (goes_mkdir w0 owner op fp effect browser_effect_failed browser_effect_still); [|done].
    intros path oc t w' Hpath Hmk. right. left. split; [done|]. by exists rq, path.
  - destruct (parse_move text) as [mv|] eqn:Eq; [by apply goes_move|by apply fails].
  - unfold is_tracked_browser_mutation in Ht. rewrite (bool_decide_false _ E1), (bool_decide_false _ E2) in Ht.
    apply bool_decide_eq_true in Ht. destruct (parse_rename text) as [rn|] eqn:Eq; [by apply goes_rename|by apply fails].
Qed.
End requests.

Section theorem.
Context `{L : ChangeLaws} `{!BrowserCodec}.

Lemma goes_browser_api endpoint owner op headers text s w :
  fresh_request s -> is_tracked_browser_mutation endpoint = true ->
  parse_operation_id parse_uuid hyphenated headers = Ok (Some op) ->
  (collect_body API_BODY_LIMIT w).1 = Ok text ->
  MutationSafety.goes w (handle_browser_api endpoint owner headers)
    (fun _ => MutationSafety.Answered w (operation_key owner op) (fingerprint sha256 [str "POST"; endpoint; text]) op
       (fun oc _ => browser_effect w owner endpoint text oc)) s w.
Proof.
  intros [Ht Hf] Htr Hid Hbody. unfold handle_browser_api. rewrite Htr, Hid. cbn [negb].
  destruct (negb _); [by apply goes_reject|]. apply goes_bind. apply wpx_ask. intros b w1 E1.
  rewrite E1 in Hbody. cbn in Hbody. subst b. pose proof (still_call _ _ _ _ (still_body _) E1) as Hw1.
  apply goes_bind. eapply goes_mono; [by apply (goes_begin w (operation_key owner op)
    (fingerprint sha256 [str "POST"; endpoint; text]) op (fun oc _ => browser_effect w owner endpoint text oc))|].
  intros b s1 w2 Hb1. apply goes_bind. eapply goes_mono; [exact Hb1|]. intros [] s2 w3 Hs2; [|by apply goes_ret].
  by apply goes_dispatch_api.
Qed.

(** C4. The browser's mutations tell the truth, whatever the file system, the state
    store and other requests do.  Unless the process dies, a request to create a
    directory, move or rename ends with an answer.  If the answer is an outcome of this
    request, that outcome is recorded for it.  Success of a move or rename means that
    exactly one change was made: the entry at the path the request resolves to was
    renamed to the destination it names.  Before that the source was found in the state
    the client's revision stands for.  If the destination was to be missing, nothing was
    replaced, and the object found at the source was found under the new name
    afterwards; if what the client saw there was to be overwritten, the destination was
    found in the state of its revision, as a different object.  (That another program
    exchanges one of the two entries between these checks and the rename is not excluded
    in that second case: the source promises no compare-and-swap there.)  Success of
    creating a directory means that the last directory made is the requested one, opened
    by its path; failure of a move or rename, that nothing has changed; failure of
    creating a directory, that nothing was moved, while directories may have been made.
    If the answer makes no claim, nothing has changed; otherwise the outcome is unknown,
    and the commit had been dispatched. *)
Theorem browser_answer_true endpoint owner op headers text s w :
  fresh_request s -> is_tracked_browser_mutation endpoint = true ->
  parse_operation_id parse_uuid hyphenated headers = Ok (Some op) ->
  (collect_body API_BODY_LIMIT w).1 = Ok text ->
  let fp := fingerprint sha256 [str "POST"; endpoint; text] in
  let '(o, s', w') := serve op (handle_browser_api endpoint owner headers) s w in
  match o with
  | Val _ =>
      MutationSafety.Served w (operation_key owner op) fp op (fun oc _ => browser_effect w owner endpoint text oc) s' w'
  | Crashed => still w w' \/ rq_progress s' = DetachedCommit
  | Fail _ | Panicked | OutOfFuel => False
  end.
Proof.
  intros Hs Htr Hid Hbody fp.
  pose proof (serve_contract w (operation_key owner op) fp op (fun oc _ => browser_effect w owner endpoint text oc)
    (browser_effect_still w owner endpoint text) (handle_browser_api endpoint owner headers) s w) as Hc.
  unfold wpx in Hc. specialize (Hc ltac:(by apply goes_browser_api)).
  destruct (serve _ _ s w) as [[[a|e| | |] s'] w']; [by apply Hc|by destruct Hc|done..].
Qed.
End theorem.

(** ** A request

    Alice moves [/srv/keep] into [/srv/t]. *)

Import KernelMemory PurgeOwnership MutationMemory.

Definition move0 : MoveRequest :=
  {| mv_source := str "/keep"; mv_directory := str "/t"; mv_source_revision := Some (Utils.encode_hex keep_revision);
     mv_destination_revision := None; mv_overwrite := false |}.
#[export] Instance codec0 : BrowserCodec := {|
  parse_mkdir _ := None;
  parse_move text := if bool_decide (text = move_text) then Some move0 else None;
  parse_rename _ := None;
  media_essence value := Some value |}.
Definition move_headers : UploadProtocol.HeaderMap :=
  [(OPERATION_ID_HEADER, Utils.encode_hex op0); (CONTENT_TYPE, str "application/json")].

Lemma browser_answer_true_witness :
  let run := serve op0 (handle_browser_api MOVE_API_PATH alice move_headers) session0 before0 in
  glance run = (Val tt, Some PSucceeded, false, 204%Z, 1) /\
  let fp := fingerprint sha256 [str "POST"; MOVE_API_PATH; move_text] in
  let '(o, s', w') := run in
  match o with
  | Val _ =>
      MutationSafety.Served before0 (operation_key alice op0) fp op0
        (fun oc _ => browser_effect before0 alice MOVE_API_PATH move_text oc) s' w'
  | Crashed => still before0 w' \/ rq_progress s' = DetachedCommit
  | Fail _ | Panicked | OutOfFuel => False
  end.
Proof.
  split; [by vm_compute|].
  apply (browser_answer_true (L := memory_change_laws) MOVE_API_PATH alice op0 move_headers move_text session0 before0);
    [apply session0_fresh|by vm_compute|by vm_compute|done].
Defined.
End BrowserContract.
