(* ===== verification/MutationReplay.v ===== *)
(** * A finished operation is not repeated

    As long as the result of an operation has not expired, a request under its
    identifier changes nothing: it is answered with that result, or rejected. *)

From S2P Require Import Prelude Paths Utils Sql StateModel OperationStore OperationRegistry PurgeStore RootedPaths PathPolicy.
From S2P Require Import Problem UploadProtocol FileRevision OperationResponse.
From S2P Require Import Kernel KernelLaws KernelSteps KernelMemory TrashPurge RootedParents TrashMoves PurgeWorker.
From S2P Require Import PurgeOwnership MutationWorld RootedMutations DeleteHandler BrowserApi MutationLaws MutationMemory.
From S2P Require Import MutationSafety DeleteContract BrowserContract.

Import RootedPaths OperationRegistry MutationWorld.

Module MutationReplay.
Import MutationSafety.

(** The store's clock and the commands of other requests are before [e]. *)
Record before `{Kernel} `{!ServerEnv} `{!MutationEnv} (e : Z) : Prop := {
  bf_dispatch w now : (dispatch w).1 = Executed now -> (now < e)%Z;
  bf_foreign t w : Forall (fun c => c.1 < e)%Z (op_foreign t w).1 }.

Section replay.
Context `{L : ChangeLaws}.
Implicit Types (s : Session) (w : OsWorld).
Context (w0 : OsWorld) (key : OperationKey) (op : bytes) (oc : OperationOutcome).

(** The result [oc] of [key] is in the table until [e]. *)
Definition finished (e : Z) (t : OperationStore.Table) : Prop :=
  exists r now stored, t !! key = Some (OperationStore.set_completed now e stored r) /\
    blob_length (OperationStore.fingerprint r) = 32%Z /\ outcome_validate stored = Ok tt /\ from_stored stored = Ok oc.

(** The answer repeats the result, or refuses. *)
Definition repeats (r : OpResponse) : Prop :=
  (exists r0, r = apply_operation_outcome hyphenated op oc true r0) \/
  or_operation_id r = Some (hyphenated op) /\ or_operation_state r = Some PRejected.

Lemma repeats_id r : repeats r -> or_operation_id r = Some (hyphenated op).
Proof. intros [(r0 & ->)|[]]; [|done]. unfold apply_operation_outcome. by destruct (o_error oc). Qed.

(** Nothing has changed, and nothing has been dispatched. *)
Definition calm_end s0 (r : result IoError unit) s w : Prop :=
  still w0 w /\ rq_progress s = rq_progress s0 /\ (r = Ok tt -> repeats (rq_response s)).

Definition quits (m : Sys Session unit) s w : Prop := wpx (fun _ w => still w0 w) m (calm_end s) s w.

Lemma quits_reject status code text advice s w :
  still w0 w -> quits (apply_rejection op status code text advice) s w.
Proof. intros Hw. split_and!; [done..|]. intros _. by right. Qed.

Lemma quits_begin e owner fp (f : bool -> Sys Session unit) s w :
  key = operation_key owner op -> before e -> finished e (rq_operations s) -> still w0 w -> f false = mret tt ->
  quits (begun ← begin_tracked owner op fp; started ← answer_begin op begun; f started) s w.
Proof.
  intros Hkey [Hb Hbf] (r & now0 & stored & Hr & Hlen & Hv & Hst) Hw Hf. unfold begin_tracked.
  apply wpx_bind, wpx_bind, wpx_ask. intros lease w1 E1. cbn [next_post].
  assert (still w0 w1) as Hw1 by (etrans; [done|exact (still_call _ _ _ _ still_new_v4 E1)]).
  assert (forall b t w', still w1 w' -> b = BUnavailable \/ b = BConflict \/ b = BReplay oc ->
    wpx (fun _ w => still w0 w) (answer_begin op b ≫= f) (calm_end s) (with_operations t s) w') as Hans.
  { intros b t w' Hw' Hcase. apply wpx_bind. assert (still w0 w') as Hw2 by by etrans.
    destruct Hcase as [-> |[-> | ->]]; unfold answer_begin; apply wpx_bind, wpx_modify, wpx_ret; cbn [next_post];
      rewrite Hf; apply wpx_ret; (split_and!; [done..|]); intros _; [by right|by right|left; by eexists]. }
  assert (forall t w' e', still w1 w' -> calm_end s (Err e') (with_operations t s) w') as Herr
    by (intros t w' e' Hw'; split_and!; [by etrans|done|done]).
  apply wpx_bind, wpx_op_command.
  - intros t w' Hw'. by etrans.
  - intros t w' [|e'] Hw'; cbn [next_post]; apply wpx_of_io; [by apply Hans; auto|by apply Herr].
  - intros t now w' -> Hw' [w2 Hnow%Hb]. cbn [next_post]. apply wpx_of_io.
    set (t1 := (OperationStore.run _ _ _).1).
    assert (t1 !! key = Some (OperationStore.set_completed now0 e stored r)) as Hr1.
    { eapply OperationStore.run_completed; [exact Hr|done|done|apply Hbf]. }
    rewrite <- Hkey, (proj1 (OperationStore.completed_replies store_limits t1 key now now0 e stored r fp lease Hr1 Hnow Hv Hlen)).
    case_bool_decide; unfold begin; rewrite ?Hst; cbn [mbind result_bind next_post]; apply Hans; auto.
Qed.

(** Serving such a request. *)
Lemma quits_serve handler s w :
  quits handler s w -> rq_progress s = Preflight ->
  wpx (fun _ w' => still w0 w') (serve op handler)
    (fun r s' w' => r = Ok tt /\ still w0 w' /\ repeats (rq_response s')) s w.
Proof.
  intros Hh Hp. unfold serve, owning. apply wpx_bind, wpx_attempt, wpx_bind, wpx_attempt.
  eapply wpx_mono; [exact Hh| |done]. clear w Hh. intros r s1 w (Hw & Hprog & Hr). cbn [next_post].
  apply wpx_bind, wpx_drop_operation. intros t w1 Hw1 _. cbn [next_post].
  apply wpx_bind, wpx_release. intros b w2 Hw2. cbn [next_post]. apply wpx_of_io. cbn [next_post].
  assert (still w0 w2) as Hw02 by (etrans; [done|by etrans]).
  apply wpx_bind, wpx_gets. cbn [next_post]. destruct r as [[]|e]; apply wpx_modify; (split_and!; [done..|]).
  - cbn. unfold complete_headers. rewrite (repeats_id _ (Hr eq_refl)). by apply Hr.
  - cbn. unfold apply_operation_error, outcome_can_be_unknown. rewrite Hprog, Hp. cbn. by right.
Qed.
End replay.

(** The two kinds of tracked requests. *)
Inductive TrackedRequest : Type :=
| DeleteOf (route : bytes) (headers : UploadProtocol.HeaderMap)
| BrowserCall (endpoint : bytes) (headers : UploadProtocol.HeaderMap).

Section theorem.
Context `{L : ChangeLaws} `{!BrowserCodec}.

Definition request_headers (q : TrackedRequest) : UploadProtocol.HeaderMap :=
  match q with DeleteOf _ h | BrowserCall _ h => h end.
Definition handle (owner : bytes) (q : TrackedRequest) : Sys Session unit :=
  match q with
  | DeleteOf route headers => delete_request owner route headers
  | BrowserCall endpoint headers => handle_browser_api endpoint owner headers
  end.
(** Other endpoints are not tracked. *)
Definition tracked (q : TrackedRequest) : bool :=
  match q with DeleteOf _ _ => true | BrowserCall endpoint _ => is_tracked_browser_mutation endpoint end.

(** C5. A finished operation is not repeated: while the result of an operation is
    recorded and has not expired, every delete, move, rename or mkdir request under the
    same identifier, whatever it asks for and whatever the environment does, changes
    nothing in the file system, and unless the process dies is answered with exactly the
    recorded result, marked as a replay, or rejected. *)
Theorem finished_operation_not_repeated owner op oc e q s w :
  before e -> finished (operation_key owner op) oc e (rq_operations s) -> rq_progress s = Preflight ->
  tracked q = true -> parse_operation_id parse_uuid hyphenated (request_headers q) = Ok (Some op) ->
  let '(o, s', w') := serve op (handle owner q) s w in
  still w w' /\
  match o with
  | Val _ => repeats op oc (rq_response s')
  | Crashed => True
  | Fail _ | Panicked | OutOfFuel => False
  end.
Proof.
  intros Hb Hf Hp Htr Hid.
  assert (quits w op oc (handle owner q) s w) as Hq.
  { destruct q as [route headers|endpoint headers]; cbn in *.
    - unfold delete_request, begin_delete. rewrite Hid. cbv beta zeta iota. destruct (reserved_target route); [by apply quits_reject|].
      destruct (PathPolicy.is_managed_root _ _); [by apply quits_reject|].
      destruct (parse_delete_condition headers); [by apply quits_reject..|].
      by eapply (quits_begin w (operation_key owner op) op oc e owner _
        (fun started => if negb started then mret tt else _ : Sys Session unit)).
    - unfold handle_browser_api. rewrite Htr, Hid. cbn [negb]. destruct (negb _); [by apply quits_reject|].
      apply wpx_bind, wpx_ask. intros b w1 E1. pose proof (still_call _ _ _ _ (still_body _) E1) as Hw1. cbn [next_post].
      destruct b as [text|[]]; [|by apply quits_reject..].
      by eapply (quits_begin w (operation_key owner op) op oc e owner _
        (fun started : bool => if started then _ else mret tt : Sys Session unit)). }
  pose proof (quits_serve w op oc _ s w Hq Hp) as Hs. unfold wpx in Hs.
  by destruct (serve _ _ s w) as [[[a|err| | |] s'] w']; destruct_and? Hs.
Qed.
End theorem.

(** ** A repeated request

    Alice sends the request that moved [/srv/keep] again. *)

Import KernelMemory PurgeOwnership MutationMemory DeleteContract BrowserContract.

Definition after0 : outcome unit * Session * @OsWorld memory_kernel :=
  serve op0 (handle_browser_api MOVE_API_PATH alice move_headers) session0 before0.
Definition again0 : Session :=
  {| rq_purges := rq_purges after0.1.2; rq_operations := rq_operations after0.1.2; rq_response := default_response;
     rq_progress := Preflight; rq_operation := None; rq_leased := false |}.

Lemma finished_operation_not_repeated_witness :
  let run := serve op0 (handle alice (BrowserCall MOVE_API_PATH move_headers)) again0 after0.2 in
  glance run = (Val tt, Some PSucceeded, true, 204%Z, 1) /\
  let '(o, s', w') := run in
  still after0.2 w' /\
  match o with
  | Val _ => repeats op0 (success 204) (rq_response s')
  | Crashed => True
  | Fail _ | Panicked | OutOfFuel => False
  end.
Proof.
  split; [by vm_compute|].
  apply (finished_operation_not_repeated (L := memory_change_laws) alice op0 (success 204) 2000
           (BrowserCall MOVE_API_PATH move_headers) again0 after0.2).
  - split; [intros w now [= <-]; lia|by constructor].
  - exists (default (OperationStore.reserved 0 [] []) (rq_operations again0 !! operation_key alice op0)),
      1000%Z, (Build_StoredOutcome 204 TSucceeded None).
    by vm_compute.
  - done.
  - done.
  - by vm_compute.
Defined.
End MutationReplay.
