(* ===== verification/DirectoryVisits.v ===== *)
(** * Visiting and clearing directories

    From [server/rooted_fs.rs]: the resumable enumeration of one directory, the keys of
    directory entries, the removal of one entry, and the removal of an empty directory of
    upload stages.  [UTF-8] is not checked: a name that is not text is none of the
    internal names, which is all the callers ask. *)

From S2P Require Import Prelude Paths PathKeys RootedPaths PathPolicy FileRevision.
From S2P Require Import Kernel TrashPurge RootedParents TrashMoves PurgeWorker MutationWorld RootedMutations.

Import RootedPaths PathPolicy.

Record RootedDirEntry : Type := {
  de_path : bytes;
  de_file_name : bytes;
  de_metadata : Stat;
  de_is_symlink : bool;
  de_revision_identity : ReplacementTargetIdentity }.

(** [DirectoryCursor] is the offset [readdir] reports. *)
Inductive DirectoryVisitProgress : Type := VisitComplete | VisitPaused (cursor : Z).

Section visits.
Context `{Kernel} `{!ServerEnv} `{!MutationEnv}.

(** [openat] of a directory by its name, the link not followed; the effective user. *)
Class StageEnv : Type := {
  openat_directory : OwnedFd -> bytes -> OsWorld -> option (result Errno OwnedFd) * OsWorld;
  geteuid : Z }.
Context `{!StageEnv} {S : Type}.

(** ** Visits *)

Definition join_child (relative name : bytes) : bytes :=
  if path_eqb relative DOT then name else push relative name.

(** The entry [name] of the directory [relative]; [None] if it is a link out of the root. *)
Definition inspect_child (directory : Dir) (relative name : bytes) : Sys S (option RootedDirEntry) :=
  directory_fd ← of_result (dir_fd directory);
  nofollow ← io (statat directory_fd name);
  let is_symlink := bool_decide (from_raw_mode (st_mode nofollow) = Symlink) in
  let child_relative := join_child relative name in
  let found (target : OwnedFd) :=
    metadata ← io (fstat target);
    mret (Some {| de_path := push root_path child_relative; de_file_name := name; de_metadata := metadata;
                  de_is_symlink := is_symlink;
                  de_revision_identity := Existing (replacement_target_identity nofollow) |}) in
  opened ← call (openat2_path false child_relative);
  match opened : result Errno OwnedFd with
  | Ok target => found target
  | Err XDEV => mret None
  | Err e =>
      if match e with NOENT | LOOP => is_symlink | _ => false end
      then target ← io (openat2_path true child_relative); found target
      else throw (of_errno e)
  end.

(** The loop over [readdir]; [budget] is consulted before an entry is looked at. *)
Fixpoint visit_entries (fuel : nat) (directory : Dir) (relative : bytes) (resume_cursor : Z)
    (budget : Sys S bool) (visitor : RootedDirEntry -> Sys S bool) : Sys S DirectoryVisitProgress :=
  match fuel with
  | O => out_of_fuel
  | Datatypes.S fuel =>
      read ← call (dir_read directory);
      match read : option (result Errno (bytes * Z)) with
      | None => mret VisitComplete
      | Some entry =>
          '(name, next_cursor) ← of_result entry;
          let continue := visit_entries fuel directory relative next_cursor budget visitor in
          if bool_decide (name = DOT) || bool_decide (name = DOT ++ DOT) then continue
          else
            go ← budget;
            if negb go then mret (VisitPaused resume_cursor)
            else
              entry ← inspect_child directory relative name;
              match entry : option RootedDirEntry with
              | None => continue
              | Some entry =>
                  go ← visitor entry;
                  if go : bool then continue else mret (VisitPaused next_cursor)
              end
      end
  end.

Definition visit_dir_blocking_chunk (fuel : nat) (path : bytes) (cursor : Z) (budget : Sys S bool)
    (visitor : RootedDirEntry -> Sys S bool) : Sys S DirectoryVisitProgress :=
  relative ← of_io (relative_path_or_dot path);
  directory ← RootedParents.open_directory_from_root relative;
  directory ← io (dir_new directory);
  _ ← (if (cursor =? 0)%Z then mret tt else io (dir_seek directory cursor));
  visit_entries fuel directory relative cursor budget visitor.

(** ** Entries *)

Definition entry_key_blocking (path : bytes) : Sys S RootedEntryKey :=
  parent ← open_parent_blocking path false;
  parent_file ← io (dup (op_fd parent));
  metadata ← io (fstat parent_file);
  mret {| ek_parent := stat_identity metadata; ek_name := op_name parent |}.
Definition entry_key (path : bytes) : Sys S RootedEntryKey := gated (entry_key_blocking path).

(** For an entry that is no directory, as the only caller knows. *)
Definition remove_entry_blocking (path : bytes) : Sys S bool :=
  opened ← attempt (open_parent_blocking path false);
  match opened : result IoError OpenedParent with
  | Err NotFound => mret false
  | Err e => throw e
  | Ok parent =>
      removed ← call (unlinkat (op_fd parent) (op_name parent) AtEmpty);
      match removed : result Errno unit with
      | Ok _ => mret true
      | Err NOENT => mret false
      | Err e => throw (of_errno e)
      end
  end.

Definition sync_parent (path : bytes) : Sys S unit :=
  gated (parent ← open_parent_blocking path false; io (fsync (op_fd parent))).

(** ** Directories of upload stages *)

Definition permissions (st : Stat) : Z := Z.land (st_mode st) 4095.

(** [open_private_upload_stage_directory_at]: without repairing the mode *)
Definition open_private_upload_stage_directory_at (parent : OwnedFd) (name : bytes) : Sys S OwnedFd :=
  directory ← io (openat_directory parent name);
  parent_stat ← io (fstat parent);
  opened ← io (fstat directory);
  if negb (is_dir parent_stat) || negb (is_dir opened) || negb (st_uid opened =? geteuid)%Z
     || negb (st_dev opened =? st_dev parent_stat)%Z
  then throw InvalidData
  else
    named ← io (statat parent name);
    if negb (is_dir opened) || negb (st_uid opened =? geteuid)%Z || negb (st_dev opened =? st_dev parent_stat)%Z
       || negb (permissions opened =? 448)%Z || negb (st_dev named =? st_dev opened)%Z
       || negb (st_ino named =? st_ino opened)%Z || negb (is_dir named)
    then throw InvalidData
    else mret directory.

Definition remove_empty_upload_stage_directory_blocking (directory_path : bytes) : Sys S bool :=
  _ ← of_io (relative_path root_path directory_path);
  match file_name directory_path ≫= classify_internal_name parse_uuid hyphenated with
  | Some StageDirectory =>
    opened ← attempt (open_parent_blocking directory_path false);
    match opened : result IoError OpenedParent with
    | Err e => if not_found e then mret false else throw e
    | Ok parent =>
        directory ← attempt (open_private_upload_stage_directory_at (op_fd parent) (op_name parent));
        match directory : result IoError OwnedFd with
        | Err NotFound => mret false
        | Err e => throw e
        | Ok directory =>
            opened ← io (fstat directory);
            named ← io (statat (op_fd parent) (op_name parent));
            if negb (st_dev opened =? st_dev named)%Z || negb (st_ino opened =? st_ino named)%Z
            then throw InvalidData
            else
              removed ← call (unlinkat (op_fd parent) (op_name parent) AtRemoveDir);
              match removed : result Errno unit with
              | Ok _ => _ ← io (fsync (op_fd parent)); mret true
              | Err NOENT | Err NOTEMPTY | Err EXIST => mret false
              | Err e => throw (of_errno e)
              end
        end
    end
  | _ => throw InvalidInput
  end.

Definition validated_upload_stage_path (path : bytes) : result IoError (bytes * bytes) :=
  _ ← relative_path root_path path;
  directory ← ok_or (upload_stage_directory path) InvalidInput;
  name ← ok_or (file_name path) InvalidInput;
  if is_upload_stage_name parse_uuid hyphenated name then Ok (directory, name) else Err InvalidInput.

Definition remove_empty_upload_stage_directory (stage_path : bytes) : Sys S bool :=
  gated ('(directory_path, _) ← of_io (validated_upload_stage_path stage_path);
         remove_empty_upload_stage_directory_blocking directory_path).
End visits.
