(* ===== verification/DirectoryTime.v ===== *)
(** * Time and enumerations

    [VisitTime] says that time passes during every call, and that an enumeration names the
    directory itself and its parent at most once each: these two names are skipped without
    looking at the clock.  An enumeration whose budget reads the clock then ends by its
    deadline. *)

From S2P Require Import Prelude Paths RootedPaths PathPolicy FileRevision.
From S2P Require Import Kernel KernelLaws KernelMotion KernelSteps TrashPurge TrashSafety TrashReturns RootedParents TrashMoves.
From S2P Require Import KernelMemory PurgeWorker PurgeOwnership MutationWorld RootedMutations MutationMemory DirectoryVisits.

Import RootedPaths PathPolicy.

Module DirectoryTime.
Import KernelMotion TrashReturns.

(** Time passes; of an enumeration, no more of the two names is ahead than before. *)
Definition passing `{ClockLaws} (dots : Dir -> OsWorld -> nat) (w w' : OsWorld) : Prop :=
  clock_le w w' /\ forall d, dots d w' <= dots d w.

Class VisitTime `{ClockLaws} `{!ServerEnv} `{!MutationEnv} : Type := {
  dots : Dir -> OsWorld -> nat;
  dots_bound d w : dots d w <= 2;
  dots_read d w n c w' : dir_read d w = (Some (Some (Ok (n, c))), w') -> n = DOT \/ n = DOT ++ DOT -> dots d w' < dots d w;
  pass_read d : op_in (passing dots) (dir_read d);
  pass_instant : op_in (passing dots) instant_now;
  pass_stop : op_in (passing dots) is_cancelled;
  pass_fstat' f : op_in (passing dots) (fstat f);
  pass_stat d n : op_in (passing dots) (statat d n);
  pass_gated : op_in (passing dots) gate_admits;
  pass_beneath d n : op_in (passing dots) (openat2_beneath d n);
  pass_openat2 b p : op_in (passing dots) (openat2_path b p) }.
#[export] Hint Resolve pass_read pass_instant pass_stop pass_fstat' pass_stat pass_gated pass_beneath pass_openat2 : motion.

Section time.
Context `{T : VisitTime}.

Abbreviation passes := (passing dots).

#[export] Instance passes_preorder : PreOrder passes.
Proof.
  split; [intros w; split; [unfold clock_le; lia|done]|].
  intros w1 w2 w3 [? D1] [? D2]. split; [clock_lia|]. intros d. specialize (D1 d). specialize (D2 d). lia.
Qed.

Lemma passes_clock {A} (op : OsWorld -> A * OsWorld) : op_in passes op -> op_in clock_le op.
Proof. intros Hop w. apply Hop. Qed.
Hint Resolve passes_clock : motion.

Lemma pass_inspect {S} d rel n : forward passes (S := S) (inspect_child d rel n).
Proof. unfold inspect_child. forward_auto. Qed.
Hint Resolve pass_inspect : motion.

Lemma forward_clock {S A} (m : Sys S A) : forward passes m -> forward clock_le m.
Proof. intros Hm s w. specialize (Hm s w). destruct (m s w) as [[o s'] w']. by destruct Hm as [? []]. Qed.
Hint Resolve forward_clock : motion.

(** ** Code with a deadline *)

(** Ends, when started in a world where [P] holds. *)
Definition lasts {S A} (P : OsWorld -> Prop) (m : Sys S A) : Prop :=
  forall s w, P w -> let '(o, _, w') := m s w in o <> OutOfFuel /\ clock_le w w'.

Definition stable (P : OsWorld -> Prop) (R : OsWorld -> OsWorld -> Prop) : Prop := forall w w', P w -> R w w' -> P w'.

Lemma lasts_forward {S A} P (m : Sys S A) : forward clock_le m -> lasts P m.
Proof. intros Hm s w _. apply Hm. Qed.

Lemma lasts_ends {S A} (m : Sys S A) : lasts (fun _ => True) m -> forward clock_le m.
Proof. intros Hm s w. by apply Hm. Qed.

(** What follows a value may use what is known of that value. *)
Lemma lasts_then {S A B} (P : OsWorld -> Prop) (m : Sys S A) (f : A -> Sys S B) :
  lasts P m -> (forall s w a s' w', P w -> m s w = (Val a, s', w') -> lasts (fun w => w = w') (f a)) -> lasts P (m ≫= f).
Proof.
  intros Hm Hf s w Hw. unfold mbind, Sys_bind. specialize (Hm s w Hw).
  destruct (m s w) as [[[a|e| | |] s1] w1] eqn:E; destruct Hm as [Ho Hc]; try done.
  specialize (Hf s w a s1 w1 Hw E s1 w1 eq_refl). destruct (f a s1 w1) as [[o s2] w2]. split; [apply Hf|].
  destruct Hf. clock_lia.
Qed.
Lemma lasts_bind {S A B} R (P : OsWorld -> Prop) (m : Sys S A) (f : A -> Sys S B) :
  forward R m -> (forall w w', R w w' -> clock_le w w') -> stable P R -> (forall a, lasts P (f a)) -> lasts P (m ≫= f).
Proof.
  intros Hm Hr Hp Hf. apply lasts_then.
  - intros s w _. specialize (Hm s w). destruct (m s w) as [[o s'] w']. destruct Hm. split; [done|by apply Hr].
  - intros s w a s' w' Hw E s1 ? ->. apply Hf. specialize (Hm s w). rewrite E in Hm. by eapply Hp, Hm.
Qed.
Lemma lasts_weaken {S A} (P Q : OsWorld -> Prop) (m : Sys S A) : lasts Q m -> (forall w, P w -> Q w) -> lasts P m.
Proof. intros Hm Hq s w Hw. by apply Hm, Hq. Qed.
Lemma lasts_attempt {S A} P (m : Sys S A) : lasts P m -> lasts P (attempt m).
Proof.
  intros Hm s w Hw. unfold attempt. specialize (Hm s w Hw). by destruct (m s w) as [[[a|e| | |] s1] w1]; destruct Hm.
Qed.

Lemma lasts_ret {S A B} (a : A) P (f : A -> Sys S B) : lasts P (f a) -> lasts P (mret a ≫= f).
Proof. done. Qed.

(** Time left until the deadline. *)
Definition remaining (deadline : Z) (w : OsWorld) : Z := Z.max 0 (deadline - clock_at w).

Lemma stable_budget d deadline n : stable (fun w => (remaining deadline w + Z.of_nat (dots d w) < n)%Z) passes.
Proof. intros w w' Hw [Hc Hd]. specialize (Hd d). unfold remaining in *. clock_lia. Qed.

(** ** Enumerations with a deadline *)

Section visit.
Context {S : Type} (budget : Sys S bool) (visitor : RootedDirEntry -> Sys S bool) (deadline : Z).
Hypothesis pass_budget : forward passes budget.
Hypothesis pass_visitor : forall e, forward passes (visitor e).
(** An entry is admitted only if the clock was read and the deadline is still ahead. *)
Hypothesis budget_ticks : forall s w s' w', budget s w = (Val true, s', w') -> (remaining deadline w' < remaining deadline w)%Z.
Hint Resolve pass_budget pass_visitor : motion.

Lemma visit_entries_last fuel d rel cursor :
  lasts (fun w => (remaining deadline w + Z.of_nat (dots d w) < Z.of_nat fuel)%Z)
    (visit_entries fuel d rel cursor budget visitor).
Proof.
  revert cursor. induction fuel as [|fuel IH]; intros cursor; cbn [visit_entries].
  { intros s w Hw. unfold remaining in Hw. lia. }
  apply lasts_then; [apply lasts_forward; forward_auto|].
  intros s w read s1 w1 Hw [-> E]%call_Val. pose proof (pass_read d w) as [Hc Hd]. rewrite E in Hc, Hd. cbn in Hc, Hd.
  destruct read as [[[n next]|e]|]; [|intros s' w' _; by split; [|unfold clock_le; lia]|apply lasts_forward; forward_auto].
  apply (lasts_ret (n, next)). specialize (Hd d). destruct (_ || _) eqn:Ed.
  { eapply lasts_weaken; [apply IH|]. intros ? ->.
    assert (dots d w1 < dots d w) by (apply (dots_read d w n next w1); [done|]; apply orb_true_iff in Ed as [?%bool_decide_eq_true|?%bool_decide_eq_true]; auto).
    unfold remaining in *. clock_lia. }
  apply lasts_then; [apply lasts_forward; forward_auto|]. intros s2 ? go s3 w3 -> Eb.
  pose proof (pass_budget s2 w1) as Hb. rewrite Eb in Hb. destruct Hb as [_ [Hc3 Hd3]]. specialize (Hd3 d).
  destruct go; cbn [negb]; [|apply lasts_forward; forward_auto]. apply budget_ticks in Eb.
  apply (lasts_weaken _ (fun w => (remaining deadline w + Z.of_nat (dots d w) < Z.of_nat fuel)%Z));
    [|intros ? ->; unfold remaining in *; clock_lia].
  pose proof (stable_budget d deadline (Z.of_nat fuel)) as Hs. assert (forall w w', passes w w' -> clock_le w w') as Hp by by intros ? ? [].
  apply (lasts_bind passes); [forward_auto|done..|]. intros [e|]; [|apply IH].
  apply (lasts_bind passes); [forward_auto|done..|]. intros []; [apply IH|apply lasts_forward; forward_auto].
Qed.

Lemma visit_chunk_lasts fuel path cursor :
  lasts (fun w => (remaining deadline w + 2 < Z.of_nat fuel)%Z)
    (visit_dir_blocking_chunk fuel path cursor budget visitor).
Proof.
  assert (stable (fun w => (remaining deadline w + 2 < Z.of_nat fuel)%Z) clock_le) as Hst.
  { intros w w' Hw Hc. unfold remaining in *. clock_lia. }
  unfold visit_dir_blocking_chunk, RootedParents.open_directory_from_root.
  do 4 (apply (lasts_bind clock_le); [forward_auto|done..|intros]).
  eapply lasts_weaken; [apply visit_entries_last|]. intros w Hw. pose proof (dots_bound a1 w). cbn beta. lia.
Qed.
End visit.
End time.
#[export] Hint Resolve passes_clock pass_inspect forward_clock : motion.

(** ** In memory *)

Import KernelMemory MutationMemory PurgeOwnership.

Ltac passes_memory := intros; intros ?; split; [unfold clock_le|done]; cbn; try lia.

#[export] Instance memory_visits : VisitTime (H1 := memory_server) (H2 := memory_mutations).
Proof.
  refine {| dots := fun _ _ => 0 |}; try passes_memory.
  { intros; lia. }
  { cbn. unfold read_entry. intros d w n c w'. destruct (list_find _ _) as [[i e]|] eqn:E; [|done].
    apply list_find_Some in E as (_ & (_ & H1 & H2) & _). intros [= <- <- <-] [?|?]; by exfalso. }
  all: unfold stat_entry, stat_object, read_entry; repeat case_match; cbn in *; lia.
Defined.

End DirectoryTime.
