(* ===== verification/Maintenance.v ===== *)
(** * Storage maintenance

    [server/maintenance.rs]: the periodic task that retires expired upload sessions with
    their stages, hands orphaned trash to the purge worker, and removes orphaned stages
    and readiness probes, in slices bounded by a number of entries and a time.  The
    registry of active upload files is shared with the upload handlers: before each time
    it is locked, they may have changed it ([active_foreign]). *)

From S2P Require Import Prelude Paths PathKeys Sql StateModel UploadStore PurgeStore RootedPaths PathPolicy StateScan FileRevision.
From S2P Require Import Kernel TrashPurge RootedParents TrashMoves PurgeWorker MutationWorld RootedMutations DirectoryVisits.

Import RootedPaths PathPolicy.

(** Durations in nanoseconds. *)
Definition UPLOAD_SESSION_TTL : Z := 7 * 24 * 60 * 60 * 1000000000.
Definition TRASH_ENTRY_TTL : Z := 60 * 60 * 1000000000.
Definition MAINTENANCE_INTERVAL : Z := 60 * 60 * 1000000000.
Definition MAINTENANCE_CONTINUATION_DELAY : Z := 25 * 1000000.
Definition MAINTENANCE_ENTRY_BUDGET : Z := 1024.
Definition MAINTENANCE_TIME_BUDGET : Z := 100 * 1000000.
Definition UPLOAD_SESSION_CLEANUP_BATCH : Z := 64.
Definition UPLOAD_SESSION_SNAPSHOT_PAGE : Z := 16.
Definition PURGE_JOB_SNAPSHOT_LIMIT : Z := 4096.

Section maintenance.
Context `{Kernel} `{!ServerEnv} `{!MutationEnv} `{!StageEnv}.

Class MaintenanceEnv : Type := {
  (* [SystemTime::now], in nanoseconds since the epoch *)
  system_now : OsWorld -> Z * OsWorld;
  (* commands of other tasks on the upload table, and what upload handlers do to the
     registry of active files *)
  upload_foreign : UploadStore.Table -> OsWorld -> list (Z * UploadStore.Command) * OsWorld;
  active_foreign : list RootedEntryKey -> OsWorld -> list RootedEntryKey * OsWorld;
  (* [PurgeQueue::try_schedule], and sleeping unless the server shuts down meanwhile *)
  try_schedule : TrashEntry -> OsWorld -> bool * OsWorld;
  sleep : Z -> OsWorld -> bool * OsWorld }.
Context `{!MaintenanceEnv}.

(** ** State *)

Record MaintenanceDirectory : Type := { sd_path : bytes; sd_cursor : Z }.
Record PendingMaintenancePurge : Type := { pm_path : bytes; pm_entry : TrashEntry }.

Record MaintenanceScanState : Type := {
  ms_directories : list MaintenanceDirectory;
  ms_pending_purge : option PendingMaintenancePurge;
  ms_trash_ttl : Z;
  ms_cleanup_complete : bool;
  ms_cleanup_cursor : option UploadSessionKey;
  ms_snapshot_complete : bool;
  ms_snapshot_cursor : option UploadSessionKey;
  ms_protected_uploads : list RootedEntryKey;
  ms_skip_uploads : bool;
  ms_purge_snapshot_complete : bool;
  ms_protected_trash : list RootedEntryKey;
  ms_skip_trash : bool }.

Definition new_scan (root : bytes) (trash_ttl : Z) : MaintenanceScanState :=
  {| ms_directories := [{| sd_path := root; sd_cursor := 0 |}]; ms_pending_purge := None;
     ms_trash_ttl := trash_ttl; ms_cleanup_complete := false; ms_cleanup_cursor := None;
     ms_snapshot_complete := false; ms_snapshot_cursor := None; ms_protected_uploads := [];
     ms_skip_uploads := false; ms_purge_snapshot_complete := false; ms_protected_trash := [];
     ms_skip_trash := false |}.

Definition with_directories (l : list MaintenanceDirectory) (m : MaintenanceScanState) : MaintenanceScanState :=
  {| ms_directories := l; ms_pending_purge := ms_pending_purge m; ms_trash_ttl := ms_trash_ttl m;
     ms_cleanup_complete := ms_cleanup_complete m; ms_cleanup_cursor := ms_cleanup_cursor m;
     ms_snapshot_complete := ms_snapshot_complete m; ms_snapshot_cursor := ms_snapshot_cursor m;
     ms_protected_uploads := ms_protected_uploads m; ms_skip_uploads := ms_skip_uploads m;
     ms_purge_snapshot_complete := ms_purge_snapshot_complete m; ms_protected_trash := ms_protected_trash m;
     ms_skip_trash := ms_skip_trash m |}.
Definition with_pending_purge (p : option PendingMaintenancePurge) (m : MaintenanceScanState) : MaintenanceScanState :=
  {| ms_directories := ms_directories m; ms_pending_purge := p; ms_trash_ttl := ms_trash_ttl m;
     ms_cleanup_complete := ms_cleanup_complete m; ms_cleanup_cursor := ms_cleanup_cursor m;
     ms_snapshot_complete := ms_snapshot_complete m; ms_snapshot_cursor := ms_snapshot_cursor m;
     ms_protected_uploads := ms_protected_uploads m; ms_skip_uploads := ms_skip_uploads m;
     ms_purge_snapshot_complete := ms_purge_snapshot_complete m; ms_protected_trash := ms_protected_trash m;
     ms_skip_trash := ms_skip_trash m |}.
(** After a page of expired sessions. *)
Definition with_cleanup (complete : bool) (cursor : option UploadSessionKey) (protect : list RootedEntryKey) (skip : bool)
    (m : MaintenanceScanState) : MaintenanceScanState :=
  {| ms_directories := ms_directories m; ms_pending_purge := ms_pending_purge m; ms_trash_ttl := ms_trash_ttl m;
     ms_cleanup_complete := complete; ms_cleanup_cursor := cursor;
     ms_snapshot_complete := ms_snapshot_complete m; ms_snapshot_cursor := ms_snapshot_cursor m;
     ms_protected_uploads := ms_protected_uploads m ++ protect; ms_skip_uploads := ms_skip_uploads m || skip;
     ms_purge_snapshot_complete := ms_purge_snapshot_complete m; ms_protected_trash := ms_protected_trash m;
     ms_skip_trash := ms_skip_trash m |}.
(** After a page of tracked sessions. *)
Definition with_snapshot (complete : bool) (cursor : option UploadSessionKey) (protect : list RootedEntryKey) (skip : bool)
    (m : MaintenanceScanState) : MaintenanceScanState :=
  {| ms_directories := ms_directories m; ms_pending_purge := ms_pending_purge m; ms_trash_ttl := ms_trash_ttl m;
     ms_cleanup_complete := ms_cleanup_complete m; ms_cleanup_cursor := ms_cleanup_cursor m;
     ms_snapshot_complete := complete; ms_snapshot_cursor := cursor;
     ms_protected_uploads := ms_protected_uploads m ++ protect; ms_skip_uploads := ms_skip_uploads m || skip;
     ms_purge_snapshot_complete := ms_purge_snapshot_complete m; ms_protected_trash := ms_protected_trash m;
     ms_skip_trash := ms_skip_trash m |}.
(** After the tracked deletions were listed. *)
Definition with_trash (protect : list RootedEntryKey) (skip : bool) (m : MaintenanceScanState) : MaintenanceScanState :=
  {| ms_directories := ms_directories m; ms_pending_purge := ms_pending_purge m; ms_trash_ttl := ms_trash_ttl m;
     ms_cleanup_complete := ms_cleanup_complete m; ms_cleanup_cursor := ms_cleanup_cursor m;
     ms_snapshot_complete := ms_snapshot_complete m; ms_snapshot_cursor := ms_snapshot_cursor m;
     ms_protected_uploads := ms_protected_uploads m; ms_skip_uploads := ms_skip_uploads m;
     ms_purge_snapshot_complete := true; ms_protected_trash := protect; ms_skip_trash := skip |}.

(** [UploadSessionCleanupBatch]; the counts of removed records and stages are only logged. *)
Record UploadSessionCleanupBatch : Type := {
  ub_examined : Z;
  ub_protected : list RootedEntryKey;
  ub_skip : bool;
  ub_next_cursor : option UploadSessionKey;
  ub_page_complete : bool }.
Definition empty_batch : UploadSessionCleanupBatch :=
  {| ub_examined := 0; ub_protected := []; ub_skip := false; ub_next_cursor := None; ub_page_complete := false |}.

(** The local variables of one slice of the scan. *)
Record Slice : Type := {
  sl_removed_paths : list bytes;
  sl_scheduled : list bytes;
  sl_examined : Z;
  sl_descend : option bytes;
  sl_pending : option PendingMaintenancePurge }.
Definition empty_slice : Slice :=
  {| sl_removed_paths := []; sl_scheduled := []; sl_examined := 0; sl_descend := None; sl_pending := None |}.

(** Everything the task works on: the two tables and the registry it shares with others,
    and the state of the scan. *)
Record Maint : Type := {
  mt_uploads : UploadStore.Table;
  mt_purges : PurgeStore.Table;
  mt_active : list RootedEntryKey;
  mt_scan : MaintenanceScanState;
  mt_batch : UploadSessionCleanupBatch;
  mt_slice : Slice }.

Definition with_tables (u : UploadStore.Table) (p : PurgeStore.Table) (m : Maint) : Maint :=
  {| mt_uploads := u; mt_purges := p; mt_active := mt_active m; mt_scan := mt_scan m; mt_batch := mt_batch m;
     mt_slice := mt_slice m |}.
Definition with_active (l : list RootedEntryKey) (m : Maint) : Maint :=
  {| mt_uploads := mt_uploads m; mt_purges := mt_purges m; mt_active := l; mt_scan := mt_scan m;
     mt_batch := mt_batch m; mt_slice := mt_slice m |}.
Definition with_scan (f : MaintenanceScanState -> MaintenanceScanState) (m : Maint) : Maint :=
  {| mt_uploads := mt_uploads m; mt_purges := mt_purges m; mt_active := mt_active m; mt_scan := f (mt_scan m);
     mt_batch := mt_batch m; mt_slice := mt_slice m |}.
Definition with_batch (f : UploadSessionCleanupBatch -> UploadSessionCleanupBatch) (m : Maint) : Maint :=
  {| mt_uploads := mt_uploads m; mt_purges := mt_purges m; mt_active := mt_active m; mt_scan := mt_scan m;
     mt_batch := f (mt_batch m); mt_slice := mt_slice m |}.
Definition with_slice (f : Slice -> Slice) (m : Maint) : Maint :=
  {| mt_uploads := mt_uploads m; mt_purges := mt_purges m; mt_active := mt_active m; mt_scan := mt_scan m;
     mt_batch := mt_batch m; mt_slice := f (mt_slice m) |}.

Definition note_removed (path : bytes) (s : Slice) : Slice :=
  {| sl_removed_paths := sl_removed_paths s ++ [path]; sl_scheduled := sl_scheduled s; sl_examined := sl_examined s;
     sl_descend := sl_descend s; sl_pending := sl_pending s |}.
Definition note_scheduled (path : bytes) (s : Slice) : Slice :=
  {| sl_removed_paths := sl_removed_paths s; sl_scheduled := sl_scheduled s ++ [path]; sl_examined := sl_examined s;
     sl_descend := sl_descend s; sl_pending := sl_pending s |}.
Definition note_examined (s : Slice) : Slice :=
  {| sl_removed_paths := sl_removed_paths s; sl_scheduled := sl_scheduled s; sl_examined := (sl_examined s + 1)%Z;
     sl_descend := sl_descend s; sl_pending := sl_pending s |}.
Definition note_found (descend : option bytes) (pending : option PendingMaintenancePurge) (s : Slice) : Slice :=
  {| sl_removed_paths := sl_removed_paths s; sl_scheduled := sl_scheduled s; sl_examined := sl_examined s;
     sl_descend := descend; sl_pending := pending |}.

Definition skip_untracked (b : UploadSessionCleanupBatch) : UploadSessionCleanupBatch :=
  {| ub_examined := ub_examined b; ub_protected := ub_protected b; ub_skip := true;
     ub_next_cursor := ub_next_cursor b; ub_page_complete := ub_page_complete b |}.
Definition protect_entry (k : RootedEntryKey) (b : UploadSessionCleanupBatch) : UploadSessionCleanupBatch :=
  {| ub_examined := ub_examined b; ub_protected := ub_protected b ++ [k]; ub_skip := ub_skip b;
     ub_next_cursor := ub_next_cursor b; ub_page_complete := ub_page_complete b |}.
Definition examine (b : UploadSessionCleanupBatch) : UploadSessionCleanupBatch :=
  {| ub_examined := (ub_examined b + 1)%Z; ub_protected := ub_protected b; ub_skip := ub_skip b;
     ub_next_cursor := ub_next_cursor b; ub_page_complete := ub_page_complete b |}.
Definition pass_session (k : UploadSessionKey) (b : UploadSessionCleanupBatch) : UploadSessionCleanupBatch :=
  {| ub_examined := ub_examined b; ub_protected := ub_protected b; ub_skip := ub_skip b;
     ub_next_cursor := Some k; ub_page_complete := ub_page_complete b |}.
Definition end_page (complete : bool) (b : UploadSessionCleanupBatch) : UploadSessionCleanupBatch :=
  {| ub_examined := ub_examined b; ub_protected := ub_protected b; ub_skip := ub_skip b;
     ub_next_cursor := ub_next_cursor b; ub_page_complete := complete |}.

(** ** The state store *)

Definition of_text {A} (r : result string A) : Sys Maint A :=
  match r with Ok a => mret a | Err _ => throw OtherIo end.

(** Commands of other tasks that the store executes before the next one. *)
Definition others : Sys Maint unit :=
  u ← gets mt_uploads;
  uploads ← ask (upload_foreign u);
  p ← gets mt_purges;
  purges ← ask (foreign p);
  modify (fun m => with_tables (UploadStore.run store_limits (mt_uploads m) uploads).1
                     (PurgeStore.run store_limits (mt_purges m) purges).1 m).

(** A command that reads both tables and may change the uploads. *)
Definition store {A} (command : UploadStore.Table -> PurgeStore.Table -> Z -> result string (UploadStore.Table * A))
    : Sys Maint A :=
  _ ← others;
  verdict ← ask dispatch;
  u ← gets mt_uploads;
  p ← gets mt_purges;
  let execute now :=
    modify (fun m => with_tables match command u p now with Ok (u, _) => u | Err _ => u end p m) in
  match verdict : StoreVerdict with
  | NotAccepted | NotExecuted => throw OtherIo
  | Executed now => _ ← execute now; '(_, a) ← of_text (command u p now); mret a
  | Unanswered now => _ ← execute now; throw OtherIo
  | DiedBefore => crash
  | DiedAfter now => _ ← execute now; crash
  end.

Definition expired_upload_sessions_page (after : option UploadSessionKey) (limit : Z)
    : Sys Maint (list ExpiredUploadSession) :=
  n ← of_text (query_limit limit);
  store (fun u _ now => l ← UploadStore.expired_upload_sessions u now after n; Ok (u, l)).
Definition upload_sessions_page (after : option UploadSessionKey) (limit : Z) : Sys Maint (list StoredUploadSession) :=
  if ((limit <? 1) || (64 <? limit))%Z then throw OtherIo
  else store (fun u _ _ => l ← UploadStore.upload_sessions_page store_limits u after limit; Ok (u, l)).
Definition expired_upload_session_matches (expected : ExpiredUploadSession) : Sys Maint bool :=
  _ ← of_text (session_validate (session expected));
  store (fun u _ now => b ← UploadStore.expired_upload_session_matches u now expected; Ok (u, b)).
Definition remove_expired_upload_session_if_matches (expected : ExpiredUploadSession) : Sys Maint bool :=
  _ ← of_text (session_validate (session expected));
  store (fun u _ now => UploadStore.remove_expired_upload_session_if_matches u now expected).
Definition purge_jobs (limit : Z) : Sys Maint (list StoredPurgeJob) :=
  n ← of_text (query_limit limit);
  store (fun u p _ => l ← PurgeStore.purge_jobs p n; Ok (u, l)).
Definition state_path_is_bound_blocking (path : bytes) : Sys Maint bool :=
  _ ← of_text (validate_stored_path path "Maintenance state");
  store (fun u p _ => Ok (u, StateScan.state_path_is_bound u p path)).

(** ** Claims *)

Definition lock_active : Sys Maint (list RootedEntryKey) :=
  before ← gets mt_active;
  active ← ask (active_foreign before);
  _ ← modify (with_active active);
  mret active.

Definition try_claim_stale_entry (entry : RootedEntryKey) : Sys Maint bool :=
  active ← lock_active;
  if bool_decide (entry ∈ active) || bool_decide (maintenance_marker entry ∈ active) then mret false
  else _ ← modify (with_active (maintenance_marker entry :: active)); mret true.

Definition drop_claim (entry : RootedEntryKey) : Sys Maint unit :=
  active ← lock_active;
  modify (with_active (filter (fun k => k <> maintenance_marker entry) active)).

(** What is done while a claim is held; [declined] if somebody else has the entry. *)
Definition claiming {A} (entry : RootedEntryKey) (declined : A) (m : Sys Maint A) : Sys Maint A :=
  claimed ← try_claim_stale_entry entry;
  if negb claimed then mret declined
  else r ← attempt m; _ ← drop_claim entry; of_io r.

(** ** Expired sessions *)

Context (fuel : nat).

Definition remove_expired_upload_record (expired : ExpiredUploadSession) (stage_removed : bool)
    : Sys Maint (option bool) :=
  gone ← remove_expired_upload_session_if_matches expired;
  mret (if gone : bool then Some stage_removed else None).

Definition stored_identity_matches (expected : StoredFileIdentity) (entry : TrashEntry) : bool :=
  negb (del_is_directory (te_identity entry)) && (del_device (te_identity entry) =? id_device expected)%Z
  && (del_inode (te_identity entry) =? id_inode expected)%Z.

Definition purge_single_file (entry : TrashEntry) : Sys Maint unit :=
  '(purged, _) ← run_on entry (purge_slice fuel 1 MAINTENANCE_TIME_BUDGET);
  match purged : result IoError bool with
  | Ok true => mret tt
  | Ok false => throw OtherIo
  | Err e => throw e
  end.

Definition cleanup_expired_running_upload (expired : ExpiredUploadSession) (stage_path : bytes)
    : Sys Maint (option bool) :=
  match stage_identity (session expired) with
  | None => remove_expired_upload_record expired false
  | Some expected_stage =>
      let finish stage_removed :=
        _ ← match upload_stage_directory stage_path with
            | Some _ => _ ← remove_empty_upload_stage_directory stage_path; mret tt
            | None => mret tt
            end;
        remove_expired_upload_record expired stage_removed in
      captured ← attempt (capture_entry_for_purge stage_path false);
      match captured : result IoError (option TrashEntry) with
      | Ok (Some entry) =>
          if stored_identity_matches expected_stage entry
          then _ ← purge_single_file entry; finish true
          else remove_expired_upload_record expired false
      | Ok None => finish false
      | Err NotFound | Err NotADirectory | Err InvalidData => remove_expired_upload_record expired false
      | Err e => throw e
      end
  end.

Definition discard_unusable (expired : ExpiredUploadSession) : Sys Maint (option bool) :=
  _ ← modify (with_batch skip_untracked);
  remove_expired_upload_record expired false.

(** The stage of an expired session is claimed, and acted on if it is still the same. *)
Definition retire_stage (expired : ExpiredUploadSession) (stage_path : bytes) : Sys Maint (option bool) :=
  keyed ← attempt (entry_key stage_path);
  match keyed : result IoError RootedEntryKey with
  | Err e => if not_found e then remove_expired_upload_record expired false else throw e
  | Ok stage_key =>
      claiming stage_key None (
        _ ← modify (with_batch (protect_entry stage_key));
        same ← expired_upload_session_matches expired;
        if negb same then mret None else cleanup_expired_running_upload expired stage_path)
  end.

Definition cleanup_expired_upload_session (expired : ExpiredUploadSession) : Sys Maint (option bool) :=
  let s := session expired in
  let upload_id := id (up_key s) in
  match resolve_state_path root_path (target_path s), resolve_state_path root_path (stage_path s) with
  | Err _, _ | Ok _, Err _ => discard_unusable expired
  | Ok target_path_, Ok stage_path_ =>
      match is_upload_temp_path hyphenated sha256 target_path_ upload_id stage_path_ with
      | Err _ => discard_unusable expired
      | Ok valid =>
          consistent ← (if negb valid then mret false
                        else
                          t ← of_io (state_relative_path root_path target_path_);
                          if negb (path_eqb t (target_path s)) then mret false
                          else r ← of_io (state_relative_path root_path stage_path_);
                               mret (path_eqb r (stage_path s)));
          if negb consistent then discard_unusable expired
          else
            same ← expired_upload_session_matches expired;
            if negb same then mret None
            else
              match up_state s with
              | StateModel.Committed | StateModel.Unknown => remove_expired_upload_record expired false
              | StateModel.CommitStarted => mret None
              | StateModel.Rejected =>
                  match stage_identity s with
                  | None => remove_expired_upload_record expired false
                  | Some _ => retire_stage expired stage_path_
                  end
              | StateModel.Running | StateModel.AwaitingConfirmation => retire_stage expired stage_path_
              end
      end
  end.

Fixpoint cleanup_sessions (sessions : list ExpiredUploadSession) : Sys Maint unit :=
  match sessions with
  | [] => mret tt
  | expired :: rest =>
      cancelled ← ask is_cancelled;
      if cancelled : bool then mret tt
      else
        _ ← modify (with_batch examine);
        cleaned ← attempt (cleanup_expired_upload_session expired);
        _ ← match cleaned : result IoError (option bool) with
            | Ok _ => mret tt
            | Err _ => modify (with_batch skip_untracked)
            end;
        _ ← modify (with_batch (pass_session (up_key (session expired))));
        cleanup_sessions rest
  end.

Definition cleanup_expired_upload_sessions_batch (after : option UploadSessionKey) (limit : Z) : Sys Maint unit :=
  sessions ← expired_upload_sessions_page after limit;
  let fetched := Z.of_nat (length sessions) in
  _ ← modify (with_batch (fun _ => empty_batch));
  _ ← cleanup_sessions sessions;
  modify (with_batch (fun b => end_page ((ub_examined b =? fetched) && (fetched <? limit))%Z b)).

(** ** What is tracked *)

(** The key of a session's stage, if it has one: [None] if it is decided or has no file. *)
Definition tracked_stage (s : StoredUploadSession) : Sys Maint (option RootedEntryKey) :=
  if is_terminal (up_state s) then mret None
  else
    target ← of_io (resolve_state_path root_path (target_path s));
    stage ← of_io (resolve_state_path root_path (stage_path s));
    t ← of_io (state_relative_path root_path target);
    r ← of_io (state_relative_path root_path stage);
    valid ← of_text (is_upload_temp_path hyphenated sha256 target (id (up_key s)) stage);
    if negb (path_eqb t (target_path s) && path_eqb r (stage_path s) && valid) then throw OtherIo
    else
      found ← attempt (metadata_nofollow stage);
      match found : result IoError Stat with
      | Err e => if not_found e then mret None else throw e
      | Ok metadata =>
          identity ← of_io (ok_or (stage_identity s) OtherIo);
          if is_file metadata && (st_nlink metadata =? 1)%Z && (st_dev metadata =? id_device identity)%Z
             && (st_ino metadata =? id_inode identity)%Z
          then k ← entry_key stage; mret (Some k)
          else throw OtherIo
      end.

Fixpoint tracked_stages (sessions : list StoredUploadSession) : Sys Maint (list RootedEntryKey) :=
  match sessions with
  | [] => mret []
  | s :: rest =>
      k ← tracked_stage s;
      ks ← tracked_stages rest;
      mret (match k with Some k => k :: ks | None => ks end)
  end.

Definition tracked_upload_entries_page (after : option UploadSessionKey)
    : Sys Maint (list RootedEntryKey * option UploadSessionKey * bool) :=
  sessions ← upload_sessions_page after UPLOAD_SESSION_SNAPSHOT_PAGE;
  entries ← tracked_stages sessions;
  mret (entries, up_key <$> last sessions, (Z.of_nat (length sessions) <? UPLOAD_SESSION_SNAPSHOT_PAGE)%Z).

Definition load_tracked_upload_snapshot_page : Sys Maint unit :=
  cursor ← gets (fun m => ms_snapshot_cursor (mt_scan m));
  page ← attempt (tracked_upload_entries_page cursor);
  match page : result IoError (list RootedEntryKey * option UploadSessionKey * bool) with
  | Ok (entries, next, complete) => modify (with_scan (with_snapshot complete next entries false))
  | Err _ => modify (with_scan (with_snapshot true cursor [] true))
  end.

Fixpoint tracked_trash (jobs : list StoredPurgeJob) : Sys Maint (list RootedEntryKey) :=
  match jobs with
  | [] => mret []
  | job :: rest =>
      path ← of_io (resolve_state_path root_path (pj_trash_path job));
      r ← of_io (state_relative_path root_path path);
      if negb (path_eqb r (pj_trash_path job)) then throw OtherIo
      else
        match file_name path ≫= classify_internal_name parse_uuid hyphenated with
        | Some DeleteTrash =>
            k ← entry_key path;
            ks ← tracked_trash rest;
            mret (k :: ks)
        | _ => throw OtherIo
        end
  end.

Definition tracked_purge_trash_entries : Sys Maint (list RootedEntryKey) :=
  jobs ← purge_jobs PURGE_JOB_SNAPSHOT_LIMIT; tracked_trash jobs.

Definition load_tracked_purge_snapshot : Sys Maint unit :=
  before ← gets mt_scan;
  tracked ← attempt tracked_purge_trash_entries;
  match tracked : result IoError (list RootedEntryKey) with
  | Ok entries => modify (with_scan (with_trash entries (ms_skip_trash before)))
  | Err _ => modify (with_scan (with_trash (ms_protected_trash before) true))
  end.

(** ** The scan for orphans *)

(** The state store still depends on the path, or cannot tell. *)
Definition should_preserve_stale_state_path (path : bytes) : Sys Maint bool :=
  match state_relative_path root_path path with
  | Err _ => mret true
  | Ok state_path =>
      bound ← attempt (state_path_is_bound_blocking state_path);
      mret (match bound : result IoError bool with Ok b => b | Err _ => true end)
  end.

(** A [SystemTime] from the fields of [stat], in nanoseconds since the epoch. *)
Definition system_time (seconds nanoseconds : Z) : option Z :=
  if ((0 <=? nanoseconds) && (nanoseconds <? 1000000000))%Z
  then Some (seconds * 1000000000 + nanoseconds)%Z else None.

Definition maintenance_entry_age (metadata : Stat) (now : Z) (is_trash : bool) : Z :=
  let modified := system_time (st_mtime metadata) (st_mtime_nsec metadata) in
  let newest_change :=
    if is_trash && (0 <=? st_ctime metadata)%Z then
      match system_time (st_ctime metadata) (st_ctime_nsec metadata) with
      | Some changed => Some match modified with Some m => Z.max m changed | None => changed end
      | None => modified
      end
    else modified in
  match newest_change with
  | Some changed => if (changed <=? now)%Z then (now - changed)%Z else 0%Z
  | None => 0%Z
  end.

Record MaintenanceBatchOptions : Type := {
  mo_now : Z;
  mo_upload_ttl : Z;
  mo_max_entries : Z;
  mo_max_duration : Z }.

(** Old trash that nobody tracks is handed to the purge worker. *)
Definition schedule_trash (entry : RootedDirEntry) : Sys Maint bool :=
  keyed ← attempt (entry_key_blocking (de_path entry));
  match keyed : result IoError RootedEntryKey with
  | Err e => if not_found e then mret true else throw e
  | Ok key =>
      scan ← gets mt_scan;
      if bool_decide (key ∈ ms_protected_trash scan) then mret true
      else
        preserve ← should_preserve_stale_state_path (de_path entry);
        if preserve : bool then mret true
        else
          captured ← attempt (capture_entry_for_purge_with_type_blocking (de_path entry)
                                (Some (is_dir (de_metadata entry))) None);
          match captured : result IoError (option TrashEntry) with
          | Ok (Some purge) =>
              scheduled ← ask (try_schedule purge);
              if scheduled : bool then _ ← modify (with_slice (note_scheduled (de_path entry))); mret true
              else
                _ ← modify (with_slice (fun s =>
                      note_found (sl_descend s) (Some {| pm_path := de_path entry; pm_entry := purge |}) s));
                mret false
          | Ok None | Err _ => mret true
          end
  end.

(** An old stage or readiness probe that nobody tracks or uses is removed. *)
Definition remove_orphan (entry : RootedDirEntry) : Sys Maint bool :=
  keyed ← attempt (entry_key_blocking (de_path entry));
  match keyed : result IoError RootedEntryKey with
  | Err e => if not_found e then mret true else throw e
  | Ok key =>
      scan ← gets mt_scan;
      if bool_decide (key ∈ ms_protected_uploads scan) then mret true
      else
        claiming key true (
          preserve ← should_preserve_stale_state_path (de_path entry);
          if preserve : bool then mret true
          else
            removed ← attempt (remove_entry_blocking (de_path entry));
            _ ← match removed : result IoError bool with
                | Ok true => modify (with_slice (note_removed (de_path entry)))
                | Ok false | Err _ => mret tt
                end;
            mret true)
  end.

(** Directories that are not internal are visited next. *)
Definition descend_into (entry : RootedDirEntry) : Sys Maint bool :=
  if is_dir (de_metadata entry)
  then _ ← modify (with_slice (fun s => note_found (Some (de_path entry)) (sl_pending s) s)); mret false
  else mret true.

Definition visit_entry (options : MaintenanceBatchOptions) (scanning_stages : bool) (entry : RootedDirEntry)
    : Sys Maint bool :=
  if de_is_symlink entry then mret true
  else
    let name := de_file_name entry in
    let stage := scanning_stages && is_upload_stage_name parse_uuid hyphenated name in
    let stale ttl is_trash := negb (maintenance_entry_age (de_metadata entry) (mo_now options) is_trash <? ttl)%Z in
    scan ← gets mt_scan;
    match classify_internal_name parse_uuid hyphenated name with
    | None =>
        if negb stage then descend_into entry
        else if is_dir (de_metadata entry) then mret true
        else if negb (stale (mo_upload_ttl options) false) then mret true
        else if ms_skip_uploads scan then mret true
        else remove_orphan entry
    | Some Quarantine => mret true
    | Some StageDirectory => descend_into entry
    | Some Readiness =>
        if bool_decide (name = READINESS_PROBE_ANCHOR) then mret true
        else if is_dir (de_metadata entry) then mret true
        else if negb (stale (mo_upload_ttl options) false) then mret true
        else if ms_skip_uploads scan && stage then mret true
        else remove_orphan entry
    | Some DeleteTrash =>
        if negb (stale (ms_trash_ttl scan) true) then mret true
        else if ms_skip_trash scan then mret true
        else schedule_trash entry
    end.

(** The slice has examined all it may, or its time is over, or the server stops. *)
Definition slice_exhausted (options : MaintenanceBatchOptions) (deadline : Z) : Sys Maint bool :=
  examined ← gets (fun m => sl_examined (mt_slice m));
  if (mo_max_entries options <=? examined)%Z then mret true
  else
    now ← ask instant_now;
    if (deadline <=? now)%Z then mret true else ask is_cancelled.

Definition slice_budget (options : MaintenanceBatchOptions) (deadline : Z) : Sys Maint bool :=
  over ← slice_exhausted options deadline;
  if over : bool then mret false else _ ← modify (with_slice note_examined); mret true.

(** One directory: the whole of it, or as much as the budget allows. *)
Definition scan_directory (options : MaintenanceBatchOptions) (deadline : Z) (directory : MaintenanceDirectory)
    (rest : list MaintenanceDirectory) : Sys Maint unit :=
  let path := sd_path directory in
  _ ← modify (with_slice (note_found None None));
  progress ← attempt (visit_dir_blocking_chunk fuel path (sd_cursor directory) (slice_budget options deadline)
    (visit_entry options (bool_decide (file_name path = Some UPLOAD_STAGE_DIRECTORY))));
  match progress : result IoError DirectoryVisitProgress with
  | Ok VisitComplete =>
      _ ← modify (with_scan (with_directories rest));
      match file_name path ≫= classify_internal_name parse_uuid hyphenated with
      | Some StageDirectory => _ ← attempt (remove_empty_upload_stage_directory_blocking path); mret tt
      | _ => mret tt
      end
  | Ok (VisitPaused cursor) =>
      modify (with_scan (with_directories (rest ++ [{| sd_path := path; sd_cursor := cursor |}])))
  | Err _ => modify (with_scan (with_directories rest))
  end.

Fixpoint scan_directories (turns : nat) (options : MaintenanceBatchOptions) (deadline : Z) : Sys Maint unit :=
  match turns with
  | O => out_of_fuel
  | S turns =>
      scan ← gets mt_scan;
      match pop_back (ms_directories scan) with
      | None => mret tt
      | Some (directory, rest) =>
          over ← slice_exhausted options deadline;
          if over : bool then mret tt
          else
            _ ← scan_directory options deadline directory rest;
            found ← gets mt_slice;
            match sl_pending found with
            | Some pending => modify (with_scan (with_pending_purge (Some pending)))
            | None =>
                _ ← match sl_descend found with
                    | Some path =>
                        modify (with_scan (fun s =>
                          with_directories (ms_directories s ++ [{| sd_path := path; sd_cursor := 0 |}]) s))
                    | None => mret tt
                    end;
                scan_directories turns options deadline
            end
      end
  end.

(** Trash that could not be scheduled in the slice before is tried once more. *)
Definition schedule_pending : Sys Maint unit :=
  pending ← gets (fun m => ms_pending_purge (mt_scan m));
  _ ← modify (with_scan (with_pending_purge None));
  match pending with
  | None => mret tt
  | Some pending =>
      preserve ← should_preserve_stale_state_path (pm_path pending);
      if preserve : bool then mret tt
      else
        scheduled ← ask (try_schedule (pm_entry pending));
        if scheduled : bool then modify (with_slice (note_scheduled (pm_path pending))) else mret tt
  end.

Definition collect_stale_internal_files_batch (options : MaintenanceBatchOptions) : Sys Maint bool :=
  _ ← modify (with_slice (fun _ => empty_slice));
  t ← ask instant_now;
  deadline ← match instant_checked_add t (mo_max_duration options) with
             | Some d => mret d
             | None => ask instant_now
             end;
  _ ← schedule_pending;
  _ ← scan_directories fuel options deadline;
  scan ← gets mt_scan;
  mret (bool_decide (length (ms_directories scan) = 0%nat)
        && match ms_pending_purge scan with None => true | Some _ => false end).

(** ** The task *)

Fixpoint sync_parents (paths : list bytes) : Sys Maint unit :=
  match paths with
  | [] => mret tt
  | path :: rest => _ ← attempt (sync_parent path); sync_parents rest
  end.

Definition cleanup_expired_sessions : Sys Maint unit :=
  scan ← gets mt_scan;
  if ms_cleanup_complete scan then mret tt
  else
    cleaned ← attempt (cleanup_expired_upload_sessions_batch (ms_cleanup_cursor scan) UPLOAD_SESSION_CLEANUP_BATCH);
    match cleaned : result IoError unit with
    | Ok _ =>
        batch ← gets mt_batch;
        modify (with_scan (with_cleanup (ub_page_complete batch) (ub_next_cursor batch) (ub_protected batch)
                             (ub_skip batch)))
    | Err _ => modify (with_scan (fun s => with_cleanup true (ms_cleanup_cursor s) [] true s))
    end.

(** The orphans, once everything tracked is known. *)
Definition collect_orphans : Sys Maint bool :=
  scan ← gets mt_scan;
  _ ← (if ms_purge_snapshot_complete scan then mret tt else load_tracked_purge_snapshot);
  complete ← gated (
    now ← ask system_now;
    collect_stale_internal_files_batch
      {| mo_now := now; mo_upload_ttl := UPLOAD_SESSION_TTL; mo_max_entries := MAINTENANCE_ENTRY_BUDGET;
         mo_max_duration := MAINTENANCE_TIME_BUDGET |});
  removed ← gets (fun m => sl_removed_paths (mt_slice m));
  _ ← sync_parents removed;
  scan ← gets mt_scan;
  mret (complete && ms_cleanup_complete scan).

(** One slice; the answer is whether the scan is complete. *)
Definition cleanup_stale_internal_files : Sys Maint bool :=
  _ ← cleanup_expired_sessions;
  scan ← gets mt_scan;
  if negb (ms_cleanup_complete scan) then mret false
  else
    _ ← (if ms_snapshot_complete scan then mret tt else load_tracked_upload_snapshot_page);
    scan ← gets mt_scan;
    if negb (ms_snapshot_complete scan) then mret false
    else collect_orphans.

Definition restart_scan : Sys Maint unit :=
  modify (with_scan (fun _ => new_scan root_path TRASH_ENTRY_TTL)).

Fixpoint maintenance_loop (turns : nat) : Sys Maint unit :=
  match turns with
  | O => out_of_fuel
  | S turns =>
      cleaned ← attempt cleanup_stale_internal_files;
      _ ← match cleaned : result IoError bool with
          | Ok _ => mret tt
          | Err _ => restart_scan
          end;
      let complete := match cleaned with Ok complete => complete | Err _ => false end in
      stopped ← ask (sleep (if complete then MAINTENANCE_INTERVAL else MAINTENANCE_CONTINUATION_DELAY));
      if stopped : bool then mret tt
      else
        _ ← (if complete then restart_scan else mret tt);
        maintenance_loop turns
  end.

Definition run_storage_maintenance (turns : nat) : Sys Maint unit :=
  _ ← restart_scan; maintenance_loop turns.
End maintenance.
