(* ===== verification/MaintenanceSafety.v ===== *)
(** * Maintenance removes only what is stale

    Whatever uploads, deletions and other programs do meanwhile, and wherever the process
    dies: a maintenance slice removes directories of stages that are empty, stages that a
    session which has expired recorded as its own, and old stages and readiness probes
    that no upload has registered.  No claim outlives the slice. *)

From S2P Require Import Prelude Paths PathKeys Utils Sql StateModel UploadStore PurgeStore RootedPaths PathPolicy StateScan FileRevision.
From S2P Require Import Kernel KernelLaws KernelMotion KernelSteps TrashPurge TrashSafety RootedParents TrashMoves TrashCapture.
From S2P Require Import PurgeWorker PurgeOwnership MutationWorld RootedMutations MutationLaws KernelMemory MutationMemory.
From S2P Require Import DirectoryVisits Maintenance.

Import RootedPaths PathPolicy TrashSafety TrashCapture.

Create HintDb mild.

Module MaintenanceSafety.

(** ** What is known of the environment *)

Class MaintenanceLaws `{L : ChangeLaws} `{!StageEnv} `{!MaintenanceEnv} : Prop := {
  still_now : op_in still instant_now;
  still_cancelled : op_in still is_cancelled;
  still_reserve : op_in still try_reserve;
  still_open_directory d n : op_in still (openat2_directory d n);
  still_open_stages d n : op_in still (openat_directory d n);
  still_dir_new f : op_in still (dir_new f);
  still_dir_read d : op_in still (dir_read d);
  still_dir_seek d n : op_in still (dir_seek d n);
  still_system_now : op_in still system_now;
  still_upload_foreign t : op_in still (upload_foreign t);
  still_active l : op_in still (active_foreign l);
  still_schedule e : op_in still (try_schedule e);
  still_sleep n : op_in still (sleep n);
  (* what a path was found to lead to *)
  law_opened_path p w f : (openat2_path false p w).1 = Some (Ok f) ->
    opened_at (openat2_path false p w).2 p (fd_ino f);
  (* uploads leave the markers of maintenance alone *)
  law_markers l w k : maintenance_marker k ∈ (active_foreign l w).1 <-> maintenance_marker k ∈ l }.
#[export] Hint Resolve still_now still_cancelled still_reserve still_open_directory still_open_stages still_dir_new
  still_dir_read still_dir_seek still_system_now still_upload_foreign still_active still_schedule still_sleep : keeps.

Lemma marker_inj j k : maintenance_marker j = maintenance_marker k -> j = k.
Proof. destruct j as [p n], k as [p' n']. intros [= -> Hn]. f_equal. by apply app_inv_tail in Hn. Qed.

Section laws.
Context `{ML : MaintenanceLaws}.

Lemma still_grows {A} (op : OsWorld -> A * OsWorld) : op_in still op -> op_in grows op.
Proof. intros Hop w. apply Hop. Qed.

#[export] Instance grows_order : WorldOrder grows.
Proof.
  split; [apply _|..]; try (intros; apply still_grows; solve [eauto with keeps typeclass_instances]).
  - intros d n d' n' w. pose proof (law_rename_noreplace d n d' n' w) as Hr.
    destruct (renameat_noreplace d n d' n' w) as [o w']. by destruct Hr as [[(i & [Hg _ _] & _) _]|[_ [Hg _ _]]].
  - intros d n f w. apply (law_unlink_changes d n f w).
Qed.
End laws.

Section reads.
Context `{ML : MaintenanceLaws} {S : Type}.
Lemma still_entry_key path : keeps still (S := S) (entry_key_blocking path).
Proof. unfold entry_key_blocking. keeps_auto. Qed.
Hint Resolve still_entry_key : keeps.
Lemma still_entry_key_gated path : keeps still (S := S) (entry_key path).
Proof. unfold entry_key. keeps_auto. Qed.
Lemma still_sync_parent path : keeps still (S := S) (sync_parent path).
Proof. unfold sync_parent. keeps_auto. Qed.
Lemma still_inspect directory relative name : keeps still (S := S) (inspect_child directory relative name).
Proof. unfold inspect_child. keeps_auto. Qed.
Lemma still_stage_directory parent name : keeps still (S := S) (open_private_upload_stage_directory_at parent name).
Proof. unfold open_private_upload_stage_directory_at. keeps_auto. Qed.
Lemma still_capture path d : keeps still (S := S) (capture_entry_for_purge path d).
Proof. unfold capture_entry_for_purge. keeps_auto. Qed.
End reads.
#[export] Hint Resolve still_entry_key still_entry_key_gated still_sync_parent still_inspect still_stage_directory
  still_capture : keeps.

(** ** Names *)

Section names.
Context `{ML : MaintenanceLaws}.

Lemma canonical_no_slash v : is_canonical_uuid parse_uuid hyphenated v = true -> SLASH ∉ v.
Proof. unfold is_canonical_uuid. destruct (parse_uuid v) as [u|]; [|done]. intros <-%bool_decide_eq_true. apply law_hyphenated. Qed.

Lemma readiness_normal n : is_readiness_name parse_uuid hyphenated n = true -> normal_name n.
Proof.
  unfold is_readiness_name, affixed. destruct (strip_prefix READINESS_PREFIX n) as [r|] eqn:E; [|done].
  cbn [mbind option_bind]. destruct (strip_suffix READINESS_SUFFIX r) as [v|] eqn:E'; [|done]. intros Hv%canonical_no_slash.
  apply strip_prefix_Some in E as ->. apply strip_suffix_Some in E' as ->. split_and!; try done.
  rewrite !elem_of_app. intros [Hx|[Hx|Hx]]; [|done|]; revert Hx; apply (bool_decide_unpack _); by vm_compute.
Qed.

Lemma lower_hex_no_slash l : forallb is_lower_hex l = true -> SLASH ∉ l.
Proof.
  rewrite forallb_forall. intros Hl Hs%list_elem_of_In%Hl. by vm_compute in Hs.
Qed.

Lemma stage_normal n : is_upload_stage_name parse_uuid hyphenated n = true -> normal_name n.
Proof.
  unfold is_upload_stage_name. destruct (strip_prefix UPLOAD_TEMP_PREFIX n) as [r|] eqn:E; [|done].
  cbn [mbind option_bind]. destruct (strip_suffix UPLOAD_TEMP_SUFFIX r) as [v|] eqn:E'; [|done].
  destruct (_ <? _)%nat; [done|]. destruct (forallb is_lower_hex (take 64 v)) eqn:Eh; [|done]. cbn [negb].
  intros [Hd%bool_decide_eq_true Hu%canonical_no_slash]%andb_true_iff. apply lower_hex_no_slash in Eh.
  apply strip_prefix_Some in E as ->. apply strip_suffix_Some in E' as ->. split_and!; try done.
  rewrite !elem_of_app. intros [Hx|[Hx|Hx]]; [| |]; [revert Hx; apply (bool_decide_unpack _); by vm_compute| |
    revert Hx; apply (bool_decide_unpack _); by vm_compute].
  rewrite <- (take_drop_middle v 64 _ Hd) in Hx. apply elem_of_app in Hx as [Hx|[Hx|Hx]%elem_of_cons]; done.
Qed.

Lemma last_omap q n : last (components q) = Some (Normal n) -> last (omap segment_component (split SLASH q)) = Some (Normal n).
Proof.
  unfold components. rewrite last_app. destruct (last (omap _ _)); [done|].
  by repeat case_match.
Qed.

Lemma file_name_push b q n : has_root q = false -> last (components q) = Some (Normal n) -> file_name (push b q) = Some n.
Proof.
  intros Hr Hq. assert (forall a, file_name (a ++ SLASH :: q) = Some n) as Ha.
  { intros a. unfold file_name, components. rewrite split_app, omap_app, !last_app, (last_omap q n Hq). done. }
  unfold push. rewrite Hr. destruct (last b) as [c|] eqn:El; [|unfold file_name; by rewrite Hq].
  destruct (decide (c = SLASH)) as [->|]; [|done]. apply last_Some in El as [a ->]. rewrite <- app_assoc. apply Ha.
Qed.

Lemma child_file_name rel n : normal_name n -> file_name (push root_path (join_child rel n)) = Some n.
Proof.
  intros Hn. unfold join_child. destruct (path_eqb rel DOT).
  { unfold file_name. by rewrite (push_name _ _ Hn), last_snoc. }
  assert (last (components (push rel n)) = Some (Normal n)) as Hl by by rewrite (push_name _ _ Hn), last_snoc.
  destruct (has_root (push rel n)) eqn:Er; [|by apply file_name_push].
  unfold push at 1. rewrite Er. unfold file_name. by rewrite Hl.
Qed.

Lemma held_file_name w path d n : held w path d n -> file_name path = Some n.
Proof.
  intros (cs & Hr & _). unfold relative_path, strip_path_prefix in Hr. destruct (bool_decide _) eqn:Ep; [|done].
  cbn [ok_or mbind result_bind] in Hr. apply bool_decide_eq_true in Ep as [k Hk]. rewrite Hk, drop_app_length in Hr.
  destruct (_ || _); [done|]. injection Hr as ->. unfold file_name. by rewrite Hk, app_assoc, last_snoc.
Qed.
End names.

(** ** What may be removed *)

Section stale.
Context `{ML : MaintenanceLaws}.

(** The key of the entry [n] of the directory [d]. *)
Definition entry_id (d : Ino) (n : bytes) : RootedEntryKey :=
  {| ek_parent := {| device := (number d).1; inode := (number d).2 |}; ek_name := n |}.

(** The names of stages, in a directory of stages, and of readiness probes. *)
Definition orphan_name (path n : bytes) : Prop :=
  is_upload_stage_name parse_uuid hyphenated n = true /\
    (exists directory relative, file_name directory = Some UPLOAD_STAGE_DIRECTORY /\
       relative_path_or_dot directory = Ok relative /\ path = push root_path (join_child relative n)) \/
  is_readiness_name parse_uuid hyphenated n = true /\ n <> READINESS_PROBE_ANCHOR.

(** A time the system clock showed between [w0] and [w]. *)
Definition shown (w0 w : OsWorld) (now : Z) : Prop :=
  exists w1, grows w0 w1 /\ grows (system_now w1).2 w /\ (system_now w1).1 = now.

(** The time at which the store carried a command out, if it did. *)
Definition carried_out (v : StoreVerdict) : option Z :=
  match v with
  | NotAccepted | NotExecuted | DiedBefore => None
  | Executed now | Unanswered now | DiedAfter now => Some now
  end.

(** The tables and the registry of active files that the task [s0], begun in [w0], has
    gone through: what other tasks did to them in the worlds it ran in, the sessions it
    removed itself, and the claims it took and released. *)
Inductive history (s0 : Maint) (w0 : OsWorld)
    : OsWorld -> UploadStore.Table -> PurgeStore.Table -> list RootedEntryKey -> Prop :=
| h_start : history s0 w0 w0 (mt_uploads s0) (mt_purges s0) (mt_active s0)
| h_later w w' u p l : grows w w' -> history s0 w0 w u p l -> history s0 w0 w' u p l
| h_others w u p l us w1 ps w2 : upload_foreign u w = (us, w1) -> foreign p w1 = (ps, w2) ->
    history s0 w0 w u p l ->
    history s0 w0 w2 (UploadStore.run store_limits u us).1 (PurgeStore.run store_limits p ps).1 l
| h_removed w u p l v w1 now e u' b : dispatch w = (v, w1) -> carried_out v = Some now ->
    session_validate (session e) = Ok tt ->
    UploadStore.remove_expired_upload_session_if_matches u now e = Ok (u', b) ->
    history s0 w0 w u p l -> history s0 w0 w1 u' p l
| h_registry w u p l l' w1 : active_foreign l w = (l', w1) -> history s0 w0 w u p l -> history s0 w0 w1 u p l'
| h_claimed w u p l k : k ∉ l -> maintenance_marker k ∉ l ->
    history s0 w0 w u p l -> history s0 w0 w u p (maintenance_marker k :: l)
| h_released w u p l k : history s0 w0 w u p l ->
    history s0 w0 w u p (filter (fun j => j <> maintenance_marker k) l).

(** The store executed a command of the task on these tables, at the time [now]. *)
Definition asked (s0 : Maint) (w0 w : OsWorld) (u : UploadStore.Table) (p : PurgeStore.Table) (now : Z) : Prop :=
  exists w1 l, history s0 w0 w1 u p l /\ (dispatch w1).1 = Executed now /\ grows (dispatch w1).2 w.

(** The registry was looked at, and neither an upload nor maintenance had the entry. *)
Definition unregistered (s0 : Maint) (w0 w : OsWorld) (k : RootedEntryKey) : Prop :=
  exists w1 u p l, history s0 w0 w1 u p l /\ grows w1 w /\ (k ∉ l) /\ (maintenance_marker k ∉ l).

(** The path was found to lead to something that is no directory and, by what the clock
    showed, had not changed for as long as a session lives. *)
Definition looked_old (w0 w : OsWorld) (path : bytes) : Prop :=
  exists relative i st now, path = push root_path relative /\ opened_at w relative i /\ describes w i st /\
    is_dir st = false /\ shown w0 w now /\ (UPLOAD_SESSION_TTL <= maintenance_entry_age st now false)%Z.

(** The store was asked, and no session and no purge job named the path. *)
Definition unbound (s0 : Maint) (w0 w : OsWorld) (path : bytes) : Prop :=
  exists u p now state_path, asked s0 w0 w u p now /\
    state_relative_path root_path path = Ok state_path /\ StateScan.state_path_is_bound u p state_path = false.

(** Why an entry was removed: it has the name of a directory of stages; it is the object
    a session recorded as its stage, taken from the name the session gives it, and the
    store answered that the session had expired; or it is an orphan, old by the clock,
    that the store answered no record names.  In the last two cases the entry had been
    found registered by nobody. *)
Inductive stale (s0 : Maint) (w0 w : OsWorld) (x : Removal Ino) : Prop :=
| StageDirectoryEntry : rm_name x = UPLOAD_STAGE_DIRECTORY -> stale s0 w0 w x
| ExpiredStage u q now e identity path d p n root :
    asked s0 w0 w u q now -> UploadStore.expired_upload_session_matches u now e = Ok true ->
    stage_identity (session e) = Some identity -> resolve_state_path root_path (stage_path (session e)) = Ok path ->
    number root = (id_device identity, id_inode identity) ->
    held w path d n -> held w path p n -> seen w p n root -> unregistered s0 w0 w (entry_id d n) ->
    within w p root x -> stale s0 w0 w x
| Orphan path d :
    orphan_name path (rm_name x) -> looked_old w0 w path -> unbound s0 w0 w path ->
    held w path d (rm_name x) -> held w path (rm_directory x) (rm_name x) ->
    unregistered s0 w0 w (entry_id d (rm_name x)) -> stale s0 w0 w x.

Lemma shown_grows w0 w w' now : grows w w' -> shown w0 w now -> shown w0 w' now.
Proof. intros Hg (w1 & Hw0 & Hw1 & E). exists w1. split_and!; [done|by etrans|done]. Qed.
Lemma asked_grows s0 w0 w w' u p now : grows w w' -> asked s0 w0 w u p now -> asked s0 w0 w' u p now.
Proof. intros Hg (w1 & l & Hh & E & Hw). exists w1, l. split_and!; [done..|by etrans]. Qed.
Lemma unregistered_grows s0 w0 w w' k : grows w w' -> unregistered s0 w0 w k -> unregistered s0 w0 w' k.
Proof. intros Hg (w1 & u & p & l & Hh & Hw & Hk). exists w1, u, p, l. split_and!; [done|by etrans|apply Hk..]. Qed.
Lemma unbound_grows s0 w0 w w' path : grows w w' -> unbound s0 w0 w path -> unbound s0 w0 w' path.
Proof. intros Hg (u & p & now & r & Ha & Hr). exists u, p, now, r. split; [by eapply asked_grows|done]. Qed.

Lemma looked_old_grows w0 w w' path : grows w w' -> looked_old w0 w path -> looked_old w0 w' path.
Proof.
  intros Hg (r & i & st & now & Hp & Ho & Hd & Hn & Hs & Hx). exists r, i, st, now.
  split_and!; [done|by apply (gr_opened _ _ Hg)|by eapply describes_grows|done|by eapply shown_grows|done].
Qed.

Lemma stale_grows s0 w0 w w' x : grows w w' -> stale s0 w0 w x -> stale s0 w0 w' x.
Proof.
  intros Hg [Hd0|u q now e i path d p n root Ha Hm Hi Hp Hn Hd Hd' Hs Hu Hx|path d Ho Hl Hb Hd Hd' Hu];
    [by apply StageDirectoryEntry| |].
  - eapply (ExpiredStage _ _ _ _ u q now e i path d p n root);
      [by eapply asked_grows|done..|by eapply held_grows|by eapply held_grows|by apply (gr_later _ _ Hg)|
       by eapply unregistered_grows|].
    destruct Hx as [(v & Hv & Hn') Hx]. pose proof (gr_later _ _ Hg) as Hl.
    split; [exists v; split; [by apply Hl|done]|]. destruct Hx as [?|[? ?]]; [by left|right; split; by eapply inside_mono].
  - eapply (Orphan _ _ _ _ path d);
      [done|by eapply looked_old_grows|by eapply unbound_grows|by eapply held_grows|by eapply held_grows|by eapply unregistered_grows].
Qed.

Lemma entry_key_held {S} path (s : S) w k s' w' :
  entry_key_blocking path s w = (Val k, s', w') -> exists d, held w' path d (ek_name k) /\ k = entry_id d (ek_name k).
Proof.
  unfold entry_key_blocking. intros (p & s1 & w1 & Hp & Hx)%bind_Val.
  apply bind_Val in Hx as (f & s2 & w2 & [-> Ef]%io_Val & Hx). apply bind_Val in Hx as (st & s3 & w3 & [-> Es]%io_Val & Hx).
  injection Hx as <- <- <-. exists (fd_ino (op_fd p)). cbn [ek_name]. split.
  - eapply held_grows; [|by eapply open_parent_held]. etrans.
    + pose proof (ro_dup (R := still) (op_fd p) w1) as Hd. rewrite Ef in Hd. apply Hd.
    + pose proof (ro_fstat (R := still) f w2) as Hd. rewrite Es in Hd. apply Hd.
  - unfold entry_id. f_equal. pose proof (law_fstat_number f w2 st) as Hn. rewrite Es in Hn. specialize (Hn eq_refl).
    pose proof (law_dup_ino (op_fd p) w1 f) as Hf. rewrite Ef in Hf. specialize (Hf eq_refl).
    rewrite <- Hf, <- Hn. done.
Qed.

Lemma capture_held {S} path d r (s : S) w e s' w' :
  capture_entry_for_purge_with_type_blocking path d r s w = (Val (Some e), s', w') ->
  held w' path (fd_ino (te_parent e)) (te_name e).
Proof.
  unfold capture_entry_for_purge_with_type_blocking.
  intros ([parent|err] & s1 & w1 & Hp & Hx)%bind_Val; [|by destruct (not_found err)].
  assert (held w1 path (fd_ino (op_fd parent)) (op_name parent)) as Hh.
  { unfold attempt in Hp. destruct (open_parent_blocking path false s w) as [[[] ?] ?] eqn:Eo; try done.
    injection Hp as -> -> ->. by eapply open_parent_held. }
  apply bind_Val in Hx as ([anchor|err] & s2 & w2 & [-> E2]%call_Val & Hx); [|by destruct err].
  apply bind_Val in Hx as (st & s3 & w3 & [-> E3]%io_Val & Hx).
  apply bind_Val in Hx as ([st'|err] & s4 & w4 & [-> E4]%call_Val & Hx); [|by destruct err].
  destruct (negb _) eqn:En; [done|]. cbv beta zeta in Hx. destruct (_ || _) eqn:Eo; [done|].
  injection Hx as <- <- <-. cbn. eapply held_grows; [|exact Hh].
  etrans; [apply (still_call _ _ _ _ (ro_open_path _ _) E2)|].
  etrans; [apply (still_call _ _ _ _ (ro_fstat _) E3)|apply (still_call _ _ _ _ (ro_statat _ _) E4)].
Qed.
End stale.

(** ** The invariant of a slice *)

Section slice.
Context `{ML : MaintenanceLaws}.
Context (w0 : OsWorld) (s0 : Maint).

Record sofar (w : OsWorld) : Prop := {
  sf_grows : grows w0 w;
  sf_removed : exists new, removed w = removed w0 ++ new /\ Forall (stale s0 w0 w) new }.

Record Inv (claims : list RootedEntryKey) (s : Maint) (w : OsWorld) : Prop := {
  iv_sofar : sofar w;
  iv_history : history s0 w0 w (mt_uploads s) (mt_purges s) (mt_active s);
  iv_markers k : maintenance_marker k ∈ mt_active s <-> maintenance_marker k ∈ mt_active s0 \/ k ∈ claims }.

Lemma sofar_grows w w' : grows w w' -> removed w' = removed w -> sofar w -> sofar w'.
Proof.
  intros Hg Hr [Hw (new & E & Hn)]. split; [by etrans|]. exists new. rewrite Hr. split; [done|].
  eapply Forall_impl; [done|]. intros x. by apply stale_grows.
Qed.
Lemma sofar_more w w' new : grows w w' -> removed w' = removed w ++ new -> Forall (stale s0 w0 w') new ->
  sofar w -> sofar w'.
Proof.
  intros Hg Hr Hnew [Hw (old & E & Hn)]. split; [by etrans|]. exists (old ++ new). rewrite Hr, E, app_assoc. split; [done|].
  apply Forall_app. split; [|done]. eapply Forall_impl; [done|]. intros x. by apply stale_grows.
Qed.
Lemma sofar_still w w' : still w w' -> sofar w -> sofar w'.
Proof. intros [Hg Hr _]. by apply sofar_grows. Qed.
Lemma Inv_sofar claims s w w' : grows w w' -> (sofar w -> sofar w') -> Inv claims s w -> Inv claims s w'.
Proof. intros Hg Hw []. split; [by auto|by eapply h_later|done]. Qed.
Lemma Inv_still claims s w w' : still w w' -> Inv claims s w -> Inv claims s w'.
Proof. intros Hw. apply Inv_sofar; [apply Hw|by apply sofar_still]. Qed.

(** ** Rules *)

Definition safe {A} (claims : list RootedEntryKey) (m : Sys Maint A) (q : A -> Maint -> OsWorld -> Prop) (s : Maint)
    (w : OsWorld) : Prop :=
  wps sofar m (fun r s' w' => Inv claims s' w' /\ grows w w' /\ match r with Ok a => q a s' w' | Err _ => True end) s w.

(** Code that can run whenever the invariant holds. *)
Definition mild {A} (m : Sys Maint A) : Prop :=
  forall claims s w, Inv claims s w -> safe claims m (fun _ _ _ => True) s w.

Lemma safe_ret {A} claims (a : A) (q : A -> Maint -> OsWorld -> Prop) s w :
  Inv claims s w -> q a s w -> safe claims (mret a) q s w.
Proof. intros Hi Hq. by split; [|split]. Qed.
Lemma safe_throw {A} claims e (q : A -> Maint -> OsWorld -> Prop) s w : Inv claims s w -> safe claims (throw e) q s w.
Proof. intros Hi. by split; [|split]. Qed.
Lemma safe_bind {A B} claims (m : Sys Maint A) (f : A -> Sys Maint B) q q' s w :
  safe claims m q s w -> (forall a s1 w1, Inv claims s1 w1 -> grows w w1 -> q a s1 w1 -> safe claims (f a) q' s1 w1) ->
  safe claims (m ≫= f) q' s w.
Proof.
  intros Hm Hf. apply wps_bind. eapply wps_mono; [exact Hm| |done].
  intros [a|e] s1 w1 (Hi & Hg & Hq); cbn [then_post]; [|by split_and!].
  eapply wps_mono; [by apply Hf| |done]. intros r s2 w2 (Hi2 & Hg2 & Hq2). split_and!; [done|by etrans|done].
Qed.
Lemma safe_mono {A} claims (m : Sys Maint A) (q q' : A -> Maint -> OsWorld -> Prop) s w :
  safe claims m q s w -> (forall a s w, q a s w -> q' a s w) -> safe claims m q' s w.
Proof. intros Hm Hq. eapply wps_mono; [exact Hm| |done]. intros [a|e] s1 w1 (Hi & Hg & Ha); split_and!; auto. Qed.
Lemma safe_gets {A B} claims (f : Maint -> A) (k : A -> Sys Maint B) q s w :
  safe claims (k (f s)) q s w -> safe claims (gets f ≫= k) q s w.
Proof. done. Qed.
Lemma safe_attempt {A} claims (m : Sys Maint A) (q : result IoError A -> Maint -> OsWorld -> Prop) s w :
  safe claims m (fun a => q (Ok a)) s w -> (forall e s w, Inv claims s w -> q (Err e) s w) ->
  safe claims (attempt m) q s w.
Proof.
  intros Hm He. apply wps_attempt. eapply wps_mono; [exact Hm| |done].
  intros [a|e] s1 w1 (Hi & Hg & Ha); split_and!; auto.
Qed.

Lemma safe_keeps {A} claims (m : Sys Maint A) (q : A -> Maint -> OsWorld -> Prop) s w :
  keeps still m -> Inv claims s w ->
  (forall a w', still w w' -> m s w = (Val a, s, w') -> q a s w') -> safe claims m q s w.
Proof.
  intros Hm Hi Hq. apply (keeps_wps still); [done|intros w' Hw; by eapply sofar_still, iv_sofar|].
  intros r w' Hw E. split; [by eapply Inv_still|]. split; [apply Hw|]. destruct r; [by apply Hq|done].
Qed.

(** Reading, with what it read. *)
Lemma safe_look {A B} claims (m : Sys Maint A) (f : result IoError A -> Sys Maint B) q s w :
  keeps still m -> Inv claims s w ->
  (forall a w', m s w = (Val a, s, w') -> still w w' -> Inv claims s w' -> safe claims (f (Ok a)) q s w') ->
  (forall e w', Inv claims s w' -> safe claims (f (Err e)) q s w') ->
  safe claims (attempt m ≫= f) q s w.
Proof.
  intros Hm Hi Ha He. apply wps_bind, wps_attempt, (keeps_wps still); [done|intros w' Hw; by eapply sofar_still, iv_sofar|].
  intros r w' Hw E. assert (Inv claims s w') as Hi' by by eapply Inv_still.
  assert (safe claims (f r) q s w') as Hf by (destruct r; eauto).
  eapply wps_mono; [exact Hf| |done]. intros r' s2 w2 (Hi2 & Hg2 & Hq2). split_and!; [done|etrans; [apply Hw|done]|done].
Qed.

Lemma mild_keeps {A} (m : Sys Maint A) : keeps still m -> mild m.
Proof. intros Hm claims s w Hi. by apply safe_keeps. Qed.
Lemma mild_ret {A} (a : A) : mild (mret a).
Proof. intros claims s w Hi. by apply safe_ret. Qed.
Lemma mild_throw {A} e : mild (A := A) (throw e).
Proof. intros claims s w Hi. by apply safe_throw. Qed.
Lemma mild_of_io {A} (r : result IoError A) : mild (of_io r).
Proof. destruct r; [apply mild_ret|apply mild_throw]. Qed.
Lemma mild_of_text {A} (r : result string A) : mild (of_text r).
Proof. destruct r; [apply mild_ret|apply mild_throw]. Qed.
Lemma mild_of_result {A} (r : result Errno A) : mild (of_result r).
Proof. destruct r; [apply mild_ret|apply mild_throw]. Qed.
Lemma mild_gets {A} (f : Maint -> A) : mild (gets f).
Proof. intros claims s w Hi. by split; [|split]. Qed.
Lemma mild_fuel {A} : mild (A := A) out_of_fuel.
Proof. intros claims s w Hi. apply wps_out_of_fuel, Hi. Qed.
Lemma mild_bind {A B} (m : Sys Maint A) (f : A -> Sys Maint B) : mild m -> (forall a, mild (f a)) -> mild (m ≫= f).
Proof. intros Hm Hf claims s w Hi. eapply safe_bind; [by apply Hm|]. intros a s1 w1 Hi1 _ _. by apply Hf. Qed.
Lemma mild_attempt {A} (m : Sys Maint A) : mild m -> mild (attempt m).
Proof. intros Hm claims s w Hi. by apply safe_attempt; [apply Hm|]. Qed.
Lemma mild_modify f :
  (forall s, mt_uploads (f s) = mt_uploads s /\ mt_purges (f s) = mt_purges s /\ mt_active (f s) = mt_active s) ->
  mild (modify f).
Proof.
  intros Hf claims s w [Hs Hh Hm]. destruct (Hf s) as (Eu & Ep & Ea). split; [|by split].
  split; [done|by rewrite Eu, Ep, Ea|by rewrite Ea].
Qed.
Lemma mild_call {A} (op : OsWorld -> option A * OsWorld) : op_in still op -> mild (call op).
Proof. intros Hop. by apply mild_keeps, keeps_call. Qed.
Lemma mild_io {A} (op : OsWorld -> option (result Errno A) * OsWorld) : op_in still op -> mild (io op).
Proof. intros Hop. apply mild_bind; [by apply mild_call|apply mild_of_result]. Qed.
Lemma mild_ask {A} (op : OsWorld -> A * OsWorld) : op_in still op -> mild (ask op).
Proof. intros Hop. by apply mild_keeps, keeps_ask. Qed.
Lemma mild_gated {A} (m : Sys Maint A) : mild m -> mild (gated m).
Proof.
  intros Hm. unfold gated. apply mild_bind; [apply mild_ask; apply ro_gate|]. intros []; [done|apply mild_throw].
Qed.

Hint Resolve mild_keeps : mild.

Ltac mild_step :=
  lazymatch goal with
  | |- mild (_ ≫= _) => apply mild_bind; [|intros]
  | |- mild (mret _) => apply mild_ret
  | |- mild (throw _) => apply mild_throw
  | |- mild (gets _) => apply mild_gets
  | |- mild out_of_fuel => apply mild_fuel
  | |- mild (modify _) => apply mild_modify; intros; done
  | |- mild (of_io _) => apply mild_of_io
  | |- mild (of_text _) => apply mild_of_text
  | |- mild (of_result _) => apply mild_of_result
  | |- mild (call _) => first [assumption|apply mild_call; eauto with keeps typeclass_instances]
  | |- mild (ask _) => apply mild_ask; eauto with keeps typeclass_instances
  | |- mild (io _) => apply mild_io; eauto with keeps typeclass_instances
  | |- mild (attempt _) => apply mild_attempt
  | |- mild (gated _) => apply mild_gated
  | |- mild (match ?x with _ => _ end) => destruct x
  | |- mild _ => solve [eauto with mild | apply mild_keeps; eauto with keeps typeclass_instances]
  end.
Ltac mild_auto := cbv beta zeta; repeat (mild_step; cbv beta zeta).

Ltac mildly := lazymatch goal with |- safe _ ?m _ _ _ => let Hmild := fresh in enough (mild m) as Hmild by (by apply Hmild) end.

(** ** The shared state *)

Lemma mild_others : mild others.
Proof.
  intros claims s w Hi. unfold others, safe, wps, mbind, Sys_bind, gets, ask, modify.
  pose proof (still_upload_foreign (mt_uploads s) w) as Hw1.
  destruct (upload_foreign (mt_uploads s) w) as [us w1] eqn:Eu. pose proof (still_foreign (mt_purges s) w1) as Hw2.
  destruct (foreign (mt_purges s) w1) as [ps w2] eqn:Ep. cbn in *. assert (still w w2) as Hw by by etrans.
  destruct Hi as [Hs Hh Hm]. split; [|split; [apply Hw|done]]. split; [by eapply sofar_still|by eapply h_others|done].
Qed.
Hint Resolve mild_others : mild.

(** A command that changes the table of uploads as a removal does, if at all. *)
Definition lawful {A} (command : UploadStore.Table -> PurgeStore.Table -> Z -> result string (UploadStore.Table * A)) : Prop :=
  forall u p now u' a, command u p now = Ok (u', a) -> u' = u \/
    exists e b, session_validate (session e) = Ok tt /\
      UploadStore.remove_expired_upload_session_if_matches u now e = Ok (u', b).

Lemma history_execute {A} command w u p l v w1 now :
  lawful (A := A) command -> grows w w1 -> dispatch w = (v, w1) -> carried_out v = Some now -> history s0 w0 w u p l ->
  history s0 w0 w1 match command u p now with Ok (u', _) => u' | Err _ => u end p l.
Proof.
  intros Hl Hg Ed Ev Hh. destruct (command u p now) as [[u' a]|] eqn:E; [|by eapply h_later].
  apply Hl in E as [->|(e & b & Hv & E)]; [by eapply h_later|by eapply h_removed].
Qed.

Lemma safe_crash {A} claims (q : A -> Maint -> OsWorld -> Prop) s w : Inv claims s w -> safe claims crash q s w.
Proof. intros Hi. apply Hi. Qed.

Lemma safe_store {A} claims command s w :
  lawful (A := A) command -> Inv claims s w ->
  safe claims (store command) (fun a _ w' => exists u p now u', asked s0 w0 w' u p now /\ command u p now = Ok (u', a)) s w.
Proof.
  intros Hl Hi. unfold store. eapply safe_bind; [by apply mild_others|]. intros _ s1 w1 Hi1 _ _.
  unfold safe, wps, mbind, Sys_bind, ask. pose proof (still_dispatch w1) as Hw.
  destruct (dispatch w1) as [verdict w2] eqn:Ed. cbn in Hw.
  assert (Inv claims s1 w2) as Hi2 by by eapply Inv_still.
  assert (forall now, carried_out verdict = Some now ->
    Inv claims (with_tables match command (mt_uploads s1) (mt_purges s1) now with Ok (u, _) => u | Err _ => mt_uploads s1 end
      (mt_purges s1) s1) w2) as He.
  { intros now Ev. split; [apply Hi2| |apply Hi2]. eapply history_execute; [done|apply Hw|done..|apply Hi1]. }
  destruct verdict as [| |now|now| |now]; cbn; try (by split; [done|split; [apply Hw|done]]);
    try (specialize (He now eq_refl)); [| |apply Hi2|apply He]; [|by split; [done|split; [apply Hw|done]]].
  destruct (command (mt_uploads s1) (mt_purges s1) now) as [[u a]|] eqn:E; cbn; (split; [done|split; [apply Hw|]]); [|done].
  exists (mt_uploads s1), (mt_purges s1), now, u. split; [|done]. exists w1, (mt_active s1). rewrite Ed. split_and!; [apply Hi1|done..].
Qed.

Lemma mild_store {A} command : lawful (A := A) command -> mild (store command).
Proof. intros Hl claims s w Hi. eapply safe_mono; [by apply safe_store|done]. Qed.

(** The commands of this task. *)
Lemma lawful_look {A} (f : UploadStore.Table -> PurgeStore.Table -> Z -> result string A) :
  lawful (fun u p now => x ← f u p now; Ok (u, x)).
Proof. intros u p now u' a. destruct (f u p now); [|done]. intros [= <- _]. by left. Qed.
Hint Resolve lawful_look : mild.

Lemma mild_expired_page after limit : mild (expired_upload_sessions_page after limit).
Proof. unfold expired_upload_sessions_page. mild_auto. apply mild_store, lawful_look. Qed.
Lemma mild_sessions_page after limit : mild (upload_sessions_page after limit).
Proof. unfold upload_sessions_page. mild_auto. apply mild_store, (lawful_look (fun u _ _ => _)). Qed.
Lemma mild_remove_expired e : mild (remove_expired_upload_session_if_matches e).
Proof.
  unfold remove_expired_upload_session_if_matches. destruct (session_validate (session e)) as [[]|] eqn:Ev; [|by intros ? ? ? ?; apply safe_throw].
  apply mild_bind; [apply mild_ret|]. intros _. apply mild_store. intros u p now u' b Hb. right. by exists e, b.
Qed.
Lemma mild_purge_jobs limit : mild (purge_jobs limit).
Proof. unfold purge_jobs. mild_auto. apply mild_store, (lawful_look (fun _ p _ => _)). Qed.
Lemma safe_bound claims path s w :
  Inv claims s w ->
  safe claims (state_path_is_bound_blocking path)
    (fun b _ w' => exists u p now, asked s0 w0 w' u p now /\ b = StateScan.state_path_is_bound u p path) s w.
Proof.
  intros Hi. unfold state_path_is_bound_blocking. eapply safe_bind; [by apply mild_of_text|]. intros _ s1 w1 Hi1 _ _.
  eapply safe_mono; [apply safe_store; [|done]; intros u p now u' b [= <- _]; by left|].
  intros b s2 w2 (u & p & now & u' & Ha & [= _ <-]). by exists u, p, now.
Qed.
Lemma mild_bound path : mild (state_path_is_bound_blocking path).
Proof. intros claims s w Hi. eapply safe_mono; [by apply safe_bound|done]. Qed.
Hint Resolve mild_expired_page mild_sessions_page mild_remove_expired mild_purge_jobs mild_bound : mild.

Lemma safe_matches claims e s w :
  Inv claims s w ->
  safe claims (expired_upload_session_matches e)
    (fun b _ w' => b = true -> exists u p now, asked s0 w0 w' u p now /\
       UploadStore.expired_upload_session_matches u now e = Ok true) s w.
Proof.
  intros Hi. unfold expired_upload_session_matches. eapply safe_bind; [by apply mild_of_text|]. intros _ s1 w1 Hi1 _ _.
  eapply safe_mono; [by apply safe_store; [apply lawful_look|]|].
  intros b s2 w2 (u & p & now & u' & Ha & Hb) ->. exists u, p, now. split; [done|].
  by destruct (UploadStore.expired_upload_session_matches u now e) as [[]|].
Qed.
Lemma mild_matches e : mild (expired_upload_session_matches e).
Proof. intros claims s w Hi. eapply safe_mono; [by apply safe_matches|done]. Qed.
Hint Resolve mild_matches : mild.

(** ** Claims *)

Lemma lock_wps claims s w :
  Inv claims s w ->
  wps sofar lock_active (fun r s' w' => r = Ok (mt_active s') /\ Inv claims s' w' /\ grows w w') s w.
Proof.
  intros Hi. unfold lock_active, wps, mbind, Sys_bind, gets, ask, modify.
  pose proof (still_active (mt_active s) w) as Hw. pose proof (law_markers (mt_active s) w) as Hl.
  destruct (active_foreign (mt_active s) w) as [l w1] eqn:E. cbn in *.
  destruct Hi as [Hs Hh Hm]. split; [done|]. split; [|apply Hw].
  split; [by eapply sofar_still|by eapply h_registry|]. intros k. cbn. by rewrite Hl.
Qed.

(** [k] is claimed, and was not before. *)
Record claimed (k : RootedEntryKey) (claims : list RootedEntryKey) (s : Maint) (w : OsWorld) : Prop := {
  cl_inv : Inv (k :: claims) s w;
  cl_unused : unregistered s0 w0 w k;
  cl_fresh : k ∉ claims;
  cl_unmarked : maintenance_marker k ∉ mt_active s0 }.

Lemma Inv_claim claims k s w :
  Inv claims s w -> k ∉ mt_active s -> maintenance_marker k ∉ mt_active s ->
  claimed k claims (with_active (maintenance_marker k :: mt_active s) s) w.
Proof.
  intros [Hs Hh Hm] Hk Hmk. pose proof Hmk as Hmk'. rewrite Hm in Hmk'. split; [|..|by auto|by auto].
  - split; [done|by apply h_claimed|]. cbn. intros j.
    rewrite !elem_of_cons, Hm. split; [|intros [?|[->|?]]; auto]. intros [->%marker_inj|[]]; auto.
  - by exists w, (mt_uploads s), (mt_purges s), (mt_active s).
Qed.

Lemma Inv_drop claims k s w :
  Inv (k :: claims) s w -> k ∉ claims -> maintenance_marker k ∉ mt_active s0 ->
  Inv claims (with_active (filter (fun j => j <> maintenance_marker k) (mt_active s)) s) w.
Proof.
  intros [Hs Hh Hm] Hk Hmk. split; [done|by apply h_released|]. cbn.
  intros j. rewrite list_elem_of_filter, Hm, elem_of_cons. split; [intros [Hj [?|[->|?]]]; by auto|].
  intros Hj. split; [|destruct Hj; auto]. intros ->%marker_inj. by destruct Hj.
Qed.

Lemma claim_wps claims k s w :
  Inv claims s w ->
  wps sofar (try_claim_stale_entry k) (fun r s' w' => grows w w' /\
    match r with Ok true => claimed k claims s' w' | _ => Inv claims s' w' end) s w.
Proof.
  intros Hi. apply wps_bind. eapply wps_mono; [by apply lock_wps| |done].
  intros _ s1 w1 (-> & Hi1 & Hg). cbn [then_post].
  destruct (bool_decide (k ∈ _)) eqn:Ek; [by split|]. destruct (bool_decide (maintenance_marker k ∈ _)) eqn:Em; [by split|].
  split; [done|]. apply bool_decide_eq_false in Ek, Em. by apply Inv_claim.
Qed.

Lemma drop_wps claims k s w :
  Inv (k :: claims) s w -> k ∉ claims -> maintenance_marker k ∉ mt_active s0 ->
  wps sofar (drop_claim k) (fun _ s' w' => Inv claims s' w' /\ grows w w') s w.
Proof.
  intros Hi Hk Hmk. apply wps_bind. eapply wps_mono; [by apply lock_wps| |done].
  intros _ s1 w1 (-> & Hi1 & Hg). split; [by apply Inv_drop|done].
Qed.

Lemma safe_claiming {A} claims k (declined : A) (m : Sys Maint A) s w :
  Inv claims s w ->
  (forall s' w', Inv (k :: claims) s' w' -> grows w w' -> unregistered s0 w0 w' k -> safe (k :: claims) m (fun _ _ _ => True) s' w') ->
  safe claims (claiming k declined m) (fun _ _ _ => True) s w.
Proof.
  intros Hi Hm. apply wps_bind. eapply wps_mono; [by apply claim_wps| |done].
  intros [[]|e] s1 w1 [Hg Hc]; cbn [then_post negb]; [|by split; [|split]..]. destruct Hc as [Hi1 Hu Hk Hmk].
  apply wps_bind, wps_attempt. eapply wps_mono; [by apply Hm| |done].
  intros r s2 w2 (Hi2 & Hg2 & _). cbn [then_post]. apply wps_bind.
  eapply wps_mono; [by eapply drop_wps| |done].
  intros [u|e] s3 w3 [Hi3 Hg3]; cbn [then_post]; [|split; [done|split; [by do 2 (etrans; [eassumption|])|done]]].
  destruct r; (split; [done|split; [by do 2 (etrans; [eassumption|])|done]]).
Qed.

(** ** Removals *)

Lemma safe_unlink claims d n flag s w :
  Inv claims s w ->
  (forall i w', grows w w' -> stale s0 w0 w' {| rm_directory := fd_ino d; rm_name := n; rm_object := i |}) ->
  safe claims (call (unlinkat d n flag)) (fun _ _ _ => True) s w.
Proof.
  intros Hi Hst. pose proof (law_unlink d n flag w) as Hu. pose proof (law_unlink_changes d n flag w) as [Hg _].
  unfold safe, wps, call. destruct (unlinkat d n flag w) as [o w']. cbn in Hg.
  assert (sofar w') as Hs.
  { destruct Hu as [[_ (i & Hr & _)]|[_ [_ Hr]]].
    - eapply sofar_more; [exact Hg|exact Hr| |apply Hi]. apply Forall_singleton. by apply Hst.
    - eapply sofar_grows; [exact Hg|exact Hr|apply Hi]. }
  destruct o; [|done]. split; [|by split]. by eapply (Inv_sofar _ _ w).
Qed.

Lemma mild_unlink_stages d flag : mild (call (unlinkat d UPLOAD_STAGE_DIRECTORY flag)).
Proof. intros claims s w Hi. apply safe_unlink; [done|]. intros. by apply StageDirectoryEntry. Qed.

Lemma mild_remove_stage_directory path : mild (remove_empty_upload_stage_directory_blocking path).
Proof.
  unfold remove_empty_upload_stage_directory_blocking. apply mild_bind; [apply mild_of_io|]. intros _.
  destruct (file_name path) as [n|] eqn:En; [|apply mild_throw]. cbn [mbind option_bind].
  destruct (classify_internal_name parse_uuid hyphenated n) as [[]|] eqn:Ec; try apply mild_throw.
  intros claims s w Hi. apply safe_look; [apply keeps_open_parent; apply _|done| |intros; mildly; mild_auto].
  intros parent w2 Hp Hw2 Hi2. apply open_parent_held in Hp. eapply held_file_name in Hp. rewrite En in Hp. injection Hp as Hp.
  assert (op_name parent = UPLOAD_STAGE_DIRECTORY) as ->.
  { rewrite <- Hp. unfold classify_internal_name in Ec. by repeat case_match; split_bool. }
  pose proof (mild_unlink_stages (op_fd parent) AtRemoveDir). mildly. mild_auto.
Qed.
Hint Resolve mild_remove_stage_directory : mild.

Lemma mild_remove_stages path : mild (remove_empty_upload_stage_directory path).
Proof. unfold remove_empty_upload_stage_directory. mild_auto. Qed.
Hint Resolve mild_remove_stages : mild.

Lemma mild_remove_record e b : mild (remove_expired_upload_record e b).
Proof. unfold remove_expired_upload_record. mild_auto. Qed.
Hint Resolve mild_remove_record : mild.

(** The stage of a session that has expired, in a directory that was opened when nobody
    used the stage. *)
Record expired_at (path : bytes) (e : ExpiredUploadSession) (w : OsWorld) : Prop := {
  ex_matches : exists u p now, asked s0 w0 w u p now /\ UploadStore.expired_upload_session_matches u now e = Ok true;
  ex_path : resolve_state_path root_path (stage_path (session e)) = Ok path;
  ex_unused : exists d n, held w path d n /\ unregistered s0 w0 w (entry_id d n) }.

Lemma expired_grows path e w w' : grows w w' -> expired_at path e w -> expired_at path e w'.
Proof.
  intros Hg [(u & p & now & Ha & ?) ? (d & n & ? & ?)]. split; [|done|].
  - exists u, p, now. split; [by eapply asked_grows|done].
  - exists d, n. by split; [eapply held_grows|eapply unregistered_grows].
Qed.

Lemma held_same w path d d' n n' : held w path d n -> held w path d' n' -> n = n'.
Proof. intros Hn%held_file_name Hn'%held_file_name. congruence. Qed.

Lemma safe_purge_stage fuel claims path e entry identity s w :
  Inv claims s w -> expired_at path e w -> stage_identity (session e) = Some identity ->
  pinned w entry -> held w path (fd_ino (te_parent entry)) (te_name entry) -> stored_identity_matches identity entry = true ->
  safe claims (purge_single_file fuel entry) (fun _ _ _ => True) s w.
Proof.
  intros Hi [(u & q & now & Ha & Hm) Hp (d & n & Hd & Hu)] Hid [Hok _ Hseen] Hh Hsame.
  pose proof (held_same _ _ _ _ _ _ Hd Hh) as ->.
  assert (number (fd_ino (te_anchor entry)) = (id_device identity, id_inode identity)) as Hnum.
  { rewrite <- (eo_identity _ _ Hok). unfold stored_identity_matches in Hsame. split_bool. congruence. }
  assert (forall w' x, grows w w' -> within w' (fd_ino (te_parent entry)) (fd_ino (te_anchor entry)) x -> stale s0 w0 w' x) as Hst.
  { intros w' x Hg Hx. eapply (ExpiredStage _ _ _ _ u q now e identity path d); [by eapply asked_grows|done..| | |apply (gr_later _ _ Hg)| |];
      try done; by eauto using held_grows, unregistered_grows. }
  pose proof (runs_slice w (te_parent entry) (te_anchor entry) 1 fuel 1 MAINTENANCE_TIME_BUDGET entry w
    (Inv_start w entry Hok 1 ltac:(lia)) eq_refl) as Hr.
  pose proof (KernelMotion.slice_moves grows fuel 1 MAINTENANCE_TIME_BUDGET entry w) as Hg.
  unfold runs, wps in Hr. unfold purge_single_file, safe, wps, mbind, Sys_bind, run_on.
  destruct (purge_slice fuel 1 MAINTENANCE_TIME_BUDGET entry w) as [[o e'] w']. cbn in Hg.
  assert (o <> Panicked /\ sofar w') as [Ho Hs].
  { assert (purged w (te_parent entry) (te_anchor entry) 1 1 w') as [_ (new & E & Hn & _) _]
      by (destruct o; try done; apply (TrashSafety.iv_purged _ _ _ _ _ _ _ Hr)).
    split; [by destruct o|]. eapply sofar_more; [exact Hg|exact E| |apply Hi].
    eapply Forall_impl; [exact Hn|]. intros x Hx. by apply Hst. }
  destruct o as [[]|err| | |]; try done; (split; [by eapply (Inv_sofar _ _ w)|by split]).
Qed.

(** ** Expired sessions *)

Lemma safe_running fuel claims path e s w :
  Inv claims s w -> expired_at path e w ->
  safe claims (cleanup_expired_running_upload fuel e path) (fun _ _ _ => True) s w.
Proof.
  intros Hi He. unfold cleanup_expired_running_upload. cbv zeta.
  destruct (stage_identity (session e)) as [identity|] eqn:Eid; [|by mildly; mild_auto].
  apply safe_look; [eauto with keeps|done| |intros err w1 Hi1; mildly; mild_auto].
  intros [entry|] w1 Hc Hw1 Hi1; [|mildly; mild_auto].
  destruct (stored_identity_matches identity entry) eqn:Em; [|mildly; mild_auto].
  apply bind_Val in Hc as ([] & s2 & w2 & [-> Eg]%ask_Val & Hc); [|done].
  eapply safe_bind.
  - eapply safe_purge_stage; [done| |done| |by eapply capture_held|done].
    + eapply expired_grows; [apply Hw1|done].
    + by eapply capture_pinned.
  - intros _ s3 w3 Hi3 _ _. mildly. mild_auto.
Qed.

Lemma safe_retire fuel claims path e s w :
  Inv claims s w -> resolve_state_path root_path (stage_path (session e)) = Ok path ->
  safe claims (retire_stage fuel e path) (fun _ _ _ => True) s w.
Proof.
  intros Hi Hp. unfold retire_stage.
  apply safe_look; [eauto with keeps typeclass_instances|done| |intros err w1 Hi1; mildly; mild_auto].
  intros k w1 Hk Hw1 Hi1. apply bind_Val in Hk as ([] & s2 & w2 & [-> Eg]%ask_Val & Hk); [|done].
  apply entry_key_held in Hk as (d & Hd & Ek). apply safe_claiming; [done|]. intros s3 w3 Hi3 Hg3 Hu.
  eapply safe_bind; [by apply mild_modify|]. intros _ s4 w4 Hi4 Hg4 _.
  eapply safe_bind; [by apply safe_matches|]. intros [] s5 w5 Hi5 Hg5 Hm; cbn [negb]; [|by apply mild_ret].
  apply safe_running; [done|]. split; [by apply Hm|done|]. exists d, (ek_name k). rewrite <- Ek.
  assert (grows w3 w5) as Hg by by etrans. split; [eapply held_grows; [|exact Hd]; by etrans|by eapply unregistered_grows].
Qed.

Lemma mild_session fuel e : mild (cleanup_expired_upload_session fuel e).
Proof.
  unfold cleanup_expired_upload_session, discard_unusable. cbv zeta.
  destruct (resolve_state_path root_path (target_path (session e))); [|mild_auto].
  destruct (resolve_state_path root_path (stage_path (session e))) as [path|] eqn:Ep; [|mild_auto].
  assert (mild (retire_stage fuel e path)) by (intros claims s w Hi; by apply safe_retire). mild_auto.
Qed.
Hint Resolve mild_session : mild.

Lemma mild_sessions fuel l : mild (cleanup_sessions fuel l).
Proof. induction l; cbn [cleanup_sessions]; mild_auto. Qed.
Hint Resolve mild_sessions : mild.
Lemma mild_batch fuel after limit : mild (cleanup_expired_upload_sessions_batch fuel after limit).
Proof. unfold cleanup_expired_upload_sessions_batch. mild_auto. Qed.

(** ** What is tracked *)

Lemma mild_tracked_stages l : mild (tracked_stages l).
Proof. induction l; cbn [tracked_stages]; unfold tracked_stage, metadata_nofollow; mild_auto. Qed.
Lemma mild_tracked_trash l : mild (tracked_trash l).
Proof. induction l; cbn [tracked_trash]; mild_auto. Qed.
Hint Resolve mild_batch mild_tracked_stages mild_tracked_trash : mild.
Lemma mild_upload_snapshot : mild load_tracked_upload_snapshot_page.
Proof. unfold load_tracked_upload_snapshot_page, tracked_upload_entries_page. mild_auto. Qed.
Lemma mild_purge_snapshot : mild load_tracked_purge_snapshot.
Proof. unfold load_tracked_purge_snapshot, tracked_purge_trash_entries. mild_auto. Qed.
Lemma safe_preserve claims path s w :
  Inv claims s w ->
  safe claims (should_preserve_stale_state_path path) (fun b _ w' => b = false -> unbound s0 w0 w' path) s w.
Proof.
  intros Hi. unfold should_preserve_stale_state_path. destruct (state_relative_path root_path path) as [r|] eqn:Er; [|by apply safe_ret].
  eapply (safe_bind _ _ _ (fun b _ w' => b = Ok false -> unbound s0 w0 w' path)).
  - apply safe_attempt; [|done]. eapply safe_mono; [by apply safe_bound|]. intros b s1 w1 (u & p & now & Ha & Hb) [= ->].
    by exists u, p, now, r.
  - intros [[]|] s1 w1 Hi1 _ Hb; apply safe_ret; auto; done.
Qed.
Lemma mild_preserve path : mild (should_preserve_stale_state_path path).
Proof. intros claims s w Hi. eapply safe_mono; [by apply safe_preserve|done]. Qed.
Hint Resolve mild_upload_snapshot mild_purge_snapshot mild_preserve : mild.

(** ** Orphans *)

Lemma mild_schedule_trash e : mild (schedule_trash e).
Proof. unfold schedule_trash. mild_auto. Qed.
Hint Resolve mild_schedule_trash : mild.

Lemma safe_remove_entry claims path d n s w :
  Inv claims s w -> orphan_name path n -> looked_old w0 w path -> unbound s0 w0 w path -> held w path d n ->
  unregistered s0 w0 w (entry_id d n) ->
  safe claims (remove_entry_blocking path) (fun _ _ _ => True) s w.
Proof.
  intros Hi Ho Hl Hb Hd Hu. unfold remove_entry_blocking.
  apply safe_look; [apply keeps_open_parent; apply _|done| |intros err w1 Hi1; mildly; mild_auto].
  intros parent w1 Hp [Hg1 _ _] Hi1. apply open_parent_held in Hp. eapply held_grows in Hd; [|exact Hg1]. eapply looked_old_grows in Hl; [|exact Hg1].
  eapply unbound_grows in Hb; [|exact Hg1]. eapply unregistered_grows in Hu; [|exact Hg1].
  pose proof (held_same _ _ _ _ _ _ Hd Hp) as Hn. rewrite Hn in Ho, Hu, Hd.
  eapply safe_bind; [apply safe_unlink; [done|]|intros r s2 w2 Hi2 _ _; mildly; mild_auto].
  intros i w2 Hg2. apply (Orphan _ _ _ _ path d);
    [done|by eapply looked_old_grows|by eapply unbound_grows|by eapply held_grows|by eapply held_grows|by eapply unregistered_grows].
Qed.

Lemma safe_remove_orphan claims e n s w :
  Inv claims s w -> file_name (de_path e) = Some n -> orphan_name (de_path e) n -> looked_old w0 w (de_path e) ->
  safe claims (remove_orphan e) (fun _ _ _ => True) s w.
Proof.
  intros Hi Hn Ho Hl. unfold remove_orphan.
  apply safe_look; [eauto with keeps|done| |intros err w1 Hi1; mildly; mild_auto].
  intros k w1 Hk Hw1 Hi1. apply entry_key_held in Hk as (d & Hd & Ek). pose proof (held_file_name _ _ _ _ Hd) as Hn'.
  rewrite Hn in Hn'. injection Hn' as ->. apply safe_gets. destruct (bool_decide _); [by apply mild_ret|].
  apply safe_claiming; [done|]. intros s2 w2 Hi2 Hg2 Hu.
  eapply safe_bind; [by apply safe_preserve|]. intros [] s3 w3 Hi3 Hg3 Hb; [by apply mild_ret|]. specialize (Hb eq_refl).
  eapply safe_bind; [apply (safe_attempt _ _ (fun _ _ _ => True)); [|done]|intros r s4 w4 Hi4 _ _; mildly; mild_auto].
  assert (grows w1 w3) as Hg by by etrans.
  apply (safe_remove_entry _ _ d (ek_name k)); [done..| |done|by eapply held_grows|].
  2: { rewrite <- Ek. eapply unregistered_grows; [exact Hg3|done]. }
  eapply looked_old_grows; [|exact Hl]. etrans; [apply Hw1|done].
Qed.

(** An entry found in the directory [relative]. *)
Record found (relative : bytes) (e : RootedDirEntry) (w : OsWorld) : Prop := {
  fo_path : de_path e = push root_path (join_child relative (de_file_name e));
  fo_object : de_is_symlink e = false ->
    exists i, opened_at w (join_child relative (de_file_name e)) i /\ describes w i (de_metadata e) }.

Lemma readiness_classified n :
  classify_internal_name parse_uuid hyphenated n = Some Readiness -> n = READINESS_PROBE_ANCHOR \/
  is_readiness_name parse_uuid hyphenated n = true.
Proof. unfold classify_internal_name. repeat case_match; intros; split_bool; auto; done. Qed.

Lemma safe_visit_entry claims options directory rel e s w :
  mo_upload_ttl options = UPLOAD_SESSION_TTL -> relative_path_or_dot directory = Ok rel ->
  Inv claims s w -> shown w0 w (mo_now options) -> found rel e w ->
  safe claims (visit_entry options (bool_decide (file_name directory = Some UPLOAD_STAGE_DIRECTORY)) e) (fun _ _ _ => True) s w.
Proof.
  intros Ht Hr Hi Hsh [Hp Hf]. set (n := de_file_name e) in *.
  assert (normal_name n -> file_name (de_path e) = Some n) as Hn by (rewrite Hp; apply child_file_name).
  unfold visit_entry, descend_into. cbv zeta. fold n. rewrite Ht.
  destruct (de_is_symlink e); [by apply mild_ret|]. apply safe_gets. destruct (Hf eq_refl) as (i & Hio & Hid).
  assert (is_dir (de_metadata e) = false ->
    (maintenance_entry_age (de_metadata e) (mo_now options) false <? UPLOAD_SESSION_TTL)%Z = false -> looked_old w0 w (de_path e)) as Ho.
  { intros Hd Ha%Z.ltb_ge. by exists (join_child rel n), i, (de_metadata e), (mo_now options). }
  destruct (classify_internal_name parse_uuid hyphenated n) as [[]|] eqn:Ec; [mildly; mild_auto| |mildly; mild_auto..|].
  - destruct (bool_decide (n = READINESS_PROBE_ANCHOR)) eqn:Ea; [by apply mild_ret|]. apply bool_decide_eq_false in Ea.
    apply readiness_classified in Ec as [|Ec]; [done|]. destruct (is_dir _); [by apply mild_ret|].
    rewrite negb_involutive. destruct (_ <? _)%Z; [by apply mild_ret|]. destruct (_ && _); [by apply mild_ret|].
    eapply safe_remove_orphan; [done|apply Hn; by apply readiness_normal|by right|by apply Ho].
  - destruct (bool_decide_reflect (file_name directory = Some UPLOAD_STAGE_DIRECTORY)) as [Ed|Ed]; cbn [andb negb];
      [|mildly; mild_auto].
    destruct (is_upload_stage_name parse_uuid hyphenated n) eqn:Es; cbn [negb]; [|mildly; mild_auto].
    destruct (is_dir _); [by apply mild_ret|]. rewrite negb_involutive. destruct (_ <? _)%Z; [by apply mild_ret|].
    destruct (ms_skip_uploads _); [by apply mild_ret|].
    eapply safe_remove_orphan; [done|apply Hn; by apply stage_normal| |by apply Ho].
    left. split; [done|]. by exists directory, rel.
Qed.

(** ** The scan *)

Lemma inspect_child_found directory rel n (s : Maint) w e s' w' :
  inspect_child directory rel n s w = (Val (Some e), s', w') -> found rel e w'.
Proof.
  unfold inspect_child. intros (f & s1 & w1 & _ & Hx)%bind_Val. apply bind_Val in Hx as (st & s2 & w2 & _ & Hx).
  cbv zeta in Hx. apply bind_Val in Hx as ([t|err] & s3 & w3 & [-> Eo]%call_Val & Hx).
  { apply bind_Val in Hx as (m & s4 & w4 & [-> Em]%io_Val & Hx). injection Hx as <- <- <-. split; [done|]. cbn. intros _.
    exists (fd_ino t). pose proof (law_opened_path (join_child rel n) w2 t) as Ht. rewrite Eo in Ht.
    pose proof (law_fstat_describes t w3 m) as Hm. rewrite Em in Hm. split; [|by apply Hm].
    apply (gr_opened w3); [|by apply Ht]. apply (still_call _ _ _ _ (ro_fstat t) Em). }
  destruct err; try done; (destruct (bool_decide _) eqn:Eb; [|done]);
    apply bind_Val in Hx as (t & s4 & w4 & _ & Hx); apply bind_Val in Hx as (m & s5 & w5 & _ & Hx); by injection Hx as <- _ _.
Qed.

(** Code that may run once the clock has shown [t]. *)
Definition timely {A} (t : Z) (m : Sys Maint A) : Prop :=
  forall claims s w, Inv claims s w -> shown w0 w t -> safe claims m (fun _ _ _ => True) s w.

Lemma timely_mild {A} t (m : Sys Maint A) : mild m -> timely t m.
Proof. intros Hm claims s w Hi _. by apply Hm. Qed.
Lemma timely_bind {A B} t (m : Sys Maint A) (f : A -> Sys Maint B) : timely t m -> (forall a, timely t (f a)) -> timely t (m ≫= f).
Proof.
  intros Hm Hf claims s w Hi Ht. eapply safe_bind; [by apply Hm|]. intros a s1 w1 Hi1 Hg _.
  apply Hf; [done|by eapply shown_grows].
Qed.
Lemma timely_attempt {A} t (m : Sys Maint A) : timely t m -> timely t (attempt m).
Proof. intros Hm claims s w Hi Ht. by apply safe_attempt; [apply Hm|]. Qed.

Ltac timely_step :=
  lazymatch goal with
  | |- timely _ (_ ≫= _) => apply timely_bind; [|intros]
  | |- timely _ (attempt _) => apply timely_attempt
  | |- timely _ (match ?x with _ => _ end) => destruct x
  | |- timely _ _ => first [assumption | solve [eauto with mild nocore] | apply timely_mild; solve [mild_auto]]
  end.
Ltac timely_auto := cbv beta zeta; repeat (timely_step; cbv beta zeta).

Lemma timely_visit_entries t fuel d rel cursor budget visitor :
  mild budget ->
  (forall claims e s w, Inv claims s w -> shown w0 w t -> found rel e w -> safe claims (visitor e) (fun _ _ _ => True) s w) ->
  timely t (visit_entries fuel d rel cursor budget visitor).
Proof.
  intros Hb Hv. revert cursor. induction fuel as [|fuel IH]; intros cursor; cbn [visit_entries]; [timely_auto|].
  apply timely_bind; [timely_auto|]. intros [entry|]; [|timely_auto]. apply timely_bind; [timely_auto|]. intros [n next].
  destruct (_ || _); [done|]. apply timely_bind; [by apply timely_mild|]. intros []; cbn [negb]; [|timely_auto].
  intros claims s w Hi Ht. eapply (safe_bind _ _ _ (fun o _ w => forall e, o = Some e -> found rel e w)).
  - apply safe_keeps; [eauto with keeps typeclass_instances|done|]. intros o w1 _ Ho e ->. by eapply inspect_child_found.
  - intros [e|] s1 w1 Hi1 Hg He; [specialize (He e eq_refl)|by apply IH; [|eapply shown_grows]].
    eapply safe_bind; [apply Hv; [done|by eapply shown_grows|done]|]. intros [] s2 w2 Hi2 Hg2 _; [|mildly; mild_auto].
    apply IH; [done|]. by do 2 (eapply shown_grows; [eassumption|]).
Qed.

Lemma mild_budget options deadline : mild (slice_budget options deadline).
Proof. unfold slice_budget, slice_exhausted. mild_auto. Qed.
Hint Resolve mild_budget : mild.

Lemma timely_visit fuel options deadline path cursor :
  mo_upload_ttl options = UPLOAD_SESSION_TTL ->
  timely (mo_now options) (visit_dir_blocking_chunk fuel path cursor (slice_budget options deadline)
    (visit_entry options (bool_decide (file_name path = Some UPLOAD_STAGE_DIRECTORY)))).
Proof.
  intros Ht. unfold visit_dir_blocking_chunk, RootedParents.open_directory_from_root.
  intros claims s w Hi Hsh. destruct (relative_path_or_dot path) as [rel|] eqn:Er; [|by apply safe_throw].
  eapply (safe_bind _ _ _ (fun r _ _ => r = rel)); [by apply safe_ret|].
  intros r s1 w1 Hi1 Hg ->. eapply shown_grows in Hsh; [|exact Hg]. revert Hi1 Hsh. generalize claims s1 w1.
  apply timely_bind; [timely_auto|]. intros f. apply timely_bind; [timely_auto|]. intros d.
  apply timely_bind; [timely_auto|]. intros _. apply timely_visit_entries; [mild_auto|].
  intros claims' e s2 w2 Hi2 Hsh2 He. by eapply safe_visit_entry.
Qed.

Lemma timely_scan_directory fuel options deadline d rest :
  mo_upload_ttl options = UPLOAD_SESSION_TTL -> timely (mo_now options) (scan_directory fuel options deadline d rest).
Proof. intros Ht. pose proof (fun p c => timely_visit fuel options deadline p c Ht). unfold scan_directory. timely_auto. Qed.
Lemma timely_scan_directories fuel turns options deadline :
  mo_upload_ttl options = UPLOAD_SESSION_TTL -> timely (mo_now options) (scan_directories fuel turns options deadline).
Proof.
  intros Ht. pose proof (fun d r => timely_scan_directory fuel options deadline d r Ht).
  induction turns; cbn [scan_directories]; unfold slice_exhausted; timely_auto.
Qed.
Lemma timely_collect fuel options now :
  mo_upload_ttl options = UPLOAD_SESSION_TTL -> mo_now options = now -> timely now (collect_stale_internal_files_batch fuel options).
Proof.
  intros Ht <-. pose proof (fun n d => timely_scan_directories fuel n options d Ht).
  unfold collect_stale_internal_files_batch, schedule_pending. timely_auto.
Qed.

(** The scan is given what the clock shows. *)
Lemma mild_dated {A} (m : Z -> Sys Maint A) : (forall now, timely now (m now)) -> mild (now ← ask system_now; m now).
Proof.
  intros Hm claims s w Hi. eapply (safe_bind _ _ _ (fun now _ w' => shown w0 w' now)).
  - apply safe_keeps; [apply keeps_ask; eauto with keeps|done|]. intros now w' _ [_ E]%ask_Val.
    exists w. rewrite E. by split; [apply Hi|].
  - intros now s1 w1 Hi1 _ Hs. by apply Hm.
Qed.

Lemma mild_sync_parents l : mild (sync_parents l).
Proof. induction l; cbn [sync_parents]; mild_auto. Qed.
Hint Resolve mild_sync_parents : mild.

Lemma mild_orphans fuel : mild (collect_orphans fuel).
Proof.
  assert (mild (now ← ask system_now; collect_stale_internal_files_batch fuel
    {| mo_now := now; mo_upload_ttl := UPLOAD_SESSION_TTL; mo_max_entries := MAINTENANCE_ENTRY_BUDGET;
       mo_max_duration := MAINTENANCE_TIME_BUDGET |})) as Hc by (apply mild_dated; intros now; by apply timely_collect).
  apply mild_gated in Hc. unfold collect_orphans.
  apply mild_bind; [apply mild_gets|intros scan]. apply mild_bind; [mild_auto|intros _].
  apply mild_bind; [exact Hc|intros complete; mild_auto].
Qed.
Hint Resolve mild_orphans : mild.

Lemma mild_slice fuel : mild (cleanup_stale_internal_files fuel).
Proof. unfold cleanup_stale_internal_files, cleanup_expired_sessions. mild_auto. Qed.
Hint Resolve mild_slice : mild.

Lemma mild_task fuel turns : mild (run_storage_maintenance fuel turns).
Proof.
  assert (mild (maintenance_loop fuel turns)).
  { induction turns; cbn [maintenance_loop]; unfold restart_scan; mild_auto. }
  unfold run_storage_maintenance, restart_scan. mild_auto.
Qed.
End slice.

(** ** What the task does *)

Section theorems.
Context `{ML : MaintenanceLaws}.

Lemma Inv_begin s w : Inv w s [] s w.
Proof.
  split; [split; [done|]|constructor|set_solver].
  exists []. split; [by rewrite app_nil_r|constructor].
Qed.

(** What holds after code that can run whenever the invariant holds. *)
Definition upkept {A} (s : Maint) (w : OsWorld) (r : outcome A * Maint * OsWorld) : Prop :=
  let '(o, s', w') := r in
  (exists new, removed w' = removed w ++ new /\ Forall (stale s w w') new) /\
  o <> Panicked /\
  (is_final o = true -> history s w w' (mt_uploads s') (mt_purges s') (mt_active s') /\
     forall k, maintenance_marker k ∈ mt_active s' <-> maintenance_marker k ∈ mt_active s).

Lemma mild_upkept {A} (m : Sys Maint A) s w : mild w s m -> upkept s w (m s w).
Proof.
  intros Hm. pose proof (Hm [] s w (Inv_begin s w)) as Hs.
  unfold safe, wps in Hs. unfold upkept. destruct (m s w) as [[o s'] w'].
  assert (sofar w s w') as [_ Hr].
  { destruct o; try done; apply (iv_sofar _ _ _ _ _ (proj1 Hs)). }
  split; [done|]. split; [by destruct o|]. intros Ho. destruct o; try done; destruct Hs as [[_ Hh Hk] _];
    (split; [done|]; intros k; rewrite Hk; set_solver).
Qed.

Lemma slice_upkept fuel s w : upkept s w (cleanup_stale_internal_files fuel s w).
Proof. apply mild_upkept, mild_slice. Qed.

(** C22. Maintenance removes only what is stale.  Whatever uploads, deletions and other
    programs do meanwhile, whichever calls fail, however many slices are run and
    wherever the process dies: every directory entry the task removes has the name of a
    directory of stages; or belongs to the object that a session recorded as its stage,
    found under the name the session gives it, after the state store answered that the
    session had expired by its clock; or has the name of a stage or readiness probe,
    was found to lead to something other than a directory that by a reading of the clock
    had not changed for as long as a session lives, and the state store answered that no
    session and no purge job names its path.  In the last two cases the registry of
    active files was looked at, and neither an upload nor maintenance had the entry.  The
    task does not panic, the tables it leaves are those it found, changed by what others
    did meanwhile and by its removals of expired sessions, and it leaves no claim
    behind. *)
Theorem maintenance_removes_only_stale fuel turns s w :
  let '(o, s', w') := run_storage_maintenance fuel turns s w in
  (exists new, removed w' = removed w ++ new /\ Forall (stale s w w') new) /\
  o <> Panicked /\
  (is_final o = true -> history s w w' (mt_uploads s') (mt_purges s') (mt_active s') /\
     forall k, maintenance_marker k ∈ mt_active s' <-> maintenance_marker k ∈ mt_active s).
Proof. apply (mild_upkept (run_storage_maintenance fuel turns)), mild_task. Qed.

(** What an upload keeps registered throughout is never found unregistered. *)
Lemma registered_throughout s w0 w u p l k :
  (forall l w, k ∈ l -> k ∈ (active_foreign l w).1) -> (forall e, k <> maintenance_marker e) ->
  k ∈ mt_active s -> history s w0 w u p l -> k ∈ l.
Proof.
  intros Hf Hm Hk. induction 1 as [| | | |w u p l l' w1 E _ IH| |]; try done.
  - apply (Hf l w) in IH. by rewrite E in IH.
  - by apply elem_of_cons; right.
  - by apply list_elem_of_filter.
Qed.
End theorems.

(** ** A run

    [/srv] holds a file, a readiness probe and a directory of stages: the stage [4] of a
    session that has expired, the stage [5] that an upload uses, the stage [6] that nobody
    knows, and the stage [7] that nobody knows and that has just been written.  [sub]
    holds an empty directory of stages. *)

Import KernelMemory MutationMemory PurgeOwnership.

#[export] Instance memory_stages : StageEnv (H := memory_kernel) := {|
  openat_directory d n m := look d n (fun m i => if holds_entries m i then Ok i else Err NOTDIR) m;
  geteuid := 0%Z |}.
#[export] Instance memory_maintenance : MaintenanceEnv (H := memory_kernel) := {|
  system_now m := (1000000 * 1000000000, m)%Z;
  upload_foreign _ m := ([], m);
  active_foreign l m := (l, m);
  try_schedule _ m := (true, m);
  sleep _ m := (true, m) |}.

#[export] Instance memory_maintenance_laws : MaintenanceLaws (L := memory_change_laws) (H3 := memory_stages) (H4 := memory_maintenance).
Proof.
  split; try (intros; still_memory); try done; cbn.
  - intros h m. unfold read_entry. destruct (list_find _ _) as [[]|]; by apply memory_still; cbn; auto.
  - intros p m f. destruct (walk_path p m); [intros [= <-]; left|done].
Qed.

Definition upload_of (b : byte) : bytes := replicate 16 b.
Definition stage_of (n : string) (b : byte) : bytes :=
  upload_stage_name hyphenated (Utils.encode_hex (sha256 (str n))) (upload_of b).
Definition entry_at (d o : Z) (n : bytes) (i : Z) : Entry := {| en_dir := d; en_offset := o; en_name := n; en_object := i |}.
Definition upkeep : Memory :=
  {| m_entries := [entry_at 1 1 (str "keep") 2; entry_at 1 2 UPLOAD_STAGE_DIRECTORY 3; entry_at 3 3 (stage_of "a" x41) 4;
       entry_at 3 4 (stage_of "b" x42) 5; entry_at 3 5 (stage_of "c" x43) 6; entry_at 3 6 (stage_of "d" x44) 7;
       entry_at 1 7 (READINESS_PREFIX ++ hyphenated (upload_of x45) ++ READINESS_SUFFIX) 8;
       entry_at 1 8 (str "sub") 9; entry_at 9 9 UPLOAD_STAGE_DIRECTORY 10];
     m_modes := [(2, 33188); (3, 16832); (4, 33152); (5, 33152); (6, 33152); (7, 33152); (8, 33152); (10, 16832)]%Z;
     m_versions := [(7, 999999)]%Z; m_positions := []; m_next := 100; m_clock := 0; m_errors := []; m_seen := [];
     m_drawn := []; m_removed := []; m_changes := []; m_observed := []; m_opened := []; m_lost := 0 |}.
Definition expired_row : UploadStore.Row :=
  {| UploadStore.r_target_path := str "a";
     UploadStore.r_stage_path := UPLOAD_STAGE_DIRECTORY ++ str "/" ++ stage_of "a" x41;
     UploadStore.r_upload_length := 10; UploadStore.r_durable_offset := 5; UploadStore.r_state := UPLOAD_RUNNING;
     UploadStore.stage_device_be := Some (be_bytes 8 7); UploadStore.stage_inode_be := Some (be_bytes 8 4);
     UploadStore.r_target_revision := None; UploadStore.updated_at_ms := 100; UploadStore.expires_at_ms := 500 |}.
Definition resting : Maint :=
  {| mt_uploads := {[ {| owner := replicate 32 x61; id := upload_of x41 |} := expired_row ]}; mt_purges := ∅;
     mt_active := [ {| ek_parent := {| device := 7; inode := 3 |}; ek_name := stage_of "b" x42 |} ];
     mt_scan := new_scan (str "/srv") TRASH_ENTRY_TTL; mt_batch := empty_batch; mt_slice := empty_slice |}.

Lemma maintenance_removes_only_stale_witness :
  let '(o, s', w') := run_storage_maintenance 100 1 resting upkeep in
  (o = Val tt /\ rm_object <$> m_removed w' = [4; 6; 8; 10]%Z /\ size (mt_uploads s') = 0) /\
  (exists new, removed w' = removed upkeep ++ new /\ Forall (stale resting upkeep w') new) /\
  o <> Panicked /\
  (is_final o = true -> history resting upkeep w' (mt_uploads s') (mt_purges s') (mt_active s') /\
     forall k, maintenance_marker k ∈ mt_active s' <-> maintenance_marker k ∈ mt_active resting).
Proof.
  pose proof (maintenance_removes_only_stale 100 1 resting upkeep) as Hs.
  assert (let '(o, s', w') := run_storage_maintenance 100 1 resting upkeep in
    (o, rm_object <$> m_removed w', size (mt_uploads s')) = (Val tt, [4; 6; 8; 10]%Z, 0)) as Hr by (vm_compute; reflexivity).
  destruct (run_storage_maintenance 100 1 resting upkeep) as [[o s'] w']. split; [by injection Hr|exact Hs].
Defined.
End MaintenanceSafety.
