(* ===== verification/StageClaims.v ===== *)
(** * Uploads and maintenance exclude each other

    The registry of active upload files is one locked set: upload handlers enter the keys
    of their stages and remove them when they end, maintenance enters a marker while it
    acts on a stage.  A system of any number of upload requests and the maintenance task,
    whose steps are the operations of [UploadPrepare] and [Maintenance] on that set, never
    has a stage claimed by maintenance while an upload holds it. *)

From S2P Require Import Prelude Paths PathKeys Problem UploadWorld UploadPrepare UploadMemory.
From S2P Require Import Kernel KernelMemory PurgeWorker PurgeOwnership MutationWorld MutationMemory DirectoryVisits Maintenance.
From S2P Require Import MaintenanceSafety.

Module StageClaims.
Import UploadPrepare MaintenanceSafety.

(** The set that is stored is the set that is read. *)
Class Registry `{UploadEnv} : Prop :=
  active_stored l w : active_upload_files (set_active_upload_files l w) = l.

Record Shared : Type := {
  sh_active : list RootedEntryKey;
  sh_leases : gmap nat (list RootedEntryKey);
  sh_claims : list RootedEntryKey }.
Definition lease_of (a : Shared) (i : nat) : list RootedEntryKey := default [] (sh_leases a !! i).
Definition nobody : Shared := {| sh_active := []; sh_leases := ∅; sh_claims := [] |}.

(** The key of an entry of a directory. *)
Definition real (k : RootedEntryKey) : Prop := x00 ∉ ek_name k.

Section system.
Context `{R : Registry} `{K : Kernel} `{!ServerEnv} `{!MutationEnv} `{!StageEnv} `{!MaintenanceEnv}.

(** One operation of a request [i], which coordinates its paths with the others, or of
    maintenance; each takes the lock and finds the set as the last one left it. *)
Inductive turn (a : Shared) : Shared -> Prop :=
| Registers i k s s' r :
    real k -> (forall j, j <> i -> k ∉ lease_of a j) ->
    active_upload_files (world s) = sh_active a -> leased s = lease_of a i -> register_active k s = (UploadWorld.Val r, s') ->
    turn a {| sh_active := active_upload_files (world s'); sh_leases := <[i := leased s']> (sh_leases a); sh_claims := sh_claims a |}
| Releases i s s' :
    active_upload_files (world s) = sh_active a -> leased s = lease_of a i -> release_active s = (UploadWorld.Val tt, s') ->
    turn a {| sh_active := active_upload_files (world s'); sh_leases := <[i := leased s']> (sh_leases a); sh_claims := sh_claims a |}
| Claims k m w r m' w' :
    real k -> (active_foreign (mt_active m) w).1 = sh_active a -> try_claim_stale_entry k m w = (Kernel.Val r, m', w') ->
    turn a {| sh_active := mt_active m'; sh_leases := sh_leases a; sh_claims := if r then k :: sh_claims a else sh_claims a |}
| Drops k m w m' w' :
    k ∈ sh_claims a -> (active_foreign (mt_active m) w).1 = sh_active a -> drop_claim k m w = (Kernel.Val tt, m', w') ->
    turn a {| sh_active := mt_active m'; sh_leases := sh_leases a; sh_claims := filter (fun j => j <> k) (sh_claims a) |}.

Record exclusive (a : Shared) : Prop := {
  xc_leases i k : k ∈ lease_of a i -> real k /\ k ∈ sh_active a;
  xc_claims k : k ∈ sh_claims a -> real k /\ maintenance_marker k ∈ sh_active a /\ k ∉ sh_active a;
  xc_apart i j k : k ∈ lease_of a i -> k ∈ lease_of a j -> i = j }.

Lemma marker_unreal k : ~ real (maintenance_marker k).
Proof. unfold real. cbn. rewrite elem_of_app. intros Hn. apply Hn. right. left. Qed.
Lemma real_marker j k : real j -> j <> maintenance_marker k.
Proof. intros Hj ->. by apply marker_unreal in Hj. Qed.

Lemma lease_of_insert a i l j active claims :
  lease_of {| sh_active := active; sh_leases := <[i := l]> (sh_leases a); sh_claims := claims |} j =
  if decide (i = j) then l else lease_of a j.
Proof. unfold lease_of. cbn. destruct (decide (i = j)) as [->|]; [by rewrite lookup_insert_eq|by rewrite lookup_insert_ne]. Qed.

Lemma register_active_spec k s r s' :
  register_active k s = (UploadWorld.Val r, s') ->
  maintenance_marker k ∈ active_upload_files (world s) /\ s' = s \/
  (maintenance_marker k ∉ active_upload_files (world s)) /\ leased s' = k :: leased s /\
  (forall j, j ∈ active_upload_files (world s') <-> j = k \/ j ∈ active_upload_files (world s)).
Proof.
  unfold register_active. case_bool_decide as Hm; [intros [= _ <-]; by left|]. intros [= _ <-]. right. split; [done|].
  split; [done|]. intros j. cbn. rewrite active_stored. case_bool_decide; set_solver.
Qed.

Lemma release_active_spec s s' :
  release_active s = (UploadWorld.Val tt, s') ->
  leased s' = [] /\ forall j, j ∈ active_upload_files (world s') <-> (j ∉ leased s) /\ j ∈ active_upload_files (world s).
Proof. intros [= <-]. split; [done|]. intros j. cbn. by rewrite active_stored, list_elem_of_filter. Qed.

Lemma claim_spec k m w r m' w' :
  try_claim_stale_entry k m w = (Kernel.Val r, m', w') ->
  let before := (active_foreign (mt_active m) w).1 in
  if r then (k ∉ before) /\ mt_active m' = maintenance_marker k :: before else mt_active m' = before.
Proof.
  unfold try_claim_stale_entry, lock_active, mbind, Sys_bind, gets, ask, modify.
  destruct (active_foreign (mt_active m) w) as [l w1]. cbn.
  case_bool_decide as Hk; [by intros [= <- <- _]|]. case_bool_decide; by intros [= <- <- _].
Qed.

Lemma drop_claim_spec k m w m' w' :
  drop_claim k m w = (Kernel.Val tt, m', w') ->
  forall j, j ∈ mt_active m' <-> j <> maintenance_marker k /\ j ∈ (active_foreign (mt_active m) w).1.
Proof.
  unfold drop_claim, lock_active, mbind, Sys_bind, gets, ask, modify.
  destruct (active_foreign (mt_active m) w) as [l w1]. cbn. intros E j. injection E as <- _. cbn. by rewrite list_elem_of_filter.
Qed.

(** ** Every operation keeps the two apart *)

Lemma exclusive_register a i k s s' r :
  exclusive a -> real k -> (forall j, j <> i -> k ∉ lease_of a j) -> active_upload_files (world s) = sh_active a ->
  leased s = lease_of a i -> register_active k s = (UploadWorld.Val r, s') ->
  exclusive {| sh_active := active_upload_files (world s'); sh_leases := <[i := leased s']> (sh_leases a); sh_claims := sh_claims a |}.
Proof.
  intros [Hl Hc Ha] Hk Ho Es El [[_ ->]|(Hm & Hs & Hx)]%register_active_spec.
  - split; intros *; rewrite ?lease_of_insert; cbn.
    + rewrite Es, El. case_decide; subst; apply Hl.
    + rewrite Es. apply Hc.
    + rewrite El. repeat case_decide; subst; naive_solver.
  - rewrite Es in Hm. rewrite El in Hs. split; intros *; rewrite ?lease_of_insert; cbn; rewrite ?Hx, ?Es, ?Hs.
    + case_decide; [subst; rewrite elem_of_cons; naive_solver|naive_solver].
    + intros Hj. destruct (Hc _ Hj) as (? & Hj1 & Hj2). split; [done|]. split; [by right|]. by intros [->|?].
    + repeat case_decide; subst; rewrite ?elem_of_cons; naive_solver.
Qed.

Lemma exclusive_release a i s s' :
  exclusive a -> active_upload_files (world s) = sh_active a -> leased s = lease_of a i ->
  release_active s = (UploadWorld.Val tt, s') ->
  exclusive {| sh_active := active_upload_files (world s'); sh_leases := <[i := leased s']> (sh_leases a); sh_claims := sh_claims a |}.
Proof.
  intros [Hl Hc Ha] Es El [Hs Hx]%release_active_spec. rewrite Es, El in Hx.
  split; intros *; rewrite ?lease_of_insert; cbn; rewrite ?Hx, ?Hs.
  - case_decide as E; [by intros ?%elem_of_nil|]. intros Hk. destruct (Hl _ _ Hk). split_and!; [done| |done].
    intros Hk'. apply E. by eapply Ha.
  - intros Hk. destruct (Hc _ Hk) as (? & Hm & Hn). split; [done|]. split; [|naive_solver]. split; [|done].
    intros [Hr _]%Hl. by apply marker_unreal in Hr.
  - repeat case_decide; intros Hk; [by apply elem_of_nil in Hk..| |]; [by intros ?%elem_of_nil|by apply Ha].
Qed.

Lemma exclusive_turn a b : turn a b -> exclusive a -> exclusive b.
Proof.
  intros [i k s s' r Hk Ho Es El E|i s s' Es El E|k m w r m' w' Hk Es E|k m w m' w' Hk Es E] Hx.
  - by eapply exclusive_register.
  - by eapply exclusive_release.
  - destruct Hx as [Hl Hc Ha]. apply claim_spec in E. cbn in E. rewrite Es in E. destruct r; [destruct E as [Hn E]|]; cbn;
      (split; cbn; rewrite ?E; [| |exact Ha]).
    + intros i j Hj. destruct (Hl _ _ Hj). split; [done|by right].
    + intros j [->|Hj]%elem_of_cons; rewrite !elem_of_cons.
      * split_and!; [done|by left|]. intros [?|?]; [by eapply real_marker|done].
      * destruct (Hc _ Hj) as (Hr & Hm & Hj'). split_and!; [done|by right|]. intros [?|?]; [by eapply real_marker|done].
    + apply Hl.
    + apply Hc.
  - destruct Hx as [Hl Hc Ha]. pose proof (drop_claim_spec _ _ _ _ _ E) as Hd. rewrite Es in Hd. split; cbn; [| |exact Ha].
    + intros i j Hj. destruct (Hl _ _ Hj). rewrite Hd. split_and!; [done|by apply real_marker|done].
    + intros j [Hj Hj']%list_elem_of_filter. destruct (Hc _ Hj') as (? & Hm & Hn). rewrite !Hd. split; [done|]. split; [|naive_solver].
      split; [|done]. by intros ->%marker_inj.
Qed.

(** C23. Uploads and maintenance exclude each other.  However any number of upload
    requests and the maintenance task interleave: a stage that maintenance has claimed is
    not held by any upload, stays marked and unregistered until the claim is dropped, and
    a stage that an upload holds stays registered, so that it cannot be claimed. *)
Theorem stage_claims_exclusive a k :
  rtc turn nobody a ->
  (k ∈ sh_claims a -> maintenance_marker k ∈ sh_active a /\ (k ∉ sh_active a) /\ forall i, k ∉ lease_of a i) /\
  (forall i, k ∈ lease_of a i -> k ∈ sh_active a).
Proof.
  intros Ha. assert (exclusive a) as [Hl Hc _].
  { assert (exclusive nobody) as Hn by by split; intros *; rewrite ?elem_of_nil.
    induction Ha as [|x y z Hxy _ IH]; [done|]. apply IH. by eapply exclusive_turn. }
  split; [|intros i Hi; by apply (Hl i)]. intros Hk. destruct (Hc _ Hk) as (_ & Hm & Hn). split_and!; [done..|].
  intros i Hi. apply Hn. by apply (Hl i).
Qed.
End system.

(** ** A run

    An upload holds [b], maintenance fails to claim it and claims [c]; another upload has
    to wait for [c]. *)

#[export] Instance memory_registry : Registry (H := UploadMemory.mem_env).
Proof. done. Qed.

Definition key_of (n : string) : RootedEntryKey := {| ek_parent := {| device := 7; inode := 3 |}; ek_name := str n |}.
Definition with_files (l : list RootedEntryKey) : UploadMemory.Memory :=
  {| UploadMemory.m_files := ∅; UploadMemory.m_names := []; UploadMemory.m_next := 0; UploadMemory.m_cursors := ∅;
     UploadMemory.m_frames := []; UploadMemory.m_body := []; UploadMemory.m_published := []; UploadMemory.m_cell := 0;
     UploadMemory.m_active := l; UploadMemory.m_timing := UploadMemory.steady |}.
Definition request (l held : list RootedEntryKey) : St :=
  {| world := with_files l : World; table := ∅; response := Problem.Problem.default_response; leased := held |}.
Definition keeper (l : list RootedEntryKey) : Maint := with_active l resting.

Lemma stage_claims_exclusive_witness :
  let a := {| sh_active := [maintenance_marker (key_of "c"); key_of "b"];
              sh_leases := <[2 := []]> (<[1 := [key_of "b"]]> ∅); sh_claims := [key_of "c"] |} in
  rtc turn nobody a /\
  (key_of "c" ∈ sh_claims a ->
     maintenance_marker (key_of "c") ∈ sh_active a /\ (key_of "c" ∉ sh_active a) /\ forall i, key_of "c" ∉ lease_of a i) /\
  (forall i, key_of "c" ∈ lease_of a i -> key_of "c" ∈ sh_active a).
Proof.
  assert (real (key_of "b") /\ real (key_of "c")) as [Hb Hc] by (split; apply (bool_decide_unpack _); by vm_compute).
  intros a. set (l := [maintenance_marker (key_of "c"); key_of "b"]).
  set (a1 := {| sh_active := [key_of "b"]; sh_leases := <[1 := [key_of "b"]]> ∅; sh_claims := [] |}).
  set (a2 := {| sh_active := l; sh_leases := <[1 := [key_of "b"]]> ∅; sh_claims := [key_of "c"] |}).
  assert (turn nobody a1) as H1.
  { by refine (Registers nobody 1 (key_of "b") (request [] []) (request [key_of "b"] [key_of "b"]) true Hb _ _ _ _);
      [intros; apply not_elem_of_nil|..]. }
  assert (turn a1 a1) as H2 by exact (Claims a1 (key_of "b") (keeper [key_of "b"]) upkeep false _ _ Hb eq_refl eq_refl).
  assert (turn a1 a2) as H3 by exact (Claims a1 (key_of "c") (keeper [key_of "b"]) upkeep true _ _ Hc eq_refl eq_refl).
  assert (turn a2 a) as H4.
  { refine (Registers a2 2 (key_of "c") (request l []) (request l []) false Hc _ eq_refl eq_refl eq_refl).
    intros j _. unfold lease_of. cbn [sh_leases a2]. destruct (decide (j = 1)) as [->|].
    - rewrite lookup_insert_eq. apply (bool_decide_unpack _); by vm_compute.
    - rewrite lookup_insert_ne, lookup_empty by done. apply not_elem_of_nil. }
  assert (rtc turn nobody a) as Ha by exact (rtc_l _ _ _ _ H1 (rtc_l _ _ _ _ H2 (rtc_l _ _ _ _ H3 (rtc_once _ _ H4)))).
  split; [done|]. by apply stage_claims_exclusive.
Defined.
End StageClaims.
