(* ===== verification/MaintenanceReturns.v ===== *)
(** * Slices of maintenance end

    Reading a directory, the scan of directories and purging a stage all stop at a
    deadline.  [MaintenanceTime] says that time passes also during the calls that only
    maintenance makes. *)

From S2P Require Import Prelude Paths PathKeys Sql StateModel UploadStore PurgeStore RootedPaths PathPolicy StateScan FileRevision.
From S2P Require Import Kernel KernelLaws KernelMotion KernelSteps TrashPurge TrashSafety TrashReturns RootedParents TrashMoves.
From S2P Require Import PurgeWorker PurgeOwnership MutationWorld RootedMutations MutationLaws KernelMemory MutationMemory.
From S2P Require Import DirectoryVisits DirectoryTime Maintenance MaintenanceSafety.

Import RootedPaths PathPolicy.

Module MaintenanceReturns.
Import KernelMotion TrashReturns DirectoryTime MaintenanceSafety.

(** ** Time and enumerations *)

Class MaintenanceTime `{VisitTime} `{!StageEnv} `{!MaintenanceEnv} : Prop := {
  pass_dup' f : op_in (passing dots) (dup f);
  pass_anchor d n : op_in (passing dots) (openat_path d n);
  pass_unlinkat d n f : op_in (passing dots) (unlinkat d n f);
  pass_sync f : op_in (passing dots) (fsync f);
  pass_stages d n : op_in (passing dots) (openat_directory d n);
  pass_dispatch : op_in (passing dots) dispatch;
  pass_foreign t : op_in (passing dots) (foreign t);
  pass_upload_foreign t : op_in (passing dots) (upload_foreign t);
  pass_active l : op_in (passing dots) (active_foreign l);
  pass_schedule e : op_in (passing dots) (try_schedule e);
  pass_system_now : op_in (passing dots) system_now }.
#[export] Hint Resolve pass_dup' pass_anchor pass_unlinkat pass_sync pass_stages pass_dispatch pass_foreign
  pass_upload_foreign pass_active pass_schedule pass_system_now : motion.

Section returns.
Context `{T : MaintenanceTime}.

Abbreviation passes := (passing dots).

(** ** What happens to an entry *)

Lemma pass_existing {S} cs current prefix : forward passes (S := S) (open_existing cs current prefix).
Proof.
  revert current prefix. induction cs as [|[]]; intros; cbn [open_existing]; unfold RootedParents.open_directory_from_root; forward_auto.
Qed.
Hint Resolve pass_existing : motion.
Lemma pass_parent {S} path : forward passes (S := S) (open_parent_blocking path false).
Proof. unfold open_parent_blocking, open_parent, parent_components. forward_auto. Qed.
Hint Resolve pass_parent : motion.
Lemma pass_key {S} path : forward passes (S := S) (entry_key_blocking path).
Proof. unfold entry_key_blocking. forward_auto. Qed.
Lemma pass_capture {S} path d r : forward passes (S := S) (capture_entry_for_purge_with_type_blocking path d r).
Proof. unfold capture_entry_for_purge_with_type_blocking. forward_auto. Qed.
Lemma pass_remove {S} path : forward passes (S := S) (remove_entry_blocking path).
Proof. unfold remove_entry_blocking. forward_auto. Qed.
Hint Resolve pass_key pass_capture pass_remove : motion.

Lemma pass_text {A} (r : result string A) : forward passes (of_text r).
Proof. unfold of_text. forward_auto. Qed.
Hint Resolve pass_text : motion.
Lemma pass_crash {S A} : forward passes (S := S) (A := A) crash.
Proof. intros s w. by split. Qed.
Hint Resolve pass_crash : motion.
Lemma pass_store {A} command : forward passes (store (A := A) command).
Proof. unfold store, others. forward_auto. Qed.
Hint Resolve pass_store : motion.
Lemma pass_preserve path : forward passes (should_preserve_stale_state_path path).
Proof. unfold should_preserve_stale_state_path, state_path_is_bound_blocking. forward_auto. Qed.
Lemma pass_lock : forward passes lock_active.
Proof. unfold lock_active. forward_auto. Qed.
Hint Resolve pass_preserve pass_lock : motion.
Lemma pass_claiming {A} k (a : A) m : forward passes m -> forward passes (claiming k a m).
Proof. intros Hm. unfold claiming, try_claim_stale_entry, drop_claim. forward_auto. Qed.

Lemma pass_visit_entry options b e : forward passes (visit_entry options b e).
Proof.
  assert (forward passes (remove_orphan e)).
  { unfold remove_orphan. forward_auto. apply pass_claiming. forward_auto. }
  unfold visit_entry, schedule_trash, descend_into. forward_auto.
Qed.
Hint Resolve pass_visit_entry : motion.

(** A slice goes on only if the clock was read and the deadline is still ahead. *)
Lemma exhausted_ticks options deadline (s : Maint) w s' w' :
  slice_exhausted options deadline s w = (Val false, s', w') -> (clock_at w < clock_at w' /\ clock_at w < deadline - 1)%Z.
Proof.
  unfold slice_exhausted, mbind, Sys_bind, gets, ask. destruct (_ <=? _)%Z; [done|].
  pose proof (tick_now w) as [Ht Et]. destruct (instant_now w) as [t w1]. cbn in *.
  destruct (Z.leb_spec deadline t); [done|]. pose proof (pass_stop w1) as [Hp _]. destruct (is_cancelled w1) as [b w2].
  intros [= -> <- <-]. cbn in Hp. clock_lia.
Qed.

Lemma pass_exhausted options deadline : forward passes (slice_exhausted options deadline).
Proof. unfold slice_exhausted. forward_auto. Qed.
Hint Resolve pass_exhausted : motion.
Lemma pass_budget options deadline : forward passes (slice_budget options deadline).
Proof. unfold slice_budget. forward_auto. Qed.
Hint Resolve pass_budget : motion.

Lemma budget_ticks options deadline (s : Maint) w s' w' :
  slice_budget options deadline s w = (Val true, s', w') -> (remaining deadline w' < remaining deadline w)%Z.
Proof.
  unfold slice_budget. intros ([] & s1 & w1 & E & Hx)%bind_Val; [done|]. apply exhausted_ticks in E.
  injection Hx as _ <-. unfold remaining. lia.
Qed.

Lemma visit_lasts fuel options deadline path cursor b :
  lasts (fun w => (remaining deadline w + 2 < Z.of_nat fuel)%Z)
    (visit_dir_blocking_chunk fuel path cursor (slice_budget options deadline) (visit_entry options b)).
Proof. apply visit_chunk_lasts; [forward_auto..|]. apply budget_ticks. Qed.

Lemma pass_stage_directory {S} path : forward passes (S := S) (remove_empty_upload_stage_directory_blocking path).
Proof. unfold remove_empty_upload_stage_directory_blocking, open_private_upload_stage_directory_at. forward_auto. Qed.
Hint Resolve pass_stage_directory : motion.

Lemma scan_directory_lasts fuel options deadline d rest :
  lasts (fun w => (remaining deadline w + 2 < Z.of_nat fuel)%Z) (scan_directory fuel options deadline d rest).
Proof.
  unfold scan_directory. apply (lasts_bind clock_le); [forward_auto|done| |].
  { intros w w' Hw Hc. unfold remaining in *. clock_lia. }
  intros _. apply lasts_then; [apply lasts_attempt, visit_lasts|]. intros. apply lasts_forward. forward_auto.
Qed.

Lemma scan_directories_last fuel turns options deadline :
  lasts (fun w => (remaining deadline w < Z.of_nat turns /\ remaining deadline w + 2 < Z.of_nat fuel)%Z)
    (scan_directories fuel turns options deadline).
Proof.
  induction turns as [|turns IH]; cbn [scan_directories]; [intros s w [Hw _]; unfold remaining in Hw; lia|].
  set (P := fun n w => (remaining deadline w < n /\ remaining deadline w + 2 < Z.of_nat fuel)%Z) in *.
  assert (forall n, stable (P n) clock_le) as Hs by (intros n w w' Hw Hc; unfold P, remaining in *; clock_lia).
  apply (lasts_weaken _ (P (Z.of_nat (Datatypes.S turns)))); [|done].
  apply (lasts_bind clock_le); [forward_auto|done..|]. intros scan.
  destruct (pop_back _) as [[directory rest]|]; [|apply lasts_forward; forward_auto].
  apply lasts_then; [apply lasts_forward; forward_auto|]. intros s w over s1 w1 Hw E.
  destruct over; [apply lasts_forward; forward_auto|]. apply exhausted_ticks in E.
  apply (lasts_weaken _ (P (Z.of_nat turns))); [|intros ? ->; unfold P, remaining in *; clock_lia].
  apply lasts_then; [eapply lasts_weaken; [apply scan_directory_lasts|intros ? []; done]|].
  intros s2 w2 [] s3 w3 Hw2 E3.
  assert (clock_le w2 w3) as Hc3.
  { pose proof (scan_directory_lasts fuel options deadline directory rest s2 w2 (proj2 Hw2)) as Hx. rewrite E3 in Hx. apply Hx. }
  apply (lasts_weaken _ (P (Z.of_nat turns))); [|intros ? ->; by eapply Hs].
  apply (lasts_bind clock_le); [forward_auto|done..|]. intros found.
  destruct (sl_pending found); [apply lasts_forward; forward_auto|].
  apply (lasts_bind clock_le); [forward_auto|done..|]. intros _. apply IH.
Qed.

(** ** The rest of a slice *)

Context (fuel : nat) (Hfuel : (MAINTENANCE_TIME_BUDGET + 2 < Z.of_nat fuel)%Z).

Lemma collect_ends options :
  mo_max_duration options = MAINTENANCE_TIME_BUDGET -> forward clock_le (collect_stale_internal_files_batch fuel options).
Proof.
  intros Hd. unfold collect_stale_internal_files_batch, schedule_pending. apply forward_then; [apply _|forward_auto|]. intros _.
  apply lasts_ends, lasts_then; [apply lasts_forward; forward_auto|]. intros s w t s1 w1 _ [-> Et]%ask_Val.
  pose proof (tick_now w) as [_ Ht]. rewrite Et in Ht. cbn in Ht. subst t. rewrite Hd.
  apply lasts_then; [apply lasts_forward; forward_auto|]. intros s2 ? deadline s3 w3 -> Ed.
  set (P := fun w => (remaining deadline w + 2 < Z.of_nat fuel)%Z).
  assert (stable P clock_le) as Hs by (intros w4 w5 Hw Hc; unfold P, remaining in *; clock_lia).
  apply (lasts_weaken _ P); [|intros ? ->].
  - apply (lasts_bind clock_le); [forward_auto|done..|]. intros _.
    apply lasts_then; [|intros; apply lasts_forward; forward_auto].
    eapply lasts_weaken; [apply scan_directories_last|]. unfold P. intros. lia.
  - unfold P, remaining, instant_checked_add in *. destruct (_ <=? _)%Z.
    + injection Ed as <- _ <-. unfold MAINTENANCE_TIME_BUDGET in *. lia.
    + apply ask_Val in Ed as [_ Ed]. pose proof (tick_now w1) as [_ Ht]. rewrite Ed in Ht. cbn in Ht. subst deadline.
      unfold MAINTENANCE_TIME_BUDGET in Hfuel. lia.
Qed.

Lemma purge_file_ends entry : forward clock_le (purge_single_file fuel entry).
Proof.
  unfold purge_single_file. apply forward_then; [apply _| |intros; forward_auto]. intros s w. unfold run_on.
  pose proof (slice_ends fuel 1 MAINTENANCE_TIME_BUDGET ltac:(by unfold MAINTENANCE_TIME_BUDGET in *; lia) entry w) as Ho.
  pose proof (slice_moves clock_le fuel 1 MAINTENANCE_TIME_BUDGET entry w) as Hc.
  by destruct (purge_slice fuel 1 MAINTENANCE_TIME_BUDGET entry w) as [[[]]].
Qed.
Hint Resolve purge_file_ends collect_ends : motion.

Lemma record_ends e b : forward passes (remove_expired_upload_record e b).
Proof. unfold remove_expired_upload_record, remove_expired_upload_session_if_matches. forward_auto. Qed.
Lemma entry_key_ends {S} path : forward passes (S := S) (entry_key path).
Proof. unfold entry_key, gated. forward_auto. Qed.
Hint Resolve record_ends entry_key_ends : motion.

Lemma claiming_ends {A} k (a : A) m : forward clock_le m -> forward clock_le (claiming k a m).
Proof. intros Hm. unfold claiming, try_claim_stale_entry, drop_claim. forward_auto. Qed.

Lemma session_ends e : forward clock_le (cleanup_expired_upload_session fuel e).
Proof.
  assert (forall path, forward clock_le (cleanup_expired_running_upload fuel e path)).
  { intros path. unfold cleanup_expired_running_upload, remove_empty_upload_stage_directory, capture_entry_for_purge, gated. forward_auto. }
  assert (forall path, forward clock_le (retire_stage fuel e path)).
  { intros path. unfold retire_stage. forward_auto. apply claiming_ends. unfold expired_upload_session_matches. forward_auto. }
  unfold cleanup_expired_upload_session, discard_unusable, expired_upload_session_matches. forward_auto.
Qed.
Hint Resolve session_ends : motion.

Lemma sessions_end l : forward clock_le (cleanup_sessions fuel l).
Proof. induction l; cbn [cleanup_sessions]; forward_auto. Qed.
Lemma tracked_stages_end l : forward passes (tracked_stages l).
Proof. induction l; cbn [tracked_stages]; unfold tracked_stage, metadata_nofollow, metadata_of, gated; forward_auto. Qed.
Lemma tracked_trash_end l : forward passes (tracked_trash l).
Proof. induction l; cbn [tracked_trash]; forward_auto. Qed.
Lemma sync_parents_end l : forward passes (sync_parents l).
Proof. induction l; cbn [sync_parents]; unfold sync_parent, gated; forward_auto. Qed.
Hint Resolve sessions_end tracked_stages_end tracked_trash_end sync_parents_end : motion.

Lemma slice_of_maintenance_ends : forward clock_le (cleanup_stale_internal_files fuel).
Proof.
  unfold cleanup_stale_internal_files, cleanup_expired_sessions, cleanup_expired_upload_sessions_batch,
    expired_upload_sessions_page, load_tracked_upload_snapshot_page, tracked_upload_entries_page, upload_sessions_page, collect_orphans,
    load_tracked_purge_snapshot, tracked_purge_trash_entries, purge_jobs, gated. forward_auto.
Qed.
End returns.

(** C24. A slice of maintenance ends.  With one unit of fuel for every nanosecond of its
    time budget and three more, for the two names of an enumeration that are skipped, a
    slice returns a value or an error, unless the process dies: neither the scan of the
    directories, nor reading one of them, nor purging the stage of an expired session
    runs out of fuel, and nothing panics. *)
Theorem maintenance_slice_returns `{ML : MaintenanceLaws} `{!ClockLaws} `{!VisitTime} `{!MaintenanceTime} fuel s w :
  (MAINTENANCE_TIME_BUDGET + 2 < Z.of_nat fuel)%Z ->
  let o := (cleanup_stale_internal_files fuel s w).1.1 in TrashSafety.is_final o = true \/ o = Crashed.
Proof.
  intros Hf o. subst o. pose proof (slice_of_maintenance_ends fuel Hf s w) as Ho. pose proof (slice_upkept fuel s w) as Hp.
  destruct (cleanup_stale_internal_files fuel s w) as [[[] s'] w']; destruct Ho, Hp as (_ & ? & _); auto.
Qed.

(** ** A run *)

Import KernelMemory MutationMemory PurgeOwnership.

#[export] Instance memory_time :
  MaintenanceTime (H1 := memory_server) (H2 := memory_mutations) (H4 := memory_stages) (H5 := memory_maintenance).
Proof.
  split; try passes_memory.
  all: unfold stat_entry, stat_object, unlink_entry, read_entry; repeat case_match; cbn in *; lia.
Qed.

Lemma maintenance_slice_returns_witness :
  let fuel := Z.to_nat (MAINTENANCE_TIME_BUDGET + 3) in
  let o := (cleanup_stale_internal_files fuel resting upkeep).1.1 in TrashSafety.is_final o = true \/ o = Crashed.
Proof.
  intros fuel. apply (maintenance_slice_returns fuel resting upkeep). subst fuel.
  rewrite Z2Nat.id; unfold MAINTENANCE_TIME_BUDGET; lia.
Defined.
End MaintenanceReturns.
