(* ===== verification/Download.v ===== *)
(** * Downloads

    [src/server/download.rs] and the part of [src/server.rs] it uses: the answer to a
    [GET] or [HEAD] of a regular file (validators, preconditions, one byte range, the
    attachment's name) and the body that is read from the file chunk by chunk while
    the client takes it.

    The typed headers of the [headers] crate, [mime_guess] and the conversion of text
    to a header value are a parameter, the class [HeaderCodec]; opening the file, its
    metadata, [pread] and the deadline of a read are the class [DownloadEnv], beside
    the calls of [Kernel]. *)

From S2P Require Import Prelude Paths Utils RootedPaths UploadProtocol FileRevision Kernel.

Module Download.
Import RootedPaths Utils UploadProtocol.

(** ** The name of an attachment *)

(** [str::from_utf8], the table of well-formed byte sequences. *)
Definition between (a b : Z) (x : byte) : bool := ((a <=? byte_val x) && (byte_val x <=? b))%Z.
Fixpoint utf8_loop (fuel : nat) (l : bytes) : bool :=
  match fuel with
  | O => bool_decide (l = [])
  | S fuel =>
      match l with
      | [] => true
      | a :: l =>
          if between 0 127 a then utf8_loop fuel l
          else match l with
               | [] => false
               | b :: l =>
                   if between 194 223 a then between 128 191 b && utf8_loop fuel l
                   else match l with
                        | [] => false
                        | c :: l =>
                            if between 224 239 a then
                              between (if (byte_val a =? 224)%Z then 160 else 128)
                                (if (byte_val a =? 237)%Z then 159 else 191) b
                              && between 128 191 c && utf8_loop fuel l
                            else match l with
                                 | [] => false
                                 | d :: l =>
                                     between 240 244 a
                                     && between (if (byte_val a =? 240)%Z then 144 else 128)
                                          (if (byte_val a =? 244)%Z then 143 else 191) b
                                     && between 128 191 c && between 128 191 d && utf8_loop fuel l
                                 end
                        end
               end
      end
  end.
Definition os_str_to_str (l : bytes) : option bytes := if utf8_loop (length l) l then Some l else None.

(** [None] is the error [Failed to get file name]. *)
Definition try_get_file_name (path : bytes) : option bytes := file_name path ≫= os_str_to_str.

(** [char::is_control] holds of U+0000 to U+001F, U+007F and U+0080 to U+009F; the
    last are the byte c2 and one from 80 to 9f. *)
Fixpoint blank_controls (l : bytes) : bytes :=
  match l with
  | [] => []
  | a :: l =>
      if between 0 31 a || between 127 127 a then x20 :: blank_controls l
      else match l with
           | b :: l' =>
               if between 194 194 a && between 128 159 b then x20 :: blank_controls l'
               else a :: blank_controls l
           | [] => [a]
           end
  end.

Definition is_ascii_alphanumeric (b : byte) : bool := between 48 57 b || between 65 90 b || between 97 122 b.
Definition ATTR_MARKS : bytes := str "!#$&+-.^_`|~".
Definition is_attr_char (b : byte) : bool := is_ascii_alphanumeric b || bool_decide (b ∈ ATTR_MARKS).

(** [{byte:02X}] *)
Definition UPPER_DIGITS : bytes := str "0123456789ABCDEF".
Definition upper_digit (nibble : Z) : byte := default x00 (UPPER_DIGITS !! Z.to_nat nibble).
Definition PERCENT : byte := x25.

Definition encode_content_disposition_filename (filename : bytes) : bytes :=
  concat (map (fun b =>
    if is_attr_char b then [b]
    else [PERCENT; upper_digit (Z.shiftr (byte_val b) 4); upper_digit (Z.land (byte_val b) 15)]) filename).

Definition DISPOSITION : bytes := str "attachment; filename=" ++ [x22] ++ str "download" ++ [x22] ++ str "; filename*=UTF-8''".
Definition content_disposition (filename : bytes) : bytes :=
  DISPOSITION ++ encode_content_disposition_filename (blank_controls filename).

(** ** Responses *)

Definition CACHE_CONTROL : string := "cache-control".
Definition LAST_MODIFIED : string := "last-modified".
Definition ETAG : string := "etag".
Definition RANGE : string := "range".
Definition IF_RANGE : string := "if-range".
Definition CONTENT_TYPE : string := "content-type".
Definition CONTENT_DISPOSITION : string := "content-disposition".
Definition ACCEPT_RANGES : string := "accept-ranges".
Definition CONTENT_RANGE : string := "content-range".
Definition CONTENT_LENGTH : string := "content-length".

(** [HeaderMap::insert] replaces the values of a name; [contains_key] asks for one. *)
Definition insert_header (name : string) (value : bytes) (headers : HeaderMap) : HeaderMap :=
  filter (fun h => h.1 <> name) headers ++ [(name, value)].
Definition contains_key (headers : HeaderMap) (name : string) : bool :=
  negb (bool_decide (get_all headers name = [])).

Definition NOT_FOUND : Z := 404.
Definition PRECONDITION_FAILED : Z := 412.
Definition NOT_MODIFIED : Z := 304.
Definition PARTIAL_CONTENT : Z := 206.
Definition RANGE_NOT_SATISFIABLE : Z := 416.

Definition SystemTime : Type := Z * Z.

Section download.
Context `{Kernel}.

Record DownloadReadState : Type := { dr_file : OwnedFd; dr_offset : Z; dr_remaining : Z }.

Inductive Body : Type := NoBody | TextBody (text : bytes) | FileBody (state : DownloadReadState).

Record Response : Type := { rs_status : Z; rs_headers : HeaderMap; rs_body : Body }.
Definition default_response : Response := {| rs_status := 200; rs_headers := []; rs_body := NoBody |}.

Definition put_status (status : Z) : Sys Response unit :=
  modify (fun r => {| rs_status := status; rs_headers := rs_headers r; rs_body := rs_body r |}).
Definition put_header (name : string) (value : bytes) : Sys Response unit :=
  modify (fun r => {| rs_status := rs_status r; rs_headers := insert_header name value (rs_headers r);
                      rs_body := rs_body r |}).
Definition put_body (body : Body) : Sys Response unit :=
  modify (fun r => {| rs_status := rs_status r; rs_headers := rs_headers r; rs_body := body |}).

Definition status_not_found : Sys Response unit :=
  _ ← put_status NOT_FOUND; put_body (TextBody (str "Not Found")).

(** The headers crate's types, [typed_get] and the tests of its preconditions; how the
    typed values are printed; [mime_guess]; [HeaderValue::from_str]. *)
Class HeaderCodec : Type := {
  ETag : Type;
  parse_etag : bytes -> option ETag;
  etag_value : ETag -> bytes;
  last_modified_value : SystemTime -> bytes;
  cache_private_no_store : bytes;
  accept_ranges_bytes : bytes;
  (* [None]: the header is absent or malformed; otherwise, whether the precondition passes
     for the file's tag, or for its time as [LastModified] keeps it *)
  if_match : HeaderMap -> option (ETag -> bool);
  if_unmodified_since : HeaderMap -> option (SystemTime -> bool);
  if_none_match : HeaderMap -> option (ETag -> bool);
  if_modified_since : HeaderMap -> option (SystemTime -> bool);
  mime_type : bytes -> bytes;
  header_value_from_str : bytes -> option bytes }.

(** [File::metadata]: what [stat] says, and the time of creation where there is one. *)
Record Metadata : Type := { md_stat : Stat; md_created : option SystemTime }.

Class DownloadEnv : Type := {
  (* [openat2] below the root for reading, with [NONBLOCK] *)
  openat2_read : bytes -> OsWorld -> option (result Errno OwnedFd) * OsWorld;
  file_metadata : OwnedFd -> OsWorld -> option (result Errno Metadata) * OsWorld;
  (* [FileExt::read_at] into a buffer of the given size: the bytes read *)
  pread : OwnedFd -> Z -> Z -> OsWorld -> option (result Errno bytes) * OsWorld;
  (* whether [DOWNLOAD_READ_IDLE_TIMEOUT] passed before the read was done *)
  read_expired : OsWorld -> bool * OsWorld }.

Context `{!HeaderCodec} `{!DownloadEnv}.

(** [RootedFs::open_read] and [open_existing] *)
Definition open_read (path : bytes) : Sys Response OwnedFd :=
  gated (relative ← of_io (state_relative_path root_path path); io (openat2_read relative)).

(** ** Validators *)

Definition is_file (m : Metadata) : bool := bool_decide (from_raw_mode (st_mode (md_stat m)) = RegularFile).
Definition len (m : Metadata) : Z := (st_size (md_stat m) mod (U64_MAX + 1))%Z.

(** [Metadata::modified] refuses nanoseconds of a second or more. *)
Definition modified (m : Metadata) : option SystemTime :=
  let s := md_stat m in
  if ((0 <=? st_mtime_nsec s) && (st_mtime_nsec s <? 1000000000))%Z
  then Some (st_mtime s, st_mtime_nsec s) else None.

Definition le_bytes (z : Z) : bytes := reverse (be_bytes 8 z).

Definition validator_input (m : Metadata) : bytes :=
  let s := md_stat m in
  le_bytes (st_dev s) ++ le_bytes (st_ino s) ++ le_bytes (len m) ++ le_bytes (st_mtime s)
  ++ le_bytes (st_mtime_nsec s) ++ le_bytes (st_ctime s) ++ le_bytes (st_ctime_nsec s).

Definition extract_cache_headers (m : Metadata) : option (ETag * SystemTime) :=
  mtime ← match modified m with Some t => Some t | None => md_created m end;
  let validator := encode_hex (sha256 (validator_input m)) in
  etag ← parse_etag (str "W/" ++ [x22] ++ validator ++ [x22]);
  Some (etag, mtime).

Definition get_content_type (path : bytes) : bytes := mime_type path.

(** ** The answer *)

(** A value that must be legal as a header; the error is passed on. *)
Definition insert_value (name : string) (value : bytes) : Sys Response unit :=
  match header_value_from_str value with
  | Some value => put_header name value
  | None => throw OtherIo
  end.

Definition set_content_disposition (filename : bytes) : Sys Response unit :=
  insert_value CONTENT_DISPOSITION (content_disposition filename).

(** The first [Range] field decides whether ranges are ignored, before a second one
    is held against the request. *)
Definition requested_range (headers : HeaderMap) (size : Z) : option ParsedRange :=
  match get_all headers RANGE with
  | [] => None
  | range :: more =>
      let parsed := match to_str range with
                    | None => Unsatisfiable
                    | Some range => parse_range range size
                    end in
      Some match parsed, more with
           | Ignore, _ => Ignore
           | _, _ :: _ => Unsatisfiable
           | _, [] => parsed
           end
  end.

(** The status of a failed precondition, in the order the handler asks. *)
Definition failed_precondition (headers : HeaderMap) (etag : ETag) (last_modified : SystemTime) : option Z :=
  let refused :=
    match if_match headers with
    | Some passes => negb (passes etag)
    | None => match if_unmodified_since headers with
              | Some passes => negb (passes last_modified)
              | None => false
              end
    end in
  if refused then Some PRECONDITION_FAILED
  else
    let unchanged :=
      match if_none_match headers with
      | Some passes => negb (passes etag)
      | None => match if_modified_since headers with
                | Some is_modified => negb (is_modified last_modified)
                | None => false
                end
      end in
    if unchanged then Some NOT_MODIFIED else None.

Definition gated_file_body (file : OwnedFd) (offset remaining : Z) : Body :=
  FileBody {| dr_file := file; dr_offset := offset; dr_remaining := remaining |}.

(** From the content type to the body, once the range is known. *)
Definition send_representation (path : bytes) (file : OwnedFd) (size : Z) (range : option ParsedRange)
    (head_only : bool) : Sys Response unit :=
  _ ← insert_value CONTENT_TYPE (get_content_type path);
  match try_get_file_name path with
  | None => throw OtherIo
  | Some filename =>
      _ ← set_content_disposition filename;
      _ ← put_header ACCEPT_RANGES accept_ranges_bytes;
      match range with
      | Some (Satisfiable start last) =>
          let range_size := (last - start + 1)%Z in
          _ ← put_status PARTIAL_CONTENT;
          _ ← insert_value CONTENT_RANGE
                (str "bytes " ++ u64_to_string start ++ str "-" ++ u64_to_string last ++ str "/" ++ u64_to_string size);
          _ ← insert_value CONTENT_LENGTH (u64_to_string range_size);
          if head_only then mret tt else put_body (gated_file_body file start range_size)
      | Some Unsatisfiable =>
          _ ← put_status RANGE_NOT_SATISFIABLE;
          insert_value CONTENT_RANGE (str "bytes */" ++ u64_to_string size)
      | None | Some Ignore =>
          _ ← insert_value CONTENT_LENGTH (u64_to_string size);
          if head_only then mret tt else put_body (gated_file_body file 0 size)
      end
  end.

Definition send_open_file (path : bytes) (file : OwnedFd) (headers : HeaderMap) (head_only : bool)
    : Sys Response unit :=
  meta ← gated (io (file_metadata file));
  if negb (is_file meta) then status_not_found
  else
    let size := len meta in
    _ ← put_header CACHE_CONTROL cache_private_no_store;
    let send use_range :=
      send_representation path file size (if use_range : bool then requested_range headers size else None)
        head_only in
    match extract_cache_headers meta with
    | None => send (negb head_only)
    | Some (etag, last_modified) =>
        _ ← put_header LAST_MODIFIED (last_modified_value last_modified);
        _ ← put_header ETAG (etag_value etag);
        match failed_precondition headers etag last_modified with
        | Some status => put_status status
        | None => send (negb head_only && contains_key headers RANGE && negb (contains_key headers IF_RANGE))
        end
    end.

Definition handle_send_file (path : bytes) (headers : HeaderMap) (head_only : bool) : Sys Response unit :=
  opened ← attempt (open_read path);
  match opened : result IoError OwnedFd with
  | Ok file => send_open_file path file headers head_only
  | Err NotFound | Err NotADirectory => status_not_found
  | Err e => throw e
  end.

(** ** The body *)

Definition BUF_SIZE : Z := 65536.

(** One turn of [try_unfold]: the next chunk and the state after it; the bytes a read
    returns after its deadline are dropped. *)
Definition read_chunk (state : DownloadReadState) : Sys unit (bytes * DownloadReadState) :=
  buffer ← io (pread (dr_file state) (Z.min (dr_remaining state) BUF_SIZE) (dr_offset state));
  let read := Z.of_nat (length buffer) in
  if (read =? 0)%Z then throw UnexpectedEof
  else mret (buffer, {| dr_file := dr_file state;
                        dr_offset := u64_wrapping_add (dr_offset state) read;
                        dr_remaining := ((dr_remaining state - read) mod (U64_MAX + 1))%Z |}).

Definition next_chunk (state : DownloadReadState) : Sys unit (option (bytes * DownloadReadState)) :=
  if (dr_remaining state =? 0)%Z then mret None
  else
    answered ← attempt (gated (read_chunk state));
    expired ← ask read_expired;
    if expired : bool then throw TimedOut else Some <$> of_io answered.

(** The body, taken to its end with nobody else at work. *)
Fixpoint drain (fuel : nat) (state : DownloadReadState) : Sys unit (list bytes) :=
  match fuel with
  | O => out_of_fuel
  | S fuel =>
      next ← next_chunk state;
      match next with
      | None => mret []
      | Some (chunk, state) => chunks ← drain fuel state; mret (chunk :: chunks)
      end
  end.

(** How taking a body ends: complete, with an error, because the client stopped, or
    because the process died. *)
Inductive Ending : Type := Complete | Broken (e : IoError) | Abandoned | ProcessDied.

(** Taking a body while [others] change the world between two chunks. *)
Inductive streamed (others : OsWorld -> OsWorld -> Prop)
    : DownloadReadState -> OsWorld -> list bytes -> Ending -> OsWorld -> Prop :=
| streamed_abandoned s w : streamed others s w [] Abandoned w
| streamed_others s w w' chunks ending w'' :
    others w w' -> streamed others s w' chunks ending w'' -> streamed others s w chunks ending w''
| streamed_complete s w u w' :
    next_chunk s tt w = (Val None, u, w') -> streamed others s w [] Complete w'
| streamed_broken s w e u w' :
    next_chunk s tt w = (Fail e, u, w') -> streamed others s w [] (Broken e) w'
| streamed_died s w u w' :
    next_chunk s tt w = (Crashed, u, w') -> streamed others s w [] ProcessDied w'
| streamed_chunk s w chunk s' u w' chunks ending w'' :
    next_chunk s tt w = (Val (Some (chunk, s')), u, w') ->
    streamed others s' w' chunks ending w'' -> streamed others s w (chunk :: chunks) ending w''.
End download.
End Download.
