(* ===== verification/DownloadContract.v ===== *)
(** * What a download promises

    The laws of reading ([ReadLaws]) and what follows for the handler of [Download]:
    the body is framed by its [Content-Length] whatever others write meanwhile, and is
    the announced part of the file when nobody does; [HEAD] answers as [GET]; the name
    of the attachment cannot break out of its header. *)

From S2P Require Import Prelude Paths Utils RootedPaths UploadProtocol FileRevision Kernel KernelLaws KernelMemory Download.

Module DownloadContract.
Import RootedPaths Utils UploadProtocol Download.

(** The bytes of an open file. *)
Class ReadView `{Kernel} : Type := { contents : OwnedFd -> OsWorld -> bytes }.

(** A call that leaves every file as it is. *)
Definition leaves_files `{ReadView} {A} (op : OsWorld -> A * OsWorld) : Prop :=
  forall f w, contents f (op w).2 = contents f w.

Class ReadLaws `{ReadView} `{!HeaderCodec} `{!DownloadEnv} : Prop := {
  (* [pread] returns bytes of the file from the offset on, no more than asked for, and
     none only at the end of the file *)
  law_pread f n offset w l : (0 <= n)%Z -> (0 <= offset)%Z -> (pread f n offset w).1 = Some (Ok l) ->
    l = take (length l) (drop (Z.to_nat offset) (contents f w)) /\ (Z.of_nat (length l) <= n)%Z /\
    (l = [] -> n = 0%Z \/ (Z.of_nat (length (contents f w)) <= offset)%Z);
  law_pread_leaves f n offset : leaves_files (pread f n offset);
  law_gate_leaves : leaves_files gate_admits;
  law_expired_leaves : leaves_files read_expired;
  (* the size of a regular file is a number of bytes, within a signed word *)
  law_metadata f w m : (file_metadata f w).1 = Some (Ok m) -> is_file m = true ->
    st_size (md_stat m) = Z.of_nat (length (contents f (file_metadata f w).2)) /\
    (st_size (md_stat m) <= I64_MAX)%Z;
  (* a header value is the text it was made from; visible ASCII is legal *)
  law_header_value v v' : header_value_from_str v = Some v' -> v' = v;
  law_header_visible v : to_str v = Some v -> header_value_from_str v = Some v;
  (* an entity tag prints as the text it was parsed from *)
  law_etag t e : parse_etag t = Some e -> etag_value e = t }.

Section contract.
Context `{ReadLaws}.

(** ** One chunk *)

(** A body within the 64 bits of its offsets. *)
Definition framed (s : DownloadReadState) : Prop :=
  (0 <= dr_offset s)%Z /\ (0 <= dr_remaining s)%Z /\ (dr_offset s + dr_remaining s <= U64_MAX)%Z.

Lemma gated_leaves {S A} (m : Sys S A) s w o s' w' :
  gated m s w = (o, s', w') ->
  (o = Fail OtherIo /\ s' = s /\ forall f, contents f w' = contents f w) \/
  exists w0, (forall f, contents f w0 = contents f w) /\ m s w0 = (o, s', w').
Proof.
  unfold gated, mbind, Sys_bind, ask. pose proof (fun f => law_gate_leaves f w) as Hg.
  destruct (gate_admits w) as [[|] w0]; cbn in *; [by eauto|]. intros [= <- <- <-]. by left.
Qed.

(** The chunk [c] is the next part of the file, and [s'] is the body after it. *)
Definition chunk_of (s : DownloadReadState) (w : OsWorld) (c : bytes) (s' : DownloadReadState) : Prop :=
  c = take (length c) (drop (Z.to_nat (dr_offset s)) (contents (dr_file s) w)) /\
  (0 < Z.of_nat (length c) <= Z.min (dr_remaining s) BUF_SIZE)%Z /\
  s' = {| dr_file := dr_file s; dr_offset := (dr_offset s + Z.of_nat (length c))%Z;
          dr_remaining := (dr_remaining s - Z.of_nat (length c))%Z |}.

(** How a read may end; the file ends too early only if it does. *)
Definition read_post (s : DownloadReadState) (w : OsWorld) (o : outcome (bytes * DownloadReadState)) : Prop :=
  match o with
  | Val (c, s') => chunk_of s w c s'
  | Fail e => e = UnexpectedEof -> (Z.of_nat (length (contents (dr_file s) w)) <= dr_offset s)%Z
  | Crashed => True
  | Panicked | OutOfFuel => False
  end.

Lemma read_chunk_spec s w o u w' :
  framed s -> (0 < dr_remaining s)%Z -> read_chunk s tt w = (o, u, w') ->
  (forall f, contents f w' = contents f w) /\ read_post s w o.
Proof.
  intros (Ho & Hr & Hsum) Hpos. unfold read_chunk, io, call, mbind, Sys_bind.
  set (n := Z.min (dr_remaining s) BUF_SIZE).
  assert (Hn : (0 < n)%Z) by (unfold n, BUF_SIZE; lia).
  pose proof (law_pread (dr_file s) n (dr_offset s) w) as Hlaw.
  pose proof (fun f => law_pread_leaves (dr_file s) n (dr_offset s) f w) as Hleave.
  destruct (pread _ _ _ w) as [[[l|e]|] w1]; cbn in *.
  - destruct (Hlaw l) as (Hl & Hlen & Hempty); [lia..|done|].
    destruct (Z.eqb_spec (Z.of_nat (length l)) 0) as [Hz|Hz]; intros [= <- <- <-]; (split; [done|]).
    + intros _. destruct l; [|done]. destruct Hempty; [done|lia|done].
    + split; [done|]. split; [lia|]. unfold n in Hlen. unfold u64_wrapping_add, U64_MAX in *.
      by rewrite !Z.mod_small by lia.
  - intros [= <- <- <-]. split; [done|]. by destruct e.
  - by intros [= <- <- <-].
Qed.

Lemma gated_read_spec s w o u w' :
  framed s -> (0 < dr_remaining s)%Z -> gated (read_chunk s) tt w = (o, u, w') ->
  (forall f, contents f w' = contents f w) /\ read_post s w o.
Proof.
  intros Hf Hpos [(-> & _ & Hc)|(w0 & Hc & Hr)]%gated_leaves; [done|].
  destruct (read_chunk_spec _ _ _ _ _ Hf Hpos Hr) as [Hl Hp]. split; [by intros f; rewrite Hl|].
  unfold read_post, chunk_of in *. by rewrite Hc in Hp.
Qed.

Lemma next_chunk_spec s w o u w' :
  framed s -> next_chunk s tt w = (o, u, w') ->
  (forall f, contents f w' = contents f w) /\
  match o with
  | Val None => dr_remaining s = 0%Z
  | Val (Some (c, s')) => chunk_of s w c s'
  | Fail e => e = UnexpectedEof ->
      (0 < dr_remaining s)%Z /\ (Z.of_nat (length (contents (dr_file s) w)) <= dr_offset s)%Z
  | Crashed => True
  | Panicked | OutOfFuel => False
  end.
Proof.
  intros Hf. unfold next_chunk. destruct (Z.eqb_spec (dr_remaining s) 0) as [Hz|Hz]; [by intros [= <- <- <-]|].
  assert (Hpos : (0 < dr_remaining s)%Z) by (destruct Hf; lia).
  unfold attempt, mbind, Sys_bind. destruct (gated _ tt w) as [[o1 u1] w1] eqn:Hg.
  apply gated_read_spec in Hg as [Hl Hp]; [|done..].
  pose proof (fun f => law_expired_leaves f w1) as He.
  destruct o1 as [[c s']|e| | |]; try done; [..|by intros [= <- <- <-]];
    unfold ask; destruct (read_expired w1) as [[|] w2]; cbn in *; intros [= <- <- <-];
    (split; [by intros f; rewrite He|]); try done.
  cbn. intros ->. by split; [|apply Hp].
Qed.

(** The next state of a framed body is framed. *)
Lemma chunk_of_framed s w c s' : framed s -> chunk_of s w c s' -> framed s'.
Proof. intros (? & ? & ?) (_ & ? & ->). unfold framed. cbn. lia. Qed.

(** ** The whole body *)

Lemma streamed_framing others s w chunks ending w' :
  streamed others s w chunks ending w' -> framed s ->
  (Z.of_nat (length (concat chunks)) <= dr_remaining s)%Z /\
  (ending = Complete -> Z.of_nat (length (concat chunks)) = dr_remaining s) /\
  Forall (fun c => 0 < Z.of_nat (length c) <= BUF_SIZE)%Z chunks.
Proof.
  induction 1 as [s w|s w w1 chunks ending w2 Ho Hs IH|s w u w1 Hn|s w e u w1 Hn|s w u w1 Hn
                  |s w c s1 u w1 chunks ending w2 Hn Hs IH]; intros Hf.
  - by destruct Hf as (? & ? & ?).
  - by apply IH.
  - apply next_chunk_spec in Hn as [_ ->]; done.
  - by destruct Hf as (? & ? & ?).
  - by destruct Hf as (? & ? & ?).
  - apply next_chunk_spec in Hn as [_ Hc]; [|done]. pose proof (chunk_of_framed _ _ _ _ Hf Hc) as Hf1.
    destruct (IH Hf1) as (Hle & Hend & Hall), Hc as (_ & Hlen & ->). cbn in *. rewrite length_app.
    split_and!; [lia|intros E; specialize (Hend E); lia|constructor; [lia|done]].
Qed.

(** The parts of a file that follow each other. *)
Lemma take_drop_parts (l c rest : bytes) n :
  c = take (length c) (drop n l) -> rest = take (length rest) (drop (n + length c) l) ->
  c ++ rest = take (length (c ++ rest)) (drop n l).
Proof.
  intros Hc Hr. rewrite length_app, <- (take_drop (length c) (drop n l)) at 1.
  rewrite drop_drop. rewrite take_app_add'.
  - rewrite <- Hc. f_equal. exact Hr.
  - rewrite length_take. assert (length c <= length (drop n l)); [|lia].
    rewrite Hc at 1. rewrite length_take. lia.
Qed.

Lemma streamed_contents others s w chunks ending w' :
  streamed others s w chunks ending w' ->
  (forall v v', others v v' -> contents (dr_file s) v' = contents (dr_file s) v) -> framed s ->
  (dr_offset s + dr_remaining s <= Z.of_nat (length (contents (dr_file s) w)))%Z ->
  concat chunks = take (length (concat chunks)) (drop (Z.to_nat (dr_offset s)) (contents (dr_file s) w)) /\
  ending <> Broken UnexpectedEof.
Proof.
  induction 1 as [s w|s w w1 chunks ending w2 Ho Hs IH|s w u w1 Hn|s w e u w1 Hn|s w u w1 Hn
                  |s w c s1 u w1 chunks ending w2 Hn Hs IH]; intros Hstill Hf Hin; try done.
  - rewrite <- (Hstill _ _ Ho) in *. by apply IH.
  - split; [done|]. intros [= ->]. apply next_chunk_spec in Hn as [_ Hp]; [|done]. destruct Hp; [done|lia].
  - apply next_chunk_spec in Hn as [Hl Hc]; [|done]. pose proof (chunk_of_framed _ _ _ _ Hf Hc) as Hf1.
    destruct Hc as (Hc & Hlen & ->), Hf as (? & ? & ?). cbn in *.
    destruct IH as [Hrest Hend]; [done..|rewrite Hl; lia|]. split; [|done].
    rewrite Hl, Z2Nat.inj_add, Nat2Z.id in Hrest by lia. by apply take_drop_parts.
Qed.

(** Taking a body ends: every chunk carries at least one byte. *)
Lemma drain_returns fuel s w :
  framed s -> (dr_remaining s < Z.of_nat fuel)%Z ->
  match (drain fuel s tt w).1.1 with Panicked | OutOfFuel => False | _ => True end.
Proof.
  revert s w. induction fuel as [|fuel IH]; intros s w Hf Hfuel; [destruct Hf; lia|].
  cbn [drain]. unfold mbind, Sys_bind. destruct (next_chunk s tt w) as [[o u] w1] eqn:Hn.
  apply next_chunk_spec in Hn as [_ Hp]; [|done]. destruct o as [[[c s']|]|e| | |]; try done. destruct u.
  pose proof (chunk_of_framed _ _ _ _ Hf Hp) as Hf1.
  specialize (IH s' w1 Hf1). destruct Hp as (_ & Hlen & ->). cbn in IH.
  destruct (drain fuel _ tt w1) as [[[cs|e| | |] u] w2]; cbn in *; try done; apply IH; lia.
Qed.

(** ** Headers *)

Lemma get_all_insert name v h : get_all (insert_header name v h) name = [v].
Proof.
  unfold get_all, insert_header, HeaderMap in *. rewrite list.filter_app, fmap_app, filter_cons_True by done.
  rewrite list_filter_filter, (list_filter_iff _ (fun _ => False)) by (intros [n x]; naive_solver).
  by induction h.
Qed.

Lemma get_all_insert_ne name name' v h : name <> name' -> get_all (insert_header name v h) name' = get_all h name'.
Proof.
  intros Hne. unfold get_all, insert_header, HeaderMap in *. rewrite list.filter_app, fmap_app, filter_cons_False by done.
  rewrite filter_nil, app_nil_r, list_filter_filter_l; [done|]. intros [n x]. cbn. congruence.
Qed.

(** A response with one more header. *)
Definition with_header (name : string) (v : bytes) (r : Response) : Response :=
  {| rs_status := rs_status r; rs_headers := insert_header name v (rs_headers r); rs_body := rs_body r |}.

(** The run of a value that is legal as a header. *)
Lemma insert_value_Val name v r w r' w' :
  insert_value name v r w = (Val tt, r', w') -> r' = with_header name v r /\ w' = w.
Proof.
  unfold insert_value. destruct (header_value_from_str v) as [v'|] eqn:E; [|done]. intros [= <- <-].
  by apply law_header_value in E as ->.
Qed.

Lemma insert_value_bind {A} name v (k : unit -> Sys Response A) r w a r' w' :
  (insert_value name v ≫= k) r w = (Val a, r', w') -> k tt (with_header name v r) w = (Val a, r', w').
Proof.
  unfold mbind, Sys_bind. destruct (insert_value name v r w) as [[[[]|e| | |] r1] w1] eqn:E; try done.
  by apply insert_value_Val in E as [-> ->].
Qed.

(** ** The answer *)

Definition partial_range (start last size : Z) : bytes :=
  str "bytes " ++ u64_to_string start ++ str "-" ++ u64_to_string last ++ str "/" ++ u64_to_string size.

(** What [send_representation] makes of a response that has a status and validators. *)
Definition represented (path name : bytes) (file : OwnedFd) (size : Z) (range : option ParsedRange) (head_only : bool)
    (r : Response) : Response :=
  let headers := insert_header ACCEPT_RANGES accept_ranges_bytes
                   (insert_header CONTENT_DISPOSITION (content_disposition name)
                      (insert_header CONTENT_TYPE (get_content_type path) (rs_headers r))) in
  let body first count := if head_only then rs_body r else gated_file_body file first count in
  match range with
  | Some (Satisfiable a b) =>
      {| rs_status := PARTIAL_CONTENT;
         rs_headers := insert_header CONTENT_LENGTH (u64_to_string (b - a + 1))
                         (insert_header CONTENT_RANGE (partial_range a b size) headers);
         rs_body := body a (b - a + 1)%Z |}
  | Some Unsatisfiable =>
      {| rs_status := RANGE_NOT_SATISFIABLE;
         rs_headers := insert_header CONTENT_RANGE (str "bytes */" ++ u64_to_string size) headers;
         rs_body := rs_body r |}
  | None | Some Ignore =>
      {| rs_status := rs_status r; rs_headers := insert_header CONTENT_LENGTH (u64_to_string size) headers;
         rs_body := body 0%Z size |}
  end.

Lemma send_representation_Val path file size range head_only r w r' w' :
  send_representation path file size range head_only r w = (Val tt, r', w') ->
  w' = w /\ exists name, try_get_file_name path = Some name /\
                         r' = represented path name file size range head_only r.
Proof.
  unfold send_representation, set_content_disposition. intros E%insert_value_bind. revert E.
  destruct (try_get_file_name path) as [name|]; [|done]. intros E%insert_value_bind. revert E.
  unfold mbind at 1, Sys_bind at 1. cbn [put_header modify]. destruct range as [[|a b|]|].
  - intros E%insert_value_bind. revert E. destruct head_only; intros [= <- <-]; eauto.
  - unfold mbind at 1, Sys_bind at 1. cbn [put_status modify].
    intros E%insert_value_bind%insert_value_bind. revert E. destruct head_only; intros [= <- <-]; eauto.
  - unfold mbind at 1, Sys_bind at 1. cbn [put_status modify]. intros [-> ->]%insert_value_Val. eauto.
  - intros E%insert_value_bind. revert E. destruct head_only; intros [= <- <-]; eauto.
Qed.

(** The response once the file is known: cache policy and validators. *)
Definition validated (m : Metadata) : Response :=
  let cached := with_header CACHE_CONTROL cache_private_no_store default_response in
  match extract_cache_headers m with
  | None => cached
  | Some (etag, t) => with_header ETAG (etag_value etag) (with_header LAST_MODIFIED (last_modified_value t) cached)
  end.

(** The range that is served: none for [HEAD], and none under [If-Range] when the
    file has validators. *)
Definition chosen_range (headers : HeaderMap) (head_only : bool) (m : Metadata) : option ParsedRange :=
  if negb head_only && negb (contains_key headers IF_RANGE && bool_decide (is_Some (extract_cache_headers m)))
  then requested_range headers (len m) else None.

Lemma requested_range_absent headers size : contains_key headers RANGE = false -> requested_range headers size = None.
Proof.
  unfold contains_key, requested_range. by destruct (get_all headers RANGE).
Qed.

Definition not_found_response : Response :=
  {| rs_status := NOT_FOUND; rs_headers := []; rs_body := TextBody (str "Not Found") |}.

(** Every answer of the handler. *)
Inductive answer (path : bytes) (headers : HeaderMap) (head_only : bool) (w : OsWorld) : Response -> Prop :=
| answer_not_found : answer path headers head_only w not_found_response
| answer_condition m etag t status :
    is_file m = true -> extract_cache_headers m = Some (etag, t) ->
    failed_precondition headers etag t = Some status ->
    answer path headers head_only w
      {| rs_status := status; rs_headers := rs_headers (validated m); rs_body := NoBody |}
| answer_representation m file name :
    is_file m = true -> st_size (md_stat m) = Z.of_nat (length (contents file w)) ->
    (st_size (md_stat m) <= I64_MAX)%Z ->
    (forall etag t, extract_cache_headers m = Some (etag, t) -> failed_precondition headers etag t = None) ->
    try_get_file_name path = Some name ->
    answer path headers head_only w
      (represented path name file (len m) (chosen_range headers head_only m) head_only (validated m)).

Lemma send_open_file_answers path file headers head_only w r w' :
  send_open_file path file headers head_only default_response w = (Val tt, r, w') ->
  answer path headers head_only w' r.
Proof.
  unfold send_open_file. unfold mbind at 1, Sys_bind at 1.
  destruct (gated _ _ w) as [[o r1] w1] eqn:Hg. destruct o as [m|e| | |]; try done.
  apply gated_leaves in Hg as [(? & _)|(w0 & _ & Hg)]; [done|]. revert Hg. unfold io, call, mbind at 1, Sys_bind at 1.
  pose proof (law_metadata file w0 m) as Hlaw.
  destruct (file_metadata file w0) as [[[m'|e]|] w2]; cbn in *; [|done..]. intros [= -> <- <-].
  destruct (is_file m) eqn:Hfile; cbn; [|intros [= <- <-]; constructor].
  destruct Hlaw as [Hsize Hmax]; [done..|].
  unfold mbind at 1, Sys_bind at 1. cbn [put_header modify].
  destruct (extract_cache_headers m) as [[etag t]|] eqn:Hx.
  - unfold mbind, Sys_bind. cbn [put_header modify].
    destruct (failed_precondition headers etag t) as [status|] eqn:Hp.
    + intros [= <- <-]. pose proof (answer_condition path headers head_only w2 m etag t status Hfile Hx Hp) as Ha.
      unfold validated in Ha. by rewrite Hx in Ha.
    + intros [-> (name & Hname & ->)]%send_representation_Val.
      pose proof (answer_representation path headers head_only w2 m file name Hfile Hsize Hmax) as Ha.
      unfold chosen_range, validated in Ha. rewrite Hx in Ha. rewrite bool_decide_true, andb_true_r in Ha by done.
      replace (if _ && _ && _ then _ else _) with
        (if negb head_only && negb (contains_key headers IF_RANGE) then requested_range headers (len m) else None).
      * apply Ha; [|done]. by intros ? ? [= <- <-].
      * destruct (contains_key headers RANGE) eqn:Hr; [by rewrite andb_true_r|].
        rewrite andb_false_r, (requested_range_absent _ _ Hr). cbn. by destruct (_ && _).
  - intros [-> (name & Hname & ->)]%send_representation_Val.
    pose proof (answer_representation path headers head_only w2 m file name Hfile Hsize Hmax) as Ha.
    unfold chosen_range, validated in Ha. rewrite Hx in Ha.
    rewrite (bool_decide_false (is_Some None)), !andb_false_r, andb_true_r in Ha by (by intros []).
    by apply Ha.
Qed.

Lemma open_read_keeps path r w o r' w' : open_read path r w = (o, r', w') -> r' = r.
Proof.
  unfold open_read, gated, ask, io, call, of_io, mbind, Sys_bind.
  destruct (gate_admits w) as [[|] w0]; [|by intros [= <- <- <-]].
  destruct (state_relative_path root_path path) as [rel|e]; [|by intros [= <- <- <-]]. cbn.
  destruct (openat2_read rel w0) as [[[f|e]|] w2]; by intros [= <- <- <-].
Qed.

Lemma handle_send_file_answers path headers head_only w r w' :
  handle_send_file path headers head_only default_response w = (Val tt, r, w') ->
  answer path headers head_only w' r.
Proof.
  unfold handle_send_file. unfold mbind, Sys_bind at 1. unfold attempt.
  destruct (open_read path default_response w) as [[o r1] w1] eqn:Ho.
  apply open_read_keeps in Ho as ->.
  destruct o as [f|e| | |]; try done; [apply send_open_file_answers|].
  destruct e; try done; intros [= <- <-]; constructor.
Qed.

Lemma requested_range_bounds headers size a b :
  (0 <= size)%Z -> requested_range headers size = Some (Satisfiable a b) -> (0 <= a <= b)%Z /\ (b < size)%Z.
Proof.
  unfold requested_range. intros Hs. destruct (get_all headers RANGE) as [|v more]; [done|].
  destruct (to_str v) as [text|]; [|by destruct more].
  destruct (parse_range text size) as [|x y|] eqn:E; destruct more; try done.
  intros [= -> ->]. by apply parse_range_bounds in E.
Qed.

Lemma chosen_range_bounds headers head_only m a b :
  (0 <= len m)%Z -> chosen_range headers head_only m = Some (Satisfiable a b) -> (0 <= a <= b)%Z /\ (b < len m)%Z.
Proof. unfold chosen_range. intros Hs. destruct (_ && _); [by apply requested_range_bounds|done]. Qed.

(** The part [count] bytes long from [first] on of a file of [size] bytes is announced. *)
Definition announces (r : Response) (size first count : Z) : Prop :=
  get_all (rs_headers r) CONTENT_LENGTH = [u64_to_string count] /\
  (rs_status r = 200%Z /\ first = 0%Z /\ count = size /\ get_all (rs_headers r) CONTENT_RANGE = [] \/
   rs_status r = PARTIAL_CONTENT /\ (0 < count)%Z /\
   get_all (rs_headers r) CONTENT_RANGE = [partial_range first (first + count - 1) size]).

Lemma validated_plain m :
  rs_status (validated m) = 200%Z /\ rs_body (validated m) = NoBody /\
  get_all (rs_headers (validated m)) CONTENT_RANGE = [].
Proof.
  unfold validated. destruct (extract_cache_headers m) as [[etag t]|]; cbn [with_header rs_status rs_body rs_headers];
    rewrite ?get_all_insert_ne by done; done.
Qed.

(** The state of a body is what its response announces. *)
Lemma answer_announces path headers head_only w r s :
  answer path headers head_only w r -> rs_body r = FileBody s ->
  let size := Z.of_nat (length (contents (dr_file s) w)) in
  announces r size (dr_offset s) (dr_remaining s) /\ framed s /\ (dr_offset s + dr_remaining s <= size)%Z.
Proof.
  destruct 1 as [|m etag t status|m file name Hfile Hsize Hmax Hp Hname]; [done..|].
  assert (Hlen : len m = Z.of_nat (length (contents file w))).
  { unfold len. rewrite Hsize in *. rewrite Z.mod_small; [done|]. unfold U64_MAX, I64_MAX in *. lia. }
  destruct (validated_plain m) as (Hst & Hb & Hcr).
  destruct (chosen_range headers head_only m) as [[|a b|]|] eqn:Hr; cbn [represented rs_body]; rewrite ?Hb;
    try done; destruct head_only; try done; intros [= <-]; cbn [dr_file dr_offset dr_remaining].
  2: apply chosen_range_bounds in Hr as [Hab Hbs]; [|lia].
  all: unfold announces, framed, U64_MAX, I64_MAX in *; cbn [represented rs_status rs_headers dr_file dr_offset dr_remaining];
    rewrite get_all_insert, ?get_all_insert_ne by done; rewrite ?Hst, ?Hcr, <- ?Hlen.
  - split_and!; [done|by left|lia..].
  - split_and!; [done| |lia..]. right. rewrite get_all_insert. split_and!; [done|lia|].
    do 2 f_equal. unfold partial_range. do 4 f_equal. lia.
  - split_and!; [done|by left|lia..].
Qed.

(** C25. A download is exact.  Whatever happens to the file meanwhile, the body never
    carries more bytes than the [Content-Length] of its response, and exactly that many
    if it is complete; it ends after at most that many chunks, none of them empty or
    larger than the buffer.  The response announces the whole file, or with status 206
    and a [Content-Range] a part of it that lies within the file.  If nobody writes
    to the file, what was sent is the announced part from its first byte on, and the
    body does not fail because the file ended.  Taken without pause, the body ends
    within one turn more than it has bytes. *)
Theorem download_body_exact others path headers head_only w r w1 s chunks ending w2 :
  handle_send_file path headers head_only default_response w = (Val tt, r, w1) ->
  rs_body r = FileBody s -> streamed others s w1 chunks ending w2 ->
  let file := contents (dr_file s) w1 in
  let first := dr_offset s in
  let count := dr_remaining s in
  let sent := concat chunks in
  announces r (Z.of_nat (length file)) first count /\ (0 <= first)%Z /\ (first + count <= Z.of_nat (length file))%Z /\
  (Z.of_nat (length sent) <= count)%Z /\ (ending = Complete -> Z.of_nat (length sent) = count) /\
  (Z.of_nat (length chunks) <= count)%Z /\ Forall (fun c => 0 < Z.of_nat (length c) <= BUF_SIZE)%Z chunks /\
  ((forall v v', others v v' -> contents (dr_file s) v' = contents (dr_file s) v) ->
   sent = take (length sent) (drop (Z.to_nat first) file) /\ ending <> Broken UnexpectedEof) /\
  match (drain (S (Z.to_nat count)) s tt w1).1.1 with Panicked | OutOfFuel => False | _ => True end.
Proof.
  intros Hrun Hb Hs. apply handle_send_file_answers in Hrun.
  destruct (answer_announces _ _ _ _ _ _ Hrun Hb) as (Ha & Hf & Hin).
  destruct (streamed_framing _ _ _ _ _ _ Hs Hf) as (Hle & Hend & Hall).
  split_and!; [done|by destruct Hf|done..| |done| |].
  - assert (length chunks <= length (concat chunks)); [|lia]. clear -Hall.
    induction Hall as [|c l Hc _ IH]; [done|]. cbn. rewrite length_app. lia.
  - intros Hstill. by apply (streamed_contents _ _ _ _ _ _ Hs).
  - apply drain_returns; [done|]. destruct Hf as (? & ? & ?). lia.
Qed.

(** ** [HEAD] and [GET] *)

(** Two runs that differ at most in the bytes of the file: where the second sends them,
    the first has an empty body; the text of a refusal is the same. *)
Definition same_head (x y : outcome unit * Response * OsWorld) : Prop :=
  x.1.1 = y.1.1 /\ x.2 = y.2 /\ rs_status x.1.2 = rs_status y.1.2 /\ rs_headers x.1.2 = rs_headers y.1.2 /\
  rs_body x.1.2 = match rs_body y.1.2 with FileBody _ => NoBody | body => body end.

Lemma same_head_refl x : (forall s, rs_body x.1.2 <> FileBody s) -> same_head x x.
Proof. intros Hx. split_and!; try done. destruct (rs_body x.1.2) as [| |s] eqn:E; try done. by destruct (Hx s). Qed.

Lemma insert_value_run {A} name v (k : unit -> Sys Response A) r w :
  (insert_value name v ≫= k) r w =
  match header_value_from_str v with
  | Some v => k tt (with_header name v r) w
  | None => (Fail OtherIo, r, w)
  end.
Proof. unfold mbind, Sys_bind, insert_value. by destruct (header_value_from_str v). Qed.

Lemma send_representation_head path file size r w :
  rs_body r = NoBody ->
  same_head (send_representation path file size None true r w) (send_representation path file size None false r w).
Proof.
  intros Hb. unfold send_representation. rewrite !insert_value_run.
  destruct (header_value_from_str (get_content_type path)) as [ct|]; [|by apply same_head_refl; intros s; cbn; rewrite Hb].
  destruct (try_get_file_name path) as [name|]; [|by apply same_head_refl; intros s; cbn; rewrite Hb].
  unfold set_content_disposition. rewrite !insert_value_run.
  destruct (header_value_from_str (content_disposition name)) as [cd|];
    [|by apply same_head_refl; intros s; cbn; rewrite Hb].
  unfold mbind at 1 3, Sys_bind at 1 3. cbn [put_header modify]. rewrite !insert_value_run.
  destruct (header_value_from_str (u64_to_string size)) as [cl|];
    [|by apply same_head_refl; intros s; cbn; rewrite Hb].
  by split_and!.
Qed.

Section head.
Context (path : bytes) (headers headers' : HeaderMap).
Hypothesis no_range : contains_key headers' RANGE = false.
Hypothesis same_conditions : forall etag t, failed_precondition headers etag t = failed_precondition headers' etag t.

Lemma send_open_file_head file w :
  same_head (send_open_file path file headers true default_response w)
            (send_open_file path file headers' false default_response w).
Proof.
  unfold send_open_file. unfold mbind at 1 5, Sys_bind at 1 5.
  destruct (gated _ _ w) as [[o r1] w1] eqn:Hg.
  assert (rs_body r1 = NoBody) as Hb.
  { revert Hg. unfold gated, ask, io, call, mbind, Sys_bind.
    destruct (gate_admits w) as [[|] w0]; [|by intros [= <- <- <-]].
    destruct (file_metadata file w0) as [[[m|e]|] w2]; by intros [= <- <- <-]. }
  destruct o as [m|e| | |]; try by apply same_head_refl; intros s; cbn; rewrite Hb.
  destruct (is_file m); [|by apply same_head_refl]. cbn [negb].
  rewrite (requested_range_absent _ _ no_range), no_range. cbn [andb]. unfold mbind, Sys_bind. cbn [put_header modify].
  destruct (extract_cache_headers m) as [[etag t]|]; [|by apply send_representation_head].
  rewrite same_conditions. destruct (failed_precondition headers' etag t) as [status|].
  - apply same_head_refl. intros s. cbn. by rewrite Hb.
  - by apply send_representation_head.
Qed.
End head.

(** C26. [HEAD] answers as [GET]: if its preconditions are those of the [GET], a [HEAD],
    whether or not it asks for a range, has the outcome, the status and the headers,
    [Content-Length] included, of the [GET] without a range; its body is empty where
    the [GET] sends the file, and the same short text where the [GET] is refused with
    one. *)
Theorem head_answers_as_get path headers headers' w :
  contains_key headers' RANGE = false ->
  (forall etag t, failed_precondition headers etag t = failed_precondition headers' etag t) ->
  same_head (handle_send_file path headers true default_response w)
            (handle_send_file path headers' false default_response w).
Proof.
  intros Hn Hc. unfold handle_send_file, mbind, Sys_bind, attempt.
  destruct (open_read path default_response w) as [[o r1] w1] eqn:Ho.
  apply open_read_keeps in Ho as ->.
  destruct o as [f|e| | |]; try done; [by apply send_open_file_head|]. by destruct e; apply same_head_refl.
Qed.

(** ** The name of the attachment *)

(** The decoding of an extended parameter's value. *)
Fixpoint percent_decode (l : bytes) : option bytes :=
  match l with
  | [] => Some []
  | a :: l =>
      if bool_decide (a = PERCENT) then
        match l with
        | h :: k :: l => high ← hex_nibble h; low ← hex_nibble k;
                         rest ← percent_decode l; Some (byte_of (high * 16 + low) :: rest)
        | _ => None
        end
      else rest ← percent_decode l; Some (a :: rest)
  end.

Fixpoint control_free (l : bytes) : bool :=
  match l with
  | [] => true
  | a :: l => negb (between 0 31 a || between 127 127 a)
              && negb (between 194 194 a && match l with b :: _ => between 128 159 b | [] => false end)
              && control_free l
  end.

Lemma control_free_head a l :
  control_free (a :: l) = negb (between 0 31 a || between 127 127 a)
    && negb (between 194 194 a && match l with b :: _ => between 128 159 b | [] => false end) && control_free l.
Proof. done. Qed.

(** Blanking keeps the first byte, or puts a space. *)
Lemma blank_controls_head l : exists b, head (blank_controls l) = b /\ (b = head l \/ b = Some x20).
Proof.
  destruct l as [|a [|b l]]; cbn; [by eauto|..].
  - destruct (_ || _); eauto.
  - destruct (_ || _); [by eauto|]. destruct (_ && _); eauto.
Qed.

Lemma blank_controls_free l : control_free (blank_controls l) = true.
Proof.
  revert l. apply (well_founded_ind (well_founded_ltof _ (@length byte))). intros l IH. unfold ltof in IH.
  destruct l as [|a l]; [done|]. cbn [blank_controls].
  destruct (between 0 31 a || between 127 127 a) eqn:Hc; [by rewrite control_free_head, IH by (cbn; lia)|].
  destruct l as [|b l]; [by rewrite control_free_head, Hc, andb_false_r|].
  destruct (between 194 194 a && between 128 159 b) eqn:Hp; [by rewrite control_free_head, IH by (cbn; lia)|].
  rewrite control_free_head, Hc, IH by (cbn; lia). rewrite andb_true_r. cbn [negb andb].
  destruct (blank_controls_head (b :: l)) as (h & Hh & [->| ->]); destruct (blank_controls (b :: l)) as [|x y];
    cbn in Hh; try done.
  - injection Hh as ->. by rewrite Hp.
  - injection Hh as ->. by rewrite andb_false_r.
Qed.

Lemma blank_controls_id l : control_free l = true -> blank_controls l = l.
Proof.
  induction l as [|a l IH]; [done|]. rewrite control_free_head. intros [[Ha Hp]%andb_true_iff Hl]%andb_true_iff.
  cbn [blank_controls]. apply negb_true_iff in Ha, Hp. rewrite Ha. specialize (IH Hl).
  destruct l as [|b l]; [done|]. by rewrite Hp, IH.
Qed.

Lemma attr_or_percent b :
  Forall (fun x => is_attr_char x || bool_decide (x = PERCENT) = true)
    (if is_attr_char b then [b]
     else [PERCENT; upper_digit (Z.shiftr (byte_val b) 4); upper_digit (Z.land (byte_val b) 15)]).
Proof. apply forallb_Forall. by destruct b. Qed.

Lemma percent_decode_byte b rest :
  percent_decode ((if is_attr_char b then [b]
     else [PERCENT; upper_digit (Z.shiftr (byte_val b) 4); upper_digit (Z.land (byte_val b) 15)]) ++ rest) =
  (l ← percent_decode rest; Some (b :: l)).
Proof. by destruct b. Qed.

Lemma attr_visible b : is_attr_char b || bool_decide (b = PERCENT) = true ->
  ((32 <=? byte_val b) && (byte_val b <? 127) || (byte_val b =? 9))%Z = true.
Proof. by destruct b. Qed.

Lemma encode_filename_attr l :
  Forall (fun x => is_attr_char x || bool_decide (x = PERCENT) = true) (encode_content_disposition_filename l).
Proof.
  induction l as [|b l IH]; [constructor|]. apply Forall_app. split; [apply attr_or_percent|exact IH].
Qed.

Lemma percent_decode_encode l : percent_decode (encode_content_disposition_filename l) = Some l.
Proof.
  induction l as [|b l IH]; [done|]. unfold encode_content_disposition_filename in *. cbn [map concat].
  by rewrite percent_decode_byte, IH.
Qed.

Lemma to_str_visible v :
  Forall (fun b => ((32 <=? byte_val b) && (byte_val b <? 127) || (byte_val b =? 9))%Z = true) v -> to_str v = Some v.
Proof. intros Hv. unfold to_str. by rewrite (proj2 (forallb_Forall _ _) Hv). Qed.

(** The value of an extended parameter (RFC 5987, section 3.2.1): letters, digits, twelve
    marks, and escapes of two upper-case digits. *)
Inductive value_chars : bytes -> Prop :=
| vc_nil : value_chars []
| vc_attr b l :
    between 48 57 b || between 65 90 b || between 97 122 b
    || bool_decide (b ∈ [x21; x23; x24; x26; x2b; x2d; x2e; x5e; x5f; x60; x7c; x7e]) = true ->
    value_chars l -> value_chars (b :: l)
| vc_escape h k l :
    between 48 57 h || between 65 70 h = true -> between 48 57 k || between 65 70 k = true ->
    value_chars l -> value_chars (x25 :: h :: k :: l).

(** What would end the value or the header: quotes, the separators of the grammar,
    blanks, and control characters. *)
Definition breaks_header (b : byte) : bool :=
  between 0 32 b || between 127 255 b || bool_decide (b ∈ str "()<>@,;:\/[]?={}*'" ++ [x22]).

Lemma encode_value_chars l : value_chars (encode_content_disposition_filename l).
Proof.
  induction l as [|b l IH]; [constructor|].
  destruct b; first [apply vc_attr; [reflexivity|exact IH]|apply vc_escape; [reflexivity|reflexivity|exact IH]].
Qed.

Lemma value_chars_safe l : value_chars l -> Forall (fun b => breaks_header b = false) l.
Proof.
  assert (forall b, between 48 57 b || between 65 70 b = true -> breaks_header b = false) as Hd
    by (intros b; by destruct b).
  induction 1 as [|b l Hb _ IH|h k l Hh Hk _ IH]; repeat constructor; auto. by destruct b.
Qed.

(** C27. The name of an attachment stays in its header, whatever the file is called: the
    encoded name is a value of the grammar of extended parameters, so that no byte of it
    is a quote, a separator, a blank or a control character, and setting the header
    cannot fail; decoded, it is the file's name with its control characters blanked, and
    the name itself if it has none. *)
Theorem attachment_name_safe filename r w :
  let name := encode_content_disposition_filename (blank_controls filename) in
  content_disposition filename = DISPOSITION ++ name /\
  value_chars name /\ Forall (fun b => breaks_header b = false) name /\
  set_content_disposition filename r w =
    (Val tt, with_header CONTENT_DISPOSITION (content_disposition filename) r, w) /\
  percent_decode name = Some (blank_controls filename) /\ control_free (blank_controls filename) = true /\
  (control_free filename = true -> percent_decode name = Some filename).
Proof.
  cbv zeta. rewrite percent_decode_encode. split_and!;
    [done|apply encode_value_chars|apply value_chars_safe, encode_value_chars| |done|apply blank_controls_free|].
  - unfold set_content_disposition, insert_value.
    rewrite law_header_visible; [done|]. apply to_str_visible, Forall_app. split; [by repeat constructor|].
    eapply Forall_impl; [apply encode_filename_attr|]. apply attr_visible.
  - intros Hf. by rewrite blank_controls_id.
Qed.

(** ** Validators *)

(** The words of a [stat] have their widths. *)
Definition stat_words (s : Stat) : Prop :=
  is_u64 (st_dev s) /\ is_u64 (st_ino s) /\ is_i64 (st_mtime s) /\ is_i64 (st_mtime_nsec s) /\
  is_i64 (st_ctime s) /\ is_i64 (st_ctime_nsec s).

Lemma le_bytes_app_inj a b (l k : bytes) :
  le_bytes a ++ l = le_bytes b ++ k -> be_bytes 8 a = be_bytes 8 b /\ l = k.
Proof.
  unfold le_bytes. intros E. apply app_inj_1 in E as [E ->]; [|by rewrite !length_reverse, !length_be_bytes].
  by apply (inj reverse) in E.
Qed.

Lemma be_bytes_u64 a b : is_u64 a -> is_u64 b -> be_bytes 8 a = be_bytes 8 b -> a = b.
Proof. apply u64_be_inj. Qed.

Lemma len_is_u64 m : is_u64 (len m).
Proof. unfold is_u64, len. pose proof (Z.mod_pos_bound (st_size (md_stat m)) (U64_MAX + 1) eq_refl). lia. Qed.

Lemma encode_hex_inj a b : encode_hex a = encode_hex b -> a = b.
Proof.
  intros E. assert (length a = length b) as Hl.
  { apply (f_equal length) in E. rewrite !length_encode_hex in E. lia. }
  pose proof (decode_encode_hex a) as Ha. rewrite E, Hl, decode_encode_hex in Ha. by injection Ha.
Qed.

Lemma validator_input_inj m m' :
  stat_words (md_stat m) -> stat_words (md_stat m') -> validator_input m = validator_input m' ->
  let s := md_stat m in let s' := md_stat m' in
  st_dev s = st_dev s' /\ st_ino s = st_ino s' /\ len m = len m' /\
  st_mtime s = st_mtime s' /\ st_mtime_nsec s = st_mtime_nsec s' /\
  st_ctime s = st_ctime s' /\ st_ctime_nsec s = st_ctime_nsec s'.
Proof.
  intros (? & ? & ? & ? & ? & ?) (? & ? & ? & ? & ? & ?). unfold validator_input.
  intros (E1 & (E2 & (E3 & (E4 & (E5 & (E6 & E7)%le_bytes_app_inj)%le_bytes_app_inj)%le_bytes_app_inj)%le_bytes_app_inj)%le_bytes_app_inj)%le_bytes_app_inj.
  unfold le_bytes in E7. apply (inj reverse) in E7. pose proof (len_is_u64 m). pose proof (len_is_u64 m').
  split_and!; first [by apply be_bytes_u64|by apply be_bytes_i64].
Qed.

(** The entity tag identifies the version of a file: two files with the same tag
    are, if the digest does not collide on them, the same inode of the same device, of
    the same length, with the same times of modification and change to the nanosecond. *)
Lemma etag_identifies m m' etag t t' :
  stat_words (md_stat m) -> stat_words (md_stat m') ->
  extract_cache_headers m = Some (etag, t) -> extract_cache_headers m' = Some (etag, t') ->
  (sha256 (validator_input m) = sha256 (validator_input m') -> validator_input m = validator_input m') ->
  let s := md_stat m in let s' := md_stat m' in
  st_dev s = st_dev s' /\ st_ino s = st_ino s' /\ len m = len m' /\
  st_mtime s = st_mtime s' /\ st_mtime_nsec s = st_mtime_nsec s' /\
  st_ctime s = st_ctime s' /\ st_ctime_nsec s = st_ctime_nsec s'.
Proof.
  unfold extract_cache_headers. intros Hw Hw' (? & _ & (e & He & [= -> _])%bind_Some)%bind_Some
    (? & _ & (e' & He' & [= -> _])%bind_Some)%bind_Some Hsha.
  apply validator_input_inj; [done..|]. apply Hsha. apply law_etag in He, He'. rewrite He in He'.
  apply (inj (app _)), (inj (app _)) in He'. apply app_inj_2 in He' as [He' _]; [|done].
  by apply encode_hex_inj.
Qed.
End contract.

(** ** A file in memory *)

(** One file of ten bytes, number 9, of which a read returns three bytes at most. *)
Definition file_bytes (i : Z) : bytes := if (i =? 9)%Z then str "0123456789" else [].

Definition data_stat (i : Z) : Stat :=
  {| st_dev := 7; st_ino := i; st_mode := 33188; st_nlink := 1; st_size := Z.of_nat (length (file_bytes i)); st_uid := 0;
     st_gid := 0; st_mtime := 5; st_mtime_nsec := 0; st_ctime := 5; st_ctime_nsec := 0 |}.
Definition data_metadata (i : Z) : Metadata := {| md_stat := data_stat i; md_created := None |}.

#[export] Instance memory_codec : HeaderCodec := {|
  ETag := bytes;
  parse_etag := Some;
  etag_value e := e;
  last_modified_value t := u64_to_string t.1;
  cache_private_no_store := str "private, no-store";
  accept_ranges_bytes := str "bytes";
  if_match h := match get_all h "if-match" with [] => None | l => Some (fun e => bool_decide (e ∈ l)) end;
  if_unmodified_since h := None;
  if_none_match h := match get_all h "if-none-match" with [] => None | l => Some (fun e => negb (bool_decide (e ∈ l))) end;
  if_modified_since h := None;
  mime_type _ := str "application/octet-stream";
  header_value_from_str := to_str |}.

#[export] Instance memory_downloads : DownloadEnv (H := KernelMemory.memory_kernel) := {|
  openat2_read p m := (Some (if bool_decide (p = str "data") then Ok 9%Z else Err NOENT), m);
  file_metadata i m := (Some (Ok (data_metadata i)), m);
  pread i n offset m := (Some (Ok (take (Nat.min 3 (Z.to_nat n)) (drop (Z.to_nat offset) (file_bytes i)))), m);
  read_expired m := (false, m) |}.

#[export] Instance memory_reading : ReadView (H := KernelMemory.memory_kernel) := {| contents i _ := file_bytes i |}.

#[export] Instance memory_read_laws : ReadLaws.
Proof.
  split; try done.
  - intros f n offset w l Hn Ho E.
    assert (l = take (Nat.min 3 (Z.to_nat n)) (drop (Z.to_nat offset) (file_bytes f))) as -> by (by injection E).
    clear E. cbn [contents memory_reading].
    set (rest := drop (Z.to_nat offset) (file_bytes f)).
    rewrite length_take. split_and!.
    + destruct (Nat.le_ge_cases (Nat.min 3 (Z.to_nat n)) (length rest)); [by rewrite (Nat.min_l (Nat.min _ _))|].
      by rewrite (Nat.min_r (Nat.min _ _)), !take_ge by lia.
    + lia.
    + intros E%(f_equal length). rewrite length_take in E. unfold rest in E. rewrite length_drop in E. change (length []) with 0%nat in E. lia.
  - intros f w m [= <-] _. cbn. split; [done|]. unfold file_bytes. by case_match.
  - intros v v'. apply to_str_Some.
  - by intros t e [= ->].
Qed.

Definition disk : @OsWorld KernelMemory.memory_kernel :=
  {| KernelMemory.m_entries := []; KernelMemory.m_modes := []; KernelMemory.m_versions := [];
     KernelMemory.m_positions := []; KernelMemory.m_next := 20; KernelMemory.m_clock := 0;
     KernelMemory.m_errors := []; KernelMemory.m_seen := []; KernelMemory.m_drawn := [];
     KernelMemory.m_removed := []; KernelMemory.m_changes := []; KernelMemory.m_observed := [];
     KernelMemory.m_opened := [];
     KernelMemory.m_lost := 0 |}.

Definition middle : HeaderMap := [(RANGE, str "bytes=2-6")].
Definition middle_state : @DownloadReadState KernelMemory.memory_kernel :=
  {| dr_file := 9%Z : @OwnedFd KernelMemory.memory_kernel; dr_offset := 2; dr_remaining := 5 |}.
Definition middle_response : @Response KernelMemory.memory_kernel :=
  (handle_send_file (str "/srv/data") middle false default_response disk).1.2.

(** Bytes 2 to 6 of the file arrive in two chunks. *)
Lemma download_body_exact_witness :
  announces middle_response 10 2 5 /\ concat [str "234"; str "56"] = take 5 (drop 2 (str "0123456789")).
Proof.
  destruct (download_body_exact eq (str "/srv/data") middle false disk middle_response disk middle_state
              [str "234"; str "56"] Complete disk) as (Ha & _ & _ & _ & _ & _ & _ & Hc & _).
  - reflexivity.
  - reflexivity.
  - eapply streamed_chunk; [reflexivity|]. eapply streamed_chunk; [reflexivity|].
    eapply streamed_complete. reflexivity.
  - split; [exact Ha|]. destruct Hc as [Hc _]; [by intros ? ? ->|]. exact Hc.
Defined.

Lemma head_answers_as_get_witness :
  same_head (handle_send_file (str "/srv/data") middle true default_response disk)
            (handle_send_file (str "/srv/data") [] false default_response disk).
Proof. apply head_answers_as_get; reflexivity. Defined.

Lemma attachment_name_safe_witness :
  percent_decode (encode_content_disposition_filename (blank_controls (str "a b;c"))) = Some (str "a b;c").
Proof.
  destruct (attachment_name_safe (str "a b;c") default_response disk) as (_ & _ & _ & _ & _ & _ & E).
  apply E. vm_compute. reflexivity.
Defined.

Definition data_etag : @ETag memory_codec :=
  str "W/" ++ [x22] ++ encode_hex (KernelMemory.digest (validator_input (data_metadata 9))) ++ [x22].

Lemma etag_identifies_witness : st_ino (md_stat (data_metadata 9)) = 9%Z.
Proof.
  destruct (etag_identifies (data_metadata 9) (data_metadata 9) data_etag (5, 0)%Z (5, 0)%Z) as (_ & E & _); [..|exact E].
  - unfold stat_words, is_u64, is_i64; split_and!; by vm_compute.
  - unfold stat_words, is_u64, is_i64; split_and!; by vm_compute.
  - reflexivity.
  - reflexivity.
  - done.
Defined.
End DownloadContract.
