(* ===== verification/Listing.v ===== *)
(** * Walking directories and collecting listings

    [src/server/listing/walk.rs] and the collecting half of [src/server/listing.rs]: the
    public problems of a listing, the reservation of memory within a budget, the depth-first
    walk that a search makes with its stack of resumable enumerations, the enumeration of
    one directory for a listing, and the items both produce.

    The text of an error that only reaches the log (the path, in a printable form) is left
    out.  Sizes of the program's types, the capacities the allocator grants, Unicode case
    folding and the time a file was created are the class [ListEnv]. *)

From S2P Require Import Prelude Paths Utils RootedPaths PathPolicy FileRevision Problem ListSort ListSnapshot.
From S2P Require Import Kernel TrashPurge RootedParents TrashMoves PurgeWorker MutationWorld RootedMutations DirectoryVisits Download.

Module Listing.
Import RootedPaths PathPolicy Problem.

(** ** Problems *)

Inductive ListingProblem : Type :=
| UnsupportedFilename | DirectoryAccessForbidden | DirectoryChanged | DirectoryOperationTimeout
| DirectoryOperationFailed | ServerStopping | DirectorySymlinkLoop | DirectoryListingEntryLimit
| DirectoryWalkEntryLimit | DirectoryDepthLimit | DirectoryMemoryLimit | SearchResultLimit
| ListSnapshotLimit | ListSnapshotAllocationFailed | DirectorySortLimit.

Definition status (p : ListingProblem) : Z :=
  match p with
  | UnsupportedFilename | DirectoryChanged | DirectorySymlinkLoop => 409
  | DirectoryAccessForbidden => 403
  | DirectoryOperationTimeout => 504
  | DirectoryOperationFailed => 500
  | ServerStopping => 503
  | DirectoryListingEntryLimit | DirectoryWalkEntryLimit | DirectoryDepthLimit | DirectoryMemoryLimit
  | SearchResultLimit | ListSnapshotLimit | ListSnapshotAllocationFailed | DirectorySortLimit => 413
  end.

Definition public_message (p : ListingProblem) : bytes :=
  match p with
  | UnsupportedFilename => str "The folder contains an unsupported non-UTF-8 name. Rename it on Linux."
  | DirectoryAccessForbidden => str "Forbidden"
  | DirectoryChanged => str "The folder changed during traversal. Try again."
  | DirectoryOperationTimeout => str "Directory operation timed out"
  | DirectoryOperationFailed => str "Directory operation failed"
  | ServerStopping => str "Server is stopping"
  | DirectorySymlinkLoop => str "Directory symlink loop detected"
  | DirectoryListingEntryLimit => str "Directory listing exceeded its entry limit"
  | DirectoryWalkEntryLimit => str "Directory operation exceeded its entry limit"
  | DirectoryDepthLimit => str "Directory traversal exceeded its depth limit"
  | DirectoryMemoryLimit => str "Directory traversal exceeds the memory limit"
  | SearchResultLimit => str "Search results exceed the memory limit"
  | ListSnapshotLimit | ListSnapshotAllocationFailed => str "Directory listing exceeds the snapshot capacity"
  | DirectorySortLimit => str "Directory sorting exceeds the memory limit"
  end.

Definition code (p : ListingProblem) : ErrorCode :=
  match p with
  | UnsupportedFilename => UNSUPPORTED_FILENAME
  | DirectoryAccessForbidden => DIRECTORY_ACCESS_FORBIDDEN
  | DirectoryChanged => DIRECTORY_CHANGED
  | DirectoryOperationTimeout => DIRECTORY_OPERATION_TIMEOUT
  | ServerStopping => SERVER_STOPPING
  | DirectorySymlinkLoop => DIRECTORY_SYMLINK_LOOP
  | DirectoryListingEntryLimit | DirectoryWalkEntryLimit => DIRECTORY_ENTRY_LIMIT
  | DirectoryDepthLimit => DIRECTORY_DEPTH_LIMIT
  | DirectoryMemoryLimit => DIRECTORY_MEMORY_LIMIT
  | SearchResultLimit => SEARCH_RESULT_LIMIT
  | ListSnapshotLimit | ListSnapshotAllocationFailed => LIST_SNAPSHOT_LIMIT
  | DirectorySortLimit => DIRECTORY_SORT_LIMIT
  | DirectoryOperationFailed => DIRECTORY_OPERATION_FAILED
  end.

Definition recovery (p : ListingProblem) : RecoveryAdvice :=
  match p with
  | UnsupportedFilename | DirectoryChanged | DirectorySymlinkLoop => RefreshTarget
  | DirectoryOperationTimeout => Retry
  | ServerStopping => RetryAfterSeconds 1
  | _ => NoAdvice
  end.

Record ListingError : Type := { le_operation : string; le_reason : string; le_problem : ListingProblem }.

Definition unsupported_name (operation : string) : ListingError :=
  {| le_operation := operation; le_reason := "unsupported_filename_encoding"; le_problem := UnsupportedFilename |}.
Definition io_error (operation : string) (e : IoError) : ListingError :=
  {| le_operation := operation; le_reason := "io";
     le_problem := match e with
                   | PermissionDenied => DirectoryAccessForbidden
                   | InvalidData => UnsupportedFilename
                   | NotFound | NotADirectory => DirectoryChanged
                   | TimedOut => DirectoryOperationTimeout
                   | _ => DirectoryOperationFailed
                   end |}.
Definition cancelled (operation : string) : ListingError :=
  {| le_operation := operation; le_reason := "server_stopping"; le_problem := ServerStopping |}.
Definition symlink_loop (operation : string) : ListingError :=
  {| le_operation := operation; le_reason := "ancestor_symlink_loop"; le_problem := DirectorySymlinkLoop |}.
Definition limit (operation reason : string) (p : ListingProblem) : ListingError :=
  {| le_operation := operation; le_reason := reason; le_problem := p |}.
Definition invariant (operation : string) : ListingError :=
  {| le_operation := operation; le_reason := "path_outside_expected_base"; le_problem := DirectoryOperationFailed |}.

(** [respond_list_api_problem] and [respond_list_api_listing_error] *)
Definition respond_list_api_problem (status : Z) (code : ErrorCode) (detail : bytes) (recovery : RecoveryAdvice)
    : Problem.Response -> Problem.Response :=
  render_problem (with_recovery recovery (new_api_error status code detail)).
Definition respond_list_api_listing_error (e : ListingError) : Problem.Response -> Problem.Response :=
  let p := le_problem e in respond_list_api_problem (status p) (code p) (public_message p) (recovery p).

Abbreviation DirectorySnapshot := ListSnapshot.DirectorySnapshot.
Definition from_metadata (st : Stat) : DirectorySnapshot :=
  {| ListSnapshot.ds_device := st_dev st; ListSnapshot.ds_inode := st_ino st;
     ListSnapshot.ds_mtime := st_mtime st; ListSnapshot.ds_mtime_nanoseconds := st_mtime_nsec st;
     ListSnapshot.ds_ctime := st_ctime st; ListSnapshot.ds_ctime_nanoseconds := st_ctime_nsec st |}.

(** ** Vectors with their capacities *)

Record Vec (A : Type) : Type := { items : list A; capacity : Z }.
Arguments items {A} v.
Arguments capacity {A} v.
Definition empty_vec {A} : Vec A := {| items := []; capacity := 0 |}.
Definition vec_len {A} (v : Vec A) : Z := Z.of_nat (length (items v)).
Definition vec_push {A} (a : A) (v : Vec A) : Vec A := {| items := items v ++ [a]; capacity := capacity v |}.

Inductive BoundedReserveError : Type := BudgetExceeded | AllocationFailed.

Section listing.
Context `{Kernel} `{!ServerEnv} `{!MutationEnv}.

Class ListEnv : Type := {
  (* [size_of] of [DirectoryWalkState], [DirectoryWalkFrame], [VisitedDirectory], [Vec] and [PathItem] *)
  size_of_walk_state : Z;
  size_of_frame : Z;
  size_of_visited : Z;
  size_of_vec : Z;
  size_of_path_item : Z;
  (* [PathBuf::capacity] and [String::capacity] of a text *)
  path_capacity : bytes -> Z;
  string_capacity : bytes -> Z;
  (* [Vec::try_reserve_exact] and [HashSet::try_reserve]: the capacity for at least so many items *)
  reserve_exact : Z -> OsWorld -> option Z * OsWorld;
  reserve_set : Z -> OsWorld -> option Z * OsWorld;
  shrink_to_fit : Z -> OsWorld -> Z * OsWorld;
  (* [Metadata::created] and [str::to_lowercase] *)
  created_time : Stat -> option (Z * Z);
  to_lowercase : bytes -> bytes;
  (* what a sort is told by the flags and the clock, last, and by the allocator *)
  sort_signals : OsWorld -> ((nat -> ListSort.Signals) * ListSort.Signals * bool * bool) * OsWorld;
  (* [alphanumeric_sort::compare_str] *)
  compare_str : bytes -> bytes -> comparison }.
Context `{!ListEnv}.

Section generic.
Context {S : Type}.

(** [?] on a [ListingResult] *)
Definition and_then {A B} (m : Sys S (result ListingError A)) (k : A -> Sys S (result ListingError B))
    : Sys S (result ListingError B) :=
  r ← m; match r with Ok a => k a | Err e => mret (Err e) end.

Definition reserve_slot {A} (v : Vec A) (requested_capacity : Z) : Sys S (option (Vec A)) :=
  let needed := (vec_len v + u64_saturating_sub requested_capacity (vec_len v))%Z in
  if (needed <=? capacity v)%Z then mret (Some v)
  else
    granted ← ask (reserve_exact needed);
    mret ((fun c => {| items := items v; capacity := c |}) <$> granted).

(** The vector is returned with whatever capacity it has got. *)
Definition try_reserve_bounded_vec_slot {A} (item_bytes : Z) (v : Vec A) (non_vector_bytes maximum_bytes : Z)
    : Sys S (Vec A * result BoundedReserveError unit) :=
  if (vec_len v <? capacity v)%Z || (item_bytes =? 0)%Z then mret (v, Ok tt)
  else
    let old_allocation := u64_saturating_mul (capacity v) item_bytes in
    let available_for_new := u64_saturating_sub maximum_bytes (u64_saturating_add non_vector_bytes old_allocation) in
    let maximum_new_capacity := (available_for_new / item_bytes)%Z in
    let required_capacity := u64_saturating_add (vec_len v) 1 in
    if (maximum_new_capacity <? required_capacity)%Z then mret (v, Err BudgetExceeded)
    else
      let preferred_capacity :=
        if (capacity v =? 0)%Z then Z.max required_capacity 4
        else Z.max (u64_saturating_mul (capacity v) 2) required_capacity in
      reserved ← reserve_slot v (Z.min preferred_capacity maximum_new_capacity);
      match reserved with
      | None => mret (v, Err AllocationFailed)
      | Some v => if (maximum_new_capacity <? capacity v)%Z then mret (v, Err BudgetExceeded) else mret (v, Ok tt)
      end.

Definition collection_allocation_bytes (capacity item_size heap_bytes : Z) : Z :=
  u64_saturating_add (u64_saturating_add size_of_vec (u64_saturating_mul capacity item_size)) heap_bytes.

(** Whether the work must stop: the request or the server is cancelled, or its time is over. *)
Definition interrupted (started max_duration : Z) (on_cancel on_timeout : ListingError)
    : Sys S (option ListingError) :=
  stop ← ask is_cancelled;
  if stop : bool then mret (Some on_cancel)
  else
    now ← ask instant_now;
    if (max_duration <=? u64_saturating_sub now started)%Z then mret (Some on_timeout) else mret None.

Definition metadata_blocking (path : bytes) : Sys S Stat :=
  relative ← of_io (relative_path_or_dot path);
  fd ← io (openat2_path false relative);
  io (fstat fd).

(** ** Items *)

Definition hidden_entry (serve_root : bytes) (entry : RootedDirEntry) (base_name : bytes) : bool :=
  is_internal_name parse_uuid hyphenated base_name
  || match strip_path (de_path entry) serve_root ≫= Download.os_str_to_str with
     | Some relative => is_platform_path platform_reserved_paths relative
     | None => false
     end.

Definition strict_file_name (path : bytes) (operation : string) : result ListingError bytes :=
  match file_name path ≫= Download.os_str_to_str with
  | Some (_ :: _ as name) => Ok name
  | _ => Err (unsupported_name operation)
  end.

Definition strict_relative_path (path base_path : bytes) (operation : string) : result ListingError bytes :=
  relative ← ok_or (strip_path path base_path) (invariant operation);
  ok_or (Download.os_str_to_str relative) (unsupported_name operation).

(** [to_timestamp]: milliseconds since the epoch, none before it, cut to 64 bits. *)
Definition to_timestamp (t : Download.SystemTime) : Z :=
  if (t.1 <? 0)%Z then 0 else ((t.1 * 1000 + t.2 / 1000000) mod (U64_MAX + 1))%Z.

Definition entry_modified (st : Stat) : option Download.SystemTime :=
  if ((0 <=? st_mtime_nsec st) && (st_mtime_nsec st <? 1000000000))%Z
  then Some (st_mtime st, st_mtime_nsec st) else created_time st.

(** The revision of a listed entry is expected to exist. *)
Definition pathitem_from_rooted_entry (base_path serve_path revision_owner : bytes) (entry : RootedDirEntry)
    : Sys S (result ListingError ListSort.PathItem) :=
  and_then (mret (strict_file_name (de_path entry) "pathitem_filename")) (fun _ =>
  let directory := is_dir (de_metadata entry) in
  let path_type := match de_is_symlink entry, directory with
                   | true, true => ListSort.SymlinkDir
                   | false, true => ListSort.Dir
                   | true, false => ListSort.SymlinkFile
                   | false, false => ListSort.File
                   end in
  let mtime := match entry_modified (de_metadata entry) with Some t => to_timestamp t | None => 0%Z end in
  let size := if directory then 0%Z else (st_size (de_metadata entry) mod (U64_MAX + 1))%Z in
  and_then (mret (strict_relative_path (de_path entry) base_path "pathitem_relative_path")) (fun name =>
  and_then (mret (ok_or (strip_path (de_path entry) serve_path) (invariant "pathitem_revision_path")))
    (fun revision_path =>
  revision ← expect (target_revision revision_owner revision_path (de_revision_identity entry));
  mret (Ok {| ListSort.path_type := path_type; ListSort.sort_name := to_lowercase name; ListSort.name := name;
              ListSort.mtime := mtime; ListSort.size := size; ListSort.item_revision := revision |})))).

Definition path_item_heap_bytes (item : ListSort.PathItem) : Z :=
  u64_saturating_add (string_capacity (ListSort.name item)) (string_capacity (ListSort.sort_name item)).
End generic.

(** ** The walk *)

Record CollectionByteBudget : Type := {
  cb_max_bytes : Z;
  cb_operation : string;
  cb_reason : string;
  cb_problem : ListingProblem;
  cb_allocation_problem : ListingProblem }.

Record DirectoryWalkFrame : Type := { fr_path : bytes; fr_cursor : Z; fr_snapshot : DirectorySnapshot; fr_depth : Z }.
Record VisitedDirectory : Type := { vd_path : bytes; vd_snapshot : DirectorySnapshot }.

(** The stack is kept with its top first. *)
Record DirectoryWalkState : Type := {
  ws_stack : Vec DirectoryWalkFrame;
  ws_visited : Vec VisitedDirectory;
  ws_active : gset (Z * Z);
  ws_active_capacity : Z;
  ws_path_heap_bytes : Z }.

Definition identity (d : DirectorySnapshot) : Z * Z := (ListSnapshot.ds_device d, ListSnapshot.ds_inode d).

Section walk.
Context {T : Type}.

(** What the blocking task works on: [error] is [listing_error], set when [stopped] is. *)
Record Walk : Type := {
  wk_state : DirectoryWalkState;
  wk_count : Z;
  wk_items : Vec T;
  wk_heap_bytes : Z;
  wk_error : option ListingError;
  wk_descend : option (bytes * DirectorySnapshot * Z) }.

Definition with_state (x : DirectoryWalkState) (s : Walk) : Walk :=
  {| wk_state := x; wk_count := wk_count s; wk_items := wk_items s; wk_heap_bytes := wk_heap_bytes s;
     wk_error := wk_error s; wk_descend := wk_descend s |}.
Definition with_count (x : Z) (s : Walk) : Walk :=
  {| wk_state := wk_state s; wk_count := x; wk_items := wk_items s; wk_heap_bytes := wk_heap_bytes s;
     wk_error := wk_error s; wk_descend := wk_descend s |}.
Definition with_items (x : Vec T) (heap : Z) (s : Walk) : Walk :=
  {| wk_state := wk_state s; wk_count := wk_count s; wk_items := x; wk_heap_bytes := heap;
     wk_error := wk_error s; wk_descend := wk_descend s |}.
Definition with_error (x : option ListingError) (s : Walk) : Walk :=
  {| wk_state := wk_state s; wk_count := wk_count s; wk_items := wk_items s; wk_heap_bytes := wk_heap_bytes s;
     wk_error := x; wk_descend := wk_descend s |}.
Definition with_descend (x : option (bytes * DirectorySnapshot * Z)) (s : Walk) : Walk :=
  {| wk_state := wk_state s; wk_count := wk_count s; wk_items := wk_items s; wk_heap_bytes := wk_heap_bytes s;
     wk_error := wk_error s; wk_descend := x |}.

Definition with_stack (x : Vec DirectoryWalkFrame) (st : DirectoryWalkState) : DirectoryWalkState :=
  {| ws_stack := x; ws_visited := ws_visited st; ws_active := ws_active st;
     ws_active_capacity := ws_active_capacity st; ws_path_heap_bytes := ws_path_heap_bytes st |}.
Definition with_visited (x : Vec VisitedDirectory) (st : DirectoryWalkState) : DirectoryWalkState :=
  {| ws_stack := ws_stack st; ws_visited := x; ws_active := ws_active st;
     ws_active_capacity := ws_active_capacity st; ws_path_heap_bytes := ws_path_heap_bytes st |}.
Definition with_active (x : gset (Z * Z)) (st : DirectoryWalkState) : DirectoryWalkState :=
  {| ws_stack := ws_stack st; ws_visited := ws_visited st; ws_active := x;
     ws_active_capacity := ws_active_capacity st; ws_path_heap_bytes := ws_path_heap_bytes st |}.

(** The budgets and callbacks of one call. *)
Record DirectoryWalk : Type := {
  dw_path : bytes;
  dw_serve_path : bytes;
  dw_max_entries : Z;
  dw_max_depth : Z;
  dw_max_working_bytes : Z;
  dw_max_duration : Z }.

Context (walk : DirectoryWalk) (size_of_item : Z)
  (include_entry : RootedDirEntry -> bytes -> Sys Walk (result ListingError bool))
  (map_entry : RootedDirEntry -> Sys Walk (result ListingError T))
  (item_heap_bytes : T -> Z)
  (byte_budget : option CollectionByteBudget).

(** [size_of::<(u64, u64)>() + size_of::<usize>()] *)
Definition ACTIVE_ENTRY_BYTES : Z := 24.

Definition walk_allocation_error : ListingError :=
  limit "walk_memory" "working_allocation_failed" DirectoryMemoryLimit.
Definition walk_working_memory_error : ListingError :=
  limit "walk_memory" "working_memory_budget" DirectoryMemoryLimit.

Definition state_bytes (stack visited active path_heap additional : Z) : Z :=
  u64_saturating_add
    (u64_saturating_add
       (u64_saturating_add
          (u64_saturating_add
             (u64_saturating_add size_of_walk_state (u64_saturating_mul stack size_of_frame))
             (u64_saturating_mul visited size_of_visited))
          (u64_saturating_mul active ACTIVE_ENTRY_BYTES))
       path_heap)
    additional.

Definition working_bytes (st : DirectoryWalkState) (additional_path_bytes : Z) : Z :=
  state_bytes (capacity (ws_stack st)) (capacity (ws_visited st)) (ws_active_capacity st) (ws_path_heap_bytes st)
    additional_path_bytes.

Definition initial_state (active_capacity : Z) : DirectoryWalkState :=
  {| ws_stack := empty_vec; ws_visited := empty_vec; ws_active := ∅; ws_active_capacity := active_capacity;
     ws_path_heap_bytes := 0 |}.

Definition new_walk_state : Sys Walk (result ListingError unit) :=
  let active_entries := u64_saturating_add (dw_max_depth walk) 1 in
  let conservative_active_bytes := u64_saturating_mul (u64_saturating_mul active_entries 4) ACTIVE_ENTRY_BYTES in
  if (dw_max_working_bytes walk <? u64_saturating_add size_of_walk_state conservative_active_bytes)%Z
  then mret (Err walk_working_memory_error)
  else
    reserved ← ask (reserve_set active_entries);
    match reserved with
    | None => mret (Err walk_allocation_error)
    | Some capacity =>
        let state := initial_state capacity in
        if (dw_max_working_bytes walk <? working_bytes state 0)%Z then mret (Err walk_working_memory_error)
        else _ ← modify (with_state state); mret (Ok tt)
    end.

Definition set_size (a : gset (Z * Z)) : Z := Z.of_nat (size a).

Definition push_directory (path : bytes) (snapshot : DirectorySnapshot) (depth : Z)
    : Sys Walk (result ListingError unit) :=
  if (dw_max_depth walk <? depth)%Z then mret (Err (limit "walk_depth" "depth_budget" DirectoryDepthLimit))
  else
    st ← gets wk_state;
    if bool_decide (identity snapshot ∈ ws_active st) then mret (Err (symlink_loop "walk_loop"))
    else
      let path_bytes := path_capacity path in
      let minimum := state_bytes (u64_saturating_add (vec_len (ws_stack st)) 1) (vec_len (ws_visited st))
                       (u64_saturating_add (set_size (ws_active st)) 1) (ws_path_heap_bytes st) path_bytes in
      if (dw_max_working_bytes walk <? minimum)%Z then mret (Err walk_working_memory_error)
      else
        let non_stack_bytes := u64_saturating_sub (working_bytes st path_bytes)
                                 (u64_saturating_mul (capacity (ws_stack st)) size_of_frame) in
        '(stack, reserved) ← try_reserve_bounded_vec_slot size_of_frame (ws_stack st) non_stack_bytes
                               (dw_max_working_bytes walk);
        let st := with_stack stack st in
        _ ← modify (with_state st);
        match reserved with
        | Err BudgetExceeded => mret (Err walk_working_memory_error)
        | Err AllocationFailed => mret (Err walk_allocation_error)
        | Ok _ =>
            if (dw_max_working_bytes walk <? working_bytes st path_bytes)%Z
            then mret (Err walk_working_memory_error)
            else
              let frame := {| fr_path := path; fr_cursor := 0; fr_snapshot := snapshot; fr_depth := depth |} in
              _ ← modify (with_state
                    {| ws_stack := {| items := frame :: items stack; capacity := capacity stack |};
                       ws_visited := ws_visited st; ws_active := {[identity snapshot]} ∪ ws_active st;
                       ws_active_capacity := ws_active_capacity st;
                       ws_path_heap_bytes := u64_saturating_add (ws_path_heap_bytes st) path_bytes |});
              mret (Ok tt)
        end.

Definition pop_frame : Sys Walk DirectoryWalkFrame :=
  st ← gets wk_state;
  match items (ws_stack st) with
  | [] => panic
  | frame :: rest =>
      _ ← modify (with_state (with_stack {| items := rest; capacity := capacity (ws_stack st) |} st));
      mret frame
  end.

Definition finish_current : Sys Walk (result ListingError unit) :=
  frame ← pop_frame;
  st ← gets wk_state;
  let st := with_active (ws_active st ∖ {[identity (fr_snapshot frame)]}) st in
  _ ← modify (with_state st);
  let minimum := state_bytes (vec_len (ws_stack st)) (u64_saturating_add (vec_len (ws_visited st)) 1)
                   (set_size (ws_active st)) (ws_path_heap_bytes st) 0 in
  if (dw_max_working_bytes walk <? minimum)%Z then mret (Err walk_working_memory_error)
  else
    let non_visited_bytes := u64_saturating_sub (working_bytes st 0)
                               (u64_saturating_mul (capacity (ws_visited st)) size_of_visited) in
    '(visited, reserved) ← try_reserve_bounded_vec_slot size_of_visited (ws_visited st) non_visited_bytes
                             (dw_max_working_bytes walk);
    let st := with_visited visited st in
    _ ← modify (with_state st);
    match reserved with
    | Err BudgetExceeded => mret (Err walk_working_memory_error)
    | Err AllocationFailed => mret (Err walk_allocation_error)
    | Ok _ =>
        if (dw_max_working_bytes walk <? working_bytes st 0)%Z then mret (Err walk_working_memory_error)
        else
          _ ← modify (with_state (with_visited
                (vec_push {| vd_path := fr_path frame; vd_snapshot := fr_snapshot frame |} visited) st));
          mret (Ok tt)
    end.

Definition ensure_directory_snapshot_blocking (directory : VisitedDirectory) (operation : string)
    : Sys Walk (result ListingError unit) :=
  found ← attempt (metadata_blocking (vd_path directory));
  match found : result IoError Stat with
  | Err e => mret (Err (io_error operation e))
  | Ok metadata =>
      if negb (is_dir metadata)
      then mret (Err (limit operation "directory_replaced_by_non_directory" DirectoryChanged))
      else if negb (bool_decide (from_metadata metadata = vd_snapshot directory))
      then mret (Err (limit operation "directory_snapshot_changed" DirectoryChanged))
      else mret (Ok tt)
  end.

(** [stopped.set(true)] and the error; the enumeration pauses. *)
Definition stop_with (e : ListingError) : Sys Walk bool := _ ← modify (with_error (Some e)); mret false.

Definition walk_interrupted (started : Z) : Sys Walk (option ListingError) :=
  interrupted started (dw_max_duration walk) (cancelled "walk_cancelled")
    (limit "walk_timeout" "time_budget" DirectoryOperationTimeout).

(** The closure asked before an entry is looked at. *)
Definition walk_budget (started : Z) : Sys Walk bool :=
  stop ← walk_interrupted started;
  match stop with
  | Some e => stop_with e
  | None =>
      _ ← modify (fun s => with_count (u64_saturating_add (wk_count s) 1) s);
      visited ← gets wk_count;
      if (dw_max_entries walk <? visited)%Z
      then stop_with (limit "walk_limit" "entry_budget" DirectoryWalkEntryLimit)
      else mret true
  end.

(** The item is added if its memory is within the budget. *)
Definition add_item (item : T) : Sys Walk (option ListingError) :=
  let weight := item_heap_bytes item in
  heap_bytes ← gets wk_heap_bytes;
  collected ← gets wk_items;
  let proposed_heap_bytes := u64_saturating_add heap_bytes weight in
  let keep (v : Vec T) := _ ← modify (with_items (vec_push item v) proposed_heap_bytes); mret None in
  match byte_budget with
  | None => keep collected
  | Some budget =>
      let over := limit (cb_operation budget) (cb_reason budget) (cb_problem budget) in
      if (cb_max_bytes budget <?
          collection_allocation_bytes (u64_saturating_add (vec_len collected) 1) size_of_item proposed_heap_bytes)%Z
      then mret (Some over)
      else
        '(collected, reserved) ← try_reserve_bounded_vec_slot size_of_item collected
                                   (u64_saturating_add size_of_vec proposed_heap_bytes) (cb_max_bytes budget);
        _ ← modify (with_items collected heap_bytes);
        match reserved with
        | Err BudgetExceeded => mret (Some over)
        | Err AllocationFailed =>
            mret (Some (limit (cb_operation budget) "result_allocation_failed" (cb_allocation_problem budget)))
        | Ok _ =>
            if (cb_max_bytes budget <?
                collection_allocation_bytes (capacity collected) size_of_item proposed_heap_bytes)%Z
            then mret (Some over) else keep collected
        end
  end.

(** The closure that sees an entry: [true] to go on, [false] to pause. *)
Definition walk_visitor (started current_depth : Z) (entry : RootedDirEntry) : Sys Walk bool :=
  stop ← walk_interrupted started;
  match stop with
  | Some e => stop_with e
  | None =>
      match Download.os_str_to_str (de_file_name entry) with
      | None => stop_with (unsupported_name "walk_filename")
      | Some base_name =>
          if hidden_entry (dw_serve_path walk) entry base_name then mret true
          else
            include ← include_entry entry base_name;
            match include : result ListingError bool with
            | Err e => stop_with e
            | Ok include =>
                let descend :=
                  if is_dir (de_metadata entry) then
                    _ ← modify (with_descend (Some (de_path entry, from_metadata (de_metadata entry),
                                                    u64_saturating_add current_depth 1)));
                    mret false
                  else mret true in
                if negb include then descend
                else
                  mapped ← map_entry entry;
                  match mapped : result ListingError T with
                  | Err e => stop_with e
                  | Ok item =>
                      refused ← add_item item;
                      match refused with Some e => stop_with e | None => descend end
                  end
            end
      end
  end.

Definition set_cursor (cursor : Z) : Sys Walk unit :=
  st ← gets wk_state;
  match items (ws_stack st) with
  | [] => panic
  | frame :: rest =>
      modify (with_state (with_stack
        {| items := {| fr_path := fr_path frame; fr_cursor := cursor; fr_snapshot := fr_snapshot frame;
                       fr_depth := fr_depth frame |} :: rest;
           capacity := capacity (ws_stack st) |} st))
  end.

(** [while !state.stack.is_empty()] *)
Fixpoint walk_loop (fuel visit_fuel : nat) (started : Z) : Sys Walk (result ListingError unit) :=
  match fuel with
  | O => out_of_fuel
  | S fuel =>
      st ← gets wk_state;
      match items (ws_stack st) with
      | [] => mret (Ok tt)
      | frame :: _ =>
          stop ← walk_interrupted started;
          match stop with
          | Some e => mret (Err e)
          | None =>
              and_then (ensure_directory_snapshot_blocking
                          {| vd_path := fr_path frame; vd_snapshot := fr_snapshot frame |} "walk_snapshot_before") (fun _ =>
              _ ← modify (with_error None);
              _ ← modify (with_descend None);
              progress ← attempt (visit_dir_blocking_chunk visit_fuel (fr_path frame) (fr_cursor frame)
                                    (walk_budget started) (walk_visitor started (fr_depth frame)));
              stopped ← gets wk_error;
              match stopped with
              | Some e => mret (Err e)
              | None =>
                  match progress : result IoError DirectoryVisitProgress with
                  | Err e => mret (Err (io_error "walk_next" e))
                  | Ok VisitComplete => and_then finish_current (fun _ => walk_loop fuel visit_fuel started)
                  | Ok (VisitPaused cursor) =>
                      _ ← set_cursor cursor;
                      descend ← gets wk_descend;
                      match descend with
                      | None => mret (Err (invariant "walk_paused_without_child"))
                      | Some (child_path, child_snapshot, child_depth) =>
                          and_then (push_directory child_path child_snapshot child_depth)
                            (fun _ => walk_loop fuel visit_fuel started)
                      end
                  end
              end)
          end
      end
  end.

(** [for directory in &state.visited] *)
Fixpoint recheck (started : Z) (visited : list VisitedDirectory) : Sys Walk (result ListingError unit) :=
  match visited with
  | [] => mret (Ok tt)
  | directory :: visited =>
      stop ← interrupted started (dw_max_duration walk) (cancelled "walk_snapshot_after")
               (limit "walk_snapshot_after" "time_budget" DirectoryOperationTimeout);
      match stop with
      | Some e => mret (Err e)
      | None => and_then (ensure_directory_snapshot_blocking directory "walk_snapshot_after")
                  (fun _ => recheck started visited)
      end
  end.

(** The blocking task. *)
Definition walk_task (fuel visit_fuel : nat) (started : Z) : Sys Walk (result ListingError (Vec T)) :=
  found ← attempt (metadata_blocking (dw_path walk));
  match found : result IoError Stat with
  | Err e => mret (Err (io_error "walk_root" e))
  | Ok root =>
      if negb (is_dir root)
      then mret (Err (limit "walk_root" "directory_replaced_by_non_directory" DirectoryChanged))
      else
        and_then new_walk_state (fun _ =>
        and_then (push_directory (dw_path walk) (from_metadata root) 0) (fun _ =>
        and_then (walk_loop fuel visit_fuel started) (fun _ =>
        st ← gets wk_state;
        and_then (recheck started (items (ws_visited st))) (fun _ =>
        collected ← gets wk_items;
        mret (Ok collected)))))
  end.

Definition empty_walk : Walk :=
  {| wk_state := initial_state 0; wk_count := 0; wk_items := empty_vec; wk_heap_bytes := 0; wk_error := None;
     wk_descend := None |}.

(** [spawn_directory_blocking] panics when the gate does not admit the task; the release
    build aborts on a panic. *)
Definition collect_dir_items {S} (fuel visit_fuel : nat) : Sys S (result ListingError (Vec T)) :=
  started ← ask instant_now;
  admitted ← ask gate_admits;
  if admitted : bool then
    '(r, _) ← run_on empty_walk (walk_task fuel visit_fuel started);
    match r with Ok collected => mret collected | Err _ => panic end
  else panic.
End walk.

(** ** Sorting within a budget *)

Section finish.
Context {S : Type}.

Definition paths_heap_bytes (paths : list ListSort.PathItem) : Z :=
  fold_left (fun total item => u64_saturating_add total (path_item_heap_bytes item)) paths 0%Z.

Definition ensure_path_sort_budget (paths : Vec ListSort.PathItem) (max_bytes : Z) (operation : string)
    : result ListingError unit :=
  let retained := collection_allocation_bytes (capacity paths) size_of_path_item (paths_heap_bytes (items paths)) in
  let scratch := u64_saturating_mul (u64_saturating_mul (vec_len paths) 8) 2 in
  ensure (negb (max_bytes <? u64_saturating_add retained scratch)%Z)
    (limit operation "sort_memory_budget" DirectorySortLimit).

Definition sort_items (sort order : bytes) (operation : string) (paths : Vec ListSort.PathItem)
    : Sys S (result ListingError (Vec ListSort.PathItem)) :=
  told ← ask sort_signals;
  let '(signals, last, reserve_current, reserve_next) := told in
  match ListSort.sort_path_items_interruptibly compare_str sort order signals last reserve_current reserve_next
          (items paths) with
  | (sorted, Ok _) => mret (Ok {| items := sorted; capacity := capacity paths |})
  | (_, Err ListSort.DirectoryOperationTimeout) =>
      mret (Err (limit operation "time_budget" DirectoryOperationTimeout))
  | (_, Err ListSort.ServerStopping) => mret (Err (cancelled operation))
  | (_, Err ListSort.DirectorySortLimit) => mret (Err (limit operation "sort_allocation_failed" DirectorySortLimit))
  | (_, Err ListSort.SortCrashed) => panic
  end.

Definition shrink_paths_if_wasteful (paths : Vec ListSort.PathItem) : Sys S (Vec ListSort.PathItem) :=
  let spare := u64_saturating_sub (capacity paths) (vec_len paths) in
  if (1024 <=? spare)%Z && (u64_saturating_add (vec_len paths) (vec_len paths / 4) <? capacity paths)%Z
  then c ← ask (shrink_to_fit (vec_len paths)); mret {| items := items paths; capacity := c |}
  else mret paths.

Definition finish_listing (sort order : bytes) (max_bytes : Z) (operation : string) (paths : Vec ListSort.PathItem)
    : Sys S (result ListingError (Vec ListSort.PathItem)) :=
  and_then (mret (ensure_path_sort_budget paths max_bytes operation)) (fun _ =>
  and_then (sort_items sort order operation paths) (fun paths =>
  paths ← shrink_paths_if_wasteful paths; mret (Ok paths))).
End finish.

(** ** A search *)

Definition is_ascii (l : bytes) : bool := forallb (fun b => (byte_val b <? 128)%Z) l.

(** Some window of [value] of the query's length passes the test. *)
Fixpoint any_window (test : bytes -> bool) (n : nat) (value : bytes) : bool :=
  ((n <=? length value)%nat && test (take n value)) || match value with [] => false | _ :: value => any_window test n value end.

Definition case_folded_contains (value folded_query : bytes) : bool :=
  if is_ascii value && is_ascii folded_query then
    bool_decide (folded_query = [])
    || any_window (fun window => Utils.eq_ignore_ascii_case window folded_query) (length folded_query) value
  else any_window (fun window => bool_decide (window = folded_query)) (length folded_query) (to_lowercase value).

Definition MAX_DIRECTORY_WALK_DEPTH : Z := 1024.
Definition MAX_DIRECTORY_WALK_WORKING_BYTES : Z := 32 * 1024 * 1024.

Definition search_budget : CollectionByteBudget :=
  {| cb_max_bytes := ListSnapshot.MAX_CACHED_LIST_SNAPSHOT_BYTES_PER_OWNER; cb_operation := "search_result";
     cb_reason := "result_memory_budget"; cb_problem := SearchResultLimit; cb_allocation_problem := SearchResultLimit |}.

Definition search_walk (path : bytes) (max_search_entries max_duration : Z) : DirectoryWalk :=
  {| dw_path := path; dw_serve_path := root_path; dw_max_entries := max_search_entries;
     dw_max_depth := MAX_DIRECTORY_WALK_DEPTH; dw_max_working_bytes := MAX_DIRECTORY_WALK_WORKING_BYTES;
     dw_max_duration := max_duration |}.

Definition search_dir {S} (fuel visit_fuel : nat) (path search sort order revision_owner : bytes)
    (max_search_entries max_duration : Z) : Sys S (result ListingError (Vec ListSort.PathItem)) :=
  and_then (collect_dir_items (search_walk path max_search_entries max_duration) size_of_path_item
              (fun _ name => mret (Ok (case_folded_contains name search)))
              (pathitem_from_rooted_entry path root_path revision_owner)
              path_item_heap_bytes (Some search_budget) fuel visit_fuel) (fun paths =>
  admitted ← ask gate_admits;
  if admitted : bool
  then finish_listing sort order ListSnapshot.MAX_CACHED_LIST_SNAPSHOT_BYTES_PER_OWNER "search_sort" paths
  else panic).

(** ** One directory *)

Inductive ListScanStop : Type := ScanCancelled | ScanEntryBudget | ScanTimeout.

Record ListScan : Type := {
  sc_count : Z;
  sc_paths : Vec ListSort.PathItem;
  sc_heap_bytes : Z;
  sc_stop : option ListScanStop;
  sc_error : option ListingError }.

Definition scan_stop (x : ListScanStop) : Sys ListScan bool :=
  _ ← modify (fun s => {| sc_count := sc_count s; sc_paths := sc_paths s; sc_heap_bytes := sc_heap_bytes s;
                          sc_stop := Some x; sc_error := sc_error s |}); mret false.
Definition scan_error (e : ListingError) : Sys ListScan bool :=
  _ ← modify (fun s => {| sc_count := sc_count s; sc_paths := sc_paths s; sc_heap_bytes := sc_heap_bytes s;
                          sc_stop := sc_stop s; sc_error := Some e |}); mret false.
Definition scan_count : Sys ListScan Z :=
  _ ← modify (fun s => {| sc_count := u64_saturating_add (sc_count s) 1; sc_paths := sc_paths s;
                          sc_heap_bytes := sc_heap_bytes s; sc_stop := sc_stop s; sc_error := sc_error s |});
  gets sc_count.
Definition scan_keep (paths : Vec ListSort.PathItem) (heap : Z) : Sys ListScan unit :=
  modify (fun s => {| sc_count := sc_count s; sc_paths := paths; sc_heap_bytes := heap; sc_stop := sc_stop s;
                      sc_error := sc_error s |}).

Section scan.
Context (path revision_owner : bytes) (max_entries max_bytes started max_duration : Z).

Definition scan_interrupted : Sys ListScan (option ListScanStop) :=
  stop ← ask is_cancelled;
  if stop : bool then mret (Some ScanCancelled)
  else
    now ← ask instant_now;
    if (max_duration <=? u64_saturating_sub now started)%Z then mret (Some ScanTimeout) else mret None.

Definition scan_budget : Sys ListScan bool :=
  stop ← scan_interrupted;
  match stop with
  | Some x => scan_stop x
  | None => visited ← scan_count; if (max_entries <? visited)%Z then scan_stop ScanEntryBudget else mret true
  end.

Definition scan_item (item : ListSort.PathItem) : Sys ListScan bool :=
  paths ← gets sc_paths;
  heap_bytes ← gets sc_heap_bytes;
  let proposed_heap_bytes := u64_saturating_add heap_bytes (path_item_heap_bytes item) in
  let over := limit "list_snapshot" "snapshot_memory_budget" ListSnapshotLimit in
  if (max_bytes <? collection_allocation_bytes (u64_saturating_add (vec_len paths) 1) size_of_path_item
                     proposed_heap_bytes)%Z
  then scan_error over
  else
    '(paths, reserved) ← try_reserve_bounded_vec_slot size_of_path_item paths
                           (u64_saturating_add size_of_vec proposed_heap_bytes) max_bytes;
    _ ← scan_keep paths heap_bytes;
    match reserved with
    | Err BudgetExceeded => scan_error over
    | Err AllocationFailed =>
        scan_error (limit "list_snapshot" "result_allocation_failed" ListSnapshotAllocationFailed)
    | Ok _ =>
        if (max_bytes <? collection_allocation_bytes (capacity paths) size_of_path_item proposed_heap_bytes)%Z
        then scan_error over
        else _ ← scan_keep (vec_push item paths) proposed_heap_bytes; mret true
    end.

Definition scan_visitor (entry : RootedDirEntry) : Sys ListScan bool :=
  stop ← scan_interrupted;
  match stop with
  | Some x => scan_stop x
  | None =>
      match Download.os_str_to_str (de_file_name entry) with
      | None => scan_error (unsupported_name "list_snapshot_filename")
      | Some base_name =>
          if hidden_entry root_path entry base_name then mret true
          else
            made ← pathitem_from_rooted_entry path root_path revision_owner entry;
            match made : result ListingError ListSort.PathItem with
            | Err e => scan_error e
            | Ok item => scan_item item
            end
      end
  end.

Definition empty_scan : ListScan :=
  {| sc_count := 0; sc_paths := empty_vec; sc_heap_bytes := 0; sc_stop := None; sc_error := None |}.

End scan.

Definition collect_list_snapshot_blocking {S} (fuel : nat) (path revision_owner sort order : bytes)
    (max_entries max_bytes max_duration : Z)
    : Sys S (result ListingError (Vec ListSort.PathItem)) :=
  started ← ask instant_now;
  '(visited, scan) ← run_on empty_scan
     (visit_dir_blocking_chunk fuel path 0 (scan_budget max_entries started max_duration)
        (scan_visitor path revision_owner max_bytes started max_duration));
  match sc_error scan, visited, sc_stop scan with
  | Some e, _, _ => mret (Err e)
  | None, Err e, _ => mret (Err (io_error "list_snapshot" e))
  | None, Ok _, Some ScanCancelled => mret (Err (cancelled "list_snapshot"))
  | None, Ok _, Some ScanEntryBudget => mret (Err (limit "list_snapshot" "entry_budget" DirectoryListingEntryLimit))
  | None, Ok _, Some ScanTimeout => mret (Err (limit "list_snapshot" "time_budget" DirectoryOperationTimeout))
  | None, Ok _, None => finish_listing sort order max_bytes "list_snapshot_sort" (sc_paths scan)
  end.
End listing.
End Listing.
