(* ===== verification/ListingBounds.v ===== *)
(** * Listings stay within their budgets

    The walk of [Listing]: its stack is one path of distinct directories, its memory stays
    within its budget at every call, no internal name is collected, and neither it nor the
    search built on it panics.  [stays] is the calculus: what holds of the state of a
    computation where it ends, and wherever it is cut short. *)

From S2P Require Import Prelude Paths Utils RootedPaths PathPolicy FileRevision Problem ListSort ListSnapshot.
From S2P Require Import Kernel TrashPurge RootedParents TrashMoves PurgeWorker MutationWorld RootedMutations DirectoryVisits.
From S2P Require Import KernelMemory PurgeOwnership MutationMemory Download Listing.

Module ListingBounds.
Import RootedPaths PathPolicy Listing.

(** ** The calculus *)

(** The calls a listing makes. *)
Inductive list_op `{Kernel} `{!ServerEnv} `{!MutationEnv} `{!ListEnv} : forall A, (OsWorld -> A * OsWorld) -> Prop :=
| op_now : list_op _ instant_now
| op_cancelled : list_op _ is_cancelled
| op_gate : list_op _ gate_admits
| op_open d p : list_op _ (openat2_beneath d p)
| op_open_path b p : list_op _ (openat2_path b p)
| op_dir_new f : list_op _ (dir_new f)
| op_dir_read d : list_op _ (dir_read d)
| op_dir_seek d n : list_op _ (dir_seek d n)
| op_statat d n : list_op _ (statat d n)
| op_fstat f : list_op _ (fstat f)
| op_reserve n : list_op _ (reserve_exact n)
| op_reserve_set n : list_op _ (reserve_set n)
| op_shrink n : list_op _ (shrink_to_fit n)
| op_sort : list_op _ sort_signals.

(** The world in which the server began, and the calls that have been made since, by it
    and by others. *)
Class Calls `{Kernel} : Type := {
  begun : OsWorld;
  called : forall A, (OsWorld -> A * OsWorld) -> Prop }.
Definition after `{Calls} : OsWorld -> OsWorld -> Prop := rtc (fun w w' => exists A op, called A op /\ w' = (op w).2).
Class Along `{Calls} {A} (op : OsWorld -> A * OsWorld) : Prop := along : called A op.
Class ListCalls `{Calls} `{!ServerEnv} `{!MutationEnv} `{!ListEnv} : Prop := list_called A op : list_op A op -> called A op.
#[export] Hint Extern 1 (Along _) => solve [apply list_called; constructor] : typeclass_instances.

(** A server whose listings are all that happens, from the world [w] on. *)
Definition from_now `{Kernel} `{!ServerEnv} `{!MutationEnv} `{!ListEnv} (w : OsWorld) : Calls :=
  {| begun := w; called := list_op |}.
Lemma from_now_calls `{Kernel} `{!ServerEnv} `{!MutationEnv} `{!ListEnv} w : ListCalls (H0 := from_now w).
Proof. by intros A op Hop. Qed.

(** A computation began in the world [entered]. *)
Class Underway `{Calls} : Type := { entered : OsWorld; underway : after begun entered }.

Definition underway_now `{Kernel} `{!ServerEnv} `{!MutationEnv} `{!ListEnv} (w : OsWorld) : Underway (H0 := from_now w) :=
  @Build_Underway _ (from_now w) w (rtc_refl _ w).

(** Since the server began, the call was answered so. *)
Definition answered `{Calls} {A} (op : OsWorld -> option A * OsWorld) (a : A) : Prop :=
  exists w, after begun w /\ (op w).1 = Some a.

(** Where the computation has got: [Q] of the result, [C] of the state wherever the process
    may die or the fuel runs out; no panic. *)
Definition stays_at {S A} (C : S -> Prop) (Q : result IoError A -> S -> Prop) (o : outcome A) (s : S) : Prop :=
  match o with
  | Val a => Q (Ok a) s
  | Fail e => Q (Err e) s
  | Crashed | OutOfFuel => C s
  | Panicked => False
  end.
Definition stays `{Underway} {S A} (C : S -> Prop) (m : Sys S A) (Q : result IoError A -> S -> Prop) (s : S) : Prop :=
  forall w, after entered w -> let '(o, s', w') := m s w in after entered w' /\ stays_at C Q o s'.

(** How a computation ends whose result is [r]. *)
Definition ended {A} (r : result IoError A) : outcome A := match r with Ok a => Val a | Err e => Fail e end.

Section rules.
Context `{U : Underway} {S : Type}.
Implicit Types (C : S -> Prop) (s : S).

Lemma after_call {A} (op : OsWorld -> A * OsWorld) `{!Along op} w w1 : after w w1 -> after w (op w1).2.
Proof. intros Hw. eapply rtc_r; [exact Hw|]. by exists A, op. Qed.

Lemma stays_ret {A} C (a : A) (Q : result IoError A -> S -> Prop) s : Q (Ok a) s -> stays C (mret a) Q s.
Proof. by intros HQ w. Qed.

Lemma stays_throw {A} C e (Q : result IoError A -> S -> Prop) s : Q (Err e) s -> stays C (throw e) Q s.
Proof. by intros HQ w. Qed.

Lemma stays_out_of_fuel {A} C (Q : result IoError A -> S -> Prop) s : C s -> stays C out_of_fuel Q s.
Proof. by intros HC w. Qed.

Lemma stays_weaken {A} C C' (m : Sys S A) (Q Q' : result IoError A -> S -> Prop) s :
  stays C m Q s -> (forall s, C s -> C' s) -> (forall r s, Q r s -> Q' r s) -> stays C' m Q' s.
Proof.
  intros Hm HC HQ w Hw. specialize (Hm w Hw). destruct (m s w) as [[o s'] w']. destruct Hm as [Hw' Hm].
  split; [done|]. destruct o; cbn in *; auto.
Qed.

Lemma stays_mono {A} C (m : Sys S A) (Q Q' : result IoError A -> S -> Prop) s :
  stays C m Q s -> (forall r s, Q r s -> Q' r s) -> stays C m Q' s.
Proof. intros Hm HQ. by eapply stays_weaken. Qed.

Lemma stays_bind {A B} C (m : Sys S A) (f : A -> Sys S B) (Q : result IoError B -> S -> Prop) s :
  stays C m (fun r s => match r with Ok a => stays C (f a) Q s | Err e => Q (Err e) s end) s -> stays C (m ≫= f) Q s.
Proof.
  intros Hm w Hw. unfold mbind, Sys_bind. specialize (Hm w Hw). destruct (m s w) as [[[] s'] w']; destruct Hm as [Hw' Hm];
    [by apply Hm|done..].
Qed.

Lemma stays_ask_rule {A} C (op : OsWorld -> A * OsWorld) `{!Along op} (Q : result IoError A -> S -> Prop) s :
  (forall w, Q (Ok (op w).1) s) -> stays C (ask op) Q s.
Proof. intros HQ w Hw. unfold ask. specialize (HQ w). apply (after_call op) in Hw. by destruct (op w). Qed.

(** A call, with the world in which it is made. *)
Lemma stays_call_at_rule {A} C (op : OsWorld -> option A * OsWorld) `{!Along op} (Q : result IoError A -> S -> Prop) s :
  C s -> (forall a w, after entered w -> (op w).1 = Some a -> Q (Ok a) s) -> stays C (call op) Q s.
Proof.
  intros HC HQ w Hw. unfold call. pose proof (after_call op _ _ Hw) as Hw'. specialize (fun a => HQ a w Hw).
  destruct (op w) as [[a|] w1]; [|done]. split; [done|]. by apply HQ.
Qed.

Lemma stays_call_rule {A} C (op : OsWorld -> option A * OsWorld) `{!Along op} (Q : result IoError A -> S -> Prop) s :
  C s -> (forall a, Q (Ok a) s) -> stays C (call op) Q s.
Proof. intros HC HQ. by apply (stays_call_at_rule _ _). Qed.

Lemma stays_answered_rule {A} C (op : OsWorld -> option A * OsWorld) `{!Along op} (Q : result IoError A -> S -> Prop) s :
  C s -> (forall a, answered op a -> Q (Ok a) s) -> stays C (call op) Q s.
Proof.
  intros HC HQ. apply (stays_call_at_rule _ _); [done|]. intros a w Hw E. apply HQ. exists w. split; [|done].
  etrans; [apply underway|done].
Qed.

Lemma stays_of_result {A} C (r : result Errno A) (Q : result IoError A -> S -> Prop) s :
  (forall a, r = Ok a -> Q (Ok a) s) -> (forall e, Q (Err e) s) -> stays C (of_result r) Q s.
Proof. intros HQ He w Hw. destruct r; cbn; auto. Qed.

Lemma stays_of_io {A} C (r : result IoError A) (Q : result IoError A -> S -> Prop) s :
  (forall a, r = Ok a -> Q (Ok a) s) -> (forall e, Q (Err e) s) -> stays C (of_io r) Q s.
Proof. intros HQ He w Hw. destruct r; cbn; auto. Qed.

Lemma stays_io_answered_rule {A} C (op : OsWorld -> option (result Errno A) * OsWorld) `{!Along op}
    (Q : result IoError A -> S -> Prop) s :
  C s -> (forall a, answered op (Ok a) -> Q (Ok a) s) -> (forall e, Q (Err e) s) -> stays C (io op) Q s.
Proof.
  intros HC HQ He. apply stays_bind, (stays_answered_rule _ _); [done|]. intros a Ha. apply stays_of_result; [|done]. by intros x ->; apply HQ.
Qed.

Lemma stays_io_rule {A} C (op : OsWorld -> option (result Errno A) * OsWorld) `{!Along op} (Q : result IoError A -> S -> Prop) s :
  C s -> (forall a, Q (Ok a) s) -> (forall e, Q (Err e) s) -> stays C (io op) Q s.
Proof. intros HC HQ He. by apply (stays_io_answered_rule _ _). Qed.

Lemma stays_gets {A} C (f : S -> A) (Q : result IoError A -> S -> Prop) s : Q (Ok (f s)) s -> stays C (gets f) Q s.
Proof. by intros HQ w. Qed.

Lemma stays_modify C (f : S -> S) (Q : result IoError unit -> S -> Prop) s : Q (Ok tt) (f s) -> stays C (modify f) Q s.
Proof. by intros HQ w. Qed.

Lemma stays_attempt {A} C (m : Sys S A) (Q : result IoError (result IoError A) -> S -> Prop) s :
  stays C m (fun r => Q (Ok r)) s -> stays C (attempt m) Q s.
Proof. intros Hm w Hw. unfold attempt. specialize (Hm w Hw). by destruct (m s w) as [[[] ?] ?]. Qed.

(** A computation, with the run it makes. *)
Lemma stays_run {A} C (m : Sys S A) (Q Q' : result IoError A -> S -> Prop) s :
  stays C m Q s ->
  (forall r s' w w', after entered w -> m s w = (ended r, s', w') -> Q r s' -> Q' r s') -> stays C m Q' s.
Proof.
  intros Hm HQ w Hw. specialize (Hm w Hw). specialize (fun r s' w' => HQ r s' w w' Hw). destruct (m s w) as [[o s'] w'].
  destruct Hm as [Hw' Hm]. split; [done|].
  destruct o; cbn in *; [by apply (HQ (Ok _) _ _ eq_refl)|by apply (HQ (Err _) _ _ eq_refl)|done..].
Qed.

Lemma stays_and_then {A B} C (m : Sys S (result ListingError A)) (k : A -> Sys S (result ListingError B))
    (Q : result IoError (result ListingError B) -> S -> Prop) s :
  stays C m (fun r s => match r with
                        | Ok (Ok a) => stays C (k a) Q s
                        | Ok (Err e) => Q (Ok (Err e)) s
                        | Err e => Q (Err e) s
                        end) s ->
  stays C (and_then m k) Q s.
Proof.
  intros Hm. apply stays_bind. eapply stays_mono; [done|]. intros [[a|e]|e] s'; [done| |done]. apply stays_ret.
Qed.

(** Computations with a state of their own. *)
Lemma stays_run_on {T A} C (D : T -> Prop) (t : T) (m : Sys T A)
    (Q : result IoError (result IoError A * T) -> S -> Prop) s :
  C s -> stays D m (fun r t => Q (Ok (r, t)) s) t -> stays C (run_on t m) Q s.
Proof. intros HC Hm w Hw. unfold run_on. specialize (Hm w Hw). by destruct (m t w) as [[[] ?] ?]; destruct Hm. Qed.
End rules.

(** The calls are looked up when a rule is applied. *)
Abbreviation stays_ask := (stays_ask_rule _ _).
Abbreviation stays_call := (stays_call_rule _ _).
Abbreviation stays_answered := (stays_answered_rule _ _).
Abbreviation stays_io_answered := (stays_io_answered_rule _ _).
Abbreviation stays_io := (stays_io_rule _ _).

(** ** Enumerations *)

(** [true]: it goes on in [D]; [false]: it pauses in [K]. *)
Definition going {S} (C D K : S -> Prop) (r : result IoError bool) (s : S) : Prop :=
  match r with Ok true => D s | Ok false => K s | Err _ => C s end.

Section visits.
Context `{U : Underway} `{!ServerEnv} `{!MutationEnv} `{!ListEnv} `{!ListCalls} {S : Type}.

(** [name] was read from the directory [relative], opened as [d]. *)
Definition read_in (relative : bytes) (d : Dir) (name : bytes) : Prop :=
  exists fd next, answered (openat2_beneath root_fd (if bool_decide (relative = []) then DOT else relative)) (Ok fd) /\
    answered (dir_new fd) (Ok d) /\ answered (dir_read d) (Some (Ok (name, next))).

(** An entry that was seen: its name was read from the directory, its path is the
    directory's with that name; its revision is that of what the name was found to be in
    that directory, links not followed, and its metadata that of what its path was found
    to lead to. *)
Definition listed (directory : bytes) (e : RootedDirEntry) : Prop :=
  exists relative d fd nofollow b target,
    relative_path_or_dot directory = Ok relative /\ read_in relative d (de_file_name e) /\
    de_path e = push root_path (join_child relative (de_file_name e)) /\
    dir_fd d = Ok fd /\ answered (statat fd (de_file_name e)) (Ok nofollow) /\
    de_is_symlink e = bool_decide (from_raw_mode (st_mode nofollow) = Symlink) /\
    de_revision_identity e = Existing (replacement_target_identity nofollow) /\
    answered (openat2_path b (join_child relative (de_file_name e))) (Ok target) /\
    answered (fstat target) (Ok (de_metadata e)).

Context (C D K : S -> Prop) (directory : bytes) (budget : Sys S bool) (visitor : RootedDirEntry -> Sys S bool).

(** [C] between two entries, [D] once the budget admits one, [K] where it pauses. *)
Hypothesis admitted_goes : forall s, D s -> C s.
Hypothesis budget_goes : forall s, C s -> stays C budget (going C D K) s.
Hypothesis visitor_goes : forall e s, listed directory e -> D s -> stays C (visitor e) (going C C K) s.

Definition visited_post (r : result IoError DirectoryVisitProgress) (s : S) : Prop :=
  match r with Ok VisitComplete => C s | Ok (VisitPaused _) => K s | Err _ => C s end.

Lemma inspect_stays d relative name s :
  relative_path_or_dot directory = Ok relative -> read_in relative d name -> C s ->
  stays C (inspect_child d relative name)
    (fun r s' => s' = s /\ match r with Ok (Some e) => listed directory e | _ => True end) s.
Proof.
  intros Hrel Hread HC. unfold inspect_child.
  apply stays_bind, stays_of_result; [intros fd Hfd|done]. apply stays_bind, stays_io_answered; [done|intros st Hst|done].
  apply stays_bind, stays_answered; [done|]. intros opened Hopened. cbv beta zeta.
  assert (Hfound : forall (target : OwnedFd) b, answered (openat2_path b (join_child relative name)) (Ok target) ->
    stays C (metadata ← io (fstat target);
             mret (Some {| de_path := push root_path (join_child relative name); de_file_name := name;
                           de_metadata := metadata;
                           de_is_symlink := bool_decide (from_raw_mode (st_mode st) = Symlink);
                           de_revision_identity := Existing (replacement_target_identity st) |}))
      (fun r s' => s' = s /\ match r with Ok (Some e) => listed directory e | _ => True end) s).
  { intros target b Ht. apply stays_bind, stays_io_answered; [done|intros m Hm|done]. apply stays_ret. split; [done|].
    by exists relative, d, fd, st, b, target. }
  destruct opened as [target|e]; [by eapply Hfound|].
  destruct e; try (by apply stays_throw); try (by apply stays_ret); destruct (bool_decide _);
    try (by apply stays_throw); (apply stays_bind, stays_io_answered; [done|intros ? ?; by eapply Hfound|done]).
Qed.

Lemma visit_entries_stays fuel fd d relative cursor s :
  relative_path_or_dot directory = Ok relative ->
  answered (openat2_beneath root_fd (if bool_decide (relative = []) then DOT else relative)) (Ok fd) ->
  answered (dir_new fd) (Ok d) -> C s ->
  stays C (visit_entries fuel d relative cursor budget visitor) visited_post s.
Proof.
  intros Hrel Hfd Hd. revert cursor s. induction fuel as [|fuel IH]; intros cursor s HC; [by apply stays_out_of_fuel|].
  cbn [visit_entries]. apply stays_bind, stays_answered; [done|]. intros [entry|] Hread; [|by apply stays_ret].
  apply stays_bind, stays_of_result; [intros [name next] ->|done].
  destruct (bool_decide _ || bool_decide _); [by apply IH|].
  apply stays_bind. eapply stays_mono; [by apply budget_goes|]. intros [[]|e] s1 Hs1; [|by apply stays_ret|done].
  cbn [negb]. apply stays_bind. eapply stays_mono; [apply inspect_stays; [done|by exists fd, next|by apply admitted_goes]|].
  intros [[e|]|e] s2 [-> He]; [|by apply IH, admitted_goes|by apply admitted_goes].
  apply stays_bind. eapply stays_mono; [by apply visitor_goes|]. intros [[]|x] s3 Hs3; [by apply IH|by apply stays_ret|done].
Qed.

Lemma visit_chunk_stays fuel cursor s :
  C s -> stays C (visit_dir_blocking_chunk fuel directory cursor budget visitor) visited_post s.
Proof.
  intros HC. unfold visit_dir_blocking_chunk. apply stays_bind, stays_of_io; [intros relative Hrel|done].
  apply stays_bind. unfold RootedParents.open_directory_from_root.
  apply stays_io_answered; [done|intros fd Hfd|done].
  apply stays_bind, stays_io_answered; [done|intros d Hd|done]. apply stays_bind.
  eapply (stays_mono _ _ (fun _ s' => s' = s)).
  - destruct (cursor =? 0)%Z; [by apply stays_ret|by apply stays_io].
  - intros [[]|e] s2 ->; [by eapply visit_entries_stays|done].
Qed.
End visits.

(** ** Memory *)

(** Sizes are positive, and the allocator grants what it is asked for, or more. *)
Class ListLaws `{Kernel} `{!ServerEnv} `{!MutationEnv} `{!ListEnv} : Prop := {
  law_walk_state : (0 <= size_of_walk_state)%Z;
  law_frame : (0 < size_of_frame)%Z;
  law_visited : (0 < size_of_visited)%Z;
  law_vec : (0 <= size_of_vec <= ListSnapshot.MAX_CACHED_LIST_SNAPSHOT_BYTES_PER_OWNER)%Z;
  law_path_item : (0 < size_of_path_item)%Z;
  law_path_capacity p : (0 <= path_capacity p)%Z;
  law_string_capacity p : (0 <= string_capacity p)%Z;
  law_reserve n w c : (reserve_exact n w).1 = Some c -> (n <= c)%Z;
  law_reserve_set n w c : (reserve_set n w).1 = Some c -> (n <= c)%Z;
  law_shrink n w : (n <= (shrink_to_fit n w).1)%Z;
  law_admits w : (gate_admits w).1 = true;
  law_compare : ListSort.PreorderCmp compare_str }.

Section memory.
Context `{LL : ListLaws} {K : Calls} {LC : ListCalls} {U : Underway} {S : Type}.

Definition fits {A} (v : Vec A) : Prop := (vec_len v <= capacity v)%Z.

(** A slot that was reserved is there. *)
Lemma reserve_stays {A} (C : S -> Prop) bytes (v : Vec A) other maximum s :
  (0 < bytes)%Z -> fits v -> (vec_len v < U64_MAX)%Z ->
  stays C (try_reserve_bounded_vec_slot bytes v other maximum)
    (fun r s' => s' = s /\ match r with
                           | Ok (v', Ok _) => items v' = items v /\ (vec_len v < capacity v')%Z
                           | Ok _ => True
                           | Err _ => False
                           end) s.
Proof.
  unfold fits. intros Hb Hf Hmax. unfold try_reserve_bounded_vec_slot.
  destruct (Z.ltb_spec (vec_len v) (capacity v)) as [Hlt|Hge]; [by apply stays_ret|].
  destruct (Z.eqb_spec bytes 0); [lia|]. cbn [orb].
  set (m := (_ / bytes)%Z). destruct (Z.ltb_spec m (u64_saturating_add (vec_len v) 1)) as [|Hm]; [by apply stays_ret|].
  set (requested := Z.min _ m).
  assert (Hr : (vec_len v + 1 <= requested)%Z).
  { unfold requested, u64_saturating_add in *. destruct (capacity v =? 0)%Z; lia. }
  apply stays_bind. unfold reserve_slot. set (needed := (vec_len v + _)%Z).
  assert (Hn : (vec_len v + 1 <= needed)%Z) by (unfold needed, u64_saturating_sub; lia).
  destruct (Z.leb_spec needed (capacity v)) as [Hle|_]; [lia|].
  apply stays_bind, stays_ask. intros w. destruct (reserve_exact needed w).1 as [c|] eqn:E.
  - apply law_reserve in E. apply stays_ret. cbn [fmap option_fmap option_map capacity].
    destruct (m <? c)%Z; apply stays_ret; cbn [items capacity]; split_and!; try done; lia.
  - by do 2 apply stays_ret.
Qed.

(** Sums that stay within a budget below the maximum are exact. *)
Lemma state_bytes_exact stack visited active heap additional budget :
  (0 <= stack)%Z -> (0 <= visited)%Z -> (0 <= active)%Z -> (0 <= heap)%Z -> (0 <= additional)%Z -> (budget < U64_MAX)%Z ->
  (state_bytes stack visited active heap additional <= budget)%Z ->
  (size_of_walk_state + stack * size_of_frame + visited * size_of_visited + active * ACTIVE_ENTRY_BYTES
   + heap + additional <= budget)%Z.
Proof.
  intros Hs Hv Ha Hh Hx Hb. unfold state_bytes, u64_saturating_add, u64_saturating_mul.
  pose proof law_walk_state. pose proof law_frame. pose proof law_visited.
  assert (0 <= stack * size_of_frame)%Z by (apply Z.mul_nonneg_nonneg; lia).
  assert (0 <= visited * size_of_visited)%Z by (apply Z.mul_nonneg_nonneg; lia).
  assert (0 <= active * ACTIVE_ENTRY_BYTES)%Z by (apply Z.mul_nonneg_nonneg; [done|by unfold ACTIVE_ENTRY_BYTES]).
  unfold U64_MAX in *. lia.
Qed.

Lemma collection_bytes_exact n bytes heap budget :
  (0 <= n)%Z -> (0 <= bytes)%Z -> (0 <= heap)%Z -> (budget < U64_MAX)%Z ->
  (collection_allocation_bytes n bytes heap <= budget)%Z -> (size_of_vec + n * bytes + heap <= budget)%Z.
Proof.
  intros Hn Hb Hh Hm. unfold collection_allocation_bytes, u64_saturating_add, u64_saturating_mul.
  pose proof law_vec. assert (0 <= n * bytes)%Z by (apply Z.mul_nonneg_nonneg; lia). unfold U64_MAX in *. lia.
Qed.
End memory.

(** ** The walk *)

Definition sum_of {A} (f : A -> Z) (l : list A) : Z := foldr (fun x total => f x + total)%Z 0%Z l.

Lemma sum_of_nonneg {A} (f : A -> Z) l : (forall x, 0 <= f x)%Z -> (0 <= sum_of f l)%Z.
Proof. unfold sum_of. intros Hf. induction l as [|x l IH]; cbn; [done|]. specialize (Hf x). lia. Qed.

Lemma sum_of_app {A} (f : A -> Z) l k : sum_of f (l ++ k) = (sum_of f l + sum_of f k)%Z.
Proof. unfold sum_of. induction l as [|x l IH]; cbn [app foldr]; [done|]. rewrite IH. lia. Qed.

Lemma add_remove (x : Z * Z) (X : gset (Z * Z)) : x ∉ X -> ({[x]} ∪ X) ∖ {[x]} = X.
Proof.
  intros Hx. rewrite difference_union_distr_l_L, difference_diag_L, union_empty_l_L.
  apply difference_disjoint_L. by apply disjoint_singleton_r.
Qed.

(** An item added to a vector with a slot, once the whole was seen to be within the budget. *)
Lemma push_fits `{ListLaws} {A} (bytes : Z) (weight : A -> Z) (v : Vec A) item budget :
  (collection_allocation_bytes (capacity v) bytes (Z.min (sum_of weight (items v ++ [item])) U64_MAX) <= budget)%Z ->
  (vec_len v < capacity v)%Z -> (0 < bytes)%Z -> (forall a, 0 <= weight a)%Z -> (budget < U64_MAX)%Z ->
  vec_len (vec_push item v) = (vec_len v + 1)%Z /\ fits (vec_push item v) /\
  (size_of_vec + capacity v * bytes + sum_of weight (items v ++ [item]) <= budget)%Z.
Proof.
  intros Hfit Hcap Hb Hw Hm. pose proof (sum_of_nonneg weight (items v ++ [item]) Hw) as Hs.
  assert (Hlen : vec_len (vec_push item v) = (vec_len v + 1)%Z) by (unfold vec_len; cbn; rewrite length_app; cbn; lia).
  assert (0 <= vec_len v)%Z by (unfold vec_len; lia).
  apply collection_bytes_exact in Hfit; [|lia|lia|apply Z.min_glb; [done|by unfold U64_MAX]|done].
  pose proof law_vec. assert (0 <= capacity v * bytes)%Z by nia.
  split_and!; [done|unfold fits; rewrite Hlen; cbn; lia|]. lia.
Qed.

Section walk.
Context `{LL : ListLaws} {K : Calls} {LC : ListCalls} {U : Underway} {T : Type}.
Context (walk : DirectoryWalk) (size_of_item : Z)
  (include_entry : RootedDirEntry -> bytes -> Sys (Walk (T := T)) (result ListingError bool))
  (map_entry : RootedDirEntry -> Sys (Walk (T := T)) (result ListingError T))
  (item_heap_bytes : T -> Z)
  (byte_budget : option CollectionByteBudget).

(** The budgets are machine words below the maximum. *)
Hypothesis depth_word : (0 <= dw_max_depth walk < U64_MAX)%Z.
Hypothesis entries_word : (0 <= dw_max_entries walk < U64_MAX)%Z.
Hypothesis working_word : (dw_max_working_bytes walk < U64_MAX)%Z.
Hypothesis item_size : (0 < size_of_item)%Z.
Hypothesis item_weight : forall t, (0 <= item_heap_bytes t)%Z.
Hypothesis budget_word : forall b, byte_budget = Some b -> (size_of_vec <= cb_max_bytes b < U64_MAX)%Z.

Implicit Types s : Walk (T := T).

(** What the callbacks promise of the items they make. *)
Context (Wanted : RootedDirEntry -> bytes -> Prop) (Item : T -> Prop).
Hypothesis include_keeps : forall C e n s,
  stays C (include_entry e n)
    (fun r s' => s' = s /\ match r with Ok (Ok true) => Wanted e n | Ok _ => True | Err _ => False end) s.
Hypothesis map_keeps : forall C directory e n s,
  listed directory e -> Download.os_str_to_str (de_file_name e) = Some n ->
  hidden_entry (dw_serve_path walk) e n = false -> Wanted e n ->
  stays C (map_entry e)
    (fun r s' => s' = s /\ match r with Ok (Ok t) => Item t | Ok _ => True | Err _ => False end) s.

Definition ids (l : list DirectoryWalkFrame) : list (Z * Z) := (fun f => identity (fr_snapshot f)) <$> l.

(** Each frame is one level below the next. *)
Fixpoint depths (l : list DirectoryWalkFrame) : Prop :=
  match l with [] => True | f :: l => fr_depth f = Z.of_nat (length l) /\ depths l end.

Definition exact_bytes (st : DirectoryWalkState) : Z :=
  size_of_walk_state + capacity (ws_stack st) * size_of_frame + capacity (ws_visited st) * size_of_visited
  + ws_active_capacity st * ACTIVE_ENTRY_BYTES + ws_path_heap_bytes st.

(** The walk's own memory: a path of distinct directories, within the budget. *)
Record sound (st : DirectoryWalkState) : Prop := {
  so_depths : depths (items (ws_stack st));
  so_height : (vec_len (ws_stack st) <= dw_max_depth walk + 1)%Z;
  so_active : ws_active st = list_to_set (ids (items (ws_stack st)));
  so_distinct : NoDup (ids (items (ws_stack st)));
  so_stack : fits (ws_stack st);
  so_visited : fits (ws_visited st);
  so_active_capacity : (0 <= ws_active_capacity st)%Z;
  so_paths : ws_path_heap_bytes st =
    (sum_of (fun f => path_capacity (fr_path f)) (items (ws_stack st)) +
     sum_of (fun d => path_capacity (vd_path d)) (items (ws_visited st)))%Z;
  so_bytes : (exact_bytes st <= dw_max_working_bytes walk)%Z }.

(** What was collected: as many items as entries at most, within the byte budget. *)
Record collected (s : Walk (T := T)) : Prop := {
  co_count : (0 <= wk_count s <= dw_max_entries walk)%Z;
  co_items : (vec_len (wk_items s) <= wk_count s)%Z;
  co_heap : wk_heap_bytes s = Z.min (sum_of item_heap_bytes (items (wk_items s))) U64_MAX;
  co_fits : forall b, byte_budget = Some b -> fits (wk_items s);
  co_budget : forall b, byte_budget = Some b ->
    (size_of_vec + capacity (wk_items s) * size_of_item + sum_of item_heap_bytes (items (wk_items s)) <= cb_max_bytes b)%Z;
  co_wanted : Forall Item (items (wk_items s)) }.

Definition good (s : Walk (T := T)) : Prop := sound (wk_state s) /\ collected s.

Lemma vec_len_nonneg {A} (v : Vec A) : (0 <= vec_len v)%Z.
Proof. unfold vec_len. lia. Qed.

Lemma sound_words st : sound st ->
  (0 <= capacity (ws_stack st) < U64_MAX)%Z /\ (0 <= capacity (ws_visited st) < U64_MAX)%Z /\ (0 <= ws_path_heap_bytes st)%Z.
Proof.
  intros [_ _ _ _ Hs Hv Ha Hp Hb]. unfold fits in *.
  pose proof (vec_len_nonneg (ws_stack st)). pose proof (vec_len_nonneg (ws_visited st)).
  pose proof (sum_of_nonneg (fun f => path_capacity (fr_path f)) (items (ws_stack st)) (fun f => law_path_capacity _)).
  pose proof (sum_of_nonneg (fun d => path_capacity (vd_path d)) (items (ws_visited st)) (fun d => law_path_capacity _)).
  unfold exact_bytes, ACTIVE_ENTRY_BYTES in Hb.
  pose proof law_walk_state. pose proof law_frame. pose proof law_visited.
  assert (capacity (ws_stack st) <= capacity (ws_stack st) * size_of_frame)%Z by nia.
  assert (capacity (ws_visited st) <= capacity (ws_visited st) * size_of_visited)%Z by nia. lia.
Qed.

(** The operation fails, or leads to a sound state and changes nothing else. *)
Definition makes_sound (s : Walk (T := T)) (r : result IoError (result ListingError unit)) (s' : Walk (T := T)) : Prop :=
  match r with
  | Ok (Ok _) => exists st, s' = with_state st s /\ sound st
  | Ok (Err _) => True
  | Err _ => False
  end.

Lemma working_bytes_exact st extra :
  sound st -> (0 <= extra)%Z ->
  forall stack, (0 <= capacity stack)%Z -> (working_bytes (with_stack stack st) extra <= dw_max_working_bytes walk)%Z ->
  (size_of_walk_state + capacity stack * size_of_frame + capacity (ws_visited st) * size_of_visited
   + ws_active_capacity st * ACTIVE_ENTRY_BYTES + ws_path_heap_bytes st + extra <= dw_max_working_bytes walk)%Z.
Proof.
  intros Hst Hx stack Hc Hw. destruct (sound_words st Hst) as (_ & Hv & Hp). destruct Hst.
  unfold working_bytes in Hw. cbn in Hw. apply state_bytes_exact in Hw; [done|lia..].
Qed.

Lemma push_stays C path snapshot depth s :
  sound (wk_state s) -> depth = vec_len (ws_stack (wk_state s)) ->
  stays C (push_directory walk path snapshot depth) (makes_sound s) s.
Proof.
  intros Hst ->. unfold push_directory. set (st := wk_state s) in *.
  destruct (Z.ltb_spec (dw_max_depth walk) (vec_len (ws_stack st))) as [|Hd]; [by apply stays_ret|].
  apply stays_bind, stays_gets. fold st. case_bool_decide as Ha; [by apply stays_ret|].
  destruct (_ <? _)%Z; [by apply stays_ret|].
  destruct (sound_words st Hst) as (Hsw & Hvw & Hpw).
  assert (Hlen : (vec_len (ws_stack st) < U64_MAX)%Z) by (pose proof (so_stack st Hst); unfold fits in *; lia).
  apply stays_bind. eapply stays_mono; [apply reserve_stays; [apply law_frame|apply Hst|done]|].
  intros [[stack [[]|e]]|e] s1 [-> Hr]; [|apply stays_bind, stays_modify; by destruct e; apply stays_ret|done].
  destruct Hr as [Hitems Hcap].
  apply stays_bind, stays_modify. destruct (Z.ltb_spec (dw_max_working_bytes walk)
    (working_bytes (with_stack stack st) (path_capacity path))) as [|Hw]; [by apply stays_ret|].
  apply stays_bind, stays_modify, stays_ret. eexists. split; [reflexivity|].
  pose proof (law_path_capacity path) as Hpc.
  pose proof (vec_len_nonneg (ws_stack st)) as Hl0.
  apply (working_bytes_exact st _ Hst Hpc stack) in Hw; [|lia].
  pose proof law_frame. pose proof law_visited. pose proof law_walk_state.
  assert (Hheap : (ws_path_heap_bytes st + path_capacity path < U64_MAX)%Z).
  { pose proof (so_active_capacity st Hst). unfold ACTIVE_ENTRY_BYTES in Hw.
    assert (0 <= capacity stack * size_of_frame)%Z by nia.
    assert (0 <= capacity (ws_visited st) * size_of_visited)%Z by nia. lia. }
  destruct Hst as [Hdep Hh Hact Hnd Hfs Hfv Hac Hpa Hby].
  split; cbn [ws_stack ws_visited ws_active ws_active_capacity ws_path_heap_bytes items capacity with_stack];
    rewrite ?Hitems in *.
  - split; [|done]. unfold vec_len. done.
  - unfold vec_len in *. cbn [items length]. lia.
  - by rewrite Hact.
  - cbn. constructor; [|done]. rewrite Hact, elem_of_list_to_set in Ha. exact Ha.
  - unfold fits, vec_len in *. cbn [items capacity length]. lia.
  - done.
  - done.
  - unfold u64_saturating_add. rewrite Z.min_l, Hpa by lia. cbn. unfold sum_of. lia.
  - unfold exact_bytes, u64_saturating_add. cbn [ws_stack ws_visited ws_active ws_active_capacity ws_path_heap_bytes capacity].
    rewrite Z.min_l by lia. lia.
Qed.

(** Popping a frame takes its identity out of the active ones. *)
Lemma pop_active (st : DirectoryWalkState) f rest :
  sound st -> items (ws_stack st) = f :: rest ->
  ws_active st ∖ {[identity (fr_snapshot f)]} = list_to_set (ids rest).
Proof.
  intros Hst E. rewrite (so_active st Hst), E. pose proof (so_distinct st Hst) as Hn. rewrite E in Hn.
  cbn in Hn. apply NoDup_cons in Hn as [Hn _]. cbn.
  apply add_remove. by rewrite elem_of_list_to_set.
Qed.

Lemma finish_stays C s :
  sound (wk_state s) -> items (ws_stack (wk_state s)) <> [] ->
  stays C (finish_current walk) (makes_sound s) s.
Proof.
  intros Hst Hne. unfold finish_current, pop_frame. set (st := wk_state s) in *.
  destruct (items (ws_stack st)) as [|f rest] eqn:E; [done|].
  apply stays_bind, stays_bind, stays_gets. fold st. rewrite E. apply stays_bind, stays_modify, stays_ret.
  apply stays_bind, stays_gets, stays_bind, stays_modify. cbv zeta.
  cbn [with_state wk_state with_stack with_active ws_active].
  set (st1 := with_active _ _). destruct (_ <? _)%Z; [by apply stays_ret|].
  destruct (sound_words st Hst) as (Hsw & Hvw & Hpw).
  assert (Hlen : (vec_len (ws_visited st1) < U64_MAX)%Z) by (pose proof (so_visited st Hst); unfold fits in *; cbn; lia).
  apply stays_bind. eapply stays_mono; [apply reserve_stays; [apply law_visited|apply Hst|done]|].
  intros [[visited [[]|e]]|e] s1 [-> Hr]; [|apply stays_bind, stays_modify; by destruct e; apply stays_ret|done].
  destruct Hr as [Hitems Hcap]. apply stays_bind, stays_modify.
  destruct (Z.ltb_spec (dw_max_working_bytes walk) (working_bytes (with_visited visited st1) 0)) as [|Hw];
    [by apply stays_ret|].
  apply stays_bind, stays_modify, stays_ret. eexists. split; [reflexivity|].
  pose proof (pop_active st f rest Hst E) as Hact1.
  pose proof (vec_len_nonneg (ws_visited st)) as Hv0.
  unfold working_bytes in Hw. cbn [st1 with_visited with_active with_stack ws_stack ws_visited ws_active_capacity
    ws_path_heap_bytes capacity] in Hw, Hcap, Hitems.
  destruct Hst as [Hdep Hh Hact Hnd Hfs Hfv Hac Hpa Hby].
  apply state_bytes_exact in Hw; [|lia..].
  split; cbn [st1 with_visited with_active with_stack ws_stack ws_visited ws_active ws_active_capacity
    ws_path_heap_bytes items capacity vec_push]; rewrite ?Hitems; rewrite E in *.
  - apply Hdep.
  - unfold vec_len in *. cbn [items]. rewrite E in Hh. cbn in Hh. lia.
  - exact Hact1.
  - cbn in Hnd. by apply NoDup_cons in Hnd as [_ Hnd].
  - unfold fits, vec_len in *. cbn [items capacity]. rewrite E in Hfs. cbn in Hfs. lia.
  - unfold fits, vec_len in *. cbn [items capacity vec_push]. rewrite Hitems, length_app. cbn. lia.
  - done.
  - rewrite Hpa, sum_of_app. cbn. unfold sum_of. lia.
  - unfold exact_bytes. cbn [st1 with_visited with_active with_stack ws_stack ws_visited ws_active_capacity
      ws_path_heap_bytes capacity vec_push]. lia.
Qed.

Lemma set_cursor_stays C c s :
  sound (wk_state s) -> items (ws_stack (wk_state s)) <> [] ->
  stays C (set_cursor c)
    (fun r s' => r = Ok tt /\ exists st, s' = with_state st s /\ sound st /\
                 vec_len (ws_stack st) = vec_len (ws_stack (wk_state s))) s.
Proof.
  intros Hst Hne. unfold set_cursor. apply stays_bind, stays_gets. set (st := wk_state s) in *.
  destruct (items (ws_stack st)) as [|f rest] eqn:E; [done|]. apply stays_modify. split; [done|].
  eexists. split; [reflexivity|]. unfold vec_len. cbn [with_stack ws_stack items length]. rewrite E. split; [|done].
  destruct Hst as [Hdep Hh Hact Hnd Hfs Hfv Hac Hpa Hby]. unfold fits, vec_len in *. rewrite E in *.
  by split.
Qed.

(** ** One entry *)

(** The state while a directory is enumerated, and where the enumeration pauses. *)
Definition reading (st : DirectoryWalkState) (s : Walk (T := T)) : Prop :=
  good s /\ wk_state s = st /\ wk_error s = None /\ wk_descend s = None.
Definition admitted (st : DirectoryWalkState) (s : Walk (T := T)) : Prop :=
  reading st s /\ (vec_len (wk_items s) < wk_count s)%Z.
Definition paused (st : DirectoryWalkState) (depth : Z) (s : Walk (T := T)) : Prop :=
  wk_state s = st /\
  (wk_error s <> None \/ wk_error s = None /\ good s /\ exists p d, wk_descend s = Some (p, d, (depth + 1)%Z)).

Lemma interrupted_stays C a b e1 e2 s : stays C (interrupted a b e1 e2) (fun r s' => s' = s /\ is_ok r = true) s.
Proof.
  unfold interrupted. apply stays_bind, stays_ask. intros w. destruct (is_cancelled w).1; [by apply stays_ret|].
  apply stays_bind, stays_ask. intros w'. by destruct (_ <=? _)%Z; apply stays_ret.
Qed.

Lemma stop_stays C st (D : Walk -> Prop) depth e s :
  wk_state s = st -> stays C (stop_with e) (going (reading st) D (paused st depth)) s.
Proof. intros Hs. apply stays_bind, stays_modify, stays_ret. split; [done|]. by left. Qed.

Lemma budget_stays st depth started s :
  reading st s ->
  stays (reading st) (walk_budget walk started) (going (reading st) (admitted st) (paused st depth)) s.
Proof.
  intros (Hg & Hs & He & Hd). unfold walk_budget. apply stays_bind.
  eapply stays_mono; [apply interrupted_stays|]. intros [[e|]|e] s1 [-> Hok]; [by apply stop_stays| |done].
  apply stays_bind, stays_modify, stays_bind, stays_gets. cbn [with_count wk_count].
  destruct (Z.ltb_spec (dw_max_entries walk) (u64_saturating_add (wk_count s) 1)) as [|Hle]; [by apply stop_stays|].
  apply stays_ret. destruct Hg as [Hst [Hc Hi Hh Hf Hb Hw]]. unfold u64_saturating_add in *.
  split; [|cbn [with_count wk_count wk_items]; lia]. split_and!; try done. split; [done|].
  split; cbn [with_count wk_count wk_items wk_heap_bytes]; try done; lia.
Qed.

(** An item is added within the budget, or refused. *)
Lemma add_item_stays C item s :
  collected s -> (vec_len (wk_items s) < wk_count s)%Z -> Item item ->
  stays C (add_item size_of_item item_heap_bytes byte_budget item)
    (fun r s' => match r with
                 | Ok None => exists v h, s' = with_items v h s /\ collected s'
                 | Ok (Some _) => exists v h, s' = with_items v h s
                 | Err _ => False
                 end) s.
Proof.
  intros [Hc Hi Hh Hf Hb Hw] Hlt Hitem. unfold add_item. apply stays_bind, stays_gets, stays_bind, stays_gets. cbv zeta.
  set (proposed := u64_saturating_add (wk_heap_bytes s) (item_heap_bytes item)).
  pose proof (item_weight item) as Hwt.
  pose proof (sum_of_nonneg item_heap_bytes (items (wk_items s)) item_weight) as Hsum.
  assert (Hp : proposed = Z.min (sum_of item_heap_bytes (items (wk_items s) ++ [item])) U64_MAX).
  { unfold proposed, u64_saturating_add. rewrite Hh, sum_of_app. cbn. lia. }
  assert (Hlast : Forall Item (items (wk_items s) ++ [item])) by (apply Forall_app; split; [done|by repeat constructor]).
  destruct byte_budget as [budget|] eqn:Eb.
  - destruct (_ <? _)%Z; [apply stays_ret; by exists (wk_items s), (wk_heap_bytes s); destruct s|].
    destruct (budget_word budget eq_refl) as [Hv Hmax].
    specialize (Hf budget eq_refl). specialize (Hb budget eq_refl).
    apply stays_bind. eapply stays_mono.
    { apply reserve_stays; [done|done|]. unfold fits in Hf. pose proof (vec_len_nonneg (wk_items s)).
      pose proof law_vec. assert (capacity (wk_items s) <= capacity (wk_items s) * size_of_item)%Z by nia. lia. }
    intros [[v [[]|e]]|e] s1 [-> Hr]; [|apply stays_bind, stays_modify; destruct e; apply stays_ret; by eauto|done].
    destruct Hr as [Hitems Hcap]. apply stays_bind, stays_modify.
    destruct (Z.ltb_spec (cb_max_bytes budget) (collection_allocation_bytes (capacity v) size_of_item proposed)) as [|Hfit];
      [apply stays_ret; by eauto|].
    apply stays_bind, stays_modify, stays_ret. eexists _, _. split; [reflexivity|].
    rewrite Hp in Hfit. rewrite <- Hitems in Hfit.
    apply push_fits in Hfit as (Hlen & Hfits & Hbytes); [|by rewrite ?Hitems; unfold vec_len in *; rewrite ?Hitems|done..].
    split; cbn [with_items wk_count wk_items wk_heap_bytes vec_push items capacity]; rewrite ?Hitems in *; try done.
    + unfold vec_len in *. rewrite Hlen, Hitems. lia.
    + intros b Eb'. rewrite Eb in Eb'. by injection Eb' as <-.
  - apply stays_bind, stays_modify, stays_ret. eexists _, _. split; [reflexivity|].
    split; cbn [with_items wk_count wk_items wk_heap_bytes vec_push items capacity]; try done; try congruence.
    unfold vec_len in *. cbn [items vec_push]. rewrite length_app. cbn. lia.
Qed.

Lemma collected_same s s' :
  wk_count s' = wk_count s -> wk_items s' = wk_items s -> wk_heap_bytes s' = wk_heap_bytes s -> collected s -> collected s'.
Proof. intros E1 E2 E3 []. split; rewrite ?E1, ?E2, ?E3; done. Qed.

Lemma visitor_stays st directory f started e s :
  listed directory e -> fr_depth f = (vec_len (ws_stack st) - 1)%Z -> (vec_len (ws_stack st) <= dw_max_depth walk + 1)%Z ->
  admitted st s ->
  stays (reading st)
    (walk_visitor walk size_of_item include_entry map_entry item_heap_bytes byte_budget started (fr_depth f) e)
    (going (reading st) (reading st) (paused st (fr_depth f))) s.
Proof.
  intros He Hdepth Hh [(Hg & Hs & Herr & Hdesc) Hlt]. unfold walk_visitor.
  assert (Hmore : u64_saturating_add (fr_depth f) 1 = (fr_depth f + 1)%Z) by (unfold u64_saturating_add; lia).
  apply stays_bind. eapply stays_mono; [apply interrupted_stays|].
  intros [[x|]|x] s1 [-> Hok]; [by apply stop_stays| |done].
  destruct (Download.os_str_to_str (de_file_name e)) as [name|] eqn:En; [|by apply stop_stays].
  destruct (hidden_entry (dw_serve_path walk) e name) eqn:Hhid; [by apply stays_ret|].
  assert (Hdescend : forall s, good s -> wk_state s = st -> wk_error s = None -> wk_descend s = None ->
    stays (reading st)
      (if is_dir (de_metadata e) then
         _ ← modify (with_descend (Some (de_path e, from_metadata (de_metadata e), u64_saturating_add (fr_depth f) 1)));
         mret false
       else mret true) (going (reading st) (reading st) (paused st (fr_depth f))) s).
  { intros s0 [Hso Hco] E1 E2 E3. destruct (is_dir _); [|by apply stays_ret].
    apply stays_bind, stays_modify, stays_ret. split; [done|]. right. split_and!; [done| |].
    - split; [done|]. by apply (collected_same s0).
    - eexists _, _. cbn. by rewrite Hmore. }
  apply stays_bind. eapply stays_mono; [apply include_keeps|].
  intros [[[]|x]|x] s1 [-> Hinc]; [| |by apply stop_stays|done]; cbn [negb]; [|by apply Hdescend].
  apply stays_bind. eapply stays_mono; [by eapply map_keeps|].
  intros [[item|x]|x] s1 [-> Hitem]; [|by apply stop_stays|done].
  apply stays_bind. eapply stays_mono; [apply add_item_stays; [apply Hg|done|done]|].
  intros [[x|]|x] s1 Hadd; [| |done].
  - destruct Hadd as (v & h & ->). by apply stop_stays.
  - destruct Hadd as (v & h & -> & Hco). apply Hdescend; [|done..]. by split; [apply Hg|].
Qed.

(** ** The loop *)

Lemma ensure_stays (C : Walk -> Prop) d op s :
  C s -> stays C (ensure_directory_snapshot_blocking d op) (fun r s' => s' = s /\ is_ok r = true) s.
Proof.
  intros HC. unfold ensure_directory_snapshot_blocking, metadata_blocking.
  apply stays_bind, stays_attempt, stays_bind, stays_of_io; [intros rel _|].
  - apply stays_bind, stays_io; [done|intros fd|].
    + apply stays_io; [done|intros m|].
      * destruct (negb _); [by apply stays_ret|]. by destruct (negb _); apply stays_ret.
      * intros e. by apply stays_ret.
    + intros e. by apply stays_ret.
  - intros e. by apply stays_ret.
Qed.

Abbreviation loop := (walk_loop walk size_of_item include_entry map_entry item_heap_bytes byte_budget).

Definition loop_post (r : result IoError (result ListingError unit)) (s : Walk (T := T)) : Prop :=
  match r with Ok (Ok _) => good s | Ok (Err _) => True | Err _ => False end.

Lemma good_state st s : collected s -> sound st -> good (with_state st s).
Proof. intros Hc Hs. split; [done|]. by apply (collected_same s). Qed.

Lemma loop_stays fuel visit_fuel started s : good s -> stays good (loop fuel visit_fuel started) loop_post s.
Proof.
  revert s. induction fuel as [|fuel IH]; intros s Hg; [by apply stays_out_of_fuel|]. cbn [walk_loop].
  apply stays_bind, stays_gets. destruct (items (ws_stack (wk_state s))) as [|f rest] eqn:E; [by apply stays_ret|].
  apply stays_bind. eapply stays_mono; [apply interrupted_stays|]. intros [[x|]|x] s1 [-> Hok]; [by apply stays_ret| |done].
  apply stays_and_then. eapply stays_mono; [by apply ensure_stays|].
  intros [[[]|x]|x] s1 [-> Hok1]; [|done|done].
  apply stays_bind, stays_modify, stays_bind, stays_modify. apply stays_bind, stays_attempt.
  set (s0 := with_descend None (with_error None s)). set (st := wk_state s) in *.
  assert (Hdepth : fr_depth f = (vec_len (ws_stack st) - 1)%Z).
  { destruct Hg as [[Hd _ _ _ _ _ _ _ _] _]. fold st in Hd. rewrite E in Hd. destruct Hd as [-> _].
    unfold vec_len. rewrite E. cbn. lia. }
  assert (Hread : reading st s0).
  { split_and!; try done. destruct Hg as [Hso Hco]. split; [done|]. by apply (collected_same s). }
  eapply (stays_weaken (reading st)); [|by intros s1 [? _]|].
  { apply (visit_chunk_stays (reading st) (admitted st) (paused st (fr_depth f)) (fr_path f)).
    - by intros s1 [? _].
    - intros s1. apply budget_stays.
    - intros e s1 He. apply (visitor_stays _ (fr_path f)); [done|done|]. apply Hg.
    - done. }
  intros r s1 Hv. apply stays_bind, stays_gets.
  destruct (wk_error s1) as [x|] eqn:He; [by apply stays_ret|].
  destruct r as [[|cursor]|x]; [| |by apply stays_ret].
  - destruct Hv as (Hg1 & Hs1 & _). apply stays_and_then. eapply stays_mono.
    + apply finish_stays; [by apply Hg1|]. rewrite Hs1, E. done.
    + intros [[[]|x]|x] s2 Hf; [|done|done]. destruct Hf as (st2 & -> & Hso). apply IH.
      apply good_state; [apply Hg1|done].
  - destruct Hv as [Hs1 [Herr|(_ & Hg1 & p & d & Hdes)]]; [done|].
    apply stays_bind. eapply stays_mono.
    + apply set_cursor_stays; [by apply Hg1|]. rewrite Hs1, E. done.
    + intros r s2 [-> (st2 & -> & Hso & Hl)]. apply stays_bind, stays_gets. cbn [with_state wk_descend]. rewrite Hdes.
      apply stays_and_then. eapply stays_mono.
      * apply push_stays; [done|]. cbn [with_state wk_state]. rewrite Hl, Hs1, Hdepth. lia.
      * intros [[[]|x]|x] s3 Hp; [|done|done]. destruct Hp as (st3 & -> & Hso3). apply IH.
        apply good_state; [|done]. apply (collected_same s1); [done..|apply Hg1].
Qed.

Lemma recheck_stays started l s : good s ->
  stays good (recheck walk started l) (fun r s' => s' = s /\ is_ok r = true) s.
Proof.
  intros Hg. induction l as [|d l IH]; [by apply stays_ret|]. cbn [recheck].
  apply stays_bind. eapply stays_mono; [apply interrupted_stays|]. intros [[x|]|x] s1 [-> Hok]; [by apply stays_ret| |done].
  apply stays_and_then. eapply stays_mono; [by apply ensure_stays|]. by intros [[[]|x]|x] s1 [-> Hok1].
Qed.

(** Before the walk has begun, and from then on. *)
Definition bounded (s : Walk (T := T)) : Prop := s = empty_walk \/ good s.

Definition task_post (r : result IoError (result ListingError (Vec T))) (s : Walk (T := T)) : Prop :=
  match r with Ok (Ok v) => good s /\ v = wk_items s | Ok (Err _) => True | Err _ => False end.

Lemma initial_sound c :
  (0 <= c)%Z -> (size_of_walk_state + c * ACTIVE_ENTRY_BYTES <= dw_max_working_bytes walk)%Z -> sound (initial_state c).
Proof.
  intros Hc Hb. unfold initial_state.
  split; cbn [ws_stack ws_visited ws_active ws_active_capacity ws_path_heap_bytes items capacity empty_vec ids fmap list_fmap].
  - exact I.
  - unfold vec_len. cbn [empty_vec items length Z.of_nat]. lia.
  - reflexivity.
  - constructor.
  - unfold fits, vec_len. cbn [empty_vec items length Z.of_nat capacity]. lia.
  - unfold fits, vec_len. cbn [empty_vec items length Z.of_nat capacity]. lia.
  - exact Hc.
  - reflexivity.
  - unfold exact_bytes. cbn [ws_stack ws_visited ws_active_capacity ws_path_heap_bytes capacity empty_vec]. lia.
Qed.

Lemma empty_collected st : collected (with_state st empty_walk).
Proof.
  split; cbn [with_state empty_walk wk_count wk_items wk_heap_bytes items capacity empty_vec sum_of foldr].
  - lia.
  - unfold vec_len. cbn [empty_vec items length Z.of_nat]. lia.
  - unfold U64_MAX. lia.
  - intros b _. unfold fits, vec_len. cbn [empty_vec items length Z.of_nat capacity]. lia.
  - intros b Eb. specialize (budget_word b Eb). lia.
  - constructor.
Qed.

Lemma initial_good c :
  (0 <= c)%Z -> (working_bytes (initial_state c) 0 <= dw_max_working_bytes walk)%Z ->
  good (with_state (initial_state c) empty_walk).
Proof.
  intros Hc Hw. split; [|apply empty_collected]. apply initial_sound; [done|].
  unfold working_bytes in Hw. apply state_bytes_exact in Hw; cbn [initial_state ws_stack ws_visited ws_active_capacity
    ws_path_heap_bytes capacity empty_vec] in *; lia.
Qed.

Lemma new_state_stays C :
  stays C (new_walk_state walk) (fun r s => match r with
                                            | Ok (Ok _) => good s /\ items (ws_stack (wk_state s)) = []
                                            | Ok (Err _) => True
                                            | Err _ => False
                                            end) empty_walk.
Proof.
  unfold new_walk_state. cbv zeta. destruct (_ <? _)%Z; [by apply stays_ret|]. apply stays_bind, stays_ask. intros w.
  destruct (reserve_set _ w).1 as [c|] eqn:E; [|by apply stays_ret]. apply law_reserve_set in E.
  assert (Hc : (0 <= c)%Z) by (etrans; [|exact E]; apply Z.min_glb; [lia|done]).
  destruct (Z.ltb_spec (dw_max_working_bytes walk) (working_bytes (initial_state c) 0)) as [|Hw]; [by apply stays_ret|].
  apply stays_bind, stays_modify, stays_ret. by split; [apply initial_good|].
Qed.

Lemma task_stays fuel visit_fuel started :
  stays bounded (walk_task walk size_of_item include_entry map_entry item_heap_bytes byte_budget fuel visit_fuel started)
    task_post empty_walk.
Proof.
  assert (Hb : bounded empty_walk) by (by left).
  unfold walk_task. apply stays_bind, stays_attempt. unfold metadata_blocking.
  apply stays_bind, stays_of_io; [intros rel _|intros e; by apply stays_ret].
  apply stays_bind, stays_io; [done|intros fd|intros e; by apply stays_ret].
  apply stays_io; [done|intros root|intros e; by apply stays_ret].
  destruct (negb (is_dir root)); [by apply stays_ret|].
  apply stays_and_then. eapply stays_mono; [apply new_state_stays|]. intros [[[]|x]|x] s Hs; [|done|done].
  destruct Hs as [Hg He].
  apply stays_and_then. eapply stays_mono; [apply push_stays; [apply Hg|by unfold vec_len; rewrite He]|].
  intros [[[]|x]|x] s1 Hp; [|done|done]. destruct Hp as (st & -> & Hso).
  assert (Hg1 : good (with_state st s)) by (by apply good_state; [apply Hg|]).
  apply stays_and_then. eapply (stays_weaken good); [by apply loop_stays|by right|].
  intros [[[]|x]|x] s2 Hg2; [|done|done].
  apply stays_bind, stays_gets, stays_and_then. eapply (stays_weaken good); [by apply recheck_stays|by right|].
  intros [[[]|x]|x] s3 [-> Hok]; [|done|done]. by apply stays_bind, stays_gets, stays_ret.
Qed.
End walk.

(** ** Items *)

Section items.
Context `{LL : ListLaws} {K : Calls} {LC : ListCalls} {U : Underway}.

(** What an item says of the entry beside its name and revision. *)
Record tells (e : RootedDirEntry) (item : ListSort.PathItem) : Prop := {
  te_type : ListSort.path_type item = match de_is_symlink e, is_dir (de_metadata e) with
                                      | true, true => ListSort.SymlinkDir
                                      | false, true => ListSort.Dir
                                      | true, false => ListSort.SymlinkFile
                                      | false, false => ListSort.File
                                      end;
  te_size : ListSort.size item = if is_dir (de_metadata e) then 0%Z else (st_size (de_metadata e) mod (U64_MAX + 1))%Z;
  te_mtime : ListSort.mtime item = match entry_modified (de_metadata e) with Some t => to_timestamp t | None => 0%Z end;
  te_sort_name : ListSort.sort_name item = to_lowercase (ListSort.name item) }.

(** The item stands for an entry seen in the directory that may be shown: its name is
    text, neither internal nor reserved; the item's name is the entry's path below [base],
    its revision is that of what was found there, and the rest is what its metadata say. *)
Definition item_in (directory base owner : bytes) (wanted : bytes -> bool) (item : ListSort.PathItem) : Prop :=
  exists e name relative,
    listed directory e /\ Download.os_str_to_str (de_file_name e) = Some name /\
    hidden_entry root_path e name = false /\ wanted name = true /\
    strip_path (de_path e) base = Some (ListSort.name item) /\ strip_path (de_path e) root_path = Some relative /\
    target_revision owner relative (de_revision_identity e) = Some (ListSort.item_revision item) /\ tells e item.
Definition item_of (base owner : bytes) (wanted : bytes -> bool) (item : ListSort.PathItem) : Prop :=
  exists directory, item_in directory base owner wanted item.

Lemma pathitem_stays {S} (C : S -> Prop) base owner wanted directory e name s :
  listed directory e -> Download.os_str_to_str (de_file_name e) = Some name ->
  hidden_entry root_path e name = false -> wanted name = true ->
  stays C (pathitem_from_rooted_entry base root_path owner e)
    (fun r s' => s' = s /\ match r with
                           | Ok (Ok item) => item_in directory base owner wanted item
                           | Ok _ => True
                           | Err _ => False
                           end) s.
Proof.
  intros He Hname Hhid Hw. unfold pathitem_from_rooted_entry.
  apply stays_and_then, stays_ret. destruct (strict_file_name _ _) as [x|x]; [|done].
  apply stays_and_then, stays_ret. unfold strict_relative_path.
  destruct (strip_path (de_path e) base) as [rel|] eqn:Ebase; [|done]. cbn [ok_or mbind result_bind].
  destruct (Download.os_str_to_str rel) as [text|] eqn:Etext; [|done]. cbn [ok_or].
  assert (text = rel) as ->.
  { unfold Download.os_str_to_str in Etext. destruct (Download.utf8_loop _ _); [|done]. by injection Etext. }
  apply stays_and_then, stays_ret. destruct (strip_path (de_path e) root_path) as [relative|] eqn:Eroot; [|done].
  cbn [ok_or]. assert (exists target, de_revision_identity e = Existing target) as [target Hid].
  { destruct He as (? & ? & ? & st & ? & ? & _ & _ & _ & _ & _ & _ & Hid & _). by eexists. }
  unfold target_revision at 1. rewrite Hid. cbn [exists_ negb]. apply stays_bind.
  cbn [expect]. apply stays_ret, stays_ret. split; [done|].
  exists e, name, relative. split_and!; try done. unfold target_revision. by rewrite Hid.
Qed.

Lemma heap_bytes_nonneg item : (0 <= path_item_heap_bytes item)%Z.
Proof.
  unfold path_item_heap_bytes, u64_saturating_add.
  pose proof (law_string_capacity (ListSort.name item)). pose proof (law_string_capacity (ListSort.sort_name item)).
  apply Z.min_glb; [lia|done].
Qed.

(** The bytes of a listing: the vector, its items and their texts. *)
Definition listing_bytes (l : list ListSort.PathItem) : Z :=
  size_of_vec + Z.of_nat (length l) * size_of_path_item + sum_of path_item_heap_bytes l.

Lemma sum_of_permutation {A} (f : A -> Z) l k : l ≡ₚ k -> sum_of f l = sum_of f k.
Proof. unfold sum_of. induction 1; cbn; lia. Qed.

(** Sorting keeps the items. *)
Lemma finish_stays_listing {S} (C : S -> Prop) sort order max_bytes op (v : Vec ListSort.PathItem) s :
  stays C (finish_listing sort order max_bytes op v)
    (fun r s' => s' = s /\ match r with
                 | Ok (Ok out) => items out ≡ₚ items v /\
                     ListSort.stable_sort_of (ListSort.compare_path_items compare_str sort order) (items v) (items out)
                 | Ok (Err _) => True
                 | Err _ => False
                 end) s.
Proof.
  unfold finish_listing. apply stays_and_then, stays_ret. destruct (ensure_path_sort_budget v max_bytes op) as [[]|e]; [|done].
  apply stays_and_then. unfold sort_items. apply stays_bind, stays_ask. intros w.
  destruct (sort_signals w).1 as [[[signals last] rc] rn].
  unfold ListSort.sort_path_items_interruptibly.
  pose proof (ListSort.compare_path_items_preorder compare_str (PreorderCmp0 := law_compare) sort order) as Hcmp.
  pose proof (ListSort.sort_ends (ListSort.compare_path_items compare_str sort order) (ListSort.sort_active signals)
                (items v) rc rn) as Hs.
  destruct (ListSort.stable_sort_by_interruptible _ _ _ _ _) as [out [[]|e]].
  - destruct Hs as [Hp Hs]. apply stays_ret, stays_bind. unfold shrink_paths_if_wasteful. cbn [items capacity].
    destruct (_ && _); [|by do 2 apply stays_ret]. by apply stays_bind, stays_ask; intros w'; do 2 apply stays_ret.
  - destruct Hs as [_ [[-> _]|[-> _]]]; [|by apply stays_ret].
    by destruct (negb _ && _); apply stays_ret.
Qed.
End items.

(** ** The theorems *)

Section theorems.
Context `{LL : ListLaws} {K : Calls} {LC : ListCalls} {U : Underway}.

Context (path owner : bytes) (query : bytes) (max_entries max_duration : Z).
Hypothesis entries_word : (0 <= max_entries < U64_MAX)%Z.

Abbreviation search_item := (item_of path owner (fun name => case_folded_contains name query)).
Abbreviation search_good := (good (search_walk path max_entries max_duration) size_of_path_item path_item_heap_bytes
                               (Some search_budget) search_item).
Abbreviation search_task := (walk_task (search_walk path max_entries max_duration) size_of_path_item
              (fun _ name => mret (Ok (case_folded_contains name query)))
              (pathitem_from_rooted_entry path root_path owner)
              path_item_heap_bytes (Some search_budget)).

Lemma search_task_stays fuel visit_fuel started :
  stays (bounded (search_walk path max_entries max_duration) size_of_path_item path_item_heap_bytes (Some search_budget) search_item)
    (search_task fuel visit_fuel started)
    (task_post (search_walk path max_entries max_duration) size_of_path_item path_item_heap_bytes (Some search_budget) search_item)
    empty_walk.
Proof.
  apply (task_stays (search_walk path max_entries max_duration) size_of_path_item _ _ path_item_heap_bytes
           (Some search_budget)) with (Wanted := fun _ name => case_folded_contains name query = true); try done.
  - apply law_path_item.
  - apply heap_bytes_nonneg.
  - intros b [= <-]. split; [apply law_vec|done].
  - intros C e n s. apply stays_ret. split; [done|]. by destruct (case_folded_contains n query).
  - intros C directory e n s He Hn Hh Hw.
    eapply stays_mono; [by apply (pathitem_stays C path owner (fun name => case_folded_contains name query) directory e n)|].
    intros [[item|x]|x] s' [-> Hx]; split; try done. by exists directory.
Qed.

(** What the search collected before it sorted. *)
Definition search_found (fuel visit_fuel : nat) (w : OsWorld) (found : list ListSort.PathItem) : Prop :=
  exists started w1 v s1 w2, after w w1 /\ search_task fuel visit_fuel started empty_walk w1 = (Val (Ok v), s1, w2) /\
    items v = found.

Lemma search_stays {S} (C : S -> Prop) fuel visit_fuel sort order s :
  C s ->
  stays C (search_dir fuel visit_fuel path query sort order owner max_entries max_duration)
    (fun r s' => s' = s /\ match r with
                | Ok (Ok v) =>
                    Forall search_item (items v) /\ (Z.of_nat (length (items v)) <= max_entries)%Z /\
                    (listing_bytes (items v) <= ListSnapshot.MAX_CACHED_LIST_SNAPSHOT_BYTES_PER_OWNER)%Z /\
                    exists found, search_found fuel visit_fuel entered found /\
                      ListSort.stable_sort_of (ListSort.compare_path_items compare_str sort order) found (items v)
                | Ok (Err _) => True
                | Err _ => False
                end) s.
Proof.
  intros HC. unfold search_dir. apply stays_and_then. unfold collect_dir_items.
  apply stays_bind, stays_ask. intros w0. apply stays_bind, stays_ask. intros w1. rewrite law_admits.
  apply stays_bind. eapply stays_run_on; [done|]. eapply stays_run; [apply search_task_stays|].
  intros [[v|e]|e] t w2 w3 Hw2 Et Hv; [|by apply stays_ret|done]. apply stays_ret. cbn [ended] in Et.
  assert (search_found fuel visit_fuel entered (items v)) as Hfound by (by eexists _, w2, v, t, w3).
  destruct Hv as [[_ Hc] ->].
  apply stays_bind, stays_ask. intros w4. rewrite law_admits.
  eapply stays_mono; [apply finish_stays_listing|]. intros [[out|e]|e] s' [-> Hs]; [|done|done].
  destruct Hs as [Hp Hs], Hc as [Hcount Hitems _ Hfits Hbytes Hwanted].
  specialize (Hfits search_budget eq_refl). specialize (Hbytes search_budget eq_refl). unfold fits, vec_len in *.
  cbn [dw_max_entries search_walk cb_max_bytes search_budget] in *. split_and!.
  - done.
  - by rewrite Hp.
  - rewrite (Permutation_length Hp). lia.
  - unfold listing_bytes. rewrite (Permutation_length Hp), (sum_of_permutation _ _ _ Hp).
    pose proof law_path_item. nia.
  - eauto.
Qed.
End theorems.

(** C28. A search walks within its budgets.  Where its task has a result, and wherever it is
    cut short, whatever the tree looks like meanwhile: the directories it is in form one
    path, each a level below the next, all distinct (no link leads it round in circles) and
    none deeper than the limit; the memory of the walk, capacities included, stays within
    its budget; at most the permitted number of entries was looked at; and what was
    collected stays within its own budget.  The task does not panic, and every failure is
    an answer that ends the search. *)
Theorem walk_within_budgets `{LL : ListLaws} {K : Calls} {LC : ListCalls} path owner query max_entries max_duration
    fuel visit_fuel started w :
  after begun w -> (0 <= max_entries < U64_MAX)%Z ->
  let walk := search_walk path max_entries max_duration in
  let item := item_of path owner (fun name => case_folded_contains name query) in
  let within := good walk size_of_path_item path_item_heap_bytes (Some search_budget) item in
  let '(o, s, _) := walk_task walk size_of_path_item (fun _ name => mret (Ok (case_folded_contains name query)))
                      (pathitem_from_rooted_entry path root_path owner) path_item_heap_bytes (Some search_budget)
                      fuel visit_fuel started empty_walk w in
  match o with
  | Val (Ok v) => within s /\ v = wk_items s
  | Val (Err _) => True
  | Crashed | OutOfFuel => s = empty_walk \/ within s
  | Fail _ | Panicked => False
  end.
Proof.
  intros Hw Hmax walk item within. pose proof (search_task_stays (U := {| entered := w; underway := Hw |})
    path owner query max_entries max_duration Hmax fuel visit_fuel started w (rtc_refl _ _)) as Ht.
  destruct (walk_task _ _ _ _ _ _ _ _ _ _ _) as [[[[v|e]|e| | |] s'] w']; apply Ht.
Qed.

(** C29. A search finds only what may be shown.  Every item it returns stands for an entry
    whose name was read from a directory opened below the shared root, is text that matches
    the query, and is neither internal nor reserved; the item carries the path of that
    entry, the account's revision of what the name was found to be in that directory, and
    the kind, size and time of what the path was found to lead to.  The items are what the
    walk collected, stably sorted; they are no more than the permitted number of entries,
    and take no more memory than one owner's share of the snapshot cache.  The search does
    not panic, and its errors are answers. *)
Theorem search_confined `{LL : ListLaws} {K : Calls} {LC : ListCalls} {S} path owner query sort order max_entries max_duration
    fuel visit_fuel (s : S) w :
  after begun w -> (0 <= max_entries < U64_MAX)%Z ->
  match (search_dir fuel visit_fuel path query sort order owner max_entries max_duration s w).1.1 with
  | Val (Ok v) =>
      Forall (item_of path owner (fun name => case_folded_contains name query)) (items v) /\
      (Z.of_nat (length (items v)) <= max_entries)%Z /\
      (listing_bytes (items v) <= ListSnapshot.MAX_CACHED_LIST_SNAPSHOT_BYTES_PER_OWNER)%Z /\
      exists found, search_found path owner query max_entries max_duration fuel visit_fuel w found /\
        ListSort.stable_sort_of (ListSort.compare_path_items compare_str sort order) found (items v)
  | Val (Err _) | Crashed | OutOfFuel => True
  | Fail _ | Panicked => False
  end.
Proof.
  intros Hw Hmax. pose proof (search_stays (U := {| entered := w; underway := Hw |}) path owner query max_entries
    max_duration Hmax (fun _ => True) fuel visit_fuel sort order s I w (rtc_refl _ _)) as Hs.
  by destruct (search_dir _ _ _ _ _ _ _ _ _ s w) as [[[[v|e]|e| | |] s'] w']; try apply Hs.
Qed.

(** ** A run *)

Import KernelMemory PurgeOwnership MutationMemory.

#[export] Instance memory_listings : ListEnv (H := memory_kernel) := {|
  size_of_walk_state := 112;
  size_of_frame := 88;
  size_of_visited := 72;
  size_of_vec := 24;
  size_of_path_item := 96;
  path_capacity p := Z.of_nat (length p);
  string_capacity p := Z.of_nat (length p);
  reserve_exact n m := (Some n, m);
  reserve_set n m := (Some (2 * Z.abs n), m)%Z;
  shrink_to_fit n m := (n, m);
  created_time _ := None;
  to_lowercase := map Utils.ascii_lower;
  sort_signals m :=
    ((fun _ => {| ListSort.is_cancelled := false; ListSort.running := true; ListSort.in_time := true |},
      {| ListSort.is_cancelled := false; ListSort.running := true; ListSort.in_time := true |}, true, true), m);
  compare_str := bytes_cmp |}.

#[export] Instance memory_listing_laws : ListLaws (H0 := memory_server) (H1 := memory_mutations) (H2 := memory_listings).
Proof.
  split; cbn; try done; try lia; intros.
  - injection H as <-. lia.
  - injection H as <-. lia.
  - apply _.
Qed.

(** A file, a folder with another one, and a folder of the server's own. *)
Definition shelf : Memory :=
  {| m_entries := [ {| en_dir := 1; en_offset := 1; en_name := str "Keep"; en_object := 2 |};
       {| en_dir := 1; en_offset := 2; en_name := str "sub"; en_object := 3 |};
       {| en_dir := 3; en_offset := 3; en_name := str "keeper"; en_object := 4 |};
       {| en_dir := 1; en_offset := 4; en_name := UPLOAD_STAGE_DIRECTORY; en_object := 5 |};
       {| en_dir := 5; en_offset := 5; en_name := str "keep-out"; en_object := 6 |} ];
     m_modes := [(2, 33188); (4, 33188); (5, 16832); (6, 33188)]%Z;
     m_versions := []; m_positions := []; m_next := 100; m_clock := 0; m_errors := []; m_seen := [];
     m_drawn := []; m_removed := []; m_changes := []; m_observed := []; m_opened := []; m_lost := 0 |}.

Definition on_shelf : Calls := from_now (H := memory_kernel) shelf.
Lemma on_shelf_calls : ListCalls (H0 := on_shelf).
Proof. by intros A op Hop. Qed.

Definition found_on_shelf (fuel : nat) : option (list bytes) :=
  match (search_dir fuel fuel (str "/srv") (str "keep") (str "name") (str "asc") (str "me") 100 1000 tt shelf).1.1 with
  | Val (Ok v) => Some (ListSort.name <$> items v)
  | _ => None
  end.

Definition shelf_walk : DirectoryWalk := search_walk (H := memory_kernel) (str "/srv") 100 1000.
Definition shelf_task (fuel : nat) : outcome (result ListingError (Vec ListSort.PathItem)) * Walk * Memory :=
  walk_task shelf_walk size_of_path_item (fun _ name => mret (Ok (case_folded_contains name (str "keep"))))
    (pathitem_from_rooted_entry (str "/srv") (str "/srv") (str "me")) path_item_heap_bytes (Some search_budget)
    fuel fuel 1 empty_walk shelf.
Definition task_found (fuel : nat) : option (list bytes * Z) :=
  match shelf_task fuel with
  | (Val (Ok v), s, _) => Some (ListSort.name <$> items v, wk_count s)
  | _ => None
  end.

(** The walk of the shelf looks at four entries; cut short, it is within its budgets too. *)
Lemma walk_within_budgets_witness :
  task_found 50 = Some ([str "Keep"; str "sub/keeper"], 4%Z) /\
  let within := good shelf_walk size_of_path_item path_item_heap_bytes (Some search_budget)
                  (item_of (K := on_shelf) (str "/srv") (str "me") (fun name => case_folded_contains name (str "keep"))) in
  let '(o, s, _) := shelf_task 2 in
  match o with
  | Val (Ok v) => within s /\ v = wk_items s
  | Val (Err _) => True
  | Crashed | OutOfFuel => s = empty_walk \/ within s
  | Fail _ | Panicked => False
  end.
Proof.
  split; [by vm_compute|].
  apply (@walk_within_budgets memory_kernel memory_server memory_mutations memory_listings memory_listing_laws
           on_shelf on_shelf_calls (str "/srv") (str "me") (str "keep") 100 1000 2 2 1 shelf);
    [apply rtc_refl|unfold U64_MAX; lia].
Defined.

Lemma search_confined_witness :
  found_on_shelf 50 = Some [str "Keep"; str "sub/keeper"] /\
  match (search_dir 50 50 (str "/srv") (str "keep") (str "name") (str "asc") (str "me") 100 1000 tt shelf).1.1 with
  | Val (Ok v) =>
      Forall (item_of (K := on_shelf) (str "/srv") (str "me") (fun name => case_folded_contains name (str "keep")))
        (items v) /\
      (Z.of_nat (length (items v)) <= 100)%Z /\
      (listing_bytes (items v) <= ListSnapshot.MAX_CACHED_LIST_SNAPSHOT_BYTES_PER_OWNER)%Z /\
      exists found, search_found (K := on_shelf) (str "/srv") (str "me") (str "keep") 100 1000 50 50 shelf found /\
        ListSort.stable_sort_of (ListSort.compare_path_items compare_str (str "name") (str "asc")) found (items v)
  | Val (Err _) | Crashed | OutOfFuel => True
  | Fail _ | Panicked => False
  end.
Proof.
  split; [by vm_compute|].
  apply (@search_confined memory_kernel memory_server memory_mutations memory_listings memory_listing_laws
           on_shelf on_shelf_calls); [apply rtc_refl|unfold U64_MAX; lia].
Defined.
End ListingBounds.
