(* ===== verification/ListingReturns.v ===== *)
(** * Searches end

    The walk and the enumeration of a directory read the clock before every entry, so they
    stop at their deadline: [ListTime] says that time passes also while memory is reserved. *)

From S2P Require Import Prelude Paths RootedPaths PathPolicy FileRevision ListSort ListSnapshot.
From S2P Require Import Kernel KernelLaws KernelMotion KernelSteps TrashPurge TrashSafety TrashReturns RootedParents TrashMoves.
From S2P Require Import KernelMemory PurgeWorker PurgeOwnership MutationWorld RootedMutations MutationMemory.
From S2P Require Import DirectoryVisits DirectoryTime Listing ListingBounds.

Import RootedPaths PathPolicy.

Module ListingReturns.
Import KernelMotion TrashReturns DirectoryTime Listing ListingBounds.

Class ListTime `{VisitTime} `{!ListEnv} : Prop := {
  pass_exact n : op_in (passing dots) (reserve_exact n);
  pass_set n : op_in (passing dots) (reserve_set n);
  pass_shrink n : op_in (passing dots) (shrink_to_fit n);
  pass_signals : op_in (passing dots) sort_signals }.
#[export] Hint Resolve pass_exact pass_set pass_shrink pass_signals : motion.

Section returns.
Context `{LT : ListTime}.
Abbreviation passes := (passing dots).

Lemma pass_interrupted {S} a b e1 e2 : forward passes (S := S) (interrupted a b e1 e2).
Proof. unfold interrupted. forward_auto. Qed.
Hint Resolve pass_interrupted : motion.
Lemma pass_slot {S A} n (v : Vec A) x m : forward passes (S := S) (try_reserve_bounded_vec_slot n v x m).
Proof. unfold try_reserve_bounded_vec_slot, reserve_slot. forward_auto. Qed.
Lemma pass_metadata {S} path : forward passes (S := S) (metadata_blocking path).
Proof. unfold metadata_blocking. forward_auto. Qed.
Lemma pass_panic {S A} : forward passes (S := S) (A := A) panic.
Proof. intros s w. by split. Qed.
Hint Resolve pass_slot pass_metadata pass_panic : motion.
Lemma pass_pathitem {S} base root owner e : forward passes (S := S) (pathitem_from_rooted_entry base root owner e).
Proof. unfold pathitem_from_rooted_entry, and_then. forward_auto. Qed.
Lemma pass_finish_listing {S} sort order m op v : forward passes (S := S) (finish_listing sort order m op v).
Proof. unfold finish_listing, sort_items, shrink_paths_if_wasteful, and_then. forward_auto. Qed.
Hint Resolve pass_pathitem pass_finish_listing : motion.

Section walk.
Context {T : Type} (walk : DirectoryWalk) (size_of_item : Z)
  (include_entry : RootedDirEntry -> bytes -> Sys (Walk (T := T)) (result ListingError bool))
  (map_entry : RootedDirEntry -> Sys (Walk (T := T)) (result ListingError T))
  (item_heap_bytes : T -> Z) (byte_budget : option CollectionByteBudget).
Hypothesis pass_include : forall e n, forward passes (include_entry e n).
Hypothesis pass_map : forall e, forward passes (map_entry e).
Hint Resolve pass_include pass_map : motion.

Lemma pass_walk_interrupted started : forward passes (walk_interrupted (T := T) walk started).
Proof. unfold walk_interrupted. forward_auto. Qed.
Hint Resolve pass_walk_interrupted : motion.
Lemma pass_walk_budget started : forward passes (walk_budget (T := T) walk started).
Proof. unfold walk_budget, stop_with. forward_auto. Qed.
Lemma pass_add_item item : forward passes (add_item size_of_item item_heap_bytes byte_budget item).
Proof. unfold add_item. forward_auto. Qed.
Hint Resolve pass_walk_budget pass_add_item : motion.
Lemma pass_walk_visitor started depth e :
  forward passes (walk_visitor walk size_of_item include_entry map_entry item_heap_bytes byte_budget started depth e).
Proof. unfold walk_visitor, stop_with. forward_auto. Qed.
Lemma pass_push path d n : forward passes (push_directory (T := T) walk path d n).
Proof. unfold push_directory. forward_auto. Qed.
Lemma pass_finish : forward passes (finish_current (T := T) walk).
Proof. unfold finish_current, pop_frame. forward_auto. Qed.
Lemma pass_cursor c : forward passes (set_cursor (T := T) c).
Proof. unfold set_cursor. forward_auto. Qed.
Lemma pass_ensure d op : forward passes (ensure_directory_snapshot_blocking (T := T) d op).
Proof. unfold ensure_directory_snapshot_blocking. forward_auto. Qed.
Hint Resolve pass_walk_visitor pass_push pass_finish pass_cursor pass_ensure : motion.
Lemma pass_recheck started l : forward passes (recheck (T := T) walk started l).
Proof. induction l; cbn [recheck]; unfold and_then; forward_auto. Qed.
Lemma pass_new_state : forward passes (new_walk_state (T := T) walk).
Proof. unfold new_walk_state. forward_auto. Qed.
Hint Resolve pass_recheck pass_new_state : motion.

(** ** The loop *)

(** The walk goes on only if the clock was read and the deadline is still ahead. *)
Lemma interrupted_ticks started (s : Walk (T := T)) w s' w' :
  walk_interrupted walk started s w = (Val None, s', w') ->
  (remaining (started + dw_max_duration walk) w' < remaining (started + dw_max_duration walk) w)%Z.
Proof.
  unfold walk_interrupted, interrupted, mbind, Sys_bind, ask. pose proof (pass_stop w) as [Hp _].
  destruct (is_cancelled w) as [[] w1]; [done|]. pose proof (tick_now w1) as [Ht Et]. destruct (instant_now w1) as [t w2]. cbn in *.
  destruct (Z.leb_spec (dw_max_duration walk) (u64_saturating_sub t started)) as [|Hl]; [done|].
  intros [= <- <-]. unfold u64_saturating_sub in Hl. unfold remaining. clock_lia.
Qed.

Lemma walk_budget_ticks started (s : Walk (T := T)) w s' w' :
  walk_budget walk started s w = (Val true, s', w') ->
  (remaining (started + dw_max_duration walk) w' < remaining (started + dw_max_duration walk) w)%Z.
Proof.
  unfold walk_budget. intros ([e|] & s1 & w1 & E & Hx)%bind_Val; [done|]. apply interrupted_ticks in E.
  apply bind_Val in Hx as ([] & s2 & w2 & [= <- <-] & Hx). apply bind_Val in Hx as (n & s3 & w3 & [= _ <- <-] & Hx).
  destruct (_ <? _)%Z; [done|]. by injection Hx as _ <-.
Qed.

(** As many turns as time is left, and two more for each enumeration. *)
Definition in_time (visit_fuel : nat) (deadline turns : Z) (w : OsWorld) : Prop :=
  (remaining deadline w < turns /\ remaining deadline w + 2 < Z.of_nat visit_fuel)%Z.

Lemma in_time_stable visit_fuel deadline turns : stable (in_time visit_fuel deadline turns) clock_le.
Proof. intros w w' Hw Hc. unfold in_time, remaining in *. clock_lia. Qed.

Lemma lasts_and_then {S A B} R P (m : Sys S (result ListingError A)) (k : A -> Sys S (result ListingError B)) :
  forward R m -> (forall w w', R w w' -> clock_le w w') -> stable P R -> (forall a, lasts P (k a)) ->
  lasts P (and_then m k).
Proof.
  intros Hm Hr Hp Hk. apply (lasts_bind R); [done..|]. intros [a|e]; [done|]. apply lasts_forward. forward_auto.
Qed.

Abbreviation loop := (walk_loop walk size_of_item include_entry map_entry item_heap_bytes byte_budget).

Lemma loop_lasts fuel visit_fuel started :
  lasts (in_time visit_fuel (started + dw_max_duration walk) (Z.of_nat fuel)) (loop fuel visit_fuel started).
Proof.
  set (deadline := (started + dw_max_duration walk)%Z).
  induction fuel as [|fuel IH]; cbn [walk_loop]; [intros s w [Hw _]; unfold remaining in Hw; lia|].
  pose proof (fun n => in_time_stable visit_fuel deadline n) as Hs.
  apply (lasts_bind clock_le); [forward_auto|done..|]. intros st.
  destruct (items (ws_stack st)) as [|frame rest]; [apply lasts_forward; forward_auto|].
  apply lasts_then; [apply lasts_forward; forward_auto|]. intros s w stop s1 w1 Hw E.
  destruct stop as [e|]; [apply lasts_forward; forward_auto|]. apply interrupted_ticks in E. fold deadline in E.
  apply (lasts_weaken _ (in_time visit_fuel deadline (Z.of_nat fuel))); [|intros ? ->; unfold in_time in *; lia].
  apply (lasts_and_then clock_le); [forward_auto|done..|]. intros _.
  do 2 (apply (lasts_bind clock_le); [forward_auto|done..|]; intros _).
  assert (Hv : lasts (in_time visit_fuel deadline (Z.of_nat fuel))
    (attempt (visit_dir_blocking_chunk visit_fuel (fr_path frame) (fr_cursor frame) (walk_budget walk started)
       (walk_visitor walk size_of_item include_entry map_entry item_heap_bytes byte_budget started (fr_depth frame))))).
  { apply lasts_attempt. eapply lasts_weaken; [apply (visit_chunk_lasts _ _ deadline)|]; [forward_auto..| |].
    - apply walk_budget_ticks.
    - by intros ? []. }
  apply lasts_then; [done|]. intros s2 w2 progress s3 w3 Hw2 E2. specialize (Hv s2 w2 Hw2). rewrite E2 in Hv.
  apply (lasts_weaken _ (in_time visit_fuel deadline (Z.of_nat fuel))); [|intros ? ->; eapply Hs; [done|apply Hv]].
  apply (lasts_bind clock_le); [forward_auto|done..|]. intros [e|]; [apply lasts_forward; forward_auto|].
  destruct progress as [[|cursor]|e]; [| |apply lasts_forward; forward_auto].
  - apply (lasts_and_then clock_le); [forward_auto|done..|]. intros _. apply IH.
  - apply (lasts_bind clock_le); [forward_auto|done..|]. intros _.
    apply (lasts_bind clock_le); [forward_auto|done..|]. intros [[[path d] n]|]; [|apply lasts_forward; forward_auto].
    apply (lasts_and_then clock_le); [forward_auto|done..|]. intros _. apply IH.
Qed.

Lemma task_lasts fuel visit_fuel started :
  lasts (in_time visit_fuel (started + dw_max_duration walk) (Z.of_nat fuel))
    (walk_task walk size_of_item include_entry map_entry item_heap_bytes byte_budget fuel visit_fuel started).
Proof.
  pose proof (fun n => in_time_stable visit_fuel (started + dw_max_duration walk) n) as Hs. unfold walk_task.
  apply (lasts_bind clock_le); [forward_auto|done..|]. intros [root|e]; [|apply lasts_forward; forward_auto].
  destruct (negb _); [apply lasts_forward; forward_auto|].
  do 2 (apply (lasts_and_then clock_le); [forward_auto|done..|]; intros _).
  apply lasts_then; [apply loop_lasts|]. intros s w r s1 w1 _ _. apply lasts_forward.
  destruct r; unfold and_then; forward_auto.
Qed.

Lemma walk_ends {S} fuel visit_fuel :
  (dw_max_duration walk < Z.of_nat fuel)%Z -> (dw_max_duration walk + 2 < Z.of_nat visit_fuel)%Z ->
  2 < visit_fuel -> 0 < fuel ->
  forward clock_le (S := S)
    (collect_dir_items walk size_of_item include_entry map_entry item_heap_bytes byte_budget fuel visit_fuel).
Proof.
  intros Hf Hv Hv0 Hf0. apply lasts_ends. unfold collect_dir_items.
  apply lasts_then; [apply lasts_forward; forward_auto|]. intros s w started s1 w1 _ [-> Et]%ask_Val.
  pose proof (tick_now w) as [_ Ht]. rewrite Et in Ht. cbn in Ht. subst started.
  apply (lasts_weaken _ (in_time visit_fuel (clock_at w1 + dw_max_duration walk) (Z.of_nat fuel)));
    [|intros ? ->; unfold in_time, remaining; lia].
  apply (lasts_bind clock_le); [forward_auto|done|apply in_time_stable|]. intros []; [|apply lasts_forward; forward_auto].
  apply lasts_then; [|intros s2 w2 [[r|e] t] s3 w3 _ _; apply lasts_forward; forward_auto].
  intros s2 w2 Hw. unfold run_on. pose proof (task_lasts fuel visit_fuel (clock_at w1) empty_walk w2 Hw) as Hx.
  by destruct (walk_task _ _ _ _ _ _ _ _ _ _ _) as [[[] ?] ?]; destruct Hx.
Qed.
End walk.

Lemma search_ends {S} fuel visit_fuel path query sort order owner max_entries max_duration :
  (max_duration < Z.of_nat fuel)%Z -> (max_duration + 2 < Z.of_nat visit_fuel)%Z -> 2 < visit_fuel -> 0 < fuel ->
  forward clock_le (S := S) (search_dir fuel visit_fuel path query sort order owner max_entries max_duration).
Proof.
  intros Hf Hv Hv0 Hf0. unfold search_dir, and_then. apply forward_then; [apply _| |].
  - apply walk_ends; [..|done|done|done|done]; intros; forward_auto.
  - intros [v|e]; forward_auto.
Qed.
End returns.
#[export] Hint Resolve pass_slot pass_pathitem pass_finish_listing pass_panic : motion.

(** A search ends.  With one unit of fuel for every nanosecond of its time budget and
    three more, for the two names of an enumeration that are skipped, a search returns its
    items or the error it answers with, unless the process dies: neither the stack of
    directories, which may grow with every link and every folder made meanwhile, nor the
    enumeration of any of them runs out of fuel, and nothing panics. *)
Lemma search_returns `{LL : ListLaws} `{!ClockLaws} `{!VisitTime} `{!ListTime} {S}
    fuel visit_fuel path query sort order owner max_entries max_duration (s : S) w :
  (0 <= max_entries < U64_MAX)%Z -> (0 <= max_duration)%Z ->
  (max_duration + 2 < Z.of_nat fuel)%Z -> (max_duration + 2 < Z.of_nat visit_fuel)%Z ->
  let o := (search_dir fuel visit_fuel path query sort order owner max_entries max_duration s w).1.1 in
  (exists r, o = Val r) \/ o = Crashed.
Proof.
  intros Hm Hd Hf Hv o. subst o.
  pose proof (search_ends (S := S) fuel visit_fuel path query sort order owner max_entries max_duration
    ltac:(lia) ltac:(lia) ltac:(lia) ltac:(lia) s w) as He.
  pose proof (search_stays (K := from_now w) (LC := from_now_calls w) (U := underway_now w)
    path owner query max_entries max_duration Hm (fun _ => True) fuel visit_fuel sort order s I w (rtc_refl _ _)) as Hs.
  destruct (search_dir _ _ _ _ _ _ _ _ _ s w) as [[[] ?] ?]; destruct He; eauto; by destruct Hs as [_ []].
Qed.

(** ** A run *)

Import KernelMemory PurgeOwnership MutationMemory.

#[export] Instance memory_list_time :
  ListTime (H1 := memory_server) (H2 := memory_mutations) (H4 := memory_listings).
Proof. split; passes_memory. Qed.

Lemma search_returns_witness :
  let o := (search_dir 1003 1003 (str "/srv") (str "keep") (str "name") (str "asc") (str "me") 100 1000 tt shelf).1.1 in
  (exists r, o = Val r) \/ o = Crashed.
Proof. apply search_returns; unfold U64_MAX; lia. Defined.
End ListingReturns.
