(* ===== verification/ListingDirectory.v ===== *)
(** * The listing of one directory

    What [collect_list_snapshot_blocking] of [Listing] promises: it ends, and what it
    returns are entries of the directory that may be shown, within its budgets. *)

From S2P Require Import Prelude Paths RootedPaths PathPolicy FileRevision ListSort ListSnapshot.
From S2P Require Import Kernel KernelLaws KernelMotion KernelSteps TrashPurge TrashSafety TrashReturns RootedParents TrashMoves.
From S2P Require Import KernelMemory PurgeWorker PurgeOwnership MutationWorld RootedMutations MutationMemory.
From S2P Require Import DirectoryVisits DirectoryTime Download Listing ListingBounds ListingReturns.

Import RootedPaths PathPolicy.

Module ListingDirectory.
Import KernelMotion TrashReturns DirectoryTime Listing ListingBounds ListingReturns.

(** ** Budgets *)

Section bounds.
Context `{LL : ListLaws} {K : Calls} {LC : ListCalls} {U : Underway} (path owner : bytes) (max_entries max_bytes started max_duration : Z).
Hypothesis entries_word : (0 <= max_entries < U64_MAX)%Z.
Hypothesis bytes_word : (size_of_vec <= max_bytes < U64_MAX)%Z.

Abbreviation shown := (item_in path path owner (fun _ => true)).

Record kept (s : ListScan) : Prop := {
  ke_count : (0 <= sc_count s <= max_entries)%Z;
  ke_items : (vec_len (sc_paths s) <= sc_count s)%Z;
  ke_heap : sc_heap_bytes s = Z.min (sum_of path_item_heap_bytes (items (sc_paths s))) U64_MAX;
  ke_fits : fits (sc_paths s);
  ke_bytes : (size_of_vec + capacity (sc_paths s) * size_of_path_item
              + sum_of path_item_heap_bytes (items (sc_paths s)) <= max_bytes)%Z;
  ke_shown : Forall shown (items (sc_paths s)) }.

Definition scanning (s : ListScan) : Prop := kept s /\ sc_stop s = None /\ sc_error s = None.
Definition scan_admitted (s : ListScan) : Prop := scanning s /\ (vec_len (sc_paths s) < sc_count s)%Z.
Definition scan_paused (s : ListScan) : Prop := sc_stop s <> None \/ sc_error s <> None.

Lemma scan_interrupted_stays C s :
  stays C (scan_interrupted started max_duration) (fun r s' => s' = s /\ is_ok r = true) s.
Proof.
  unfold scan_interrupted. apply stays_bind, stays_ask. intros w. destruct (Kernel.is_cancelled w).1; [by apply stays_ret|].
  apply stays_bind, stays_ask. intros w'. by destruct (_ <=? _)%Z; apply stays_ret.
Qed.

Lemma scan_stop_stays C (D : ListScan -> Prop) x s : stays C (scan_stop x) (going scanning D scan_paused) s.
Proof. apply stays_bind, stays_modify, stays_ret. by left. Qed.
Lemma scan_error_stays C (D : ListScan -> Prop) e s : stays C (scan_error e) (going scanning D scan_paused) s.
Proof. apply stays_bind, stays_modify, stays_ret. by right. Qed.

Lemma scan_budget_stays s :
  scanning s -> stays scanning (scan_budget max_entries started max_duration) (going scanning scan_admitted scan_paused) s.
Proof.
  intros ([Hc Hi Hh Hf Hb Hw] & Hs & He). unfold scan_budget. apply stays_bind.
  eapply stays_mono; [apply scan_interrupted_stays|]. intros [[x|]|x] s1 [-> Hok]; [apply scan_stop_stays| |done].
  unfold scan_count. apply stays_bind, stays_bind, stays_modify, stays_gets. cbn [sc_count].
  destruct (Z.ltb_spec max_entries (u64_saturating_add (sc_count s) 1)) as [|Hle]; [apply scan_stop_stays|].
  apply stays_ret. unfold u64_saturating_add in *. split; [|cbn [sc_count sc_paths]; lia]. split; [|done].
  split; cbn [sc_count sc_paths sc_heap_bytes]; try done; lia.
Qed.

Lemma scan_item_stays item s :
  scan_admitted s -> shown item -> stays scanning (scan_item max_bytes item) (going scanning scanning scan_paused) s.
Proof.
  intros (([Hc Hi Hh Hf Hb Hw] & Hs & He) & Hlt) Hitem. unfold scan_item.
  apply stays_bind, stays_gets, stays_bind, stays_gets. cbv zeta.
  set (proposed := u64_saturating_add (sc_heap_bytes s) (path_item_heap_bytes item)).
  pose proof (sum_of_nonneg path_item_heap_bytes (items (sc_paths s)) heap_bytes_nonneg) as Hsum.
  assert (Hp : proposed = Z.min (sum_of path_item_heap_bytes (items (sc_paths s) ++ [item])) U64_MAX).
  { unfold proposed, u64_saturating_add. rewrite Hh, sum_of_app. pose proof (heap_bytes_nonneg item). cbn. lia. }
  destruct (_ <? _)%Z; [apply scan_error_stays|]. pose proof law_path_item as Hsize. pose proof law_vec as Hvec.
  apply stays_bind. eapply stays_mono.
  { apply reserve_stays; [done|done|]. unfold fits in Hf. assert (0 <= vec_len (sc_paths s))%Z by (unfold vec_len; lia).
    assert (capacity (sc_paths s) <= capacity (sc_paths s) * size_of_path_item)%Z by nia. lia. }
  intros [[v [[]|e]]|e] s1 [-> Hr]; [|by apply stays_bind, stays_modify; destruct e; apply scan_error_stays|done].
  destruct Hr as [Hitems Hcap]. apply stays_bind, stays_modify.
  destruct (Z.ltb_spec max_bytes (collection_allocation_bytes (capacity v) size_of_path_item proposed)) as [|Hfit];
    [apply scan_error_stays|].
  apply stays_bind, stays_modify, stays_ret. split; [|done]. rewrite Hp, <- Hitems in Hfit.
  apply push_fits in Hfit as (Hlen & Hfits & Hbytes); [|by unfold vec_len in *; rewrite ?Hitems|done|apply heap_bytes_nonneg|apply bytes_word].
  split; cbn [sc_count sc_paths sc_heap_bytes vec_push items capacity]; rewrite ?Hitems in *; try done.
  - fold (vec_push item v). rewrite Hlen. unfold vec_len in *. rewrite Hitems. lia.
  - apply Forall_app; split; [done|by repeat constructor].
Qed.

Lemma scan_visitor_stays e s :
  listed path e -> scan_admitted s ->
  stays scanning (scan_visitor path owner max_bytes started max_duration e) (going scanning scanning scan_paused) s.
Proof.
  intros He Ha. unfold scan_visitor. apply stays_bind. eapply stays_mono; [apply scan_interrupted_stays|].
  intros [[x|]|x] s1 [-> Hok]; [apply scan_stop_stays| |done].
  destruct (Download.os_str_to_str (de_file_name e)) as [name|] eqn:En; [|apply scan_error_stays].
  destruct (hidden_entry root_path e name) eqn:Eh; [apply stays_ret; apply Ha|].
  apply stays_bind. eapply stays_mono; [by apply (pathitem_stays _ path owner (fun _ => true) path e name)|].
  intros [[item|x]|x] s1 [-> Hi]; [by apply scan_item_stays|apply scan_error_stays|done].
Qed.

Lemma empty_scan_scanning : scanning empty_scan.
Proof.
  split; [|done]. split; cbn [empty_scan sc_count sc_paths sc_heap_bytes empty_vec items capacity sum_of foldr].
  - lia.
  - unfold vec_len. cbn. lia.
  - by unfold U64_MAX.
  - unfold fits, vec_len. cbn. lia.
  - lia.
  - constructor.
Qed.
End bounds.

(** ** Time *)

Section time.
Context `{LT : ListTime} (path owner : bytes) (max_entries max_bytes started max_duration : Z).
Abbreviation passes := (passing dots).

Lemma pass_scan_interrupted : forward passes (scan_interrupted started max_duration).
Proof. unfold scan_interrupted. forward_auto. Qed.
Hint Resolve pass_scan_interrupted : motion.
Lemma pass_scan_budget : forward passes (scan_budget max_entries started max_duration).
Proof. unfold scan_budget, scan_stop, scan_count. forward_auto. Qed.
Lemma pass_scan_item item : forward passes (scan_item max_bytes item).
Proof. unfold scan_item, scan_error, scan_keep. forward_auto. Qed.
Hint Resolve pass_scan_budget pass_scan_item : motion.
Lemma pass_scan_visitor e : forward passes (scan_visitor path owner max_bytes started max_duration e).
Proof. unfold scan_visitor, scan_stop, scan_error. forward_auto. Qed.
Hint Resolve pass_scan_visitor : motion.

Lemma scan_budget_ticks s w s' w' :
  scan_budget max_entries started max_duration s w = (Val true, s', w') ->
  (remaining (started + max_duration) w' < remaining (started + max_duration) w)%Z.
Proof.
  unfold scan_budget. intros ([e|] & s1 & w1 & E & Hx)%bind_Val; [done|].
  assert (w' = w1) as ->.
  { unfold scan_count in Hx. apply bind_Val in Hx as (n & s3 & w3 & Hn & Hx).
    apply bind_Val in Hn as ([] & s4 & w4 & [= <- <-] & [= _ <- <-]). destruct (_ <? _)%Z; [done|]. by injection Hx as _ <-. }
  unfold scan_interrupted, mbind, Sys_bind, ask in E. pose proof (pass_stop w) as [Hp _].
  destruct (Kernel.is_cancelled w) as [[] w0]; [done|]. pose proof (tick_now w0) as [Ht Et].
  destruct (instant_now w0) as [t w2]. cbn in *.
  destruct (Z.leb_spec max_duration (u64_saturating_sub t started)) as [|Hl]; [done|].
  injection E as <- <-. unfold u64_saturating_sub in Hl. unfold remaining. clock_lia.
Qed.

Lemma scan_lasts fuel :
  lasts (fun w => (remaining (started + max_duration) w + 2 < Z.of_nat fuel)%Z)
    (visit_dir_blocking_chunk fuel path 0 (scan_budget max_entries started max_duration)
       (scan_visitor path owner max_bytes started max_duration)).
Proof. apply visit_chunk_lasts; [forward_auto..|]. apply scan_budget_ticks. Qed.
End time.

Lemma collect_list_ends `{LT : ListTime} {S} fuel path owner sort order max_entries max_bytes max_duration :
  (0 <= max_duration)%Z -> (max_duration + 2 < Z.of_nat fuel)%Z ->
  forward clock_le (S := S) (collect_list_snapshot_blocking fuel path owner sort order max_entries max_bytes max_duration).
Proof.
  intros Hd Hf. apply lasts_ends. unfold collect_list_snapshot_blocking.
  apply lasts_then; [apply lasts_forward; forward_auto|]. intros s w started s1 w1 _ [-> Et]%ask_Val.
  pose proof (tick_now w) as [_ Ht]. rewrite Et in Ht. cbn in Ht. subst started.
  apply lasts_then; [|intros s2 w2 [visited scan] s3 w3 _ _; apply lasts_forward; forward_auto].
  intros s2 w2 ->. unfold run_on.
  assert (remaining (clock_at w1 + max_duration) w1 + 2 < Z.of_nat fuel)%Z as Hr by (unfold remaining; lia).
  pose proof (scan_lasts path owner max_entries max_bytes (clock_at w1) max_duration fuel empty_scan w1 Hr) as Hx.
  by destruct (visit_dir_blocking_chunk _ _ _ _ _ _ _) as [[[] ?] ?]; destruct Hx.
Qed.

(** ** The theorem *)

(** What the enumeration of the directory collected before it was sorted. *)
Definition listing_found `{LL : ListLaws} {K : Calls} (fuel : nat) (path owner : bytes)
    (max_entries max_bytes max_duration : Z) (w : OsWorld) (found : list ListSort.PathItem) : Prop :=
  exists started w1 progress t w2, after w w1 /\
    visit_dir_blocking_chunk fuel path 0 (scan_budget max_entries started max_duration)
      (scan_visitor path owner max_bytes started max_duration) empty_scan w1 = (Val progress, t, w2) /\
    sc_error t = None /\ sc_stop t = None /\ items (sc_paths t) = found.

Lemma collect_list_stays `{LL : ListLaws} {K : Calls} {LC : ListCalls} {U : Underway} {S} (C : S -> Prop) fuel path owner sort order max_entries max_bytes max_duration s :
  (0 <= max_entries < U64_MAX)%Z -> (size_of_vec <= max_bytes < U64_MAX)%Z -> C s ->
  stays C (collect_list_snapshot_blocking fuel path owner sort order max_entries max_bytes max_duration)
    (fun r s' => s' = s /\ match r with
                | Ok (Ok v) =>
                    Forall (item_in path path owner (fun _ => true)) (items v) /\
                    (Z.of_nat (length (items v)) <= max_entries)%Z /\ (listing_bytes (items v) <= max_bytes)%Z /\
                    exists found, listing_found fuel path owner max_entries max_bytes max_duration entered found /\
                      ListSort.stable_sort_of (ListSort.compare_path_items compare_str sort order) found (items v)
                | Ok (Err _) => True
                | Err _ => False
                end) s.
Proof.
  intros Hn Hb HC. unfold collect_list_snapshot_blocking. apply stays_bind, stays_ask. intros w. set (started := (instant_now w).1).
  apply stays_bind. eapply (stays_run_on _ (scanning path owner max_entries max_bytes)); [done|].
  eapply stays_run.
  { apply (visit_chunk_stays (scanning path owner max_entries max_bytes) (scan_admitted path owner max_entries max_bytes)
             scan_paused path).
    - by intros s1 [? _].
    - intros s1. by apply scan_budget_stays.
    - intros e s1. by apply scan_visitor_stays.
    - by apply empty_scan_scanning. }
  intros r t w1 w2 Hw1 Er Ht. destruct (sc_error t) as [e|] eqn:Ee; [by apply stays_ret|].
  destruct r as [progress|e]; [|by apply stays_ret].
  destruct (sc_stop t) as [[]|] eqn:Es; [by apply stays_ret..|].
  assert (listing_found fuel path owner max_entries max_bytes max_duration entered (items (sc_paths t))) as Hfound
    by by exists started, w1, progress, t, w2.
  assert (kept path owner max_entries max_bytes t) as [Hc Hi _ Hf Hbytes Hw].
  { destruct progress as [|cursor]; [apply Ht|]. by destruct Ht. }
  eapply stays_mono; [apply finish_stays_listing|]. intros [[out|e]|e] s' [-> Hs]; [|done|done]. destruct Hs as [Hp Hs].
  unfold fits, vec_len in *. split_and!.
  - done.
  - by rewrite Hp.
  - rewrite (Permutation_length Hp). lia.
  - unfold listing_bytes. rewrite (Permutation_length Hp), (sum_of_permutation _ _ _ Hp). pose proof law_path_item. nia.
  - eauto.
Qed.

(** C30. A listing of one directory answers.  With one unit of fuel for every nanosecond
    of its time budget and three more, it returns its items or the error it answers with,
    unless the process dies.  Every item stands for an entry whose name was read from that
    directory, is text, and is neither internal nor reserved; it carries that name, the
    account's revision of what the name was found to be there, and the kind, size and time
    of what its path was found to lead to.  The items are what the enumeration of the
    directory collected, stably sorted; they are no more than the permitted number, and
    within the memory they may take. *)
Theorem listing_answers `{LL : ListLaws} `{!ClockLaws} `{!VisitTime} `{!ListTime} {K : Calls} {LC : ListCalls} {S}
    fuel path owner sort order max_entries max_bytes max_duration (s : S) w :
  after begun w -> (0 <= max_entries < U64_MAX)%Z -> (size_of_vec <= max_bytes < U64_MAX)%Z ->
  (0 <= max_duration)%Z -> (max_duration + 2 < Z.of_nat fuel)%Z ->
  let o := (collect_list_snapshot_blocking fuel path owner sort order max_entries max_bytes max_duration s w).1.1 in
  (exists e, o = Val (Err e)) \/ o = Crashed \/
  exists v, o = Val (Ok v) /\ Forall (item_in path path owner (fun _ => true)) (items v) /\
    (Z.of_nat (length (items v)) <= max_entries)%Z /\ (listing_bytes (items v) <= max_bytes)%Z /\
    exists found, listing_found fuel path owner max_entries max_bytes max_duration w found /\
      ListSort.stable_sort_of (ListSort.compare_path_items compare_str sort order) found (items v).
Proof.
  intros Hw Hn Hb Hd Hf o. subst o.
  pose proof (collect_list_ends (S := S) fuel path owner sort order max_entries max_bytes max_duration Hd Hf s w) as He.
  pose proof (collect_list_stays (U := {| entered := w; underway := Hw |}) (fun _ => True) fuel path owner sort order
    max_entries max_bytes max_duration s Hn Hb I w (rtc_refl _ _)) as Hs.
  destruct (collect_list_snapshot_blocking _ _ _ _ _ _ _ _ s w) as [[[[v|e]|e| | |] s'] w']; destruct He; try done;
    try (by destruct Hs as [_ [_ Hs]]); try (by destruct Hs as [_ []]); eauto.
  right. right. exists v. by destruct Hs as [_ [_ Hs]].
Qed.

(** ** A run *)

Import KernelMemory PurgeOwnership MutationMemory.

Definition shelf_listing (fuel : nat) : outcome (result ListingError (Vec ListSort.PathItem)) :=
  (collect_list_snapshot_blocking fuel (str "/srv") (str "me") (str "name") (str "asc") 100 100000 1000 tt shelf).1.1.
Definition shelf_names (fuel : nat) : option (list bytes) :=
  match shelf_listing fuel with Val (Ok v) => Some (ListSort.name <$> items v) | _ => None end.

(** The folder comes first, the server's own folder does not come at all. *)
Lemma listing_answers_witness :
  shelf_names 1003 = Some [str "sub"; str "Keep"] /\
  let o := shelf_listing 1003 in
  (exists e, o = Val (Err e)) \/ o = Crashed \/
  exists v, o = Val (Ok v) /\ Forall (item_in (K := on_shelf) (str "/srv") (str "/srv") (str "me") (fun _ => true)) (items v) /\
    (Z.of_nat (length (items v)) <= 100)%Z /\ (listing_bytes (items v) <= 100000)%Z /\
    exists found, listing_found (K := on_shelf) 1003 (str "/srv") (str "me") 100 100000 1000 shelf found /\
      ListSort.stable_sort_of (ListSort.compare_path_items compare_str (str "name") (str "asc")) found (items v).
Proof.
  split; [by vm_compute|]. unfold shelf_listing. cbv zeta.
  apply (listing_answers (K := on_shelf) (LC := on_shelf_calls) 1003 (str "/srv") (str "me") (str "name") (str "asc") 100 100000 1000 tt shelf);
    [apply rtc_refl|unfold U64_MAX; lia|cbn; unfold U64_MAX; lia|lia|lia].
Defined.
End ListingDirectory.
