(* ===== verification/ListApi.v ===== *)
(** * The listing request

    [handle_list_api] of [src/server/listing.rs] and [src/server/listing/tagged.rs]: the
    parameters of a listing request, its admission, the page of a cached snapshot or the
    collection of a new listing, the filter by tags, the check that the directory has not
    changed meanwhile, and the answer with the tags of the listed files.

    The state is the snapshot cache, which a request touches once, and the response; the
    JSON text of an answer is left as a record.  What the tag database returns for a query,
    [serde_json], base64, the random source and the sizes of allocations are the class
    [ListApiEnv]. *)

From S2P Require Import Prelude Paths Utils RootedPaths PathPolicy FileRevision Problem ListSort ListSnapshot.
From S2P Require Import Kernel TrashPurge RootedParents TrashMoves PurgeWorker MutationWorld RootedMutations DirectoryVisits.
From S2P Require Import Download Listing.

Module ListApi.
Import Utils RootedPaths PathPolicy Problem Listing.

#[export] Instance path_type_eq_dec : EqDecision ListSort.PathType.
Proof. solve_decision. Defined.

(** ** Tag filters *)

Record TagFilter : Type := { tf_all : list Z; tf_any : list Z; tf_exclude : list Z }.

(** [str::parse::<i64>] *)
Definition parse_i64 (l : bytes) : option Z :=
  match l with
  | x2d :: digits =>
      if bool_decide (digits = []) then None
      else n ← parse_digits 0 digits; if (n <=? I64_MAX + 1)%Z then Some (- n)%Z else None
  | _ => n ← parse_u64 l; i64_try_from n
  end.

(** [Vec::dedup] *)
Fixpoint dedup (l : list Z) : list Z :=
  match l with
  | [] => []
  | x :: l => match dedup l with
              | y :: k => if (x =? y)%Z then y :: k else x :: y :: k
              | [] => [x]
              end
  end.

Definition COMMA : byte := x2c.

Definition tag_ids (value : option bytes) : option (list Z) :=
  match value with
  | None | Some [] => Some []
  | Some value =>
      if (2100 <? length value)%nat then None
      else
        ids ← mapM parse_i64 (split COMMA value);
        if (length ids <=? 100)%nat && forallb (fun id => 0 <? id)%Z ids
        then Some (dedup (merge_sort Z.le ids)) else None
  end.

Abbreviation QueryParams := (gmap bytes bytes).

Definition parse_tag_filter (params : QueryParams) : option TagFilter :=
  all ← tag_ids (params !! str "all");
  any ← tag_ids (params !! str "any");
  exclude ← tag_ids (params !! str "exclude");
  Some {| tf_all := all; tf_any := any; tf_exclude := exclude |}.

Definition active (f : TagFilter) : bool :=
  negb (bool_decide (tf_all f = [])) || negb (bool_decide (tf_any f = [])) || negb (bool_decide (tf_exclude f = [])).

(** ** Samples of files *)

Record Sample : Type := {
  sa_path : bytes; sa_parent : bytes; sa_name : bytes;
  sa_dev : Z; sa_ino : Z; sa_size : Z; sa_mtime_ns : Z; sa_ctime_ns : Z }.
Definition sample_identity (s : Sample) : list Z :=
  [sa_dev s; sa_ino s; sa_size s; sa_mtime_ns s; sa_ctime_ns s].

(** [as i64] and [i64::checked_mul] *)
Definition as_i64 (z : Z) : Z := if (z <=? I64_MAX)%Z then z else (z - (U64_MAX + 1))%Z.
Definition i64_checked_mul (a b : Z) : option Z :=
  if ((I64_MIN <=? a * b) && (a * b <=? I64_MAX))%Z then Some (a * b)%Z else None.
Definition nanoseconds (seconds nanos : Z) : option Z := n ← i64_checked_mul seconds 1000000000; i64_checked_add n nanos.

Definition sample_of (path root : bytes) (metadata : Stat) : option Sample :=
  if negb (is_file metadata) then None
  else
    relative ← strip_path path root;
    text ← Download.os_str_to_str relative;
    parent ← Paths.parent relative ≫= Download.os_str_to_str;
    name ← file_name relative ≫= Download.os_str_to_str;
    size ← i64_try_from (st_size metadata mod (U64_MAX + 1));
    mtime_ns ← nanoseconds (st_mtime metadata) (st_mtime_nsec metadata);
    ctime_ns ← nanoseconds (st_ctime metadata) (st_ctime_nsec metadata);
    Some {| sa_path := text; sa_parent := parent; sa_name := name; sa_dev := as_i64 (st_dev metadata);
            sa_ino := as_i64 (st_ino metadata); sa_size := size; sa_mtime_ns := mtime_ns; sa_ctime_ns := ctime_ns |}.

(** The query for the files below a directory that the filter selects, without the fields
    that are always the same here. *)
Record FileQuery : Type := {
  fq_directory : bytes; fq_recursive : bool;
  fq_all : list Z; fq_any : list Z; fq_exclude : list Z }.

Inductive TagsAnswer (ListedTags : Type) : Type := TagsListed (l : list ListedTags) | TagsBusy | TagsFailed.
Arguments TagsListed {ListedTags} l.
Arguments TagsBusy {ListedTags}.
Arguments TagsFailed {ListedTags}.

(** ** Requests *)

Definition DEFAULT_LIST_PAGE_SIZE : Z := 200.
Definition MAX_LIST_PAGE_SIZE : Z := 500.
Definition MAX_LIST_SNAPSHOT_ENTRIES : Z := 100000.
Definition LIST_CURSOR_UNAVAILABLE_MESSAGE : bytes := str "List cursor expired or is unavailable; restart listing".

Record ListRequest : Type := {
  lq_owner : bytes;
  lq_revision_owner : bytes;
  lq_path : bytes;
  lq_sort : bytes;
  lq_order : bytes;
  lq_query : bytes;
  lq_filter : TagFilter;
  lq_binding_query : bytes;
  lq_limit : Z;
  lq_cursor : option ListSnapshot.DecodedListCursor }.

(** Why a request stops: with a problem for the client, or an error of the handler. *)
Inductive Stopped : Type :=
| Refuse (status : Z) (code : ErrorCode) (detail : bytes) (recovery : RecoveryAdvice)
| Broken (e : IoError).

(** [query.chars().count()] of a text: the bytes that do not continue a character. *)
Definition char_count (text : bytes) : nat :=
  length (filter (fun b => negb ((128 <=? byte_val b) && (byte_val b <? 192))%Z) text).

Definition choose (allowed : list bytes) (default : bytes) (value : option bytes) : bytes :=
  match value with Some v => if bool_decide (v ∈ allowed) then v else default | None => default end.

Section api.
Context `{Kernel} `{!ServerEnv} `{!MutationEnv} `{!ListEnv}.

Class ListApiEnv : Type := {
  (* [URL_SAFE_NO_PAD], and [serde_json::to_string] of the query with its filter *)
  b64_encode : bytes -> bytes;
  b64_decode : bytes -> option bytes;
  binding_text : bytes -> TagFilter -> option bytes;
  (* the arguments [request_timeout] in nanoseconds and [max_search_entries] *)
  request_timeout : Z;
  max_search_entries : Z;
  (* a permit of [search_slots], and one of the tag database *)
  search_slot : OsWorld -> bool * OsWorld;
  tag_admission : OsWorld -> bool * OsWorld;
  (* what the tag database answers *)
  ListedTags : Type;
  matching_tag_paths : FileQuery -> OsWorld -> option (gmap bytes (list Z * bool)) * OsWorld;
  listed_tags : list (option Sample) -> OsWorld -> TagsAnswer ListedTags * OsWorld;
  (* the memory a snapshot takes, and the identifiers and secrets drawn for it *)
  snapshot_allocation : list ListSort.PathItem -> OsWorld -> ListSnapshot.Allocation * OsWorld;
  snapshot_draws : OsWorld -> list (option (bytes * bytes)) * OsWorld }.
Context `{!ListApiEnv}.

(** [OwnerId::listing_snapshot] *)
Definition list_snapshot_owner (account : bytes) : bytes :=
  sha256 (str "xczs-list-snapshot-owner-v1" ++ [x00] ++ account).

Definition parse_limit (value : option bytes) : option Z :=
  match value with
  | None => Some DEFAULT_LIST_PAGE_SIZE
  | Some v => n ← parse_u64 v; if ((1 <=? n) && (n <=? MAX_LIST_PAGE_SIZE))%Z then Some n else None
  end.

Definition parse_cursor (value : option bytes) : result string (option ListSnapshot.DecodedListCursor) :=
  match value with
  | None => Ok None
  | Some v => c ← ListSnapshot.decode_list_cursor b64_encode b64_decode v; Ok (Some c)
  end.

Definition parse_list_request (account : bytes) (params : QueryParams) : result Stopped ListRequest :=
  let logical_path := default (str "/") (params !! str "path") in
  path ← ok_or (PathPolicy.parse_list_target parse_uuid hyphenated platform_reserved_paths path_policy logical_path)
           (Refuse 400 INVALID_LIST_PATH (str "Invalid list path") NoAdvice);
  let query := default [] (params !! str "q") in
  filter ← ok_or (parse_tag_filter params) (Refuse 400 INVALID_TAG_FILTER (str "Invalid tag filter") NoAdvice);
  binding_query ← ok_or (binding_text query filter) (Broken OtherIo);
  _ ← ensure (char_count query <=? 128)%nat
        (Refuse 400 SEARCH_QUERY_TOO_LONG (str "Search query is too long") NoAdvice);
  limit ← ok_or (parse_limit (params !! str "limit")) (Refuse 400 INVALID_LIST_LIMIT (str "Invalid list limit") NoAdvice);
  cursor ← match parse_cursor (params !! str "cursor") with
           | Ok c => Ok c
           | Err _ => Err (Refuse 400 INVALID_LIST_CURSOR (str "Invalid list cursor") NoAdvice)
           end;
  Ok {| lq_owner := list_snapshot_owner account; lq_revision_owner := owner_persistent account; lq_path := path;
        lq_sort := choose [str "name"; str "mtime"; str "size"] (str "name") (params !! str "sort");
        lq_order := choose [str "asc"; str "desc"] (str "asc") (params !! str "order");
        lq_query := query; lq_filter := filter; lq_binding_query := binding_query; lq_limit := limit;
        lq_cursor := cursor |}.

(** ** The answer *)

Record ListResponse : Type := {
  lr_paths : list ListSort.PathItem;
  lr_next_cursor : option bytes;
  lr_file_tags : option (list ListedTags) }.

Record ListSession : Type := {
  ls_cache : ListSnapshot.ListSnapshotStore;
  ls_response : Problem.Response;
  ls_page : option ListResponse }.

Definition respond (f : Problem.Response -> Problem.Response) : Sys ListSession unit :=
  modify (fun s => {| ls_cache := ls_cache s; ls_response := f (ls_response s); ls_page := ls_page s |}).
Definition set_cache (cache : ListSnapshot.ListSnapshotStore) : Sys ListSession unit :=
  modify (fun s => {| ls_cache := cache; ls_response := ls_response s; ls_page := ls_page s |}).
Definition write_list_response (items : list ListSort.PathItem) (next_cursor : option bytes)
    (tags : option (list ListedTags)) : Sys ListSession unit :=
  modify (fun s => {| ls_cache := ls_cache s; ls_response := ls_response s;
                      ls_page := Some {| lr_paths := items; lr_next_cursor := next_cursor; lr_file_tags := tags |} |}).

Definition refuse (status : Z) (code : ErrorCode) (detail : bytes) (recovery : RecoveryAdvice) : Sys ListSession unit :=
  respond (respond_list_api_problem status code detail recovery).

(** [spawn_directory_blocking]: a panic aborts the release build. *)
Definition spawn_directory_blocking {S A} (task : Sys S A) : Sys S A :=
  admitted ← ask gate_admits;
  if admitted : bool then task else panic.

(** ** Tags *)

Section tags.
Context {S : Type}.

Definition metadata_nofollow_blocking (path : bytes) : Sys S Stat :=
  relative ← of_io (relative_path_or_dot path);
  fd ← io (openat2_path true relative);
  io (fstat fd).

Definition sample (path : bytes) : Sys S (option Sample) :=
  found ← attempt (metadata_nofollow_blocking path);
  match found : result IoError Stat with
  | Ok metadata => mret (sample_of path root_path metadata)
  | Err _ => mret None
  end.

Definition selected (matches : gmap bytes (list Z * bool)) (include_untagged : bool) (s : Sample) : bool :=
  match matches !! sa_path s with
  | Some (identity, selected) => if bool_decide (identity = sample_identity s) then selected else include_untagged
  | None => include_untagged
  end.

(** [for item in paths] *)
Fixpoint keep_tagged (started : Z) (base : bytes) (matches : gmap bytes (list Z * bool)) (include_untagged : bool)
    (paths : list ListSort.PathItem) : Sys S (list ListSort.PathItem) :=
  match paths with
  | [] => mret []
  | item :: paths =>
      stop ← interrupted started request_timeout (cancelled "tag_filter") (cancelled "tag_filter");
      match stop with
      | Some _ => throw OtherIo
      | None =>
          keep ← (if bool_decide (ListSort.path_type item = ListSort.File) then
                    found ← sample (push base (ListSort.name item));
                    mret (match found with Some s => selected matches include_untagged s | None => false end)
                  else mret false);
          rest ← keep_tagged started base matches include_untagged paths;
          mret (if keep : bool then item :: rest else rest)
      end
  end.

Definition filter_tagged_paths (path : bytes) (paths : list ListSort.PathItem) (filter : TagFilter) (recursive : bool)
    : Sys S (list ListSort.PathItem) :=
  permit ← ask tag_admission;
  if negb permit then throw OtherIo
  else
    directory ← of_io (ok_or (strip_path path root_path ≫= Download.os_str_to_str) OtherIo);
    spawn_directory_blocking (
      started ← ask instant_now;
      matches ← ask (matching_tag_paths {| fq_directory := directory; fq_recursive := recursive; fq_all := tf_all filter;
                                           fq_any := tf_any filter; fq_exclude := tf_exclude filter |});
      matches ← of_io (ok_or matches OtherIo);
      reserved ← ask (reserve_exact (Z.of_nat (length paths)));
      _ ← of_io (ok_or reserved OtherIo);
      keep_tagged started path matches (bool_decide (tf_all filter = []) && bool_decide (tf_any filter = [])) paths).

Fixpoint samples (base : bytes) (names : list (option bytes)) : Sys S (list (option Sample)) :=
  match names with
  | [] => mret []
  | None :: names => rest ← samples base names; mret (None :: rest)
  | Some name :: names => s ← sample (push base name); rest ← samples base names; mret (s :: rest)
  end.

Definition TAG_WAIT : Z := 500000000.

(** The connection may be busy; [thread::sleep] only lets time pass. *)
Fixpoint listed_tags_until (fuel : nat) (until : Z) (l : list (option Sample)) : Sys S (list ListedTags) :=
  match fuel with
  | O => out_of_fuel
  | Datatypes.S fuel =>
      answer ← ask (listed_tags l);
      match answer with
      | TagsListed tags => mret tags
      | TagsFailed => throw OtherIo
      | TagsBusy =>
          now ← ask instant_now;
          if (now <? until)%Z then listed_tags_until fuel until l else throw OtherIo
      end
  end.

Definition tags_for_entries (fuel : nat) (path : bytes) (names : list (option bytes)) : Sys S (list ListedTags) :=
  permit ← ask tag_admission;
  if negb permit then throw OtherIo
  else
    spawn_directory_blocking (
      l ← samples path names;
      now ← ask instant_now;
      listed_tags_until fuel (now + TAG_WAIT) l).
End tags.

Definition send_tagged_list_page (fuel : nat) (page : ListSnapshot.ListSnapshotPage) (path : bytes) : Sys ListSession unit :=
  match ListSnapshot.page_items page with
  | Err _ => panic
  | Ok items =>
      let names := (fun item => if bool_decide (ListSort.path_type item = ListSort.File)
                                then Some (ListSort.name item) else None) <$> items in
      tags ← attempt (tags_for_entries fuel path names);
      write_list_response items (ListSnapshot.next_cursor page)
        (match tags : result IoError (list ListedTags) with Ok tags => Some tags | Err _ => None end)
  end.

(** ** A page of a snapshot *)

Definition binding_of (rq : ListRequest) (before : DirectorySnapshot) : ListSnapshot.ListSnapshotBinding :=
  {| ListSnapshot.owner := lq_owner rq; ListSnapshot.path := lq_path rq; ListSnapshot.directory := before;
     ListSnapshot.sort := lq_sort rq; ListSnapshot.order := lq_order rq; ListSnapshot.query := lq_binding_query rq;
     ListSnapshot.limit := lq_limit rq |}.

Definition next_page (fuel : nat) (rq : ListRequest) (before : DirectorySnapshot) (cursor : ListSnapshot.DecodedListCursor)
    : Sys ListSession unit :=
  now ← ask instant_now;
  cache ← gets ls_cache;
  let '(cache, page) := ListSnapshot.store_page sha256 b64_encode cache cursor (binding_of rq before) now in
  _ ← set_cache cache;
  match page with
  | Ok page => send_tagged_list_page fuel page (lq_path rq)
  | Err ListSnapshot.InvalidBinding => refuse 400 INVALID_LIST_CURSOR (str "Invalid list cursor") NoAdvice
  | Err ListSnapshot.DirectoryChanged =>
      refuse 409 DIRECTORY_CHANGED (str "Directory changed; restart listing") RefreshTarget
  | Err ListSnapshot.Unavailable => refuse 409 LIST_CURSOR_UNAVAILABLE LIST_CURSOR_UNAVAILABLE_MESSAGE RefreshTarget
  end.

(** ** A new listing *)

Definition collect_listing {S} (fuel : nat) (rq : ListRequest) : Sys S (result ListingError (Vec ListSort.PathItem)) :=
  if bool_decide (lq_query rq = []) then
    spawn_directory_blocking
      (collect_list_snapshot_blocking fuel (lq_path rq) (lq_revision_owner rq) (lq_sort rq) (lq_order rq)
         MAX_LIST_SNAPSHOT_ENTRIES ListSnapshot.MAX_CACHED_LIST_SNAPSHOT_BYTES_PER_OWNER request_timeout)
  else
    search_dir fuel fuel (lq_path rq) (to_lowercase (lq_query rq)) (lq_sort rq) (lq_order rq) (lq_revision_owner rq)
      max_search_entries request_timeout.

Definition directory_snapshot_after_walk (metadata : result IoError Stat) : result ListingError DirectorySnapshot :=
  match metadata with
  | Err e => Err (io_error "list_snapshot_after" e)
  | Ok metadata =>
      if negb (is_dir metadata)
      then Err (limit "list_snapshot_after" "directory_replaced_by_non_directory" DirectoryChanged)
      else Ok (from_metadata metadata)
  end.

Definition cache_error (p : ListSnapshot.ListingProblem) : ListingError :=
  match p with
  | ListSnapshot.ListSnapshotLimit => limit "list_snapshot_cache" "snapshot_memory_budget" ListSnapshotLimit
  | ListSnapshot.DirectoryOperationFailed =>
      limit "list_snapshot_cache" "random_cursor_generation" DirectoryOperationFailed
  end.

(** [ListSnapshotPage::from_vec], without a cursor *)
Definition whole_page (paths : list ListSort.PathItem) : ListSnapshot.ListSnapshotPage :=
  {| ListSnapshot.page_paths := paths; ListSnapshot.range_start := 0;
     ListSnapshot.range_end := Z.of_nat (length paths); ListSnapshot.next_cursor := None |}.

Definition first_of (fuel : nat) (rq : ListRequest) (before : DirectorySnapshot) (paths : list ListSort.PathItem)
    : Sys ListSession unit :=
  if (lq_limit rq <? Z.of_nat (length paths))%Z then
    now ← ask instant_now;
    allocation ← ask (snapshot_allocation paths);
    draws ← ask snapshot_draws;
    cache ← gets ls_cache;
    let '(cache, page) :=
      ListSnapshot.cache sha256 b64_encode cache allocation (binding_of rq before) paths draws now in
    _ ← set_cache cache;
    match page with
    | Ok page => send_tagged_list_page fuel page (lq_path rq)
    | Err p => respond (respond_list_api_listing_error (cache_error p))
    end
  else send_tagged_list_page fuel (whole_page paths) (lq_path rq).

Definition first_page (fuel : nat) (rq : ListRequest) (before : DirectorySnapshot) : Sys ListSession unit :=
  collected ← collect_listing fuel rq;
  match collected : result ListingError (Vec ListSort.PathItem) with
  | Err e => respond (respond_list_api_listing_error e)
  | Ok paths =>
      filtered ← (if active (lq_filter rq)
                  then attempt (filter_tagged_paths (lq_path rq) (items paths) (lq_filter rq)
                                  (negb (bool_decide (lq_query rq = []))))
                  else mret (Ok (items paths)));
      match filtered : result IoError (list ListSort.PathItem) with
      | Err _ => refuse 503 TAG_LOOKUP_FAILED (str "File tags are temporarily unavailable") Retry
      | Ok paths =>
          after ← attempt (metadata (lq_path rq));
          match directory_snapshot_after_walk after with
          | Err e => respond (respond_list_api_listing_error e)
          | Ok after =>
              if negb (bool_decide (after = before))
              then refuse 409 DIRECTORY_CHANGED (str "Directory changed; restart listing") RefreshTarget
              else first_of fuel rq before paths
          end
      end
  end.

(** ** The handler *)

Definition list_directory (fuel : nat) (rq : ListRequest) : Sys ListSession unit :=
  found ← attempt (metadata (lq_path rq));
  match found : result IoError Stat with
  | Ok st =>
      if is_dir st then
        match lq_cursor rq with
        | Some cursor => next_page fuel rq (from_metadata st) cursor
        | None => first_page fuel rq (from_metadata st)
        end
      else refuse 409 LIST_PATH_NOT_DIRECTORY (str "List path is not a directory") RefreshTarget
  | Err NotFound | Err NotADirectory =>
      refuse 404 LIST_PATH_NOT_FOUND (str "List path was not found") RefreshTarget
  | Err e => throw e
  end.

Definition handle_list_api (fuel : nat) (account : bytes) (params : QueryParams) : Sys ListSession unit :=
  match parse_list_request account params with
  | Err (Refuse status code detail recovery) => refuse status code detail recovery
  | Err (Broken e) => throw e
  | Ok rq =>
      admitted ← match lq_cursor rq with None => ask search_slot | Some _ => mret true end;
      if negb admitted then
        refuse 429 DIRECTORY_OPERATION_LIMIT (str "Too many directory operations are running") (RetryAfterSeconds 1)
      else list_directory fuel rq
  end.
End api.
End ListApi.
