(* ===== verification/ListApiContract.v ===== *)
(** * What a listing request promises

    Every page, the first one and those of a cached snapshot, is cut from one sorted
    listing of what the account may see below the directory it asked for; the cache keeps
    its bounds and holds only such listings; and a request ends.  [ListApiLaws] says that
    digests of owners do not collide and that allocations have sizes, [ListApiTime] that
    time passes during the remaining calls. *)

From S2P Require Import Prelude Paths Utils RootedPaths PathPolicy FileRevision Problem ListSort ListSnapshot.
From S2P Require Import Kernel KernelLaws KernelMotion KernelSteps TrashPurge TrashSafety TrashReturns RootedParents TrashMoves.
From S2P Require Import KernelMemory PurgeWorker PurgeOwnership MutationWorld RootedMutations MutationMemory.
From S2P Require Import DirectoryVisits DirectoryTime Download Listing ListingBounds ListingReturns ListingDirectory ListApi.

Module ListApiContract.
Import RootedPaths PathPolicy Problem Listing ListingBounds ListingDirectory ListApi.

(** ** Sublists *)

Lemma Forall_sublist {A} (P : A -> Prop) l k : sublist l k -> Forall P k -> Forall P l.
Proof. induction 1; intros HF; [done|inversion HF; subst; constructor; auto|inversion HF; subst; auto]. Qed.
Lemma StronglySorted_sublist {A} (R : A -> A -> Prop) l k : sublist l k -> StronglySorted R k -> StronglySorted R l.
Proof.
  induction 1 as [|x l k Hs IH|x l k Hs IH]; intros HS; [constructor| |].
  - apply StronglySorted_inv in HS as [HS HF]. constructor; [auto|]. by eapply Forall_sublist.
  - apply StronglySorted_inv in HS as [HS _]. auto.
Qed.

(** A stable sort is sorted. *)
Lemma stable_sort_sorted {A} (compare : A -> A -> comparison) values out :
  ListSort.stable_sort_of compare values out -> StronglySorted (fun x y => compare x y <> Gt) out.
Proof.
  intros (positions & _ & HS & HF). revert HS. induction HF as [|i x positions out Hi HF IH]; intros HS; [constructor|].
  apply StronglySorted_inv in HS as [HS HB]. constructor; [auto|]. clear IH HS.
  induction HF as [|j y positions out Hj HF IH]; [constructor|]. apply Forall_cons in HB as [(a & b & Ha & Hb & Hc) HB].
  constructor; [|auto]. simplify_eq. by destruct Hc as [->|[-> _]].
Qed.

(** Evictions only take away. *)
Lemma evicts_subseteq s s' : ListSnapshot.evicts s s' -> ListSnapshot.snapshots s' ⊆ ListSnapshot.snapshots s.
Proof.
  induction 1 as [|s s1 s2 [i Hi] _ IH]; [done|]. etrans; [exact IH|].
  destruct Hi as (r & pre & post & _ & _ & ->). apply delete_subseteq.
Qed.

(** The calls a listing request makes. *)
Inductive api_op `{Kernel} `{!ServerEnv} `{!MutationEnv} `{!ListEnv} `{!ListApiEnv} : forall A, (OsWorld -> A * OsWorld) -> Prop :=
| op_list A op : list_op A op -> api_op A op
| op_search_slot : api_op _ search_slot
| op_tag_admission : api_op _ tag_admission
| op_matching q : api_op _ (matching_tag_paths q)
| op_listed l : api_op _ (listed_tags l)
| op_allocation l : api_op _ (snapshot_allocation l)
| op_draws : api_op _ snapshot_draws.
Class ApiCalls `{Calls} `{!ServerEnv} `{!MutationEnv} `{!ListEnv} `{!ListApiEnv} : Prop := api_called A op : api_op A op -> called A op.
#[export] Instance api_list_calls `{AC : ApiCalls} : ListCalls.
Proof. intros A op Hop. by apply api_called, op_list. Qed.
#[export] Hint Extern 2 (Along _) => solve [apply api_called; constructor] : typeclass_instances.

(** What the account may see below the directory. *)
Definition shown `{LL : ListLaws} {K : Calls} (account base : bytes) : ListSort.PathItem -> Prop :=
  item_of base (owner_persistent account) (fun _ => true).

Section contract.
Context `{LL : ListLaws} `{!ListApiEnv} {K : Calls} {AC : ApiCalls} {U : Underway} (known : bytes -> Prop).

(** The digests of the known accounts do not collide. *)
Class ListApiLaws : Prop := {
  law_allocation l w : ListSnapshot.allocation_ok (snapshot_allocation l w).1;
  law_owner a b : known a -> known b -> list_snapshot_owner a = list_snapshot_owner b -> a = b;
  law_search_entries : (0 <= max_search_entries < U64_MAX)%Z }.
Context `{!ListApiLaws}.

(** What is known of the items of a listing: [shown], or nothing. *)
Context (Shown : bytes -> bytes -> ListSort.PathItem -> Prop).
Hypothesis shown_items : forall account base item, shown account base item -> Shown account base item.

Definition in_order (sort order : bytes) : list ListSort.PathItem -> Prop :=
  StronglySorted (fun x y => ListSort.compare_path_items compare_str sort order x y <> Gt).

Definition snapshot_shown (r : ListSnapshot.ListSnapshotRecord) : Prop :=
  let b := ListSnapshot.binding r in
  exists account, known account /\ ListSnapshot.owner b = list_snapshot_owner account /\
    Forall (Shown account (ListSnapshot.path b)) (ListSnapshot.paths r) /\
    in_order (ListSnapshot.sort b) (ListSnapshot.order b) (ListSnapshot.paths r) /\
    (Z.of_nat (length (ListSnapshot.paths r)) <= ListSnapshot.MAX_CACHED_LIST_SNAPSHOT_BYTES_PER_OWNER)%Z.

Record cache_ok (s : ListSnapshot.ListSnapshotStore) : Prop := {
  ok_consistent : ListSnapshot.consistent s;
  ok_bounded : ListSnapshot.bounded s;
  ok_shown : map_Forall (fun _ r => snapshot_shown r) (ListSnapshot.snapshots s) }.

(** What a request without a cursor collected, after the world [w], and the filter by tags
    left of it. *)
Definition collected (fuel : nat) (rq : ListRequest) (w : OsWorld) (l : list ListSort.PathItem) : Prop :=
  exists (s : ListSession) v w1 w2, after w w1 /\ collect_listing fuel rq s w1 = (Val (Ok v), s, w2) /\
    if active (lq_filter rq)
    then exists w3 w4, after w w3 /\
      filter_tagged_paths (lq_path rq) (items v) (lq_filter rq) (negb (bool_decide (lq_query rq = []))) s w3 = (Val l, s, w4)
    else l = items v.

(** The page is the part of the listing [l] from [offset] on, with a cursor exactly when
    more follows; the cursor is that of a snapshot of [l] in the cache, and leads to where
    the page ends. *)
Definition page_of (l : list ListSort.PathItem) (offset limit : Z) (cache : ListSnapshot.ListSnapshotStore)
    (p : ListResponse) : Prop :=
  lr_paths p = take (Z.to_nat limit) (drop (Z.to_nat offset) l) /\
  (lr_next_cursor p = None <-> (Z.of_nat (length l) <= offset + limit)%Z) /\
  forall c, lr_next_cursor p = Some c -> exists i r, ListSnapshot.snapshots cache !! i = Some r /\
    ListSnapshot.paths r = l /\ c = ListSnapshot.encode_list_cursor sha256 b64_encode i (ListSnapshot.secret r) (offset + limit).

(** The page is part of the listing the request collected or, with a cursor, of the
    snapshot the cursor names, in the cache [cache]; [cache'] is the cache afterwards. *)
Definition page_shown (fuel : nat) (account : bytes) (rq : ListRequest) (w : OsWorld)
    (cache cache' : ListSnapshot.ListSnapshotStore) (p : ListResponse) : Prop :=
  match lq_cursor rq with
  | None =>
      exists l, collected fuel rq w l /\ Forall (Shown account (lq_path rq)) l /\ in_order (lq_sort rq) (lq_order rq) l /\
        page_of l 0 (lq_limit rq) cache' p
  | Some c =>
      exists r, ListSnapshot.snapshots cache !! ListSnapshot.id c = Some r /\
        path_eqb (ListSnapshot.path (ListSnapshot.binding r)) (lq_path rq) = true /\
        Forall (Shown account (ListSnapshot.path (ListSnapshot.binding r))) (ListSnapshot.paths r) /\
        in_order (lq_sort rq) (lq_order rq) (ListSnapshot.paths r) /\
        page_of (ListSnapshot.paths r) (ListSnapshot.offset c) (lq_limit rq) cache' p
  end.

Lemma evicts_ok s s' : ListSnapshot.evicts s s' -> cache_ok s -> cache_ok s'.
Proof.
  intros He [Hc Hb Hs]. split.
  - by eapply ListSnapshot.evicts_consistent.
  - by eapply ListSnapshot.evicts_bounded.
  - intros i r Hi. apply (Hs i). by eapply lookup_weaken, evicts_subseteq.
Qed.

Lemma parse_cursor_offset value c : parse_cursor value = Ok (Some c) -> (0 <= ListSnapshot.offset c)%Z.
Proof.
  unfold parse_cursor. destruct value as [v|]; [|done]. intros (x & Hx & [= ->])%bind_Ok.
  unfold ListSnapshot.decode_list_cursor in Hx. destruct (negb _); [done|]. apply bind_Ok in Hx as (bs & _ & Hx).
  destruct (negb _); [done|]. destruct (negb _); [done|]. injection Hx as <-. cbn. apply be_val_bounds.
Qed.

Lemma parse_ok account params rq :
  parse_list_request account params = Ok rq ->
  lq_owner rq = list_snapshot_owner account /\ lq_revision_owner rq = owner_persistent account /\
  (1 <= lq_limit rq <= MAX_LIST_PAGE_SIZE)%Z /\ forall c, lq_cursor rq = Some c -> (0 <= ListSnapshot.offset c)%Z.
Proof.
  unfold parse_list_request. intros (path & _ & Hx)%bind_Ok. apply bind_Ok in Hx as (f & _ & Hx).
  apply bind_Ok in Hx as (q & _ & Hx). apply bind_Ok in Hx as ([] & _ & Hx).
  apply bind_Ok in Hx as (l & Hl%ok_or_Ok & Hx). apply bind_Ok in Hx as (c & Hc & [= <-]). cbn [lq_owner lq_revision_owner lq_limit lq_cursor].
  split; [done|]. split; [done|]. split.
  - unfold parse_limit in Hl. destruct (params !! str "limit") as [v|]; [|by injection Hl as <-].
    apply bind_Some in Hl as (n & _ & Hl). destruct (_ && _) eqn:Eb; [|done]. injection Hl as <-.
    by apply andb_true_iff in Eb as [?%Z.leb_le ?%Z.leb_le].
  - intros x ->. destruct (parse_cursor _) eqn:Ec; [|done]. injection Hc as ->. by eapply parse_cursor_offset.
Qed.

(** ** Calls that leave the session alone *)

Section leaving.
Context {S : Type}.
Implicit Types s : S.

Lemma spawn_stays {A} (C : S -> Prop) (m : Sys S A) Q s : stays C m Q s -> stays C (spawn_directory_blocking m) Q s.
Proof. intros Hm. apply stays_bind, stays_ask. intros w. by rewrite law_admits. Qed.

Lemma interrupted_leaves (C : S -> Prop) a b e1 e2 s :
  stays C (interrupted a b e1 e2) (fun r s' => s' = s /\ is_ok r = true) s.
Proof.
  unfold interrupted. apply stays_bind, stays_ask. intros w. destruct (Kernel.is_cancelled w).1; [by apply stays_ret|].
  apply stays_bind, stays_ask. intros w'. by destruct (_ <=? _)%Z; apply stays_ret.
Qed.

Lemma probe_leaves (C : S -> Prop) nofollow path s :
  C s ->
  stays C (relative ← of_io (relative_path_or_dot path); fd ← io (openat2_path nofollow relative); io (fstat fd))
    (fun _ s' => s' = s) s.
Proof.
  intros HC. apply stays_bind, stays_of_io; [intros rel _|done]. apply stays_bind, stays_io; [done|intros fd|done].
  by apply stays_io.
Qed.

Lemma metadata_leaves (C : S -> Prop) path s : C s -> stays C (metadata path) (fun _ s' => s' = s) s.
Proof.
  intros HC. unfold metadata, metadata_of, gated. apply stays_bind, stays_ask. intros w. rewrite law_admits.
  by apply probe_leaves.
Qed.

Lemma sample_leaves (C : S -> Prop) path s : C s -> stays C (sample path) (fun r s' => s' = s /\ is_ok r = true) s.
Proof.
  intros HC. apply stays_bind, stays_attempt. eapply stays_mono; [by apply probe_leaves|].
  intros [st|e] s' ->; by apply stays_ret.
Qed.

Lemma keep_leaves (C : S -> Prop) started base matches untagged l s :
  C s ->
  stays C (keep_tagged started base matches untagged l)
    (fun r s' => s' = s /\ match r with Ok k => sublist k l | Err _ => True end) s.
Proof.
  intros HC. induction l as [|item l IH]; cbn [keep_tagged]; [by apply stays_ret|].
  apply stays_bind. eapply stays_mono; [apply interrupted_leaves|].
  intros [[x|]|x] s1 [-> Hok]; [by apply stays_throw| |done].
  apply stays_bind. eapply (stays_mono _ _ (fun r s' => s' = s /\ is_ok r = true)).
  - case_bool_decide; [|by apply stays_ret]. apply stays_bind. eapply stays_mono; [by apply sample_leaves|].
    intros [found|e] s1 [-> Hf]; [by apply stays_ret|done].
  - intros [keep|e] s1 [-> Hk]; [|done]. apply stays_bind. eapply stays_mono; [apply IH|].
    intros [k|e] s1 [-> Hs]; [|done]. apply stays_ret. split; [done|]. by destruct keep; constructor.
Qed.

Lemma filter_leaves (C : S -> Prop) path l f recursive s :
  C s ->
  stays C (filter_tagged_paths path l f recursive)
    (fun r s' => s' = s /\ match r with Ok k => sublist k l | Err _ => True end) s.
Proof.
  intros HC. apply stays_bind, stays_ask. intros w. destruct (tag_admission w).1; cbn [negb]; [|by apply stays_throw].
  apply stays_bind, stays_of_io; [intros directory _|done]. apply spawn_stays.
  apply stays_bind, stays_ask. intros w1. apply stays_bind, stays_ask. intros w2.
  apply stays_bind, stays_of_io; [intros matches _|done]. apply stays_bind, stays_ask. intros w3.
  apply stays_bind, stays_of_io; [intros n _|done]. by apply keep_leaves.
Qed.

Lemma tags_leave (C : S -> Prop) fuel path names s :
  C s -> stays C (tags_for_entries fuel path names) (fun _ s' => s' = s) s.
Proof.
  intros HC. apply stays_bind, stays_ask. intros w. destruct (tag_admission w).1; cbn [negb]; [|by apply stays_throw].
  apply spawn_stays, stays_bind.
  eapply (stays_mono _ _ (fun r s' => s' = s /\ is_ok r = true)).
  - induction names as [|[name|] names IH]; cbn [samples]; [by apply stays_ret|..]; apply stays_bind.
    + eapply stays_mono; [by apply sample_leaves|]. intros [x|e] s1 [-> Hx]; [|done].
      apply stays_bind. eapply stays_mono; [apply IH|]. intros [l|e] s1 [-> Hl]; [by apply stays_ret|done].
    + eapply stays_mono; [apply IH|]. intros [l|e] s1 [-> Hl]; [by apply stays_ret|done].
  - intros [l|e] s1 [-> _]; [|done]. apply stays_bind, stays_ask. intros w1. generalize ((instant_now w1).1 + TAG_WAIT)%Z.
    intros deadline. induction fuel as [|fuel IH]; [by apply stays_out_of_fuel|]. cbn [listed_tags_until].
    apply stays_bind, stays_ask. intros w2. destruct (listed_tags l w2).1; [by apply stays_ret| |by apply stays_throw].
    apply stays_bind, stays_ask. intros w3. destruct (_ <? _)%Z; [apply IH|by apply stays_throw].
Qed.
End leaving.

(** ** Pages *)

(** Every item takes a byte at least. *)
Lemma listing_length l m : (listing_bytes l <= m)%Z -> (Z.of_nat (length l) <= m)%Z.
Proof.
  unfold listing_bytes. pose proof law_path_item. pose proof law_vec.
  pose proof (sum_of_nonneg path_item_heap_bytes l heap_bytes_nonneg). nia.
Qed.

Lemma item_in_shown directory base account wanted item :
  item_in directory base (owner_persistent account) wanted item -> Shown account base item.
Proof.
  intros Hi. apply shown_items. destruct Hi as (e & n & rel & H1' & H2' & H3' & _ & H5' & H6' & H7' & H8'). exists directory, e, n, rel. by split_and!.
Qed.

(** What is collected for a request. *)
Definition listing_of (account : bytes) (rq : ListRequest) (l : list ListSort.PathItem) : Prop :=
  Forall (Shown account (lq_path rq)) l /\ in_order (lq_sort rq) (lq_order rq) l /\
  (Z.of_nat (length l) <= ListSnapshot.MAX_CACHED_LIST_SNAPSHOT_BYTES_PER_OWNER)%Z.

Lemma listing_sublist account rq l k : sublist k l -> listing_of account rq l -> listing_of account rq k.
Proof.
  intros Hs (HF & HO & Hl). split_and!; [by eapply Forall_sublist|by eapply StronglySorted_sublist|].
  apply sublist_length in Hs. lia.
Qed.

Lemma collect_leaves {S} (C : S -> Prop) fuel account rq s :
  lq_revision_owner rq = owner_persistent account -> C s ->
  stays C (collect_listing fuel rq)
    (fun r s' => s' = s /\ match r with Ok (Ok v) => listing_of account rq (items v) | Ok (Err _) => True | Err _ => False end) s.
Proof.
  intros Ho HC. unfold collect_listing. case_bool_decide as Hq.
  - apply spawn_stays. eapply stays_mono; [apply collect_list_stays; [done|split; [apply law_vec|done]|done]|].
    intros [[v|e]|e] s1 [-> Hv]; split; try done. destruct Hv as (HF & _ & Hb & found & _ & Hs). rewrite Ho in HF.
    split_and!; [|by eapply stable_sort_sorted|by apply listing_length].
    eapply Forall_impl; [exact HF|]. intros x. apply item_in_shown.
  - eapply stays_mono; [apply search_stays; [apply law_search_entries|done]|].
    intros [[v|e]|e] s1 [-> Hv]; split; try done. destruct Hv as (HF & _ & Hb & found & _ & Hs). rewrite Ho in HF.
    split_and!; [|by eapply stable_sort_sorted|by apply listing_length].
    eapply Forall_impl; [exact HF|]. intros x [d Hx]. by eapply item_in_shown.
Qed.

(** A part of a listing, as it is cut out. *)
Lemma cut_page (l : list ListSort.PathItem) (offset limit stop : Z) :
  (0 <= offset <= Z.of_nat (length l))%Z -> (0 <= limit)%Z -> stop = Z.min (offset + limit) (Z.of_nat (length l)) ->
  (offset <= stop <= Z.of_nat (length l))%Z /\
  take (Z.to_nat (stop - offset)) (drop (Z.to_nat offset) l) = take (Z.to_nat limit) (drop (Z.to_nat offset) l).
Proof.
  intros Ho Hl ->. split; [lia|]. destruct (Z.le_gt_cases (offset + limit) (Z.of_nat (length l))).
  - f_equal. lia.
  - rewrite !take_ge; [done|..]; rewrite length_drop; lia.
Qed.

Definition fresh (s : ListSession) : Prop :=
  cache_ok (ls_cache s) /\ ls_response s = Problem.default_response /\ ls_page s = None.
Context (cache0 : ListSnapshot.ListSnapshotStore).
Definition settled (fuel : nat) (account : bytes) (rq : ListRequest) (r : result IoError unit) (s : ListSession) : Prop :=
  cache_ok (ls_cache s) /\
  match ls_page s with
  | None => True
  | Some p => r = Ok tt /\ ls_response s = Problem.default_response /\
      page_shown fuel account rq entered cache0 (ls_cache s) p
  end.

Lemma refuse_settles fuel account rq (f : Problem.Response -> Problem.Response) s :
  fresh s -> stays fresh (respond f) (settled fuel account rq) s.
Proof. intros (Hc & _ & Hp). apply stays_modify. split; [done|]. cbn. by rewrite Hp. Qed.

Lemma send_settles fuel account rq page l s :
  fresh s -> ListSnapshot.page_items page = Ok l ->
  (forall tags, page_shown fuel account rq entered cache0 (ls_cache s) {| lr_paths := l; lr_next_cursor := ListSnapshot.next_cursor page; lr_file_tags := tags |}) ->
  stays fresh (send_tagged_list_page fuel page (lq_path rq)) (settled fuel account rq) s.
Proof.
  intros Hf Hl Hp. unfold send_tagged_list_page. rewrite Hl. apply stays_bind, stays_attempt.
  eapply stays_mono; [by apply tags_leave|]. intros r s1 ->. apply stays_modify. destruct Hf as (Hc & Hr & _).
  by split_and!.
Qed.

Lemma next_settles account rq fuel before cursor s :
  known account -> lq_owner rq = list_snapshot_owner account -> (1 <= lq_limit rq <= MAX_LIST_PAGE_SIZE)%Z ->
  lq_cursor rq = Some cursor -> (0 <= ListSnapshot.offset cursor)%Z -> fresh s -> ls_cache s = cache0 ->
  stays fresh (next_page fuel rq before cursor) (settled fuel account rq) s.
Proof.
  intros Hk Ho Hl Hcur Hz Hf Hc0. unfold next_page. apply stays_bind, stays_ask. intros w. apply stays_bind, stays_gets.
  set (now := (instant_now w).1). unfold ListSnapshot.store_page.
  destruct Hf as (Hc & Hr & Hp). pose proof (ListSnapshot.purge_evicts (ls_cache s) now (ok_consistent _ Hc)) as He.
  pose proof (evicts_ok _ _ He Hc) as Hc'. apply stays_bind, stays_modify.
  set (s1 := {| ls_cache := _; ls_response := _; ls_page := _ |}). assert (Hf1 : fresh s1) by done.
  match goal with |- stays _ (match ?r with _ => _ end) _ _ => destruct r as [page|e] eqn:E end;
    [|by destruct e; apply refuse_settles].
  apply bind_Ok in E as (r & Hr'%ok_or_Ok & E). pose proof Hr' as Hlook. apply bind_Ok in E as (_ & _ & E).
  apply bind_Ok in E as (_ & Hm%ensure_Ok & E). apply bind_Ok in E as (_ & _ & E).
  apply bind_Ok in E as (_ & Hoff%ensure_Ok & E). cbn zeta in E. injection E as <-.
  unfold ListSnapshot.matches_request in Hm. cbn [binding_of ListSnapshot.owner ListSnapshot.path ListSnapshot.sort
    ListSnapshot.order ListSnapshot.query ListSnapshot.limit] in Hm.
  rewrite !andb_true_iff, !bool_decide_eq_true, Z.eqb_eq in Hm. destruct Hm as (((((Hown & Hpath) & Hsort) & Hord) & _) & Hlim).
  rewrite negb_true_iff, orb_false_iff, Z.eqb_neq, Z.leb_gt in Hoff.
  apply (ok_shown _ Hc') in Hr' as (a & Hka & Ha & HF & HO & Hlen).
  rewrite Hown, Ho in Ha. apply law_owner in Ha as <-; [|done..].
  rewrite Hlim. set (l := ListSnapshot.paths r) in *. set (off := ListSnapshot.offset cursor) in *.
  assert (Hsat : u64_saturating_add off (lq_limit rq) = (off + lq_limit rq)%Z).
  { unfold u64_saturating_add, MAX_LIST_PAGE_SIZE, ListSnapshot.MAX_CACHED_LIST_SNAPSHOT_BYTES_PER_OWNER, U64_MAX in *. lia. }
  rewrite Hsat. destruct (cut_page l off (lq_limit rq) _ ltac:(lia) ltac:(lia) eq_refl) as [Hrange Hcut].
  set (stop := Z.min _ _) in *. eapply send_settles; [done| |].
  - unfold ListSnapshot.page_items. cbn [ListSnapshot.range_start ListSnapshot.range_end ListSnapshot.page_paths].
    rewrite (proj2 (Z.leb_le off stop)), (proj2 (Z.leb_le stop _)) by lia. cbn [andb]. by rewrite Hcut.
  - intros tags. unfold page_shown. rewrite Hcur. exists r.
    cbn [lr_paths lr_next_cursor ListSnapshot.next_cursor]. rewrite Hsort, Hord in HO. split_and!; try done.
    + rewrite <- Hc0. by eapply lookup_weaken, evicts_subseteq.
    + fold l off. split; [done|]. cbn [lr_next_cursor].
      destruct (Z.ltb_spec stop (Z.of_nat (length l))) as [Hlt|Hge]; (split; [split; intros; first [done|unfold stop in *; lia]|]); [|done].
      intros c [= <-]. exists (ListSnapshot.id cursor), r. split_and!; [exact Hlook|done|]. f_equal. unfold stop in *. lia.
Qed.

Lemma first_settles account rq fuel before l s :
  known account -> lq_owner rq = list_snapshot_owner account -> (1 <= lq_limit rq <= MAX_LIST_PAGE_SIZE)%Z ->
  lq_cursor rq = None -> collected fuel rq entered l -> listing_of account rq l -> fresh s ->
  stays fresh (first_of fuel rq before l) (settled fuel account rq) s.
Proof.
  intros Hk Ho Hl Hcur Hcol (HF & HO & Hlen) Hf. unfold first_of.
  assert (Hshown : forall cache next tags, (next = None <-> (Z.of_nat (length l) <= lq_limit rq)%Z) ->
    (forall c, next = Some c -> exists i r, ListSnapshot.snapshots cache !! i = Some r /\ ListSnapshot.paths r = l /\
       c = ListSnapshot.encode_list_cursor sha256 b64_encode i (ListSnapshot.secret r) (lq_limit rq)) ->
    page_shown fuel account rq entered cache0 cache
      {| lr_paths := take (Z.to_nat (lq_limit rq)) l; lr_next_cursor := next; lr_file_tags := tags |}).
  { intros cache next tags Hn Hi. unfold page_shown. rewrite Hcur. exists l. by split_and!. }
  destruct (Z.ltb_spec (lq_limit rq) (Z.of_nat (length l))) as [Hlong|Hshort].
  - apply stays_bind, stays_ask. intros w1. apply stays_bind, stays_ask. intros w2. apply stays_bind, stays_ask. intros w3.
    apply stays_bind, stays_gets. destruct Hf as ([Hc Hb Hs] & Hr & Hp).
    pose proof (ListSnapshot.cache_cases sha256 b64_encode (ls_cache s) (snapshot_allocation l w2).1 (binding_of rq before) l
      (snapshot_draws w3).1 (instant_now w1).1 Hc Hb (law_allocation l w2)) as Hcases. cbn zeta in Hcases.
    destruct (ListSnapshot.cache _ _ _ _ _ _ _ _) as [cache page]. apply stays_bind, stays_modify.
    destruct Hcases as [(_ & -> & ->)|(s1 & He & [[-> ->]|(i & k & _ & _ & -> & Hc' & Hb' & _ & ->)])].
    + by apply refuse_settles.
    + apply refuse_settles. split; [|done]. by eapply evicts_ok.
    + eapply send_settles; [split; [|done]| |].
      * split; [done..|]. apply map_Forall_insert_2; [|apply (evicts_ok _ _ He); done].
        exists account. by split_and!.
      * unfold ListSnapshot.page_items. cbn [ListSnapshot.range_start ListSnapshot.range_end ListSnapshot.page_paths ListSnapshot.limit binding_of].
        rewrite (proj2 (Z.leb_le 0 (lq_limit rq))), (proj2 (Z.leb_le (lq_limit rq) _)) by lia. cbn [andb].
        by rewrite Z.sub_0_r, drop_0.
      * intros tags. apply Hshown; cbn [ListSnapshot.next_cursor]; [split; [done|lia]|]. intros c [= <-].
        eexists i, _. cbn. split; [apply lookup_insert_eq|]. done.
  - eapply send_settles; [done| |].
    + unfold ListSnapshot.page_items, whole_page. cbn [ListSnapshot.range_start ListSnapshot.range_end ListSnapshot.page_paths].
      rewrite (proj2 (Z.leb_le 0 _)), Z.leb_refl by lia. cbn [andb]. by rewrite Z.sub_0_r, drop_0, Nat2Z.id, firstn_all.
    + intros tags. cbn [ListSnapshot.next_cursor whole_page]. specialize (Hshown (ls_cache s) None tags).
      rewrite take_ge in Hshown by lia. by apply Hshown.
Qed.

Lemma handler_settles fuel account params s :
  known account -> fresh s -> ls_cache s = cache0 ->
  stays fresh (handle_list_api fuel account params)
    (fun r s => cache_ok (ls_cache s) /\
       (ls_page s = None \/ exists rq, parse_list_request account params = Ok rq /\ settled fuel account rq r s)) s.
Proof.
  intros Hk Hf Hc0. unfold handle_list_api. destruct (parse_list_request account params) as [rq|[status code detail recovery|e]] eqn:E.
  - destruct (parse_ok _ _ _ E) as (Ho & Hrev & Hl & Hz).
    apply (stays_mono _ _ (settled fuel account rq)); [|intros r s1 Hs; split; [apply Hs|right; by exists rq]].
    apply stays_bind. eapply (stays_mono _ _ (fun r s' => s' = s /\ is_ok r = true)).
    { destruct (lq_cursor rq); [by apply stays_ret|]. by apply stays_ask. }
    intros [b|x] s1 [-> Hok]; [|done]. destruct b; cbn [negb]; [|by apply refuse_settles].
    unfold list_directory. apply stays_bind, stays_attempt. eapply stays_mono; [by apply metadata_leaves|].
    assert (Hstop : forall e, stays fresh (throw e) (settled fuel account rq) s).
    { intros e. apply stays_throw. destruct Hf as (Hc & _ & Hp). split; [done|]. by rewrite Hp. }
    intros [st|e] s1 ->; [|by destruct e; first [apply Hstop|apply refuse_settles]].
    destruct (is_dir st); [|by apply refuse_settles].
    destruct (lq_cursor rq) as [cursor|] eqn:Ec; [by apply next_settles; auto|].
    unfold first_page. apply stays_bind. eapply stays_run; [by apply (collect_leaves fresh fuel account)|].
    intros [[v|x]|x] s1 w1 w2 Hw1 Ecol [-> Hv]; [|by apply refuse_settles|done]. cbn [ended] in Ecol.
    apply stays_bind. eapply (stays_mono _ _ (fun r s' => s' = s /\ match r with
      | Ok (Ok k) => listing_of account rq k /\ collected fuel rq entered k | Ok (Err _) => True | Err _ => False end)).
    { assert (forall k, (if active (lq_filter rq) then exists w3 w4, after entered w3 /\
          filter_tagged_paths (lq_path rq) (items v) (lq_filter rq) (negb (bool_decide (lq_query rq = []))) s w3 = (Val k, s, w4)
        else k = items v) -> collected fuel rq entered k) as Hcol by (intros k Hx; by exists s, v, w1, w2).
      destruct (active _) eqn:Ea; [|apply stays_ret; split_and!; [done..|by apply Hcol]].
      apply stays_attempt. eapply stays_run; [by apply filter_leaves|].
      intros [k|x] s1 w3 w4 Hw3 Ek [-> Hsub]; split; try done. cbn [ended] in Ek.
      split; [by eapply listing_sublist|apply Hcol; by exists w3, w4]. }
    intros [[k|x]|x] s1 [-> Hkept]; [|by apply refuse_settles|done]. destruct Hkept as [Hkept Hcol].
    apply stays_bind, stays_attempt. eapply stays_mono; [by apply metadata_leaves|]. intros r s1 ->.
    destruct (directory_snapshot_after_walk r) as [after|x]; [|by apply refuse_settles].
    case_bool_decide; cbn [negb]; [|by apply refuse_settles]. by apply first_settles.
  - destruct Hf as (Hc & Hr & Hp). apply stays_modify. split; [done|]. by left.
  - apply stays_throw. split; [apply Hf|]. left. apply Hf.
Qed.
End contract.

Definition session `{Kernel} `{!ServerEnv} `{!MutationEnv} `{!ListEnv} `{!ListApiEnv}
    (cache : ListSnapshot.ListSnapshotStore) : ListSession :=
  {| ls_cache := cache; ls_response := Problem.default_response; ls_page := None |}.

(** A server whose listing requests are all that happens, from the world [w] on. *)
Definition requests_from_now `{Kernel} `{!ServerEnv} `{!MutationEnv} `{!ListEnv} `{!ListApiEnv} (w : OsWorld) : Calls :=
  {| begun := w; called := api_op |}.
Lemma requests_from_now_calls `{Kernel} `{!ServerEnv} `{!MutationEnv} `{!ListEnv} `{!ListApiEnv} w :
  ApiCalls (H0 := requests_from_now w).
Proof. by intros A op Hop. Qed.
Definition requests_underway `{Kernel} `{!ServerEnv} `{!MutationEnv} `{!ListEnv} `{!ListApiEnv} (w : OsWorld) :
    Underway (H0 := requests_from_now w) :=
  @Build_Underway _ (requests_from_now w) w (rtc_refl _ w).

(** C31. A listing request shows an account only what it may see.  Whatever the tree, the
    tag database and the clock do, and wherever the process dies: a page that is sent is
    cut out of one listing, the one the request collected (and filtered by tags), or with
    a cursor the cached snapshot the cursor names.  That listing is sorted as asked for,
    and its items stand for entries that were read from directories below the root, with
    their names below the requested directory and the account's own revisions of them,
    none of them internal or reserved.  The page starts where the cursor says, has as many
    items as asked for if there are as many, and carries a cursor exactly if more follow
    in that listing; the cursor is that of a cached snapshot of the same listing and says
    where the page ended.  The cache stays within its bounds, and every snapshot in it is
    such a listing, for the account that owns it.  The handler does not panic. *)
Theorem list_request_confined `{LL : ListLaws} `{!ListApiEnv} {K : Calls} {AC : ApiCalls} known `{!ListApiLaws known}
    fuel account params cache w :
  after begun w -> known account -> cache_ok known shown cache ->
  let '(o, s', w') := handle_list_api fuel account params (session cache) w in
  after begun w' /\ o <> Panicked /\ cache_ok known shown (ls_cache s') /\
  forall p, ls_page s' = Some p ->
    o = Val tt /\ ls_response s' = Problem.default_response /\
    exists rq, parse_list_request account params = Ok rq /\ page_shown shown fuel account rq w cache (ls_cache s') p.
Proof.
  intros Hw Hk Hc. pose proof (handler_settles (U := {| entered := w; underway := Hw |}) known shown ltac:(done) cache fuel account params
    (session cache) Hk ltac:(done) eq_refl w (rtc_refl _ _)) as Hs.
  destruct (handle_list_api _ _ _ _ w) as [[o s'] w']. destruct Hs as [Hw' Hs]. split; [by etrans|].
  destruct o as [[]|e| | |]; [..|done|].
  - destruct Hs as [Hc' Hp]. split_and!; [done..|]. intros p Ep. destruct Hp as [Hp|(rq & Hrq & _ & Hp)]; [by rewrite Hp in Ep|].
    rewrite Ep in Hp. destruct Hp as (_ & Hr & Hp). eauto.
  - destruct Hs as [Hc' Hp]. split_and!; [done..|]. intros p Ep. destruct Hp as [Hp|(rq & Hrq & _ & Hp)]; [by rewrite Hp in Ep|].
    rewrite Ep in Hp. by destruct Hp.
  - destruct Hs as (Hc' & _ & Hp). split_and!; [done..|]. intros p. by rewrite Hp.
  - destruct Hs as (Hc' & _ & Hp). split_and!; [done..|]. intros p. by rewrite Hp.
Qed.

(** ** Time *)

Import KernelMotion TrashReturns DirectoryTime ListingReturns.

Class ListApiTime `{ListTime} `{!ListApiEnv} : Prop := {
  pass_search_slot : op_in (passing dots) search_slot;
  pass_tag_admission : op_in (passing dots) tag_admission;
  pass_matching q : op_in (passing dots) (matching_tag_paths q);
  pass_listed l : op_in (passing dots) (listed_tags l);
  pass_allocation l : op_in (passing dots) (snapshot_allocation l);
  pass_draws : op_in (passing dots) snapshot_draws }.
#[export] Hint Resolve pass_search_slot pass_tag_admission pass_matching pass_listed pass_allocation pass_draws : motion.

Section returns.
Context `{LT : ListApiTime}.
Abbreviation passes := (passing dots).

Lemma pass_list_metadata {S} path : forward passes (S := S) (metadata path).
Proof. unfold metadata, metadata_of, gated. forward_auto. Qed.
Lemma pass_sample {S} path : forward passes (S := S) (sample path).
Proof. unfold sample, metadata_nofollow_blocking. forward_auto. Qed.
Hint Resolve pass_list_metadata pass_sample : motion.
Lemma pass_keep {S} started base matches untagged l :
  forward passes (S := S) (keep_tagged started base matches untagged l).
Proof. induction l; cbn [keep_tagged]; unfold interrupted; forward_auto. Qed.
Lemma pass_samples {S} base l : forward passes (S := S) (samples base l).
Proof. induction l as [|[] l IH]; cbn [samples]; forward_auto. Qed.
Hint Resolve pass_keep pass_samples : motion.
Lemma pass_filter {S} path l f b : forward passes (S := S) (filter_tagged_paths path l f b).
Proof. unfold filter_tagged_paths, spawn_directory_blocking. forward_auto. Qed.
Hint Resolve pass_filter : motion.

(** Asking the tag database again and again ends at its deadline. *)
Lemma listed_tags_last {S} fuel deadline l :
  lasts (S := S) (fun w => (remaining deadline w < Z.of_nat fuel)%Z) (listed_tags_until fuel deadline l).
Proof.
  induction fuel as [|fuel IH]; cbn [listed_tags_until]; [intros s w Hw; unfold remaining in Hw; lia|].
  apply (lasts_bind clock_le); [forward_auto|done| |].
  { intros w w' Hw Hc. unfold remaining in *. clock_lia. }
  intros [tags| |]; [apply lasts_forward; forward_auto| |apply lasts_forward; forward_auto].
  apply lasts_then; [apply lasts_forward; forward_auto|]. intros s w t s1 w1 Hw [-> Et]%ask_Val.
  pose proof (tick_now w) as [Hc Ht]. rewrite Et in Hc, Ht. cbn in Hc, Ht. subst t.
  destruct (Z.ltb_spec (clock_at w1) deadline); [|apply lasts_forward; forward_auto].
  eapply lasts_weaken; [apply IH|]. intros ? ->. unfold remaining in *. clock_lia.
Qed.

Context (fuel : nat) (Htags : (TAG_WAIT < Z.of_nat fuel)%Z).

Lemma tags_end {S} path names : forward clock_le (S := S) (tags_for_entries fuel path names).
Proof.
  apply lasts_ends. unfold tags_for_entries, spawn_directory_blocking.
  apply lasts_then; [apply lasts_forward; forward_auto|]. intros s w permit s1 w1 _ _.
  destruct permit; cbn [negb]; [|apply lasts_forward; forward_auto].
  apply lasts_then; [apply lasts_forward; forward_auto|]. intros ? ? b ? ? _ _. destruct b; [|apply lasts_forward; forward_auto].
  apply lasts_then; [apply lasts_forward; forward_auto|]. intros ? ? l ? ? _ _.
  apply lasts_then; [apply lasts_forward; forward_auto|]. intros u v t u' v' _ [-> Et]%ask_Val.
  pose proof (tick_now v) as [_ Ht]. rewrite Et in Ht. cbn in Ht. subst t.
  eapply lasts_weaken; [apply listed_tags_last|]. intros ? ->. unfold remaining, TAG_WAIT in *. lia.
Qed.
Hint Resolve tags_end : motion.

Lemma send_ends page path : forward clock_le (send_tagged_list_page fuel page path).
Proof. unfold send_tagged_list_page, write_list_response. forward_auto. Qed.
Hint Resolve send_ends : motion.

Context (Htime : (0 <= request_timeout)%Z) (Hfuel : (request_timeout + 2 < Z.of_nat fuel)%Z).

Lemma collect_listing_ends {S} rq : forward clock_le (S := S) (collect_listing fuel rq).
Proof.
  assert (forward clock_le (S := S)
    (search_dir fuel fuel (lq_path rq) (to_lowercase (lq_query rq)) (lq_sort rq) (lq_order rq) (lq_revision_owner rq)
       max_search_entries request_timeout)) by (apply search_ends; lia).
  pose proof (collect_list_ends (S := S) fuel (lq_path rq) (lq_revision_owner rq) (lq_sort rq) (lq_order rq)
    MAX_LIST_SNAPSHOT_ENTRIES ListSnapshot.MAX_CACHED_LIST_SNAPSHOT_BYTES_PER_OWNER request_timeout Htime Hfuel).
  unfold collect_listing, spawn_directory_blocking. forward_auto.
Qed.
Hint Resolve collect_listing_ends : motion.

Lemma list_handler_ends account params : forward clock_le (handle_list_api fuel account params).
Proof.
  unfold handle_list_api, list_directory, next_page, first_page, first_of, refuse, respond, set_cache. forward_auto.
Qed.
End returns.

(** C32. A listing request ends.  With one unit of fuel for every nanosecond a request may
    take, and at least as many as the tag database may keep it waiting, the handler returns
    its answer or an error, unless the process dies: neither the collection, nor the
    enumerations, nor asking a busy tag database again runs out of fuel. *)
Theorem list_request_returns `{LL : ListLaws} `{!ClockLaws} `{!VisitTime} `{!ListTime} `{!ListApiEnv} `{!ListApiTime}
    known `{!ListApiLaws known} fuel account params cache w :
  known account -> cache_ok known (fun _ _ _ => True) cache ->
  (0 <= request_timeout)%Z -> (request_timeout + 2 < Z.of_nat fuel)%Z -> (TAG_WAIT < Z.of_nat fuel)%Z ->
  let o := (handle_list_api fuel account params (session cache) w).1.1 in
  TrashSafety.is_final o = true \/ o = Crashed.
Proof.
  intros Hk Hc Ht Hf Hg o. subst o.
  pose proof (list_handler_ends fuel Hg Ht Hf account params (session cache) w) as He.
  pose proof (handler_settles (K := requests_from_now w) (AC := requests_from_now_calls w) (U := requests_underway w)
    known (fun _ _ _ => True) ltac:(done) cache fuel account params (session cache) Hk ltac:(done) eq_refl w (rtc_refl _ _)) as Hs.
  destruct (handle_list_api _ _ _ _ w) as [[[] ?] ?]; destruct He, Hs as [_ Hs]; auto.
Qed.

(** ** Two requests *)

Import KernelMemory PurgeOwnership MutationMemory.

#[export] Instance memory_list_api : ListApiEnv (H := memory_kernel) := {|
  b64_encode := ListSnapshot.encode0;
  b64_decode := ListSnapshot.decode0;
  binding_text q _ := Some q;
  request_timeout := 1000;
  max_search_entries := 100;
  search_slot m := (true, m);
  tag_admission m := (true, m);
  ListedTags := list Z;
  matching_tag_paths _ m := (Some ∅, m);
  listed_tags l m := (TagsListed [], m);
  snapshot_allocation l m :=
    ({| ListSnapshot.record_size := 200; ListSnapshot.item_size := 96; ListSnapshot.path_capacity := Z.of_nat (length l);
        ListSnapshot.sort_capacity := 4; ListSnapshot.order_capacity := 4; ListSnapshot.query_capacity := 0;
        ListSnapshot.name_capacities := [] |}, m);
  snapshot_draws m := ([Some (be_bytes 32 (m_next m), be_bytes 32 (m_next m + 1))], m) |}.

Definition readers (account : bytes) : Prop := account = str "me" \/ account = str "you".

Lemma readers_differ :
  list_snapshot_owner (H := memory_kernel) (str "me") <> list_snapshot_owner (H := memory_kernel) (str "you").
Proof. apply (bool_decide_eq_false_1 (list_snapshot_owner (H := memory_kernel) (str "me") = _)). by vm_compute. Qed.

#[export] Instance memory_list_api_laws :
  ListApiLaws (H := memory_kernel) (H3 := memory_list_api) readers.
Proof.
  split.
  - intros l w. split; [|constructor]. cbn. split_and!; lia.
  - intros a b [->| ->] [->| ->]; [reflexivity| | |reflexivity]; intros E; exfalso; by apply readers_differ.
  - done.
Qed.

#[export] Instance memory_list_api_time :
  ListApiTime (H1 := memory_server) (H2 := memory_mutations) (H4 := memory_listings) (H6 := memory_list_api).
Proof. split; passes_memory. Qed.

Definition one_by_one : QueryParams := {[ str "limit" := str "1" ]}.
Definition first_request : outcome unit * ListSession * Memory :=
  handle_list_api 1003 (str "me") one_by_one (session ListSnapshot.default_store) shelf.
Definition names_on (s : ListSession) : option (list bytes) := (fun p => ListSort.name <$> lr_paths p) <$> ls_page s.

(** A request with the cursor of the first. *)
Definition second_request (account : bytes) : outcome unit * ListSession * Memory :=
  let '(_, s, w) := first_request in
  let cursor := default [] (ls_page s ≫= lr_next_cursor) in
  handle_list_api 1003 account (<[str "cursor" := cursor]> one_by_one) (session (ls_cache s)) w.
Definition answer_status (r : outcome unit * ListSession * Memory) : Z := res_status (ls_response r.1.2).

Lemma default_ok known Shown : cache_ok (H := memory_kernel) known Shown ListSnapshot.default_store.
Proof. destruct ListSnapshot.default_good. split; [done..|]. apply map_Forall_empty. Qed.

Definition shelf_requests : Calls := requests_from_now (H := memory_kernel) shelf.
Lemma shelf_requests_calls : ApiCalls (H0 := shelf_requests).
Proof. by intros A op Hop. Qed.

(** Two pages of one entry each; another account cannot use the cursor. *)
Lemma list_request_confined_witness :
  (names_on first_request.1.2 = Some [str "sub"] /\ names_on (second_request (str "me")).1.2 = Some [str "Keep"] /\
   names_on (second_request (str "you")).1.2 = None /\ answer_status (second_request (str "you")) = 400%Z) /\
  let '(o, s', w') := first_request in
  after (H0 := shelf_requests) (begun (Calls := shelf_requests)) w' /\ o <> Panicked /\
  cache_ok readers (shown (K := shelf_requests)) (ls_cache s') /\
  forall p, ls_page s' = Some p ->
    o = Val tt /\ ls_response s' = Problem.default_response /\
    exists rq, parse_list_request (str "me") one_by_one = Ok rq /\ page_shown (K := shelf_requests) (shown (K := shelf_requests)) 1003 (str "me") rq shelf ListSnapshot.default_store (ls_cache s') p.
Proof.
  split; [by vm_compute|].
  apply (@list_request_confined memory_kernel memory_server memory_mutations memory_listings memory_listing_laws
           memory_list_api shelf_requests shelf_requests_calls readers memory_list_api_laws 1003 (str "me") one_by_one
           ListSnapshot.default_store shelf); [apply rtc_refl|by left|apply default_ok].
Defined.

Lemma list_request_returns_witness :
  let fuel := Z.to_nat (TAG_WAIT + 1) in
  let o := (handle_list_api fuel (str "me") one_by_one (session ListSnapshot.default_store) shelf).1.1 in
  TrashSafety.is_final o = true \/ o = Crashed.
Proof.
  intros fuel. apply (@list_request_returns memory_kernel memory_server memory_mutations memory_listings memory_listing_laws
    _ _ _ memory_list_api _ readers _ fuel (str "me") one_by_one ListSnapshot.default_store shelf).
  - by left.
  - apply default_ok.
  - cbn. lia.
  - subst fuel. rewrite Z2Nat.id; unfold TAG_WAIT; cbn; lia.
  - subst fuel. rewrite Z2Nat.id; unfold TAG_WAIT; lia.
Defined.
End ListApiContract.
