(* ===== verification/UploadRequests.v ===== *)
(** * Upload requests

    What happens to an upload between the HTTP server and [handle_upload]: the
    headers, the reserved names, the wait for the target path and for a slot, the
    inspection of the target and of the durable state ([server/router/files.rs]), the
    task that carries the upload and the deadline it races with ([run_tracked_upload]
    of [server.rs]), and what a client is told when the request fails
    ([process_request] of [server/router.rs]). *)

From S2P Require Import Prelude Paths PathKeys Sql StateModel UploadStore PurgeStore RootedPaths PathPolicy StateScan.
From S2P Require Import Problem UploadProtocol UploadWorld UploadRecord UploadFailure UploadPrepare UploadHandler.

Module UploadRequests.
Import UploadProtocol UploadFailure UploadPrepare UploadHandler.

(** ** What a request asks of its environment *)

(** Semaphores, the path coordinator, the probes of the target, the purge jobs and the
    answers of the file system to a scan of them.  [elapsed d] tells whether the
    deadline [d] fired while the preceding call ran.  The task of an upload runs
    beside the request that awaits it: [cancelled] is what
    [cancel_upload_before_mutation] returned to that request when its deadline fired,
    if it did; [join_task] is the last moment at which it can. *)
Class RequestEnv `{UploadEnv} : Type := {
  enter_request : World -> bool * World;
  path_wait_slot : World -> bool * World;
  acquire_path : bytes -> Z -> World -> bool * World;
  upload_slot : World -> bool * World;
  state_scan_slot : World -> bool * World;
  elapsed : Z -> World -> bool * World;
  platform_path_conflict : bytes -> World -> option (result IoError bool) * World;
  route_metadata : bytes -> World -> option (result IoError (option Metadata)) * World;
  guard_root_contained : bytes -> World -> option (result IoError bool) * World;
  Directory : Type;
  purges_now : World -> PurgeStore.Table * World;
  resolving_fs : World -> RootedPaths.Fs Directory * World;
  cancelled : World -> option bool;
  join_task : World -> World;
  (* configuration *)
  parse_uuid : bytes -> option bytes;
  upload_total_timeout : Z;
  path_policy : PathPolicy.PathPolicy;
  platform_reserved_paths : list bytes }.

(** [MutationProgress::cancel_upload_before_mutation]: what it returns and leaves in
    the cell. *)
Definition cancel_upload_before_mutation (cell : Z) : bool * Z :=
  if (cell =? PREFLIGHT)%Z then (true, CANCELLED_BEFORE_UPLOAD_MUTATION) else (false, cell).

Inductive Method : Type := PUT | PATCH.
#[global] Instance Method_eq_dec : EqDecision Method.
Proof. solve_decision. Defined.

Definition BAD_REQUEST : Z := 400.
Definition TOO_MANY_REQUESTS : Z := 429.
Definition GATEWAY_TIMEOUT : Z := 504.

Record UploadRequest : Type := {
  ur_id : bytes;
  ur_length : Z;
  ur_mode : UploadMode;
  ur_overwrite : UploadOverwritePolicy }.

Record UploadRequestContext : Type := {
  uc_id : bytes;
  uc_length : Z;
  uc_offset : option Z }.

Section requests.
Context `{R : RequestEnv}.

Definition ask {A} (op : World -> A * World) : M A := fun s =>
  let '(a, w) := op (world s) in (Val a, with_world w s).

(** ** Headers *)

Definition render_bad_upload_header (code : ErrorCode) (detail : string) : M unit :=
  respond (render_problem (new_api_error BAD_REQUEST code (str detail))).

(** A header that must be there: its value, or the request has been answered. *)
Definition required {A} (parsed : result string (option A)) (code : ErrorCode) (missing : string)
    : M (option A) :=
  match parsed with
  | Ok (Some value) => mret (Some value)
  | Ok None => answered (render_bad_upload_header code missing)
  | Err detail => answered (render_bad_upload_header code detail)
  end.

Definition parse_required_upload_id (headers : HeaderMap) : M (option bytes) :=
  required (parse_upload_id parse_uuid headers) INVALID_UPLOAD_ID "The x-xczs-upload-id header is required".

Definition parse_required_upload_length (headers : HeaderMap) : M (option Z) :=
  required (parse_upload_length headers) INVALID_UPLOAD_LENGTH "The x-xczs-upload-length header is required".

Definition parse_upload_mode (method : Method) (headers : HeaderMap) : M (option UploadMode) :=
  if negb (bool_decide (method = PATCH)) then mret (Some Fresh)
  else
    proceed (required (parse_upload_offset headers) INVALID_UPLOAD_OFFSET
               "The x-xczs-upload-offset header is required") (fun offset => mret (Some (Resume offset))).

Definition parse_overwrite (headers : HeaderMap) : M (option UploadOverwritePolicy) :=
  match parse_upload_overwrite headers with
  | Ok value => mret (Some value)
  | Err (ErrUploadOverwrite detail) => answered (render_bad_upload_header INVALID_UPLOAD_OVERWRITE detail)
  | Err (ErrTargetRevision detail) => answered (render_bad_upload_header INVALID_TARGET_REVISION detail)
  end.

Definition parse_mutation_headers (method : Method) (headers : HeaderMap) : M (option UploadRequest) :=
  proceed (parse_required_upload_id headers) (fun id =>
  proceed (parse_required_upload_length headers) (fun length =>
  proceed (parse_upload_mode method headers) (fun mode =>
  proceed (parse_overwrite headers) (fun overwrite =>
  mret (Some {| ur_id := id; ur_length := length; ur_mode := mode; ur_overwrite := overwrite |}))))).

(** [RequestProfile]: what a response can say of an upload whose headers are there. *)
Definition upload_context (headers : HeaderMap) : option UploadRequestContext :=
  let value {A} (parsed : result string (option A)) := match parsed with Ok o => o | Err _ => None end in
  match value (parse_upload_id parse_uuid headers), value (parse_upload_length headers) with
  | Some id, Some length =>
      Some {| uc_id := id; uc_length := length; uc_offset := value (parse_upload_offset headers) |}
  | _, _ => None
  end.

(** ** Before the upload runs *)

Definition render_upload_rejection (u : UploadRequest) (status : Z) (code : ErrorCode) (detail : bytes)
    (recovery : RecoveryAdvice) : M unit :=
  apply_upload_problem (error_context (ur_id u) PsNotStarted (Some (ur_length u)) (mode_offset (ur_mode u)))
    status code detail recovery.

Definition reserved_upload_target (route_path : bytes) : bool :=
  match head (split SLASH route_path) with
  | Some part => PathPolicy.is_reserved_component platform_reserved_paths path_policy part
  | None => false
  end
  || PathPolicy.is_platform_path platform_reserved_paths route_path
  || PathPolicy.is_platform_ancestor platform_reserved_paths route_path.

Definition target_not_found (u : UploadRequest) : M unit :=
  render_upload_rejection u NOT_FOUND UPLOAD_TARGET_NOT_FOUND (str "Upload target not found") NoAdvice.

(** The lease on the target, and then a slot: an upload that waits for its path holds
    no slot. *)
Definition acquire_target_admission (u : UploadRequest) (path : bytes) (deadline : Z) : M (option unit) :=
  admitted ← ask path_wait_slot;
  if negb admitted then
    answered (render_upload_rejection u TOO_MANY_REQUESTS PATH_WAIT_CONCURRENCY_LIMIT
      (str "Too many path-coordinated requests are active") (RetryAfterSeconds 1))
  else
    acquired ← ask (acquire_path path deadline);
    if negb acquired then
      answered (render_upload_rejection u TIMEOUT UPLOAD_PATH_WAIT_TIMEOUT
        (str "Upload timed out while waiting for the target path") Retry)
    else
      slot ← ask upload_slot;
      if negb slot then
        answered (render_upload_rejection u TOO_MANY_REQUESTS UPLOAD_CONCURRENCY_LIMIT
          (str "Too many concurrent uploads") (RetryAfterSeconds 1))
      else mret (Some tt).

(** The probe of the target: its metadata, and whether its absence is to be hidden. *)
Definition probe_target (path : bytes) : M (option Metadata * bool) :=
  conflict ← io (platform_path_conflict path);
  if conflict : bool then mret (None, true)
  else
    metadata ← io (route_metadata path);
    hidden ← (if bool_decide (is_Some metadata) then mret false else io (guard_root_contained path));
    mret (metadata, hidden).

(** The probe runs in a task of its own, which goes on when the deadline fires. *)
Definition inspect_target (u : UploadRequest) (path : bytes) (deadline : Z)
    : M (option (option Metadata * bool)) :=
  probed ← attempt (probe_target path);
  late ← ask (elapsed deadline);
  if late : bool then
    answered (render_upload_rejection u TIMEOUT UPLOAD_TARGET_INSPECTION_TIMEOUT
      (str "Upload timed out while inspecting the target") Retry)
  else match probed with Ok found => mret (Some found) | Err e => throw e end.

Definition prepare_target (u : UploadRequest) (path : bytes) : M (option Z) :=
  start ← now;
  let deadline := (start + upload_total_timeout)%Z in
  proceed (acquire_target_admission u path deadline) (fun _ =>
  proceed (inspect_target u path deadline) (fun found =>
  if bool_decide (found.1 = None) && found.2 then answered (target_not_found u)
  else mret (Some deadline))).

(** The scan over the upload sessions and purge jobs there are; the fuel is one more
    than there are rows. *)
Definition scan_descendants (fs : RootedPaths.Fs Directory) (p : PurgeStore.Table) (path : bytes) : M bool :=
  fun s =>
    (match StateScan.has_persisted_path_descendant (RootedPaths.resolve_state_path root_path)
             (RootedPaths.resolved_path_key_blocking fs) (S (size (StateScan.state_paths (table s) p)))
             (table s) p path with
     | Some (Ok found) => Val found
     | Some (Err e) => Fail (EOther e)
     | None => Crashed
     end, s).

Definition persisted_path_descendant (path : bytes) : M bool :=
  admitted ← ask state_scan_slot;
  if negb admitted then throw (EOther "Durable state path scan admission is at capacity")
  else
    p ← ask purges_now;
    fs ← ask resolving_fs;
    verdict ← ask store_dispatch;
    match verdict with
    | DbRefused => throw EDispatch
    | DbFailed | DbLost _ => throw (EOther "state store")
    | DbCrashed _ => fun s => (Crashed, s)
    | DbRun _ => scan_descendants fs p path
    end.

(** ** The task of an upload *)

(** [await_tracked_upload_task]: the request is answered when the task ends, or when
    its deadline fires; in that case the boundary is closed if the task has not
    crossed it. *)
Definition await_tracked_upload_task (options : UploadOptions) (result : result Error unit) : M unit :=
  let answer state code detail recovery :=
    _ ← respond (fun _ => default_response);
    apply_upload_problem
      (error_context (op_upload_id options) state (Some (op_upload_length options)) (mode_offset (op_mode options)))
      TIMEOUT code detail recovery in
  verdict ← (fun s => (Val (cancelled (world s)), s));
  match verdict with
  | None => match result with Ok _ => mret tt | Err e => throw e end
  | Some true =>
      answer PsNotStarted REQUEST_TIMEOUT (str "Upload deadline exceeded before any upload mutation") Retry
  | Some false =>
      answer PsUnknown UPLOAD_OUTCOME_UNKNOWN (str "Upload deadline exceeded; the final result is unknown")
        QueryUpload
  end.

Definition run_tracked_upload (fuel : nat) (path : bytes) (options : UploadOptions)
    (request_body_length : option Z) : M unit :=
  _ ← respond (fun _ => default_response);
  result ← attempt (handle_upload fuel path options request_body_length);
  _ ← ask (fun w => (tt, join_task w));
  await_tracked_upload_task options result.

Definition upload_options (owner : bytes) (u : UploadRequest) (deadline : Z) : UploadOptions :=
  {| op_owner := owner; op_mode := ur_mode u; op_upload_id := ur_id u; op_upload_length := ur_length u;
     op_overwrite := ur_overwrite u; op_deadline := deadline |}.

Definition run_upload (fuel : nat) (owner path : bytes) (u : UploadRequest) (deadline : Z)
    (request_body_length : option Z) : M unit :=
  run_tracked_upload fuel path (upload_options owner u deadline) request_body_length.

Definition dispatch_fresh_upload (fuel : nat) (owner path : bytes) (u : UploadRequest) (deadline : Z)
    (request_body_length : option Z) : M unit :=
  scanned ← attempt (persisted_path_descendant path);
  late ← ask (elapsed deadline);
  if late : bool then
    render_upload_rejection u TIMEOUT REQUEST_TIMEOUT
      (str "Upload timed out while inspecting durable safety state") Retry
  else
    match scanned with
    | Ok false => run_upload fuel owner path u deadline request_body_length
    | Ok true =>
        render_upload_rejection u CONFLICT UPLOAD_STATE_CONFLICT
          (str "Upload target conflicts with an active upload or pending delete") RefreshTarget
    | Err _ =>
        render_upload_rejection u UNAVAILABLE UPLOAD_STATE_UNAVAILABLE
          (str "Upload safety state is temporarily unavailable") (RetryAfterSeconds 1)
    end.

(** ** The request *)

(** [FileRequest::prepare_content] for [PUT] and [PATCH] *)
Definition upload_content (fuel : nat) (method : Method) (owner route_path : bytes) (headers : HeaderMap)
    (request_body_length : option Z) : M unit :=
  parsed ← parse_mutation_headers method headers;
  match parsed with
  | None => mret tt
  | Some u =>
      if reserved_upload_target route_path then target_not_found u
      else
        let path := PathPolicy.resolve_route path_policy route_path in
        prepared ← prepare_target u path;
        match prepared with
        | None => mret tt
        | Some deadline =>
            match method with
            | PUT => dispatch_fresh_upload fuel owner path u deadline request_body_length
            | PATCH => run_upload fuel owner path u deadline request_body_length
            end
        end
  end.

(** [AppError::from_anyhow]: the status of an error.  [IoError] has no constructor for a
    full disk or an exhausted quota, which the source answers with 507. *)
Definition app_error_status (e : Error) : Z :=
  match e with
  | EIo (RootedPaths.NotFound | RootedPaths.NotADirectory) => NOT_FOUND
  | EIo RootedPaths.PermissionDenied => 403
  | EIo RootedPaths.AlreadyExists => CONFLICT
  | EIo RootedPaths.InvalidInput => BAD_REQUEST
  | EIo RootedPaths.TimedOut => GATEWAY_TIMEOUT
  | _ => SERVER_ERROR
  end.

Definition app_error_message (e : Error) : bytes :=
  match e with
  | EIo (RootedPaths.NotFound | RootedPaths.NotADirectory) => str "Not Found"
  | EIo RootedPaths.PermissionDenied => str "Forbidden"
  | EIo RootedPaths.AlreadyExists => str "Conflict"
  | EIo RootedPaths.InvalidInput => str "Invalid request"
  | EIo RootedPaths.TimedOut => str "Filesystem operation timed out"
  | _ => str "Internal Server Error"
  end.

Definition api_error_from_app_error (e : Error) : ApiError :=
  let status := app_error_status e in
  let code :=
    if (status =? BAD_REQUEST)%Z then INVALID_REQUEST
    else if (status =? 403)%Z then REQUEST_FORBIDDEN
    else if (status =? NOT_FOUND)%Z then REQUEST_NOT_FOUND
    else if (status =? CONFLICT)%Z then REQUEST_CONFLICT
    else if (status =? GATEWAY_TIMEOUT)%Z then FILESYSTEM_TIMEOUT
    else if (status =? NO_SPACE)%Z then INSUFFICIENT_STORAGE
    else INTERNAL_ERROR in
  let recovery := if (status =? GATEWAY_TIMEOUT)%Z || (status =? UNAVAILABLE)%Z then Retry else NoAdvice in
  with_recovery recovery (new_api_error status code (app_error_message e)).

(** What is said of an upload that failed with an error. *)
Definition upload_error (u : UploadRequestContext) (unknown timed_out : bool) : M unit :=
  let context state := error_context (uc_id u) state (Some (uc_length u)) (uc_offset u) in
  if unknown then
    apply_upload_problem (context PsUnknown) (if timed_out then GATEWAY_TIMEOUT else SERVER_ERROR)
      UPLOAD_RESULT_UNKNOWN (str "Upload result could not be confirmed") QueryUpload
  else
    apply_upload_problem (context PsNotStarted) (if timed_out then TIMEOUT else UNAVAILABLE)
      (if timed_out then REQUEST_TIMEOUT else UPLOAD_PRECOMMIT_FAILED)
      (str "Upload stopped before any upload mutation") Retry.

Definition server_stopping (headers : HeaderMap) : M unit :=
  match upload_context headers with
  | Some u =>
      apply_upload_problem (error_context (uc_id u) PsNotStarted (Some (uc_length u)) (uc_offset u))
        UNAVAILABLE SERVER_STOPPING (str "Server is shutting down") (RetryAfterSeconds 1)
  | None =>
      respond (render_problem (with_recovery (RetryAfterSeconds 1)
        (new_api_error UNAVAILABLE SERVER_STOPPING (str "Server is shutting down"))))
  end.

(** [process_request] for a request of [owner] that is routed to [file_put] or
    [file_patch]: no time limit but its own is set on an upload. *)
Definition process_upload (fuel : nat) (method : Method) (owner route_path : bytes) (headers : HeaderMap)
    (request_body_length : option Z) : M unit :=
  entered ← ask enter_request;
  if negb entered then server_stopping headers
  else
    handled ← attempt (upload_content fuel method owner route_path headers request_body_length);
    match handled with
    | Ok _ => mret tt
    | Err e =>
        _ ← respond (fun _ => default_response);
        unknown ← outcome_can_be_unknown;
        match upload_context headers with
        | Some u => upload_error u unknown (app_error_status e =? GATEWAY_TIMEOUT)%Z
        | None => respond (render_problem (api_error_from_app_error e))
        end
    end.
End requests.
End UploadRequests.
