(* ===== verification/UploadBoundary.v ===== *)
(** * The mutation boundary of an upload

    The task of an upload and the request that awaits it race for the mutation cell:
    the task crosses the boundary before it changes anything, the request closes it
    when its deadline fires.  Until the boundary is crossed, no record and no byte of
    a file changes; once it is, no response says that the upload has not started. *)

From S2P Require Import Prelude Paths PathKeys Sql StateModel UploadStore PurgeStore RootedPaths PathPolicy StateScan.
From S2P Require Import Problem UploadProtocol UploadWorld UploadRecord UploadFailure UploadCommit UploadTransfer.
From S2P Require Import UploadPrepare UploadHandler UploadLaws UploadMemory UploadRuns UploadRequests.

Create HintDb boundary.

Module UploadBoundary.
Import UploadProtocol UploadRecord UploadFailure UploadCommit UploadTransfer UploadPrepare UploadHandler
  UploadRuns UploadRequests.

(** ** Laws *)

Section laws.
Context `{V : UploadView} `{!RequestEnv}.

(** Every file keeps its bytes; nothing is published and nothing of the body is read. *)
Record untouched (w w' : World) : Prop := {
  un_files : forall i, same_file w w' i;
  un_published : published w' = published w;
  un_delivered : delivered w' = delivered w }.

#[global] Instance untouched_preorder : PreOrder untouched.
Proof.
  split; [by split|]. intros a b c [] []. split; [|congruence..]. intros i. by eapply same_file_trans.
Qed.

Lemma quiet_untouched w w' : quiet w w' -> untouched w w'.
Proof. intros []. by split. Qed.

(** While the task makes a call, the deadline of the request may fire, once. *)
Inductive request_step (w w' : World) : Prop :=
| rq_waits : mutation_cell w' = mutation_cell w -> cancelled w' = cancelled w -> request_step w w'
| rq_fires b z :
    cancelled w = None -> cancel_upload_before_mutation (mutation_cell w) = (b, z) ->
    mutation_cell w' = z -> cancelled w' = Some b -> request_step w w'.

(** A step of the request before its task runs. *)
Definition preliminary (w w' : World) : Prop := untouched w w' /\ request_step w w'.
End laws.

Class BoundaryLaws `{V : UploadView} `{!RequestEnv} : Prop := {
  race_call w b w' : call_step w b w' -> request_step w w';
  race_set z w : mutation_cell (set_mutation_cell z w) = z /\ cancelled (set_mutation_cell z w) = cancelled w;
  race_join w : preliminary w (join_task w);
  pre_enter w : preliminary w (enter_request w).2;
  pre_path_wait w : preliminary w (path_wait_slot w).2;
  pre_acquire p d w : preliminary w (acquire_path p d w).2;
  pre_slot w : preliminary w (upload_slot w).2;
  pre_scan w : preliminary w (state_scan_slot w).2;
  pre_elapsed d w : preliminary w (elapsed d w).2;
  pre_conflict p w : preliminary w (platform_path_conflict p w).2;
  pre_metadata p w : preliminary w (route_metadata p w).2;
  pre_guard p w : preliminary w (guard_root_contained p w).2;
  pre_purges w : preliminary w (purges_now w).2;
  pre_resolving w : preliminary w (resolving_fs w).2 }.

(** ** Runs within a relation *)

Section within.
Context `{UploadEnv} (R : relation St) `{!PreOrder R}.

Definition Within {A} (m : M A) : Prop := forall s, R s (m s).2.

Lemma Within_ret {A} (a : A) : Within (mret a).
Proof. intros s. reflexivity. Qed.
Lemma Within_throw {A} e : Within (throw e : M A).
Proof. intros s. reflexivity. Qed.
Lemma Within_pure {A} (f : St -> outcome A) : Within (fun s => (f s, s)).
Proof. intros s. reflexivity. Qed.
Lemma Within_bind {A B} (m : M A) (f : A -> M B) : Within m -> (forall a, Within (f a)) -> Within (m ≫= f).
Proof.
  intros Hm Hf s. specialize (Hm s). unfold mbind, M_bind.
  destruct (m s) as [[a|e|] s']; [|exact Hm..]. cbn in *. etrans; [done|]. apply Hf.
Qed.
Lemma Within_attempt {A} (m : M A) : Within m -> Within (attempt m).
Proof. intros Hm s. specialize (Hm s). unfold attempt. by destruct (m s) as [[]]. Qed.
Lemma Within_call {A} (op : World -> option (result IoError A) * World) :
  (forall s, R s (with_world (op (world s)).2 s)) -> Within (call op).
Proof. intros Ho s. specialize (Ho s). unfold call. by destruct (op (world s)). Qed.
Lemma Within_of_io {A} (r : result IoError A) : Within (of_io r).
Proof. destruct r; intros s; reflexivity. Qed.
Lemma Within_io {A} (op : World -> option (result IoError A) * World) :
  (forall s, R s (with_world (op (world s)).2 s)) -> Within (io op).
Proof. intros. apply Within_bind; [by apply Within_call|apply Within_of_io]. Qed.
Lemma Within_of_result {A} (r : result string A) : Within (of_result r).
Proof. destruct r; intros s; reflexivity. Qed.
Lemma Within_ensure b e : Within (ensure_m b e).
Proof. destruct b; intros s; reflexivity. Qed.
Lemma Within_respond f : (forall s, R s (with_response (f (response s)) s)) -> Within (respond f).
Proof. intros Hf s. apply Hf. Qed.
Lemma Within_ask {A} (op : World -> A * World) :
  (forall s, R s (with_world (op (world s)).2 s)) -> Within (ask op).
Proof. intros Ho s. specialize (Ho s). unfold ask. by destruct (op (world s)). Qed.
Lemma Within_now : (forall s, R s (with_world (instant_now (world s)).2 s)) -> Within now.
Proof. intros Ho s. specialize (Ho s). unfold now. by destruct (instant_now (world s)). Qed.
Lemma Within_db {A} (command : UploadStore.Table -> Z -> result string (UploadStore.Table * A)) :
  (forall s, R s (with_world (store_dispatch (world s)).2 s)) ->
  (forall s now t a, command (table s) now = Ok (t, a) -> R s (with_table t s)) -> Within (db command).
Proof.
  intros Hd Hc s. specialize (Hd s). unfold db. destruct (store_dispatch (world s)) as [v w]. cbn [snd] in Hd.
  set (s1 := with_world w s) in *.
  assert (forall now t a, command (table s1) now = Ok (t, a) -> R s (with_table t s1)) as Hx
    by (intros; etrans; [exact Hd|]; by eapply Hc).
  destruct v as [|now|now| |[now|]]; try exact Hd;
    (destruct (command (table s1) now) as [[t a]|e] eqn:E; [by eapply Hx|exact Hd]).
Qed.
End within.

(** The definition at the head of a term. *)
Ltac unfold_head t := lazymatch t with ?f _ => unfold_head f | _ => unfold t end.

(** Runs within a relation, by the shape of the code; what is not a combinator is
    known or is unfolded.  [leaf] proves what is asked of a call or a response. *)
Ltac within leaf :=
  repeat (intros; try progress cbv zeta;
    match goal with
    | |- Within _ (match ?x with _ => _ end) => destruct x
    | |- Within _ _ => solve [eauto 2 with boundary nocore]
    | |- Within _ (mret _) => apply (Within_ret _)
    | |- Within _ (throw _) => apply (Within_throw _)
    | |- Within _ (of_io _) => apply (Within_of_io _)
    | |- Within _ (of_result _) => apply (Within_of_result _)
    | |- Within _ (ensure_m _ _) => apply (Within_ensure _)
    | |- Within _ (fun s => (_, s)) => apply (Within_pure _)
    | |- Within _ (mbind _ _) => apply (Within_bind _)
    | |- Within _ (attempt _) => apply (Within_attempt _)
    | |- Within _ (call (match ?x with _ => _ end)) => destruct x
    | |- Within _ (io (match ?x with _ => _ end)) => destruct x
    | |- Within _ (call _) => apply (Within_call _); [solve [intros; leaf]]
    | |- Within _ (io _) => apply (Within_io _); [solve [intros; leaf]]
    | |- Within _ (ask _) => apply (Within_ask _); [solve [intros; leaf]]
    | |- Within _ (respond _) => apply (Within_respond _); [solve [intros; leaf]]
    | |- Within _ now => apply (Within_now _); [solve [intros; leaf]]
    | |- Within _ (db _) => apply (Within_db _); [solve [intros; leaf]|solve [intros; leaf]]
    | |- Within _ (db _) => fail 1
    | |- Within _ ?m => unfold_head m
    end).

(** ** Before the boundary *)

Section before.
Context `{L : UploadLaws} `{!RequestEnv} `{B : !BoundaryLaws}.

(** No record and no byte changes; the request may close the boundary. *)
Record unstarted (s s' : St) : Prop := {
  id_world : untouched (world s) (world s');
  id_table : table s' = table s;
  id_race : rtc request_step (world s) (world s') }.

(** And the response does not speak of the upload's state. *)
Definition silent (s s' : St) : Prop := unstarted s s' /\ h_state (response s') = h_state (response s).

#[global] Instance unstarted_preorder : PreOrder unstarted.
Proof. split; [by split|]. intros a b c [] []. split; [by etrans|congruence|by etrans]. Qed.
#[global] Instance silent_preorder : PreOrder silent.
Proof. split; [done|]. intros a b c [? ?] [? ?]. split; [by etrans|congruence]. Qed.

Lemma unstarted_silent s s' : silent s s' -> unstarted s s'.
Proof. by intros []. Qed.
Lemma silent_world s w : untouched (world s) w -> request_step (world s) w -> silent s (with_world w s).
Proof. intros. split; [split; [done|done|by apply rtc_once]|done]. Qed.

Lemma silent_call {A} (op : World -> option (result IoError A) * World) s :
  quiet_op op -> is_call op -> silent s (with_world (op (world s)).2 s).
Proof. intros Hq Hc. apply silent_world; [apply quiet_untouched, Hq|eapply race_call, Hc]. Qed.

Lemma silent_preliminary s w : preliminary (world s) w -> silent s (with_world w s).
Proof. intros [? ?]. by apply silent_world. Qed.

Lemma silent_now s : silent s (with_world (instant_now (world s)).2 s).
Proof. apply silent_world; [apply quiet_untouched, law_now|eapply race_call, es_now]. Qed.
Lemma silent_dispatch s : silent s (with_world (store_dispatch (world s)).2 s).
Proof. apply silent_world; [apply quiet_untouched, law_dispatch|eapply race_call, es_dispatch]. Qed.
Lemma silent_seek f n s : silent s (with_world (file_seek_start f n (world s)).2 s).
Proof.
  apply silent_world; [|eapply race_call, es_seek].
  pose proof (law_seek f n (world s)) as Hl. destruct (file_seek_start f n (world s)). cbn.
  destruct Hl as (? & ? & ? & _). by split.
Qed.

Lemma silent_response s f : h_state (f (response s)) = h_state (response s) -> silent s (with_response (f (response s)) s).
Proof. intros. split; [by split|done]. Qed.
Lemma silent_table s t : t = table s -> silent s (with_table t s).
Proof. intros ->. split; [by split|done]. Qed.
End before.
#[global] Hint Resolve race_join pre_enter pre_path_wait pre_acquire pre_slot pre_scan pre_elapsed pre_conflict
  pre_metadata pre_guard pre_purges pre_resolving : boundary.

Ltac silent_leaf :=
  first [ apply silent_now | apply silent_dispatch | apply silent_seek
        | apply silent_call; [solve [auto with calm nocore]|intros ?; solve [auto with runs nocore]]
        | apply silent_preliminary; solve [auto with boundary nocore]
        | apply silent_response; reflexivity
        | apply silent_table; solve [by simplify_eq/= | inv_result; done] ].
Ltac silent := within silent_leaf.

Section silence.
Context `{L : UploadLaws} `{!RequestEnv} `{B : !BoundaryLaws}.

Lemma Silent_upload_session key : Within silent (upload_session key).
Proof. silent. Qed.
Lemma Silent_lookup a b c d : Within silent (lookup a b c d).
Proof. silent. Qed.
Lemma Silent_open_resumable c o st : Within silent (open_resumable_stage c o st).
Proof. silent. Qed.
Lemma Silent_reserve f n : Within silent (reserve f n).
Proof. silent. Qed.
Lemma Silent_space_confirmed l f : Within silent (space_confirmed l f).
Proof. silent. Qed.
Lemma Silent_wait fuel marker d : Within silent (wait_for_cleanup fuel marker d).
Proof. induction fuel as [|fuel IH]; cbn [wait_for_cleanup]; [intros s; done|]. silent. Qed.
Lemma Silent_active l s : silent s (with_world (set_active_upload_files l (world s)) s).
Proof. apply silent_world; [apply quiet_untouched, law_active|eapply race_call, es_active]. Qed.
Lemma Silent_leased l s : silent s (with_leased l s).
Proof. split; [by split|done]. Qed.
Lemma Silent_register k : Within silent (register_active k).
Proof.
  intros s. unfold register_active. case_bool_decide; [done|]. etrans; [apply Silent_active|apply Silent_leased].
Qed.
Lemma Silent_release : Within silent release_active.
Proof. intros s. etrans; [apply Silent_active|apply Silent_leased]. Qed.
#[local] Hint Resolve Silent_wait Silent_register : boundary.
Lemma Silent_track fuel p d : Within silent (track_active_upload_files fuel p d).
Proof. induction fuel as [|fuel IH]; cbn [track_active_upload_files]; [intros s; done|]. silent. Qed.
Lemma Silent_unknown : Within silent outcome_can_be_unknown.
Proof. intros s. done. Qed.
End silence.
#[global] Hint Resolve Silent_lookup Silent_open_resumable Silent_reserve Silent_space_confirmed Silent_wait
  Silent_register Silent_release Silent_track Silent_unknown : boundary.

(** Answers before the boundary. *)
Ltac unstarted_leaf :=
  first [ match goal with |- unstarted ?s (with_response _ ?s) => by split end
        | apply unstarted_silent; silent_leaf ].
Ltac unstarted := within unstarted_leaf.

Section answers.
Context `{L : UploadLaws} `{!RequestEnv} `{B : !BoundaryLaws}.

Lemma Idle_of_silent {A} (m : M A) : Within silent m -> Within unstarted m.
Proof. intros Hm s. apply Hm. Qed.
Lemma Idle_problem c st code d r : Within unstarted (apply_upload_problem c st code d r).
Proof. unstarted. Qed.
#[local] Hint Resolve Idle_problem : boundary.
Lemma Idle_target_conflict p ow c : Within unstarted (render_upload_target_conflict p ow c).
Proof. unstarted. Qed.
Lemma Idle_expired d i n o msg : Within unstarted (upload_deadline_expired_before_mutation d i n o msg).
Proof. unstarted. Qed.
End answers.
#[global] Hint Resolve Idle_problem Idle_target_conflict Idle_expired : boundary.

(** ** After the boundary *)

Section after.
Context `{V : UploadView} `{!RequestEnv} `{B : !BoundaryLaws}.

(** The boundary has been crossed; nobody says or was told that it was not. *)
Record Crossed (s : St) : Prop := {
  cr_cell : mutation_cell (world s) = DETACHED_COMMIT;
  cr_cancelled : cancelled (world s) <> Some true;
  cr_told : h_state (response s) <> Some PsNotStarted }.

Definition crossed (s s' : St) : Prop := Crossed s -> Crossed s'.
#[global] Instance crossed_preorder : PreOrder crossed.
Proof. split; [intros s Hs; exact Hs|]. intros a b c Hab Hbc Ha. by apply Hbc, Hab. Qed.

Lemma crossed_world s w : request_step (world s) w -> crossed s (with_world w s).
Proof.
  intros Hr [Hc Hn Ht]. destruct Hr as [E1 E2|b z E1 E2 E3 E4]; split; cbn; try done; try congruence.
  - rewrite Hc in E2. cbn in E2. congruence.
  - rewrite Hc in E2. cbn in E2. congruence.
Qed.

Lemma crossed_call {A} (op : World -> option (result IoError A) * World) s :
  is_call op -> crossed s (with_world (op (world s)).2 s).
Proof. intros Hc. eapply crossed_world, race_call, Hc. Qed.
Lemma crossed_now s : crossed s (with_world (instant_now (world s)).2 s).
Proof. eapply crossed_world, race_call, es_now. Qed.
Lemma crossed_dispatch s : crossed s (with_world (store_dispatch (world s)).2 s).
Proof. eapply crossed_world, race_call, es_dispatch. Qed.
Lemma crossed_table s t : crossed s (with_table t s).
Proof. intros []. by split. Qed.
Lemma crossed_response s f :
  (h_state (response s) <> Some PsNotStarted -> h_state (f (response s)) <> Some PsNotStarted) ->
  crossed s (with_response (f (response s)) s).
Proof. intros Hf []. split; cbn; auto. Qed.
End after.

Ltac crossed_leaf :=
  first [ apply crossed_now | apply crossed_dispatch | apply crossed_table
        | apply crossed_call; intros ?; solve [auto with runs nocore]
        | apply crossed_response; cbn; solve [done | congruence | repeat case_match; congruence] ].
Ltac crossed := within crossed_leaf.

Section crossing.
Context `{L : UploadLaws} `{!RequestEnv} `{B : !BoundaryLaws}.

Lemma Crossed_problem c st code d r :
  ec_state c <> PsNotStarted -> Within crossed (apply_upload_problem c st code d r).
Proof. intros Hc. unfold apply_upload_problem. crossed. Qed.
#[local] Hint Resolve Crossed_problem : boundary.

Lemma Crossed_begin : Within crossed begin_upload_mutation.
Proof. intros s Hs. unfold begin_upload_mutation. by rewrite (cr_cell _ Hs). Qed.
Lemma Crossed_active l s : crossed s (with_world (set_active_upload_files l (world s)) s).
Proof. eapply crossed_world, race_call, es_active. Qed.
Lemma Crossed_leased l s : crossed s (with_leased l s).
Proof. intros []. by split. Qed.
Lemma Crossed_register k : Within crossed (register_active k).
Proof.
  intros s. unfold register_active. case_bool_decide; [reflexivity|].
  etrans; [apply Crossed_active|apply Crossed_leased].
Qed.
Lemma Crossed_release : Within crossed release_active.
Proof. intros s. etrans; [apply Crossed_active|apply Crossed_leased]. Qed.
Lemma Crossed_wait fuel marker d : Within crossed (wait_for_cleanup fuel marker d).
Proof. induction fuel as [|fuel IH]; cbn [wait_for_cleanup]; [intros s; reflexivity|]. crossed. Qed.
#[local] Hint Resolve Crossed_register Crossed_wait : boundary.
Lemma Crossed_track fuel p d : Within crossed (track_active_upload_files fuel p d).
Proof. induction fuel as [|fuel IH]; cbn [track_active_upload_files]; [intros s; reflexivity|]. crossed. Qed.
Lemma Crossed_consume l n : Within crossed (consume_lease l n).
Proof. intros s. eapply crossed_world, race_call, es_consume. Qed.
Lemma Crossed_frame d : Within crossed (next_frame_op d).
Proof.
  intros s. unfold next_frame_op. pose proof (crossed_world s _ (race_call _ _ _ (es_frame (world s) d))) as Hc.
  by destruct (next_frame d (world s)).
Qed.
Lemma Crossed_rename a f b e : Within crossed (rename_op a f b e).
Proof.
  intros s. unfold rename_op. pose proof (crossed_world s _ (race_call _ _ _ (es_rename (world s) a f b e))) as Hc.
  by destruct (rename_replace_if_unchanged a f b e (world s)).
Qed.
#[local] Hint Resolve Crossed_begin Crossed_release Crossed_track Crossed_consume Crossed_frame
  Crossed_rename : boundary.
Lemma Crossed_accept f d l r i b c : Within crossed (accept_chunk f d l r i b c).
Proof. crossed. Qed.
#[local] Hint Resolve Crossed_accept : boundary.
Lemma Crossed_receive fuel f d l r i b : Within crossed (receive_loop fuel f d l r i b).
Proof. revert l r i b. induction fuel as [|fuel IH]; intros; cbn [receive_loop]; [intros s; reflexivity|]. crossed. Qed.
#[local] Hint Resolve Crossed_receive : boundary.
Lemma Crossed_persist f c o b : Within crossed (persist_checkpoint_inner f c o b).
Proof. crossed. Qed.
#[local] Hint Resolve Crossed_persist : boundary.
Lemma Crossed_reset ow i p st c : Within crossed (reset_and_ancestors ow i p st c).
Proof. crossed. Qed.
Lemma Crossed_discard f p : Within crossed (discard_unrecorded_stage f p).
Proof. crossed. Qed.
#[local] Hint Resolve Crossed_reset Crossed_discard : boundary.
Lemma Crossed_timed_out u f msg o c : Within crossed (finish_timed_out_upload u f msg o c).
Proof. crossed. case_bool_decide; crossed. Qed.
#[local] Hint Resolve Crossed_timed_out : boundary.
Lemma Crossed_commit u i v c f st : Within crossed (commit_ready_upload u i v c f st).
Proof. crossed. Qed.
#[local] Hint Resolve Crossed_commit : boundary.
Lemma Crossed_prepare_transferred t : Within crossed (prepare_transferred_upload t).
Proof. crossed. Qed.
#[local] Hint Resolve Crossed_prepare_transferred : boundary.
Lemma Crossed_transfer fuel t : Within crossed (transfer_upload_body fuel t).
Proof. crossed. Qed.
Lemma Crossed_report options r : Within crossed (report_error options r).
Proof. crossed. Qed.
Lemma Crossed_record_fresh u d v f c : Within crossed (record_fresh_stage u d v f c).
Proof. crossed. Qed.
Lemma Crossed_abandon u f c : Within crossed (abandon_fresh_stage u f c).
Proof. crossed. Qed.
Lemma Crossed_expired d i msg : Within crossed (upload_deadline_expired d i msg).
Proof. crossed. Qed.
End crossing.
#[global] Hint Resolve Crossed_problem Crossed_begin Crossed_release Crossed_track Crossed_timed_out Crossed_transfer Crossed_report
  Crossed_record_fresh Crossed_abandon Crossed_expired Crossed_persist Crossed_reset : boundary.

(** ** The phases of a request *)

Section phases.
Context `{L : UploadLaws} `{!RequestEnv} `{B : !BoundaryLaws}.
Context (s0 : St).

(** The boundary is open, or the request has closed it. *)
Definition uncrossed (w : World) : Prop :=
  mutation_cell w = PREFLIGHT /\ cancelled w = None \/
  mutation_cell w = CANCELLED_BEFORE_UPLOAD_MUTATION /\ cancelled w = Some true.

Record Before (s : St) : Prop := {
  bf_world : untouched (world s0) (world s);
  bf_table : table s = table s0;
  bf_cell : uncrossed (world s) }.

(** Before the boundary, and the request has not been answered. *)
Definition Open (s : St) : Prop := Before s /\ h_state (response s) = None.
Definition Live (s : St) : Prop := Open s \/ Crossed s.
Definition Phase (s : St) : Prop := Before s \/ Crossed s.

Lemma uncrossed_step w w' : uncrossed w -> request_step w w' -> uncrossed w'.
Proof.
  intros Hu [E1 E2|b z E1 E2 E3 E4]; [unfold uncrossed; by rewrite E1, E2|].
  destruct Hu as [[Hc _]|[_ Hc]]; [|congruence]. rewrite Hc in E2. cbn in E2. right. split; congruence.
Qed.

Lemma Before_idle s s' : Before s -> unstarted s s' -> Before s'.
Proof.
  intros [Hw Ht Hc] [Hw' Ht' Hr]. split; [by etrans|congruence|].
  clear -Hc Hr. induction Hr as [|a b c Hs _ IH]; [done|]. apply IH. by eapply uncrossed_step.
Qed.
Lemma Open_silent s s' : Open s -> silent s s' -> Open s'.
Proof. intros [Hb Hh] [Hi Ht]. split; [by eapply Before_idle|congruence]. Qed.
Lemma Live_silent s s' : Live s -> silent s s' -> crossed s s' -> Live s'.
Proof. intros [Ho|Hc] Hs Hx; [left; by eapply Open_silent|right; by apply Hx]. Qed.
Lemma Open_Phase s : Open s -> Phase s.
Proof. intros []. by left. Qed.
Lemma Live_Phase s : Live s -> Phase s.
Proof. intros [[? _]|?]; [by left|by right]. Qed.

(** A step of the preparation goes on with a value, or ends in one of the phases. *)
Definition Ends {A} (P : A -> St -> Prop) (r : result Error (option A)) (s : St) : Prop :=
  match r with Ok (Some a) => P a s | _ => Phase s end.

Lemma wp_then {A C} (m : M (option A)) (f : A -> M (option C)) P P' s :
  wp Phase m (Ends P) s -> (forall a s', P a s' -> wp Phase (f a) (Ends P') s') ->
  wp Phase (proceed m f) (Ends P') s.
Proof.
  intros Hm Hf. apply wp_bind. eapply wp_mono; [exact Hm|]. intros [[a|]|e] s1 Hs1; [by apply Hf|done..].
Qed.

Lemma wp_silent {A} (m : M A) (Q : result Error A -> St -> Prop) s :
  Within silent m -> Open s -> (forall r s', Open s' -> Q r s') -> wp Phase m Q s.
Proof.
  intros Hm Ho HQ. specialize (Hm s). unfold wp.
  destruct (m s) as [[a|e|] s']; cbn in Hm; [apply HQ..|apply Open_Phase]; by eapply Open_silent.
Qed.

Lemma wp_idle_answer {A} (m : M A) (Q : result Error A -> St -> Prop) s :
  Within unstarted m -> Before s -> (forall r s', Before s' -> Q r s') -> wp Phase m Q s.
Proof.
  intros Hm Ho HQ. specialize (Hm s). unfold wp.
  destruct (m s) as [[a|e|] s']; cbn in Hm; [apply HQ..|left]; by eapply Before_idle.
Qed.

Lemma wp_refused {A C} (m : M C) (P : A -> St -> Prop) s :
  Within unstarted m -> Open s -> wp Phase (m ≫= fun _ => mret None) (Ends P) s.
Proof.
  intros Hm [Hb _]. apply wp_bind, wp_idle_answer; [done|done|]. intros [x|e] s' Hs'; by left.
Qed.

Lemma wp_crossed {A} (m : M A) (Q : result Error A -> St -> Prop) s :
  Within crossed m -> Crossed s -> (forall r s', Crossed s' -> Q r s') -> wp Phase m Q s.
Proof.
  intros Hm Ho HQ. specialize (Hm s Ho). unfold wp.
  destruct (m s) as [[a|e|] s']; cbn in Hm; [by apply HQ..|by right].
Qed.

Lemma Ends_crossed {A} r s : Crossed s -> Ends (A := A) (fun _ => Crossed) r s.
Proof. intros Hs. destruct r as [[a|]|e]; [done|by right..]. Qed.

Lemma wp_all_crossed {A} (m : M (option A)) s :
  Within crossed m -> Crossed s -> wp Phase m (Ends (fun _ => Crossed)) s.
Proof. intros. apply wp_crossed; [done|done|]. intros. by apply Ends_crossed. Qed.

(** Both judgements at once, for code that runs on either side. *)
Lemma wp_live {A} (m : M A) (Q : result Error A -> St -> Prop) s :
  Within silent m -> Within crossed m -> Live s -> (forall r s', Live s' -> Q r s') -> wp Phase m Q s.
Proof.
  intros Hs Hc [Ho|Hx] HQ.
  - apply wp_silent; [done|done|]. intros. apply HQ. by left.
  - apply wp_crossed; [done|done|]. intros. apply HQ. by right.
Qed.

(** *** Crossing *)

Lemma wp_boundary s :
  Live s -> wp Phase begin_upload_mutation (fun r s' =>
    match r with Ok true => Crossed s' | Ok false => Before s' | Err _ => False end) s.
Proof.
  unfold wp, begin_upload_mutation. intros [[Hb Hh]|Hc]; [|by rewrite (cr_cell _ Hc)].
  destruct (bf_cell _ Hb) as [[Hc Hn]|[Hc Hn]]; rewrite Hc; cbn; [|done].
  destruct (race_set DETACHED_COMMIT (world s)). split; cbn; congruence.
Qed.

Lemma wp_begin a b c d s :
  Live s -> wp Phase (when (begin_upload_mutation_or_reject a b c d)) (Ends (fun _ => Crossed)) s.
Proof.
  intros Hs. apply wp_bind, wp_bind. eapply wp_mono; [by apply wp_boundary|].
  intros [[]|e] s1 H1; [by apply wp_ret, wp_ret| |done]. apply wp_bind.
  apply wp_idle_answer; [auto with boundary nocore|done|]. intros [[]|e] s2 H2; [by apply wp_ret, wp_ret; left|by left].
Qed.
End phases.

(** ** The preparation *)

(** Code that goes on before the boundary or answers there. *)
Ltac opens :=
  repeat (intros; try progress cbv zeta;
    match goal with
    | H : Open ?s0 ?s |- Open ?s0 ?s => exact H
    | H : Open ?s0 ?s |- Phase ?s0 ?s => exact (Open_Phase s0 s H)
    | |- wp _ (match ?x with _ => _ end) _ _ => destruct x
    | |- wp _ _ _ _ => solve [eauto 2 with opens nocore]
    | |- wp (Phase ?s0) (proceed _ _) _ _ => apply (wp_then s0 _ _ (fun _ => Open s0)); [|cbv beta]
    | |- wp _ (answered _) _ _ => apply wp_refused; [solve [unstarted]|]
    | |- wp _ (_ ≫= fun _ => mret None) _ _ => apply wp_refused; [solve [unstarted]|]
    | |- wp _ (mret _) _ _ => apply wp_ret; cbn
    | |- wp _ (throw _) _ _ => apply wp_throw; cbn
    | |- wp _ (mbind _ _) _ _ =>
        apply wp_bind; eapply wp_silent; [solve [silent]|eassumption|intros [?|?] ? ?; [|by apply Open_Phase]]
    end).
Create HintDb opens.

Section preparation.
Context `{L : UploadLaws} `{!RequestEnv} `{B : !BoundaryLaws}.
Context (s0 : St).

Lemma open_expired d i n o msg s :
  Open s0 s ->
  wp (Phase s0) (unless (upload_deadline_expired_before_mutation d i n o msg)) (Ends s0 (fun _ => Open s0)) s.
Proof.
  intros Hs. apply wp_bind, wp_bind. eapply wp_silent; [solve [silent]|done|].
  intros [t|e] s1 H1; [|by apply Open_Phase]. destruct (t <? d)%Z; [by apply wp_ret, wp_ret|].
  apply wp_bind, wp_idle_answer; [auto with boundary nocore|apply H1|]. intros [[]|e] s2 H2; [by apply wp_ret, wp_ret; left|by left].
Qed.
#[local] Hint Resolve open_expired : opens.

Lemma open_existing u mode r s :
  Open s0 s -> wp (Phase s0) (check_existing_record u mode r) (Ends s0 (fun _ => Open s0)) s.
Proof. unfold check_existing_record. opens. Qed.
Lemma open_checkpoint u o c s :
  Open s0 s -> wp (Phase s0) (check_checkpoint u o c) (Ends s0 (fun _ => Open s0)) s.
Proof. unfold check_checkpoint. opens. Qed.
Lemma open_select u mode ov r s :
  Open s0 s -> wp (Phase s0) (select_target u mode ov r) (Ends s0 (fun _ => Open s0)) s.
Proof. unfold select_target. opens. Qed.
#[local] Hint Resolve open_existing open_checkpoint open_select : opens.
Lemma open_consult fuel u options s :
  Open s0 s -> wp (Phase s0) (consult_record fuel u options) (Ends s0 (fun _ => Open s0)) s.
Proof. unfold consult_record. opens. Qed.

(** *** Crossing the boundary *)

(** A fresh upload crosses it before it creates its stage. *)
Lemma open_create_fresh fuel u d n s :
  Open s0 s -> wp (Phase s0) (create_fresh_stage fuel u d n) (Ends s0 (fun _ => Crossed)) s.
Proof.
  intros Hs. unfold create_fresh_stage.
  apply wp_bind. eapply wp_silent; [solve [silent]|done|]. intros [anchor|e] s1 H1; [|by apply Open_Phase].
  apply wp_bind. eapply wp_silent; [solve [silent]|done|]. intros [[lease|]|e] s2 H2; [|opens|by apply Open_Phase].
  eapply wp_then; [by apply open_expired|]. intros [] s3 H3.
  eapply wp_then; [apply wp_begin; by left|]. intros [] s4 H4.
  apply wp_all_crossed; [crossed|done].
Qed.

(** A resumed upload crosses it if its stage or its record has to be changed. *)
Lemma open_reopen u d o v c s :
  Open s0 s -> wp (Phase s0) (reopen_stage u d o v c) (Ends s0 (fun _ => Live s0)) s.
Proof.
  intros Hs. unfold reopen_stage.
  apply wp_bind. eapply wp_silent; [solve [silent]|done|]. intros [[file|]|e] s1 H1; [|opens|by apply Open_Phase].
  apply wp_bind. eapply wp_silent; [solve [silent]|done|]. intros [md|e] s2 H2; [|by apply Open_Phase].
  apply wp_bind. eapply wp_silent; [solve [silent]|done|]. intros [[]|e] s3 H3; [|by apply Open_Phase].
  eapply wp_then; [by apply open_expired|]. intros [] s4 H4.
  assert (forall (b : bool) i n x msg (m : M unit) s', Within crossed m -> Live s0 s' ->
    wp (Phase s0) (if b then proceed (when (begin_upload_mutation_or_reject i n x msg)) (fun _ => _ ← m; mret (Some tt))
                   else mret (Some tt)) (Ends s0 (fun _ => Live s0)) s') as Hmay.
  { intros b i n x msg m s' Hm Hl. destruct b; [|by apply wp_ret].
    eapply wp_then; [by apply wp_begin|]. intros [] s5 H5. apply wp_bind, wp_crossed; [done|done|].
    intros [[]|e] s6 H6; [by apply wp_ret; right|by right]. }
  eapply wp_then; [apply Hmay; [crossed|by left]|]. intros [] s5 H5.
  eapply wp_then; [apply Hmay; [crossed|done]|]. intros [] s6 H6. by apply wp_ret.
Qed.

(** Two readings of the clock with nothing between them give the same time. *)
Definition same_reading : Prop := forall w, (instant_now (instant_now w).2).1 = (instant_now w).1.

(** Where a stage is open: only a resumed upload may still be before the boundary. *)
Definition Ready (mode : UploadMode) (s : St) : Prop :=
  Crossed s \/ Open s0 s /\ is_resume mode = true /\ same_reading.

Lemma Ready_Live mode s : Ready mode s -> Live s0 s.
Proof. intros [?|[? _]]; [by right|by left]. Qed.

Lemma ready_step {A} (m : M A) mode (Q : result Error A -> St -> Prop) s :
  Within silent m -> Within crossed m -> Ready mode s ->
  (forall a s', Ready mode s' -> Q (Ok a) s') -> (forall e s', Phase s0 s' -> Q (Err e) s') -> wp (Phase s0) m Q s.
Proof.
  intros Hs Hc [Hx|(Ho & Hr)] HO HE.
  - apply wp_crossed; [done|done|]. intros [a|e] s' H'; [apply HO; by left|apply HE; by right].
  - apply wp_silent; [done|done|]. intros [a|e] s' H'; [apply HO; by right|by apply HE, Open_Phase].
Qed.

Lemma ready_refused {A C} (m : M C) mode (P : A -> St -> Prop) s :
  Within unstarted m -> Within crossed m -> Ready mode s -> wp (Phase s0) (m ≫= fun _ => mret None) (Ends s0 P) s.
Proof.
  intros Hi Hc [Hx|(Ho & _)]; [|by apply wp_refused].
  apply wp_bind, wp_crossed; [done|done|]. intros [x|e] s' H'; by right.
Qed.

Lemma ready_deadline u mode d f c msg s :
  Ready mode s -> wp (Phase s0) (deadline_after_stage u mode d f c msg) (Ends s0 (fun _ => Ready mode)) s.
Proof.
  intros [Hx|(Ho & Hm & Hsame)].
  - apply wp_bind, wp_crossed; [crossed|done|]. intros [t|e] s1 H1; [|by right].
    apply wp_bind. unfold wp at 1, outcome_can_be_unknown. rewrite (cr_cell _ H1). cbn. rewrite andb_false_r.
    apply wp_bind, wp_crossed; [crossed|done|]. intros [t'|e] s2 H2; [|by right].
    destruct (d <=? t')%Z; [|by apply wp_ret; left].
    apply wp_bind, wp_crossed; [crossed|done|]. intros [x|e] s3 H3; by right.
  - unfold deadline_after_stage. rewrite Hm. apply wp_bind. unfold wp at 1, now at 1.
    pose proof (Hsame (world s)) as Ht. pose proof (silent_now s) as Hq.
    destruct (instant_now (world s)) as [t w] eqn:E. cbn in Ht, Hq.
    assert (Open s0 (with_world w s)) as H1 by by eapply Open_silent.
    apply wp_bind. unfold wp at 1, outcome_can_be_unknown. cbn [world with_world].
    assert ((mutation_cell w =? DETACHED_COMMIT)%Z = false) as ->.
    { destruct H1 as [[_ _ [[Hc _]|[Hc _]]] _]; cbn in Hc; by rewrite Hc. }
    destruct (Z.leb_spec d t); cbn [andb negb]; [opens|]. apply wp_bind. unfold wp at 1, now.
    cbn [world with_world]. pose proof (silent_now (with_world w s)) as Hq'. cbn [world with_world] in Hq'.
    destruct (instant_now w) as [t' w'] eqn:E'. cbn [fst snd] in *. subst t'.
    rewrite (proj2 (Z.leb_gt d t)) by done. apply wp_ret. right. split; [by eapply Open_silent|done].
Qed.

Lemma ready_confirm u mode b f c r s :
  Ready mode s -> wp (Phase s0) (confirm_space u mode b f c r) (Ends s0 (fun _ => Ready mode)) s.
Proof.
  intros Hs. unfold confirm_space. destruct r as [lease|].
  - apply wp_bind, (ready_step _ mode); [silent|crossed|done| |done]. intros [] s1 H1; [by apply wp_ret|].
    destruct b; [by apply (ready_refused _ mode); [unstarted|crossed|]|].
    eapply wp_then; [by eapply wp_begin, Ready_Live|]. intros [] s2 H2.
    apply wp_bind, wp_crossed; [crossed|done|]. intros [x|e] s3 H3; by right.
  - destruct b; [by apply (ready_refused _ mode); [unstarted|crossed|]|].
    destruct (is_resume mode) eqn:Em.
    + apply wp_bind, wp_ret. apply (ready_refused _ mode); [unstarted|crossed|done].
    + destruct Hs as [Hx|(_ & Hm & _)]; [|congruence].
      apply wp_bind, wp_crossed; [crossed|done|]. intros [x|e] s1 H1; [|by right].
      apply wp_bind, wp_crossed; [crossed|done|]. intros [x'|e] s2 H2; by right.
Qed.

Lemma ready_finish u options t st fr n f c s :
  Ready (op_mode options) s ->
  wp (Phase s0) (finish_preparation u options t st fr n f c) (Ends s0 (fun _ => Crossed)) s.
Proof.
  intros Hs. unfold finish_preparation. cbv zeta.
  eapply wp_then; [by apply ready_deadline|]. intros [] s1 H1.
  apply wp_bind, (ready_step _ (op_mode options)); [destruct fr as [[[]]|]; silent|destruct fr as [[[]]|]; crossed|done| |done].
  intros reserved s2 H2.
  eapply wp_then; [by apply ready_confirm|]. intros lease s3 H3.
  eapply wp_then; [by apply ready_deadline|]. intros [] s4 H4.
  eapply wp_then; [by eapply wp_begin, Ready_Live|]. intros [] s5 H5. by apply wp_ret.
Qed.

(** *** The whole preparation *)

Definition in_time (mode : UploadMode) : Prop := is_resume mode = true -> same_reading.

Lemma open_stage fuel u options b t c s :
  in_time (op_mode options) -> Open s0 s ->
  wp (Phase s0) (stage_upload fuel u options b t c) (Ends s0 (fun _ => Crossed)) s.
Proof.
  intros Ht Hs. unfold stage_upload, body_too_long. cbv zeta.
  destruct (u64_checked_sub _ _) as [n|]; [|by apply wp_throw, Open_Phase].
  destruct (match b with Some m => (n <? m)%Z | None => false end); [opens; unstarted|].
  destruct (op_mode options) as [|off] eqn:Em; cbn [is_resume mode_offset].
  - apply (wp_then s0 _ _ (fun _ => Crossed));
      [apply (wp_then s0 _ _ (fun _ => Crossed)); [by apply open_create_fresh|]|].
    { intros made s1 H1. apply wp_ret. exact H1. }
    intros fresh s1 H1. apply (wp_then s0 _ _ (fun _ => Crossed)).
    + destruct fresh as [[[lease file] created]|]; [|by apply wp_throw; right].
      apply wp_all_crossed; [crossed|done].
    + intros staged s2 H2. apply ready_finish. by left.
  - apply (wp_then s0 _ _ (fun _ => Open s0)); [by apply wp_ret|]. intros fresh s1 H1.
    apply (wp_then s0 _ _ (fun _ => Live s0)).
    + destruct c as [c|]; [by apply open_reopen|]. by apply wp_throw, Open_Phase.
    + intros staged s2 H2. apply ready_finish. rewrite Em.
      destruct H2 as [H2|H2]; [right; split_and!; [done|done|by apply Ht]|by left].
Qed.

#[local] Hint Resolve open_consult : opens.
Lemma open_prepare fuel path options b s :
  in_time (op_mode options) -> Open s0 s ->
  wp (Phase s0) (prepare_upload fuel path options b) (Ends s0 (fun _ => Crossed)) s.
Proof.
  intros Ht Hs. unfold prepare_upload. cbv zeta.
  assert (forall u t c s', Open s0 s' -> wp (Phase s0) (stage_upload fuel u options b t c) (Ends s0 (fun _ => Crossed)) s')
    as Hstage by (intros; by apply open_stage). opens.
Qed.

Lemma wp_handled fuel path options b s :
  in_time (op_mode options) -> Open s0 s -> wp (Phase s0) (handle_upload fuel path options b) (fun _ => Phase s0) s.
Proof.
  intros Ht Hs. unfold handle_upload. apply wp_bind, wp_attempt, wp_bind.
  eapply wp_mono; [by apply open_prepare|].
  assert (forall r s', Phase s0 s' -> wp (Phase s0) (release_active ≫= fun _ => report_error options r) (fun _ => Phase s0) s')
    as Hend.
  { intros r s' [Hb|Hc].
    - apply wp_idle_answer; [|done|by left]. apply Within_bind; [apply _|apply Idle_of_silent, Silent_release|]. unstarted.
    - apply wp_crossed; [|done|by right]. apply Within_bind; [apply _|apply Crossed_release|]. auto with boundary nocore. }
  intros [[t|]|e] s1 H1; [|by apply wp_ret, Hend|by apply Hend].
  apply wp_crossed; [crossed|done|]. intros r s2 H2. apply Hend. by right.
Qed.

(** ** Requests *)

(** A response that says that nothing has started is true. *)
Definition Told (s : St) : Prop := Before s0 s \/ h_state (response s) <> Some PsNotStarted.
Definition Answered (r : result Error unit) (s : St) : Prop :=
  match r with Ok _ => Told s | Err _ => Phase s0 s end.

Lemma Phase_Told s : Phase s0 s -> Told s.
Proof. intros [?|[]]; [by left|by right]. Qed.

Lemma wp_told_answer m s :
  Within unstarted m -> Before s0 s -> wp (Phase s0) m Answered s.
Proof.
  intros. apply wp_idle_answer; [done|done|]. intros [[]|e] s' H'; by left.
Qed.

(** Before the boundary the cell does not say that the outcome can be unknown. *)
Lemma Before_cell s : Before s0 s -> (mutation_cell (world s) =? DETACHED_COMMIT)%Z = false.
Proof. intros [_ _ [[-> _]|[-> _]]]; done. Qed.

Lemma wp_await options r s : Phase s0 s -> wp (Phase s0) (await_tracked_upload_task options r) Answered s.
Proof.
  intros Hs. unfold await_tracked_upload_task. cbv zeta. apply wp_bind. unfold wp at 1. cbv beta.
  destruct (cancelled (world s)) as [[]|] eqn:Ec.
  - destruct Hs as [Hb|Hc]; [|by destruct (cr_cancelled _ Hc)]. apply wp_told_answer; [unstarted|done].
  - do 2 (apply wp_bind, wp_respond). apply wp_respond. by right.
  - destruct r as [[]|e]; [apply wp_ret; by apply Phase_Told|by apply wp_throw].
Qed.

Lemma wp_tracked fuel path options b s :
  in_time (op_mode options) -> Open s0 s -> wp (Phase s0) (run_tracked_upload fuel path options b) Answered s.
Proof.
  intros Ht Hs. unfold run_tracked_upload. apply wp_bind, wp_respond.
  assert (Open s0 (with_response default_response s)) as H1.
  { destruct Hs as [Hb _]. split; [by eapply Before_idle|done]. }
  apply wp_bind, wp_attempt. eapply wp_mono; [by apply wp_handled|]. intros r s2 H2.
  apply wp_bind. destruct H2 as [H2|H2].
  - apply wp_idle_answer; [unstarted|done|]. intros [[]|e] s3 H3; [apply wp_await|]; by left.
  - apply wp_crossed; [|done|].
    + apply Within_ask. intros s'. apply crossed_world, race_join.
    + intros [[]|e] s3 H3; [apply wp_await|]; by right.
Qed.

Lemma open_required {A} (parsed : result string (option A)) code missing s :
  Open s0 s -> wp (Phase s0) (required parsed code missing) (Ends s0 (fun _ => Open s0)) s.
Proof. unfold required. opens. Qed.
#[local] Hint Resolve open_required : opens.

Lemma open_mode method headers s :
  Open s0 s -> wp (Phase s0) (parse_upload_mode method headers)
    (Ends s0 (fun mode s' => Open s0 s' /\ (method = PUT -> mode = Fresh))) s.
Proof.
  intros Hs. unfold parse_upload_mode. case_bool_decide as Hm; cbn [negb].
  - subst. eapply wp_then; [by apply open_required|]. intros offset s1 H1. by apply wp_ret.
  - by apply wp_ret.
Qed.

Lemma open_headers method headers s :
  Open s0 s -> wp (Phase s0) (parse_mutation_headers method headers)
    (Ends s0 (fun u s' => Open s0 s' /\ (method = PUT -> ur_mode u = Fresh))) s.
Proof.
  intros Hs. unfold parse_mutation_headers.
  eapply wp_then; [by apply open_required|]. intros id s1 H1.
  eapply wp_then; [by apply open_required|]. intros length s2 H2.
  eapply wp_then; [by apply open_mode|]. intros mode s3 [H3 Hm].
  apply (wp_then s0 _ _ (fun _ => Open s0)); [unfold parse_overwrite; opens|].
  intros overwrite s4 H4. by apply wp_ret.
Qed.

Lemma open_admission u path d s :
  Open s0 s -> wp (Phase s0) (acquire_target_admission u path d) (Ends s0 (fun _ => Open s0)) s.
Proof. unfold acquire_target_admission. opens. Qed.
Lemma open_inspect u path d s :
  Open s0 s -> wp (Phase s0) (inspect_target u path d) (Ends s0 (fun _ => Open s0)) s.
Proof. unfold inspect_target. opens. Qed.
#[local] Hint Resolve open_admission open_inspect : opens.
Lemma open_target u path s :
  Open s0 s -> wp (Phase s0) (prepare_target u path) (Ends s0 (fun _ => Open s0)) s.
Proof. unfold prepare_target. opens. Qed.

Lemma Silent_descendant path : Within silent (persisted_path_descendant path).
Proof.
  assert (forall fs p, Within silent (scan_descendants fs p path)) as Hscan by (intros fs p s; reflexivity). silent.
Qed.

Lemma wp_dispatch fuel owner path u d b s :
  in_time (ur_mode u) -> Open s0 s ->
  wp (Phase s0) (dispatch_fresh_upload fuel owner path u d b) Answered s.
Proof.
  intros Ht Hs. unfold dispatch_fresh_upload.
  apply wp_bind, wp_attempt. apply wp_silent; [apply Silent_descendant|done|]. intros scanned s1 H1.
  apply wp_bind. apply wp_silent; [silent|done|]. intros [late|e] s2 H2; [|by apply Open_Phase].
  destruct late; [|destruct scanned as [[]|e]; [|by apply wp_tracked|]]; (apply wp_told_answer; [unstarted|apply H2]).
Qed.

Lemma wp_content fuel method owner route headers b s :
  (method = PATCH -> same_reading) -> Open s0 s ->
  wp (Phase s0) (upload_content fuel method owner route headers b) Answered s.
Proof.
  intros Hp Hs. unfold upload_content. apply wp_bind. eapply wp_mono; [by apply open_headers|].
  intros [[u|]|e] s1 H1; [|by apply wp_ret, Phase_Told|done]. destruct H1 as [H1 Hm].
  assert (in_time (ur_mode u)) as Ht.
  { destruct method; [by rewrite Hm|]. intros _. by apply Hp. }
  destruct (reserved_upload_target route); [apply wp_told_answer; [unstarted|apply H1]|].
  apply wp_bind. eapply wp_mono; [by apply open_target|].
  intros [[d|]|e] s2 H2; [|by apply wp_ret, Phase_Told|done].
  destruct method; [by apply wp_dispatch|by apply wp_tracked].
Qed.

Lemma wp_process fuel method owner route headers b s :
  (method = PATCH -> same_reading) -> Open s0 s ->
  wp (Phase s0) (process_upload fuel method owner route headers b) (fun _ => Told) s.
Proof.
  intros Hp Hs. unfold process_upload. apply wp_bind, wp_silent; [silent|done|].
  assert (forall (m : M unit) s, Within unstarted m -> Before s0 s -> wp (Phase s0) m (fun _ => Told) s) as Hi.
  { intros m s' Hm Hb. apply wp_idle_answer; [done|done|]. intros. by left. }
  intros [[]|e] s1 H1; cbn [negb]; [|apply Hi; [unstarted|apply H1]|by apply Phase_Told, Open_Phase].
  apply wp_bind, wp_attempt. eapply wp_mono; [by apply wp_content|]. intros [[]|e] s2 H2; [by apply wp_ret|].
  apply wp_bind, wp_respond, wp_bind. unfold wp at 1, outcome_can_be_unknown. cbn [world with_response].
  destruct H2 as [H2|H2].
  - rewrite (Before_cell _ H2). apply Hi; [|by eapply Before_idle]. unfold upload_error. unstarted.
  - rewrite (cr_cell _ H2). cbn [Z.eqb DETACHED_COMMIT Pos.eqb].
    destruct (upload_context headers) as [u|]; [|by apply wp_respond; right].
    apply wp_bind, wp_respond, wp_respond. by right.
Qed.
End preparation.

(** ** The theorem *)

(** A request that has just come in. *)
Definition incoming `{RequestEnv} (s : St) : Prop :=
  mutation_cell (world s) = PREFLIGHT /\ cancelled (world s) = None /\ response s = default_response.

(** For a resumed upload, under the condition that two readings of the clock with
    nothing between them agree; see [resumed_race] for what happens otherwise. *)
Lemma not_started_unless_raced `{L : UploadLaws} `{!RequestEnv} `{!BoundaryLaws}
    fuel method owner route headers body s s' :
  incoming s -> (method = PATCH -> same_reading) ->
  process_upload fuel method owner route headers body s = (Val tt, s') ->
  h_state (response s') = Some PsNotStarted ->
  table s' = table s /\ untouched (world s) (world s').
Proof.
  intros (Hc & Hn & Hr) Hp E Hh.
  assert (Open s s) as Ho by (split; [split; [done|done|by left]|by rewrite Hr]).
  pose proof (wp_process s fuel method owner route headers body s Hp Ho) as Hw. unfold wp in Hw. rewrite E in Hw.
  destruct Hw as [[Hw Ht _]|Hw]; [by split|done].
Qed.

(** C17. Not started means not started.  If a request to start an upload is answered with
    the state [not-started], because its headers, its target, its wait, its slot or its
    time did not allow it, because it failed, because the server was stopping, or
    because its deadline fired while its task was running, then it has changed nothing,
    and its task has changed nothing by the time it ends: every record, the bytes of
    every file and the published names are as they were, and no byte of the body has
    been read. *)
Theorem not_started_is_true `{L : UploadLaws} `{!RequestEnv} `{!BoundaryLaws}
    fuel owner route headers body s s' :
  incoming s ->
  process_upload fuel PUT owner route headers body s = (Val tt, s') ->
  h_state (response s') = Some PsNotStarted ->
  table s' = table s /\ untouched (world s) (world s').
Proof. intros Hi E Hh. by apply (not_started_unless_raced fuel PUT owner route headers body s s' Hi). Qed.

(** ** Runs in memory *)

Definition mem_fs : RootedPaths.Fs unit := {|
  RootedPaths.fs_root := tt; RootedPaths.fs_root_identity := {| device := 0; inode := 1 |};
  RootedPaths.fs_root_path := str "/srv"; RootedPaths.fs_dup := Ok;
  RootedPaths.fs_openat2 := fun _ => Err RootedPaths.NotFound;
  RootedPaths.fs_fstat := fun _ => Ok {| device := 0; inode := 1 |};
  RootedPaths.fs_parent := fun _ => Err RootedPaths.NotFound;
  RootedPaths.fs_statat := fun _ _ => Err RootedPaths.NotFound;
  RootedPaths.fs_child_identity := fun _ _ => Err RootedPaths.NotFound |}.

#[global] Instance mem_requests : RequestEnv := {|
  enter_request := fun w => (true, w); path_wait_slot := fun w => (true, w);
  acquire_path := fun _ _ w => (true, w); upload_slot := fun w => (true, w);
  state_scan_slot := fun w => (true, w); elapsed := fun _ w => (false, w);
  platform_path_conflict := fun _ => UploadMemory.ok false; route_metadata := fun _ => UploadMemory.ok None;
  guard_root_contained := fun _ => UploadMemory.ok false;
  Directory := unit; purges_now := fun w => (∅, w); resolving_fs := fun w => (mem_fs, w);
  cancelled := fun w : World => UploadMemory.tm_cancelled (UploadMemory.m_timing w); join_task := fun w => w;
  parse_uuid := fun v => Some (take 16 v); upload_total_timeout := 1000;
  path_policy := PathPolicy.new (str "/srv") (str "__assets__/"); platform_reserved_paths := [] |}.

Lemma mem_now_step (w : World) : request_step w (instant_now w).2.
Proof.
  cbn. unfold UploadMemory.mem_now. destruct (UploadMemory.tm_readings _) as [|t rest]; [by apply rq_waits|].
  destruct (_ <=? _)%Z; [|by apply rq_waits]. case_bool_decide as Hn; [|by apply rq_waits].
  eapply rq_fires; [exact Hn| |done|done]. cbn. unfold cancel_upload_before_mutation, PREFLIGHT.
  by destruct (UploadMemory.m_cell w =? 0)%Z.
Qed.

#[global] Instance mem_boundary : BoundaryLaws.
Proof.
  split; try done; try by (intros; split; [|apply rq_waits]).
  intros w b w' Hc. destruct Hc; try apply mem_now_step; try (by apply rq_waits);
    cbn; unfold UploadMemory.mem_open, UploadMemory.mem_create, UploadMemory.mem_write, UploadMemory.mem_rename,
      UploadMemory.mem_frame, UploadMemory.stat_of_inode; repeat case_match; by apply rq_waits.
Qed.

Definition upload_headers (offset : option bytes) : HeaderMap :=
  [(UPLOAD_ID_HEADER, str "aaaaaaaa-aaaa-aaaa-aaaa-aaaaaaaaaaaa"); (UPLOAD_LENGTH_HEADER, str "5")]
  ++ match offset with Some o => [(UPLOAD_OFFSET_HEADER, o)] | None => [] end.

(** The readings of the clock, and the time of the store, for a request whose deadline
    fires at 1000. *)
Definition at_time (readings : list Z) (store : Z) (s : St) : St :=
  with_world (UploadMemory.set_timing {| UploadMemory.tm_readings := readings; UploadMemory.tm_deadline := 1000;
                UploadMemory.tm_cancelled := None; UploadMemory.tm_store := store |} (world s)) s.
Definition body : list Frame := [Chunk (str "hel"); Chunk (str "lo")].

(** An upload in time is published; one whose deadline fires during its preparation is
    answered with [not-started]. *)
Example run_in_time :
  let '(r, s) := process_upload 20 PUT (str "me") (str "a") (upload_headers None) (Some 5%Z)
                   (UploadMemory.mem_start body) in
  r = Val tt /\ h_state (response s) = Some PsCommitted /\ pub_data <$> published (world s) = [str "hello"].
Proof. by vm_compute. Qed.

Definition late : St := at_time [0; 5000]%Z 1000 (UploadMemory.mem_start body).
Abbreviation late_end := ((process_upload 20 PUT (str "me") (str "a") (upload_headers None) (Some 5%Z) late).2).

Lemma late_answered :
  (process_upload 20 PUT (str "me") (str "a") (upload_headers None) (Some 5%Z) late).1 = Val tt /\
  h_state (response late_end) = Some PsNotStarted /\ cancelled (world late_end) = Some true.
Proof. by vm_compute. Qed.

Lemma not_started_is_true_witness :
  h_state (response late_end) = Some PsNotStarted /\ cancelled (world late_end) = Some true /\
  table late_end = table late /\ untouched (world late) (world late_end).
Proof.
  destruct late_answered as (Hr & Hh & Hc). split; [exact Hh|]. split; [exact Hc|].
  apply (not_started_is_true 20 (str "me") (str "a") (upload_headers None) (Some 5%Z) late).
  - by split_and!.
  - rewrite <- Hr. apply surjective_pairing.
  - exact Hh.
Defined.

(** An upload whose process died before it wrote anything, and a request that resumes it
    and whose deadline passes between the two readings of the clock after its stage is
    open. *)
Definition died_early : St :=
  (process_upload 1 PUT (str "me") (str "a") (upload_headers None) (Some 5%Z) (UploadMemory.mem_start [Chunk []])).2.
Definition resuming : St :=
  at_time (replicate 7 0 ++ [5000])%Z 1001
    (with_response default_response
       (with_world (UploadMemory.set_cell PREFLIGHT (UploadMemory.set_active [] (world died_early))) died_early)).
Definition written_at (s : St) : list Z := UploadStore.updated_at_ms <$> (map_to_list (table s)).*2.

(** The deadline of a resumed upload is read twice after its stage is open.  If it passes
    in between, and the request closes the boundary, the request is answered with
    [not-started] and the task writes the record of the upload all the same. *)
Example resumed_race :
  let '(r, s) := process_upload 20 PATCH (str "me") (str "a") (upload_headers (Some (str "0"))) (Some 5%Z) resuming in
  incoming resuming /\ r = Val tt /\ h_state (response s) = Some PsNotStarted /\
  written_at resuming = [1000%Z] /\ written_at s = [1001%Z].
Proof. by vm_compute. Qed.
End UploadBoundary.
